(* ===== verification/_CoqProject ===== *)
-Q . S2P
Prelude.v
SeekSequence.v
AbsPath.v
PatchParser.v
Replacements.v
PatchApply.v
ExecPolicy.v
PolicyLanguage.v
StreamText.v
InlineTag.v
TaggedLine.v
AssistantText.v
Utf8Stream.v
ShellScript.v
CommandSafety.v
HeadTailBuffer.v
Truncation.v
OutputTruncation.v
Template.v
ResponseItems.v
Normalize.v
History.v
ThinkParser.v
EventBridge.v
Delegation.v
Auditor.v
Dispatch.v
DecisionLog.v
Orchestrate.v
Classifier.v
SensitiveOutput.v
PatchInvocation.v
DelegateResponse.v
ContextPacker.v
FsPolicy.v
FsPolicyFacts.v
PatchSafety.v
IpAddress.v
NetworkPolicy.v
NetworkState.v
NetworkTasks.v
ExecApproval.v
ToolRun.v
StrictDelegation.v
NetworkApproval.v
PermissionMerge.v
BytePos.v
TextArea.v
TextAreaFacts.v
TextAreaTheorems.v
StreamDisplay.v
LegacyPolicy.v
LegacyPolicyFacts.v
LegacyPolicyTheorems.v
PasteBurst.v
Composer.v
ComposerTheorems.v
FuzzyMatch.v
Readiness.v
ConfigLayers.v
ConfigTheorems.v
AgentRegistry.v
AgentTheorems.v
RolloutTruncation.v
Hooks.v
HookTheorems.v
HookDiscovery.v
