(* ===== verification/Prelude.v ===== *)
(** * Codrex: a verification development for the Rust workspace codex-rs

    Codrex is a coding agent: a model proposes text, patches and shell
    commands, and the Rust workspace under src/codex-rs shows the text, applies
    the patches and decides which commands may run.  This development models
    the parts of the workspace whose answers have to be right for that to be
    safe, as Rocq functions that follow the source, and proves what they
    promise.

    ** The parts and their files

    - Patches (codex-rs/apply-patch).  A patch is text in a small language;
      [PatchParser] parses it into hunks (parser.rs), [SeekSequence] finds where
      the lines of a chunk are in a file (seek_sequence.rs), [Replacements]
      turns the chunks of an update into the new contents (lib.rs,
      compute_replacements and apply_replacements) and [PatchApply] runs the
      hunks against a file system (lib.rs, apply_patch down to each call of
      exec-server/src/file_system.rs) and reports them.  The file system is the
      class [ExecutorFileSystem] with the laws [FileSystemLaws] (what operations
      that succeed do; distinct paths do not alias, so hard links are outside
      them) and [FailureLaws] (what failed ones leave alone); an in-memory file
      system is an instance.
    - Paths (codex-rs/utils/absolute-path).  [AbsPath] models Unix
      [std::path::Path] as far as it is used and, on it, the crate's lexical
      resolution.
    - Execution policy (codex-rs/execpolicy).  [ExecPolicy] holds rules,
      policies, overlays and checks (policy.rs, rule.rs, decision.rs);
      [PolicyLanguage] holds the builtins a policy file calls, the validation of
      its examples, and appending a rule to a file (parser.rs, amend.rs).
    - Streamed text (codex-rs/utils/stream-parser).  [StreamText] states the
      trait StreamTextParser as a class with laws; [InlineTag]
      (inline_hidden_tag.rs, citation.rs) and [TaggedLine]
      (tagged_line_parser.rs, proposed_plan.rs) are instances; [AssistantText]
      (assistant_text.rs) composes them and [Utf8Stream] (utf8_stream.rs) feeds
      any lawful parser with bytes.
    - Shell commands (codex-rs/shell-command).  [ShellScript] reads the syntax
      tree of a script (bash.rs, shell_detect.rs) and [CommandSafety] decides
      what runs without asking and what is dangerous (command_safety/).
    - Output for the model.  [HeadTailBuffer] is the bounded buffer of a running
      process (core/src/unified_exec/head_tail_buffer.rs), [Truncation] cuts a
      text in the middle (utils/string/src/truncate.rs) and [OutputTruncation]
      cuts tool output to a policy (utils/output-truncation/src/lib.rs, with the
      policy of protocol/src/protocol.rs).
    - Conversation history (codex-rs/core/src/context_manager).  [ResponseItems]
      holds the items of a conversation (protocol/src/models.rs) and the tests
      that recognise injected context and the beginning of a turn
      (core/src/context, core/src/event_mapping.rs); [Normalize] pairs calls with
      outputs (normalize.rs) and [History] is the manager of the history
      (history.rs), which truncates what it records with [OutputTruncation].
    - Prompts (codex-rs/utils/template).  [Template] parses and renders the
      templates of prompts (lib.rs).
    - Permissions (codex-rs/protocol/src/permissions.rs).  [FsPolicy] holds the
      entries of a file-system policy, the access they give to a path, writable
      roots and the legacy sandbox policy; [FsPolicyFacts] has their theorems;
      [PermissionMerge] the extra permissions of a command: merged, reduced to
      what was asked for, and put on top of a policy
      (sandboxing/src/policy_transforms.rs, protocol/src/models.rs).
    - Approval in codex-rs/core.  [PatchInvocation] recognises a patch in a
      command and previews it (apply-patch/src/invocation.rs); [PatchSafety]
      decides whether a patch is applied without asking (safety.rs);
      [ExecApproval] what a command needs before it runs, from the rules of
      [ExecPolicy] and the lists of [CommandSafety] (exec_policy.rs); [ToolRun]
      runs a tool: approval, an attempt in a sandbox, and a retry without one
      (tools/orchestrator.rs, tools/sandboxing.rs); [NetworkApproval] asks about
      hosts while a tool runs (tools/network_approval.rs), behind the interface
      [Session] that [ToolRun] is stated over.
    - Network proxy (codex-rs/network-proxy).  [IpAddress] and [NetworkPolicy]
      hold addresses, hosts and domain patterns (policy.rs, config.rs),
      [NetworkState] the state and the decision for a host (state.rs,
      runtime.rs), [NetworkTasks] its operations interleaving at the lock.
    - Delegation to another model, which this fork adds.  [Delegation] holds
      specifications and decisions, [Auditor] the checks of a result, [Dispatch]
      one request, [DecisionLog] the log and [Orchestrate] the loop with its
      retries (codex-rs/orchestrator); [Classifier] decides what is delegated
      (classifier/).  [ThinkParser] and [EventBridge] read the stream of the other
      model (codex-rs/minimax).  [SensitiveOutput] blocks and redacts
      (core/src/sensitive_output.rs), [ContextPacker] packs the files that are
      sent and [DelegateResponse] reads the answer (core/src/minimax_delegate);
      [StrictDelegation] is the mode in which only delegated patches are applied
      (core/src/strict_delegation.rs).

    - The terminal (codex-rs/tui/src).  [BytePos] holds the functions of [str] that
      take byte positions; [TextArea] is the editor of the composer with its atomic
      elements (bottom_pane/textarea.rs, wrapping.rs), [TextAreaFacts] and
      [TextAreaTheorems] its invariant and theorems; [StreamDisplay] shows a
      streamed answer line by line (markdown_stream.rs, streaming/).  [PasteBurst]
      recognises a paste by the speed of its keys (bottom_pane/paste_burst.rs) and
      [Composer] leads keys and pastes through it to the editor
      (bottom_pane/chat_composer.rs); [ComposerTheorems] has their theorem.
    - The older execution policy (codex-rs/execpolicy-legacy).  [LegacyPolicy] is
      the whole crate: argument patterns and their resolution (arg_resolver.rs),
      the check of a program (program.rs) and of a policy (policy.rs), the builtins
      of a policy file (policy_parser.rs), the exit codes of the command
      (main.rs), the files of a call (execv_checker.rs) and the policy that comes
      with it (default.policy).  [LegacyPolicyFacts] says what a call means to a
      specification and [LegacyPolicyTheorems] has the theorems.
    - Configuration (codex-rs/config).  [ConfigLayers] is the stack of layers: how
      they are ordered and merged (state.rs, merge.rs, key_aliases.rs), overrides of
      the command line (overrides.rs), the origin of every value (fingerprint.rs)
      and constrained values (constraint.rs); [ConfigTheorems] has the theorems.
    - Sub-agents (codex-rs/core/src/agent).  [AgentRegistry] holds the paths of
      agents (protocol/src/agent_path.rs) and the registry that counts and names
      them (registry.rs), with the tasks that spawn and release them
      (control.rs); [AgentTheorems] has the theorems.
    - Rollouts.  [RolloutTruncation] cuts the record of a thread for a fork
      (core/src/thread_rollout_truncation.rs), over the items of [ResponseItems].
    - Hooks (codex-rs/hooks).  [Hooks] selects and runs the commands of the user,
      reads what they answer and combines the answers for each of the six events
      (events/, engine/), with the callers in core/src/hook_runtime.rs;
      [HookTheorems] has the theorems; [HookDiscovery] finds the handlers in the
      layers of [ConfigLayers] (engine/discovery.rs) and builds the engine.
    - Two utilities: [FuzzyMatch] (utils/fuzzy-match) and [Readiness]
      (utils/readiness), a flag that tasks wait for.

    This file is the prelude: strings and chars, the result type, the string
    functions of the Rust standard library, the tactics and the lemmas that the
    other files share.

    ** How the source is modelled

    A [char] is its code point in Z and a string is the list of its chars;
    where the code counts bytes, [byte_len] does, and byte slices are lists of
    byte values.  A fallible function returns [result] or [option]; a panic that
    the code could reach is a value of its own, so that its absence is a
    theorem.  Mutable state is passed explicitly.  Loops that are not
    structural take fuel: one more than the chars still to read in
    [InlineTag], the nodes of the tree in [ShellScript], the length of the
    path in shell detection, the bytes in [Utf8Stream], one more than the chars
    in [Template] and [ThinkParser], the retries allowed and one in
    [Orchestrate], the lines in [SensitiveOutput], the chars in
    [DelegateResponse], the components of a path for its ancestors, the elements
    and one in [TextArea], the tokens held and two in [Readiness], the height of the
    overlay in [ConfigLayers], and the theorems show that it is enough.  Shell
    wrappers are opened four deep, which is the limit of the code.  Where tasks
    share a state behind locks ([NetworkTasks], [NetworkApproval], [Readiness],
    [AgentRegistry]) each hold of a lock and each atomic operation is a step and
    the system is a step relation over a list of tasks.  Counters of [usize]
    are in Z with the saturating operations the code uses.  File-system calls,
    the Starlark evaluator, the tree-sitter grammar, the PowerShell parser
    process, the JSON, YAML and XML parsers, regular expressions and globs, SHA-1,
    the LRU crate, graphemes, words and widths of text, the markdown renderer, child processes, the home and current directories, shlex,
    the absolutize crate, the case mapping of Unicode, image files, the hash
    of a configuration layer, reviewers and hooks are parameters; the ids of new
    threads and the random choice of a nickname are free; tokio's watch channel is modelled from its
    documentation, and so is its Notify: a waiting task sleeps until
    [notify_waiters] has been called and then looks at the decision again.
    Definitions keep the names of the source.

    ** What the theorems show

    - Parsing: printing a patch and parsing it gives the patch back, parsing
      never gets stuck, its result is well formed, and a patch wrapped in a
      here-document means what it means unwrapped.
    - Updating: context lines are found at the leftmost place of the strictest
      comparison; the computed contents are the simultaneous replacement of the
      chunks' regions (but for a trailing blank line, which is lost); no sequence of chunks makes the code panic.
    - Applying: a successful run is a sequence of abstract file-system steps,
      one per hunk, reported as it happened; files no hunk names are untouched;
      a failure leaves the effect of the hunks before it and touches nothing but
      the files of the hunk that failed.
    - Paths: resolution is lexical resolution of the components, and a relative
      path without ".." stays below its base.
    - Policy: the decision is the strictest of the matching rules, an overlay
      never relaxes a policy, prefix patterns and allow-lists of host
      executables mean what they say, the last rule for a host wins, examples
      are checked on load, and an appended rule is there once.
    - Streams: for every way of cutting the input, the parsers do what a
      declarative reading of the whole text says; invalid bytes leave no trace.
    - Commands: a script that runs without asking consists of plain commands
      each of which may run on its own, nothing approved is also called
      dangerous, and approved git commands have a fixed shape.
    - Output: the buffer and the truncation keep the longest beginning and end
      that fit their budgets, never split a char, and report exactly what is
      gone; a list of items keeps what fits, every image, and a notice.
    - History: what is sent to the model is paired, removing an item takes its
      counterpart along, rolling back drops exactly the turns asked for, and the
      version tells appends from rewrites.
    - Templates: printing and parsing are inverse, and rendering is substitution
      or the error that the names given determine.
    - Permissions: the deepest entry decides, converting to the legacy policy and
      back keeps the access, denials survive a change of policy, the metadata
      of a workspace is not writable, extra permissions reach only the paths they
      name, and what is left of a grant lets nothing be read beyond grant or request.
    - Approval: a patch that is applied without asking, as the runtime parses it
      again from its text, sends writes and removals only below the writable roots,
      on any file system, if its text has no carriage return; the requirement for a command is determined on every
      branch; a command leaves the sandbox only with consent or if it is trusted,
      or if the file system has no restriction; an accepted amendment ends the
      prompting; a preview is what is applied, under the same condition on
      carriage returns.
    - Network: which hosts pass, that managed constraints hold in every
      interleaving, that a pattern contained in another is recognised, that no
      request passes without a yes for its host, that one question is open per
      host at a time, that every request is answered, and that a denial by the
      user fails the call.
    - Delegation: the loop returns, and refines a run of attempts that ends with
      the first accepted answer, a clarification or a drop; the auditor accepts
      exactly what meets the criteria, also an empty answer; streams are read as their whole text says
      and events come in the order of their protocol; an answer has the shape of
      its status and its patch parses; the packed context is within its budget
      and shows only files that may be shown; in the strict mode only delegated
      patches are accepted.
    - Terminal: no key and no call makes the editor panic, the cursor is never
      inside a char, nor inside an element unless a range was marked around it, keys
      keep elements whole, yanking undoes killing and the line of the cursor is
      drawn; while the width does not change, a streamed answer whose rendering only
      grows is shown as the rendering of its whole text, each line once, ticks show
      what is queued, and the pace does not flap; and what is typed reaches the text
      in order, whatever its timing and however much of it is taken for a paste, but
      for the question marks typed first, which toggle the shortcut overlay.
    - The older policy: arguments are resolved exactly as a cut of the call into
      the segments of its patterns, without a panic; a call matches exactly when a
      specification reads it; what is called safe writes no file and is accepted
      by a specification that does not forbid its program; the files of an
      accepted call are inside the folders given; the default policy loads and
      keeps its own examples.
    - Configuration: the effective value of a path is the one of the highest layer
      that sets it, tables merged; its recorded origin is that layer; replacing the
      user layer keeps the stack in order; a constrained value always meets its
      constraint.
    - Sub-agents: in every interleaving the count is that of the agents and
      reservations there are, and never exceeds the limit; paths are well formed.
    - Rollouts: the fork turns are those that survive the rollbacks, and a cut
      keeps the last of them.
    - Hooks: a denial that is read from any hook that matches is final, a permission
      needs a hook that allows and none that denies, and without either the user is
      asked; a tool call is refused exactly when a
      hook blocks it; every run that is announced is reported as over; a turn is
      continued only with a prompt; the handlers found are valid, numbered in
      order and have distinct ids.
    - Utilities: a fuzzy match is a subsequence, its score within bounds; a
      readiness flag is marked once, by a token that nobody else holds, and no
      wait ends early.

    Some theorems record behaviour that differs from what the source says or
    means; among them are the end-of-file search that does not fall back, lines
    lost by an update, a move onto the same file that deletes it, a git option that is
    checked only after the subcommand, a carriage return that makes the second
    parse of a patch write another file than was checked, a sandbox for the network
    alone that is left without asking, hunks for one file of which only the last
    is checked, a deny list that a link gets round, slices that panic, a rules
    file that cannot be read and takes the managed rules with it, the second
    name of apply_patch that the strict mode does not know, an intersection of
    permissions that writes more than was asked for, an element marked around the
    cursor, a line that a resize shows twice, a typed char that an Enter close
    behind it loses, a wait that misses the flag, a key with a dot that takes the
    origin of another value, a denial of a hook that a reserved field voids, and a
    rollback that counts other turns than the walk it shortens.

    ** What is not modelled

    The session, the handlers of tools and the model clients of codex-rs/core,
    the widgets of the terminal interface, the servers and the platform
    sandboxes: asynchronous input and output around the parts above.  Windows
    builds of the modelled crates.  The popups, the input history and the
    submission of the composer, whose effects are events of the application.
    The addresses in the configuration of the proxy, which the url crate parses,
    and the token estimates of the history, which are floats and image sizes. *)

From Stdlib Require Export ZArith Lia Ascii Sorting.Sorted.
From stdpp Require Export numbers sets gmap strings list.

#[global] Open Scope list_scope.
#[global] Set Default Goal Selector "!".

(** ** Rust scalars and strings

    A Rust [char] is a Unicode scalar value, here the [Z] of its code point,
    and a [str]/[String] is the list of its chars.  Byte positions are
    recovered with [utf8_len] where the code counts bytes. *)
Abbreviation char := Z (only parsing).
Abbreviation rstring := (list Z) (only parsing).

Declare Scope rust_scope.
Delimit Scope rust_scope with rust.

(** The code points of an ASCII literal. *)
Fixpoint lit (s : string) : rstring :=
  match s with
  | EmptyString => []
  | String c s' => Z.of_N (N_of_ascii c) :: lit s'
  end.
Arguments lit s%_string_scope.

Notation "$ s" := (lit s) (at level 1, format "$ s") : rust_scope.
#[global] Open Scope rust_scope.

(** [char::is_whitespace]: the Unicode White_Space property. *)
Definition is_whitespace (c : char) : bool :=
  ((9 <=? c) && (c <=? 13))%Z || (c =? 32)%Z || (c =? 133)%Z || (c =? 160)%Z
  || (c =? 5760)%Z || ((8192 <=? c) && (c <=? 8202))%Z
  || (c =? 8232)%Z || (c =? 8233)%Z || (c =? 8239)%Z || (c =? 8287)%Z
  || (c =? 12288)%Z.

(** Number of bytes of the UTF-8 encoding of a char ([char::len_utf8]). *)
Definition utf8_len (c : char) : nat :=
  if (c <? 128)%Z then 1
  else if (c <? 2048)%Z then 2
  else if (c <? 65536)%Z then 3 else 4.

(** [str::len]. *)
Definition byte_len (s : rstring) : nat := sum_list_with utf8_len s.

(** [usize] arithmetic of a 64-bit target: the saturating operations. *)
Definition USIZE_MAX : Z := (2 ^ 64 - 1)%Z.
Definition sat_add (a b : Z) : Z := Z.min (a + b) USIZE_MAX.
Definition sat_sub (a b : Z) : Z := Z.max (a - b) 0.
Definition sat_mul (a b : Z) : Z := Z.min (a * b) USIZE_MAX.

Definition NL : char := 10%Z.
Definition CR : char := 13%Z.

(** ** The result type *)
Inductive result (T E : Type) : Type :=
| Ok (v : T)
| Err (e : E).
Arguments Ok {T E} v.
Arguments Err {T E} e.

Definition result_bind {T U E} (r : result T E) (f : T → result U E) : result U E :=
  match r with
  | Ok v => f v
  | Err e => Err e
  end.

Definition map_err {T E F} (f : E → F) (r : result T E) : result T F :=
  match r with
  | Ok v => Ok v
  | Err e => Err (f e)
  end.

Definition is_ok {T E} (r : result T E) : bool :=
  match r with Ok _ => true | Err _ => false end.

Definition ok_or {T E} (e : E) (o : option T) : result T E :=
  match o with Some v => Ok v | None => Err e end.

Notation "'let?' x := e 'in' k" := (result_bind e (fun x => k))
  (at level 10, x pattern, e at level 100, k at level 200)
  : rust_scope.

(** ** String operations of the Rust standard library *)

Definition str_eqb (a b : rstring) : bool := bool_decide (a = b).
Infix "=?s" := str_eqb (at level 70) : rust_scope.

Fixpoint trim_start (s : rstring) : rstring :=
  match s with
  | [] => []
  | c :: s' => if is_whitespace c then trim_start s' else s
  end.

Definition trim_end (s : rstring) : rstring := rev (trim_start (rev s)).
Definition trim (s : rstring) : rstring := trim_end (trim_start s).

Fixpoint strip_prefix (p s : rstring) : option rstring :=
  match p, s with
  | [], _ => Some s
  | a :: p', b :: s' => if (a =? b)%Z then strip_prefix p' s' else None
  | _ :: _, [] => None
  end.

Definition starts_with (p s : rstring) : bool :=
  match strip_prefix p s with Some _ => true | None => false end.

Definition strip_suffix (p s : rstring) : option rstring :=
  match strip_prefix (rev p) (rev s) with
  | Some r => Some (rev r)
  | None => None
  end.

Definition ends_with (p s : rstring) : bool :=
  match strip_suffix p s with Some _ => true | None => false end.

Definition is_empty {A} (l : list A) : bool :=
  match l with [] => true | _ => false end.

(** [slice::last] / [Option::is_some_and(String::is_empty)]. *)
Definition last_is_empty (l : list rstring) : bool :=
  match last l with Some s => is_empty s | None => false end.

(** [str::split(c)]: always at least one piece. *)
Fixpoint split_on (c : char) (s : rstring) : list rstring :=
  match s with
  | [] => [[]]
  | a :: s' =>
      if (a =? c)%Z then [] :: split_on c s'
      else match split_on c s' with
           | [] => [[a]]
           | p :: ps => (a :: p) :: ps
           end
  end.

(** [slice::join]. *)
Fixpoint join (sep : rstring) (l : list rstring) : rstring :=
  match l with
  | [] => []
  | [s] => s
  | s :: l' => s ++ sep ++ join sep l'
  end.

(** [str::split_inclusive('\n')]: pieces keep their terminator, and a text
    that ends with one has no trailing empty piece. *)
Fixpoint split_inclusive (c : char) (s : rstring) : list rstring :=
  match s with
  | [] => []
  | a :: s' =>
      if (a =? c)%Z then [a] :: split_inclusive c s'
      else match split_inclusive c s' with
           | [] => [[a]]
           | p :: ps => (a :: p) :: ps
           end
  end.

(** What [str::lines] does with one piece: drop the "\n", then the "\r"
    before it; a final piece with no "\n" is kept whole. *)
Definition chomp_line (p : rstring) : rstring :=
  match strip_suffix [NL] p with
  | None => p
  | Some p' => match strip_suffix [CR] p' with None => p' | Some p'' => p'' end
  end.

Definition str_lines (s : rstring) : list rstring :=
  chomp_line <$> split_inclusive NL s.

(** Decimal rendering of a [usize] in a format string. *)
Fixpoint show_nat_go (fuel n : nat) (acc : rstring) : rstring :=
  let acc' := (48 + Z.of_nat (n mod 10))%Z :: acc in
  match fuel with
  | O => acc'
  | S fuel' => if n / 10 =? 0 then acc' else show_nat_go fuel' (n / 10) acc'
  end.
Definition show_nat (n : nat) : rstring := show_nat_go n n [].

(** [str::contains]. *)
Fixpoint contains (p s : rstring) : bool :=
  starts_with p s || match s with [] => false | _ :: s' => contains p s' end.
Definition contains_char (c : char) (s : rstring) : bool := existsb (Z.eqb c) s.

(** [str::split_once(c)] and [str::rsplit_once(c)]. *)
Fixpoint split_once (c : char) (s : rstring) : option (rstring * rstring) :=
  match s with
  | [] => None
  | a :: s' =>
      if (a =? c)%Z then Some ([], s')
      else match split_once c s' with
           | Some (x, y) => Some (a :: x, y)
           | None => None
           end
  end.
Definition rsplit_once (c : char) (s : rstring) : option (rstring * rstring) :=
  match split_once c (rev s) with
  | Some (x, y) => Some (rev y, rev x)
  | None => None
  end.

Definition count_char (c : char) (s : rstring) : nat := length (filter (λ a, a = c) s).

(** [str::trim_end_matches(c)]. *)
Fixpoint drop_while_char (c : char) (s : rstring) : rstring :=
  match s with
  | [] => []
  | a :: s' => if (a =? c)%Z then drop_while_char c s' else s
  end.
Definition trim_end_matches (c : char) (s : rstring) : rstring := rev (drop_while_char c (rev s)).

Definition is_ascii_digit (c : char) : bool := ((48 <=? c) && (c <=? 57))%Z.
Definition is_ascii_uppercase (c : char) : bool := ((65 <=? c) && (c <=? 90))%Z.
Definition is_ascii_lowercase (c : char) : bool := ((97 <=? c) && (c <=? 122))%Z.
Definition is_ascii_alphabetic (c : char) : bool := is_ascii_uppercase c || is_ascii_lowercase c.
Definition is_ascii_alphanumeric (c : char) : bool := is_ascii_alphabetic c || is_ascii_digit c.
Definition ascii_lower (c : char) : char := if is_ascii_uppercase c then (c + 32)%Z else c.
Definition to_ascii_lowercase (s : rstring) : rstring := ascii_lower <$> s.
Definition eq_ignore_ascii_case (a b : rstring) : bool :=
  to_ascii_lowercase a =?s to_ascii_lowercase b.

(** Membership of a string in a list of literals ([matches!], [slice::contains]). *)
Definition str_in (s : rstring) (l : list rstring) : bool := existsb (str_eqb s) l.

(** [iter().map(f).collect::<Result<Vec<_>, _>>()]. *)
Fixpoint collect_results {A T E} (f : A → result T E) (l : list A) : result (list T) E :=
  match l with
  | [] => Ok []
  | x :: l' =>
      let? v := f x in
      let? vs := collect_results f l' in
      Ok (v :: vs)
  end.

(** ** Automation *)
Create HintDb rust discriminated.
Create Rewrite HintDb rust.

(** Splits every boolean test of the context into the proposition it decides. *)
Ltac breflect :=
  repeat match goal with
    | H : _ && _ = true |- _ => apply andb_true_iff in H as [? ?]
    | H : _ || _ = false |- _ => apply orb_false_iff in H as [? ?]
    | H : negb _ = true |- _ => apply negb_true_iff in H
    | H : negb _ = false |- _ => apply negb_false_iff in H
    | H : (_ =? _)%Z = true |- _ => apply Z.eqb_eq in H
    | H : (_ =? _)%Z = false |- _ => apply Z.eqb_neq in H
    | H : (_ <=? _)%Z = true |- _ => apply Z.leb_le in H
    | H : (_ <=? _)%Z = false |- _ => apply Z.leb_gt in H
    | H : (_ <? _)%Z = true |- _ => apply Z.ltb_lt in H
    | H : (_ <? _)%Z = false |- _ => apply Z.ltb_ge in H
    | H : (_ =? _)%nat = true |- _ => apply Nat.eqb_eq in H
    | H : (_ =? _)%nat = false |- _ => apply Nat.eqb_neq in H
    | H : (_ <=? _)%nat = true |- _ => apply Nat.leb_le in H
    | H : (_ <=? _)%nat = false |- _ => apply Nat.leb_gt in H
    | H : (_ <? _)%nat = true |- _ => apply Nat.ltb_lt in H
    | H : (_ <? _)%nat = false |- _ => apply Nat.ltb_ge in H
    | H : (_ =?s _) = true |- _ => apply bool_decide_eq_true in H
    | H : (_ =?s _) = false |- _ => apply bool_decide_eq_false in H
    end.

(** One case split on the scrutinee of a [match] or [if], keeping its equation. *)
Ltac case_scrut :=
  match goal with
  | |- context [match ?x with _ => _ end] => destruct x eqn:?
  end.
Ltac case_scrut_in H :=
  match type of H with
  | context [match ?x with _ => _ end] => destruct x eqn:?
  end.

(** Opens [let? x := e in k = Ok v] into the results of its steps. *)
Ltac inv_result :=
  repeat match goal with
    | H : result_bind ?e _ = Ok _ |- _ =>
        let E := fresh "E" in
        destruct e eqn:E; cbn [result_bind] in H; [|discriminate H]
    | H : Ok _ = Ok _ |- _ => injection H as H; try subst
    | H : Err _ = Err _ |- _ => injection H as H; try subst
    | H : Ok _ = Err _ |- _ => discriminate H
    | H : Err _ = Ok _ |- _ => discriminate H
    end.

(** Decides a closed decidable proposition by evaluation. *)
Ltac vm_decide :=
  lazymatch goal with
  | |- ?P => apply (bool_decide_eq_true_1 P); vm_compute; reflexivity
  end.

(** ** Lemmas on strings *)

(** The two halves of a budget. *)
Lemma half_bounds m : (0 ≤ m → 0 ≤ m / 2 ∧ m / 2 ≤ m ∧ (m ≠ 0 → m / 2 < m))%Z.
Proof.
  intros Hm. pose proof (Z.div_mod m 2 ltac:(lia)). pose proof (Z.mod_pos_bound m 2 ltac:(lia)). lia.
Qed.

Lemma byte_len_app a b : byte_len (a ++ b) = byte_len a + byte_len b.
Proof. unfold byte_len. induction a as [|c a IH]; cbn; [done|]. rewrite IH. lia. Qed.

Lemma str_eqb_refl s : (s =?s s) = true.
Proof. by apply bool_decide_eq_true. Qed.
#[export] Hint Rewrite str_eqb_refl : rust.

Lemma str_eqb_eq a b : (a =?s b) = true ↔ a = b.
Proof. apply bool_decide_eq_true. Qed.

Lemma str_eqb_neq a b : a ≠ b → (a =?s b) = false.
Proof. apply bool_decide_eq_false_2. Qed.

Lemma strip_prefix_Some p s r : strip_prefix p s = Some r ↔ s = p ++ r.
Proof.
  revert s. induction p as [|a p IH]; intros [|b s]; cbn.
  1-3: clear; naive_solver.
  destruct (Z.eqb_spec a b) as [->|]; [rewrite IH|]; clear IH; naive_solver.
Qed.

Lemma strip_prefix_app p r : strip_prefix p (p ++ r) = Some r.
Proof. by apply strip_prefix_Some. Qed.
#[export] Hint Rewrite strip_prefix_app : rust.

Lemma starts_with_true p s : starts_with p s = true ↔ ∃ r, s = p ++ r.
Proof.
  unfold starts_with. destruct (strip_prefix p s) eqn:E.
  - apply strip_prefix_Some in E. naive_solver.
  - split; [done|]. intros [r ->]. by rewrite strip_prefix_app in E.
Qed.

Lemma strip_suffix_Some p s r : strip_suffix p s = Some r ↔ s = r ++ p.
Proof.
  unfold strip_suffix. destruct (strip_prefix (rev p) (rev s)) as [x|] eqn:E.
  - apply strip_prefix_Some in E.
    apply (f_equal (@rev Z)) in E. rewrite rev_app_distr, !rev_involutive in E.
    split; [intros [= <-]; done|]. intros ->. f_equal. by apply app_inv_tail in E.
  - split; [done|]. intros ->.
    rewrite rev_app_distr, strip_prefix_app in E. done.
Qed.

Lemma strip_suffix_app p r : strip_suffix p (r ++ p) = Some r.
Proof. by apply strip_suffix_Some. Qed.
#[export] Hint Rewrite strip_suffix_app : rust.

Lemma ends_with_true p s : ends_with p s = true ↔ ∃ r, s = r ++ p.
Proof.
  unfold ends_with. destruct (strip_suffix p s) eqn:E.
  - apply strip_suffix_Some in E. naive_solver.
  - split; [done|]. intros [r ->]. by rewrite strip_suffix_app in E.
Qed.

Lemma trim_start_idemp s : trim_start (trim_start s) = trim_start s.
Proof. induction s as [|c s IH]; cbn; [done|]. destruct (is_whitespace c) eqn:E; [done|]. cbn. by rewrite E. Qed.

Lemma trim_end_idemp s : trim_end (trim_end s) = trim_end s.
Proof. unfold trim_end. by rewrite rev_involutive, trim_start_idemp. Qed.

Lemma trim_start_suffix s : ∃ w, s = w ++ trim_start s ∧ forallb is_whitespace w = true.
Proof.
  induction s as [|c s (w & Hw & IH)]; [by exists []|]. cbn.
  destruct (is_whitespace c) eqn:E.
  - exists (c :: w). cbn. rewrite E, <- Hw. done.
  - by exists [].
Qed.

(** A text that starts with a non-blank char is left alone by [trim_start]. *)
Lemma trim_start_id c s : is_whitespace c = false → trim_start (c :: s) = c :: s.
Proof. intros E. cbn. by rewrite E. Qed.

Lemma trim_end_id s c : is_whitespace c = false → trim_end (s ++ [c]) = s ++ [c].
Proof.
  intros E. unfold trim_end. rewrite rev_app_distr. cbn [rev app].
  rewrite trim_start_id by done. cbn. by rewrite rev_involutive.
Qed.

Lemma is_empty_true {A} (l : list A) : is_empty l = true ↔ l = [].
Proof. by destruct l. Qed.

Lemma split_on_nonempty c s : split_on c s ≠ [].
Proof. destruct s; cbn; repeat case_match; done. Qed.

Lemma split_on_cons c s : ∃ p ps, split_on c s = p :: ps.
Proof. destruct (split_on c s) eqn:E; [by apply split_on_nonempty in E|eauto]. Qed.

Lemma join_cons sep s l : l ≠ [] → join sep (s :: l) = s ++ sep ++ join sep l.
Proof. by destruct l. Qed.

Lemma join_split c s : join [c] (split_on c s) = s.
Proof.
  induction s as [|a s IH]; [done|]. cbn [split_on].
  destruct (split_on_cons c s) as (p & ps & E). rewrite E in IH |- *.
  destruct (Z.eqb_spec a c) as [->|].
  - rewrite join_cons by done. by rewrite IH.
  - destruct ps; cbn in IH |- *; by rewrite IH.
Qed.

Lemma split_on_app_sep c a s :
  c ∉ a → split_on c (a ++ c :: s) = a :: split_on c s.
Proof.
  induction a as [|x a IH]; cbn; intros H.
  - by rewrite Z.eqb_refl.
  - apply not_elem_of_cons in H as [Hx Ha]. rewrite (IH Ha).
    destruct (Z.eqb_spec x c); [congruence|done].
Qed.

Lemma split_on_no_sep c a : c ∉ a → split_on c a = [a].
Proof.
  induction a as [|x a IH]; cbn; intros H; [done|].
  apply not_elem_of_cons in H as [Hx Ha]. rewrite (IH Ha).
  destruct (Z.eqb_spec x c); [congruence|done].
Qed.

Lemma split_join c l : l ≠ [] → Forall (λ s, c ∉ s) l → split_on c (join [c] l) = l.
Proof.
  induction l as [|s l IH]; [done|]. intros _ [Hs Hl]%Forall_cons.
  destruct l as [|t l].
  - cbn. by apply split_on_no_sep.
  - rewrite join_cons by done. cbn [app].
    rewrite split_on_app_sep by done. by rewrite IH.
Qed.

Lemma split_on_no_nl c s : Forall (λ p, c ∉ p) (split_on c s).
Proof.
  induction s as [|a s IH]; cbn.
  - by repeat constructor; apply not_elem_of_nil.
  - destruct (split_on_cons c s) as (p & ps & E). rewrite E in IH |- *.
    destruct (Z.eqb_spec a c).
    + constructor; [apply not_elem_of_nil|done].
    + apply Forall_cons in IH as [Hp Hps]. constructor; [|done].
      by apply not_elem_of_cons.
Qed.

Lemma split_inclusive_concat c s : concat (split_inclusive c s) = s.
Proof.
  induction s as [|a s IH]; [done|]. cbn. destruct (a =? c)%Z.
  - cbn. by rewrite IH.
  - destruct (split_inclusive c s) eqn:E; cbn in *; by rewrite <- IH.
Qed.

(** The two trims commute: a non-blank char bounds both. *)
Lemma trim_start_app s t :
  trim_start (s ++ t) =
    if forallb is_whitespace s then trim_start t else trim_start s ++ t.
Proof. induction s as [|c s IH]; cbn; [done|]. by destruct (is_whitespace c). Qed.

Lemma trim_start_all_ws s : forallb is_whitespace s = true → trim_start s = [].
Proof. intros H. rewrite <- (app_nil_r s), trim_start_app, H. done. Qed.

Lemma forallb_rev {A} (f : A → bool) l : forallb f (rev l) = forallb f l.
Proof. induction l as [|x l IH]; cbn; [done|]. rewrite forallb_app, IH. cbn. by rewrite andb_true_r, andb_comm. Qed.

Lemma trim_end_cons c s :
  trim_end (c :: s) =
    if forallb is_whitespace s then (if is_whitespace c then [] else [c])
    else c :: trim_end s.
Proof.
  unfold trim_end. cbn [rev]. rewrite trim_start_app, forallb_rev.
  destruct (forallb is_whitespace s); cbn.
  - by destruct (is_whitespace c).
  - by rewrite rev_app_distr.
Qed.

Lemma trim_end_all_ws s : forallb is_whitespace s = true → trim_end s = [].
Proof. intros H. unfold trim_end. rewrite trim_start_all_ws; [done|]. by rewrite forallb_rev. Qed.

Lemma trim_start_end s : trim_start (trim_end s) = trim_end (trim_start s).
Proof.
  induction s as [|c s IH]; [done|]. rewrite trim_end_cons. cbn [trim_start].
  destruct (is_whitespace c) eqn:Ec.
  - rewrite <- IH. destruct (forallb is_whitespace s) eqn:Es.
    + by rewrite trim_end_all_ws.
    + cbn [trim_start]. by rewrite Ec.
  - rewrite trim_end_cons, Ec.
    destruct (forallb is_whitespace s); cbn [trim_start]; by rewrite Ec.
Qed.

Lemma trim_end_eq_trim a b : trim_end a = trim_end b → trim a = trim b.
Proof. unfold trim. rewrite <- !trim_start_end. by intros ->. Qed.

Lemma split_on_app c a b : split_on c (a ++ c :: b) = split_on c a ++ split_on c b.
Proof.
  induction a as [|x a IH]; cbn; [by rewrite Z.eqb_refl|]. rewrite IH.
  destruct (x =? c)%Z; [done|]. destruct (split_on_cons c a) as (p & ps & ->). done.
Qed.

Lemma trim_nonempty c s : is_whitespace c = false → is_empty (trim (c :: s)) = false.
Proof.
  intros E. unfold trim. rewrite trim_start_id by done. rewrite trim_end_cons, E.
  by destruct (forallb is_whitespace s).
Qed.

(** A text bounded by non-blank chars is its own trim. *)
Lemma trim_id c s d t :
  is_whitespace c = false → is_whitespace d = false → c :: s = t ++ [d] →
  trim (c :: s) = c :: s.
Proof. intros Hc Hd E. unfold trim. rewrite trim_start_id by done. rewrite E. by apply trim_end_id. Qed.

(** ** Lines *)

(** A line that [str::lines] gives back unchanged. *)
Definition clean_line (l : rstring) : Prop := NL ∉ l ∧ last l ≠ Some CR.
#[export] Instance clean_line_dec l : Decision (clean_line l).
Proof. unfold clean_line. apply _. Defined.

Lemma split_inclusive_line l s :
  NL ∉ l → split_inclusive NL (l ++ NL :: s) = (l ++ [NL]) :: split_inclusive NL s.
Proof.
  induction l as [|a l IH]; intros H; [done|].
  apply not_elem_of_cons in H as [Ha H]. cbn. rewrite (IH H).
  by rewrite (proj2 (Z.eqb_neq a NL)) by congruence.
Qed.

Lemma split_inclusive_last l : NL ∉ l → l ≠ [] → split_inclusive NL l = [l].
Proof.
  induction l as [|a l IH]; intros H Hne; [done|].
  apply not_elem_of_cons in H as [Ha H]. cbn.
  rewrite (proj2 (Z.eqb_neq a NL)) by congruence.
  destruct l as [|b l]; [done|]. by rewrite IH.
Qed.

Lemma chomp_line_clean l : clean_line l → chomp_line (l ++ [NL]) = l.
Proof.
  intros [_ H]. unfold chomp_line. rewrite strip_suffix_app.
  destruct (strip_suffix [CR] l) as [r|] eqn:E; [|done].
  apply strip_suffix_Some in E as ->. by rewrite last_snoc in H.
Qed.

Lemma str_lines_cons l s : clean_line l → str_lines (l ++ NL :: s) = l :: str_lines s.
Proof.
  intros H. unfold str_lines. rewrite split_inclusive_line by apply H.
  rewrite fmap_cons. by rewrite chomp_line_clean.
Qed.

Lemma str_lines_last l : NL ∉ l → l ≠ [] → str_lines l = [l].
Proof.
  intros H Hne. unfold str_lines. rewrite split_inclusive_last by done. cbn.
  unfold chomp_line. destruct (strip_suffix [NL] l) eqn:E; [|done].
  apply strip_suffix_Some in E as ->. exfalso. apply H. set_solver.
Qed.

Lemma str_lines_join ls :
  ls ≠ [] → last ls ≠ Some [] → Forall clean_line ls → str_lines (join [NL] ls) = ls.
Proof.
  induction ls as [|l ls IH]; [done|]. intros _ Hl [Hc Hcs]%Forall_cons.
  destruct ls as [|l' ls].
  - cbn. apply str_lines_last; [apply Hc|]. by intros ->.
  - rewrite join_cons by done. cbn [app]. rewrite str_lines_cons by done. by rewrite IH.
Qed.

Lemma str_lines_terminated ls :
  Forall clean_line ls → str_lines (concat ((λ l, l ++ [NL]) <$> ls)) = ls.
Proof.
  induction 1 as [|l ls Hl _ IH]; [done|]. cbn [fmap list_fmap concat].
  rewrite <- app_assoc. cbn [app].
  rewrite str_lines_cons by done. by rewrite IH.
Qed.

Lemma split_inclusive_app_nl a b :
  split_inclusive NL (a ++ NL :: b) = split_inclusive NL (a ++ [NL]) ++ split_inclusive NL b.
Proof.
  induction a as [|x a IH]; cbn; [done|]. rewrite IH.
  destruct (x =? NL)%Z; [done|].
  destruct (split_inclusive NL (a ++ [NL])) as [|p ps] eqn:E; [|done].
  apply (f_equal (@concat Z)) in E. rewrite split_inclusive_concat in E. by destruct a.
Qed.

(** Lines of a text that ends with a newline are not disturbed by what follows. *)
Lemma str_lines_app a b :
  a = [] ∨ last a = Some NL → str_lines (a ++ b) = str_lines a ++ str_lines b.
Proof.
  intros [->|H]; [done|]. apply last_Some in H as [a' ->].
  unfold str_lines. rewrite <- app_assoc. cbn [app].
  by rewrite split_inclusive_app_nl, fmap_app.
Qed.

Lemma collect_results_Ok {A T E} (f : A → result T E) l vs :
  collect_results f l = Ok vs → Forall2 (λ x v, f x = Ok v) l vs.
Proof.
  revert vs. induction l as [|x l IH]; intros vs H; cbn in H; inv_result; constructor; auto.
Qed.

(** Appending a newline ends the last line, whatever it was, unless it ended
    with a carriage return. *)
Lemma str_lines_terminate a :
  a ≠ [] → last a ≠ Some NL → last a ≠ Some CR → str_lines (a ++ [NL]) = str_lines a.
Proof.
  induction a as [a IH] using (well_founded_induction (well_founded_ltof _ length)).
  intros Hne Hnl Hcr.
  destruct (decide (NL ∈ a)) as [Hin|Hin].
  - apply list_elem_of_split in Hin as (x & y & ->).
    assert (str_lines (x ++ NL :: y) = str_lines (x ++ [NL]) ++ str_lines y) as ->.
    { rewrite cons_middle, app_assoc. apply str_lines_app. right. by rewrite last_snoc. }
    assert ((x ++ NL :: y) ++ [NL] = (x ++ [NL]) ++ (y ++ [NL])) as -> by by simplify_list_eq.
    rewrite str_lines_app by (right; by rewrite last_snoc).
    destruct y as [|c y]; [by rewrite last_snoc in Hnl|].
    f_equal. rewrite last_app_cons in Hnl, Hcr. rewrite last_cons_cons in Hnl, Hcr.
    apply IH; [|done..]. unfold ltof. rewrite length_app. cbn. lia.
  - rewrite (str_lines_last a) by done. apply (str_lines_cons a []). by split.
Qed.

(** ** Substring search *)

(** [str::find(&str)]: where the first occurrence starts. *)
Fixpoint str_find (p s : rstring) : option nat :=
  if starts_with p s then Some 0
  else match s with
       | [] => None
       | _ :: s' => S <$> str_find p s'
       end.

Lemma starts_with_app_l p s t : starts_with p s = true → starts_with p (s ++ t) = true.
Proof. rewrite !starts_with_true. intros [r ->]. rewrite <- app_assoc. eauto. Qed.

Lemma starts_with_app_inv p s t :
  length p ≤ length s → starts_with p (s ++ t) = true → starts_with p s = true.
Proof.
  rewrite !starts_with_true. intros Hl [r H].
  apply app_eq_inv in H as [(k & -> & ->)|(k & -> & ->)]; [by exists k|].
  rewrite length_app in Hl. destruct k; [|cbn in Hl; lia]. exists []. by rewrite !app_nil_r.
Qed.

Lemma str_find_Some p s i :
  str_find p s = Some i ↔
  i ≤ length s ∧ starts_with p (drop i s) = true ∧ ∀ j, j < i → starts_with p (drop j s) = false.
Proof.
  revert i. induction s as [|c s IH]; intros i; cbn [str_find length].
  - destruct (starts_with p []) eqn:E.
    + split; [intros [= <-]; split_and!; [lia|done|lia]|].
      intros (Hi & _). f_equal. lia.
    + split; [done|]. intros (Hi & H & _). destruct i; [|lia]. cbn in H. congruence.
  - destruct (starts_with p (c :: s)) eqn:E.
    + split; [intros [= <-]; split_and!; [lia|done|lia]|].
      intros (Hi & _ & H). destruct i; [done|]. specialize (H 0 ltac:(lia)). cbn in H. congruence.
    + rewrite fmap_Some. setoid_rewrite IH. split.
      * intros (k & (Hk & Hs & Hb) & ->). split_and!; [lia|done|].
        intros [|j] Hj; [done|]. cbn. apply Hb. lia.
      * intros (Hi & Hs & Hb). destruct i as [|i]; [cbn in Hs; congruence|].
        exists i. split_and!; [lia|done| |done].
        intros j Hj. apply (Hb (S j)). lia.
Qed.

Lemma str_find_None p s :
  str_find p s = None ↔ ∀ j, j ≤ length s → starts_with p (drop j s) = false.
Proof.
  split.
  - induction s as [|c s IH]; cbn [str_find]; intros H j Hj.
    + destruct j; cbn in Hj |- *; [|lia]. by destruct (starts_with p []).
    + destruct (starts_with p (c :: s)) eqn:E; [done|]. apply fmap_None in H.
      destruct j; [done|]. cbn in Hj |- *. apply IH; [done|lia].
  - intros H. destruct (str_find p s) eqn:E; [|done].
    apply str_find_Some in E as (Hl & Hs & _). rewrite (H _ Hl) in Hs. done.
Qed.

Lemma starts_with_length p s : starts_with p s = true → length p ≤ length s.
Proof. rewrite starts_with_true. intros [r ->]. rewrite length_app. lia. Qed.

Lemma str_find_bound p s i : str_find p s = Some i → i + length p ≤ length s.
Proof.
  intros (Hi & H & _)%str_find_Some. apply starts_with_length in H.
  rewrite length_drop in H. lia.
Qed.

Lemma starts_with_drop_app p s t j :
  j + length p ≤ length s →
  starts_with p (drop j (s ++ t)) = starts_with p (drop j s).
Proof.
  intros Hj. rewrite drop_app_le by lia.
  destruct (starts_with p (drop j s)) eqn:E; [by apply starts_with_app_l|].
  destruct (starts_with p (drop j s ++ t)) eqn:E2; [|done].
  apply starts_with_app_inv in E2; [congruence|]. rewrite length_drop. lia.
Qed.

(** An occurrence found in a text stays the first one when text is appended. *)
Lemma str_find_app_l p s t i : str_find p s = Some i → str_find p (s ++ t) = Some i.
Proof.
  intros H. pose proof (str_find_bound _ _ _ H). apply str_find_Some in H as (Hi & Hs & Hb).
  apply str_find_Some. rewrite length_app. split_and!; [lia| |].
  - by rewrite starts_with_drop_app by lia.
  - intros j Hj. rewrite starts_with_drop_app by lia. by apply Hb.
Qed.

(** A part in which no occurrence starts can be skipped. *)
Lemma str_find_skip p u x :
  (∀ j, j < length u → starts_with p (drop j (u ++ x)) = false) →
  str_find p (u ++ x) = (λ i, length u + i) <$> str_find p x.
Proof.
  induction u as [|c u IH]; cbn [app length]; intros H; [by destruct (str_find p x)|].
  cbn [str_find]. pose proof (H 0 ltac:(lia)) as H0. cbn in H0. rewrite H0.
  rewrite IH by (intros j Hj; apply (H (S j)); lia). by destruct (str_find p x).
Qed.

Lemma str_find_split p s i : str_find p s = Some i → s = take i s ++ p ++ drop (i + length p) s.
Proof.
  intros (Hi & [r Hr]%starts_with_true & _)%str_find_Some.
  rewrite <- drop_drop, Hr, drop_app_length, <- Hr. symmetry. apply take_drop.
Qed.

Lemma str_find_le p s j :
  j ≤ length s → starts_with p (drop j s) = true → ∃ i, str_find p s = Some i ∧ i ≤ j.
Proof.
  intros Hj H. destruct (str_find p s) as [i|] eqn:E.
  - exists i. split; [done|]. apply str_find_Some in E as (_ & _ & Hb).
    apply Nat.nlt_ge. intros Hlt. rewrite Hb in H; done.
  - rewrite (proj1 (str_find_None _ _) E) in H; done.
Qed.

(** ** More on trimming *)

Lemma trim_start_nonempty_app s t : trim_start s ≠ [] → trim_start (s ++ t) = trim_start s ++ t.
Proof.
  induction s as [|c s IH]; cbn; [done|]. destruct (is_whitespace c); [auto|done].
Qed.

Lemma trim_start_ws_app s t : trim_start s = [] → trim_start (s ++ t) = trim_start t.
Proof.
  induction s as [|c s IH]; cbn; [done|]. destruct (is_whitespace c); [auto|done].
Qed.

(** Trimming the end of a longer text keeps what trimming a prefix keeps. *)
Lemma trim_end_app_prefix s t : ∃ r, trim_end (s ++ t) = trim_end s ++ r.
Proof.
  unfold trim_end. rewrite rev_app_distr. destruct (trim_start (rev t)) eqn:E.
  - rewrite trim_start_ws_app by done. exists []. by rewrite app_nil_r.
  - rewrite trim_start_nonempty_app by (by rewrite E). rewrite rev_app_distr, rev_involutive.
    destruct (trim_start_suffix (rev s)) as (w & Hw & _).
    apply (f_equal (@rev Z)) in Hw. rewrite rev_involutive, rev_app_distr in Hw.
    eexists (rev w ++ _). by rewrite app_assoc, <- Hw.
Qed.

(** ** More facts of the components' strings *)
Lemma is_empty_false {A} (l : list A) : is_empty l = false ↔ l ≠ [].
Proof. destruct l; cbn; split; congruence. Qed.

Lemma str_in_elem s l : str_in s l = true ↔ s ∈ l.
Proof.
  unfold str_in. rewrite existsb_exists. setoid_rewrite str_eqb_eq.
  rewrite list_elem_of_In. naive_solver.
Qed.

Lemma str_in_not_elem s l : str_in s l = false ↔ s ∉ l.
Proof. rewrite <-str_in_elem. by rewrite not_true_iff_false. Qed.

Lemma split_once_eq c s a b : split_once c s = Some (a, b) → s = a ++ c :: b.
Proof.
  revert a. induction s as [|x s IH]; intros a; cbn [split_once]; [done|].
  destruct (x =? c)%Z eqn:E; [apply Z.eqb_eq in E as ->; by intros [= <- <-]|].
  destruct (split_once c s) as [[a' b']|]; [|done]. intros [= <- <-]. cbn. by rewrite (IH a').
Qed.

Lemma trim_idemp s : trim (trim s) = trim s.
Proof. unfold trim. by rewrite trim_start_end, trim_start_idemp, trim_end_idemp. Qed.
Lemma trim_start_length s : length (trim_start s) ≤ length s.
Proof. destruct (trim_start_suffix s) as (w & Hw & _). rewrite Hw at 2. rewrite length_app. lia. Qed.

Lemma trim_length s : length (trim s) ≤ length s.
Proof.
  unfold trim, trim_end. rewrite length_rev.
  pose proof (trim_start_length (rev (trim_start s))) as H1. rewrite length_rev in H1.
  pose proof (trim_start_length s). lia.
Qed.

Lemma trim_start_nil s : trim_start s = [] → forallb is_whitespace s = true.
Proof. destruct (trim_start_suffix s) as (w & Hw & Hf). intros H. rewrite H, app_nil_r in Hw. by subst. Qed.

Lemma trim_empty s c : is_empty (trim s) = true → c ∈ s → is_whitespace c = true.
Proof.
  rewrite is_empty_true. unfold trim. rewrite <-trim_start_end. intros Ht%trim_start_nil Hc.
  destruct (trim_start_suffix (rev s)) as (w & Hw & Hf).
  unfold trim_end in Ht. rewrite forallb_forall in Ht, Hf.
  rewrite list_elem_of_In, in_rev, Hw, in_app_iff in Hc. destruct Hc as [Hc|Hc]; [by apply Hf|].
  apply Ht. by rewrite <-in_rev.
Qed.

(** ** Signed 32-bit integers: [as i32] and the arithmetic that wraps *)

Definition wrap_i32 (z : Z) : Z := ((z + 2 ^ 31) mod 2 ^ 32 - 2 ^ 31)%Z.
Definition I32_MAX : Z := (2 ^ 31 - 1)%Z.

Lemma wrap_i32_range z : (- 2 ^ 31 <= wrap_i32 z < 2 ^ 31)%Z.
Proof. unfold wrap_i32. pose proof (Z.mod_pos_bound (z + 2 ^ 31) (2 ^ 32) ltac:(lia)). lia. Qed.

Lemma wrap_i32_wrap z k : wrap_i32 (wrap_i32 z + k) = wrap_i32 (z + k).
Proof.
  unfold wrap_i32. f_equal. replace ((z + 2 ^ 31) mod 2 ^ 32 - 2 ^ 31 + k + 2 ^ 31)%Z
    with ((z + 2 ^ 31) mod 2 ^ 32 + k)%Z by lia.
  rewrite Z.add_mod_idemp_l by lia. f_equal. lia.
Qed.

Lemma wrap_i32_id z : (- 2 ^ 31 <= z < 2 ^ 31)%Z → wrap_i32 z = z.
Proof. intros Hz. unfold wrap_i32. rewrite Z.mod_small by lia. lia. Qed.

(** Within one turn of a wrapping counter no value comes back. *)
Lemma wrap_i32_inj z a b :
  (0 <= a < 2 ^ 32)%Z → (0 <= b < 2 ^ 32)%Z → wrap_i32 (z + a) = wrap_i32 (z + b) → a = b.
Proof.
  unfold wrap_i32. intros Ha Hb Heq.
  assert (Hm : ((z + a + 2 ^ 31) mod 2 ^ 32 = (z + b + 2 ^ 31) mod 2 ^ 32)%Z) by lia.
  pose proof (Z.div_mod (z + a + 2 ^ 31) (2 ^ 32) ltac:(lia)).
  pose proof (Z.div_mod (z + b + 2 ^ 31) (2 ^ 32) ltac:(lia)). nia.
Qed.

(** ** Updating one place of a list *)

Lemma omap_cons_app {A B} (f : A → option B) x l : omap f (x :: l) = option_list (f x) ++ omap f l.
Proof. cbn. by destruct (f x). Qed.

(** What a partial function yields on a list changes only by what it yields at
    the place. *)
Lemma omap_update {A B} (f : A → option B) l i x y :
  l !! i = Some x → option_list (f x) ++ omap f (<[i := y]> l) ≡ₚ option_list (f y) ++ omap f l.
Proof.
  revert i. induction l as [|z l IH]; intros [|i] Hi; [done..| |].
  - injection Hi as ->. change (<[0 := y]> (x :: l)) with (y :: l). rewrite !omap_cons_app, !(assoc_L (++)).
    by rewrite (Permutation_app_comm (option_list (f x))).
  - change (<[S i := y]> (z :: l)) with (z :: <[i := y]> l). rewrite !omap_cons_app.
    rewrite !(assoc_L (++)), (Permutation_app_comm (option_list (f x))), <-(assoc_L (++)), (IH i Hi).
    by rewrite !(assoc_L (++)), (Permutation_app_comm (option_list (f y))).
Qed.

(** Different values stay different when the place gets a value that is new, the
    one it had, or none. *)
Lemma NoDup_omap_update {A B} (f : A → option B) l i x y :
  l !! i = Some x → NoDup (omap f l) →
  (f y = None ∨ f y = f x ∨ ∃ b, f y = Some b ∧ b ∉ omap f l) → NoDup (omap f (<[i := y]> l)).
Proof.
  intros Hi Hnd Hy. pose proof (omap_update f l i x y Hi) as Hp.
  assert (NoDup (option_list (f y) ++ omap f l) ∨ f y = f x) as [Hn|He].
  { destruct Hy as [->|[He|(b & -> & Hb)]]; [left; done|by right|left; by constructor]. }
  - rewrite <-Hp in Hn. by apply NoDup_app in Hn as (_ & _ & Hn).
  - rewrite He in Hp. apply Permutation_app_inv_l in Hp. by rewrite Hp.
Qed.
