(* ===== verification/SeekSequence.v ===== *)
(** * Locating a block of lines in a file (apply-patch/src/seek_sequence.rs)

    [seek_sequence] tries four comparisons of decreasing strictness.  The
    theorems say which position it returns: in bounds, at or after [start],
    the leftmost one of the strictest comparison that matches anywhere, and
    nothing only when even the most permissive comparison fails. *)

From S2P Require Import Prelude.

Module Seek.

(** The inner helper [normalise]. *)
Definition normalise_char (c : char) : char :=
  if bool_decide (c ∈ [0x2010; 0x2011; 0x2012; 0x2013; 0x2014; 0x2015; 0x2212])%Z then 45%Z
  else if bool_decide (c ∈ [0x2018; 0x2019; 0x201A; 0x201B])%Z then 39%Z
  else if bool_decide (c ∈ [0x201C; 0x201D; 0x201E; 0x201F])%Z then 34%Z
  else if bool_decide (c ∈ [0xA0; 0x2002; 0x2003; 0x2004; 0x2005; 0x2006; 0x2007; 0x2008;
                            0x2009; 0x200A; 0x202F; 0x205F; 0x3000])%Z then 32%Z
  else c.

Definition normalise (s : rstring) : rstring := normalise_char <$> trim s.

(** [for i in lo..=hi]: the first index that passes [f]. *)
Fixpoint find_from (f : nat → bool) (i n : nat) : option nat :=
  match n with
  | O => None
  | S n' => if f i then Some i else find_from f (S i) n'
  end.
Definition find_range (f : nat → bool) (lo hi : nat) : option nat :=
  find_from f lo (S hi - lo).

(** [lines[i..i + pattern.len()] == *pattern]. *)
Definition exact_at (lines pattern : list rstring) (i : nat) : bool :=
  bool_decide (take (length pattern) (drop i lines) = pattern).

(** The inner loop over [pattern.iter().enumerate()], with [key] the
    normalisation both sides go through. *)
Fixpoint keyed_at (key : rstring → rstring) (lines pattern : list rstring) (i : nat) : bool :=
  match pattern with
  | [] => true
  | pat :: pattern' =>
      match lines !! i with
      | Some line => (key line =?s key pat) && keyed_at key lines pattern' (S i)
      | None => false
      end
  end.

Definition or_else {A} (a b : option A) : option A :=
  match a with Some x => Some x | None => b end.

Definition seek_sequence (lines pattern : list rstring) (start : nat) (eof : bool)
  : option nat :=
  if is_empty pattern then Some start
  else if length lines <? length pattern then None
  else
    let search_start :=
      if eof && (length pattern <=? length lines) then length lines - length pattern
      else start in
    let last := length lines - length pattern in
    or_else (find_range (exact_at lines pattern) search_start last)
    (or_else (find_range (keyed_at trim_end lines pattern) search_start last)
    (or_else (find_range (keyed_at trim lines pattern) search_start last)
             (find_range (keyed_at normalise lines pattern) search_start last))).

(** ** Lemmas *)

Lemma find_from_Some f i n j :
  find_from f i n = Some j ↔
  i ≤ j < i + n ∧ f j = true ∧ ∀ k, i ≤ k < j → f k = false.
Proof.
  revert i. induction n as [|n IH]; intros i; cbn; [split; [done|lia]|].
  destruct (f i) eqn:E.
  - split.
    + intros [= ->]. split_and!; [lia|lia|done|lia].
    + intros (Hj & Hf & Hm). f_equal.
      destruct (decide (i = j)); [done|]. rewrite Hm in E by lia. done.
  - rewrite IH. split; intros (Hj & Hf & Hm).
    + split_and!; [lia|lia|done|]. intros k Hk.
      destruct (decide (i = k)); [by subst|]. apply Hm. lia.
    + assert (i ≠ j) by congruence. split_and!; [lia|lia|done|].
      intros k Hk. apply Hm. lia.
Qed.

Lemma find_from_None f i n :
  find_from f i n = None ↔ ∀ k, i ≤ k < i + n → f k = false.
Proof.
  revert i. induction n as [|n IH]; intros i; cbn; [split; [lia|done]|].
  destruct (f i) eqn:E.
  - split; [done|]. intros H. rewrite H in E by lia. done.
  - rewrite IH. split; intros H k Hk; [|apply H; lia].
    destruct (decide (i = k)); [by subst|]. apply H. lia.
Qed.

Lemma find_range_Some f lo hi j :
  find_range f lo hi = Some j ↔
  lo ≤ j ≤ hi ∧ f j = true ∧ ∀ k, lo ≤ k < j → f k = false.
Proof. unfold find_range. rewrite find_from_Some. split; intros (? & ? & ?); split_and!; try done; lia. Qed.

Lemma find_range_None f lo hi :
  find_range f lo hi = None ↔ ∀ k, lo ≤ k ≤ hi → f k = false.
Proof. unfold find_range. rewrite find_from_None. split; intros H k ?; apply H; lia. Qed.

Lemma or_else_Some {A} (a b : option A) x :
  or_else a b = Some x ↔ a = Some x ∨ (a = None ∧ b = Some x).
Proof. destruct a; naive_solver. Qed.

Lemma or_else_None {A} (a b : option A) : or_else a b = None ↔ a = None ∧ b = None.
Proof. destruct a; naive_solver. Qed.

(** A keyed match is a pointwise match of the slice. *)
Lemma keyed_at_spec key lines pattern i :
  keyed_at key lines pattern i = true ↔
  Forall2 (λ l p, key l = key p) (take (length pattern) (drop i lines)) pattern.
Proof.
  revert i. induction pattern as [|p pattern IH]; intros i; cbn [keyed_at length].
  - cbn. split; [constructor|done].
  - destruct (lines !! i) as [l|] eqn:E.
    + rewrite (drop_S _ _ _ E). cbn [take].
      rewrite andb_true_iff, str_eqb_eq, IH, Forall2_cons. done.
    + apply lookup_ge_None in E. rewrite drop_ge by done. cbn.
      split; [done|]. intros H. inversion H.
Qed.

Lemma exact_at_keyed lines pattern i :
  exact_at lines pattern i = keyed_at id lines pattern i.
Proof.
  apply eq_bool_prop_intro. rewrite !Is_true_true, keyed_at_spec.
  unfold exact_at. rewrite bool_decide_eq_true. cbn.
  rewrite Forall2_same_length_lookup. split.
  - intros ->. split; [done|]. by intros ??? -> [= ->].
  - intros [Hlen H]. apply list_eq_same_length with (length pattern); [done|done|].
    intros k x y ? Hx Hy. by eapply H.
Qed.

Lemma keyed_at_weaken (k1 k2 : rstring → rstring) lines pattern i :
  (∀ a b, k1 a = k1 b → k2 a = k2 b) →
  keyed_at k1 lines pattern i = true → keyed_at k2 lines pattern i = true.
Proof. intros Hk. rewrite !keyed_at_spec. intros H. eapply Forall2_impl; [exact H|]. cbn. eauto. Qed.

Lemma trim_normalise a b : trim a = trim b → normalise a = normalise b.
Proof. unfold normalise. by intros ->. Qed.

(** The four comparisons are increasingly permissive. *)
Lemma level_normalise key lines pattern i :
  key = id ∨ key = trim_end ∨ key = trim ∨ key = normalise →
  keyed_at key lines pattern i = true → keyed_at normalise lines pattern i = true.
Proof.
  intros Hk. apply keyed_at_weaken.
  destruct Hk as [-> | [-> | [-> | ->] ] ]; intros a b; cbn; try done.
  - by intros ->.
  - intros ?. by apply trim_normalise, trim_end_eq_trim.
  - apply trim_normalise.
Qed.

(** The comparisons in the order they are tried. *)
Definition level_keys : list (rstring → rstring) := [id; trim_end; trim; normalise].

(** [j] is a position of the searched range at which [pattern] fits. *)
Definition in_range (lines pattern : list rstring) (lo j : nat) : Prop :=
  lo ≤ j ∧ j + length pattern ≤ length lines.

(** Reference search: the strictest comparison that matches anywhere in the
    range wins, and within it the leftmost position. *)
Definition strictest_leftmost (lines pattern : list rstring) (lo i : nat) : Prop :=
  ∃ n key, level_keys !! n = Some key ∧
    in_range lines pattern lo i ∧ keyed_at key lines pattern i = true ∧
    (∀ j, in_range lines pattern lo j → j < i → keyed_at key lines pattern j = false) ∧
    (∀ m key', m < n → level_keys !! m = Some key' →
       ∀ j, in_range lines pattern lo j → keyed_at key' lines pattern j = false).

Definition search_lo (lines pattern : list rstring) (start : nat) (eof : bool) : nat :=
  if eof then length lines - length pattern else start.

Lemma find_range_ext f g lo hi :
  (∀ k, f k = g k) → find_range f lo hi = find_range g lo hi.
Proof.
  intros H. unfold find_range. generalize (S hi - lo) as n.
  intros n. revert lo. induction n as [|n IH]; intros lo; cbn; [done|]. by rewrite H, IH.
Qed.

Lemma seek_sequence_levels lines pattern start eof :
  pattern ≠ [] → length pattern ≤ length lines →
  seek_sequence lines pattern start eof =
  foldr (λ key rest,
    or_else (find_range (keyed_at key lines pattern) (search_lo lines pattern start eof)
               (length lines - length pattern)) rest) None level_keys.
Proof.
  intros Hne Hl. unfold seek_sequence, search_lo.
  destruct (is_empty pattern) eqn:He; [by apply is_empty_true in He|].
  rewrite (proj2 (Nat.ltb_ge _ _) Hl), (proj2 (Nat.leb_le _ _) Hl), andb_true_r.
  cbn [foldr level_keys].
  rewrite (find_range_ext _ _ _ _ (exact_at_keyed lines pattern)).
  by destruct (find_range (keyed_at normalise _ _) _ _).
Qed.

Lemma in_range_iff lines pattern lo k :
  length pattern ≤ length lines →
  in_range lines pattern lo k ↔ lo ≤ k ≤ length lines - length pattern.
Proof. unfold in_range. lia. Qed.

Lemma levels_fold_Some lines pattern lo i keys :
  length pattern ≤ length lines →
  foldr (λ key rest, or_else (find_range (keyed_at key lines pattern) lo
                                (length lines - length pattern)) rest) None keys = Some i →
  ∃ n key, keys !! n = Some key ∧
    in_range lines pattern lo i ∧ keyed_at key lines pattern i = true ∧
    (∀ j, in_range lines pattern lo j → j < i → keyed_at key lines pattern j = false) ∧
    (∀ m key', m < n → keys !! m = Some key' →
       ∀ j, in_range lines pattern lo j → keyed_at key' lines pattern j = false).
Proof.
  intros Hl. induction keys as [|key keys IH]; cbn; [done|].
  rewrite or_else_Some. intros [H|[Hn H]].
  - apply find_range_Some in H as (? & ? & Hm). exists 0, key.
    rewrite in_range_iff by done. split_and!; try done; try lia.
    intros j Hj ?. rewrite in_range_iff in Hj by done. apply Hm. lia.
  - destruct (IH H) as (n & key' & ? & ? & ? & ? & Hs). exists (S n), key'.
    split_and!; try done. intros [|m] k Hm Hk j Hj; cbn in Hk; simplify_eq.
    + rewrite find_range_None in Hn. apply Hn. by rewrite <- in_range_iff.
    + eapply Hs; [|done..]. lia.
Qed.

Lemma seek_sequence_sound lines pattern start eof i :
  pattern ≠ [] → seek_sequence lines pattern start eof = Some i →
  strictest_leftmost lines pattern (search_lo lines pattern start eof) i.
Proof.
  intros Hne H. destruct (decide (length pattern ≤ length lines)) as [Hl|Hl].
  - rewrite seek_sequence_levels in H by done. by apply levels_fold_Some in H.
  - revert H. unfold seek_sequence.
    destruct (is_empty pattern) eqn:He; [by apply is_empty_true in He|].
    rewrite (proj2 (Nat.ltb_lt _ _)) by lia. done.
Qed.

(** Every level implies the most permissive comparison. *)
Lemma level_permissive n key lines pattern i :
  level_keys !! n = Some key →
  keyed_at key lines pattern i = true → keyed_at normalise lines pattern i = true.
Proof.
  intros Hn. apply level_normalise.
  do 4 (destruct n as [|n]; [cbn in Hn; simplify_eq; tauto|]). done.
Qed.

Lemma seek_sequence_bound lines pattern start i eof :
  start ≤ length lines →
  seek_sequence lines pattern start eof = Some i → i + length pattern ≤ length lines.
Proof.
  intros Hs H. destruct pattern as [|p pattern].
  - cbn in H. simplify_eq. cbn. lia.
  - by apply seek_sequence_sound in H as (? & ? & ? & [??] & ?).
Qed.

Lemma seek_sequence_start lines pattern start i :
  seek_sequence lines pattern start false = Some i → start ≤ i.
Proof.
  intros H. destruct pattern as [|p pattern]; [cbn in H; by simplify_eq|].
  by apply seek_sequence_sound in H as (? & ? & ? & [??] & ?).
Qed.

Lemma seek_sequence_None_iff lines pattern start eof :
  pattern ≠ [] →
  seek_sequence lines pattern start eof = None ↔
  ∀ j, in_range lines pattern (search_lo lines pattern start eof) j →
       keyed_at normalise lines pattern j = false.
Proof.
  intros Hne. destruct (decide (length pattern ≤ length lines)) as [Hl|Hl].
  - rewrite seek_sequence_levels by done. cbn [foldr level_keys].
    rewrite !or_else_None, !find_range_None. split.
    + intros (_ & _ & _ & H & _) j Hj. apply H. by rewrite <- in_range_iff.
    + intros H. split_and!; try done; intros k Hk; rewrite <- in_range_iff in Hk by done;
        apply not_true_iff_false; intros Ht;
        specialize (H k Hk); apply not_true_iff_false in H; apply H;
        [apply (level_normalise id)|apply (level_normalise trim_end)
        |apply (level_normalise trim)|]; tauto.
  - unfold seek_sequence.
    destruct (is_empty pattern) eqn:He; [by apply is_empty_true in He|].
    rewrite (proj2 (Nat.ltb_lt _ _)) by lia. split; [|done].
    intros _ j [??]. lia.
Qed.

(** ** Properties *)

(** A block found by the search lies inside the file, at or after the
    requested start, and is the leftmost match of the strictest comparison
    that matches anywhere (exact, then trailing blanks, then all outer blanks,
    then Unicode punctuation ignored). *)
Theorem seek_finds_strictest_leftmost lines pattern start i :
  pattern ≠ [] → seek_sequence lines pattern start false = Some i →
  strictest_leftmost lines pattern start i.
Proof. intros Hne H. by apply (seek_sequence_sound lines pattern start false). Qed.

Lemma seek_finds_strictest_leftmost_witness :
  strictest_leftmost [ $"a "; $"b"; $"a"] [ $"a"] 0 2.
Proof. apply seek_finds_strictest_leftmost; [discriminate|reflexivity]. Defined.

(** The search fails exactly when no position of the range matches, even
    after trimming and normalising punctuation. *)
Theorem seek_fails_iff_no_match lines pattern start :
  pattern ≠ [] →
  seek_sequence lines pattern start false = None ↔
  ∀ j, start ≤ j → j + length pattern ≤ length lines →
       ¬ Forall2 (λ l p, normalise l = normalise p)
           (take (length pattern) (drop j lines)) pattern.
Proof.
  intros Hne. rewrite seek_sequence_None_iff by done. unfold in_range, search_lo. split.
  - intros H j H1 H2 Hm. apply keyed_at_spec in Hm. by rewrite H in Hm.
  - intros H j [H1 H2]. apply not_true_iff_false. rewrite keyed_at_spec. by apply H.
Qed.

Lemma seek_fails_iff_no_match_witness :
  seek_sequence [ $"x"; $"y"] [ $"z"] 0 false = None ↔
  ∀ j, 0 ≤ j → j + 1 ≤ 2 →
       ¬ Forall2 (λ l p, normalise l = normalise p) (take 1 (drop j [ $"x"; $"y"])) [ $"z"].
Proof. apply (seek_fails_iff_no_match [ $"x"; $"y"] [ $"z"] 0). discriminate. Defined.

(** With the end-of-file flag only the very end of the file is tried:
    the start position plays no role and there is no second search from it. *)
Theorem seek_eof_only_at_end lines pattern start :
  pattern ≠ [] →
  seek_sequence lines pattern start true = seek_sequence lines pattern 0 true ∧
  ∀ i, seek_sequence lines pattern start true = Some i → i + length pattern = length lines.
Proof.
  intros Hne. split.
  - unfold seek_sequence. destruct (is_empty pattern) eqn:He; [by apply is_empty_true in He|].
    destruct (Nat.ltb_spec (length lines) (length pattern)); [done|].
    by rewrite (proj2 (Nat.leb_le _ _)) by lia.
  - intros i H. apply seek_sequence_sound in H as (n & key & _ & [H1 H2] & _); [|done].
    unfold search_lo in H1. lia.
Qed.

Lemma seek_eof_only_at_end_witness :
  let lines := [ $"target"; $"x"; $"y"] in
  seek_sequence lines [ $"target"] 0 true = seek_sequence lines [ $"target"] 0 true ∧
  ∀ i, seek_sequence lines [ $"target"] 0 true = Some i → i + 1 = 3.
Proof. apply (seek_eof_only_at_end [ $"target"; $"x"; $"y"] [ $"target"] 0). discriminate. Defined.

End Seek.
