(* ===== verification/AbsPath.v ===== *)
(** * Absolute paths (utils/absolute-path)

    The Unix side of [std::path] that the crate uses ([Path::components],
    [PathBuf::push], [PathBuf::pop], [Path::join]) and, on it, the crate's own
    lexical normalisation.  Theorems: a path resolved against an absolute base
    is absolute and free of ["."] and [".."], it is the lexical resolution of
    its components, and a relative path with no [".."] stays below the base. *)

From S2P Require Import Prelude.

Module Path.

Definition SLASH : char := 47%Z.

Inductive Component :=
| RootDir
| CurDir
| ParentDir
| Normal (s : rstring).

#[export] Instance Component_eq_dec : EqDecision Component.
Proof. solve_decision. Defined.

Definition is_absolute (p : rstring) : bool := starts_with [SLASH] p.

(** One piece between separators that is not the first of a relative path. *)
Definition piece_component (s : rstring) : option Component :=
  if is_empty s then None
  else if s =?s $"." then None
  else if s =?s $".." then Some ParentDir
  else Some (Normal s).

(** [Path::components] on Unix: empty pieces and ["."] vanish, except that a
    relative path keeps a leading ["."]. *)
Definition components (p : rstring) : list Component :=
  let pieces := split_on SLASH p in
  if is_absolute p then RootDir :: omap piece_component pieces
  else match pieces with
       | first :: _ =>
           (if first =?s $"." then [CurDir] else []) ++ omap piece_component pieces
       | [] => []
       end.

Definition as_os_str (c : Component) : rstring :=
  match c with
  | RootDir => [SLASH]
  | CurDir => $"."
  | ParentDir => $".."
  | Normal s => s
  end.

(** [PathBuf::push]. *)
Definition push (buf p : rstring) : rstring :=
  if is_absolute p then p
  else match last buf with
       | None => p
       | Some c => if (c =? SLASH)%Z then buf ++ p else buf ++ [SLASH] ++ p
       end.

Definition render (cs : list Component) : rstring :=
  fold_left (λ buf c, push buf (as_os_str c)) cs [].

(** [Path::parent]; the result is the rendering of the remaining components,
    which is the slice Rust returns whenever the path is normalised. *)
Definition parent (p : rstring) : option rstring :=
  match last (components p) with
  | Some (Normal _) | Some CurDir | Some ParentDir =>
      Some (render (take (length (components p) - 1) (components p)))
  | _ => None
  end.

(** [PathBuf::pop]. *)
Definition pop (p : rstring) : rstring :=
  match parent p with Some q => q | None => p end.

(** ** absolutize.rs *)

Definition normalize_step (normalized : rstring) (c : Component) : rstring :=
  match c with
  | CurDir => normalized
  | ParentDir => pop normalized
  | RootDir | Normal _ => push normalized (as_os_str c)
  end.

Definition normalize_path (p : rstring) : rstring :=
  let normalized := fold_left normalize_step (components p) [] in
  if is_empty normalized then $"." else normalized.

Definition path_with_base (p base : rstring) : rstring :=
  if is_absolute p then p else push base p.

Definition absolutize_from (p base : rstring) : rstring :=
  normalize_path (path_with_base p base).

(** ** AbsolutePathBuf

    [home] is what the [dirs] crate reports as the home directory. *)

Fixpoint trim_start_slashes (s : rstring) : rstring :=
  match s with
  | [] => []
  | c :: s' => if (c =? SLASH)%Z then trim_start_slashes s' else s
  end.

Definition maybe_expand_home_directory (home : option rstring) (p : rstring) : rstring :=
  match home, strip_prefix $"~" p with
  | Some home, Some rest =>
      if is_empty rest then home
      else match strip_prefix $"/" rest with
           | Some rest => push home (trim_start_slashes rest)
           | None => p
           end
  | _, _ => p
  end.

Definition resolve_path_against_base (home : option rstring) (p base : rstring) : rstring :=
  absolutize_from (maybe_expand_home_directory home p) base.

Definition from_absolute_path_checked (home : option rstring) (p : rstring)
  : result rstring rstring :=
  let expanded := maybe_expand_home_directory home p in
  if is_absolute expanded then Ok (absolutize_from expanded $"/")
  else Err ($"path is not absolute: " ++ p).

(** [from_absolute_path], with [cwd] what [std::env::current_dir] returns: a
    relative path is resolved against the process directory. *)
Definition from_absolute_path (home cwd : option rstring) (p : rstring)
  : result rstring rstring :=
  let expanded := maybe_expand_home_directory home p in
  if is_absolute expanded then Ok (normalize_path expanded)
  else match cwd with
       | Some cwd => Ok (absolutize_from expanded cwd)
       | None => Err $"current directory unavailable"
       end.

(** [Path::file_name]. *)
Definition file_name (p : rstring) : option rstring :=
  match last (components p) with Some (Normal s) => Some s | _ => None end.

(** [Path::starts_with] and the equality of paths: by components. *)
Definition path_starts_with (base p : rstring) : bool :=
  bool_decide (components base `prefix_of` components p).
Definition path_eqb (a b : rstring) : bool := bool_decide (components a = components b).

(** Pieces of a path that are no component: empty ones and [.]. *)
Definition no_component (piece : rstring) : bool := is_empty piece || (piece =?s $".").
Fixpoint drop_no_components (l : list rstring) : list rstring :=
  match l with
  | [] => []
  | x :: l' => if no_component x then drop_no_components l' else l
  end.
(** The pieces after the first [n] components. *)
Fixpoint after_components (n : nat) (l : list rstring) : list rstring :=
  match n, l with
  | S n', x :: l' => if no_component x then after_components n l' else after_components n' l'
  | _, _ => l
  end.

(** [Path::strip_prefix], for a base with a component: the text of what is left
    starts and ends with a component. *)
Definition path_strip_prefix (base p : rstring) : option rstring :=
  if path_starts_with base p then
    let named := List.filter (λ c, match c with Normal _ | ParentDir => true | _ => false end)
                   (components base) in
    let left := after_components (length named) (split_on SLASH p) in
    Some (join [SLASH] (rev (drop_no_components (rev (drop_no_components left)))))
  else None.

(** [Path::ancestors]: the path itself, its parent, and so on; a path has no more
    of them than components, and itself. *)
Fixpoint ancestors_go (fuel : nat) (p : rstring) : list rstring :=
  p :: match fuel, parent p with
       | S fuel', Some q => ancestors_go fuel' q
       | _, _ => []
       end.
Definition ancestors (p : rstring) : list rstring := ancestors_go (length (components p)) p.

(** ** Reference: resolving [".."] on a stack of names *)

Definition resolve_step (stack : list rstring) (c : Component) : list rstring :=
  match c with
  | RootDir | CurDir => stack
  | ParentDir => take (length stack - 1) stack
  | Normal s => stack ++ [s]
  end.

Definition resolve_names (cs : list Component) : list rstring :=
  fold_left resolve_step cs [].

(** The spelling of an absolute path with the given names. *)
Definition abs_path (names : list rstring) : rstring := SLASH :: join [SLASH] names.

Definition valid_name (s : rstring) : Prop :=
  s ≠ [] ∧ SLASH ∉ s ∧ s ≠ $"." ∧ s ≠ $"..".

(** ** Lemmas *)

Lemma piece_component_valid s : valid_name s → piece_component s = Some (Normal s).
Proof.
  intros (Hne & _ & Hd & Hdd). unfold piece_component.
  destruct s; [done|]. cbn [is_empty]. unfold str_eqb.
  by rewrite !bool_decide_eq_false_2.
Qed.

Lemma piece_component_normal s n :
  SLASH ∉ s → piece_component s = Some (Normal n) → n = s ∧ valid_name s.
Proof.
  intros Hs. unfold piece_component, valid_name.
  destruct (is_empty s) eqn:?, (s =?s $".") eqn:?, (s =?s $"..") eqn:?; try done.
  breflect. intros [= ->]. split_and!; try done. by intros ->.
Qed.

Lemma piece_component_not_root s c :
  piece_component s = Some c → c ≠ RootDir ∧ c ≠ CurDir.
Proof. unfold piece_component. repeat case_match; naive_solver. Qed.

Lemma omap_valid names :
  Forall valid_name names → omap piece_component names = Normal <$> names.
Proof.
  induction 1 as [|n names Hn _ IH]; [done|]. cbn.
  rewrite piece_component_valid by done. f_equal. apply IH.
Qed.

Lemma components_abs_path names :
  Forall valid_name names → components (abs_path names) = RootDir :: (Normal <$> names).
Proof.
  intros H. unfold components, abs_path.
  replace (is_absolute _) with true by done. f_equal. cbn [split_on].
  change (SLASH =? SLASH)%Z with true. cbn [omap list_omap piece_component is_empty].
  destruct names as [|n names]; [done|].
  rewrite split_join; [by apply omap_valid|done|].
  eapply Forall_impl; [exact H|]. by intros s (_ & ? & _).
Qed.

Lemma is_absolute_no_slash s : SLASH ∉ s → is_absolute s = false.
Proof.
  intros H. apply not_true_iff_false. unfold is_absolute. rewrite starts_with_true.
  intros [r ->]. apply H. by left.
Qed.

Lemma join_snoc sep l s : l ≠ [] → join sep (l ++ [s]) = join sep l ++ sep ++ s.
Proof.
  induction l as [|a l IH]; [done|]. intros _. destruct l as [|b l]; [done|].
  rewrite <- app_comm_cons, !join_cons by done. rewrite IH by done.
  by rewrite !app_assoc.
Qed.

Lemma last_join l : l ≠ [] → Forall valid_name l → ∃ c, last (join [SLASH] l) = Some c ∧ c ≠ SLASH.
Proof.
  intros Hne Hv. destruct l as [|s l] using rev_ind; [done|].
  apply Forall_app in Hv as [_ [Hs _]%Forall_cons]. destruct Hs as (Hs0 & Hs1 & _).
  destruct s as [|c s _] using rev_ind; [done|].
  exists c. split; [|set_solver].
  destruct l as [|a l].
  - cbn. by rewrite last_snoc.
  - rewrite join_snoc by done. by rewrite !app_assoc, last_snoc.
Qed.

Lemma push_abs_path names s :
  Forall valid_name names → valid_name s →
  push (abs_path names) s = abs_path (names ++ [s]).
Proof.
  intros Hn (_ & Hs & _). unfold push. rewrite is_absolute_no_slash by done.
  unfold abs_path. destruct names as [|a names]; [done|].
  destruct (last_join (a :: names)) as (c & Hc & Hneq); [done..|].
  rewrite last_cons, Hc. destruct (Z.eqb_spec c SLASH); [done|].
  by rewrite join_snoc.
Qed.

Lemma render_abs_path names :
  Forall valid_name names → render (RootDir :: (Normal <$> names)) = abs_path names.
Proof.
  unfold render. cbn [fold_left as_os_str]. change (push [] [SLASH]) with (abs_path []).
  change (abs_path names) with (abs_path ([] ++ names)).
  assert (Forall valid_name []) as H0 by done. revert H0. generalize (@nil rstring) as pre.
  induction names as [|n names IH]; intros pre Hpre Hv; cbn.
  - by rewrite app_nil_r.
  - apply Forall_cons in Hv as [Hn Hv]. rewrite push_abs_path by done.
    rewrite IH; [by rewrite <- app_assoc|apply Forall_app; auto|done].
Qed.

Lemma pop_abs_path names :
  Forall valid_name names → pop (abs_path names) = abs_path (take (length names - 1) names).
Proof.
  intros H. unfold pop, parent. rewrite components_abs_path by done.
  destruct names as [|n names _] using rev_ind; [done|].
  rewrite fmap_app. change (Normal <$> [n]) with [Normal n].
  rewrite app_comm_cons, last_snoc, !length_app. cbn [length]. rewrite length_fmap.
  replace (S (length names) + 1 - 1) with (S (length names)) by lia.
  replace (length names + 1 - 1) with (length names) by lia.
  rewrite take_app_length. cbn [app take]. rewrite take_app_length' by (by rewrite length_fmap).
  apply Forall_app in H as [H _]. by apply render_abs_path.
Qed.

Definition normal_component (c : Component) : Prop :=
  match c with Normal s => valid_name s | RootDir => False | _ => True end.

Lemma fold_normalize names cs :
  Forall valid_name names → Forall normal_component cs →
  fold_left normalize_step cs (abs_path names) = abs_path (fold_left resolve_step cs names)
  ∧ Forall valid_name (fold_left resolve_step cs names).
Proof.
  revert names. induction cs as [|c cs IH]; intros names Hn Hcs; [done|].
  apply Forall_cons in Hcs as [Hc Hcs]. cbn [fold_left].
  destruct c as [| | |s]; cbn [normalize_step resolve_step as_os_str]; [done|auto|..].
  - rewrite pop_abs_path by done. apply IH; [by apply Forall_take|done].
  - rewrite push_abs_path by done. apply IH; [apply Forall_app; auto|done].
Qed.

Lemma pieces_normal p : Forall normal_component (omap piece_component (split_on SLASH p)).
Proof.
  apply Forall_forall. intros c (s & Hs & Hc)%list_elem_of_omap.
  assert (SLASH ∉ s) as Hns by (by eapply Forall_forall in Hs; [|apply split_on_no_nl]).
  pose proof (piece_component_not_root _ _ Hc). destruct c; try naive_solver.
  by apply piece_component_normal in Hc as [-> ?].
Qed.

Lemma components_absolute p :
  is_absolute p = true →
  ∃ cs, components p = RootDir :: cs ∧ Forall normal_component cs.
Proof. intros H. unfold components. rewrite H. eexists. split; [done|]. apply pieces_normal. Qed.

Lemma normalize_path_absolute p :
  is_absolute p = true →
  normalize_path p = abs_path (resolve_names (components p))
  ∧ Forall valid_name (resolve_names (components p)).
Proof.
  intros (cs & Hc & Hn)%components_absolute. unfold normalize_path, resolve_names.
  rewrite Hc. cbn [fold_left normalize_step resolve_step as_os_str].
  change (push [] [SLASH]) with (abs_path []).
  destruct (fold_normalize [] cs) as [-> ?]; [done..|]. done.
Qed.

Lemma is_absolute_app p q : is_absolute p = true → is_absolute (p ++ q) = true.
Proof. unfold is_absolute. rewrite !starts_with_true. intros [r ->]. exists (r ++ q). done. Qed.

Lemma push_absolute base p : is_absolute base = true → is_absolute (push base p) = true.
Proof.
  intros H. unfold push. destruct (is_absolute p) eqn:E; [done|].
  destruct (last base) eqn:El; [case_match; by apply is_absolute_app|].
  apply last_None in El. by subst.
Qed.

Lemma path_with_base_absolute p base :
  is_absolute base = true → is_absolute (path_with_base p base) = true.
Proof. intros H. unfold path_with_base. destruct (is_absolute p) eqn:E; [done|]. by apply push_absolute. Qed.

Lemma omap_piece_push base p :
  is_absolute base = true → is_absolute p = false →
  omap piece_component (split_on SLASH (push base p)) =
  omap piece_component (split_on SLASH base) ++ omap piece_component (split_on SLASH p).
Proof.
  intros Hb Hp. unfold push. rewrite Hp.
  destruct base as [|c b _] using rev_ind; [done|]. rewrite last_snoc.
  destruct (Z.eqb_spec c SLASH) as [->|Hc].
  - rewrite <- app_assoc. cbn [app]. rewrite split_on_app.
    rewrite split_on_app. cbn [split_on]. rewrite !omap_app. cbn. by rewrite app_nil_r.
  - change (b ++ [c]) with (b ++ [c]). cbn [app]. by rewrite split_on_app, omap_app.
Qed.

Lemma fold_resolve_no_parent cs names :
  ParentDir ∉ cs → ∃ more, fold_left resolve_step cs names = names ++ more.
Proof.
  revert names. induction cs as [|c cs IH]; intros names H; [exists []; by rewrite app_nil_r|].
  apply not_elem_of_cons in H as [Hc H]. destruct c as [| | |s]; cbn; [auto|auto|done|].
  destruct (IH (names ++ [s]) H) as [more ->]. exists (s :: more). by rewrite <- app_assoc.
Qed.

Lemma components_relative p c :
  is_absolute p = false → c ∈ omap piece_component (split_on SLASH p) → c ∈ components p.
Proof.
  intros Hp Hc. unfold components. rewrite Hp.
  destruct (split_on_cons SLASH p) as (f & ps & E). rewrite E in Hc |- *.
  apply elem_of_app. by right.
Qed.

(** ** Properties *)

(** Resolving any path against an absolute base gives an absolute path
    whose names are never empty, ["."] or [".."]: it is the lexical resolution
    of the components of the joined path. *)
Theorem resolve_path_normalised home p base :
  is_absolute base = true →
  ∃ names, resolve_path_against_base home p base = abs_path names ∧
    Forall valid_name names ∧
    names = resolve_names (components (path_with_base (maybe_expand_home_directory home p) base)).
Proof.
  intros Hb. eexists. unfold resolve_path_against_base, absolutize_from.
  destruct (normalize_path_absolute
    (path_with_base (maybe_expand_home_directory home p) base)) as [H1 H2].
  - by apply path_with_base_absolute.
  - split_and!; [exact H1|exact H2|done].
Qed.

Lemma resolve_path_normalised_witness :
  resolve_path_against_base (Some $"/home/u") $"../x/./y" $"/work/a" = $"/work/x/y" ∧
  ∃ names, resolve_path_against_base (Some $"/home/u") $"../x/./y" $"/work/a" = abs_path names ∧
    Forall valid_name names ∧
    names = resolve_names (components
      (path_with_base (maybe_expand_home_directory (Some $"/home/u") $"../x/./y") $"/work/a")).
Proof. split; [reflexivity|]. apply resolve_path_normalised. reflexivity. Defined.

(** A relative path that has no [".."] component and no leading ["~"]
    resolves to a path below the base: the base's own names come first. *)
Theorem resolve_path_below_base home p base :
  is_absolute base = true → is_absolute p = false → strip_prefix $"~" p = None →
  ParentDir ∉ components p →
  ∃ more, resolve_path_against_base home p base
          = abs_path (resolve_names (components base) ++ more).
Proof.
  intros Hb Hp Ht Hpd. unfold resolve_path_against_base, absolutize_from.
  assert (maybe_expand_home_directory home p = p) as ->
    by (unfold maybe_expand_home_directory; rewrite Ht; by destruct home).
  unfold path_with_base. rewrite Hp.
  pose proof (push_absolute base p Hb) as Hpush.
  rewrite (proj1 (normalize_path_absolute _ Hpush)).
  unfold components at 1 2. rewrite Hpush, Hb, omap_piece_push by done.
  unfold resolve_names. cbn [fold_left resolve_step]. rewrite fold_left_app.
  destruct (fold_resolve_no_parent (omap piece_component (split_on SLASH p))
    (fold_left resolve_step (omap piece_component (split_on SLASH base)) [])) as [more E].
  - intros H. by apply Hpd, components_relative.
  - exists more. by rewrite E.
Qed.

Lemma resolve_path_below_base_witness :
  ∃ more, resolve_path_against_base None $"src/./lib.rs" $"/work/repo"
          = abs_path (resolve_names (components $"/work/repo") ++ more).
Proof.
  apply resolve_path_below_base; [reflexivity..|].
  vm_decide.
Defined.

(** A path that is already absolute and normalised is unchanged, whatever
    the base and the home directory: resolution is idempotent. *)
Theorem resolve_path_idempotent home names base :
  Forall valid_name names →
  resolve_path_against_base home (abs_path names) base = abs_path names.
Proof.
  intros H. unfold resolve_path_against_base, absolutize_from, path_with_base.
  assert (maybe_expand_home_directory home (abs_path names) = abs_path names) as ->
    by (unfold maybe_expand_home_directory, abs_path; by destruct home).
  replace (is_absolute (abs_path names)) with true by done.
  rewrite (proj1 (normalize_path_absolute (abs_path names) eq_refl)). f_equal.
  rewrite components_abs_path by done. unfold resolve_names. cbn [fold_left resolve_step].
  rewrite <- (app_nil_l names) at 2. generalize (@nil rstring) as pre. clear H.
  induction names as [|n names IH]; intros pre; cbn; [by rewrite app_nil_r|].
  rewrite IH. by rewrite <- app_assoc.
Qed.

Lemma resolve_path_idempotent_witness :
  resolve_path_against_base None $"/a/b" $"/c" = $"/a/b".
Proof.
  apply (resolve_path_idempotent None [ $"a"; $"b"] $"/c").
  unfold valid_name. vm_decide.
Defined.

End Path.
