(* ===== verification/PatchParser.v ===== *)
(** * The apply_patch grammar (apply-patch/src/parser.rs)

    The parser of the patch language the model writes: boundary checks for the
    three modes, hunks, chunks.  Loops over "the remaining lines" take their
    fuel from the number of lines; [None] is running out of it, which the
    termination theorem excludes.  The other theorems: what a successful parse
    guarantees about hunks, the round trip with a printer, and how the lenient
    mode relates to the strict one. *)

From S2P Require Import Prelude AbsPath.

Module Parser.

Definition BEGIN_PATCH_MARKER : rstring := $"*** Begin Patch".
Definition END_PATCH_MARKER : rstring := $"*** End Patch".
Definition ADD_FILE_MARKER : rstring := $"*** Add File: ".
Definition DELETE_FILE_MARKER : rstring := $"*** Delete File: ".
Definition UPDATE_FILE_MARKER : rstring := $"*** Update File: ".
Definition MOVE_TO_MARKER : rstring := $"*** Move to: ".
Definition EOF_MARKER : rstring := $"*** End of File".
Definition CHANGE_CONTEXT_MARKER : rstring := $"@@ ".
Definition EMPTY_CHANGE_CONTEXT_MARKER : rstring := $"@@".
Definition PARSE_IN_STRICT_MODE : bool := false.

Inductive ParseError :=
| InvalidPatchError (message : rstring)
| InvalidHunkError (message : rstring) (line_number : nat).

Record UpdateFileChunk := {
  change_context : option rstring;
  old_lines : list rstring;
  new_lines : list rstring;
  is_end_of_file : bool;
}.

Inductive Hunk :=
| AddFile (path contents : rstring)
| DeleteFile (path : rstring)
| UpdateFile (path : rstring) (move_path : option rstring) (chunks : list UpdateFileChunk).

Inductive ParseMode := Strict | Lenient | Streaming.

Record ApplyPatchArgs := {
  patch : rstring;
  hunks : list Hunk;
  workdir : option rstring;
}.

#[export] Instance ParseError_eq_dec : EqDecision ParseError.
Proof. solve_decision. Defined.
#[export] Instance UpdateFileChunk_eq_dec : EqDecision UpdateFileChunk.
Proof. solve_decision. Defined.
#[export] Instance Hunk_eq_dec : EqDecision Hunk.
Proof. solve_decision. Defined.

(** [Hunk::path]: the move destination for a rename. *)
Definition hunk_path (h : Hunk) : rstring :=
  match h with
  | AddFile path _ => path
  | DeleteFile path => path
  | UpdateFile _ (Some path) _ => path
  | UpdateFile path None _ => path
  end.

(** [Hunk::resolve_path]: the source of a rename. *)
Definition resolve_path (home : option rstring) (h : Hunk) (cwd : rstring) : rstring :=
  let path := match h with
              | UpdateFile path _ _ => path
              | AddFile _ _ | DeleteFile _ => hunk_path h
              end in
  Path.resolve_path_against_base home path cwd.

(** ** Boundaries *)

Definition check_start_and_end_lines_strict (first_line last_line : option rstring)
  : result unit ParseError :=
  match trim <$> first_line, trim <$> last_line with
  | Some first, last =>
      if (first =?s BEGIN_PATCH_MARKER)
         && match last with Some last => last =?s END_PATCH_MARKER | None => false end
      then Ok tt
      else if negb (first =?s BEGIN_PATCH_MARKER)
      then Err (InvalidPatchError $"The first line of the patch must be '*** Begin Patch'")
      else Err (InvalidPatchError $"The last line of the patch must be '*** End Patch'")
  | None, _ => Err (InvalidPatchError $"The last line of the patch must be '*** End Patch'")
  end.

(** [&lines[1..lines.len() - 1]]. *)
Definition inner_lines (lines : list rstring) : list rstring :=
  take (length lines - 2) (drop 1 lines).

Definition check_patch_boundaries_strict (lines : list rstring)
  : result (list rstring * list rstring) ParseError :=
  let? _ := check_start_and_end_lines_strict (head lines) (last lines) in
  Ok (lines, inner_lines lines).

Definition check_patch_boundaries_lenient (original_lines : list rstring)
  : result (list rstring * list rstring) ParseError :=
  match check_patch_boundaries_strict original_lines with
  | Ok lines => Ok lines
  | Err original_parse_error =>
      match original_lines with
      | first :: _ :: _ =>
          if ((first =?s $"<<EOF") || (first =?s $"<<'EOF'")
              || (first =?s $"<<" ++ [34%Z] ++ $"EOF" ++ [34%Z]))
             && match last original_lines with
                | Some last => ends_with $"EOF" last
                | None => false
                end
             && (4 <=? length original_lines)
          then check_patch_boundaries_strict (inner_lines original_lines)
          else Err original_parse_error
      | _ => Err original_parse_error
      end
  end.

Definition check_patch_boundaries_streaming (original_lines : list rstring)
  : result (list rstring * list rstring) ParseError :=
  match original_lines with
  | first :: rest =>
      if trim first =?s BEGIN_PATCH_MARKER then
        let body_lines :=
          if match last original_lines with
             | Some line => trim line =?s END_PATCH_MARKER
             | None => false
             end
          then inner_lines original_lines
          else rest in
        Ok (original_lines, body_lines)
      else check_patch_boundaries_strict original_lines
  | [] => check_patch_boundaries_strict original_lines
  end.

(** ** Chunks *)

(** The [for line in &lines[start_index..]] loop; [parsed] is [parsed_lines]. *)
Fixpoint chunk_loop (lines : list rstring) (line_number parsed : nat)
    (chunk : UpdateFileChunk) : result (UpdateFileChunk * nat) ParseError :=
  match lines with
  | [] => Ok (chunk, parsed)
  | line :: rest =>
      if line =?s EOF_MARKER then
        if parsed =? 0 then
          Err (InvalidHunkError $"Update hunk does not contain any lines" (line_number + 1))
        else
          Ok ({| change_context := change_context chunk; old_lines := old_lines chunk;
                 new_lines := new_lines chunk; is_end_of_file := true |}, parsed + 1)
      else
        let continue_with old new :=
          chunk_loop rest line_number (parsed + 1)
            {| change_context := change_context chunk;
               old_lines := old_lines chunk ++ old;
               new_lines := new_lines chunk ++ new;
               is_end_of_file := is_end_of_file chunk |} in
        match line with
        | [] => continue_with [ [] ] [ [] ]
        | c :: text =>
            if (c =? 32)%Z then continue_with [text] [text]
            else if (c =? 43)%Z then continue_with [] [text]
            else if (c =? 45)%Z then continue_with [text] []
            else if parsed =? 0 then
              Err (InvalidHunkError
                ($"Unexpected line found in update hunk: '" ++ line ++
                 $"'. Every line should start with ' ' (context line), '+' (added line), or '-' (removed line)")
                (line_number + 1))
            else Ok (chunk, parsed)
        end
  end.

Definition parse_update_file_chunk (lines : list rstring) (line_number : nat)
    (allow_missing_context : bool) : result (UpdateFileChunk * nat) ParseError :=
  match lines with
  | [] => Err (InvalidHunkError $"Update hunk does not contain any lines" line_number)
  | first :: _ =>
      let? (context, start_index) :=
        if first =?s EMPTY_CHANGE_CONTEXT_MARKER then Ok (None, 1)
        else match strip_prefix CHANGE_CONTEXT_MARKER first with
             | Some context => Ok (Some context, 1)
             | None =>
                 if negb allow_missing_context then
                   Err (InvalidHunkError
                     ($"Expected update hunk to start with a @@ context marker, got: '"
                      ++ first ++ $"'") line_number)
                 else Ok (None, 0)
             end in
      if length lines <=? start_index then
        Err (InvalidHunkError $"Update hunk does not contain any lines" (line_number + 1))
      else
        let? (chunk, parsed_lines) :=
          chunk_loop (drop start_index lines) line_number 0
            {| change_context := context; old_lines := []; new_lines := [];
               is_end_of_file := false |} in
        Ok (chunk, parsed_lines + start_index)
  end.

(** ** Hunks *)

(** The [for add_line in &lines[1..]] loop of an Add File hunk. *)
Fixpoint add_loop (lines : list rstring) (contents : rstring) (parsed_lines : nat)
  : rstring * nat :=
  match lines with
  | [] => (contents, parsed_lines)
  | add_line :: rest =>
      match strip_prefix $"+" add_line with
      | Some line_to_add => add_loop rest (contents ++ line_to_add ++ [NL]) (parsed_lines + 1)
      | None => (contents, parsed_lines)
      end
  end.

(** The [while !remaining_lines.is_empty()] loop of an Update File hunk. *)
Fixpoint update_loop (fuel : nat) (remaining : list rstring) (line_number parsed_lines : nat)
    (allow_incomplete : bool) (chunks : list UpdateFileChunk)
  : option (result (list UpdateFileChunk * nat) ParseError) :=
  match remaining with
  | [] => Some (Ok (chunks, parsed_lines))
  | line :: rest =>
      match fuel with
      | O => None
      | S fuel =>
          if is_empty (trim line) then
            update_loop fuel rest line_number (parsed_lines + 1) allow_incomplete chunks
          else if starts_with $"*" line then Some (Ok (chunks, parsed_lines))
          else if allow_incomplete && (line =?s $"@") then Some (Ok (chunks, parsed_lines))
          else
            match parse_update_file_chunk remaining (line_number + parsed_lines)
                    (is_empty chunks) with
            | Ok (chunk, chunk_lines) =>
                update_loop fuel (drop chunk_lines remaining) line_number
                  (parsed_lines + chunk_lines) allow_incomplete (chunks ++ [chunk])
            | Err (InvalidHunkError m n) =>
                if allow_incomplete && negb (is_empty chunks)
                then Some (Ok (chunks, parsed_lines))
                else Some (Err (InvalidHunkError m n))
            | Err err => Some (Err err)
            end
      end
  end.

(** [parse_one_hunk] on the non-empty slice [first :: tail]. *)
Definition parse_one_hunk (first : rstring) (tail : list rstring) (line_number : nat)
    (allow_incomplete : bool) : option (result (Hunk * nat) ParseError) :=
  let first_line := trim first in
  match strip_prefix ADD_FILE_MARKER first_line with
  | Some path =>
      let '(contents, parsed_lines) := add_loop tail [] 1 in
      Some (Ok (AddFile path contents, parsed_lines))
  | None =>
  match strip_prefix DELETE_FILE_MARKER first_line with
  | Some path => Some (Ok (DeleteFile path, 1))
  | None =>
  match strip_prefix UPDATE_FILE_MARKER first_line with
  | Some path =>
      let move_path := match tail with x :: _ => strip_prefix MOVE_TO_MARKER x | [] => None end in
      let '(remaining, parsed_lines) :=
        match move_path with Some _ => (drop 1 tail, 2) | None => (tail, 1) end in
      match update_loop (length remaining) remaining line_number parsed_lines
              allow_incomplete [] with
      | None => None
      | Some (Err e) => Some (Err e)
      | Some (Ok (chunks, parsed_lines)) =>
          if is_empty chunks then
            Some (Err (InvalidHunkError
              ($"Update file hunk for path '" ++ path ++ $"' is empty") line_number))
          else Some (Ok (UpdateFile path move_path chunks, parsed_lines))
      end
  | None =>
      Some (Err (InvalidHunkError
        ($"'" ++ first_line ++ $"' is not a valid hunk header. Valid hunk headers: '*** Add File: {path}', '*** Delete File: {path}', '*** Update File: {path}'")
        line_number))
  end end end.

(** The main loop of [parse_patch_text]. *)
Fixpoint hunks_loop (fuel : nat) (remaining : list rstring) (line_number : nat)
    (allow_incomplete : bool) (acc : list Hunk) : option (result (list Hunk) ParseError) :=
  match remaining with
  | [] => Some (Ok acc)
  | first :: tail =>
      match fuel with
      | O => None
      | S fuel =>
          match parse_one_hunk first tail line_number allow_incomplete with
          | None => None
          | Some (Err e) => Some (Err e)
          | Some (Ok (hunk, hunk_lines)) =>
              hunks_loop fuel (drop hunk_lines remaining) (line_number + hunk_lines)
                allow_incomplete (acc ++ [hunk])
          end
      end
  end.

Definition parse_patch_text (text : rstring) (mode : ParseMode)
  : option (result ApplyPatchArgs ParseError) :=
  let lines := str_lines (trim text) in
  match (match mode with
         | Strict => check_patch_boundaries_strict lines
         | Lenient => check_patch_boundaries_lenient lines
         | Streaming => check_patch_boundaries_streaming lines
         end) with
  | Err e => Some (Err e)
  | Ok (patch_lines, hunk_lines) =>
      let allow_incomplete := match mode with Streaming => true | _ => false end in
      match hunks_loop (length hunk_lines) hunk_lines 2 allow_incomplete [] with
      | None => None
      | Some (Err e) => Some (Err e)
      | Some (Ok hunks) =>
          Some (Ok {| patch := join [NL] patch_lines; hunks := hunks; workdir := None |})
      end
  end.

Definition parse_patch (text : rstring) : option (result ApplyPatchArgs ParseError) :=
  parse_patch_text text (if PARSE_IN_STRICT_MODE then Strict else Lenient).

Definition parse_patch_streaming (text : rstring) : option (result ApplyPatchArgs ParseError) :=
  parse_patch_text text Streaming.

(** ** Well-formed parses *)

Definition chunk_nonempty (c : UpdateFileChunk) : Prop :=
  old_lines c ≠ [] ∨ new_lines c ≠ [].

Definition wf_hunk (h : Hunk) : Prop :=
  match h with
  | AddFile _ contents => contents = [] ∨ last contents = Some NL
  | DeleteFile _ => True
  | UpdateFile _ _ chunks => chunks ≠ [] ∧ Forall chunk_nonempty chunks
  end.

(** ** Lemmas *)

Lemma chunk_loop_Ok lines ln p c c' p' :
  chunk_loop lines ln p c = Ok (c', p') →
  p ≤ p' ≤ p + length lines ∧
  (lines ≠ [] → 1 ≤ p') ∧
  ((p ≠ 0 → chunk_nonempty c) → p' ≠ 0 → chunk_nonempty c').
Proof.
  revert p c. induction lines as [|line rest IH]; intros p c; cbn [chunk_loop length].
  { intros [= -> ->]. naive_solver lia. }
  assert (∀ old new, (old ≠ [] ∨ new ≠ []) →
    chunk_loop rest ln (p + 1)
      {| change_context := change_context c; old_lines := old_lines c ++ old;
         new_lines := new_lines c ++ new; is_end_of_file := is_end_of_file c |} = Ok (c', p') →
    p ≤ p' ≤ p + S (length rest) ∧ (line :: rest ≠ [] → 1 ≤ p') ∧
    ((p ≠ 0 → chunk_nonempty c) → p' ≠ 0 → chunk_nonempty c')) as Hstep.
  { intros old new Hon H. apply IH in H as (H1 & H2 & H3).
    split_and!; [lia..|intros; lia|]. intros _. apply H3. intros _.
    unfold chunk_nonempty. cbn. destruct Hon as [H|H]; [left|right];
      intros [_ ?]%app_eq_nil; done. }
  destruct (line =?s EOF_MARKER).
  { destruct (Nat.eqb_spec p 0); [done|]. intros [= <- <-].
    split_and!; [lia..|intros; lia|]. unfold chunk_nonempty. cbn. auto. }
  destruct line as [|k text]; [apply Hstep; by left|].
  destruct (k =? 32)%Z; [apply Hstep; by left|].
  destruct (k =? 43)%Z; [apply Hstep; by right|].
  destruct (k =? 45)%Z; [apply Hstep; by left|].
  destruct (Nat.eqb_spec p 0); [done|]. intros [= <- <-].
  split_and!; [lia..|intros; lia|auto].
Qed.

Lemma parse_update_file_chunk_Ok lines ln b c n :
  parse_update_file_chunk lines ln b = Ok (c, n) →
  1 ≤ n ≤ length lines ∧ chunk_nonempty c.
Proof.
  unfold parse_update_file_chunk. destruct lines as [|first rest]; [done|].
  intros H. inv_result. destruct v as [ctx start]. inv_result.
  destruct (_ <=? _) eqn:Hle in H; [done|]. inv_result. destruct v as [c' p'].
  inv_result. breflect.
  match goal with E : chunk_loop _ _ _ _ = _ |- _ => apply chunk_loop_Ok in E as (H1 & H2 & H3) end.
  rewrite length_drop in H1.
  assert (1 ≤ p').
  { apply H2. intros Hn%(f_equal length). rewrite length_drop in Hn. cbn in *. lia. }
  split; [cbn in *; lia|]. apply H3; [done|lia].
Qed.

Lemma update_loop_Some fuel remaining ln p inc chunks :
  length remaining ≤ fuel →
  ∃ r, update_loop fuel remaining ln p inc chunks = Some r ∧
    ∀ cs n, r = Ok (cs, n) → p ≤ n ≤ p + length remaining ∧
      (Forall chunk_nonempty chunks → Forall chunk_nonempty cs).
Proof.
  revert remaining p chunks. induction fuel as [|fuel IH]; intros remaining p chunks Hf.
  { destruct remaining; [|cbn in Hf; lia]. cbn. eexists. split; [done|].
    intros ?? [= -> ->]. cbn. split; [lia|done]. }
  destruct remaining as [|line rest]; cbn [update_loop length] in *.
  { eexists. split; [done|]. intros ?? [= -> ->]. split; [lia|done]. }
  destruct (is_empty (trim line)).
  { destruct (IH rest (p + 1) chunks) as (r & -> & Hr); [lia|].
    eexists. split; [done|]. intros cs n ->. destruct (Hr cs n eq_refl). split; [lia|done]. }
  assert (∃ r, Some (Ok (chunks, p)) = Some r ∧
    ∀ cs n, r = @Ok _ ParseError (cs, n) → p ≤ n ≤ p + S (length rest) ∧
      (Forall chunk_nonempty chunks → Forall chunk_nonempty cs)) as Hstop.
  { eexists. split; [done|]. intros ?? [= -> ->]. split; [lia|done]. }
  destruct (starts_with $"*" line); [done|].
  destruct (inc && (line =?s $"@")); [done|].
  destruct (parse_update_file_chunk (line :: rest) (ln + p) (is_empty chunks))
    as [[chunk k]|err] eqn:E.
  - apply parse_update_file_chunk_Ok in E as [Hk Hc]. cbn [length] in Hk.
    destruct (IH (drop k (line :: rest)) (p + k) (chunks ++ [chunk])) as (r & -> & Hr).
    { rewrite length_drop. cbn. lia. }
    eexists. split; [done|]. intros cs n ->. destruct (Hr cs n eq_refl) as [H1 H2].
    rewrite length_drop in H1. cbn in H1. split; [lia|].
    intros H. apply H2. apply Forall_app. auto.
  - destruct err as [m|m l]; [eexists; split; [done|naive_solver]|].
    destruct (inc && negb (is_empty chunks)); [done|].
    eexists; split; [done|]. by intros.
Qed.

Lemma add_loop_spec lines contents p contents' n :
  add_loop lines contents p = (contents', n) →
  p ≤ n ≤ p + length lines ∧
  (contents = [] ∨ last contents = Some NL → contents' = [] ∨ last contents' = Some NL).
Proof.
  revert contents p. induction lines as [|l lines IH]; intros contents p; cbn.
  { intros [= -> ->]. split; [lia|done]. }
  destruct (match l with [] => _ | _ => _ end) as [text|].
  - intros [H1 H2]%IH. split; [lia|]. intros _. apply H2. right.
    by rewrite app_assoc, last_snoc.
  - intros [= -> ->]. split; [lia|done].
Qed.

Lemma parse_one_hunk_Some first tail ln inc :
  ∃ r, parse_one_hunk first tail ln inc = Some r ∧
    ∀ h n, r = Ok (h, n) → 1 ≤ n ≤ S (length tail) ∧ wf_hunk h.
Proof.
  unfold parse_one_hunk.
  destruct (strip_prefix ADD_FILE_MARKER (trim first)).
  { destruct (add_loop tail [] 1) as [contents n] eqn:E. eexists. split; [done|].
    intros ?? [= <- <-]. apply add_loop_spec in E as [??]. cbn. split; [lia|auto]. }
  destruct (strip_prefix DELETE_FILE_MARKER (trim first)).
  { eexists. split; [done|]. intros ?? [= <- <-]. split; [lia|done]. }
  destruct (strip_prefix UPDATE_FILE_MARKER (trim first)) as [path|];
    [|eexists; split; [done|by intros]].
  set (mp := match tail with [] => _ | _ => _ end).
  destruct (match mp with Some _ => _ | None => _ end) as [remaining p] eqn:Erem.
  assert (p + length remaining ≤ S (length tail) ∧ 1 ≤ p) as [Hp Hp1].
  { destruct mp eqn:Emp; simplify_eq; [|lia].
    destruct tail; [done|]. cbn. rewrite drop_0. lia. }
  destruct (update_loop_Some (length remaining) remaining ln p inc []) as (r & -> & Hr); [done|].
  destruct r as [[chunks n]|e]; [|eexists; split; [done|by intros]].
  destruct (Hr chunks n eq_refl) as [H1 H2].
  destruct (is_empty chunks) eqn:Ee; [eexists; split; [done|by intros]|].
  eexists. split; [done|]. intros ?? [= <- <-]. split; [lia|].
  split; [by intros ->|auto].
Qed.

Lemma hunks_loop_Some fuel remaining ln inc acc :
  length remaining ≤ fuel →
  ∃ r, hunks_loop fuel remaining ln inc acc = Some r ∧
    ∀ hs, r = Ok hs → Forall wf_hunk acc → Forall wf_hunk hs.
Proof.
  revert remaining ln acc. induction fuel as [|fuel IH]; intros remaining ln acc Hf.
  { destruct remaining; [|cbn in Hf; lia]. cbn. eexists. split; [done|]. by intros ? [= ->]. }
  destruct remaining as [|first tail]; cbn [hunks_loop length] in *.
  { eexists. split; [done|]. by intros ? [= ->]. }
  destruct (parse_one_hunk_Some first tail ln inc) as (r & -> & Hr).
  destruct r as [[h n]|e]; [|eexists; split; [done|by intros]].
  destruct (Hr h n eq_refl) as [Hn Hw].
  destruct (IH (drop n (first :: tail)) (ln + n) (acc ++ [h])) as (r & -> & Hr').
  { rewrite length_drop. cbn. lia. }
  eexists. split; [done|]. intros hs -> Hacc. apply (Hr' hs eq_refl). apply Forall_app; auto.
Qed.

Lemma parse_patch_text_Some text mode :
  ∃ r, parse_patch_text text mode = Some r ∧ ∀ a, r = Ok a → Forall wf_hunk (hunks a).
Proof.
  unfold parse_patch_text.
  destruct (match mode with Strict => _ | Lenient => _ | Streaming => _ end) as [[pl hl]|e];
    [|eexists; split; [done|by intros]].
  destruct (hunks_loop_Some (length hl) hl 2
    (match mode with Streaming => true | _ => false end) []) as (r & -> & Hr); [done|].
  destruct r as [hs|e]; eexists; (split; [done|]); [|by intros].
  intros a [= <-]. cbn. by apply (Hr hs).
Qed.

(** ** A printer for the grammar *)

(** The lines two lists start with, and what is left of each. *)
Fixpoint common_prefix (a b : list rstring) : list rstring * list rstring * list rstring :=
  match a, b with
  | x :: a', y :: b' =>
      if x =?s y then let '(p, ra, rb) := common_prefix a' b' in (x :: p, ra, rb)
      else ([], a, b)
  | _, _ => ([], a, b)
  end.

(** A context line; a blank one is an empty line. *)
Definition print_context (t : rstring) : rstring := if is_empty t then [] else 32%Z :: t.

Definition print_body (c : UpdateFileChunk) : list rstring :=
  let '(common, removed, added) := common_prefix (old_lines c) (new_lines c) in
  (print_context <$> common) ++ (cons 45%Z <$> removed) ++ (cons 43%Z <$> added).

(** A chunk: its header, the lines old and new text start with as context, the
    removed and the added lines. *)
Definition print_chunk (c : UpdateFileChunk) : list rstring :=
  match change_context c with
  | None => EMPTY_CHANGE_CONTEXT_MARKER
  | Some ctx => CHANGE_CONTEXT_MARKER ++ ctx
  end :: print_body c ++ (if is_end_of_file c then [EOF_MARKER] else []).

Definition print_hunk (h : Hunk) : list rstring :=
  match h with
  | AddFile path contents => (ADD_FILE_MARKER ++ path) :: (cons 43%Z <$> str_lines contents)
  | DeleteFile path => [DELETE_FILE_MARKER ++ path]
  | UpdateFile path move_path chunks =>
      (UPDATE_FILE_MARKER ++ path)
      :: match move_path with Some m => [MOVE_TO_MARKER ++ m] | None => [] end
      ++ concat (print_chunk <$> chunks)
  end.

Definition print_patch (hs : list Hunk) : list rstring :=
  BEGIN_PATCH_MARKER :: concat (print_hunk <$> hs) ++ [END_PATCH_MARKER].

Definition print_text (hs : list Hunk) : rstring := join [NL] (print_patch hs).

(** What the grammar can spell: no line breaks inside a line, no path with
    trailing blanks, no empty chunk. *)
Definition printable_path (p : rstring) : Prop :=
  clean_line p ∧ match last p with Some c => is_whitespace c = false | None => False end.

Definition printable_chunk (c : UpdateFileChunk) : Prop :=
  Forall clean_line (old_lines c) ∧ Forall clean_line (new_lines c) ∧ chunk_nonempty c ∧
  match change_context c with Some ctx => clean_line ctx | None => True end.

Definition printable_hunk (h : Hunk) : Prop :=
  match h with
  | AddFile path contents =>
      printable_path path ∧
      ∃ ls, Forall clean_line ls ∧ contents = concat ((λ l, l ++ [NL]) <$> ls)
  | DeleteFile path => printable_path path
  | UpdateFile path move_path chunks =>
      printable_path path ∧ chunks ≠ [] ∧ Forall printable_chunk chunks ∧
      match move_path with Some m => clean_line m | None => True end
  end.

(** [rest] is empty or starts with the header of another hunk. *)
Definition header_next (rest : list rstring) : Prop :=
  match rest with
  | [] => True
  | l :: _ => ∃ r, l = 42%Z :: r ∧ l ≠ EOF_MARKER
  end.

(** [rest] ends a chunk: a header or another chunk. *)
Definition chunk_end (rest : list rstring) : Prop :=
  match rest with
  | [] => True
  | l :: _ => ∃ c r, l = c :: r ∧ (c = 42%Z ∨ c = 64%Z) ∧ l ≠ EOF_MARKER
  end.

Lemma header_next_chunk_end rest : header_next rest → chunk_end rest.
Proof. destruct rest; [done|]. intros (r & -> & ?). exists 42%Z, r. auto. Qed.

Lemma chunk_loop_old olds rest ln p c :
  chunk_loop ((cons 45%Z <$> olds) ++ rest) ln p c =
  chunk_loop rest ln (p + length olds)
    {| change_context := change_context c; old_lines := old_lines c ++ olds;
       new_lines := new_lines c; is_end_of_file := is_end_of_file c |}.
Proof.
  revert p c. induction olds as [|o olds IH]; intros p c; cbn [fmap list_fmap app length].
  - rewrite Nat.add_0_r, app_nil_r. by destruct c.
  - cbn [chunk_loop]. rewrite str_eqb_neq by done. cbn [Z.eqb].
    cbn. rewrite IH. cbn. rewrite <- app_assoc, app_nil_r. f_equal; lia.
Qed.

Lemma chunk_loop_new news rest ln p c :
  chunk_loop ((cons 43%Z <$> news) ++ rest) ln p c =
  chunk_loop rest ln (p + length news)
    {| change_context := change_context c; old_lines := old_lines c;
       new_lines := new_lines c ++ news; is_end_of_file := is_end_of_file c |}.
Proof.
  revert p c. induction news as [|o news IH]; intros p c; cbn [fmap list_fmap app length].
  - rewrite Nat.add_0_r, app_nil_r. by destruct c.
  - cbn [chunk_loop]. rewrite str_eqb_neq by done.
    cbn. rewrite IH. cbn. rewrite <- app_assoc, app_nil_r. f_equal; lia.
Qed.

Lemma chunk_loop_context ts rest ln p c :
  chunk_loop ((print_context <$> ts) ++ rest) ln p c =
  chunk_loop rest ln (p + length ts)
    {| change_context := change_context c; old_lines := old_lines c ++ ts;
       new_lines := new_lines c ++ ts; is_end_of_file := is_end_of_file c |}.
Proof.
  revert p c. induction ts as [|t ts IH]; intros p c; cbn [fmap list_fmap app length].
  - rewrite Nat.add_0_r, !app_nil_r. by destruct c.
  - assert (chunk_loop (print_context t :: (print_context <$> ts) ++ rest) ln p c =
      chunk_loop ((print_context <$> ts) ++ rest) ln (p + 1)
        {| change_context := change_context c; old_lines := old_lines c ++ [t];
           new_lines := new_lines c ++ [t]; is_end_of_file := is_end_of_file c |}) as ->.
    { cbn [chunk_loop]. unfold print_context.
      destruct t; cbn [is_empty]; rewrite str_eqb_neq by done; done. }
    rewrite IH. cbn. rewrite <- !app_assoc. f_equal; lia.
Qed.

Lemma common_prefix_spec a b :
  let '(p, ra, rb) := common_prefix a b in a = p ++ ra ∧ b = p ++ rb.
Proof.
  revert b. induction a as [|x a IH]; intros [|y b]; cbn; try done.
  destruct (x =?s y) eqn:E; [|done]. apply str_eqb_eq in E as <-. specialize (IH b).
  destruct (common_prefix a b) as [[p ra] rb]. destruct IH as [-> ->]. done.
Qed.

(** The body of a printed chunk reads back as its old and new lines. *)
Lemma chunk_loop_body c rest ln ctx :
  chunk_loop (print_body c ++ rest) ln 0
    {| change_context := ctx; old_lines := []; new_lines := []; is_end_of_file := false |} =
  chunk_loop rest ln (length (print_body c))
    {| change_context := ctx; old_lines := old_lines c; new_lines := new_lines c;
       is_end_of_file := false |}.
Proof.
  unfold print_body. pose proof (common_prefix_spec (old_lines c) (new_lines c)) as Hs.
  destruct (common_prefix _ _) as [[p ra] rb]. destruct Hs as [Ho Hn].
  rewrite <- !app_assoc, chunk_loop_context, chunk_loop_old, chunk_loop_new. cbn.
  rewrite !length_app, !length_fmap, Ho, Hn. f_equal. lia.
Qed.

Lemma print_body_nonempty c : chunk_nonempty c → 1 ≤ length (print_body c).
Proof.
  unfold print_body. pose proof (common_prefix_spec (old_lines c) (new_lines c)) as Hs.
  destruct (common_prefix _ _) as [[p ra] rb]. destruct Hs as [Ho Hn].
  unfold chunk_nonempty. rewrite Ho, Hn, !length_app, !length_fmap. intros Hne.
  destruct p; [|cbn; lia]. destruct Hne as [H|H]; [destruct ra|destruct rb]; cbn in *; try done; lia.
Qed.

Lemma chunk_loop_end rest ln p c :
  chunk_end rest → p ≠ 0 → chunk_loop rest ln p c = Ok (c, p).
Proof.
  intros Hr Hp. destruct rest as [|l rest]; [done|].
  destruct Hr as (k & r & -> & Hk & Hne). cbn [chunk_loop].
  rewrite str_eqb_neq by done.
  by destruct Hk as [-> | ->]; cbn; rewrite (proj2 (Nat.eqb_neq _ _) Hp).
Qed.

Lemma parse_print_chunk c rest ln b :
  printable_chunk c → chunk_end rest →
  parse_update_file_chunk (print_chunk c ++ rest) ln b = Ok (c, length (print_chunk c)).
Proof.
  intros (_ & _ & Hne & _) Hr. unfold print_chunk, parse_update_file_chunk. cbn [app length].
  set (ctx_line := match change_context c with None => _ | _ => _ end).
  assert ((if ctx_line =?s EMPTY_CHANGE_CONTEXT_MARKER then Ok (None, 1)
           else match strip_prefix CHANGE_CONTEXT_MARKER ctx_line with
                | Some context => Ok (Some context, 1)
                | None => if negb b then Err (InvalidHunkError
                     ($"Expected update hunk to start with a @@ context marker, got: '"
                      ++ ctx_line ++ $"'") ln) else Ok (None, 0)
                end) = Ok (change_context c, 1)) as ->.
  { unfold ctx_line. destruct (change_context c) as [ctx|]; [|done].
    rewrite str_eqb_neq by done.
    by rewrite strip_prefix_app. }
  cbn [result_bind]. rewrite <- !app_assoc.
  pose proof (print_body_nonempty c Hne) as Hlen.
  rewrite (proj2 (Nat.leb_gt _ _)) by (rewrite !length_app; lia).
  rewrite skipn_cons, drop_0, chunk_loop_body.
  rewrite !length_app. destruct (is_end_of_file c) eqn:Ee; cbn [app length].
  - cbn [chunk_loop]. rewrite str_eqb_refl, (proj2 (Nat.eqb_neq _ _)) by lia.
    cbn. destruct c; cbn in *; subst. apply (f_equal (λ n, Ok (_, n))). lia.
  - rewrite chunk_loop_end by (done || lia). cbn. destruct c; cbn in *; subst.
    apply (f_equal (λ n, Ok (_, n))). lia.
Qed.

Lemma print_chunk_end c rest : chunk_end (print_chunk c ++ rest).
Proof.
  unfold print_chunk. cbn. exists 64%Z. destruct (change_context c); eexists;
    (split; [reflexivity|]); split; auto; done.
Qed.

Lemma chunks_end cs rest : header_next rest → chunk_end (concat (print_chunk <$> cs) ++ rest).
Proof.
  intros H. destruct cs as [|c cs]; [by apply header_next_chunk_end|]. cbn [fmap list_fmap concat].
  rewrite <- app_assoc. apply print_chunk_end.
Qed.

Lemma update_loop_print fuel cs rest ln p inc acc :
  Forall printable_chunk cs → header_next rest →
  length (concat (print_chunk <$> cs) ++ rest) ≤ fuel →
  update_loop fuel (concat (print_chunk <$> cs) ++ rest) ln p inc acc =
  Some (Ok (acc ++ cs, p + length (concat (print_chunk <$> cs)))).
Proof.
  intros Hcs Hr. revert fuel p acc. induction Hcs as [|c cs Hc Hcs IH]; intros fuel p acc Hf.
  - cbn [fmap list_fmap concat app length] in *. rewrite app_nil_r, Nat.add_0_r.
    destruct rest as [|l rest]; [by destruct fuel|]. destruct Hr as (r & -> & _).
    destruct fuel as [|fuel]; [cbn in Hf; lia|]. cbn [update_loop].
    by rewrite trim_nonempty.
  - cbn [fmap list_fmap concat] in *. rewrite <- app_assoc in *.
    destruct fuel as [|fuel].
    { unfold print_chunk in Hf. cbn in Hf. lia. }
    set (R := concat (print_chunk <$> cs) ++ rest) in *.
    assert (∃ r, print_chunk c ++ R = (64%Z :: 64%Z :: r) :: drop 1 (print_chunk c ++ R)) as [r Er].
    { unfold print_chunk. cbn. rewrite drop_0. destruct (change_context c); eexists; done. }
    rewrite Er. cbn [update_loop]. rewrite trim_nonempty by done.
    replace (starts_with $"*" _) with false by done.
    replace (_ =?s $"@") with false by (by rewrite str_eqb_neq).
    rewrite andb_false_r, <- Er.
    rewrite parse_print_chunk by (done || by apply chunks_end).
    rewrite drop_app_length. subst R. rewrite IH.
    + rewrite <- app_assoc. cbn [app]. rewrite length_app, Nat.add_assoc. done.
    + rewrite length_app in Hf. assert (1 ≤ length (print_chunk c)) by (cbn; lia). lia.
Qed.

Lemma add_loop_print ls rest contents p :
  header_next rest →
  add_loop ((cons 43%Z <$> ls) ++ rest) contents p =
  (contents ++ concat ((λ l, l ++ [NL]) <$> ls), p + length ls).
Proof.
  intros Hr. revert contents p. induction ls as [|l ls IH]; intros contents p.
  - cbn. rewrite app_nil_r, Nat.add_0_r. destruct rest as [|l rest]; [done|].
    by destruct Hr as (r & -> & _).
  - cbn [fmap list_fmap app add_loop concat length].
    change (strip_prefix $"+" (43%Z :: l)) with (Some l). cbv iota.
    rewrite IH, <- !app_assoc. f_equal. lia.
Qed.

Lemma trim_header m path :
  match m with c :: _ => is_whitespace c = false | [] => False end →
  printable_path path → trim (m ++ path) = m ++ path.
Proof.
  destruct m as [|c s]; [done|]. intros Hc [_ Hp]. destruct (last path) as [d|] eqn:E; [|done].
  apply last_Some in E as [p' ->].
  apply (trim_id _ _ d (c :: s ++ p')); [done..|]. cbn. by rewrite <- app_assoc.
Qed.

Lemma parse_print_hunk h rest ln inc :
  printable_hunk h → header_next rest →
  ∃ first tail, print_hunk h ++ rest = first :: tail ∧
    parse_one_hunk first tail ln inc = Some (Ok (h, length (print_hunk h))).
Proof.
  intros Hp Hr. destruct h as [path contents|path|path mp chunks]; cbn [print_hunk] in *.
  - destruct Hp as (Hpath & ls & Hls & ->). eexists _, _. split; [reflexivity|].
    unfold parse_one_hunk. rewrite (trim_header ADD_FILE_MARKER) by done.
    rewrite strip_prefix_app, str_lines_terminated by done.
    rewrite add_loop_print by done. cbn [app length]. by rewrite length_fmap.
  - eexists _, _. split; [reflexivity|].
    unfold parse_one_hunk. rewrite (trim_header DELETE_FILE_MARKER) by done.
    replace (strip_prefix ADD_FILE_MARKER _) with (@None rstring) by done.
    by rewrite strip_prefix_app.
  - destruct Hp as (Hpath & Hne & Hcs & Hm). eexists _, _. split; [reflexivity|].
    unfold parse_one_hunk. rewrite (trim_header UPDATE_FILE_MARKER) by done.
    replace (strip_prefix ADD_FILE_MARKER _) with (@None rstring) by done.
    replace (strip_prefix DELETE_FILE_MARKER _) with (@None rstring) by done.
    rewrite strip_prefix_app. destruct mp as [m|].
    + cbn [app]. rewrite strip_prefix_app, skipn_cons, drop_0.
      rewrite update_loop_print by done. cbn [app].
      destruct chunks as [|c cs]; [done|]. cbn [is_empty]. done.
    + cbn [app]. replace (match concat _ ++ rest with [] => _ | _ => _ end) with (@None rstring).
      * rewrite update_loop_print by done. cbn [app].
        destruct chunks as [|c cs]; [done|]. cbn [is_empty]. done.
      * destruct chunks as [|c cs]; [done|]. unfold print_chunk. cbn.
        by destruct (change_context c).
Qed.

Lemma print_hunk_header h rest : header_next (print_hunk h ++ rest).
Proof. destruct h; cbn; eexists; (split; [reflexivity|done]). Qed.

Lemma hunks_loop_print fuel hs ln inc acc :
  Forall printable_hunk hs → length (concat (print_hunk <$> hs)) ≤ fuel →
  hunks_loop fuel (concat (print_hunk <$> hs)) ln inc acc = Some (Ok (acc ++ hs)).
Proof.
  intros Hhs. revert fuel ln acc. induction Hhs as [|h hs Hh Hhs IH]; intros fuel ln acc Hf.
  - cbn. rewrite app_nil_r. by destruct fuel.
  - cbn [fmap list_fmap concat] in *.
    destruct (parse_print_hunk h (concat (print_hunk <$> hs)) ln inc)
      as (first & tail & E & Hp); [done|..].
    { destruct hs as [|h' hs]; [done|]. apply print_hunk_header. }
    assert (1 ≤ length (print_hunk h)) by (destruct h; cbn; lia).
    destruct fuel as [|fuel]; [rewrite length_app in Hf; lia|].
    rewrite E. cbn [hunks_loop]. rewrite Hp, <- E, drop_app_length, IH.
    + by rewrite <- app_assoc.
    + rewrite length_app in Hf. lia.
Qed.

Lemma str_lines_bounded ls c s d t :
  ls ≠ [] → Forall clean_line ls → is_whitespace c = false → is_whitespace d = false →
  join [NL] ls = c :: s → join [NL] ls = t ++ [d] →
  str_lines (trim (join [NL] ls)) = ls.
Proof.
  intros Hne Hcl Hc Hd E1 E2.
  rewrite E1, (trim_id c s d t) by (done || congruence). rewrite <- E1.
  apply str_lines_join; [done| |done].
  intros Hl. apply last_Some in Hl as [l' ->].
  destruct l' as [|x l']; [by cbn in E1|].
  rewrite Path.join_snoc, app_assoc, app_nil_r in E2 by done.
  apply app_inj_tail in E2 as [_ <-]. done.
Qed.

Lemma printable_lines hs : Forall printable_hunk hs → Forall clean_line (print_patch hs).
Proof.
  assert (∀ m l : rstring, clean_line m → clean_line l → clean_line (m ++ l)) as Happ.
  { intros m l [Hm1 Hm2] [Hl1 Hl2]. split; [set_solver|].
    rewrite last_app. by destruct (last l). }
  assert (∀ ls c, c ≠ NL → c ≠ CR → Forall clean_line ls → Forall clean_line (cons c <$> ls)) as Hpre.
  { intros ls c H1 H2 H. apply Forall_fmap. eapply Forall_impl; [exact H|].
    intros l [??]. split; [set_solver|]. rewrite last_cons. destruct (last l); [done|congruence]. }
  intros H. unfold print_patch. constructor; [vm_decide|].
  apply Forall_app; split; [|vm_decide].
  apply Forall_concat, Forall_fmap. eapply Forall_impl; [exact H|].
  intros [path contents|path|path mp chunks]; cbn [printable_hunk print_hunk].
  - intros ([Hp _] & ls & Hls & ->). constructor; [apply Happ; [vm_decide|done]|].
    rewrite str_lines_terminated by done. by apply Hpre.
  - intros [Hp _]. apply Forall_singleton, Happ; [vm_decide|done].
  - intros ([Hp _] & _ & Hcs & Hm). constructor; [apply Happ; [vm_decide|done]|].
    apply Forall_app; split.
    + destruct mp; [|constructor]. apply Forall_singleton, Happ; [vm_decide|done].
    + apply Forall_concat, Forall_fmap. eapply Forall_impl; [exact Hcs|].
      intros c (Ho & Hn & _ & Hctx). unfold print_chunk. constructor.
      * destruct (change_context c); [apply Happ; [vm_decide|done]|vm_decide].
      * apply Forall_app; split; [|destruct (is_end_of_file c); vm_decide].
        unfold print_body. pose proof (common_prefix_spec (old_lines c) (new_lines c)) as Hs.
        destruct (common_prefix _ _) as [[p ra] rb]. destruct Hs as [Eo En].
        rewrite Eo, Forall_app in Ho. rewrite En, Forall_app in Hn.
        apply Forall_app; split; [|apply Forall_app; split; apply Hpre; done || apply Ho || apply Hn].
        apply Forall_fmap. eapply Forall_impl; [apply Ho|]. intros l [??].
        unfold print_context. cbn. destruct l as [|x l]; [by split|]. cbn [is_empty].
        split; [set_solver|]. by rewrite last_cons_cons.
Qed.

Lemma print_text_lines hs :
  Forall printable_hunk hs → str_lines (trim (print_text hs)) = print_patch hs.
Proof.
  intros H. unfold print_text.
  assert (∃ s, join [NL] (print_patch hs) = 42%Z :: s) as [s E].
  { unfold print_patch. destruct (concat _); eexists; reflexivity. }
  assert (∃ t, join [NL] (print_patch hs) = t ++ [104%Z]) as [t E2].
  { unfold print_patch. rewrite app_comm_cons, Path.join_snoc by done.
    exists (join [NL] (BEGIN_PATCH_MARKER :: concat (print_hunk <$> hs)) ++ [NL] ++ $"*** End Patc").
    by rewrite <- !app_assoc. }
  eapply str_lines_bounded; [done|by apply printable_lines| | |exact E|exact E2]; done.
Qed.

Lemma inner_lines_snoc a l b : inner_lines (a :: l ++ [b]) = l.
Proof.
  unfold inner_lines. cbn [length drop]. rewrite drop_0, length_app. cbn [length].
  apply take_app_length'. lia.
Qed.

Lemma boundaries_strict_print hs :
  check_patch_boundaries_strict (print_patch hs) =
  Ok (print_patch hs, concat (print_hunk <$> hs)).
Proof.
  unfold check_patch_boundaries_strict, print_patch. cbn [head].
  rewrite app_comm_cons, last_snoc. change (check_start_and_end_lines_strict _ _) with
    (@Ok unit ParseError tt). cbn [result_bind app]. by rewrite inner_lines_snoc.
Qed.

Lemma heredoc_lines q ls :
  clean_line q → Forall clean_line ls → ls ≠ [] →
  str_lines (q ++ NL :: join [NL] ls ++ NL :: $"EOF") = q :: ls ++ [ $"EOF"].
Proof.
  intros Hq Hls Hne.
  assert (q ++ NL :: join [NL] ls ++ NL :: $"EOF" = join [NL] (q :: ls ++ [ $"EOF"])) as ->.
  { rewrite join_cons by (by destruct ls). by rewrite Path.join_snoc. }
  apply str_lines_join; [done|by rewrite last_cons, last_snoc|].
  constructor; [done|]. apply Forall_app; split; [done|]. vm_decide.
Qed.

Definition heredoc_openers : list rstring :=
  [ $"<<EOF"; $"<<'EOF'"; $"<<" ++ [34%Z] ++ $"EOF" ++ [34%Z] ].

Lemma boundaries_lenient_heredoc q ls :
  q ∈ heredoc_openers → 2 ≤ length ls →
  check_patch_boundaries_lenient (q :: ls ++ [ $"EOF"]) = check_patch_boundaries_strict ls.
Proof.
  intros Hq Hlen. unfold check_patch_boundaries_lenient.
  assert (∃ e, check_patch_boundaries_strict (q :: ls ++ [ $"EOF"]) = Err e) as [e ->].
  { unfold check_patch_boundaries_strict. cbn [head]. rewrite app_comm_cons, last_snoc.
    unfold heredoc_openers in Hq. eexists.
    repeat (apply elem_of_cons in Hq as [->|Hq]; [reflexivity|]). by apply elem_of_nil in Hq. }
  rewrite app_comm_cons, last_snoc. cbn [app]. destruct (ls ++ [ $"EOF"]) as [|x l] eqn:E;
    [by destruct ls|]. rewrite <- E.
  replace (4 <=? _) with true.
  - rewrite inner_lines_snoc. unfold heredoc_openers in Hq.
    repeat (apply elem_of_cons in Hq as [->|Hq]; [reflexivity|]). by apply elem_of_nil in Hq.
  - symmetry. apply Nat.leb_le. cbn [length]. rewrite length_app. cbn. lia.
Qed.

(** ** Parsing the text of a parse again *)

Lemma split_inclusive_piece s p :
  p ∈ split_inclusive NL s → ∃ q, NL ∉ q ∧ (p = q ∨ p = q ++ [NL]).
Proof.
  revert p. induction s as [|a s IH]; intros p Hp; cbn in Hp; [by apply not_elem_of_nil in Hp|].
  destruct (Z.eqb_spec a NL) as [->|Hne].
  - apply elem_of_cons in Hp as [->|Hp]; [|by apply IH]. exists []. split; [set_solver|by right].
  - destruct (split_inclusive NL s) as [|p0 ps] eqn:E.
    + apply list_elem_of_singleton in Hp as ->. exists [a]. split; [set_solver|by left].
    + apply elem_of_cons in Hp as [->|Hp]; [|apply IH; by right].
      destruct (IH p0 ltac:(by left)) as (q & Hq & Hc). exists (a :: q).
      split; [set_solver|]. destruct Hc as [->| ->]; [by left|by right].
Qed.

Lemma str_lines_no_nl s : Forall (λ l, NL ∉ l) (str_lines s).
Proof.
  unfold str_lines. apply Forall_fmap, Forall_forall. intros p (q & Hq & Hp)%split_inclusive_piece.
  cbn. unfold chomp_line. destruct (strip_suffix [NL] p) as [p'|] eqn:E.
  - apply strip_suffix_Some in E as ->. destruct Hp as [<-|[-> _]%app_inj_tail];
      [exfalso; set_solver|].
    destruct (strip_suffix [CR] q) as [p''|] eqn:E; [|done].
    apply strip_suffix_Some in E as ->. set_solver.
  - destruct Hp as [->| ->]; [done|]. by rewrite strip_suffix_app in E.
Qed.

Lemma boundaries_strict_shape ls pl hl :
  check_patch_boundaries_strict ls = Ok (pl, hl) →
  pl = ls ∧ ∃ f l, ls = f :: hl ++ [l] ∧ trim f = BEGIN_PATCH_MARKER ∧ trim l = END_PATCH_MARKER.
Proof.
  unfold check_patch_boundaries_strict, check_start_and_end_lines_strict.
  destruct ls as [|f ls]; [done|]. cbn [head fmap option_fmap option_map].
  destruct (trim f =?s BEGIN_PATCH_MARKER) eqn:Hf; [|done]. apply str_eqb_eq in Hf.
  destruct (last (f :: ls)) as [l|] eqn:El; [|done]. cbn [fmap option_fmap option_map andb].
  destruct (trim l =?s END_PATCH_MARKER) eqn:Hl; [|done]. apply str_eqb_eq in Hl.
  cbn [result_bind]. intros [= <- <-]. split; [done|].
  destruct ls as [|x ls] using rev_ind.
  { cbn in El. injection El as <-. rewrite Hf in Hl. discriminate. }
  rewrite app_comm_cons, last_snoc in El. injection El as ->.
  exists f, l. by rewrite inner_lines_snoc.
Qed.

Lemma boundaries_lenient_shape ls pl hl :
  check_patch_boundaries_lenient ls = Ok (pl, hl) →
  pl ⊆ ls ∧ ∃ f l, pl = f :: hl ++ [l] ∧ trim f = BEGIN_PATCH_MARKER ∧ trim l = END_PATCH_MARKER.
Proof.
  unfold check_patch_boundaries_lenient.
  destruct (check_patch_boundaries_strict ls) as [[pl' hl']|e] eqn:E.
  - intros [= -> ->]. apply boundaries_strict_shape in E as [-> Hs]. done.
  - destruct ls as [|a [|b ls]]; [done..|]. case_match; [|done].
    intros [-> Hs]%boundaries_strict_shape. split; [|exact Hs].
    unfold inner_lines. intros x Hx. apply elem_of_take in Hx as (i & Hx & _).
    apply list_elem_of_lookup_2 in Hx. by apply list_elem_of_further.
Qed.

Lemma trim_join f hl l :
  trim_start f ≠ [] → trim_end l ≠ [] →
  trim (join [NL] (f :: hl ++ [l])) = join [NL] (trim_start f :: hl ++ [trim_end l]).
Proof.
  intros Hf Hl. unfold trim. rewrite !join_cons by (by destruct hl).
  rewrite trim_start_nonempty_app by done.
  assert (∀ x, trim_end (x ++ l) = x ++ trim_end l) as Ht.
  { intros x. unfold trim_end. rewrite rev_app_distr, trim_start_nonempty_app.
    - by rewrite rev_app_distr, rev_involutive.
    - intros E. apply Hl. unfold trim_end. by rewrite E. }
  destruct hl as [|h hl].
  - pose proof (Ht (trim_start f ++ [NL])) as H. by rewrite <- !app_assoc in H.
  - rewrite !Path.join_snoc by done.
    pose proof (Ht (trim_start f ++ [NL] ++ join [NL] (h :: hl) ++ [NL])) as H.
    by rewrite <- !app_assoc in H.
Qed.

Lemma trim_marker s m :
  trim s = m → m ≠ [] → trim_start s ≠ [] ∧ trim_end s ≠ [] ∧
  trim (trim_start s) = m ∧ trim (trim_end s) = m.
Proof.
  intros Hs Hm. unfold trim in *. split_and!.
  - intros E. rewrite E in Hs. by subst.
  - intros E. rewrite <- trim_start_end, E in Hs. by subst.
  - by rewrite trim_start_idemp.
  - by rewrite trim_start_end, trim_end_idemp.
Qed.

Lemma elem_of_join (sep l : rstring) ls c : l ∈ ls → c ∈ l → c ∈ join sep ls.
Proof.
  induction ls as [|x ls IH]; [intros H; by apply not_elem_of_nil in H|].
  intros Hl Hc. destruct ls as [|y ls]; [by apply list_elem_of_singleton in Hl as <-|].
  rewrite join_cons by done. rewrite !elem_of_app.
  apply elem_of_cons in Hl as [->|Hl]; [by left|right; right; by apply IH].
Qed.

Lemma elem_of_trim_start (c : Z) s : c ∈ trim_start s → c ∈ s.
Proof. destruct (trim_start_suffix s) as (w & Hw & _). rewrite Hw at 2. set_solver. Qed.
Lemma elem_of_trim_end (c : Z) s : c ∈ trim_end s → c ∈ s.
Proof.
  unfold trim_end. intros H%list_elem_of_In%in_rev%list_elem_of_In%elem_of_trim_start.
  by apply list_elem_of_In, in_rev, list_elem_of_In.
Qed.

(** The text a parse keeps parses again to the same hunks, unless a carriage
    return is left in it: [str::lines] takes one off every line each time. *)
Lemma reparse_stable text a :
  parse_patch text = Some (Ok a) → CR ∉ patch a →
  ∃ a', parse_patch (patch a) = Some (Ok a') ∧ hunks a' = hunks a.
Proof.
  unfold parse_patch, parse_patch_text, PARSE_IN_STRICT_MODE.
  destruct (check_patch_boundaries_lenient (str_lines (trim text))) as [[pl hl]|] eqn:E; [|done].
  apply boundaries_lenient_shape in E as (Hsub & f & l & -> & Hf & Hl).
  destruct (hunks_loop _ hl 2 false []) as [[hs|]|] eqn:Eh; [|done..].
  assert (∃ tx, tx = join [NL] (f :: hl ++ [l])) as [tx Htx] by eauto.
  rewrite <- Htx. intros [= <-]. cbn [patch hunks]. rewrite Htx. intros Hcr.
  apply trim_marker in Hf as (Hf1 & _ & Hf & _); [|done].
  apply trim_marker in Hl as (_ & Hl1 & _ & Hl); [|done].
  rewrite trim_join by done.
  assert (Forall clean_line (f :: hl ++ [l])) as Hcl.
  { apply Forall_forall. intros x Hx. split.
    - pose proof (str_lines_no_nl (trim text)) as Hn. rewrite Forall_forall in Hn. by apply Hn, Hsub.
    - intros Hx'. apply Hcr. eapply elem_of_join; [exact Hx|].
      apply last_Some in Hx' as [y ->]. set_solver. }
  apply Forall_cons in Hcl as [Hcf [Hch [Hcll _]%Forall_cons]%Forall_app].
  assert (clean_line (trim_start f) ∧ clean_line (trim_end l)) as [Hcf' Hcl'].
  { assert (∀ x y : rstring, x ∈ f :: hl ++ [l] → NL ∉ x → (∀ c, c ∈ y → c ∈ x) → clean_line y) as Hgen.
    { intros x y Hx Hn Hi. split; [by intros ?%Hi|]. intros Hy. apply Hcr.
      eapply elem_of_join; [exact Hx|]. apply Hi. apply last_Some in Hy as [z ->]. set_solver. }
    split; [eapply (Hgen f)|eapply (Hgen l)];
      [set_solver|apply Hcf|intros ?; apply elem_of_trim_start|set_solver|apply Hcll|intros ?; apply elem_of_trim_end]. }
  rewrite str_lines_join; [|done|by rewrite last_cons, last_snoc; congruence|].
  2: { apply Forall_cons. split; [done|]. apply Forall_app. split; [done|by apply Forall_singleton]. }
  unfold check_patch_boundaries_lenient, check_patch_boundaries_strict. cbn [head].
  rewrite app_comm_cons, last_snoc. unfold check_start_and_end_lines_strict.
  cbn [fmap option_fmap option_map]. rewrite Hf, Hl. cbn [app].
  replace (BEGIN_PATCH_MARKER =?s BEGIN_PATCH_MARKER) with true by reflexivity.
  replace (END_PATCH_MARKER =?s END_PATCH_MARKER) with true by reflexivity.
  cbn [andb result_bind]. rewrite inner_lines_snoc, Eh. eauto.
Qed.

(** With carriage returns it need not: what is read the second time is
    another path. *)
Definition cr_patch : rstring :=
  join [NL] [ $"*** Begin Patch"; $"*** Update File: a"; $"*** Move to: b" ++ [CR; CR]; $"@@"; $"-x"; $"+y";
              $"*** End Patch" ].

Example reparse_differs :
  match parse_patch cr_patch with
  | Some (Ok a) => (hunks a, match parse_patch (patch a) with Some (Ok a') => hunks a' | _ => [] end)
  | _ => ([], [])
  end =
  let c := {| change_context := None; old_lines := [ $"x"]; new_lines := [ $"y"]; is_end_of_file := false |} in
  ([UpdateFile $"a" (Some ($"b" ++ [CR])) [c]], [UpdateFile $"a" (Some $"b") [c]]).
Proof. vm_compute. reflexivity. Qed.

(** ** Properties *)

(** C40: parsing always returns, in every mode: the fuel, one unit per line of
    the patch, is never exhausted. *)
Theorem parse_patch_total text mode : ∃ r, parse_patch_text text mode = Some r.
Proof. destruct (parse_patch_text_Some text mode) as (r & -> & _). by exists r. Qed.

(** A successful parse has no empty work in it: every Update File hunk has
    at least one chunk, every chunk removes or adds a line, and the contents
    of an added file are empty or end with a newline. *)
Theorem parse_patch_wf text mode a :
  parse_patch_text text mode = Some (Ok a) → Forall wf_hunk (hunks a).
Proof.
  destruct (parse_patch_text_Some text mode) as (r & -> & Hr). intros [= ->]. by apply Hr.
Qed.

Definition sample_hunks : list Hunk :=
  [ AddFile $"docs/a b.md" ($"one" ++ [NL] ++ $"" ++ [NL]);
    UpdateFile $"src/x.rs" (Some $"src/y.rs")
      [ {| change_context := Some $"fn main"; old_lines := [ $"old"; $""]; new_lines := [ $" new"];
           is_end_of_file := false |};
        {| change_context := None; old_lines := []; new_lines := [ $"tail"];
           is_end_of_file := true |} ];
    DeleteFile $"gone.txt" ].

Lemma parse_patch_wf_witness :
  ∃ a, parse_patch_text (print_text sample_hunks) Lenient = Some (Ok a) ∧
       Forall wf_hunk (hunks a).
Proof.
  eexists. split.
  - vm_compute. reflexivity.
  - apply (parse_patch_wf (print_text sample_hunks) Lenient). vm_compute. reflexivity.
Defined.

(** C2: printing then parsing is the identity in all three modes: the parser
    recovers every path, move target, context, old and new line and
    end-of-file flag, and the patch text itself. *)
Theorem parse_print_roundtrip hs mode :
  Forall printable_hunk hs →
  parse_patch_text (print_text hs) mode =
  Some (Ok {| patch := print_text hs; hunks := hs; workdir := None |}).
Proof.
  intros H. unfold parse_patch_text. rewrite print_text_lines by done.
  assert ((match mode with
           | Strict => check_patch_boundaries_strict (print_patch hs)
           | Lenient => check_patch_boundaries_lenient (print_patch hs)
           | Streaming => check_patch_boundaries_streaming (print_patch hs)
           end) = Ok (print_patch hs, concat (print_hunk <$> hs))) as ->.
  { destruct mode; [apply boundaries_strict_print|..].
    - unfold check_patch_boundaries_lenient. by rewrite boundaries_strict_print.
    - unfold check_patch_boundaries_streaming, print_patch. cbv beta iota.
      replace (trim BEGIN_PATCH_MARKER =?s _) with true by reflexivity.
      rewrite app_comm_cons, last_snoc.
      replace (trim END_PATCH_MARKER =?s _) with true by reflexivity.
      cbn [app]. by rewrite inner_lines_snoc. }
  by rewrite hunks_loop_print.
Qed.

Lemma parse_print_roundtrip_witness :
  parse_patch_text (print_text sample_hunks) Strict =
  Some (Ok {| patch := print_text sample_hunks; hunks := sample_hunks; workdir := None |}).
Proof.
  apply parse_print_roundtrip. unfold sample_hunks, printable_hunk, printable_path.
  repeat (apply Forall_cons; split); [..|apply Forall_nil; done].
  - split; [split; [vm_decide|reflexivity]|].
    exists [ $"one"; $""]. split; [vm_decide|reflexivity].
  - split_and!; [vm_decide|reflexivity|discriminate| |vm_decide].
    repeat (apply Forall_cons; split); [..|apply Forall_nil; done];
      unfold printable_chunk, chunk_nonempty; cbn [change_context old_lines new_lines]; vm_decide.
  - split; [vm_decide|reflexivity].
Defined.

(** The lenient mode unwraps a heredoc: a patch between an opener
    ([<<EOF], quoted or not) and a closing [EOF] line parses, or fails, exactly
    as the patch alone does in strict mode. *)
Theorem parse_lenient_heredoc q ls :
  q ∈ heredoc_openers → Forall clean_line ls → 2 ≤ length ls →
  trim (join [NL] ls) = join [NL] ls → last ls ≠ Some [] →
  parse_patch_text (q ++ NL :: join [NL] ls ++ NL :: $"EOF") Lenient =
  parse_patch_text (join [NL] ls) Strict.
Proof.
  intros Hq Hcl Hlen Htrim Hlast. unfold parse_patch_text.
  assert (clean_line q ∧ ∃ c s, q = c :: s ∧ is_whitespace c = false) as (Hqc & c & s & Eq & Hc).
  { unfold heredoc_openers in Hq.
    repeat (apply elem_of_cons in Hq as [->|Hq];
      [split; [vm_decide|eexists _, _; split; reflexivity]|]). by apply elem_of_nil in Hq. }
  assert (trim (q ++ NL :: join [NL] ls ++ NL :: $"EOF") =
          q ++ NL :: join [NL] ls ++ NL :: $"EOF") as ->.
  { rewrite Eq. cbn [app]. apply (trim_id _ _ 70%Z
      (c :: s ++ NL :: join [NL] ls ++ NL :: $"EO")); [done..|].
    by simplify_list_eq. }
  assert (ls ≠ []) by (intros ->; cbn in Hlen; lia).
  rewrite heredoc_lines by done. rewrite boundaries_lenient_heredoc by done.
  by rewrite Htrim, str_lines_join.
Qed.

Lemma parse_lenient_heredoc_witness :
  parse_patch_text ($"<<'EOF'" ++ NL :: join [NL] (print_patch sample_hunks) ++ NL :: $"EOF") Lenient =
  parse_patch_text (join [NL] (print_patch sample_hunks)) Strict.
Proof.
  apply parse_lenient_heredoc; [vm_decide|vm_decide|vm_compute; lia|vm_compute; reflexivity|].
  vm_decide.
Defined.

(** The lenient mode accepts everything the strict mode accepts, with the
    same result. *)
Theorem parse_lenient_conservative text a :
  parse_patch_text text Strict = Some (Ok a) → parse_patch text = Some (Ok a).
Proof.
  unfold parse_patch, parse_patch_text, PARSE_IN_STRICT_MODE, check_patch_boundaries_lenient.
  by destruct (check_patch_boundaries_strict (str_lines (trim text))) as [[??]|?].
Qed.

Lemma parse_lenient_conservative_witness :
  parse_patch (print_text sample_hunks) =
  Some (Ok {| patch := print_text sample_hunks; hunks := sample_hunks; workdir := None |}).
Proof. apply parse_lenient_conservative. vm_compute. reflexivity. Defined.

End Parser.
