(* ===== verification/Replacements.v ===== *)
(** * Line replacements (apply-patch/src/lib.rs, [compute_replacements] and
    [apply_replacements])

    A patch chunk is located in the file and becomes a replacement
    [(start_index, old_len, new_lines)]; the sorted replacements are then
    applied from the last to the first by removing and inserting single lines
    of a vector.  [Vec::insert] past the end panics, which is [None] here. *)

From S2P Require Import Prelude AbsPath SeekSequence PatchParser.

Module Replace.
Import Parser.

Abbreviation replacement := (nat * nat * list rstring)%type.

Definition r_start (r : replacement) : nat := r.1.1.
Definition r_old (r : replacement) : nat := r.1.2.
Definition r_new (r : replacement) : list rstring := r.2.

(** [Vec::remove(i)] under the guard [i < len]. *)
Definition remove_at (i : nat) (lines : list rstring) : list rstring :=
  if i <? length lines then take i lines ++ drop (S i) lines else lines.

(** [Vec::insert(i, x)]; panics when [i > len]. *)
Definition insert_at (i : nat) (x : rstring) (lines : list rstring) : option (list rstring) :=
  if i <=? length lines then Some (take i lines ++ x :: drop i lines) else None.

Fixpoint insert_all (i : nat) (new_segment : list rstring) (lines : list rstring)
  : option (list rstring) :=
  match new_segment with
  | [] => Some lines
  | x :: rest =>
      match insert_at i x lines with
      | Some lines' => insert_all (S i) rest lines'
      | None => None
      end
  end.

Definition apply_one (lines : list rstring) (r : replacement) : option (list rstring) :=
  insert_all (r_start r) (r_new r) (Nat.iter (r_old r) (remove_at (r_start r)) lines).

(** The loop over [replacements.iter().rev()]. *)
Fixpoint apply_rev (reps : list replacement) (lines : list rstring) : option (list rstring) :=
  match reps with
  | [] => Some lines
  | r :: rest =>
      match apply_one lines r with
      | Some lines' => apply_rev rest lines'
      | None => None
      end
  end.

Definition apply_replacements (lines : list rstring) (reps : list replacement)
  : option (list rstring) := apply_rev (rev reps) lines.

(** [sort_by] on the start index, a stable sort. *)
Fixpoint insert_sorted (r : replacement) (l : list replacement) : list replacement :=
  match l with
  | [] => [r]
  | x :: l' => if r_start r <=? r_start x then r :: l else x :: insert_sorted r l'
  end.
Definition sort_replacements (l : list replacement) : list replacement :=
  foldr insert_sorted [] l.

Inductive ComputeError := ComputeReplacements (message : rstring).

Definition drop_last {A} (l : list A) : list A := take (length l - 1) l.

(** The body of [for chunk in chunks]: the new [line_index] and the
    replacement pushed. *)
Definition compute_chunk (original_lines : list rstring) (path : rstring)
    (chunk : UpdateFileChunk) (line_index : nat)
  : result (nat * replacement) ComputeError :=
  let? line_index :=
    match change_context chunk with
    | Some ctx_line =>
        match Seek.seek_sequence original_lines [ctx_line] line_index false with
        | Some idx => Ok (idx + 1)
        | None => Err (ComputeReplacements
            ($"Failed to find context '" ++ ctx_line ++ $"' in " ++ path))
        end
    | None => Ok line_index
    end in
  if is_empty (old_lines chunk) then
    let insertion_idx :=
      if last_is_empty original_lines then length original_lines - 1
      else length original_lines in
    Ok (line_index, (insertion_idx, 0, new_lines chunk))
  else
    let pattern := old_lines chunk in
    let found := Seek.seek_sequence original_lines pattern line_index (is_end_of_file chunk) in
    let '(pattern, new_slice, found) :=
      match found with
      | None =>
          if last_is_empty pattern then
            let pattern := drop_last pattern in
            let new_slice :=
              if last_is_empty (new_lines chunk) then drop_last (new_lines chunk)
              else new_lines chunk in
            (pattern, new_slice,
             Seek.seek_sequence original_lines pattern line_index (is_end_of_file chunk))
          else (pattern, new_lines chunk, found)
      | Some _ => (pattern, new_lines chunk, found)
      end in
    match found with
    | Some start_idx =>
        Ok (start_idx + length pattern, (start_idx, length pattern, new_slice))
    | None =>
        Err (ComputeReplacements
          ($"Failed to find expected lines in " ++ path ++ $":" ++ [NL]
           ++ join [NL] (old_lines chunk)))
    end.

Fixpoint compute_loop (original_lines : list rstring) (path : rstring)
    (chunks : list UpdateFileChunk) (line_index : nat)
  : result (list replacement) ComputeError :=
  match chunks with
  | [] => Ok []
  | chunk :: rest =>
      let? (line_index, r) := compute_chunk original_lines path chunk line_index in
      let? rs := compute_loop original_lines path rest line_index in
      Ok (r :: rs)
  end.

Definition compute_replacements (original_lines : list rstring) (path : rstring)
    (chunks : list UpdateFileChunk) : result (list replacement) ComputeError :=
  let? replacements := compute_loop original_lines path chunks 0 in
  Ok (sort_replacements replacements).

(** [original_contents.split('\n')] without the last empty piece. *)
Definition file_lines (contents : rstring) : list rstring :=
  let lines := split_on NL contents in
  if last_is_empty lines then drop_last lines else lines.

(** The text written back: a missing final newline is added. *)
Definition render_lines (lines : list rstring) : rstring :=
  let lines := if last_is_empty lines then lines else lines ++ [ [] ] in
  join [NL] lines.

(** [derive_new_contents_from_chunks] after the file has been read: [None] is
    a panic. *)
Definition new_contents_of (contents path : rstring) (chunks : list UpdateFileChunk)
  : option (result rstring ComputeError) :=
  let lines := file_lines contents in
  match compute_replacements lines path chunks with
  | Err e => Some (Err e)
  | Ok reps =>
      match apply_replacements lines reps with
      | None => None
      | Some new => Some (Ok (render_lines new))
      end
  end.

(** ** Reference: one left-to-right pass over the file *)
Fixpoint splice (lines : list rstring) (pos : nat) (reps : list replacement) : list rstring :=
  match reps with
  | [] => drop pos lines
  | r :: rest =>
      take (r_start r - pos) (drop pos lines) ++ r_new r ++ splice lines (r_start r + r_old r) rest
  end.

(** The replaced regions are disjoint, in order and inside the file. *)
Fixpoint separated (pos len : nat) (reps : list replacement) : Prop :=
  match reps with
  | [] => pos ≤ len
  | r :: rest => pos ≤ r_start r ∧ separated (r_start r + r_old r) len rest
  end.

(** ** Lemmas *)

Lemma iter_remove_at n i lines :
  Nat.iter n (remove_at i) lines = take i lines ++ drop (i + n) lines.
Proof.
  induction n as [|n IH]; cbn.
  - by rewrite Nat.add_0_r, take_drop.
  - unfold Nat.iter in IH. rewrite IH. unfold remove_at.
    destruct (decide (i ≤ length lines)) as [Hi|Hi].
    + rewrite length_app, length_take, length_drop, take_app_length', drop_app_ge
        by (rewrite length_take; lia).
      rewrite length_take, drop_drop.
      destruct (Nat.ltb_spec i (i `min` length lines + (length lines - (i + n)))).
      * do 2 f_equal. lia.
      * rewrite (drop_ge lines) by lia. rewrite (drop_ge lines) by lia. done.
    + rewrite (take_ge lines i), (drop_ge lines (i + n)), (drop_ge lines (i + S n)), !app_nil_r
        by lia.
      by rewrite (proj2 (Nat.ltb_ge i (length lines))) by lia.
Qed.

Lemma insert_all_spec new i lines :
  i ≤ length lines → insert_all i new lines = Some (take i lines ++ new ++ drop i lines).
Proof.
  revert i lines. induction new as [|x new IH]; intros i lines Hi; cbn.
  - by rewrite take_drop.
  - unfold insert_at. rewrite (proj2 (Nat.leb_le _ _) Hi). rewrite IH.
    + assert (take i lines ++ x :: drop i lines = (take i lines ++ [x]) ++ drop i lines) as ->
        by by rewrite <- app_assoc.
      assert (S i = length (take i lines ++ [x])) as Hlen
        by (rewrite length_app, length_take; cbn; lia).
      rewrite take_app_length', drop_app_length' by done. by rewrite <- app_assoc.
    + rewrite length_app, length_take. cbn. rewrite length_drop. lia.
Qed.

Lemma apply_one_spec lines r :
  r_start r ≤ length lines →
  apply_one lines r =
  Some (take (r_start r) lines ++ r_new r ++ drop (r_start r + r_old r) lines).
Proof.
  intros H. unfold apply_one. rewrite iter_remove_at, insert_all_spec.
  - rewrite take_app_length', drop_app_length' by (rewrite length_take; lia). done.
  - rewrite length_app, length_take. lia.
Qed.

Lemma apply_rev_app a b lines :
  apply_rev (a ++ b) lines =
  match apply_rev a lines with Some l => apply_rev b l | None => None end.
Proof.
  revert lines. induction a as [|r a IH]; intros lines; cbn; [done|].
  by destruct (apply_one lines r).
Qed.

(** Each applied replacement leaves everything before its start in place, so
    the ones still to come stay in range. *)
Lemma apply_rev_in_bounds reps lines n :
  Forall (λ r, r_start r ≤ n) reps →
  StronglySorted (λ a b, r_start b ≤ r_start a) reps →
  match reps with r :: _ => r_start r ≤ length lines | [] => True end →
  ∃ out, apply_rev reps lines = Some out.
Proof.
  revert lines. induction reps as [|r reps IH]; intros lines Hn Hs Hl; cbn; [eauto|].
  rewrite apply_one_spec by done.
  apply StronglySorted_inv in Hs as [Hs Hr]. apply Forall_cons in Hn as [_ Hn].
  apply IH; [done..|]. destruct reps as [|r' reps]; [done|].
  apply Forall_cons in Hr as [Hr _]. rewrite !length_app, length_take. lia.
Qed.

Lemma separated_pos pos len reps : separated pos len reps → pos ≤ len.
Proof.
  revert pos. induction reps as [|r reps IH]; intros pos; cbn; [done|].
  intros [? ?%IH]. lia.
Qed.

(** Applying right to left equals the left-to-right reference. *)
Lemma apply_splice reps lines pos :
  separated pos (length lines) reps →
  apply_rev (rev reps) lines = Some (take pos lines ++ splice lines pos reps).
Proof.
  revert pos. induction reps as [|r reps IH]; intros pos Hs; cbn [rev splice].
  - cbn. by rewrite take_drop.
  - destruct Hs as [Hp Hs]. rewrite apply_rev_app, (IH (r_start r + r_old r)) by done.
    apply separated_pos in Hs. cbn [apply_rev].
    rewrite apply_one_spec by (rewrite length_app, length_take; lia).
    rewrite take_app_le by (rewrite length_take; lia). rewrite take_take.
    rewrite Nat.min_l by lia.
    rewrite drop_app_ge by (rewrite length_take; lia).
    rewrite length_take, Nat.min_l by lia.
    rewrite Nat.sub_diag, drop_0.
    assert (take (r_start r) lines = take pos lines ++ take (r_start r - pos) (drop pos lines))
      as -> by (rewrite take_take_drop; f_equal; lia).
    by rewrite <- app_assoc.
Qed.

Lemma insert_sorted_elem r l x : x ∈ insert_sorted r l ↔ x = r ∨ x ∈ l.
Proof.
  induction l as [|y l IH]; cbn; [set_solver|]. destruct (_ <=? _); set_solver.
Qed.

Lemma sort_elem l x : x ∈ sort_replacements l ↔ x ∈ l.
Proof.
  unfold sort_replacements. induction l as [|y l IH]; cbn; [done|].
  rewrite insert_sorted_elem, IH. set_solver.
Qed.

Lemma insert_sorted_sorted r l :
  StronglySorted (λ a b, r_start a ≤ r_start b) l →
  StronglySorted (λ a b, r_start a ≤ r_start b) (insert_sorted r l).
Proof.
  induction l as [|x l IH]; cbn; intros H; [repeat constructor|].
  destruct (Nat.leb_spec (r_start r) (r_start x)).
  - apply StronglySorted_inv in H as [Hl Hx]. constructor; [by constructor|].
    constructor; [done|]. eapply Forall_impl; [exact Hx|]. cbn. lia.
  - apply StronglySorted_inv in H as [Hl Hx]. constructor; [by apply IH|].
    apply Forall_forall. intros y [->|Hy]%insert_sorted_elem; [lia|].
    by eapply Forall_forall in Hx.
Qed.

Lemma sort_sorted l : StronglySorted (λ a b, r_start a ≤ r_start b) (sort_replacements l).
Proof. induction l; cbn; [constructor|by apply insert_sorted_sorted]. Qed.

Lemma StronglySorted_snoc {A} (R : A → A → Prop) l x :
  StronglySorted R l → Forall (λ y, R y x) l → StronglySorted R (l ++ [x]).
Proof.
  induction 1 as [|y l Hl IH Hy]; intros Hx; cbn; [repeat constructor|].
  apply Forall_cons in Hx as [? Hx]. constructor; [by apply IH|].
  apply Forall_app; split; [done|]. by constructor.
Qed.

Lemma StronglySorted_rev {A} (R : A → A → Prop) l :
  StronglySorted R l → StronglySorted (λ a b, R b a) (rev l).
Proof.
  induction 1 as [|x l Hl IH Hx]; cbn; [constructor|].
  apply StronglySorted_snoc; [done|]. apply Forall_forall. intros y Hy.
  rewrite Forall_forall in Hx. apply Hx.
  apply list_elem_of_In. apply list_elem_of_In in Hy. by apply in_rev.
Qed.

(** A list that is already separated is unchanged by the stable sort. *)
Lemma separated_sort pos len reps : separated pos len reps → sort_replacements reps = reps.
Proof.
  revert pos. induction reps as [|r reps IH]; intros pos; cbn; [done|].
  intros [Hp Hs]. unfold sort_replacements in IH. cbn. fold (sort_replacements reps).
  unfold sort_replacements. rewrite (IH _ Hs). destruct reps as [|x reps]; [done|].
  cbn in Hs |- *. rewrite (proj2 (Nat.leb_le _ _)) by lia. done.
Qed.

(** What a located chunk says of its replacement. *)
Definition region_matches (lines : list rstring) (c : UpdateFileChunk) (r : replacement) : Prop :=
  ∃ pat,
    (pat = old_lines c ∧ r_new r = new_lines c ∨
     pat = drop_last (old_lines c) ∧ last_is_empty (old_lines c) = true ∧
     r_new r = (if last_is_empty (new_lines c) then drop_last (new_lines c) else new_lines c)) ∧
    r_old r = length pat ∧
    Forall2 (λ l p, Seek.normalise l = Seek.normalise p)
      (take (r_old r) (drop (r_start r) lines)) pat.

Definition in_order_chunk (c : UpdateFileChunk) : Prop :=
  old_lines c ≠ [] ∧ is_end_of_file c = false.

Lemma seek_region lines pat li eof i :
  li ≤ length lines → Seek.seek_sequence lines pat li eof = Some i →
  Forall2 (λ l p, Seek.normalise l = Seek.normalise p) (take (length pat) (drop i lines)) pat.
Proof.
  intros Hl H. destruct pat as [|p pat]; [constructor|].
  apply Seek.seek_sequence_sound in H as (n & key & Hn & _ & Hk & _); [|done].
  apply (Seek.level_permissive _ _ _ _ _ Hn) in Hk. by apply Seek.keyed_at_spec.
Qed.

Lemma compute_chunk_Ok lines path c li li' r :
  li ≤ length lines → compute_chunk lines path c li = Ok (li', r) →
  li' ≤ length lines ∧ r_start r ≤ length lines ∧
  (in_order_chunk c → li ≤ r_start r ∧ li' = r_start r + r_old r ∧ region_matches lines c r).
Proof.
  intros Hli H. unfold compute_chunk in H. inv_result. rename v into lc.
  assert (li ≤ lc ≤ length lines) as Hlc.
  { destruct (change_context c) as [ctx|]; [|by inv_result].
    destruct (Seek.seek_sequence lines [ctx] li false) as [idx|] eqn:Es; [|done]. inv_result.
    pose proof (Seek.seek_sequence_start _ _ _ _ Es).
    apply Seek.seek_sequence_bound in Es; [cbn in Es; lia|done]. }
  clear E. destruct (is_empty (old_lines c)) eqn:Ee.
  { apply is_empty_true in Ee. inv_result. unfold in_order_chunk.
    cbn. split_and!; [lia|destruct (last_is_empty lines); cbn; lia|by intros [? _]]. }
  set (eof := is_end_of_file c) in *.
  destruct (Seek.seek_sequence lines (old_lines c) lc eof) as [i|] eqn:Es;
    [|destruct (last_is_empty (old_lines c)) eqn:El; [|done];
      destruct (Seek.seek_sequence lines (drop_last (old_lines c)) lc eof) as [i|] eqn:Es'; [|done]].
  - inv_result. cbn.
    pose proof (Seek.seek_sequence_bound _ _ _ _ _ (proj2 Hlc) Es).
    split_and!; [lia..|]. intros [_ Heof]. subst eof. rewrite Heof in Es.
    pose proof (Seek.seek_sequence_start _ _ _ _ Es). split_and!; [lia|done|].
    exists (old_lines c). split_and!; [by left|done|]. cbn.
    eapply seek_region; [exact (proj2 Hlc)|exact Es].
  - inv_result. cbn.
    pose proof (Seek.seek_sequence_bound _ _ _ _ _ (proj2 Hlc) Es').
    split_and!; [lia..|]. intros [_ Heof]. subst eof. rewrite Heof in Es'.
    pose proof (Seek.seek_sequence_start _ _ _ _ Es'). split_and!; [lia|done|].
    exists (drop_last (old_lines c)). split_and!; [by right|done|]. cbn.
    eapply seek_region; [exact (proj2 Hlc)|exact Es'].
Qed.

Lemma compute_loop_Ok lines path cs li rs :
  li ≤ length lines → compute_loop lines path cs li = Ok rs →
  Forall (λ r, r_start r ≤ length lines) rs ∧
  (Forall in_order_chunk cs →
     separated li (length lines) rs ∧ Forall2 (region_matches lines) cs rs).
Proof.
  revert li rs. induction cs as [|c cs IH]; intros li rs Hli H; cbn in H.
  { inv_result. split; [done|]. cbn. auto. }
  inv_result. destruct v as [li' r]. inv_result.
  apply compute_chunk_Ok in E as (H1 & H2 & H3); [|done].
  apply IH in E0 as [H4 H5]; [|done]. split; [by constructor|].
  intros [Hc Hcs]%Forall_cons. destruct (H3 Hc) as (? & -> & ?).
  destruct (H5 Hcs) as [??]. split; [|by constructor]. cbn. split; [lia|done].
Qed.

Lemma compute_replacements_Ok lines path cs reps :
  compute_replacements lines path cs = Ok reps →
  Forall (λ r, r_start r ≤ length lines) reps ∧
  (Forall in_order_chunk cs →
     separated 0 (length lines) reps ∧ Forall2 (region_matches lines) cs reps).
Proof.
  unfold compute_replacements. intros H. inv_result.
  apply compute_loop_Ok in E as [H1 H2]; [|lia]. split.
  - rewrite Forall_forall in H1 |- *. intros r Hr. by apply H1, sort_elem.
  - intros [Hs Hm]%H2. by rewrite (separated_sort 0 (length lines)).
Qed.

Lemma apply_replacements_total lines path cs reps :
  compute_replacements lines path cs = Ok reps →
  ∃ out, apply_replacements lines reps = Some out.
Proof.
  intros H. pose proof (proj1 (compute_replacements_Ok _ _ _ _ H)) as Hb.
  assert (StronglySorted (λ a b, r_start a ≤ r_start b) reps) as Hs.
  { unfold compute_replacements in H. inv_result. apply sort_sorted. }
  assert (Forall (λ r, r_start r ≤ length lines) (rev reps)) as Hb'.
  { rewrite Forall_forall in Hb |- *. intros r Hr. apply Hb.
    by apply list_elem_of_In, in_rev, list_elem_of_In. }
  apply apply_rev_in_bounds with (length lines); [done|by apply StronglySorted_rev in Hs|].
  destruct (rev reps) as [|r l]; [done|]. by apply Forall_cons in Hb' as [? _].
Qed.

Lemma file_lines_render ls :
  Forall (λ l, NL ∉ l) ls → last_is_empty ls = false → file_lines (render_lines ls) = ls.
Proof.
  intros Hcl Hl. unfold render_lines, file_lines. rewrite Hl.
  rewrite split_join; [|by destruct ls|apply Forall_app; split; [done|]; repeat constructor;
    apply not_elem_of_nil].
  unfold last_is_empty. rewrite last_snoc. cbn [is_empty]. unfold drop_last.
  rewrite length_app. cbn. apply take_app_length'. lia.
Qed.

(** The text of a list of lines, each with its newline. *)
Definition terminated (ls : list rstring) : rstring := concat ((λ l, l ++ [NL]) <$> ls).

(** A file that holds the lines [ls]: each ends with a newline, which only a
    last line that is not blank may lack. *)
Definition holds_lines (contents : rstring) (ls : list rstring) : Prop :=
  Forall (λ l, NL ∉ l) ls ∧
  (contents = terminated ls ∨
   contents ++ [NL] = terminated ls ∧ ∃ l, last ls = Some l ∧ l ≠ []).

Lemma join_terminated ls : join [NL] (ls ++ [ [] ]) = terminated ls.
Proof.
  induction ls as [|l ls IH]; [done|]. unfold terminated. cbn [fmap list_fmap concat app].
  rewrite join_cons by (by destruct ls). rewrite IH. by rewrite <- app_assoc.
Qed.

Lemma drop_last_snoc {A} (l : list A) x : drop_last (l ++ [x]) = l.
Proof. unfold drop_last. rewrite length_app. cbn. apply take_app_length'. lia. Qed.

Lemma holds_file_lines contents ls : holds_lines contents ls → file_lines contents = ls.
Proof.
  intros [Hn Hc]. unfold file_lines.
  assert (∀ l, Forall (λ l, NL ∉ l) (ls ++ [l]) → split_on NL (join [NL] (ls ++ [l])) = ls ++ [l]) as Hs.
  { intros l Hl. apply split_join; [by destruct ls|done]. }
  destruct Hc as [->|[Hc (l & Hl & Hne)]].
  - rewrite <- join_terminated, Hs by (apply Forall_app; split; [done|repeat constructor; apply not_elem_of_nil]).
    unfold last_is_empty. rewrite last_snoc. apply drop_last_snoc.
  - rewrite <- join_terminated, Path.join_snoc, app_assoc, app_nil_r in Hc by (by intros ->).
    apply app_inj_tail in Hc as [-> _]. rewrite split_join by (done || by intros ->).
    unfold last_is_empty. rewrite Hl. by destruct l.
Qed.

Lemma render_blank ls : render_lines (ls ++ [ [] ]) = terminated ls.
Proof. unfold render_lines, last_is_empty. rewrite last_snoc. apply join_terminated. Qed.

Lemma render_terminated ls : last ls ≠ Some [] → render_lines ls = terminated ls.
Proof.
  intros Hl. unfold render_lines, last_is_empty.
  destruct (last ls) as [[|]|]; [done|apply join_terminated..].
Qed.

(** ** Properties *)

(** Whatever the file and the chunks, locating and applying the
    replacements never panics: [Vec::insert] is always called within bounds,
    even when end-of-file chunks make replacements overlap. *)
Theorem new_contents_never_panics contents path chunks :
  ∃ r, new_contents_of contents path chunks = Some r.
Proof.
  unfold new_contents_of. destruct (compute_replacements _ _ _) as [reps|e] eqn:E; [|eauto].
  apply apply_replacements_total in E as [out ->]. eauto.
Qed.

(** C3: updating a file by chunks that all remove or keep some line and are not
    flagged as end of file is one left-to-right pass over its lines: the replaced
    regions are disjoint, in file order and inside the file, each matches its
    chunk's old lines up to the permissive comparison and is replaced by its new
    lines (a chunk found only without its final blank line loses that line from
    both), and every line outside the regions is copied unchanged.  The new text
    is those lines, each with its newline, also where the old file lacked the last
    one.  One case is excepted: when the lines of the pass end with a blank line,
    that one blank line is not written, even where no chunk touches it. *)
Theorem new_contents_refines_splice contents ls path chunks text :
  holds_lines contents ls → Forall in_order_chunk chunks →
  new_contents_of contents path chunks = Some (Ok text) →
  ∃ reps, separated 0 (length ls) reps ∧ Forall2 (region_matches ls) chunks reps ∧
    (last (splice ls 0 reps) ≠ Some [] → text = terminated (splice ls 0 reps)) ∧
    (∀ out, splice ls 0 reps = out ++ [ [] ] → text = terminated out).
Proof.
  intros Hh%holds_file_lines Hc. unfold new_contents_of. rewrite Hh.
  destruct (compute_replacements _ _ _) as [reps|e] eqn:E; [|done].
  apply compute_replacements_Ok in E as [_ H]. destruct (H Hc) as [Hs Hm].
  unfold apply_replacements. rewrite (apply_splice _ _ 0) by done.
  intros [= <-]. exists reps. split_and!; [done..| |].
  - apply render_terminated.
  - intros out Ho. cbn [take app]. rewrite Ho. apply render_blank.
Qed.

Definition sample_file : rstring := $"fn a() {" ++ [NL] ++ $"  old();" ++ [NL] ++ $"}" ++ [NL].
Definition sample_chunk : UpdateFileChunk :=
  {| change_context := Some $"fn a() {"; old_lines := [ $"  old();"];
     new_lines := [ $"  new();"; $"  more();"]; is_end_of_file := false |}.

Definition sample_lines : list rstring := [ $"fn a() {"; $"  old();"; $"}" ].

Lemma new_contents_refines_splice_witness :
  let text := $"fn a() {" ++ [NL] ++ $"  new();" ++ [NL] ++ $"  more();" ++ [NL] ++ $"}" ++ [NL] in
  ∃ reps, separated 0 3 reps ∧ Forall2 (region_matches sample_lines) [sample_chunk] reps ∧
    (last (splice sample_lines 0 reps) ≠ Some [] → text = terminated (splice sample_lines 0 reps)) ∧
    (∀ out, splice sample_lines 0 reps = out ++ [ [] ] → text = terminated out).
Proof.
  apply (new_contents_refines_splice sample_file sample_lines $"a.rs" [sample_chunk]).
  - split; [vm_decide|by left].
  - unfold in_order_chunk. vm_decide.
  - vm_compute. reflexivity.
Defined.

(** A single chunk without context replaces the leftmost exact
    occurrence of its old lines, and nothing else. *)
Theorem new_contents_single_chunk contents path pre old new post :
  file_lines contents = pre ++ old ++ post → old ≠ [] →
  (∀ j, j < length pre → take (length old) (drop j (file_lines contents)) ≠ old) →
  new_contents_of contents path
    [ {| change_context := None; old_lines := old; new_lines := new; is_end_of_file := false |} ]
  = Some (Ok (render_lines (pre ++ new ++ post))).
Proof.
  intros Hf Hne Hfirst.
  assert (Seek.seek_sequence (file_lines contents) old 0 false = Some (length pre)) as Hseek.
  { unfold Seek.seek_sequence. destruct old as [|o old]; [done|]. cbn [is_empty andb].
    rewrite (proj2 (Nat.ltb_ge _ _)) by (rewrite Hf, !length_app; lia).
    apply Seek.or_else_Some. left. apply Seek.find_range_Some. split_and!.
    - lia.
    - rewrite Hf, !length_app. lia.
    - apply bool_decide_eq_true. by rewrite Hf, drop_app_length, take_app_length.
    - intros k Hk. apply bool_decide_eq_false. apply Hfirst. lia. }
  unfold new_contents_of, compute_replacements, compute_loop, compute_chunk.
  cbn [change_context old_lines new_lines is_end_of_file result_bind].
  destruct (is_empty old) eqn:Ee; [by apply is_empty_true in Ee|].
  rewrite Hseek. cbn [result_bind sort_replacements foldr insert_sorted].
  unfold apply_replacements. rewrite (apply_splice _ _ 0).
  - cbn [take app splice]. unfold r_start, r_old, r_new. cbn [fst snd].
    rewrite drop_0, Nat.sub_0_r. do 3 f_equal. rewrite Hf.
    by rewrite take_app_length, <- drop_drop, drop_app_length, drop_app_length.
  - cbn. split; [lia|]. rewrite Hf, !length_app. lia.
Qed.

Lemma new_contents_single_chunk_witness :
  new_contents_of ($"a" ++ [NL] ++ $"b" ++ [NL] ++ $"c" ++ [NL]) $"f"
    [ {| change_context := None; old_lines := [ $"b"]; new_lines := [ $"x"; $"y"];
         is_end_of_file := false |} ]
  = Some (Ok (render_lines ([ $"a"] ++ [ $"x"; $"y"] ++ [ $"c"]))).
Proof.
  apply new_contents_single_chunk; [reflexivity|discriminate|].
  intros [|j] Hj; [vm_decide|cbn in Hj; lia].
Defined.

(** A text written back is read again as the same lines, as long as its
    last line is not blank. *)
Theorem render_file_lines_roundtrip ls :
  Forall (λ l, NL ∉ l) ls → last_is_empty ls = false → file_lines (render_lines ls) = ls.
Proof. apply file_lines_render. Qed.

Lemma render_file_lines_roundtrip_witness :
  file_lines (render_lines [ $"a"; $""; $"b"]) = [ $"a"; $""; $"b"].
Proof. apply render_file_lines_roundtrip; [vm_decide|reflexivity]. Defined.

(** A file that ends with a blank line loses it on any update, however
    far away the edit: here only the first line is touched. *)
Theorem new_contents_drops_trailing_blank_line :
  new_contents_of ($"a" ++ [NL] ++ $"b" ++ [NL; NL]) $"f"
    [ {| change_context := None; old_lines := [ $"a"]; new_lines := [ $"x"];
         is_end_of_file := false |} ]
  = Some (Ok ($"x" ++ [NL] ++ $"b" ++ [NL])).
Proof. vm_compute. reflexivity. Qed.

(** An added line can be lost: when one chunk replaces the final blank
    line and a later chunk only adds lines, the insertion point lies inside
    the replaced region and the first added line is removed again. *)
Theorem new_contents_loses_added_line :
  new_contents_of ($"a" ++ [NL; NL]) $"f"
    [ {| change_context := None; old_lines := [ $"a"; $""]; new_lines := [ $"b"; $""];
         is_end_of_file := false |};
      {| change_context := None; old_lines := []; new_lines := [ $"added"];
         is_end_of_file := false |} ]
  = Some (Ok ($"b" ++ [NL; NL])).
Proof. vm_compute. reflexivity. Qed.

End Replace.
