(* ===== verification/PatchApply.v ===== *)
(** * Applying a patch to a file system (apply-patch/src/lib.rs)

    The file system is an interface ([ExecutorFileSystem], the trait of
    exec-server/src/file_system.rs with the sandbox argument fixed); what the
    theorems need of it is the class [FileSystemLaws], stated on the contents
    of regular files.  [MemFs] implements both.  The main theorem refines the
    imperative hunk loop to steps on an abstract map from paths to contents. *)

From S2P Require Import Prelude AbsPath SeekSequence PatchParser Replacements.

Module Apply.
Import Parser Replace.

Inductive ErrorKind := NotFound | InvalidInput | InvalidData | PermissionDenied | Other.
#[export] Instance ErrorKind_eq_dec : EqDecision ErrorKind.
Proof. solve_decision. Defined.

Record io_error := { kind : ErrorKind; io_message : rstring }.

Record FileMetadata := { is_directory : bool; is_file : bool }.
Record RemoveOptions := { recursive : bool; force : bool }.

(** ** Interfaces *)

Class ExecutorFileSystem (W : Type) := {
  read_file_text : rstring → W → result rstring io_error;
  write_file : rstring → rstring → W → result unit io_error * W;
  create_directory : rstring → bool → W → result unit io_error * W;
  get_metadata : rstring → W → result FileMetadata io_error;
  remove : rstring → RemoveOptions → W → result unit io_error * W;
}.

(** [std::io::Write], one formatted line at a time. *)
Class Write (O : Type) := {
  write_str : rstring → O → result unit io_error * O;
}.

(** What the client relies on.  [file_at w p] is the text of the regular file
    at [p].  A write that reports [NotFound] did not open the file.  The laws
    describe a file system in which no two paths name the same file: hard links
    and symbolic links are outside them ([PatchSafety] needs none of these laws). *)
Class FileSystemLaws (W : Type) `{ExecutorFileSystem W} := {
  file_at : W → rstring → option rstring;
  read_ok w p c : read_file_text p w = Ok c → file_at w p = Some c;
  write_ok w p c w' :
    write_file p c w = (Ok tt, w') →
    ∀ q, file_at w' q = if decide (q = p) then Some c else file_at w q;
  write_not_found w p c w' e :
    write_file p c w = (Err e, w') → kind e = NotFound →
    ∀ q, file_at w' q = file_at w q;
  create_directory_files w p b r w' :
    create_directory p b w = (r, w') → ∀ q, file_at w' q = file_at w q;
  remove_ok w p o w' :
    recursive o = false → remove p o w = (Ok tt, w') →
    ∀ q, file_at w' q = if decide (q = p) then None else file_at w q;
}.

(** What a failing operation may have changed: a write may leave its own file
    half written and a removal may have happened, but no other file changes.
    Like [write_ok] and [remove_ok] this speaks of paths that are not two names
    of one file. *)
Class FailureLaws (W : Type) `{FileSystemLaws W} := {
  write_err w p c e w' :
    write_file p c w = (Err e, w') → ∀ q, q ≠ p → file_at w' q = file_at w q;
  remove_err w p o e w' :
    recursive o = false → remove p o w = (Err e, w') →
    ∀ q, q ≠ p → file_at w' q = file_at w q;
}.

(** ** Errors *)

Inductive ApplyPatchError :=
| PatchParseError (e : ParseError)
| IoError (context : rstring) (source : io_error)
| PatchComputeReplacements (message : rstring)
| ImplicitInvocation.

Definition display_parse_error (e : ParseError) : rstring :=
  match e with
  | InvalidPatchError m => $"invalid patch: " ++ m
  | InvalidHunkError m n => $"invalid hunk at line " ++ show_nat n ++ $", " ++ m
  end.

Definition display_apply_error (e : ApplyPatchError) : rstring :=
  match e with
  | PatchParseError e => display_parse_error e
  | IoError context source => context ++ $": " ++ io_message source
  | PatchComputeReplacements m => m
  | ImplicitInvocation =>
      $"patch detected without explicit call to apply_patch. Rerun as [" ++ [34%Z]
      ++ $"apply_patch" ++ [34%Z] ++ $", " ++ [34%Z] ++ $"<patch>" ++ [34%Z] ++ $"]"
  end.

(** The [anyhow::Error]s of the hunk loop: an I/O error under a context, a
    patch error, or a bare message. *)
Inductive AnyhowError :=
| AnyIo (context : rstring) (e : io_error)
| AnyPatch (e : ApplyPatchError)
| AnyMsg (m : rstring).

Definition display_anyhow (e : AnyhowError) : rstring :=
  match e with
  | AnyIo context _ => context
  | AnyPatch e => display_apply_error e
  | AnyMsg m => m
  end.

(** [err.downcast_ref::<std::io::Error>()]. *)
Definition downcast_io (e : AnyhowError) : option io_error :=
  match e with AnyIo _ e => Some e | _ => None end.

Definition apply_error_from_io (e : io_error) : ApplyPatchError := IoError $"I/O error" e.

Record AffectedPaths := {
  added : list rstring;
  modified : list rstring;
  deleted : list rstring;
}.

Record AppliedPatch := { original_contents : rstring; new_contents : rstring }.
Record ApplyPatchFileUpdate := { unified_diff : rstring; content : rstring }.

Section Client.
Context {W : Type} `{ExecutorFileSystem W}.
(** The home directory, as the [dirs] crate reports it. *)
Context (home : option rstring).

Definition derive_new_contents_from_chunks (path_abs : rstring) (chunks : list UpdateFileChunk)
    (w : W) : option (result AppliedPatch ApplyPatchError) :=
  match read_file_text path_abs w with
  | Err err => Some (Err (IoError ($"Failed to read file to update " ++ path_abs) err))
  | Ok contents =>
      match new_contents_of contents path_abs chunks with
      | None => None
      | Some (Err (ComputeReplacements m)) => Some (Err (PatchComputeReplacements m))
      | Some (Ok new) => Some (Ok {| original_contents := contents; new_contents := new |})
      end
  end.

Definition write_file_with_missing_parent_retry (path_abs contents : rstring) (w : W)
  : result unit AnyhowError * W :=
  let retry w :=
    let '(r, w) := write_file path_abs contents w in
    (map_err (AnyIo ($"Failed to write file " ++ path_abs)) r, w) in
  match write_file path_abs contents w with
  | (Ok _, w) => (Ok tt, w)
  | (Err err, w) =>
      if bool_decide (kind err = NotFound) then
        match Path.parent path_abs with
        | Some parent_abs =>
            match create_directory parent_abs true w with
            | (Err e, w) =>
                (Err (AnyIo ($"Failed to create parent directories for " ++ path_abs) e), w)
            | (Ok _, w) => retry w
            end
        | None => retry w
        end
      else (Err (AnyIo ($"Failed to write file " ++ path_abs) err), w)
  end.

(** The [async] block shared by the delete and the move branches. *)
Definition remove_regular_file (path_abs : rstring) (w : W) : result unit io_error * W :=
  match get_metadata path_abs w with
  | Err e => (Err e, w)
  | Ok metadata =>
      if is_directory metadata then
        (Err {| kind := InvalidInput; io_message := $"path is a directory" |}, w)
      else remove path_abs {| recursive := false; force := false |} w
  end.

Definition add_added (a : AffectedPaths) (p : rstring) : AffectedPaths :=
  {| added := added a ++ [p]; modified := modified a; deleted := deleted a |}.
Definition add_modified (a : AffectedPaths) (p : rstring) : AffectedPaths :=
  {| added := added a; modified := modified a ++ [p]; deleted := deleted a |}.
Definition add_deleted (a : AffectedPaths) (p : rstring) : AffectedPaths :=
  {| added := added a; modified := modified a; deleted := deleted a ++ [p] |}.

(** The body of [for hunk in hunks]; [None] is a panic. *)
Definition apply_hunk (cwd : rstring) (hunk : Hunk) (acc : AffectedPaths) (w : W)
  : option (result AffectedPaths AnyhowError * W) :=
  let affected_path := hunk_path hunk in
  let path_abs := resolve_path home hunk cwd in
  match hunk with
  | AddFile _ contents =>
      match write_file_with_missing_parent_retry path_abs contents w with
      | (Err e, w) => Some (Err e, w)
      | (Ok _, w) => Some (Ok (add_added acc affected_path), w)
      end
  | DeleteFile _ =>
      match remove_regular_file path_abs w with
      | (Err e, w) => Some (Err (AnyIo ($"Failed to delete file " ++ path_abs) e), w)
      | (Ok _, w) => Some (Ok (add_deleted acc affected_path), w)
      end
  | UpdateFile _ move_path chunks =>
      match derive_new_contents_from_chunks path_abs chunks w with
      | None => None
      | Some (Err e) => Some (Err (AnyPatch e), w)
      | Some (Ok applied) =>
          match move_path with
          | Some dest =>
              let dest_abs := Path.resolve_path_against_base home dest cwd in
              match write_file_with_missing_parent_retry dest_abs (new_contents applied) w with
              | (Err e, w) => Some (Err e, w)
              | (Ok _, w) =>
                  match remove_regular_file path_abs w with
                  | (Err e, w) =>
                      Some (Err (AnyIo ($"Failed to remove original " ++ path_abs) e), w)
                  | (Ok _, w) => Some (Ok (add_modified acc affected_path), w)
                  end
              end
          | None =>
              match write_file path_abs (new_contents applied) w with
              | (Err e, w) => Some (Err (AnyIo ($"Failed to write file " ++ path_abs) e), w)
              | (Ok _, w) => Some (Ok (add_modified acc affected_path), w)
              end
          end
      end
  end.

Fixpoint apply_hunks_loop (cwd : rstring) (hunks : list Hunk) (acc : AffectedPaths) (w : W)
  : option (result AffectedPaths AnyhowError * W) :=
  match hunks with
  | [] => Some (Ok acc, w)
  | hunk :: rest =>
      match apply_hunk cwd hunk acc w with
      | None => None
      | Some (Err e, w) => Some (Err e, w)
      | Some (Ok acc, w) => apply_hunks_loop cwd rest acc w
      end
  end.

Definition no_paths : AffectedPaths := {| added := []; modified := []; deleted := [] |}.

Definition apply_hunks_to_files (hunks : list Hunk) (cwd : rstring) (w : W)
  : option (result AffectedPaths AnyhowError * W) :=
  if is_empty hunks then Some (Err (AnyMsg $"No files were modified."), w)
  else apply_hunks_loop cwd hunks no_paths w.

Section Output.
Context {O : Type} `{Write O}.

Definition writeln (line : rstring) (o : O) : result unit io_error * O :=
  write_str (line ++ [NL]) o.

Fixpoint write_lines (lines : list rstring) (o : O) : result unit io_error * O :=
  match lines with
  | [] => (Ok tt, o)
  | l :: rest =>
      match writeln l o with
      | (Err e, o) => (Err e, o)
      | (Ok _, o) => write_lines rest o
      end
  end.

Definition print_summary (affected : AffectedPaths) (out : O) : result unit io_error * O :=
  write_lines
    ($"Success. Updated the following files:"
     :: (app $"A " <$> added affected) ++ (app $"M " <$> modified affected)
     ++ (app $"D " <$> deleted affected)) out.

Definition apply_hunks (hunks : list Hunk) (cwd : rstring) (w : W) (stdout stderr : O)
  : option (result unit ApplyPatchError * W * O * O) :=
  match apply_hunks_to_files hunks cwd w with
  | None => None
  | Some (Ok affected, w) =>
      let '(r, stdout) := print_summary affected stdout in
      Some (map_err apply_error_from_io r, w, stdout, stderr)
  | Some (Err err, w) =>
      let msg := display_anyhow err in
      match writeln msg stderr with
      | (Err e, stderr) => Some (Err (apply_error_from_io e), w, stdout, stderr)
      | (Ok _, stderr) =>
          let e := match downcast_io err with
                   | Some io => apply_error_from_io io
                   | None => IoError msg {| kind := Other; io_message := msg |}
                   end in
          Some (Err e, w, stdout, stderr)
      end
  end.

Definition apply_patch (text cwd : rstring) (w : W) (stdout stderr : O)
  : option (result unit ApplyPatchError * W * O * O) :=
  match parse_patch text with
  | None => None
  | Some (Ok source) => apply_hunks (hunks source) cwd w stdout stderr
  | Some (Err e) =>
      let line := match e with
                  | InvalidPatchError message => $"Invalid patch: " ++ message
                  | InvalidHunkError message line_number =>
                      $"Invalid patch hunk on line " ++ show_nat line_number ++ $": " ++ message
                  end in
      match writeln line stderr with
      | (Err io, stderr) => Some (Err (apply_error_from_io io), w, stdout, stderr)
      | (Ok _, stderr) => Some (Err (PatchParseError e), w, stdout, stderr)
      end
  end.
End Output.

(** [unified_diff_from_chunks(_with_context)]; [text_diff] is the [similar]
    crate's unified diff of two texts at a context radius. *)
Definition unified_diff_from_chunks_with_context (text_diff : rstring → rstring → nat → rstring)
    (path_abs : rstring) (chunks : list UpdateFileChunk) (context : nat) (w : W)
  : option (result ApplyPatchFileUpdate ApplyPatchError) :=
  match derive_new_contents_from_chunks path_abs chunks w with
  | None => None
  | Some (Err e) => Some (Err e)
  | Some (Ok applied) =>
      Some (Ok {| unified_diff := text_diff (original_contents applied) (new_contents applied) context;
                  content := new_contents applied |})
  end.

Definition unified_diff_from_chunks text_diff path_abs chunks w :=
  unified_diff_from_chunks_with_context text_diff path_abs chunks 1 w.

(** ** Abstract specification: maps from paths to contents *)

Abbreviation files := (rstring → option rstring).

Definition set_file (p c : rstring) (f : files) : files :=
  λ q, if decide (q = p) then Some c else f q.
Definition unset_file (p : rstring) (f : files) : files :=
  λ q, if decide (q = p) then None else f q.

(** Two maps that agree at every path. *)
Definition same_files (f g : files) : Prop := ∀ q, f q = g q.

Inductive hunk_step (cwd : rstring) : Hunk → files → files → Prop :=
| step_add p c f f' :
    same_files f' (set_file (Path.resolve_path_against_base home p cwd) c f) →
    hunk_step cwd (AddFile p c) f f'
| step_delete p f f' :
    same_files f' (unset_file (Path.resolve_path_against_base home p cwd) f) →
    hunk_step cwd (DeleteFile p) f f'
| step_update p chunks old new f f' :
    let src := Path.resolve_path_against_base home p cwd in
    f src = Some old → new_contents_of old src chunks = Some (Ok new) →
    same_files f' (set_file src new f) →
    hunk_step cwd (UpdateFile p None chunks) f f'
| step_move p d chunks old new f f' :
    let src := Path.resolve_path_against_base home p cwd in
    let dst := Path.resolve_path_against_base home d cwd in
    f src = Some old → new_contents_of old src chunks = Some (Ok new) →
    same_files f' (unset_file src (set_file dst new f)) →
    hunk_step cwd (UpdateFile p (Some d) chunks) f f'.

(** Steps in patch order. *)
Inductive patch_steps (cwd : rstring) : list Hunk → files → files → Prop :=
| steps_nil f : patch_steps cwd [] f f
| steps_cons h hs f f1 f2 :
    hunk_step cwd h f f1 → patch_steps cwd hs f1 f2 → patch_steps cwd (h :: hs) f f2.

(** The lists an AffectedPaths must hold after a run. *)
Definition spec_affected (hs : list Hunk) : AffectedPaths :=
  {| added := omap (λ h, match h with AddFile p _ => Some p | _ => None end) hs;
     modified := omap (λ h, match h with UpdateFile _ _ _ => Some (hunk_path h) | _ => None end) hs;
     deleted := omap (λ h, match h with DeleteFile p => Some p | _ => None end) hs |}.

Definition merge_affected (a b : AffectedPaths) : AffectedPaths :=
  {| added := added a ++ added b; modified := modified a ++ modified b;
     deleted := deleted a ++ deleted b |}.

End Client.

(** ** An in-memory file system *)
Module MemFs.

Inductive node := File (contents : rstring) | Dir.
Abbreviation mem := (gmap (list Z) node).

Definition is_dir (m : mem) (p : rstring) : bool :=
  match m !! p with Some Dir => true | _ => false end.

Definition err (k : ErrorKind) (m : rstring) : io_error := {| kind := k; io_message := m |}.

Definition mem_read (p : rstring) (m : mem) : result rstring io_error :=
  match m !! p with
  | Some (File c) => Ok c
  | Some Dir => Err (err InvalidInput $"is a directory")
  | None => Err (err NotFound $"no such file")
  end.

Definition mem_write (p c : rstring) (m : mem) : result unit io_error * mem :=
  if is_dir m p then (Err (err InvalidInput $"is a directory"), m)
  else match Path.parent p with
       | Some d => if is_dir m d then (Ok tt, <[p := File c]> m)
                   else (Err (err NotFound $"no such directory"), m)
       | None => (Err (err InvalidInput $"is a directory"), m)
       end.

Fixpoint ancestors (fuel : nat) (p : rstring) : list rstring :=
  p :: match fuel, Path.parent p with
       | S fuel, Some d => ancestors fuel d
       | _, _ => []
       end.

Definition is_regular (m : mem) (p : rstring) : bool :=
  match m !! p with Some (File _) => true | _ => false end.

Definition mem_mkdir (p : rstring) (recursive : bool) (m : mem) : result unit io_error * mem :=
  let new := if recursive then ancestors (length p) p else [p] in
  if existsb (is_regular m) new then (Err (err InvalidInput $"not a directory"), m)
  else (Ok tt, foldr (λ d m, <[d := Dir]> m) m new).

Definition mem_metadata (p : rstring) (m : mem) : result FileMetadata io_error :=
  match m !! p with
  | Some (File _) => Ok {| is_directory := false; is_file := true |}
  | Some Dir => Ok {| is_directory := true; is_file := false |}
  | None => Err (err NotFound $"no such file")
  end.

Definition mem_remove (p : rstring) (o : RemoveOptions) (m : mem) : result unit io_error * mem :=
  match m !! p with
  | Some (File _) => (Ok tt, delete p m)
  | Some Dir => (Err (err InvalidInput $"is a directory"), m)
  | None => (Err (err NotFound $"no such file"), m)
  end.

Definition mem_file_at (m : mem) (p : rstring) : option rstring :=
  match m !! p with Some (File c) => Some c | _ => None end.

End MemFs.

#[export] Instance MemFs_fs : ExecutorFileSystem (gmap (list Z) MemFs.node) := {
  read_file_text := MemFs.mem_read;
  write_file := MemFs.mem_write;
  create_directory := MemFs.mem_mkdir;
  get_metadata := MemFs.mem_metadata;
  remove := MemFs.mem_remove;
}.

(** An output that never fails: a [Vec<u8>]. *)
#[export] Instance Buffer_write : Write (list Z) := { write_str s o := (Ok tt, o ++ s) }.

Lemma mem_mkdir_files (m : gmap (list Z) MemFs.node) new q :
  existsb (MemFs.is_regular m) new = false →
  MemFs.mem_file_at (foldr (λ d m, <[d := MemFs.Dir]> m) m new) q = MemFs.mem_file_at m q.
Proof.
  intros Hn. assert (∀ l, foldr (λ d m, <[d := MemFs.Dir]> m) m l !! q
      = if decide (q ∈ l) then Some MemFs.Dir else m !! q) as Hl.
  { induction l as [|d l IH]; cbn; [done|]. rewrite lookup_insert.
    destruct (decide (d = q)) as [->|]; [by rewrite decide_True by set_solver|].
    rewrite IH. by destruct (decide (q ∈ l)), (decide (q ∈ d :: l)); set_solver. }
  unfold MemFs.mem_file_at. rewrite Hl. destruct (decide (q ∈ new)) as [Hq|]; [|done].
  destruct (m !! q) as [[c|]|] eqn:E; [|done..].
  assert (existsb (MemFs.is_regular m) new = true); [|congruence].
  apply existsb_exists. exists q. split; [by apply list_elem_of_In|].
  unfold MemFs.is_regular. by rewrite E.
Qed.

#[export] Instance MemFs_laws : FileSystemLaws (gmap (list Z) MemFs.node).
Proof.
  refine {| file_at := MemFs.mem_file_at |}.
  - intros w p c. cbn. unfold MemFs.mem_read, MemFs.mem_file_at.
    destruct (w !! p) as [[]|]; congruence.
  - intros w p c w'. cbn. unfold MemFs.mem_write. destruct (MemFs.is_dir w p); [done|].
    destruct (Path.parent p); [|done]. destruct (MemFs.is_dir w l); [|done].
    intros [= <-] q. unfold MemFs.mem_file_at. rewrite lookup_insert.
    destruct (decide (q = p)) as [->|]; [by rewrite decide_True|]. by rewrite decide_False.
  - intros w p c w' e. cbn. unfold MemFs.mem_write.
    repeat case_match; by intros [= <- <-].
  - intros w p b r w'. cbn. unfold MemFs.mem_mkdir.
    destruct (existsb _ _) eqn:E; intros [= <- <-] q; [done|]. by apply mem_mkdir_files.
  - intros w p o w' _. cbn. unfold MemFs.mem_remove.
    destruct (w !! p) as [[]|] eqn:E; try done. intros [= <-] q.
    unfold MemFs.mem_file_at. rewrite lookup_delete.
    destruct (decide (q = p)) as [->|]; [by rewrite decide_True|]. by rewrite decide_False.
Defined.

#[export] Instance MemFs_failures : FailureLaws (gmap (list Z) MemFs.node).
Proof.
  constructor.
  - intros w p c e w'. cbn. unfold MemFs.mem_write. repeat case_match; by intros [= _ <-].
  - intros w p o e w' _. cbn. unfold MemFs.mem_remove. repeat case_match; by intros [= _ <-].
Defined.

(** ** Lemmas *)
Section Refinement.
Context {W : Type} `{FileSystemLaws W}.
Context (home : option rstring).

Lemma write_retry_Ok p c w w' :
  write_file_with_missing_parent_retry p c w = (Ok tt, w') →
  same_files (file_at w') (set_file p c (file_at w)).
Proof.
  unfold write_file_with_missing_parent_retry.
  assert (∀ w1, same_files (file_at w1) (file_at w) →
    (let '(r, w2) := write_file p c w1 in
     (map_err (AnyIo ($"Failed to write file " ++ p)) r, w2)) = (Ok tt, w') →
    same_files (file_at w') (set_file p c (file_at w))) as Hretry.
  { intros w1 H1. destruct (write_file p c w1) as [[[]|e] w2] eqn:E; [|done].
    intros [= <-] q. rewrite (write_ok _ _ _ _ E). unfold set_file.
    destruct (decide (q = p)); [done|apply H1]. }
  destruct (write_file p c w) as [[[]|e] w1] eqn:E.
  - intros [= <-] q. by rewrite (write_ok _ _ _ _ E).
  - destruct (bool_decide_reflect (kind e = NotFound)) as [Hk|]; [|done].
    pose proof (write_not_found _ _ _ _ _ E Hk) as Hsame.
    destruct (Path.parent p) as [d|]; [|by apply Hretry].
    destruct (create_directory d true w1) as [[[]|e'] w2] eqn:E'; [|done].
    apply Hretry. intros q. by rewrite (create_directory_files _ _ _ _ _ E').
Qed.

Lemma remove_regular_file_Ok p w w' :
  remove_regular_file p w = (Ok tt, w') →
  same_files (file_at w') (unset_file p (file_at w)).
Proof.
  unfold remove_regular_file. destruct (get_metadata p w) as [md|]; [|done].
  destruct (is_directory md); [done|]. intros E q.
  rewrite (remove_ok w p {| recursive := false; force := false |} w' eq_refl E). done.
Qed.

Lemma derive_Ok p chunks w a :
  derive_new_contents_from_chunks p chunks w = Some (Ok a) →
  ∃ old, file_at w p = Some old ∧ new_contents_of old p chunks = Some (Ok (new_contents a)).
Proof.
  unfold derive_new_contents_from_chunks. destruct (read_file_text p w) as [c|e] eqn:E; [|done].
  apply read_ok in E. exists c. split; [done|].
  destruct (new_contents_of c p chunks) as [[|[]]|]; by simplify_eq.
Qed.

Ltac affected :=
  unfold merge_affected, spec_affected, add_added, add_modified, add_deleted;
  simpl; rewrite ?app_nil_r;
  by repeat match goal with a : AffectedPaths |- _ => destruct a end.

Lemma apply_hunk_Ok cwd h acc w acc' w' :
  apply_hunk home cwd h acc w = Some (Ok acc', w') →
  hunk_step home cwd h (file_at w) (file_at w') ∧
  acc' = merge_affected acc (spec_affected [h]).
Proof.
  destruct h as [p c|p|p mp chunks]; cbn [apply_hunk].
  - destruct (write_file_with_missing_parent_retry _ _ w) as [[[]|e] w1] eqn:E; [|done].
    intros [= <- <-]. split; [by constructor; apply write_retry_Ok|].
    affected.
  - destruct (remove_regular_file _ w) as [[[]|e] w1] eqn:E; [|done].
    intros [= <- <-]. split; [by constructor; apply remove_regular_file_Ok|].
    affected.
  - destruct (derive_new_contents_from_chunks _ _ w) as [[a|e]|] eqn:E; try done.
    apply derive_Ok in E as (old & Hold & Hnew). destruct mp as [d|].
    + destruct (write_file_with_missing_parent_retry _ _ w) as [[[]|e] w1] eqn:E1; [|done].
      destruct (remove_regular_file _ w1) as [[[]|e] w2] eqn:E2; [|done].
      intros [= <- <-]. apply write_retry_Ok in E1. apply remove_regular_file_Ok in E2.
      split; [|affected].
      eapply step_move; [exact Hold|exact Hnew|]. intros q. rewrite E2. unfold unset_file.
      destruct (decide _); [done|]. apply E1.
    + destruct (write_file _ _ w) as [[[]|e] w1] eqn:E1; [|done].
      intros [= <- <-]. split; [|affected].
      eapply step_update; [exact Hold|exact Hnew|]. intros q. by rewrite (write_ok _ _ _ _ E1).
Qed.

Lemma merge_affected_assoc a b c :
  merge_affected (merge_affected a b) c = merge_affected a (merge_affected b c).
Proof. unfold merge_affected. cbn. by rewrite !app_assoc. Qed.

Lemma spec_affected_cons h hs :
  spec_affected (h :: hs) = merge_affected (spec_affected [h]) (spec_affected hs).
Proof. by destruct h. Qed.

Lemma apply_hunks_loop_Ok cwd hs acc w acc' w' :
  apply_hunks_loop home cwd hs acc w = Some (Ok acc', w') →
  patch_steps home cwd hs (file_at w) (file_at w') ∧
  acc' = merge_affected acc (spec_affected hs).
Proof.
  revert acc w. induction hs as [|h hs IH]; intros acc w; cbn.
  { intros [= <- <-]. split; [constructor|]. affected. }
  destruct (apply_hunk home cwd h acc w) as [[[acc1|e] w1]|] eqn:E; try done.
  apply apply_hunk_Ok in E as [Hs ->]. intros [Hss ->]%IH. split; [by econstructor|].
  by rewrite merge_affected_assoc, <- spec_affected_cons.
Qed.

(** A failing run stops at one hunk: what came before is applied, what comes
    after is not. *)
Lemma apply_hunks_loop_Err cwd hs acc w e w' :
  apply_hunks_loop home cwd hs acc w = Some (Err e, w') →
  ∃ hs1 h hs2 acc1 w1, hs = hs1 ++ h :: hs2 ∧
    apply_hunks_loop home cwd hs1 acc w = Some (Ok acc1, w1) ∧
    apply_hunk home cwd h acc1 w1 = Some (Err e, w').
Proof.
  revert acc w. induction hs as [|h hs IH]; intros acc w; cbn; [done|].
  destruct (apply_hunk home cwd h acc w) as [[[acc1|e1] w1]|] eqn:E; try done.
  - intros (hs1 & h' & hs2 & acc2 & w2 & -> & H1 & H2)%IH.
    exists (h :: hs1), h', hs2, acc2, w2. split_and!; [done| |done]. cbn. by rewrite E.
  - intros [= <- <-]. exists [], h, hs, acc, w. done.
Qed.

Lemma apply_hunk_total cwd h acc w : ∃ r, apply_hunk home cwd h acc w = Some r.
Proof.
  destruct h as [p c|p|p mp chunks]; cbn [apply_hunk].
  - destruct (write_file_with_missing_parent_retry _ _ w) as [[]]; eauto.
  - destruct (remove_regular_file _ w) as [[]]; eauto.
  - assert (∃ r, derive_new_contents_from_chunks
       (resolve_path home (UpdateFile p mp chunks) cwd) chunks w = Some r) as [r ->].
    { unfold derive_new_contents_from_chunks. destruct (read_file_text _ w); [|eauto].
      unfold new_contents_of. destruct (compute_replacements _ _ _) as [reps|[]] eqn:E; [|eauto].
      apply apply_replacements_total in E as [out ->]. eauto. }
    destruct r as [a|]; [|eauto]. destruct mp.
    + destruct (write_file_with_missing_parent_retry _ _ w) as [[] w1]; [|eauto].
      destruct (remove_regular_file _ w1) as [[]]; eauto.
    + destruct (write_file _ _ w) as [[]]; eauto.
Qed.

Lemma apply_hunks_loop_total cwd hs acc w : ∃ r, apply_hunks_loop home cwd hs acc w = Some r.
Proof.
  revert acc w. induction hs as [|h hs IH]; intros acc w; cbn; [eauto|].
  destruct (apply_hunk_total cwd h acc w) as [[[acc1|e] w1] ->]; eauto.
Qed.

Lemma apply_hunks_to_files_total cwd hs w : ∃ r, apply_hunks_to_files home hs cwd w = Some r.
Proof. unfold apply_hunks_to_files. destruct (is_empty hs); [eauto|]. apply apply_hunks_loop_total. Qed.

(** The paths a hunk may change. *)
Definition touched (cwd : rstring) (h : Hunk) : list rstring :=
  resolve_path home h cwd ::
  match h with
  | UpdateFile _ (Some d) _ => [Path.resolve_path_against_base home d cwd]
  | _ => []
  end.

Lemma hunk_step_frame cwd h f f' q :
  hunk_step home cwd h f f' → q ∉ touched cwd h → f' q = f q.
Proof.
  intros Hs Hq. unfold touched in Hq.
  destruct Hs as [p c f f' E|p f f' E|p chunks old new f f' src _ _ E
                 |p d chunks old new f f' src dst _ _ E];
    rewrite E; unfold set_file, unset_file; cbn in Hq;
    rewrite ?not_elem_of_cons in Hq; destruct_and?;
    repeat (rewrite decide_False by done); done.
Qed.

Lemma patch_steps_frame cwd hs f f' q :
  patch_steps home cwd hs f f' → q ∉ concat (touched cwd <$> hs) → f' q = f q.
Proof.
  induction 1 as [|h hs f f1 f2 Hs Hss IH]; cbn [fmap list_fmap concat]; [done|].
  intros [Hq Hqs]%not_elem_of_app. rewrite IH by done. by eapply hunk_step_frame.
Qed.

(** ** Properties *)

(** C1: a successful application is, on the contents of files, exactly the
    sequence of the hunks' abstract steps in patch order, and the reported
    paths are the added, modified and deleted ones in that order. *)
Theorem apply_hunks_refines_steps cwd hs w aff w' :
  apply_hunks_to_files home hs cwd w = Some (Ok aff, w') →
  patch_steps home cwd hs (file_at w) (file_at w') ∧ aff = spec_affected hs.
Proof.
  unfold apply_hunks_to_files. destruct (is_empty hs); [done|].
  intros [Hs ->]%apply_hunks_loop_Ok. split; [done|]. by destruct (spec_affected hs).
Qed.

(** A successful application changes no file but the ones its hunks
    name, as source or as move destination. *)
Theorem apply_hunks_frame cwd hs w aff w' q :
  apply_hunks_to_files home hs cwd w = Some (Ok aff, w') →
  q ∉ concat (touched cwd <$> hs) → file_at w' q = file_at w q.
Proof.
  unfold apply_hunks_to_files. destruct (is_empty hs); [done|].
  intros [Hs _]%apply_hunks_loop_Ok. by apply patch_steps_frame.
Qed.

(** A rename onto the source itself loses the file: it is written and
    then removed. *)
Theorem move_onto_itself_deletes cwd p d chunks acc w acc' w' :
  Path.resolve_path_against_base home d cwd = Path.resolve_path_against_base home p cwd →
  apply_hunk home cwd (UpdateFile p (Some d) chunks) acc w = Some (Ok acc', w') →
  file_at w' (Path.resolve_path_against_base home p cwd) = None.
Proof.
  intros Heq [Hs _]%apply_hunk_Ok.
  inversion Hs as [| | |? ? ? ? ? ? ? src dst _ _ E]; subst. rewrite E.
  unfold unset_file. by rewrite decide_True.
Qed.

End Refinement.

(** ** Failing runs *)
Section Failure.
Context {W : Type} `{FailureLaws W}.
Context (home : option rstring).

Lemma write_retry_frame p c w r w' q :
  write_file_with_missing_parent_retry p c w = (r, w') → q ≠ p →
  file_at w' q = file_at w q.
Proof.
  intros E Hq.
  assert (∀ w1 r1 w2, write_file p c w1 = (r1, w2) → file_at w2 q = file_at w1 q) as Hw.
  { intros w1 [[]|e] w2 E1; [|by eapply write_err].
    rewrite (write_ok _ _ _ _ E1). by rewrite decide_False. }
  assert (∀ w1, file_at w1 q = file_at w q →
    (let '(r, w2) := write_file p c w1 in
     (map_err (AnyIo ($"Failed to write file " ++ p)) r, w2)) = (r, w') →
    file_at w' q = file_at w q) as Hretry.
  { intros w1 Hw1. destruct (write_file p c w1) as [r1 w2] eqn:E1. intros [= _ <-].
    by rewrite (Hw _ _ _ E1). }
  unfold write_file_with_missing_parent_retry in E.
  destruct (write_file p c w) as [[[]|e] w1] eqn:E1; [by simplify_eq; eapply Hw|].
  destruct (bool_decide _); [|by simplify_eq; eapply Hw].
  destruct (Path.parent p) as [d|]; [|by eapply Hretry, E; eapply Hw].
  destruct (create_directory d true w1) as [[[]|e'] w2] eqn:E2;
    pose proof (create_directory_files _ _ _ _ _ E2 q) as Hd.
  - eapply Hretry, E. rewrite Hd. by eapply Hw.
  - simplify_eq. rewrite Hd. by eapply Hw.
Qed.

Lemma remove_regular_file_frame p w r w' q :
  remove_regular_file p w = (r, w') → q ≠ p → file_at w' q = file_at w q.
Proof.
  intros E Hq. destruct r as [[]|e].
  - rewrite (remove_regular_file_Ok _ _ _ E). unfold unset_file. by rewrite decide_False.
  - unfold remove_regular_file in E. destruct (get_metadata p w) as [md|]; [|by simplify_eq].
    destruct (is_directory md); [by simplify_eq|]. by eapply remove_err; [|exact E|].
Qed.

(** A hunk, failing or not, changes no file but its own. *)
Lemma apply_hunk_frame cwd h acc w r w' q :
  apply_hunk home cwd h acc w = Some (r, w') → q ∉ touched home cwd h →
  file_at w' q = file_at w q.
Proof.
  intros E Hq. unfold touched in Hq.
  destruct h as [p c|p|p [d|] chunks]; cbn [apply_hunk] in E; cbn in Hq;
    rewrite ?not_elem_of_cons in Hq; destruct_and?.
  - destruct (write_file_with_missing_parent_retry _ _ w) as [[[]|e] w1] eqn:E1;
      simplify_eq; by eapply write_retry_frame.
  - destruct (remove_regular_file _ w) as [[[]|e] w1] eqn:E1;
      simplify_eq; by eapply remove_regular_file_frame.
  - destruct (derive_new_contents_from_chunks _ _ w) as [[a|e]|]; simplify_eq; [|done].
    destruct (write_file_with_missing_parent_retry _ _ w) as [[[]|e] w1] eqn:E1;
      [|simplify_eq; by eapply write_retry_frame].
    eapply write_retry_frame in E1; [|done]. rewrite <- E1.
    destruct (remove_regular_file _ w1) as [[[]|e] w2] eqn:E2;
      simplify_eq; by eapply remove_regular_file_frame.
  - destruct (derive_new_contents_from_chunks _ _ w) as [[a|e]|]; simplify_eq; [|done].
    destruct (write_file _ _ w) as [[[]|e] w1] eqn:E1; simplify_eq.
    + rewrite (write_ok _ _ _ _ E1). by rewrite decide_False.
    + by eapply write_err.
Qed.

(** C39: a failing application stops at one hunk [h].  The hunks before it, run
    alone, succeed and make exactly their abstract steps; [h] fails in the
    world they leave with the error that is reported, and no hunk after it is
    attempted; every file that [h] does not name is, at the end, as the earlier
    hunks left it, so the earlier hunks stay applied.  ([h] itself may be half
    done: a move can have written its destination.)  An empty patch fails with
    nothing changed.  The file system's failing operations change no file but
    the one they name ([FailureLaws]), and distinct paths name distinct files. *)
Theorem apply_hunks_partial_failure cwd hs w e w' :
  apply_hunks_to_files home hs cwd w = Some (Err e, w') →
  (hs = [] ∧ w' = w) ∨
  ∃ hs1 h hs2 w1, hs = hs1 ++ h :: hs2 ∧
    apply_hunks_loop home cwd hs1 no_paths w = Some (Ok (spec_affected hs1), w1) ∧
    patch_steps home cwd hs1 (file_at w) (file_at w1) ∧
    apply_hunk home cwd h (spec_affected hs1) w1 = Some (Err e, w') ∧
    ∀ q, q ∉ touched home cwd h → file_at w' q = file_at w1 q.
Proof.
  unfold apply_hunks_to_files. destruct (is_empty hs) eqn:Ee.
  - apply is_empty_true in Ee. intros [= <- <-]. by left.
  - intros (hs1 & h & hs2 & acc & w1 & -> & Hr & Hh)%apply_hunks_loop_Err. right.
    pose proof Hr as [Hs Hacc]%apply_hunks_loop_Ok.
    assert (acc = spec_affected hs1) as -> by (rewrite Hacc; by destruct (spec_affected hs1)).
    exists hs1, h, hs2, w1. split_and!; try done. intros q. by apply (apply_hunk_frame _ _ _ _ _ _ _ Hh).
Qed.

End Failure.

(** Applying a patch never panics, on any text, file system and output. *)
Theorem apply_patch_never_panics {W O : Type} `{ExecutorFileSystem W} `{Write O}
    home text cwd (w : W) (stdout stderr : O) :
  ∃ r, apply_patch home text cwd w stdout stderr = Some r.
Proof.
  unfold apply_patch. destruct (parse_patch_text_Some text Lenient) as (r & E & _).
  unfold parse_patch, PARSE_IN_STRICT_MODE. rewrite E. destruct r as [a|e].
  - unfold apply_hunks.
    destruct (apply_hunks_to_files_total home cwd (hunks a) w) as [[[aff|err] w1] ->].
    + destruct (print_summary aff stdout). eauto.
    + destruct (writeln _ stderr) as [[]]; eauto.
  - destruct (writeln _ stderr) as [[]]; eauto.
Qed.

(** A patch that does not parse touches nothing: the file system is the
    one given, and the error is reported on stderr. *)
Theorem apply_patch_parse_error {W : Type} `{ExecutorFileSystem W}
    home text cwd (w : W) (stdout stderr : list Z) e :
  parse_patch text = Some (Err e) →
  ∃ line, apply_patch home text cwd w stdout stderr =
    Some (Err (PatchParseError e), w, stdout, stderr ++ line ++ [NL]).
Proof. intros E. unfold apply_patch. rewrite E. destruct e; eexists; reflexivity. Qed.

(** ** A concrete run *)

Definition demo_fs : gmap (list Z) MemFs.node :=
  <[ $"/w/a.txt" := MemFs.File ($"one" ++ [NL] ++ $"two" ++ [NL])]>
  (<[ $"/w/gone" := MemFs.File $"x"]> (<[ $"/w" := MemFs.Dir]> (<[ $"/" := MemFs.Dir]> ∅))).

Definition demo_hunks : list Hunk :=
  [ AddFile $"new/b.txt" ($"b" ++ [NL]);
    UpdateFile $"a.txt" (Some $"c.txt")
      [ {| change_context := None; old_lines := [ $"two"]; new_lines := [ $"2"];
           is_end_of_file := false |} ];
    DeleteFile $"gone" ].

Definition demo_result : gmap (list Z) MemFs.node :=
  match apply_hunks_to_files None demo_hunks $"/w" demo_fs with
  | Some (_, w) => w
  | None => ∅
  end.

Lemma apply_hunks_refines_steps_witness :
  patch_steps None $"/w" demo_hunks (file_at demo_fs) (file_at demo_result) ∧
  {| added := [ $"new/b.txt"]; modified := [ $"c.txt"]; deleted := [ $"gone"] |}
    = spec_affected demo_hunks.
Proof. apply apply_hunks_refines_steps. vm_compute. reflexivity. Defined.

Lemma apply_hunks_frame_witness :
  file_at demo_result $"/w/other" = file_at demo_fs $"/w/other".
Proof.
  eapply (apply_hunks_frame None $"/w" demo_hunks).
  - vm_compute. reflexivity.
  - vm_decide.
Defined.

Lemma apply_hunks_partial_failure_witness :
  let hs := demo_hunks ++ [DeleteFile $"absent"] in
  ∃ e, (hs = [] ∧ demo_result = demo_fs) ∨
  ∃ hs1 h hs2 w1, hs = hs1 ++ h :: hs2 ∧
    apply_hunks_loop None $"/w" hs1 no_paths demo_fs = Some (Ok (spec_affected hs1), w1) ∧
    patch_steps None $"/w" hs1 (file_at demo_fs) (file_at w1) ∧
    apply_hunk None $"/w" h (spec_affected hs1) w1 = Some (Err e, demo_result) ∧
    ∀ q, q ∉ touched None $"/w" h → file_at demo_result q = file_at w1 q.
Proof.
  eexists. eapply (apply_hunks_partial_failure None $"/w" (demo_hunks ++ [DeleteFile $"absent"])).
  vm_compute. reflexivity.
Defined.

Lemma move_onto_itself_deletes_witness :
  ∃ w', file_at w' (Path.resolve_path_against_base None $"a.txt" $"/w") = None ∧
        file_at demo_fs $"/w/a.txt" = Some ($"one" ++ [NL] ++ $"two" ++ [NL]).
Proof.
  eexists. split; [|reflexivity].
  eapply (move_onto_itself_deletes None $"/w" $"a.txt" $"./a.txt"
    [ {| change_context := None; old_lines := [ $"two"]; new_lines := [ $"2"];
         is_end_of_file := false |} ] no_paths demo_fs); vm_compute; reflexivity.
Defined.

Lemma apply_patch_parse_error_witness :
  ∃ line, apply_patch None $"bad" $"/w" demo_fs [] [] =
    Some (Err (PatchParseError (InvalidPatchError
      $"The first line of the patch must be '*** Begin Patch'")), demo_fs, [], [] ++ line ++ [NL]).
Proof. apply apply_patch_parse_error. vm_compute. reflexivity. Defined.

End Apply.
