(* ===== verification/ExecPolicy.v ===== *)
(** * The execution policy engine (execpolicy)

    Prefix rules, network rules and host executables; the evaluation of a
    command; overlays; the builder behind the policy language's three
    builtins (the Starlark evaluator itself is a library: a policy file is the
    sequence of builtin calls it makes); appending a rule to a policy file. *)

From S2P Require Import Prelude AbsPath.

Module ExecPolicy.

Inductive Decision := Allow | Prompt | Forbidden.
#[export] Instance Decision_eq_dec : EqDecision Decision.
Proof. solve_decision. Defined.

(** The derived [Ord]: declaration order. *)
Definition decision_rank (d : Decision) : nat :=
  match d with Allow => 0 | Prompt => 1 | Forbidden => 2 end.
Definition decision_max (a b : Decision) : Decision :=
  if decision_rank a <=? decision_rank b then b else a.

Record TextPosition := { line : nat; column : nat }.
Record TextRange := { range_start : TextPosition; range_end : TextPosition }.
Record ErrorLocation := { loc_path : rstring; range : TextRange }.

Inductive Error :=
| InvalidDecision (m : rstring)
| InvalidPattern (m : rstring)
| InvalidExample (m : rstring)
| InvalidRule (m : rstring)
| ExampleDidNotMatch (rules examples : list rstring) (location : option ErrorLocation)
| ExampleDidMatch (rule example : rstring) (location : option ErrorLocation)
| StarlarkError (m : rstring).

Definition with_location (e : Error) (location : ErrorLocation) : Error :=
  match e with
  | ExampleDidNotMatch rules examples None => ExampleDidNotMatch rules examples (Some location)
  | ExampleDidMatch rule example None => ExampleDidMatch rule example (Some location)
  | other => other
  end.

Definition attach_validation_location (e : Error) (location : option ErrorLocation) : Error :=
  match location with Some l => with_location e l | None => e end.

Definition parse_decision (raw : rstring) : result Decision Error :=
  if raw =?s $"allow" then Ok Allow
  else if raw =?s $"prompt" then Ok Prompt
  else if raw =?s $"forbidden" then Ok Forbidden
  else Err (InvalidDecision raw).

(** ** Rules *)

Inductive PatternToken := Single (value : rstring) | Alts (alternatives : list rstring).

Definition token_matches (t : PatternToken) (token : rstring) : bool :=
  match t with
  | Single expected => expected =?s token
  | Alts alternatives => existsb (λ alt, alt =?s token) alternatives
  end.

Definition token_alternatives (t : PatternToken) : list rstring :=
  match t with Single expected => [expected] | Alts alternatives => alternatives end.

Record PrefixPattern := { first : rstring; rest : list PatternToken }.

(** The [zip] loop of [matches_prefix]. *)
Fixpoint tokens_match (pattern : list PatternToken) (cmd : list rstring) : bool :=
  match pattern, cmd with
  | t :: pattern', c :: cmd' => token_matches t c && tokens_match pattern' cmd'
  | _, _ => true
  end.

Definition matches_prefix (p : PrefixPattern) (cmd : list rstring) : option (list rstring) :=
  let pattern_length := length (rest p) + 1 in
  match cmd with
  | [] => None
  | cmd0 :: args =>
      if (length cmd <? pattern_length) || negb (cmd0 =?s first p) then None
      else if tokens_match (rest p) (take (length (rest p)) args)
      then Some (take pattern_length cmd)
      else None
  end.

Inductive RuleMatch :=
| PrefixRuleMatch (matched_prefix : list rstring) (decision : Decision)
    (resolved_program : option rstring) (justification : option rstring)
| HeuristicsRuleMatch (command : list rstring) (decision : Decision).

Definition match_decision (m : RuleMatch) : Decision :=
  match m with
  | PrefixRuleMatch _ d _ _ => d
  | HeuristicsRuleMatch _ d => d
  end.

Definition with_resolved_program (m : RuleMatch) (program : rstring) : RuleMatch :=
  match m with
  | PrefixRuleMatch p d _ j => PrefixRuleMatch p d (Some program) j
  | other => other
  end.

Record PrefixRule := {
  pattern : PrefixPattern;
  decision : Decision;
  justification : option rstring;
}.

(** [impl Rule for PrefixRule], the trait's only implementation. *)
Definition program (r : PrefixRule) : rstring := first (pattern r).
Definition rule_matches (r : PrefixRule) (cmd : list rstring) : option RuleMatch :=
  match matches_prefix (pattern r) cmd with
  | Some matched_prefix => Some (PrefixRuleMatch matched_prefix (decision r) None (justification r))
  | None => None
  end.

Inductive NetworkRuleProtocol := Http | Https | Socks5Tcp | Socks5Udp.

Definition parse_protocol (raw : rstring) : result NetworkRuleProtocol Error :=
  if raw =?s $"http" then Ok Http
  else if str_in raw [ $"https"; $"https_connect"; $"http-connect"] then Ok Https
  else if raw =?s $"socks5_tcp" then Ok Socks5Tcp
  else if raw =?s $"socks5_udp" then Ok Socks5Udp
  else Err (InvalidRule
    ($"network_rule protocol must be one of http, https, socks5_tcp, socks5_udp (got "
     ++ raw ++ $")")).

Definition as_policy_string (p : NetworkRuleProtocol) : rstring :=
  match p with
  | Http => $"http"
  | Https => $"https"
  | Socks5Tcp => $"socks5_tcp"
  | Socks5Udp => $"socks5_udp"
  end.

Record NetworkRule := {
  host : rstring;
  protocol : NetworkRuleProtocol;
  net_decision : Decision;
  net_justification : option rstring;
}.

Definition all_digits (s : rstring) : bool := forallb is_ascii_digit s.

Definition normalize_network_rule_host (raw : rstring) : result rstring Error :=
  let host := trim raw in
  if is_empty host then Err (InvalidRule $"network_rule host cannot be empty")
  else if contains $"://" host || contains $"/" host || contains $"?" host || contains $"#" host
  then Err (InvalidRule
    $"network_rule host must be a hostname or IP literal (without scheme or path)")
  else
    let? host :=
      match strip_prefix $"[" host with
      | Some stripped =>
          match split_once 93%Z stripped with
          | None => Err (InvalidRule $"network_rule host has an invalid bracketed IPv6 literal")
          | Some (inside, rest) =>
              let port_ok := match strip_prefix $":" rest with
                             | Some port => negb (is_empty port) && all_digits port
                             | None => false
                             end in
              if negb (is_empty rest) && negb port_ok then
                Err (InvalidRule
                  ($"network_rule host contains an unsupported suffix: " ++ raw))
              else Ok inside
          end
      | None =>
          if count_char 58%Z host =? 1 then
            match rsplit_once 58%Z host with
            | Some (candidate, port) =>
                if negb (is_empty candidate) && negb (is_empty port) && all_digits port
                then Ok candidate else Ok host
            | None => Ok host
            end
          else Ok host
      end in
    let normalized := to_ascii_lowercase (trim (trim_end_matches 46%Z host)) in
    if is_empty normalized then Err (InvalidRule $"network_rule host cannot be empty")
    else if contains $"*" normalized then
      Err (InvalidRule $"network_rule host must be a specific host; wildcards are not allowed")
    else if existsb is_whitespace normalized then
      Err (InvalidRule $"network_rule host cannot contain whitespace")
    else Ok normalized.

(** ** Policies *)

Record MatchOptions := { resolve_host_executables : bool }.
Definition default_options : MatchOptions := {| resolve_host_executables := false |}.

(** A [MultiMap] keeps the rules of one program in insertion order. *)
Record Policy := {
  rules_by_program : gmap (list Z) (list PrefixRule);
  network_rules : list NetworkRule;
  host_executables_by_name : gmap (list Z) (list rstring);
}.

Definition empty_policy : Policy :=
  {| rules_by_program := ∅; network_rules := []; host_executables_by_name := ∅ |}.

(** [MultiMap::insert]. *)
Definition multimap_insert (k : rstring) (r : PrefixRule)
    (m : gmap (list Z) (list PrefixRule)) : gmap (list Z) (list PrefixRule) :=
  <[k := default [] (m !! k) ++ [r]]> m.

Definition add_prefix_rule (p : Policy) (prefix : list rstring) (d : Decision)
  : result Policy Error :=
  match prefix with
  | [] => Err (InvalidPattern $"prefix cannot be empty")
  | first_token :: rest =>
      let rule := {| pattern := {| first := first_token; rest := Single <$> rest |};
                     decision := d; justification := None |} in
      Ok {| rules_by_program := multimap_insert first_token rule (rules_by_program p);
            network_rules := network_rules p;
            host_executables_by_name := host_executables_by_name p |}
  end.

Definition add_network_rule (p : Policy) (h : rstring) (proto : NetworkRuleProtocol)
    (d : Decision) (j : option rstring) : result Policy Error :=
  let? h := normalize_network_rule_host h in
  if match j with Some raw => is_empty (trim raw) | None => false end
  then Err (InvalidRule $"justification cannot be empty")
  else Ok {| rules_by_program := rules_by_program p;
             network_rules := network_rules p ++
               [ {| host := h; protocol := proto; net_decision := d; net_justification := j |} ];
             host_executables_by_name := host_executables_by_name p |}.

Definition set_host_executable_paths (p : Policy) (name : rstring) (paths : list rstring) : Policy :=
  {| rules_by_program := rules_by_program p; network_rules := network_rules p;
     host_executables_by_name := <[name := paths]> (host_executables_by_name p) |}.

(** [merge_overlay]: the overlay's rules are appended program by program. *)
Definition merge_overlay (base overlay : Policy) : Policy :=
  {| rules_by_program :=
       union_with (λ a b, Some (a ++ b)) (rules_by_program base) (rules_by_program overlay);
     network_rules := network_rules base ++ network_rules overlay;
     host_executables_by_name :=
       host_executables_by_name overlay ∪ host_executables_by_name base |}.

Definition retain_ne (h : rstring) (l : list rstring) : list rstring :=
  List.filter (λ e, negb (e =?s h)) l.

Definition upsert_domain (entries : list rstring) (h : rstring) : list rstring :=
  retain_ne h entries ++ [h].

Definition compile_step (acc : list rstring * list rstring) (r : NetworkRule)
  : list rstring * list rstring :=
  let '(allowed, denied) := acc in
  match net_decision r with
  | Allow => (upsert_domain allowed (host r), retain_ne (host r) denied)
  | Forbidden => (retain_ne (host r) allowed, upsert_domain denied (host r))
  | Prompt => (allowed, denied)
  end.

Definition compiled_network_domains (p : Policy) : list rstring * list rstring :=
  fold_left compile_step (network_rules p) ([], []).

Definition render_pattern_token (t : PatternToken) : rstring :=
  match t with
  | Single value => value
  | Alts alternatives => $"[" ++ join $"|" alternatives ++ $"]"
  end.

(** Lexicographic order on vectors of strings, as the derived [Ord]. *)
Fixpoint list_leb {A} (eqb leb : A → A → bool) (a b : list A) : bool :=
  match a, b with
  | [], _ => true
  | _ :: _, [] => false
  | x :: a', y :: b' => if eqb x y then list_leb eqb leb a' b' else leb x y
  end.
Definition str_leb : rstring → rstring → bool := list_leb Z.eqb Z.leb.
Definition prefix_leb : list rstring → list rstring → bool := list_leb str_eqb str_leb.

Fixpoint insert_prefix (x : list rstring) (l : list (list rstring)) : list (list rstring) :=
  match l with
  | [] => [x]
  | y :: l' => if prefix_leb x y then x :: l else y :: insert_prefix x l'
  end.

(** [Vec::dedup]: drops an element equal to the one just kept. *)
Fixpoint dedup_from (prev : list rstring) (l : list (list rstring)) : list (list rstring) :=
  match l with
  | [] => []
  | y :: l' => if bool_decide (y = prev) then dedup_from prev l' else y :: dedup_from y l'
  end.
Definition dedup (l : list (list rstring)) : list (list rstring) :=
  match l with [] => [] | x :: l' => x :: dedup_from x l' end.

Definition allowed_prefix (r : PrefixRule) : option (list rstring) :=
  if bool_decide (decision r = Allow)
  then Some (first (pattern r) :: (render_pattern_token <$> rest (pattern r)))
  else None.

Definition get_allowed_prefixes (p : Policy) : list (list rstring) :=
  dedup (foldr insert_prefix []
    (omap allowed_prefix (concat (snd <$> map_to_list (rules_by_program p))))).

(** [executable_lookup_key] outside Windows. *)
Definition executable_lookup_key (raw : rstring) : rstring := raw.
Definition executable_path_lookup_key (path : rstring) : option rstring :=
  executable_lookup_key <$> Path.file_name path.

Record Evaluation := { eval_decision : Decision; matched_rules : list RuleMatch }.

Definition is_match (e : Evaluation) : bool :=
  existsb (λ m, match m with HeuristicsRuleMatch _ _ => false | _ => true end) (matched_rules e).

(** [Evaluation::from_matches]; [None] is the [expect] panic on no match. *)
Definition from_matches (ms : list RuleMatch) : option Evaluation :=
  match ms with
  | [] => None
  | m :: ms' =>
      Some {| eval_decision := fold_left decision_max (match_decision <$> ms') (match_decision m);
              matched_rules := ms |}
  end.

Section Matching.
(** The home and current directories of the process. *)
Context (home cwd : option rstring).

Definition match_exact_rules (p : Policy) (cmd : list rstring) : option (list RuleMatch) :=
  match cmd with
  | [] => None
  | first :: _ =>
      Some (match rules_by_program p !! first with
            | Some rules => omap (λ r, rule_matches r cmd) rules
            | None => []
            end)
  end.

Definition match_host_executable_rules (p : Policy) (cmd : list rstring) : list RuleMatch :=
  match cmd with
  | [] => []
  | first :: args =>
      match Path.from_absolute_path home cwd first with
      | Err _ => []
      | Ok prog =>
          match executable_path_lookup_key prog with
          | None => []
          | Some basename =>
              match rules_by_program p !! basename with
              | None => []
              | Some rules =>
                  if match host_executables_by_name p !! basename with
                     | Some paths => negb (existsb (λ path, path =?s prog) paths)
                     | None => false
                     end
                  then []
                  else (λ m, with_resolved_program m prog)
                         <$> omap (λ r, rule_matches r (basename :: args)) rules
              end
          end
      end
  end.

Definition nonempty_or {A} (o : option (list A)) (d : list A) : list A :=
  match o with Some (x :: l) => x :: l | _ => d end.

Definition matches_for_command_with_options (p : Policy) (cmd : list rstring)
    (heuristics_fallback : option (list rstring → Decision)) (options : MatchOptions)
  : list RuleMatch :=
  let matched_rules :=
    nonempty_or (match_exact_rules p cmd)
      (if resolve_host_executables options then match_host_executable_rules p cmd else []) in
  match matched_rules, heuristics_fallback with
  | [], Some heuristics => [HeuristicsRuleMatch cmd (heuristics cmd)]
  | _, _ => matched_rules
  end.

Definition matches_for_command p cmd heuristics_fallback : list RuleMatch :=
  matches_for_command_with_options p cmd heuristics_fallback default_options.

Definition check_with_options (p : Policy) (cmd : list rstring)
    (heuristics : list rstring → Decision) (options : MatchOptions) : option Evaluation :=
  from_matches (matches_for_command_with_options p cmd (Some heuristics) options).

Definition check p cmd heuristics : option Evaluation :=
  check_with_options p cmd heuristics default_options.

Definition check_multiple_with_options (p : Policy) (commands : list (list rstring))
    (heuristics : list rstring → Decision) (options : MatchOptions) : option Evaluation :=
  from_matches (concat ((λ cmd,
    matches_for_command_with_options p cmd (Some heuristics) options) <$> commands)).

Definition check_multiple p commands heuristics : option Evaluation :=
  check_multiple_with_options p commands heuristics default_options.

End Matching.

(** ** Lemmas *)

Lemma decision_max_rank a b :
  decision_rank (decision_max a b) = decision_rank a `max` decision_rank b.
Proof. by destruct a, b. Qed.

Lemma decision_rank_inj a b : decision_rank a = decision_rank b → a = b.
Proof. by destruct a, b. Qed.

Lemma fold_max_spec l d :
  let m := fold_left decision_max l d in
  (m = d ∨ m ∈ l) ∧ decision_rank d ≤ decision_rank m ∧
  ∀ x, x ∈ l → decision_rank x ≤ decision_rank m.
Proof.
  revert d. induction l as [|x l IH]; intros d; cbn.
  - split_and!; [by left|done|]. intros x Hx. by apply elem_of_nil in Hx.
  - destruct (IH (decision_max d x)) as (H1 & H2 & H3). rewrite decision_max_rank in H2.
    split_and!.
    + assert (decision_max d x = d ∨ decision_max d x = x) as Hdx by (by destruct d, x; auto).
      destruct H1 as [-> |H1]; [|right; by right].
      destruct Hdx as [-> | ->]; [by left|right; by left].
    + lia.
    + intros y [->|Hy]%elem_of_cons; [lia|auto].
Qed.

(** The strictest decision of a non-empty list of matches. *)
Definition strictest (ms : list RuleMatch) (d : Decision) : Prop :=
  (∃ m, m ∈ ms ∧ match_decision m = d) ∧
  ∀ m, m ∈ ms → decision_rank (match_decision m) ≤ decision_rank d.

Lemma from_matches_strictest ms :
  ms ≠ [] → ∃ e, from_matches ms = Some e ∧ matched_rules e = ms ∧ strictest ms (eval_decision e).
Proof.
  destruct ms as [|m ms]; [done|]. intros _. eexists. split; [done|]. cbn. split; [done|].
  destruct (fold_max_spec (match_decision <$> ms) (match_decision m)) as (H1 & H2 & H3).
  split.
  - destruct H1 as [->|H1]; [exists m; set_solver|].
    apply list_elem_of_fmap in H1 as (m' & -> & Hm'). exists m'. set_solver.
  - intros m' [->|Hm']%elem_of_cons; [done|]. apply H3. by apply list_elem_of_fmap_2.
Qed.

Lemma strictest_mono ms ms' d d' :
  (∀ m, m ∈ ms → m ∈ ms') → strictest ms d → strictest ms' d' →
  decision_rank d ≤ decision_rank d'.
Proof. intros Hsub [(m & Hm & <-) _] [_ H]. by apply H, Hsub. Qed.

Lemma matches_nonempty home cwd p cmd h opts :
  matches_for_command_with_options home cwd p cmd (Some h) opts ≠ [].
Proof.
  unfold matches_for_command_with_options.
  by destruct (nonempty_or (match_exact_rules p cmd) _).
Qed.

Lemma tokens_match_Forall2 ts cs :
  length cs = length ts →
  tokens_match ts cs = true ↔ Forall2 (λ t c, token_matches t c = true) ts cs.
Proof.
  revert cs. induction ts as [|t ts IH]; intros [|c cs] Hl; try discriminate Hl.
  - split; [constructor|reflexivity].
  - cbn [tokens_match]. rewrite andb_true_iff, IH by (cbn in Hl; lia). by rewrite Forall2_cons.
Qed.

Lemma matches_prefix_Some p cmd pre :
  matches_prefix p cmd = Some pre ↔
  ∃ toks more, cmd = pre ++ more ∧ pre = first p :: toks ∧
    Forall2 (λ t c, token_matches t c = true) (rest p) toks.
Proof.
  unfold matches_prefix. split.
  - destruct cmd as [|c args]; [done|].
    destruct (_ || _) eqn:E; [done|]. apply orb_false_iff in E as [E1 E2]. breflect.
    cbn [length] in E1. subst c.
    destruct (tokens_match _ _) eqn:Et; [|done]. intros [= <-].
    rewrite Nat.add_1_r. cbn [take].
    apply tokens_match_Forall2 in Et; [|rewrite length_take; lia].
    eexists _, (drop (length (rest p)) args). split_and!; [|done|exact Et].
    cbn. by rewrite take_drop.
  - intros (toks & more & -> & -> & H). pose proof (Forall2_length _ _ _ H) as Hl.
    cbn [app]. rewrite str_eqb_refl. cbn [negb orb length].
    rewrite (proj2 (Nat.ltb_ge _ _)) by (rewrite length_app; lia). cbn [orb].
    rewrite Hl, take_app_length.
    rewrite (proj2 (tokens_match_Forall2 _ _ (eq_sym Hl)) H).
    rewrite Nat.add_1_r. cbn [take]. by rewrite take_app_length.
Qed.

Lemma union_with_lookup (m1 m2 : gmap (list Z) (list PrefixRule)) k :
  default [] (union_with (λ a b, Some (a ++ b)) m1 m2 !! k) =
  default [] (m1 !! k) ++ default [] (m2 !! k).
Proof.
  rewrite lookup_union_with. destruct (m1 !! k), (m2 !! k); cbn; by rewrite ?app_nil_r.
Qed.

Lemma match_exact_default p cmd :
  match_exact_rules p cmd =
  match cmd with
  | [] => None
  | first :: _ =>
      Some (omap (λ r, rule_matches r cmd) (default [] (rules_by_program p !! first)))
  end.
Proof. destruct cmd as [|f args]; [done|]. cbn. by destruct (rules_by_program p !! f). Qed.

Lemma match_exact_overlay base overlay cmd ms :
  match_exact_rules base cmd = Some ms →
  ∃ more, match_exact_rules (merge_overlay base overlay) cmd = Some (ms ++ more).
Proof.
  rewrite !match_exact_default. destruct cmd as [|f args]; [done|]. intros [= <-].
  cbn [merge_overlay rules_by_program]. rewrite union_with_lookup, omap_app. eauto.
Qed.

Lemma matches_exact home cwd p cmd ms h opts :
  match_exact_rules p cmd = Some ms → ms ≠ [] →
  matches_for_command_with_options home cwd p cmd h opts = ms.
Proof.
  intros E Hne. unfold matches_for_command_with_options. rewrite E. by destruct ms.
Qed.

Lemma multimap_insert_lookup k r m :
  default [] (multimap_insert k r m !! k) = default [] (m !! k) ++ [r].
Proof. unfold multimap_insert. by rewrite lookup_insert_eq. Qed.

Lemma add_prefix_rule_exact p tok rest d p' more :
  add_prefix_rule p (tok :: rest) d = Ok p' →
  ∃ ms, match_exact_rules p' (tok :: rest ++ more) = Some ms ∧
        PrefixRuleMatch (tok :: rest) d None None ∈ ms.
Proof.
  intros [= <-]. rewrite match_exact_default. cbn [rules_by_program].
  rewrite multimap_insert_lookup, omap_app. eexists. split; [done|].
  apply elem_of_app. right. cbn. unfold rule_matches. cbn [pattern].
  rewrite (proj2 (matches_prefix_Some _ _ (tok :: rest))).
  - cbn. set_solver.
  - exists rest, more. split_and!; [done..|]. cbn. apply Forall2_fmap_l.
    apply Forall_Forall2_diag, Forall_true. intros x. cbn. apply str_eqb_refl.
Qed.

Lemma retain_ne_elem h l x : x ∈ retain_ne h l ↔ x ∈ l ∧ x ≠ h.
Proof.
  unfold retain_ne. rewrite !list_elem_of_In, filter_In.
  rewrite negb_true_iff. unfold str_eqb. by rewrite bool_decide_eq_false.
Qed.

Lemma retain_ne_NoDup h l : NoDup l → NoDup (retain_ne h l).
Proof. rewrite !NoDup_ListNoDup. apply List.NoDup_filter. Qed.

Lemma upsert_elem h l x : x ∈ upsert_domain l h ↔ x = h ∨ x ∈ l.
Proof.
  unfold upsert_domain. rewrite elem_of_app, retain_ne_elem, list_elem_of_singleton.
  destruct (decide (x = h)); naive_solver.
Qed.

Lemma upsert_NoDup h l : NoDup l → NoDup (upsert_domain l h).
Proof.
  intros H. unfold upsert_domain. apply NoDup_app. split_and!.
  - by apply retain_ne_NoDup.
  - intros x [_ Hx]%retain_ne_elem. by intros ->%list_elem_of_singleton.
  - apply NoDup_singleton.
Qed.

(** The decision of the last rule that settles a host. *)
Definition last_settled (h : rstring) (rules : list NetworkRule) : option Decision :=
  last (omap (λ r, if bool_decide (host r = h ∧ net_decision r ≠ Prompt)
                   then Some (net_decision r) else None) rules).

Lemma compile_fold rules :
  let '(a, d) := fold_left compile_step rules ([], []) in
  NoDup a ∧ NoDup d ∧
  ∀ h, (h ∈ a ↔ last_settled h rules = Some Allow) ∧
       (h ∈ d ↔ last_settled h rules = Some Forbidden).
Proof.
  induction rules as [|r rules IH] using rev_ind.
  { split_and!; try apply NoDup_nil_2. intros h. split; set_solver. }
  rewrite fold_left_app. destruct (fold_left compile_step rules ([], [])) as [a d] eqn:E.
  destruct IH as (Ha & Hd & IH). cbn [fold_left compile_step].
  assert (∀ h, last_settled h (rules ++ [r]) =
    if bool_decide (host r = h ∧ net_decision r ≠ Prompt) then Some (net_decision r)
    else last_settled h rules) as Hlast.
  { intros h. unfold last_settled. rewrite omap_app. cbn.
    destruct (bool_decide_reflect (host r = h ∧ net_decision r ≠ Prompt)).
    - by rewrite last_snoc.
    - by rewrite app_nil_r. }
  destruct (net_decision r) eqn:Ed; split_and!; try done;
    try (by apply upsert_NoDup); try (by apply retain_ne_NoDup);
    intros h; rewrite Hlast; specialize (IH h) as [IHa IHd];
    rewrite ?upsert_elem, ?retain_ne_elem, ?IHa, ?IHd;
    case_bool_decide; naive_solver.
Qed.

Lemma match_host_elem home cwd p cmd m :
  m ∈ match_host_executable_rules home cwd p cmd →
  ∃ f args prog basename, cmd = f :: args ∧
    Path.from_absolute_path home cwd f = Ok prog ∧
    Path.file_name prog = Some basename ∧
    (∀ paths, host_executables_by_name p !! basename = Some paths → prog ∈ paths) ∧
    ∃ r, r ∈ default [] (rules_by_program p !! basename) ∧
         ∃ m', rule_matches r (basename :: args) = Some m' ∧ m = with_resolved_program m' prog.
Proof.
  destruct cmd as [|f args]; cbn [match_host_executable_rules]; [set_solver|].
  destruct (Path.from_absolute_path home cwd f) as [prog|] eqn:E1; [|set_solver].
  unfold executable_path_lookup_key, executable_lookup_key.
  destruct (Path.file_name prog) as [basename|] eqn:E2; [|set_solver]. cbn [fmap option_fmap option_map].
  destruct (rules_by_program p !! basename) as [rules|] eqn:E3; [|set_solver].
  destruct (match host_executables_by_name p !! basename with Some _ => _ | None => _ end) eqn:E4;
    [set_solver|].
  intros (m' & -> & Hm')%list_elem_of_fmap. apply list_elem_of_omap in Hm' as (r & Hr & Hrm).
  exists f, args, prog, basename. split_and!; try done.
  - intros paths Hp. rewrite Hp in E4. apply negb_false_iff, existsb_exists in E4 as (x & Hx & Hxe).
    apply str_eqb_eq in Hxe as ->. by apply list_elem_of_In.
  - exists r. rewrite E3. cbn. eauto.
Qed.

Lemma ascii_lower_idemp c : ascii_lower (ascii_lower c) = ascii_lower c.
Proof.
  unfold ascii_lower. destruct (is_ascii_uppercase c) eqn:E; [|by rewrite E].
  destruct (is_ascii_uppercase (c + 32)%Z) eqn:E2; [|done].
  unfold is_ascii_uppercase in *. breflect. lia.
Qed.

Lemma contains_single c s : contains [c] s = false → c ∉ s.
Proof.
  induction s as [|a s IH]; cbn; [intros _; apply not_elem_of_nil|].
  intros [H1 H2]%orb_false_iff. apply not_elem_of_cons. split; [|by apply IH].
  intros ->. unfold starts_with in H1. cbn in H1. by rewrite Z.eqb_refl in H1.
Qed.

(** ** Properties *)

(** C21: evaluating a command never hits the "matched_rules must be non-empty"
    panic, and the effective decision is the strictest of the matched rules:
    one of them has it and none is stricter. *)
Theorem check_strictest_decision home cwd p cmd heuristics opts :
  ∃ e, check_with_options home cwd p cmd heuristics opts = Some e ∧
    matched_rules e ≠ [] ∧ strictest (matched_rules e) (eval_decision e).
Proof.
  unfold check_with_options.
  pose proof (matches_nonempty home cwd p cmd heuristics opts) as Hne.
  destruct (from_matches_strictest _ Hne) as (e & -> & Hm & Hs).
  exists e. by rewrite Hm.
Qed.

Lemma concat_nonempty {A B} (f : A → list B) l :
  (∀ x, f x ≠ []) → l ≠ [] → concat (f <$> l) ≠ [].
Proof. intros Hf. destruct l as [|x l]; [done|]. intros _. cbn. destruct (f x) eqn:E; [by apply Hf in E|done]. Qed.

(** Checking several commands panics exactly when there is no command,
    and otherwise is at least as strict as checking each command alone. *)
Theorem check_multiple_panics_iff_empty home cwd p commands heuristics opts :
  match check_multiple_with_options home cwd p commands heuristics opts with
  | None => commands = []
  | Some e => commands ≠ [] ∧ strictest (matched_rules e) (eval_decision e) ∧
      ∀ cmd e1, cmd ∈ commands →
        check_with_options home cwd p cmd heuristics opts = Some e1 →
        decision_rank (eval_decision e1) ≤ decision_rank (eval_decision e)
  end.
Proof.
  unfold check_multiple_with_options. destruct (decide (commands = [])) as [->|Hne]; [done|].
  destruct (from_matches_strictest (concat ((λ cmd,
    matches_for_command_with_options home cwd p cmd (Some heuristics) opts) <$> commands)))
    as (e & -> & Hm & Hs).
  { apply concat_nonempty; [|done]. intros cmd. apply matches_nonempty. }
  rewrite Hm. split_and!; [done..|]. intros cmd e1 Hc E1.
  destruct (from_matches_strictest _ (matches_nonempty home cwd p cmd heuristics opts))
    as (e1' & E1' & Hm1 & Hs1).
  unfold check_with_options in E1. rewrite E1' in E1. injection E1 as <-.
  eapply strictest_mono; [|exact Hs1|exact Hs].
  intros m Hm'. apply list_elem_of_In, in_concat. eexists. split; [|by apply list_elem_of_In].
  apply list_elem_of_In, list_elem_of_fmap. eauto.
Qed.

(** A prefix rule matches exactly the commands that start with its
    program and then, position by position, one of the pattern's
    alternatives; the reported prefix is that part of the command. *)
Theorem matches_prefix_spec p cmd pre :
  matches_prefix p cmd = Some pre ↔
  ∃ toks more, cmd = pre ++ more ∧ pre = first p :: toks ∧
    Forall2 (λ t c, c ∈ token_alternatives t) (rest p) toks.
Proof.
  rewrite matches_prefix_Some.
  assert (∀ t c, token_matches t c = true ↔ c ∈ token_alternatives t) as Ht.
  { intros [v|alts] c; cbn; [rewrite str_eqb_eq; set_solver|].
    rewrite existsb_exists. setoid_rewrite str_eqb_eq. rewrite list_elem_of_In. naive_solver. }
  split; intros (toks & more & H1 & H2 & H3); exists toks, more; split_and!; try done;
    (eapply Forall2_impl; [exact H3|]; intros t c; apply Ht).
Qed.

(** C18: an overlay never relaxes a command that already matches a rule of
    the base policy by its exact program name. *)
Theorem overlay_never_relaxes home cwd base overlay cmd ms heuristics opts e e' :
  match_exact_rules base cmd = Some ms → ms ≠ [] →
  check_with_options home cwd base cmd heuristics opts = Some e →
  check_with_options home cwd (merge_overlay base overlay) cmd heuristics opts = Some e' →
  decision_rank (eval_decision e) ≤ decision_rank (eval_decision e').
Proof.
  intros Hb Hne. destruct (match_exact_overlay base overlay cmd ms Hb) as [more Ho].
  assert (ms ++ more ≠ []) as Hne' by (by destruct ms).
  unfold check_with_options.
  rewrite (matches_exact _ _ _ _ _ _ _ Hb Hne), (matches_exact _ _ _ _ _ _ _ Ho Hne').
  destruct (from_matches_strictest ms Hne) as (e1 & -> & _ & Hs).
  destruct (from_matches_strictest (ms ++ more) Hne') as (e2 & -> & _ & Hs').
  intros [= <-] [= <-]. eapply strictest_mono; [|exact Hs|exact Hs']. set_solver.
Qed.

Definition demo_policy : Policy :=
  {| rules_by_program :=
       {[ $"git" := [ {| pattern := {| first := $"git"; rest := [Alts [ $"status"; $"diff"]] |};
                         decision := Allow; justification := None |} ] ]};
     network_rules := []; host_executables_by_name := ∅ |}.

Definition strict_overlay : Policy :=
  {| rules_by_program :=
       {[ $"git" := [ {| pattern := {| first := $"git"; rest := [] |};
                         decision := Prompt; justification := None |} ] ]};
     network_rules := []; host_executables_by_name := ∅ |}.

Lemma overlay_never_relaxes_witness :
  ∃ e e', check_with_options None None demo_policy [ $"git"; $"diff"] (λ _, Forbidden)
            default_options = Some e ∧
    check_with_options None None (merge_overlay demo_policy strict_overlay) [ $"git"; $"diff"]
      (λ _, Forbidden) default_options = Some e' ∧
    decision_rank (eval_decision e) ≤ decision_rank (eval_decision e').
Proof.
  eexists _, _. split; [vm_compute; reflexivity|]. split; [vm_compute; reflexivity|].
  eapply (overlay_never_relaxes None None demo_policy strict_overlay [ $"git"; $"diff"] _
    (λ _, Forbidden) default_options);
    [vm_compute; reflexivity|discriminate|vm_compute; reflexivity|vm_compute; reflexivity].
Defined.

(** After a prefix rule is added, every command that extends the prefix
    reports that rule, and its decision is at least as strict as the rule's. *)
Theorem add_prefix_rule_takes_effect home cwd p prefix d p' more heuristics opts :
  add_prefix_rule p prefix d = Ok p' →
  ∃ e, check_with_options home cwd p' (prefix ++ more) heuristics opts = Some e ∧
    PrefixRuleMatch prefix d None None ∈ matched_rules e ∧
    decision_rank d ≤ decision_rank (eval_decision e).
Proof.
  intros H. destruct prefix as [|tok rest]; [done|].
  destruct (add_prefix_rule_exact _ _ _ _ _ more H) as (ms & Hms & Hin).
  assert (ms ≠ []) as Hne by (intros ->; set_solver).
  unfold check_with_options. cbn [app]. rewrite (matches_exact _ _ _ _ _ _ _ Hms Hne).
  destruct (from_matches_strictest ms Hne) as (e & -> & Hm & [_ Hs]).
  exists e. rewrite Hm. split_and!; [done..|]. apply (Hs _ Hin).
Qed.

Lemma add_prefix_rule_takes_effect_witness :
  ∃ p' e, add_prefix_rule demo_policy [ $"git"; $"push"] Forbidden = Ok p' ∧
    check_with_options None None p' ([ $"git"; $"push"] ++ [ $"--force"]) (λ _, Allow)
      default_options = Some e ∧
    PrefixRuleMatch [ $"git"; $"push"] Forbidden None None ∈ matched_rules e ∧
    decision_rank Forbidden ≤ decision_rank (eval_decision e).
Proof.
  eexists. pose proof (add_prefix_rule_takes_effect None None demo_policy [ $"git"; $"push"]
    Forbidden _ [ $"--force"] (λ _, Allow) default_options eq_refl) as [e He].
  exists e. split; [reflexivity|exact He].
Defined.

(** The compiled allow and deny lists follow the last settling rule of
    each host: a host is allowed (denied) exactly when its last rule that is
    not a prompt says so, no host is listed twice and none is on both lists. *)
Theorem compiled_domains_last_rule_wins p :
  let '(allowed, denied) := compiled_network_domains p in
  NoDup allowed ∧ NoDup denied ∧
  (∀ h, h ∈ allowed ↔ last_settled h (network_rules p) = Some Allow) ∧
  (∀ h, h ∈ denied ↔ last_settled h (network_rules p) = Some Forbidden) ∧
  (∀ h, h ∈ allowed → h ∉ denied).
Proof.
  unfold compiled_network_domains. pose proof (compile_fold (network_rules p)) as H.
  destruct (fold_left compile_step _ _) as [a d]. destruct H as (Ha & Hd & H).
  split_and!; try done; [apply H..|].
  intros h Hh%H Hh'%H. congruence.
Qed.

(** A rule matched through the basename of a program path carries the
    resolved program, and when the policy lists host executables for that
    basename the resolved program is one of them. *)
Theorem host_executable_allowlist home cwd p cmd m :
  m ∈ match_host_executable_rules home cwd p cmd →
  ∃ f prog basename, head cmd = Some f ∧
    Path.from_absolute_path home cwd f = Ok prog ∧ Path.file_name prog = Some basename ∧
    (∃ mp d j, m = PrefixRuleMatch mp d (Some prog) j) ∧
    ∀ paths, host_executables_by_name p !! basename = Some paths → prog ∈ paths.
Proof.
  intros (f & args & prog & basename & -> & H1 & H2 & H3 & r & _ & m' & Hr & ->)%match_host_elem.
  exists f, prog, basename. split_and!; try done.
  unfold rule_matches in Hr. destruct (matches_prefix _ _); simplify_eq. cbn. eauto.
Qed.

Definition guarded_policy : Policy :=
  set_host_executable_paths demo_policy $"git" [ $"/usr/bin/git"].

Lemma host_executable_allowlist_witness :
  let m := PrefixRuleMatch [ $"git"; $"diff"] Allow (Some $"/usr/bin/git") None in
  ∃ f prog basename, head [ $"/usr/bin/git"; $"diff"] = Some f ∧
    Path.from_absolute_path None None f = Ok prog ∧ Path.file_name prog = Some basename ∧
    (∃ mp d j, m = PrefixRuleMatch mp d (Some prog) j) ∧
    ∀ paths, host_executables_by_name guarded_policy !! basename = Some paths → prog ∈ paths.
Proof.
  apply (host_executable_allowlist None None guarded_policy [ $"/usr/bin/git"; $"diff"]).
  vm_compute. constructor.
Defined.

(** The basename fallback is not limited to absolute program paths: a
    relative path such as [./git] is resolved against the current directory
    and then matches the rules of [git], so an allow rule for [git] admits a
    [git] that lies in the working directory. *)
Theorem relative_program_uses_basename_rules :
  check_with_options None (Some $"/repo") demo_policy [ $"./git"; $"status"] (λ _, Forbidden)
    {| resolve_host_executables := true |} =
  Some {| eval_decision := Allow;
          matched_rules :=
            [PrefixRuleMatch [ $"git"; $"status"] Allow (Some $"/repo/git") None] |}.
Proof. vm_compute. reflexivity. Qed.

(** A normalised network host is never empty, has no blank, no wildcard
    and no upper-case ASCII letter. *)
Theorem normalize_host_canonical raw h :
  normalize_network_rule_host raw = Ok h →
  h ≠ [] ∧ existsb is_whitespace h = false ∧ 42%Z ∉ h ∧ to_ascii_lowercase h = h.
Proof.
  unfold normalize_network_rule_host.
  destruct (is_empty (trim raw)); [done|]. destruct (_ || _ || _ || _); [done|].
  intros H. inv_result. clear E. revert H.
  set (n := to_ascii_lowercase _).
  destruct (is_empty n) eqn:E1; [done|]. destruct (contains $"*" n) eqn:E2; [done|].
  destruct (existsb is_whitespace n) eqn:E3; [done|]. intros [= <-]. split_and!.
  - intros Hn. by rewrite Hn in E1.
  - done.
  - by apply contains_single.
  - unfold n, to_ascii_lowercase. rewrite <- list_fmap_compose.
    apply list_fmap_ext. intros ???. apply ascii_lower_idemp.
Qed.

Lemma normalize_host_canonical_witness :
  normalize_network_rule_host $" API.Example.com.:443" = Ok $"api.example.com" ∧
  $"api.example.com" ≠ [] ∧ existsb is_whitespace $"api.example.com" = false ∧
  42%Z ∉ $"api.example.com" ∧ to_ascii_lowercase $"api.example.com" = $"api.example.com".
Proof.
  split; [vm_compute; reflexivity|].
  apply (normalize_host_canonical $" API.Example.com.:443"). vm_compute. reflexivity.
Defined.

End ExecPolicy.
