(* ===== verification/PolicyLanguage.v ===== *)
(** * The policy language (execpolicy/src/parser.rs) and policy amendments
    (execpolicy/src/amend.rs)

    The Starlark evaluator is a library: what a policy file does is the list
    of builtin calls it makes, with the argument values it passes.  Theorems:
    rules built from a pattern, examples checked at load time, and an amended
    policy file that keeps its lines and is not amended twice. *)

From S2P Require Import Prelude AbsPath ExecPolicy.

Module PolicyLanguage.
Import ExecPolicy.

(** Starlark values, as far as the builtins look at them. *)
Inductive Value :=
| VStr (s : rstring)
| VList (l : list Value)
| VOther (type_name : rstring).

Definition unpack_str (v : Value) : option rstring :=
  match v with VStr s => Some s | _ => None end.
Definition get_type (v : Value) : rstring :=
  match v with VStr _ => $"string" | VList _ => $"list" | VOther t => t end.

Record PendingExampleValidation := {
  val_rules : list PrefixRule;
  val_matches : list (list rstring);
  val_not_matches : list (list rstring);
  val_location : option ErrorLocation;
}.

Record PolicyBuilder := {
  b_rules_by_program : gmap (list Z) (list PrefixRule);
  b_network_rules : list NetworkRule;
  b_host_executables_by_name : gmap (list Z) (list rstring);
  b_pending : list PendingExampleValidation;
}.

Definition new_builder : PolicyBuilder :=
  {| b_rules_by_program := ∅; b_network_rules := []; b_host_executables_by_name := ∅;
     b_pending := [] |}.

Definition add_rule (b : PolicyBuilder) (r : PrefixRule) : PolicyBuilder :=
  {| b_rules_by_program := multimap_insert (program r) r (b_rules_by_program b);
     b_network_rules := b_network_rules b;
     b_host_executables_by_name := b_host_executables_by_name b;
     b_pending := b_pending b |}.

Definition builder_add_network_rule (b : PolicyBuilder) (r : NetworkRule) : PolicyBuilder :=
  {| b_rules_by_program := b_rules_by_program b;
     b_network_rules := b_network_rules b ++ [r];
     b_host_executables_by_name := b_host_executables_by_name b;
     b_pending := b_pending b |}.

Definition add_host_executable (b : PolicyBuilder) (name : rstring) (paths : list rstring)
  : PolicyBuilder :=
  {| b_rules_by_program := b_rules_by_program b;
     b_network_rules := b_network_rules b;
     b_host_executables_by_name := <[name := paths]> (b_host_executables_by_name b);
     b_pending := b_pending b |}.

Definition add_pending_example_validation (b : PolicyBuilder) (v : PendingExampleValidation)
  : PolicyBuilder :=
  {| b_rules_by_program := b_rules_by_program b;
     b_network_rules := b_network_rules b;
     b_host_executables_by_name := b_host_executables_by_name b;
     b_pending := b_pending b ++ [v] |}.

Definition build (b : PolicyBuilder) : Policy :=
  {| rules_by_program := b_rules_by_program b; network_rules := b_network_rules b;
     host_executables_by_name := b_host_executables_by_name b |}.

(** ** Argument parsing *)

Definition parse_alternative (v : Value) : result rstring Error :=
  ok_or (InvalidPattern ($"pattern alternative must be a string (got " ++ get_type v ++ $")"))
    (unpack_str v).

Definition parse_pattern_token (v : Value) : result PatternToken Error :=
  match v with
  | VStr s => Ok (Single s)
  | VList l =>
      let? tokens := collect_results parse_alternative l in
      match tokens with
      | [] => Err (InvalidPattern $"pattern alternatives cannot be empty")
      | [single] => Ok (Single single)
      | _ => Ok (Alts tokens)
      end
  | VOther t =>
      Err (InvalidPattern
        ($"pattern element must be a string or list of strings (got " ++ get_type v ++ $")"))
  end.

Definition parse_pattern (items : list Value) : result (list PatternToken) Error :=
  let? tokens := collect_results parse_pattern_token items in
  if is_empty tokens then Err (InvalidPattern $"pattern cannot be empty") else Ok tokens.

Definition parse_list_example (l : list Value) : result (list rstring) Error :=
  let? tokens := collect_results (λ v,
    ok_or (InvalidExample ($"example tokens must be strings (got " ++ get_type v ++ $")"))
      (unpack_str v)) l in
  if is_empty tokens then Err (InvalidExample $"example cannot be an empty list") else Ok tokens.

Definition parse_network_rule_decision (raw : rstring) : result Decision Error :=
  if raw =?s $"deny" then Ok Forbidden else parse_decision raw.

Definition validate_host_executable_name (name : rstring) : result unit Error :=
  if is_empty name then Err (InvalidRule $"host_executable name cannot be empty")
  else if negb (length (Path.components name) =? 1)
          || negb (match Path.file_name name with Some n => n =?s name | None => false end)
  then Err (InvalidRule
    ($"host_executable name must be a bare executable name (got " ++ name ++ $")"))
  else Ok tt.

Definition parse_justification (j : option rstring) : result (option rstring) Error :=
  match j with
  | Some raw => if is_empty (trim raw) then Err (InvalidRule $"justification cannot be empty")
                else Ok (Some raw)
  | None => Ok None
  end.

Definition transpose_examples {E} (f : list Value → result (list (list rstring)) E)
    (o : option (list Value)) : result (list (list rstring)) E :=
  match o with Some l => f l | None => Ok [] end.

(** The builtin calls of a policy file, with the location of each call. *)
Inductive Call :=
| CallPrefixRule (pattern : list Value) (decision : option rstring)
    (match_ not_match : option (list Value)) (justification : option rstring)
    (location : option ErrorLocation)
| CallNetworkRule (host protocol decision : rstring) (justification : option rstring)
| CallHostExecutable (name : rstring) (paths : list Value).

Section Language.
Context (home cwd : option rstring).
(** The [shlex] crate's splitting and joining, and the [Debug] renderings used
    in error messages. *)
Context (shlex_split : rstring → option (list rstring)).
Context (shlex_try_join : list rstring → option rstring).
Context (debug_rule : PrefixRule → rstring) (debug_match : RuleMatch → rstring).

Definition parse_string_example (raw : rstring) : result (list rstring) Error :=
  let? tokens := ok_or (InvalidExample $"example string has invalid shell syntax")
                   (shlex_split raw) in
  if is_empty tokens then Err (InvalidExample $"example cannot be an empty string") else Ok tokens.

Definition parse_example (v : Value) : result (list rstring) Error :=
  match v with
  | VStr raw => parse_string_example raw
  | VList l => parse_list_example l
  | VOther _ =>
      Err (InvalidExample
        ($"example must be a string or list of strings (got " ++ get_type v ++ $")"))
  end.

Definition parse_examples (items : list Value) : result (list (list rstring)) Error :=
  collect_results parse_example items.

Definition parse_literal_absolute_path (raw : rstring) : result rstring Error :=
  if negb (Path.is_absolute raw) then
    Err (InvalidRule ($"host_executable paths must be absolute (got " ++ raw ++ $")"))
  else map_err (λ e, InvalidRule ($"invalid absolute path `" ++ raw ++ $"`: " ++ e))
         (Path.from_absolute_path home cwd raw).

Definition prefix_rule (b : PolicyBuilder) (pattern : list Value) (decision : option rstring)
    (match_ not_match : option (list Value)) (justification : option rstring)
    (location : option ErrorLocation) : result PolicyBuilder Error :=
  let? decision := match decision with Some raw => parse_decision raw | None => Ok Allow end in
  let? justification := parse_justification justification in
  let? pattern_tokens := parse_pattern pattern in
  let? matches := transpose_examples parse_examples match_ in
  let? not_matches := transpose_examples parse_examples not_match in
  match pattern_tokens with
  | [] => Err (InvalidPattern $"pattern cannot be empty")
  | first_token :: remaining_tokens =>
      let rules := (λ head,
        {| ExecPolicy.pattern := {| first := head; rest := remaining_tokens |};
           ExecPolicy.decision := decision;
           ExecPolicy.justification := justification |}) <$> token_alternatives first_token in
      let b := add_pending_example_validation b
        {| val_rules := rules; val_matches := matches; val_not_matches := not_matches;
           val_location := location |} in
      Ok (fold_left add_rule rules b)
  end.

Definition network_rule (b : PolicyBuilder) (host protocol decision : rstring)
    (justification : option rstring) : result PolicyBuilder Error :=
  let? protocol := parse_protocol protocol in
  let? decision := parse_network_rule_decision decision in
  let? justification := parse_justification justification in
  let? host := normalize_network_rule_host host in
  Ok (builder_add_network_rule b
    {| ExecPolicy.host := host; ExecPolicy.protocol := protocol; net_decision := decision;
       net_justification := justification |}).

(** The [for value in paths.items] loop of [host_executable]. *)
Fixpoint host_paths (name : rstring) (values : list Value) (parsed : list rstring)
  : result (list rstring) Error :=
  match values with
  | [] => Ok parsed
  | v :: values' =>
      let? raw := ok_or (InvalidRule
          ($"host_executable paths must be strings (got " ++ get_type v ++ $")")) (unpack_str v) in
      let? path := parse_literal_absolute_path raw in
      let wrong := Err (InvalidRule
          ($"host_executable path `" ++ raw ++ $"` must have basename `" ++ name ++ $"`")) in
      match executable_path_lookup_key path with
      | None => wrong
      | Some path_name =>
          if negb (path_name =?s executable_lookup_key name) then wrong
          else host_paths name values'
                 (if existsb (λ e, e =?s path) parsed then parsed else parsed ++ [path])
      end
  end.

Definition host_executable (b : PolicyBuilder) (name : rstring) (paths : list Value)
  : result PolicyBuilder Error :=
  let? _ := validate_host_executable_name name in
  let? parsed_paths := host_paths name paths [] in
  Ok (add_host_executable b (executable_lookup_key name) parsed_paths).

Definition run_call (b : PolicyBuilder) (c : Call) : result PolicyBuilder Error :=
  match c with
  | CallPrefixRule p d m n j l => prefix_rule b p d m n j l
  | CallNetworkRule h p d j => network_rule b h p d j
  | CallHostExecutable n ps => host_executable b n ps
  end.

(** [eval_module]: calls in order, stopping at the first error; what the
    earlier calls added stays in the builder. *)
Fixpoint run_calls (b : PolicyBuilder) (calls : list Call) : result unit Error * PolicyBuilder :=
  match calls with
  | [] => (Ok tt, b)
  | c :: calls' =>
      match run_call b c with
      | Err e => (Err e, b)
      | Ok b' => run_calls b' calls'
      end
  end.

(** ** Example validation (rule.rs) *)

Definition example_options : MatchOptions := {| resolve_host_executables := true |}.

Definition render_example (example : list rstring) : rstring :=
  default $"unable to render example" (shlex_try_join example).

Definition example_matches (p : Policy) (example : list rstring) : list RuleMatch :=
  matches_for_command_with_options home cwd p example None example_options.

Definition validate_match_examples (p : Policy) (rules : list PrefixRule)
    (matches : list (list rstring)) : result unit Error :=
  let unmatched := List.filter (λ e, is_empty (example_matches p e)) matches in
  if is_empty unmatched then Ok tt
  else Err (ExampleDidNotMatch (debug_rule <$> rules) (render_example <$> unmatched) None).

Fixpoint validate_not_match_examples (p : Policy) (rules : list PrefixRule)
    (not_matches : list (list rstring)) : result unit Error :=
  match not_matches with
  | [] => Ok tt
  | example :: not_matches' =>
      match example_matches p example with
      | m :: _ => Err (ExampleDidMatch (debug_match m) (render_example example) None)
      | [] => validate_not_match_examples p rules not_matches'
      end
  end.

Definition validation_policy (b : PolicyBuilder) (v : PendingExampleValidation) : Policy :=
  {| rules_by_program := fold_left (λ m r, multimap_insert (program r) r m) (val_rules v) ∅;
     network_rules := []; host_executables_by_name := b_host_executables_by_name b |}.

Definition validate_one (b : PolicyBuilder) (v : PendingExampleValidation) : result unit Error :=
  let p := validation_policy b v in
  let attach := λ e, attach_validation_location e (val_location v) in
  let? _ := map_err attach (validate_not_match_examples p (val_rules v) (val_not_matches v)) in
  map_err attach (validate_match_examples p (val_rules v) (val_matches v)).

Definition validate_pending_examples_from (b : PolicyBuilder) (start : nat) : result unit Error :=
  let? _ := collect_results (validate_one b) (drop start (b_pending b)) in Ok tt.

(** [PolicyParser::parse] after the file has been parsed into [calls]. *)
Definition parse (b : PolicyBuilder) (calls : list Call) : result unit Error * PolicyBuilder :=
  let pending_validation_count := length (b_pending b) in
  match run_calls b calls with
  | (Err e, b') => (Err e, b')
  | (Ok _, b') => (validate_pending_examples_from b' pending_validation_count, b')
  end.

End Language.

(** ** Amending a policy file *)

Inductive AmendError :=
| EmptyPrefix
| InvalidNetworkRule (m : rstring).

(** [append_locked_line] once the file is open and locked: the contents of the
    file afterwards, from the contents read. *)
Definition append_locked_line (contents line : rstring) : rstring :=
  if existsb (λ existing, existing =?s line) (str_lines contents) then contents
  else
    let contents := if negb (is_empty contents) && negb (ends_with [NL] contents)
                    then contents ++ [NL] else contents in
    contents ++ line ++ [NL].

Section Amend.
(** [serde_json::to_string] on a string, which cannot fail. *)
Context (json_string : rstring → rstring).
(** [Debug] of a [Vec<String>]. *)
Context (debug_strings : list rstring → rstring).

Definition display_error (e : Error) : rstring :=
  match e with
  | InvalidDecision m => $"invalid decision: " ++ m
  | InvalidPattern m => $"invalid pattern element: " ++ m
  | InvalidExample m => $"invalid example: " ++ m
  | InvalidRule m => $"invalid rule: " ++ m
  | StarlarkError m => $"starlark error: " ++ m
  | ExampleDidNotMatch rules examples _ =>
      $"expected every example to match at least one rule. rules: " ++ debug_strings rules
      ++ $"; unmatched examples: " ++ debug_strings examples
  | ExampleDidMatch rule example _ =>
      $"expected example to not match rule `" ++ rule ++ $"`: " ++ example
  end.

Definition allow_prefix_line (prefix : list rstring) : rstring :=
  $"prefix_rule(pattern=[" ++ join $", " (json_string <$> prefix) ++ $"], decision="
  ++ [34%Z] ++ $"allow" ++ [34%Z] ++ $")".

Definition blocking_append_allow_prefix_rule (contents : rstring) (prefix : list rstring)
  : result rstring AmendError :=
  if is_empty prefix then Err EmptyPrefix
  else Ok (append_locked_line contents (allow_prefix_line prefix)).

Definition network_rule_line (host : rstring) (p : NetworkRuleProtocol) (d : Decision)
    (j : option rstring) : rstring :=
  let decision := match d with
                  | Allow => $"allow" | Prompt => $"prompt" | Forbidden => $"deny" end in
  let args := [ $"host=" ++ json_string host;
                $"protocol=" ++ json_string (as_policy_string p);
                $"decision=" ++ json_string decision ]
              ++ match j with Some j => [ $"justification=" ++ json_string j] | None => [] end in
  $"network_rule(" ++ join $", " args ++ $")".

Definition blocking_append_network_rule (contents host : rstring) (p : NetworkRuleProtocol)
    (d : Decision) (j : option rstring) : result rstring AmendError :=
  let? host := map_err (λ e, InvalidNetworkRule (display_error e))
                 (normalize_network_rule_host host) in
  if match j with Some raw => is_empty (trim raw) | None => false end
  then Err (InvalidNetworkRule $"justification cannot be empty")
  else Ok (append_locked_line contents (network_rule_line host p d j)).
End Amend.

(** ** Lemmas *)

Lemma add_rules_elem rules b r k :
  r ∈ default [] (b_rules_by_program b !! k) ∨ (r ∈ rules ∧ program r = k) →
  r ∈ default [] (b_rules_by_program (fold_left add_rule rules b) !! k).
Proof.
  revert b. induction rules as [|x rules IH]; intros b H; cbn [fold_left]; [set_solver|].
  apply IH. cbn [add_rule b_rules_by_program]. unfold multimap_insert.
  destruct H as [H|[[->|H]%elem_of_cons Hk]]; [left|left|by right].
  - rewrite lookup_insert. destruct (decide (program x = k)) as [<-|]; [|done].
    cbn. apply elem_of_app. by left.
  - subst k. rewrite lookup_insert_eq. cbn. set_solver.
Qed.

Lemma validate_not_match_Ok home cwd sj dm p rules es u :
  validate_not_match_examples home cwd sj dm p rules es = Ok u →
  Forall (λ e, example_matches home cwd p e = []) es.
Proof.
  induction es as [|e es IH]; cbn; [constructor|].
  destruct (example_matches home cwd p e) eqn:E; [|done]. auto.
Qed.

Lemma validate_match_Ok home cwd sj dr p rules es u :
  validate_match_examples home cwd sj dr p rules es = Ok u →
  Forall (λ e, example_matches home cwd p e ≠ []) es.
Proof.
  unfold validate_match_examples. destruct (is_empty _) eqn:E; [|done]. intros _.
  apply is_empty_true in E. apply Forall_forall. intros e He Hm.
  assert (e ∈ List.filter (λ e, is_empty (example_matches home cwd p e)) es) as Hf.
  { apply list_elem_of_In, filter_In. split; [by apply list_elem_of_In|]. by rewrite Hm. }
  rewrite E in Hf. by apply elem_of_nil in Hf.
Qed.

Lemma append_line_lines contents l :
  clean_line l → last contents ≠ Some CR →
  str_lines (append_locked_line contents l) =
  if existsb (λ e, e =?s l) (str_lines contents) then str_lines contents
  else str_lines contents ++ [l].
Proof.
  intros Hl Hcr. unfold append_locked_line.
  destruct (existsb _ _) eqn:E; [done|].
  assert (str_lines (l ++ [NL]) = [l]) as Hone by (by apply str_lines_cons).
  destruct (is_empty contents) eqn:Ee; cbn [negb andb].
  { apply is_empty_true in Ee as ->. done. }
  destruct (ends_with [NL] contents) eqn:En; cbn [negb].
  - apply ends_with_true in En as [r ->].
    rewrite str_lines_app by (right; by rewrite last_snoc). by rewrite Hone.
  - rewrite str_lines_app by (right; by rewrite last_snoc). rewrite Hone.
    f_equal. apply str_lines_terminate; [by intros ->| |done].
    intros Hn%last_Some. destruct Hn as [r ->].
    assert (ends_with [NL] (r ++ [NL]) = true) by (apply ends_with_true; eauto). congruence.
Qed.

Lemma existsb_str_elem l ls : existsb (λ e, e =?s l) ls = true ↔ l ∈ ls.
Proof.
  rewrite existsb_exists. setoid_rewrite str_eqb_eq. rewrite list_elem_of_In. naive_solver.
Qed.

(** ** Properties *)

(** Loading a policy file checks its examples: when it succeeds, every
    [match] example of a rule it declares is matched by that rule and no
    [not_match] example is. *)
Theorem parse_validates_examples home cwd ss sj dr dm b calls b' :
  parse home cwd ss sj dr dm b calls = (Ok tt, b') →
  ∀ v, v ∈ drop (length (b_pending b)) (b_pending b') →
    Forall (λ e, example_matches home cwd (validation_policy b' v) e ≠ []) (val_matches v) ∧
    Forall (λ e, example_matches home cwd (validation_policy b' v) e = []) (val_not_matches v).
Proof.
  unfold parse. destruct (run_calls home cwd ss b calls) as [[?|e] b1]; [|done].
  intros [= H <-] v0 Hv. unfold validate_pending_examples_from in H. inv_result.
  apply collect_results_Ok in E. apply list_elem_of_lookup in Hv as [i Hi].
  destruct (Forall2_lookup_l _ _ _ _ _ E Hi) as (u0 & _ & Hu).
  unfold validate_one, map_err in Hu.
  destruct (validate_not_match_examples _ _ _ _ _ _ _) eqn:E1 in Hu; [|done].
  cbn [result_bind] in Hu.
  destruct (validate_match_examples _ _ _ _ _ _ _) eqn:E2 in Hu; [|done].
  split; [by eapply validate_match_Ok|by eapply validate_not_match_Ok].
Qed.

Definition demo_calls : list Call :=
  [ CallPrefixRule [VList [VStr $"ls"; VStr $"dir"]; VStr $"-l"] (Some $"prompt")
      (Some [VList [VStr $"dir"; VStr $"-l"; VStr $"x"]]) (Some [VList [VStr $"ls"]])
      (Some $"lists files") None;
    CallNetworkRule $"Example.com:443" $"https" $"deny" None;
    CallHostExecutable $"ls" [VStr $"/bin/ls"; VStr $"/bin/./ls"] ].

Definition no_shlex : rstring → option (list rstring) := λ _, None.
Definition no_join : list rstring → option rstring := λ _, None.

Definition demo_builder : PolicyBuilder :=
  (parse None None no_shlex no_join (λ _, []) (λ _, []) new_builder demo_calls).2.

Lemma parse_validates_examples_witness :
  Forall (λ v,
    Forall (λ e, example_matches None None (validation_policy demo_builder v) e ≠ [])
      (val_matches v) ∧
    Forall (λ e, example_matches None None (validation_policy demo_builder v) e = [])
      (val_not_matches v)) (b_pending demo_builder).
Proof.
  apply Forall_forall.
  exact (parse_validates_examples None None no_shlex no_join (λ _, []) (λ _, [])
    new_builder demo_calls demo_builder ltac:(vm_compute; reflexivity)).
Defined.

(** A [prefix_rule] call makes every alternative of its first token a
    program with that rule: in the built policy, a command that follows the
    pattern reports the rule with the call's decision and justification. *)
Theorem prefix_rule_semantics ss b pat dec m n j loc b' :
  prefix_rule ss b pat dec m n j loc = Ok b' →
  ∃ tok rest d, parse_pattern pat = Ok (tok :: rest) ∧
    (match dec with Some raw => parse_decision raw | None => Ok Allow end) = Ok d ∧
    ∀ head toks more, head ∈ token_alternatives tok →
      Forall2 (λ t c, token_matches t c = true) rest toks →
      ∃ ms, match_exact_rules (build b') (head :: toks ++ more) = Some ms ∧
            PrefixRuleMatch (head :: toks) d None j ∈ ms.
Proof.
  unfold prefix_rule. intros H. inv_result.
  match goal with Hj : parse_justification j = Ok ?v |- _ =>
    assert (v = j) as -> by (unfold parse_justification in Hj; destruct j; [|by inv_result];
      destruct (is_empty _); by inv_result) end.
  match goal with H : (match ?l with [] => _ | _ :: _ => _ end) = Ok _ |- _ =>
    destruct l as [|tok rest]; [done|] end. inv_result.
  eexists tok, rest, _. split_and!; [done..|]. intros head toks more Hh Ht.
  rewrite match_exact_default. eexists. split; [done|].
  apply list_elem_of_omap. eexists. split.
  - cbn [build rules_by_program]. apply add_rules_elem. right.
    split; [apply list_elem_of_fmap; by exists head|done].
  - unfold rule_matches. cbn [pattern].
    rewrite (proj2 (matches_prefix_Some _ _ (head :: toks))); [done|].
    exists toks, more. done.
Qed.

Lemma prefix_rule_semantics_witness :
  ∃ tok rest d, parse_pattern [VList [VStr $"ls"; VStr $"dir"]; VStr $"-l"] = Ok (tok :: rest) ∧
    parse_decision $"prompt" = Ok d ∧
    ∀ head toks more, head ∈ token_alternatives tok →
      Forall2 (λ t c, token_matches t c = true) rest toks →
      ∃ ms, match_exact_rules (build (fold_left add_rule
              [ {| pattern := {| first := $"ls"; rest := [Single $"-l"] |}; decision := Prompt;
                   justification := None |};
                {| pattern := {| first := $"dir"; rest := [Single $"-l"] |}; decision := Prompt;
                   justification := None |} ]
              (add_pending_example_validation new_builder
                {| val_rules := [ {| pattern := {| first := $"ls"; rest := [Single $"-l"] |};
                                     decision := Prompt; justification := None |};
                                  {| pattern := {| first := $"dir"; rest := [Single $"-l"] |};
                                     decision := Prompt; justification := None |} ];
                   val_matches := []; val_not_matches := []; val_location := None |})))
              (head :: toks ++ more) = Some ms ∧
            PrefixRuleMatch (head :: toks) d None None ∈ ms.
Proof.
  apply (prefix_rule_semantics no_shlex new_builder
    [VList [VStr $"ls"; VStr $"dir"]; VStr $"-l"] (Some $"prompt") None None None None).
  vm_compute. reflexivity.
Defined.

(** Appending a rule to a policy file keeps every existing line, adds the
    rule as one last line unless it is already there, and appending it again
    changes nothing. *)
Theorem append_line_once contents l :
  clean_line l → last contents ≠ Some CR →
  str_lines (append_locked_line contents l) =
    (if existsb (λ e, e =?s l) (str_lines contents) then str_lines contents
     else str_lines contents ++ [l]) ∧
  append_locked_line (append_locked_line contents l) l = append_locked_line contents l.
Proof.
  intros Hl Hcr. pose proof (append_line_lines contents l Hl Hcr) as H. split; [done|].
  unfold append_locked_line at 1. rewrite H.
  rewrite (proj2 (existsb_str_elem l _)); [done|].
  destruct (existsb _ _) eqn:E; [by apply existsb_str_elem|set_solver].
Qed.

Lemma append_line_once_witness :
  let c := $"# policy" in
  str_lines (append_locked_line c $"rule") =
    (if existsb (λ e, e =?s $"rule") (str_lines c) then str_lines c else str_lines c ++ [ $"rule"]) ∧
  append_locked_line (append_locked_line c $"rule") $"rule" = append_locked_line c $"rule".
Proof. apply append_line_once; vm_decide. Defined.

End PolicyLanguage.
