(* ===== verification/StreamText.v ===== *)
(** * Streaming text parsers: the interface (utils/stream-parser/src/stream_text.rs)

    A [StreamTextParser] is fed text in chunks and returns, per chunk, the text
    to show and the payloads it took out.  The source states the contract in
    prose; [StreamLaws] states it as laws: a parser in a good state never
    fails, and feeding a text in two pieces ends in the same state and yields
    the same output as feeding it at once.  The parsers of the crate are
    instances, and their clients are proved against the laws. *)

From S2P Require Import Prelude.

Module Stream.

Record StreamTextChunk (X : Type) := Chunk {
  visible_text : rstring;
  extracted : list X;
}.
Arguments Chunk {X}.
Arguments visible_text {X}.
Arguments extracted {X}.

Definition chunk_default {X} : StreamTextChunk X := Chunk [] [].

Definition chunk_is_empty {X} (c : StreamTextChunk X) : bool :=
  is_empty (visible_text c) && is_empty (extracted c).

(** [out.visible_text.push_str(..)] and [out.extracted.extend(..)]. *)
Definition chunk_append {X} (a b : StreamTextChunk X) : StreamTextChunk X :=
  Chunk (visible_text a ++ visible_text b) (extracted a ++ extracted b).

(** The trait.  [push_str] answers [None] when the implementation panics or
    does not return; the laws exclude both. *)
Class StreamTextParser (P X : Type) := {
  push_str : P → rstring → option (P * StreamTextChunk X);
  finish : P → P * StreamTextChunk X;
}.

(** Feeding several chunks, concatenating what they return. *)
Fixpoint push_all {P X} `{StreamTextParser P X} (p : P) (chunks : list rstring)
  : option (P * StreamTextChunk X) :=
  match chunks with
  | [] => Some (p, chunk_default)
  | c :: chunks' =>
      match push_str p c with
      | Some (p1, o1) =>
          match push_all p1 chunks' with
          | Some (p2, o2) => Some (p2, chunk_append o1 o2)
          | None => None
          end
      | None => None
      end
  end.

(** The whole stream: every chunk, then the final flush. *)
Definition run_stream {P X} `{StreamTextParser P X} (p : P) (chunks : list rstring)
  : option (StreamTextChunk X) :=
  match push_all p chunks with
  | Some (p', o) => Some (chunk_append o (finish p').2)
  | None => None
  end.

(** Outputs are compared up to [payload_equiv]: a parser may cut a payload
    where a chunk ended. *)
Class StreamLaws (P X : Type) `{StreamTextParser P X} := {
  good : P → Prop;
  payload_equiv : list X → list X → Prop;
  payload_equivalence :: Equivalence payload_equiv;
  payload_app :: Proper (payload_equiv ==> payload_equiv ==> payload_equiv) (++);
  push_good p s : good p → ∃ p' o, push_str p s = Some (p', o) ∧ good p';
  push_nil p : good p → push_str p [] = Some (p, chunk_default);
  push_app p a b p1 o1 p2 o2 :
    good p → push_str p a = Some (p1, o1) → push_str p1 b = Some (p2, o2) →
    ∃ o, push_str p (a ++ b) = Some (p2, o) ∧
         visible_text o = visible_text o1 ++ visible_text o2 ∧
         payload_equiv (extracted o) (extracted o1 ++ extracted o2);
}.

Section Laws.
Context {P X} `{StreamLaws P X}.

(** Same visible text, same payloads up to where chunks ended. *)
Definition chunk_equiv (a b : StreamTextChunk X) : Prop :=
  visible_text a = visible_text b ∧ payload_equiv (extracted a) (extracted b).

#[export] Instance chunk_equivalence : Equivalence chunk_equiv.
Proof.
  split; unfold chunk_equiv.
  - intros ?; split; reflexivity.
  - intros ?? [? ?]; split; symmetry; done.
  - intros ??? [? ?] [? ?]; split; etransitivity; done.
Qed.

#[export] Instance chunk_append_proper :
  Proper (chunk_equiv ==> chunk_equiv ==> chunk_equiv) chunk_append.
Proof.
  intros a a' [Ha Ha'] b b' [Hb Hb']. split; cbn.
  - by rewrite Ha, Hb.
  - by rewrite Ha', Hb'.
Qed.

Lemma chunk_append_default_l (c : StreamTextChunk X) : chunk_append chunk_default c = c.
Proof. by destruct c. Qed.

Lemma chunk_append_default_r (c : StreamTextChunk X) : chunk_append c chunk_default = c.
Proof. destruct c. unfold chunk_append. cbn. by rewrite !app_nil_r. Qed.

Lemma chunk_append_assoc (a b c : StreamTextChunk X) :
  chunk_append a (chunk_append b c) = chunk_append (chunk_append a b) c.
Proof. unfold chunk_append. cbn. by rewrite !app_assoc. Qed.

Lemma push_all_app p a b p1 o1 p2 o2 :
  push_all p a = Some (p1, o1) → push_all p1 b = Some (p2, o2) →
  push_all p (a ++ b) = Some (p2, chunk_append o1 o2).
Proof.
  revert p o1. induction a as [|t a IH]; intros p o1 H1 H2; cbn [push_all app] in *.
  { injection H1 as <- <-. by rewrite chunk_append_default_l. }
  destruct (push_str p t) as [[q oq]|]; [|done].
  destruct (push_all q a) as [[q' oq']|] eqn:E; [|done]. injection H1 as <- <-.
  rewrite (IH q oq') by done. by rewrite chunk_append_assoc.
Qed.

(** Any chunking of a text is as good as the text itself. *)
Lemma push_all_concat p chunks :
  good p →
  ∃ p' o o', push_all p chunks = Some (p', o) ∧ good p' ∧
    push_str p (concat chunks) = Some (p', o') ∧ chunk_equiv o' o.
Proof.
  revert p. induction chunks as [|c chunks IH]; intros p Hp; cbn [push_all concat].
  { exists p, chunk_default, chunk_default. rewrite push_nil by done. by split_and!. }
  destruct (push_good p c Hp) as (p1 & o1 & E1 & Hp1). rewrite E1.
  destruct (IH p1 Hp1) as (p2 & o2 & o2' & -> & Hp2 & E2 & [Hv Hx]).
  destruct (push_app p c _ _ _ _ _ Hp E1 E2) as (o & E & Hvo & Hxo).
  exists p2, (chunk_append o1 o2), o. split_and!; [done..|]. split; cbn.
  - by rewrite Hvo, Hv.
  - by rewrite Hxo, Hx.
Qed.

Lemma run_stream_concat p chunks :
  good p →
  ∃ o o', run_stream p chunks = Some o ∧ run_stream p [concat chunks] = Some o' ∧
          chunk_equiv o o'.
Proof.
  intros Hp. destruct (push_all_concat p chunks Hp) as (p' & o & o' & E & Hp' & E' & Ho).
  unfold run_stream. rewrite E. cbn [push_all]. rewrite E'.
  eexists _, _. split_and!; [done..|]. rewrite chunk_append_default_r. by rewrite Ho.
Qed.
End Laws.

End Stream.
