(* ===== verification/InlineTag.v ===== *)
(** * Hidden inline tags (utils/stream-parser/src/inline_hidden_tag.rs, citation.rs)

    [InlineHiddenTagParser] removes literal tags from a stream.  Text that may
    be the start of a delimiter is held back in [pending] until more text
    decides.  Positions are counted in chars; every index the code slices at
    is the boundary of a delimiter or of one of its prefixes.

    The theorems: the loop of [push_str] ends and never indexes out of range,
    and for delimiters that do not hide in one another the parser implements
    the declarative relation [hides] on the whole text, whatever the chunks. *)

From Stdlib Require Import ZifyBool.
From S2P Require Import Prelude StreamText.

Module Inline.
Import Stream.

Record ExtractedInlineTag (T : Type) := ExtractedTag { x_tag : T; x_content : rstring }.
Arguments ExtractedTag {T}.
Arguments x_tag {T}.
Arguments x_content {T}.

Record InlineTagSpec (T : Type) := TagSpec { s_tag : T; s_open : rstring; s_close : rstring }.
Arguments TagSpec {T}.
Arguments s_tag {T}.
Arguments s_open {T}.
Arguments s_close {T}.

Record ActiveTag (T : Type) := Active { a_tag : T; a_close : rstring; a_content : rstring }.
Arguments Active {T}.
Arguments a_tag {T}.
Arguments a_close {T}.
Arguments a_content {T}.

Record InlineHiddenTagParser (T : Type) := Parser {
  specs : list (InlineTagSpec T);
  pending : rstring;
  active : option (ActiveTag T);
}.
Arguments Parser {T}.
Arguments specs {T}.
Arguments pending {T}.
Arguments active {T}.

(** [longest_suffix_prefix_len]: the [for k in (1..=max).rev()] loop. *)
Fixpoint suffix_prefix_from (s needle : rstring) (k : nat) : nat :=
  match k with
  | O => 0
  | S k' => if ends_with (take k needle) s then k else suffix_prefix_from s needle k'
  end.
Definition longest_suffix_prefix_len (s needle : rstring) : nat :=
  suffix_prefix_from s needle (length s `min` (length needle - 1)).

(** [pos_a.cmp(pos_b).then_with(len_b.cmp(len_a)).then_with(idx_a.cmp(idx_b))],
    as the test "not greater". *)
Definition open_le (a b : nat * nat * nat) : bool :=
  let '(pos_a, len_a, idx_a) := a in
  let '(pos_b, len_b, idx_b) := b in
  (pos_a <? pos_b)
  || ((pos_a =? pos_b) && ((len_b <? len_a) || ((len_b =? len_a) && (idx_a <=? idx_b)))).

(** [Iterator::min_by]: the first of the least elements. *)
Fixpoint min_by {A} (le : A → A → bool) (l : list A) : option A :=
  match l with
  | [] => None
  | x :: l' =>
      match min_by le l' with
      | None => Some x
      | Some m => Some (if le x m then x else m)
      end
  end.

(** One iteration of the [loop] of [push_str]. *)
Inductive step_result (S O : Type) :=
| Continue (p : S) (out : O)
| Break (p : S) (out : O)
| Panic.
Arguments Continue {S O}.
Arguments Break {S O}.
Arguments Panic {S O}.

Section Parser.
Context {T : Type}.
Abbreviation parser := (InlineHiddenTagParser T).
Abbreviation chunk := (StreamTextChunk (ExtractedInlineTag T)).

(** [new]: [None] when an assertion fails. *)
Definition new (sp : list (InlineTagSpec T)) : option parser :=
  if is_empty sp then None
  else if forallb (λ s, negb (is_empty (s_open s)) && negb (is_empty (s_close s))) sp
  then Some (Parser sp [] None) else None.

Definition open_candidates (sp : list (InlineTagSpec T)) (text : rstring)
  : list (nat * nat * nat) :=
  omap id (imap (λ idx s,
    (λ pos, (pos, byte_len (s_open s), idx)) <$> str_find (s_open s) text) sp).

Definition find_next_open (p : parser) : option (nat * nat) :=
  (λ m, (m.1.1, m.2)) <$> min_by open_le (open_candidates (specs p) (pending p)).

Definition max_open_prefix_suffix_len (p : parser) : nat :=
  foldr max 0 ((λ s, longest_suffix_prefix_len (pending p) (s_open s)) <$> specs p).

Definition push_visible_prefix (out : chunk) (text : rstring) : chunk :=
  if is_empty text then out else Chunk (visible_text out ++ text) (extracted out).

Definition drain_visible_to_suffix_match (p : parser) (out : chunk) (keep_suffix_len : nat)
  : parser * chunk :=
  let take_n := length (pending p) - keep_suffix_len in
  if take_n =? 0 then (p, out)
  else (Parser (specs p) (drop take_n (pending p)) (active p),
        push_visible_prefix out (take take_n (pending p))).

Definition push_step (p : parser) (out : chunk) : step_result parser chunk :=
  match active p with
  | Some a =>
      match str_find (a_close a) (pending p) with
      | Some close_idx =>
          Continue
            (Parser (specs p) (drop (close_idx + length (a_close a)) (pending p)) None)
            (Chunk (visible_text out)
               (extracted out
                ++ [ExtractedTag (a_tag a) (a_content a ++ take close_idx (pending p))]))
      | None =>
          let keep := longest_suffix_prefix_len (pending p) (a_close a) in
          let take_n := length (pending p) - keep in
          if 0 <? take_n then
            Break (Parser (specs p) (drop take_n (pending p))
                     (Some (Active (a_tag a) (a_close a) (a_content a ++ take take_n (pending p)))))
                  out
          else Break p out
      end
  | None =>
      match find_next_open p with
      | Some (open_idx, spec_idx) =>
          match specs p !! spec_idx with
          | None => Panic
          | Some spec =>
              Continue
                (Parser (specs p) (drop (open_idx + length (s_open spec)) (pending p))
                   (Some (Active (s_tag spec) (s_close spec) [])))
                (push_visible_prefix out (take open_idx (pending p)))
          end
      | None =>
          let '(p', out') := drain_visible_to_suffix_match p out (max_open_prefix_suffix_len p) in
          Break p' out'
      end
  end.

(** Every iteration that continues removes a delimiter from [pending], so one
    more iteration than [pending] has chars is enough. *)
Fixpoint push_loop (fuel : nat) (p : parser) (out : chunk) : option (parser * chunk) :=
  match fuel with
  | O => None
  | S fuel' =>
      match push_step p out with
      | Continue p' out' => push_loop fuel' p' out'
      | Break p' out' => Some (p', out')
      | Panic => None
      end
  end.

Definition inline_push_str (p : parser) (text : rstring) : option (parser * chunk) :=
  let pending' := pending p ++ text in
  push_loop (S (length pending')) (Parser (specs p) pending' (active p)) chunk_default.

Definition inline_finish (p : parser) : parser * chunk :=
  match active p with
  | Some a =>
      (Parser (specs p) [] None,
       Chunk [] [ExtractedTag (a_tag a) (a_content a ++ pending p)])
  | None => (Parser (specs p) [] None, Chunk (pending p) [])
  end.
End Parser.

#[export] Instance Inline_parser {T} :
  StreamTextParser (InlineHiddenTagParser T) (ExtractedInlineTag T) := {
  push_str := inline_push_str;
  finish := inline_finish;
}.

(** ** The citation parser *)

Inductive CitationTag := Citation.
Definition CITATION_OPEN : rstring := $"<oai-mem-citation>".
Definition CITATION_CLOSE : rstring := $"</oai-mem-citation>".

Record CitationStreamParser := CitationParser { inner : InlineHiddenTagParser CitationTag }.

Definition citation_specs : list (InlineTagSpec CitationTag) :=
  [TagSpec Citation CITATION_OPEN CITATION_CLOSE].

Definition citation_new : option CitationStreamParser := CitationParser <$> new citation_specs.

Definition contents_only (o : StreamTextChunk (ExtractedInlineTag CitationTag))
  : StreamTextChunk rstring :=
  Chunk (visible_text o) (x_content <$> extracted o).

#[export] Instance Citation_parser : StreamTextParser CitationStreamParser rstring := {
  push_str p text :=
    match inline_push_str (inner p) text with
    | Some (p', o) => Some (CitationParser p', contents_only o)
    | None => None
    end;
  finish p :=
    let '(p', o) := inline_finish (inner p) in (CitationParser p', contents_only o);
}.

Definition strip_citations (text : rstring) : option (rstring * list rstring) :=
  match citation_new with
  | None => None
  | Some parser =>
      match push_str parser text with
      | None => None
      | Some (parser, out) =>
          let tail := (finish parser).2 in
          Some (visible_text out ++ visible_text tail, extracted out ++ extracted tail)
      end
  end.

Example strip_citations_ex :
  strip_citations $"a <oai-mem-citation>doc</oai-mem-citation>b<oai-mem-citation>x" =
  Some ($"a b", [ $"doc"; $"x"]).
Proof. vm_compute. reflexivity. Qed.

(** ** Specification

    What the parser promises about a whole text: the first delimiter that
    occurs opens a tag, the first occurrence of its close ends it, the end of
    the text closes an open tag, and everything else is visible. *)

Definition occurs_before {T} (sp : list (InlineTagSpec T)) (n : nat) (text : rstring) : Prop :=
  ∃ s j, s ∈ sp ∧ j < n ∧ starts_with (s_open s) (drop j text) = true.

Inductive hides {T} (sp : list (InlineTagSpec T))
  : option (ActiveTag T) → rstring → rstring → list (ExtractedInlineTag T) → Prop :=
| hides_plain text :
    ¬ occurs_before sp (S (length text)) text →
    hides sp None text text []
| hides_open pre i s rest vis ext :
    sp !! i = Some s →
    ¬ occurs_before sp (length pre) (pre ++ s_open s ++ rest) →
    (∀ i' s', i' < i → sp !! i' = Some s' → s_open s' ≠ s_open s) →
    hides sp (Some (Active (s_tag s) (s_close s) [])) rest vis ext →
    hides sp None (pre ++ s_open s ++ rest) (pre ++ vis) ext
| hides_close a body rest vis ext :
    str_find (a_close a) (body ++ a_close a ++ rest) = Some (length body) →
    hides sp None rest vis ext →
    hides sp (Some a) (body ++ a_close a ++ rest) vis
      (ExtractedTag (a_tag a) (a_content a ++ body) :: ext)
| hides_unclosed a text :
    str_find (a_close a) text = None →
    hides sp (Some a) text [] [ExtractedTag (a_tag a) (a_content a ++ text)].

Definition delimiters_ok {T} (sp : list (InlineTagSpec T)) : Prop :=
  ∀ s, s ∈ sp → s_open s ≠ [] ∧ s_close s ≠ [].

(** No opening delimiter is complete strictly before the end of another one. *)
Definition unambiguous {T} (sp : list (InlineTagSpec T)) : Prop :=
  ∀ s s' u v, s ∈ sp → s' ∈ sp → s_open s' = u ++ s_open s ++ v → v = [].

(** ** Lemmas: the held-back suffix *)

Lemma suffix_prefix_from_spec s n k :
  suffix_prefix_from s n k ≤ k ∧
  ends_with (take (suffix_prefix_from s n k) n) s = true ∧
  ∀ j, j ≤ k → ends_with (take j n) s = true → j ≤ suffix_prefix_from s n k.
Proof.
  induction k as [|k (IH1 & IH2 & IH3)]; cbn [suffix_prefix_from].
  - split_and!; [lia| |lia]. apply ends_with_true. exists s. by rewrite app_nil_r.
  - destruct (ends_with (take (S k) n) s) eqn:E; [split_and!; [lia|done|lia]|].
    split_and!; [lia|done|]. intros j Hj H. destruct (decide (j = S k)) as [->|].
    + congruence.
    + apply IH3; [lia|done].
Qed.

Lemma longest_suffix_ends s n :
  ends_with (take (longest_suffix_prefix_len s n) n) s = true.
Proof. apply suffix_prefix_from_spec. Qed.

Lemma longest_suffix_le s n : longest_suffix_prefix_len s n ≤ length s.
Proof.
  pose proof (suffix_prefix_from_spec s n (length s `min` (length n - 1))) as [H _].
  unfold longest_suffix_prefix_len. lia.
Qed.

Lemma longest_suffix_max s n k :
  k < length n → ends_with (take k n) s = true → k ≤ longest_suffix_prefix_len s n.
Proof.
  intros Hk H. apply suffix_prefix_from_spec; [|done].
  apply ends_with_true in H as [r ->]. rewrite length_app, length_take. lia.
Qed.

Lemma longest_suffix_lt s n : n ≠ [] → longest_suffix_prefix_len s n < length n.
Proof.
  intros Hn. pose proof (suffix_prefix_from_spec s n (length s `min` (length n - 1))) as [H _].
  unfold longest_suffix_prefix_len. destruct n; [done|]. cbn [length] in *. lia.
Qed.

(** Nothing that is let go can belong to an occurrence of the delimiter. *)
Lemma released_no_match n u w t :
  str_find n (u ++ w) = None → longest_suffix_prefix_len (u ++ w) n ≤ length w →
  ∀ j, j < length u → starts_with n (drop j (u ++ w ++ t)) = false.
Proof.
  intros Hf Hk j Hj. destruct (starts_with n _) eqn:E; [exfalso|done].
  rewrite app_assoc in E.
  destruct (decide (j + length n ≤ length (u ++ w))) as [Hd|Hd].
  - rewrite starts_with_drop_app in E by done.
    rewrite (proj1 (str_find_None _ _) Hf) in E by (rewrite length_app; lia). done.
  - rewrite length_app in Hd. apply starts_with_true in E as [r E].
    rewrite drop_app_le in E by (rewrite length_app; lia).
    assert (length u + length w - j ≤ longest_suffix_prefix_len (u ++ w) n); [|lia].
    apply longest_suffix_max; [lia|]. apply ends_with_true. exists (take j (u ++ w)).
    rewrite <- (take_drop j (u ++ w)) at 1. f_equal.
    apply (f_equal (take (length u + length w - j))) in E.
    rewrite take_app_length' in E by (rewrite length_drop, length_app; lia).
    rewrite E. rewrite take_app_le by lia. done.
Qed.

Lemma find_after_release n u w t :
  str_find n (u ++ w) = None → longest_suffix_prefix_len (u ++ w) n ≤ length w →
  str_find n (u ++ w ++ t) = (λ i, length u + i) <$> str_find n (w ++ t).
Proof. intros Hf Hk. apply str_find_skip. by apply released_no_match. Qed.

Lemma keep_after_release n u w t :
  n ≠ [] → longest_suffix_prefix_len (u ++ w) n ≤ length w →
  longest_suffix_prefix_len (u ++ w ++ t) n = longest_suffix_prefix_len (w ++ t) n.
Proof.
  intros Hn Hk. apply Nat.le_antisymm.
  - set (k := longest_suffix_prefix_len (u ++ w ++ t) n).
    pose proof (longest_suffix_ends (u ++ w ++ t) n) as [r Hr]%ends_with_true. fold k in Hr.
    pose proof (longest_suffix_lt (u ++ w ++ t) n Hn) as Hlt. fold k in Hlt.
    destruct (decide (k ≤ length (w ++ t))) as [Hd|Hd].
    + apply longest_suffix_max; [done|]. apply ends_with_true.
      apply app_eq_inv in Hr as [(x & _ & Hr)|(x & _ & Hr)]; [|by exists x].
      exists []. pose proof (f_equal length Hr) as Hl.
      rewrite (length_app x), length_take in Hl. destruct x; [done|cbn in Hl; lia].
    + exfalso. rewrite length_app in Hd.
      assert (k - length t ≤ longest_suffix_prefix_len (u ++ w) n); [|lia].
      apply longest_suffix_max; [lia|]. apply ends_with_true. exists r.
      assert (take k n = take (k - length t) n ++ drop (k - length t) (take k n)) as Ht.
      { rewrite <- (take_drop (k - length t) (take k n)) at 1. rewrite take_take.
        do 2 f_equal. lia. }
      rewrite Ht, !app_assoc in Hr.
      apply app_inj_2 in Hr as [Hr _]; [done|rewrite length_drop, length_take; lia].
  - apply longest_suffix_max; [by apply longest_suffix_lt|].
    pose proof (longest_suffix_ends (w ++ t) n) as [r Hr]%ends_with_true.
    apply ends_with_true. exists (u ++ r). by rewrite Hr at 1; rewrite app_assoc.
Qed.

(** ** Lemmas: one iteration *)

Section Steps.
Context {T : Type}.
Abbreviation parser := (InlineHiddenTagParser T).
Abbreviation chunk := (StreamTextChunk (ExtractedInlineTag T)).

Definition wf_parser (p : parser) : Prop :=
  delimiters_ok (specs p) ∧ (∀ a, active p = Some a → a_close a ≠ []).

(** More text in the buffer. *)
Definition extend (p : parser) (t : rstring) : parser :=
  Parser (specs p) (pending p ++ t) (active p).

Lemma push_visible_prefix_eq (out : chunk) text :
  push_visible_prefix out text = Chunk (visible_text out ++ text) (extracted out).
Proof. unfold push_visible_prefix. destruct text, out; cbn; [by rewrite app_nil_r|done]. Qed.

(** [push_step] without its shortcuts for empty slices. *)
Lemma push_step_eq (p : parser) out :
  push_step p out =
  match active p with
  | Some a =>
      match str_find (a_close a) (pending p) with
      | Some i =>
          Continue (Parser (specs p) (drop (i + length (a_close a)) (pending p)) None)
            (Chunk (visible_text out) (extracted out
               ++ [ExtractedTag (a_tag a) (a_content a ++ take i (pending p))]))
      | None =>
          let n := length (pending p) - longest_suffix_prefix_len (pending p) (a_close a) in
          Break (Parser (specs p) (drop n (pending p))
                   (Some (Active (a_tag a) (a_close a) (a_content a ++ take n (pending p))))) out
      end
  | None =>
      match find_next_open p with
      | Some (i, k) =>
          match specs p !! k with
          | None => Panic
          | Some s =>
              Continue (Parser (specs p) (drop (i + length (s_open s)) (pending p))
                          (Some (Active (s_tag s) (s_close s) [])))
                (Chunk (visible_text out ++ take i (pending p)) (extracted out))
          end
      | None =>
          let n := length (pending p) - max_open_prefix_suffix_len p in
          Break (Parser (specs p) (drop n (pending p)) None)
            (Chunk (visible_text out ++ take n (pending p)) (extracted out))
      end
  end.
Proof.
  destruct p as [sp pend [[tg cl co]|]], out as [v x]; unfold push_step; cbn [active pending specs].
  - case_match; [done|]. cbn [a_close a_tag a_content].
    destruct (0 <? _) eqn:E; [done|]. apply Nat.ltb_ge in E.
    destruct (_ - _); [|lia]. cbn [take drop]. by rewrite app_nil_r.
  - case_match; [case_match; case_match; [by rewrite push_visible_prefix_eq|done]|].
    unfold drain_visible_to_suffix_match. cbn [pending specs active].
    destruct (_ - _); cbn [Nat.eqb take drop visible_text extracted].
    + by rewrite app_nil_r.
    + by rewrite push_visible_prefix_eq.
Qed.

Lemma open_candidates_elem (sp : list (InlineTagSpec T)) text m :
  m ∈ open_candidates sp text ↔
  ∃ s pos k, sp !! k = Some s ∧ str_find (s_open s) text = Some pos ∧
             m = (pos, byte_len (s_open s), k).
Proof.
  unfold open_candidates. rewrite list_elem_of_omap. split.
  - intros (o & Ho & Hid). cbn in Hid. subst o.
    apply list_elem_of_lookup in Ho as [k Hk]. rewrite list_lookup_imap in Hk.
    destruct (sp !! k) as [s|] eqn:E; [|done]. cbn in Hk. injection Hk as Hk.
    destruct (str_find (s_open s) text) as [pos|] eqn:Ef; [|done].
    cbn in Hk. injection Hk as <-. eauto 10.
  - intros (s & pos & k & Hk & Hf & ->). eexists. split; [|reflexivity].
    apply list_elem_of_lookup. exists k. by rewrite list_lookup_imap, Hk; cbn; rewrite Hf.
Qed.

Lemma open_le_trans a b c : open_le a b = true → open_le b c = true → open_le a c = true.
Proof.
  destruct a as [[a1 a2] a3], b as [[b1 b2] b3], c as [[c1 c2] c3]. unfold open_le. lia.
Qed.

Lemma open_le_antisym a b : open_le a b = true → open_le b a = true → a = b.
Proof.
  destruct a as [[a1 a2] a3], b as [[b1 b2] b3]. unfold open_le.
  intros. assert (a1 = b1) by lia. assert (a2 = b2) by lia. assert (a3 = b3) by lia. congruence.
Qed.

Lemma open_le_total a b : open_le a b = false → open_le b a = true.
Proof. destruct a as [[a1 a2] a3], b as [[b1 b2] b3]. unfold open_le. lia. Qed.

Lemma min_by_None {A} (le : A → A → bool) l : min_by le l = None ↔ l = [].
Proof. destruct l; cbn; [done|]. destruct (min_by le l); done. Qed.

Lemma min_by_least l m :
  min_by open_le l = Some m ↔ m ∈ l ∧ ∀ x, x ∈ l → open_le m x = true.
Proof.
  revert m. assert (∀ l m, min_by open_le l = Some m →
    m ∈ l ∧ ∀ x, x ∈ l → open_le m x = true) as Hfwd.
  { clear l. induction l as [|y l IH]; cbn; intros m H; [done|].
    destruct (min_by open_le l) as [m'|] eqn:E.
    - destruct (IH _ eq_refl) as [Hin Hle]. destruct (open_le y m') eqn:Ey; injection H as <-.
      + split; [set_solver|]. intros x [->|Hx]%elem_of_cons.
        * destruct y as [[]]. unfold open_le. lia.
        * eauto using open_le_trans.
      + split; [set_solver|]. intros x [->|Hx]%elem_of_cons; [by apply open_le_total|auto].
    - injection H as <-. apply min_by_None in E as ->. split; [set_solver|].
      intros x Hx%list_elem_of_singleton. subst x. destruct y as [[]]. unfold open_le. lia. }
  intros m. split; [apply Hfwd|]. intros [Hin Hle].
  destruct (min_by open_le l) as [m'|] eqn:E.
  - apply Hfwd in E as [Hin' Hle']. f_equal. apply open_le_antisym; auto.
  - apply min_by_None in E as ->. by apply elem_of_nil in Hin.
Qed.

Lemma foldr_max_le l n : (∀ x, x ∈ l → x ≤ n) → foldr max 0 l ≤ n.
Proof.
  induction l as [|y l IH]; cbn; intros H; [lia|].
  pose proof (H y ltac:(set_solver)). specialize (IH ltac:(set_solver)). lia.
Qed.

Lemma foldr_max_ge l x : x ∈ l → x ≤ foldr max 0 l.
Proof. induction 1; cbn; lia. Qed.

Lemma max_keep_le (p : parser) : max_open_prefix_suffix_len p ≤ length (pending p).
Proof.
  unfold max_open_prefix_suffix_len. apply foldr_max_le.
  intros x (s & -> & _)%list_elem_of_fmap. apply longest_suffix_le.
Qed.

Lemma max_keep_ge (p : parser) s :
  s ∈ specs p → longest_suffix_prefix_len (pending p) (s_open s) ≤ max_open_prefix_suffix_len p.
Proof.
  intros Hs. unfold max_open_prefix_suffix_len. apply foldr_max_ge.
  apply list_elem_of_fmap. by exists s.
Qed.

Lemma find_next_open_None (p : parser) :
  find_next_open p = None ↔ ∀ s, s ∈ specs p → str_find (s_open s) (pending p) = None.
Proof.
  unfold find_next_open. rewrite fmap_None, min_by_None. split.
  - intros H s [k Hk]%list_elem_of_lookup. destruct (str_find _ _) as [pos|] eqn:E; [|done].
    assert ((pos, byte_len (s_open s), k) ∈ open_candidates (specs p) (pending p)) as Hin
      by (apply open_candidates_elem; eauto 10).
    rewrite H in Hin. by apply elem_of_nil in Hin.
  - intros H. destruct (open_candidates _ _) as [|m l] eqn:E; [done|].
    assert (m ∈ open_candidates (specs p) (pending p)) as Hm by (rewrite E; set_solver).
    apply open_candidates_elem in Hm as (s & pos & k & Hk & Hf & _).
    rewrite H in Hf; [done|]. apply list_elem_of_lookup; eauto.
Qed.

(** Finding an opening delimiter, and the suffix held back, after text in
    which none occurs has been released. *)
Lemma find_next_open_release sp u w t (act act' : option (ActiveTag T)) :
  (∀ s, s ∈ sp → str_find (s_open s) (u ++ w) = None) →
  (∀ s, s ∈ sp → longest_suffix_prefix_len (u ++ w) (s_open s) ≤ length w) →
  find_next_open (Parser sp (u ++ w ++ t) act) =
  (λ m, (length u + m.1, m.2)) <$> find_next_open (Parser sp (w ++ t) act').
Proof.
  intros Hnone Hk. unfold find_next_open. cbn [specs pending].
  assert (∀ m, m ∈ open_candidates sp (w ++ t) ↔
    (length u + m.1.1, m.1.2, m.2) ∈ open_candidates sp (u ++ w ++ t)) as Hiff.
  { intros [[i l] k]. rewrite !open_candidates_elem. cbn [fst snd]. split.
    - intros (s & pos & k' & Hs & Hf & [= -> -> ->]). exists s, (length u + pos), k'.
      assert (s ∈ sp) by (apply list_elem_of_lookup; eauto).
      rewrite find_after_release by auto. by rewrite Hf.
    - intros (s & pos & k' & Hs & Hf & [= <- -> ->]). exists s, i, k'.
      assert (s ∈ sp) by (apply list_elem_of_lookup; eauto).
      rewrite find_after_release in Hf by auto. apply fmap_Some in Hf as (? & -> & ?).
      by replace i with x by lia. }
  destruct (min_by open_le (open_candidates sp (w ++ t))) as [m|] eqn:E.
  - apply min_by_least in E as [Hin Hle].
    erewrite (proj2 (min_by_least _ (length u + m.1.1, m.1.2, m.2))); [done|].
    split; [by apply Hiff|]. intros x Hx.
    assert (∃ y, y ∈ open_candidates sp (w ++ t) ∧ x = (length u + y.1.1, y.1.2, y.2)) as (y & Hy & ->).
    { pose proof Hx as (s & pos & k & Hs & Hf & ->)%open_candidates_elem.
      rewrite find_after_release in Hf by (eauto using list_elem_of_lookup_2).
      apply fmap_Some in Hf as (i & Hf & ->). exists (i, byte_len (s_open s), k).
      split; [by apply Hiff|done]. }
    specialize (Hle _ Hy). destruct m as [[]], y as [[]]. unfold open_le in *. cbn [fst snd] in *. lia.
  - apply min_by_None in E. rewrite (proj2 (min_by_None _ _)); [done|].
    destruct (open_candidates sp (u ++ w ++ t)) as [|x l] eqn:E'; [done|exfalso].
    assert (x ∈ open_candidates sp (u ++ w ++ t)) as Hx by (rewrite E'; set_solver).
    apply open_candidates_elem in Hx as (s & pos & k & Hs & Hf & ->).
    rewrite find_after_release in Hf by (eauto using list_elem_of_lookup_2).
    apply fmap_Some in Hf as (i & Hf & ->).
    assert ((i, byte_len (s_open s), k) ∈ open_candidates sp (w ++ t)) as Hy
      by (apply open_candidates_elem; eauto 10).
    rewrite E in Hy. by apply elem_of_nil in Hy.
Qed.

Lemma max_keep_release sp u w t (act act' : option (ActiveTag T)) :
  delimiters_ok sp →
  (∀ s, s ∈ sp → longest_suffix_prefix_len (u ++ w) (s_open s) ≤ length w) →
  max_open_prefix_suffix_len (Parser sp (u ++ w ++ t) act) =
  max_open_prefix_suffix_len (Parser sp (w ++ t) act').
Proof.
  intros Hsp Hk. unfold max_open_prefix_suffix_len. cbn [specs pending]. f_equal.
  apply list_fmap_ext. intros i s Hs%list_elem_of_lookup_2.
  apply keep_after_release; [by apply Hsp|by apply Hk].
Qed.

(** Releasing text never disturbs what a later iteration finds. *)
Lemma step_break_app_active (p p1 : parser) a out o1 t :
  a_close a ≠ [] → active p = Some a → push_step p out = Break p1 o1 →
  push_step (extend p t) out = push_step (extend p1 t) o1.
Proof.
  intros Ha Hact. rewrite !push_step_eq. destruct p as [sp pend act]; cbn in Hact; subst act.
  cbn [active pending specs extend].
  destruct (str_find (a_close a) pend) eqn:Ef; [done|]. intros [= <- <-].
  set (n := length pend - longest_suffix_prefix_len pend (a_close a)).
  cbn [active pending specs extend a_close a_tag a_content].
  assert (longest_suffix_prefix_len pend (a_close a) ≤ length (drop n pend)) as Hk.
  { rewrite length_drop. pose proof (longest_suffix_le pend (a_close a)). lia. }
  assert (pend = take n pend ++ drop n pend) as Hp by (by rewrite take_drop).
  revert Hk Hp. generalize (take n pend), (drop n pend). clear n. intros u w Hk ->.
  rewrite <- (app_assoc u w t), find_after_release, keep_after_release by done.
  destruct (str_find (a_close a) (w ++ t)); cbn [fmap option_fmap option_map].
  - by rewrite <- Nat.add_assoc, drop_app_add', take_app_add', app_assoc by done.
  - pose proof (longest_suffix_le (w ++ t) (a_close a)).
    rewrite (length_app u), <- Nat.add_sub_assoc by done.
    by rewrite drop_app_add', take_app_add', app_assoc by done.
Qed.

Lemma step_break_app_idle (p p1 : parser) out o1 t :
  delimiters_ok (specs p) → active p = None → push_step p out = Break p1 o1 →
  push_step (extend p t) out = push_step (extend p1 t) o1.
Proof.
  intros Hsp Hact. rewrite !push_step_eq. destruct p as [sp pend act]; cbn in Hact; subst act.
  cbn [active pending specs extend] in *.
  destruct (find_next_open (Parser sp pend None)) as [[i k]|] eqn:Ef; [by destruct (sp !! k)|].
  intros [= <- <-]. set (n := length pend - max_open_prefix_suffix_len (Parser sp pend None)).
  cbn [active pending specs extend visible_text extracted].
  pose proof (proj1 (find_next_open_None _) Ef) as Hnone. cbn [specs pending] in Hnone.
  pose proof (max_keep_le (Parser sp pend None)) as Hle. cbn [pending] in Hle.
  assert (∀ s, s ∈ sp → longest_suffix_prefix_len pend (s_open s) ≤ length (drop n pend)) as Hk.
  { intros s Hs. rewrite length_drop.
    pose proof (max_keep_ge (Parser sp pend None) s Hs). cbn [pending] in *. lia. }
  assert (pend = take n pend ++ drop n pend) as Hp by (by rewrite take_drop).
  revert Hnone Hk Hp. generalize (take n pend), (drop n pend). clear -Hsp. intros u w Hnone Hk ->.
  unfold extend. cbn [specs pending active]. rewrite <- (app_assoc u w t).
  rewrite (find_next_open_release sp u w t None None), (max_keep_release sp u w t None None) by done.
  destruct (find_next_open (Parser sp (w ++ t) None)) as [[i k]|]; cbn [fmap option_fmap option_map fst snd].
  - destruct (sp !! k); [|done].
    by rewrite <- Nat.add_assoc, drop_app_add', take_app_add', app_assoc by done.
  - pose proof (max_keep_le (Parser sp (w ++ t) None)) as Hle. cbn [pending] in Hle.
    rewrite (length_app u), <- Nat.add_sub_assoc by done.
    by rewrite drop_app_add', take_app_add', app_assoc by done.
Qed.

Lemma step_break_app (p p1 : parser) out o1 t :
  wf_parser p → push_step p out = Break p1 o1 →
  push_step (extend p t) out = push_step (extend p1 t) o1.
Proof.
  intros [Hsp Ha]. destruct (active p) as [a|] eqn:E.
  - apply step_break_app_active with a; [by apply Ha|done].
  - by apply step_break_app_idle.
Qed.

(** An occurrence that covers another one with room to spare contains it. *)
Lemma occurrence_inside (n n' text : rstring) i i' :
  starts_with n (drop i text) = true → starts_with n' (drop i' text) = true →
  i' ≤ i → i + length n < i' + length n' → ∃ u v, n' = u ++ n ++ v ∧ v ≠ [].
Proof.
  rewrite !starts_with_true. intros [r Hr] [r' Hr'] Hle Hlt.
  exists (take (i - i') n'), (drop (i - i' + length n) n').
  split; [|intros H; apply (f_equal length) in H; rewrite length_drop in H; cbn in H; lia].
  assert (drop (i - i') (n' ++ r') = n ++ r) as Hd.
  { rewrite <- Hr', drop_drop, <- Hr. f_equal. lia. }
  rewrite drop_app_le in Hd by lia.
  rewrite <- drop_drop, <- (take_drop (i - i') n') at 1. f_equal.
  assert (take (length n) (drop (i - i') n' ++ r') = n) as Ht.
  { rewrite Hd. apply take_app_length. }
  rewrite take_app_le in Ht by (rewrite length_drop; lia).
  rewrite <- (take_drop (length n) (drop (i - i') n')) at 1. by rewrite Ht.
Qed.

Lemma find_next_open_Some (p : parser) i k :
  find_next_open p = Some (i, k) →
  ∃ s, specs p !! k = Some s ∧ str_find (s_open s) (pending p) = Some i ∧
    ∀ k' s' i', specs p !! k' = Some s' → str_find (s_open s') (pending p) = Some i' →
      open_le (i, byte_len (s_open s), k) (i', byte_len (s_open s'), k') = true.
Proof.
  unfold find_next_open. intros (m & Hm & [= -> ->])%fmap_Some.
  apply min_by_least in Hm as [(s & pos & k & Hs & Hf & ->)%open_candidates_elem Hle].
  exists s. split_and!; [done..|]. intros k' s' i' Hs' Hf'.
  apply Hle, open_candidates_elem. eauto 10.
Qed.

Lemma find_next_open_app sp pend t (act : option (ActiveTag T)) m :
  unambiguous sp → find_next_open (Parser sp pend act) = Some m →
  find_next_open (Parser sp (pend ++ t) act) = Some m.
Proof.
  intros Hun. destruct m as [i k].
  intros (s & Hs & Hf & Hmin)%find_next_open_Some. cbn [specs pending] in *.
  unfold find_next_open. cbn [specs pending].
  rewrite (proj2 (min_by_least _ (i, byte_len (s_open s), k))); [done|].
  split; [apply open_candidates_elem; eauto 10 using str_find_app_l|].
  intros x (s' & i' & k' & Hs' & Hf' & ->)%open_candidates_elem.
  destruct (str_find (s_open s') pend) as [j|] eqn:Ej.
  { pose proof (str_find_app_l _ _ t _ Ej) as E. rewrite Hf' in E. injection E as ->. eauto. }
  destruct (decide (i < i')) as [|Hle]; [unfold open_le; lia|exfalso].
  pose proof (str_find_bound _ _ _ Hf) as Hb.
  apply (str_find_app_l _ _ t), str_find_Some in Hf as (_ & Ho & _).
  apply str_find_Some in Hf' as (Hi' & Ho' & _).
  assert (length pend < i' + length (s_open s')) as Hlong.
  { apply Nat.nle_gt. intros Hfit. rewrite starts_with_drop_app in Ho' by done.
    rewrite (proj1 (str_find_None _ _) Ej) in Ho' by lia. done. }
  destruct (occurrence_inside _ _ _ _ _ Ho Ho') as (u & v & Huv & Hv); [lia|lia|].
  apply Hv. eapply (Hun s s'); eauto using list_elem_of_lookup_2.
Qed.

Lemma step_continue_app (p p' : parser) out o' t :
  unambiguous (specs p) → push_step p out = Continue p' o' →
  push_step (extend p t) out = Continue (extend p' t) o'.
Proof.
  intros Hun. rewrite !push_step_eq. destruct p as [sp pend [a|]]; cbn [active pending specs extend] in *.
  - destruct (str_find (a_close a) pend) as [i|] eqn:Ef; [|done]. intros [= <- <-].
    pose proof (str_find_bound _ _ _ Ef). erewrite str_find_app_l by done.
    unfold extend; cbn [active pending specs].
    by rewrite drop_app_le, take_app_le by lia.
  - destruct (find_next_open (Parser sp pend None)) as [[i k]|] eqn:Ef; [|done].
    unfold extend; cbn [active pending specs].
    rewrite (find_next_open_app _ _ t None _ Hun Ef).
    apply find_next_open_Some in Ef as (s & Hs & Hf & _). cbn [specs pending] in *. rewrite Hs.
    intros [= <- <-]. pose proof (str_find_bound _ _ _ Hf). cbn [active pending specs].
    by rewrite drop_app_le, take_app_le by lia.
Qed.

(** An iteration keeps the parser well formed, and one that continues has
    consumed a delimiter. *)
Lemma push_step_progress (p : parser) out :
  wf_parser p →
  match push_step p out with
  | Continue p' _ => wf_parser p' ∧ specs p' = specs p ∧ length (pending p') < length (pending p)
  | Break p' _ => wf_parser p' ∧ specs p' = specs p
  | Panic => False
  end.
Proof.
  intros [Hsp Ha]. rewrite push_step_eq. destruct p as [sp pend [a|]]; cbn [active pending specs] in *.
  - specialize (Ha a eq_refl). destruct (str_find (a_close a) pend) as [i|] eqn:Ef.
    + pose proof (str_find_bound _ _ _ Ef). split_and!; [split; [done|by intros ? [=]]|done|].
      cbn [pending]. rewrite length_drop. destruct (a_close a); [done|]. cbn in *. lia.
    + split; [|done]. split; [done|]. cbn. intros a' [= <-]. done.
  - destruct (find_next_open (Parser sp pend None)) as [[i k]|] eqn:Ef.
    + apply find_next_open_Some in Ef as (s & Hs & Hf & _). cbn [specs pending] in *. rewrite Hs.
      destruct (Hsp s) as [Ho Hc]; [by eapply list_elem_of_lookup_2|].
      pose proof (str_find_bound _ _ _ Hf).
      split_and!; [split; [done|cbn; intros a' [= <-]; done]|done|].
      cbn [pending]. rewrite length_drop. destruct (s_open s); [done|]. cbn in *. lia.
    + split; [|done]. split; [done|]. by intros ? [=].
Qed.

Lemma push_step_out (p : parser) o out :
  push_step p (chunk_append o out) =
  match push_step p out with
  | Continue p' o' => Continue p' (chunk_append o o')
  | Break p' o' => Break p' (chunk_append o o')
  | Panic => Panic
  end.
Proof.
  rewrite !push_step_eq. unfold chunk_append.
  repeat case_match; cbn; rewrite ?app_assoc; done.
Qed.

(** ** Lemmas: the loop *)

Lemma push_loop_total fuel (p : parser) out :
  wf_parser p → length (pending p) < fuel →
  ∃ p' o', push_loop fuel p out = Some (p', o') ∧ wf_parser p' ∧ specs p' = specs p ∧
           length (pending p') ≤ length (pending p) ∧ ∀ o, push_step p' o = Break p' o.
Proof.
  revert p out. induction fuel as [|fuel IH]; intros p out Hwf Hf; [lia|]. cbn [push_loop].
  pose proof (push_step_progress p out Hwf) as Hs.
  destruct (push_step p out) as [p' o'|p' o'|] eqn:E; [| |done].
  - destruct Hs as (Hwf' & Hsp & Hlen). destruct (IH p' o' Hwf') as (p1 & o1 & H1); [lia|].
    exists p1, o1. destruct H1 as (-> & ? & -> & ? & ?). split_and!; [done..|lia|done].
  - destruct Hs as [Hwf' Hsp]. exists p', o'. split_and!; [done..| |].
    + rewrite push_step_eq in E. cbn zeta in E.
      repeat case_match; try discriminate E; injection E as <- <-;
        cbn [pending]; rewrite length_drop; lia.
    + assert (∀ t, extend t [] = t) as Hext.
      { intros []. unfold extend. cbn. by rewrite app_nil_r. }
      assert (push_step p' o' = Break p' o') as Hb.
      { rewrite <- E, <- (Hext p) at 1. rewrite (step_break_app p p' out o' []) by done.
        by rewrite Hext. }
      intros o. pose proof (push_step_out p' o chunk_default) as H1.
      pose proof (push_step_out p' o' chunk_default) as H2.
      rewrite chunk_append_default_r in H1, H2. rewrite Hb in H2. rewrite H1.
      destruct (push_step p' chunk_default) as [| p2 o2|]; [done| |done].
      injection H2 as <- H2. destruct o2 as [v x], o, o'. unfold chunk_append in *. cbn in *.
      injection H2 as Hv Hx. apply (f_equal length) in Hv, Hx. rewrite length_app in Hv, Hx.
      destruct v, x; cbn in Hv, Hx; try lia. by rewrite !app_nil_r.
Qed.

Lemma push_loop_fuel f1 f2 (p : parser) out :
  wf_parser p → length (pending p) < f1 → length (pending p) < f2 →
  push_loop f1 p out = push_loop f2 p out.
Proof.
  revert f2 p out. induction f1 as [|f1 IH]; intros [|f2] p out Hwf H1 H2; [lia..|].
  cbn [push_loop]. pose proof (push_step_progress p out Hwf) as Hs.
  destruct (push_step p out); [|done..]. destruct Hs as (? & ? & ?). apply IH; [done|lia..].
Qed.

Lemma push_loop_app f f' (p p1 : parser) out o1 t :
  wf_parser p → unambiguous (specs p) → push_loop f p out = Some (p1, o1) →
  length (pending p) < f → length (pending p) + length t < f' →
  push_loop f' (extend p t) out = push_loop f' (extend p1 t) o1.
Proof.
  revert f' p out. induction f as [|f IH]; intros f' p out Hwf Hun H Hl Hl'; [lia|].
  cbn [push_loop] in H. pose proof (push_step_progress p out Hwf) as Hs.
  destruct f' as [|f']; [lia|].
  destruct (push_step p out) as [p' o'|p' o'|] eqn:E; [| |done].
  - destruct Hs as (Hwf' & Hsp & Hlen).
    transitivity (push_loop f' (extend p' t) o').
    { cbn [push_loop]. by rewrite (step_continue_app _ _ _ _ _ Hun E). }
    rewrite (IH f' p' o' Hwf') by (rewrite ?Hsp; lia || done).
    destruct (push_loop_total f p' o' Hwf') as (p2 & o2 & H2 & Hwf2 & _ & Hl2 & _); [lia|].
    rewrite H in H2. injection H2 as <- <-.
    apply push_loop_fuel; [done|cbn [extend pending]; rewrite length_app; lia..].
  - injection H as -> ->. cbn [push_loop]. by rewrite (step_break_app _ _ _ _ _ Hwf E).
Qed.

Lemma push_loop_out f (p : parser) o out :
  push_loop f p (chunk_append o out) =
  (λ r, (r.1, chunk_append o r.2)) <$> push_loop f p out.
Proof.
  revert p out. induction f as [|f IH]; intros p out; [done|].
  cbn [push_loop]. rewrite push_step_out. destruct (push_step p out); [apply IH|done..].
Qed.

(** A state between two chunks: nothing more can be decided. *)
Definition good_inline (p : parser) : Prop :=
  wf_parser p ∧ unambiguous (specs p) ∧ ∀ o, push_step p o = Break p o.

Lemma inline_push_good p s :
  good_inline p → ∃ p' o, inline_push_str p s = Some (p', o) ∧ good_inline p'.
Proof.
  intros (Hwf & Hun & _). unfold inline_push_str.
  destruct (push_loop_total (S (length (pending p ++ s))) (extend p s) chunk_default)
    as (p' & o & H & Hwf' & Hsp & _ & Hset); [done|cbn; lia|].
  exists p', o. split; [done|]. split_and!; [done| |done]. by rewrite Hsp.
Qed.

Lemma inline_push_nil p : good_inline p → inline_push_str p [] = Some (p, chunk_default).
Proof.
  intros (_ & _ & Hset). unfold inline_push_str. rewrite app_nil_r.
  destruct p. cbn [push_loop specs pending active] in *. by rewrite Hset.
Qed.

Lemma inline_push_app p a b p1 o1 p2 o2 :
  good_inline p → inline_push_str p a = Some (p1, o1) → inline_push_str p1 b = Some (p2, o2) →
  inline_push_str p (a ++ b) = Some (p2, chunk_append o1 o2).
Proof.
  intros (Hwf & Hun & _) H1 H2. unfold inline_push_str in *. fold (extend p a) in H1.
  fold (extend p1 b) in H2. set (f := S (length (pending p ++ a ++ b))).
  assert (Parser (specs p) (pending p ++ a ++ b) (active p) = extend (extend p a) b) as ->.
  { unfold extend. cbn. by rewrite app_assoc. }
  destruct (push_loop_total (S (length (pending p ++ a))) (extend p a) chunk_default)
    as (p1' & o1' & H1' & Hwf1 & _ & Hl & _); [done|cbn; lia|].
  rewrite H1 in H1'. injection H1' as <- <-.
  rewrite (push_loop_app _ f (extend p a) p1 _ o1 b Hwf Hun H1)
    by (unfold f; cbn [extend pending]; rewrite ?length_app; lia).
  rewrite (push_loop_fuel f (S (length (pending p1 ++ b))))
    by (done || (unfold f; cbn [extend pending] in *; rewrite ?length_app in *; lia)).
  rewrite <- (chunk_append_default_r o1) at 1. by rewrite push_loop_out, H2.
Qed.

(** ** The loop implements the specification *)

Lemma step_hides_close sp pend (a : ActiveTag T) i vis ext :
  str_find (a_close a) pend = Some i →
  hides sp None (drop (i + length (a_close a)) pend) vis ext →
  hides sp (Some a) pend vis (ExtractedTag (a_tag a) (a_content a ++ take i pend) :: ext).
Proof.
  intros Hf Hh. pose proof (str_find_bound _ _ _ Hf). rewrite (str_find_split _ _ _ Hf) at 1.
  apply hides_close; [|done]. rewrite <- (str_find_split _ _ _ Hf), length_take, Hf. f_equal. lia.
Qed.

Lemma step_hides_open (sp : list (InlineTagSpec T)) pend i k s vis ext :
  find_next_open (Parser sp pend None) = Some (i, k) → sp !! k = Some s →
  hides sp (Some (Active (s_tag s) (s_close s) [])) (drop (i + length (s_open s)) pend) vis ext →
  hides sp None pend (take i pend ++ vis) ext.
Proof.
  intros (s' & Hs' & Hf & Hmin)%find_next_open_Some Hs Hh. cbn [specs pending] in *.
  rewrite Hs in Hs'. injection Hs' as <-. pose proof (str_find_bound _ _ _ Hf).
  rewrite (str_find_split _ _ _ Hf) at 1.
  apply (hides_open sp (take i pend) k s); [done| | |done].
  - rewrite <- (str_find_split _ _ _ Hf). rewrite length_take.
    intros (s' & j & [k' Hk']%list_elem_of_lookup & Hj & Ho).
    destruct (str_find_le (s_open s') pend j) as (i' & Hi' & Hle); [lia|done|].
    specialize (Hmin _ _ _ Hk' Hi'). unfold open_le in Hmin. lia.
  - intros k' s' Hlt Hk' Heq. specialize (Hmin k' s' i Hk'). rewrite Heq in Hmin.
    specialize (Hmin Hf). unfold open_le in Hmin. lia.
Qed.

Lemma step_hides_plain sp pend (act : option (ActiveTag T)) :
  find_next_open (Parser sp pend act) = None → hides sp None pend pend [].
Proof.
  intros Hn. apply hides_plain. intros (s & j & Hs & Hj & Ho).
  pose proof (proj1 (find_next_open_None _) Hn s Hs) as Hf. cbn [pending] in Hf.
  rewrite (proj1 (str_find_None _ _) Hf) in Ho; [done|lia].
Qed.

Lemma push_loop_hides f (p p1 : parser) out o1 :
  wf_parser p → push_loop f p out = Some (p1, o1) →
  ∃ vis ext, hides (specs p) (active p) (pending p) vis ext ∧
    chunk_append o1 (inline_finish p1).2 = chunk_append out (Chunk vis ext).
Proof.
  revert p out. induction f as [|f IH]; intros p out Hwf H; [done|]. cbn [push_loop] in H.
  pose proof (push_step_progress p out Hwf) as Hs. rewrite push_step_eq in H, Hs.
  destruct p as [sp pend [a|]]; cbn [active pending specs] in *.
  - destruct (str_find (a_close a) pend) as [i|] eqn:Ef.
    + destruct (IH _ _ (proj1 Hs) H) as (vis & ext & Hh & Ho). cbn [active pending specs] in Hh.
      eexists vis, _. split; [by eapply step_hides_close|].
      rewrite Ho. unfold chunk_append. cbn. by rewrite <- app_assoc.
    + injection H as <- <-. eexists _, _. split; [by apply hides_unclosed|].
      unfold inline_finish, chunk_append. cbn. by rewrite <- app_assoc, take_drop.
  - destruct (find_next_open (Parser sp pend None)) as [[i k]|] eqn:Ef.
    + destruct (sp !! k) as [s|] eqn:Ek; [|done].
      destruct (IH _ _ (proj1 Hs) H) as (vis & ext & Hh & Ho). cbn [active pending specs] in Hh.
      eexists _, ext. split; [by eapply step_hides_open|].
      rewrite Ho. unfold chunk_append. cbn. by rewrite <- app_assoc.
    + injection H as <- <-. eexists _, _. split; [by eapply step_hides_plain|].
      unfold inline_finish, chunk_append. cbn. by rewrite <- app_assoc, take_drop, app_nil_r.
Qed.

End Steps.

#[export] Program Instance Inline_laws {T} :
  StreamLaws (InlineHiddenTagParser T) (ExtractedInlineTag T) := {
  good := good_inline;
  payload_equiv := (=);
}.
Next Obligation. intros. by apply inline_push_good. Qed.
Next Obligation. intros. by apply inline_push_nil. Qed.
Next Obligation.
  intros T p a b p1 o1 p2 o2 Hp H1 H2. exists (chunk_append o1 o2).
  split; [by eapply inline_push_app|done].
Qed.

Lemma single_spec_unambiguous {T} (s : InlineTagSpec T) : unambiguous [s].
Proof.
  intros s1 s2 u v ->%list_elem_of_singleton ->%list_elem_of_singleton H.
  apply (f_equal length) in H. rewrite !length_app in H. destruct v; [done|cbn in H; lia].
Qed.

Lemma new_good {T} (sp : list (InlineTagSpec T)) p :
  new sp = Some p → unambiguous sp →
  p = Parser sp [] None ∧ good_inline p.
Proof.
  unfold new. destruct (is_empty sp); [done|]. destruct (forallb _ sp) eqn:E; [|done].
  intros [= <-] Hun. split; [done|].
  assert (delimiters_ok sp) as Hd.
  { intros s Hs%list_elem_of_In. rewrite forallb_forall in E. specialize (E s Hs).
    split; intros Hn; rewrite Hn in E; cbn in E; [done|]. by rewrite andb_false_r in E. }
  split_and!; [by split|done|]. intros [v x]. rewrite push_step_eq. cbn [active pending specs].
  rewrite (proj2 (find_next_open_None _)).
  - cbn. by rewrite app_nil_r.
  - intros s Hs. cbn. destruct (s_open s) eqn:Eo; [by destruct (Hd s Hs)|done].
Qed.

Lemma push_new_hides {T} (sp : list (InlineTagSpec T)) text p1 o1 :
  good_inline (Parser sp [] None) → inline_push_str (Parser sp [] None) text = Some (p1, o1) →
  ∃ vis ext, hides sp None text vis ext ∧
    chunk_append o1 (inline_finish p1).2 = Chunk vis ext.
Proof.
  intros [Hwf _] H. unfold inline_push_str in H. cbn [pending specs active app] in H.
  apply (push_loop_hides _ (Parser sp text None)) in H as (vis & ext & Hh & ->); [|done].
  exists vis, ext. split; [done|]. apply chunk_append_default_l.
Qed.

Lemma citation_new_good :
  ∃ p, citation_new = Some (CitationParser p) ∧ good_inline p ∧ p = Parser citation_specs [] None.
Proof.
  destruct (new citation_specs) as [p|] eqn:E; [|done].
  destruct (new_good _ _ E (single_spec_unambiguous _)) as [-> Hg].
  eexists. by split_and!.
Qed.

Lemma contents_only_app a b :
  contents_only (chunk_append a b) = chunk_append (contents_only a) (contents_only b).
Proof. unfold contents_only, chunk_append. cbn. by rewrite fmap_app. Qed.

#[export] Program Instance Citation_laws : StreamLaws CitationStreamParser rstring := {
  good p := good_inline (inner p);
  payload_equiv := (=);
}.
Next Obligation.
  intros p s Hp. destruct (inline_push_good _ s Hp) as (p' & o & H & Hg).
  cbn [push_str Citation_parser]. rewrite H. eauto.
Qed.
Next Obligation. intros [p] Hp. cbn [push_str Citation_parser inner]. by rewrite (inline_push_nil p). Qed.
Next Obligation.
  intros p a b p1 o1 p2 o2 Hp H1 H2. cbn [push_str Citation_parser] in *.
  destruct (inline_push_str (inner p) a) as [[q1 x1]|] eqn:E1; [|done]. simplify_eq. cbn [inner] in H2.
  destruct (inline_push_str q1 b) as [[q2 x2]|] eqn:E2; [|done]. simplify_eq.
  rewrite (inline_push_app _ _ _ _ _ _ _ Hp E1 E2).
  eexists. split; [done|]. rewrite contents_only_app. done.
Qed.

(** The citation parser from its initial state, fed in any chunks. *)
Lemma citation_run_stream chunks :
  ∃ p vis cites ext,
    citation_new = Some p ∧ strip_citations (concat chunks) = Some (vis, cites) ∧
    run_stream p chunks = Some (Chunk vis cites) ∧
    cites = x_content <$> ext ∧ hides citation_specs None (concat chunks) vis ext.
Proof.
  destruct citation_new_good as (q & Hn & Hg & Hq).
  assert (good (CitationParser q)) as Hgood by exact Hg.
  destruct (run_stream_concat (CitationParser q) chunks Hgood) as ([v x] & o' & Er & E & [Hv Hx]).
  unfold run_stream in E. cbn [push_all push_str Citation_parser inner] in E.
  destruct (inline_push_str q (concat chunks)) as [[p1 o1]|] eqn:Ep; [|done]. injection E as <-.
  rewrite chunk_append_default_r in Hv, Hx. cbn in Hv, Hx.
  subst q. destruct (push_new_hides _ _ _ _ Hg Ep) as (vis & ext & Hh & Ho).
  injection Ho as Hvis Hext.
  exists (CitationParser (Parser citation_specs [] None)), v, x, ext.
  unfold strip_citations. rewrite Hn. cbn [push_str Citation_parser inner]. rewrite Ep.
  cbn [finish Citation_parser inner]. destruct (inline_finish p1) as [p2 o2].
  cbn [fst snd visible_text extracted contents_only] in *. subst v x.
  split_and!; try done.
  - by rewrite <- Hext, fmap_app.
  - by rewrite Hvis.
Qed.

(** ** Properties *)

(** C22: whatever the chunks, a parser for delimiters none of which is complete
    inside another neither panics nor loops, and what it shows and extracts is
    what [hides] says of the concatenated text. *)
Theorem inline_stream_refines {T} (sp : list (InlineTagSpec T)) p chunks :
  new sp = Some p → unambiguous sp →
  ∃ o, run_stream p chunks = Some o ∧
       hides sp None (concat chunks) (visible_text o) (extracted o).
Proof.
  intros Hn Hun. destruct (new_good sp p Hn Hun) as [Hp Hg].
  assert (good p) as Hgood by exact Hg.
  destruct (run_stream_concat p chunks Hgood) as (o & o' & -> & E & [Hv Hx]).
  exists o. split; [done|]. rewrite Hv, Hx. unfold run_stream in E. 
  cbn [push_all push_str finish Inline_parser] in E. subst p.
  destruct (inline_push_str _ _) as [[p1 o1]|] eqn:El; [|done]. injection E as <-.
  rewrite chunk_append_default_r.
  by destruct (push_new_hides _ _ _ _ Hg El) as (vis & ext & Hh & ->).
Qed.

Definition demo_specs : list (InlineTagSpec nat) :=
  [TagSpec 1 $"<a>" $"</a>"; TagSpec 2 $"<b>" $"</b>"].

Lemma inline_stream_refines_witness :
  ∃ o, run_stream (Parser demo_specs [] None) [ $"x<"; $"a>1</"; $"b></a"; $">y<b>2"] = Some o ∧
       hides demo_specs None (concat [ $"x<"; $"a>1</"; $"b></a"; $">y<b>2"])
         (visible_text o) (extracted o).
Proof.
  apply inline_stream_refines; [reflexivity|].
  intros s s' u v Hs Hs' H. apply elem_of_cons in Hs, Hs'.
  rewrite list_elem_of_singleton in Hs, Hs'.
  assert (length (s_open s) = 3 ∧ length (s_open s') = 3) as [H3 H3']
    by (destruct Hs as [-> | ->], Hs' as [-> | ->]; done).
  apply (f_equal length) in H. rewrite !length_app in H. destruct v; [done|cbn in H; lia].
Defined.

(** Without that condition the result depends on the chunks: the shorter of two
    delimiters that start alike is taken as soon as it is complete. *)
Example ambiguous_specs_depend_on_chunks :
  let p := Parser [TagSpec 1 $"<a" $"|"; TagSpec 2 $"<ab" $"|"] [] None in
  run_stream p [ $"<abc|"] = Some (Chunk [] [ExtractedTag 2 $"c"]) ∧
  run_stream p [ $"<a"; $"bc|"] = Some (Chunk [] [ExtractedTag 1 $"bc"]).
Proof. split; vm_compute; reflexivity. Qed.

(** Streaming a text through the citation parser in any chunks shows and
    extracts exactly what [strip_citations] gives for the whole text, and that
    is what [hides] says of the citation delimiters. *)
Theorem citations_stream_as_whole chunks :
  ∃ p vis cites ext,
    citation_new = Some p ∧ strip_citations (concat chunks) = Some (vis, cites) ∧
    run_stream p chunks = Some (Chunk vis cites) ∧
    cites = x_content <$> ext ∧ hides citation_specs None (concat chunks) vis ext.
Proof. apply citation_run_stream. Qed.

End Inline.
