(* ===== verification/TaggedLine.v ===== *)
(** * Tag blocks on lines of their own (utils/stream-parser/src/tagged_line_parser.rs)
    and proposed plans (proposed_plan.rs)

    [TaggedLineParser] reads chars one at a time.  A line is buffered while it
    can still turn out to be a tag and is let through as soon as it cannot.
    The theorems: cutting the text into chunks changes nothing but where the
    segments are cut, early release never misses a tag, and the segments say
    of every line what the line-by-line reading [text_events] says. *)

From S2P Require Import Prelude StreamText.

Module Tagged.
Import Stream.

Record TagSpec (T : Type) := LineTag { t_open : rstring; t_close : rstring; t_tag : T }.
Arguments LineTag {T}.
Arguments t_open {T}.
Arguments t_close {T}.
Arguments t_tag {T}.

Inductive TaggedLineSegment (T : Type) :=
| Normal (s : rstring)
| TagStart (t : T)
| TagDelta (t : T) (s : rstring)
| TagEnd (t : T).
Arguments Normal {T}.
Arguments TagStart {T}.
Arguments TagDelta {T}.
Arguments TagEnd {T}.

Record TaggedLineParser (T : Type) := LineParser {
  l_specs : list (TagSpec T);
  active_tag : option T;
  detect_tag : bool;
  line_buffer : rstring;
}.
Arguments LineParser {T}.
Arguments l_specs {T}.
Arguments active_tag {T}.
Arguments detect_tag {T}.
Arguments line_buffer {T}.

Section LineParser.
Context {T : Type} `{EqDecision T}.
Abbreviation parser := (TaggedLineParser T).
Abbreviation segment := (TaggedLineSegment T).

Definition new_line_parser (specs : list (TagSpec T)) : parser := LineParser specs None true [].

(** [push_segment]: text is appended to a last segment of the same kind. *)
Definition push_segment (segments : list segment) (s : segment) : list segment :=
  match s with
  | Normal delta =>
      if is_empty delta then segments
      else match last segments with
           | Some (Normal existing) => removelast segments ++ [Normal (existing ++ delta)]
           | _ => segments ++ [Normal delta]
           end
  | TagDelta tag delta =>
      if is_empty delta then segments
      else match last segments with
           | Some (TagDelta existing_tag existing) =>
               if bool_decide (existing_tag = tag)
               then removelast segments ++ [TagDelta existing_tag (existing ++ delta)]
               else segments ++ [TagDelta tag delta]
           | _ => segments ++ [TagDelta tag delta]
           end
  | TagStart tag => segments ++ [TagStart tag]
  | TagEnd tag => segments ++ [TagEnd tag]
  end.

Definition push_text (active : option T) (text : rstring) (segments : list segment)
  : list segment :=
  match active with
  | Some tag => push_segment segments (TagDelta tag text)
  | None => push_segment segments (Normal text)
  end.

Definition is_tag_prefix (specs : list (TagSpec T)) (slug : rstring) : bool :=
  let slug := trim_end slug in
  existsb (λ spec, starts_with slug (t_open spec) || starts_with slug (t_close spec)) specs.

Definition find_tag (field : TagSpec T → rstring) (specs : list (TagSpec T)) (slug : rstring)
  : option T :=
  t_tag <$> List.find (λ spec, field spec =?s slug) specs.
Definition match_open (specs : list (TagSpec T)) (slug : rstring) : option T :=
  find_tag t_open specs slug.
Definition match_close (specs : list (TagSpec T)) (slug : rstring) : option T :=
  find_tag t_close specs slug.

(** [strip_suffix('\n').unwrap_or(..)] and both trims. *)
Definition line_slug (line : rstring) : rstring :=
  let without_newline := default line (strip_suffix [NL] line) in
  trim_end (trim_start without_newline).

(** [if let Some(tag) = match_open(slug) && active_tag.is_none()]. *)
Definition opens (p : parser) (slug : rstring) : option T :=
  match match_open (l_specs p) slug, active_tag p with
  | Some tag, None => Some tag
  | _, _ => None
  end.

(** [if let Some(tag) = match_close(slug) && active_tag == Some(tag)]. *)
Definition closes (p : parser) (slug : rstring) : option T :=
  match match_close (l_specs p) slug with
  | Some tag => if bool_decide (active_tag p = Some tag) then Some tag else None
  | None => None
  end.

Definition finish_line (p : parser) (segments : list segment) : parser * list segment :=
  let line := line_buffer p in
  let slug := line_slug line in
  match opens p slug with
  | Some tag =>
      (LineParser (l_specs p) (Some tag) true [], push_segment segments (TagStart tag))
  | None =>
      match closes p slug with
      | Some tag => (LineParser (l_specs p) None true [], push_segment segments (TagEnd tag))
      | None =>
          (LineParser (l_specs p) (active_tag p) true [], push_text (active_tag p) line segments)
      end
  end.

(** The [for ch in delta.chars()] loop of [parse]. *)
Fixpoint parse_chars (p : parser) (run : rstring) (segments : list segment) (chars : rstring)
  : parser * list segment :=
  match chars with
  | [] => (p, if is_empty run then segments else push_text (active_tag p) run segments)
  | ch :: chars' =>
      if detect_tag p then
        let '(run, segments) :=
          if is_empty run then (run, segments)
          else ([], push_text (active_tag p) run segments) in
        let buffer := line_buffer p ++ [ch] in
        let p := LineParser (l_specs p) (active_tag p) (detect_tag p) buffer in
        if (ch =? NL)%Z then
          let '(p, segments) := finish_line p segments in
          parse_chars p run segments chars'
        else
          let slug := trim_start buffer in
          if is_empty slug || is_tag_prefix (l_specs p) slug then parse_chars p run segments chars'
          else
            let p := LineParser (l_specs p) (active_tag p) false [] in
            parse_chars p run (push_text (active_tag p) buffer segments) chars'
      else
        let run := run ++ [ch] in
        if (ch =? NL)%Z then
          parse_chars (LineParser (l_specs p) (active_tag p) true (line_buffer p)) []
            (push_text (active_tag p) run segments) chars'
        else parse_chars p run segments chars'
  end.

Definition line_parse (p : parser) (delta : rstring) : parser * list segment :=
  parse_chars p [] [] delta.

Definition line_finish (p : parser) : parser * list segment :=
  let '(p, segments) :=
    if is_empty (line_buffer p) then (p, [])
    else
      let buffered := line_buffer p in
      let slug := line_slug buffered in
      match opens p slug with
      | Some tag =>
          (LineParser (l_specs p) (Some tag) (detect_tag p) [], push_segment [] (TagStart tag))
      | None =>
          match closes p slug with
          | Some tag =>
              (LineParser (l_specs p) None (detect_tag p) [], push_segment [] (TagEnd tag))
          | None =>
              (LineParser (l_specs p) (active_tag p) (detect_tag p) [],
               push_text (active_tag p) buffered [])
          end
      end in
  let segments := match active_tag p with
                  | Some tag => push_segment segments (TagEnd tag)
                  | None => segments
                  end in
  (LineParser (l_specs p) None true (line_buffer p), segments).

(** ** Specification: what each char and line of the text is *)

Inductive event :=
| EvChar (tag : option T) (c : char)
| EvStart (tag : T)
| EvEnd (tag : T).

Definition seg_events (s : segment) : list event :=
  match s with
  | Normal text => EvChar None <$> text
  | TagDelta tag text => EvChar (Some tag) <$> text
  | TagStart tag => [EvStart tag]
  | TagEnd tag => [EvEnd tag]
  end.
Definition events (segments : list segment) : list event := segments ≫= seg_events.

(** A line that is an opening tag outside a block, or the closing tag of the
    block it is in, is a boundary; any other line is text. *)
Definition line_events (specs : list (TagSpec T)) (active : option T) (line : rstring)
  : option T * list event :=
  let slug := line_slug line in
  let text := (active, EvChar active <$> line) in
  match active with
  | None => match match_open specs slug with
            | Some tag => (Some tag, [EvStart tag])
            | None => text
            end
  | Some tag => if bool_decide (match_close specs slug = Some tag) then (None, [EvEnd tag])
                else text
  end.

Fixpoint lines_events (specs : list (TagSpec T)) (active : option T) (lines : list rstring)
  : option T * list event :=
  match lines with
  | [] => (active, [])
  | line :: lines' =>
      let '(active, evs) := line_events specs active line in
      let '(active, evs') := lines_events specs active lines' in
      (active, evs ++ evs')
  end.

(** The whole text: its lines, then the end of the block still open. *)
Definition text_events (specs : list (TagSpec T)) (text : rstring) : list event :=
  let '(active, evs) := lines_events specs None (split_inclusive NL text) in
  evs ++ match active with Some tag => [EvEnd tag] | None => [] end.

End LineParser.
Arguments event : clear implicits.

(** ** Lemmas: segments *)

Section Lemmas.
Context {T : Type} `{EqDecision T}.
Implicit Types (p : TaggedLineParser T) (specs : list (TagSpec T)) (segs : list (TaggedLineSegment T)).

Lemma events_app segs segs' : events (segs ++ segs') = events segs ++ events segs'.
Proof. unfold events. apply bind_app. Qed.

Lemma events_one (s : TaggedLineSegment T) : events [s] = seg_events s.
Proof. cbn. by rewrite app_nil_r. Qed.

(** Merging text into the last segment only moves a boundary. *)
Lemma events_push_segment segs s : events (push_segment segs s) = events segs ++ seg_events s.
Proof.
  destruct s as [d|t|t d|t]; cbn [push_segment];
    try (by rewrite events_app, events_one).
  - destruct d as [|c d]; cbn [is_empty]; [by rewrite app_nil_r|].
    destruct (last segs) as [[]|] eqn:E; rewrite ?events_app, ?events_one; try done.
    apply last_Some in E as [l ->]. rewrite removelast_last, !events_app, !events_one.
    cbn [seg_events]. by rewrite fmap_app, app_assoc.
  - destruct d as [|c d]; cbn [is_empty]; [by rewrite app_nil_r|].
    destruct (last segs) as [[]|] eqn:E; try (by rewrite ?events_app, ?events_one).
    case_bool_decide as Ht; [|by rewrite events_app, events_one].
    apply last_Some in E as [l ->]. rewrite removelast_last, !events_app, !events_one. subst.
    cbn [seg_events]. by rewrite fmap_app, app_assoc.
Qed.

Lemma events_push_text active text segs :
  events (push_text active text segs) = events segs ++ (EvChar active <$> text).
Proof. destruct active; cbn [push_text]; by rewrite events_push_segment. Qed.

(** ** Lemmas: one char at a time *)

Definition feed p (ch : char) : TaggedLineParser T * list (event T) :=
  if detect_tag p then
    let q := LineParser (l_specs p) (active_tag p) true (line_buffer p ++ [ch]) in
    if (ch =? NL)%Z then
      let '(q', segs) := finish_line q [] in (q', events segs)
    else if is_empty (trim_start (line_buffer q)) || is_tag_prefix (l_specs p) (trim_start (line_buffer q))
    then (q, [])
    else (LineParser (l_specs p) (active_tag p) false [], EvChar (active_tag p) <$> line_buffer q)
  else (if (ch =? NL)%Z then LineParser (l_specs p) (active_tag p) true (line_buffer p) else p,
        [EvChar (active_tag p) ch]).

Fixpoint feeds p (chars : rstring) : TaggedLineParser T * list (event T) :=
  match chars with
  | [] => (p, [])
  | ch :: chars' =>
      let '(p1, e1) := feed p ch in
      let '(p2, e2) := feeds p1 chars' in
      (p2, e1 ++ e2)
  end.

Lemma feeds_app p a b :
  feeds p (a ++ b) =
  ((feeds (feeds p a).1 b).1, (feeds p a).2 ++ (feeds (feeds p a).1 b).2).
Proof.
  revert p. induction a as [|c a IH]; intros p; cbn [app feeds fst snd]; [by destruct (feeds p b)|].
  destruct (feed p c) as [p1 e1]. rewrite IH. destruct (feeds p1 a) as [p2 e2].
  cbn [fst snd]. by rewrite app_assoc.
Qed.

Lemma feeds_snoc p a c :
  feeds p (a ++ [c]) =
  ((feed (feeds p a).1 c).1, (feeds p a).2 ++ (feed (feeds p a).1 c).2).
Proof.
  rewrite feeds_app. cbn [feeds]. destruct (feed (feeds p a).1 c).
  cbn [fst snd]. by rewrite app_nil_r.
Qed.

Lemma finish_line_events p segs :
  (finish_line p segs).1 = (finish_line p []).1 ∧
  events (finish_line p segs).2 = events segs ++ events (finish_line p []).2.
Proof.
  unfold finish_line. repeat case_match; cbn [fst snd];
    by rewrite ?events_push_text, ?events_push_segment.
Qed.

(** The run of chars collected by [parse] is only a batch. *)
Lemma parse_chars_feeds p run segs chars :
  (parse_chars p run segs chars).1 = (feeds p chars).1 ∧
  events (parse_chars p run segs chars).2 =
    events segs ++ (EvChar (active_tag p) <$> run) ++ (feeds p chars).2.
Proof.
  revert p run segs. induction chars as [|ch chars IH]; intros p run segs; cbn [parse_chars feeds].
  { split; [done|]. destruct run; cbn [is_empty fmap list_fmap fst snd].
    - by rewrite !app_nil_r.
    - by rewrite events_push_text, app_nil_r. }
  destruct p as [sp act det buf]. unfold feed. cbn [detect_tag line_buffer l_specs active_tag].
  destruct det.
  - assert (∃ segs', (if is_empty run then (run, segs) else ([], push_text act run segs)) = ([], segs')
      ∧ events segs' = events segs ++ (EvChar act <$> run)) as (segs' & -> & Hs').
    { destruct run; eexists; (split; [done|]); [by rewrite app_nil_r|apply events_push_text]. }
    destruct (ch =? NL)%Z.
    + set (q := LineParser sp act true (buf ++ [ch])).
      pose proof (finish_line_events q segs') as [H1 H2].
      destruct (finish_line q segs') as [q1 s1], (finish_line q []) as [q2 s2]. cbn [fst snd] in *.
      subst q2. destruct (IH q1 [] s1) as [-> ->]. destruct (feeds q1 chars).
      cbn [fst snd fmap list_fmap]. split; [done|]. by rewrite H2, Hs', <- !app_assoc.
    + destruct (_ || _).
      * destruct (IH (LineParser sp act true (buf ++ [ch])) [] segs') as [-> ->].
        destruct (feeds _ chars). cbn [fst snd fmap list_fmap]. split; [done|].
        by rewrite Hs', <- !app_assoc.
      * destruct (IH (LineParser sp act false []) [] (push_text act (buf ++ [ch]) segs')) as [-> ->].
        destruct (feeds _ chars). cbn [fst snd]. split; [done|].
        by rewrite events_push_text, Hs', <- !app_assoc.
  - destruct (ch =? NL)%Z.
    + destruct (IH (LineParser sp act true buf) [] (push_text act (run ++ [ch]) segs)) as [-> ->].
      destruct (feeds _ chars). cbn [fst snd]. split; [done|].
      by rewrite events_push_text, fmap_app, <- !app_assoc.
    + destruct (IH (LineParser sp act false buf) (run ++ [ch]) segs) as [-> ->].
      destruct (feeds _ chars). cbn [fst snd active_tag]. split; [done|].
      by rewrite fmap_app, <- !app_assoc.
Qed.

Lemma line_parse_feeds p delta :
  (line_parse p delta).1 = (feeds p delta).1 ∧ events (line_parse p delta).2 = (feeds p delta).2.
Proof. apply (parse_chars_feeds p [] []). Qed.

(** ** Lemmas: one line at a time *)

Lemma line_slug_plain x : NL ∉ x → line_slug x = trim_end (trim_start x).
Proof.
  intros H. unfold line_slug. destruct (strip_suffix [NL] x) eqn:E; [|done].
  apply strip_suffix_Some in E. set_solver.
Qed.

Lemma line_slug_nl x : line_slug (x ++ [NL]) = trim_end (trim_start x).
Proof. unfold line_slug. by rewrite strip_suffix_app. Qed.

Lemma find_tag_None (field : TagSpec T → rstring) specs slug :
  (∀ s, s ∈ specs → field s ≠ slug) → find_tag field specs slug = None.
Proof.
  intros H. unfold find_tag. destruct (List.find _ specs) as [s|] eqn:E; [|done].
  apply find_some in E as [Hs%list_elem_of_In E]. apply str_eqb_eq in E. by apply H in Hs.
Qed.

Lemma is_tag_prefix_false specs slug s :
  is_tag_prefix specs slug = false → s ∈ specs →
  (¬ ∃ r, t_open s = trim_end slug ++ r) ∧ (¬ ∃ r, t_close s = trim_end slug ++ r).
Proof.
  unfold is_tag_prefix. intros H Hs%list_elem_of_In.
  assert (∀ s, In s specs → starts_with (trim_end slug) (t_open s)
            || starts_with (trim_end slug) (t_close s) = false) as Hall.
  { intros s' Hs'. apply not_true_iff_false. intros Ht. apply not_true_iff_false in H.
    apply H, existsb_exists. eauto. }
  specialize (Hall s Hs). apply orb_false_iff in Hall as [Ho Hc].
  split; intros Hr%starts_with_true; congruence.
Qed.

(** A line start after which no continuation can make the line a tag. *)
Definition dead specs (cur : rstring) : Prop :=
  ∀ rest s, s ∈ specs →
    t_open s ≠ trim_end (trim_start (cur ++ rest)) ∧ t_close s ≠ trim_end (trim_start (cur ++ rest)).

Lemma disproved_dead specs cur :
  trim_start cur ≠ [] → is_tag_prefix specs (trim_start cur) = false → dead specs cur.
Proof.
  intros Hne Hp rest s Hs. rewrite trim_start_nonempty_app by done.
  destruct (trim_end_app_prefix (trim_start cur) rest) as [r ->].
  destruct (is_tag_prefix_false _ _ _ Hp Hs) as [Ho Hc]. split; intros E; eauto.
Qed.

Lemma dead_app specs cur x : dead specs cur → dead specs (cur ++ x).
Proof. intros H rest s Hs. rewrite <- app_assoc. by apply H. Qed.

Lemma dead_line_events specs active cur tail :
  dead specs cur → NL ∉ cur → tail = [] ∨ tail = [NL] →
  line_events specs active (cur ++ tail) = (active, EvChar active <$> (cur ++ tail)).
Proof.
  intros Hd Hnl Ht. unfold line_events.
  assert (line_slug (cur ++ tail) = trim_end (trim_start (cur ++ []))) as ->.
  { rewrite app_nil_r. destruct Ht as [-> | ->]; [|apply line_slug_nl].
    rewrite app_nil_r. by apply line_slug_plain. }
  unfold match_open, match_close.
  rewrite !find_tag_None by (intros s Hs; by apply Hd). by destruct active.
Qed.

(** What [finish_line] and [finish] do with a buffered line. *)
Lemma opens_closes_line specs active det line :
  let p := LineParser specs active det line in
  line_events specs active line =
  match opens p (line_slug line) with
  | Some tag => (Some tag, [EvStart tag])
  | None =>
      match closes p (line_slug line) with
      | Some tag => (None, [EvEnd tag])
      | None => (active, EvChar active <$> line)
      end
  end.
Proof.
  unfold line_events, opens, closes. cbn [l_specs active_tag].
  destruct active as [a|]; destruct (match_open specs (line_slug line)) as [o|];
    destruct (match_close specs (line_slug line)) as [c|];
    repeat case_bool_decide; simplify_eq; done.
Qed.

(** The state after the start [cur] of a line, from the state before it. *)
Lemma feeds_partial specs active cur :
  NL ∉ cur →
  feeds (LineParser specs active true []) cur = (LineParser specs active true cur, []) ∨
  (feeds (LineParser specs active true []) cur =
     (LineParser specs active false [], EvChar active <$> cur) ∧ dead specs cur).
Proof.
  induction cur as [|c cur IH] using rev_ind; intros Hnl; [by left|].
  apply not_elem_of_app in Hnl as [Hcur Hc]. rewrite feeds_snoc.
  assert ((c =? NL)%Z = false) as Ec by (apply Z.eqb_neq; set_solver).
  destruct (IH Hcur) as [-> | [-> Hd]]; cbn [fst snd]; unfold feed;
    cbn [detect_tag line_buffer l_specs active_tag]; rewrite Ec.
  - destruct (_ || _) eqn:E; cbn [fst snd]; [by left|right].
    apply orb_false_iff in E as [E1 E2]. split; [done|].
    apply disproved_dead; [|done]. intros He. by rewrite He in E1.
  - right. cbn [fst snd]. rewrite fmap_app. split; [done|]. by apply dead_app.
Qed.

Lemma feeds_line specs active cur :
  NL ∉ cur →
  feeds (LineParser specs active true []) (cur ++ [NL]) =
  (LineParser specs (line_events specs active (cur ++ [NL])).1 true [],
   (line_events specs active (cur ++ [NL])).2).
Proof.
  intros Hnl. rewrite feeds_snoc. destruct (feeds_partial specs active cur Hnl) as [-> | [-> Hd]];
    cbn [fst snd]; unfold feed; cbn [detect_tag line_buffer l_specs active_tag];
    rewrite Z.eqb_refl.
  - unfold finish_line. rewrite (opens_closes_line specs active true (cur ++ [NL])). cbn [line_buffer].
    destruct (opens _ _); [done|]. destruct (closes _ _); [done|].
    cbn [fst snd l_specs active_tag]. by rewrite events_push_text.
  - rewrite dead_line_events by (done || by right). cbn [fst snd].
    by rewrite fmap_app.
Qed.

Lemma finish_events p :
  events (line_finish p).2 =
  let '(active, evs) :=
    if is_empty (line_buffer p) then (active_tag p, [])
    else line_events (l_specs p) (active_tag p) (line_buffer p) in
  evs ++ match active with Some tag => [EvEnd tag] | None => [] end.
Proof.
  destruct p as [sp act det buf]. unfold line_finish. cbn [line_buffer active_tag l_specs].
  assert (∀ segs (a : option T), events (match a with
      | Some tag => push_segment segs (TagEnd tag) | None => segs end) =
    events segs ++ match a with Some tag => [EvEnd tag] | None => [] end) as Hend.
  { intros segs [tag|]; [by rewrite events_push_segment|by rewrite app_nil_r]. }
  destruct (is_empty buf); cbn [fst snd active_tag]; [apply Hend|].
  rewrite (opens_closes_line sp act det buf).
  destruct (opens _ _) as [t|]; cbn [snd active_tag]; [by rewrite !events_push_segment|].
  destruct (closes _ _) as [t|]; cbn [snd active_tag]; [by rewrite events_push_segment|].
  by rewrite Hend, events_push_text.
Qed.

(** The whole text, and the final flush. *)
Lemma feeds_text specs active text :
  (feeds (LineParser specs active true []) text).2
  ++ events (line_finish (feeds (LineParser specs active true []) text).1).2 =
  let '(active, evs) := lines_events specs active (split_inclusive NL text) in
  evs ++ match active with Some tag => [EvEnd tag] | None => [] end.
Proof.
  revert active. induction text as [text IH] using (induction_ltof1 _ length). intros active.
  destruct (decide (NL ∈ text)) as [Hin|Hin].
  - apply list_elem_of_split_l in Hin as (l & rest & -> & Hl).
    rewrite split_inclusive_line by done. cbn [lines_events].
    rewrite cons_middle, app_assoc, feeds_app, feeds_line by done. cbn [fst snd].
    destruct (line_events specs active (l ++ [NL])) as [act' evs]. cbn [fst snd].
    specialize (IH rest). rewrite <- app_assoc, IH.
    + destruct (lines_events specs act' _) as [act2 evs2]. by rewrite app_assoc.
    + unfold ltof. rewrite length_app. cbn. lia.
  - destruct (decide (text = [])) as [->|Hne].
    { cbn [feeds fst snd app]. by rewrite finish_events. }
    rewrite split_inclusive_last by done. cbn [lines_events].
    destruct (feeds_partial specs active text Hin) as [-> | [-> Hd]]; cbn [fst snd].
    + rewrite finish_events. cbn [line_buffer l_specs active_tag app].
      destruct text as [|c text]; [done|]. cbn [is_empty].
      destruct (line_events _ _ _). by rewrite app_nil_r.
    + pose proof (dead_line_events specs active text [] Hd Hin (or_introl eq_refl)) as E.
      rewrite app_nil_r in E. rewrite E, finish_events. cbn [line_buffer is_empty active_tag].
      by rewrite app_nil_r.
Qed.

End Lemmas.

(** ** Proposed plans *)

Definition OPEN_TAG : rstring := $"<proposed_plan>".
Definition CLOSE_TAG : rstring := $"</proposed_plan>".

Inductive PlanTag := ProposedPlan.
#[export] Instance PlanTag_eq_dec : EqDecision PlanTag.
Proof. solve_decision. Defined.

Inductive ProposedPlanSegment :=
| PlanNormal (s : rstring)
| ProposedPlanStart
| ProposedPlanDelta (s : rstring)
| ProposedPlanEnd.

Record ProposedPlanParser := PlanParser { plan_lines : TaggedLineParser PlanTag }.

Definition plan_specs : list (TagSpec PlanTag) := [LineTag OPEN_TAG CLOSE_TAG ProposedPlan].
Definition plan_new : ProposedPlanParser := PlanParser (new_line_parser plan_specs).

Definition map_segment (s : TaggedLineSegment PlanTag) : ProposedPlanSegment :=
  match s with
  | Normal text => PlanNormal text
  | TagStart ProposedPlan => ProposedPlanStart
  | TagDelta ProposedPlan text => ProposedPlanDelta text
  | TagEnd ProposedPlan => ProposedPlanEnd
  end.

(** [map_segments]: one loop that fills both fields of the chunk. *)
Definition map_segments (segments : list (TaggedLineSegment PlanTag))
  : StreamTextChunk ProposedPlanSegment :=
  fold_left (λ out segment,
    let mapped := map_segment segment in
    Chunk (match mapped with
           | PlanNormal text => visible_text out ++ text
           | _ => visible_text out
           end) (extracted out ++ [mapped])) segments chunk_default.

#[export] Instance Plan_parser : StreamTextParser ProposedPlanParser ProposedPlanSegment := {
  push_str p chunk :=
    let '(q, segs) := line_parse (plan_lines p) chunk in Some (PlanParser q, map_segments segs);
  finish p := let '(q, segs) := line_finish (plan_lines p) in (PlanParser q, map_segments segs);
}.

Definition strip_proposed_plan_blocks (text : rstring) : rstring :=
  let '(p, segs) := line_parse (plan_lines plan_new) text in
  visible_text (map_segments segs) ++ visible_text (map_segments (line_finish p).2).

(** The loop of [extract_proposed_plan_text]. *)
Definition collect_plan (acc : bool * rstring) (s : ProposedPlanSegment) : bool * rstring :=
  match s with
  | ProposedPlanStart => (true, [])
  | ProposedPlanDelta delta => (acc.1, acc.2 ++ delta)
  | ProposedPlanEnd | PlanNormal _ => acc
  end.

Definition extract_proposed_plan_text (text : rstring) : option rstring :=
  let '(p, segs) := line_parse (plan_lines plan_new) text in
  let '(saw_plan_block, plan_text) :=
    fold_left collect_plan
      (extracted (map_segments segs) ++ extracted (map_segments (line_finish p).2))
      (false, []) in
  if saw_plan_block then Some plan_text else None.

(** What the events of a text show, and the body of its last block. *)
Definition shown_chars (evs : list (event PlanTag)) : rstring :=
  omap (λ e, match e with EvChar None c => Some c | _ => None end) evs.

Definition plan_events (segs : list ProposedPlanSegment) : list (event PlanTag) :=
  segs ≫= λ s, match s with
               | PlanNormal text => EvChar None <$> text
               | ProposedPlanStart => [EvStart ProposedPlan]
               | ProposedPlanDelta text => EvChar (Some ProposedPlan) <$> text
               | ProposedPlanEnd => [EvEnd ProposedPlan]
               end.

Definition last_block (acc : bool * rstring) (e : event PlanTag) : bool * rstring :=
  match e with
  | EvStart _ => (true, [])
  | EvChar (Some _) c => (acc.1, acc.2 ++ [c])
  | _ => acc
  end.

(** *** Lemmas *)

Lemma map_segments_eq segs :
  map_segments segs = Chunk (shown_chars (events segs)) (map_segment <$> segs).
Proof.
  unfold map_segments. rewrite <- (chunk_append_default_l (Chunk _ _)).
  generalize (@chunk_default ProposedPlanSegment).
  induction segs as [|s segs IH]; intros o; cbn [fold_left].
  - destruct o. unfold chunk_append. cbn. by rewrite !app_nil_r.
  - rewrite IH. clear IH. unfold chunk_append. cbn [visible_text extracted].
    change (events (s :: segs)) with (seg_events s ++ events segs).
    unfold shown_chars. rewrite omap_app. cbn [fmap list_fmap]. f_equal.
    + destruct s as [text| [] | [] text| []]; cbn [map_segment seg_events]; try done.
      * rewrite <- app_assoc. do 2 f_equal. induction text as [|c text IH]; [done|].
        cbn. f_equal. apply IH.
      * f_equal. induction text; done.
    + by rewrite <- app_assoc.
Qed.

Lemma plan_events_map segs : plan_events (map_segment <$> segs) = events segs.
Proof.
  induction segs as [|s segs IH]; [done|].
  change (events (s :: segs)) with (seg_events s ++ events segs). rewrite <- IH.
  by destruct s as [text| [] | [] text| []].
Qed.

Lemma plan_events_app a b : plan_events (a ++ b) = plan_events a ++ plan_events b.
Proof. apply bind_app. Qed.

Lemma plan_push p s :
  ∃ q o, push_str p s = Some (q, o) ∧ plan_lines q = (feeds (plan_lines p) s).1 ∧
    plan_events (extracted o) = (feeds (plan_lines p) s).2 ∧
    visible_text o = shown_chars (feeds (plan_lines p) s).2.
Proof.
  cbn [push_str Plan_parser]. destruct (line_parse_feeds (plan_lines p) s) as [H1 H2].
  destruct (line_parse (plan_lines p) s) as [q segs]. cbn [fst snd] in *.
  eexists _, _. split; [done|]. rewrite map_segments_eq. cbn [visible_text extracted plan_lines].
  by rewrite plan_events_map, H1, H2.
Qed.

#[export] Program Instance Plan_laws : StreamLaws ProposedPlanParser ProposedPlanSegment := {
  good _ := True;
  payload_equiv a b := plan_events a = plan_events b;
}.
Next Obligation.
  split; intros ?; [done|by intros|]. intros ?? E1 E2. by rewrite E1.
Qed.
Next Obligation. intros a a' Ha b b' Hb. by rewrite !plan_events_app, Ha, Hb. Qed.
Next Obligation.
  intros p s _. destruct (plan_push p s) as (q & o & E & _). eauto.
Qed.
Next Obligation. by intros [p] _. Qed.
Next Obligation.
  intros p a b p1 o1 p2 o2 _ H1 H2.
  destruct (plan_push p a) as (q1 & x1 & E1 & S1 & X1 & V1). rewrite E1 in H1. simplify_eq.
  destruct (plan_push p1 b) as (q2 & x2 & E2 & S2 & X2 & V2). rewrite E2 in H2. simplify_eq.
  destruct (plan_push p (a ++ b)) as (q & x & E & Sx & Xx & Vx).
  rewrite feeds_app in Sx, Xx, Vx. rewrite <- S1 in Sx, Xx, Vx. cbn [fst snd] in *.
  exists x. rewrite E. split_and!.
  - destruct q, p2. cbn in *. by rewrite Sx, <- S2.
  - unfold shown_chars in *. by rewrite Vx, omap_app, V1, V2.
  - by rewrite Xx, plan_events_app, X1, X2.
Qed.

Lemma collect_plan_events segs acc :
  fold_left collect_plan segs acc = fold_left last_block (plan_events segs) acc.
Proof.
  revert acc. induction segs as [|s segs IH]; intros acc; [done|].
  replace (plan_events (s :: segs)) with (plan_events [s] ++ plan_events segs)
    by (by rewrite <- plan_events_app).
  rewrite fold_left_app. cbn [fold_left]. rewrite IH. f_equal.
  destruct s as [text| |text|]; cbn [plan_events mbind list_bind collect_plan];
    rewrite ?app_nil_r; try done.
  - induction text as [|c text IHt]; [done|]. cbn. apply IHt.
  - destruct acc as [saw t]. cbn [fst snd]. revert t.
    induction text as [|c text IHt]; intros t; cbn; [by rewrite app_nil_r|].
    rewrite <- IHt. by rewrite <- app_assoc.
Qed.

Lemma plan_whole_text text :
  let '(p, segs) := line_parse (plan_lines plan_new) text in
  events segs ++ events (line_finish p).2 = text_events plan_specs text.
Proof.
  destruct (line_parse_feeds (plan_lines plan_new) text) as [H1 H2].
  destruct (line_parse (plan_lines plan_new) text) as [p segs]. cbn [fst snd] in *.
  rewrite H1, H2. apply feeds_text.
Qed.

(** A stretch of lines none of which is a tag. *)
Definition no_tag_lines (text : rstring) : Prop :=
  Forall (λ l, line_slug l ≠ OPEN_TAG ∧ line_slug l ≠ CLOSE_TAG) (split_inclusive NL text).

#[export] Instance no_tag_lines_dec text : Decision (no_tag_lines text).
Proof. unfold no_tag_lines. apply _. Defined.

Lemma plain_lines_events active ls :
  Forall (λ l, line_slug l ≠ OPEN_TAG ∧ line_slug l ≠ CLOSE_TAG) ls →
  lines_events plan_specs active ls = (active, EvChar active <$> concat ls).
Proof.
  induction 1 as [|l ls [Ho Hc] _ IH]; [done|]. cbn [lines_events concat].
  assert (line_events plan_specs active l = (active, EvChar active <$> l)) as ->.
  { unfold line_events, match_open, match_close.
    rewrite !find_tag_None by (intros s ->%list_elem_of_singleton; by apply not_eq_sym).
    by destruct active. }
  rewrite IH. by rewrite fmap_app.
Qed.

Lemma plain_text_events active text :
  no_tag_lines text →
  lines_events plan_specs active (split_inclusive NL text) = (active, EvChar active <$> text).
Proof. intros H. rewrite plain_lines_events by done. by rewrite split_inclusive_concat. Qed.

Definition ends_line (text : rstring) : Prop := text = [] ∨ last text = Some NL.

Lemma split_inclusive_ends_line a b :
  ends_line a → split_inclusive NL (a ++ b) = split_inclusive NL a ++ split_inclusive NL b.
Proof.
  intros [->|[a' ->]%last_Some]; [done|]. rewrite <- app_assoc. cbn [app].
  apply split_inclusive_app_nl.
Qed.

Lemma lines_events_app active a b :
  lines_events plan_specs active (a ++ b) =
  ((lines_events plan_specs (lines_events plan_specs active a).1 b).1,
   (lines_events plan_specs active a).2
   ++ (lines_events plan_specs (lines_events plan_specs active a).1 b).2).
Proof.
  revert active. induction a as [|l a IH]; intros active; cbn [app lines_events fst snd].
  { by destruct (lines_events plan_specs active b). }
  destruct (line_events plan_specs active l) as [a1 e1]. rewrite IH.
  destruct (lines_events plan_specs a1 a) as [a2 e2]. cbn [fst snd]. by rewrite app_assoc.
Qed.

Lemma plan_block_events pre body post :
  ends_line pre → ends_line body →
  no_tag_lines pre → no_tag_lines body → no_tag_lines post →
  text_events plan_specs (pre ++ (OPEN_TAG ++ [NL]) ++ body ++ (CLOSE_TAG ++ [NL]) ++ post) =
  (EvChar None <$> pre) ++ EvStart ProposedPlan :: (EvChar (Some ProposedPlan) <$> body)
  ++ EvEnd ProposedPlan :: (EvChar None <$> post).
Proof.
  intros Hpre Hbody Np Nb Nq. unfold text_events.
  rewrite (split_inclusive_ends_line pre), (split_inclusive_ends_line (OPEN_TAG ++ [NL])),
    (split_inclusive_ends_line body), (split_inclusive_ends_line (CLOSE_TAG ++ [NL]))
    by (done || by right).
  rewrite lines_events_app, (plain_text_events None pre) by done. cbn [fst snd].
  rewrite lines_events_app.
  change (lines_events plan_specs None (split_inclusive NL (OPEN_TAG ++ [NL])))
    with (Some ProposedPlan, [@EvStart PlanTag ProposedPlan]). cbn [fst snd].
  rewrite lines_events_app, (plain_text_events (Some ProposedPlan) body) by done. cbn [fst snd].
  rewrite lines_events_app.
  change (lines_events plan_specs (Some ProposedPlan) (split_inclusive NL (CLOSE_TAG ++ [NL])))
    with (@None PlanTag, [@EvEnd PlanTag ProposedPlan]). cbn [fst snd].
  rewrite plain_text_events by done. cbn [fst snd app]. by rewrite app_nil_r.
Qed.

Lemma shown_chars_text tag text :
  shown_chars (EvChar tag <$> text) = match tag with None => text | Some _ => [] end.
Proof.
  induction text as [|c text IH]; [by destruct tag|]. unfold shown_chars in *. cbn.
  destruct tag; [done|]. f_equal. apply IH.
Qed.

Lemma last_block_text tag text acc :
  fold_left last_block (EvChar tag <$> text) acc =
  match tag with None => acc | Some _ => (acc.1, acc.2 ++ text) end.
Proof.
  revert acc. induction text as [|c text IH]; intros acc; cbn.
  - destruct tag, acc; cbn; [by rewrite app_nil_r|done].
  - rewrite IH. destruct tag; [|done]. cbn. by rewrite <- app_assoc.
Qed.

(** The plan parser from its initial state, fed in any chunks. *)
Lemma plan_run_stream chunks :
  ∃ o, run_stream plan_new chunks = Some o ∧
       plan_events (extracted o) = text_events plan_specs (concat chunks) ∧
       visible_text o = shown_chars (text_events plan_specs (concat chunks)).
Proof.
  assert (good plan_new) as Hg by exact I.
  destruct (run_stream_concat plan_new chunks Hg) as (o & o' & -> & E & [Hv Hx]).
  exists o. split; [done|]. cbn [payload_equiv Plan_laws] in Hx. rewrite Hv, Hx.
  unfold run_stream in E. cbn [push_all] in E.
  pose proof (plan_whole_text (concat chunks)) as Hw. cbn [push_str finish Plan_parser] in E.
  destruct (line_parse (plan_lines plan_new) (concat chunks)) as [p segs].
  cbn [finish plan_lines] in E. destruct (line_finish p) as [p' segs']. injection E as <-.
  rewrite chunk_append_default_r, !map_segments_eq, <- Hw.
  unfold chunk_append, shown_chars. cbn [visible_text extracted snd].
  by rewrite plan_events_app, !plan_events_map, omap_app.
Qed.

(** ** Properties *)

(** However the text is cut into chunks, the plan parser's segments
    classify every char, and report the block boundaries, exactly as reading
    the whole text line by line does; the visible text is the text outside
    the blocks. *)
Theorem plan_stream_refines chunks :
  ∃ o, run_stream plan_new chunks = Some o ∧
       plan_events (extracted o) = text_events plan_specs (concat chunks) ∧
       visible_text o = shown_chars (text_events plan_specs (concat chunks)).
Proof.
  apply plan_run_stream.
Qed.

(** A block on lines of its own is taken out whole: the visible text is
    what surrounds it and the extracted plan is its body. *)
Theorem plan_block_extracted pre body post :
  ends_line pre → ends_line body →
  no_tag_lines pre → no_tag_lines body → no_tag_lines post →
  let text := pre ++ (OPEN_TAG ++ [NL]) ++ body ++ (CLOSE_TAG ++ [NL]) ++ post in
  strip_proposed_plan_blocks text = pre ++ post ∧ extract_proposed_plan_text text = Some body.
Proof.
  intros Hpre Hbody Np Nb Nq text.
  pose proof (plan_block_events pre body post Hpre Hbody Np Nb Nq) as He. fold text in He.
  pose proof (plan_whole_text text) as Hw. rewrite He in Hw.
  unfold strip_proposed_plan_blocks, extract_proposed_plan_text.
  destruct (line_parse (plan_lines plan_new) text) as [p segs].
  rewrite !map_segments_eq. cbn [visible_text extracted].
  rewrite collect_plan_events, plan_events_app, !plan_events_map, Hw.
  unfold shown_chars at 1 2. rewrite <- omap_app, Hw. fold shown_chars. split.
  - rewrite !omap_app. pose proof shown_chars_text as Hs. unfold shown_chars in Hs.
    rewrite Hs. cbn. rewrite omap_app, Hs. cbn. by rewrite Hs.
  - rewrite fold_left_app, last_block_text. cbn [fold_left last_block].
    rewrite fold_left_app, last_block_text. cbn [fold_left last_block fst snd app].
    by rewrite last_block_text.
Qed.

Lemma plan_block_extracted_witness :
  let text := ($"Intro" ++ [NL]) ++ (OPEN_TAG ++ [NL]) ++ ($"- step one" ++ [NL])
              ++ (CLOSE_TAG ++ [NL]) ++ $"Outro" in
  strip_proposed_plan_blocks text = ($"Intro" ++ [NL]) ++ $"Outro" ∧
  extract_proposed_plan_text text = Some ($"- step one" ++ [NL]).
Proof.
  apply plan_block_extracted; [right; reflexivity|right; reflexivity|vm_decide..].
Defined.

End Tagged.
