(* ===== verification/AssistantText.v ===== *)
(** * Assistant text (utils/stream-parser/src/assistant_text.rs)

    The parser the client feeds model output to: citations are taken out
    first, and in plan mode what is left is read for plan blocks.  The theorem
    composes the contracts of the two parsers. *)

From S2P Require Import Prelude StreamText InlineTag TaggedLine.

Module Assistant.
Import Stream Inline Tagged.

Record AssistantTextChunk := AChunk {
  a_visible : rstring;
  a_citations : list rstring;
  a_plan_segments : list ProposedPlanSegment;
}.

Definition achunk_default : AssistantTextChunk := AChunk [] [] [].

Definition achunk_is_empty (c : AssistantTextChunk) : bool :=
  is_empty (a_visible c) && is_empty (a_citations c) && is_empty (a_plan_segments c).

Record AssistantTextStreamParser := AParser {
  plan_mode : bool;
  citations : CitationStreamParser;
  plan : ProposedPlanParser;
}.

(** [new]: every field but [plan_mode] from [Default]. *)
Definition assistant_new (mode : bool) : option AssistantTextStreamParser :=
  (λ c, AParser mode c plan_new) <$> citation_new.

Definition parse_visible_text (p : AssistantTextStreamParser) (visible : rstring)
  : option (AssistantTextStreamParser * AssistantTextChunk) :=
  if negb (plan_mode p) then Some (p, AChunk visible [] [])
  else match push_str (plan p) visible with
       | None => None
       | Some (plan', plan_chunk) =>
           Some (AParser (plan_mode p) (citations p) plan',
                 AChunk (visible_text plan_chunk) [] (extracted plan_chunk))
       end.

Definition assistant_push_str (p : AssistantTextStreamParser) (chunk : rstring)
  : option (AssistantTextStreamParser * AssistantTextChunk) :=
  match push_str (citations p) chunk with
  | None => None
  | Some (citations', citation_chunk) =>
      let p := AParser (plan_mode p) citations' (plan p) in
      match parse_visible_text p (visible_text citation_chunk) with
      | None => None
      | Some (p, out) =>
          Some (p, AChunk (a_visible out) (extracted citation_chunk) (a_plan_segments out))
      end
  end.

Definition assistant_finish (p : AssistantTextStreamParser)
  : option (AssistantTextStreamParser * AssistantTextChunk) :=
  let '(citations', citation_chunk) := finish (citations p) in
  let p := AParser (plan_mode p) citations' (plan p) in
  match parse_visible_text p (visible_text citation_chunk) with
  | None => None
  | Some (p, out) =>
      let '(p, out) :=
        if plan_mode p then
          let '(plan', tail) := finish (plan p) in
          let p := AParser (plan_mode p) (citations p) plan' in
          if negb (chunk_is_empty tail)
          then (p, AChunk (a_visible out ++ visible_text tail) (a_citations out)
                     (a_plan_segments out ++ extracted tail))
          else (p, out)
        else (p, out) in
      Some (p, AChunk (a_visible out) (extracted citation_chunk) (a_plan_segments out))
  end.

(** A whole stream, the outputs of its chunks and of the final flush joined. *)
Definition achunk_append (a b : AssistantTextChunk) : AssistantTextChunk :=
  AChunk (a_visible a ++ a_visible b) (a_citations a ++ a_citations b)
    (a_plan_segments a ++ a_plan_segments b).

Fixpoint assistant_push_all (p : AssistantTextStreamParser) (chunks : list rstring)
  : option (AssistantTextStreamParser * AssistantTextChunk) :=
  match chunks with
  | [] => Some (p, achunk_default)
  | c :: chunks' =>
      match assistant_push_str p c with
      | None => None
      | Some (p1, o1) =>
          match assistant_push_all p1 chunks' with
          | None => None
          | Some (p2, o2) => Some (p2, achunk_append o1 o2)
          end
      end
  end.

Definition assistant_run (mode : bool) (chunks : list rstring) : option AssistantTextChunk :=
  match assistant_new mode with
  | None => None
  | Some p =>
      match assistant_push_all p chunks with
      | None => None
      | Some (p, o) =>
          match assistant_finish p with
          | None => None
          | Some (_, tail) => Some (achunk_append o tail)
          end
      end
  end.

Example assistant_run_ex :
  assistant_run true
    [ $"Intro" ++ [NL] ++ $"<prop"; $"osed_plan>" ++ [NL] ++ $"a<oai-mem-cit"; $"ation>x</oai-mem-citation>";
      [NL] ++ $"</proposed_plan>" ++ [NL] ++ $"end"] =
  Some (AChunk ($"Intro" ++ [NL] ++ $"end") [ $"x"]
    [PlanNormal ($"Intro" ++ [NL]); ProposedPlanStart; ProposedPlanDelta $"a";
     ProposedPlanDelta [NL]; ProposedPlanEnd; PlanNormal $"end"]).
Proof. vm_compute. reflexivity. Qed.

(** ** Lemmas *)

Lemma plan_push_all pl vs : ∃ pl' op, push_all pl vs = Some (pl', op).
Proof.
  assert (good pl) as Hg by exact I.
  destruct (push_all_concat pl vs Hg) as (pl' & op & _ & H & _). eauto.
Qed.

(** The final flush of a plan parser that has seen the pieces [vs]. *)
Lemma plan_finish_after vs pl op t :
  push_all plan_new vs = Some (pl, op) →
  ∃ pl' op', push_str pl t = Some (pl', op') ∧
    let o := chunk_append op (chunk_append op' (finish pl').2) in
    plan_events (extracted o) = text_events plan_specs (concat vs ++ t) ∧
    visible_text o = shown_chars (text_events plan_specs (concat vs ++ t)).
Proof.
  intros H. destruct (plan_push pl t) as (pl' & op' & Ht & _). exists pl', op'. split; [done|].
  destruct (plan_run_stream (vs ++ [t])) as (o & Hr & He & Hv).
  assert (push_all pl [t] = Some (pl', op')) as Ht'.
  { cbn [push_all]. rewrite Ht. by rewrite chunk_append_default_r. }
  unfold run_stream in Hr. rewrite (push_all_app _ _ _ _ _ _ _ H Ht') in Hr. injection Hr as <-.
  rewrite concat_app in He, Hv. cbn [concat] in He, Hv. rewrite app_nil_r in He, Hv.
  rewrite chunk_append_assoc. done.
Qed.

(** Appending an empty tail or skipping it is the same. *)
Lemma append_tail (p : AssistantTextStreamParser) v c x (tail : StreamTextChunk ProposedPlanSegment) :
  (if negb (chunk_is_empty tail)
   then (p, AChunk (v ++ visible_text tail) c (x ++ extracted tail)) else (p, AChunk v c x)) =
  (p, AChunk (v ++ visible_text tail) c (x ++ extracted tail)).
Proof. destruct tail as [[] []]; cbn; by rewrite ?app_nil_r. Qed.

(** Both parsers see consistent streams: the plan parser is fed the visible
    pieces of the citation parser. *)
Lemma assistant_push_all_split mode c pl chunks c' oc :
  push_all c chunks = Some (c', oc) →
  ∃ vs pl' op, concat vs = visible_text oc ∧ push_all pl vs = Some (pl', op) ∧
    assistant_push_all (AParser mode c pl) chunks =
    Some (AParser mode c' (if mode then pl' else pl),
          AChunk (if mode then visible_text op else concat vs) (extracted oc)
            (if mode then extracted op else [])).
Proof.
  revert c pl oc. induction chunks as [|t chunks IH]; intros c pl oc H; cbn [push_all] in H.
  { injection H as <- <-. exists [], pl, chunk_default. split_and!; [done..|]. by destruct mode. }
  destruct (push_str c t) as [[c1 o1]|] eqn:Ec; [|done].
  destruct (push_all c1 chunks) as [[c2 o2]|] eqn:Er; [|done]. injection H as <- <-.
  destruct (plan_push pl (visible_text o1)) as (pl1 & op1 & Ep & _).
  destruct (IH c1 (if mode then pl1 else pl) o2 Er) as (vs & pl2 & op2 & Hvs & Hp & Ha).
  destruct mode.
  - exists (visible_text o1 :: vs), pl2, (chunk_append op1 op2). cbn [concat push_all].
    rewrite Hvs, Ep, Hp. split_and!; [done..|]. cbn [assistant_push_all]. unfold assistant_push_str.
    cbn [plan_mode citations plan]. rewrite Ec. unfold parse_visible_text. cbn [plan_mode negb plan citations].
    rewrite Ep, Ha. done.
  - destruct (plan_push_all pl (visible_text o1 :: vs)) as (pl' & op & Hall).
    exists (visible_text o1 :: vs), pl', op. cbn [concat]. rewrite Hvs.
    split_and!; [done..|]. cbn [assistant_push_all]. unfold assistant_push_str.
    cbn [plan_mode citations plan]. rewrite Ec. unfold parse_visible_text. cbn [plan_mode negb].
    rewrite Ha, Hvs. done.
Qed.

(** ** Properties *)

(** C23: for any chunks, the assistant text parser returns the citations of the
    whole text, and the visible text and plan segments are those of the text
    without its citations: read as a plan in plan mode, untouched otherwise. *)
Theorem assistant_stream_refines mode chunks :
  ∃ o vis cites,
    assistant_run mode chunks = Some o ∧
    strip_citations (concat chunks) = Some (vis, cites) ∧
    a_citations o = cites ∧
    a_visible o = (if mode then shown_chars (text_events plan_specs vis) else vis) ∧
    plan_events (a_plan_segments o) = (if mode then text_events plan_specs vis else []).
Proof.
  destruct (citation_run_stream chunks) as (c & vis & cites & ext & Hn & Hs & Hr & _ & _).
  unfold run_stream in Hr. destruct (push_all c chunks) as [[c1 oc]|] eqn:Ec; [|done].
  unfold assistant_run, assistant_new. rewrite Hn. cbn [fmap option_fmap option_map].
  destruct (assistant_push_all_split mode c plan_new chunks c1 oc Ec)
    as (vs & pl & op & Hvs & Hp & ->).
  unfold assistant_finish. cbn [plan_mode citations plan].
  destruct (finish c1) as [c2 ot]. injection Hr as Hv Hx. cbn [snd] in Hv, Hx.
  destruct (plan_finish_after vs pl op (visible_text ot) Hp) as (pl' & op' & Ht & He & Hsh).
  rewrite Hvs, Hv in He, Hsh. unfold parse_visible_text. cbn [plan_mode plan citations].
  destruct mode; cbn [negb].
  - rewrite Ht. cbn [plan_mode plan citations]. destruct (finish pl') as [pl2 tail].
    cbn [a_visible a_citations a_plan_segments]. rewrite append_tail.
    eexists _, vis, cites. split_and!; [done..|by rewrite <- Hx|exact Hsh|exact He].
  - eexists _, vis, cites. split_and!; [done..|by rewrite <- Hx| |done].
    cbn. by rewrite Hvs.
Qed.

End Assistant.
