(* ===== verification/Utf8Stream.v ===== *)
(** * Streaming raw bytes (utils/stream-parser/src/utf8_stream.rs)

    [Utf8StreamParser] decodes bytes for an inner text parser, holding back a
    code point that is still incomplete.  [from_utf8] is the standard
    library's validation, with the error positions the code looks at.  The
    wrapper is proved against the interface [StreamLaws] of the inner parser:
    cutting valid UTF-8 anywhere changes nothing, and bytes that are rejected
    leave no trace. *)

From Stdlib Require Import ZifyBool.
From S2P Require Import Prelude StreamText InlineTag.

Module Utf8.
Import Stream.

(** ** [std::str::from_utf8] *)

Abbreviation byte := Z (only parsing).

Inductive head :=
| HEnd                        (* no bytes *)
| HChar (c : char) (n : nat)  (* a code point and its length *)
| HBad (n : nat)              (* an invalid sequence of [n] bytes *)
| HShort.                     (* a valid start that ends too early *)

Definition in_range (lo hi b : Z) : bool := (lo <=? b)%Z && (b <=? hi)%Z.
Definition is_cont (b : byte) : bool := in_range 128 191 b.
Definition low6 (b : byte) : Z := Z.land b 63.

(** What the second byte may be after a first byte of three or four. *)
Definition second_ok (b0 b1 : byte) : bool :=
  if (b0 =? 224)%Z then in_range 160 191 b1
  else if (b0 =? 237)%Z then in_range 128 159 b1
  else if (b0 =? 240)%Z then in_range 144 191 b1
  else if (b0 =? 244)%Z then in_range 128 143 b1
  else is_cont b1.

Definition decode_head (bs : list byte) : head :=
  match bs with
  | [] => HEnd
  | b0 :: r0 =>
      if (b0 <? 128)%Z then HChar b0 1
      else if in_range 194 223 b0 then
        match r0 with
        | [] => HShort
        | b1 :: _ =>
            if is_cont b1 then HChar (Z.lor (Z.shiftl (Z.land b0 31) 6) (low6 b1)) 2
            else HBad 1
        end
      else if in_range 224 239 b0 then
        match r0 with
        | [] => HShort
        | b1 :: r1 =>
            if negb (second_ok b0 b1) then HBad 1
            else match r1 with
                 | [] => HShort
                 | b2 :: _ =>
                     if is_cont b2
                     then HChar (Z.lor (Z.shiftl (Z.land b0 15) 12)
                                   (Z.lor (Z.shiftl (low6 b1) 6) (low6 b2))) 3
                     else HBad 2
                 end
        end
      else if in_range 240 244 b0 then
        match r0 with
        | [] => HShort
        | b1 :: r1 =>
            if negb (second_ok b0 b1) then HBad 1
            else match r1 with
                 | [] => HShort
                 | b2 :: r2 =>
                     if negb (is_cont b2) then HBad 2
                     else match r2 with
                          | [] => HShort
                          | b3 :: _ =>
                              if is_cont b3
                              then HChar (Z.lor (Z.shiftl (Z.land b0 7) 18)
                                     (Z.lor (Z.shiftl (low6 b1) 12)
                                        (Z.lor (Z.shiftl (low6 b2) 6) (low6 b3)))) 4
                              else HBad 3
                          end
                 end
        end
      else HBad 1
  end.

Inductive status := Done | Bad (n : nat) | Short.

(** The decoded prefix, its length in bytes, and why it ends there.  A code
    point takes at least one byte, so as many rounds as bytes are enough. *)
Fixpoint scan (fuel : nat) (bs : list byte) : rstring * nat * status :=
  match fuel with
  | O => ([], 0, Done)
  | S fuel' =>
      match decode_head bs with
      | HEnd => ([], 0, Done)
      | HShort => ([], 0, Short)
      | HBad n => ([], 0, Bad n)
      | HChar c n =>
          let '(text, valid, st) := scan fuel' (drop n bs) in (c :: text, n + valid, st)
      end
  end.
Definition decode_prefix (bs : list byte) : rstring * nat * status := scan (length bs) bs.

Record Utf8Error := { err_valid_up_to : nat; err_error_len : option nat }.

Definition from_utf8 (bs : list byte) : result rstring Utf8Error :=
  match decode_prefix bs with
  | (text, _, Done) => Ok text
  | (_, valid, Bad n) => Err {| err_valid_up_to := valid; err_error_len := Some n |}
  | (_, valid, Short) => Err {| err_valid_up_to := valid; err_error_len := None |}
  end.

(** ** The wrapper *)

Inductive Utf8StreamParserError :=
| InvalidUtf8 (valid_up_to error_len : nat)
| IncompleteUtf8AtEof.

Definition display_error (e : Utf8StreamParserError) : rstring :=
  match e with
  | InvalidUtf8 v n =>
      $"invalid UTF-8 in streamed bytes at offset " ++ show_nat v ++ $" (error length "
      ++ show_nat n ++ $")"
  | IncompleteUtf8AtEof => $"incomplete UTF-8 code point at end of stream"
  end.

Record Utf8StreamParser (P : Type) := Utf8Parser { u_inner : P; pending_utf8 : list byte }.
Arguments Utf8Parser {P}.
Arguments u_inner {P}.
Arguments pending_utf8 {P}.

Section Wrapper.
Context {P X} `{StreamTextParser P X}.
Abbreviation parser := (Utf8StreamParser P).
Abbreviation answer := (result (StreamTextChunk X) Utf8StreamParserError).

Definition utf8_new (inner : P) : parser := Utf8Parser inner [].

(** [None] only when the inner parser fails. *)
Definition push_bytes (p : parser) (chunk : list byte) : option (parser * answer) :=
  let old_len := length (pending_utf8 p) in
  let pending := pending_utf8 p ++ chunk in
  match from_utf8 pending with
  | Ok text =>
      match push_str (u_inner p) text with
      | Some (inner, out) => Some (Utf8Parser inner [], Ok out)
      | None => None
      end
  | Err err =>
      match err_error_len err with
      | Some error_len =>
          Some (Utf8Parser (u_inner p) (take old_len pending),
                Err (InvalidUtf8 (err_valid_up_to err) error_len))
      | None =>
          let valid_up_to := err_valid_up_to err in
          if valid_up_to =? 0 then Some (Utf8Parser (u_inner p) pending, Ok chunk_default)
          else
            match from_utf8 (take valid_up_to pending) with
            | Ok text =>
                match push_str (u_inner p) text with
                | Some (inner, out) => Some (Utf8Parser inner (drop valid_up_to pending), Ok out)
                | None => None
                end
            | Err prefix_err =>
                Some (Utf8Parser (u_inner p) (take old_len pending),
                      Err (InvalidUtf8 (err_valid_up_to prefix_err)
                             (default 0 (err_error_len prefix_err))))
            end
      end
  end.

Definition utf8_finish (p : parser) : option (parser * answer) :=
  let pending := pending_utf8 p in
  let flush (p : parser) (out : StreamTextChunk X) :=
    let '(inner, tail) := finish (u_inner p) in
    Some (Utf8Parser inner (pending_utf8 p), Ok (chunk_append out tail)) in
  if is_empty pending then flush p chunk_default
  else
    match from_utf8 pending with
    | Err err =>
        Some (p, Err match err_error_len err with
                     | Some error_len => InvalidUtf8 (err_valid_up_to err) error_len
                     | None => IncompleteUtf8AtEof
                     end)
    | Ok text =>
        match push_str (u_inner p) text with
        | Some (inner, out) => flush (Utf8Parser inner []) out
        | None => None
        end
    end.

Definition into_inner (p : parser) : result P Utf8StreamParserError :=
  if is_empty (pending_utf8 p) then Ok (u_inner p)
  else match from_utf8 (pending_utf8 p) with
       | Ok _ => Ok (u_inner p)
       | Err err =>
           Err match err_error_len err with
               | Some error_len => InvalidUtf8 (err_valid_up_to err) error_len
               | None => IncompleteUtf8AtEof
               end
       end.

Definition into_inner_lossy (p : parser) : P := u_inner p.

(** A client that feeds every chunk and stops at the first error. *)
Fixpoint push_bytes_all (p : parser) (chunks : list (list byte))
  : option (parser * answer) :=
  match chunks with
  | [] => Some (p, Ok chunk_default)
  | c :: chunks' =>
      match push_bytes p c with
      | Some (p1, Ok o1) =>
          match push_bytes_all p1 chunks' with
          | Some (p2, Ok o2) => Some (p2, Ok (chunk_append o1 o2))
          | r => r
          end
      | r => r
      end
  end.

Definition run_bytes (p : parser) (chunks : list (list byte)) : option answer :=
  match push_bytes_all p chunks with
  | Some (p', Ok o) =>
      match utf8_finish p' with
      | Some (_, Ok tail) => Some (Ok (chunk_append o tail))
      | Some (_, Err e) => Some (Err e)
      | None => None
      end
  | Some (_, Err e) => Some (Err e)
  | None => None
  end.
End Wrapper.

(** "é", "€" and "😀", a lone continuation byte, and a cut code point. *)
Example from_utf8_ex :
  from_utf8 [97; 195; 169; 226; 130; 172; 240; 159; 152; 128]%Z = Ok [97; 233; 8364; 128512]%Z ∧
  from_utf8 [97; 128]%Z = Err {| err_valid_up_to := 1; err_error_len := Some 1 |} ∧
  from_utf8 [97; 226; 130]%Z = Err {| err_valid_up_to := 1; err_error_len := None |} ∧
  from_utf8 [237; 160; 128]%Z = Err {| err_valid_up_to := 0; err_error_len := Some 1 |}.
Proof. vm_compute. done. Qed.

(** ** Lemmas: decoding a text in two pieces *)

Ltac head_cases :=
  repeat match goal with
    | |- context [if ?b then _ else _] => destruct b eqn:?
    | |- context [match ?l with [] => _ | _ :: _ => _ end] => destruct l
    end.

Lemma decode_head_app bs more :
  match decode_head bs with
  | HEnd => bs = []
  | HChar c n => decode_head (bs ++ more) = HChar c n ∧ 1 ≤ n ≤ length bs
  | HBad n => decode_head (bs ++ more) = HBad n
  | HShort => bs ≠ []
  end.
Proof.
  unfold decode_head. destruct bs as [|b0 bs]; [done|]. cbn [app].
  destruct bs as [|b1 bs]; [head_cases; cbn [length]; (done || (split; [done|lia]))|].
  destruct bs as [|b2 bs]; [cbn [app]; head_cases; cbn [length]; (done || (split; [done|lia]))|].
  destruct bs as [|b3 bs]; cbn [app]; head_cases; cbn [length]; (done || (split; [done|lia])).
Qed.

Lemma decode_head_take bs :
  match decode_head bs with
  | HChar c n => decode_head (take n bs) = HChar c n
  | _ => True
  end.
Proof.
  unfold decode_head at 1.
  destruct bs as [|b0 [|b1 [|b2 [|b3 bs]]]]; [done|..]; head_cases; try exact I;
    unfold decode_head; cbn [take];
    repeat match goal with H : ?b = _ |- context [?b] => rewrite H end; done.
Qed.

Lemma decode_head_prefix bs c n x :
  decode_head bs = HChar c n → decode_head (take n bs ++ x) = HChar c n.
Proof.
  intros E. pose proof (decode_head_take bs) as Hd. rewrite E in Hd.
  pose proof (decode_head_app (take n bs) x) as Hh. rewrite Hd in Hh. by destruct Hh.
Qed.

Lemma scan_fuel f1 f2 bs : length bs ≤ f1 → length bs ≤ f2 → scan f1 bs = scan f2 bs.
Proof.
  revert f2 bs. induction f1 as [|f1 IH]; intros f2 bs H1 H2.
  { destruct bs; [|cbn in H1; lia]. by destruct f2. }
  destruct f2 as [|f2]; [destruct bs; [done|cbn in H2; lia]|].
  cbn [scan]. pose proof (decode_head_app bs []) as Hh.
  destruct (decode_head bs) as [|c n| |]; [done| |done..]. destruct Hh as [_ Hn].
  rewrite (IH f2); [done|rewrite length_drop; lia..].
Qed.

Lemma decode_eq bs :
  decode_prefix bs =
  match decode_head bs with
  | HEnd => ([], 0, Done)
  | HShort => ([], 0, Short)
  | HBad n => ([], 0, Bad n)
  | HChar c n => let '(text, valid, st) := decode_prefix (drop n bs) in (c :: text, n + valid, st)
  end.
Proof.
  unfold decode_prefix. destruct bs as [|b bs]; [done|]. cbn [length scan].
  pose proof (decode_head_app (b :: bs) []) as Hh.
  destruct (decode_head (b :: bs)) as [|c n| |]; [done| |done..]. destruct Hh as [_ Hn].
  cbn [length] in Hn. rewrite (scan_fuel (length bs) (length (drop n (b :: bs)))); [done| |done].
  rewrite length_drop. cbn [length]. lia.
Qed.

(** What has been decoded stays decoded; an error stays an error; otherwise
    decoding resumes at the bytes held back. *)
Lemma decode_app a b text valid st :
  decode_prefix a = (text, valid, st) →
  valid ≤ length a ∧
  match st with
  | Bad n => decode_prefix (a ++ b) = (text, valid, Bad n)
  | _ =>
      (st = Done ↔ valid = length a) ∧
      decode_prefix (take valid a) = (text, valid, Done) ∧
      decode_prefix (a ++ b) =
        let '(text', valid', st') := decode_prefix (drop valid a ++ b) in
        (text ++ text', valid + valid', st')
  end.
Proof.
  revert text valid st. induction a as [a IH] using (induction_ltof1 _ length).
  intros text valid st. rewrite (decode_eq a), (decode_eq (a ++ b)).
  pose proof (decode_head_app a b) as Hh. destruct (decode_head a) as [|c n|n|] eqn:E.
  - subst a. intros [= <- <- <-]. split; [cbn; lia|]. split_and!; [done..|].
    cbn [app drop]. rewrite <- decode_eq. by destruct (decode_prefix b) as [[??]?].
  - destruct Hh as [-> Hn]. destruct (decode_prefix (drop n a)) as [[t v] s] eqn:Ed.
    intros [= <- <- <-]. specialize (IH (drop n a)).
    destruct (IH ltac:(unfold ltof; rewrite length_drop; lia) _ _ _ Ed) as [Hv Hs].
    rewrite length_drop in Hv. split; [lia|].
    rewrite drop_app_le by lia.
    assert (∀ t' v', decode_prefix (take v (drop n a)) = (t', v', Done) →
      decode_prefix (take (n + v) a) = (c :: t', n + v', Done)) as Htake.
    { intros t' v' Ht. rewrite decode_eq.
      replace (take (n + v) a) with (take n a ++ take v (drop n a))
        by (by rewrite take_take_drop).
      rewrite (decode_head_prefix _ _ _ _ E).
      rewrite drop_app_length' by (rewrite length_take; lia). by rewrite Ht. }
    destruct s; [destruct Hs as (Hd & Ht & Hr)|by rewrite Hs|destruct Hs as (Hd & Ht & Hr)];
      rewrite length_drop in Hd; rewrite Hr, <- drop_drop;
      (split_and!; [split; [intros Hx; apply Hd in Hx; lia|intros Hx; apply Hd; lia]
                   |by apply Htake
                   |destruct (decode_prefix (drop v (drop n a) ++ b)) as [[??]?]; cbn; by rewrite Nat.add_assoc]).
  - intros [= <- <- <-]. rewrite Hh. split; [lia|done].
  - intros [= <- <- <-]. split; [lia|]. split_and!.
    + split; [done|]. destruct a; done.
    + done.
    + rewrite <- decode_eq, drop_0. by destruct (decode_prefix (a ++ b)) as [[??]?].
Qed.

(** ** Lemmas: the wrapper over a lawful parser *)

Section Laws.
Context {P X} `{StreamLaws P X}.
Implicit Types (p : Utf8StreamParser P).

(** Bytes that are held back are an incomplete code point. *)
Definition held_back (bs : list byte) : Prop := bs = [] ∨ (decode_prefix bs).2 = Short.

Lemma decode_resume a b text total :
  decode_prefix (a ++ b) = (text, total, Done) →
  ∃ t v st text' total', decode_prefix a = (t, v, st) ∧
    from_utf8 a = (match st with
                   | Done => Ok t
                   | _ => Err {| err_valid_up_to := v; err_error_len := None |}
                   end) ∧
    from_utf8 (take v a) = Ok t ∧ (v = 0 → t = []) ∧
    text = t ++ text' ∧ decode_prefix (drop v a ++ b) = (text', total', Done) ∧
    held_back (drop v a) ∧ (st = Done → drop v a = []).
Proof.
  intros Hw. destruct (decode_prefix a) as [[t v] st] eqn:Ea.
  destruct (decode_app a b t v st Ea) as [Hv Hs].
  destruct (decode_app a [] t v st Ea) as [_ Hn].
  destruct st as [|n|]; [|congruence|].
  - destruct Hs as (Hd & Ht & Hr). assert (v = length a) as -> by (by apply Hd).
    rewrite take_ge, drop_ge in * by lia.
    destruct (decode_prefix ([] ++ b)) as [[text' total'] st'] eqn:Eb.
    rewrite Hr in Hw. injection Hw as <- _ ->.
    exists t, (length a), Done, text', total'. unfold from_utf8. rewrite Ea, drop_ge, take_ge, Ea by lia.
    split_and!; try done; [|by left]. intros ->%length_zero_iff_nil. by injection Ea.
  - destruct Hs as (Hd & Ht & Hr). destruct Hn as (_ & _ & Hr').
    destruct (decode_prefix (drop v a ++ b)) as [[text' total'] st'] eqn:Eb.
    rewrite Hr in Hw. injection Hw as <- _ ->.
    exists t, v, Short, text', total'. unfold from_utf8. rewrite Ea, Ht.
    split_and!; try done.
    + intros ->. cbn in Ht. by injection Ht.
    + right. rewrite !app_nil_r, Ea in Hr'.
      destruct (decode_prefix (drop v a)) as [[??]?]. by injection Hr'.
Qed.

Lemma push_bytes_valid p chunk more text total :
  good (u_inner p) → held_back (pending_utf8 p) →
  decode_prefix (pending_utf8 p ++ chunk ++ more) = (text, total, Done) →
  ∃ p' o ts text' total', push_bytes p chunk = Some (p', Ok o) ∧
    push_all (u_inner p) ts = Some (u_inner p', o) ∧ good (u_inner p') ∧
    held_back (pending_utf8 p') ∧ text = concat ts ++ text' ∧
    decode_prefix (pending_utf8 p' ++ more) = (text', total', Done).
Proof.
  intros Hg Hh Hw. rewrite app_assoc in Hw.
  destruct (decode_resume _ _ _ _ Hw) as (t & v & st & text' & total' & Ea & Hf & Ht & Hz & Htx & Hr & Hb & Hd).
  destruct (push_good (u_inner p) t Hg) as (q & o & Hq & Hgq).
  assert (push_all (u_inner p) [t] = Some (q, o)) as Hall.
  { cbn [push_all]. rewrite Hq. by rewrite chunk_append_default_r. }
  unfold push_bytes. rewrite Hf. destruct st as [|n|]; cbn [err_error_len err_valid_up_to].
  - rewrite Hq. exists (Utf8Parser q []), o, [t], text', total'.
    rewrite (Hd eq_refl) in Hr. cbn. rewrite app_nil_r. split_and!; try done. by left.
  - unfold from_utf8 in Hf. rewrite Ea in Hf. done.
  - destruct (Nat.eqb_spec v 0) as [->|Hv].
    + exists (Utf8Parser (u_inner p) (pending_utf8 p ++ chunk)), chunk_default, [], text', total'.
      rewrite drop_0 in *. split_and!; try done. by rewrite Htx, Hz.
    + rewrite Ht, Hq. exists (Utf8Parser q (drop v (pending_utf8 p ++ chunk))), o, [t], text', total'.
      cbn [concat]. rewrite app_nil_r. split_and!; done.
Qed.

Lemma push_bytes_all_valid p chunks text total :
  good (u_inner p) → held_back (pending_utf8 p) →
  decode_prefix (pending_utf8 p ++ concat chunks) = (text, total, Done) →
  ∃ q o ts, push_bytes_all p chunks = Some (Utf8Parser q [], Ok o) ∧
    push_all (u_inner p) ts = Some (q, o) ∧ text = concat ts.
Proof.
  revert p text total. induction chunks as [|c chunks IH]; intros p text total Hg Hh Hw.
  - cbn [concat push_bytes_all] in *. rewrite app_nil_r in Hw.
    destruct Hh as [He|Hs]; [|by rewrite Hw in Hs].
    destruct p as [q pend]. cbn in *. subst pend. injection Hw as <- _.
    by exists q, chunk_default, [].
  - cbn [concat push_bytes_all] in *.
    destruct (push_bytes_valid p c (concat chunks) text total Hg Hh Hw)
      as (p1 & o1 & ts1 & text' & total' & -> & H1 & Hg1 & Hh1 & -> & Hw1).
    destruct (IH p1 text' total' Hg1 Hh1 Hw1) as (q & o2 & ts2 & -> & H2 & ->).
    exists q, (chunk_append o1 o2), (ts1 ++ ts2).
    rewrite concat_app. split_and!; [done|by eapply push_all_app|done].
Qed.

(** ** Properties *)

(** For any parser that keeps the streaming laws, feeding the bytes of a
    valid UTF-8 text, cut anywhere and also inside code points, reports no
    error and gives what feeding the decoded text at once gives. *)
Theorem utf8_stream_refines inner chunks text :
  good inner → from_utf8 (concat chunks) = Ok text →
  ∃ o o', run_bytes (utf8_new inner) chunks = Some (Ok o) ∧
          run_stream inner [text] = Some o' ∧ chunk_equiv o o'.
Proof.
  intros Hg Hf. unfold from_utf8 in Hf.
  destruct (decode_prefix (concat chunks)) as [[t total] st] eqn:Ed.
  destruct st; simplify_eq.
  destruct (push_bytes_all_valid (utf8_new inner) chunks text total Hg (or_introl eq_refl) Ed)
    as (q & o & ts & Hb & Hp & ->).
  destruct (run_stream_concat inner ts Hg) as (o1 & o2 & Hr & Hr2 & Heq).
  unfold run_bytes. rewrite Hb. unfold utf8_finish. cbn [pending_utf8 is_empty u_inner].
  unfold run_stream in Hr. cbn [u_inner utf8_new] in Hp. rewrite Hp in Hr.
  destruct (finish q) as [q' tail]. injection Hr as <-.
  eexists _, o2. split_and!; [done..|]. by rewrite chunk_append_default_l.
Qed.

(** A chunk that is refused changes nothing: the inner parser has not seen
    any of it and the bytes held back are the ones from before; it is refused
    only when it makes the buffered bytes invalid, never for being cut. *)
Theorem utf8_error_rolls_back p chunk p' e :
  push_bytes p chunk = Some (p', Err e) →
  p' = p ∧ ∃ v n, e = InvalidUtf8 v n ∧
    from_utf8 (pending_utf8 p ++ chunk) =
      Err {| err_valid_up_to := v; err_error_len := Some n |}.
Proof.
  unfold push_bytes. destruct (from_utf8 (pending_utf8 p ++ chunk)) as [t|[v [n|]]] eqn:Ef;
    cbn [err_error_len err_valid_up_to].
  - by destruct (push_str (u_inner p) t) as [[??]|].
  - intros [= <- <-]. rewrite take_app_length. destruct p. split; [done|eauto].
  - destruct (v =? 0); [done|].
    assert (∃ t, from_utf8 (take v (pending_utf8 p ++ chunk)) = Ok t) as [t ->].
    { unfold from_utf8 in *. destruct (decode_prefix (_ ++ _)) as [[t v'] st] eqn:Ed.
      pose proof (decode_app _ [] _ _ _ Ed) as [_ Hs].
      destruct st; simplify_eq. destruct Hs as (_ & -> & _). eauto. }
    by destruct (push_str (u_inner p) t) as [[??]|].
Qed.
End Laws.

Import Inline.

(** The citation parser fed the bytes of "é<oai-mem-citation>x", the first
    code point cut in two. *)
Definition demo_bytes : list (list byte) :=
  [[195]; [169; 60; 111]; lit "ai-mem-citation>x"]%Z.

Lemma utf8_stream_refines_witness :
  ∃ o o', run_bytes (utf8_new (CitationParser (Parser citation_specs [] None))) demo_bytes
            = Some (Ok o) ∧
          run_stream (CitationParser (Parser citation_specs [] None))
            [233%Z :: lit "<oai-mem-citation>x"] = Some o' ∧ chunk_equiv o o'.
Proof.
  apply utf8_stream_refines; [|vm_compute; reflexivity].
  destruct citation_new_good as (p & Hn & Hg & ->). exact Hg.
Defined.

Lemma utf8_error_rolls_back_witness :
  let p := Utf8Parser (CitationParser (Parser citation_specs [] None)) [195]%Z in
  p = p ∧ ∃ v n, InvalidUtf8 0 1 = InvalidUtf8 v n ∧
    from_utf8 (pending_utf8 p ++ [65]%Z) = Err {| err_valid_up_to := v; err_error_len := Some n |}.
Proof.
  intros p. apply (utf8_error_rolls_back p [65]%Z). vm_compute. reflexivity.
Defined.

End Utf8.
