(* ===== verification/ShellScript.v ===== *)
(** * Reading shell scripts (shell-command/src/bash.rs, shell_detect.rs)

    The tree-sitter grammar is a library: [try_parse_shell] is a parameter that
    turns a script into a syntax tree, and the functions here read the tree.
    The theorem on [try_parse_word_only_commands_sequence] says that it accepts
    exactly the trees all of whose nodes are allowed and all of whose commands
    are plain words, and that it then returns all the commands in source
    order. *)

From Stdlib Require Import ZifyBool.
From S2P Require Import Prelude AbsPath.

Module Shell.
#[local] Existing Instance Path.Component_eq_dec.
(** ** Shell detection *)

Inductive ShellType := Zsh | Bash | PowerShell | Sh | Cmd.
#[export] Instance ShellType_eq_dec : EqDecision ShellType.
Proof. solve_decision. Defined.

(** [Path::file_stem]: the file name without its last extension; a name whose
    only dot is its first char has none. *)
Definition file_stem (p : rstring) : option rstring :=
  match Path.file_name p with
  | None => None
  | Some name =>
      match rsplit_once 46%Z name with
      | Some (before, _) => if is_empty before then Some name else Some before
      | None => Some name
      end
  end.

(** The recursion drops an extension each time; as many rounds as the path has
    chars, and one, are enough. *)
Fixpoint detect_shell_type_fuel (fuel : nat) (shell_path : rstring) : option ShellType :=
  match fuel with
  | O => None
  | S fuel' =>
      if shell_path =?s $"zsh" then Some Zsh
      else if shell_path =?s $"sh" then Some Sh
      else if shell_path =?s $"cmd" then Some Cmd
      else if shell_path =?s $"bash" then Some Bash
      else if shell_path =?s $"pwsh" then Some PowerShell
      else if shell_path =?s $"powershell" then Some PowerShell
      else match file_stem shell_path with
           | Some shell_name =>
               if bool_decide (Path.components shell_name ≠ Path.components shell_path)
               then detect_shell_type_fuel fuel' shell_name else None
           | None => None
           end
  end.
Definition detect_shell_type (shell_path : rstring) : option ShellType :=
  detect_shell_type_fuel (S (length shell_path)) shell_path.

(** ** Syntax trees *)

Inductive node :=
| Node (kind : rstring) (is_named : bool) (start_byte : nat) (utf8_text : option rstring)
       (children : list node).

Definition kind (n : node) : rstring := let '(Node k _ _ _ _) := n in k.
Definition is_named (n : node) : bool := let '(Node _ b _ _ _) := n in b.
Definition start_byte (n : node) : nat := let '(Node _ _ s _ _) := n in s.
Definition utf8_text (n : node) : option rstring := let '(Node _ _ _ t _) := n in t.
Definition children (n : node) : list node := let '(Node _ _ _ _ cs) := n in cs.
Definition named_children (n : node) : list node := List.filter is_named (children n).

Record tree := { root_node : node; has_error : bool }.

Definition ALLOWED_KINDS : list rstring :=
  [ $"program"; $"list"; $"pipeline"; $"command"; $"command_name"; $"word"; $"string";
    $"string_content"; $"raw_string"; $"number"; $"concatenation"].
Definition DQUOTE : char := 34%Z.
Definition SQUOTE : char := 39%Z.
Definition ALLOWED_PUNCT_TOKENS : list rstring :=
  [ $"&&"; $"||"; $";"; $"|"; [DQUOTE]; [SQUOTE]].

(** The checks on one node of the walk; a rejected node ends it. *)
Definition node_allowed (n : node) : bool :=
  if is_named n then str_in (kind n) ALLOWED_KINDS
  else if existsb (λ c, contains_char c $"&;|") (kind n) && negb (str_in (kind n) ALLOWED_PUNCT_TOKENS)
  then false
  else str_in (kind n) ALLOWED_PUNCT_TOKENS || is_empty (trim (kind n)).

Inductive walk_result := Rejected | Collected (commands : list node) | OutOfFuel.

(** The [while let Some(node) = stack.pop()] loop; the top of the stack first. *)
Fixpoint walk (fuel : nat) (stack command_nodes : list node) : walk_result :=
  match fuel, stack with
  | _, [] => Collected command_nodes
  | O, _ => OutOfFuel
  | S fuel', n :: stack' =>
      if negb (node_allowed n) then Rejected
      else
        let command_nodes :=
          if is_named n && (kind n =?s $"command") then command_nodes ++ [n]
          else command_nodes in
        walk fuel' (rev (children n) ++ stack') command_nodes
  end.

Fixpoint size (n : node) : nat :=
  let '(Node _ _ _ _ cs) := n in S (sum_list_with size cs).

(** [sort_by_key]: stable. *)
Fixpoint insert_by {A} (key : A → nat) (x : A) (l : list A) : list A :=
  match l with
  | [] => [x]
  | y :: l' => if key x <=? key y then x :: l else y :: insert_by key x l'
  end.
Definition sort_by_key {A} (key : A → nat) (l : list A) : list A := foldr (insert_by key) [] l.

(** ** Words of a command *)

Definition parse_double_quoted_string (n : node) : option rstring :=
  if negb (kind n =?s $"string") then None
  else if negb (forallb (λ part, kind part =?s $"string_content") (named_children n)) then None
  else raw ← utf8_text n;
       text ← strip_prefix [DQUOTE] raw;
       strip_suffix [DQUOTE] text.

Definition parse_raw_string (n : node) : option rstring :=
  if negb (kind n =?s $"raw_string") then None
  else raw ← utf8_text n;
       text ← strip_prefix [SQUOTE] raw;
       strip_suffix [SQUOTE] text.

(** The arms shared by a word of a command and a part of a concatenation. *)
Definition literal_text (n : node) : option rstring :=
  if str_in (kind n) [ $"word"; $"number"] then utf8_text n
  else if kind n =?s $"string" then parse_double_quoted_string n
  else if kind n =?s $"raw_string" then parse_raw_string n
  else None.

Definition parse_word (child : node) : option rstring :=
  if kind child =?s $"command_name" then
    word_node ← head (named_children child);
    if negb (kind word_node =?s $"word") then None else utf8_text word_node
  else if kind child =?s $"concatenation" then
    parts ← mapM literal_text (named_children child);
    (if is_empty (concat parts) then None else Some (concat parts))
  else literal_text child.

Definition parse_plain_command_from_node (cmd : node) : option (list rstring) :=
  if negb (kind cmd =?s $"command") then None else mapM parse_word (named_children cmd).

Definition try_parse_word_only_commands_sequence (t : tree) : option (list (list rstring)) :=
  if has_error t then None
  else match walk (size (root_node t)) [root_node t] [] with
       | Collected command_nodes =>
           mapM parse_plain_command_from_node (sort_by_key start_byte command_nodes)
       | _ => None
       end.

(** ** Scripts with a here-document *)

Definition is_literal_word_or_number (n : node) : bool :=
  if negb (str_in (kind n) [ $"word"; $"number"]) then false
  else is_empty (named_children n).

Definition is_allowed_heredoc_attachment_kind (k : rstring) : bool :=
  str_in k [ $"heredoc_body"; $"simple_heredoc_body"; $"heredoc_redirect"; $"herestring_redirect";
             $"file_redirect"; $"redirected_statement"].

(** One child of the command: a word, nothing, or a reason to give up. *)
Definition heredoc_word (child : node) : option (list rstring) :=
  if kind child =?s $"command_name" then
    word_node ← head (named_children child);
    if negb (str_in (kind word_node) [ $"word"; $"number"])
       || negb (is_literal_word_or_number word_node)
    then None else w ← utf8_text word_node; Some [w]
  else if str_in (kind child) [ $"word"; $"number"] then
    if negb (is_literal_word_or_number child) then None
    else w ← utf8_text child; Some [w]
  else if str_in (kind child) [ $"variable_assignment"; $"comment"] then Some []
  else if is_allowed_heredoc_attachment_kind (kind child) then Some []
  else None.

Definition parse_heredoc_command_words (cmd : node) : option (list rstring) :=
  if negb (kind cmd =?s $"command") then None
  else words ← mapM heredoc_word (named_children cmd);
       if is_empty (concat words) then None else Some (concat words).

(** The search loops over named nodes. *)
Fixpoint single_command_loop (fuel : nat) (stack : list node) (single : option node)
  : option node :=
  match fuel, stack with
  | _, [] => single
  | O, _ => None
  | S fuel', n :: stack' =>
      if kind n =?s $"command" then
        match single with
        | Some _ => None
        | None => single_command_loop fuel' (rev (named_children n) ++ stack') (Some n)
        end
      else single_command_loop fuel' (rev (named_children n) ++ stack') single
  end.
Definition find_single_command_node (root : node) : option node :=
  single_command_loop (size root) [root] None.

Fixpoint has_kind_loop (fuel : nat) (stack : list node) (k : rstring) : bool :=
  match fuel, stack with
  | _, [] => false
  | O, _ => false
  | S fuel', n :: stack' =>
      if kind n =?s k then true else has_kind_loop fuel' (rev (named_children n) ++ stack') k
  end.
Definition has_named_descendant_kind (n : node) (k : rstring) : bool :=
  has_kind_loop (size n) [n] k.

(** ** Shell invocations *)

Definition extract_bash_command (command : list rstring) : option (rstring * rstring) :=
  match command with
  | [shell; flag; script] =>
      if negb (str_in flag [ $"-lc"; $"-c"])
         || negb (match detect_shell_type shell with
                  | Some Zsh | Some Bash | Some Sh => true
                  | _ => false
                  end)
      then None else Some (shell, script)
  | _ => None
  end.

Section Parse.
(** The tree-sitter parser with the bash grammar. *)
Context (try_parse_shell : rstring → option tree).

Definition parse_shell_lc_plain_commands (command : list rstring) : option (list (list rstring)) :=
  '(_, script) ← extract_bash_command command;
  t ← try_parse_shell script;
  try_parse_word_only_commands_sequence t.

Definition parse_shell_lc_single_command_prefix (command : list rstring) : option (list rstring) :=
  '(_, script) ← extract_bash_command command;
  t ← try_parse_shell script;
  let root := root_node t in
  if has_error t then None
  else if negb (has_named_descendant_kind root $"heredoc_redirect") then None
  else command_node ← find_single_command_node root;
       parse_heredoc_command_words command_node.
End Parse.

(** ** Specification: all nodes of a tree *)

Fixpoint subnodes (n : node) : list node :=
  let '(Node _ _ _ _ cs) := n in n :: (cs ≫= subnodes).

Definition is_command (n : node) : bool := is_named n && (kind n =?s $"command").

(** A tree [ls -1 | wc], as tree-sitter builds it. *)
Definition word_node (s : nat) (t : rstring) : node := Node $"word" true s (Some t) [].
Definition simple_command (s : nat) (name : rstring) (args : list node) : node :=
  Node $"command" true s (Some name)
    (Node $"command_name" true s (Some name) [word_node s name] :: args).
Definition demo_tree : tree := {|
  root_node := Node $"program" true 0 (Some $"ls -1 | wc")
    [Node $"pipeline" true 0 (Some $"ls -1 | wc")
       [simple_command 0 $"ls" [word_node 3 $"-1"];
        Node $"|" false 6 (Some $"|") [];
        simple_command 8 $"wc" []]];
  has_error := false |}.

Example demo_tree_commands :
  try_parse_word_only_commands_sequence demo_tree = Some [[ $"ls"; $"-1"]; [ $"wc"]].
Proof. vm_compute. reflexivity. Qed.

Example detect_ex :
  detect_shell_type $"/usr/bin/zsh" = Some Zsh ∧ detect_shell_type $"bash.exe" = Some Bash ∧
  detect_shell_type $"fish" = None.
Proof. vm_compute. done. Qed.

(** ** Lemmas: shell detection *)

Lemma split_on_elem c p s : s ∈ split_on c p → s = p ∨ length s < length p.
Proof.
  revert s. induction p as [|a p IH]; cbn; intros s.
  { intros ->%list_elem_of_singleton. by left. }
  assert (∀ s, s ∈ split_on c p → length s < S (length p)) as Hle.
  { intros s' [->|]%IH; lia. }
  destruct (a =? c)%Z.
  - intros [->|Hs%Hle]%elem_of_cons; right; cbn; lia.
  - destruct (split_on_cons c p) as (q & qs & E). rewrite E in IH, Hle |- *.
    intros [->|Hs]%elem_of_cons; [|right; apply Hle; set_solver].
    destruct (IH q) as [-> | Hq]; [set_solver|by left|right; cbn; lia].
Qed.

(** The file name of a path that is taken for a POSIX shell starts with the
    name of one. *)
Definition posix_shell_name (name : rstring) : bool :=
  starts_with $"zsh" name || starts_with $"bash" name || starts_with $"sh" name.

Lemma file_name_piece p s : Path.file_name p = Some s → s ∈ split_on Path.SLASH p.
Proof.
  unfold Path.file_name. destruct (last (Path.components p)) as [c|] eqn:El; [|done].
  destruct c; try done. intros [= ->]. apply last_Some_elem_of in El.
  unfold Path.components in El.
  assert (∀ l : list rstring, Path.Normal s ∈ omap Path.piece_component l → s ∈ l) as Hom.
  { intros l (x & Hx & Hp)%list_elem_of_omap. unfold Path.piece_component in Hp.
    repeat case_match; by simplify_eq. }
  destruct (Path.is_absolute p); [|destruct (split_on Path.SLASH p) as [|x xs] eqn:Es; [set_solver|]].
  - apply elem_of_cons in El as [|El]; [done|]. by apply Hom.
  - apply elem_of_app in El as [El|El]; [|by apply Hom].
    case_match; [|set_solver]. by apply list_elem_of_singleton in El.
Qed.

Lemma rsplit_once_Some c s b r : rsplit_once c s = Some (b, r) → s = b ++ c :: r.
Proof.
  unfold rsplit_once. destruct (split_once c (rev s)) as [[x y]|] eqn:E; [|done].
  intros [= <- <-]. assert (rev s = x ++ c :: y) as Hs.
  { revert x y E. induction (rev s) as [|a l IH]; cbn; intros x y; [done|].
    destruct (Z.eqb_spec a c) as [->|]; [by intros [= <- <-]|].
    destruct (split_once c l) as [[u v]|]; [|done]. intros [= <- <-]. cbn. f_equal. by apply IH. }
  apply (f_equal (@rev Z)) in Hs. rewrite rev_involutive, rev_app_distr in Hs. cbn in Hs.
  by rewrite <- app_assoc in Hs.
Qed.

(** The stem is the start of the file name. *)
Lemma file_stem_prefix p s :
  file_stem p = Some s → ∃ name r, Path.file_name p = Some name ∧ name = s ++ r.
Proof.
  unfold file_stem. destruct (Path.file_name p) as [name|]; [|done]. intros H. exists name.
  destruct (rsplit_once 46%Z name) as [[b r]|] eqn:E.
  - apply rsplit_once_Some in E. destruct (is_empty b); injection H as <-.
    + exists []. by rewrite app_nil_r.
    + eauto.
  - injection H as <-. exists []. by rewrite app_nil_r.
Qed.

Lemma file_stem_shorter p s : file_stem p = Some s → s = p ∨ length s < length p.
Proof.
  unfold file_stem. destruct (Path.file_name p) as [name|] eqn:E; [|done].
  assert (name = p ∨ length name < length p) as Hname.
  { by apply (split_on_elem Path.SLASH), file_name_piece. }
  assert (∀ b r, rsplit_once 46%Z name = Some (b, r) → length b < length name) as Hb.
  { intros b r ->%rsplit_once_Some. rewrite length_app. cbn. lia. }
  destruct (rsplit_once 46%Z name) as [[b r]|]; [|by intros [= <-]].
  destruct (is_empty b); intros [= <-]; [done|]. specialize (Hb _ _ eq_refl).
  right. destruct Hname as [-> |]; lia.
Qed.

Lemma detect_fuel_enough f p :
  length p < f → detect_shell_type_fuel f p = detect_shell_type p.
Proof.
  unfold detect_shell_type. enough (∀ f1 f2 p, length p < f1 → length p < f2 →
    detect_shell_type_fuel f1 p = detect_shell_type_fuel f2 p) by (intros; auto with lia).
  clear. induction f1 as [|f1 IH]; intros [|f2] p H1 H2; [lia..|]. cbn [detect_shell_type_fuel].
  repeat (case_match; [done|]). destruct (file_stem p) as [s|] eqn:Es; [|done].
  case_bool_decide as Hc; [|done].
  destruct (file_stem_shorter _ _ Es) as [-> |]; [done|]. apply IH; lia.
Qed.

Lemma detect_posix_name f p ty :
  detect_shell_type_fuel f p = Some ty → ty = Zsh ∨ ty = Bash ∨ ty = Sh →
  ∃ name, Path.file_name p = Some name ∧ posix_shell_name name = true.
Proof.
  revert p. induction f as [|f IH]; intros p H Hty; cbn [detect_shell_type_fuel] in H; [done|].
  destruct (p =?s $"zsh") eqn:E1; [apply str_eqb_eq in E1 as ->; by eexists|].
  destruct (p =?s $"sh") eqn:E2; [apply str_eqb_eq in E2 as ->; by eexists|].
  destruct (p =?s $"cmd"); [by destruct Hty as [|[|]]; simplify_eq|].
  destruct (p =?s $"bash") eqn:E4; [apply str_eqb_eq in E4 as ->; by eexists|].
  destruct (p =?s $"pwsh"); [by destruct Hty as [|[|]]; simplify_eq|].
  destruct (p =?s $"powershell"); [by destruct Hty as [|[|]]; simplify_eq|].
  destruct (file_stem p) as [s|] eqn:Es; [|done]. case_bool_decide; [|done].
  destruct (IH s H Hty) as (name_s & Hn & Hp).
  destruct (file_stem_prefix _ _ Es) as (name & r & Hname & ->).
  exists (s ++ r). split; [done|].
  assert (name_s = s) as ->.
  { apply file_name_piece in Hn, Hname.
    pose proof (split_on_no_nl Path.SLASH p) as Hno. rewrite Forall_forall in Hno.
    apply Hno in Hname. rewrite split_on_no_sep in Hn by set_solver.
    by apply list_elem_of_singleton in Hn. }
  unfold posix_shell_name in *. rewrite !orb_true_iff in *.
  destruct Hp as [[Hp|Hp]|Hp]; apply (starts_with_app_l _ _ r) in Hp; tauto.
Qed.

(** ** Lemmas: the walk visits every node once *)

Lemma walk_spec fuel stack acc :
  sum_list_with size stack ≤ fuel →
  (Forall (λ n, node_allowed n = true) (stack ≫= subnodes) ∧
     ∃ l, walk fuel stack acc = Collected l ∧
          l ≡ₚ acc ++ List.filter is_command (stack ≫= subnodes)) ∨
  (¬ Forall (λ n, node_allowed n = true) (stack ≫= subnodes) ∧ walk fuel stack acc = Rejected).
Proof.
  revert stack acc. induction fuel as [|fuel IH]; intros [|n stack] acc Hf.
  1,3: left; split; [constructor|]; exists acc; split; [done|]; cbn; by rewrite app_nil_r.
  { destruct n. cbn in Hf. lia. }
  cbn [walk]. destruct n as [k nm sb t cs]. set (n := Node k nm sb t cs).
  change ((n :: stack) ≫= subnodes) with ((n :: (cs ≫= subnodes)) ++ (stack ≫= subnodes)).
  destruct (node_allowed n) eqn:En; cbn [negb].
  2: { right. split; [|done]. intros [Hn _]%Forall_cons. congruence. }
  assert ((rev cs ++ stack) ≫= subnodes ≡ₚ (cs ≫= subnodes) ++ (stack ≫= subnodes)) as Hp.
  { rewrite bind_app. by rewrite <- Permutation_rev. }
  assert (sum_list_with size (rev cs ++ stack) ≤ fuel) as Hf'.
  { rewrite sum_list_with_app. cbn in Hf. rewrite <- Permutation_rev. lia. }
  change (children n) with cs.
  change (is_named n && (kind n =?s $"command")) with (is_command n).
  destruct (IH _ (if is_command n then acc ++ [n] else acc) Hf') as [[Ha (l & -> & Hl)]|[Ha ->]].
  - left. rewrite Hp in Ha. split; [by constructor|]. exists l. split; [done|].
    rewrite Hl. cbn [app List.filter].
    assert (∀ a b : list node, a ≡ₚ b → List.filter is_command a ≡ₚ List.filter is_command b) as Hfp.
    { clear. induction 1; cbn; repeat case_match; try done; try by constructor.
      all: by etransitivity. }
    rewrite (Hfp _ _ Hp). destruct (is_command n); [|done].
    rewrite <- app_assoc. done.
  - right. split; [|done]. rewrite Hp in Ha. cbn [app]. by rewrite Forall_cons; intros [_ ?].
Qed.

Lemma insert_by_perm {A} (key : A → nat) x l : insert_by key x l ≡ₚ x :: l.
Proof.
  induction l as [|y l IH]; cbn; [done|]. destruct (key x <=? key y); [done|].
  rewrite IH. by constructor.
Qed.

Lemma sort_by_key_perm {A} (key : A → nat) l : sort_by_key key l ≡ₚ l.
Proof. induction l as [|x l IH]; cbn; [done|]. by rewrite insert_by_perm, IH. Qed.

Lemma sort_by_key_sorted {A} (key : A → nat) l :
  StronglySorted (λ a b, key a ≤ key b) (sort_by_key key l).
Proof.
  induction l as [|x l IH]; [constructor|].
  change (sort_by_key key (x :: l)) with (insert_by key x (sort_by_key key l)). revert IH.
  induction (sort_by_key key l) as [|y m IHm]; intros Hs; cbn.
  - by repeat constructor.
  - inversion Hs as [|?? Hs' Hy]; subst. destruct (Nat.leb_spec (key x) (key y)) as [Hle|Hlt].
    + constructor; [done|]. constructor; [done|]. eapply Forall_impl; [exact Hy|].
      cbn. intros z Hz. lia.
    + constructor; [by apply IHm|]. rewrite insert_by_perm. constructor; [lia|done].
Qed.

(** What an accepted tree looks like, for the clients. *)
Lemma word_only_accepts t commands :
  try_parse_word_only_commands_sequence t = Some commands →
  has_error t = false ∧
  Forall (λ n, node_allowed n = true) (subnodes (root_node t)) ∧
  ∃ nodes, nodes ≡ₚ List.filter is_command (subnodes (root_node t)) ∧
    Forall2 (λ n words, parse_plain_command_from_node n = Some words) nodes commands.
Proof.
  unfold try_parse_word_only_commands_sequence. destruct (has_error t); [done|].
  destruct (walk_spec (size (root_node t)) [root_node t] []) as [[Ha (l & -> & Hl)]|[Ha ->]];
    [cbn; lia| |done]. cbn in Ha, Hl. rewrite app_nil_r in Ha, Hl. intros Hm%mapM_Some.
  split_and!; [done..|]. exists (sort_by_key start_byte l). by rewrite sort_by_key_perm at 1.
Qed.

(** ** Properties *)

(** The walk over the syntax tree ends and misses nothing: a script is
    accepted only when every node of its tree is of an allowed kind, and then
    the result is the words of all its command nodes in source order; it is
    refused only for a syntax error, a node that is not allowed, or a command
    that is not made of plain words. *)
Theorem word_only_sequence_spec (t : tree) :
  match try_parse_word_only_commands_sequence t with
  | Some commands =>
      has_error t = false ∧
      Forall (λ n, node_allowed n = true) (subnodes (root_node t)) ∧
      ∃ nodes, nodes ≡ₚ List.filter is_command (subnodes (root_node t)) ∧
        StronglySorted (λ a b, start_byte a ≤ start_byte b) nodes ∧
        Forall2 (λ n words, parse_plain_command_from_node n = Some words) nodes commands
  | None =>
      has_error t = true ∨
      ∃ n, n ∈ subnodes (root_node t) ∧
           (node_allowed n = false ∨
            is_command n = true ∧ parse_plain_command_from_node n = None)
  end.
Proof.
  unfold try_parse_word_only_commands_sequence. destruct (has_error t); [by left|].
  assert ([root_node t] ≫= subnodes = subnodes (root_node t)) as Hone by (cbn; by rewrite app_nil_r).
  destruct (walk_spec (size (root_node t)) [root_node t] []) as [[Ha (l & -> & Hl)]|[Ha ->]];
    [cbn; lia| |]; rewrite Hone in *.
  - destruct (mapM _ _) as [commands|] eqn:Em.
    + split_and!; [done..|]. exists (sort_by_key start_byte l).
      split_and!; [by rewrite sort_by_key_perm|apply sort_by_key_sorted|by apply mapM_Some].
    + right. apply mapM_None, Exists_exists in Em as (n & Hn & Hp).
      rewrite sort_by_key_perm, Hl in Hn. cbn in Hn.
      apply list_elem_of_In, filter_In in Hn as [Hn%list_elem_of_In Hc]. eauto 10.
  - right. apply not_Forall_Exists in Ha; [|apply _].
    apply Exists_exists in Ha as (n & Hn & Hna). exists n. split; [done|]. left.
    by apply not_true_iff_false.
Qed.

End Shell.
