(* ===== verification/CommandSafety.v ===== *)
(** * Which commands run without asking (shell-command/src/command_safety)

    [is_known_safe_command] (is_safe_command.rs, with the PowerShell side of
    windows_safe_commands.rs) and [command_might_be_dangerous]
    (is_dangerous_command.rs), as built outside Windows.  The shell grammar and
    the PowerShell parser process are parameters.  Theorems: what an approved
    command can be, that no approved command is one the other classifier calls
    dangerous, and what the git and sed checks accept. *)

From Stdlib Require Import ZifyBool.
From S2P Require Import Prelude AbsPath ShellScript.

Module Safety.
Import Shell.

(** ** is_dangerous_command.rs *)

Definition is_git_global_option_with_value (arg : rstring) : bool :=
  str_in arg [ $"-C"; $"-c"; $"--config-env"; $"--exec-path"; $"--git-dir"; $"--namespace";
               $"--super-prefix"; $"--work-tree"].

Definition is_git_global_option_with_inline_value (arg : rstring) : bool :=
  (starts_with $"--config-env=" arg || starts_with $"--exec-path=" arg
   || starts_with $"--git-dir=" arg || starts_with $"--namespace=" arg
   || starts_with $"--super-prefix=" arg || starts_with $"--work-tree=" arg)
  || ((starts_with $"-C" arg || starts_with $"-c" arg) && (2 <? byte_len arg)).

Definition git_global_option_requires_prompt (arg : rstring) : bool :=
  str_in arg [ $"-c"; $"--config-env"; $"--exec-path"; $"--git-dir"; $"--namespace";
               $"--super-prefix"; $"--work-tree"]
  || ((starts_with $"-c" arg && (2 <? byte_len arg))
      || starts_with $"--config-env=" arg || starts_with $"--exec-path=" arg
      || starts_with $"--git-dir=" arg || starts_with $"--namespace=" arg
      || starts_with $"--super-prefix=" arg || starts_with $"--work-tree=" arg).

(** Outside Windows the file name as it is. *)
Definition executable_name_lookup_key (raw : rstring) : option rstring := Path.file_name raw.

(** The [for (idx, arg) in command.iter().enumerate().skip(1)] loop. *)
Fixpoint git_subcommand_loop (subcommands : list rstring) (idx : nat) (skip_next : bool)
    (args : list rstring) : option (nat * rstring) :=
  match args with
  | [] => None
  | arg :: args' =>
      if skip_next then git_subcommand_loop subcommands (S idx) false args'
      else if is_git_global_option_with_inline_value arg
      then git_subcommand_loop subcommands (S idx) false args'
      else if is_git_global_option_with_value arg
      then git_subcommand_loop subcommands (S idx) true args'
      else if (arg =?s $"--") || starts_with $"-" arg
      then git_subcommand_loop subcommands (S idx) false args'
      else if str_in arg subcommands then Some (idx, arg)
      else None
  end.

Definition find_git_subcommand (command subcommands : list rstring) : option (nat * rstring) :=
  match command with
  | [] => None
  | cmd0 :: args =>
      if bool_decide (executable_name_lookup_key cmd0 ≠ Some $"git") then None
      else git_subcommand_loop subcommands 1 false args
  end.

Fixpoint is_dangerous_to_call_with_exec (command : list rstring) : bool :=
  match command with
  | [] => false
  | cmd0 :: rest =>
      if cmd0 =?s $"rm" then
        match rest with arg :: _ => str_in arg [ $"-f"; $"-rf"] | [] => false end
      else if cmd0 =?s $"sudo" then is_dangerous_to_call_with_exec rest
      else false
  end.

(** ** is_safe_command.rs *)

(** The read-only programs with no unsafe option; the first two only on Linux. *)
Definition LINUX_PROGRAMS : list rstring := [ $"numfmt"; $"tac"].
Definition SAFE_PROGRAMS : list rstring :=
  [ $"cat"; $"cd"; $"cut"; $"echo"; $"expr"; $"false"; $"grep"; $"head"; $"id"; $"ls"; $"nl";
    $"paste"; $"pwd"; $"rev"; $"seq"; $"stat"; $"tail"; $"tr"; $"true"; $"uname"; $"uniq"; $"wc";
    $"which"; $"whoami"].

Definition UNSAFE_BASE64_OPTIONS : list rstring := [ $"-o"; $"--output"].
Definition base64_arg_unsafe (arg : rstring) : bool :=
  str_in arg UNSAFE_BASE64_OPTIONS || starts_with $"--output=" arg
  || (starts_with $"-o" arg && negb (arg =?s $"-o")).

Definition UNSAFE_FIND_OPTIONS : list rstring :=
  [ $"-exec"; $"-execdir"; $"-ok"; $"-okdir"; $"-delete"; $"-fls"; $"-fprint"; $"-fprint0";
    $"-fprintf"].

Definition UNSAFE_RIPGREP_OPTIONS_WITH_ARGS : list rstring := [ $"--pre"; $"--hostname-bin"].
Definition UNSAFE_RIPGREP_OPTIONS_WITHOUT_ARGS : list rstring := [ $"--search-zip"; $"-z"].
Definition ripgrep_arg_unsafe (arg : rstring) : bool :=
  str_in arg UNSAFE_RIPGREP_OPTIONS_WITHOUT_ARGS
  || existsb (λ opt, (arg =?s opt) || starts_with (opt ++ $"=") arg)
       UNSAFE_RIPGREP_OPTIONS_WITH_ARGS.

Definition git_has_unsafe_global_option (command : list rstring) : bool :=
  existsb git_global_option_requires_prompt (tail command).

Definition UNSAFE_GIT_FLAGS : list rstring :=
  [ $"--output"; $"--ext-diff"; $"--textconv"; $"--exec"; $"--paginate"].
Definition git_subcommand_args_are_read_only (args : list rstring) : bool :=
  negb (existsb (λ arg, str_in arg UNSAFE_GIT_FLAGS || starts_with $"--output=" arg
                        || starts_with $"--exec=" arg) args).

Definition BRANCH_QUERY_FLAGS : list rstring :=
  [ $"--list"; $"-l"; $"--show-current"; $"-a"; $"--all"; $"-r"; $"--remotes"; $"-v"; $"-vv";
    $"--verbose"].
Fixpoint branch_args_loop (saw_read_only_flag : bool) (args : list rstring) : bool :=
  match args with
  | [] => saw_read_only_flag
  | arg :: args' =>
      if str_in arg BRANCH_QUERY_FLAGS then branch_args_loop true args'
      else if starts_with $"--format=" arg then branch_args_loop true args'
      else false
  end.
Definition git_branch_is_read_only (branch_args : list rstring) : bool :=
  if is_empty branch_args then true else branch_args_loop false branch_args.

Definition SAFE_GIT_SUBCOMMANDS : list rstring :=
  [ $"status"; $"log"; $"diff"; $"show"; $"branch"].

Definition is_valid_sed_n_arg (arg : option rstring) : bool :=
  match arg with
  | None => false
  | Some s =>
      match strip_suffix $"p" s with
      | None => false
      | Some core =>
          match split_on 44%Z core with
          | [num] => negb (is_empty num) && forallb is_ascii_digit num
          | [a; b] => negb (is_empty a) && negb (is_empty b)
                      && forallb is_ascii_digit a && forallb is_ascii_digit b
          | _ => false
          end
      end
  end.

Section Safe.
(** [cfg!(target_os = "linux")]. *)
Context (linux : bool).

Definition is_safe_to_call_with_exec (command : list rstring) : bool :=
  match command with
  | [] => false
  | cmd0 :: args =>
      match executable_name_lookup_key cmd0 with
      | None => false
      | Some cmd =>
          if linux && str_in cmd LINUX_PROGRAMS then true
          else if str_in cmd SAFE_PROGRAMS then true
          else if cmd =?s $"base64" then negb (existsb base64_arg_unsafe args)
          else if cmd =?s $"find" then
            negb (existsb (λ arg, str_in arg UNSAFE_FIND_OPTIONS) command)
          else if cmd =?s $"rg" then negb (existsb ripgrep_arg_unsafe command)
          else if cmd =?s $"git" then
            if git_has_unsafe_global_option command then false
            else match find_git_subcommand command SAFE_GIT_SUBCOMMANDS with
                 | None => false
                 | Some (subcommand_idx, subcommand) =>
                     let subcommand_args := drop (subcommand_idx + 1) command in
                     if str_in subcommand [ $"status"; $"log"; $"diff"; $"show"] then
                       git_subcommand_args_are_read_only subcommand_args
                     else if subcommand =?s $"branch" then
                       git_subcommand_args_are_read_only subcommand_args
                       && git_branch_is_read_only subcommand_args
                     else false
                 end
          else if (cmd =?s $"sed") && (length command <=? 4)
                  && bool_decide (command !! 1 = Some $"-n")
                  && is_valid_sed_n_arg (command !! 2)
          then true
          else false
      end
  end.
End Safe.

(** ** windows_safe_commands.rs *)

Inductive PowershellParseOutcome :=
| Commands (commands : list (list rstring))
| Unsupported
| Failed.

(** [trim_matches(|c| c == '(' || c == ')')] and [trim_start_matches('-')]. *)
Fixpoint drop_while (f : char → bool) (s : rstring) : rstring :=
  match s with [] => [] | c :: s' => if f c then drop_while f s' else s end.
Definition is_paren (c : char) : bool := (c =? 40)%Z || (c =? 41)%Z.
Definition ps_word (w : rstring) : rstring :=
  to_ascii_lowercase
    (drop_while (Z.eqb 45) (rev (drop_while is_paren (rev (drop_while is_paren w))))).

Definition UNSAFE_CMDLETS : list rstring :=
  [ $"set-content"; $"add-content"; $"out-file"; $"new-item"; $"remove-item"; $"move-item";
    $"copy-item"; $"rename-item"; $"start-process"; $"stop-process"].
Definition SAFE_CMDLETS : list rstring :=
  [ $"echo"; $"write-output"; $"write-host"; $"dir"; $"ls"; $"get-childitem"; $"gci"; $"cat";
    $"type"; $"gc"; $"get-content"; $"select-string"; $"sls"; $"findstr"; $"measure-object";
    $"measure"; $"get-location"; $"gl"; $"pwd"; $"test-path"; $"tp"; $"resolve-path"; $"rvpa";
    $"select-object"; $"select"; $"get-item"].

Definition is_safe_ripgrep (words : list rstring) : bool :=
  negb (existsb (λ arg, ripgrep_arg_unsafe (to_ascii_lowercase arg)) (tail words)).

Definition SAFE_PS_SUBCOMMANDS : list rstring :=
  [ $"status"; $"log"; $"show"; $"diff"; $"cat-file"].
Fixpoint safe_git_loop (args : list rstring) : bool :=
  match args with
  | [] => false
  | arg :: args' =>
      let arg_lc := to_ascii_lowercase arg in
      if starts_with $"-" arg then
        if git_global_option_requires_prompt arg_lc || eq_ignore_ascii_case arg $"--config"
           || starts_with $"--config=" arg_lc
        then false else safe_git_loop args'
      else str_in arg_lc SAFE_PS_SUBCOMMANDS
  end.
Definition is_safe_git_command (words : list rstring) : bool := safe_git_loop (tail words).

Definition is_safe_powershell_command (words : list rstring) : bool :=
  match words with
  | [] => false
  | word0 :: _ =>
      if existsb (λ w, str_in (ps_word w) UNSAFE_CMDLETS) words then false
      else
        let command := ps_word word0 in
        if str_in command SAFE_CMDLETS then true
        else if command =?s $"git" then is_safe_git_command words
        else if command =?s $"rg" then is_safe_ripgrep words
        else false
  end.

Definition quote_argument (arg : rstring) : rstring :=
  if is_empty arg then [SQUOTE; SQUOTE]
  else if forallb (λ ch, negb (is_whitespace ch)) arg then arg
  else [SQUOTE] ++ (arg ≫= λ c, if (c =? SQUOTE)%Z then [SQUOTE; SQUOTE] else [c]) ++ [SQUOTE].

Definition join_arguments_as_script (args : list rstring) : rstring :=
  match args with
  | [] => []
  | first :: rest => join $" " (first :: (quote_argument <$> rest))
  end.

Definition is_powershell_executable (exe : rstring) : bool :=
  str_in (to_ascii_lowercase (default exe (Path.file_name exe)))
    [ $"powershell"; $"powershell.exe"; $"pwsh"; $"pwsh.exe"].

Definition TOLERATED_FLAGS : list rstring :=
  [ $"-nologo"; $"-noprofile"; $"-noninteractive"; $"-mta"; $"-sta"].
Definition FORBIDDEN_FLAGS : list rstring :=
  [ $"-encodedcommand"; $"-ec"; $"-file"; $"/file"; $"-windowstyle"; $"-executionpolicy";
    $"-workingdirectory"].

Section PowerShell.
(** [parse_with_powershell_ast]: the parser process started for an executable. *)
Context (parse_with_powershell_ast : rstring → rstring → PowershellParseOutcome).

Definition parse_powershell_script (executable script : rstring) : option (list (list rstring)) :=
  match parse_with_powershell_ast executable script with
  | Commands commands => Some commands
  | _ => None
  end.

(** The [while idx < args.len()] loop, on the arguments from [idx] on. *)
Fixpoint parse_powershell_invocation (executable : rstring) (args : list rstring)
  : option (list (list rstring)) :=
  match args with
  | [] => None
  | arg :: args' =>
      let lower := to_ascii_lowercase arg in
      if str_in lower [ $"-command"; $"/command"; $"-c"] then
        match args' with
        | [script] => parse_powershell_script executable script
        | _ => None
        end
      else if starts_with $"-command:" lower || starts_with $"/command:" lower then
        match args' with
        | [] => match split_once 58%Z arg with
                | Some (_, script) => parse_powershell_script executable script
                | None => None
                end
        | _ => None
        end
      else if str_in lower TOLERATED_FLAGS then parse_powershell_invocation executable args'
      else if str_in lower FORBIDDEN_FLAGS then None
      else if starts_with $"-" lower then None
      else parse_powershell_script executable (join_arguments_as_script args)
  end.

Definition try_parse_powershell_command_sequence (command : list rstring)
  : option (list (list rstring)) :=
  match command with
  | [] => None
  | exe :: rest =>
      if is_powershell_executable exe then parse_powershell_invocation exe rest else None
  end.

Definition is_safe_command_windows (command : list rstring) : bool :=
  match try_parse_powershell_command_sequence command with
  | Some commands => forallb is_safe_powershell_command commands
  | None => false
  end.

(** ** The two classifiers *)

Context (try_parse_shell : rstring → option tree) (linux : bool).

Definition command_might_be_dangerous (command : list rstring) : bool :=
  if is_dangerous_to_call_with_exec command then true
  else match parse_shell_lc_plain_commands try_parse_shell command with
       | Some all_commands => existsb is_dangerous_to_call_with_exec all_commands
       | None => false
       end.

Definition zsh_as_bash (s : rstring) : rstring := if s =?s $"zsh" then $"bash" else s.

Definition is_known_safe_command (command : list rstring) : bool :=
  let command := zsh_as_bash <$> command in
  if is_safe_command_windows command then true
  else if is_safe_to_call_with_exec linux command then true
  else match parse_shell_lc_plain_commands try_parse_shell command with
       | Some all_commands =>
           negb (is_empty all_commands)
           && forallb (is_safe_to_call_with_exec linux) all_commands
       | None => false
       end.
End PowerShell.

Example is_safe_ex :
  is_safe_to_call_with_exec true [ $"git"; $"-C"; $".."; $"log"; $"-n"; $"1"] = true ∧
  is_safe_to_call_with_exec true [ $"git"; $"branch"; $"-d"; $"x"] = false ∧
  is_safe_to_call_with_exec true [ $"/usr/bin/sed"; $"-n"; $"1,5p"; $"f"] = true ∧
  is_safe_to_call_with_exec true [ $"find"; $"."; $"-delete"] = false.
Proof. vm_compute. done. Qed.

(** ** Lemmas *)

Lemma existsb_false {A} (f : A → bool) l : existsb f l = false ↔ Forall (λ x, f x = false) l.
Proof.
  induction l as [|x l IH]; cbn; [by split; [constructor|]|].
  rewrite orb_false_iff, IH, Forall_cons. done.
Qed.

(** What precedes a git subcommand: options, and the value of a [-C]. *)
Inductive git_options : list rstring → Prop :=
| git_options_nil : git_options []
| git_options_flag arg args :
    starts_with $"-" arg = true → git_options args → git_options (arg :: args)
| git_options_dir dir args : git_options args → git_options ($"-C" :: dir :: args).

Lemma git_subcommand_loop_spec subs idx args r :
  Forall (λ a, git_global_option_requires_prompt a = false) args →
  git_subcommand_loop subs idx false args = Some r →
  ∃ pre post, args = pre ++ r.2 :: post ∧ r.1 = idx + length pre ∧ git_options pre ∧ r.2 ∈ subs.
Proof.
  revert idx. induction args as [args IH] using (induction_ltof1 _ length).
  intros idx Hsafe H. destruct args as [|arg args]; [done|].
  apply Forall_cons in Hsafe as [Ha Hsafe]. cbn [git_subcommand_loop] in H.
  assert (∀ o, (is_git_global_option_with_inline_value o || ((o =?s $"--") || starts_with $"-" o)) = true →
    starts_with $"-" o = true) as Hdash.
  { intros o Ho. unfold is_git_global_option_with_inline_value in Ho.
    rewrite !orb_true_iff, andb_true_iff, orb_true_iff, str_eqb_eq in Ho.
    apply starts_with_true.
    repeat match goal with H : _ ∨ _ |- _ => destruct H | H : _ ∧ _ |- _ => destruct H end; subst;
      repeat match goal with H : starts_with _ _ = true |- _ =>
        apply starts_with_true in H as [? ->] end; cbn; eauto. }
  assert (starts_with $"-" arg = true → git_subcommand_loop subs (S idx) false args = Some r →
    ∃ pre post, arg :: args = pre ++ r.2 :: post ∧ r.1 = idx + length pre ∧ git_options pre ∧ r.2 ∈ subs)
    as Hflag.
  { intros Hd Hr. destruct (IH args) with (idx := S idx) as (pre & post & -> & Hi & Hp & Hs);
      [unfold ltof; cbn; lia|done..|].
    exists (arg :: pre), post. cbn. split_and!; [done|lia|by constructor|done]. }
  destruct (is_git_global_option_with_inline_value arg) eqn:Ei.
  { apply Hflag; [apply Hdash; by rewrite Ei|done]. }
  destruct (is_git_global_option_with_value arg) eqn:Ev.
  { assert (arg = $"-C") as ->.
    { apply str_in_elem in Ev. unfold git_global_option_requires_prompt in Ha.
      apply orb_false_iff in Ha as [Ha _]. apply elem_of_cons in Ev as [|Ev]; [done|].
      apply str_in_elem in Ev. unfold str_in in *. congruence. }
    destruct args as [|dir args]; [done|]. cbn [git_subcommand_loop] in H.
    apply Forall_cons in Hsafe as [_ Hsafe].
    destruct (IH args) with (idx := S (S idx)) as (pre & post & -> & Hi & Hp & Hs);
      [unfold ltof; cbn; lia|done..|].
    exists ($"-C" :: dir :: pre), post. split_and!; [done|cbn [length]; lia|by constructor|done]. }
  destruct ((arg =?s $"--") || starts_with $"-" arg) eqn:Ed.
  { apply Hflag; [apply Hdash; by rewrite Ed, orb_true_r|done]. }
  destruct (str_in arg subs) eqn:Es; [|done]. injection H as <-.
  exists [], args. cbn. split_and!; [done|lia|constructor|by apply str_in_elem].
Qed.

Definition query_flag (a : rstring) : Prop :=
  a ∈ BRANCH_QUERY_FLAGS ∨ starts_with $"--format=" a = true.

Lemma branch_args_loop_flags b args : branch_args_loop b args = true → Forall query_flag args.
Proof.
  revert b. induction args as [|a args IH]; intros b; cbn [branch_args_loop]; [constructor|].
  destruct (str_in a BRANCH_QUERY_FLAGS) eqn:E1.
  { intros H%IH. constructor; [left; by apply str_in_elem|done]. }
  destruct (starts_with _ a) eqn:E2; [|done]. intros H%IH. constructor; [by right|done].
Qed.

(** Nothing run without asking is a forced removal, however wrapped in [sudo]. *)
Lemma exec_safe_not_dangerous linux c :
  is_safe_to_call_with_exec linux c = true → is_dangerous_to_call_with_exec c = false.
Proof.
  destruct c as [|cmd0 args]; [done|]. cbn [is_dangerous_to_call_with_exec].
  destruct (cmd0 =?s $"rm") eqn:E1.
  { apply str_eqb_eq in E1 as ->. by destruct linux. }
  destruct (cmd0 =?s $"sudo") eqn:E2; [|done]. apply str_eqb_eq in E2 as ->. by destruct linux.
Qed.

(** A POSIX shell is not itself a known-safe program, nor PowerShell. *)
Lemma posix_shell_not_safe linux shell args ty :
  detect_shell_type shell = Some ty → ty = Zsh ∨ ty = Bash ∨ ty = Sh →
  is_safe_to_call_with_exec linux (shell :: args) = false ∧ is_powershell_executable shell = false.
Proof.
  intros Hd Hty. destruct (detect_posix_name _ _ _ Hd Hty) as (name & Hn & Hp). split.
  - unfold is_safe_to_call_with_exec, executable_name_lookup_key. rewrite Hn.
    assert (∀ l, forallb (λ s, negb (posix_shell_name s)) l = true → str_in name l = false) as Hnot.
    { intros l Hl. apply not_true_iff_false. intros Hin%str_in_elem%list_elem_of_In.
      rewrite forallb_forall in Hl. apply Hl in Hin. by rewrite Hp in Hin. }
    assert (∀ s, posix_shell_name s = false → (name =?s s) = false) as Hne.
    { intros s Hs. apply str_eqb_neq. intros ->. congruence. }
    rewrite (Hnot LINUX_PROGRAMS), (Hnot SAFE_PROGRAMS), !Hne by (vm_compute; reflexivity).
    by rewrite andb_false_r.
  - unfold is_powershell_executable. rewrite Hn. cbn [default].
    apply not_true_iff_false. intros Hin%str_in_elem.
    assert (∃ c rest, name = c :: rest ∧ ascii_lower c ∈ [122; 98; 115]%Z) as (c & rest & -> & Hc).
    { unfold posix_shell_name in Hp. rewrite !orb_true_iff, !starts_with_true in Hp.
      destruct Hp as [[[r ->]|[r ->]]|[r ->]]; eexists _, _; split; try reflexivity; set_solver. }
    cbn in Hin. set (x := ascii_lower c) in *. clearbody x.
    repeat (apply elem_of_cons in Hin as [Hin|Hin]; [injection Hin as -> _; vm_compute in Hc; set_solver|]).
    by apply elem_of_nil in Hin.
Qed.

(** Approval of a shell invocation rests on its script alone. *)
Lemma known_safe_script ps tps linux shell flag script :
  extract_bash_command [shell; flag; script] ≠ None → script ≠ $"zsh" → flag ≠ $"zsh" →
  is_known_safe_command ps tps linux [shell; flag; script] = true →
  ∃ t all, tps script = Some t ∧ try_parse_word_only_commands_sequence t = Some all ∧
    all ≠ [] ∧ Forall (λ c, is_safe_to_call_with_exec linux c = true) all.
Proof.
  intros Hx Hs Hf H. unfold is_known_safe_command in H. cbn [fmap list_fmap] in H.
  assert (zsh_as_bash flag = flag ∧ zsh_as_bash script = script) as [Ef Es]
    by (unfold zsh_as_bash; by rewrite !str_eqb_neq).
  rewrite Ef, Es in H. unfold extract_bash_command in Hx.
  destruct (_ || _) eqn:E in Hx; [done|]. apply orb_false_iff in E as [E1 E2].
  assert (∃ ty, detect_shell_type (zsh_as_bash shell) = Some ty ∧ (ty = Zsh ∨ ty = Bash ∨ ty = Sh))
    as (ty & Hd & Hty).
  { unfold zsh_as_bash. destruct (shell =?s $"zsh"); [by exists Bash; auto|].
    apply negb_false_iff in E2. destruct (detect_shell_type shell) as [[]|]; eauto; done. }
  destruct (posix_shell_not_safe linux _ [flag; script] _ Hd Hty) as [Hexec Hps].
  unfold is_safe_command_windows, try_parse_powershell_command_sequence in H.
  rewrite Hps, Hexec in H. unfold parse_shell_lc_plain_commands, extract_bash_command in H.
  rewrite E1, Hd in H. replace (match ty with Zsh | Bash | Sh => true | _ => false end) with true in H
    by (by destruct Hty as [-> | [-> | ->]]).
  cbn [orb negb mbind option_bind] in H. destruct (tps script) as [t|]; [|done].
  cbn [mbind option_bind] in H.
  destruct (try_parse_word_only_commands_sequence t) as [all|] eqn:Et; [|done].
  apply andb_true_iff in H as [Hne Hall]. exists t, all. split_and!; try done.
  - intros ->. done.
  - rewrite forallb_forall in Hall. apply Forall_forall. intros c Hc%list_elem_of_In. by apply Hall.
Qed.

(** ** Properties *)

(** C8: a shell script that runs without asking is transparent: its syntax
    tree has only allowed nodes, and every command node in it is made of plain
    words that on their own are a known-safe command. *)
Theorem approved_script_transparent ps tps linux shell flag script :
  extract_bash_command [shell; flag; script] ≠ None → script ≠ $"zsh" → flag ≠ $"zsh" →
  is_known_safe_command ps tps linux [shell; flag; script] = true →
  ∃ t, tps script = Some t ∧ has_error t = false ∧
    ∀ n, n ∈ subnodes (root_node t) →
      node_allowed n = true ∧
      (is_command n = true →
       ∃ words, parse_plain_command_from_node n = Some words ∧
                is_safe_to_call_with_exec linux words = true).
Proof.
  intros Hx Hs Hf H.
  destruct (known_safe_script _ _ _ _ _ _ Hx Hs Hf H) as (t & all & Ht & Hall & _ & Hsafe).
  destruct (word_only_accepts _ _ Hall) as (He & Hok & nodes & Hperm & Hp).
  exists t. split_and!; [done..|]. intros n Hn. rewrite Forall_forall in Hok. split; [by apply Hok|].
  intros Hc. assert (n ∈ nodes) as [i Hi]%list_elem_of_lookup.
  { rewrite Hperm. apply list_elem_of_In, filter_In. split; [by apply list_elem_of_In|done]. }
  destruct (Forall2_lookup_l _ _ _ _ _ Hp Hi) as (words & Hw & Hpw). exists words.
  split; [done|]. by eapply Forall_lookup_1 in Hsafe.
Qed.

Definition no_powershell : rstring → rstring → PowershellParseOutcome := λ _ _, Failed.
Definition demo_grammar (script : rstring) : option tree :=
  if script =?s $"ls -1 | wc" then Some demo_tree else None.

Lemma approved_script_transparent_witness :
  ∃ t, demo_grammar $"ls -1 | wc" = Some t ∧ has_error t = false ∧
    ∀ n, n ∈ subnodes (root_node t) →
      node_allowed n = true ∧
      (is_command n = true →
       ∃ words, parse_plain_command_from_node n = Some words ∧
                is_safe_to_call_with_exec true words = true).
Proof.
  apply (approved_script_transparent no_powershell demo_grammar true $"zsh" $"-lc");
    [by vm_compute|by vm_compute|by vm_compute|vm_compute; reflexivity].
Defined.

(** C9: the two classifiers agree: a command that runs without asking is never
    one that [command_might_be_dangerous] flags (the first word alone may be
    "zsh", which the first classifier reads as "bash"). *)
Theorem approved_not_dangerous ps tps linux command :
  $"zsh" ∉ tail command →
  is_known_safe_command ps tps linux command = true →
  command_might_be_dangerous tps command = false.
Proof.
  intros Hz H. unfold command_might_be_dangerous.
  destruct (is_dangerous_to_call_with_exec command) eqn:Ed.
  { exfalso. destruct command as [|cmd0 args]; [done|]. cbn [is_dangerous_to_call_with_exec] in Ed.
    assert (cmd0 = $"rm" ∨ cmd0 = $"sudo") as Hc.
    { destruct (cmd0 =?s $"rm") eqn:E1; [left; by apply str_eqb_eq|].
      destruct (cmd0 =?s $"sudo") eqn:E2; [right; by apply str_eqb_eq|done]. }
    unfold is_known_safe_command in H. cbn [fmap list_fmap] in H.
    assert (zsh_as_bash cmd0 = cmd0) as E by (by destruct Hc as [-> | ->]). rewrite E in H.
    assert (parse_shell_lc_plain_commands tps (cmd0 :: (zsh_as_bash <$> args)) = None) as Hn.
    { unfold parse_shell_lc_plain_commands, extract_bash_command.
      destruct args as [|a1 [|a2 [|a3 args]]]; try done. cbn [fmap list_fmap].
      replace (detect_shell_type cmd0) with (@None ShellType) by (by destruct Hc as [-> | ->]).
      by rewrite orb_true_r. }
    rewrite Hn in H. destruct Hc as [-> | ->]; by destruct linux. }
  destruct (parse_shell_lc_plain_commands tps command) as [all|] eqn:Ep; [|done].
  unfold parse_shell_lc_plain_commands in Ep.
  destruct (extract_bash_command command) as [[sh script]|] eqn:Ex; [|done].
  unfold extract_bash_command in Ex.
  destruct command as [|shell [|flag [|script' [|? ?]]]]; try done.
  assert (script' = script) as -> by (destruct (_ || _) in Ex; [done|congruence]).
  cbn [mbind option_bind] in Ep.
  destruct (known_safe_script ps tps linux shell flag script) as (t & all' & Ht & Hall & _ & Hsafe);
    [unfold extract_bash_command; by rewrite Ex|set_solver..|done|].
  rewrite Ht in Ep. cbn [mbind option_bind] in Ep. rewrite Hall in Ep. injection Ep as ->.
  apply existsb_false. eapply Forall_impl; [exact Hsafe|]. intros c.
  apply exec_safe_not_dangerous.
Qed.

Lemma approved_not_dangerous_witness :
  command_might_be_dangerous demo_grammar [ $"zsh"; $"-lc"; $"ls -1 | wc"] = false.
Proof.
  apply (approved_not_dangerous no_powershell demo_grammar true); [vm_decide|vm_compute; reflexivity].
Defined.

(** A git command that runs without asking has one of the five listed
    subcommands as its first word that is not an option, nothing before it but
    options and the directory of a [-C], no option that redirects
    configuration or repository anywhere, and after it no flag that writes or
    executes; [git branch] has only query flags. *)
Theorem approved_git_shape linux cmd0 args :
  Path.file_name cmd0 = Some $"git" →
  is_safe_to_call_with_exec linux (cmd0 :: args) = true →
  ∃ pre sub post, args = pre ++ sub :: post ∧ git_options pre ∧ sub ∈ SAFE_GIT_SUBCOMMANDS ∧
    Forall (λ a, git_global_option_requires_prompt a = false) args ∧
    Forall (λ a, a ∉ UNSAFE_GIT_FLAGS ∧ starts_with $"--output=" a = false ∧
                 starts_with $"--exec=" a = false) post ∧
    (sub = $"branch" → Forall query_flag post).
Proof.
  intros Hn. cbn [is_safe_to_call_with_exec]. unfold executable_name_lookup_key. rewrite Hn.
  replace (linux && str_in $"git" LINUX_PROGRAMS) with false by (by destruct linux).
  change (str_in $"git" SAFE_PROGRAMS) with false.
  change ($"git" =?s $"base64") with false. change ($"git" =?s $"find") with false.
  change ($"git" =?s $"rg") with false. rewrite str_eqb_refl.
  destruct (git_has_unsafe_global_option (cmd0 :: args)) eqn:Eg; [done|].
  apply existsb_false in Eg. cbn [tail] in Eg.
  unfold find_git_subcommand, executable_name_lookup_key. rewrite bool_decide_eq_false_2 by (intros Hx; by apply Hx).
  destruct (git_subcommand_loop _ 1 false args) as [[idx sub]|] eqn:El; [|done].
  destruct (git_subcommand_loop_spec _ _ _ _ Eg El) as (pre & post & -> & Hidx & Hpre & Hsub).
  cbn [fst snd] in *. intros H. exists pre, sub, post. split_and!; try done.
  all: replace (drop (idx + 1) (cmd0 :: pre ++ sub :: post)) with post in H
    by (replace (idx + 1) with (S (length pre + 1)) by lia; cbn [drop];
        by rewrite drop_app_add).
  - assert (git_subcommand_args_are_read_only post = true) as Hro
      by (repeat case_match; [done|by apply andb_true_iff in H as [H _]|done]).
    apply negb_true_iff, existsb_false in Hro. eapply Forall_impl; [exact Hro|].
    cbn beta. intros a [[Ha ?]%orb_false_iff ?]%orb_false_iff. split_and!; [|done..].
    intros Hin%str_in_elem. congruence.
  - intros ->. change (str_in $"branch" [ $"status"; $"log"; $"diff"; $"show"]) with false in H.
    rewrite str_eqb_refl in H. apply andb_true_iff in H as [_ H].
    unfold git_branch_is_read_only in H. destruct post; [constructor|].
    by apply (branch_args_loop_flags false).
Qed.

Lemma approved_git_shape_witness :
  ∃ pre sub post, [ $"-C"; $"sub"; $"-p"; $"branch"; $"--list"] = pre ++ sub :: post ∧
    git_options pre ∧ sub ∈ SAFE_GIT_SUBCOMMANDS ∧
    Forall (λ a, git_global_option_requires_prompt a = false)
      [ $"-C"; $"sub"; $"-p"; $"branch"; $"--list"] ∧
    Forall (λ a, a ∉ UNSAFE_GIT_FLAGS ∧ starts_with $"--output=" a = false ∧
                 starts_with $"--exec=" a = false) post ∧
    (sub = $"branch" → Forall query_flag post).
Proof.
  apply (approved_git_shape true $"/usr/bin/git"); vm_compute; reflexivity.
Defined.

(** The argument of [sed -n] that is accepted is the one the source
    documents: one or two decimal numbers separated by a comma, then "p". *)
Theorem sed_arg_regex s :
  is_valid_sed_n_arg (Some s) = true ↔
  ∃ pre num, s = pre ++ num ++ $"p" ∧ num ≠ [] ∧ forallb is_ascii_digit num = true ∧
    (pre = [] ∨ ∃ a, pre = a ++ $"," ∧ a ≠ [] ∧ forallb is_ascii_digit a = true).
Proof.
  assert (∀ x, forallb is_ascii_digit x = true → 44%Z ∉ x) as Hcomma.
  { intros x Hx Hin%list_elem_of_In. rewrite forallb_forall in Hx. by apply Hx in Hin. }
  assert (∀ x : rstring, negb (is_empty x) = true ↔ x ≠ []) as Hne by (by intros []).
  unfold is_valid_sed_n_arg. split.
  - destruct (strip_suffix $"p" s) as [core|] eqn:E; [|done]. apply strip_suffix_Some in E as ->.
    pose proof (join_split 44%Z core) as Hj.
    destruct (split_on 44%Z core) as [|a [|b [|? ?]]]; try done; cbn in Hj; subst core.
    + intros [H1%Hne H2]%andb_true_iff. exists [], a. by split_and!; [..|left].
    + intros [[[H1%Hne H2%Hne]%andb_true_iff H3]%andb_true_iff H4]%andb_true_iff.
      exists (a ++ $","), b. rewrite <- !app_assoc. split_and!; [done..|]. right. by exists a.
  - intros (pre & num & -> & Hn & Hd & Hpre). rewrite app_assoc, strip_suffix_app.
    destruct Hpre as [-> | (a & -> & Ha & Had)].
    + cbn [app]. rewrite split_on_no_sep by auto. rewrite Hd. by apply Hne in Hn as ->.
    + rewrite <- app_assoc. change ($"," ++ num) with (44%Z :: num).
      rewrite split_on_app_sep, split_on_no_sep by auto. rewrite Hd, Had.
      apply Hne in Hn as ->. by apply Hne in Ha as ->.
Qed.

(** [--paginate] is refused after a git subcommand, where it is listed
    with the flags that execute external tools, but as the global option it
    is to git, before the subcommand, it passes. *)
Theorem git_paginate_unchecked ps tps :
  is_known_safe_command ps tps true [ $"git"; $"log"; $"--paginate"] = false ∧
  is_known_safe_command ps tps true [ $"git"; $"--paginate"; $"log"] = true.
Proof. split; vm_compute; reflexivity. Qed.

End Safety.
