(* ===== verification/HeadTailBuffer.v ===== *)
(** * Bounded process output (core/src/unified_exec/head_tail_buffer.rs)

    [HeadTailBuffer] keeps the first and the last bytes of what a process
    prints.  Counters are [usize] values in Z with the saturating operations
    the code uses.  The theorem: the buffer holds, at any time, exactly the
    first [head_budget] bytes of all that was pushed and the last
    [tail_budget] bytes of the rest, and accounts for every byte. *)

From S2P Require Import Prelude.

Module HeadTail.

Abbreviation byte := Z (only parsing).
Definition len (l : list byte) : Z := Z.of_nat (length l).

Record HeadTailBuffer := {
  max_bytes : Z;
  head_budget : Z;
  tail_budget : Z;
  head : list (list byte);
  tail : list (list byte);
  head_bytes : Z;
  tail_bytes : Z;
  omitted_bytes : Z;
}.

Definition UNIFIED_EXEC_OUTPUT_MAX_BYTES : Z := (1024 * 1024)%Z.

Definition new_buffer (max : Z) : HeadTailBuffer := {|
  max_bytes := max;
  head_budget := max / 2;
  tail_budget := sat_sub max (max / 2);
  head := []; tail := [];
  head_bytes := 0; tail_bytes := 0; omitted_bytes := 0 |}.

Definition default_buffer : HeadTailBuffer := new_buffer UNIFIED_EXEC_OUTPUT_MAX_BYTES.

Definition retained_bytes (b : HeadTailBuffer) : Z := sat_add (head_bytes b) (tail_bytes b).

(** Field updates. *)
Definition with_head (b : HeadTailBuffer) h hb : HeadTailBuffer := {|
  max_bytes := max_bytes b; head_budget := head_budget b; tail_budget := tail_budget b;
  head := h; tail := tail b; head_bytes := hb; tail_bytes := tail_bytes b;
  omitted_bytes := omitted_bytes b |}.
Definition with_tail (b : HeadTailBuffer) t tb om : HeadTailBuffer := {|
  max_bytes := max_bytes b; head_budget := head_budget b; tail_budget := tail_budget b;
  head := head b; tail := t; head_bytes := head_bytes b; tail_bytes := tb;
  omitted_bytes := om |}.

(** The [while excess > 0] loop on the front of the tail. *)
Fixpoint trim_loop (excess : Z) (t : list (list byte)) (tb om : Z) : list (list byte) * Z * Z :=
  match t with
  | [] => (t, tb, om)
  | front :: t' =>
      if (excess <=? 0)%Z then (t, tb, om)
      else if (len front <=? excess)%Z then
        trim_loop (excess - len front) t' (sat_sub tb (len front)) (sat_add om (len front))
      else (drop (Z.to_nat excess) front :: t', sat_sub tb excess, sat_add om excess)
  end.

Definition trim_tail_to_budget (b : HeadTailBuffer) : HeadTailBuffer :=
  let excess := sat_sub (tail_bytes b) (tail_budget b) in
  let '(t, tb, om) := trim_loop excess (tail b) (tail_bytes b) (omitted_bytes b) in
  with_tail b t tb om.

Definition push_to_tail (b : HeadTailBuffer) (chunk : list byte) : HeadTailBuffer :=
  if (tail_budget b =? 0)%Z then
    with_tail b (tail b) (tail_bytes b) (sat_add (omitted_bytes b) (len chunk))
  else if (tail_budget b <=? len chunk)%Z then
    let start := sat_sub (len chunk) (tail_budget b) in
    let kept := drop (Z.to_nat start) chunk in
    let dropped := sat_sub (len chunk) (len kept) in
    with_tail b [kept] (len kept)
      (sat_add (sat_add (omitted_bytes b) (tail_bytes b)) dropped)
  else
    trim_tail_to_budget
      (with_tail b (tail b ++ [chunk]) (sat_add (tail_bytes b) (len chunk)) (omitted_bytes b)).

Definition push_chunk (b : HeadTailBuffer) (chunk : list byte) : HeadTailBuffer :=
  if (max_bytes b =? 0)%Z then
    with_tail b (tail b) (tail_bytes b) (sat_add (omitted_bytes b) (len chunk))
  else if (head_bytes b <? head_budget b)%Z then
    let remaining_head := sat_sub (head_budget b) (head_bytes b) in
    if (len chunk <=? remaining_head)%Z then
      with_head b (head b ++ [chunk]) (sat_add (head_bytes b) (len chunk))
    else
      let head_part := take (Z.to_nat remaining_head) chunk in
      let tail_part := drop (Z.to_nat remaining_head) chunk in
      let b := if is_empty head_part then b
               else with_head b (head b ++ [head_part]) (sat_add (head_bytes b) (len head_part)) in
      push_to_tail b tail_part
  else push_to_tail b chunk.

Definition snapshot_chunks (b : HeadTailBuffer) : list (list byte) := head b ++ tail b.

(** The two loops that extend [out]. *)
Definition to_bytes (b : HeadTailBuffer) : list byte :=
  fold_left (λ out chunk, out ++ chunk) (tail b)
    (fold_left (λ out chunk, out ++ chunk) (head b) []).

Definition drain_chunks (b : HeadTailBuffer) : list (list byte) * HeadTailBuffer :=
  (head b ++ tail b,
   {| max_bytes := max_bytes b; head_budget := head_budget b; tail_budget := tail_budget b;
      head := []; tail := []; head_bytes := 0; tail_bytes := 0; omitted_bytes := 0 |}).

Example buffer_ex :
  let b := fold_left push_chunk [[1; 2; 3]; [4; 5]; [6]; [7; 8]]%Z (new_buffer 5) in
  to_bytes b = [1; 2; 6; 7; 8]%Z ∧ omitted_bytes b = 3%Z.
Proof. vm_compute. done. Qed.

(** ** Specification *)

(** The last [n] elements. *)
Definition lastn {A} (n : nat) (l : list A) : list A := drop (length l - n) l.

(** What the buffer shows after the bytes [pushed]. *)
Definition head_of (b : HeadTailBuffer) (pushed : list byte) : list byte :=
  take (Z.to_nat (head_budget b)) pushed.
Definition tail_of (b : HeadTailBuffer) (pushed : list byte) : list byte :=
  lastn (Z.to_nat (tail_budget b)) (drop (Z.to_nat (head_budget b)) pushed).

Definition holds (b : HeadTailBuffer) (pushed : list byte) : Prop :=
  (0 ≤ max_bytes b ∧ head_budget b = max_bytes b / 2 ∧
   tail_budget b = max_bytes b - max_bytes b / 2)%Z ∧
  concat (head b) = head_of b pushed ∧ head_bytes b = len (concat (head b)) ∧
  concat (tail b) = tail_of b pushed ∧ tail_bytes b = len (concat (tail b)) ∧
  omitted_bytes b = (len pushed - head_bytes b - tail_bytes b)%Z.

(** ** Lemmas *)

Lemma to_bytes_eq b : to_bytes b = concat (head b) ++ concat (tail b).
Proof.
  assert (∀ l (acc : list byte), fold_left (λ out chunk, out ++ chunk) l acc = acc ++ concat l) as H.
  { induction l as [|x l IH]; intros acc; cbn; [by rewrite app_nil_r|].
    by rewrite IH, app_assoc. }
  unfold to_bytes. by rewrite !H.
Qed.

Lemma lastn_all {A} n (l : list A) : length l ≤ n → lastn n l = l.
Proof. intros H. unfold lastn. by replace (length l - n) with 0 by lia. Qed.

Lemma lastn_app_ge {A} n (l c : list A) : n ≤ length c → lastn n (l ++ c) = lastn n c.
Proof.
  intros H. unfold lastn. rewrite length_app, drop_app_ge by lia. f_equal. lia.
Qed.

Lemma lastn_lastn_app {A} n (l c : list A) : lastn n (lastn n l ++ c) = lastn n (l ++ c).
Proof.
  destruct (decide (length l ≤ n)) as [Hle|Hgt]; [by rewrite (lastn_all n l)|].
  unfold lastn. rewrite (length_app l), (drop_app l), length_app, length_drop.
  destruct (decide (length c ≤ n)).
  - rewrite (drop_app_le (drop _ l)) by (rewrite length_drop; lia).
    rewrite drop_drop. replace (length l + length c - n - length l) with 0 by lia.
    rewrite drop_0. apply (f_equal (λ k, drop k l ++ c)). lia.
  - rewrite drop_app_ge by (rewrite length_drop; lia).
    rewrite (drop_ge l (length l + length c - n)) by lia. cbn [app]. f_equal. rewrite length_drop. lia.
Qed.

Lemma len_app a b : len (a ++ b) = (len a + len b)%Z.
Proof. unfold len. rewrite length_app. lia. Qed.

(** Equal pairs up to arithmetic. *)
Ltac pair_lia :=
  repeat match goal with |- (_, _) = (_, _) => apply (f_equal2 pair) end; first [done | lia].

Lemma trim_loop_spec excess t tb om :
  (0 ≤ excess ≤ len (concat t))%Z → tb = len (concat t) →
  (0 ≤ om ∧ om + excess ≤ USIZE_MAX)%Z →
  ∃ t', trim_loop excess t tb om = (t', (tb - excess)%Z, (om + excess)%Z) ∧
        concat t' = drop (Z.to_nat excess) (concat t).
Proof.
  revert excess tb om. induction t as [|f t IH]; intros excess tb om He Htb Hom; cbn [trim_loop concat] in *.
  - exists []. change (len []) with 0%Z in *. replace excess with 0%Z by lia.
    split; [pair_lia|done].
  - rewrite len_app in *. destruct (Z.leb_spec excess 0).
    { exists (f :: t). replace excess with 0%Z by lia. split; [pair_lia|done]. }
    assert (0 ≤ len f)%Z by (unfold len; lia). assert (0 ≤ len (concat t))%Z by (unfold len; lia).
    unfold sat_sub, sat_add. destruct (Z.leb_spec (len f) excess).
    + destruct (IH (excess - len f)%Z (Z.max (tb - len f) 0) (Z.min (om + len f) USIZE_MAX))
        as (t' & -> & Ht'); [lia..|].
      exists t'. split; [pair_lia|].
      rewrite Ht', drop_app_ge by (unfold len in *; lia). f_equal. unfold len in *. lia.
    + exists (drop (Z.to_nat excess) f :: t). split; [pair_lia|].
      cbn [concat]. rewrite drop_app_le by (unfold len in *; lia). done.
Qed.

(** Pushing onto the tail keeps the last bytes of everything after the head. *)
Lemma push_to_tail_spec b rest chunk :
  (0 < tail_budget b)%Z → concat (tail b) = lastn (Z.to_nat (tail_budget b)) rest →
  tail_bytes b = len (concat (tail b)) →
  (0 ≤ omitted_bytes b ∧ omitted_bytes b + tail_bytes b + len chunk ≤ USIZE_MAX)%Z →
  ∃ t om, push_to_tail b chunk = with_tail b t (len (concat t)) om ∧
    concat t = lastn (Z.to_nat (tail_budget b)) (rest ++ chunk) ∧
    om = (omitted_bytes b + tail_bytes b + len chunk - len (concat t))%Z.
Proof.
  intros Htb Ht Hb Hom. unfold push_to_tail. destruct (Z.eqb_spec (tail_budget b) 0); [lia|].
  assert (0 ≤ len (concat (tail b)))%Z by (unfold len; lia).
  assert (0 ≤ len chunk)%Z by (unfold len; lia).
  destruct (Z.leb_spec (tail_budget b) (len chunk)) as [Hle|Hlt].
  - unfold sat_sub, sat_add.
    set (kept := drop (Z.to_nat (Z.max (len chunk - tail_budget b) 0)) chunk).
    assert (kept = lastn (Z.to_nat (tail_budget b)) chunk) as Hk.
    { unfold kept, lastn. f_equal. unfold len in *. lia. }
    assert (len kept = tail_budget b) as Hl.
    { unfold kept, len in *. rewrite length_drop. lia. }
    exists [kept], (omitted_bytes b + tail_bytes b + len chunk - len kept)%Z.
    cbn [concat]. rewrite app_nil_r. split_and!; [|by rewrite lastn_app_ge by (unfold len in *; lia)|done].
    f_equal. lia.
  - unfold trim_tail_to_budget, with_tail. cbn [tail tail_bytes tail_budget omitted_bytes].
    assert (concat (tail b ++ [chunk]) = concat (tail b) ++ chunk) as Hc.
    { rewrite concat_app. cbn. by rewrite app_nil_r. }
    assert (len (concat (tail b)) ≤ tail_budget b)%Z as Hcap.
    { rewrite Ht. unfold lastn, len. rewrite length_drop. lia. }
    unfold sat_sub, sat_add.
    set (excess := Z.max (Z.min (tail_bytes b + len chunk) USIZE_MAX - tail_budget b) 0).
    destruct (trim_loop_spec excess (tail b ++ [chunk]) (Z.min (tail_bytes b + len chunk) USIZE_MAX)
      (omitted_bytes b)) as (t' & -> & Ht'); [rewrite ?Hc, ?len_app; lia..|].
    rewrite Hc in Ht'. assert (len (concat t') = tail_bytes b + len chunk - excess)%Z as Hl.
    { rewrite Ht'. unfold len in *. rewrite length_drop, length_app. lia. }
    exists t', (omitted_bytes b + excess)%Z. split_and!.
    + f_equal. lia.
    + rewrite Ht', Ht. rewrite <- (lastn_lastn_app _ rest chunk). rewrite <- Ht.
      unfold lastn. f_equal. rewrite length_app. unfold len in *. lia.
    + lia.
Qed.

(** Reads the fields of updated buffers. *)
Tactic Notation "fields" :=
  cbn [with_head with_tail head tail head_bytes tail_bytes omitted_bytes max_bytes head_budget tail_budget].
Tactic Notation "fields" "in" "*" :=
  cbn [with_head with_tail head tail head_bytes tail_bytes omitted_bytes max_bytes head_budget tail_budget] in *.

Lemma head_of_len b pushed : (0 ≤ head_budget b)%Z →
  len (head_of b pushed) = Z.min (head_budget b) (len pushed).
Proof. intros H. unfold head_of, len. rewrite length_take. lia. Qed.

(** A buffer whose head has room holds everything that was pushed. *)
Lemma holds_room b pushed : holds b pushed → (head_bytes b < head_budget b)%Z →
  (len pushed < head_budget b)%Z ∧ concat (head b) = pushed ∧ head_bytes b = len pushed ∧
  concat (tail b) = [] ∧ tail_bytes b = 0%Z ∧ omitted_bytes b = 0%Z.
Proof.
  intros (Hbud & Hh & Hhb & Ht & Htb & Hom) Hlt. pose proof (half_bounds (max_bytes b) (proj1 Hbud)).
  pose proof (head_of_len b pushed ltac:(lia)) as Hhl. rewrite Hh in Hhb.
  assert (len pushed < head_budget b)%Z as Hroom by lia.
  assert (head_of b pushed = pushed) as Hall by (unfold head_of; apply take_ge; unfold len in *; lia).
  assert (tail_of b pushed = []) as Hnil
    by (unfold tail_of; rewrite (drop_ge pushed) by (unfold len in *; lia); done).
  rewrite Hall in *. rewrite Hnil in Ht. rewrite Ht in Htb. change (len []) with 0%Z in Htb.
  split_and!; [done..|lia].
Qed.

(** A chunk that fits the room goes to the head whole. *)
Lemma push_fit_holds b pushed chunk : holds b pushed →
  (head_bytes b < head_budget b)%Z → (len chunk <= head_budget b - head_bytes b)%Z →
  (len pushed + len chunk ≤ USIZE_MAX)%Z →
  holds (with_head b (head b ++ [chunk]) (sat_add (head_bytes b) (len chunk))) (pushed ++ chunk).
Proof.
  intros Hb Hlt Hfit Hmax. destruct (holds_room b pushed Hb Hlt) as (Hroom & Hh & Hhb & Ht & Htb & Hom).
  destruct Hb as (Hbud & _). assert (0 ≤ len chunk)%Z by (unfold len; lia).
  split_and!; fields; try lia; rewrite ?concat_app; cbn [concat]; rewrite ?app_nil_r, ?Hh.
  - unfold head_of. fields. by rewrite take_ge by (rewrite length_app; unfold len in *; lia).
  - unfold sat_add. rewrite len_app. lia.
  - rewrite Ht. unfold tail_of. fields.
    by rewrite (drop_ge (pushed ++ chunk)) by (rewrite length_app; unfold len in *; lia).
  - by rewrite Ht.
  - unfold sat_add. rewrite len_app. lia.
Qed.

(** A longer one fills the head, and the rest of it starts the tail. *)
Lemma push_split_holds b pushed chunk r : holds b pushed → max_bytes b ≠ 0%Z →
  (head_bytes b < head_budget b)%Z → (head_budget b - head_bytes b < len chunk)%Z →
  (len pushed + len chunk ≤ USIZE_MAX)%Z → Z.of_nat r = (head_budget b - head_bytes b)%Z →
  is_empty (take r chunk) = false ∧
  holds (push_to_tail (with_head b (head b ++ [take r chunk]) (sat_add (head_bytes b) (len (take r chunk))))
           (drop r chunk)) (pushed ++ chunk).
Proof.
  intros Hb E0 Hlt Hsplit Hmax Hr.
  destruct (holds_room b pushed Hb Hlt) as (Hroom & Hh & Hhb & Ht & Htb & Hom).
  destruct Hb as (Hbud & _). pose proof (half_bounds (max_bytes b) (proj1 Hbud)) as Hhalf.
  assert (len (take r chunk) = head_budget b - len pushed)%Z as Hpl.
  { unfold len in *. rewrite length_take. lia. }
  assert (len (drop r chunk) = len chunk - (head_budget b - len pushed))%Z as Hdl.
  { unfold len in *. rewrite length_drop. lia. }
  split. { destruct (take r chunk); [change (len []) with 0%Z in Hpl; lia|done]. }
  set (b' := with_head b _ _).
  destruct (push_to_tail_spec b' [] (drop r chunk)) as (t & om & -> & Hct & Hom');
    [cbn; lia|cbn; by rewrite Ht|cbn; by rewrite Ht|cbn; lia|].
  assert (Z.to_nat (head_budget b) = length pushed + r) as Hhr by (unfold len in *; lia).
  unfold b' in *. fields in *. split_and!; fields; try lia.
  - rewrite concat_app. cbn [concat]. rewrite app_nil_r, Hh. unfold head_of. fields.
    by rewrite Hhr, take_app_add.
  - unfold sat_add. rewrite concat_app. cbn [concat]. rewrite app_nil_r, Hh, len_app.
    unfold len in *. lia.
  - rewrite Hct. unfold tail_of. fields. by rewrite Hhr, drop_app_add.
  - unfold sat_add in *. rewrite len_app. unfold len in *. lia.
Qed.

(** Once the head is full, everything goes to the tail. *)
Lemma push_full_holds b pushed chunk : holds b pushed → max_bytes b ≠ 0%Z →
  (head_budget b ≤ head_bytes b)%Z → (len pushed + len chunk ≤ USIZE_MAX)%Z →
  holds (push_to_tail b chunk) (pushed ++ chunk).
Proof.
  intros (Hbud & Hh & Hhb & Ht & Htb & Hom) E0 Hge Hmax.
  pose proof (half_bounds (max_bytes b) (proj1 Hbud)) as Hhalf.
  pose proof (head_of_len b pushed ltac:(lia)) as Hhl. rewrite <- Hh, <- Hhb in Hhl.
  assert (tail_bytes b ≤ len pushed - head_budget b)%Z as Htl.
  { rewrite Htb, Ht. unfold tail_of, lastn, len in *. rewrite !length_drop. lia. }
  destruct (push_to_tail_spec b (drop (Z.to_nat (head_budget b)) pushed) chunk)
    as (t & om & -> & Hct & Hom'); [lia|done|done|lia|].
  split_and!; fields; try lia; try done.
  - rewrite Hh. unfold head_of. fields. by rewrite take_app_le by (unfold len in *; lia).
  - rewrite Hct. unfold tail_of. fields. by rewrite drop_app_le by (unfold len in *; lia).
  - rewrite len_app. lia.
Qed.

Lemma push_chunk_holds b pushed chunk :
  holds b pushed → (len (pushed ++ chunk) ≤ USIZE_MAX)%Z →
  holds (push_chunk b chunk) (pushed ++ chunk).
Proof.
  intros Hb Hmax. rewrite len_app in Hmax. pose proof Hb as (Hbud & Hh & Hhb & Ht & Htb & Hom).
  unfold push_chunk. destruct (Z.eqb_spec (max_bytes b) 0) as [E0|E0].
  { assert (head_budget b = 0 ∧ tail_budget b = 0)%Z as [Hz1 Hz2] by (rewrite E0 in Hbud; change (0 / 2)%Z with 0%Z in Hbud; lia).
    split_and!; fields; try lia.
    - rewrite Hh. unfold head_of. fields. by rewrite Hz1.
    - rewrite Ht. unfold tail_of, lastn. fields. rewrite Hz2. by rewrite !drop_ge by lia.
    - assert (0 ≤ len chunk ∧ 0 ≤ head_bytes b ∧ 0 ≤ tail_bytes b)%Z
        by (rewrite Hhb, Htb; unfold len; lia).
      unfold sat_add. rewrite len_app. lia. }
  destruct (Z.ltb_spec (head_bytes b) (head_budget b)) as [Hlt|Hge]; [|by apply push_full_holds].
  unfold sat_sub. rewrite Z.max_l by lia.
  destruct (Z.leb_spec (len chunk) (head_budget b - head_bytes b)); [by apply push_fit_holds|].
  destruct (push_split_holds b pushed chunk (Z.to_nat (head_budget b - head_bytes b))) as [-> Hsplit]; try done.
  lia.
Qed.

Lemma new_buffer_holds max : (0 ≤ max)%Z → holds (new_buffer max) [].
Proof.
  intros Hm. pose proof (half_bounds max Hm).
  split_and!; cbn; unfold head_of, tail_of, lastn, sat_sub; try lia; cbn;
    by rewrite ?take_nil, ?drop_nil.
Qed.

(** After a drain the buffer starts over. *)
Lemma drain_holds b pushed : holds b pushed → holds (drain_chunks b).2 [].
Proof.
  intros (Hbud & _). split_and!; cbn; unfold head_of, tail_of, lastn; try lia; cbn;
    by rewrite ?take_nil, ?drop_nil.
Qed.

Lemma push_all_holds b pushed chunks :
  holds b pushed → (len (pushed ++ concat chunks) ≤ USIZE_MAX)%Z →
  holds (fold_left push_chunk chunks b) (pushed ++ concat chunks).
Proof.
  revert b pushed. induction chunks as [|c chunks IH]; intros b pushed Hb Hm; cbn [fold_left concat] in *.
  { by rewrite app_nil_r. }
  rewrite app_assoc in *. apply IH; [|done]. apply push_chunk_holds; [done|].
  rewrite len_app in Hm. unfold len in *. lia.
Qed.

(** ** Properties *)

(** The buffer keeps both ends of the output: after any chunks it shows the
    first half of its capacity from the start and the rest of it from the end
    of the bytes pushed, never more than its capacity, everything when that
    fits, and it counts the bytes in between. *)
Theorem buffer_keeps_both_ends max chunks :
  (0 ≤ max)%Z → (len (concat chunks) ≤ USIZE_MAX)%Z →
  let b := fold_left push_chunk chunks (new_buffer max) in
  let pushed := concat chunks in
  let h := Z.to_nat (max / 2) in
  let t := Z.to_nat (max - max / 2) in
  to_bytes b = take h pushed ++ lastn t (drop h pushed) ∧
  (len (to_bytes b) ≤ max)%Z ∧
  ((len pushed ≤ max)%Z → to_bytes b = pushed) ∧
  omitted_bytes b = (len pushed - len (to_bytes b))%Z ∧
  concat (snapshot_chunks b) = to_bytes b.
Proof.
  intros Hm Hl b pushed h t.
  destruct (push_all_holds (new_buffer max) [] chunks (new_buffer_holds max Hm) Hl)
    as (Hbud & Hh & Hhb & Ht & Htb & Hom). cbn [app] in *. fold b pushed in Hbud, Hh, Hhb, Ht, Htb, Hom.
  assert (max_bytes b = max) as Hmax.
  { unfold b. clear. assert (∀ l b0, max_bytes (fold_left push_chunk l b0) = max_bytes b0) as H.
    { induction l as [|c l IH]; intros b0; cbn; [done|]. rewrite IH.
      unfold push_chunk, push_to_tail, trim_tail_to_budget.
      repeat case_match; simplify_eq; reflexivity. }
    by rewrite H. }
  rewrite Hmax in Hbud. destruct Hbud as (_ & Hhbud & Htbud).
  unfold head_of, tail_of in *. rewrite Hhbud in Hh, Ht. rewrite Htbud in Ht. fold h in Hh, Ht. fold t in Ht.
  rewrite to_bytes_eq, Hh, Ht. pose proof (half_bounds max Hm).
  assert (∀ l, len (lastn t l) = Z.min (Z.of_nat t) (len l)) as Hlen.
  { intros l. unfold lastn, len. rewrite length_drop. lia. }
  split_and!; [done| | | |].
  - rewrite len_app, Hlen. unfold len. rewrite length_take. lia.
  - intros Hfit. rewrite lastn_all; [apply take_drop|].
    rewrite length_drop. unfold len in Hfit. lia.
  - rewrite Hom, Hhb, Htb, Hh, Ht, len_app. lia.
  - unfold snapshot_chunks. by rewrite concat_app, Hh, Ht.
Qed.

Lemma buffer_keeps_both_ends_witness :
  let b := fold_left push_chunk [[1; 2; 3]; [4; 5]; [6]; [7; 8]]%Z (new_buffer 5) in
  to_bytes b = [1; 2]%Z ++ [6; 7; 8]%Z ∧ (len (to_bytes b) ≤ 5)%Z ∧
  ((8 ≤ 5)%Z → to_bytes b = [1; 2; 3; 4; 5; 6; 7; 8]%Z) ∧
  omitted_bytes b = (8 - len (to_bytes b))%Z ∧ concat (snapshot_chunks b) = to_bytes b.
Proof. apply (buffer_keeps_both_ends 5 [[1; 2; 3]; [4; 5]; [6]; [7; 8]]%Z); vm_decide. Defined.

End HeadTail.
