(* ===== verification/Truncation.v ===== *)
(** * Truncating text (codex-rs/utils/string, codex-rs/utils/output-truncation)

    Output that is shown to a model is cut in the middle: a prefix and a suffix
    that fit a budget stay, with a marker that says how much went.  Module
    [Truncate] models utils/string/src/truncate.rs and
    [take_bytes_at_char_boundary] of lib.rs; module [OutputTruncation] models
    utils/output-truncation/src/lib.rs with the policy type it takes from
    codex-rs/protocol.  Byte positions are [usize] values in Z; a slice that is
    not at a char boundary is a panic, which is [None] here. *)

From S2P Require Import Prelude.

(** [str::len] as a [usize]. *)
Definition str_len (s : rstring) : Z := Z.of_nat (byte_len s).
Definition char_len (c : char) : Z := Z.of_nat (utf8_len c).

(** Splits at a byte position; [None] is the panic off a char boundary. *)
Fixpoint split_at_byte (n : Z) (s : rstring) : option (rstring * rstring) :=
  match s with
  | [] => if (n =? 0)%Z then Some ([], []) else None
  | c :: s' =>
      if (n =? 0)%Z then Some ([], s)
      else if (n <? char_len c)%Z then None
      else match split_at_byte (n - char_len c) s' with
           | Some (a, b) => Some (c :: a, b)
           | None => None
           end
  end.
Definition slice_to (s : rstring) (n : Z) : option rstring := fst <$> split_at_byte n s.
Definition slice_from (s : rstring) (n : Z) : option rstring := snd <$> split_at_byte n s.

(** [str::char_indices], from byte position [i]. *)
Fixpoint char_indices_from (i : Z) (s : rstring) : list (Z * char) :=
  match s with
  | [] => []
  | c :: s' => (i, c) :: char_indices_from (i + char_len c) s'
  end.
Definition char_indices : rstring → list (Z * char) := char_indices_from 0.

Module Truncate.

Definition U64_MAX : Z := (2 ^ 64 - 1)%Z.
(** [u64::try_from(n).unwrap_or(u64::MAX)] for a [usize], and back. *)
Definition u64_from_usize (n : Z) : Z := if (n <=? U64_MAX)%Z then n else U64_MAX.
Definition usize_from_u64 (n : Z) : Z := if (n <=? USIZE_MAX)%Z then n else USIZE_MAX.

Definition APPROX_BYTES_PER_TOKEN : Z := 4%Z.

Definition approx_token_count (text : rstring) : Z :=
  (sat_add (str_len text) (sat_sub APPROX_BYTES_PER_TOKEN 1) / APPROX_BYTES_PER_TOKEN)%Z.
Definition approx_bytes_for_tokens (tokens : Z) : Z := sat_mul tokens APPROX_BYTES_PER_TOKEN.
Definition approx_tokens_from_byte_count (bytes : Z) : Z :=
  (Z.min (bytes + sat_sub APPROX_BYTES_PER_TOKEN 1) U64_MAX / APPROX_BYTES_PER_TOKEN)%Z.

(** The state of the loop of [split_string]. *)
Record split_state := {
  prefix_end : Z;
  suffix_start : Z;
  removed_chars : Z;
  suffix_started : bool;
}.

Definition split_step (beginning_bytes tail_start_target : Z) (st : split_state) (ic : Z * char)
    : split_state :=
  let '(idx, ch) := ic in
  let char_end := (idx + char_len ch)%Z in
  if (char_end <=? beginning_bytes)%Z then
    {| prefix_end := char_end; suffix_start := suffix_start st;
       removed_chars := removed_chars st; suffix_started := suffix_started st |}
  else if (tail_start_target <=? idx)%Z then
    if suffix_started st then st
    else {| prefix_end := prefix_end st; suffix_start := idx;
            removed_chars := removed_chars st; suffix_started := true |}
  else {| prefix_end := prefix_end st; suffix_start := suffix_start st;
          removed_chars := sat_add (removed_chars st) 1; suffix_started := suffix_started st |}.

Definition split_string (s : rstring) (beginning_bytes end_bytes : Z) : option (Z * rstring * rstring) :=
  if is_empty s then Some (0%Z, [], [])
  else
    let len := str_len s in
    let tail_start_target := sat_sub len end_bytes in
    let st := fold_left (split_step beginning_bytes tail_start_target) (char_indices s)
                {| prefix_end := 0; suffix_start := len; removed_chars := 0; suffix_started := false |} in
    let start := if (suffix_start st <? prefix_end st)%Z then prefix_end st else suffix_start st in
    match slice_to s (prefix_end st), slice_from s start with
    | Some before, Some after => Some (removed_chars st, before, after)
    | _, _ => None
    end.

Definition split_budget (budget : Z) : Z * Z :=
  let l := (budget / 2)%Z in (l, (budget - l)%Z).

Definition ELLIPSIS : char := 8230%Z.
Definition format_truncation_marker (use_tokens : bool) (removed_count : Z) : rstring :=
  if use_tokens then ELLIPSIS :: show_nat (Z.to_nat removed_count) ++ $" tokens truncated" ++ [ELLIPSIS]
  else ELLIPSIS :: show_nat (Z.to_nat removed_count) ++ $" chars truncated" ++ [ELLIPSIS].

Definition removed_units (use_tokens : bool) (removed_bytes removed_chars : Z) : Z :=
  if use_tokens then approx_tokens_from_byte_count removed_bytes
  else u64_from_usize removed_chars.

Definition assemble_truncated_output (prefix suffix marker : rstring) : rstring :=
  prefix ++ marker ++ suffix.

Definition truncate_with_byte_estimate (s : rstring) (max_bytes : Z) (use_tokens : bool) : option rstring :=
  if is_empty s then Some []
  else
    let total_chars := Z.of_nat (length s) in
    if (max_bytes =? 0)%Z then
      Some (format_truncation_marker use_tokens (removed_units use_tokens (str_len s) total_chars))
    else if (str_len s <=? max_bytes)%Z then Some s
    else
      let total_bytes := str_len s in
      let '(left_budget, right_budget) := split_budget max_bytes in
      match split_string s left_budget right_budget with
      | None => None
      | Some (removed_chars, before, after) =>
          let marker := format_truncation_marker use_tokens
            (removed_units use_tokens (sat_sub total_bytes max_bytes) removed_chars) in
          Some (assemble_truncated_output before after marker)
      end.

Definition truncate_middle_chars (s : rstring) (max_bytes : Z) : option rstring :=
  truncate_with_byte_estimate s max_bytes false.

Definition truncate_middle_with_token_budget (s : rstring) (max_tokens : Z)
    : option (rstring * option Z) :=
  if is_empty s then Some ([], None)
  else if (0 <? max_tokens)%Z && (str_len s <=? approx_bytes_for_tokens max_tokens)%Z then Some (s, None)
  else
    match truncate_with_byte_estimate s (approx_bytes_for_tokens max_tokens) true with
    | None => None
    | Some truncated =>
        let total_tokens := u64_from_usize (approx_token_count s) in
        if truncated =?s s then Some (truncated, None) else Some (truncated, Some total_tokens)
    end.

(** The loop of [take_bytes_at_char_boundary], with its [break]. *)
Fixpoint last_boundary (maxb last_ok : Z) (l : list (Z * char)) : Z :=
  match l with
  | [] => last_ok
  | (i, ch) :: l' =>
      let nb := (i + char_len ch)%Z in
      if (maxb <? nb)%Z then last_ok else last_boundary maxb nb l'
  end.

Definition take_bytes_at_char_boundary (s : rstring) (maxb : Z) : option rstring :=
  if (str_len s <=? maxb)%Z then Some s
  else slice_to s (last_boundary maxb 0 (char_indices s)).

Example truncate_ex :
  truncate_middle_chars ($"0123456789" ++ [8230%Z] ++ $"abcdef") 9 =
    Some ($"0123" ++ ELLIPSIS :: $"8 chars truncated" ++ ELLIPSIS :: $"bcdef").
Proof. vm_compute. reflexivity. Qed.

Example truncate_tokens_ex :
  truncate_middle_with_token_budget $"0123456789abcdef" 2 =
    Some ($"0123" ++ ELLIPSIS :: $"2 tokens truncated" ++ ELLIPSIS :: $"cdef", Some 4%Z).
Proof. vm_compute. reflexivity. Qed.

(** ** Specification *)

(** The longest prefix, and the longest suffix, of at most [n] bytes. *)
Fixpoint fit (n : Z) (s : rstring) : rstring :=
  match s with
  | [] => []
  | c :: s' => if (char_len c <=? n)%Z then c :: fit (n - char_len c) s' else []
  end.
Definition fit_end (n : Z) (s : rstring) : rstring := rev (fit n (rev s)).

(** ** Lemmas *)

Lemma char_len_pos c : (1 ≤ char_len c ≤ 4)%Z.
Proof. unfold char_len, utf8_len. repeat case_match; lia. Qed.

Lemma str_len_nil : str_len [] = 0%Z.
Proof. done. Qed.
Lemma str_len_cons c s : str_len (c :: s) = (char_len c + str_len s)%Z.
Proof. unfold str_len, char_len, byte_len. cbn [sum_list_with]. apply Nat2Z.inj_add. Qed.
Lemma str_len_app a b : str_len (a ++ b) = (str_len a + str_len b)%Z.
Proof.
  induction a as [|c a IH]; cbn [app]; rewrite ?str_len_cons, ?IH, ?str_len_nil; lia.
Qed.
Lemma str_len_nonneg s : (0 ≤ str_len s)%Z.
Proof. unfold str_len. lia. Qed.
#[local] Hint Rewrite str_len_nil str_len_cons str_len_app : rust.

Lemma str_len_chars s : (Z.of_nat (length s) ≤ str_len s)%Z.
Proof.
  induction s as [|c s IH]; [done|]. rewrite str_len_cons. pose proof (char_len_pos c). cbn [length]. lia.
Qed.

Lemma str_len_rev s : str_len (rev s) = str_len s.
Proof.
  induction s as [|c s IH]; [done|]. cbn [rev]. autorewrite with rust. rewrite IH. lia.
Qed.

Lemma split_at_byte_app a b : split_at_byte (str_len a) (a ++ b) = Some (a, b).
Proof.
  induction a as [|c a IH]; cbn [app].
  - by destruct b.
  - cbn [split_at_byte]. rewrite str_len_cons. pose proof (char_len_pos c). pose proof (str_len_nonneg a).
    rewrite (proj2 (Z.eqb_neq _ 0)), (proj2 (Z.ltb_ge _ _)) by lia.
    replace (char_len c + str_len a - char_len c)%Z with (str_len a) by lia. by rewrite IH.
Qed.

(** What makes a prefix the longest that fits. *)
Lemma fit_spec n s : (0 ≤ n)%Z →
  ∃ r, s = fit n s ++ r ∧ (str_len (fit n s) ≤ n)%Z ∧
    ∀ c r', r = c :: r' → (n < str_len (fit n s) + char_len c)%Z.
Proof.
  revert n. induction s as [|c s IH]; intros n Hn; cbn [fit].
  - exists []. split_and!; [done|done|intros ?? [=]].
  - destruct (Z.leb_spec (char_len c) n) as [Hle|Hgt].
    + destruct (IH (n - char_len c)%Z) as (r & Hs & Hl & Hm); [lia|]. exists r. rewrite str_len_cons.
      split_and!; [cbn; congruence|lia|]. intros d r' Hd. specialize (Hm d r' Hd). lia.
    + exists (c :: s). split_and!; [done|done|]. intros ?? [= <- _]. rewrite str_len_nil. lia.
Qed.

Lemma fit_end_spec n s : (0 ≤ n)%Z →
  ∃ r, s = r ++ fit_end n s ∧ (str_len (fit_end n s) ≤ n)%Z ∧
    ∀ c r', r = r' ++ [c] → (n < char_len c + str_len (fit_end n s))%Z.
Proof.
  intros Hn. destruct (fit_spec n (rev s) Hn) as (r & Hs & Hl & Hm). exists (rev r). unfold fit_end.
  rewrite str_len_rev. split_and!; [|done|].
  - by rewrite <- rev_app_distr, <- Hs, rev_involutive.
  - intros c r' Hr. specialize (Hm c (rev r')). rewrite <- (rev_involutive r), Hr, rev_app_distr in Hm.
    specialize (Hm eq_refl). lia.
Qed.

(** The two pieces do not meet when the text is longer than both budgets. *)
Lemma fit_middle b e s : (0 ≤ b)%Z → (0 ≤ e)%Z → (b + e < str_len s)%Z →
  ∃ mid, s = fit b s ++ mid ++ fit_end e s ∧ mid ≠ [] ∧
    (∀ c m, mid = c :: m → b < str_len (fit b s) + char_len c)%Z ∧
    (∀ c m, mid = m ++ [c] → e < char_len c + str_len (fit_end e s))%Z.
Proof.
  intros Hb He Hs.
  destruct (fit_spec b s Hb) as (r & Hr & Hrl & Hrm). destruct (fit_end_spec e s He) as (l & Hl & Hll & Hlm).
  set (pre := fit b s) in *. set (post := fit_end e s) in *.
  assert (pre ++ r = l ++ post) as Heq by congruence.
  assert (str_len s = str_len pre + str_len r)%Z as Hlen by (by rewrite Hr, str_len_app).
  apply app_eq_inv in Heq as [(k & Hk & Hk2)|(k & Hk & Hk2)].
  - exfalso. rewrite Hk2, str_len_app in Hll. pose proof (str_len_nonneg k). lia.
  - exists k. split_and!; [congruence| | |].
    + intros ->. cbn in Hk2. rewrite Hk2 in Hlen. lia.
    + intros c m ->. cbn in Hk2. by apply (Hrm c (m ++ post)).
    + intros c m ->. apply (Hlm c (pre ++ m)). by rewrite Hk, app_assoc.
Qed.

Lemma char_indices_app i a b :
  char_indices_from i (a ++ b) = char_indices_from i a ++ char_indices_from (i + str_len a) b.
Proof.
  revert i. induction a as [|c a IH]; intros i; cbn [app char_indices_from].
  - by rewrite str_len_nil, Z.add_0_r.
  - rewrite IH, str_len_cons, Z.add_assoc. done.
Qed.

(** The chars of the prefix move [prefix_end]. *)
Lemma split_prefix b t a st i :
  prefix_end st = i → (i + str_len a ≤ b)%Z →
  fold_left (split_step b t) (char_indices_from i a) st =
    {| prefix_end := i + str_len a; suffix_start := suffix_start st;
       removed_chars := removed_chars st; suffix_started := suffix_started st |}.
Proof.
  revert i st. induction a as [|c a IH]; intros i st Hp Hb; cbn [char_indices_from fold_left].
  - rewrite str_len_nil, Z.add_0_r, <- Hp. by destruct st.
  - rewrite str_len_cons in *. pose proof (str_len_nonneg a). cbn [split_step].
    rewrite (proj2 (Z.leb_le _ _)) by lia. rewrite IH; [|done|lia]. cbn. f_equal. lia.
Qed.

(** Those in between are counted. *)
Lemma split_removed b t m st i :
  (∀ c m', m = c :: m' → b < i + char_len c)%Z → (∀ c m', m = m' ++ [c] → i + str_len m' < t)%Z →
  (0 ≤ removed_chars st)%Z → (removed_chars st + Z.of_nat (length m) ≤ USIZE_MAX)%Z →
  fold_left (split_step b t) (char_indices_from i m) st =
    {| prefix_end := prefix_end st; suffix_start := suffix_start st;
       removed_chars := removed_chars st + Z.of_nat (length m); suffix_started := suffix_started st |}.
Proof.
  revert i st. induction m as [|c m IH]; intros i st Hb Ht H0 Hmax; cbn [char_indices_from fold_left].
  - cbn [length]. rewrite Z.add_0_r. by destruct st.
  - pose proof (Hb c m eq_refl) as Hbc. pose proof (char_len_pos c). cbn [length] in *.
    assert (i < t)%Z as Hit.
    { destruct m as [|d m _] using rev_ind.
      - specialize (Ht c [] eq_refl). rewrite str_len_nil in Ht. lia.
      - specialize (Ht d (c :: m) eq_refl). pose proof (str_len_nonneg (c :: m)). lia. }
    cbn [split_step]. rewrite !(proj2 (Z.leb_gt _ _)) by lia.
    rewrite IH; cbn [prefix_end suffix_start removed_chars suffix_started].
    + f_equal. unfold sat_add. lia.
    + intros d m' ->. pose proof (char_len_pos d). lia.
    + intros d m' ->. specialize (Ht d (c :: m') eq_refl). rewrite str_len_cons in Ht. lia.
    + unfold sat_add, USIZE_MAX. lia.
    + unfold sat_add. lia.
Qed.

(** The first char of the suffix sets [suffix_start]. *)
Lemma split_suffix b t p st i :
  (b ≤ i)%Z → (t ≤ i)%Z → suffix_started st = true →
  fold_left (split_step b t) (char_indices_from i p) st = st.
Proof.
  revert i. induction p as [|c p IH]; intros i Hb Ht Hst; cbn [char_indices_from fold_left]; [done|].
  pose proof (char_len_pos c). cbn [split_step].
  rewrite (proj2 (Z.leb_gt _ _)), (proj2 (Z.leb_le _ _)), Hst by lia. apply IH; [lia|lia|done].
Qed.

(** [split_string] cuts out what neither budget covers and counts its chars. *)
Lemma split_string_spec s b e :
  (0 ≤ b)%Z → (0 ≤ e)%Z → (b + e < str_len s ≤ USIZE_MAX)%Z →
  ∃ mid, s = fit b s ++ mid ++ fit_end e s ∧
    split_string s b e = Some (Z.of_nat (length mid), fit b s, fit_end e s).
Proof.
  intros Hb He [Hs Hmax]. destruct (fit_middle b e s Hb He Hs) as (mid & Heq & Hne & Hf & Hl).
  destruct (fit_spec b s Hb) as (? & _ & Hpre & _). destruct (fit_end_spec e s He) as (? & _ & Hpost & _).
  exists mid. split; [done|]. set (pre := fit b s) in *. set (post := fit_end e s) in *.
  assert (str_len s = str_len pre + str_len mid + str_len post)%Z as Hlen
    by (rewrite Heq at 1; rewrite !str_len_app; lia).
  pose proof (str_len_nonneg pre). pose proof (str_len_nonneg post). pose proof (str_len_chars mid).
  assert (is_empty s = false) as Hes by (clear -Hs Hb He; destruct s; [rewrite str_len_nil in Hs; lia|done]).
  assert (char_indices s = char_indices_from 0 pre ++ char_indices_from (str_len pre) mid ++
            char_indices_from (str_len pre + str_len mid) post) as Hci
    by (unfold char_indices; rewrite Heq at 1; by rewrite !char_indices_app, Z.add_0_l).
  unfold split_string. rewrite Hes, Hci, !fold_left_app.
  rewrite (split_prefix _ _ pre) by (done || lia). cbn [suffix_start removed_chars suffix_started prefix_end].
  rewrite (split_removed _ _ mid); cbn [suffix_start removed_chars suffix_started prefix_end];
    [|done| |lia|lia].
  2:{ intros c m ->. specialize (Hl c m eq_refl). rewrite !str_len_app, str_len_cons, str_len_nil in *.
      unfold sat_sub. lia. }
  assert (split_at_byte (0 + str_len pre) s = Some (pre, mid ++ post)) as Hs1
    by (rewrite Z.add_0_l, Heq at 1; apply split_at_byte_app).
  assert (split_at_byte (str_len pre + str_len mid) s = Some (pre ++ mid, post)) as Hs2.
  { rewrite Heq at 1. rewrite app_assoc, <- str_len_app. apply split_at_byte_app. }
  assert (b < str_len pre + str_len mid)%Z as Hbm.
  { destruct mid as [|c m]; [done|]. specialize (Hf c m eq_refl). rewrite str_len_cons.
    pose proof (str_len_nonneg m). lia. }
  destruct post as [|c post'] eqn:Ep.
  - cbn [char_indices_from fold_left suffix_start removed_chars suffix_started prefix_end].
    rewrite str_len_nil in *. rewrite (proj2 (Z.ltb_ge _ _)) by lia.
    unfold slice_to, slice_from. rewrite Hs1. replace (str_len s) with (str_len pre + str_len mid)%Z by lia.
    by rewrite Hs2.
  - cbn [char_indices_from fold_left]. pose proof (char_len_pos c). cbn [split_step].
    rewrite (proj2 (Z.leb_gt _ _)) by lia. rewrite (proj2 (Z.leb_le _ _)) by (unfold sat_sub; lia).
    cbn [suffix_started]. rewrite split_suffix by (done || unfold sat_sub; lia).
    cbn [suffix_start removed_chars prefix_end]. rewrite (proj2 (Z.ltb_ge _ _)) by lia.
    unfold slice_to, slice_from. rewrite Hs1, Hs2. done.
Qed.

(** [s] cut into a beginning and an end that are the longest within half of
    [max] bytes each, and what is between them. *)
Definition cut_middle (max : Z) (s pre mid post : rstring) : Prop :=
  s = pre ++ mid ++ post ∧ mid ≠ [] ∧
  (str_len pre ≤ max / 2 ∧ str_len post ≤ max - max / 2)%Z ∧
  (∀ c m, mid = c :: m → max / 2 < str_len (pre ++ [c]))%Z ∧
  (∀ c m, mid = m ++ [c] → max - max / 2 < str_len (c :: post))%Z.

(** All of the longest pieces, for any budget below the length. *)
Lemma cut_middle_fit max s : (0 ≤ max < str_len s)%Z →
  ∃ mid, s = fit (max / 2) s ++ mid ++ fit_end (max - max / 2) s ∧
    cut_middle max s (fit (max / 2) s) mid (fit_end (max - max / 2) s).
Proof.
  intros [H0 Hs]. pose proof (half_bounds max H0) as (Hb & He & _).
  destruct (fit_middle (max / 2) (max - max / 2) s) as (mid & Heq & Hne & Hf & Hl); [lia..|].
  destruct (fit_spec (max / 2) s) as (? & _ & ? & _); [lia|].
  destruct (fit_end_spec (max - max / 2) s) as (? & _ & ? & _); [lia|].
  exists mid. split; [done|]. repeat apply conj; [done..| |].
  - intros c m Hm. rewrite str_len_app, str_len_cons, str_len_nil, Z.add_0_r. by apply (Hf c m).
  - intros c m Hm. rewrite str_len_cons. by apply (Hl c m).
Qed.

(** The common routine: nothing to do within the budget, a marker otherwise. *)
Lemma truncate_with_byte_estimate_spec s max use_tokens :
  (0 ≤ max)%Z → (str_len s ≤ USIZE_MAX)%Z →
  ((str_len s ≤ max)%Z → truncate_with_byte_estimate s max use_tokens = Some s) ∧
  ((max < str_len s)%Z → ∃ pre mid post, cut_middle max s pre mid post ∧
     truncate_with_byte_estimate s max use_tokens =
       Some (pre ++ format_truncation_marker use_tokens
               (removed_units use_tokens (str_len s - max) (Z.of_nat (length mid))) ++ post)).
Proof.
  intros H0 Hmax. split; intros Hlen; unfold truncate_with_byte_estimate.
  - destruct s as [|c s]; [done|]. cbn [is_empty]. rewrite str_len_cons in *.
    pose proof (char_len_pos c). pose proof (str_len_nonneg s).
    rewrite (proj2 (Z.eqb_neq _ _)), (proj2 (Z.leb_le _ _)) by lia. done.
  - assert (is_empty s = false) as -> by (destruct s; [rewrite str_len_nil in Hlen; lia|done]).
    destruct (cut_middle_fit max s) as (mid & Hs & Hcut); [lia|].
    eexists _, mid, _. split; [exact Hcut|]. destruct (Z.eqb_spec max 0) as [->|Hnz].
    + destruct Hcut as (_ & _ & [Hpre Hpost] & _). cbn in Hpre, Hpost.
      change (0 / 2)%Z with 0%Z in *. change (0 - 0)%Z with 0%Z in *.
      assert (∀ t, str_len t ≤ 0 → t = [])%Z as Hnil.
      { intros [|c t]; [done|]. rewrite str_len_cons. pose proof (char_len_pos c).
        pose proof (str_len_nonneg t). lia. }
      rewrite (Hnil _ Hpre), (Hnil _ Hpost) in *. cbn in Hs. rewrite app_nil_r in Hs. subst mid.
      cbn [app]. by rewrite app_nil_r, Z.sub_0_r.
    + rewrite (proj2 (Z.leb_gt _ _)) by lia. unfold split_budget.
      pose proof (half_bounds max H0) as (Hb & He & _).
      destruct (split_string_spec s (max / 2) (max - max / 2)) as (mid' & Hs' & ->); [lia..|].
      assert (mid' = mid) as ->.
      { rewrite Hs in Hs' at 1. apply app_inv_head in Hs'. by apply app_inv_tail in Hs'. }
      unfold assemble_truncated_output, sat_sub. by rewrite Z.max_l by lia.
Qed.

(** The longest prefix within the budget is what [take_bytes_at_char_boundary] takes. *)
Lemma last_boundary_spec maxb i s : (i ≤ maxb)%Z →
  last_boundary maxb i (char_indices_from i s) = (i + str_len (fit (maxb - i) s))%Z.
Proof.
  revert i. induction s as [|c s IH]; intros i Hi; cbn [char_indices_from last_boundary fit].
  - rewrite str_len_nil. lia.
  - destruct (Z.ltb_spec maxb (i + char_len c)), (Z.leb_spec (char_len c) (maxb - i)); try lia.
    + rewrite str_len_nil. lia.
    + rewrite IH, str_len_cons by lia. replace (maxb - (i + char_len c))%Z with (maxb - i - char_len c)%Z by lia.
      lia.
Qed.

Lemma fit_all n s : (str_len s ≤ n)%Z → fit n s = s.
Proof.
  revert n. induction s as [|c s IH]; intros n H; cbn [fit]; [done|]. rewrite str_len_cons in H.
  pose proof (str_len_nonneg s). rewrite (proj2 (Z.leb_le _ _)) by lia. f_equal. apply IH. lia.
Qed.

Lemma take_bytes_fit s maxb : (0 ≤ maxb)%Z → take_bytes_at_char_boundary s maxb = Some (fit maxb s).
Proof.
  intros H0. unfold take_bytes_at_char_boundary. destruct (Z.leb_spec (str_len s) maxb) as [H|H].
  - by rewrite fit_all.
  - unfold char_indices. rewrite last_boundary_spec, Z.sub_0_r, Z.add_0_l by done.
    destruct (fit_spec maxb s H0) as (r & Hr & _). unfold slice_to. rewrite Hr at 2.
    by rewrite split_at_byte_app.
Qed.

(** ** Properties *)

(** Cutting a text to a number of bytes never splits a char and never
    fails; a text within the limit is unchanged, and a longer one keeps the
    longest beginning and the longest end that fit half of the limit each,
    around a marker with the exact number of chars that are gone. *)
Theorem truncate_middle_keeps_ends s max :
  (0 ≤ max)%Z → (str_len s ≤ USIZE_MAX)%Z →
  ((str_len s ≤ max)%Z → truncate_middle_chars s max = Some s) ∧
  ((max < str_len s)%Z → ∃ pre mid post, cut_middle max s pre mid post ∧
     truncate_middle_chars s max =
       Some (pre ++ [ELLIPSIS] ++ show_nat (length mid) ++ $" chars truncated" ++ [ELLIPSIS] ++ post)).
Proof.
  intros H0 Hmax. destruct (truncate_with_byte_estimate_spec s max false H0 Hmax) as [Hle Hgt].
  split; [exact Hle|]. intros Hlt. destruct (Hgt Hlt) as (pre & mid & post & Hcut & Hr).
  exists pre, mid, post. split; [done|]. unfold truncate_middle_chars. rewrite Hr.
  assert (Z.of_nat (length mid) ≤ USIZE_MAX)%Z.
  { destruct Hcut as (Hs & _). pose proof (str_len_chars s). rewrite Hs, !length_app in *. lia. }
  unfold format_truncation_marker, removed_units, u64_from_usize.
  rewrite (proj2 (Z.leb_le _ U64_MAX)), Nat2Z.id by (unfold U64_MAX, USIZE_MAX in *; lia).
  do 2 f_equal. cbn [app]. f_equal. by rewrite <- !app_assoc.
Qed.

Lemma truncate_middle_keeps_ends_witness :
  let s := $"0123456789" ++ [8230%Z] ++ $"abcdef" in
  ∃ pre mid post, cut_middle 9 s pre mid post ∧
    truncate_middle_chars s 9 =
      Some (pre ++ [ELLIPSIS] ++ show_nat (length mid) ++ $" chars truncated" ++ [ELLIPSIS] ++ post).
Proof.
  apply (truncate_middle_keeps_ends ($"0123456789" ++ [8230%Z] ++ $"abcdef") 9); vm_decide.
Defined.

(** Cutting to a number of tokens takes four bytes for a token, rounded
    up: a text within the budget comes back with no count, a longer one keeps
    both ends around the number of tokens over the budget, and the count of the
    original is returned unless the result is the text itself. *)
Theorem truncate_tokens_spec s max :
  (0 ≤ max)%Z → (str_len s + 3 ≤ USIZE_MAX)%Z →
  ((str_len s ≤ 4 * max)%Z → truncate_middle_with_token_budget s max = Some (s, None)) ∧
  ((4 * max < str_len s)%Z → ∃ pre mid post r, cut_middle (4 * max) s pre mid post ∧
     r = pre ++ [ELLIPSIS] ++ show_nat (Z.to_nat ((str_len s - 4 * max + 3) / 4))
           ++ $" tokens truncated" ++ [ELLIPSIS] ++ post ∧
     truncate_middle_with_token_budget s max =
       Some (r, if decide (r = s) then None else Some ((str_len s + 3) / 4)%Z)).
Proof.
  intros H0 Hmax. pose proof (str_len_nonneg s).
  unfold truncate_middle_with_token_budget, approx_bytes_for_tokens, sat_mul, APPROX_BYTES_PER_TOKEN.
  rewrite (Z.mul_comm max 4). split; intros Hlen.
  - destruct s as [|c s]; [done|]. cbn [is_empty]. rewrite str_len_cons in *.
    pose proof (char_len_pos c). pose proof (str_len_nonneg s).
    rewrite (proj2 (Z.ltb_lt _ _)), (proj2 (Z.leb_le _ _)) by lia. done.
  - assert (is_empty s = false) as -> by (destruct s; [rewrite str_len_nil in Hlen; lia|done]).
    rewrite Z.min_l, (proj2 (Z.leb_gt _ _)), andb_false_r by lia.
    destruct (truncate_with_byte_estimate_spec s (4 * max) true) as [_ Hgt]; [lia..|].
    destruct (Hgt Hlen) as (pre & mid & post & Hcut & ->).
    eexists pre, mid, post, _. split_and!; [done|reflexivity|].
    unfold format_truncation_marker, removed_units, approx_tokens_from_byte_count, approx_token_count,
      sat_sub, sat_add, APPROX_BYTES_PER_TOKEN, u64_from_usize.
    change (Z.max (4 - 1) 0) with 3%Z. unfold U64_MAX, USIZE_MAX in *. rewrite !Z.min_l by lia.
    cbn [app]. rewrite <- !app_assoc. cbn [app]. unfold str_eqb.
    assert ((str_len s + 3) / 4 <= 2 ^ 64 - 1)%Z by (apply Z.div_le_upper_bound; lia).
    rewrite (proj2 (Z.leb_le ((str_len s + 3) / 4) _)) by lia.
    case_bool_decide; case_decide; done.
Qed.

Lemma truncate_tokens_spec_witness :
  let s := $"0123456789abcdef" in
  ∃ pre mid post r, cut_middle (4 * 2) s pre mid post ∧
     r = pre ++ [ELLIPSIS] ++ show_nat (Z.to_nat ((str_len s - 4 * 2 + 3) / 4))
           ++ $" tokens truncated" ++ [ELLIPSIS] ++ post ∧
     truncate_middle_with_token_budget s 2 =
       Some (r, if decide (r = s) then None else Some ((str_len s + 3) / 4)%Z).
Proof. apply (truncate_tokens_spec $"0123456789abcdef" 2); vm_decide. Defined.

End Truncate.
