(* ===== verification/OutputTruncation.v ===== *)
(** * Truncating tool output (codex-rs/utils/output-truncation/src/lib.rs)

    A tool returns text, or a list of text and image items; before the model
    sees it, the text is cut to the budget of a [TruncationPolicy]
    (codex-rs/protocol), in bytes or in approximate tokens.  The theorem on
    [truncate_function_output_items_with_policy] says which items stay whole,
    which one is cut, and that nothing is dropped without notice. *)

From S2P Require Import Prelude Truncation.

Module OutputTruncation.
Import Truncate.

Inductive TruncationPolicy :=
| Bytes (bytes : Z)
| Tokens (tokens : Z).

Definition token_budget (p : TruncationPolicy) : Z :=
  match p with
  | Bytes bytes => usize_from_u64 (approx_tokens_from_byte_count bytes)
  | Tokens tokens => tokens
  end.

Definition byte_budget (p : TruncationPolicy) : Z :=
  match p with
  | Bytes bytes => bytes
  | Tokens tokens => approx_bytes_for_tokens tokens
  end.

Inductive ImageDetail := Auto | Low | High | Original.

Inductive FunctionCallOutputContentItem :=
| InputText (text : rstring)
| InputImage (image_url : rstring) (detail : option ImageDetail).

Definition truncate_text (content : rstring) (policy : TruncationPolicy) : option rstring :=
  match policy with
  | Bytes bytes => truncate_middle_chars content bytes
  | Tokens tokens => fst <$> truncate_middle_with_token_budget content tokens
  end.

Definition formatted_truncate_text (content : rstring) (policy : TruncationPolicy) : option rstring :=
  if (str_len content <=? byte_budget policy)%Z then Some content
  else
    let total_lines := length (str_lines content) in
    match truncate_text content policy with
    | None => None
    | Some r => Some ($"Total output lines: " ++ show_nat total_lines ++ [NL; NL] ++ r)
    end.

(** The texts and the images of a list, in order. *)
Definition texts (items : list FunctionCallOutputContentItem) : list rstring :=
  omap (λ i, match i with InputText t => Some t | InputImage _ _ => None end) items.
Definition images (items : list FunctionCallOutputContentItem) : list FunctionCallOutputContentItem :=
  omap (λ i, match i with InputImage u d => Some (InputImage u d) | InputText _ => None end) items.

Definition combine_step (combined text : rstring) : rstring :=
  (if is_empty combined then combined else combined ++ [NL]) ++ text.

Definition formatted_truncate_text_content_items_with_policy
    (items : list FunctionCallOutputContentItem) (policy : TruncationPolicy)
    : option (list FunctionCallOutputContentItem * option Z) :=
  let text_segments := texts items in
  if is_empty text_segments then Some (items, None)
  else
    let combined := fold_left combine_step text_segments [] in
    if (str_len combined <=? byte_budget policy)%Z then Some (items, None)
    else match formatted_truncate_text combined policy with
         | None => None
         | Some t => Some (InputText t :: images items, Some (approx_token_count combined))
         end.

Definition cost (policy : TruncationPolicy) (text : rstring) : Z :=
  match policy with
  | Bytes _ => str_len text
  | Tokens _ => approx_token_count text
  end.

Definition snippet_policy (policy : TruncationPolicy) (remaining_budget : Z) : TruncationPolicy :=
  match policy with
  | Bytes _ => Bytes remaining_budget
  | Tokens _ => Tokens remaining_budget
  end.

(** The loop over the items: [(out, omitted_text_items)]. *)
Fixpoint items_loop (policy : TruncationPolicy) (items : list FunctionCallOutputContentItem)
    (out : list FunctionCallOutputContentItem) (remaining_budget : Z) (omitted_text_items : nat)
    : option (list FunctionCallOutputContentItem * nat) :=
  match items with
  | [] => Some (out, omitted_text_items)
  | InputText text :: items' =>
      if (remaining_budget =? 0)%Z then
        items_loop policy items' out remaining_budget (omitted_text_items + 1)
      else if (cost policy text <=? remaining_budget)%Z then
        items_loop policy items' (out ++ [InputText text])
          (sat_sub remaining_budget (cost policy text)) omitted_text_items
      else
        match truncate_text text (snippet_policy policy remaining_budget) with
        | None => None
        | Some snippet =>
            if is_empty snippet then items_loop policy items' out 0 (omitted_text_items + 1)
            else items_loop policy items' (out ++ [InputText snippet]) 0 omitted_text_items
        end
  | InputImage image_url detail :: items' =>
      items_loop policy items' (out ++ [InputImage image_url detail]) remaining_budget omitted_text_items
  end.

Definition omitted_notice (n : nat) : FunctionCallOutputContentItem :=
  InputText ($"[omitted " ++ show_nat n ++ $" text items ...]").

Definition items_budget (policy : TruncationPolicy) : Z :=
  match policy with
  | Bytes _ => byte_budget policy
  | Tokens _ => token_budget policy
  end.

Definition truncate_function_output_items_with_policy
    (items : list FunctionCallOutputContentItem) (policy : TruncationPolicy)
    : option (list FunctionCallOutputContentItem) :=
  match items_loop policy items [] (items_budget policy) 0 with
  | None => None
  | Some (out, omitted_text_items) =>
      Some (if 0 <? omitted_text_items then out ++ [omitted_notice omitted_text_items] else out)
  end.

Definition I64_MAX : Z := (2 ^ 63 - 1)%Z.
Definition approx_tokens_from_byte_count_i64 (bytes : Z) : Z :=
  if (bytes <=? 0)%Z then 0%Z
  else
    let bytes := if (bytes <=? USIZE_MAX)%Z then bytes else USIZE_MAX in
    let tokens := approx_tokens_from_byte_count bytes in
    if (tokens <=? I64_MAX)%Z then tokens else I64_MAX.

Example items_ex :
  truncate_function_output_items_with_policy
    [InputText $"abc"; InputImage $"u" None; InputText $"defgh"; InputText $"x"; InputText $"y"] (Bytes 5)
  = Some [InputText $"abc"; InputImage $"u" None;
          InputText ($"d" ++ ELLIPSIS :: $"3 chars truncated" ++ ELLIPSIS :: $"h");
          InputText $"[omitted 2 text items ...]"].
Proof. vm_compute. reflexivity. Qed.

(** ** Lemmas *)

(** What the whole items of a list cost. *)
Definition spent (policy : TruncationPolicy) (items : list FunctionCallOutputContentItem) : Z :=
  foldr (λ t acc, (cost policy t + acc)%Z) 0%Z (texts items).

(** A text whose length leaves room for rounding up to tokens. *)
Definition sized (t : rstring) : Prop := (str_len t + 3 ≤ USIZE_MAX)%Z.

Lemma approx_token_count_sized t : sized t → approx_token_count t = ((str_len t + 3) / 4)%Z.
Proof.
  intros H. unfold approx_token_count, sat_add, sat_sub, APPROX_BYTES_PER_TOKEN.
  change (Z.max (4 - 1) 0) with 3%Z. unfold sized in H. by rewrite Z.min_l by lia.
Qed.

Lemma cost_nonneg policy t : (0 ≤ cost policy t)%Z.
Proof.
  destruct policy; cbn; [apply str_len_nonneg|]. unfold approx_token_count.
  apply Z.div_pos; [|done]. unfold sat_add, sat_sub, USIZE_MAX. pose proof (str_len_nonneg t). lia.
Qed.

(** Cutting a text never fails and never leaves it empty. *)
Lemma truncate_text_total t policy rem :
  sized t → (0 ≤ rem)%Z → (0 < str_len t)%Z →
  ∃ r, truncate_text t (snippet_policy policy rem) = Some r ∧ r ≠ [].
Proof.
  intros Hs H0 Hpos. unfold sized in Hs. assert (t ≠ []) as Hne by (intros ->; by rewrite str_len_nil in Hpos).
  assert (∀ (a b : rstring) x, a ++ x :: b ≠ []) as Hcons by (intros [|??] ??; done).
  assert (∀ max u, 0 ≤ max → ∃ r, truncate_with_byte_estimate t max u = Some r ∧ r ≠ [])%Z as H.
  { intros max u Hm. destruct (truncate_with_byte_estimate_spec t max u) as [Hle Hgt]; [lia..|].
    destruct (Z.le_gt_cases (str_len t) max) as [Hl|Hl]; [eauto|].
    destruct (Hgt Hl) as (pre & mid & post & _ & ->). eexists. split; [done|].
    destruct u; cbn; apply Hcons. }
  destruct policy as [b|k]; cbn [truncate_text snippet_policy]; [by apply H|].
  unfold truncate_middle_with_token_budget. destruct t as [|c t]; [done|]. cbn [is_empty].
  case_match; [by eexists|].
  destruct (H (approx_bytes_for_tokens rem) true) as (r & -> & Hr).
  { unfold approx_bytes_for_tokens, sat_mul, APPROX_BYTES_PER_TOKEN, USIZE_MAX. lia. }
  exists r. by case_match.
Qed.

(** Once the budget is used up, images pass and texts are counted. *)
Lemma items_loop_full policy items out n :
  items_loop policy items out 0 n = Some (out ++ images items, n + length (texts items)).
Proof.
  revert out n. induction items as [|[t|u d] items IH]; intros out n; cbn [items_loop].
  - cbn. by rewrite app_nil_r, Nat.add_0_r.
  - cbn [Z.eqb]. rewrite IH. change (length (texts (InputText t :: items))) with (S (length (texts items))).
    by rewrite <- Nat.add_assoc.
  - rewrite IH. cbn. by rewrite <- app_assoc.
Qed.

(** How a list of items splits at the budget [rem], and what the loop makes of it. *)
Definition loop_outcome policy rem items out n : Prop :=
  ∃ A B, items = A ++ B ∧ (spent policy A ≤ rem)%Z ∧
  match B with
  | [] => items_loop policy items out rem n = Some (out ++ items, n)
  | InputImage _ _ :: _ => False
  | InputText t :: B' =>
      (spent policy A = rem ∧
       items_loop policy items out rem n = Some (out ++ A ++ images B, n + length (texts B))) ∨
      (∃ r, (spent policy A < rem < spent policy A + cost policy t)%Z ∧
         truncate_text t (snippet_policy policy (rem - spent policy A)) = Some r ∧
         items_loop policy items out rem n =
           Some (out ++ A ++ InputText r :: images B', n + length (texts B')))
  end.

(** An item that is kept whole extends the first part. *)
Lemma loop_outcome_keep policy rem c i items out n :
  (spent policy [i] = c)%Z →
  items_loop policy (i :: items) out rem n = items_loop policy items (out ++ [i]) (rem - c) n →
  loop_outcome policy (rem - c) items (out ++ [i]) n → loop_outcome policy rem (i :: items) out n.
Proof.
  intros Hc Hstep (A & B & -> & Hs & HB).
  assert (spent policy (i :: A) = c + spent policy A)%Z as Hsp.
  { subst c. destruct i as [t|u d]; unfold spent; cbn [texts omap list_omap foldr]; [|done].
    change (foldr _ _ _) with (spent policy A). lia. }
  exists (i :: A), B. rewrite Hsp. split_and!; [done|lia|].
  destruct B as [|[t|u d] B']; [| |done].
  - cbn [app]. rewrite Hstep, HB. by rewrite <- app_assoc.
  - destruct HB as [[He HB]|(r & Hr & Ht & HB)]; [left|right; exists r]; cbn [app];
      rewrite Hstep, HB, <- app_assoc; split_and!; try done; try lia.
    by replace (rem - (c + spent policy A))%Z with (rem - c - spent policy A)%Z by lia.
Qed.

Lemma items_loop_spec policy items rem out n :
  (0 ≤ rem)%Z → Forall sized (texts items) → loop_outcome policy rem items out n.
Proof.
  revert rem out n. induction items as [|[t|u d] items IH]; intros rem out n H0 HF.
  - exists [], []. split_and!; [done|cbn; lia|]. cbn. by rewrite app_nil_r.
  - cbn in HF. apply Forall_cons in HF as [Ht HF]. pose proof (cost_nonneg policy t).
    destruct (Z.eqb_spec rem 0) as [->|Hz].
    { exists [], (InputText t :: items). split_and!; [done|cbn; lia|]. left. split; [done|].
      apply items_loop_full. }
    destruct (Z.leb_spec (cost policy t) rem) as [Hle|Hgt].
    + apply (loop_outcome_keep policy rem (cost policy t)); [cbn; lia| |apply IH; [lia|done]].
      cbn [items_loop]. rewrite (proj2 (Z.eqb_neq _ _)), (proj2 (Z.leb_le _ _)) by lia.
      unfold sat_sub. by rewrite Z.max_l by lia.
    + assert (0 < str_len t)%Z as Hpos.
      { destruct policy; cbn [cost] in Hgt; [lia|]. rewrite approx_token_count_sized in Hgt by done.
        pose proof (str_len_nonneg t). destruct (Z.eq_dec (str_len t) 0%Z) as [E|]; [|lia].
        rewrite E in Hgt. change ((0 + 3) / 4)%Z with 0%Z in Hgt. lia. }
      destruct (truncate_text_total t policy rem Ht H0 Hpos) as (r & Hr & Hne).
      exists [], (InputText t :: items). split_and!; [done|cbn; lia|]. right. exists r.
      change (spent policy []) with 0%Z. rewrite Z.sub_0_r. split_and!; [lia..|done|].
      cbn [items_loop app]. rewrite (proj2 (Z.eqb_neq _ _)), (proj2 (Z.leb_gt _ _)), Hr by lia.
      destruct r; [done|]. cbn [is_empty]. rewrite items_loop_full, <- app_assoc. done.
  - apply (loop_outcome_keep policy rem 0); [done| |rewrite Z.sub_0_r; apply IH; done].
    by rewrite Z.sub_0_r.
Qed.

(** ** Properties *)

(** The notice that closes the list when texts were left out. *)
Definition notice_for (dropped : list rstring) : list FunctionCallOutputContentItem :=
  if is_empty dropped then [] else [omitted_notice (length dropped)].

(** Cutting a list of items to a budget always succeeds and drops nothing
    without saying so: the items before the budget runs out are kept as they
    are and fit the budget, at most one text is cut to exactly what is left,
    every image stays in its place, and the texts after it are counted in a
    final notice. *)
Theorem output_items_within_budget policy items :
  (0 ≤ items_budget policy)%Z → Forall sized (texts items) →
  ∃ kept rest, items = kept ++ rest ∧ (spent policy kept ≤ items_budget policy)%Z ∧
  match rest with
  | [] => truncate_function_output_items_with_policy items policy = Some items
  | InputImage _ _ :: _ => False
  | InputText t :: rest' =>
      (spent policy kept = items_budget policy ∧
       truncate_function_output_items_with_policy items policy =
         Some (kept ++ images rest ++ notice_for (texts rest))) ∨
      (∃ r, (spent policy kept < items_budget policy < spent policy kept + cost policy t)%Z ∧
         truncate_text t (snippet_policy policy (items_budget policy - spent policy kept)) = Some r ∧
         truncate_function_output_items_with_policy items policy =
           Some (kept ++ InputText r :: images rest' ++ notice_for (texts rest')))
  end.
Proof.
  intros H0 HF. destruct (items_loop_spec policy items (items_budget policy) [] 0 H0 HF)
    as (A & B & Hi & Hs & HB).
  exists A, B. split_and!; [done..|]. unfold truncate_function_output_items_with_policy.
  assert (∀ l (d : list rstring), (if 0 <? 0 + length d then l ++ [omitted_notice (0 + length d)] else l)
                 = l ++ notice_for d) as Hn.
  { intros l [|x d]; cbn; [by rewrite app_nil_r|done]. }
  destruct B as [|[t|u d] B']; [by rewrite HB| |done].
  destruct HB as [[He ->]|(r & Hr & Ht & ->)]; [left|right; exists r]; split_and!; try done; try lia;
    rewrite Hn; cbn [app]; by rewrite <- ?app_assoc.
Qed.

Lemma output_items_within_budget_witness :
  let items := [InputText $"abc"; InputImage $"u" None; InputText $"defgh"; InputText $"x"] in
  ∃ kept rest, items = kept ++ rest ∧ (spent (Bytes 5) kept ≤ 5)%Z ∧
  match rest with
  | [] => truncate_function_output_items_with_policy items (Bytes 5) = Some items
  | InputImage _ _ :: _ => False
  | InputText t :: rest' =>
      (spent (Bytes 5) kept = 5%Z ∧
       truncate_function_output_items_with_policy items (Bytes 5) =
         Some (kept ++ images rest ++ notice_for (texts rest))) ∨
      (∃ r, (spent (Bytes 5) kept < 5 < spent (Bytes 5) kept + cost (Bytes 5) t)%Z ∧
         truncate_text t (snippet_policy (Bytes 5) (5 - spent (Bytes 5) kept)) = Some r ∧
         truncate_function_output_items_with_policy items (Bytes 5) =
           Some (kept ++ InputText r :: images rest' ++ notice_for (texts rest')))
  end.
Proof.
  apply (output_items_within_budget (Bytes 5)
    [InputText $"abc"; InputImage $"u" None; InputText $"defgh"; InputText $"x"]); [done|].
  repeat constructor; vm_compute; discriminate.
Defined.

End OutputTruncation.
