(* ===== verification/Template.v ===== *)
(** * Prompt templates (codex-rs/utils/template/src/lib.rs)

    A template is text with placeholders in double braces; doubled double
    braces stand for literal ones.  The parser reads it into segments and the
    set of the names it uses, and rendering substitutes values for the names,
    with an error for a name that is missing, unused or given twice.
    [BTreeMap] and [BTreeSet] are lists sorted by key, because the order in
    which they iterate decides which name an error reports.  Theorems: printing
    a template and parsing it gives it back, everything the parser accepts has
    such a printed form, and a complete account of rendering. *)

From stdpp Require Import lexico.
From S2P Require Import Prelude.

Module Template.

(** ** Ordered maps *)

(** [BTreeMap<String, V>] as the list of its entries in key order; the order of
    UTF-8 bytes is the order of code points. *)
Definition BTreeMap (V : Type) : Type := list (rstring * V).

(** [insert], with the value it replaces. *)
Fixpoint btree_insert {V} (k : rstring) (v : V) (m : BTreeMap V) : BTreeMap V * option V :=
  match m with
  | [] => ([(k, v)], None)
  | (k', v') :: m' =>
      match trichotomyT lexico k k' with
      | inleft (left _) => ((k, v) :: m, None)
      | inleft (right _) => ((k, v) :: m', Some v')
      | inright _ => let '(m'', old) := btree_insert k v m' in ((k', v') :: m'', old)
      end
  end.

Fixpoint btree_get {V} (k : rstring) (m : BTreeMap V) : option V :=
  match m with
  | [] => None
  | (k', v) :: m' => if k =?s k' then Some v else btree_get k m'
  end.
Definition contains_key {V} (k : rstring) (m : BTreeMap V) : bool :=
  match btree_get k m with Some _ => true | None => false end.

Definition BTreeSet : Type := BTreeMap unit.
Definition set_insert (k : rstring) (s : BTreeSet) : BTreeSet := (btree_insert k tt s).1.

(** [Template::placeholders]: the names in order. *)
Definition keys {V} (m : BTreeMap V) : list rstring := fst <$> m.

(** ** The parser *)

Inductive TemplateParseError :=
| EmptyPlaceholder (start : nat)
| NestedPlaceholder (start : nat)
| UnmatchedClosingDelimiter (start : nat)
| UnterminatedPlaceholder (start : nat).

Inductive TemplateRenderError :=
| DuplicateValue (name : rstring)
| ExtraValue (name : rstring)
| MissingValue (name : rstring).

Inductive TemplateError :=
| Parse (e : TemplateParseError)
| Render (e : TemplateRenderError).

Definition parse_error_message (e : TemplateParseError) : rstring :=
  match e with
  | EmptyPlaceholder start => $"template placeholder at byte " ++ show_nat start ++ $" is empty"
  | NestedPlaceholder start =>
      $"template placeholder starting at byte " ++ show_nat start ++ $" contains a nested `{`"
  | UnmatchedClosingDelimiter start =>
      $"template contains an unmatched `}` at byte " ++ show_nat start
  | UnterminatedPlaceholder start =>
      $"template placeholder starting at byte " ++ show_nat start ++ $" is missing `}`"
  end.

Definition render_error_message (e : TemplateRenderError) : rstring :=
  match e with
  | DuplicateValue name => $"template value `" ++ name ++ $"` was provided more than once"
  | ExtraValue name => $"template value `" ++ name ++ $"` is not used by this template"
  | MissingValue name => $"template placeholder `" ++ name ++ $"` is missing a value"
  end.

Inductive Segment :=
| Literal (l : rstring)
| Placeholder (name : rstring).

Record Template := {
  placeholders : BTreeSet;
  segments : list Segment;
}.

(** Extends the literal at the end, or starts one. *)
Definition push_literal (segs : list Segment) (l : rstring) : list Segment :=
  if is_empty l then segs
  else match last segs with
       | Some (Literal existing) => removelast segs ++ [Literal (existing ++ l)]
       | _ => segs ++ [Literal l]
       end.

(** The loop of [parse_placeholder]: [acc] is the text since the opening
    braces, [cursor] the byte position of [rest].  Returns the name, the next
    position and what follows. *)
Fixpoint placeholder_loop (start cursor : nat) (acc rest : rstring)
    : result (rstring * nat * rstring) TemplateParseError :=
  match rest with
  | [] => Err (UnterminatedPlaceholder start)
  | ch :: rest' =>
      if starts_with $"{{" rest then Err (NestedPlaceholder start)
      else if starts_with $"}}" rest then
        let placeholder := trim acc in
        if is_empty placeholder then Err (EmptyPlaceholder start)
        else Ok (placeholder, cursor + byte_len $"}}", drop 2 rest)
      else placeholder_loop start (cursor + utf8_len ch) (acc ++ [ch]) rest'
  end.

(** [rest] is the source from [start] on. *)
Definition parse_placeholder (start : nat) (rest : rstring) :=
  placeholder_loop start (start + byte_len $"{{") [] (drop 2 rest).

(** The loop of [parse]: [literal] is the source from [literal_start] to
    [cursor] and [rest] what follows; out of fuel is [None]. *)
Fixpoint parse_loop (fuel cursor : nat) (literal : rstring) (segs : list Segment) (phs : BTreeSet)
    (rest : rstring) : option (result Template TemplateParseError) :=
  match fuel with
  | O => None
  | S fuel' =>
      match rest with
      | [] => Some (Ok {| placeholders := phs; segments := push_literal segs literal |})
      | ch :: rest' =>
          if starts_with $"{{{{" rest then
            parse_loop fuel' (cursor + byte_len $"{{{{") []
              (push_literal (push_literal segs literal) $"{{") phs (drop 4 rest)
          else if starts_with $"}}}}" rest then
            parse_loop fuel' (cursor + byte_len $"}}}}") []
              (push_literal (push_literal segs literal) $"}}") phs (drop 4 rest)
          else if starts_with $"{{" rest then
            match parse_placeholder cursor rest with
            | Err e => Some (Err e)
            | Ok (placeholder, next_cursor, rest'') =>
                parse_loop fuel' next_cursor []
                  (push_literal segs literal ++ [Placeholder placeholder])
                  (set_insert placeholder phs) rest''
            end
          else if starts_with $"}}" rest then Some (Err (UnmatchedClosingDelimiter cursor))
          else parse_loop fuel' (cursor + utf8_len ch) (literal ++ [ch]) segs phs rest'
      end
  end.

Definition parse (source : rstring) : option (result Template TemplateParseError) :=
  parse_loop (S (length source)) 0 [] [] [] source.

(** ** Rendering *)

Fixpoint build_variable_map_loop (map : BTreeMap rstring) (variables : list (rstring * rstring))
    : result (BTreeMap rstring) TemplateRenderError :=
  match variables with
  | [] => Ok map
  | (name, value) :: variables' =>
      match btree_insert name value map with
      | (_, Some _) => Err (DuplicateValue name)
      | (map', None) => build_variable_map_loop map' variables'
      end
  end.
Definition build_variable_map (variables : list (rstring * rstring)) :=
  build_variable_map_loop [] variables.

Fixpoint render_segments (variables : BTreeMap rstring) (rendered : rstring) (segs : list Segment)
    : result rstring TemplateRenderError :=
  match segs with
  | [] => Ok rendered
  | Literal l :: segs' => render_segments variables (rendered ++ l) segs'
  | Placeholder name :: segs' =>
      match btree_get name variables with
      | None => Err (MissingValue name)
      | Some value => render_segments variables (rendered ++ value) segs'
      end
  end.

Definition render_template (t : Template) (vars : list (rstring * rstring))
    : result rstring TemplateRenderError :=
  let? variables := build_variable_map vars in
  match List.find (λ p : rstring * unit, negb (contains_key p.1 variables)) (placeholders t) with
  | Some p => Err (MissingValue p.1)
  | None =>
      match List.find (λ v : rstring * rstring, negb (contains_key v.1 (placeholders t))) variables with
      | Some v => Err (ExtraValue v.1)
      | None => render_segments variables [] (segments t)
      end
  end.

Definition render (template : rstring) (vars : list (rstring * rstring))
    : option (result rstring TemplateError) :=
  match parse template with
  | None => None
  | Some (Err e) => Some (Err (Parse e))
  | Some (Ok t) => Some (map_err Render (render_template t vars))
  end.

Example render_ex :
  render $"Hello, {{ name }}. {{{{x}}}} {{place}}{{ name}}"
    [($"place", $"here"); ($"name", $"Codex")]
  = Some (Ok $"Hello, Codex. {{x}} hereCodex").
Proof. vm_compute. reflexivity. Qed.

Example parse_ex :
  parse $"{{ b }} {{ a }} {{ b }}" =
    Some (Ok {| placeholders := [($"a", tt); ($"b", tt)];
                segments := [Placeholder $"b"; Literal $" "; Placeholder $"a"; Literal $" ";
                             Placeholder $"b"] |}).
Proof. vm_compute. reflexivity. Qed.

(** ** Specification of the syntax *)

Definition LB : char := 123%Z.
Definition RB : char := 125%Z.

(** The unpaired brace at the end of a literal, pairing from the left. *)
Definition brace_step (st : option char) (c : char) : option char :=
  if (c =? LB)%Z || (c =? RB)%Z then (if bool_decide (st = Some c) then None else Some c) else None.
Definition dangling (l : rstring) : option char := fold_left brace_step l None.

(** Doubles every pair of braces. *)
Fixpoint escape (l : rstring) : rstring :=
  match l with
  | [] => []
  | c :: l' =>
      match l' with
      | d :: l'' =>
          if ((c =? LB) || (c =? RB))%Z && (c =? d)%Z then [c; c; c; c] ++ escape l''
          else c :: escape l'
      | [] => [c]
      end
  end.

Definition print_segment (s : Segment) : rstring :=
  match s with
  | Literal l => escape l
  | Placeholder name => $"{{ " ++ name ++ $" }}"
  end.
Definition print (segs : list Segment) : rstring := concat (print_segment <$> segs).

(** Names that can stand between the braces. *)
Definition name_ok (n : rstring) : Prop :=
  n ≠ [] ∧ trim n = n ∧ contains $"{{" n = false ∧ contains $"}}" n = false.

(** Literals are maximal and not empty, and none ends in a lone opening brace
    before a placeholder. *)
Fixpoint wf_segments (segs : list Segment) : Prop :=
  match segs with
  | [] => True
  | Literal l :: segs' =>
      l ≠ [] ∧ match segs' with
               | [] => True
               | Literal _ :: _ => False
               | Placeholder _ :: _ => dangling l ≠ Some LB
               end ∧ wf_segments segs'
  | Placeholder n :: segs' => name_ok n ∧ wf_segments segs'
  end.

(** The names a list of segments uses. *)
Definition names (segs : list Segment) : list rstring :=
  omap (λ s, match s with Placeholder n => Some n | Literal _ => None end) segs.
Definition name_set (segs : list Segment) : BTreeSet := fold_left (λ s n, set_insert n s) (names segs) [].

(** ** Lemmas on literals *)

Lemma push_literal_nil segs : push_literal segs [] = segs.
Proof. done. Qed.

Lemma push_literal_lit segs a b : push_literal (segs ++ [Literal a]) b = segs ++ [Literal (a ++ b)].
Proof.
  unfold push_literal. destruct b; cbn [is_empty]; [by rewrite app_nil_r|].
  rewrite last_snoc, removelast_last. done.
Qed.

Lemma push_literal_new segs l : (∀ a, last segs ≠ Some (Literal a)) → l ≠ [] →
  push_literal segs l = segs ++ [Literal l].
Proof.
  intros H Hl. unfold push_literal. destruct l; [done|]. cbn [is_empty].
  destruct (last segs) as [[a|n]|] eqn:E; [|done|done]. by destruct (H a).
Qed.

(** Every list of segments ends in a literal or can take a new one. *)
Lemma last_segment segs :
  (∃ s' a, segs = s' ++ [Literal a]) ∨ (∀ a, last segs ≠ Some (Literal a)).
Proof.
  destruct segs as [|x segs _] using rev_ind; [right; done|].
  destruct x as [a|n]; [left; eauto|right]. intros a. by rewrite last_snoc.
Qed.

Lemma push_literal_app segs a b : push_literal (push_literal segs a) b = push_literal segs (a ++ b).
Proof.
  destruct a as [|c a]; [done|]. destruct (last_segment segs) as [(s' & x & ->)|H].
  - by rewrite !push_literal_lit, app_assoc.
  - rewrite !(push_literal_new segs) by done. by rewrite push_literal_lit.
Qed.

(** The literal that is being read. *)
Definition current (segs : list Segment) : rstring :=
  match last segs with Some (Literal l) => l | _ => [] end.

Lemma current_push segs l : current (push_literal segs l) = current segs ++ l.
Proof.
  unfold current. destruct (last_segment segs) as [(s' & x & ->)|H].
  - by rewrite push_literal_lit, !last_snoc.
  - destruct l as [|c l]; [by rewrite push_literal_nil, app_nil_r|].
    rewrite push_literal_new, last_snoc by done.
    destruct (last segs) as [[a|n]|] eqn:E; [by destruct (H a)|done|done].
Qed.

Lemma wf_app_literal segs l : wf_segments segs → (∀ a, last segs ≠ Some (Literal a)) → l ≠ [] →
  wf_segments (segs ++ [Literal l]).
Proof.
  induction segs as [|s segs IH]; cbn [app wf_segments]; [done|].
  intros Hwf Hlast Hl. assert (segs ≠ [] → ∀ a, last segs ≠ Some (Literal a)) as Hl2.
  { intros Hne a Ha. apply (Hlast a). by destruct segs. }
  destruct s as [x|n].
  - destruct Hwf as (Hx & Hn & Hw). destruct segs as [|s2 segs]; [by destruct (Hlast x)|].
    split_and!; [done| |apply IH; auto]. by destruct s2.
  - destruct Hwf as (Hx & Hw). split; [done|]. destruct segs as [|s2 segs]; [done|]. apply IH; auto.
Qed.

Lemma wf_extend segs a b : wf_segments (segs ++ [Literal a]) → wf_segments (segs ++ [Literal (a ++ b)]).
Proof.
  induction segs as [|s segs IH]; cbn [app wf_segments].
  - intros (Ha & _). split_and!; [|done|done]. destruct a; done.
  - destruct s as [x|n]; [|intros [? ?]; auto]. intros (Hx & Hn & Hw). split_and!; [done| |auto].
    by destruct segs as [|[y|m] segs].
Qed.

Lemma wf_push segs l : wf_segments segs → wf_segments (push_literal segs l).
Proof.
  intros Hwf. destruct (last_segment segs) as [(s' & x & ->)|H].
  - rewrite push_literal_lit. by apply wf_extend.
  - destruct l; [done|]. rewrite push_literal_new by done. by apply wf_app_literal.
Qed.

Lemma wf_app_placeholder segs n : wf_segments segs → name_ok n → dangling (current segs) ≠ Some LB →
  wf_segments (segs ++ [Placeholder n]).
Proof.
  intros Hwf Hn. induction segs as [|s segs IH]; cbn [app wf_segments] in *; [done|]. intros Hd.
  assert (segs ≠ [] → dangling (current segs) ≠ Some LB) as Hd2.
  { intros Hne. by destruct segs. }
  destruct s as [x|m].
  - destruct Hwf as (Hx & Hm & Hw). destruct segs as [|s2 segs].
    + by split_and!.
    + split_and!; [done| |apply IH; auto]. by destruct s2.
  - destruct Hwf as (Hx & Hw). split; [done|]. destruct segs; [done|]. apply IH; auto.
Qed.

(** ** The loop of the parser without its fuel *)

Lemma placeholder_loop_length start cur acc rest n cur' rest' :
  placeholder_loop start cur acc rest = Ok (n, cur', rest') → length rest' < length rest.
Proof.
  revert cur acc. induction rest as [|c rest IH]; intros cur acc; cbn [placeholder_loop]; [done|].
  repeat case_match; intros [=]; subst.
  - rewrite length_drop. cbn [length]. lia.
  - cbn [length]. match goal with H : placeholder_loop _ _ _ _ = _ |- _ => apply IH in H end. lia.
Qed.

Lemma parse_placeholder_length cur rest n cur' rest' :
  parse_placeholder cur rest = Ok (n, cur', rest') → length rest' < length rest.
Proof. intros H%placeholder_loop_length. rewrite length_drop in H. lia. Qed.

Ltac placeholder_shrinks :=
  match goal with H : parse_placeholder _ _ = Ok _ |- _ => apply parse_placeholder_length in H; cbn [length] in H end.

(** Any fuel above the length of the rest gives the same answer, and gives one. *)
Lemma parse_loop_fuel f1 f2 cur lit segs phs rest :
  length rest < f1 → length rest < f2 →
  parse_loop f1 cur lit segs phs rest = parse_loop f2 cur lit segs phs rest ∧
  parse_loop f1 cur lit segs phs rest ≠ None.
Proof.
  revert f2 cur lit segs phs rest. induction f1 as [|f1 IH]; intros f2 cur lit segs phs rest H1 H2; [lia|].
  destruct f2 as [|f2]; [lia|]. cbn [parse_loop]. destruct rest as [|c rest]; [done|].
  cbn [length] in *. repeat case_match; try done; apply IH; rewrite ?length_drop; cbn [length]; try lia;
    placeholder_shrinks; lia.
Qed.

Definition run cur lit segs phs rest := parse_loop (S (length rest)) cur lit segs phs rest.

Lemma parse_loop_run f cur lit segs phs rest :
  length rest < f → parse_loop f cur lit segs phs rest = run cur lit segs phs rest.
Proof. intros H. apply parse_loop_fuel; lia. Qed.

(** One round of the loop. *)
Lemma run_step cur lit segs phs ch rest' :
  let rest := ch :: rest' in
  run cur lit segs phs rest =
    if starts_with $"{{{{" rest then
      run (cur + 4) [] (push_literal (push_literal segs lit) $"{{") phs (drop 4 rest)
    else if starts_with $"}}}}" rest then
      run (cur + 4) [] (push_literal (push_literal segs lit) $"}}") phs (drop 4 rest)
    else if starts_with $"{{" rest then
      match parse_placeholder cur rest with
      | Err e => Some (Err e)
      | Ok (n, cur', rest'') =>
          run cur' [] (push_literal segs lit ++ [Placeholder n]) (set_insert n phs) rest''
      end
    else if starts_with $"}}" rest then Some (Err (UnmatchedClosingDelimiter cur))
    else run (cur + utf8_len ch) (lit ++ [ch]) segs phs rest'.
Proof.
  cbn zeta. unfold run at 1. cbn [parse_loop].
  repeat case_match; try done; apply parse_loop_run; rewrite ?length_drop; cbn [length]; try lia.
  placeholder_shrinks. lia.
Qed.

(** The pending literal can be pushed at any time. *)
Lemma run_push cur lit segs phs rest :
  run cur lit segs phs rest = run cur [] (push_literal segs lit) phs rest.
Proof.
  revert cur lit segs phs. induction rest as [|c rest IH]; intros cur lit segs phs; [done|].
  rewrite !run_step. cbn zeta. rewrite push_literal_nil.
  repeat case_match; try done. rewrite IH, (IH _ ([] ++ [c])). by rewrite push_literal_app.
Qed.

Lemma starts_two c s : starts_with [c; c] s = true ↔ ∃ r, s = c :: c :: r.
Proof. rewrite starts_with_true. split; intros [r ->]; by exists r. Qed.

(** A char that begins no delimiter is read into the current literal. *)
Lemma run_char cur segs phs c rest :
  (c = LB → head rest ≠ Some LB) → (c = RB → head rest ≠ Some RB) →
  run cur [] segs phs (c :: rest) = run (cur + utf8_len c) [] (push_literal segs [c]) phs rest.
Proof.
  intros Hl Hr. rewrite run_step. cbn zeta.
  assert (∀ b, (c = b → head rest ≠ Some b) → ∀ p, starts_with (b :: b :: p) (c :: rest) = false) as Hno.
  { intros b Hb p. apply not_true_is_false. intros [r Hr']%starts_with_true.
    injection Hr' as -> ->. by apply Hb. }
  rewrite (Hno LB Hl $"{{" : starts_with $"{{{{" _ = false), (Hno RB Hr $"}}" : starts_with $"}}}}" _ = false),
    (Hno LB Hl [] : starts_with $"{{" _ = false), (Hno RB Hr [] : starts_with $"}}" _ = false).
  by rewrite run_push.
Qed.

(** A doubled pair is read as the pair. *)
Lemma run_pair cur segs phs c rest :
  c = LB ∨ c = RB →
  run cur [] segs phs (c :: c :: c :: c :: rest) = run (cur + 4) [] (push_literal segs [c; c]) phs rest.
Proof. intros [-> | ->]; rewrite run_step; done. Qed.

Lemma escape_cons2 c d l :
  escape (c :: d :: l) =
    if ((c =? LB) || (c =? RB))%Z && (c =? d)%Z then [c; c; c; c] ++ escape l else c :: escape (d :: l).
Proof. done. Qed.

(** An escaped literal is read back. *)
Lemma run_escape l : ∀ cur segs phs rest,
  (dangling l = Some LB → head rest ≠ Some LB) → head rest ≠ Some RB →
  ∃ cur', run cur [] segs phs (escape l ++ rest) = run cur' [] (push_literal segs l) phs rest.
Proof.
  induction l as [l IH] using (induction_ltof1 _ (@length Z)). unfold ltof in IH.
  intros cur segs phs rest Hd Hr. destruct l as [|c [|d l]].
  - exists cur. by rewrite push_literal_nil.
  - eexists. cbn [escape app]. rewrite run_char; [reflexivity| |done]. intros ->. by apply Hd.
  - rewrite escape_cons2. destruct (((c =? LB) || (c =? RB))%Z && (c =? d)%Z) eqn:E.
    + apply andb_true_iff in E as [Hc ->%Z.eqb_eq]. cbn [app].
      assert (d = LB ∨ d = RB) as Hb by (apply orb_true_iff in Hc as [?%Z.eqb_eq|?%Z.eqb_eq]; auto).
      rewrite run_pair by done.
      destruct (IH l ltac:(cbn; lia) (cur + 4) (push_literal segs [d; d]) phs rest) as [cur' ->]; [|done|].
      { intros Hl. apply Hd. destruct Hb as [-> | ->]; done. }
      exists cur'. by rewrite push_literal_app.
    + cbn [app]. assert (head (escape (d :: l) ++ rest) = Some d) as Hh.
      { destruct l; cbn; [done|]. by case_match. }
      assert (c = LB ∨ c = RB → c ≠ d) as Hne.
      { intros Hb <-. rewrite Z.eqb_refl, andb_true_r in E. apply orb_false_iff in E as [?%Z.eqb_neq ?%Z.eqb_neq].
        tauto. }
      rewrite run_char; [|rewrite Hh; intros -> [=]; apply Hne; auto|rewrite Hh; intros -> [=]; apply Hne; auto].
      destruct (IH (d :: l) ltac:(cbn; lia) (cur + utf8_len c) (push_literal segs [c]) phs rest)
        as [cur' ->]; [|done|].
      { intros Hl. apply Hd. rewrite <- Hl. unfold dangling. cbn [fold_left]. f_equal.
        unfold brace_step. repeat case_match; repeat case_bool_decide; simplify_eq; try done;
          exfalso; apply Hne; auto; breflect; lia. }
      exists cur'. by rewrite push_literal_app.
Qed.

(** Text in which no delimiter starts is read up to the closing braces. *)
Lemma placeholder_loop_read start u : ∀ cur acc r,
  (∀ j, j < length u → starts_with $"{{" (drop j (u ++ $"}}" ++ r)) = false ∧
                       starts_with $"}}" (drop j (u ++ $"}}" ++ r)) = false) →
  is_empty (trim (acc ++ u)) = false →
  ∃ cur', placeholder_loop start cur acc (u ++ $"}}" ++ r) = Ok (trim (acc ++ u), cur', r).
Proof.
  induction u as [|c u IH]; intros cur acc r Hno Hne.
  - rewrite app_nil_r in *. eexists. cbn [app placeholder_loop lit]. cbn [starts_with strip_prefix lit].
    cbn. rewrite Hne. reflexivity.
  - cbn [app placeholder_loop]. destruct (Hno 0 ltac:(cbn; lia)) as [H1 H2].
    cbn [drop app] in H1, H2. rewrite H1, H2.
    destruct (IH (cur + utf8_len c) (acc ++ [c]) r) as [cur' ->].
    + intros j Hj. apply (Hno (S j)). cbn. lia.
    + by rewrite <- app_assoc.
    + exists cur'. by rewrite <- app_assoc.
Qed.

Lemma contains_false p s :
  p ≠ [] → contains p s = false ↔ ∀ j, starts_with p (drop j s) = false.
Proof.
  intros Hp. induction s as [|c s IH]; cbn [contains].
  - split; [|intros H; by rewrite (H 0 : starts_with p [] = false)].
    intros H j. rewrite drop_nil. by destruct p.
  - rewrite orb_false_iff, IH. split; [intros [H1 H2] [|j]; [done|apply H2]|].
    intros H. split; [apply (H 0)|]. intros j. apply (H (S j)).
Qed.

(** Delimiters do not appear by adding a space at both ends. *)
Lemma spaced_no_delimiter b n r j :
  b ≠ 32%Z → contains [b; b] n = false → j < length ($" " ++ n ++ $" ") →
  starts_with [b; b] (drop j (($" " ++ n ++ $" ") ++ r)) = false.
Proof.
  intros Hb Hn Hj. apply not_true_is_false. intros [r' Hr]%starts_with_true.
  pose proof (proj1 (contains_false [b; b] n ltac:(done)) Hn) as Hc.
  change $" " with [32%Z] in *. destruct j as [|j]; [cbn in Hr; congruence|].
  rewrite !length_app in Hj. cbn in Hj, Hr. rewrite <- app_assoc in Hr.
  destruct (decide (j = length n)) as [->|].
  { rewrite drop_app_length in Hr. cbn in Hr. congruence. }
  rewrite drop_app_le in Hr by lia. specialize (Hc j).
  destruct (drop j n) as [|x [|y l]] eqn:E.
  - apply (f_equal length) in E. rewrite length_drop in E. cbn in E. lia.
  - cbn in Hr. congruence.
  - cbn in Hr. injection Hr as -> -> _. apply not_true_iff_false in Hc. apply Hc.
    apply starts_with_true. by exists l.
Qed.

Lemma trim_spaced n : trim n = n → n ≠ [] → trim ($" " ++ n ++ $" ") = n.
Proof.
  intros Hn Hne. assert (trim_end (trim_start n) = n) as H by exact Hn.
  unfold trim. cbn [app lit trim_start]. replace (is_whitespace _) with true by done.
  assert (trim_start n ≠ []) as Hne2 by (intros E; rewrite E in H; cbn in H; congruence).
  rewrite trim_start_nonempty_app by done. unfold trim_end in *. rewrite rev_app_distr.
  cbn [rev app trim_start]. by replace (is_whitespace _) with true by done.
Qed.

Lemma run_placeholder cur segs phs n rest :
  name_ok n →
  ∃ cur', run cur [] segs phs (print_segment (Placeholder n) ++ rest) =
          run cur' [] (segs ++ [Placeholder n]) (set_insert n phs) rest.
Proof.
  intros (Hne & Ht & Hl & Hr). cbn [print_segment]. rewrite <- !app_assoc. cbn [app lit].
  rewrite run_step. cbn zeta.
  assert (∃ cur', parse_placeholder cur ($"{{ " ++ n ++ $" }}" ++ rest) = Ok (n, cur', rest)) as [cur' Hp].
  { unfold parse_placeholder.
    change (drop 2 ($"{{ " ++ n ++ $" }}" ++ rest)) with ($" " ++ n ++ $" }}" ++ rest).
    replace ($" " ++ n ++ $" }}" ++ rest) with (($" " ++ n ++ $" ") ++ $"}}" ++ rest)
      by (by rewrite <- !app_assoc).
    pose proof (trim_spaced n Ht Hne) as Hts.
    destruct (placeholder_loop_read cur ($" " ++ n ++ $" ") (cur + byte_len $"{{") [] rest) as [cur' H].
    - intros j Hj. split; [apply (spaced_no_delimiter LB)|apply (spaced_no_delimiter RB)]; done.
    - cbn [app]. rewrite Hts. by destruct n.
    - exists cur'. cbn [app] in *. rewrite H, Hts. done. }
  cbn [app lit] in Hp. rewrite Hp. exists cur'. done.
Qed.

Lemma wf_cons_tail s segs : wf_segments (s :: segs) → wf_segments segs.
Proof. destruct s; cbn; tauto. Qed.

Lemma print_cons s segs : print (s :: segs) = print_segment s ++ print segs.
Proof. done. Qed.

(** Printed segments are read one after the other. *)
Lemma run_print body : ∀ cur segs phs,
  wf_segments body → (∀ l a body', body = Literal l :: body' → last segs ≠ Some (Literal a)) →
  run cur [] segs phs (print body) =
    Some (Ok {| placeholders := fold_left (λ s n, set_insert n s) (names body) phs;
                segments := segs ++ body |}).
Proof.
  induction body as [|s body IH]; intros cur segs phs Hwf Hlast.
  { cbn. by rewrite app_nil_r. }
  rewrite print_cons. destruct s as [l|n].
  - destruct Hwf as (Hl & Hnext & Hw). cbn [print_segment].
    destruct (run_escape l cur segs phs (print body)) as [cur' ->].
    + intros Hd. destruct body as [|[a|m] body]; done.
    + by destruct body as [|[a|m] body].
    + rewrite push_literal_new by (done || (intros a; by apply (Hlast l a body))).
      rewrite IH; [by rewrite <- app_assoc|done|]. intros l2 a body' ->. done.
  - destruct Hwf as [Hn Hw]. destruct (run_placeholder cur segs phs n (print body) Hn) as [cur' ->].
    rewrite IH; [by rewrite <- app_assoc|done|]. intros l a body' _. by rewrite last_snoc.
Qed.

(** What the placeholder loop accepts is a name. *)
Lemma trim_infix s : ∃ a b, s = a ++ trim s ++ b.
Proof.
  destruct (trim_start_suffix s) as (w & Hw & _). unfold trim, trim_end.
  destruct (trim_start_suffix (rev (trim_start s))) as (w2 & Hw2 & _).
  apply (f_equal (@rev Z)) in Hw2. rewrite rev_involutive, rev_app_distr in Hw2.
  exists w, (rev w2). by rewrite <- Hw2.
Qed.

Lemma contains_infix p a s b : p ≠ [] → contains p (a ++ s ++ b) = false → contains p s = false.
Proof.
  intros Hp H. apply contains_false; [done|]. intros j. apply not_true_is_false. intros Hs.
  destruct (decide (j ≤ length s)) as [Hj|Hj].
  - pose proof (proj1 (contains_false _ _ Hp) H (length a + j)) as Hf. rewrite drop_app_add in Hf.
    rewrite drop_app_le in Hf by done. rewrite starts_with_app_l in Hf; done.
  - rewrite drop_ge in Hs by lia. by destruct p.
Qed.

(** No delimiter lies within what has been read, whatever comes next. *)
Definition clean_before (p acc rest : rstring) : Prop :=
  ∀ j, j < length acc → starts_with p (drop j (acc ++ rest)) = false.

Lemma clean_before_snoc p acc c rest :
  clean_before p acc (c :: rest) → starts_with p (c :: rest) = false → clean_before p (acc ++ [c]) rest.
Proof.
  intros H Hc j Hj. rewrite length_app in Hj. cbn in Hj. rewrite <- app_assoc. cbn [app].
  destruct (decide (j = length acc)) as [->|]; [by rewrite drop_app_length|]. apply H. lia.
Qed.

Lemma clean_before_contains p acc rest : p ≠ [] → clean_before p acc rest → contains p acc = false.
Proof.
  intros Hp H. apply contains_false; [done|]. intros j. apply not_true_is_false. intros Hs.
  destruct (decide (j < length acc)) as [Hj|Hj].
  - specialize (H j Hj). rewrite drop_app_le, starts_with_app_l in H; [done|done|lia].
  - rewrite drop_ge in Hs by lia. by destruct p.
Qed.

Lemma placeholder_loop_name start rest : ∀ cur acc n cur' rest',
  clean_before $"{{" acc rest → clean_before $"}}" acc rest →
  placeholder_loop start cur acc rest = Ok (n, cur', rest') → name_ok n.
Proof.
  induction rest as [|c rest IH]; intros cur acc n cur' rest' Hl Hr; cbn [placeholder_loop]; [done|].
  destruct (starts_with $"{{" (c :: rest)) eqn:El; [done|].
  destruct (starts_with $"}}" (c :: rest)) eqn:Er.
  - destruct (is_empty (trim acc)) eqn:Ee; [done|]. intros [=]. subst n.
    destruct (trim_infix acc) as (a & b & Hab).
    apply clean_before_contains in Hl, Hr; [|done..]. rewrite Hab in Hl, Hr.
    apply contains_infix in Hl, Hr; [|done..]. split_and!; [by destruct (trim acc)|apply trim_idemp|done|done].
  - apply IH; by apply clean_before_snoc.
Qed.

Lemma parse_placeholder_name cur rest n cur' rest' :
  parse_placeholder cur rest = Ok (n, cur', rest') → name_ok n.
Proof. apply placeholder_loop_name; intros j Hj; cbn in Hj; lia. Qed.

(** A brace left unpaired in the current literal is not followed by its like. *)
Definition unpaired (segs : list Segment) (rest : rstring) : Prop :=
  ∀ b, dangling (current segs) = Some b → head rest ≠ Some b.

Lemma dangling_snoc l c : dangling (l ++ [c]) = brace_step (dangling l) c.
Proof. unfold dangling. by rewrite fold_left_app. Qed.

Lemma unpaired_char segs c rest :
  unpaired segs (c :: rest) → starts_with $"{{" (c :: rest) = false → starts_with $"}}" (c :: rest) = false →
  unpaired (push_literal segs [c]) rest.
Proof.
  intros Hu Hl Hr b. rewrite current_push, dangling_snoc. unfold brace_step.
  destruct ((c =? LB)%Z || (c =? RB)%Z) eqn:Ec; [|done]. case_bool_decide; [done|]. intros [= <-] Hh.
  destruct rest as [|d rest]; [done|]. injection Hh as ->.
  apply orb_true_iff in Ec as [Ec|Ec]; apply Z.eqb_eq in Ec; subst; done.
Qed.

Lemma unpaired_pair segs c r rest :
  c = LB ∨ c = RB → unpaired segs (c :: r) → unpaired (push_literal segs [c; c]) rest.
Proof.
  intros Hc Hu b. rewrite current_push. change [c; c] with ([c] ++ [c]). rewrite app_assoc, !dangling_snoc.
  assert (dangling (current segs) ≠ Some c) as Hd by (intros E; by apply (Hu c E)).
  unfold brace_step. replace ((c =? LB)%Z || (c =? RB)%Z) with true by (by destruct Hc as [-> | ->]).
  rewrite (bool_decide_false (dangling _ = _)) by done. by rewrite bool_decide_true.
Qed.

Lemma names_app a b : names (a ++ b) = names a ++ names b.
Proof. apply omap_app. Qed.

Lemma names_push segs l : names (push_literal segs l) = names segs.
Proof.
  destruct (last_segment segs) as [(s' & x & ->)|H].
  - by rewrite push_literal_lit, !names_app.
  - destruct l; [done|]. rewrite push_literal_new, names_app by done. apply app_nil_r.
Qed.

Lemma name_set_push segs l : name_set (push_literal segs l) = name_set segs.
Proof. unfold name_set. by rewrite names_push. Qed.

Lemma name_set_placeholder segs n : name_set (segs ++ [Placeholder n]) = set_insert n (name_set segs).
Proof. unfold name_set. by rewrite names_app, fold_left_app. Qed.

(** Everything the parser accepts is well formed. *)
Lemma run_wf rest : ∀ cur segs t,
  wf_segments segs → unpaired segs rest → run cur [] segs (name_set segs) rest = Some (Ok t) →
  wf_segments (segments t) ∧ placeholders t = name_set (segments t).
Proof.
  induction rest as [rest IH] using (induction_ltof1 _ (@length Z)). unfold ltof in IH.
  intros cur segs t Hwf Hu. destruct rest as [|c rest]; [by intros [= <-]|].
  rewrite run_step. cbn zeta. rewrite push_literal_nil.
  assert (∀ b r cur', b = LB ∨ b = RB → c :: rest = b :: r → length (drop 4 (c :: rest)) < length (c :: rest) →
    run cur' [] (push_literal segs [b; b]) (name_set segs) (drop 4 (c :: rest)) = Some (Ok t) →
    wf_segments (segments t) ∧ placeholders t = name_set (segments t)) as Hpair.
  { intros b r cur' Hb Hbr Hlen Hrun. rewrite <- (name_set_push segs [b; b]) in Hrun.
    eapply IH; [exact Hlen|by apply wf_push| |exact Hrun].
    apply (unpaired_pair _ _ r); [done|by rewrite <- Hbr]. }
  assert (length (drop 4 (c :: rest)) < length (c :: rest)) as Hlen by (rewrite length_drop; cbn; lia).
  destruct (starts_with $"{{{{" (c :: rest)) eqn:E1.
  { apply starts_with_true in E1 as [r Hr]. eapply (Hpair LB); [by left|exact Hr|done]. }
  destruct (starts_with $"}}}}" (c :: rest)) eqn:E2.
  { apply starts_with_true in E2 as [r Hr]. eapply (Hpair RB); [by right|exact Hr|done]. }
  destruct (starts_with $"{{" (c :: rest)) eqn:E3.
  - destruct (parse_placeholder cur (c :: rest)) as [[[n cur'] rest']|e] eqn:Ep; [|done].
    pose proof (parse_placeholder_length _ _ _ _ _ Ep). rewrite <- name_set_placeholder.
    apply IH; [done| |].
    + apply wf_app_placeholder; [done|by eapply parse_placeholder_name|].
      apply starts_with_true in E3 as [r Hr]. intros Hd. apply (Hu LB Hd). by rewrite Hr.
    + intros b. unfold current. by rewrite last_snoc.
  - destruct (starts_with $"}}" (c :: rest)) eqn:E4; [done|]. rewrite run_push. cbn [app].
    rewrite <- (name_set_push segs [c]). apply IH; [cbn; lia|by apply wf_push|by apply unpaired_char].
Qed.

Lemma parse_wf s t : parse s = Some (Ok t) →
  wf_segments (segments t) ∧ placeholders t = name_set (segments t).
Proof. apply (run_wf s 0 []); done. Qed.

Lemma parse_print segs : wf_segments segs →
  parse (print segs) = Some (Ok {| placeholders := name_set segs; segments := segs |}).
Proof. intros H. apply (run_print segs 0 [] []); [done|]. by intros. Qed.

(** ** Lemmas on ordered maps *)

Definition ordered {V} (m : BTreeMap V) : Prop := StronglySorted lexico (keys m).

Lemma btree_get_keys {V} k (m : BTreeMap V) : contains_key k m = true ↔ k ∈ keys m.
Proof.
  unfold contains_key. induction m as [|[k' v] m IH]; cbn; [set_solver|].
  destruct (k =?s k') eqn:E.
  - apply str_eqb_eq in E as ->. set_solver.
  - rewrite IH. apply not_true_iff_false in E. rewrite str_eqb_eq in E. set_solver.
Qed.

Lemma btree_insert_keys {V} k (v : V) m x :
  x ∈ keys (btree_insert k v m).1 ↔ x = k ∨ x ∈ keys m.
Proof.
  induction m as [|[k' v'] m IH]; cbn [btree_insert]; [set_solver|].
  destruct (trichotomyT lexico k k') as [[?|Heq]|?]; [set_solver|subst; set_solver|].
  destruct (btree_insert k v m) as [m'' old]. cbn in *. set_solver.
Qed.

Lemma btree_insert_ordered {V} k (v : V) m : ordered m → ordered (btree_insert k v m).1.
Proof.
  unfold ordered. induction m as [|[k' v'] m IH]; intros Ho; cbn [btree_insert]; [by repeat constructor|].
  pose proof Ho as Ho'. apply StronglySorted_inv in Ho' as [Hs HF].
  destruct (trichotomyT lexico k k') as [[Hlt|Heq]|Hgt].
  - constructor; [done|]. constructor; [done|]. eapply Forall_impl; [exact HF|]. intros x Hx. by trans k'.
  - subst. done.
  - pose proof (btree_insert_keys k v m) as Hk. destruct (btree_insert k v m) as [m'' old]. cbn in *.
    constructor; [by apply IH|]. apply Forall_forall. intros x [->|Hx]%Hk; [done|].
    by apply (proj1 (Forall_forall _ _) HF).
Qed.

(** Inserting a new key finds no old value, and reads back. *)
Lemma btree_insert_old {V} k (v : V) m : ordered m →
  (k ∈ keys m ↔ is_Some (btree_insert k v m).2).
Proof.
  unfold ordered. induction m as [|[k' v'] m IH]; intros Ho; cbn [btree_insert].
  { split; [set_solver|]. cbn. by intros [? [=]]. }
  apply StronglySorted_inv in Ho as [Hs HF].
  destruct (trichotomyT lexico k k') as [[Hlt|Heq]|Hgt]; cbn.
  - split; [|by intros [? [=]]]. intros Hin. exfalso. apply (irreflexivity lexico k).
    apply elem_of_cons in Hin as [E|Hin]; [congruence|]. trans k'; [done|].
    by apply (proj1 (Forall_forall _ _) HF).
  - subst. split; [by eexists|set_solver].
  - destruct (btree_insert k v m) as [m'' old]. cbn in *. rewrite <- (IH Hs).
    split; [|set_solver]. intros [E|Hin]%elem_of_cons; [|done]. subst. by destruct (irreflexivity lexico k').
Qed.

Lemma btree_insert_get {V} k (v : V) m x :
  btree_get x (btree_insert k v m).1 = if x =?s k then Some v else btree_get x m.
Proof.
  induction m as [|[k' v'] m IH]; cbn [btree_insert]; [done|].
  destruct (trichotomyT lexico k k') as [[Hlt|Heq]|Hgt]; [done| |].
  - subst. cbn. by destruct (x =?s k').
  - destruct (btree_insert k v m) as [m'' old]. cbn [fst btree_get] in *. rewrite IH.
    destruct (x =?s k') eqn:E, (x =?s k) eqn:E2; try done.
    apply str_eqb_eq in E, E2. subst. by destruct (irreflexivity lexico k').
Qed.

(** ** Lemmas on rendering *)

(** The value a list of variables gives to a segment. *)
Definition substitute (vars : list (rstring * rstring)) (s : Segment) : rstring :=
  match s with
  | Literal l => l
  | Placeholder n => default [] (btree_get n vars)
  end.

Lemma btree_get_snoc (k n v : rstring) (l : list (rstring * rstring)) : n ∉ keys l →
  btree_get k (l ++ [(n, v)]) = if k =?s n then Some v else btree_get k l.
Proof.
  induction l as [|[k' v'] l IH]; intros Hn; cbn [app btree_get]; [done|].
  rewrite IH by set_solver. destruct (k =?s k') eqn:E, (k =?s n) eqn:E2; try done.
  apply str_eqb_eq in E, E2. subst. set_solver.
Qed.

(** A map that holds exactly the variables [l]. *)
Definition represents (m : BTreeMap rstring) (l : list (rstring * rstring)) : Prop :=
  ordered m ∧ NoDup (keys l) ∧ (∀ x, x ∈ keys m ↔ x ∈ keys l) ∧ ∀ x, btree_get x m = btree_get x l.

Lemma build_variable_map_loop_spec vars : ∀ m l, represents m l →
  match build_variable_map_loop m vars with
  | Ok m' => represents m' (l ++ vars)
  | Err e => ∃ n v l1 l2, e = DuplicateValue n ∧ vars = l1 ++ (n, v) :: l2 ∧
      NoDup (keys (l ++ l1)) ∧ n ∈ keys (l ++ l1)
  end.
Proof.
  induction vars as [|[n v] vars IH]; intros m l Hrep; cbn [build_variable_map_loop].
  { by rewrite app_nil_r. }
  pose proof Hrep as (Ho & Hnd & Hk & Hg). pose proof (btree_insert_old n v m Ho) as Hold.
  pose proof (btree_insert_keys n v m) as Hkeys. pose proof (btree_insert_ordered n v m Ho) as Ho'.
  pose proof (btree_insert_get n v m) as Hget.
  destruct (btree_insert n v m) as [m' [o|]]; cbn [fst snd] in *.
  - exists n, v, [], vars. rewrite app_nil_r. split_and!; [done..|]. apply Hk, Hold. by eexists.
  - assert (n ∉ keys l) as Hn by (rewrite <- Hk, Hold; by intros [? [=]]).
    assert (represents m' (l ++ [(n, v)])) as Hrep'.
    { split_and!; [done| | |].
      - unfold keys. rewrite fmap_app. apply NoDup_app. cbn. split_and!; [done| |by repeat constructor; set_solver].
        set_solver.
      - intros x. rewrite Hkeys, Hk. unfold keys. rewrite fmap_app. cbn. set_solver.
      - intros x. by rewrite Hget, Hg, btree_get_snoc. }
    specialize (IH m' _ Hrep'). destruct (build_variable_map_loop m' vars) as [m2|e].
    + by rewrite <- app_assoc in IH.
    + destruct IH as (n' & v' & l1 & l2 & -> & -> & H1 & H2). exists n', v', ((n, v) :: l1), l2.
      rewrite <- app_assoc in H1, H2. done.
Qed.

(** The first entry of an ordered map that fails a test on keys is the least. *)
Lemma find_least {V} (f : rstring → bool) (m : BTreeMap V) : ordered m →
  match List.find (λ e, f e.1) m with
  | Some e => e.1 ∈ keys m ∧ f e.1 = true ∧ ∀ x, x ∈ keys m → f x = true → x = e.1 ∨ lexico e.1 x
  | None => ∀ x, x ∈ keys m → f x = false
  end.
Proof.
  unfold ordered. induction m as [|[k v] m IH]; intros Ho; cbn [List.find]; [set_solver|].
  apply StronglySorted_inv in Ho as [Hs HF]. specialize (IH Hs). cbn [fst]. destruct (f k) eqn:Ef.
  - cbn. split_and!; [set_solver|done|]. intros x [->|Hx]%elem_of_cons _; [by left|right].
    by apply (proj1 (Forall_forall _ _) HF).
  - destruct (List.find _ m) as [e|].
    + destruct IH as (Hin & Hf & Hl). split_and!; [set_solver|done|].
      intros x [->|Hx]%elem_of_cons Hfx; [cbn in *; congruence|auto].
    + intros x [->|Hx]%elem_of_cons; auto.
Qed.

Lemma name_set_spec segs : ordered (name_set segs) ∧ ∀ n, n ∈ keys (name_set segs) ↔ n ∈ names segs.
Proof.
  unfold name_set.
  assert (∀ l (s : BTreeSet), ordered s → ordered (fold_left (λ s n, set_insert n s) l s) ∧
    ∀ n, n ∈ keys (fold_left (λ s n, set_insert n s) l s) ↔ n ∈ keys s ∨ n ∈ l) as H.
  { induction l as [|x l IH]; intros s Hs; cbn [fold_left]; [set_solver|].
    destruct (IH (set_insert x s)) as [H1 H2]; [by apply btree_insert_ordered|]. split; [done|].
    intros n. rewrite H2. unfold set_insert. rewrite btree_insert_keys. set_solver. }
  destruct (H (names segs) []) as [H1 H2]; [constructor|]. split; [done|]. intros n. rewrite H2. set_solver.
Qed.

(** With a value for every name, rendering is substitution. *)
Lemma render_segments_ok m vars segs out :
  (∀ x, btree_get x m = btree_get x vars) → (∀ n, n ∈ names segs → contains_key n m = true) →
  render_segments m out segs = Ok (out ++ concat (substitute vars <$> segs)).
Proof.
  intros Hg. revert out. induction segs as [|[l|n] segs IH]; intros out Hn; cbn [render_segments].
  - cbn. by rewrite app_nil_r.
  - rewrite IH by done. cbn. by rewrite <- app_assoc.
  - pose proof (Hn n ltac:(cbn; set_solver)) as Hc. unfold contains_key in Hc.
    destruct (btree_get n m) as [v|] eqn:E; [|done].
    rewrite IH by (intros x Hx; apply Hn; cbn; set_solver). rewrite <- app_assoc. cbn.
    by rewrite <- Hg, E.
Qed.

(** ** Properties *)

(** The printed and the parsed form of a template determine each other:
    printing well-formed segments (non-empty maximal literals, none with a lone
    opening brace before a placeholder, trimmed names without delimiters) and
    parsing the text gives them back with the set of the names they use; and
    the parser answers on every text, and whatever it accepts is well formed
    and the parse of its own printed form. *)
Theorem template_roundtrip :
  (∀ segs, wf_segments segs →
     parse (print segs) = Some (Ok {| placeholders := name_set segs; segments := segs |})) ∧
  (∀ s, ∃ r, parse s = Some r ∧
     ∀ t, r = Ok t →
       wf_segments (segments t) ∧ (∀ n, n ∈ keys (placeholders t) ↔ n ∈ names (segments t)) ∧
       parse (print (segments t)) = Some (Ok t)).
Proof.
  split; [apply parse_print|]. intros s. destruct (parse s) as [r|] eqn:E.
  - exists r. split; [done|]. intros t ->. destruct (parse_wf s t E) as [Hwf Hp].
    split_and!; [done| |].
    + rewrite Hp. apply name_set_spec.
    + rewrite parse_print by done. rewrite <- Hp. by destruct t.
  - exfalso. by destruct (parse_loop_fuel (S (length s)) (S (length s)) 0 [] [] [] s) as [_ []]; [lia..|].
Qed.

Lemma template_roundtrip_witness :
  let segs := [Literal $"a{ }}}b"; Placeholder $"x}"; Placeholder $"y z"; Literal $"{{{"] in
  parse (print segs) = Some (Ok {| placeholders := name_set segs; segments := segs |}).
Proof.
  apply (proj1 template_roundtrip [Literal $"a{ }}}b"; Placeholder $"x}"; Placeholder $"y z"; Literal $"{{{"]).
  vm_decide.
Defined.

(** What rendering [segs] with [vars] has to give. *)
Definition rendered (segs : list Segment) (vars : list (rstring * rstring))
    (r : option (result rstring TemplateError)) : Prop :=
  match r with
  | Some (Ok out) =>
      NoDup (keys vars) ∧ (∀ n, n ∈ keys vars ↔ n ∈ names segs) ∧
      out = concat (substitute vars <$> segs)
  | Some (Err (Render (DuplicateValue n))) =>
      ∃ v l1 l2, vars = l1 ++ (n, v) :: l2 ∧ NoDup (keys l1) ∧ n ∈ keys l1
  | Some (Err (Render (MissingValue n))) =>
      NoDup (keys vars) ∧ n ∈ names segs ∧ (n ∉ keys vars) ∧
      ∀ x, x ∈ names segs → x ∉ keys vars → x = n ∨ lexico n x
  | Some (Err (Render (ExtraValue n))) =>
      NoDup (keys vars) ∧ (∀ x, x ∈ names segs → x ∈ keys vars) ∧
      n ∈ keys vars ∧ (n ∉ names segs) ∧
      ∀ x, x ∈ keys vars → x ∉ names segs → x = n ∨ lexico n x
  | _ => False
  end.

(** Rendering a template that parses is decided by the variables alone:
    the text with every placeholder replaced, exactly once and without
    rescanning, when the names given are the names used; otherwise the first
    name given twice, else the least name without a value, else the least name
    without a use. *)
Theorem template_render_spec s t vars :
  parse s = Some (Ok t) → rendered (segments t) vars (render s vars).
Proof.
  intros Hs. unfold rendered, render. rewrite Hs. destruct (parse_wf s t Hs) as [_ Hp].
  destruct (name_set_spec (segments t)) as [Ho Hn]. rewrite <- Hp in Ho, Hn.
  unfold render_template, build_variable_map.
  pose proof (build_variable_map_loop_spec vars [] []) as Hb. cbn [app] in Hb.
  specialize (Hb ltac:(repeat constructor; set_solver)).
  destruct (build_variable_map_loop [] vars) as [m|e]; cbn [result_bind].
  2:{ destruct Hb as (n & v & l1 & l2 & -> & -> & H1 & H2). by exists v, l1, l2. }
  destruct Hb as (Hm & Hnd & Hk & Hg).
  assert (∀ {V} k (m' : BTreeMap V), negb (contains_key k m') = true ↔ k ∉ keys m') as Hnk.
  { intros V k m'. rewrite negb_true_iff, <- not_true_iff_false, btree_get_keys. done. }
  pose proof (find_least (λ k, negb (contains_key k m)) (placeholders t) Ho) as Hf.
  destruct (List.find _ (placeholders t)) as [p|].
  { destruct Hf as (Hin & Hf & Hleast). cbn. setoid_rewrite Hnk in Hleast. rewrite Hnk in Hf.
    setoid_rewrite Hn in Hleast. setoid_rewrite Hk in Hleast. rewrite Hk in Hf. apply Hn in Hin. done. }
  assert (∀ x, x ∈ names (segments t) → contains_key x m = true) as Hall.
  { intros x Hx. apply negb_false_iff, Hf, Hn, Hx. }
  assert (∀ x, x ∈ names (segments t) → x ∈ keys vars) as Hsub.
  { intros x Hx. by apply Hk, btree_get_keys, Hall. }
  pose proof (find_least (λ k, negb (contains_key k (placeholders t))) m Hm) as Hf2.
  destruct (List.find _ m) as [v|].
  { destruct Hf2 as (Hin & Hf2 & Hleast). cbn. setoid_rewrite Hnk in Hleast. rewrite Hnk in Hf2.
    setoid_rewrite Hn in Hleast. setoid_rewrite Hk in Hleast. rewrite Hn in Hf2. apply Hk in Hin. done. }
  rewrite (render_segments_ok m vars) by done. cbn [map_err app]. split_and!; [done| |done].
  intros n. split; [|apply Hsub]. intros Hin%Hk%Hf2. apply Hn, btree_get_keys, negb_false_iff, Hin.
Qed.

Lemma template_render_spec_witness :
  let s := $"{{a}} and {{ b }}" in
  ∃ t, parse s = Some (Ok t) ∧ rendered (segments t) [($"b", $"{{a}}"); ($"a", $"1")]
    (render s [($"b", $"{{a}}"); ($"a", $"1")]).
Proof.
  eexists. split; [vm_compute; reflexivity|].
  apply (template_render_spec $"{{a}} and {{ b }}"). vm_compute. reflexivity.
Defined.

End Template.
