(* ===== verification/ResponseItems.v ===== *)
(** * The items of a conversation (codex-rs/protocol, codex-rs/core/src/context)

    A conversation is a list of [ResponseItem]s (protocol/src/models.rs):
    messages, calls of tools and their outputs.  Some messages carry context
    that the program injected, recognised by the markers around it
    (core/src/context/fragment.rs, contextual_user_message.rs and
    core/src/event_mapping.rs); the others that a user wrote, and instructions
    from another agent, begin a turn.  JSON values, the JSON parser and the XML
    parser of hook prompts are parameters. *)

From S2P Require Import Prelude Truncation OutputTruncation.

Module Items.
Export OutputTruncation.

(** ** Data *)

Inductive ContentItem :=
| MsgInputText (text : rstring)
| MsgInputImage (image_url : rstring) (detail : option ImageDetail)
| MsgOutputText (text : rstring).

Inductive MessagePhase := Commentary | FinalAnswer.

Inductive FunctionCallOutputBody :=
| Text (content : rstring)
| ContentItems (items : list FunctionCallOutputContentItem).

Record FunctionCallOutputPayload := {
  body : FunctionCallOutputBody;
  success : option bool;
}.

Definition from_text (content : rstring) : FunctionCallOutputPayload :=
  {| body := Text content; success := None |}.

Inductive LocalShellStatus := Completed | InProgress | Incomplete.

Record LocalShellExecAction := {
  command : list rstring;
  timeout_ms : option Z;
  working_directory : option rstring;
  shell_env : option (gmap rstring rstring);
  shell_user : option rstring;
}.
Inductive LocalShellAction := Exec (a : LocalShellExecAction).

Inductive WebSearchAction :=
| WebSearch (query : option rstring) (queries : option (list rstring))
| OpenPage (url : option rstring)
| FindInPage (url pattern : option rstring)
| WebOther.

Inductive ReasoningItemReasoningSummary := SummaryText (text : rstring).
Inductive ReasoningItemContent :=
| ReasoningText (text : rstring)
| ReasoningPlainText (text : rstring).

Record GhostCommit := {
  ghost_id : rstring;
  ghost_parent : option rstring;
  preexisting_untracked_files : list rstring;
  preexisting_untracked_dirs : list rstring;
}.

Inductive InputModality := ModText | ModImage.
#[export] Instance InputModality_eq_dec : EqDecision InputModality.
Proof. solve_decision. Defined.

(** [Value] is the type of JSON values. *)
Inductive ResponseItem {Value : Type} :=
| Message (id : option rstring) (role : rstring) (content : list ContentItem)
    (phase : option MessagePhase)
| Reasoning (id : rstring) (summary : list ReasoningItemReasoningSummary)
    (content : option (list ReasoningItemContent)) (encrypted_content : option rstring)
| LocalShellCall (id call_id : option rstring) (status : LocalShellStatus) (action : LocalShellAction)
| FunctionCall (id : option rstring) (name : rstring) (namespace : option rstring)
    (arguments call_id : rstring)
| ToolSearchCall (id call_id status : option rstring) (execution : rstring) (arguments : Value)
| FunctionCallOutput (call_id : rstring) (output : FunctionCallOutputPayload)
| CustomToolCall (id status : option rstring) (call_id name input : rstring)
| CustomToolCallOutput (call_id : rstring) (name : option rstring) (output : FunctionCallOutputPayload)
| ToolSearchOutput (call_id : option rstring) (status execution : rstring) (tools : list Value)
| WebSearchCall (id status : option rstring) (action : option WebSearchAction)
| ImageGenerationCall (id status : rstring) (revised_prompt : option rstring) (result : rstring)
| GhostSnapshot (ghost_commit : GhostCommit)
| Compaction (encrypted_content : rstring)
| Other.
Arguments ResponseItem Value : clear implicits.

(** ** Injected context *)

Section Context.
Context {Value : Type}.

(** The XML parser of a hook prompt: its text and run id. *)
Variable from_xml_str : rstring → option (rstring * rstring).
(** Whether the JSON parser reads a text as an inter-agent message. *)
Variable is_inter_agent_json : rstring → bool.

(** [text.get(..marker.len())] compared without case, and the same at the end. *)
Definition starts_with_marker (marker trimmed : rstring) : bool :=
  match slice_to trimmed (str_len marker) with
  | Some candidate => eq_ignore_ascii_case candidate marker
  | None => false
  end.
Definition ends_with_marker (marker trimmed : rstring) : bool :=
  match slice_from trimmed (sat_sub (str_len trimmed) (str_len marker)) with
  | Some candidate => eq_ignore_ascii_case candidate marker
  | None => false
  end.

(** [ContextualUserFragment::matches_text] for a pair of markers. *)
Definition matches_text (markers : rstring * rstring) (text : rstring) : bool :=
  let '(START_MARKER, END_MARKER) := markers in
  if is_empty START_MARKER || is_empty END_MARKER then false
  else
    let trimmed := trim_start text in
    let starts := starts_with_marker START_MARKER trimmed in
    let trimmed := trim_end trimmed in
    starts && ends_with_marker END_MARKER trimmed.

Definition CONTEXTUAL_USER_FRAGMENTS : list (rstring * rstring) :=
  [($"# AGENTS.md instructions for ", $"</INSTRUCTIONS>");
   ($"<environment_context>", $"</environment_context>");
   ($"<skill>", $"</skill>");
   ($"<user_shell_command>", $"</user_shell_command>");
   ($"<turn_aborted>", $"</turn_aborted>");
   ($"<subagent_notification>", $"</subagent_notification>")].

Definition is_standard_contextual_user_text (text : rstring) : bool :=
  existsb (λ m, matches_text m text) CONTEXTUAL_USER_FRAGMENTS.

Definition parse_hook_prompt_fragment (text : rstring) : option (rstring * rstring) :=
  match from_xml_str (trim text) with
  | None => None
  | Some (text, hook_run_id) =>
      if is_empty (trim hook_run_id) then None else Some (text, hook_run_id)
  end.

Definition is_contextual_user_fragment (content_item : ContentItem) : bool :=
  match content_item with
  | MsgInputText text =>
      match parse_hook_prompt_fragment text with
      | Some _ => true
      | None => is_standard_contextual_user_text text
      end
  | _ => false
  end.

Definition is_contextual_user_message_content (message : list ContentItem) : bool :=
  existsb is_contextual_user_fragment message.

Definition CONTEXTUAL_DEVELOPER_PREFIXES : list rstring :=
  [$"<permissions instructions>"; $"<model_switch>"; $"<collaboration_mode>";
   $"<realtime_conversation>"; $"<personality_spec>"].

Definition is_contextual_dev_fragment (content_item : ContentItem) : bool :=
  match content_item with
  | MsgInputText text =>
      let trimmed := trim_start text in
      existsb (λ prefix, starts_with_marker prefix trimmed) CONTEXTUAL_DEVELOPER_PREFIXES
  | _ => false
  end.

Definition is_contextual_dev_message_content (message : list ContentItem) : bool :=
  existsb is_contextual_dev_fragment message.
Definition has_non_contextual_dev_message_content (message : list ContentItem) : bool :=
  existsb (λ c, negb (is_contextual_dev_fragment c)) message.

(** ** Turns *)

Definition is_inter_agent_instruction_content (content : list ContentItem) : bool :=
  match content with
  | [MsgInputText text] | [MsgOutputText text] => is_inter_agent_json text
  | _ => false
  end.

Definition is_user_turn_boundary (item : ResponseItem Value) : bool :=
  match item with
  | Message _ role content _ =>
      ((role =?s $"user") && negb (is_contextual_user_message_content content))
      || ((role =?s $"assistant") && is_inter_agent_instruction_content content)
  | _ => false
  end.

End Context.

Example matches_text_ex :
  is_standard_contextual_user_text $" <SKILL>do it</skill>
" = true ∧ is_standard_contextual_user_text $"<skill>do it" = false.
Proof. vm_compute. done. Qed.

End Items.
