(* ===== verification/Normalize.v ===== *)
(** * Normalising a conversation (codex-rs/core/src/context_manager/normalize.rs)

    The model service rejects a conversation in which a call has no output or an
    output no call.  These functions repair a list of items: missing outputs are
    inserted after their calls, outputs without a call are removed, removing an
    item removes its counterpart, and images are replaced for models that do not
    take them.  [error_or_panic] (core/src/util.rs) panics in builds with debug
    assertions, which is [None] here.  Theorems: the result is paired, items
    that are in order are left alone, and removal keeps pairs together. *)

From S2P Require Import Prelude OutputTruncation ResponseItems.

Module Normalize.
Export Items.

Section Normalize.
Context {Value : Type}.
Implicit Types items : list (ResponseItem Value).

(** Whether the build has debug assertions. *)
Variable debug_assertions : bool.
Definition error_or_panic : option unit := if debug_assertions then None else Some tt.

Definition IMAGE_CONTENT_OMITTED_PLACEHOLDER : rstring :=
  $"image content omitted because you do not support image input".

(** ** Missing outputs *)

Definition has_function_output (call_id : rstring) items : bool :=
  existsb (λ i, match i with FunctionCallOutput existing _ => existing =?s call_id | _ => false end) items.
Definition has_search_output (call_id : rstring) items : bool :=
  existsb (λ i, match i with
                | ToolSearchOutput (Some existing) _ _ _ => existing =?s call_id
                | _ => false end) items.
Definition has_custom_output (call_id : rstring) items : bool :=
  existsb (λ i, match i with CustomToolCallOutput existing _ _ => existing =?s call_id | _ => false end) items.

(** The output to insert after [item], if its own is missing. *)
Definition missing_output items (item : ResponseItem Value) : option (option (ResponseItem Value)) :=
  match item with
  | FunctionCall _ _ _ _ call_id =>
      if has_function_output call_id items then Some None
      else Some (Some (FunctionCallOutput call_id (from_text $"aborted")))
  | ToolSearchCall _ (Some call_id) _ _ _ =>
      if has_search_output call_id items then Some None
      else Some (Some (ToolSearchOutput (Some call_id) $"completed" $"client" []))
  | CustomToolCall _ _ call_id _ _ =>
      if has_custom_output call_id items then Some None
      else match error_or_panic with
           | None => None
           | Some _ => Some (Some (CustomToolCallOutput call_id None (from_text $"aborted")))
           end
  | LocalShellCall _ (Some call_id) _ _ =>
      if has_function_output call_id items then Some None
      else match error_or_panic with
           | None => None
           | Some _ => Some (Some (FunctionCallOutput call_id (from_text $"aborted")))
           end
  | _ => Some None
  end.

(** The first loop: positions of calls and the outputs to insert. *)
Fixpoint missing_outputs_to_insert items (idx : nat) (rest : list (ResponseItem Value))
    : option (list (nat * ResponseItem Value)) :=
  match rest with
  | [] => Some []
  | item :: rest' =>
      match missing_output items item with
      | None => None
      | Some o =>
          match missing_outputs_to_insert items (idx + 1) rest' with
          | None => None
          | Some l => Some (match o with None => l | Some output => (idx, output) :: l end)
          end
      end
  end.

(** [Vec::insert], which panics past the end. *)
Definition vec_insert (i : nat) (x : ResponseItem Value) items : option (list (ResponseItem Value)) :=
  if i <=? length items then Some (take i items ++ x :: drop i items) else None.

Fixpoint insert_all (l : list (nat * ResponseItem Value)) items : option (list (ResponseItem Value)) :=
  match l with
  | [] => Some items
  | (idx, output_item) :: l' =>
      match vec_insert (idx + 1) output_item items with
      | None => None
      | Some items' => insert_all l' items'
      end
  end.

Definition ensure_call_outputs_present items : option (list (ResponseItem Value)) :=
  match missing_outputs_to_insert items 0 items with
  | None => None
  | Some l => insert_all (rev l) items
  end.

(** ** Orphans *)

Definition function_call_ids items : list rstring :=
  omap (λ i, match i with FunctionCall _ _ _ _ call_id => Some call_id | _ => None end) items.
Definition tool_search_call_ids items : list rstring :=
  omap (λ i, match i with ToolSearchCall _ (Some call_id) _ _ _ => Some call_id | _ => None end) items.
Definition local_shell_call_ids items : list rstring :=
  omap (λ i, match i with LocalShellCall _ (Some call_id) _ _ => Some call_id | _ => None end) items.
Definition custom_tool_call_ids items : list rstring :=
  omap (λ i, match i with CustomToolCall _ _ call_id _ _ => Some call_id | _ => None end) items.

(** The test of [retain] on an item of [all]: [None] is the panic. *)
Definition keep_or_report (has_match : bool) : option bool :=
  if has_match then Some true
  else match error_or_panic with None => None | Some _ => Some false end.

Definition retain_item (all : list (ResponseItem Value)) (item : ResponseItem Value) : option bool :=
  match item with
  | FunctionCallOutput call_id _ =>
      keep_or_report (str_in call_id (function_call_ids all) || str_in call_id (local_shell_call_ids all))
  | CustomToolCallOutput call_id _ _ => keep_or_report (str_in call_id (custom_tool_call_ids all))
  | ToolSearchOutput call_id _ execution _ =>
      if execution =?s $"server" then Some true
      else match call_id with
           | Some call_id => keep_or_report (str_in call_id (tool_search_call_ids all))
           | None => Some true
           end
  | _ => Some true
  end.

Fixpoint retain_loop (all rest : list (ResponseItem Value)) : option (list (ResponseItem Value)) :=
  match rest with
  | [] => Some []
  | item :: rest' =>
      match retain_item all item with
      | None => None
      | Some keep =>
          match retain_loop all rest' with
          | None => None
          | Some l => Some (if keep then item :: l else l)
          end
      end
  end.

Definition remove_orphan_outputs items : option (list (ResponseItem Value)) := retain_loop items items.

(** ** Counterparts *)

Fixpoint remove_first_matching (predicate : ResponseItem Value → bool) items : list (ResponseItem Value) :=
  match items with
  | [] => []
  | i :: items' => if predicate i then items' else i :: remove_first_matching predicate items'
  end.

Definition is_function_output (id : rstring) (i : ResponseItem Value) : bool :=
  match i with FunctionCallOutput existing _ => existing =?s id | _ => false end.
Definition is_function_call (id : rstring) (i : ResponseItem Value) : bool :=
  match i with FunctionCall _ _ _ _ existing => existing =?s id | _ => false end.
Definition is_local_shell_call (id : rstring) (i : ResponseItem Value) : bool :=
  match i with LocalShellCall _ (Some existing) _ _ => existing =?s id | _ => false end.
Definition is_search_output (id : rstring) (i : ResponseItem Value) : bool :=
  match i with ToolSearchOutput (Some existing) _ _ _ => existing =?s id | _ => false end.
Definition is_search_call (id : rstring) (i : ResponseItem Value) : bool :=
  match i with ToolSearchCall _ (Some existing) _ _ _ => existing =?s id | _ => false end.
Definition is_custom_output (id : rstring) (i : ResponseItem Value) : bool :=
  match i with CustomToolCallOutput existing _ _ => existing =?s id | _ => false end.
Definition is_custom_call (id : rstring) (i : ResponseItem Value) : bool :=
  match i with CustomToolCall _ _ existing _ _ => existing =?s id | _ => false end.

Definition remove_corresponding_for items (item : ResponseItem Value) : list (ResponseItem Value) :=
  match item with
  | FunctionCall _ _ _ _ call_id => remove_first_matching (is_function_output call_id) items
  | FunctionCallOutput call_id _ =>
      if existsb (is_function_call call_id) items
      then remove_first_matching (is_function_call call_id) items
      else remove_first_matching (is_local_shell_call call_id) items
  | ToolSearchCall _ (Some call_id) _ _ _ => remove_first_matching (is_search_output call_id) items
  | ToolSearchOutput (Some call_id) _ _ _ => remove_first_matching (is_search_call call_id) items
  | CustomToolCall _ _ call_id _ _ => remove_first_matching (is_custom_output call_id) items
  | CustomToolCallOutput call_id _ _ => remove_first_matching (is_custom_call call_id) items
  | LocalShellCall _ (Some call_id) _ _ => remove_first_matching (is_function_output call_id) items
  | _ => items
  end.

(** ** Images *)

Definition strip_content (c : ContentItem) : ContentItem :=
  match c with
  | MsgInputImage _ _ => MsgInputText IMAGE_CONTENT_OMITTED_PLACEHOLDER
  | _ => c
  end.
Definition strip_output_content (c : FunctionCallOutputContentItem) : FunctionCallOutputContentItem :=
  match c with
  | InputImage _ _ => InputText IMAGE_CONTENT_OMITTED_PLACEHOLDER
  | _ => c
  end.
Definition strip_output (o : FunctionCallOutputPayload) : FunctionCallOutputPayload :=
  match body o with
  | Text _ => o
  | ContentItems l => {| body := ContentItems (strip_output_content <$> l); success := success o |}
  end.

Definition strip_item (item : ResponseItem Value) : ResponseItem Value :=
  match item with
  | Message id role content phase => Message id role (strip_content <$> content) phase
  | FunctionCallOutput call_id output => FunctionCallOutput call_id (strip_output output)
  | CustomToolCallOutput call_id name output => CustomToolCallOutput call_id name (strip_output output)
  | ImageGenerationCall id status revised_prompt _ => ImageGenerationCall id status revised_prompt []
  | _ => item
  end.

Definition strip_images_when_unsupported (input_modalities : list InputModality) items :=
  if existsb (λ m, bool_decide (m = ModImage)) input_modalities then items
  else strip_item <$> items.

End Normalize.

(** ** Specification *)

(** A call and its output share a kind and an id; a shell call has the output
    of a function call. *)
Inductive kind := KFunction | KSearch | KCustom.
#[export] Instance kind_eq_dec : EqDecision kind.
Proof. solve_decision. Defined.

Section Pairs.
Context {Value : Type}.
Implicit Types items : list (ResponseItem Value).

Definition call_key (i : ResponseItem Value) : option (kind * rstring) :=
  match i with
  | FunctionCall _ _ _ _ id | LocalShellCall _ (Some id) _ _ => Some (KFunction, id)
  | ToolSearchCall _ (Some id) _ _ _ => Some (KSearch, id)
  | CustomToolCall _ _ id _ _ => Some (KCustom, id)
  | _ => None
  end.

Definition output_key (i : ResponseItem Value) : option (kind * rstring) :=
  match i with
  | FunctionCallOutput id _ => Some (KFunction, id)
  | ToolSearchOutput (Some id) _ _ _ => Some (KSearch, id)
  | CustomToolCallOutput id _ _ => Some (KCustom, id)
  | _ => None
  end.

(** Searches that the server ran need no call. *)
Definition client_output_key (i : ResponseItem Value) : option (kind * rstring) :=
  match i with
  | ToolSearchOutput (Some id) _ execution _ =>
      if execution =?s $"server" then None else Some (KSearch, id)
  | _ => output_key i
  end.

Definition calls items : list (kind * rstring) := omap call_key items.
Definition outputs items : list (kind * rstring) := omap output_key items.
Definition client_outputs items : list (kind * rstring) := omap client_output_key items.

(** Every call has an output and every output a call. *)
Definition paired items : Prop :=
  (∀ k, k ∈ calls items → k ∈ outputs items) ∧ (∀ k, k ∈ client_outputs items → k ∈ calls items).

(** The output that is inserted after an item. *)
Definition synthesized items (i : ResponseItem Value) : list (ResponseItem Value) :=
  match call_key i with
  | Some (KFunction, id) =>
      if bool_decide ((KFunction, id) ∈ outputs items) then []
      else [FunctionCallOutput id (from_text $"aborted")]
  | Some (KSearch, id) =>
      if bool_decide ((KSearch, id) ∈ outputs items) then []
      else [ToolSearchOutput (Some id) $"completed" $"client" []]
  | Some (KCustom, id) =>
      if bool_decide ((KCustom, id) ∈ outputs items) then []
      else [CustomToolCallOutput id None (from_text $"aborted")]
  | None => []
  end.

(** ** Lemmas on missing outputs *)

Lemma elem_of_omap_key (f : ResponseItem Value → option (kind * rstring)) items k :
  k ∈ omap f items ↔ ∃ i, i ∈ items ∧ f i = Some k.
Proof. by rewrite list_elem_of_omap. Qed.

Lemma existsb_true {A} (f : A → bool) l : existsb f l = true ↔ ∃ x, x ∈ l ∧ f x = true.
Proof.
  rewrite existsb_exists. split; intros (x & Hx & Hf); exists x; split; try done; by apply list_elem_of_In.
Qed.

(** A test on items that holds exactly of the outputs with one key. *)
Lemma has_key_spec f k items :
  (∀ i, f i = true ↔ output_key i = Some k) → existsb f items = bool_decide (k ∈ outputs items).
Proof.
  intros Hf. apply eq_true_iff_eq. rewrite existsb_true, bool_decide_eq_true.
  unfold outputs. rewrite elem_of_omap_key. by setoid_rewrite Hf.
Qed.

Ltac key_test := intros i; destruct i; cbn; try (split; done); repeat case_match; rewrite ?str_eqb_eq; naive_solver.

Lemma has_function_output_spec id items :
  has_function_output id items = bool_decide ((KFunction, id) ∈ outputs items).
Proof. apply has_key_spec. key_test. Qed.
Lemma has_search_output_spec id items :
  has_search_output id items = bool_decide ((KSearch, id) ∈ outputs items).
Proof. apply has_key_spec. key_test. Qed.
Lemma has_custom_output_spec id items :
  has_custom_output id items = bool_decide ((KCustom, id) ∈ outputs items).
Proof. apply has_key_spec. key_test. Qed.

(** Without debug assertions, or when nothing is missing, the loop finds what
    is to be inserted. *)
Lemma missing_output_spec dbg items i :
  dbg = false ∨ synthesized items i = [] → missing_output dbg items i = Some (head (synthesized items i)).
Proof.
  intros H. unfold missing_output, synthesized, error_or_panic in *.
  destruct i; cbn in *; try done; repeat case_match; simplify_eq/=;
    rewrite ?has_function_output_spec, ?has_search_output_spec, ?has_custom_output_spec in *;
    repeat case_bool_decide; simplify_eq/=; try done; naive_solver.
Qed.

Definition opt_list {A} (o : option A) : list A := match o with Some x => [x] | None => [] end.

Lemma synthesized_head items i : synthesized items i = opt_list (head (synthesized items i)).
Proof. unfold synthesized. repeat case_match; done. Qed.

(** Inserting from the last position to the first is one pass over the items. *)
Lemma insert_all_app l1 l2 items :
  insert_all (l1 ++ l2) items = match insert_all l1 items with Some r => insert_all l2 r | None => None end.
Proof.
  revert items. induction l1 as [|[i x] l1 IH]; intros items; cbn; [done|]. case_match; [apply IH|done].
Qed.

Lemma missing_insert dbg items rest pre :
  (∀ i, i ∈ rest → dbg = false ∨ synthesized items i = []) →
  ∃ l, missing_outputs_to_insert dbg items (length pre) rest = Some l ∧
       insert_all (rev l) (pre ++ rest) = Some (pre ++ flat_map (λ i, i :: synthesized items i) rest).
Proof.
  revert pre. induction rest as [|i rest IH]; intros pre H; cbn [missing_outputs_to_insert flat_map].
  { exists []. done. }
  rewrite missing_output_spec by (apply H; set_solver).
  destruct (IH (pre ++ [i])) as (l & Hl & Hins); [set_solver|].
  rewrite length_app in Hl. cbn [length] in Hl. rewrite Hl. eexists. split; [done|].
  rewrite <- !app_assoc in Hins. cbn [app] in Hins. pose proof (synthesized_head items i) as Hs.
  destruct (head (synthesized items i)) as [x|]; rewrite Hs; cbn [opt_list app]; [|done].
  cbn [rev]. rewrite insert_all_app, Hins. cbn [insert_all]. unfold vec_insert.
  rewrite (proj2 (Nat.leb_le _ _)) by (rewrite length_app; cbn; lia).
  replace (length pre + 1) with (length (pre ++ [i])) by (rewrite length_app; cbn; lia).
  rewrite (app_assoc pre [i] (flat_map _ rest) : pre ++ i :: _ = _), take_app_length, drop_app_length.
  by rewrite <- app_assoc.
Qed.

Lemma ensure_spec dbg items :
  (∀ i, i ∈ items → dbg = false ∨ synthesized items i = []) →
  ensure_call_outputs_present dbg items = Some (flat_map (λ i, i :: synthesized items i) items).
Proof.
  intros H. destruct (missing_insert dbg items items [] H) as (l & Hl & Hi).
  unfold ensure_call_outputs_present. cbn in Hl, Hi. by rewrite Hl.
Qed.

Lemma synthesized_nil items : paired items → ∀ i, i ∈ items → synthesized items i = [].
Proof.
  intros [Hc _] i Hi. unfold synthesized. destruct (call_key i) as [[k id]|] eqn:E; [|done].
  assert ((k, id) ∈ outputs items) as Hin by (apply Hc, elem_of_omap_key; eauto).
  destruct k; by rewrite bool_decide_true.
Qed.

Lemma calls_ensure items all : calls (flat_map (λ i, i :: synthesized all i) items) = calls items.
Proof.
  unfold calls. induction items as [|i items IH]; cbn [flat_map]; [done|].
  rewrite omap_app, IH. unfold synthesized. cbn. repeat case_match; simplify_eq/=; done.
Qed.

Lemma elem_of_ensure items all i :
  i ∈ flat_map (λ i, i :: synthesized all i) items ↔ ∃ j, j ∈ items ∧ (i = j ∨ i ∈ synthesized all j).
Proof.
  induction items as [|j items IH]; cbn [flat_map].
  - split; [intros H; by apply not_elem_of_nil in H|by intros (j & Hj & _); apply not_elem_of_nil in Hj].
  - rewrite elem_of_app, elem_of_cons, IH. split.
    + intros [[-> | H]|(k & Hk & H)]; [exists j; set_solver|exists j; set_solver|exists k; set_solver].
    + intros (k & [-> | Hk]%elem_of_cons & H); [by left|right; eauto].
Qed.

(** After the insertions every call has an output. *)
Lemma ensure_has_output items k :
  k ∈ calls items → k ∈ outputs (flat_map (λ i, i :: synthesized items i) items).
Proof.
  unfold calls, outputs. rewrite !elem_of_omap_key. intros (c & Hc & Hk).
  setoid_rewrite elem_of_ensure. destruct (decide (k ∈ outputs items)) as [Ho|Hno].
  - apply elem_of_omap_key in Ho as (o & Ho & Hko). exists o. eauto.
  - assert (∃ o, o ∈ synthesized items c ∧ output_key o = Some k) as (o & Ho & Hko); [|exists o; eauto].
    unfold synthesized. rewrite Hk. destruct k as [[| |] id]; rewrite bool_decide_false by done;
      eexists; split; try (apply elem_of_cons; by left); done.
Qed.

(** ** Lemmas on orphans *)

Definition orphan (all : list (ResponseItem Value)) (i : ResponseItem Value) : bool :=
  match client_output_key i with
  | Some k => negb (bool_decide (k ∈ calls all))
  | None => false
  end.

Lemma call_ids_spec k id all :
  bool_decide ((k, id) ∈ calls all) =
    match k with
    | KFunction => str_in id (function_call_ids all) || str_in id (local_shell_call_ids all)
    | KSearch => str_in id (tool_search_call_ids all)
    | KCustom => str_in id (custom_tool_call_ids all)
    end.
Proof.
  apply eq_true_iff_eq. rewrite bool_decide_eq_true. unfold calls. rewrite elem_of_omap_key.
  destruct k; rewrite ?orb_true_iff, !str_in_elem; unfold function_call_ids, local_shell_call_ids,
    tool_search_call_ids, custom_tool_call_ids; rewrite !list_elem_of_omap; split.
  - intros (i & Hi & Hk). destruct i; cbn in Hk; repeat case_match; simplify_eq; [right|left]; eexists; split; done.
  - intros [(i & Hi & Hk)|(i & Hi & Hk)]; destruct i; repeat case_match; simplify_eq; eexists; split; done.
  - intros (i & Hi & Hk). destruct i; cbn in Hk; repeat case_match; simplify_eq; eexists; split; done.
  - intros (i & Hi & Hk). destruct i; repeat case_match; simplify_eq; eexists; split; done.
  - intros (i & Hi & Hk). destruct i; cbn in Hk; repeat case_match; simplify_eq; eexists; split; done.
  - intros (i & Hi & Hk). destruct i; repeat case_match; simplify_eq; eexists; split; done.
Qed.

Lemma retain_item_key dbg all i :
  retain_item dbg all i =
    match client_output_key i with
    | Some k => keep_or_report dbg (bool_decide (k ∈ calls all))
    | None => Some true
    end.
Proof.
  destruct i as [| | | | |id o| |id n o|[id|] st ex tools| | | | |]; cbn [retain_item client_output_key output_key];
    rewrite ?call_ids_spec; try done; by destruct (ex =?s $"server"); rewrite ?call_ids_spec.
Qed.

Lemma retain_item_spec dbg all i :
  dbg = false ∨ orphan all i = false → retain_item dbg all i = Some (negb (orphan all i)).
Proof.
  rewrite retain_item_key. unfold orphan, keep_or_report, error_or_panic. intros H.
  destruct (client_output_key i) as [k|]; [|done]. rewrite negb_involutive.
  destruct (bool_decide (k ∈ calls all)); [done|]. by destruct H as [-> | H].
Qed.

Lemma remove_orphan_spec dbg items :
  (∀ i, i ∈ items → dbg = false ∨ orphan items i = false) →
  remove_orphan_outputs dbg items = Some (List.filter (λ i, negb (orphan items i)) items).
Proof.
  unfold remove_orphan_outputs. intros H.
  assert (∀ rest, (∀ i, i ∈ rest → dbg = false ∨ orphan items i = false) →
    retain_loop dbg items rest = Some (List.filter (λ i, negb (orphan items i)) rest)) as Hl; [|by apply Hl].
  clear H. induction rest as [|i rest IH]; intros H; cbn [retain_loop List.filter]; [done|].
  rewrite retain_item_spec by (apply H; set_solver). rewrite IH by (intros; apply H; set_solver).
  by destruct (orphan items i).
Qed.

Lemma elem_of_filterb {A} (f : A → bool) l x : x ∈ List.filter f l ↔ x ∈ l ∧ f x = true.
Proof. rewrite !list_elem_of_In. apply filter_In. Qed.

Lemma calls_keep all items : calls (List.filter (λ i, negb (orphan all i)) items) = calls items.
Proof.
  unfold calls. induction items as [|i items IH]; cbn [List.filter omap list_omap]; [done|].
  destruct (orphan all i) eqn:E; cbn [negb omap list_omap]; rewrite IH; [|done].
  unfold orphan in E. destruct i; cbn in *; repeat case_match; done.
Qed.

(** Removing the orphans of a list in which every call has an output pairs it. *)
Lemma remove_orphans_paired items :
  (∀ k, k ∈ calls items → k ∈ outputs items) →
  paired (List.filter (λ i, negb (orphan items i)) items).
Proof.
  intros Hc. split.
  - intros k. rewrite calls_keep. intros Hk. pose proof (Hc k Hk) as Ho. unfold outputs in *.
    apply elem_of_omap_key in Ho as (o & Ho & Hko). apply elem_of_omap_key. exists o.
    rewrite elem_of_filterb. split_and!; [done| |done]. unfold orphan.
    destruct (client_output_key o) as [k'|] eqn:E; [|done].
    assert (k' = k) as ->; [|by rewrite bool_decide_true].
    destruct o; cbn in *; repeat case_match; congruence.
  - intros k. rewrite calls_keep. unfold client_outputs. rewrite elem_of_omap_key.
    intros (o & [Ho Hko]%elem_of_filterb & Hk). unfold orphan in Hko. rewrite Hk in Hko.
    rewrite negb_involutive in Hko. by apply bool_decide_eq_true in Hko.
Qed.

Lemma orphan_false items : paired items → ∀ i, i ∈ items → orphan items i = false.
Proof.
  intros [_ Ho] i Hi. unfold orphan. destruct (client_output_key i) as [k|] eqn:E; [|done].
  rewrite bool_decide_true; [done|]. apply Ho, elem_of_omap_key. eauto.
Qed.

Lemma filterb_id {A} (f : A → bool) l : (∀ x, x ∈ l → f x = true) → List.filter f l = l.
Proof.
  induction l as [|x l IH]; intros H; cbn; [done|]. rewrite H by set_solver. f_equal.
  apply IH. intros y Hy. apply H. set_solver.
Qed.

Lemma ensure_id items : paired items → flat_map (λ i, i :: synthesized items i) items = items.
Proof.
  intros Hp. pose proof (synthesized_nil items Hp) as Hs.
  assert (∀ rest, (∀ i, i ∈ rest → synthesized items i = []) →
    flat_map (λ i, i :: synthesized items i) rest = rest) as H; [|by apply H].
  induction rest as [|i rest IH]; intros H; cbn; [done|]. rewrite H by set_solver. cbn. f_equal.
  apply IH. set_solver.
Qed.

(** ** Lemmas on images and snapshots *)

(** A change of items that keeps the keys keeps the pairs. *)
Lemma paired_fmap (f : ResponseItem Value → ResponseItem Value) items :
  (∀ i, call_key (f i) = call_key i ∧ output_key (f i) = output_key i ∧
        client_output_key (f i) = client_output_key i) →
  paired items → paired (f <$> items).
Proof.
  intros Hf. assert (calls (f <$> items) = calls items ∧ outputs (f <$> items) = outputs items ∧
    client_outputs (f <$> items) = client_outputs items) as (Hc & Ho & Hco);
    [|unfold paired; by rewrite Hc, Ho, Hco].
  unfold calls, outputs, client_outputs. induction items as [|i items (IH1 & IH2 & IH3)]; [done|].
  destruct (Hf i) as (H1 & H2 & H3). cbn. by rewrite H1, H2, H3, IH1, IH2, IH3.
Qed.

Lemma strip_item_keys (i : ResponseItem Value) :
  call_key (strip_item i) = call_key i ∧ output_key (strip_item i) = output_key i ∧
  client_output_key (strip_item i) = client_output_key i.
Proof. by destruct i. Qed.

Lemma strip_images_paired mods items :
  paired items → paired (strip_images_when_unsupported mods items).
Proof.
  unfold strip_images_when_unsupported. case_match; [done|]. apply paired_fmap, strip_item_keys.
Qed.

(** ** Lemmas on counterparts *)

(** No two calls and no two outputs share a key. *)
Definition unique items : Prop := NoDup (calls items) ∧ NoDup (outputs items).

Lemma remove_first_spec (f : ResponseItem Value → bool) items :
  (existsb f items = false ∧ remove_first_matching f items = items) ∨
  ∃ l1 y l2, items = l1 ++ y :: l2 ∧ f y = true ∧ remove_first_matching f items = l1 ++ l2.
Proof.
  induction items as [|i items IH]; cbn; [by left|]. destruct (f i) eqn:E.
  - right. by exists [], i, items.
  - destruct IH as [[H1 ->]|(l1 & y & l2 & -> & Hy & ->)]; [by left|right].
    by exists (i :: l1), y, l2.
Qed.

(** What is removed along with [x]: the first item with the same key on the
    other side. *)
Definition counterpart_removed (key other : ResponseItem Value → option (kind * rstring))
    (x : ResponseItem Value) items (r : list (ResponseItem Value)) : Prop :=
  ∃ k, key x = Some k ∧ other x = None ∧
    ((k ∉ omap other items ∧ r = items) ∨
     ∃ l1 y l2, items = l1 ++ y :: l2 ∧ other y = Some k ∧ key y = None ∧ r = l1 ++ l2).

Lemma counterpart_first key other x items k (f : ResponseItem Value → bool) :
  key x = Some k → other x = None →
  (∀ i, f i = true ↔ other i = Some k) → (∀ i, f i = true → key i = None) →
  counterpart_removed key other x items (remove_first_matching f items).
Proof.
  intros Hk Ho Hf Hn. exists k. split_and!; [done..|].
  destruct (remove_first_spec f items) as [[Hno ->]|(l1 & y & l2 & -> & Hy & ->)].
  - left. split; [|done]. intros (i & Hi & Hki%Hf)%elem_of_omap_key. apply not_true_iff_false in Hno.
    apply Hno, existsb_true. eauto.
  - right. exists l1, y, l2. split_and!; [done|by apply Hf|by apply Hn|done].
Qed.

Ltac key_case := intros i; destruct i; cbn; repeat case_match; rewrite ?str_eqb_eq; naive_solver.

(** The call of a function output: a function call if there is one, else a shell call. *)
Lemma counterpart_of_output id o items :
  counterpart_removed output_key call_key (FunctionCallOutput id o) items
    (remove_corresponding_for items (FunctionCallOutput id o)).
Proof.
  exists (KFunction, id). split_and!; [done..|]. cbn [remove_corresponding_for].
  assert (∀ i, is_function_call id i = true → call_key i = Some (KFunction, id) ∧ output_key i = None) as Hf
    by key_case.
  assert (∀ i, is_local_shell_call id i = true → call_key i = Some (KFunction, id) ∧ output_key i = None) as Hs
    by key_case.
  assert (∀ i, call_key i = Some (KFunction, id) → is_function_call id i = true ∨ is_local_shell_call id i = true)
    as Hc by key_case.
  destruct (existsb (is_function_call id) items) eqn:E.
  - right. destruct (remove_first_spec (is_function_call id) items) as [[? _]|(l1 & y & l2 & -> & Hy & ->)];
      [congruence|]. exists l1, y, l2. destruct (Hf y Hy). done.
  - destruct (remove_first_spec (is_local_shell_call id) items) as [[Hno ->]|(l1 & y & l2 & -> & Hy & ->)].
    + left. split; [|done]. intros (i & Hi & Hk)%elem_of_omap_key.
      apply not_true_iff_false in Hno, E. rewrite existsb_true in Hno, E.
      destruct (Hc i Hk); [apply E|apply Hno]; eauto.
    + right. exists l1, y, l2. destruct (Hs y Hy). done.
Qed.

Lemma remove_corresponding_cases items x :
  let r := remove_corresponding_for items x in
  counterpart_removed call_key output_key x items r ∨
  counterpart_removed output_key call_key x items r ∨
  (call_key x = None ∧ output_key x = None ∧ r = items).
Proof.
  destruct x as [| |? [id|]| |? [id|]| | | |[id|] | | | | |]; cbn zeta;
    try (right; right; split_and!; reflexivity).
  all: first [ left; cbn [remove_corresponding_for]; eapply counterpart_first; [reflexivity|reflexivity|key_case|key_case]
             | right; left; apply counterpart_of_output
             | right; left; cbn [remove_corresponding_for]; eapply counterpart_first;
               [reflexivity|reflexivity|key_case|key_case] ].
Qed.

Lemma omap_middle (g : ResponseItem Value → option (kind * rstring)) l1 y l2 :
  omap g (l1 ++ y :: l2) ≡ₚ opt_list (g y) ++ omap g (l1 ++ l2).
Proof.
  rewrite !omap_app. change (omap g (y :: l2)) with (match g y with Some k => k :: omap g l2 | None => omap g l2 end).
  destruct (g y) as [k|]; cbn [opt_list app]; [|done]. symmetry. apply Permutation_middle.
Qed.

Lemma client_output_incl items k : k ∈ client_outputs items → k ∈ outputs items.
Proof.
  unfold client_outputs, outputs. rewrite !elem_of_omap_key. intros (i & Hi & Hk). exists i. split; [done|].
  destruct i; cbn in *; repeat case_match; simplify_eq; done.
Qed.

Lemma client_outputs_cons x items k :
  k ∈ client_outputs items → k ∈ client_outputs (x :: items).
Proof. unfold client_outputs. rewrite !elem_of_omap_key. intros (i & Hi & Hk). exists i. set_solver. Qed.

Lemma client_outputs_middle l1 y l2 k :
  k ∈ client_outputs (l1 ++ l2) → k ∈ client_outputs (l1 ++ y :: l2).
Proof. unfold client_outputs. rewrite !elem_of_omap_key. intros (i & Hi & Hk). exists i. set_solver. Qed.

Lemma call_no_output (i : ResponseItem Value) : call_key i ≠ None → output_key i = None ∧ client_output_key i = None.
Proof. destruct i; cbn; repeat case_match; done. Qed.

Lemma keys_cons x items :
  calls (x :: items) = opt_list (call_key x) ++ calls items ∧
  outputs (x :: items) = opt_list (output_key x) ++ outputs items.
Proof. unfold calls, outputs. cbn. by destruct (call_key x), (output_key x). Qed.

Lemma calls_middle l1 y l2 : calls (l1 ++ y :: l2) ≡ₚ opt_list (call_key y) ++ calls (l1 ++ l2).
Proof. apply omap_middle. Qed.
Lemma outputs_middle l1 y l2 : outputs (l1 ++ y :: l2) ≡ₚ opt_list (output_key y) ++ outputs (l1 ++ l2).
Proof. apply omap_middle. Qed.

(** Removing an item from the front with its counterpart keeps the rest paired. *)
Lemma remove_corresponding_paired items x :
  paired (x :: items) → unique (x :: items) →
  paired (remove_corresponding_for items x) ∧ unique (remove_corresponding_for items x).
Proof.
  intros [Hc Ho] [Huc Huo]. destruct (keys_cons x items) as [Ec Eo]. rewrite Ec in Hc, Ho, Huc. rewrite Eo in Hc, Huo.
  pose proof (client_outputs_cons x items) as Hcl.
  destruct (remove_corresponding_cases items x)
    as [(k & Hk & Hnk & [[Hno ->]|(l1 & y & l2 & Hit & Hy & Hny & ->)])
       |[(k & Hk & Hnk & [[Hno ->]|(l1 & y & l2 & Hit & Hy & Hny & ->)])|(Hk & Hnk & ->)]];
    rewrite Hk, Hnk in *; cbn [opt_list app] in *.
  - destruct Hno. apply (Hc k). set_solver.
  - subst items. pose proof (calls_middle l1 y l2) as Pc. pose proof (outputs_middle l1 y l2) as Po.
    rewrite Hny in Pc. rewrite Hy in Po. cbn [opt_list app] in Pc, Po.
    rewrite Pc in Huc. rewrite Po in Huo. apply NoDup_cons in Huc as [Hkc Huc], Huo as [Hko Huo].
    split; [|done]. split.
    + intros k' Hk'. specialize (Hc k'). rewrite Pc, Po in Hc. set_solver.
    + intros k' Hk'. pose proof (client_output_incl _ _ Hk'). specialize (Ho k' (Hcl k' (client_outputs_middle _ _ _ _ Hk'))).
      rewrite Pc in Ho. set_solver.
  - split; [|by apply NoDup_cons in Huo as [_ Huo]]. split.
    + intros k' Hk'. assert (k' ≠ k) by (intros ->; done). specialize (Hc k' Hk'). set_solver.
    + intros k' Hk'. by apply Ho, Hcl.
  - subst items. pose proof (calls_middle l1 y l2) as Pc. pose proof (outputs_middle l1 y l2) as Po.
    rewrite Hny in Po. rewrite Hy in Pc. cbn [opt_list app] in Pc, Po.
    rewrite Pc in Huc. rewrite Po in Huo. apply NoDup_cons in Huc as [Hkc Huc], Huo as [Hko Huo].
    split; [|done]. split.
    + intros k' Hk'. specialize (Hc k'). rewrite Pc, Po in Hc. set_solver.
    + intros k' Hk'. pose proof (client_output_incl _ _ Hk'). specialize (Ho k' (Hcl k' (client_outputs_middle _ _ _ _ Hk'))).
      rewrite Pc in Ho. set_solver.
  - split; [|done]. split; [done|]. intros k' Hk'. by apply Ho, Hcl.
Qed.

(** Pairs and uniqueness do not depend on the order. *)
#[global] Instance paired_perm : Proper ((≡ₚ) ==> iff) (paired).
Proof.
  intros a b Hab. unfold paired, calls, outputs, client_outputs. by setoid_rewrite Hab.
Qed.
#[global] Instance unique_perm : Proper ((≡ₚ) ==> iff) (unique).
Proof. intros a b Hab. unfold unique, calls, outputs. by rewrite Hab. Qed.

End Pairs.

Section Examples.
Let call id : ResponseItem unit := FunctionCall None $"f" None $"{}" id.
Let out id : ResponseItem unit := FunctionCallOutput id (from_text $"ok").

Example ensure_ex :
  ensure_call_outputs_present true [call $"1"; Other; call $"2"; out $"2"]
  = Some [call $"1"; FunctionCallOutput $"1" (from_text $"aborted"); Other; call $"2"; out $"2"].
Proof. vm_compute. reflexivity. Qed.

Example orphan_ex :
  remove_orphan_outputs false [call $"1"; out $"1"; out $"2"] = Some [call $"1"; out $"1"] ∧
  remove_orphan_outputs true [call $"1"; out $"1"; out $"2"] = None.
Proof. vm_compute. done. Qed.
End Examples.

End Normalize.
