(* ===== verification/History.v ===== *)
(** * The history of a conversation (codex-rs/core/src/context_manager/history.rs)

    [ContextManager] records the items of a thread, prepares them for the model,
    and removes items and whole turns.  Theorems: what is sent to the model is
    always paired, removing one item keeps pairs together, rolling back drops
    exactly the requested turns, and only appending leaves the version alone.
    The scaling of a policy by 1.2 is IEEE arithmetic of [f64]
    (protocol/src/protocol.rs, [Mul<f64>]).  The snapshot of a turn's settings
    is opaque to the history and a parameter. *)

From Stdlib Require Import SpecFloat.
From S2P Require Import Prelude Truncation OutputTruncation ResponseItems Normalize.

Module History.
Export Normalize.

(** ** Scaling a policy *)

(** [n as f64], the product, [ceil] and the saturating cast back. *)
Definition f64_of_usize (n : Z) : spec_float := binary_normalize 53 1024 n 0 false.
Definition f64_1_2 : spec_float := S754_finite false 5404319552844595 (-52).
Definition usize_of_ceil (f : spec_float) : Z :=
  match f with
  | S754_nan | S754_zero _ | S754_infinity true => 0%Z
  | S754_infinity false => USIZE_MAX
  | S754_finite true _ _ => 0%Z
  | S754_finite false m e =>
      Z.min USIZE_MAX
        (if (0 <=? e)%Z then Z.pos m * 2 ^ e else (Z.pos m + 2 ^ (- e) - 1) / 2 ^ (- e))
  end.
Definition scale_1_2 (n : Z) : Z := usize_of_ceil (SFmul 53 1024 (f64_of_usize n) f64_1_2).

Definition with_serialization_budget (p : TruncationPolicy) : TruncationPolicy :=
  match p with
  | Bytes bytes => Bytes (scale_1_2 bytes)
  | Tokens tokens => Tokens (scale_1_2 tokens)
  end.

Example scale_ex : scale_1_2 10000 = 12000%Z ∧ scale_1_2 7 = 9%Z ∧ scale_1_2 0 = 0%Z.
Proof. vm_compute. done. Qed.

(** ** State *)

Record TokenUsage := {
  input_tokens : Z;
  cached_input_tokens : Z;
  output_tokens : Z;
  reasoning_output_tokens : Z;
  total_tokens : Z;
}.
Definition TokenUsage_default : TokenUsage :=
  {| input_tokens := 0; cached_input_tokens := 0; output_tokens := 0;
     reasoning_output_tokens := 0; total_tokens := 0 |}.

Record TokenUsageInfo := {
  total_token_usage : TokenUsage;
  last_token_usage : TokenUsage;
  model_context_window : option Z;
}.

(** [i64] addition and subtraction: checked with debug assertions, wrapping
    without them. *)
Definition i64_in_range (z : Z) : bool := ((- 2 ^ 63 <=? z) && (z <? 2 ^ 63))%Z.
Definition i64_wrap (z : Z) : Z := ((z + 2 ^ 63) mod 2 ^ 64 - 2 ^ 63)%Z.
Definition i64_result (debug_assertions : bool) (z : Z) : option Z :=
  if i64_in_range z then Some z else if debug_assertions then None else Some (i64_wrap z).

Section History.
Context {Value TurnContextItem : Type}.
Variable debug_assertions : bool.
Variable from_xml_str : rstring → option (rstring * rstring).
Variable is_inter_agent_json : rstring → bool.
Implicit Types items : list (ResponseItem Value).

#[local] Abbreviation boundary := (is_user_turn_boundary from_xml_str is_inter_agent_json).
#[local] Abbreviation contextual_user := (is_contextual_user_message_content from_xml_str).

Definition add_assign (u other : TokenUsage) : option TokenUsage :=
  match i64_result debug_assertions (input_tokens u + input_tokens other),
        i64_result debug_assertions (cached_input_tokens u + cached_input_tokens other),
        i64_result debug_assertions (output_tokens u + output_tokens other),
        i64_result debug_assertions (reasoning_output_tokens u + reasoning_output_tokens other),
        i64_result debug_assertions (total_tokens u + total_tokens other) with
  | Some a, Some b, Some c, Some d, Some e =>
      Some {| input_tokens := a; cached_input_tokens := b; output_tokens := c;
              reasoning_output_tokens := d; total_tokens := e |}
  | _, _, _, _, _ => None
  end.

Definition append_last_usage (info : TokenUsageInfo) (last : TokenUsage) : option TokenUsageInfo :=
  match add_assign (total_token_usage info) last with
  | None => None
  | Some t => Some {| total_token_usage := t; last_token_usage := last;
                      model_context_window := model_context_window info |}
  end.

(** The outer option is the panic. *)
Definition new_or_append (info : option TokenUsageInfo) (last : option TokenUsage)
    (window : option Z) : option (option TokenUsageInfo) :=
  match info, last with
  | None, None => Some None
  | _, _ =>
      let start := match info with
                   | Some info => info
                   | None => {| total_token_usage := TokenUsage_default;
                                last_token_usage := TokenUsage_default;
                                model_context_window := window |}
                   end in
      match match last with Some last => append_last_usage start last | None => Some start end with
      | None => None
      | Some info =>
          Some (Some match window with
                     | Some w => {| total_token_usage := total_token_usage info;
                                    last_token_usage := last_token_usage info;
                                    model_context_window := Some w |}
                     | None => info
                     end)
      end
  end.

Definition only_total (n : Z) : TokenUsage :=
  {| input_tokens := 0; cached_input_tokens := 0; output_tokens := 0;
     reasoning_output_tokens := 0; total_tokens := n |}.

Definition fill_to_context_window (info : TokenUsageInfo) (context_window : Z) : option TokenUsageInfo :=
  match i64_result debug_assertions (context_window - total_tokens (total_token_usage info)) with
  | None => None
  | Some d =>
      Some {| total_token_usage := only_total context_window;
              last_token_usage := only_total (Z.max d 0);
              model_context_window := Some context_window |}
  end.

Definition full_context_window (context_window : Z) : option TokenUsageInfo :=
  fill_to_context_window
    {| total_token_usage := TokenUsage_default; last_token_usage := TokenUsage_default;
       model_context_window := Some context_window |} context_window.

Record ContextManager := {
  items : list (ResponseItem Value);
  history_version : Z;
  token_info : option TokenUsageInfo;
  reference_context_item : option TurnContextItem;
}.

Definition new_manager : ContextManager :=
  {| items := []; history_version := 0; token_info := None; reference_context_item := None |}.

Definition with_items (m : ContextManager) l : ContextManager :=
  {| items := l; history_version := history_version m; token_info := token_info m;
     reference_context_item := reference_context_item m |}.
Definition with_token_info (m : ContextManager) i : ContextManager :=
  {| items := items m; history_version := history_version m; token_info := i;
     reference_context_item := reference_context_item m |}.
Definition set_reference_context_item (m : ContextManager) r : ContextManager :=
  {| items := items m; history_version := history_version m; token_info := token_info m;
     reference_context_item := r |}.
(** [self.history_version.saturating_add(1)] on a [u64]. *)
Definition bump (m : ContextManager) : ContextManager :=
  {| items := items m; history_version := Z.min (history_version m + 1) (2 ^ 64 - 1);
     token_info := token_info m; reference_context_item := reference_context_item m |}.

Definition set_token_usage_full (m : ContextManager) (context_window : Z) : option ContextManager :=
  match match token_info m with
        | Some info => fill_to_context_window info context_window
        | None => full_context_window context_window
        end with
  | None => None
  | Some info => Some (with_token_info m (Some info))
  end.

Definition update_token_info (m : ContextManager) (usage : TokenUsage) (window : option Z)
    : option ContextManager :=
  match new_or_append (token_info m) (Some usage) window with
  | None => None
  | Some info => Some (with_token_info m info)
  end.

(** ** Recording *)

Definition truncate_function_output_payload (output : FunctionCallOutputPayload) (policy : TruncationPolicy)
    : option FunctionCallOutputPayload :=
  match body output with
  | Text content =>
      match truncate_text content policy with
      | None => None
      | Some t => Some {| body := Text t; success := success output |}
      end
  | ContentItems l =>
      match truncate_function_output_items_with_policy l policy with
      | None => None
      | Some l' => Some {| body := ContentItems l'; success := success output |}
      end
  end.

Definition is_api_message (message : ResponseItem Value) : bool :=
  match message with
  | Message _ role _ _ => negb (role =?s $"system")
  | GhostSnapshot _ | Other => false
  | _ => true
  end.

Definition is_ghost_snapshot (i : ResponseItem Value) : bool :=
  match i with GhostSnapshot _ => true | _ => false end.

Definition process_item (item : ResponseItem Value) (policy : TruncationPolicy) : option (ResponseItem Value) :=
  let policy := with_serialization_budget policy in
  match item with
  | FunctionCallOutput call_id output =>
      FunctionCallOutput call_id <$> truncate_function_output_payload output policy
  | CustomToolCallOutput call_id name output =>
      CustomToolCallOutput call_id name <$> truncate_function_output_payload output policy
  | _ => Some item
  end.

Fixpoint record_items (m : ContextManager) (new : list (ResponseItem Value)) (policy : TruncationPolicy)
    : option ContextManager :=
  match new with
  | [] => Some m
  | item :: new' =>
      if negb (is_api_message item) && negb (is_ghost_snapshot item) then record_items m new' policy
      else match process_item item policy with
           | None => None
           | Some processed => record_items (with_items m (items m ++ [processed])) new' policy
           end
  end.

(** ** Preparing for the model *)

Definition normalize_history (m : ContextManager) (input_modalities : list InputModality)
    : option ContextManager :=
  match ensure_call_outputs_present debug_assertions (items m) with
  | None => None
  | Some l =>
      match remove_orphan_outputs debug_assertions l with
      | None => None
      | Some l => Some (with_items m (strip_images_when_unsupported input_modalities l))
      end
  end.

Definition for_prompt (m : ContextManager) (input_modalities : list InputModality)
    : option (list (ResponseItem Value)) :=
  match normalize_history m input_modalities with
  | None => None
  | Some m => Some (List.filter (λ i, negb (is_ghost_snapshot i)) (items m))
  end.

(** ** Removing and replacing *)

Definition remove_first_item (m : ContextManager) : ContextManager :=
  match items m with
  | [] => m
  | removed :: rest => with_items m (remove_corresponding_for rest removed)
  end.

Definition remove_last_item (m : ContextManager) : ContextManager * bool :=
  match last (items m) with
  | Some removed =>
      (bump (with_items m (remove_corresponding_for (removelast (items m)) removed)), true)
  | None => (m, false)
  end.

Definition replace (m : ContextManager) l : ContextManager := bump (with_items m l).

(** [rposition]: the last index that satisfies a test. *)
Fixpoint rposition {A} (f : A → bool) (l : list A) : option nat :=
  match l with
  | [] => None
  | x :: l' =>
      match rposition f l' with
      | Some i => Some (S i)
      | None => if f x then Some 0 else None
      end
  end.

Definition is_image (c : FunctionCallOutputContentItem) : bool :=
  match c with InputImage _ _ => true | InputText _ => false end.

Definition replace_last_turn_images (m : ContextManager) (placeholder : rstring) : ContextManager * bool :=
  match rposition (λ i, match i with FunctionCallOutput _ _ => true | _ => boundary i end) (items m) with
  | None => (m, false)
  | Some index =>
      match items m !! index with
      | Some (FunctionCallOutput call_id output) =>
          match body output with
          | Text _ => (m, false)
          | ContentItems l =>
              let replaced := existsb is_image l in
              let l' := (λ c, if is_image c then InputText placeholder else c) <$> l in
              let m' := with_items m (<[index := FunctionCallOutput call_id
                          {| body := ContentItems l'; success := success output |}]> (items m)) in
              (if replaced then bump m' else m', replaced)
          end
      | _ => (m, false)
      end
  end.

(** ** Rolling back *)

Fixpoint positions_from {A} (f : A → bool) (idx : nat) (l : list A) : list nat :=
  match l with
  | [] => []
  | x :: l' => if f x then idx :: positions_from f (S idx) l' else positions_from f (S idx) l'
  end.
Definition user_message_positions items : list nat := positions_from boundary 0 items.

(** The walk back over injected context, with the reference item it may clear. *)
Fixpoint trim_pre_turn_context_updates (snapshot : list (ResponseItem Value)) (first : nat)
    (reference : option TurnContextItem) (cut_idx : nat) : nat * option TurnContextItem :=
  match cut_idx with
  | O => (cut_idx, reference)
  | S cut_idx' =>
      if first <? cut_idx then
        match snapshot !! cut_idx' with
        | Some (Message _ role content _) =>
            if (role =?s $"developer") && is_contextual_dev_message_content content then
              trim_pre_turn_context_updates snapshot first
                (if has_non_contextual_dev_message_content content then None else reference) cut_idx'
            else if (role =?s $"user") && contextual_user content then
              trim_pre_turn_context_updates snapshot first reference cut_idx'
            else (cut_idx, reference)
        | _ => (cut_idx, reference)
        end
      else (cut_idx, reference)
  end.

Definition drop_last_n_user_turns (m : ContextManager) (num_turns : nat) : ContextManager :=
  if num_turns =? 0 then m
  else
    let snapshot := items m in
    let user_positions := user_message_positions snapshot in
    match user_positions with
    | [] => replace m snapshot
    | first_instruction_turn_idx :: _ =>
        let cut_idx := if length user_positions <=? num_turns then first_instruction_turn_idx
                       else default 0 (user_positions !! (length user_positions - num_turns)) in
        let '(cut_idx, reference) :=
          trim_pre_turn_context_updates snapshot first_instruction_turn_idx
            (reference_context_item m) cut_idx in
        replace (set_reference_context_item m reference) (take cut_idx snapshot)
    end.

End History.
Arguments ContextManager : clear implicits.

(** ** Specification *)

Section Properties.
Context {Value TurnContextItem : Type}.
Variable from_xml_str : rstring → option (rstring * rstring).
Variable is_inter_agent_json : rstring → bool.
Implicit Types m : ContextManager Value TurnContextItem.

#[local] Abbreviation boundary := (is_user_turn_boundary from_xml_str is_inter_agent_json).

(** Items without image content. *)
Definition no_images (i : ResponseItem Value) : Prop :=
  match i with
  | Message _ _ content _ => Forall (λ c, match c with MsgInputImage _ _ => False | _ => True end) content
  | FunctionCallOutput _ o | CustomToolCallOutput _ _ o =>
      match body o with Text _ => True | ContentItems l => Forall (λ c, is_image c = false) l end
  | ImageGenerationCall _ _ _ result => result = []
  | _ => True
  end.

Lemma strip_item_no_images (i : ResponseItem Value) : no_images (strip_item i).
Proof.
  destruct i; cbn; try done.
  - apply Forall_fmap, Forall_true. by intros [| |].
  - unfold strip_output. destruct output as [[t|l] ok]; cbn; [done|]. apply Forall_fmap, Forall_true. by intros [|].
  - unfold strip_output. destruct output as [[t|l] ok]; cbn; [done|]. apply Forall_fmap, Forall_true. by intros [|].
Qed.

Lemma strip_images_none mods (l : list (ResponseItem Value)) :
  ModImage ∉ mods → Forall no_images (strip_images_when_unsupported mods l).
Proof.
  intros H. unfold strip_images_when_unsupported.
  destruct (existsb _ mods) eqn:E.
  - apply existsb_true in E as (x & Hx & ->%bool_decide_eq_true). done.
  - apply Forall_fmap, Forall_true, strip_item_no_images.
Qed.

(** Leaving out snapshots changes no pair. *)
Lemma no_ghost_keys (l : list (ResponseItem Value)) :
  let l' := List.filter (λ i, negb (is_ghost_snapshot i)) l in
  calls l' = calls l ∧ outputs l' = outputs l ∧ client_outputs l' = client_outputs l.
Proof.
  unfold calls, outputs, client_outputs. induction l as [|i l (IH1 & IH2 & IH3)]; cbn; [done|].
  destruct i; cbn; rewrite ?IH1, ?IH2, ?IH3; done.
Qed.

Lemma no_ghost_paired (l : list (ResponseItem Value)) :
  paired l → paired (List.filter (λ i, negb (is_ghost_snapshot i)) l).
Proof. unfold paired. destruct (no_ghost_keys l) as (-> & -> & ->). done. Qed.

Lemma strip_calls mods (l : list (ResponseItem Value)) : calls (strip_images_when_unsupported mods l) = calls l.
Proof.
  unfold strip_images_when_unsupported. case_match; [done|]. unfold calls.
  induction l as [|i l IH]; [done|]. cbn. destruct (strip_item_keys i) as (-> & _). by rewrite IH.
Qed.

(** ** Properties of the prompt *)

Lemma prompt_of_paired dbg m mods :
  paired (items m) →
  for_prompt dbg m mods =
    Some (List.filter (λ i, negb (is_ghost_snapshot i)) (strip_images_when_unsupported mods (items m))).
Proof.
  intros Hp. unfold for_prompt, normalize_history.
  rewrite ensure_spec by (intros i Hi; right; by apply synthesized_nil).
  rewrite ensure_id by done. rewrite remove_orphan_spec by (intros i Hi; right; by apply orphan_false).
  rewrite (filterb_id (λ i, negb (orphan (items m) i))); [done|]. intros i Hi. by rewrite orphan_false.
Qed.

(** C17: whatever was recorded, what is sent to the model (in builds without
    debug assertions) has an output for every call and a call for every output
    of the client, loses no call, has no snapshots, and has no images when the
    model does not take them; and a history that is paired is sent as it is, in
    every build, without a panic. *)
Theorem prompt_always_paired m mods :
  (∃ out, for_prompt false m mods = Some out ∧ paired out ∧ calls out = calls (items m) ∧
     Forall (λ i, is_ghost_snapshot i = false) out ∧
     (ModImage ∉ mods → Forall no_images out)) ∧
  (paired (items m) → ∀ dbg, for_prompt dbg m mods =
     Some (List.filter (λ i, negb (is_ghost_snapshot i)) (strip_images_when_unsupported mods (items m)))).
Proof.
  split; [|intros Hp dbg; by apply prompt_of_paired].
  unfold for_prompt, normalize_history. rewrite ensure_spec by (by left).
  rewrite remove_orphan_spec by (by left). eexists. split; [done|]. cbn [items with_items].
  set (e := flat_map _ (items m)). split_and!.
  - apply no_ghost_paired, strip_images_paired, remove_orphans_paired.
    intros k. unfold e at 1. rewrite calls_ensure. apply ensure_has_output.
  - destruct (no_ghost_keys (strip_images_when_unsupported mods (List.filter (λ i, negb (orphan e i)) e))) as (-> & _).
    rewrite strip_calls, calls_keep. apply calls_ensure.
  - apply Forall_forall. intros i [_ Hi]%elem_of_filterb. by apply negb_true_iff.
  - intros Hm. pose proof (strip_images_none mods (List.filter (λ i, negb (orphan e i)) e) Hm) as Hs.
    rewrite Forall_forall in Hs |- *. intros i [Hi _]%elem_of_filterb. by apply Hs.
Qed.

(** Removing the oldest or the newest item takes its counterpart along:
    a paired history in which ids are not reused stays one. *)
Theorem remove_item_keeps_pairs m :
  paired (items m) → unique (items m) →
  (paired (items (remove_first_item m)) ∧ unique (items (remove_first_item m))) ∧
  (paired (items (remove_last_item m).1) ∧ unique (items (remove_last_item m).1)).
Proof.
  intros Hp Hu. split.
  - unfold remove_first_item. destruct (items m) as [|x l] eqn:E; [by rewrite E|].
    cbn [items with_items]. by apply remove_corresponding_paired.
  - unfold remove_last_item. destruct (last (items m)) as [x|] eqn:E; [|done].
    apply last_Some in E as [l E]. rewrite E in *. cbn [fst items with_items bump].
    rewrite removelast_last. rewrite <- Permutation_cons_append in Hp, Hu. by apply remove_corresponding_paired.
Qed.

(** ** Rolling back *)

(** The number of turns in a list of items. *)
Definition turns (l : list (ResponseItem Value)) : nat := length (List.filter boundary l).

(** Injected context that goes with the turn after it, and the developer
    messages whose loss clears the reference. *)
Definition trimmable (i : ResponseItem Value) : bool :=
  match i with
  | Message _ role content _ =>
      ((role =?s $"developer") && is_contextual_dev_message_content content)
      || ((role =?s $"user") && is_contextual_user_message_content from_xml_str content)
  | _ => false
  end.
Definition mixed (i : ResponseItem Value) : bool :=
  match i with
  | Message _ role content _ =>
      (role =?s $"developer") && is_contextual_dev_message_content content
      && has_non_contextual_dev_message_content content
  | _ => false
  end.

Lemma trimmable_not_boundary i : trimmable i = true → boundary i = false.
Proof.
  destruct i; cbn; try done. intros [[Hr _]%andb_true_iff|[Hr Hc]%andb_true_iff]%orb_true_iff;
    apply str_eqb_eq in Hr as ->; [done|]. by rewrite Hc.
Qed.

Lemma turns_app a b : turns (a ++ b) = turns a + turns b.
Proof. unfold turns. by rewrite List.filter_app, length_app. Qed.

Lemma turns_trimmable l : Forall (λ i, trimmable i = true) l → turns l = 0.
Proof.
  unfold turns. induction 1 as [|i l Hi _ IH]; cbn; [done|]. by rewrite trimmable_not_boundary.
Qed.

(** No turn begins within a part that has none. *)
Lemma no_earlier_turn p q l x r :
  turns p = 0 → p ++ q = l ++ x :: r → boundary x = true → length p ≤ length l.
Proof.
  intros Hp Heq Hx. apply app_eq_inv in Heq as [(k & -> & Hk)|(k & -> & _)]; [|rewrite length_app; lia].
  destruct k as [|y k]; [rewrite app_nil_r; lia|]. injection Hk as <- _.
  rewrite turns_app in Hp. unfold turns in Hp at 2. cbn in Hp. rewrite Hx in Hp. cbn in Hp. lia.
Qed.

(** The walk back takes the injected context before the cut. *)
Lemma trim_spec snapshot first (reference : option TurnContextItem) cut : first ≤ cut ≤ length snapshot →
  ∃ kept ctx, take cut snapshot = kept ++ ctx ∧ first ≤ length kept ∧
    Forall (λ i, trimmable i = true) ctx ∧
    (length kept = first ∨ ∃ k x, kept = k ++ [x] ∧ trimmable x = false) ∧
    trim_pre_turn_context_updates from_xml_str snapshot first reference cut =
      (length kept, if existsb mixed ctx then None else reference).
Proof.
  revert reference. induction cut as [|cut IH]; intros reference [H1 H2]; cbn [trim_pre_turn_context_updates].
  { exists [], []. split_and!; [done|done|done|left; cbn; lia|done]. }
  destruct (Nat.ltb_spec first (S cut)) as [Hlt|Hge].
  2:{ exists (take (S cut) snapshot), []. rewrite app_nil_r, length_take, Nat.min_l by lia.
      split_and!; [done|lia|done|left; lia|done]. }
  destruct (lookup_lt_is_Some_2 snapshot cut) as [i Hi]; [lia|]. rewrite Hi.
  assert (take (S cut) snapshot = take cut snapshot ++ [i]) as Htake by by apply take_S_r.
  destruct (trimmable i) eqn:Et.
  - destruct i as [id role content phase| | | | | | | | | | | | |]; try done. cbn [trimmable] in Et.
    set (ref' := if mixed (Message id role content phase) then None else reference).
    destruct (IH ref') as (kept & ctx & Hk & Hf & Hc & Hm & Hr); [lia|].
    exists kept, (ctx ++ [Message id role content phase]). split_and!; [by rewrite Htake, Hk, app_assoc|done| |done|].
    { apply Forall_app. split; [done|]. by repeat constructor. }
    assert ((if existsb mixed (ctx ++ [Message id role content phase]) then None else reference)
            = (if existsb mixed ctx then None else ref')) as ->.
    { rewrite existsb_app. unfold ref'. cbn [existsb]. rewrite orb_false_r. by destruct (existsb mixed ctx). }
    rewrite <- Hr. unfold ref'. cbn [mixed].
    destruct ((role =?s $"developer") && is_contextual_dev_message_content content) eqn:Ed; cbn [andb orb] in *.
    + done.
    + by rewrite Et.
  - exists (take (S cut) snapshot), []. rewrite app_nil_r, length_take, Nat.min_l by lia.
    split_and!; [done|lia|done|right; exists (take cut snapshot), i; by rewrite Htake|].
    destruct i as [id role content phase| | | | | | | | | | | | |]; try done. cbn [trimmable] in Et.
    apply orb_false_iff in Et as [-> ->]. done.
Qed.

Lemma positions_lookup {A} (f : A → bool) l : ∀ k j p, positions_from f k l !! j = Some p →
  ∃ l1 x l2, l = l1 ++ x :: l2 ∧ p = k + length l1 ∧ f x = true ∧ length (List.filter f l1) = j.
Proof.
  induction l as [|y l IH]; intros k j p; cbn [positions_from]; [done|].
  destruct (f y) eqn:E.
  - destruct j as [|j]; cbn; [intros [= <-]; exists [], y, l; split_and!; [done|cbn; lia|done..]|].
    intros (l1 & x & l2 & -> & -> & Hx & Hj)%IH. exists (y :: l1), x, l2. cbn. rewrite E. cbn.
    split_and!; [done|lia|done|lia].
  - intros (l1 & x & l2 & -> & -> & Hx & Hj)%IH. exists (y :: l1), x, l2. cbn. rewrite E.
    split_and!; [done|lia|done..].
Qed.

Lemma positions_length {A} (f : A → bool) l k : length (positions_from f k l) = length (List.filter f l).
Proof. revert k. induction l as [|y l IH]; intros k; cbn; [done|]. destruct (f y); cbn; by rewrite IH. Qed.

(** Rolling back [n] turns keeps a prefix of the history: it cuts before
    the [n]-th turn from the end (before the first one if there are fewer), takes
    along the context injected right before the cut, never crosses the first
    turn, and clears the reference exactly if that context held other
    instructions. *)
Theorem rollback_drops_turns m n :
  0 < n → 0 < turns (items m) →
  let m' := drop_last_n_user_turns from_xml_str is_inter_agent_json m n in
  ∃ ctx turn rest, items m = items m' ++ ctx ++ turn :: rest ∧ boundary turn = true ∧
    turns (turn :: rest) = min n (turns (items m)) ∧
    Forall (λ i, trimmable i = true) ctx ∧
    (turns (items m') = 0 ∨ ∃ k x, items m' = k ++ [x] ∧ trimmable x = false) ∧
    (turns (items m') = 0 → ctx = []) ∧
    reference_context_item m' = (if existsb mixed ctx then None else reference_context_item m) ∧
    history_version m' = Z.min (history_version m + 1) (2 ^ 64 - 1).
Proof.
  intros Hn Ht. unfold drop_last_n_user_turns. rewrite (proj2 (Nat.eqb_neq n 0)) by lia.
  unfold user_message_positions. pose proof (positions_length boundary (items m) 0) as Hlen.
  pose proof (positions_lookup boundary (items m) 0) as Hpos. fold (turns (items m)) in Hlen.
  destruct (positions_from boundary 0 (items m)) as [|first ps] eqn:Ep; [cbn in Hlen; lia|].
  cbn zeta. rewrite <- Ep in Hlen, Hpos |- *. rewrite Hlen.
  destruct (Hpos 0 first) as (p1 & b1 & q1 & Hi1 & -> & _ & Ht1); [by rewrite Ep|]. cbn [Nat.add] in *.
  set (cut := if turns (items m) <=? n then length p1 else _).
  assert (∃ l1 x l2, items m = l1 ++ x :: l2 ∧ cut = length l1 ∧ boundary x = true ∧
    turns l1 = turns (items m) - n ∧ (turns (items m) ≤ n → l1 = p1)) as (l1 & x & l2 & Hi & Hcut & Hx & Htl & Hall).
  { unfold cut. destruct (Nat.leb_spec (turns (items m)) n) as [Hle|Hgt].
    - destruct (Hpos 0 (length p1)) as (l1 & x & l2 & Hi & Hl & Hx & Hj); [by rewrite Ep|].
      exists l1, x, l2. cbn in Hl. split_and!; [done|done|done|unfold turns at 1; lia|].
      intros _. rewrite Hi1 in Hi. by apply app_inj_1 in Hi as [-> _].
    - destruct (lookup_lt_is_Some_2 (positions_from boundary 0 (items m)) (turns (items m) - n)) as [p Hp];
        [rewrite Hlen; lia|]. rewrite Hp.
      destruct (Hpos _ _ Hp) as (l1 & x & l2 & Hi & Hl & Hx & Hj). exists l1, x, l2.
      split_and!; [done|done|done|done|lia]. }
  assert (length p1 ≤ length l1) as Hfirst by (apply (no_earlier_turn p1 (b1 :: q1) l1 x l2); [done|congruence|done]).
  destruct (trim_spec (items m) (length p1) (reference_context_item m) (length l1))
    as (kept & ctx & Hk & Hkf & Hctx & Hstop & Htrim); [split; [done|rewrite Hi, length_app; lia]|].
  rewrite Hcut, Htrim. rewrite Hi, take_app_length in Hk.
  assert (take (length kept) (items m) = kept) as Hkept by (by rewrite Hi, Hk, <- app_assoc, take_app_length).
  cbn [items replace bump with_items set_reference_context_item reference_context_item history_version].
  rewrite Hkept. assert (turns kept = turns (items m) - n) as Hkt.
  { rewrite <- Htl, Hk, turns_app, (turns_trimmable ctx) by done. lia. }
  exists ctx, x, l2. split_and!; [by rewrite Hi, Hk, <- app_assoc|done| |done| | |done|done].
  - rewrite Hi, turns_app in Hkt, Htl |- *. lia.
  - destruct Hstop as [Hs|Hs]; [left|by right].
    assert (kept = p1) as ->; [|done]. rewrite <- Hkept, Hi1, Hs. apply take_app_length.
  - intros Hz. assert (l1 = p1) as Hl by (apply Hall; lia).
    rewrite <- Hl, Hk, length_app in Hkf. destruct ctx; [done|]. cbn in Hkf. lia.
Qed.

(** ** Versions *)

(** The operations that change a manager, but for [remove_first_item]. *)
Inductive step (dbg : bool) : ContextManager Value TurnContextItem → ContextManager Value TurnContextItem → Prop :=
| S_record m new policy m' : record_items m new policy = Some m' → step dbg m m'
| S_remove_last m : step dbg m (remove_last_item m).1
| S_replace m l : step dbg m (replace m l)
| S_images m placeholder :
    step dbg m (replace_last_turn_images from_xml_str is_inter_agent_json m placeholder).1
| S_rollback m n : step dbg m (drop_last_n_user_turns from_xml_str is_inter_agent_json m n)
| S_usage m usage window m' : update_token_info dbg m usage window = Some m' → step dbg m m'
| S_full m window m' : set_token_usage_full dbg m window = Some m' → step dbg m m'
| S_token_info m info : step dbg m (with_token_info m info)
| S_reference m r : step dbg m (set_reference_context_item m r).

Definition next_version (v : Z) : Z := Z.min (v + 1) (2 ^ 64 - 1).

Lemma record_items_appends m new policy m' : record_items m new policy = Some m' →
  history_version m' = history_version m ∧ items m `prefix_of` items m'.
Proof.
  revert m. induction new as [|i new IH]; intros m; cbn [record_items]; [by intros [= <-]|].
  case_match; [apply IH|]. case_match; [|done]. intros [Hv Hp]%IH. split; [done|].
  etrans; [|exact Hp]. by eexists.
Qed.

Lemma replace_images_version m placeholder :
  let m' := (replace_last_turn_images from_xml_str is_inter_agent_json m placeholder).1 in
  history_version m' = next_version (history_version m) ∨
  history_version m' = history_version m ∧ items m' = items m.
Proof.
  unfold replace_last_turn_images. destruct (rposition _ (items m)) as [index|]; [|by right].
  destruct (items m !! index) as [i|] eqn:Ei; [|by right].
  destruct i as [| | | | |id output| | | | | | | |]; try by right.
  destruct output as [[t|l] ok]; cbn [body success]; [by right|].
  destruct (existsb is_image l) eqn:E; [by left|right; split; [done|]]. cbn.
  assert ((λ c, if is_image c then InputText placeholder else c) <$> l = l) as ->.
  { clear Ei. induction l as [|c l IH]; [done|]. cbn in E. apply orb_false_iff in E as [Hc Hl].
    cbn. by rewrite Hc, (IH Hl). }
  by apply list_insert_id.
Qed.

Lemma step_version dbg m m' : step dbg m m' →
  history_version m' = next_version (history_version m) ∨
  history_version m' = history_version m ∧ items m `prefix_of` items m'.
Proof.
  destruct 1 as [m new policy m' H|m|m l|m p|m n|m u w m' H|m w m' H|m i|m r].
  - right. by apply record_items_appends in H.
  - unfold remove_last_item. case_match; [by left|by right].
  - by left.
  - destruct (replace_images_version m p) as [H|[H1 H2]]; [by left|right]. by rewrite H2.
  - unfold drop_last_n_user_turns. repeat case_match; first [by left | by right].
  - unfold update_token_info in H. case_match; simplify_eq. by right.
  - unfold set_token_usage_full in H. case_match; simplify_eq. by right.
  - by right.
  - by right.
Qed.

(** The version tells whether the history was rewritten: it never goes
    back, and along any operations but [remove_first_item] that leave it as it
    was, the old items are a prefix of the new ones. *)
Theorem version_tracks_rewrites dbg m m' :
  rtc (step dbg) m m' → (0 ≤ history_version m ≤ 2 ^ 64 - 1)%Z →
  (history_version m ≤ history_version m' ≤ 2 ^ 64 - 1)%Z ∧
  (history_version m' = history_version m → (history_version m < 2 ^ 64 - 1)%Z →
   items m `prefix_of` items m').
Proof.
  induction 1 as [m|m m1 m' Hs _ IH]; intros Hv; [split; [lia|done]|].
  destruct (step_version dbg m m1 Hs) as [Hn|[Hn Hp]].
  - unfold next_version in Hn. destruct IH as [Hle _]; [lia|]. split; [lia|]. intros E Hlt. lia.
  - destruct IH as [Hle Hpre]; [lia|]. split; [lia|]. intros E Hlt. etrans; [exact Hp|]. apply Hpre; lia.
Qed.

End Properties.

(** ** Concrete histories *)

Definition demo_no_xml : rstring → option (rstring * rstring) := λ _, None.
Definition demo_no_agents : rstring → bool := λ _, false.
Definition demo_msg role text : ResponseItem unit := Message None role [MsgInputText text] None.
Definition demo_call id : ResponseItem unit := FunctionCall None $"shell" None $"{}" id.
Definition demo_out id : ResponseItem unit := FunctionCallOutput id (from_text $"ok").
Definition demo_hist l : ContextManager unit unit :=
  {| items := l; history_version := 3; token_info := None; reference_context_item := Some tt |}.

Lemma prompt_always_paired_witness :
  for_prompt true (demo_hist [demo_msg $"user" $"go"; demo_call $"1"; demo_out $"1"; GhostSnapshot (Build_GhostCommit [] None [] [])])
    [ModText; ModImage]
  = Some [demo_msg $"user" $"go"; demo_call $"1"; demo_out $"1"].
Proof.
  apply (prompt_always_paired (demo_hist [demo_msg $"user" $"go"; demo_call $"1"; demo_out $"1";
    GhostSnapshot (Build_GhostCommit [] None [] [])])).
  split; cbn; intros k Hk; set_solver.
Defined.

Lemma remove_item_keeps_pairs_witness :
  let m := demo_hist [demo_call $"1"; demo_out $"1"; demo_call $"2"; demo_out $"2"] in
  (paired (items (remove_first_item m)) ∧ unique (items (remove_first_item m))) ∧
  (paired (items (remove_last_item m).1) ∧ unique (items (remove_last_item m).1)).
Proof.
  apply (remove_item_keeps_pairs (demo_hist [demo_call $"1"; demo_out $"1"; demo_call $"2"; demo_out $"2"])).
  - split; cbn; intros k Hk; set_solver.
  - split; apply (bool_decide_unpack _); vm_compute; exact I.
Defined.

Lemma rollback_drops_turns_witness :
  let m := demo_hist [demo_msg $"developer" $"rules"; demo_msg $"user" $"one"; demo_msg $"assistant" $"1";
                 demo_msg $"developer" $"<model_switch>x"; demo_msg $"user" $"<skill>s</skill>"; demo_msg $"user" $"two"; demo_call $"1"] in
  let m' := drop_last_n_user_turns demo_no_xml demo_no_agents m 1 in
  ∃ ctx turn rest, items m = items m' ++ ctx ++ turn :: rest ∧
    is_user_turn_boundary demo_no_xml demo_no_agents turn = true ∧
    turns demo_no_xml demo_no_agents (turn :: rest) = min 1 (turns demo_no_xml demo_no_agents (items m)) ∧
    Forall (λ i, trimmable demo_no_xml i = true) ctx ∧
    (turns demo_no_xml demo_no_agents (items m') = 0 ∨ ∃ k x, items m' = k ++ [x] ∧ trimmable demo_no_xml x = false) ∧
    (turns demo_no_xml demo_no_agents (items m') = 0 → ctx = []) ∧
    reference_context_item m' = (if existsb mixed ctx then None else reference_context_item m) ∧
    history_version m' = Z.min (history_version m + 1) (2 ^ 64 - 1).
Proof.
  apply (rollback_drops_turns demo_no_xml demo_no_agents (demo_hist [demo_msg $"developer" $"rules"; demo_msg $"user" $"one";
    demo_msg $"assistant" $"1"; demo_msg $"developer" $"<model_switch>x"; demo_msg $"user" $"<skill>s</skill>";
    demo_msg $"user" $"two"; demo_call $"1"]) 1); vm_compute; lia.
Defined.

Example rollback_ex :
  items (drop_last_n_user_turns demo_no_xml demo_no_agents
    (demo_hist [demo_msg $"developer" $"rules"; demo_msg $"user" $"one"; demo_msg $"assistant" $"1";
           demo_msg $"developer" $"<model_switch>x"; demo_msg $"user" $"<skill>s</skill>"; demo_msg $"user" $"two"; demo_call $"1"]) 1)
  = [demo_msg $"developer" $"rules"; demo_msg $"user" $"one"; demo_msg $"assistant" $"1"].
Proof. vm_compute. reflexivity. Qed.

Lemma version_tracks_rewrites_witness :
  let m := demo_hist [demo_call $"1"] in
  let m' := with_items m [demo_call $"1"; demo_out $"1"] in
  (history_version m ≤ history_version m' ≤ 2 ^ 64 - 1)%Z ∧
  (history_version m' = history_version m → (history_version m < 2 ^ 64 - 1)%Z →
   items m `prefix_of` items m').
Proof.
  apply (version_tracks_rewrites demo_no_xml demo_no_agents true).
  - apply rtc_once, (S_record _ _ _ _ [demo_out $"1"] (Bytes 100)). vm_compute. reflexivity.
  - cbn. lia.
Defined.

(** [remove_first_item] rewrites the history and leaves the version. *)
Lemma remove_first_keeps_version :
  let m := demo_hist [demo_call $"1"; demo_out $"1"; demo_call $"2"] in
  history_version (remove_first_item m) = history_version m ∧
  items (remove_first_item m) = [demo_call $"2"].
Proof. vm_compute. done. Qed.

End History.
