(* ===== verification/ThinkParser.v ===== *)
(** * ThinkParser: reasoning inside the text of a delegate model

    Models codex-rs/minimax/src/think_parser.rs: a streaming parser that sends
    what stands between <think> and </think> to the reasoning channel and the
    rest to the visible one, holding back what could be the beginning of a tag.

    The code works on byte offsets.  Every offset it uses is a char boundary,
    because the tags are ASCII, so the model counts chars.  The loop of [push]
    takes fuel: one more than the chars that are pending is enough, because
    each round drops a tag. *)

From S2P Require Import Prelude InlineTag.

Module Think.

Inductive ParsedSegment :=
| Text (s : rstring)
| Reasoning (s : rstring).

Record ThinkParser := { pending : rstring; inside_think : bool }.

Definition OPEN_TAG : rstring := $"<think>".
Definition CLOSE_TAG : rstring := $"</think>".

Definition new : ThinkParser := {| pending := []; inside_think := false |}.

(** The [for n in (1..=max).rev()] loop of [trailing_partial_match]. *)
Fixpoint partial_from (buf tag : rstring) (n : nat) : nat :=
  match n with
  | O => length buf
  | S n' =>
      if starts_with (drop (length buf - n) buf) tag then length buf - n
      else partial_from buf tag n'
  end.
Definition trailing_partial_match (buf tag : rstring) : nat :=
  partial_from buf tag (length buf `min` (length tag - 1)).

(** [push_segment]: a segment of the kind of the last one is appended to it. *)
Definition push_segment (out : list ParsedSegment) (seg : ParsedSegment) : list ParsedSegment :=
  match last out, seg with
  | Some (Text prev), Text next => take (length out - 1) out ++ [Text (prev ++ next)]
  | Some (Reasoning prev), Reasoning next => take (length out - 1) out ++ [Reasoning (prev ++ next)]
  | _, _ => out ++ [seg]
  end.

Definition segment (inside : bool) (s : rstring) : ParsedSegment :=
  if inside then Reasoning s else Text s.
Definition tag_of (inside : bool) : rstring := if inside then CLOSE_TAG else OPEN_TAG.

(** The loop of [push]; [None] is out of fuel.  The two branches of the code
    differ in the tag they look for and the kind of segment they emit. *)
Fixpoint push_loop (fuel : nat) (p : ThinkParser) (out : list ParsedSegment)
  : option (ThinkParser * list ParsedSegment) :=
  match fuel with
  | O => None
  | S fuel' =>
      let tag := tag_of (inside_think p) in
      match str_find tag (pending p) with
      | Some idx =>
          let out' := if 0 <? idx
                      then push_segment out (segment (inside_think p) (take idx (pending p)))
                      else out in
          push_loop fuel' {| pending := drop (idx + length tag) (pending p);
                             inside_think := negb (inside_think p) |} out'
      | None =>
          let safe_emit_to := trailing_partial_match (pending p) tag in
          if 0 <? safe_emit_to
          then Some ({| pending := drop safe_emit_to (pending p); inside_think := inside_think p |},
                     push_segment out (segment (inside_think p) (take safe_emit_to (pending p))))
          else Some (p, out)
      end
  end.

Definition push (p : ThinkParser) (input : rstring) : option (ThinkParser * list ParsedSegment) :=
  let buf := pending p ++ input in
  push_loop (S (length buf)) {| pending := buf; inside_think := inside_think p |} [].

Definition flush (p : ThinkParser) : ThinkParser * list ParsedSegment :=
  match pending p with
  | [] => (p, [])
  | drained => ({| pending := []; inside_think := false |}, [segment (inside_think p) drained])
  end.

(** A whole stream: every delta pushed, then the flush. *)
Fixpoint push_all (p : ThinkParser) (chunks : list rstring)
  : option (ThinkParser * list ParsedSegment) :=
  match chunks with
  | [] => Some (p, [])
  | c :: cs =>
      match push p c with
      | None => None
      | Some (p1, o1) =>
          match push_all p1 cs with
          | None => None
          | Some (p2, o2) => Some (p2, o1 ++ o2)
          end
      end
  end.

(** ** What a text means

    Every char outside the tags belongs to one of the two channels; [true] is
    the reasoning channel. *)
Definition tagged (inside : bool) (s : rstring) : list (bool * char) := pair inside <$> s.

Fixpoint channels_go (fuel : nat) (inside : bool) (text : rstring) : list (bool * char) :=
  match fuel with
  | O => []
  | S fuel' =>
      match str_find (tag_of inside) text with
      | None => tagged inside text
      | Some i => tagged inside (take i text) ++
                  channels_go fuel' (negb inside) (drop (i + length (tag_of inside)) text)
      end
  end.
Definition channels (inside : bool) (text : rstring) : list (bool * char) :=
  channels_go (S (length text)) inside text.

(** The chars of the segments, each with its channel. *)
Definition segment_chars (s : ParsedSegment) : list (bool * char) :=
  match s with Text t => tagged false t | Reasoning t => tagged true t end.
Definition chars_of (segs : list ParsedSegment) : list (bool * char) := segs ≫= segment_chars.

(** ** Lemmas *)

Lemma tag_length inside : 0 < length (tag_of inside).
Proof. destruct inside; cbn; lia. Qed.

Lemma segment_chars_eq inside s : segment_chars (segment inside s) = tagged inside s.
Proof. by destruct inside. Qed.

Lemma chars_of_app a b : chars_of (a ++ b) = chars_of a ++ chars_of b.
Proof. apply bind_app. Qed.

Lemma tagged_app inside a b : tagged inside (a ++ b) = tagged inside a ++ tagged inside b.
Proof. apply fmap_app. Qed.

Lemma chars_of_push out seg : chars_of (push_segment out seg) = chars_of out ++ segment_chars seg.
Proof.
  unfold push_segment.
  assert (Hsnoc : chars_of (out ++ [seg]) = chars_of out ++ segment_chars seg).
  { rewrite chars_of_app. cbn. by rewrite app_nil_r. }
  destruct (last out) as [l|] eqn:El; [|done].
  apply last_Some in El as [out' ->]. rewrite length_app. cbn [length].
  replace (length out' + 1 - 1) with (length out') by lia. rewrite take_app_length.
  destruct l, seg; try done; rewrite !chars_of_app; cbn; rewrite ?app_nil_r, tagged_app, ?app_assoc; done.
Qed.

Lemma starts_ends_with buf tag n :
  n ≤ length buf → n ≤ length tag →
  starts_with (drop (length buf - n) buf) tag = ends_with (take n tag) buf.
Proof.
  intros Hb Ht. apply eq_true_iff_eq. rewrite starts_with_true, ends_with_true. split.
  - intros [r Hr]. exists (take (length buf - n) buf).
    rewrite <-(take_drop (length buf - n) buf) at 1. f_equal. rewrite Hr, take_app_length'; [done|].
    rewrite length_drop. lia.
  - intros [r ->]. exists (drop n tag). rewrite length_app, length_take, Nat.min_l by done.
    replace (length r + n - n) with (length r) by lia. by rewrite drop_app_length, take_drop.
Qed.

Lemma partial_from_eq buf tag n :
  n ≤ length buf → n ≤ length tag →
  partial_from buf tag n = length buf - Inline.suffix_prefix_from buf tag n.
Proof.
  intros Hb Ht. induction n as [|n IH]; cbn [partial_from Inline.suffix_prefix_from]; [lia|].
  rewrite starts_ends_with by done. destruct (ends_with _ _); [done|]. apply IH; lia.
Qed.

Lemma trailing_partial_match_eq buf tag :
  trailing_partial_match buf tag = length buf - Inline.longest_suffix_prefix_len buf tag.
Proof. apply partial_from_eq; lia. Qed.

Lemma channels_go_fuel f1 f2 inside text :
  length text < f1 → length text < f2 → channels_go f1 inside text = channels_go f2 inside text.
Proof.
  revert f2 inside text. induction f1 as [|f1 IH]; intros [|f2] inside text H1 H2; try lia.
  cbn [channels_go]. destruct (str_find _ text) as [i|] eqn:E; [|done].
  pose proof (str_find_bound _ _ _ E). pose proof (tag_length inside).
  f_equal. apply IH; rewrite length_drop; lia.
Qed.

Lemma channels_unfold inside text :
  channels inside text =
  match str_find (tag_of inside) text with
  | None => tagged inside text
  | Some i => tagged inside (take i text) ++
              channels (negb inside) (drop (i + length (tag_of inside)) text)
  end.
Proof.
  unfold channels at 1. cbn [channels_go]. destruct (str_find _ text) as [i|] eqn:E; [|done].
  pose proof (str_find_bound _ _ _ E). pose proof (tag_length inside).
  f_equal. apply channels_go_fuel; rewrite length_drop; lia.
Qed.

(** What is emitted without a tag in sight is in the channel for good. *)
Lemma channels_release inside u w t :
  str_find (tag_of inside) (u ++ w) = None →
  Inline.longest_suffix_prefix_len (u ++ w) (tag_of inside) ≤ length w →
  channels inside (u ++ w ++ t) = tagged inside u ++ channels inside (w ++ t).
Proof.
  intros Hf Hk. rewrite channels_unfold, (channels_unfold _ (w ++ t)).
  rewrite Inline.find_after_release by done.
  destruct (str_find (tag_of inside) (w ++ t)) as [i|]; cbn [fmap option_fmap option_map]; [|apply tagged_app].
  rewrite take_app_add, tagged_app, <-app_assoc. do 2 f_equal.
  rewrite <-Nat.add_assoc, drop_app_add. done.
Qed.

(** The pending text of a parser between two pushes. *)
Definition held (p : ThinkParser) : Prop :=
  length (pending p) < length (tag_of (inside_think p)).

Lemma push_loop_spec fuel p out :
  length (pending p) < fuel →
  ∃ p' out', push_loop fuel p out = Some (p', out') ∧ held p' ∧
    ∃ e, chars_of out' = chars_of out ++ e ∧
    ∀ t, channels (inside_think p) (pending p ++ t) =
         e ++ channels (inside_think p') (pending p' ++ t).
Proof.
  revert p out. induction fuel as [|fuel IH]; intros [pend ins] out Hf; [lia|].
  cbn [push_loop pending inside_think] in *.
  destruct (str_find (tag_of ins) pend) as [i|] eqn:E.
  - pose proof (str_find_bound _ _ _ E) as Hb. pose proof (tag_length ins) as Ht.
    set (out1 := if 0 <? i then _ else out).
    assert (Ho : chars_of out1 = chars_of out ++ tagged ins (take i pend)).
    { unfold out1. destruct i; cbn [Nat.ltb Nat.leb]; [by rewrite app_nil_r|].
      by rewrite chars_of_push, segment_chars_eq. }
    destruct (IH {| pending := drop (i + length (tag_of ins)) pend; inside_think := negb ins |} out1)
      as (p' & out' & Hp & Hh & e & He & Hc); [cbn; rewrite length_drop; lia|].
    exists p', out'. split; [done|]. split; [done|]. exists (tagged ins (take i pend) ++ e).
    split; [by rewrite He, Ho, app_assoc|]. intros t. cbn [pending inside_think] in Hc. rewrite <-app_assoc, <-Hc.
    rewrite channels_unfold, (str_find_app_l _ _ _ _ E), take_app_le by lia.
    by rewrite drop_app_le by lia.
  - pose proof (Inline.longest_suffix_le pend (tag_of ins)) as Hl.
    pose proof (Inline.longest_suffix_lt pend (tag_of ins)) as Hlt.
    specialize (Hlt ltac:(by destruct ins)).
    rewrite trailing_partial_match_eq. set (k := Inline.longest_suffix_prefix_len _ _) in *.
    set (n := length pend - k).
    assert (Hr : ∀ t, channels ins (pend ++ t) = tagged ins (take n pend) ++ channels ins (drop n pend ++ t)).
    { intros t. rewrite <-(take_drop n pend) at 1. rewrite <-app_assoc. apply channels_release;
        rewrite take_drop; [done|]. fold k. rewrite length_drop. lia. }
    destruct (0 <? n) eqn:En; do 2 eexists; (split; [reflexivity|]); unfold held; cbn [pending inside_think].
    + split; [rewrite length_drop; lia|]. exists (tagged ins (take n pend)).
      by rewrite chars_of_push, segment_chars_eq.
    + apply Nat.ltb_ge in En. split; [lia|]. exists []. rewrite app_nil_r. split; [done|]. done.
Qed.

Lemma push_all_spec p chunks :
  ∃ p' segs, push_all p chunks = Some (p', segs) ∧ (held p → held p') ∧
    ∀ t, channels (inside_think p) (pending p ++ concat chunks ++ t) =
         chars_of segs ++ channels (inside_think p') (pending p' ++ t).
Proof.
  revert p. induction chunks as [|c cs IH]; intros p; cbn [push_all concat].
  { by exists p, []. }
  unfold push. destruct (push_loop_spec (S (length (pending p ++ c)))
    {| pending := pending p ++ c; inside_think := inside_think p |} [])
    as (p1 & o1 & -> & Hh & e & He & Hc); [cbn; lia|].
  destruct (IH p1) as (p2 & o2 & -> & Hh2 & Hc2). do 2 eexists. split; [reflexivity|].
  split; [auto|]. intros t. cbn [pending inside_think] in *.
  rewrite chars_of_app, He. change (chars_of [] ++ e) with e.
  rewrite <-!app_assoc, <-Hc2. specialize (Hc (concat cs ++ t)). by rewrite <-app_assoc in Hc.
Qed.

Lemma channels_short inside s : length s < length (tag_of inside) → channels inside s = tagged inside s.
Proof.
  intros Hl. rewrite channels_unfold. destruct (str_find (tag_of inside) s) eqn:E; [|done].
  apply str_find_bound in E. lia.
Qed.

Lemma push_all_flush chunks :
  ∃ p segs, push_all new chunks = Some (p, segs) ∧
    chars_of (segs ++ (flush p).2) = channels false (concat chunks).
Proof.
  destruct (push_all_spec new chunks) as (p & segs & Hp & Hh & Hc).
  exists p, segs. split; [done|]. specialize (Hc []). specialize (Hh ltac:(unfold held; cbn; lia)).
  cbn [new pending inside_think] in Hc. rewrite !app_nil_r in Hc. cbn [app] in Hc.
  rewrite Hc, chars_of_app. f_equal. rewrite channels_short by done. unfold flush.
  destruct (pending p) eqn:E; [done|]. cbn [snd chars_of mbind list_bind].
  by rewrite segment_chars_eq, app_nil_r.
Qed.

(** However the text of the model is cut into deltas, the parser returns and
    sends every char outside the tags to the channel it has in the whole text,
    in order; so two ways of cutting the same text give the same channels. *)
Theorem think_stream_refines chunks :
  ∃ p segs, push_all new chunks = Some (p, segs) ∧
    chars_of (segs ++ (flush p).2) = channels false (concat chunks) ∧
    ∀ chunks', concat chunks' = concat chunks →
      ∃ p' segs', push_all new chunks' = Some (p', segs') ∧
        chars_of (segs' ++ (flush p').2) = chars_of (segs ++ (flush p).2).
Proof.
  destruct (push_all_flush chunks) as (p & segs & Hp & Hc). exists p, segs.
  split; [done|]. split; [done|]. intros chunks' E.
  destruct (push_all_flush chunks') as (p' & segs' & Hp' & Hc'). exists p', segs'.
  by rewrite Hc', Hc, E.
Qed.

End Think.
