(* ===== verification/EventBridge.v ===== *)
(** * EventBridge: the stream of a delegate model as events of a turn

    Models codex-rs/minimax/src/bridge.rs with the chunk types of streaming.rs
    and the usage of types.rs, and the events of codex-api/src/common.rs that
    the bridge emits.
    The bridge is stateful: text goes through the parser of [ThinkParser], tool
    calls are put together from fragments, and one message item is opened before
    the first delta and closed at the end.

    The id that [Uuid::new_v4] would give is a parameter; a bridge asks for it at
    most once.  The telemetry line of [finalize] is the usage it reports. *)

From S2P Require Import Prelude InlineTag ThinkParser Truncation OutputTruncation ResponseItems Normalize History.

Module Bridge.
Import Think.

(** ** Chunks of the stream (streaming.rs, types.rs) *)
Record ToolCallFunctionChunk := { fn_name : option rstring; fn_arguments : option rstring }.

Record ToolCallChunk := {
  tc_index : Z;
  tc_id : option rstring;
  tc_kind : option rstring;
  function : option ToolCallFunctionChunk
}.

Record ChunkDelta := {
  delta_role : option rstring;
  content : option rstring;
  reasoning_content : option rstring;
  tool_calls : list ToolCallChunk
}.

Record ChunkChoice := { choice_index : Z; finish_reason : option rstring; delta : ChunkDelta }.

Record Usage := {
  prompt_tokens : Z;
  completion_tokens : Z;
  usage_total_tokens : Z;
  cached_tokens : option Z;
  reasoning_tokens : option Z
}.

Record ChatCompletionChunk := {
  chunk_id : rstring;
  chunk_model : rstring;
  object : rstring;
  created : Z;
  choices : list ChunkChoice;
  usage : option Usage
}.

(** [as i64] of the u64 counters wraps. *)
Definition map_usage (u : Usage) : History.TokenUsage :=
  {| History.input_tokens := History.i64_wrap (prompt_tokens u);
     History.cached_input_tokens := History.i64_wrap (default 0%Z (cached_tokens u));
     History.output_tokens := History.i64_wrap (completion_tokens u);
     History.reasoning_output_tokens := History.i64_wrap (default 0%Z (reasoning_tokens u));
     History.total_tokens := History.i64_wrap (usage_total_tokens u) |}.

Section Bridge.
Context {Value : Type}.

(** The events of codex-api, without the two (account verification and rate
    limits) that only the OpenAI client emits. *)
Inductive ResponseEvent :=
| Created
| OutputItemDone (item : Items.ResponseItem Value)
| OutputItemAdded (item : Items.ResponseItem Value)
| ServerModel (m : rstring)
| ServerReasoningIncluded (b : bool)
| Completed (response_id : rstring) (token_usage : option History.TokenUsage) (end_turn : option bool)
| OutputTextDelta (t : rstring)
| ToolCallInputDelta (item_id : rstring) (call_id : option rstring) (d : rstring)
| ReasoningSummaryDelta (d : rstring) (summary_index : Z)
| ReasoningContentDelta (d : rstring) (content_index : Z)
| ReasoningSummaryPartAdded (summary_index : Z)
| ModelsEtag (e : rstring).

Record PartialCall := { call_id : rstring; name : rstring; arguments : rstring }.
Definition PartialCall_default : PartialCall := {| call_id := []; name := []; arguments := [] |}.

(** [BTreeMap<u32, PartialCall>]: entries in the order of their keys. *)
Definition Calls := list (Z * PartialCall).

(** [entry(k).or_default()], changed by [f]. *)
Fixpoint update_entry (k : Z) (f : PartialCall → PartialCall) (m : Calls) : Calls :=
  match m with
  | [] => [(k, f PartialCall_default)]
  | (k', c) :: m' =>
      if (k =? k')%Z then (k', f c) :: m'
      else if (k <? k')%Z then (k, f PartialCall_default) :: m
      else (k', c) :: update_entry k f m'
  end.
Fixpoint entry (k : Z) (m : Calls) : PartialCall :=
  match m with
  | [] => PartialCall_default
  | (k', c) :: m' => if (k =? k')%Z then c else entry k m'
  end.

Record ResponseEventBridge := {
  response_id : option rstring;
  pending_calls : Calls;
  last_usage : option History.TokenUsage;
  final_finish_reason : option rstring;
  think_parser : ThinkParser;
  reasoning_index : Z;
  run_id : rstring;
  model : rstring;
  message_started : bool;
  message_item_id : rstring;
  accumulated_text : rstring
}.

Definition with_telemetry (run model : rstring) : ResponseEventBridge :=
  {| response_id := None; pending_calls := []; last_usage := None; final_finish_reason := None;
     think_parser := Think.new; reasoning_index := 0; run_id := run; model := model;
     message_started := false; message_item_id := []; accumulated_text := [] |}.
Definition new_bridge : ResponseEventBridge := with_telemetry [] [].

Abbreviation out := (list ResponseEvent).

(** [&mut self] updates, one field each. *)
Definition set_response_id b v := {| response_id := v; pending_calls := pending_calls b;
  last_usage := last_usage b; final_finish_reason := final_finish_reason b;
  think_parser := think_parser b; reasoning_index := reasoning_index b; run_id := run_id b;
  model := model b; message_started := message_started b; message_item_id := message_item_id b;
  accumulated_text := accumulated_text b |}.
Definition set_calls b v := {| response_id := response_id b; pending_calls := v;
  last_usage := last_usage b; final_finish_reason := final_finish_reason b;
  think_parser := think_parser b; reasoning_index := reasoning_index b; run_id := run_id b;
  model := model b; message_started := message_started b; message_item_id := message_item_id b;
  accumulated_text := accumulated_text b |}.
Definition set_usage b v := {| response_id := response_id b; pending_calls := pending_calls b;
  last_usage := v; final_finish_reason := final_finish_reason b;
  think_parser := think_parser b; reasoning_index := reasoning_index b; run_id := run_id b;
  model := model b; message_started := message_started b; message_item_id := message_item_id b;
  accumulated_text := accumulated_text b |}.
Definition set_finish b v := {| response_id := response_id b; pending_calls := pending_calls b;
  last_usage := last_usage b; final_finish_reason := v;
  think_parser := think_parser b; reasoning_index := reasoning_index b; run_id := run_id b;
  model := model b; message_started := message_started b; message_item_id := message_item_id b;
  accumulated_text := accumulated_text b |}.
Definition set_think b v := {| response_id := response_id b; pending_calls := pending_calls b;
  last_usage := last_usage b; final_finish_reason := final_finish_reason b;
  think_parser := v; reasoning_index := reasoning_index b; run_id := run_id b;
  model := model b; message_started := message_started b; message_item_id := message_item_id b;
  accumulated_text := accumulated_text b |}.
Definition set_reasoning_index b v := {| response_id := response_id b;
  pending_calls := pending_calls b; last_usage := last_usage b;
  final_finish_reason := final_finish_reason b; think_parser := think_parser b;
  reasoning_index := v; run_id := run_id b; model := model b;
  message_started := message_started b; message_item_id := message_item_id b;
  accumulated_text := accumulated_text b |}.
Definition set_message b id := {| response_id := response_id b; pending_calls := pending_calls b;
  last_usage := last_usage b; final_finish_reason := final_finish_reason b;
  think_parser := think_parser b; reasoning_index := reasoning_index b; run_id := run_id b;
  model := model b; message_started := true; message_item_id := id;
  accumulated_text := accumulated_text b |}.
Definition push_text b t := {| response_id := response_id b; pending_calls := pending_calls b;
  last_usage := last_usage b; final_finish_reason := final_finish_reason b;
  think_parser := think_parser b; reasoning_index := reasoning_index b; run_id := run_id b;
  model := model b; message_started := message_started b; message_item_id := message_item_id b;
  accumulated_text := accumulated_text b ++ t |}.

Section Ingest.
(** What [Uuid::new_v4] prints as. *)
Variable new_v4 : rstring.

Definition assistant_message (id : rstring) (c : list Items.ContentItem) : Items.ResponseItem Value :=
  Items.Message (Some id) $"assistant" c None.

Definition ensure_message_started (b : ResponseEventBridge) (o : out) : ResponseEventBridge * out :=
  if message_started b then (b, o)
  else
    let id := $"msg-" ++ default new_v4 (response_id b) in
    (set_message b id, o ++ [OutputItemAdded (assistant_message id [])]).

Definition emit_text (b : ResponseEventBridge) (o : out) (t : rstring) : ResponseEventBridge * out :=
  let '(b, o) := ensure_message_started b o in
  (push_text b t, o ++ [OutputTextDelta t]).

Definition emit_reasoning (b : ResponseEventBridge) (o : out) (t : rstring)
  : ResponseEventBridge * out :=
  let '(b, o) := ensure_message_started b o in
  (set_reasoning_index b (reasoning_index b + 1), o ++ [ReasoningContentDelta t (reasoning_index b)]).

(** The arms of the loop over the segments of the text. *)
Definition emit_segment (bo : ResponseEventBridge * out) (seg : ParsedSegment)
  : ResponseEventBridge * out :=
  let '(b, o) := bo in
  match seg with
  | Text t => if is_empty t then (b, o) else emit_text b o t
  | Reasoning t => if is_empty t then (b, o) else emit_reasoning b o t
  end.

Definition ingest_reasoning (c : ChunkDelta) (b : ResponseEventBridge) (o : out)
  : ResponseEventBridge * out :=
  match reasoning_content c with
  | Some r => if is_empty r then (b, o) else emit_reasoning b o r
  | None => (b, o)
  end.

(** [None] is the parser out of fuel. *)
Definition ingest_content (c : ChunkDelta) (b : ResponseEventBridge) (o : out)
  : option (ResponseEventBridge * out) :=
  match content c with
  | Some t =>
      if is_empty t then Some (b, o)
      else match Think.push (think_parser b) t with
           | None => None
           | Some (p, segs) => Some (fold_left emit_segment segs (set_think b p, o))
           end
  | None => Some (b, o)
  end.

Definition tool_call_change (tc : ToolCallChunk) (e : PartialCall) : PartialCall :=
  let e := match tc_id tc with
           | Some id => {| call_id := id; name := name e; arguments := arguments e |}
           | None => e
           end in
  match function tc with
  | None => e
  | Some f =>
      let e := match fn_name f with
               | Some n => {| call_id := call_id e; name := n; arguments := arguments e |}
               | None => e
               end in
      match fn_arguments f with
      | Some a => {| call_id := call_id e; name := name e; arguments := arguments e ++ a |}
      | None => e
      end
  end.

Definition tool_call_events (tc : ToolCallChunk) (e : PartialCall) : out :=
  match function tc with
  | Some f =>
      match fn_arguments f with
      | Some a =>
          if is_empty a then []
          else [ToolCallInputDelta ($"call-" ++ show_nat (Z.to_nat (tc_index tc)))
                  (if is_empty (call_id e) then None else Some (call_id e)) a]
      | None => []
      end
  | None => []
  end.

Definition ingest_tool_call (bo : ResponseEventBridge * out) (tc : ToolCallChunk)
  : ResponseEventBridge * out :=
  let '(b, o) := bo in
  let calls := update_entry (tc_index tc) (tool_call_change tc) (pending_calls b) in
  (set_calls b calls, o ++ tool_call_events tc (entry (tc_index tc) calls)).

Definition ingest_choice (b : ResponseEventBridge) (o : out) (c : ChunkChoice)
  : option (ResponseEventBridge * out) :=
  let b := match finish_reason c with Some r => set_finish b (Some r) | None => b end in
  let '(b, o) := ingest_reasoning (delta c) b o in
  match ingest_content (delta c) b o with
  | None => None
  | Some (b, o) => Some (fold_left ingest_tool_call (tool_calls (delta c)) (b, o))
  end.

Fixpoint ingest_choices (b : ResponseEventBridge) (o : out) (cs : list ChunkChoice)
  : option (ResponseEventBridge * out) :=
  match cs with
  | [] => Some (b, o)
  | c :: cs' =>
      match ingest_choice b o c with
      | None => None
      | Some (b, o) => ingest_choices b o cs'
      end
  end.

Definition ingest (b : ResponseEventBridge) (c : ChatCompletionChunk)
  : option (ResponseEventBridge * out) :=
  let b := match response_id b with
           | None => if is_empty (chunk_id c) then b else set_response_id b (Some (chunk_id c))
           | Some _ => b
           end in
  let b := match usage c with Some u => set_usage b (Some (map_usage u)) | None => b end in
  ingest_choices b [] (choices c).

Definition finished_call (kc : Z * PartialCall) : option ResponseEvent :=
  let c := kc.2 in
  if is_empty (call_id c) && is_empty (name c) then None
  else Some (OutputItemDone (Items.FunctionCall None (name c) None (arguments c) (call_id c))).

Definition close_message (b : ResponseEventBridge) : out :=
  if message_started b
  then [OutputItemDone (assistant_message (message_item_id b)
          (if is_empty (accumulated_text b) then [] else [Items.MsgOutputText (accumulated_text b)]))]
  else [].

Definition end_turn_of (reason : rstring) : bool :=
  if (reason =?s $"stop") || (reason =?s $"length") then true
  else if reason =?s $"tool_calls" then false else false.

(** [finalize]: the events, and the usage of the telemetry line if one is
    written. *)
Definition finalize (b : ResponseEventBridge) : out * option History.TokenUsage :=
  let '(b, o) := fold_left emit_segment (Think.flush (think_parser b)).2
                   (set_think b (Think.flush (think_parser b)).1, []) in
  let cost := match last_usage b with
              | Some u => if is_empty (run_id b) then None else Some u
              | None => None
              end in
  (o ++ close_message b ++ omap finished_call (pending_calls b)
     ++ [Completed (default [] (response_id b)) (last_usage b)
           (end_turn_of <$> final_finish_reason b)], cost).

(** A whole stream through a bridge. *)
Fixpoint ingest_all (b : ResponseEventBridge) (cs : list ChatCompletionChunk)
  : option (ResponseEventBridge * out) :=
  match cs with
  | [] => Some (b, [])
  | c :: cs' =>
      match ingest b c with
      | None => None
      | Some (b1, o1) =>
          match ingest_all b1 cs' with
          | None => None
          | Some (b2, o2) => Some (b2, o1 ++ o2)
          end
      end
  end.

(** All events of a stream: those of the chunks and those of the end. *)
Definition stream_events (b : ResponseEventBridge) (cs : list ChatCompletionChunk) : option out :=
  match ingest_all b cs with
  | None => None
  | Some (b', o) => Some (o ++ (finalize b').1)
  end.

(** ** The protocol of a turn

    What the turn loop of the session expects: a message item is open before
    any delta of text or reasoning, it is closed once, with the text of its
    deltas, then come the calls, then the completion, which is last. *)
Inductive turn := Idle | Open (id text : rstring) | Closed | Over.

Definition turn_step (t : turn) (e : ResponseEvent) : option turn :=
  match t, e with
  | Idle, OutputItemAdded (Items.Message (Some id) role [] None) =>
      if role =?s $"assistant" then Some (Open id []) else None
  | Open id text, OutputTextDelta d => Some (Open id (text ++ d))
  | Open id text, ReasoningContentDelta _ _ => Some (Open id text)
  | Idle, ToolCallInputDelta _ _ _ => Some Idle
  | Open id text, ToolCallInputDelta _ _ _ => Some (Open id text)
  | Open id text, OutputItemDone (Items.Message (Some id') role [] None) =>
      if (id =?s id') && (role =?s $"assistant") && is_empty text then Some Closed else None
  | Open id text, OutputItemDone (Items.Message (Some id') role [Items.MsgOutputText c] None) =>
      if (id =?s id') && (role =?s $"assistant") && (text =?s c) && negb (is_empty text)
      then Some Closed else None
  | Idle, OutputItemDone (Items.FunctionCall _ _ _ _ _) => Some Closed
  | Closed, OutputItemDone (Items.FunctionCall _ _ _ _ _) => Some Closed
  | Idle, Completed _ _ _ => Some Over
  | Closed, Completed _ _ _ => Some Over
  | _, _ => None
  end.

Fixpoint turn_run (t : turn) (es : list ResponseEvent) : option turn :=
  match es with
  | [] => Some t
  | e :: es' => match turn_step t e with Some t' => turn_run t' es' | None => None end
  end.

(** The text of the deltas, and the visible text of segments. *)
Definition text_delta (e : ResponseEvent) : rstring :=
  match e with OutputTextDelta t => t | _ => [] end.
Definition visible_text (es : list ResponseEvent) : rstring := es ≫= text_delta.
Definition visible_seg (s : ParsedSegment) : rstring :=
  match s with Text t => t | Reasoning _ => [] end.
Definition visible (segs : list ParsedSegment) : rstring := segs ≫= visible_seg.

Definition merge_call (m : Calls) (tc : ToolCallChunk) : Calls :=
  update_entry (tc_index tc) (tool_call_change tc) m.

(** ** One step of the bridge, seen from outside *)
Definition turn_of (b : ResponseEventBridge) : turn :=
  if message_started b then Open (message_item_id b) (accumulated_text b) else Idle.
Definition fresh_ok (b : ResponseEventBridge) : Prop :=
  message_started b = false → accumulated_text b = [].

(** [b] becomes [b'] and emits [ev] for the segments [segs] of the text and the
    fragments [tcs] of tool calls. *)
Record moves (b b' : ResponseEventBridge) (segs : list ParsedSegment) (tcs : list ToolCallChunk)
    (ev : out) : Prop := {
  mv_turn : fresh_ok b → turn_run (turn_of b) ev = Some (turn_of b') ∧ fresh_ok b';
  mv_text : visible_text ev = visible segs;
  mv_calls : pending_calls b' = fold_left merge_call tcs (pending_calls b)
}.

Lemma turn_run_app t es es' :
  turn_run t (es ++ es') = match turn_run t es with Some t' => turn_run t' es' | None => None end.
Proof. revert t. induction es as [|e es IH]; intros t; cbn; [done|]. by destruct (turn_step t e). Qed.

Lemma visible_text_app a b : visible_text (a ++ b) = visible_text a ++ visible_text b.
Proof. apply bind_app. Qed.
Lemma visible_app a b : visible (a ++ b) = visible a ++ visible b.
Proof. apply bind_app. Qed.

Lemma moves_refl b : moves b b [] [] [].
Proof. by split. Qed.

Lemma moves_trans b1 b2 b3 s1 s2 t1 t2 e1 e2 :
  moves b1 b2 s1 t1 e1 → moves b2 b3 s2 t2 e2 → moves b1 b3 (s1 ++ s2) (t1 ++ t2) (e1 ++ e2).
Proof.
  intros [T1 V1 C1] [T2 V2 C2]. split.
  - intros H1. destruct (T1 H1) as [R1 H2]. destruct (T2 H2) as [R2 H3].
    by rewrite turn_run_app, R1.
  - by rewrite visible_text_app, visible_app, V1, V2.
  - by rewrite C2, C1, fold_left_app.
Qed.

(** A change of the fields that the turn does not depend on. *)
Lemma moves_quiet b b' :
  message_started b' = message_started b → message_item_id b' = message_item_id b →
  accumulated_text b' = accumulated_text b → pending_calls b' = pending_calls b →
  moves b b' [] [] [].
Proof.
  intros H1 H2 H3 H4. split; [|done..]. unfold fresh_ok, turn_of. cbn. by rewrite H1, H2, H3.
Qed.

Lemma ensure_moves b o :
  ∃ ev, (ensure_message_started b o).2 = o ++ ev ∧
        moves b (ensure_message_started b o).1 [] [] ev ∧
        message_started (ensure_message_started b o).1 = true.
Proof.
  unfold ensure_message_started. destruct (message_started b) eqn:E.
  - exists []. rewrite app_nil_r. split; [done|]. split; [apply moves_refl|done].
  - eexists. split; [reflexivity|]. split; [|done]. split; [|done|done].
    intros Hf. specialize (Hf E). unfold turn_of, fresh_ok. rewrite E. cbn. by rewrite Hf.
Qed.

Lemma emit_text_moves b o t :
  ∃ ev, (emit_text b o t).2 = o ++ ev ∧ moves b (emit_text b o t).1 [Text t] [] ev.
Proof.
  unfold emit_text. destruct (ensure_moves b o) as (ev & He & Hm & Hs).
  destruct (ensure_message_started b o) as [b1 o1]. cbn in He, Hm, Hs |- *. subst o1.
  exists (ev ++ [OutputTextDelta t]). split; [by rewrite app_assoc|].
  apply (moves_trans _ _ _ [] [Text t] [] [] _ _ Hm). split; [|done|done].
  intros _. unfold turn_of, fresh_ok. cbn. rewrite Hs. by split.
Qed.

Lemma emit_reasoning_moves b o t segs :
  visible segs = [] →
  ∃ ev, (emit_reasoning b o t).2 = o ++ ev ∧ moves b (emit_reasoning b o t).1 segs [] ev.
Proof.
  intros Hv. unfold emit_reasoning. destruct (ensure_moves b o) as (ev & He & Hm & Hs).
  destruct (ensure_message_started b o) as [b1 o1]. cbn in He, Hm, Hs |- *. subst o1.
  eexists (ev ++ [_]). split; [by rewrite app_assoc|].
  apply (moves_trans _ _ _ [] segs [] [] _ _ Hm). split; [|by rewrite Hv|done].
  unfold turn_of, fresh_ok. cbn. rewrite Hs. by split.
Qed.

Lemma emit_segment_moves b o seg :
  ∃ ev, (emit_segment (b, o) seg).2 = o ++ ev ∧ moves b (emit_segment (b, o) seg).1 [seg] [] ev.
Proof.
  destruct seg as [t|t]; cbn [emit_segment].
  - destruct t; cbn [is_empty]; [|apply emit_text_moves].
    exists []. rewrite app_nil_r. split; [done|]. by split.
  - destruct t; cbn [is_empty]; [|by apply emit_reasoning_moves].
    exists []. rewrite app_nil_r. split; [done|]. by split.
Qed.

Lemma emit_segments_moves segs b o :
  ∃ b' ev, fold_left emit_segment segs (b, o) = (b', o ++ ev) ∧ moves b b' segs [] ev.
Proof.
  revert b o. induction segs as [|s segs IH]; intros b o; cbn [fold_left].
  { exists b, []. rewrite app_nil_r. split; [done|apply moves_refl]. }
  destruct (emit_segment_moves b o s) as (e1 & H1 & M1).
  destruct (emit_segment (b, o) s) as [b1 o1]. cbn in H1, M1. subst o1.
  destruct (IH b1 (o ++ e1)) as (b2 & e2 & -> & M2).
  exists b2, (e1 ++ e2). rewrite app_assoc. split; [done|]. apply (moves_trans _ _ _ _ _ _ _ _ _ M1 M2).
Qed.

Lemma ingest_tool_calls_moves tcs b o :
  ∃ b' ev, fold_left ingest_tool_call tcs (b, o) = (b', o ++ ev) ∧ moves b b' [] tcs ev ∧
           think_parser b' = think_parser b.
Proof.
  revert b o. induction tcs as [|tc tcs IH]; intros b o; cbn [fold_left].
  { exists b, []. rewrite app_nil_r. split_and!; [done|apply moves_refl|done]. }
  cbn [ingest_tool_call].
  set (b1 := set_calls b _). set (e1 := tool_call_events _ _).
  destruct (IH b1 (o ++ e1)) as (b2 & e2 & -> & M2 & Ht).
  exists b2, (e1 ++ e2). rewrite app_assoc. split_and!; [done| |by rewrite Ht].
  refine (moves_trans b b1 b2 [] [] [tc] tcs e1 e2 _ M2). split; [| |done].
  - intros Hf. unfold e1, tool_call_events, turn_of. subst b1. cbn [set_calls message_started
      message_item_id accumulated_text].
    destruct (function tc) as [f|]; [|by destruct (message_started b)].
    destruct (fn_arguments f) as [[]|]; by destruct (message_started b).
  - unfold e1, tool_call_events. destruct (function tc) as [f|]; [|done].
    by destruct (fn_arguments f) as [[]|].
Qed.

(** The texts and the fragments of tool calls of a stream, in order. *)
Definition chunk_contents (cs : list ChunkChoice) : list rstring :=
  omap (λ c, match content (delta c) with Some [] => None | o => o end) cs.
Definition stream_contents (cs : list ChatCompletionChunk) : list rstring :=
  cs ≫= λ c, chunk_contents (choices c).
Definition stream_calls (cs : list ChatCompletionChunk) : list ToolCallChunk :=
  cs ≫= λ c, choices c ≫= λ x, tool_calls (delta x).

(** A step that also advances the parser by the texts [texts]. *)
Definition advances (b b' : ResponseEventBridge) (texts : list rstring) (tcs : list ToolCallChunk)
    (ev : out) : Prop :=
  ∃ segs, Think.push_all (think_parser b) texts = Some (think_parser b', segs) ∧
          moves b b' segs tcs ev.

Lemma think_push_all_app p t1 t2 p1 p2 s1 s2 :
  Think.push_all p t1 = Some (p1, s1) → Think.push_all p1 t2 = Some (p2, s2) →
  Think.push_all p (t1 ++ t2) = Some (p2, s1 ++ s2).
Proof.
  revert p p1 s1. induction t1 as [|t t1 IH]; intros p p1 s1; cbn [app Think.push_all].
  { by intros [= <- <-] ->. }
  destruct (Think.push p t) as [[q o1]|]; [|done].
  destruct (Think.push_all q t1) as [[q' o2]|] eqn:E; [|done]. intros [= <- <-] H2.
  by rewrite (IH _ _ _ E H2), app_assoc.
Qed.

Lemma advances_trans b1 b2 b3 x1 x2 t1 t2 e1 e2 :
  advances b1 b2 x1 t1 e1 → advances b2 b3 x2 t2 e2 →
  advances b1 b3 (x1 ++ x2) (t1 ++ t2) (e1 ++ e2).
Proof.
  intros (s1 & P1 & M1) (s2 & P2 & M2). exists (s1 ++ s2).
  split; [by eapply think_push_all_app|by eapply moves_trans].
Qed.

Lemma advances_quiet b b' ev tcs :
  think_parser b' = think_parser b → moves b b' [] tcs ev → advances b b' [] tcs ev.
Proof. intros H M. exists []. cbn. by rewrite H. Qed.

Lemma emit_think b o seg : think_parser (emit_segment (b, o) seg).1 = think_parser b.
Proof.
  destruct seg as [[]|[]]; cbn; unfold emit_text, emit_reasoning, ensure_message_started;
    by destruct (message_started b).
Qed.

Lemma emits_think segs b o : think_parser (fold_left emit_segment segs (b, o)).1 = think_parser b.
Proof.
  revert b o. induction segs as [|s segs IH]; intros b o; cbn [fold_left]; [done|].
  pose proof (emit_think b o s). destruct (emit_segment (b, o) s). by rewrite IH.
Qed.

Lemma ingest_reasoning_advances c b o :
  ∃ b' ev, ingest_reasoning c b o = (b', o ++ ev) ∧ advances b b' [] [] ev.
Proof.
  unfold ingest_reasoning.
  assert (Hn : ∃ b' ev, (b, o) = (b', o ++ ev) ∧ advances b b' [] [] ev).
  { exists b, []. rewrite app_nil_r. split; [done|]. apply advances_quiet, moves_refl. done. }
  destruct (reasoning_content c) as [[|r rs]|]; [exact Hn| |exact Hn]. cbn [is_empty].
  destruct (emit_reasoning_moves b o (r :: rs) [] eq_refl) as (ev & H & M).
  pose proof (emit_think b o (Reasoning (r :: rs))) as Ht. cbn [emit_segment is_empty] in Ht.
  destruct (emit_reasoning b o (r :: rs)) as [b1 o1]. cbn in H, M, Ht. subst o1.
  exists b1, ev. split; [done|]. by apply advances_quiet.
Qed.

Lemma ingest_content_advances c b o :
  ∃ b' ev, ingest_content c b o = Some (b', o ++ ev) ∧
    advances b b' (match content c with Some [] => [] | Some t => [t] | None => [] end) [] ev.
Proof.
  unfold ingest_content.
  assert (Hn : ∃ b' ev, Some (b, o) = Some (b', o ++ ev) ∧ advances b b' [] [] ev).
  { exists b, []. rewrite app_nil_r. split; [done|]. apply advances_quiet, moves_refl. done. }
  destruct (content c) as [[|x xs]|]; [exact Hn| |exact Hn]. cbn [is_empty].
  destruct (Think.push_all_spec (think_parser b) [x :: xs]) as (p & segs & Hp & _).
  cbn [Think.push_all] in Hp.
  destruct (Think.push (think_parser b) (x :: xs)) as [[p1 s1]|] eqn:E; [|done].
  destruct (emit_segments_moves s1 (set_think b p1) o) as (b' & ev & Hb & M).
  pose proof (emits_think s1 (set_think b p1) o) as Ht. rewrite Hb in Ht |- *. cbn in Ht.
  exists b', ev. split; [done|]. exists s1. cbn [Think.push_all]. rewrite E, app_nil_r, Ht.
  split; [done|]. apply (moves_trans b (set_think b p1) b' [] s1 [] [] [] ev); [|done].
  by apply moves_quiet.
Qed.

Lemma ingest_choice_advances c b o :
  ∃ b' ev, ingest_choice b o c = Some (b', o ++ ev) ∧
           advances b b' (chunk_contents [c]) (tool_calls (delta c)) ev.
Proof.
  unfold ingest_choice. set (b0 := match finish_reason c with Some r => _ | None => b end).
  assert (H0 : advances b b0 [] [] []).
  { apply advances_quiet; [by subst b0; destruct (finish_reason c)|].
    apply moves_quiet; by subst b0; destruct (finish_reason c). }
  destruct (ingest_reasoning_advances (delta c) b0 o) as (b1 & e1 & -> & A1).
  destruct (ingest_content_advances (delta c) b1 (o ++ e1)) as (b2 & e2 & -> & A2).
  destruct (ingest_tool_calls_moves (tool_calls (delta c)) b2 ((o ++ e1) ++ e2))
    as (b3 & e3 & -> & M3 & T3).
  exists b3, (e1 ++ e2 ++ e3). split; [by rewrite !app_assoc|].
  pose proof (advances_trans _ _ _ _ _ _ _ _ _ (advances_trans _ _ _ _ _ _ _ _ _
    (advances_trans _ _ _ _ _ _ _ _ _ H0 A1) A2) (advances_quiet b2 b3 e3 _ T3 M3)) as A.
  rewrite !app_nil_r, <-!app_assoc in A. cbn [app] in A.
  unfold chunk_contents. cbn. destruct (content (delta c)) as [[]|]; exact A.
Qed.

Lemma ingest_choices_advances cs b o :
  ∃ b' ev, ingest_choices b o cs = Some (b', o ++ ev) ∧
           advances b b' (chunk_contents cs) (cs ≫= λ x, tool_calls (delta x)) ev.
Proof.
  revert b o. induction cs as [|c cs IH]; intros b o; cbn [ingest_choices].
  { exists b, []. rewrite app_nil_r. split; [done|]. apply advances_quiet, moves_refl. done. }
  destruct (ingest_choice_advances c b o) as (b1 & e1 & -> & A1).
  destruct (IH b1 (o ++ e1)) as (b2 & e2 & -> & A2).
  exists b2, (e1 ++ e2). rewrite app_assoc. split; [done|].
  pose proof (advances_trans _ _ _ _ _ _ _ _ _ A1 A2) as A.
  replace (chunk_contents (c :: cs)) with (chunk_contents [c] ++ chunk_contents cs); [exact A|].
  unfold chunk_contents. cbn. by destruct (content (delta c)) as [[]|].
Qed.

Lemma ingest_all_advances cs b :
  ∃ b' ev, ingest_all b cs = Some (b', ev) ∧
           advances b b' (stream_contents cs) (stream_calls cs) ev.
Proof.
  revert b. induction cs as [|c cs IH]; intros b; cbn [ingest_all].
  { exists b, []. split; [done|]. apply advances_quiet, moves_refl. done. }
  unfold ingest. set (b0 := match usage c with Some u => _ | None => _ end).
  assert (H0 : advances b b0 [] [] []).
  { apply advances_quiet; [|apply moves_quiet]; subst b0; destruct (usage c), (response_id b); cbn;
      try done; by destruct (chunk_id c). }
  destruct (ingest_choices_advances (choices c) b0 []) as (b1 & e1 & -> & A1).
  destruct (IH b1) as (b2 & e2 & -> & A2). exists b2, (e1 ++ e2). split; [done|].
  exact (advances_trans _ _ _ _ _ _ _ _ _ (advances_trans _ _ _ _ _ _ _ _ _ H0 A1) A2).
Qed.

(** ** The end of the stream *)
Lemma finalize_moves b :
  ∃ b' ev, fold_left emit_segment (Think.flush (think_parser b)).2
             (set_think b (Think.flush (think_parser b)).1, []) = (b', ev) ∧
           moves b b' (Think.flush (think_parser b)).2 [] ev.
Proof.
  destruct (emit_segments_moves (Think.flush (think_parser b)).2
    (set_think b (Think.flush (think_parser b)).1) []) as (b' & ev & -> & M).
  exists b', ev. split; [done|].
  refine (moves_trans b _ b' [] _ [] [] [] ev _ M). by apply moves_quiet.
Qed.

Lemma turn_run_calls t (calls : Calls) :
  t = Idle ∨ t = Closed →
  ∃ t', turn_run t (omap finished_call calls) = Some t' ∧ (t' = Idle ∨ t' = Closed).
Proof.
  revert t. induction calls as [|[k c] calls IH]; intros t Ht; cbn; [eauto|].
  unfold finished_call at 1. cbn. destruct (is_empty (call_id c) && is_empty (name c)); [by apply IH|].
  cbn. destruct Ht as [->| ->]; cbn; apply IH; by right.
Qed.

Lemma turn_run_close b :
  ∃ t, turn_run (turn_of b) (close_message b) = Some t ∧ (t = Idle ∨ t = Closed).
Proof.
  unfold close_message, turn_of. destruct (message_started b); cbn; [|eauto].
  exists Closed. split; [|by right]. destruct (accumulated_text b) as [|c cs]; cbn;
    by rewrite !str_eqb_refl.
Qed.

Lemma bridge_turn run mdl cs :
  ∃ es, stream_events (with_telemetry run mdl) cs = Some es ∧ turn_run Idle es = Some Over.
Proof.
  unfold stream_events. destruct (ingest_all_advances cs (with_telemetry run mdl))
    as (b & e1 & -> & segs & _ & [M _ _]).
  destruct (M ltac:(done)) as [R1 F1]. eexists. split; [reflexivity|].
  unfold finalize. destruct (finalize_moves b) as (b' & e2 & -> & [M2 _ _]).
  destruct (M2 F1) as [R2 _]. cbn [fst].
  destruct (turn_run_close b') as (t1 & R3 & H3).
  destruct (turn_run_calls t1 (pending_calls b') H3) as (t2 & R4 & H4).
  change (turn_of (with_telemetry run mdl)) with Idle in R1.
  rewrite turn_run_app, R1, turn_run_app, R2, turn_run_app, R3, turn_run_app, R4.
  by destruct H4 as [->| ->].
Qed.

(** The visible part of the text of a stream. *)
Definition visible_chars (l : list (bool * char)) : rstring :=
  l ≫= λ bc, if bc.1 : bool then [] else [bc.2].

Lemma visible_chars_app a b : visible_chars (a ++ b) = visible_chars a ++ visible_chars b.
Proof. apply bind_app. Qed.

Lemma visible_tagged inside s :
  visible_chars (Think.tagged inside s) = if inside then [] else s.
Proof.
  unfold visible_chars, Think.tagged. induction s as [|c s IH]; [by destruct inside|].
  cbn in IH |- *. rewrite IH. by destruct inside.
Qed.

Lemma visible_segments segs : visible segs = visible_chars (Think.chars_of segs).
Proof.
  induction segs as [|s segs IH]; [done|].
  change (s :: segs) with ([s] ++ segs). rewrite visible_app, Think.chars_of_app, visible_chars_app, IH.
  f_equal. destruct s; cbn [visible Think.chars_of mbind list_bind]; rewrite !app_nil_r; cbn;
    by rewrite visible_tagged.
Qed.

Lemma visible_finish es (calls : Calls) : 
  visible_text (es ++ omap finished_call calls) = visible_text es.
Proof.
  rewrite visible_text_app. induction calls as [|[k c] calls IH]; cbn; [by rewrite app_nil_r|].
  unfold finished_call at 1. by destruct (_ && _).
Qed.

Lemma visible_close b : visible_text (close_message b) = [].
Proof. unfold close_message. by destruct (message_started b). Qed.

Lemma bridge_text run mdl cs es :
  stream_events (with_telemetry run mdl) cs = Some es →
  visible_text es = visible_chars (Think.channels false (concat (stream_contents cs))).
Proof.
  unfold stream_events. destruct (ingest_all_advances cs (with_telemetry run mdl))
    as (b & e1 & -> & segs & Hp & [_ V1 _]).
  intros [= <-]. unfold finalize. destruct (finalize_moves b) as (b' & e2 & -> & [_ V2 _]).
  cbn [fst]. rewrite app_assoc, visible_text_app, visible_text_app, V1, V2, <-visible_app.
  cbn [think_parser with_telemetry] in Hp.
  destruct (Think.push_all_flush (stream_contents cs)) as (p & segs' & Hp' & Hc).
  rewrite Hp in Hp'. injection Hp' as -> ->.
  rewrite visible_segments, Hc, app_assoc, visible_text_app, visible_finish, visible_close.
  cbn. by rewrite app_nil_r.
Qed.

(** C25: Whatever chunks the model sends, translating its stream does not panic and
    gives the events of a turn: a message is opened before its first delta and
    closed once, with exactly the text of its deltas, calls follow, and the
    completion comes once, at the end; and the text of the deltas is the visible
    part of the whole text the model sent, with the reasoning between the tags taken
    out, however the text was cut into chunks. *)
Theorem bridge_keeps_protocol run mdl cs :
  ∃ es, stream_events (with_telemetry run mdl) cs = Some es ∧ turn_run Idle es = Some Over ∧
    visible_text es = visible_chars (Think.channels false (concat (stream_contents cs))).
Proof.
  destruct (bridge_turn run mdl cs) as (es & Hes & Hrun). exists es. split_and!; [done..|by eapply bridge_text].
Qed.

(** ** The usage that is reported: the last one sent *)
Lemma emit_usage b o seg : last_usage (emit_segment (b, o) seg).1 = last_usage b.
Proof.
  destruct seg as [[]|[]]; cbn; unfold emit_text, emit_reasoning, ensure_message_started;
    by destruct (message_started b).
Qed.

Lemma emits_usage segs b o : last_usage (fold_left emit_segment segs (b, o)).1 = last_usage b.
Proof.
  revert b o. induction segs as [|s segs IH]; intros b o; cbn [fold_left]; [done|].
  pose proof (emit_usage b o s). destruct (emit_segment (b, o) s). by rewrite IH.
Qed.

Lemma tool_calls_usage tcs b o : last_usage (fold_left ingest_tool_call tcs (b, o)).1 = last_usage b.
Proof. revert b o. induction tcs as [|tc tcs IH]; intros b o; cbn; [done|]. by rewrite IH. Qed.

Lemma ingest_choice_usage c b o b' o' :
  ingest_choice b o c = Some (b', o') → last_usage b' = last_usage b.
Proof.
  unfold ingest_choice. set (b0 := match finish_reason c with Some r => _ | None => b end).
  assert (H0 : last_usage b0 = last_usage b) by (by subst b0; destruct (finish_reason c)).
  assert (H1 : last_usage (ingest_reasoning (delta c) b0 o).1 = last_usage b).
  { unfold ingest_reasoning. destruct (reasoning_content (delta c)) as [[|x r]|]; try done.
    rewrite <-H0. exact (emit_usage b0 o (Reasoning (x :: r))). }
  destruct (ingest_reasoning (delta c) b0 o) as [b1 o1]. cbn in H1.
  destruct (ingest_content (delta c) b1 o1) as [[b2 o2]|] eqn:E; [|done]. intros [= Hf].
  assert (H2 : last_usage b2 = last_usage b1).
  { unfold ingest_content in E. destruct (content (delta c)) as [[|x t]|]; cbn [is_empty] in E; simplify_eq; try done.
    destruct (Think.push (think_parser b1) (x :: t)) as [[p segs]|]; [|done]. injection E as E.
    pose proof (emits_usage segs (set_think b1 p) o1) as Hu. by rewrite E in Hu. }
  pose proof (tool_calls_usage (tool_calls (delta c)) b2 o2) as H3. rewrite Hf in H3. cbn in H3.
  congruence.
Qed.

Lemma ingest_choices_usage cs b o b' o' :
  ingest_choices b o cs = Some (b', o') → last_usage b' = last_usage b.
Proof.
  revert b o. induction cs as [|c cs IH]; intros b o; cbn; [by intros [= <- <-]|].
  destruct (ingest_choice b o c) as [[b1 o1]|] eqn:E; [|done]. intros H.
  by rewrite (IH _ _ H), (ingest_choice_usage _ _ _ _ _ E).
Qed.

Lemma ingest_all_usage cs b b' ev :
  ingest_all b cs = Some (b', ev) →
  last_usage b' = match last (omap usage cs) with Some u => Some (map_usage u) | None => last_usage b end.
Proof.
  revert b ev. induction cs as [|c cs IH]; intros b ev; cbn [ingest_all]; [by intros [= <- <-]|].
  unfold ingest. destruct (ingest_choices _ _ _) as [[b1 e1]|] eqn:E1; [|done].
  destruct (ingest_all b1 cs) as [[b2 e2]|] eqn:E2; [|done]. intros [= <- <-].
  apply ingest_choices_usage in E1. rewrite (IH _ _ E2), E1. cbn [omap list_omap].
  destruct (usage c) as [u|]; cbn.
  - destruct (omap usage cs) as [|v l] eqn:Eo; [done|]. rewrite last_cons_cons.
    destruct (last (v :: l)) eqn:El; [done|]. by apply last_None in El.
  - destruct (response_id b); [done|]. by destruct (chunk_id c).
Qed.

(** ** Tool calls *)
Definition args_of (tc : ToolCallChunk) : option rstring := function tc ≫= fn_arguments.
Definition name_of (tc : ToolCallChunk) : option rstring := function tc ≫= fn_name.

(** The call that the fragments of one index describe: the last id and the last
    name that were sent, and all arguments in order. *)
Definition assembled (frs : list ToolCallChunk) : PartialCall :=
  {| call_id := default [] (last (omap tc_id frs));
     name := default [] (last (omap name_of frs));
     arguments := concat (omap args_of frs) |}.
Definition fragments (k : Z) (tcs : list ToolCallChunk) : list ToolCallChunk :=
  filter (λ tc, tc_index tc = k) tcs.

(** The items of the calls among events. *)
Definition is_call_item (e : ResponseEvent) : bool :=
  match e with OutputItemDone (Items.FunctionCall _ _ _ _ _) => true | _ => false end.

Fixpoint find_call (k : Z) (m : Calls) : option PartialCall :=
  match m with
  | [] => None
  | (k', c) :: m' => if (k =? k')%Z then Some c else find_call k m'
  end.

Definition sorted_calls (m : Calls) : Prop := StronglySorted Z.lt m.*1.

Lemma update_entry_keys k f m x : x ∈ (update_entry k f m).*1 ↔ x = k ∨ x ∈ m.*1.
Proof.
  induction m as [|[k' c] m IH]; cbn; [set_solver|].
  destruct (k =? k')%Z eqn:E1; cbn; [apply Z.eqb_eq in E1; set_solver|].
  destruct (k <? k')%Z; cbn; set_solver.
Qed.

Lemma update_entry_sorted k f m : sorted_calls m → sorted_calls (update_entry k f m).
Proof.
  unfold sorted_calls. induction m as [|[k' c] m IH]; cbn; intros Hs; [repeat constructor|].
  inversion_clear Hs as [|? ? Hs' Hall]. rewrite Forall_forall in Hall.
  destruct (k =? k')%Z eqn:E1; cbn; [constructor; [done|by apply Forall_forall]|].
  destruct (k <? k')%Z eqn:E2; cbn.
  - constructor; [constructor; [done|by apply Forall_forall]|]. apply Forall_forall.
    intros x [->|Hx]%elem_of_cons; [lia|]. specialize (Hall _ Hx). lia.
  - constructor; [by apply IH|]. apply Forall_forall. intros x [->|Hx]%update_entry_keys; [lia|auto].
Qed.

Lemma find_call_small k m : Forall (λ x, (k < x)%Z) m.*1 → find_call k m = None.
Proof.
  induction m as [|[k' c] m IH]; cbn; [done|]. intros [H1 H2]%Forall_cons.
  destruct (k =? k')%Z eqn:E; [lia|by apply IH].
Qed.

Lemma find_update k f m k' :
  sorted_calls m →
  find_call k' (update_entry k f m) =
  if (k' =? k)%Z then Some (f (default PartialCall_default (find_call k m))) else find_call k' m.
Proof.
  unfold sorted_calls. induction m as [|[k1 c] m IH]; cbn; intros Hs; [by destruct (k' =? k)%Z|].
  inversion_clear Hs as [|? ? Hs' Hall].
  destruct (k =? k1)%Z eqn:E1; cbn.
  { apply Z.eqb_eq in E1 as ->. by destruct (k' =? k1)%Z. }
  destruct (k <? k1)%Z eqn:E2; cbn.
  - destruct (k' =? k)%Z; [|done]. rewrite find_call_small; [done|].
    eapply Forall_impl; [exact Hall|]. cbn. lia.
  - rewrite IH by done. destruct (k' =? k1)%Z eqn:E3, (k' =? k)%Z eqn:E4; try done. lia.
Qed.

Lemma assembled_snoc frs tc : tool_call_change tc (assembled frs) = assembled (frs ++ [tc]).
Proof.
  unfold assembled. rewrite !omap_app, concat_app. unfold tool_call_change, name_of, args_of.
  destruct tc as [i id ki fn]. cbn.
  destruct id as [id|], fn as [[[n|] [a|]]|]; cbn; rewrite ?app_nil_r, ?last_snoc; done.
Qed.

Lemma merge_calls_spec tcs :
  let m := fold_left merge_call tcs [] in
  sorted_calls m ∧
  ∀ k, find_call k m = match fragments k tcs with [] => None | frs => Some (assembled frs) end.
Proof.
  cbn. induction tcs as [|tc tcs [IHs IH]] using rev_ind; [split; [constructor|done]|].
  rewrite fold_left_app. cbn [fold_left]. unfold merge_call at 1 3.
  split; [by apply update_entry_sorted|]. intros k. rewrite find_update by done.
  unfold fragments. rewrite filter_app. destruct (k =? tc_index tc)%Z eqn:E.
  - apply Z.eqb_eq in E. subst k. rewrite IH.
    replace (filter (λ x, tc_index x = tc_index tc) [tc]) with [tc] by (by rewrite filter_cons_True).
    fold (fragments (tc_index tc) tcs).
    destruct (fragments (tc_index tc) tcs) as [|f frs]; cbn [default from_option app]; f_equal.
    + exact (assembled_snoc [] tc).
    + exact (assembled_snoc (f :: frs) tc).
  - apply Z.eqb_neq in E. rewrite filter_cons_False by congruence. rewrite filter_nil, app_nil_r. apply IH.
Qed.

Lemma omap_calls_only (m : Calls) : filter (λ e, is_call_item e = true) (omap finished_call m) = omap finished_call m.
Proof.
  induction m as [|[k c] m IH]; [done|]. cbn [omap list_omap].
  destruct (finished_call (k, c)) as [e|] eqn:E; [|done]. rewrite filter_cons_True.
  - by rewrite IH.
  - unfold finished_call in E. destruct (_ && _); [done|]. by injection E as <-.
Qed.

(** A turn past its message stays there, and a call item puts it there. *)
Definition late (t : turn) : bool := match t with Closed | Over => true | _ => false end.

Lemma late_step t e t' : turn_step t e = Some t' → late t || is_call_item e = true → late t' = true.
Proof.
  destruct t, e; cbn; try done; try (by intros [= <-]);
    match goal with item : Items.ResponseItem Value |- _ => destruct item end; cbn; try done;
    by intros [= <-].
Qed.

Lemma late_run t es t' : turn_run t es = Some t' → late t = true → late t' = true.
Proof.
  revert t. induction es as [|e es IH]; cbn; intros t H Ht; [by simplify_eq|].
  destruct (turn_step t e) as [t1|] eqn:E; [|done]. apply (IH t1 H), (late_step _ _ _ E). by rewrite Ht.
Qed.

Lemma early_no_calls t es t' :
  turn_run t es = Some t' → late t' = false → filter (λ e, is_call_item e = true) es = [].
Proof.
  revert t. induction es as [|e es IH]; cbn [turn_run]; intros t H Ht; [done|].
  destruct (turn_step t e) as [t1|] eqn:E; [|done]. rewrite filter_cons_False; [by eapply IH|].
  intros Hc. assert (H1 : late t1 = true) by (apply (late_step _ _ _ E); by rewrite Hc, orb_true_r).
  by rewrite (late_run _ _ _ H H1) in Ht.
Qed.

Lemma moves_no_calls b b' segs tcs ev :
  moves b b' segs tcs ev → fresh_ok b → filter (λ e, is_call_item e = true) ev = [].
Proof.
  intros [M _ _] Hf. destruct (M Hf) as [R _]. apply (early_no_calls _ _ _ R).
  unfold turn_of. by destruct (message_started b').
Qed.

(** The calls of a stream are reported once each, in the order of their
    index, with the last id and name sent for the index and the concatenation
    of its argument fragments, however the fragments of several calls were
    interleaved. *)
Theorem bridge_calls_assembled run mdl cs es :
  stream_events (with_telemetry run mdl) cs = Some es →
  ∃ calls : Calls,
    filter (λ e, is_call_item e = true) es = omap finished_call calls ∧
    StronglySorted Z.lt calls.*1 ∧
    ∀ k, find_call k calls =
         match fragments k (stream_calls cs) with [] => None | frs => Some (assembled frs) end.
Proof.
  unfold stream_events. destruct (ingest_all_advances cs (with_telemetry run mdl))
    as (b & e1 & -> & segs & _ & M1).
  intros [= <-]. pose proof (moves_no_calls _ _ _ _ _ M1 ltac:(done)) as N1.
  destruct M1 as [T1 _ C1]. destruct (T1 ltac:(done)) as [_ F1].
  unfold finalize. destruct (finalize_moves b) as (b' & e2 & -> & M2).
  pose proof (moves_no_calls _ _ _ _ _ M2 F1) as N2. destruct M2 as [_ _ C2]. cbn in C1, C2.
  exists (pending_calls b'). rewrite C2, C1. split; [|apply merge_calls_spec].
  cbn [fst]. rewrite !filter_app, N1, N2, omap_calls_only. unfold close_message.
  destruct (message_started b'); cbn; by rewrite app_nil_r.
Qed.
End Ingest.
End Bridge.
Arguments ResponseEvent Value : clear implicits.

(** ** Examples: a stream with a split tag and two interleaved calls *)
Definition demo_call (i : Z) (id n a : option rstring) : ToolCallChunk :=
  {| tc_index := i; tc_id := id; tc_kind := None;
     function := Some {| fn_name := n; fn_arguments := a |} |}.
Definition demo_chunk (t : rstring) (tcs : list ToolCallChunk) : ChatCompletionChunk :=
  {| chunk_id := $"r"; chunk_model := []; object := []; created := 0%Z;
     choices := [ {| choice_index := 0%Z; finish_reason := None;
                     delta := {| delta_role := None; content := Some t; reasoning_content := None;
                                 tool_calls := tcs |} |} ];
     usage := None |}.
Definition demo_stream : list ChatCompletionChunk :=
  [ demo_chunk $"a<thi" [demo_call 1 (Some $"c1") (Some $"g") (Some $"{")];
    demo_chunk $"nk>b</think>c" [demo_call 0 (Some $"c0") (Some $"f") (Some $"{}");
                                 demo_call 1 None None (Some $"}")] ].

Lemma bridge_text_demo :
  ∃ es : list (ResponseEvent unit),
    stream_events $"id" (with_telemetry [] []) demo_stream = Some es ∧ visible_text es = $"ac".
Proof.
  eexists. split; [vm_compute; reflexivity|].
  etransitivity; [eapply (bridge_text (Value := unit) $"id" [] [] demo_stream);
                  vm_compute; reflexivity|]. vm_compute. reflexivity.
Defined.

Lemma bridge_calls_assembled_witness :
  ∃ (es : list (ResponseEvent unit)) calls,
    stream_events $"id" (with_telemetry [] []) demo_stream = Some es ∧
    filter (λ e, is_call_item e = true) es = omap finished_call calls ∧
    find_call 1 calls = Some {| call_id := $"c1"; name := $"g"; arguments := $"{}" |}.
Proof.
  eexists. edestruct (bridge_calls_assembled (Value := unit) $"id" [] [] demo_stream)
    as (calls & Hc & _ & Hf); [vm_compute; reflexivity|].
  exists calls. split; [vm_compute; reflexivity|]. split; [exact Hc|].
  rewrite Hf. vm_compute. reflexivity.
Defined.

End Bridge.
