(* ===== verification/Delegation.v ===== *)
(** * Delegation: the data of the orchestrator

    Models codex-rs/orchestrator/src: spec.rs (the contract of a delegated
    turn and its validation), decision.rs (the verdict of the auditor and the
    signature of a failure), context.rs (the state of a run), traits.rs (the
    interfaces of the pipeline) and the errors of error.rs that validation
    returns.

    The regex crate is the class [RegexCrate], with the laws the code relies on
    in [RegexLaws]; SHA-256 is a parameter.  JSON values are [Json]; the order of
    the keys of an object plays no role in the code and none in the model. *)

From stdpp Require Import lexico sorting.
From S2P Require Import Prelude.

(** ** serde_json::Value, as far as the crate builds and reads it *)
Module Json.

Inductive Json :=
| JNull
| JBool (b : bool)
| JNum (n : Z)
| JStr (s : rstring)
| JArr (l : list Json)
| JObj (fields : list (rstring * Json)).

Fixpoint field (k : rstring) (fields : list (rstring * Json)) : option Json :=
  match fields with
  | [] => None
  | (k', v) :: rest => if k =?s k' then Some v else field k rest
  end.

(** [Value::get]: [None] on anything but an object. *)
Definition get (k : rstring) (v : Json) : option Json :=
  match v with JObj fields => field k fields | _ => None end.

Definition as_str (v : Json) : option rstring :=
  match v with JStr s => Some s | _ => None end.

Definition as_array (v : Json) : option (list Json) :=
  match v with JArr l => Some l | _ => None end.

(** [Value::as_i64]: integers outside the range of i64 give [None]. *)
Definition as_i64 (v : Json) : option Z :=
  match v with
  | JNum n => if ((- 2 ^ 63 <=? n) && (n <? 2 ^ 63))%Z then Some n else None
  | _ => None
  end.

(** [Map::insert] on the object inside a value; other values are left. *)
Fixpoint set_field (k : rstring) (v : Json) (fields : list (rstring * Json)) : list (rstring * Json) :=
  match fields with
  | [] => [(k, v)]
  | (k', v') :: rest =>
      if k =?s k' then (k', v) :: rest else (k', v') :: set_field k v rest
  end.
Definition insert (k : rstring) (v : Json) (j : Json) : Json :=
  match j with JObj fields => JObj (set_field k v fields) | _ => j end.

(** An [Option] as serde_json writes it. *)
Definition of_option {A} (f : A → Json) (o : option A) : Json :=
  match o with Some a => f a | None => JNull end.

End Json.
Export Json (Json, JNull, JBool, JNum, JStr, JArr, JObj).

(** Decimal rendering of a signed integer. *)
Definition show_Z (z : Z) : rstring :=
  if (z <? 0)%Z then $"-" ++ show_nat (Z.to_nat (- z)) else show_nat (Z.to_nat z).

(** [str::replace] of single chars: each char becomes a string. *)
Definition replace_chars (from : list char) (to : rstring) (s : rstring) : rstring :=
  concat ((λ c, if existsb (Z.eqb c) from then to else [c]) <$> s).

(** The UTF-8 bytes of a string ([str::as_bytes]). *)
Definition char_bytes (c : char) : list Z :=
  if (c <? 128)%Z then [c]
  else if (c <? 2048)%Z then [192 + c / 64; 128 + c mod 64]%Z
  else if (c <? 65536)%Z then [224 + c / 4096; 128 + (c / 64) mod 64; 128 + c mod 64]%Z
  else [240 + c / 262144; 128 + (c / 4096) mod 64; 128 + (c / 64) mod 64; 128 + c mod 64]%Z.
Definition as_bytes (s : rstring) : list Z := concat (char_bytes <$> s).

(** [format!("{byte:02x}")]. *)
Definition hex_digit (n : Z) : char := if (n <? 10)%Z then (48 + n)%Z else (87 + n)%Z.
Definition hex_byte (b : Z) : rstring := [hex_digit (b / 16); hex_digit (b mod 16)].

(** [str] cut at a byte offset; [None] inside a char or past the end. *)
Fixpoint split_at_byte (n : nat) (s : rstring) : option (rstring * rstring) :=
  match n, s with
  | O, _ => Some ([], s)
  | S _, [] => None
  | S _, c :: s' =>
      if utf8_len c <=? n
      then match split_at_byte (n - utf8_len c) s' with
           | Some (a, b) => Some (c :: a, b)
           | None => None
           end
      else None
  end.

(** [str::get(s..e)]. *)
Definition str_get (s e : nat) (text : rstring) : option rstring :=
  if s <=? e then
    match split_at_byte s text with
    | Some (_, rest) => fst <$> split_at_byte (e - s) rest
    | None => None
    end
  else None.

(** [u8::saturating_add(1)]. *)
Definition u8_succ (n : Z) : Z := Z.min (n + 1) 255.

(** [Vec<String>::sort]: the order of the bytes of two strings is the order of
    their code points. *)
Definition str_le (a b : rstring) : Prop := a = b ∨ lexico a b.
#[global] Instance str_le_dec : RelDecision str_le.
Proof. intros a b. unfold str_le. apply _. Defined.
Definition sort_strings (l : list rstring) : list rstring := merge_sort str_le l.

(** ** The regex crate *)
Class RegexCrate := {
  Regex : Type;
  RegexError : Type;
  Regex_new : rstring → result Regex RegexError;
  (** a pattern that is a literal of the source, compiled with [expect] *)
  regex_lit : rstring → Regex;
  regex_is_match : Regex → rstring → bool;
  (** byte offsets of the leftmost match *)
  regex_find : Regex → rstring → option (nat * nat);
  regex_replace_all : Regex → rstring → rstring → rstring
}.

Class RegexLaws (R : RegexCrate) := {
  regex_lit_new s r : Regex_new s = Ok r → regex_lit s = r;
  regex_match_find r t : regex_is_match r t = true ↔ is_Some (regex_find r t)
}.

Module Delegation.

Definition Uuid := Z.
Definition SystemTime := Z.

Definition DEFAULT_MAX_RETRIES : Z := 2%Z.
Definition MAX_ALLOWED_RETRIES : Z := 10%Z.
Definition SIGNATURE_PREVIEW_LIMIT : nat := 200.

Section Data.
Context {R : RegexCrate}.

Record ValidatedRegex := { source : rstring; compiled : Regex }.

Definition ValidatedRegex_new (s : rstring) : result ValidatedRegex RegexError :=
  let? c := Regex_new s in Ok {| source := s; compiled := c |}.

Record UtilRef := { util_path : rstring; symbol : rstring; signature : option rstring }.
Record TestSpec := { command : list rstring; working_dir : option rstring }.
Record ScriptRef := { script_path : rstring; script_args : list rstring }.

Inductive AcceptanceCriterion :=
| OutputMatches (regex : ValidatedRegex)
| TestsPass
| NoForbiddenPatterns
| Custom (name : rstring) (check : ScriptRef).

Record DelegationSpec := {
  run_id : Uuid;
  parent_run_id : option Uuid;
  intent : rstring;
  acceptance : list AcceptanceCriterion;
  forbidden_patterns : list ValidatedRegex;
  expected_tests : option TestSpec;
  utility_refs : list UtilRef;
  max_retries : Z;
  created_at : SystemTime
}.

Inductive SpecError :=
| EmptyIntent
| MaxRetriesTooLarge (n : Z)
| InvalidForbiddenPattern (index : nat) (e : RegexError)
| InvalidOutputMatchesRegex (index : nat) (e : RegexError)
| TestsPassWithoutExpectedTests (idx : Z)
| NoForbiddenPatternsWithoutPatterns (idx : nat)
| EmptyCustomName (idx : nat)
| EmptyScriptPath
| EmptyUtilSymbol (idx : nat).

(** A loop that stops at the first error, with the index of each element. *)
Fixpoint check_each {A} (f : nat → A → result () SpecError) (idx : nat) (l : list A)
  : result () SpecError :=
  match l with
  | [] => Ok ()
  | a :: l' => let? _ := f idx a in check_each f (S idx) l'
  end.

Definition validate_criterion (s : DelegationSpec) (idx : nat) (c : AcceptanceCriterion)
  : result () SpecError :=
  match c with
  | OutputMatches _ => Ok ()
  | TestsPass =>
      match expected_tests s with
      | None => Err (TestsPassWithoutExpectedTests (Z.of_nat idx))
      | Some _ => Ok ()
      end
  | NoForbiddenPatterns =>
      if is_empty (forbidden_patterns s) then Err (NoForbiddenPatternsWithoutPatterns idx) else Ok ()
  | Custom name check =>
      if is_empty (trim name) then Err (EmptyCustomName idx)
      else if is_empty (script_path check) then Err EmptyScriptPath
      else Ok ()
  end.

Definition validate (s : DelegationSpec) : result () SpecError :=
  if is_empty (trim (intent s)) then Err EmptyIntent
  else if (MAX_ALLOWED_RETRIES <? max_retries s)%Z then Err (MaxRetriesTooLarge (max_retries s))
  else
    let? _ := check_each (λ idx u, if is_empty (trim (symbol u)) then Err (EmptyUtilSymbol idx)
                                   else Ok ()) 0 (utility_refs s) in
    let? _ := check_each (validate_criterion s) 0 (acceptance s) in
    match expected_tests s with
    | Some t => if is_empty (command t) then Err (TestsPassWithoutExpectedTests USIZE_MAX) else Ok ()
    | None => Ok ()
    end.

(** [new_bare]; the fresh id and the current time come from the process. *)
Definition new_bare (fresh : Uuid) (now : SystemTime) (i : rstring)
  : result DelegationSpec SpecError :=
  let spec := {| run_id := fresh; parent_run_id := None; intent := i; acceptance := [];
                 forbidden_patterns := []; expected_tests := None; utility_refs := [];
                 max_retries := DEFAULT_MAX_RETRIES; created_at := now |} in
  let? _ := validate spec in Ok spec.

Fixpoint compile_patterns (index : nat) (ps : list rstring) : result (list ValidatedRegex) SpecError :=
  match ps with
  | [] => Ok []
  | p :: ps' =>
      let? r := map_err (InvalidForbiddenPattern index) (ValidatedRegex_new p) in
      let? rs := compile_patterns (S index) ps' in
      Ok (r :: rs)
  end.

Definition with_forbidden (s : DelegationSpec) (rs : list ValidatedRegex) : DelegationSpec :=
  {| run_id := run_id s; parent_run_id := parent_run_id s; intent := intent s;
     acceptance := acceptance s; forbidden_patterns := rs; expected_tests := expected_tests s;
     utility_refs := utility_refs s; max_retries := max_retries s; created_at := created_at s |}.

(** [&mut self]: on an error the patterns are left as they were. *)
Definition set_forbidden_patterns (s : DelegationSpec) (ps : list rstring)
  : DelegationSpec * result () SpecError :=
  match compile_patterns 0 ps with
  | Ok rs => (with_forbidden s rs, Ok ())
  | Err e => (s, Err e)
  end.

(** ** Decisions *)

Inductive CriterionKind := KOutputMatches | KTestsPass | KCustom.

Inductive FailureDetails :=
| FOutputMatches (regex output_excerpt : rstring)
| FTestsPass (exit_code : Z) (stderr_excerpt : rstring) (cmd : list rstring)
| FCustom (exit_code : Z) (stderr_excerpt : rstring).

Record FailedCriterion := { fc_name : rstring; kind : CriterionKind; details : FailureDetails }.
Record RetryFeedback := { failed_criteria : list FailedCriterion }.

Inductive AuditDecision :=
| DOk (rationale : rstring)
| DRetry (feedback : RetryFeedback) (attempt : Z)
| DEscalate (reason blocking_issue : rstring)
| DClarify (question : rstring)
| DDrop (reason : rstring).

Definition is_terminal (d : AuditDecision) : bool :=
  match d with
  | DOk _ | DEscalate _ _ | DClarify _ | DDrop _ => true
  | DRetry _ _ => false
  end.

Definition kind_id (k : CriterionKind) : rstring :=
  match k with
  | KOutputMatches => $"output_matches"
  | KTestsPass => $"tests_pass"
  | KCustom => $"custom"
  end.

Definition normalize_signature_paths (text : rstring) : rstring := replace_chars [92%Z] $"/" text.

Definition uuid_re : Regex :=
  regex_lit $"\b[0-9a-fA-F]{8}-[0-9a-fA-F]{4}-[0-9a-fA-F]{4}-[0-9a-fA-F]{4}-[0-9a-fA-F]{12}\b".
Definition pid_re : Regex :=
  regex_lit $"(?i)\b(pid|process id|process)\s*[:=]?\s*\d+\b".
Definition timestamp_re : Regex :=
  regex_lit $"\b\d{4}-\d{2}-\d{2}T\d{2}:\d{2}:\d{2}(?:\.\d+)?(?:Z|[+-]\d{2}:\d{2})?\b".

Definition normalize_signature_noise (text : rstring) : rstring :=
  regex_replace_all timestamp_re
    (regex_replace_all pid_re (regex_replace_all uuid_re text $"[uuid]") $"[pid]") $"[ts]".

Definition normalize_signature_path (path : rstring) : rstring :=
  normalize_signature_paths (normalize_signature_noise path).

Definition normalize_signature_excerpt (input : rstring) : rstring :=
  take SIGNATURE_PREVIEW_LIMIT
    (normalize_signature_noise (normalize_signature_paths (replace_chars [NL; CR] $" " input))).

Definition normalized_failure_details (d : FailureDetails) : rstring :=
  match d with
  | FOutputMatches regex excerpt =>
      $"regex=" ++ regex ++ $",output_excerpt=" ++ normalize_signature_excerpt excerpt
  | FTestsPass code stderr cmd =>
      $"exit_code=" ++ show_Z code ++ $",stderr_excerpt=" ++ normalize_signature_excerpt stderr
      ++ $",command=" ++ join $" " (normalize_signature_path <$> cmd)
  | FCustom code stderr =>
      $"exit_code=" ++ show_Z code ++ $",stderr_excerpt=" ++ normalize_signature_excerpt stderr
  end.
End Data.

Section Signature.
Context {R : RegexCrate} (Sha256 : list Z → list Z).

(** The updates of the hasher are one digest of their concatenation. *)
Definition error_signature (f : FailedCriterion) : rstring :=
  concat (hex_byte <$>
    Sha256 (as_bytes (fc_name f) ++ as_bytes $"|" ++ as_bytes (kind_id (kind f)) ++ as_bytes $"|"
            ++ as_bytes (normalized_failure_details (details f)))).

Definition error_signature_for_retry_feedback (fb : RetryFeedback) : option rstring :=
  if is_empty (failed_criteria fb) then None
  else
    let sigs := sort_strings (error_signature <$> failed_criteria fb) in
    Some (concat (take 16 (hex_byte <$> Sha256 (as_bytes (join $"|" sigs))))).
End Signature.

(** ** Context of a run (context.rs) *)
Section Context_.
Context {R : RegexCrate}.

Record DelegationContext := {
  ctx_run_id : Uuid;
  ctx_parent_run_id : option Uuid;
  attempt : Z;
  started_at : Z;
  retry_feedback : option RetryFeedback
}.

Definition for_top_level (now : Z) (s : DelegationSpec) : DelegationContext :=
  {| ctx_run_id := run_id s; ctx_parent_run_id := None; attempt := 0;
     started_at := now; retry_feedback := None |}.

Definition for_nested (now : Z) (s : DelegationSpec) (parent : DelegationContext)
  : DelegationContext :=
  {| ctx_run_id := run_id s; ctx_parent_run_id := Some (ctx_run_id parent); attempt := 0;
     started_at := now; retry_feedback := None |}.

Definition next_attempt (c : DelegationContext) : DelegationContext :=
  {| ctx_run_id := ctx_run_id c; ctx_parent_run_id := ctx_parent_run_id c;
     attempt := u8_succ (attempt c); started_at := started_at c;
     retry_feedback := retry_feedback c |}.

Definition next_attempt_with_feedback (c : DelegationContext) (f : RetryFeedback)
  : DelegationContext :=
  {| ctx_run_id := ctx_run_id c; ctx_parent_run_id := ctx_parent_run_id c;
     attempt := u8_succ (attempt c); started_at := started_at c;
     retry_feedback := Some f |}.

(** [latency_ms], on a clock of milliseconds. *)
Definition latency_ms (now : Z) (c : DelegationContext) : Z := (now - started_at c)%Z.
End Context_.

(** ** The interfaces of the pipeline (traits.rs) *)
Section Traits.
Context {R : RegexCrate}.

Inductive ClassificationOutcome :=
| Delegate (spec : DelegationSpec) (reason : rstring) (rule_name : option rstring)
| PassThrough (reason : rstring) (rule_name : option rstring).

Record DispatchOutcome := {
  response_text : rstring;
  outcome_latency_ms : Z;
  total_tokens : option Z
}.

Inductive DispatchError :=
| Model (m : rstring)
| Transport (m : rstring)
| ClarificationRequested (question : rstring).

Definition display_dispatch_error (e : DispatchError) : rstring :=
  match e with
  | Model m => $"model returned an error: " ++ m
  | Transport m => $"transport error: " ++ m
  | ClarificationRequested q => $"model requested clarification: " ++ q
  end.

Record CriterionResult := {
  cr_name : rstring;
  passed : bool;
  duration_ms : Z;
  cr_details : Json
}.

Record AuditReport := { decision : AuditDecision; criterion_results : list CriterionResult }.

Inductive LogStage :=
| SClassify | SDispatchStart | SDispatchEnd | SAuditCriterion | SAudit | SDecision | SClarify.

(** The traits: what a stage does to the world [W] outside the orchestrator,
    and what it answers. *)
Class Classifier (W : Type) := classify : rstring → W → ClassificationOutcome * W.
Class DispatchSink (W : Type) :=
  dispatch : DelegationSpec → DelegationContext → W → result DispatchOutcome DispatchError * W.
Class Auditor (W : Type) :=
  audit : DelegationSpec → DelegationContext → DispatchOutcome → W → AuditReport * W.
Class DecisionLog (W : Type) := record : DelegationContext → LogStage → Json → W → W.
End Traits.

(** ** What is written of a decision: the derived [Serialize] of decision.rs *)
Definition kind_to_json (k : CriterionKind) : Json := JObj [($"kind", JStr (kind_id k))].

Definition details_to_json (d : FailureDetails) : Json :=
  match d with
  | FOutputMatches regex excerpt =>
      JObj [($"kind", JStr $"output_matches"); ($"regex", JStr regex);
            ($"output_excerpt", JStr excerpt)]
  | FTestsPass code stderr cmd =>
      JObj [($"kind", JStr $"tests_pass"); ($"exit_code", JNum code);
            ($"stderr_excerpt", JStr stderr); ($"command", JArr (JStr <$> cmd))]
  | FCustom code stderr =>
      JObj [($"kind", JStr $"custom"); ($"exit_code", JNum code); ($"stderr_excerpt", JStr stderr)]
  end.

Definition failed_to_json (f : FailedCriterion) : Json :=
  JObj [($"name", JStr (fc_name f)); ($"kind", kind_to_json (kind f));
        ($"details", details_to_json (details f))].

Definition feedback_to_json (f : RetryFeedback) : Json :=
  JObj [($"failed_criteria", JArr (failed_to_json <$> failed_criteria f))].

Definition decision_to_json (d : AuditDecision) : Json :=
  match d with
  | DOk r => JObj [($"verdict", JStr $"ok"); ($"rationale", JStr r)]
  | DRetry f a => JObj [($"verdict", JStr $"retry"); ($"feedback", feedback_to_json f);
                        ($"attempt", JNum a)]
  | DEscalate r b => JObj [($"verdict", JStr $"escalate"); ($"reason", JStr r);
                           ($"blocking_issue", JStr b)]
  | DClarify q => JObj [($"verdict", JStr $"clarify"); ($"question", JStr q)]
  | DDrop r => JObj [($"verdict", JStr $"drop"); ($"reason", JStr r)]
  end.

(** ** What validation guarantees *)
Section Validation.
Context {R : RegexCrate}.

(** The conditions a criterion puts on its spec. *)
Definition criterion_valid (s : DelegationSpec) (c : AcceptanceCriterion) : Prop :=
  match c with
  | OutputMatches _ => True
  | TestsPass => is_Some (expected_tests s)
  | NoForbiddenPatterns => forbidden_patterns s ≠ []
  | Custom name check => trim name ≠ [] ∧ script_path check ≠ []
  end.

Record spec_valid (s : DelegationSpec) : Prop := {
  valid_intent : trim (intent s) ≠ [];
  valid_retries : (max_retries s ≤ 10)%Z;
  valid_utils : Forall (λ u, trim (symbol u) ≠ []) (utility_refs s);
  valid_criteria : Forall (criterion_valid s) (acceptance s);
  valid_tests : ∀ t, expected_tests s = Some t → command t ≠ []
}.

Lemma check_each_Ok {A} (f : nat → A → result () SpecError) (P : A → Prop) l :
  (∀ i a, f i a = Ok () ↔ P a) → ∀ idx, check_each f idx l = Ok () ↔ Forall P l.
Proof.
  intros Hf. induction l as [|a l IH]; intros idx; cbn; [by split|].
  rewrite Forall_cons, <-(IH (S idx)), <-(Hf idx a).
  destruct (f idx a) as [[]|e]; cbn; [tauto|]. split; [done|]. by intros [? _].
Qed.

Lemma validate_criterion_Ok s i c : validate_criterion s i c = Ok () ↔ criterion_valid s c.
Proof.
  destruct c as [r| | |n k]; cbn; [done| | |].
  - destruct (expected_tests s); split; done.
  - destruct (forbidden_patterns s); cbn; split; congruence.
  - destruct (trim n); cbn; [split; [done|by intros [? ?]]|].
    destruct (script_path k); cbn; split; try done. by intros [? ?].
Qed.

Lemma validate_Ok s : validate s = Ok () ↔ spec_valid s.
Proof.
  unfold validate, MAX_ALLOWED_RETRIES.
  destruct (is_empty (trim (intent s))) eqn:Hi.
  { apply is_empty_true in Hi. split; [done|]. intros []; congruence. }
  apply is_empty_false in Hi.
  destruct (10 <? max_retries s)%Z eqn:Hr.
  { apply Z.ltb_lt in Hr. split; [done|]. intros []; lia. }
  apply Z.ltb_ge in Hr.
  assert (Hu := check_each_Ok (λ idx u, if is_empty (trim (symbol u)) then Err (EmptyUtilSymbol idx)
    else Ok ()) (λ u, trim (symbol u) ≠ []) (utility_refs s)).
  assert (Hc := check_each_Ok (validate_criterion s) (criterion_valid s) (acceptance s)).
  specialize (Hu ltac:(intros i u; cbn; destruct (trim (symbol u)); cbn; split; congruence) 0).
  specialize (Hc (validate_criterion_Ok s) 0).
  destruct (check_each _ 0 (utility_refs s)) as [[]|e] eqn:E1; cbn [result_bind].
  2: { split; [done|]. intros H%valid_utils. by apply Hu in H. }
  destruct (check_each _ 0 (acceptance s)) as [[]|e] eqn:E2; cbn [result_bind].
  2: { split; [done|]. intros H%valid_criteria. by apply Hc in H. }
  destruct (expected_tests s) as [t|] eqn:Et.
  - destruct (command t) eqn:Ec; cbn; split; try done.
    + intros H. by destruct (valid_tests _ H t).
    + intros _. split; [done|done|by apply Hu|by apply Hc|]. intros t' Ht'. assert (t' = t) by congruence. subst. congruence.
  - split; [|done]. intros _. split; try done; [by apply Hu|by apply Hc|congruence].
Qed.
End Validation.

(** ** Signatures do not depend on the order of the failures *)
#[global] Instance str_le_refl : Reflexive str_le.
Proof. by left. Qed.
#[global] Instance str_le_trans : Transitive str_le.
Proof. intros a b c [->|?] [->|?]; [by left|by right..|right; by etrans]. Qed.
#[global] Instance str_le_antisymm : AntiSymm (=) str_le.
Proof.
  intros a b [->|H1] [H2|H2]; try done. exfalso. apply (irreflexivity lexico a). by etrans.
Qed.
#[global] Instance str_le_total : Total str_le.
Proof.
  intros a b. destruct (trichotomyT lexico a b) as [[?|?]|?]; [left; by right|left; by left|].
  right. by right.
Qed.

Lemma sort_strings_perm l l' : l ≡ₚ l' → sort_strings l = sort_strings l'.
Proof.
  intros Hp. unfold sort_strings. apply (StronglySorted_unique str_le).
  - apply StronglySorted_merge_sort; apply _.
  - apply StronglySorted_merge_sort; apply _.
  - by rewrite !merge_sort_Permutation.
Qed.

Section Order.
Context {R : RegexCrate} (Sha256 : list Z → list Z).

(** The signature that the retry loop compares depends on which criteria
    failed and how, not on the order in which the auditor reports them. *)
Theorem feedback_signature_order f g :
  failed_criteria f ≡ₚ failed_criteria g →
  error_signature_for_retry_feedback Sha256 f = error_signature_for_retry_feedback Sha256 g.
Proof.
  intros Hp. unfold error_signature_for_retry_feedback.
  rewrite (sort_strings_perm _ _ (fmap_Permutation (error_signature Sha256) _ _ Hp)).
  destruct (failed_criteria f), (failed_criteria g); try done.
  - by apply Permutation_nil_l in Hp.
  - by apply symmetry, Permutation_nil_l in Hp.
Qed.
End Order.

(** ** A concrete regex crate: patterns are literal texts *)
Definition literal_find (r t : rstring) : option (nat * nat) :=
  match str_find r t with
  | Some i => Some (byte_len (take i t), byte_len (take i t) + byte_len r)
  | None => None
  end.
Definition literal_regex : RegexCrate := {|
  Regex := rstring; RegexError := rstring; Regex_new := λ s, Ok s; regex_lit := λ s, s;
  regex_is_match := λ r t, bool_decide (is_Some (literal_find r t));
  regex_find := literal_find;
  regex_replace_all := λ _ t _, t |}.
Lemma literal_laws : RegexLaws literal_regex.
Proof. split; [by intros s r [= ->]|]. intros r t. cbn. apply bool_decide_eq_true. Qed.

(** A digest for examples: the bytes themselves. *)
Definition demo_digest (bs : list Z) : list Z := bs.
Definition demo_failure (n : rstring) : FailedCriterion :=
  {| fc_name := n; kind := KCustom; details := FCustom 1 $"boom" |}.

Lemma feedback_signature_order_witness :
  error_signature_for_retry_feedback (R := literal_regex) demo_digest
    {| failed_criteria := [demo_failure $"b"; demo_failure $"a"] |} =
  error_signature_for_retry_feedback (R := literal_regex) demo_digest
    {| failed_criteria := [demo_failure $"a"; demo_failure $"b"] |}.
Proof. apply (feedback_signature_order (R := literal_regex)). apply perm_swap. Defined.

Definition demo_regex (f : rstring) : ValidatedRegex (R := literal_regex) :=
  @Build_ValidatedRegex literal_regex f f.
Definition demo_spec (cs : list (AcceptanceCriterion (R := literal_regex)))
    (forbidden : list rstring) (retries : Z) : DelegationSpec (R := literal_regex) :=
  {| run_id := 7%Z; parent_run_id := None; intent := $"write add"; acceptance := cs;
     forbidden_patterns := demo_regex <$> forbidden;
     expected_tests := Some {| command := [$"cargo"; $"test"]; working_dir := None |};
     utility_refs := []; max_retries := retries; created_at := 0%Z |}.

End Delegation.
