(* ===== verification/Auditor.v ===== *)
(** * Auditor: judging the answer of a delegated turn

    Models codex-rs/orchestrator/src/audit.rs: the [PatternAuditor], which
    evaluates the acceptance criteria of a spec from cheap to expensive and
    stops at the first failure, and the [PlaceholderAuditor].

    Running a process is the class [Processes]; what a process prints is the
    text [String::from_utf8_lossy] makes of it.  Durations are what the clock of
    the world says. *)

From S2P Require Import Prelude Delegation.
Import Json Delegation.

Module Audit.

(** What [spawn] and [wait_with_output] under a timeout can give. *)
Inductive ProcessResult :=
| SpawnFailed (err : rstring)
| Finished (status : option Z) (stdout stderr : rstring)
| WaitFailed (err : rstring)
| TimedOut.

Class Processes (W : Type) := {
  run_process : rstring → list rstring → option rstring → Z → W → ProcessResult * W;
  elapsed_ms : W → Z
}.

Record PatternAuditor := { process_timeout : Z }.
Definition DEFAULT_PROCESS_TIMEOUT : Z := 30000%Z.
Definition new_auditor : PatternAuditor := {| process_timeout := DEFAULT_PROCESS_TIMEOUT |}.

Definition to_i32 (value : option Z) : Z :=
  match value with
  | Some v => if ((- 2 ^ 31 <=? v) && (v <? 2 ^ 31))%Z then v else (-1)%Z
  | None => (-1)%Z
  end.

Definition truncated_text (text : rstring) : rstring := take 2048 text.

Definition snippet_around (text : rstring) (start stop context : nat) : rstring :=
  let s := start - context in
  let e := Nat.min (stop + context) (byte_len text) in
  let raw := default [] (str_get s e text) in
  replace_chars [NL] $"\n" raw.

Section Auditor.
Context {R : RegexCrate}.

Definition str_field (k : rstring) (dflt : rstring) (d : Json) : rstring :=
  default dflt (get k d ≫= as_str).

Definition match_summary (m : Json) : option rstring :=
  match get $"pattern" m ≫= as_str with
  | None => None
  | Some pat =>
      Some ($"`" ++ pat ++ $"` matched: " ++ str_field $"snippet" $"<no snippet>" m)
  end.

(** [display] renders a JSON value. *)
Definition format_blocking_issue (display : Json → rstring) (label : rstring) (d : Json) : rstring :=
  match (if label =?s $"no_forbidden_patterns" then get $"matches" d ≫= as_array else None) with
  | Some (m :: ms) =>
      $"forbidden patterns matched: " ++ join $"; " (omap match_summary (m :: ms))
  | _ => label ++ $" failed: " ++ display d
  end.

Definition early_escalate (display : Json → rstring) (results : list CriterionResult) (d : Json)
    (label : rstring) : AuditReport :=
  {| decision := DEscalate (label ++ $" failed " ++ [8212%Z] ++ $" manual intervention required")
                           (format_blocking_issue display label d);
     criterion_results := results |}.

Definition early_retry (results : list CriterionResult) (failed : FailedCriterion)
    (ctx : DelegationContext) : AuditReport :=
  {| decision := DRetry {| failed_criteria := [failed] |} (u8_succ (attempt ctx));
     criterion_results := results |}.

Definition output_matches_name (idx : nat) : rstring := $"output_matches[" ++ show_nat idx ++ $"]".
Definition custom_name (idx : nat) (name : rstring) : rstring :=
  $"custom[" ++ show_nat idx ++ $":" ++ name ++ $"]".

Definition failed_output_match (idx : nat) (regex : ValidatedRegex) (d : Json) : FailedCriterion :=
  {| fc_name := output_matches_name idx; kind := KOutputMatches;
     details := FOutputMatches (source regex) (str_field $"output_excerpt" [] d) |}.

Definition failed_tests_pass (t : TestSpec) (d : Json) : FailedCriterion :=
  {| fc_name := $"tests_pass"; kind := KTestsPass;
     details := FTestsPass (to_i32 (get $"exit_code" d ≫= as_i64))
                           (take 2048 (str_field $"stderr" [] d)) (command t) |}.

Definition failed_custom (idx : nat) (name : rstring) (d : Json) : FailedCriterion :=
  {| fc_name := custom_name idx name; kind := KCustom;
     details := FCustom (to_i32 (get $"exit_code" d ≫= as_i64))
                        (take 2048 (str_field $"stderr" [] d)) |}.

Section World.
Context {W : Type} `{Processes W} (display : Json → rstring).

Definition check_output_matches (idx : nat) (regex : ValidatedRegex) (o : DispatchOutcome) (w : W)
  : CriterionResult :=
  let matched := regex_is_match (compiled regex) (response_text o) in
  {| cr_name := output_matches_name idx; passed := matched; duration_ms := elapsed_ms w;
     cr_details := JObj [($"regex", JStr (source regex)); ($"matched", JBool matched);
                         ($"output_excerpt", JStr (truncated_text (response_text o)))] |}.

Definition forbidden_match (text : rstring) (p : ValidatedRegex) : option Json :=
  match regex_find (compiled p) text with
  | None => None
  | Some (s, e) =>
      Some (JObj [($"pattern", JStr (source p)); ($"match_start", JNum (Z.of_nat s));
                  ($"match_end", JNum (Z.of_nat e));
                  ($"snippet", JStr (snippet_around text s e 80))])
  end.

Definition check_no_forbidden_patterns (s : DelegationSpec) (o : DispatchOutcome) (w : W)
  : CriterionResult :=
  let matches := omap (forbidden_match (response_text o)) (forbidden_patterns s) in
  {| cr_name := $"no_forbidden_patterns"; passed := is_empty matches; duration_ms := elapsed_ms w;
     cr_details := JObj [($"matches", JArr matches)] |}.

(** [run_subprocess]: the program, its arguments and its directory. *)
Definition run_subprocess (name bin : rstring) (args : list rstring) (dir : option rstring)
    (hard_timeout : Z) (w : W) : CriterionResult * W :=
  let '(r, w') := run_process bin args dir hard_timeout w in
  let mk p d := {| cr_name := name; passed := p; duration_ms := elapsed_ms w'; cr_details := d |} in
  (match r with
   | SpawnFailed err => mk false (JObj [($"error", JStr ($"spawn failed: " ++ err))])
   | Finished status out err =>
       mk (bool_decide (status = Some 0%Z))
          (JObj [($"exit_code", JNum (default (-1)%Z status)); ($"stdout", JStr (take 4096 out));
                 ($"stderr", JStr (take 4096 err))])
   | WaitFailed err => mk false (JObj [($"error", JStr ($"wait failed: " ++ err))])
   | TimedOut => mk false (JObj [($"error", JStr $"timeout"); ($"timeout_ms", JNum hard_timeout)])
   end, w').

Definition run_test_spec (t : TestSpec) (hard_timeout : Z) (w : W) : CriterionResult * W :=
  match command t with
  | [] => ({| cr_name := $"tests_pass"; passed := false; duration_ms := 0;
              cr_details := JObj [($"error", JStr $"empty command")] |}, w)
  | bin :: args => run_subprocess $"tests_pass" bin args (working_dir t) hard_timeout w
  end.

Definition run_custom_script (idx : nat) (name : rstring) (script : ScriptRef) (hard_timeout : Z)
    (w : W) : CriterionResult * W :=
  run_subprocess (custom_name idx name) (script_path script) (script_args script) None hard_timeout w.

(** The first loop of [audit]: the criteria sorted into their classes. *)
Record Sorted_criteria := {
  has_no_forbidden : bool;
  output_matches : list (nat * ValidatedRegex);
  has_tests_pass : bool;
  custom_criteria : list (nat * rstring * ScriptRef)
}.

Definition sort_criterion (acc : Sorted_criteria) (ic : nat * AcceptanceCriterion) : Sorted_criteria :=
  let '(idx, c) := ic in
  match c with
  | NoForbiddenPatterns =>
      {| has_no_forbidden := true; output_matches := output_matches acc;
         has_tests_pass := has_tests_pass acc; custom_criteria := custom_criteria acc |}
  | OutputMatches regex =>
      {| has_no_forbidden := has_no_forbidden acc;
         output_matches := output_matches acc ++ [(idx, regex)];
         has_tests_pass := has_tests_pass acc; custom_criteria := custom_criteria acc |}
  | TestsPass =>
      {| has_no_forbidden := has_no_forbidden acc; output_matches := output_matches acc;
         has_tests_pass := true; custom_criteria := custom_criteria acc |}
  | Custom name check =>
      {| has_no_forbidden := has_no_forbidden acc; output_matches := output_matches acc;
         has_tests_pass := has_tests_pass acc;
         custom_criteria := custom_criteria acc ++ [(idx, name, check)] |}
  end.

Definition sort_criteria (cs : list AcceptanceCriterion) : Sorted_criteria :=
  fold_left sort_criterion (imap pair cs)
    {| has_no_forbidden := false; output_matches := []; has_tests_pass := false;
       custom_criteria := [] |}.

(** A stage of [audit] goes on with the results so far, or returns. *)
Abbreviation stage := (list CriterionResult + AuditReport)%type.

Definition audit_forbidden (s : DelegationSpec) (o : DispatchOutcome) (w : W)
    (results : list CriterionResult) : stage :=
  let result := check_no_forbidden_patterns s o w in
  let results' := results ++ [result] in
  if passed result then inl results'
  else inr (early_escalate display results' (cr_details result) $"no_forbidden_patterns").

Fixpoint audit_outputs (ctx : DelegationContext) (o : DispatchOutcome) (w : W)
    (oms : list (nat * ValidatedRegex)) (results : list CriterionResult) : stage :=
  match oms with
  | [] => inl results
  | (idx, regex) :: oms' =>
      let result := check_output_matches idx regex o w in
      let results' := results ++ [result] in
      if passed result then audit_outputs ctx o w oms' results'
      else inr (early_retry results' (failed_output_match idx regex (cr_details result)) ctx)
  end.

Definition audit_tests (a : PatternAuditor) (s : DelegationSpec) (ctx : DelegationContext) (w : W)
    (results : list CriterionResult) : stage * W :=
  match expected_tests s with
  | None =>
      (inr {| decision := DDrop $"TestsPass criterion present but expected_tests is None (spec validation failure)";
              criterion_results := results |}, w)
  | Some t =>
      let '(result, w') := run_test_spec t (process_timeout a) w in
      let results' := results ++ [result] in
      (if passed result then inl results'
       else inr (early_retry results' (failed_tests_pass t (cr_details result)) ctx), w')
  end.

Fixpoint audit_customs (a : PatternAuditor) (ctx : DelegationContext)
    (cs : list (nat * rstring * ScriptRef)) (w : W) (results : list CriterionResult) : stage * W :=
  match cs with
  | [] => (inl results, w)
  | (idx, name, check) :: cs' =>
      let '(result, w') := run_custom_script idx name check (process_timeout a) w in
      let results' := results ++ [result] in
      if passed result then audit_customs a ctx cs' w' results'
      else (inr (early_retry results' (failed_custom idx name (cr_details result)) ctx), w')
  end.

Definition all_passed (results : list CriterionResult) : AuditReport :=
  {| decision := DOk (match results with
                      | [] => $"no acceptance criteria configured; treating as pass-through Ok"
                      | _ => $"all " ++ show_nat (length results) ++ $" acceptance criteria passed"
                      end);
     criterion_results := results |}.

Definition pattern_audit (a : PatternAuditor) (s : DelegationSpec) (ctx : DelegationContext)
    (o : DispatchOutcome) (w : W) : AuditReport * W :=
  let sc := sort_criteria (acceptance s) in
  match (if has_no_forbidden sc then audit_forbidden s o w [] else inl []) with
  | inr report => (report, w)
  | inl results =>
      match audit_outputs ctx o w (output_matches sc) results with
      | inr report => (report, w)
      | inl results =>
          match (if has_tests_pass sc then audit_tests a s ctx w results else (inl results, w)) with
          | (inr report, w) => (report, w)
          | (inl results, w) =>
              match audit_customs a ctx (custom_criteria sc) w results with
              | (inr report, w) => (report, w)
              | (inl results, w) => (all_passed results, w)
              end
          end
      end
  end.
End World.

(** The two implementations of the trait. *)
Definition pattern_auditor {W} `{Processes W} (display : Json → rstring) (a : PatternAuditor)
  : Auditor W := pattern_audit display a.

Definition placeholder_auditor {W} : Auditor W := λ _ _ _ w,
  ({| decision := DOk ($"PlaceholderAuditor " ++ [8212%Z] ++
        $" no acceptance checks performed. Use PatternAuditor in production.");
      criterion_results := [] |}, w).

(** ** What the auditor accepts *)
Section Acceptance.
Context {W : Type} `{Processes W} (display : Json → rstring) (a : PatternAuditor).

(** A process that runs to its end with status zero. *)
Definition succeeds (bin : rstring) (args : list rstring) (dir : option rstring) (w w' : W) : Prop :=
  ∃ out err, run_process bin args dir (process_timeout a) w = (Finished (Some 0%Z) out err, w').

Definition tests_succeed (s : DelegationSpec) (w w' : W) : Prop :=
  ∃ t bin args, expected_tests s = Some t ∧ command t = bin :: args
                ∧ succeeds bin args (working_dir t) w w'.

(** The scripts run one after the other. *)
Fixpoint scripts_succeed (l : list ScriptRef) (w w' : W) : Prop :=
  match l with
  | [] => w' = w
  | c :: l' => ∃ w1, succeeds (script_path c) (script_args c) None w w1 ∧ scripts_succeed l' w1 w'
  end.

Definition script_of (c : AcceptanceCriterion) : option ScriptRef :=
  match c with Custom _ check => Some check | _ => None end.
Definition regex_of (c : AcceptanceCriterion) : option ValidatedRegex :=
  match c with OutputMatches r => Some r | _ => None end.
Definition is_forbidden_criterion (c : AcceptanceCriterion) : bool :=
  match c with NoForbiddenPatterns => true | _ => false end.
Definition is_tests_criterion (c : AcceptanceCriterion) : bool :=
  match c with TestsPass => true | _ => false end.

(** Every criterion of the spec holds of the answer; the processes lead from
    [w] to [w']. *)
Record accepted (s : DelegationSpec) (o : DispatchOutcome) (w w' : W) : Prop := {
  acc_forbidden : NoForbiddenPatterns ∈ acceptance s →
    Forall (λ p, regex_is_match (compiled p) (response_text o) = false) (forbidden_patterns s);
  acc_outputs : ∀ r, OutputMatches r ∈ acceptance s →
    regex_is_match (compiled r) (response_text o) = true;
  acc_processes : ∃ w1,
    (TestsPass ∈ acceptance s → tests_succeed s w w1) ∧
    (TestsPass ∉ acceptance s → w1 = w) ∧
    scripts_succeed (omap script_of (acceptance s)) w1 w'
}.

Lemma sort_criteria_fold l acc :
  let sc := fold_left sort_criterion l acc in
  let cs := snd <$> l in
  has_no_forbidden sc = has_no_forbidden acc || existsb is_forbidden_criterion cs ∧
  snd <$> output_matches sc = (snd <$> output_matches acc) ++ omap regex_of cs ∧
  has_tests_pass sc = has_tests_pass acc || existsb is_tests_criterion cs ∧
  snd <$> custom_criteria sc = (snd <$> custom_criteria acc) ++ omap script_of cs.
Proof.
  revert acc. induction l as [|[i c] l IH]; intros acc; cbn.
  { by rewrite !orb_false_r, !app_nil_r. }
  specialize (IH (sort_criterion acc (i, c))). cbn in IH. destruct IH as (-> & -> & -> & ->).
  destruct c; cbn; rewrite ?fmap_app, ?orb_true_r, <-?app_assoc; done.
Qed.

Lemma snd_imap_pair {A} (l : list A) : snd <$> imap pair l = l.
Proof. apply list_eq. intros i. rewrite list_lookup_fmap, list_lookup_imap. by destruct (l !! i). Qed.

Lemma sort_criteria_spec cs :
  has_no_forbidden (sort_criteria cs) = existsb is_forbidden_criterion cs ∧
  snd <$> output_matches (sort_criteria cs) = omap regex_of cs ∧
  has_tests_pass (sort_criteria cs) = existsb is_tests_criterion cs ∧
  snd <$> custom_criteria (sort_criteria cs) = omap script_of cs.
Proof.
  unfold sort_criteria. pose proof (sort_criteria_fold (imap pair cs)
    {| has_no_forbidden := false; output_matches := []; has_tests_pass := false;
       custom_criteria := [] |}) as Hf.
  cbn in Hf. by rewrite snd_imap_pair in Hf.
Qed.

Lemma has_forbidden_iff cs : existsb is_forbidden_criterion cs = true ↔ NoForbiddenPatterns ∈ cs.
Proof.
  rewrite existsb_exists. split.
  - intros (c & Hc & He). apply list_elem_of_In in Hc. by destruct c.
  - intros Hc. exists NoForbiddenPatterns. by rewrite <-list_elem_of_In.
Qed.

Lemma has_tests_iff cs : existsb is_tests_criterion cs = true ↔ TestsPass ∈ cs.
Proof.
  rewrite existsb_exists. split.
  - intros (c & Hc & He). apply list_elem_of_In in Hc. by destruct c.
  - intros Hc. exists TestsPass. by rewrite <-list_elem_of_In.
Qed.

Lemma forbidden_match_None `{!RegexLaws R} text p :
  forbidden_match text p = None ↔ regex_is_match (compiled p) text = false.
Proof.
  unfold forbidden_match. rewrite <-not_true_iff_false, regex_match_find, <-eq_None_not_Some.
  destruct (regex_find (compiled p) text) as [[]|]; split; congruence.
Qed.

Lemma audit_forbidden_inl `{!RegexLaws R} s o w results :
  (∃ rs, audit_forbidden display s o w results = inl rs) ↔
  Forall (λ p, regex_is_match (compiled p) (response_text o) = false) (forbidden_patterns s).
Proof.
  unfold audit_forbidden. cbn [check_no_forbidden_patterns passed].
  setoid_rewrite <-forbidden_match_None.
  induction (forbidden_patterns s) as [|p l IH]; [split; [done|eauto]|].
  rewrite Forall_cons. cbn [omap list_omap].
  destruct (forbidden_match (response_text o) p); [|by rewrite <-IH; naive_solver].
  cbn [is_empty]. split; [by intros [? [=]]|by intros [[=] _]].
Qed.

Lemma audit_outputs_inl ctx o w oms results :
  (∃ rs, audit_outputs ctx o w oms results = inl rs) ↔
  Forall (λ r, regex_is_match (compiled r) (response_text o) = true) (snd <$> oms).
Proof.
  revert results. induction oms as [|[i r] oms IH]; intros results; cbn [audit_outputs fmap list_fmap].
  { split; [done|eauto]. }
  cbn [check_output_matches passed snd]. rewrite Forall_cons.
  destruct (regex_is_match _ _); [rewrite IH; naive_solver|].
  split; [by intros [? [=]]|by intros [[=] _]].
Qed.

Lemma run_subprocess_passed name bin args dir w w' :
  (∃ c, run_subprocess name bin args dir (process_timeout a) w = (c, w') ∧ passed c = true) ↔
  succeeds bin args dir w w'.
Proof.
  unfold run_subprocess, succeeds.
  destruct (run_process bin args dir (process_timeout a) w) as [r w1]. split.
  - intros (c & [= <- <-] & Hp). destruct r as [|st ? ?| |]; try done.
    cbn in Hp. apply bool_decide_eq_true in Hp as ->. eauto.
  - intros (out & err & [= -> ->]). eexists. split; [reflexivity|]. by apply bool_decide_eq_true.
Qed.

Lemma audit_customs_inl ctx cs w results w' :
  (∃ rs, audit_customs a ctx cs w results = (inl rs, w')) ↔ scripts_succeed (snd <$> cs) w w'.
Proof.
  revert w results. induction cs as [|[[i n] k] cs IH]; intros w results;
    cbn [audit_customs fmap list_fmap scripts_succeed snd].
  { split; [by intros [? [= _ ->]]|intros ->; eauto]. }
  setoid_rewrite <-(run_subprocess_passed (custom_name i n)). unfold run_custom_script.
  destruct (run_subprocess _ _ _ _ _ w) as [c w1]. destruct (passed c) eqn:Hp.
  - rewrite IH. split; [eauto 10|]. by intros (? & (? & [= -> ->] & _) & ?).
  - split; [by intros [? [=]]|]. intros (? & (? & [= -> ->] & ?) & _). congruence.
Qed.

Lemma audit_tests_inl s ctx w results w' :
  (∃ rs, audit_tests a s ctx w results = (inl rs, w')) ↔ tests_succeed s w w'.
Proof.
  unfold audit_tests, tests_succeed, run_test_spec.
  destruct (expected_tests s) as [t|]; [|split; [by intros [? [=]]|by intros (? & ? & ? & [=] & _)]].
  destruct (command t) as [|bin args] eqn:Ec.
  { split; [by intros [? [=]]|]. intros (? & ? & ? & [= <-] & ? & _). congruence. }
  transitivity (succeeds bin args (working_dir t) w w').
  - rewrite <-(run_subprocess_passed $"tests_pass").
    destruct (run_subprocess _ _ _ _ _ w) as [c w1]. destruct (passed c) eqn:Hp.
    + split; [intros [? [= _ ->]]; eauto|]. intros (? & [= -> ->] & _). eauto.
    + split; [by intros [? [=]]|]. intros (? & [= -> ->] & ?). congruence.
  - split; [eauto 10|]. intros (? & ? & ? & [= <-] & He & ?). rewrite Ec in He. by simplify_eq.
Qed.

(** The stage in front of the processes. *)
Definition cheap_stage (s : DelegationSpec) (ctx : DelegationContext) (o : DispatchOutcome) (w : W)
  : list CriterionResult + AuditReport :=
  let sc := sort_criteria (acceptance s) in
  match (if has_no_forbidden sc then audit_forbidden display s o w [] else inl []) with
  | inr report => inr report
  | inl results => audit_outputs ctx o w (output_matches sc) results
  end.

Definition process_stage (s : DelegationSpec) (ctx : DelegationContext)
    (results : list CriterionResult) (w : W) : (list CriterionResult + AuditReport) * W :=
  let sc := sort_criteria (acceptance s) in
  match (if has_tests_pass sc then audit_tests a s ctx w results else (inl results, w)) with
  | (inr report, w) => (inr report, w)
  | (inl results, w) => audit_customs a ctx (custom_criteria sc) w results
  end.

Lemma pattern_audit_stages s ctx o w :
  pattern_audit display a s ctx o w =
  match cheap_stage s ctx o w with
  | inr report => (report, w)
  | inl results =>
      match process_stage s ctx results w with
      | (inr report, w) => (report, w)
      | (inl results, w) => (all_passed results, w)
      end
  end.
Proof.
  unfold pattern_audit, cheap_stage, process_stage.
  destruct (if has_no_forbidden _ then _ else _) as [rs|]; [|done].
  destruct (audit_outputs _ _ _ _ _) as [rs1|]; [|done].
  by destruct (if has_tests_pass _ then _ else _) as [[rs2|] w2].
Qed.

Lemma cheap_stage_inl `{!RegexLaws R} s ctx o w :
  (∃ rs, cheap_stage s ctx o w = inl rs) ↔
  (NoForbiddenPatterns ∈ acceptance s →
     Forall (λ p, regex_is_match (compiled p) (response_text o) = false) (forbidden_patterns s)) ∧
  (∀ r, OutputMatches r ∈ acceptance s → regex_is_match (compiled r) (response_text o) = true).
Proof.
  unfold cheap_stage. destruct (sort_criteria_spec (acceptance s)) as (Hf & Ho & _ & _).
  assert (Hout : ∀ results,
    (∃ rs, audit_outputs ctx o w (output_matches (sort_criteria (acceptance s))) results = inl rs) ↔
    (∀ r, OutputMatches r ∈ acceptance s → regex_is_match (compiled r) (response_text o) = true)).
  { intros results. rewrite audit_outputs_inl, Ho, Forall_forall. setoid_rewrite list_elem_of_omap.
    split; [intros Hx r Hr; apply Hx; by exists (OutputMatches r)|].
    intros Hx r ([] & Hin & [= ->]). by apply Hx. }
  rewrite Hf, <-has_forbidden_iff. destruct (existsb is_forbidden_criterion _); [|rewrite Hout; naive_solver].
  rewrite <-(audit_forbidden_inl s o w []), <-(Hout []).
  destruct (audit_forbidden _ _ _ _ _) as [rs|rep] eqn:E.
  - rewrite !Hout. naive_solver.
  - split; [by intros [? [=]]|]. intros [Hx _]. destruct (Hx eq_refl) as [? Hy]. congruence.
Qed.

Lemma process_stage_inl s ctx results w w' :
  (∃ rs, process_stage s ctx results w = (inl rs, w')) ↔
  ∃ w1, (TestsPass ∈ acceptance s → tests_succeed s w w1) ∧ (TestsPass ∉ acceptance s → w1 = w) ∧
        scripts_succeed (omap script_of (acceptance s)) w1 w'.
Proof.
  unfold process_stage. destruct (sort_criteria_spec (acceptance s)) as (_ & _ & Ht & Hc).
  rewrite Ht, <-Hc. setoid_rewrite <-has_tests_iff.
  setoid_rewrite <-(audit_customs_inl ctx _ _ results).
  assert (Hany : ∀ rs w1, (∃ r, audit_customs a ctx (custom_criteria (sort_criteria (acceptance s))) w1 rs
     = (inl r, w')) ↔ (∃ r, audit_customs a ctx (custom_criteria (sort_criteria (acceptance s))) w1
     results = (inl r, w'))) by (intros; by rewrite !audit_customs_inl).
  destruct (existsb is_tests_criterion _); [|naive_solver].
  setoid_rewrite <-(audit_tests_inl s ctx w results).
  destruct (audit_tests _ _ _ _ _) as [[rs|rep] w1].
  - rewrite Hany. split; [intros; exists w1; naive_solver|].
    intros (w2 & Hw & _ & ?). destruct (Hw eq_refl) as [? [= _ ->]]. done.
  - split; [by intros [? [=]]|]. intros (w2 & Hw & _). by destruct (Hw eq_refl) as [? [=]].
Qed.

(** ** Reports of a failure

    A report that is not an acceptance lists passed criteria and then the one
    that failed, and its verdict is about that one. *)
Definition blames (ctx : DelegationContext) (d : AuditDecision) (c : CriterionResult) : Prop :=
  (cr_name c = $"no_forbidden_patterns" ∧ ∃ r b, d = DEscalate r b) ∨
  (∃ f, fc_name f = cr_name c ∧ d = DRetry {| failed_criteria := [f] |} (u8_succ (attempt ctx))).

Definition short_circuit (ctx : DelegationContext) (rep : AuditReport) : Prop :=
  ∃ rs c, criterion_results rep = rs ++ [c] ∧ Forall (λ r, passed r = true) rs ∧
          passed c = false ∧ blames ctx (decision rep) c.

Definition stage_ok (ctx : DelegationContext) (st : list CriterionResult + AuditReport) : Prop :=
  match st with
  | inl rs => Forall (λ r, passed r = true) rs
  | inr rep => short_circuit ctx rep
  end.

Lemma Forall_snoc {A} (P : A → Prop) l x : Forall P l → P x → Forall P (l ++ [x]).
Proof. rewrite Forall_app, Forall_singleton. done. Qed.

Lemma audit_forbidden_ok ctx s o w results :
  Forall (λ r, passed r = true) results → stage_ok ctx (audit_forbidden display s o w results).
Proof.
  intros Hr. unfold audit_forbidden. destruct (passed _) eqn:Hp; cbn [stage_ok].
  - by apply Forall_snoc.
  - eexists results, _. split; [reflexivity|]. split; [done|]. split; [exact Hp|]. left.
    split; [reflexivity|]. do 2 eexists. reflexivity.
Qed.

Lemma audit_outputs_ok ctx o w oms results :
  Forall (λ r, passed r = true) results → stage_ok ctx (audit_outputs ctx o w oms results).
Proof.
  revert results. induction oms as [|[i r] oms IH]; intros results Hr; cbn [audit_outputs]; [done|].
  destruct (passed _) eqn:Hp; [by apply IH, Forall_snoc|].
  exists results. eexists. split; [reflexivity|]. split; [done|]. split; [exact Hp|]. right.
  eexists. split; [|reflexivity]. reflexivity.
Qed.

Lemma run_subprocess_name name bin args dir t w :
  cr_name (run_subprocess name bin args dir t w).1 = name.
Proof. unfold run_subprocess. by destruct (run_process bin args dir t w) as [[] ?]. Qed.

Lemma audit_customs_ok ctx cs w results :
  Forall (λ r, passed r = true) results → stage_ok ctx (audit_customs a ctx cs w results).1.
Proof.
  revert w results. induction cs as [|[[i n] k] cs IH]; intros w results Hr; cbn [audit_customs]; [done|].
  pose proof (run_subprocess_name (custom_name i n) (script_path k) (script_args k) None
    (process_timeout a) w) as Hn. unfold run_custom_script.
  destruct (run_subprocess _ _ _ _ _ w) as [c w']. cbn in Hn.
  destruct (passed c) eqn:Hp; [by apply IH, Forall_snoc|].
  exists results, c. split; [reflexivity|]. split; [done|]. split; [done|]. right.
  eexists. split; [|reflexivity]. by rewrite Hn.
Qed.

Lemma audit_tests_ok s ctx w results :
  is_Some (expected_tests s) → Forall (λ r, passed r = true) results →
  stage_ok ctx (audit_tests a s ctx w results).1.
Proof.
  intros [t Ht] Hr. unfold audit_tests. rewrite Ht.
  assert (Hn : cr_name (run_test_spec t (process_timeout a) w).1 = $"tests_pass").
  { unfold run_test_spec. destruct (command t); [reflexivity|]. apply run_subprocess_name. }
  destruct (run_test_spec _ _ w) as [c w']. cbn in Hn.
  destruct (passed c) eqn:Hp; cbn; [by apply Forall_snoc|].
  exists results, c. split; [reflexivity|]. split; [done|]. split; [done|]. right.
  eexists. split; [|reflexivity]. by rewrite Hn.
Qed.

Lemma cheap_stage_ok s ctx o w : stage_ok ctx (cheap_stage s ctx o w).
Proof.
  unfold cheap_stage. destruct (has_no_forbidden _); [|by apply audit_outputs_ok].
  pose proof (audit_forbidden_ok ctx s o w [] ltac:(done)) as Hf.
  destruct (audit_forbidden _ _ _ _ _); [by apply audit_outputs_ok|done].
Qed.

Lemma process_stage_ok s ctx results w :
  Forall (criterion_valid s) (acceptance s) → Forall (λ r, passed r = true) results →
  stage_ok ctx (process_stage s ctx results w).1.
Proof.
  intros Hv Hr. unfold process_stage.
  destruct (sort_criteria_spec (acceptance s)) as (_ & _ & Ht & _).
  destruct (has_tests_pass _); [|by apply audit_customs_ok].
  symmetry in Ht. apply has_tests_iff in Ht. rewrite Forall_forall in Hv.
  pose proof (audit_tests_ok s ctx w results (Hv _ Ht) Hr) as Ha.
  destruct (audit_tests _ _ _ _ _) as [[]]; [by apply audit_customs_ok|done].
Qed.

(** An audit of a validated spec either accepts, with every criterion
    evaluated passed, or stops at the first failure and blames it: a forbidden
    pattern escalates, anything else asks for one more attempt; it never drops. *)
Theorem audit_short_circuits s ctx o w :
  validate s = Ok () →
  let rep := (pattern_audit display a s ctx o w).1 in
  (∃ r, decision rep = DOk r ∧ Forall (λ c, passed c = true) (criterion_results rep)) ∨
  short_circuit ctx rep.
Proof.
  intros Hv%validate_Ok%valid_criteria. cbn. rewrite pattern_audit_stages.
  pose proof (cheap_stage_ok s ctx o w) as Hc. destruct (cheap_stage s ctx o w) as [rs|rep]; [|by right].
  pose proof (process_stage_ok s ctx rs w Hv Hc) as Hp.
  destruct (process_stage s ctx rs w) as [[rs'|rep] w']; [|by right]. left. eexists. by split.
Qed.

(** No stage that returns early says Ok. *)
Lemma short_circuit_not_ok ctx rep r : short_circuit ctx rep → decision rep ≠ DOk r.
Proof. intros (rs & c & _ & _ & _ & [(_ & ? & ? & ->)|(? & _ & ->)]); congruence. Qed.

Lemma cheap_stage_inr s ctx o w rep :
  cheap_stage s ctx o w = inr rep → ∀ r, decision rep ≠ DOk r.
Proof.
  intros E r. apply (short_circuit_not_ok ctx). pose proof (cheap_stage_ok s ctx o w) as Hs.
  by rewrite E in Hs.
Qed.

Lemma audit_customs_inr ctx cs w results rep w' :
  audit_customs a ctx cs w results = (inr rep, w') → ∀ r, decision rep ≠ DOk r.
Proof.
  revert w results. induction cs as [|[[i n] k] cs IH]; intros w results; cbn [audit_customs]; [done|].
  destruct (run_custom_script _ _ _ _ w) as [c w1]. destruct (passed c); [apply IH|].
  by intros [= <- <-].
Qed.

Lemma process_stage_inr s ctx results w rep w' :
  process_stage s ctx results w = (inr rep, w') → ∀ r, decision rep ≠ DOk r.
Proof.
  unfold process_stage, audit_tests. destruct (has_tests_pass _); [|apply audit_customs_inr].
  destruct (expected_tests s); [|by intros [= <- <-]].
  destruct (run_test_spec _ _ w) as [c w1]. destruct (passed c); [apply audit_customs_inr|].
  by intros [= <- <-].
Qed.

Lemma audit_ok_accepted `{!RegexLaws R} s ctx o w w' :
  (∃ rep r, pattern_audit display a s ctx o w = (rep, w') ∧ decision rep = DOk r) ↔
  accepted s o w w'.
Proof.
  rewrite pattern_audit_stages.
  transitivity (∃ rs, cheap_stage s ctx o w = inl rs ∧
                      ∃ rs', process_stage s ctx rs w = (inl rs', w')).
  - destruct (cheap_stage s ctx o w) as [rs|rep] eqn:E.
    + destruct (process_stage s ctx rs w) as [[rs'|rep] w1] eqn:E'.
      * split; [intros (? & ? & [= _ ->] & _); eauto|]. intros (? & [= <-] & ? & He).
        rewrite E' in He. simplify_eq. eauto.
      * split; [|intros (? & [= <-] & ? & ?); congruence].
        intros (? & ? & [= <- <-] & Hd). by destruct (process_stage_inr _ _ _ _ _ _ E' _ Hd).
    + split; [|by intros (? & [=] & _)]. intros (? & ? & [= <- <-] & Hd).
      by destruct (cheap_stage_inr _ _ _ _ _ E _ Hd).
  - setoid_rewrite process_stage_inl. split.
    + intros (rs & Hc & Hp). destruct (proj1 (cheap_stage_inl s ctx o w)); [eauto|]. by constructor.
    + intros [Hf Ho Hp]. destruct (proj2 (cheap_stage_inl s ctx o w)) as [rs Hrs]; [done|eauto].
Qed.
(** C14: the auditor says Ok exactly when every acceptance criterion of the spec
    holds of the answer: no forbidden pattern matches, every required pattern
    does, and the test command and the scripts, run in order, end with status
    zero.  The criteria alone decide, also of an empty answer: the auditor does not
    drop it by itself, although comments of the dispatcher and of the decision type
    say that an empty response is dropped; a spec that lists no criterion accepts
    it (second part). *)
Theorem audit_ok_iff_accepted `{!RegexLaws R} s ctx o w :
  (∀ w', (∃ rep r, pattern_audit display a s ctx o w = (rep, w') ∧ decision rep = DOk r) ↔ accepted s o w w') ∧
  (response_text o = [] → acceptance s = [] → ∃ rep r, pattern_audit display a s ctx o w = (rep, w) ∧ decision rep = DOk r).
Proof.
  split; [intros w'; apply audit_ok_accepted|]. intros _ Ha. unfold pattern_audit. rewrite Ha. eauto.
Qed.

(** A spec without acceptance criteria accepts any answer, also an empty one
    and one that a forbidden pattern of the spec matches: the patterns are only
    looked at when the criterion [NoForbiddenPatterns] is listed, and an empty
    answer is not dropped. *)
Theorem no_criteria_accepts_anything s ctx o w :
  acceptance s = [] →
  pattern_audit display a s ctx o w =
  ({| decision := DOk $"no acceptance criteria configured; treating as pass-through Ok";
      criterion_results := [] |}, w).
Proof. intros Ha. unfold pattern_audit. by rewrite Ha. Qed.
End Acceptance.
End Auditor.

(** ** Examples *)
Definition demo_processes : Processes nat := {|
  run_process := λ bin _ _ _ w, (Finished (Some (if bin =?s $"cargo" then 0 else 1))%Z [] $"boom", S w);
  elapsed_ms := λ _, 3%Z |}.
Definition demo_display (_ : Json) : rstring := $"{}".
Definition demo_outcome (t : rstring) : DispatchOutcome :=
  {| response_text := t; outcome_latency_ms := 5%Z; total_tokens := None |}.
Definition demo_context : DelegationContext :=
  {| ctx_run_id := 7%Z; ctx_parent_run_id := None; attempt := 0%Z; started_at := 0%Z; retry_feedback := None |}.
Definition demo_accept : DelegationSpec (R := literal_regex) :=
  demo_spec [NoForbiddenPatterns; OutputMatches (demo_regex $"fn");
             TestsPass] [$"unsafe"] 2%Z.

Lemma audit_ok_iff_accepted_witness :
  accepted (H := demo_processes) new_auditor demo_accept (demo_outcome $"fn add") 0 1.
Proof.
  apply (proj1 (audit_ok_iff_accepted (R := literal_regex) (H := demo_processes) demo_display new_auditor
           (RegexLaws0 := literal_laws) demo_accept demo_context (demo_outcome $"fn add") 0) 1).
  do 2 eexists. split; vm_compute; reflexivity.
Defined.

Lemma audit_short_circuits_witness :
  short_circuit demo_context
    (pattern_audit (H := demo_processes) demo_display new_auditor demo_accept demo_context
       (demo_outcome $"unsafe fn add") 0).1.
Proof.
  destruct (audit_short_circuits (R := literal_regex) (H := demo_processes) demo_display new_auditor
    demo_accept demo_context (demo_outcome $"unsafe fn add") 0 ltac:(vm_compute; reflexivity))
    as [(r & Hr & _)|Hs].
  - exfalso. vm_compute in Hr. discriminate Hr.
  - exact Hs.
Defined.

Lemma no_criteria_accepts_anything_witness :
  (pattern_audit (H := demo_processes) demo_display new_auditor (demo_spec [] [$"unsafe"] 2%Z)
     demo_context (demo_outcome $"unsafe") 0).1 =
  {| decision := DOk $"no acceptance criteria configured; treating as pass-through Ok";
     criterion_results := [] |}.
Proof.
  by rewrite (no_criteria_accepts_anything (R := literal_regex) (H := demo_processes) demo_display
    new_auditor (demo_spec [] [$"unsafe"] 2%Z) demo_context (demo_outcome $"unsafe") 0 eq_refl).
Defined.

End Audit.
