(* ===== verification/Dispatch.v ===== *)
(** * Dispatch: sending a delegated turn to the delegate model

    Models codex-rs/orchestrator/src/dispatch.rs (the prompt of a delegated
    turn, draining the stream of the model, recognising a request for
    clarification), the request types of codex-rs/minimax/src/types.rs and the
    selection of credentials and of the base URL in codex-rs/minimax/src/lib.rs.

    The HTTP client is the class [MinimaxApi]: it gives the items of the stream
    or an error, both as the text they display as.  Stored credentials and the
    environment belong to it too. *)

From S2P Require Import Prelude InlineTag ThinkParser Truncation OutputTruncation ResponseItems Normalize History EventBridge Delegation.
Import Delegation.

Module Dispatch.

(** ** Credentials and URL (minimax/src/lib.rs) *)
Definition MINIMAX_DEFAULT_BASE_URL : rstring := $"https://api.minimax.io/v1".
Definition MINIMAX_BASE_URL_ENV : rstring := $"MINIMAX_BASE_URL".
Definition MINIMAX_API_KEY_ENV : rstring := $"MINIMAX_API_KEY".
Definition MINIMAX_CODING_PLAN_KEY_ENV : rstring := $"MINIMAX_CODING_PLAN_KEY".

Inductive AuthPreference := PreferPayAsYouGo | PreferCodingPlan.
Record ResolvedAuth := { bearer_token : rstring; env_var : rstring }.

Definition not_blank (o : option rstring) : option rstring :=
  match o with Some v => if is_empty (trim v) then None else Some v | None => None end.

(** [resolve_auth_with]; [None] is the error MissingApiKey. *)
Definition resolve_auth_with (pref : AuthPreference) (getter : rstring → option rstring)
  : option ResolvedAuth :=
  let payg := not_blank (getter MINIMAX_API_KEY_ENV) in
  let coding := not_blank (getter MINIMAX_CODING_PLAN_KEY_ENV) in
  let mk t v := Some {| bearer_token := t; env_var := v |} in
  match pref with
  | PreferCodingPlan =>
      match coding, payg with
      | Some t, _ => mk t MINIMAX_CODING_PLAN_KEY_ENV
      | None, Some t => mk t MINIMAX_API_KEY_ENV
      | None, None => None
      end
  | PreferPayAsYouGo =>
      match payg, coding with
      | Some t, _ => mk t MINIMAX_API_KEY_ENV
      | None, Some t => mk t MINIMAX_CODING_PLAN_KEY_ENV
      | None, None => None
      end
  end.

Definition resolve_base_url_with (getter : rstring → option rstring) : rstring :=
  let raw := default MINIMAX_DEFAULT_BASE_URL (not_blank (getter MINIMAX_BASE_URL_ENV)) in
  trim_end_matches 47 raw.

(** ** Requests (minimax/src/types.rs) *)
Record ChatMessage := { role : rstring; msg_content : rstring }.
Record ChatCompletionRequest := {
  req_model : rstring;
  messages : list ChatMessage;
  reasoning_split : bool;
  stream : bool
}.
Definition system_message (c : rstring) : ChatMessage := {| role := $"system"; msg_content := c |}.
Definition user_message (c : rstring) : ChatMessage := {| role := $"user"; msg_content := c |}.
Definition request_new (m : rstring) (ms : list ChatMessage) : ChatCompletionRequest :=
  {| req_model := m; messages := ms; reasoning_split := true; stream := false |}.

(** ** The prompt *)
Definition writeln (s line : rstring) : rstring := s ++ line ++ [NL].

Definition one_line (s : rstring) : rstring := replace_chars [NL] $" " s.

Definition render_details (s : rstring) (d : FailureDetails) : rstring :=
  match d with
  | FOutputMatches regex excerpt =>
      let s := writeln s ($"   regex: " ++ regex) in
      writeln s ($"   output_excerpt: " ++ one_line excerpt)
  | FTestsPass code stderr cmd =>
      let s := writeln s ($"   command: " ++ join $" " cmd) in
      let s := writeln s ($"   exit_code: " ++ show_Z code) in
      writeln s ($"   stderr_excerpt: " ++ one_line stderr)
  | FCustom code stderr =>
      let s := writeln s ($"   exit_code: " ++ show_Z code) in
      writeln s ($"   stderr_excerpt: " ++ one_line stderr)
  end.

Fixpoint render_criteria (s : rstring) (idx : nat) (cs : list FailedCriterion) : rstring :=
  match cs with
  | [] => s
  | c :: cs' =>
      let s := writeln s (show_nat idx ++ $". " ++ fc_name c ++ $" (" ++ kind_id (kind c) ++ $")") in
      render_criteria (render_details s (details c)) (S idx) cs'
  end.
Definition render_retry_feedback (f : RetryFeedback) : rstring :=
  render_criteria [] 1 (failed_criteria f).

Section Prompt.
Context {R : RegexCrate} (uuid_string : Uuid → rstring).

Definition render_forbidden (s : rstring) (ps : list ValidatedRegex) : rstring :=
  if is_empty ps then s
  else fold_left (λ s p, writeln s ($"  - " ++ source p)) ps
         (writeln s ([NL] ++ $"AVOID the following patterns in your output:")).

Definition render_util (s : rstring) (u : UtilRef) : rstring :=
  let sig := match signature u with Some g => $" " ++ [8212%Z] ++ $" " ++ g | None => [] end in
  writeln s ($"  - " ++ symbol u ++ $" (`" ++ util_path u ++ $"`" ++ sig ++ $")").

Definition render_utils (s : rstring) (us : list UtilRef) : rstring :=
  if is_empty us then s
  else fold_left render_util us
         (writeln s ([NL] ++ $"When possible, REUSE these existing utilities rather than re-implementing:")).

Definition render_feedback (s : rstring) (f : option RetryFeedback) : rstring :=
  match f with
  | Some f =>
      if is_empty (failed_criteria f) then s
      else writeln (writeln s ([NL] ++ $"Previous attempt failed acceptance criteria. Address these failures:"))
                   (render_retry_feedback f)
  | None => s
  end.

Definition render_system_message (spec : DelegationSpec) (f : option RetryFeedback) : rstring :=
  let s := writeln [] ($"You are MiniMax, executing a delegated task as part of the Codrex orchestrator (run_id="
                       ++ uuid_string (run_id spec) ++ $").") in
  let s := writeln s $"Respond with a complete answer to the intent below." in
  let s := render_forbidden s (forbidden_patterns spec) in
  let s := render_utils s (utility_refs spec) in
  let s := writeln s ([NL] ++ $"If you need disambiguation BEFORE attempting the task, prefix your response with `CLARIFY:` followed by ONE concrete question. Otherwise complete the task.") in
  render_feedback s f.

Definition build_request (mdl : rstring) (spec : DelegationSpec) (f : option RetryFeedback)
  : ChatCompletionRequest :=
  request_new mdl [system_message (render_system_message spec f); user_message (intent spec)].
End Prompt.

(** ** Dispatching *)
Class MinimaxApi (W : Type) := {
  env_get : W → rstring → option rstring;
  (** kind and key of the credentials stored for the provider *)
  stored_credentials : W → option (option rstring * rstring);
  (** the items of the stream, or the failure of the request *)
  chat_completion_stream : rstring → ResolvedAuth → ChatCompletionRequest → W →
    result (list (result Bridge.ChatCompletionChunk rstring)) rstring * W;
  dispatch_elapsed_ms : W → Z
}.

Definition NO_CREDENTIALS : rstring :=
  $"no credentials for provider 'minimax'. Run `codrex login minimax` or set MINIMAX_API_KEY (pay-as-you-go) / MINIMAX_CODING_PLAN_KEY (Coding Plan).".
Definition CLARIFY_PREFIX : rstring := $"CLARIFY:".

Section Sink.
Context {R : RegexCrate} {W : Type} `{MinimaxApi W} (uuid_string : Uuid → rstring) (mdl : rstring).
Context {Value : Type}.

Definition load_auth_from_file (w : W) : option ResolvedAuth :=
  match stored_credentials w with
  | None => None
  | Some (k, key) =>
      Some {| bearer_token := key;
              env_var := match k with
                         | Some k => if k =?s $"coding_plan" then MINIMAX_CODING_PLAN_KEY_ENV
                                     else MINIMAX_API_KEY_ENV
                         | None => MINIMAX_API_KEY_ENV
                         end |}
  end.

Definition resolve_auth (w : W) : result ResolvedAuth DispatchError :=
  match resolve_auth_with PreferCodingPlan (env_get w) with
  | Some a => Ok a
  | None =>
      match load_auth_from_file w with
      | Some a => Ok a
      | None => Err (Transport NO_CREDENTIALS)
      end
  end.

Abbreviation Ev := (Bridge.ResponseEvent Value).

(** Text deltas are appended, other events are skipped. *)
Definition push_delta (acc : rstring) (e : Ev) : rstring :=
  match e with Bridge.OutputTextDelta t => acc ++ t | _ => acc end.

(** The [while let] loop over the stream; [None] is a bridge out of fuel. *)
Fixpoint drain (new_v4 : rstring) (b : Bridge.ResponseEventBridge) (acc : rstring)
    (items : list (result Bridge.ChatCompletionChunk rstring))
  : option (result (Bridge.ResponseEventBridge * rstring) DispatchError) :=
  match items with
  | [] => Some (Ok (b, acc))
  | Err e :: _ => Some (Err (Transport e))
  | Ok c :: items' =>
      match Bridge.ingest (Value := Value) new_v4 b c with
      | None => None
      | Some (b', evs) => drain new_v4 b' (fold_left push_delta evs acc) items'
      end
  end.

(** The loop over the final events: text and the token count. *)
Definition final_event (at_ : rstring * option Z) (e : Ev) : rstring * option Z :=
  let '(acc, tokens) := at_ in
  match e with
  | Bridge.OutputTextDelta t => (acc ++ t, tokens)
  | Bridge.Completed _ u _ => (acc, (λ u, Z.max (History.total_tokens u) 0) <$> u)
  | _ => (acc, tokens)
  end.

Definition minimax_dispatch (new_v4 : rstring) (spec : DelegationSpec) (ctx : DelegationContext)
    (w : W) : option (result DispatchOutcome DispatchError) * W :=
  match resolve_auth w with
  | Err e => (Some (Err e), w)
  | Ok auth =>
      let base_url := resolve_base_url_with (env_get w) in
      let request := build_request uuid_string mdl spec (retry_feedback ctx) in
      let bridge := Bridge.with_telemetry (uuid_string (ctx_run_id ctx)) mdl in
      match chat_completion_stream base_url auth request w with
      | (Err e, w') => (Some (Err (Transport e)), w')
      | (Ok items, w') =>
          (match drain new_v4 bridge [] items with
           | None => None
           | Some (Err e) => Some (Err e)
           | Some (Ok (b, acc)) =>
               let '(text, tokens) := fold_left final_event (Bridge.finalize new_v4 b).1 (acc, None) in
               Some (match strip_prefix CLARIFY_PREFIX (trim_start text) with
                     | Some rest => Err (ClarificationRequested (trim rest))
                     | None => Ok {| response_text := text;
                                     outcome_latency_ms := dispatch_elapsed_ms w';
                                     total_tokens := tokens |}
                     end)
           end, w')
      end
  end.
End Sink.

(** ** Credentials and URL *)
Lemma drop_while_char_head c s : match drop_while_char c s with [] => True | a :: _ => a ≠ c end.
Proof. induction s as [|a s IH]; cbn; [done|]. destruct (a =? c)%Z eqn:E; [done|]. lia. Qed.

Lemma trim_end_matches_last c s t : trim_end_matches c s ≠ t ++ [c].
Proof.
  unfold trim_end_matches. intros E. pose proof (drop_while_char_head c (rev s)) as Hh.
  apply (f_equal (@rev Z)) in E. rewrite rev_involutive, rev_app_distr in E. by rewrite E in Hh.
Qed.

(** The base URL never ends with a slash, whatever the environment says, so
    that the path can be appended to it. *)
Lemma base_url_no_trailing_slash getter s : resolve_base_url_with getter ≠ s ++ [47%Z].
Proof. apply trim_end_matches_last. Qed.

Lemma not_blank_Some o v : not_blank o = Some v → o = Some v ∧ trim v ≠ [].
Proof.
  destruct o as [u|]; cbn; [|done]. destruct (trim u) eqn:E; cbn; [done|]. intros [= <-]. by rewrite E.
Qed.

Lemma resolve_auth_usable pref getter a :
  resolve_auth_with pref getter = Some a →
  getter (env_var a) = Some (bearer_token a) ∧ trim (bearer_token a) ≠ [].
Proof.
  unfold resolve_auth_with. intros Ha.
  destruct (not_blank (getter MINIMAX_API_KEY_ENV)) as [p|] eqn:E1,
    (not_blank (getter MINIMAX_CODING_PLAN_KEY_ENV)) as [c|] eqn:E2, pref;
    simplify_eq; cbn [env_var bearer_token]; by apply not_blank_Some.
Qed.

(** ** What a dispatch answers *)
Section Answers.
Context {R : RegexCrate} {W : Type} `{MinimaxApi W} (uuid_string : Uuid → rstring) (mdl : rstring).
Context {Value : Type}.
Abbreviation Ev := (Bridge.ResponseEvent Value).

Lemma push_deltas (evs : list Ev) acc :
  fold_left push_delta evs acc = acc ++ Bridge.visible_text evs.
Proof.
  revert acc. induction evs as [|e evs IH]; intros acc; cbn [fold_left]; [by rewrite app_nil_r|].
  rewrite IH. destruct e; cbn; rewrite <-?app_assoc; done.
Qed.

Lemma drain_ok new_v4 b acc cs :
  drain (Value := Value) new_v4 b acc (Ok <$> cs) =
  match Bridge.ingest_all (Value := Value) new_v4 b cs with
  | None => None
  | Some (b', evs) => Some (Ok (b', acc ++ Bridge.visible_text evs))
  end.
Proof.
  revert b acc. induction cs as [|c cs IH]; intros b acc; cbn [fmap list_fmap drain Bridge.ingest_all].
  { by rewrite app_nil_r. }
  destruct (Bridge.ingest new_v4 b c) as [[b1 e1]|]; [|done]. rewrite IH, push_deltas.
  destruct (Bridge.ingest_all new_v4 b1 cs) as [[b2 e2]|]; [|done].
  by rewrite Bridge.visible_text_app, app_assoc.
Qed.

Lemma final_events (evs : list Ev) acc t :
  (fold_left final_event evs (acc, t)).1 = acc ++ Bridge.visible_text evs.
Proof.
  revert acc t. induction evs as [|e evs IH]; intros acc t; cbn [fold_left]; [by rewrite app_nil_r|].
  destruct e; cbn [final_event]; rewrite IH; cbn; by rewrite <-?app_assoc.
Qed.

Lemma final_completed (evs : list Ev) acc t id u et :
  fold_left final_event (evs ++ [Bridge.Completed id u et]) (acc, t) =
  (acc ++ Bridge.visible_text evs, (λ u, Z.max (History.total_tokens u) 0) <$> u).
Proof.
  rewrite fold_left_app. pose proof (final_events evs acc t) as He.
  destruct (fold_left final_event evs (acc, t)). cbn in He |- *. by rewrite He.
Qed.

(** What the text of a whole response means to the orchestrator. *)
Definition answer (text : rstring) (latency : Z) (tokens : option Z)
  : result DispatchOutcome DispatchError :=
  match strip_prefix CLARIFY_PREFIX (trim_start text) with
  | Some rest => Err (ClarificationRequested (trim rest))
  | None => Ok {| response_text := text; outcome_latency_ms := latency; total_tokens := tokens |}
  end.

Definition reported_tokens (cs : list Bridge.ChatCompletionChunk) : option Z :=
  (λ u, Z.max (History.total_tokens (Bridge.map_usage u)) 0) <$> last (omap Bridge.usage cs).

Lemma drained_answer new_v4 run cs :
  ∃ b acc, drain (Value := Value) new_v4 (Bridge.with_telemetry run mdl) [] (Ok <$> cs) = Some (Ok (b, acc)) ∧
    fold_left final_event (Bridge.finalize (Value := Value) new_v4 b).1 (acc, None) =
    (Bridge.visible_chars (Think.channels false (concat (Bridge.stream_contents cs))),
     reported_tokens cs).
Proof.
  rewrite drain_ok.
  destruct (Bridge.ingest_all_advances (Value := Value) new_v4 cs (Bridge.with_telemetry run mdl))
    as (b & ev & Hi & _).
  pose proof (Bridge.ingest_all_usage new_v4 cs _ _ _ Hi) as Hu.
  pose proof (Bridge.bridge_text new_v4 run mdl cs (ev ++ (Bridge.finalize new_v4 b).1)) as Ht.
  unfold Bridge.stream_events in Ht. rewrite Hi in Ht |- *. specialize (Ht eq_refl).
  do 2 eexists. split; [reflexivity|].
  unfold Bridge.finalize in Ht |- *.
  pose proof (Bridge.emits_usage (Value := Value) new_v4 (Think.flush (Bridge.think_parser b)).2
    (Bridge.set_think b (Think.flush (Bridge.think_parser b)).1) []) as Hf.
  destruct (fold_left _ _ _) as [b' e2]. cbn [fst] in Hf, Ht |- *.
  rewrite !app_assoc, final_completed, Hf. f_equal.
  - rewrite <-Ht, !app_assoc, (Bridge.visible_text_app _ [_]), !Bridge.visible_text_app, !app_assoc. cbn.
    by rewrite app_nil_r.
  - cbn [Bridge.last_usage Bridge.set_think]. rewrite Hu. unfold reported_tokens.
    by destruct (last (omap Bridge.usage cs)).
Qed.

(** When the model's stream arrives whole, the answer of a dispatch is a
    function of the text the model sent: a request for clarification exactly
    when its visible part begins with the marker, and otherwise that visible
    part with the tokens last reported, however the stream was cut. *)
Theorem dispatch_answers_text new_v4 spec ctx w w' auth cs :
  resolve_auth w = Ok auth →
  chat_completion_stream (resolve_base_url_with (env_get w)) auth
    (build_request uuid_string mdl spec (retry_feedback ctx)) w = (Ok (Ok <$> cs), w') →
  minimax_dispatch (Value := Value) uuid_string mdl new_v4 spec ctx w =
  (Some (answer (Bridge.visible_chars (Think.channels false (concat (Bridge.stream_contents cs))))
           (dispatch_elapsed_ms w') (reported_tokens cs)), w').
Proof.
  intros Ha Hs. unfold minimax_dispatch. rewrite Ha, Hs.
  destruct (drained_answer new_v4 (uuid_string (ctx_run_id ctx)) cs) as (b & acc & -> & ->).
  done.
Qed.

(** A stream that breaks off is a transport error, whatever came before. *)
Lemma drain_broken new_v4 b acc cs e rest :
  drain (Value := Value) new_v4 b acc ((Ok <$> cs) ++ Err e :: rest) = Some (Err (Transport e)).
Proof.
  revert b acc. induction cs as [|c cs IH]; intros b acc; cbn; [done|].
  unfold Bridge.ingest.
  set (b0 := match Bridge.usage c with Some u => _ | None => _ end).
  destruct (Bridge.ingest_choices_advances (Value := Value) new_v4 (Bridge.choices c) b0 [])
    as (b1 & e1 & -> & _). apply IH.
Qed.

Lemma drain_total new_v4 b acc items : drain (Value := Value) new_v4 b acc items ≠ None.
Proof.
  revert b acc. induction items as [|[c|e] items IH]; intros b acc; cbn; [done| |done].
  unfold Bridge.ingest.
  set (b0 := match Bridge.usage c with Some u => _ | None => _ end).
  destruct (Bridge.ingest_choices_advances (Value := Value) new_v4 (Bridge.choices c) b0 [])
    as (b1 & e1 & -> & _). apply IH.
Qed.

(** A dispatch always answers. *)
Lemma minimax_dispatch_total new_v4 spec ctx w :
  (minimax_dispatch (Value := Value) uuid_string mdl new_v4 spec ctx w).1 ≠ None.
Proof.
  unfold minimax_dispatch. destruct (resolve_auth w) as [auth|]; [|done].
  destruct (chat_completion_stream _ _ _ w) as [[items|e] w']; [|done]. cbn.
  pose proof (drain_total new_v4 (Bridge.with_telemetry (uuid_string (ctx_run_id ctx)) mdl) [] items).
  destruct (drain _ _ _ items) as [[[b acc]|e]|]; [|done|done].
  by destruct (fold_left _ _ _) as [text tokens].
Qed.

(** The sink of the orchestrator.  The case without an answer does not occur,
    by [minimax_dispatch_total]. *)
Definition minimax_sink (new_v4 : rstring) : DispatchSink W := λ spec ctx w,
  match minimax_dispatch (Value := Value) uuid_string mdl new_v4 spec ctx w with
  | (Some r, w') => (r, w')
  | (None, w') => (Err (Transport []), w')
  end.
End Answers.

(** ** Example: a model that answers the demo stream *)
Definition demo_api : MinimaxApi nat := {|
  env_get := λ _ n, if n =?s MINIMAX_API_KEY_ENV then Some $"key" else None;
  stored_credentials := λ _, None;
  chat_completion_stream := λ _ _ _ w, (Ok (Ok <$> Bridge.demo_stream), S w);
  dispatch_elapsed_ms := λ _, 9%Z |}.
Definition demo_sink : DispatchSink (R := literal_regex) nat :=
  minimax_sink (R := literal_regex) (H := demo_api) (Value := unit) (λ _, $"run") $"m" $"id".

Lemma dispatch_answers_text_witness :
  minimax_dispatch (R := literal_regex) (H := demo_api) (Value := unit) (λ _, $"run") $"m" $"id"
    (demo_spec [] [] 2%Z) {| ctx_run_id := 7%Z; ctx_parent_run_id := None; attempt := 0%Z;
                           started_at := 0%Z; retry_feedback := None |} 0 =
  (Some (Ok {| response_text := $"ac"; outcome_latency_ms := 9%Z; total_tokens := None |}), 1).
Proof.
  etransitivity.
  - eapply (dispatch_answers_text (R := literal_regex) (H := demo_api) (Value := unit)
      (λ _, $"run") $"m" $"id" (demo_spec [] [] 2%Z) _ 0 1 _ Bridge.demo_stream).
    + vm_compute. reflexivity.
    + reflexivity.
  - vm_compute. reflexivity.
Defined.

End Dispatch.
