(* ===== verification/DecisionLog.v ===== *)
(** * DecisionLog: the append-only log of a delegation

    Models codex-rs/orchestrator/src/log.rs: the in-memory log of the tests and
    the file-backed JSONL log, with its guard for long payloads.

    [serde_json::to_string], the clock and the formats of chrono, and the calls
    that create the directory and append to the file are the class [LogHost]. *)

From S2P Require Import Prelude Delegation.
Import Json Delegation.

Module Log.

Definition SCHEMA_VERSION : Z := 1%Z.
Definition PAYLOAD_MAX_BYTES : nat := 3 * 1024.

(** ** The log in memory *)
Record RecordedEvent := {
  ev_run_id : Uuid;
  ev_parent_run_id : option Uuid;
  ev_attempt : Z;
  ev_stage : LogStage;
  ev_payload : Json
}.

Definition recorded (ctx : DelegationContext) (stage : LogStage) (payload : Json) : RecordedEvent :=
  {| ev_run_id := ctx_run_id ctx; ev_parent_run_id := ctx_parent_run_id ctx;
     ev_attempt := attempt ctx; ev_stage := stage; ev_payload := payload |}.

#[global] Instance in_memory_log : DecisionLog (list RecordedEvent) :=
  λ ctx stage payload events, events ++ [recorded ctx stage payload].

(** ** The log in files *)
Inductive IoErrorKind := AlreadyExists | OtherKind (k : Z).

Class LogHost (W : Type) := {
  to_json_string : Json → rstring;
  now_date : W → rstring;         (** the date, as YYYY-MM-DD *)
  now_rfc3339 : W → rstring;
  now_ms : W → Z;                 (** the monotonic clock *)
  uuid_text : Uuid → rstring;
  create_dir_all : rstring → W → result () IoErrorKind * W;
  (** open with create and append, then one [write_all] *)
  append_file : rstring → rstring → W → result () IoErrorKind * W
}.

Section Jsonl.
Context {W : Type} `{LogHost W}.
Variable dir : rstring.

Definition current_path (w : W) : rstring :=
  dir ++ $"/" ++ $"runs-" ++ now_date w ++ $".jsonl".

Definition write_line (line : rstring) (w : W) : result () IoErrorKind * W :=
  let '(r, w) := create_dir_all dir w in
  match r with
  | Err (OtherKind k) => (Err (OtherKind k), w)
  | _ => append_file (current_path w) (line ++ [NL]) w
  end.

Definition stage_name (s : LogStage) : rstring :=
  match s with
  | SClassify => $"classify"
  | SDispatchStart => $"dispatch_start"
  | SDispatchEnd => $"dispatch_end"
  | SAuditCriterion => $"audit.criterion"
  | SAudit => $"audit"
  | SDecision => $"decision"
  | SClarify => $"clarify"
  end.

(** The payload that is written; [None] is the panic of a slice that ends inside
    a char. *)
Definition guarded_payload (payload : Json) : option Json :=
  let text := to_json_string payload in
  if PAYLOAD_MAX_BYTES <? byte_len text
  then match split_at_byte (Nat.min 256 (byte_len text)) text with
       | None => None
       | Some (preview, _) =>
           Some (JObj [($"__truncated__", JBool true);
                       ($"original_len_bytes", JNum (Z.of_nat (byte_len text)));
                       ($"preview", JStr preview)])
       end
  else Some payload.

Definition log_row (ctx : DelegationContext) (stage : LogStage) (payload : Json) (w : W) : Json :=
  JObj ([($"v", JNum SCHEMA_VERSION); ($"ts", JStr (now_rfc3339 w));
         ($"run_id", JStr (uuid_text (ctx_run_id ctx)))]
        ++ match ctx_parent_run_id ctx with
           | Some p => [($"parent_run_id", JStr (uuid_text p))]
           | None => []
           end
        ++ [($"attempt", JNum (attempt ctx)); ($"stage", JStr (stage_name stage));
            ($"latency_ms", JNum (latency_ms (now_ms w) ctx)); ($"payload", payload)]).

(** [record]: a failure to write is only traced. *)
Definition jsonl_record (ctx : DelegationContext) (stage : LogStage) (payload : Json) (w : W)
  : option W :=
  match guarded_payload payload with
  | None => None
  | Some p => Some (write_line (to_json_string (log_row ctx stage p w)) w).2
  end.

(** A payload within the limit is written as it is; a longer one leaves a
    preview of at most 256 bytes and its length. *)
Lemma guarded_payload_short payload :
  byte_len (to_json_string payload) ≤ PAYLOAD_MAX_BYTES → guarded_payload payload = Some payload.
Proof. intros Hl. unfold guarded_payload. apply Nat.ltb_ge in Hl. by rewrite Hl. Qed.

Lemma split_at_byte_len n s a b : split_at_byte n s = Some (a, b) → s = a ++ b ∧ byte_len a = n.
Proof.
  revert n a. induction s as [|c s IH]; intros [|n] a; cbn [split_at_byte]; try (by intros [= <- <-]).
  destruct (utf8_len c <=? S n) eqn:E; [|done]. apply Nat.leb_le in E.
  destruct (split_at_byte (S n - utf8_len c) s) as [[x y]|] eqn:Es; [|done]. intros [= <- <-].
  apply IH in Es as [-> Hb]. split; [done|]. unfold byte_len in *. cbn. lia.
Qed.

(** A cut exists at the end of every prefix. *)
Lemma log_split_at_byte_app a b : split_at_byte (byte_len a) (a ++ b) = Some (a, b).
Proof.
  induction a as [|c a IH]; [by destruct b|]. unfold byte_len. cbn [sum_list_with app].
  fold (byte_len a). assert (0 < utf8_len c) by (unfold utf8_len; repeat case_match; lia).
  destruct (utf8_len c + byte_len a) eqn:E; [lia|]. cbn [split_at_byte].
  replace (utf8_len c <=? S n) with true by (symmetry; apply Nat.leb_le; lia).
  rewrite <-E. replace (utf8_len c + byte_len a - utf8_len c) with (byte_len a) by lia. by rewrite IH.
Qed.

(** Recording an event panics exactly when its serialised payload is longer
    than the limit and byte 256 of it falls inside a char; otherwise the event
    is recorded.  The interface says that logging never breaks a delegation. *)
Theorem record_panics_iff ctx stage payload w :
  jsonl_record ctx stage payload w = None ↔
  PAYLOAD_MAX_BYTES < byte_len (to_json_string payload) ∧
  ∀ a b, to_json_string payload = a ++ b → byte_len a ≠ 256.
Proof.
  unfold jsonl_record, guarded_payload. set (text := to_json_string payload).
  destruct (PAYLOAD_MAX_BYTES <? byte_len text) eqn:E.
  - apply Nat.ltb_lt in E. rewrite Nat.min_l by (unfold PAYLOAD_MAX_BYTES in E; lia).
    destruct (split_at_byte 256 text) as [[a b]|] eqn:Es.
    + split; [done|]. intros [_ Hx]. apply split_at_byte_len in Es as [Ht Hl]. by destruct (Hx a b).
    + split; [|done]. intros _. split; [done|]. intros a b Ht Hl.
      rewrite Ht, <-Hl, log_split_at_byte_app in Es. done.
  - apply Nat.ltb_ge in E. split; [done|]. intros [Hl _]. lia.
Qed.
End Jsonl.

(** A host that never fails, with a printer that quotes strings. *)
Definition demo_print (j : Json) : rstring :=
  match j with JStr s => [34%Z] ++ s ++ [34%Z] | _ => $"{}" end.
Definition demo_host : LogHost (list rstring) := {|
  to_json_string := demo_print;
  now_date := λ _, $"2026-04-27";
  now_rfc3339 := λ _, $"2026-04-27T16:30:00Z";
  now_ms := λ _, 0%Z;
  uuid_text := λ _, $"0";
  create_dir_all := λ _ w, (Ok (), w);
  append_file := λ _ line w, (Ok (), w ++ [line])
|}.
Definition demo_ctx : DelegationContext :=
  {| ctx_run_id := 1%Z; ctx_parent_run_id := None; attempt := 0%Z; started_at := 0%Z;
     retry_feedback := None |}.

(** An answer in a language whose letters take two bytes. *)
Example accented_payload_panics :
  jsonl_record (H := demo_host) $"runs" demo_ctx SAudit (JStr (replicate 2000 233%Z)) [] = None.
Proof. vm_compute. reflexivity. Qed.

Example plain_payload_recorded :
  jsonl_record (H := demo_host) $"runs" demo_ctx SAudit (JStr (replicate 4000 97%Z)) [] =
  Some [ $"{}" ++ [NL] ].
Proof. vm_compute. reflexivity. Qed.

End Log.
