(* ===== verification/Orchestrate.v ===== *)
(** * Orchestrate: the loop around a delegated turn

    Models codex-rs/orchestrator/src/runner.rs: dispatch, audit, retry with
    feedback up to the retry budget, drop when the same failure comes twice in a
    row, and a row in the log for every stage.

    The sink and the auditor act on an environment [E]; the log has a state [L]
    of its own, because the loop never reads it.  One round of the loop is
    [round]; the loop takes fuel, and one more than the retry budget is enough
    ([orchestration_returns]). *)

From S2P Require Import Prelude InlineTag ThinkParser Truncation OutputTruncation ResponseItems Normalize History EventBridge Delegation Auditor Dispatch DecisionLog.
Import Json Delegation.

Module Orchestrate.

Definition REPEATED_ERROR_LOOP_THRESHOLD : Z := 2%Z.
Definition CLARIFY_RATIONALE : rstring := $"model requested clarification before generating output".

Inductive OrchestrateOutcome :=
| OOk (response_text : rstring)
| OClarify (question : rstring)
| OEscalate (reason blocking_issue : rstring) (attempts_exhausted : option Z)
| ODrop (reason : rstring) (repeated_signature : option rstring).

Definition exit_code (o : OrchestrateOutcome) : Z :=
  match o with
  | OOk _ => 0
  | OClarify _ => 4
  | OEscalate _ _ _ => 2
  | ODrop _ _ => 3
  end%Z.

Definition clarify_decision_payload (question : rstring) : Json :=
  Json.insert $"rationale" (JStr CLARIFY_RATIONALE) (decision_to_json (DClarify question)).

Section Loop.
Context {R : RegexCrate} (Sha256 : list Z → list Z).
Context {E L : Type} {sink : DispatchSink E} {auditor : Auditor E} {log : DecisionLog L}.
Variables (spec : DelegationSpec) (mdl : rstring).

(** The variables of the loop. *)
Record LoopState := {
  ctx : DelegationContext;
  repeated_signature : option rstring;
  repeated_count : Z
}.

(** How a round ends: the next round, or the result of the function. *)
Inductive next := Again (st : LoopState) | Return (r : result OrchestrateOutcome rstring).

Definition log_criterion (c : DelegationContext) (l : L) (r : CriterionResult) : L :=
  record c SAuditCriterion
    (JObj [($"name", JStr (cr_name r)); ($"passed", JBool (passed r));
           ($"duration_ms", JNum (duration_ms r)); ($"details", cr_details r)]) l.

(** The arm for [AuditDecision::Retry]. *)
Definition on_retry (st : LoopState) (feedback : RetryFeedback) (next_att : Z) (l : L) : next * L :=
  let c := ctx st in
  let signature := error_signature_for_retry_feedback Sha256 feedback in
  let '(count, repeated) :=
    match signature with
    | Some current =>
        (if bool_decide (repeated_signature st = Some current)
         then u8_succ (repeated_count st) else 1%Z, Some current)
    | None => (0%Z, None)
    end in
  let can_loop_detect :=
    bool_decide (is_Some signature) && (REPEATED_ERROR_LOOP_THRESHOLD <=? count)%Z
    && (0 <? attempt c)%Z in
  if can_loop_detect then
    (Return (Ok (ODrop $"loop_detected" signature)),
     record c SDecision
       (JObj [($"verdict", JStr $"drop"); ($"reason", JStr $"loop_detected");
              ($"repeated_signature", Json.of_option JStr signature);
              ($"attempt", JNum next_att)]) l)
  else if (max_retries spec <=? attempt c)%Z then
    (Return (Ok (OEscalate $"max_retries_exhausted" $"retries exhausted"
                   (Some (u8_succ (attempt c))))),
     record c SDecision
       (JObj [($"verdict", JStr $"escalate"); ($"reason", JStr $"max_retries_exhausted");
              ($"attempts_exhausted", JNum (u8_succ (attempt c)))]) l)
  else
    (Again {| ctx := next_attempt_with_feedback c feedback; repeated_signature := repeated;
              repeated_count := count |},
     record c SDecision
       (JObj [($"verdict", JStr $"retry"); ($"reason", JStr $"criteria_failed");
              ($"next_attempt", JNum next_att);
              ($"signature", Json.of_option JStr signature)]) l).

(** What follows an audit. *)
Definition on_report (st : LoopState) (o : DispatchOutcome) (report : AuditReport) (l : L) : next * L :=
  let c := ctx st in
  let l := fold_left (log_criterion c) (criterion_results report) l in
  let l := record c SAudit (decision_to_json (decision report)) l in
  match decision report with
  | DOk _ =>
      (Return (Ok (OOk (response_text o))), record c SDecision (JObj [($"verdict", JStr $"ok")]) l)
  | DEscalate reason issue =>
      (Return (Ok (OEscalate reason issue None)),
       record c SDecision (JObj [($"verdict", JStr $"escalate"); ($"reason", JStr reason);
                                 ($"blocking_issue", JStr issue)]) l)
  | DClarify q =>
      (Return (Ok (OClarify q)), record c SDecision (clarify_decision_payload q) l)
  | DDrop reason =>
      (Return (Ok (ODrop reason None)),
       record c SDecision (JObj [($"verdict", JStr $"drop"); ($"reason", JStr reason)]) l)
  | DRetry feedback att => on_retry st feedback att l
  end.

(** One round: the body of the [loop]. *)
Definition round (st : LoopState) (e : E) (l : L) : next * E * L :=
  let c := ctx st in
  let l := record c SDispatchStart (JObj [($"provider", JStr $"minimax"); ($"model", JStr mdl)]) l in
  match dispatch spec c e with
  | (Err (ClarificationRequested q), e) =>
      let l := record c SClarify (JObj [($"question", JStr q); ($"handled", JBool false)]) l in
      (Return (Ok (OClarify q)), e, record c SDecision (clarify_decision_payload q) l)
  | (Err other, e) =>
      (Return (Err ($"dispatch failed: " ++ display_dispatch_error other)), e,
       record c SDispatchEnd (JObj [($"error", JStr (display_dispatch_error other))]) l)
  | (Ok o, e) =>
      let l := record c SDispatchEnd
        (JObj [($"latency_ms", JNum (outcome_latency_ms o));
               ($"total_tokens", Json.of_option JNum (total_tokens o));
               ($"response_len", JNum (Z.of_nat (byte_len (response_text o))))]) l in
      let '(report, e) := audit spec c o e in
      let '(n, l) := on_report st o report l in
      (n, e, l)
  end.

Fixpoint rounds (fuel : nat) (st : LoopState) (e : E) (l : L)
  : option (result OrchestrateOutcome rstring * E * L) :=
  match fuel with
  | O => None
  | S fuel' =>
      match round st e l with
      | (Return r, e, l) => Some (r, e, l)
      | (Again st, e, l) => rounds fuel' st e l
      end
  end.

(** [run_orchestration_loop]; [now] is the clock when the context is made. *)
Definition initial (now : Z) : LoopState :=
  {| ctx := for_top_level now spec; repeated_signature := None; repeated_count := 0 |}.
Definition run_orchestration_loop (now : Z) (e : E) (l : L)
  : option (result OrchestrateOutcome rstring * E * L) :=
  rounds (S (Z.to_nat (max_retries spec))) (initial now) e l.

(** ** An abstract description of a run

    Without counters and without the log: an attempt is a dispatch and, if it
    answers, an audit; the run ends with the first attempt that [verdict] says
    ends it. *)
Inductive observation :=
| Failed (err : DispatchError)
| Audited (o : DispatchOutcome) (report : AuditReport).

Definition attempt_once (c : DelegationContext) (e : E) : observation * E :=
  match dispatch spec c e with
  | (Err err, e) => (Failed err, e)
  | (Ok o, e) => let '(report, e) := audit spec c o e in (Audited o report, e)
  end.

(** What attempt number [i] decides, after a failure with signature [prev]. *)
Inductive verdict :=
| Ends (r : result OrchestrateOutcome rstring)
| Retries (f : RetryFeedback).

Definition verdict_of (i : Z) (prev : option rstring) (ob : observation) : verdict :=
  match ob with
  | Failed (ClarificationRequested q) => Ends (Ok (OClarify q))
  | Failed err => Ends (Err ($"dispatch failed: " ++ display_dispatch_error err))
  | Audited o report =>
      match decision report with
      | DOk _ => Ends (Ok (OOk (response_text o)))
      | DEscalate reason issue => Ends (Ok (OEscalate reason issue None))
      | DClarify q => Ends (Ok (OClarify q))
      | DDrop reason => Ends (Ok (ODrop reason None))
      | DRetry f _ =>
          let sig := error_signature_for_retry_feedback Sha256 f in
          if bool_decide (is_Some sig ∧ prev = sig) then Ends (Ok (ODrop $"loop_detected" sig))
          else if (max_retries spec <=? i)%Z
          then Ends (Ok (OEscalate $"max_retries_exhausted" $"retries exhausted" (Some (u8_succ i))))
          else Retries f
      end
  end.

Inductive run : DelegationContext → option rstring → E → list observation →
                result OrchestrateOutcome rstring → E → Prop :=
| run_ends c prev e ob e' r :
    attempt_once c e = (ob, e') → verdict_of (attempt c) prev ob = Ends r →
    run c prev e [ob] r e'
| run_retries c prev e ob e' f obs r e'' :
    attempt_once c e = (ob, e') → verdict_of (attempt c) prev ob = Retries f →
    run (next_attempt_with_feedback c f) (error_signature_for_retry_feedback Sha256 f) e' obs r e'' →
    run c prev e (ob :: obs) r e''.

(** The counters between two rounds: a signature is remembered with count one,
    and only after the first attempt. *)
Definition counters_ok (st : LoopState) : Prop :=
  (0 ≤ attempt (ctx st))%Z ∧
  ∀ s, repeated_signature st = Some s → repeated_count st = 1%Z ∧ (0 < attempt (ctx st))%Z.

Lemma round_verdict st e l :
  counters_ok st →
  ∃ l', round st e l =
    (match verdict_of (attempt (ctx st)) (repeated_signature st) (attempt_once (ctx st) e).1 with
     | Ends r => Return r
     | Retries f =>
         Again {| ctx := next_attempt_with_feedback (ctx st) f;
                  repeated_signature := error_signature_for_retry_feedback Sha256 f;
                  repeated_count :=
                    match error_signature_for_retry_feedback Sha256 f with
                    | Some _ => 1%Z | None => 0%Z
                    end |}
     end, (attempt_once (ctx st) e).2, l').
Proof.
  intros [H0 Hc]. unfold round, attempt_once. destruct (dispatch spec (ctx st) e) as [[o|err] e1].
  2: { destruct err; eexists; reflexivity. }
  destruct (audit spec (ctx st) o e1) as [report e2]. cbn [fst snd].
  unfold on_report, verdict_of. destruct (decision report) as [|f att| | |]; try (eexists; reflexivity).
  unfold on_retry, REPEATED_ERROR_LOOP_THRESHOLD.
  destruct (error_signature_for_retry_feedback Sha256 f) as [s|] eqn:Es; cbn [andb].
  - destruct (decide (repeated_signature st = Some s)) as [Hs|Hs].
    + destruct (Hc s Hs) as [Hone Hpos].
      rewrite !(bool_decide_eq_true_2 (repeated_signature st = Some s)) by done.
      rewrite (bool_decide_eq_true_2 (is_Some (Some s))) by done.
      rewrite (bool_decide_eq_true_2 (is_Some (Some s) ∧ _)) by done.
      rewrite Hone. replace (0 <? attempt (ctx st))%Z with true by lia. eexists. reflexivity.
    + rewrite (bool_decide_eq_false_2 (repeated_signature st = Some s)) by done.
      rewrite (bool_decide_eq_true_2 (is_Some (Some s))) by done.
      rewrite (bool_decide_eq_false_2 (is_Some (Some s) ∧ _)) by (by intros [_ ?]).
      cbn. destruct (max_retries spec <=? attempt (ctx st))%Z; rewrite ?Es; eexists; reflexivity.
  - rewrite (bool_decide_eq_false_2 (is_Some None)) by (by intros [? [=]]).
    rewrite (bool_decide_eq_false_2 (is_Some None ∧ _)) by (by intros [[? [=]] _]).
    cbn. destruct (max_retries spec <=? attempt (ctx st))%Z; rewrite ?Es; eexists; reflexivity.
Qed.

Lemma verdict_retries i prev ob f : verdict_of i prev ob = Retries f → (i < max_retries spec)%Z.
Proof.
  unfold verdict_of. destruct ob as [[]|o report]; try done.
  destruct (decision report); try done. case_bool_decide; [done|].
  destruct (max_retries spec <=? i)%Z eqn:Hi; [done|]. lia.
Qed.

Context (u8_retries : (0 ≤ max_retries spec ≤ 255)%Z).

Lemma rounds_run fuel st e l :
  counters_ok st → (attempt (ctx st) ≤ max_retries spec)%Z →
  (max_retries spec - attempt (ctx st) < Z.of_nat fuel)%Z →
  ∃ r e' l' obs, rounds fuel st e l = Some (r, e', l') ∧
    run (ctx st) (repeated_signature st) e obs r e' ∧
    (Z.of_nat (length obs) ≤ max_retries spec - attempt (ctx st) + 1)%Z.
Proof.
  revert st e l. induction fuel as [|fuel IH]; intros st e l Hok Ha Hf; [lia|].
  cbn [rounds]. destruct (round_verdict st e l Hok) as [l1 ->].
  destruct (attempt_once (ctx st) e) as [ob e1] eqn:Eo. cbn [fst snd].
  destruct (verdict_of _ _ ob) as [r|f] eqn:Ev.
  { exists r, e1, l1, [ob]. split; [done|]. split; [by eapply run_ends|]. cbn. lia. }
  pose proof (verdict_retries _ _ _ _ Ev) as Hlt. destruct Hok as [H0 _].
  assert (Hn : attempt (next_attempt_with_feedback (ctx st) f) = (attempt (ctx st) + 1)%Z)
    by (cbn; unfold u8_succ; lia).
  edestruct IH as (r & e2 & l2 & obs & Hr & Hrun & Hlen).
  4: { exists r, e2, l2, (ob :: obs). split; [exact Hr|]. split; [by eapply run_retries|].
       cbn [ctx] in Hlen. rewrite Hn in Hlen. cbn [length]. lia. }
  - split; cbn [ctx repeated_signature repeated_count]; rewrite Hn; [lia|].
    intros s ->. split; [done|lia].
  - cbn [ctx]. rewrite Hn. lia.
  - cbn [ctx]. rewrite Hn. lia.
Qed.

Lemma initial_ok now : counters_ok (initial now).
Proof. by split. Qed.

(** C12: for every sink, auditor and log, however they behave, the loop returns,
    after at most one dispatch more than the retry budget. *)
Theorem orchestration_returns now e l :
  ∃ r e' l' obs, run_orchestration_loop now e l = Some (r, e', l') ∧
    run (for_top_level now spec) None e obs r e' ∧
    (1 ≤ Z.of_nat (length obs) ≤ max_retries spec + 1)%Z.
Proof.
  destruct (rounds_run (S (Z.to_nat (max_retries spec))) (initial now) e l)
    as (r & e' & l' & obs & Hr & Hrun & Hl); [apply initial_ok|cbn; lia|cbn; lia|].
  exists r, e', l', obs. split; [done|]. split; [done|]. cbn in Hl.
  inversion Hrun; subst; cbn in *; lia.
Qed.

Lemma run_deterministic c prev e obs r e' obs2 r2 e2 :
  run c prev e obs r e' → run c prev e obs2 r2 e2 → obs2 = obs ∧ r2 = r ∧ e2 = e'.
Proof.
  intros H. revert obs2 r2 e2. induction H as [c prev e ob e1 r Ha Hv|c prev e ob e1 f obs r e' Ha Hv H IH];
    intros obs2 r2 e2 H2;
    inversion H2 as [? ? ? ob' e1' ? Ha' Hv'|? ? ? ob' e1' f' obs' ? ? Ha' Hv' H']; subst;
    rewrite Ha in Ha'; injection Ha' as <- <-; rewrite Hv in Hv'; try done.
  - by injection Hv' as ->.
  - injection Hv' as <-. by destruct (IH _ _ _ H') as (-> & -> & ->).
Qed.

(** C13: the loop with its counters refines the abstract run: it ends with the
    first attempt whose verdict ends it, and answers that verdict. *)
Theorem orchestration_refines_run now e l r e' :
  (∃ l', run_orchestration_loop now e l = Some (r, e', l')) ↔
  (∃ obs, run (for_top_level now spec) None e obs r e').
Proof.
  destruct (rounds_run (S (Z.to_nat (max_retries spec))) (initial now) e l)
    as (r1 & e1 & l1 & obs & Hr & Hrun & _); [apply initial_ok|cbn; lia|cbn; lia|].
  unfold run_orchestration_loop. rewrite Hr. split.
  - intros [l' [= <- <- <-]]. by exists obs.
  - intros [obs2 H2]. destruct (run_deterministic _ _ _ _ _ _ _ _ _ Hrun H2) as (_ & -> & ->). by exists l1.
Qed.

(** The last attempt of a run decides it. *)
Lemma run_last c prev e obs r e' :
  run c prev e obs r e' →
  ∃ c1 prev1 e1 ob, attempt_once c1 e1 = (ob, e') ∧ last obs = Some ob ∧
                    verdict_of (attempt c1) prev1 ob = Ends r.
Proof.
  induction 1 as [c prev e ob e1 r Ha Hv|c prev e ob e1 f obs r e' Ha Hv H IH]; [by eauto 10|].
  destruct IH as (c1 & p1 & e2 & ob1 & H1 & H2 & H3). exists c1, p1, e2, ob1.
  split; [done|]. split; [|done]. destruct obs; [done|]. by rewrite last_cons_cons.
Qed.

Lemma verdict_ok i prev ob text :
  verdict_of i prev ob = Ends (Ok (OOk text)) →
  ∃ o report rat, ob = Audited o report ∧ decision report = DOk rat ∧ response_text o = text.
Proof.
  destruct ob as [[]|o report]; cbn; try done.
  destruct (decision report) eqn:Hd; try done; [intros [= <-]; eauto 10|].
  case_bool_decide; [done|]. by destruct (max_retries spec <=? i)%Z.
Qed.

Lemma run_ok_audited c prev e obs text e' :
  run c prev e obs (Ok (OOk text)) e' →
  ∃ c1 e1 e2 o report rat,
    dispatch spec c1 e1 = (Ok o, e2) ∧ audit spec c1 o e2 = (report, e') ∧
    decision report = DOk rat ∧ response_text o = text.
Proof.
  intros (c1 & p1 & e1 & ob & Ha & _ & Hv)%run_last.
  apply verdict_ok in Hv as (o & report & rat & -> & Hd & Ht).
  unfold attempt_once in Ha. destruct (dispatch spec c1 e1) as [[o'|err] e2] eqn:Hdp; [|done].
  destruct (audit spec c1 o' e2) as [rep' e3] eqn:Hau. simplify_eq. eauto 10.
Qed.

(** An auditor that keeps failing an answer for the same reason stops the
    run at the second attempt, with the signature of the failure, however large
    the retry budget is. *)
Theorem repeated_failure_drops now e l sig :
  (1 ≤ max_retries spec)%Z →
  (∀ c e, ∃ o e1 report e2 f a,
     dispatch spec c e = (Ok o, e1) ∧ audit spec c o e1 = (report, e2) ∧
     decision report = DRetry f a ∧ error_signature_for_retry_feedback Sha256 f = Some sig) →
  ∃ e' l' ob1 ob2, run_orchestration_loop now e l = Some (Ok (ODrop $"loop_detected" (Some sig)), e', l') ∧
    run (for_top_level now spec) None e [ob1; ob2] (Ok (ODrop $"loop_detected" (Some sig))) e'.
Proof.
  intros Hm Hbad.
  assert (Hone : ∀ c e, ∃ o report e2 f a, attempt_once c e = (Audited o report, e2) ∧
    decision report = DRetry f a ∧ error_signature_for_retry_feedback Sha256 f = Some sig).
  { intros c e0. destruct (Hbad c e0) as (o & e1 & rep & e2 & f & a & H1 & H2 & H3 & H4).
    exists o, rep, e2, f, a. unfold attempt_once. by rewrite H1, H2. }
  destruct (Hone (for_top_level now spec) e) as (o1 & rep1 & e1 & f1 & a1 & A1 & D1 & S1).
  destruct (Hone (next_attempt_with_feedback (for_top_level now spec) f1) e1)
    as (o2 & rep2 & e2 & f2 & a2 & A2 & D2 & S2).
  assert (Hrun : run (for_top_level now spec) None e [Audited o1 rep1; Audited o2 rep2]
                   (Ok (ODrop $"loop_detected" (Some sig))) e2).
  { eapply run_retries; [exact A1| |eapply run_ends; [exact A2|]].
    - unfold verdict_of. rewrite D1, S1, bool_decide_eq_false_2 by (by intros [_ ?]).
      cbn [attempt for_top_level]. by replace (max_retries spec <=? 0)%Z with false by lia.
    - unfold verdict_of. rewrite D2, S1, S2, bool_decide_eq_true_2 by done. done. }
  destruct (rounds_run (S (Z.to_nat (max_retries spec))) (initial now) e l)
    as (r & e' & l' & obs & Hr & Hrun2 & _); [apply initial_ok|cbn; lia|cbn; lia|].
  destruct (run_deterministic _ _ _ _ _ _ _ _ _ Hrun Hrun2) as (-> & -> & ->).
  exists e2, l', (Audited o1 rep1), (Audited o2 rep2). by split.
Qed.
End Loop.

(** ** The rows of the log *)
Section Rows.
Context {R : RegexCrate} (Sha256 : list Z → list Z).
Context {E : Type} {sink : DispatchSink E} {auditor : Auditor E}.
Variables (spec : DelegationSpec) (mdl : rstring).
Context (u8_retries : (0 ≤ max_retries spec ≤ 255)%Z).

Abbreviation rows := (list Log.RecordedEvent).
Definition row_tag (r : Log.RecordedEvent) : Z * LogStage := (Log.ev_attempt r, Log.ev_stage r).

(** The rows of an attempt that was audited with [n] criteria evaluated. *)
Definition audited_rows (i : Z) (n : nat) : list (Z * LogStage) :=
  [(i, SDispatchStart); (i, SDispatchEnd)] ++ replicate n (i, SAuditCriterion)
  ++ [(i, SAudit); (i, SDecision)].

(** The rows of a run from attempt [i] on. *)
Inductive run_rows : Z → list (Z * LogStage) → result OrchestrateOutcome rstring → Prop :=
| rows_clarify i q :
    run_rows i [(i, SDispatchStart); (i, SClarify); (i, SDecision)] (Ok (OClarify q))
| rows_failed i m : run_rows i [(i, SDispatchStart); (i, SDispatchEnd)] (Err m)
| rows_decided i n out : run_rows i (audited_rows i n) (Ok out)
| rows_retry i n rest r :
    run_rows (i + 1) rest r → run_rows i (audited_rows i n ++ rest) r.

Lemma log_criteria_rows c results (l : rows) :
  row_tag <$> fold_left (log_criterion c) results l =
  (row_tag <$> l) ++ replicate (length results) (attempt c, SAuditCriterion).
Proof.
  revert l. induction results as [|r results IH]; intros l; cbn [fold_left]; [by rewrite app_nil_r|].
  rewrite IH. unfold log_criterion, record, Log.in_memory_log. rewrite fmap_app, <-app_assoc. done.
Qed.

Lemma on_report_rows st o report (l : rows) :
  row_tag <$> (on_report Sha256 spec st o report l).2 =
  (row_tag <$> l) ++ replicate (length (criterion_results report)) (attempt (ctx st), SAuditCriterion)
  ++ [(attempt (ctx st), SAudit); (attempt (ctx st), SDecision)].
Proof.
  assert (Hend : ∀ j j', row_tag <$> record (ctx st) SDecision j' (record (ctx st) SAudit j
      (fold_left (log_criterion (ctx st)) (criterion_results report) l)) =
    (row_tag <$> l) ++ replicate (length (criterion_results report)) (attempt (ctx st), SAuditCriterion)
    ++ [(attempt (ctx st), SAudit); (attempt (ctx st), SDecision)]).
  { intros j j'. unfold record, Log.in_memory_log. rewrite !fmap_app, log_criteria_rows, <-!app_assoc. done. }
  unfold on_report. destruct (decision report) as [|f a| | |]; cbn [snd]; try apply Hend.
  unfold on_retry. destruct (error_signature_for_retry_feedback Sha256 f);
    cbn zeta; repeat (case_match; simplify_eq; cbn [snd]); apply Hend.
Qed.

Lemma round_rows st e (l : rows) n e' l' :
  round Sha256 spec mdl st e l = (n, e', l') →
  ∃ ext, row_tag <$> l' = (row_tag <$> l) ++ ext ∧
  match n with
  | Return r => run_rows (attempt (ctx st)) ext r
  | Again _ => ∃ k, ext = audited_rows (attempt (ctx st)) k
  end.
Proof.
  unfold round. destruct (dispatch spec (ctx st) e) as [[o|err] e1].
  - destruct (audit spec (ctx st) o e1) as [report e2].
    set (l1 := record _ SDispatchEnd _ _). pose proof (on_report_rows st o report l1) as Hr.
    destruct (on_report Sha256 spec st o report l1) as [n1 l2] eqn:Hn. cbn in Hr.
    intros [= <- <- <-]. exists (audited_rows (attempt (ctx st)) (length (criterion_results report))).
    split.
    { rewrite Hr. subst l1. unfold record, Log.in_memory_log. rewrite !fmap_app, <-!app_assoc. done. }
    destruct n1 as [st'|r]; [by eexists|].
    assert (Hok : ∃ out, r = Ok out); [|destruct Hok as [out ->]; apply rows_decided].
    revert Hn. unfold on_report, on_retry. destruct (decision report); repeat case_match;
      intros [= <- _]; eauto.
  - destruct err; intros [= <- <- <-]; unfold record, Log.in_memory_log;
      eexists; rewrite !fmap_app, <-!app_assoc; (split; [reflexivity|]); constructor.
Qed.

(** A run that starts with an empty log leaves, for every attempt from 0 on,
    exactly the rows of its stages in their order, one decision per audited
    attempt and one for the run, whatever the outcome. *)
Theorem log_tells_the_run now e r e' l' :
  run_orchestration_loop Sha256 spec mdl now e [] = Some (r, e', l') →
  run_rows 0 (row_tag <$> l') r.
Proof.
  unfold run_orchestration_loop.
  assert (Hgen : ∀ fuel st e (l : rows), counters_ok st →
    rounds Sha256 spec mdl fuel st e l = Some (r, e', l') →
    ∃ ext, row_tag <$> l' = (row_tag <$> l) ++ ext ∧ run_rows (attempt (ctx st)) ext r).
  { clear e. intros fuel. induction fuel as [|fuel IH]; intros st e l Hok; cbn [rounds]; [done|].
    destruct (round Sha256 spec mdl st e l) as [[n e1] l1] eqn:Hr.
    destruct (round_rows _ _ _ _ _ _ Hr) as (x1 & Hx1 & Hn).
    destruct n as [st'|r']; [|intros [= <- <- <-]; by exists x1].
    destruct Hn as [k ->]. intros H.
    destruct (round_verdict Sha256 spec mdl st e l Hok) as [l2 Hv]. rewrite Hr in Hv.
    destruct (verdict_of _ _ _ _ _) as [|f] eqn:Ev; [done|].
    apply verdict_retries in Ev. destruct Hok as [H0 _].
    assert (Hn : attempt (ctx st') = (attempt (ctx st) + 1)%Z)
      by (injection Hv as -> _ _; cbn; unfold u8_succ; lia).
    destruct (IH st' e1 l1) as (x2 & Hx2 & Hrows); [|exact H|].
    { split; [lia|]. injection Hv as -> _ _. cbn. intros s ->. split; [done|]. unfold u8_succ. lia. }
    exists (audited_rows (attempt (ctx st)) k ++ x2). rewrite Hx2, Hx1, <-app_assoc. split; [done|].
    apply rows_retry. by rewrite <-Hn. }
  intros H. destruct (Hgen _ _ _ _ (initial_ok spec now) H) as (ext & Hl & Hrows). by rewrite Hl.
Qed.
End Rows.

(** ** The pipeline with the real auditor *)
Section Pipeline.
Context {R : RegexCrate} (Sha256 : list Z → list Z) {laws : RegexLaws R}.
Context {E L : Type} `{Audit.Processes E} {sink : DispatchSink E} {log : DecisionLog L}.
Variables (spec : DelegationSpec) (mdl : rstring) (display : Json → rstring).
Variable a : Audit.PatternAuditor.
Context (u8_retries : (0 ≤ max_retries spec ≤ 255)%Z).

(** With the pattern auditor, whatever the delegate model sends, the process
    exits with status zero only for an answer that the model gave and that meets
    every acceptance criterion of the spec; the tests and the scripts of the
    spec are the last thing that ran. *)
Theorem only_accepted_answers_succeed now e l out e' l' :
  run_orchestration_loop Sha256 (auditor := Audit.pattern_auditor display a) spec mdl now e l
    = Some (Ok out, e', l') →
  exit_code out = 0%Z →
  ∃ c e1 e2 o, dispatch spec c e1 = (Ok o, e2) ∧ out = OOk (response_text o) ∧
               Audit.accepted a spec o e2 e'.
Proof.
  intros Hrun Hx. destruct out as [text| | |]; try done.
  destruct (rounds_run Sha256 (auditor := Audit.pattern_auditor display a) spec mdl u8_retries
    (S (Z.to_nat (max_retries spec))) (initial spec now) e l)
    as (r & e1 & l1 & obs & Hr & Hobs & _); [apply initial_ok|cbn; lia|cbn; lia|].
  unfold run_orchestration_loop in Hrun. rewrite Hr in Hrun. injection Hrun as -> -> ->.
  apply run_ok_audited in Hobs as (c & e2 & e3 & o & rep & rat & Hd & Ha & Hdec & <-).
  exists c, e2, e3, o. split; [done|]. split; [done|].
  apply (proj1 (Audit.audit_ok_accepted display a spec c o e3 e')). by exists rep, rat.
Qed.
End Pipeline.

(** ** Examples *)
Definition demo_auditor : Auditor (R := literal_regex) nat :=
  Audit.pattern_auditor (R := literal_regex) (H := Audit.demo_processes)
    Audit.demo_display Audit.new_auditor.
Definition tests_spec : DelegationSpec (R := literal_regex) := demo_spec [TestsPass] [] 2%Z.
Definition failing_spec : DelegationSpec (R := literal_regex) :=
  demo_spec [OutputMatches (demo_regex $"zz")] [] 5%Z.
Abbreviation demo_run spec :=
  (run_orchestration_loop (R := literal_regex) demo_digest (sink := Dispatch.demo_sink)
    (auditor := demo_auditor) (log := Log.in_memory_log) spec $"m" 0%Z 0 []).

Example demo_accepts : ∃ l, demo_run (demo_spec [OutputMatches (demo_regex $"ac"); TestsPass] [] 2%Z) =
  Some (Ok (OOk $"ac"), 2, l).
Proof. eexists. vm_compute. reflexivity. Qed.

Lemma orchestration_returns_witness :
  ∃ r e' l' obs,
    demo_run tests_spec = Some (r, e', l') ∧
    run (R := literal_regex) demo_digest (sink := Dispatch.demo_sink)
      (auditor := demo_auditor)
      tests_spec (for_top_level (R := literal_regex) 0 tests_spec)
      None 0 obs r e' ∧ (1 ≤ Z.of_nat (length obs) ≤ max_retries tests_spec + 1)%Z.
Proof.
  exact (orchestration_returns (R := literal_regex) demo_digest (sink := Dispatch.demo_sink)
    (auditor := demo_auditor) (log := Log.in_memory_log) tests_spec $"m" ltac:(cbn; lia) 0%Z 0 []).
Defined.

Lemma orchestration_refines_run_witness :
  ∃ obs, run (R := literal_regex) demo_digest (sink := Dispatch.demo_sink)
      (auditor := demo_auditor)
      tests_spec (for_top_level (R := literal_regex) 0 tests_spec)
      None 0 obs (Ok (OOk $"ac")) 2.
Proof.
  apply (proj1 (orchestration_refines_run (R := literal_regex) demo_digest (sink := Dispatch.demo_sink)
    (auditor := demo_auditor) (log := Log.in_memory_log)
    tests_spec $"m"
    ltac:(cbn; lia) 0 0 [] (Ok (OOk $"ac")) 2)).
  eexists. vm_compute. reflexivity.
Defined.

Lemma failing_run_rows :
  ∃ r e l, demo_run failing_spec = Some (r, e, l) ∧
           row_tag <$> l = audited_rows 0 1 ++ audited_rows 1 1.
Proof. do 3 eexists. split; vm_compute; reflexivity. Qed.

Lemma log_tells_the_run_witness :
  ∃ r, run_rows 0 (audited_rows 0 1 ++ audited_rows 1 1) r.
Proof.
  destruct failing_run_rows as (r & e & l & Hr & Ht). exists r. rewrite <-Ht.
  refine (log_tells_the_run (R := literal_regex) demo_digest (sink := Dispatch.demo_sink)
    (auditor := demo_auditor) _ _ _ _ _ _ _ _ Hr). cbn. lia.
Defined.

(** An auditor that never has enough. *)
Definition stubborn_feedback : RetryFeedback := {| failed_criteria := [demo_failure $"x"] |}.
Definition stubborn_auditor : Auditor (R := literal_regex) nat := λ _ c _ w,
  ({| decision := DRetry stubborn_feedback (u8_succ (attempt c)); criterion_results := [] |}, w).
Definition silent_sink : DispatchSink (R := literal_regex) nat := λ _ _ w,
  (Ok (Audit.demo_outcome []), S w).

Lemma repeated_failure_drops_witness :
  ∃ sig e' l' ob1 ob2,
    run_orchestration_loop (R := literal_regex) demo_digest (sink := silent_sink)
      (auditor := stubborn_auditor) (log := Log.in_memory_log) (demo_spec [] [] 255%Z) $"m" 0 0 []
    = Some (Ok (ODrop $"loop_detected" (Some sig)), e', l') ∧
    run (R := literal_regex) demo_digest (sink := silent_sink) (auditor := stubborn_auditor)
      (demo_spec [] [] 255%Z) (for_top_level (R := literal_regex) 0 (demo_spec [] [] 255%Z)) None 0
      [ob1; ob2] (Ok (ODrop $"loop_detected" (Some sig))) e'.
Proof.
  exists (default [] (error_signature_for_retry_feedback (R := literal_regex) demo_digest stubborn_feedback)).
  apply (repeated_failure_drops (R := literal_regex) demo_digest (sink := silent_sink)
    (auditor := stubborn_auditor) (log := Log.in_memory_log) (demo_spec [] [] 255%Z) $"m").
  - cbn. lia.
  - cbn. lia.
  - intros c e. do 6 eexists. split; [reflexivity|]. split; [reflexivity|]. split; [reflexivity|].
    vm_compute. reflexivity.
Defined.

Lemma passing_run :
  ∃ l, run_orchestration_loop (R := literal_regex) demo_digest (sink := Dispatch.demo_sink)
    (auditor := Audit.pattern_auditor (R := literal_regex) (H := Audit.demo_processes)
                  Audit.demo_display Audit.new_auditor)
    (log := Log.in_memory_log) tests_spec $"m" 0%Z 0 [] = Some (Ok (OOk $"ac"), 2, l).
Proof. eexists. vm_compute. reflexivity. Qed.

Lemma only_accepted_answers_succeed_witness :
  ∃ c e1 e2 o, @dispatch literal_regex nat Dispatch.demo_sink tests_spec c e1 = (Ok o, e2) ∧
    OOk $"ac" = OOk (response_text o) ∧
    Audit.accepted (H := Audit.demo_processes) Audit.new_auditor tests_spec o e2 2.
Proof.
  destruct passing_run as [l Hr].
  refine (only_accepted_answers_succeed (R := literal_regex) demo_digest (laws := literal_laws)
    (H := Audit.demo_processes) (sink := Dispatch.demo_sink) tests_spec $"m"
    Audit.demo_display Audit.new_auditor _ _ _ _ _ _ _ Hr _).
  - cbn. lia.
  - reflexivity.
Defined.

End Orchestrate.
