(* ===== verification/Classifier.v ===== *)
(** * Classifier: which prompts are delegated

    Models codex-rs/orchestrator/src/classifier: the rules of
    delegation_rules.toml (mod.rs), evaluated in order, and the language-model
    fallback with its cache (llm.rs), with the errors of error.rs.

    The TOML and JSON parsers, f32, the file system, the LRU cache of the lru
    crate ([LruCrate], with its laws) and the client of the fallback model are
    parameters.  A timeout of the client is one of its results.  The text of the
    default rules is a parameter too: only its being written matters. *)

From S2P Require Import Prelude InlineTag ThinkParser Truncation OutputTruncation ResponseItems Normalize History EventBridge Delegation.
Import Delegation.

Module Classify.

(** ** Rules (mod.rs) *)
Definition SUPPORTED_RULES_VERSION : Z := 1%Z.
Definition DEFAULT_RULES_FILE_NAME : rstring := $"delegation_rules.toml".

Inductive RuleAction := ActDelegate | ActNoDelegate.
Record RawRule := { raw_name : rstring; raw_action : rstring; raw_patterns : list rstring }.
Record RawRulesFile := { version : Z; raw_rules : list RawRule }.

Section Rules.
Context {R : RegexCrate} {TomlError IoError : Type}.

Record Rule := { rule_name : rstring; action : RuleAction; patterns : list ValidatedRegex }.
Record RulesClassifier := { rules : list Rule }.

Inductive ClassifierError :=
| UnsupportedRulesVersion (found : Z)
| EmptyRuleName (index : nat)
| EmptyRulePatterns (name : rstring)
| UnsupportedRuleAction (name act : rstring)
| InvalidRulePattern (name : rstring) (index : nat) (e : RegexError)
| CreateRulesDir (path : rstring) (e : IoError)
| WriteRulesFile (path : rstring) (e : IoError)
| ReadRulesFile (path : rstring) (e : IoError)
| ParseRulesFile (path : rstring) (e : TomlError)
| ParseRulesToml (e : TomlError).

Definition RuleAction_from_str (name act : rstring) : result RuleAction ClassifierError :=
  if act =?s $"delegate" then Ok ActDelegate
  else if act =?s $"no_delegate" then Ok ActNoDelegate
  else Err (UnsupportedRuleAction name act).

Fixpoint compile_rule_patterns (name : rstring) (index : nat) (ps : list rstring)
  : result (list ValidatedRegex) ClassifierError :=
  match ps with
  | [] => Ok []
  | p :: ps' =>
      let? r := map_err (InvalidRulePattern name index) (ValidatedRegex_new p) in
      let? rs := compile_rule_patterns name (S index) ps' in
      Ok (r :: rs)
  end.

Definition Rule_from_raw (index : nat) (raw : RawRule) : result Rule ClassifierError :=
  let name := trim (raw_name raw) in
  if is_empty name then Err (EmptyRuleName index)
  else if is_empty (raw_patterns raw) then Err (EmptyRulePatterns name)
  else
    let? act := RuleAction_from_str name (raw_action raw) in
    let? ps := compile_rule_patterns name 0 (raw_patterns raw) in
    Ok {| rule_name := name; action := act; patterns := ps |}.

Fixpoint rules_from_raw (index : nat) (raws : list RawRule) : result (list Rule) ClassifierError :=
  match raws with
  | [] => Ok []
  | raw :: raws' =>
      let? r := Rule_from_raw index raw in
      let? rs := rules_from_raw (S index) raws' in
      Ok (r :: rs)
  end.

Definition from_raw (raw : RawRulesFile) : result RulesClassifier ClassifierError :=
  if negb (version raw =? SUPPORTED_RULES_VERSION)%Z
  then Err (UnsupportedRulesVersion (version raw))
  else let? rs := rules_from_raw 0 (raw_rules raw) in Ok {| rules := rs |}.

Definition rule_matches (r : Rule) (prompt : rstring) : bool :=
  existsb (λ p, regex_is_match (compiled p) prompt) (patterns r).

Section Classify.
(** A fresh run id and the time, when a spec is built. *)
Context {W : Type} (fresh : W → Uuid * SystemTime * W).

Definition quoted (before name after : rstring) : rstring :=
  before ++ $"'" ++ name ++ $"'" ++ after.

Definition NO_RULE_MATCHED : rstring := $"no rule matched (LLM fallback in commit 7)".

Definition apply_rule (r : Rule) (prompt : rstring) (w : W) : ClassificationOutcome * W :=
  match action r with
  | ActDelegate =>
      let '(id, now, w) := fresh w in
      (match new_bare id now prompt with
       | Ok spec => Delegate spec (quoted $"matched rule " (rule_name r) []) (Some (rule_name r))
       | Err _ => PassThrough (quoted $"matched rule " (rule_name r) $", but intent was invalid")
                              (Some (rule_name r))
       end, w)
  | ActNoDelegate =>
      (PassThrough (quoted $"matched rule " (rule_name r) []) (Some (rule_name r)), w)
  end.

Fixpoint classify_rules (rs : list Rule) (prompt : rstring) (w : W) : ClassificationOutcome * W :=
  match rs with
  | [] => (PassThrough NO_RULE_MATCHED None, w)
  | r :: rs' => if negb (rule_matches r prompt) then classify_rules rs' prompt w
                else apply_rule r prompt w
  end.

Definition rules_classifier (c : RulesClassifier) : Classifier W := classify_rules (rules c).
End Classify.

(** ** The rules file *)
Inductive OpenError := AlreadyExists | OpenFailed (e : IoError).
Class RulesFs (F : Type) := {
  create_dir_all : rstring → F → result () IoError * F;
  create_new : rstring → F → result () OpenError * F;
  write_flush : rstring → rstring → F → result () IoError * F;
  read_to_string : rstring → F → result rstring IoError
}.

Section Files.
Context {F : Type} `{RulesFs F} (toml : rstring → result RawRulesFile TomlError).
Variable DEFAULT_RULES_TOML : rstring.

Definition rules_path (home : rstring) : rstring := home ++ $"/" ++ DEFAULT_RULES_FILE_NAME.

Definition ship_defaults_if_missing (home : rstring) (f : F) : result bool ClassifierError * F :=
  match create_dir_all home f with
  | (Err e, f) => (Err (CreateRulesDir home e), f)
  | (Ok _, f) =>
      match create_new (rules_path home) f with
      | (Err AlreadyExists, f) => (Ok false, f)
      | (Err (OpenFailed e), f) => (Err (WriteRulesFile (rules_path home) e), f)
      | (Ok _, f) =>
          match write_flush (rules_path home) DEFAULT_RULES_TOML f with
          | (Err e, f) => (Err (WriteRulesFile (rules_path home) e), f)
          | (Ok _, f) => (Ok true, f)
          end
      end
  end.

Definition from_toml_str (text : rstring) : result RulesClassifier ClassifierError :=
  let? raw := map_err ParseRulesToml (toml text) in from_raw raw.

Definition from_default_path (home : rstring) (f : F) : result RulesClassifier ClassifierError * F :=
  match ship_defaults_if_missing home f with
  | (Err e, f) => (Err e, f)
  | (Ok _, f) =>
      (let? text := map_err (ReadRulesFile (rules_path home)) (read_to_string (rules_path home) f) in
       let? raw := map_err (ParseRulesFile (rules_path home)) (toml text) in
       from_raw raw, f)
  end.
End Files.
End Rules.
Arguments OpenError IoError : clear implicits.

(** ** The fallback (llm.rs) *)
Definition DEFAULT_LLM_FALLBACK_MODEL : rstring := $"gpt-5.4".
Definition NO_CREDENTIALS_DISABLED_REASON : rstring := $"llm fallback disabled (no credentials)".
Definition NO_OPENAI_CREDENTIALS_CONFIGURED : rstring := $"no openai credentials configured".

(** The cache of the lru crate, by what it holds. *)
Class LruCrate (V : Type) := {
  Cache : Type;
  cache_new : nat → Cache;                      (** of a capacity of at least one *)
  held : Cache → rstring → option V;
  cache_get : rstring → Cache → option V * Cache;
  cache_put : rstring → V → Cache → Cache
}.
Class LruLaws {V} (C : LruCrate V) := {
  held_new n k : held (cache_new n) k = None;
  get_held k c : (cache_get k c).1 = held c k;
  get_keeps k j c : held (cache_get k c).2 j = held c j;
  put_held k v c : held (cache_put k v c) k = Some v;
  put_others k v c j : j ≠ k → held (cache_put k v c) j = held c j ∨ held (cache_put k v c) j = None
}.

Section Fallback.
Context {R : RegexCrate} {F32 : Type}.

Record ClassificationTrace := {
  outcome : ClassificationOutcome;
  llm_model : option rstring;
  llm_confidence : option F32;
  llm_reasoning : option rstring;
  llm_error : option rstring;
  cache_hit : bool
}.

Record LlmFallbackConfig := {
  provider : rstring;
  model : rstring;
  timeout_ms : nat;
  cache_size : nat;
  enabled : bool
}.

Record LlmClassification := { should_delegate : bool; confidence : F32; reasoning : rstring }.

Inductive LlmError :=
| LlmTransport (m : rstring)
| InvalidJson (m : rstring)
| Auth (m : rstring)
| Provider (m : rstring).

Definition display_llm_error (e : LlmError) : rstring :=
  match e with
  | LlmTransport m => $"transport error: " ++ m
  | InvalidJson m => $"invalid JSON from llm fallback: " ++ m
  | Auth m => $"auth error: " ++ m
  | Provider m => $"provider error: " ++ m
  end.

(** [tokio::time::timeout] around the client: [None] is the timeout. *)
Class LlmClient (W : Type) := client_classify : rstring → W → option (result LlmClassification LlmError) * W.

Inductive DisabledKind := Unavailable | MissingCredentialsDisabled.
Record DisabledState := { dis_reason : rstring; dis_kind : DisabledKind }.

Definition disabled_unavailable (reason : rstring) : DisabledState :=
  {| dis_reason := reason;
     dis_kind := if reason =?s NO_OPENAI_CREDENTIALS_CONFIGURED then MissingCredentialsDisabled
                 else Unavailable |}.

Definition unavailable_trace (error : rstring) : ClassificationTrace :=
  {| outcome := PassThrough $"no rule matched + llm fallback unavailable" None; llm_model := None;
     llm_confidence := None; llm_reasoning := None; llm_error := Some error; cache_hit := false |}.

Definition disabled_trace_with_error (reason error : rstring) : ClassificationTrace :=
  {| outcome := PassThrough ($"no rule matched + " ++ reason) None; llm_model := None;
     llm_confidence := None; llm_reasoning := None; llm_error := Some error; cache_hit := false |}.

Definition into_trace (d : DisabledState) : ClassificationTrace :=
  match dis_kind d with
  | Unavailable => unavailable_trace (dis_reason d)
  | MissingCredentialsDisabled =>
      disabled_trace_with_error NO_CREDENTIALS_DISABLED_REASON (dis_reason d)
  end.

Section World.
Context {W : Type} (fresh : W → Uuid * SystemTime * W) {client : LlmClient W}.
Context {C : LruCrate bool}.

(** The classifier; a cached decision is whether to delegate. *)
Record LlmFallbackClassifier := {
  cache : Cache;
  config : LlmFallbackConfig;
  disabled_state : option DisabledState
}.

Definition new_fallback (cfg : LlmFallbackConfig) : LlmFallbackClassifier :=
  {| cache := cache_new (Nat.max 1 (cache_size cfg)); config := cfg; disabled_state := None |}.

Definition with_disabled_reason (f : LlmFallbackClassifier) (reason : rstring) : LlmFallbackClassifier :=
  {| cache := cache f; config := config f; disabled_state := Some (disabled_unavailable reason) |}.

Definition set_cache (f : LlmFallbackClassifier) (c : Cache) : LlmFallbackClassifier :=
  {| cache := c; config := config f; disabled_state := disabled_state f |}.

Definition classification_outcome_for_llm (intent : rstring) (delegate hit : bool) (w : W)
  : ClassificationOutcome * W :=
  let reason := if hit then $"llm fallback (cached)" else $"llm fallback" in
  if negb delegate then (PassThrough reason None, w)
  else
    let '(id, now, w) := fresh w in
    (match new_bare id now intent with
     | Ok spec => Delegate spec reason None
     | Err _ => PassThrough (reason ++ $", but intent was invalid") None
     end, w).

Definition llm_classify (f : LlmFallbackClassifier) (intent : rstring) (w : W)
  : ClassificationTrace * LlmFallbackClassifier * W :=
  if negb (enabled (config f)) then
    (into_trace (default (disabled_unavailable $"llm fallback disabled") (disabled_state f)), f, w)
  else
    let '(cached, c) := cache_get intent (cache f) in
    let f := set_cache f c in
    match cached with
    | Some d =>
        let '(o, w) := classification_outcome_for_llm intent d true w in
        ({| outcome := o; llm_model := Some (model (config f)); llm_confidence := None;
            llm_reasoning := None; llm_error := None; cache_hit := true |}, f, w)
    | None =>
        match client_classify intent w with
        | (Some (Ok cl), w) =>
            let f := set_cache f (cache_put intent (should_delegate cl) (cache f)) in
            let '(o, w) := classification_outcome_for_llm intent (should_delegate cl) false w in
            ({| outcome := o; llm_model := Some (model (config f));
                llm_confidence := Some (confidence cl); llm_reasoning := Some (reasoning cl);
                llm_error := None; cache_hit := false |}, f, w)
        | (Some (Err e), w) => (unavailable_trace (display_llm_error e), f, w)
        | (None, w) =>
            (unavailable_trace ($"llm fallback timed out after " ++ show_nat (timeout_ms (config f))
                                ++ $" ms"), f, w)
        end
    end.

Definition should_use_llm_fallback (o : ClassificationOutcome) : bool :=
  match o with
  | PassThrough reason None => contains $"no rule matched" reason
  | _ => false
  end.

Definition classify_with_fallback {rules : Classifier W} (f : LlmFallbackClassifier)
    (prompt : rstring) (w : W) : ClassificationTrace * LlmFallbackClassifier * W :=
  let '(o, w) := classify prompt w in
  if should_use_llm_fallback o then llm_classify f prompt w
  else ({| outcome := o; llm_model := None; llm_confidence := None; llm_reasoning := None;
           llm_error := None; cache_hit := false |}, f, w).
End World.

(** ** Reading the answer of the fallback model *)
Section Answer.
Context {Value : Type} (json : rstring → result LlmClassification rstring).
Variables (f32_le : F32 → F32 → bool) (f32_zero f32_one : F32) (is_finite : F32 → bool).

Definition parse_llm_classification (raw : rstring) : result LlmClassification LlmError :=
  let? parsed := map_err InvalidJson (json raw) in
  let c := confidence parsed in
  if negb (f32_le f32_zero c && f32_le c f32_one) || negb (is_finite c)
  then Err (InvalidJson $"confidence must be between 0.0 and 1.0")
  else Ok parsed.

Definition output_text (i : Items.ContentItem) : rstring :=
  match i with Items.MsgOutputText t => t | _ => [] end.

(** The loop over the events of the stream: deltas and the final message. *)
Fixpoint collect_llm (text final : rstring) (evs : list (result (Bridge.ResponseEvent Value) rstring))
  : result (rstring * rstring) LlmError :=
  match evs with
  | [] => Ok (text, final)
  | Err e :: _ => Err (LlmTransport e)
  | Ok (Bridge.OutputTextDelta d) :: evs' => collect_llm (text ++ d) final evs'
  | Ok (Bridge.OutputItemDone (Items.Message _ _ content _)) :: evs' =>
      collect_llm text (final ++ concat (output_text <$> content)) evs'
  | Ok _ :: evs' => collect_llm text final evs'
  end.

Definition read_llm_answer (evs : list (result (Bridge.ResponseEvent Value) rstring))
  : result LlmClassification LlmError :=
  let? collected := collect_llm [] [] evs in
  let '(text, final) := collected in
  parse_llm_classification (if is_empty (trim text) then final else text).
End Answer.
End Fallback.
Arguments LlmClient F32 W : clear implicits.
Arguments LlmClassification F32 : clear implicits.
Arguments ClassificationTrace {R} F32.

(** ** Rules are tried in order *)
Section RuleOrder.
Context {R : RegexCrate} {W : Type} (fresh : W → Uuid * SystemTime * W).

Definition no_match (prompt : rstring) (r : Rule) : Prop := rule_matches r prompt = false.

Lemma classify_rules_spec rs prompt w :
  (∃ l1 r l2, rs = l1 ++ r :: l2 ∧ Forall (no_match prompt) l1 ∧ rule_matches r prompt = true ∧
              classify_rules fresh rs prompt w = apply_rule fresh r prompt w) ∨
  (Forall (no_match prompt) rs ∧ classify_rules fresh rs prompt w = (PassThrough NO_RULE_MATCHED None, w)).
Proof.
  induction rs as [|r rs IH]; cbn [classify_rules]; [by right|].
  destruct (rule_matches r prompt) eqn:E; cbn [negb].
  - left. exists [], r, rs. done.
  - destruct IH as [(l1 & r' & l2 & -> & Hl & Hr & Hc)|[Hl Hc]]; rewrite Hc.
    + left. exists (r :: l1), r', l2. split; [done|]. split; [by constructor|done].
    + right. split; [by constructor|done].
Qed.

Lemma first_unique prompt l1 r l2 k1 r' k2 :
  l1 ++ r :: l2 = k1 ++ r' :: k2 → Forall (no_match prompt) l1 → Forall (no_match prompt) k1 →
  rule_matches r prompt = true → rule_matches r' prompt = true → r = r'.
Proof.
  unfold no_match. revert k1. induction l1 as [|x l1 IH]; intros [|y k1] He Hl Hk Hr Hr'; cbn in He.
  - congruence.
  - apply Forall_cons in Hk as [Hk _]. congruence.
  - apply Forall_cons in Hl as [Hl _]. congruence.
  - apply Forall_cons in Hl as [_ Hl]. apply Forall_cons in Hk as [_ Hk]. injection He as _ He. by eapply IH.
Qed.

(** A rule's answer always names the rule. *)
Lemma apply_rule_named r prompt w :
  match (apply_rule fresh r prompt w).1 with
  | Delegate spec _ n => n = Some (rule_name r) ∧ action r = ActDelegate ∧ intent spec = prompt
                         ∧ trim prompt ≠ []
  | PassThrough _ n => n = Some (rule_name r) ∧ (action r = ActNoDelegate ∨ trim prompt = [])
  end.
Proof.
  unfold apply_rule. destruct (action r); [|cbn; auto].
  destruct (fresh w) as [[id now] w']. unfold new_bare, validate. cbn [fst intent].
  destruct (trim prompt) eqn:E; cbn; [auto|done].
Qed.

(** A prompt is delegated exactly when the first rule that matches it says
    so and the prompt is not blank; the delegated intent is the prompt. *)
Theorem delegates_by_first_rule c prompt w :
  (∃ spec reason n, (rules_classifier fresh c prompt w).1 = Delegate spec reason n) ↔
  trim prompt ≠ [] ∧
  ∃ l1 r l2, rules c = l1 ++ r :: l2 ∧ Forall (no_match prompt) l1 ∧
             rule_matches r prompt = true ∧ action r = ActDelegate.
Proof.
  unfold rules_classifier.
  destruct (classify_rules_spec (rules c) prompt w) as [(l1 & r & l2 & He & Hl & Hr & ->)|[Hl ->]].
  - pose proof (apply_rule_named r prompt w) as Hn. split.
    + intros (spec & reason & n & Hd). rewrite Hd in Hn. destruct Hn as (_ & Ha & _ & Ht).
      split; [done|]. by exists l1, r, l2.
    + intros (Ht & k1 & r' & k2 & He' & Hk & Hr' & Ha').
      assert (r' = r) as ->.
      { rewrite He in He'. symmetry. by eapply first_unique. }
      destruct (apply_rule fresh r prompt w).1 as [spec reason n|reason n]; [eauto|].
      destruct Hn as (_ & [?|?]); congruence.
  - split; [by intros (? & ? & ? & ?)|]. intros (_ & l1 & r & l2 & He & _ & Hr & _).
    rewrite He, Forall_app, Forall_cons in Hl. unfold no_match in Hl. destruct Hl as (_ & ? & _). congruence.
Qed.
End RuleOrder.

(** ** The fallback *)
Section FallbackFacts.
Context {R : RegexCrate} {F32 W : Type} (fresh : W → Uuid * SystemTime * W) {client : LlmClient F32 W}.
Context {C : LruCrate bool} {laws : LruLaws C}.

(** The fallback model is consulted exactly when no rule matches the prompt;
    a rule's answer stands, whatever its name is, and leaves the fallback as it
    was. *)
Theorem fallback_only_without_rule c f prompt w :
  classify_with_fallback fresh (rules := rules_classifier fresh c) f prompt w =
  if existsb (λ r, rule_matches r prompt) (rules c)
  then let '(o, w') := rules_classifier fresh c prompt w in
       ({| outcome := o; llm_model := None; llm_confidence := None; llm_reasoning := None;
           llm_error := None; cache_hit := false |}, f, w')
  else llm_classify fresh f prompt w.
Proof.
  unfold classify_with_fallback, classify, rules_classifier.
  destruct (classify_rules_spec fresh (rules c) prompt w) as [(l1 & r & l2 & He & Hl & Hr & ->)|[Hl ->]].
  - replace (existsb _ (rules c)) with true.
    2: { symmetry. apply existsb_exists. exists r. split; [|done]. rewrite He. apply in_app_iff. right. by left. }
    pose proof (apply_rule_named fresh r prompt w) as Hn.
    destruct (apply_rule fresh r prompt w) as [o w']. cbn in Hn.
    destruct o as [spec reason n|reason n]; [done|]. by destruct Hn as [-> _].
  - replace (existsb _ (rules c)) with false; [done|].
    symmetry. apply not_true_iff_false. intros (r & Hin & Hr)%existsb_exists.
    rewrite Forall_forall in Hl. apply list_elem_of_In in Hin. apply Hl in Hin. unfold no_match in Hin. congruence.
Qed.

(** The answer of the client that a call stores, if it makes one. *)
Definition stored (f : LlmFallbackClassifier) (k : rstring) (w : W) : list (rstring * bool) :=
  if enabled (config f) then
    match held (cache f) k with
    | Some _ => []
    | None => match client_classify k w with
              | (Some (Ok cl), _) => [(k, should_delegate cl)]
              | _ => []
              end
    end
  else [].

(** A fallback reached from a new one by calls, with the answers its client
    gave. *)
Inductive reached : LlmFallbackClassifier → list (rstring * bool) → Prop :=
| reached_new cfg : reached (new_fallback cfg) []
| reached_call f answers k w tr f' w' :
    reached f answers → llm_classify fresh f k w = (tr, f', w') →
    reached f' (answers ++ stored f k w).

Definition last_answer (k : rstring) (answers : list (rstring * bool)) : option bool :=
  last (snd <$> filter (λ a, a.1 = k) answers).

Lemma last_answer_snoc k answers j d :
  last_answer k (answers ++ [(j, d)]) = if decide (j = k) then Some d else last_answer k answers.
Proof.
  unfold last_answer. rewrite filter_app, fmap_app. destruct (decide (j = k)) as [->|Hne].
  - rewrite filter_cons_True by done. apply last_snoc.
  - rewrite filter_cons_False by done. by rewrite filter_nil, app_nil_r.
Qed.

Lemma classify_cache f k w tr f' w' :
  llm_classify fresh f k w = (tr, f', w') →
  (stored f k w = [] ∧ ∀ j, held (cache f') j = held (cache f) j) ∨
  (∃ d, stored f k w = [(k, d)] ∧ held (cache f') k = Some d ∧
        ∀ j, j ≠ k → held (cache f') j = held (cache f) j ∨ held (cache f') j = None).
Proof.
  unfold llm_classify, stored. destruct (enabled (config f)); cbn [negb]; [|intros [= _ <- _]; by left].
  pose proof (get_held k (cache f)) as Hg. pose proof (get_keeps k) as Hk.
  specialize (λ j, Hk j (cache f)). destruct (cache_get k (cache f)) as [cached c']. cbn in Hg, Hk.
  rewrite <-Hg. destruct cached as [d|].
  { destruct (classification_outcome_for_llm fresh k d true w). intros [= _ <- _]. by left. }
  destruct (client_classify k w) as [[[cl|err]|] w1]; [|intros [= _ <- _]; by left..].
  destruct (classification_outcome_for_llm fresh k (should_delegate cl) false w1).
  intros [= _ <- _]. right. exists (should_delegate cl). cbn. split; [done|]. split; [apply put_held|].
  intros j Hj. rewrite <-Hk. by apply put_others.
Qed.

Lemma reached_coherent f answers k d :
  reached f answers → held (cache f) k = Some d → last_answer k answers = Some d.
Proof.
  intros H. revert k d. induction H as [cfg|f answers j w tr f' w' H IH Hc]; intros k d Hh.
  { cbn in Hh. by rewrite held_new in Hh. }
  destruct (classify_cache _ _ _ _ _ _ Hc) as [[-> Hs]|(d' & -> & Hput & Hs)].
  - rewrite app_nil_r. apply IH. by rewrite <-Hs.
  - rewrite last_answer_snoc. destruct (decide (j = k)) as [->|Hne]; [congruence|].
    destruct (Hs k) as [He|He]; [congruence| |congruence]. apply IH. by rewrite <-He.
Qed.

(** An answer from the cache is the one the fallback model last gave for the
    same intent: failures and timeouts are never cached, and eviction only
    forgets. *)
Theorem cache_repeats_last_answer f answers k w tr f' w' :
  reached f answers → llm_classify fresh f k w = (tr, f', w') → cache_hit tr = true →
  ∃ d, last_answer k answers = Some d ∧
       (outcome tr, w') = classification_outcome_for_llm fresh k d true w ∧ stored f k w = [].
Proof.
  intros Hr Hc Hhit. unfold llm_classify, stored in *.
  destruct (enabled (config f)); cbn [negb] in Hc.
  2: { injection Hc as <- _ _. unfold into_trace in Hhit. destruct (dis_kind _); discriminate Hhit. }
  pose proof (get_held k (cache f)) as Hg. destruct (cache_get k (cache f)) as [cached c']. cbn in Hg.
  destruct cached as [d|].
  - exists d. split; [by eapply reached_coherent|]. rewrite <-Hg.
    destruct (classification_outcome_for_llm fresh k d true w) as [o w1]. by simplify_eq.
  - destruct (client_classify k w) as [[[cl|err]|] w1]; [|by injection Hc as <- _ _..].
    destruct (classification_outcome_for_llm fresh k (should_delegate cl) false w1).
    by injection Hc as <- _ _.
Qed.

(** A failing fallback passes the prompt through. *)
Lemma fallback_failure_passes f k w tr f' w' :
  llm_classify fresh f k w = (tr, f', w') → is_Some (llm_error tr) →
  (∃ reason, outcome tr = PassThrough reason None) ∧ ∀ j, held (cache f') j = held (cache f) j.
Proof.
  intros Hc He. pose proof (get_keeps k) as Hk. specialize (λ j, Hk j (cache f)).
  unfold llm_classify in Hc. destruct (enabled (config f)); cbn [negb] in Hc.
  2: { injection Hc as <- <- _. split; [|done]. unfold into_trace. destruct (dis_kind _); by eexists. }
  destruct (cache_get k (cache f)) as [[d|] c']; cbn in Hk.
  - destruct (classification_outcome_for_llm fresh k d true w). injection Hc as <- _ _. by destruct He.
  - destruct (client_classify k w) as [[[cl|err]|] w1].
    + destruct (classification_outcome_for_llm fresh k (should_delegate cl) false w1).
      injection Hc as <- _ _. by destruct He.
    + injection Hc as <- <- _. split; [by eexists|exact Hk].
    + injection Hc as <- <- _. split; [by eexists|exact Hk].
Qed.
End FallbackFacts.

(** ** An LRU cache: the most recently used entry first *)
Definition Lru := (nat * list (rstring * bool))%type.

Fixpoint lru_held (l : list (rstring * bool)) (k : rstring) : option bool :=
  match l with
  | [] => None
  | (j, d) :: l' => if j =?s k then Some d else lru_held l' k
  end.
Definition lru_without (k : rstring) (l : list (rstring * bool)) : list (rstring * bool) :=
  filter (λ e, e.1 ≠ k) l.
Definition lru_get (k : rstring) (c : Lru) : option bool * Lru :=
  match lru_held c.2 k with
  | Some d => (Some d, (c.1, (k, d) :: lru_without k c.2))
  | None => (None, c)
  end.
Definition lru_put (k : rstring) (d : bool) (c : Lru) : Lru :=
  (c.1, take (Nat.max 1 c.1) ((k, d) :: lru_without k c.2)).

Definition list_lru : LruCrate bool := {|
  Cache := Lru; cache_new := λ n, (n, []); held := λ c, lru_held c.2;
  cache_get := lru_get; cache_put := lru_put |}.

Lemma lru_held_without k l j : j ≠ k → lru_held (lru_without k l) j = lru_held l j.
Proof.
  intros Hne. unfold lru_without. induction l as [|[i d] l IH]; [done|]. rewrite filter_cons. cbn [fst].
  destruct (decide (i ≠ k)) as [H|H]; cbn [lru_held]; [by rewrite IH|].
  apply dec_stable in H. subst i. by rewrite str_eqb_neq by done.
Qed.

Lemma lru_held_take n l k : lru_held (take n l) k = lru_held l k ∨ lru_held (take n l) k = None.
Proof.
  revert n. induction l as [|[j d] l IH]; intros [|n]; cbn; auto. destruct (j =?s k); auto.
Qed.

Lemma list_lru_laws : LruLaws list_lru.
Proof.
  split; cbn.
  - done.
  - intros k c. unfold lru_get. by destruct (lru_held c.2 k).
  - intros k j c. unfold lru_get. destruct (lru_held c.2 k) as [d|] eqn:E; [|done]. cbn.
    destruct (k =?s j) eqn:Ej; [apply str_eqb_eq in Ej as ->; by rewrite E|].
    apply lru_held_without. intros ->. by rewrite str_eqb_refl in Ej.
  - intros k v c. destruct (Nat.max 1 c.1) as [|n] eqn:E; [lia|]. cbn. by rewrite str_eqb_refl.
  - intros k v c j Hne.
    destruct (lru_held_take (Nat.max 1 c.1) ((k, v) :: lru_without k c.2) j) as [H|H]; [left|by right].
    rewrite H. cbn. rewrite str_eqb_neq by congruence. by apply lru_held_without.
Qed.

(** ** Example: the second time, the cache answers *)
Definition demo_fresh (w : nat) : Uuid * SystemTime * nat := (Z.of_nat w, 0%Z, S w).
Definition demo_client : LlmClient Z nat := λ _ w,
  (Some (Ok {| should_delegate := true; confidence := 1%Z; reasoning := [] |}), S w).
Definition demo_config : LlmFallbackConfig :=
  {| provider := $"openai"; model := DEFAULT_LLM_FALLBACK_MODEL; timeout_ms := 100; cache_size := 2;
     enabled := true |}.
Definition demo_first :=
  llm_classify (R := literal_regex) (client := demo_client) (C := list_lru) demo_fresh
    (new_fallback (C := list_lru) demo_config) $"port it" 0.

Lemma demo_second_hit :
  ∃ tr f' w', llm_classify (R := literal_regex) (client := demo_client) (C := list_lru) demo_fresh
    demo_first.1.2 $"port it" 2 = (tr, f', w') ∧ cache_hit tr = true.
Proof.
  destruct (llm_classify (R := literal_regex) (client := demo_client) (C := list_lru) demo_fresh
    demo_first.1.2 $"port it" 2) as [[tr f'] w'] eqn:E.
  exists tr, f', w'. split; [done|]. change (cache_hit (tr, f', w').1.1 = true). rewrite <-E.
  vm_compute. reflexivity.
Qed.

Lemma cache_repeats_last_answer_witness :
  ∃ d, last_answer $"port it" [($"port it", true)] = Some d ∧
       stored (client := demo_client) (C := list_lru) demo_first.1.2 $"port it" 2 = [].
Proof.
  destruct demo_second_hit as (tr & f' & w' & E & Hhit).
  destruct (cache_repeats_last_answer (R := literal_regex) (client := demo_client) (C := list_lru)
    (laws := list_lru_laws) demo_fresh demo_first.1.2 [($"port it", true)] $"port it" 2 tr f' w')
    as (d & Hd & _ & Hs).
  - eapply (reached_call (R := literal_regex) (client := demo_client) (C := list_lru) demo_fresh
      (new_fallback (C := list_lru) demo_config) [] $"port it" 0); [constructor|reflexivity].
  - exact E.
  - exact Hhit.
  - by exists d.
Defined.

End Classify.
