(* ===== verification/SensitiveOutput.v ===== *)
(** * SensitiveOutput: what commands, patches and outputs may not show

    Models codex-rs/core/src/sensitive_output.rs: which paths are sensitive,
    which commands would show one, and the redaction of output; with
    codex-rs/secrets/src/sanitizer.rs and the extraction of a PowerShell script
    (codex-rs/shell-command/src/powershell.rs, parse_command.rs).

    The regex crates, shlex and the tree-sitter grammar are parameters, and so is
    the full Unicode [str::to_lowercase].  The recursion into shell wrappers
    counts down from the depth limit of the code. *)

From S2P Require Import Prelude AbsPath ShellScript Delegation.

Module Sensitive.

Definition REDACTED_SECRET_PLACEHOLDER : rstring := $"[REDACTED_SECRET]".
Definition DQ : rstring := [34%Z].

(** ** Standard library *)

(** [str::split_whitespace]. *)
Fixpoint words_go (cur s : rstring) : list rstring :=
  match s with
  | [] => if is_empty cur then [] else [cur]
  | c :: s' =>
      if is_whitespace c
      then (if is_empty cur then [] else [cur]) ++ words_go [] s'
      else words_go (cur ++ [c]) s'
  end.
Definition split_whitespace (s : rstring) : list rstring := words_go [] s.

(** [str::trim_matches]. *)
Fixpoint drop_chars (f : char → bool) (s : rstring) : rstring :=
  match s with
  | [] => []
  | c :: s' => if f c then drop_chars f s' else s
  end.
Definition trim_matches (f : char → bool) (s : rstring) : rstring :=
  rev (drop_chars f (rev (drop_chars f s))).

Definition find_map {A B} (f : A → option B) (l : list A) : option B := head (omap f l).

(** ** Paths *)
Section Paths.
(** [str::to_lowercase]. *)
Variable to_lowercase : rstring → rstring.

Definition is_sensitive_component_name (c : rstring) : bool :=
  str_in c [ $".git"; $"target"; $"node_modules"; $"vendor" ]
  || (c =?s $".env")
  || starts_with $".env." c
  || (c =?s $"auth.json")
  || contains $"credentials" c
  || (c =?s $"id_rsa")
  || (c =?s $"id_ed25519")
  || ends_with $".pem" c
  || ends_with $".key" c
  || contains $"private_key" c
  || contains $"private-key" c.

Definition is_sensitive_path (p : rstring) : bool :=
  existsb (λ c, match c with
                | Path.Normal v => is_sensitive_component_name (to_lowercase v)
                | _ => false
                end) (Path.components p).

Definition unify_separators (p : rstring) : rstring := replace_chars [92%Z] $"/" p.

(** The loop over the components of an absolute path. *)
Fixpoint sensitive_suffix (capturing : bool) (cs : list Path.Component) : list rstring :=
  match cs with
  | [] => []
  | Path.Normal v :: cs' =>
      if capturing || is_sensitive_component_name (to_lowercase v)
      then v :: sensitive_suffix true cs' else sensitive_suffix capturing cs'
  | Path.CurDir :: cs' =>
      if capturing then $"." :: sensitive_suffix capturing cs' else sensitive_suffix capturing cs'
  | Path.ParentDir :: cs' =>
      if capturing then $".." :: sensitive_suffix capturing cs' else sensitive_suffix capturing cs'
  | _ :: cs' => sensitive_suffix capturing cs'
  end.

Definition sensitive_path_display (p : rstring) : option rstring :=
  if negb (is_sensitive_path p) then None
  else if negb (Path.is_absolute p) then Some (unify_separators p)
  else
    let suffix := sensitive_suffix false (Path.components p) in
    Some (if is_empty suffix then unify_separators p else join $"/" suffix).

Definition first_sensitive_path (paths : list rstring) : option rstring :=
  find_map sensitive_path_display paths.

(** ** Commands *)
Definition is_shell_punctuation (c : char) : bool :=
  existsb (Z.eqb c) [34; 39; 40; 41; 91; 93; 123; 125; 59; 44; 124; 38; 60; 62]%Z.
Definition trim_shell_punctuation (token : rstring) : rstring := trim_matches is_shell_punctuation token.

Definition suffix_candidate (sep : char) (trimmed : rstring) : list rstring :=
  match rsplit_once sep trimmed with
  | Some (_, suffix) => if is_empty suffix then [] else [trim_shell_punctuation suffix]
  | None => []
  end.

Definition token_path_candidates (token : rstring) : list rstring :=
  let trimmed := trim_shell_punctuation token in
  if is_empty trimmed then []
  else suffix_candidate 58 trimmed ++ suffix_candidate 61 trimmed ++ [trimmed].

Definition sensitive_path_in_tokens (tokens : list rstring) : option rstring :=
  find_map sensitive_path_display (tokens ≫= token_path_candidates).

Section Commands.
Variable shlex_split : rstring → option (list rstring).
Variable try_parse_shell : rstring → option Shell.tree.

Definition POWERSHELL_FLAGS : list rstring := [ $"-nologo"; $"-noprofile"; $"-command"; $"-c" ].

(** The [while] loop of [extract_powershell_command] on the arguments. *)
Fixpoint powershell_script (args : list rstring) : option rstring :=
  match args with
  | flag :: ((script :: _) as args') =>
      if negb (str_in (to_ascii_lowercase flag) POWERSHELL_FLAGS) then None
      else if eq_ignore_ascii_case flag $"-Command" || eq_ignore_ascii_case flag $"-c" then Some script
      else powershell_script args'
  | _ => None
  end.

Definition extract_powershell_command (command : list rstring) : option (rstring * rstring) :=
  match command with
  | shell :: ((_ :: _ :: _) as args) =>
      match Shell.detect_shell_type shell with
      | Some Shell.PowerShell => pair shell <$> powershell_script args
      | _ => None
      end
  | _ => None
  end.

Definition extract_shell_command (command : list rstring) : option (rstring * rstring) :=
  match Shell.extract_bash_command command with
  | Some x => Some x
  | None => extract_powershell_command command
  end.

Definition tokenize_shell_script (script : rstring) : option (list rstring) :=
  match shlex_split script with
  | Some ts => Some ts
  | None => let ts := split_whitespace script in if is_empty ts then None else Some ts
  end.

Definition MAX_SHELL_WRAPPER_DEPTH : nat := 4.

(** [left] is the depth limit less the depth. *)
Fixpoint sensitive_path_below (left : nat) (command : list rstring) : option rstring :=
  match sensitive_path_in_tokens command with
  | Some p => Some p
  | None =>
      match left with
      | O => None
      | S left' =>
          match match Shell.parse_shell_lc_plain_commands try_parse_shell command with
                | Some inner => find_map (sensitive_path_below left') inner
                | None => None
                end with
          | Some p => Some p
          | None =>
              match extract_shell_command command with
              | Some (_, script) =>
                  match tokenize_shell_script script with
                  | Some tokens => sensitive_path_below left' tokens
                  | None => None
                  end
              | None => None
              end
          end
      end
  end.
Definition sensitive_path_in_command (command : list rstring) : option rstring :=
  sensitive_path_below MAX_SHELL_WRAPPER_DEPTH command.

Record SensitiveCommandBlock := { block_path : rstring; block_message : rstring }.

Definition sensitive_command_block_message (path : rstring) : rstring :=
  $"blocked: command would expose sensitive file contents (" ++ path
  ++ $"). Use non-sensitive context or ask the user.".
Definition sensitive_patch_block_message (path : rstring) : rstring :=
  $"blocked: patch modifies sensitive path " ++ path ++ $".".

Definition block_for (path : rstring) : SensitiveCommandBlock :=
  {| block_path := path; block_message := sensitive_command_block_message path |}.

Definition sensitive_command_block (command : list rstring) : option SensitiveCommandBlock :=
  block_for <$> sensitive_path_in_command command.

Definition sensitive_command_block_from_text (command : rstring) : option SensitiveCommandBlock :=
  tokens ← tokenize_shell_script command; block_for <$> sensitive_path_in_command tokens.
End Commands.

(** ** Redaction of diffs *)
Record SanitizedOutput := { text : rstring; changed : bool }.

Definition DIFF_HEADER : rstring := $"diff --git ".

Definition strip_diff_side (trimmed : rstring) : rstring :=
  match strip_prefix $"a/" trimmed with
  | Some r => r
  | None => match strip_prefix $"b/" trimmed with Some r => r | None => trimmed end
  end.

Definition diff_path_token_to_display_path (token : rstring) : option rstring :=
  let trimmed := strip_diff_side (trim_matches (Z.eqb 34) token) in
  if is_empty trimmed then None else Some (unify_separators trimmed).

Definition sensitive_diff_block_path (line : rstring) : option rstring :=
  if negb (starts_with DIFF_HEADER line) then None
  else match split_whitespace line with
       | _ :: _ :: lhs :: rhs :: _ =>
           head (List.filter is_sensitive_path (omap diff_path_token_to_display_path [lhs; rhs]))
       | _ => None
       end.

(** The inner [while let]: lines up to the next header are consumed. *)
Fixpoint skip_block (lines : list rstring) : list rstring :=
  match lines with
  | [] => []
  | l :: lines' => if starts_with DIFF_HEADER l then lines else skip_block lines'
  end.

Definition diff_marker (path : rstring) : rstring :=
  $"[REDACTED_SENSITIVE_FILE_DIFF path=" ++ DQ ++ path ++ DQ ++ $"]".

(** The outer loop; each round consumes a line, so their number is fuel
    enough. *)
Fixpoint redact_lines (fuel : nat) (lines : list rstring) (output : rstring) (ch : bool)
  : SanitizedOutput :=
  match fuel, lines with
  | S fuel', line :: rest =>
      match sensitive_diff_block_path line with
      | Some path =>
          let output := output ++ diff_marker path in
          let output := if ends_with [NL] line || negb (is_empty rest) then output ++ [NL] else output in
          redact_lines fuel' (skip_block rest) output true
      | None => redact_lines fuel' rest (output ++ line) ch
      end
  | _, _ => {| text := output; changed := ch |}
  end.

Definition redact_sensitive_diff_blocks (input : rstring) : SanitizedOutput :=
  let lines := split_inclusive NL input in
  redact_lines (length lines) lines [] false.

(** ** Redaction of secrets *)
Section Secrets.
Context {R : RegexCrate}.

(** secrets/src/sanitizer.rs *)
Definition redact_secrets (input : rstring) : rstring :=
  let r := regex_replace_all (regex_lit $"sk-[A-Za-z0-9]{20,}") input $"[REDACTED_SECRET]" in
  let r := regex_replace_all (regex_lit $"\bAKIA[0-9A-Z]{16}\b") r $"[REDACTED_SECRET]" in
  let r := regex_replace_all (regex_lit $"(?i)\bBearer\s+[A-Za-z0-9._\-]{16,}\b") r
             $"Bearer [REDACTED_SECRET]" in
  regex_replace_all
    (regex_lit ($"(?i)\b(api[_-]?key|token|secret|password)\b(\s*[:=]\s*)([" ++ DQ ++ $"']?)[^\s"
                ++ DQ ++ $"']{8,}")) r
    $"$1$2$3[REDACTED_SECRET]".

Definition redaction_patterns : list (Regex * rstring) :=
  [ (regex_lit ($"\b(OPENAI_API_KEY|MINIMAX_API_KEY|MINIMAX_CODING_PLAN_KEY)\s*=\s*[^\s" ++ DQ ++ $"']+"),
     $"$1=[REDACTED_SECRET]");
    (regex_lit $"(Authorization:\s*Bearer\s+)[A-Za-z0-9._-]+", $"${1}[REDACTED_SECRET]");
    (regex_lit ($"(\b(?:api[_-]?key|token|secret|password)\b\s*[:=]\s*)(?:" ++ DQ ++ $"[^" ++ DQ
                ++ $"]+" ++ DQ ++ $"|'[^']+'|[^\s" ++ DQ ++ $"']+)"),
     $"${1}[REDACTED_SECRET]");
    (regex_lit $"\bsk-[A-Za-z0-9_-]{8,}\b", REDACTED_SECRET_PLACEHOLDER) ].

Definition apply_pattern (acc : rstring * bool) (pr : Regex * rstring) : rstring * bool :=
  let '(updated, ch) := acc in
  let next := regex_replace_all pr.1 updated pr.2 in
  if bool_decide (next ≠ updated) then (next, true) else (updated, ch).

Definition redact_secret_patterns (input : rstring) : SanitizedOutput :=
  let updated := redact_secrets input in
  let '(t, ch) := fold_left apply_pattern redaction_patterns
                    (updated, bool_decide (updated ≠ input)) in
  {| text := t; changed := ch |}.

Definition sanitize_output_text (input : rstring) : SanitizedOutput :=
  let diff_redacted := redact_sensitive_diff_blocks input in
  let secret_redacted := redact_secret_patterns (text diff_redacted) in
  {| text := text secret_redacted; changed := changed diff_redacted || changed secret_redacted |}.
End Secrets.

(** ** Which commands are blocked *)
Section Exposure.
Variable shlex_split : rstring → option (list rstring).
Variable try_parse_shell : rstring → option Shell.tree.

(** A command shows a sensitive path if a token of it names one, or a command
    inside it does, at most [n] shell wrappers deep. *)
Inductive exposes : nat → list rstring → Prop :=
| exposes_token n cmd tok p :
    tok ∈ cmd → p ∈ token_path_candidates tok → is_sensitive_path p = true → exposes n cmd
| exposes_plain n cmd inner c :
    Shell.parse_shell_lc_plain_commands try_parse_shell cmd = Some inner → c ∈ inner →
    exposes n c → exposes (S n) cmd
| exposes_script n cmd shell script tokens :
    extract_shell_command cmd = Some (shell, script) →
    tokenize_shell_script shlex_split script = Some tokens →
    exposes n tokens → exposes (S n) cmd.

Lemma find_map_Some {A B} (f : A → option B) l : is_Some (find_map f l) ↔ ∃ x, x ∈ l ∧ is_Some (f x).
Proof.
  unfold find_map. induction l as [|a l IH]; cbn [omap list_omap].
  { split; [by intros [? [=]]|set_solver]. }
  destruct (f a) as [b|] eqn:E.
  - split; [intros _; exists a; set_solver|done].
  - rewrite IH. split; intros (x & Hx & Hs); exists x; split; try done; [set_solver|].
    apply elem_of_cons in Hx as [->|Hx]; [rewrite E in Hs; by destruct Hs|done].
Qed.

Lemma display_Some p : is_Some (sensitive_path_display p) ↔ is_sensitive_path p = true.
Proof.
  unfold sensitive_path_display. destruct (is_sensitive_path p); cbn [negb]; [|split; [by intros [? [=]]|done]].
  destruct (Path.is_absolute p); cbn; split; eauto.
Qed.

Lemma tokens_Some cmd :
  is_Some (sensitive_path_in_tokens cmd) ↔
  ∃ tok p, tok ∈ cmd ∧ p ∈ token_path_candidates tok ∧ is_sensitive_path p = true.
Proof.
  unfold sensitive_path_in_tokens. rewrite find_map_Some. setoid_rewrite display_Some.
  setoid_rewrite list_elem_of_bind. naive_solver.
Qed.

Lemma below_exposes n cmd :
  is_Some (sensitive_path_below shlex_split try_parse_shell n cmd) ↔ exposes n cmd.
Proof.
  revert cmd. induction n as [|n IH]; intros cmd; cbn [sensitive_path_below];
    pose proof (tokens_Some cmd) as Ht; destruct (sensitive_path_in_tokens cmd) as [p|].
  1, 3: split; [|eauto]; intros _; destruct Ht as [Ht _]; destruct (Ht ltac:(eauto)) as (t & q & ? & ? & ?);
        by eapply exposes_token.
  - split; [by intros [? [=]]|]. inversion 1; subst. apply Ht. eauto.
  - set (m := match Shell.parse_shell_lc_plain_commands try_parse_shell cmd with Some _ => _ | None => None end).
    assert (Hm : is_Some m ↔ ∃ inner c, Shell.parse_shell_lc_plain_commands try_parse_shell cmd = Some inner
                                     ∧ c ∈ inner ∧ exposes n c).
    { subst m. destruct (Shell.parse_shell_lc_plain_commands try_parse_shell cmd) as [inner|].
      - rewrite find_map_Some. setoid_rewrite IH. naive_solver.
      - split; [by intros [? [=]]|naive_solver]. }
    destruct m as [p|].
    { split; [|eauto]. intros _. destruct (proj1 Hm ltac:(eauto)) as (inner & c & ? & ? & ?).
      by eapply exposes_plain. }
    split.
    + destruct (extract_shell_command cmd) as [[sh script]|] eqn:Ex; [|by intros [? [=]]].
      destruct (tokenize_shell_script shlex_split script) eqn:Et; [|by intros [? [=]]].
      rewrite IH. by eapply exposes_script.
    + inversion 1; subst.
      * destruct (proj2 Ht) as [? [=]]. eauto.
      * destruct (proj2 Hm) as [? [=]]. eauto.
      * repeat match goal with H : _ = Some _ |- _ => rewrite H end. by apply IH.
Qed.

(** C31: a command is blocked exactly when it, or a command inside up to four
    shell wrappers, has a token that names a sensitive path. *)
Theorem blocks_exactly_exposing_commands cmd :
  is_Some (sensitive_command_block shlex_split try_parse_shell cmd) ↔
  exposes MAX_SHELL_WRAPPER_DEPTH cmd.
Proof. unfold sensitive_command_block. rewrite fmap_is_Some. apply below_exposes. Qed.
End Exposure.

(** ** What redaction leaves *)

(** One pass over the lines: a header of a sensitive file becomes a marker and
    hides the lines up to the next header. *)
Fixpoint visible_lines (hidden : bool) (lines : list rstring) : list rstring :=
  match lines with
  | [] => []
  | l :: rest =>
      if starts_with DIFF_HEADER l then
        match sensitive_diff_block_path l with
        | Some p => (diff_marker p ++ if ends_with [NL] l then [NL] else []) :: visible_lines true rest
        | None => l :: visible_lines false rest
        end
      else if hidden then visible_lines true rest else l :: visible_lines false rest
  end.

(** Lines as [split_inclusive] cuts them. *)
Definition full_line (l : rstring) : Prop := ∃ x, l = x ++ [NL] ∧ NL ∉ x.
Fixpoint lines_ok (ls : list rstring) : Prop :=
  match ls with
  | [] => True
  | [l] => full_line l ∨ (l ≠ [] ∧ NL ∉ l)
  | l :: rest => full_line l ∧ lines_ok rest
  end.

Lemma lines_ok_cons l rest :
  lines_ok (l :: rest) ↔ (full_line l ∧ lines_ok rest) ∨ (rest = [] ∧ l ≠ [] ∧ NL ∉ l).
Proof. destruct rest; cbn; naive_solver. Qed.

Lemma full_line_ends l : full_line l → ends_with [NL] l = true.
Proof. intros (x & -> & _). apply ends_with_true. by exists x. Qed.

Lemma split_lines_ok s : lines_ok (split_inclusive NL s).
Proof.
  induction s as [|c s IH]; [done|]. cbn [split_inclusive]. destruct (c =? NL)%Z eqn:E.
  - apply Z.eqb_eq in E as ->. apply lines_ok_cons. left. split; [|done]. exists []. split; [done|set_solver].
  - apply Z.eqb_neq in E. destruct (split_inclusive NL s) as [|l ls].
    + apply lines_ok_cons. right. set_solver.
    + apply lines_ok_cons in IH. apply lines_ok_cons. destruct IH as [[(x & -> & Hx) Hr]|(-> & Hl & Hn)].
      * left. split; [|done]. exists (c :: x). split; [done|]. set_solver.
      * right. split; [done|]. split; [done|]. set_solver.
Qed.

Lemma lines_ok_split ls : lines_ok ls → split_inclusive NL (concat ls) = ls.
Proof.
  induction ls as [|l ls IH]; [done|].
  intros [[(x & -> & Hx) Hr]|(-> & Hl & Hn)]%lines_ok_cons; cbn [concat].
  - rewrite <-app_assoc. cbn [app]. rewrite split_inclusive_line by done. by rewrite IH.
  - rewrite app_nil_r. by apply split_inclusive_last.
Qed.

Lemma visible_skip lines : visible_lines true lines = visible_lines false (skip_block lines).
Proof.
  induction lines as [|l lines IH]; [done|]. cbn [visible_lines skip_block].
  destruct (starts_with DIFF_HEADER l) eqn:E; [|done]. cbn [visible_lines]. by rewrite E.
Qed.

Lemma skip_block_length lines : length (skip_block lines) ≤ length lines.
Proof. induction lines as [|l lines IH]; cbn; [done|]. destruct (starts_with _ l); cbn; lia. Qed.

Lemma skip_block_ok lines : lines_ok lines → lines_ok (skip_block lines).
Proof.
  induction lines as [|l lines IH]; [done|]. cbn [skip_block]. destruct (starts_with _ l); [done|].
  intros [[_ H]|(-> & _)]%lines_ok_cons; [by apply IH|done].
Qed.

Lemma header_of_sensitive l p : sensitive_diff_block_path l = Some p → starts_with DIFF_HEADER l = true.
Proof. unfold sensitive_diff_block_path. by destruct (starts_with DIFF_HEADER l). Qed.

Lemma redact_lines_text fuel lines out ch :
  length lines ≤ fuel → lines_ok lines →
  text (redact_lines fuel lines out ch) = out ++ concat (visible_lines false lines).
Proof.
  revert lines out ch. induction fuel as [|fuel IH]; intros [|l rest] out ch Hf Hok;
    cbn [redact_lines length] in *; try (cbn; by rewrite app_nil_r); [lia|].
  cbn [visible_lines].
  assert (Hrest : lines_ok rest) by (apply lines_ok_cons in Hok as [[_ ?]|(-> & _)]; done).
  destruct (sensitive_diff_block_path l) as [p|] eqn:Es.
  - rewrite (header_of_sensitive _ _ Es), IH, <-visible_skip by
      (try apply skip_block_ok; try done; pose proof (skip_block_length rest); lia).
    replace (ends_with [NL] l || negb (is_empty rest)) with (ends_with [NL] l).
    + cbn [concat]. destruct (ends_with [NL] l); rewrite <-!app_assoc; cbn; rewrite ?app_nil_r; done.
    + apply lines_ok_cons in Hok as [[Hl _]|(-> & _)]; [by rewrite (full_line_ends _ Hl)|].
      by rewrite orb_false_r.
  - rewrite IH by (done || lia). destruct (starts_with DIFF_HEADER l); cbn [concat]; by rewrite app_assoc.
Qed.

(** The path of a marker is a word of the line. *)
Lemma words_no_ws cur s w c :
  Forall (λ c, is_whitespace c = false) cur → w ∈ words_go cur s → c ∈ w → is_whitespace c = false.
Proof.
  revert cur. induction s as [|a s IH]; intros cur Hc; cbn [words_go].
  - destruct cur as [|x cur]; cbn; [set_solver|]. rewrite list_elem_of_singleton. intros ->.
    rewrite Forall_forall in Hc. auto.
  - destruct (is_whitespace a) eqn:E; [|apply IH, Forall_app; split; [done|by apply Forall_singleton]].
    rewrite elem_of_app. intros [Hw|Hw]; [|revert Hw; by apply IH].
    destruct cur as [|x cur]; cbn in Hw; [set_solver|]. apply list_elem_of_singleton in Hw as ->.
    rewrite Forall_forall in Hc. auto.
Qed.

Lemma drop_chars_sub f s c : c ∈ drop_chars f s → c ∈ s.
Proof. induction s as [|a s IH]; cbn; [done|]. destruct (f a); set_solver. Qed.

Lemma elem_rev (c : char) s : c ∈ rev s ↔ c ∈ s.
Proof. rewrite !list_elem_of_In. symmetry. apply in_rev. Qed.

Lemma trim_matches_sub f s c : c ∈ trim_matches f s → c ∈ s.
Proof.
  unfold trim_matches. rewrite elem_rev. intros H%drop_chars_sub. rewrite elem_rev in H.
  by eapply drop_chars_sub.
Qed.

Lemma strip_prefix_sub p s r c : strip_prefix p s = Some r → c ∈ r → c ∈ s.
Proof. intros ->%strip_prefix_Some. set_solver. Qed.

Lemma unify_no_nl p : NL ∉ p → NL ∉ unify_separators p.
Proof.
  unfold unify_separators, replace_chars. induction p as [|c p IH]; [done|].
  intros Hp. cbn [fmap list_fmap concat]. rewrite elem_of_app. intros [H|H]; [|apply IH; set_solver].
  destruct (existsb (Z.eqb c) [92%Z]); [|set_solver].
  apply list_elem_of_singleton in H. discriminate H.
Qed.

Lemma block_path_no_nl l p : sensitive_diff_block_path l = Some p → NL ∉ p.
Proof.
  unfold sensitive_diff_block_path. destruct (negb (starts_with DIFF_HEADER l)); [done|].
  destruct (split_whitespace l) as [|w1 [|w2 [|lhs [|rhs ws]]]] eqn:Ew; try done.
  intros Hp%head_Some_elem_of%list_elem_of_In%filter_In%proj1%list_elem_of_In.
  apply list_elem_of_omap in Hp as (tok & Ht & Hd).
  assert (Hn : NL ∉ tok).
  { intros Hin. assert (Hw : is_whitespace NL = false); [|done].
    apply (words_no_ws [] l tok NL); [done| |done]. unfold split_whitespace in Ew. rewrite Ew.
    apply elem_of_cons in Ht as [->|Ht]; [set_solver|]. apply list_elem_of_singleton in Ht as ->. set_solver. }
  unfold diff_path_token_to_display_path in Hd. destruct (is_empty _); [done|]. injection Hd as <-.
  apply unify_no_nl. intros Hin. apply Hn, (trim_matches_sub (Z.eqb 34)).
  unfold strip_diff_side in Hin. destruct (strip_prefix $"a/" _) as [r|] eqn:Ea; [by eapply strip_prefix_sub|].
  destruct (strip_prefix $"b/" _) as [r|] eqn:Eb; [by eapply strip_prefix_sub|done].
Qed.

Lemma marker_no_nl p : NL ∉ p → NL ∉ diff_marker p.
Proof.
  unfold diff_marker, DQ. rewrite !elem_of_app. intros Hp [H|[H|[H|[H|H]]]]; try done;
    match type of H with ?P => pose proof (bool_decide_eq_true_2 P H) as Hb end; vm_compute in Hb; discriminate Hb.
Qed.

(** A line that redaction lets through or puts there. *)
Lemma marker_not_header p x : sensitive_diff_block_path (diff_marker p ++ x) = None.
Proof. reflexivity. Qed.

Lemma visible_ok hidden lines : lines_ok lines → lines_ok (visible_lines hidden lines).
Proof.
  revert hidden. induction lines as [|l lines IH]; intros hidden; [done|].
  intros Hok. assert (Hrest : lines_ok lines) by (apply lines_ok_cons in Hok as [[_ ?]|(-> & _)]; done).
  cbn [visible_lines].
  assert (Hkeep : ∀ h, lines_ok (l :: visible_lines h lines)).
  { intros h. apply lines_ok_cons. apply lines_ok_cons in Hok as [[? _]|(-> & ?)]; [left|right]; auto. }
  destruct (starts_with DIFF_HEADER l); [|destruct hidden; auto].
  destruct (sensitive_diff_block_path l) as [p|] eqn:Es; [|auto].
  pose proof (marker_no_nl _ (block_path_no_nl _ _ Es)) as Hm. apply lines_ok_cons.
  apply lines_ok_cons in Hok as [[Hl _]|(-> & Hne & Hn)].
  - left. rewrite (full_line_ends _ Hl). split; [by exists (diff_marker p)|by apply IH].
  - right. replace (ends_with [NL] l) with false; [by rewrite app_nil_r|].
    symmetry. apply not_true_iff_false. intros [r ->]%ends_with_true. set_solver.
Qed.

Lemma visible_no_header hidden lines :
  Forall (λ l, sensitive_diff_block_path l = None) (visible_lines hidden lines).
Proof.
  revert hidden. induction lines as [|l lines IH]; intros hidden; cbn [visible_lines]; [done|].
  destruct (starts_with DIFF_HEADER l) eqn:Eh.
  - destruct (sensitive_diff_block_path l) eqn:Es; constructor; auto using marker_not_header.
  - assert (sensitive_diff_block_path l = None) by (unfold sensitive_diff_block_path; by rewrite Eh).
    destruct hidden; [auto|by constructor].
Qed.

Lemma visible_plain lines :
  Forall (λ l, sensitive_diff_block_path l = None) lines → visible_lines false lines = lines.
Proof.
  induction 1 as [|l lines Hl Hls IH]; cbn; [done|]. rewrite Hl, IH. by destruct (starts_with _ l).
Qed.

(** Redacting output hides the whole diff of every sensitive file and
    nothing else: what is left are the lines outside the blocks of sensitive
    headers, in order, with a marker for each block; no sensitive header is
    left, so a second redaction changes nothing. *)
Theorem redaction_hides_sensitive_diffs input :
  let out := redact_sensitive_diff_blocks input in
  split_inclusive NL (text out) = visible_lines false (split_inclusive NL input) ∧
  Forall (λ l, sensitive_diff_block_path l = None) (split_inclusive NL (text out)) ∧
  text (redact_sensitive_diff_blocks (text out)) = text out.
Proof.
  cbn. unfold redact_sensitive_diff_blocks at 1 2.
  pose proof (split_lines_ok input) as Hok.
  set (lines := split_inclusive NL input) in *.
  assert (Ht : text (redact_sensitive_diff_blocks input) = concat (visible_lines false lines))
    by (apply redact_lines_text; done).
  assert (Hs : split_inclusive NL (text (redact_sensitive_diff_blocks input)) = visible_lines false lines)
    by (rewrite Ht; apply lines_ok_split, visible_ok, Hok).
  unfold redact_sensitive_diff_blocks in Hs. fold lines in Hs. rewrite Hs.
  split; [done|]. split; [apply visible_no_header|].
  unfold redact_sensitive_diff_blocks at 1. rewrite redact_lines_text by (done || apply split_lines_ok).
  fold lines. unfold redact_sensitive_diff_blocks in Ht |- *. fold lines in Ht |- *. rewrite Hs, Ht. cbn [app].
  f_equal. apply visible_plain, visible_no_header.
Qed.
End Paths.

(** A header is read word by word: git writes a path with blanks unquoted, and
    then the first words of it are no sensitive path. *)
Theorem spaced_diff_path_not_redacted :
  let path := $"my notes dir/.env" in
  let header := $"diff --git a/" ++ path ++ $" b/" ++ path in
  is_sensitive_path to_ascii_lowercase path = true ∧
  sensitive_diff_block_path to_ascii_lowercase header = None ∧
  text (redact_sensitive_diff_blocks to_ascii_lowercase (header ++ [NL] ++ $"+TOKEN=x"))
    = header ++ [NL] ++ $"+TOKEN=x".
Proof. cbv zeta. split; [|split]; vm_compute; reflexivity. Qed.
End Sensitive.
