(* ===== verification/PatchInvocation.v ===== *)
(** * Recognising and previewing an invocation of apply_patch

    Models codex-rs/apply-patch/src/invocation.rs with the types of lib.rs:
    which argument vectors are an invocation of apply_patch, directly or through
    a here-document of a shell script, and the changes that are computed from
    the patch before it is applied, which is what a user approves.

    Tree-sitter is a parameter: for a script it gives the captures of every
    match of the query, in order, or the error of loading the grammar or
    parsing.  A panic of the code would be [None]. *)

From S2P Require Import Prelude AbsPath SeekSequence PatchParser Replacements PatchApply ShellScript.

Module Invocation.
Import Parser Replace Apply.

Definition APPLY_PATCH_COMMANDS : list rstring := [ $"apply_patch"; $"applypatch" ].

Inductive ApplyPatchShell := Unix | PowerShell | Cmd.

Inductive ExtractHeredocError :=
| CommandDidNotStartWithApplyPatch
| FailedToLoadBashGrammar (e : rstring)
| HeredocNotUtf8
| FailedToParsePatchIntoAst
| FailedToFindHeredocBody.

Inductive MaybeApplyPatch :=
| Body (args : ApplyPatchArgs)
| ShellParseError (e : ExtractHeredocError)
| PatchError (e : ParseError)
| NotApplyPatch.

Inductive ApplyPatchFileChange :=
| CAdd (c : rstring)
| CDelete (c : rstring)
| CUpdate (diff : rstring) (move_path : option rstring) (new_content : rstring).

Record ApplyPatchAction := {
  changes : gmap (list Z) ApplyPatchFileChange;
  action_patch : rstring;
  action_cwd : rstring
}.

Inductive MaybeApplyPatchVerified :=
| VBody (a : ApplyPatchAction)
| VShellParseError (e : ExtractHeredocError)
| VCorrectnessError (e : ApplyPatchError)
| VNotApplyPatch.

(** ** Shells *)
Definition classify_shell_name (shell : rstring) : option rstring :=
  to_ascii_lowercase <$> Shell.file_stem shell.

Definition classify_shell (shell flag : rstring) : option ApplyPatchShell :=
  match classify_shell_name shell with
  | None => None
  | Some name =>
      if str_in name [ $"bash"; $"zsh"; $"sh" ] && str_in flag [ $"-lc"; $"-c" ] then Some Unix
      else if str_in name [ $"pwsh"; $"powershell" ] && eq_ignore_ascii_case flag $"-command"
      then Some PowerShell
      else if (name =?s $"cmd") && eq_ignore_ascii_case flag $"/c" then Some Cmd
      else None
  end.

Definition can_skip_flag (shell flag : rstring) : bool :=
  match classify_shell_name shell with
  | None => false
  | Some name => str_in name [ $"pwsh"; $"powershell" ] && eq_ignore_ascii_case flag $"-noprofile"
  end.

Definition parse_shell_script (argv : list rstring) : option (ApplyPatchShell * rstring) :=
  match argv with
  | [shell; flag; script] => (λ t, (t, script)) <$> classify_shell shell flag
  | [shell; skip_flag; flag; script] =>
      if can_skip_flag shell skip_flag then (λ t, (t, script)) <$> classify_shell shell flag else None
  | _ => None
  end.

Section Extract.
(** The matches of the query in a script: each is a list of captures, a name
    with the text of its node ([None]: not UTF-8). *)
Variable query_matches :
  rstring → result (list (list (rstring * option rstring))) ExtractHeredocError.

(** The loop over the captures of a match. *)
Fixpoint read_captures (caps : list (rstring * option rstring)) (heredoc cd_path : option rstring)
  : result (option rstring * option rstring) ExtractHeredocError :=
  match caps with
  | [] => Ok (heredoc, cd_path)
  | (name, txt) :: caps' =>
      if name =?s $"heredoc" then
        let? t := ok_or HeredocNotUtf8 txt in
        read_captures caps' (Some (trim_end_matches NL t)) cd_path
      else if name =?s $"cd_path" then
        let? t := ok_or HeredocNotUtf8 txt in
        read_captures caps' heredoc (Some t)
      else if name =?s $"cd_raw_string" then
        let? raw := ok_or HeredocNotUtf8 txt in
        let trimmed := match strip_prefix [39%Z] raw ≫= strip_suffix [39%Z] with
                       | Some s => s
                       | None => raw
                       end in
        read_captures caps' heredoc (Some trimmed)
      else read_captures caps' heredoc cd_path
  end.

Fixpoint first_heredoc (matches : list (list (rstring * option rstring)))
  : result (rstring * option rstring) ExtractHeredocError :=
  match matches with
  | [] => Err CommandDidNotStartWithApplyPatch
  | m :: ms =>
      match read_captures m None None with
      | Err e => Err e
      | Ok (Some heredoc, cd_path) => Ok (heredoc, cd_path)
      | Ok (None, _) => first_heredoc ms
      end
  end.

Definition extract_apply_patch_from_bash (src : rstring)
  : result (rstring * option rstring) ExtractHeredocError :=
  let? ms := query_matches src in first_heredoc ms.

Definition extract_apply_patch_from_shell (shell : ApplyPatchShell) (script : rstring) :=
  match shell with Unix | PowerShell | Cmd => extract_apply_patch_from_bash script end.

Definition with_workdir (a : ApplyPatchArgs) (d : option rstring) : ApplyPatchArgs :=
  {| patch := patch a; hunks := hunks a; workdir := d |}.

(** [maybe_parse_apply_patch]; [None] would be a parser out of fuel. *)
Definition maybe_parse_apply_patch (argv : list rstring) : option MaybeApplyPatch :=
  let shell_form :=
    match parse_shell_script argv with
    | None => Some NotApplyPatch
    | Some (shell, script) =>
        match extract_apply_patch_from_shell shell script with
        | Ok (body, wd) =>
            match parse_patch body with
            | None => None
            | Some (Ok source) => Some (Body (with_workdir source wd))
            | Some (Err e) => Some (PatchError e)
            end
        | Err CommandDidNotStartWithApplyPatch => Some NotApplyPatch
        | Err e => Some (ShellParseError e)
        end
    end in
  match argv with
  | [cmd; body] =>
      if str_in cmd APPLY_PATCH_COMMANDS then
        match parse_patch body with
        | None => None
        | Some (Ok source) => Some (Body source)
        | Some (Err e) => Some (PatchError e)
        end
      else shell_form
  | _ => shell_form
  end.

(** ** The preview *)
Section Verified.
Context {W : Type} `{ExecutorFileSystem W} (home : option rstring).
Variable text_diff : rstring → rstring → nat → rstring.

Definition parses (body : rstring) : bool :=
  match parse_patch body with Some (Ok _) => true | _ => false end.

(** The loop over the hunks. *)
Fixpoint collect_changes (cwd : rstring) (hs : list Hunk) (acc : gmap (list Z) ApplyPatchFileChange)
    (w : W) : option (result (gmap (list Z) ApplyPatchFileChange) ApplyPatchError) :=
  match hs with
  | [] => Some (Ok acc)
  | h :: hs' =>
      let path := resolve_path home h cwd in
      match h with
      | AddFile _ contents => collect_changes cwd hs' (<[path := CAdd contents]> acc) w
      | DeleteFile _ =>
          match read_file_text path w with
          | Err e => Some (Err (IoError ($"Failed to read " ++ path) e))
          | Ok c => collect_changes cwd hs' (<[path := CDelete c]> acc) w
          end
      | UpdateFile _ move_path chunks =>
          match unified_diff_from_chunks text_diff path chunks w with
          | None => None
          | Some (Err e) => Some (Err e)
          | Some (Ok u) =>
              collect_changes cwd hs'
                (<[path := CUpdate (unified_diff u)
                     ((λ p, Path.resolve_path_against_base home p cwd) <$> move_path) (content u)]> acc) w
          end
      end
  end.

Definition effective_cwd (cwd : rstring) (a : ApplyPatchArgs) : rstring :=
  match workdir a with Some d => Path.resolve_path_against_base home d cwd | None => cwd end.

Definition implicit_invocation (argv : list rstring) : bool :=
  match argv with [body] => parses body | _ => false end
  || match parse_shell_script argv with Some (_, script) => parses script | None => false end.

Definition maybe_parse_apply_patch_verified (argv : list rstring) (cwd : rstring) (w : W)
  : option MaybeApplyPatchVerified :=
  if implicit_invocation argv then Some (VCorrectnessError ImplicitInvocation)
  else
    match maybe_parse_apply_patch argv with
    | None => None
    | Some (Body a) =>
        let ecwd := effective_cwd cwd a in
        match collect_changes ecwd (hunks a) ∅ w with
        | None => None
        | Some (Err e) => Some (VCorrectnessError e)
        | Some (Ok ch) => Some (VBody {| changes := ch; action_patch := patch a; action_cwd := ecwd |})
        end
    | Some (ShellParseError e) => Some (VShellParseError e)
    | Some (PatchError e) => Some (VCorrectnessError (PatchParseError e))
    | Some NotApplyPatch => Some VNotApplyPatch
    end.
End Verified.
End Extract.

(** ** The preview is what applying does *)
Section Preview.
Context {W : Type} `{FileSystemLaws W} (home : option rstring).
Variable text_diff : rstring → rstring → nat → rstring.

(** The change that a hunk on its own makes to the files [f]. *)
Definition change_of (cwd : rstring) (f : rstring → option rstring) (h : Hunk)
    (c : ApplyPatchFileChange) : Prop :=
  match h with
  | AddFile _ contents => c = CAdd contents
  | DeleteFile _ => ∃ old, f (resolve_path home h cwd) = Some old ∧ c = CDelete old
  | UpdateFile _ mp chunks =>
      ∃ old new diff, f (resolve_path home h cwd) = Some old ∧
        new_contents_of old (resolve_path home h cwd) chunks = Some (Ok new) ∧
        c = CUpdate diff ((λ p, Path.resolve_path_against_base home p cwd) <$> mp) new
  end.

Lemma collect_changes_spec cwd hs acc w ch :
  collect_changes home text_diff cwd hs acc w = Some (Ok ch) →
  ∀ p c, ch !! p = Some c →
    (∃ h, h ∈ hs ∧ resolve_path home h cwd = p ∧ change_of cwd (file_at w) h c) ∨ acc !! p = Some c.
Proof.
  revert acc. induction hs as [|h hs IH]; intros acc; cbn [collect_changes].
  { intros [= <-]. auto. }
  assert (Hstep : ∀ c0, change_of cwd (file_at w) h c0 →
    collect_changes home text_diff cwd hs (<[resolve_path home h cwd := c0]> acc) w = Some (Ok ch) →
    ∀ p c, ch !! p = Some c →
    (∃ h', h' ∈ h :: hs ∧ resolve_path home h' cwd = p ∧ change_of cwd (file_at w) h' c) ∨ acc !! p = Some c).
  { intros c0 Hc0 Hc p c Hp. destruct (IH _ Hc p c Hp) as [(h' & ? & ? & ?)|Hi].
    - left. exists h'. split; [by apply list_elem_of_further|done].
    - rewrite lookup_insert in Hi. destruct (decide _) as [<-|]; [|by right].
      injection Hi as <-. left. exists h. split; [apply list_elem_of_here|done]. }
  destruct h as [q contents|q|q mp chunks].
  - apply Hstep. done.
  - destruct (read_file_text _ w) as [old|] eqn:E; [|done]. apply Hstep. exists old.
    split; [by apply read_ok|done].
  - unfold unified_diff_from_chunks, unified_diff_from_chunks_with_context.
    destruct (derive_new_contents_from_chunks _ chunks w) as [[a|]|] eqn:E; try done.
    cbn [unified_diff content]. apply Hstep. apply derive_Ok in E as (old & Ho & Hn). by eexists _, _, _.
Qed.

Lemma collect_changes_complete cwd hs acc w ch :
  collect_changes home text_diff cwd hs acc w = Some (Ok ch) →
  ∀ p, p ∈ ((λ h, resolve_path home h cwd) <$> hs) ∨ acc !! p ≠ None → ch !! p ≠ None.
Proof.
  revert acc. induction hs as [|h hs IH]; intros acc; cbn [collect_changes fmap list_fmap].
  { intros [= <-] p [Hp|Hp]; [by apply not_elem_of_nil in Hp|done]. }
  assert (Hstep : ∀ c0,
    collect_changes home text_diff cwd hs (<[resolve_path home h cwd := c0]> acc) w = Some (Ok ch) →
    ∀ p, p ∈ (resolve_path home h cwd :: ((λ h, resolve_path home h cwd) <$> hs)) ∨ acc !! p ≠ None →
    ch !! p ≠ None).
  { intros c0 Hc p Hp. apply (IH _ Hc). rewrite lookup_insert, elem_of_cons in *.
    destruct (decide _); [by right|]. destruct Hp as [[->|Hp]|Hp]; [done|by left|by right]. }
  destruct h as [q contents|q|q mp chunks]; [apply Hstep| |].
  - destruct (read_file_text _ w); [apply Hstep|done].
  - destruct (unified_diff_from_chunks _ _ chunks w) as [[u|]|]; try done. apply Hstep.
Qed.

(** A successful run of [apply_patch] makes the steps of the hunks of its text. *)
Lemma apply_patch_steps {O} `{Write O} text cwd w (so se so' se' : O) w' :
  apply_patch home text cwd w so se = Some (Ok tt, w', so', se') →
  patch_steps home cwd (match parse_patch text with Some (Ok a) => hunks a | _ => [] end)
    (file_at w) (file_at w').
Proof.
  unfold apply_patch, apply_hunks, apply_hunks_to_files.
  destruct (parse_patch text) as [[a|e]|]; [| |done].
  - destruct (is_empty (hunks a)); [destruct (writeln _ se) as [[]]; done|].
    destruct (apply_hunks_loop home cwd (hunks a) no_paths w) as [[[aff|err] w1]|] eqn:E; [| |done].
    + destruct (print_summary aff so) as [r o]. intros [= _ <- _ _].
      by apply apply_hunks_loop_Ok in E as [? _].
    + destruct (writeln _ se) as [[]]; done.
  - destruct (writeln _ se) as [[]]; done.
Qed.

(** The effect of a hunk between the files before and after a whole patch. *)
Definition effect (cwd : rstring) (f f' : rstring → option rstring) (h : Hunk) : Prop :=
  let src := resolve_path home h cwd in
  match h with
  | AddFile _ c => f' src = Some c
  | DeleteFile _ => f' src = None
  | UpdateFile _ mp chunks =>
      ∃ old new, f src = Some old ∧ new_contents_of old src chunks = Some (Ok new) ∧
        match mp with
        | None => f' src = Some new
        | Some d => f' (Path.resolve_path_against_base home d cwd) = Some new ∧ f' src = None
        end
  end.

Lemma effect_agree cwd f g f' g' h :
  (∀ q, q ∈ touched home cwd h → g q = f q ∧ g' q = f' q) → effect cwd f f' h → effect cwd g g' h.
Proof.
  intros Ha. destruct (Ha (resolve_path home h cwd)) as [H1 H2]; [apply list_elem_of_here|].
  unfold effect. destruct h as [p c|p|p mp chunks]; rewrite ?H2; try done.
  intros (old & new & Ho & Hn & Hm). exists old, new. rewrite H1. split; [done|]. split; [done|].
  destruct mp as [d|]; rewrite ?H2; [|done]. destruct Hm as [Hd Hs]. split; [|done].
  destruct (Ha (Path.resolve_path_against_base home d cwd)) as [_ ->]; [|done].
  cbn. apply list_elem_of_further, list_elem_of_here.
Qed.

Lemma step_effect cwd h f f' :
  NoDup (touched home cwd h) → hunk_step home cwd h f f' → effect cwd f f' h.
Proof.
  intros Hnd Hs. destruct Hs as [p c f f' E|p f f' E|p chunks old new f f' src Ho Hn E
    |p d chunks old new f f' src dst Ho Hn E]; cbn.
  - rewrite E. unfold set_file. cbn. by rewrite decide_True.
  - rewrite E. unfold unset_file. cbn. by rewrite decide_True.
  - exists old, new. split; [done|]. split; [done|]. rewrite E. unfold set_file. by rewrite decide_True.
  - exists old, new. split; [done|]. split; [done|]. fold dst. cbn in Hnd.
    apply NoDup_cons in Hnd as [Hne _]. assert (dst ≠ src) by (intros Hx; apply Hne; subst src dst; rewrite Hx; apply list_elem_of_here).
    rewrite !E. unfold unset_file, set_file.
    fold src. rewrite (decide_True (P := src = src)) by done.
    rewrite (decide_False (P := dst = src)) by done. rewrite decide_True by done. done.
Qed.

Lemma steps_effects cwd hs f f' :
  NoDup (concat (touched home cwd <$> hs)) → patch_steps home cwd hs f f' →
  ∀ h, h ∈ hs → effect cwd f f' h.
Proof.
  intros Hnd Hs. induction Hs as [|h0 hs f f1 f2 Hs Hss IH]; [set_solver|].
  cbn [fmap list_fmap concat] in Hnd. apply NoDup_app in Hnd as (Hnd0 & Hdis & Hnd).
  intros h [->|Hin]%elem_of_cons.
  - apply (effect_agree cwd f f f1 f2); [|by apply step_effect].
    intros q Hq. split; [done|]. eapply patch_steps_frame; [exact Hss|by apply Hdis].
  - apply (effect_agree cwd f1 f f2 f2); [|by apply IH].
    intros q Hq. split; [|done]. symmetry. eapply hunk_step_frame; [exact Hs|].
    intros Hq0. apply (Hdis q Hq0). apply list_elem_of_In, in_concat. exists (touched home cwd h).
    split; [by apply list_elem_of_In, list_elem_of_fmap_2|by apply list_elem_of_In].
Qed.

Lemma body_parsed query argv a :
  maybe_parse_apply_patch query argv = Some (Body a) →
  ∃ text a0, parse_patch text = Some (Ok a0) ∧ patch a = patch a0 ∧ hunks a = hunks a0.
Proof.
  unfold maybe_parse_apply_patch. intros E.
  repeat case_match; simplify_eq; eexists _, _; (split; [eassumption|done]).
Qed.

(** The hunks of an action: those of the text that is applied. *)
Definition action_hunks (act : ApplyPatchAction) : list Hunk :=
  match parse_patch (action_patch act) with Some (Ok a) => hunks a | _ => [] end.

(** A verified action, its preview and what is applied: unless a carriage
    return is left in the text, the second parse reads the hunks that were
    previewed. *)
Lemma verified_hunks query argv cwd w act :
  maybe_parse_apply_patch_verified query home text_diff argv cwd w = Some (VBody act) →
  CR ∉ action_patch act →
  collect_changes home text_diff (action_cwd act) (action_hunks act) ∅ w = Some (Ok (changes act)) ∧
  ∃ a, parse_patch (action_patch act) = Some (Ok a).
Proof.
  unfold maybe_parse_apply_patch_verified. destruct (implicit_invocation argv); [done|].
  destruct (maybe_parse_apply_patch query argv) as [[a| | |]|] eqn:Hm; try done.
  destruct (collect_changes _ _ _ _ _ w) as [[ch|]|] eqn:Ec; try done. intros [= <-] Hcr.
  apply body_parsed in Hm as (text & a0 & Hp & Hpa & Hh).
  unfold action_hunks. cbn [action_cwd action_patch changes] in *. rewrite Hpa in *.
  apply reparse_stable in Hp as (a' & Hp & Hh'); [|done]. rewrite Hp, Hh', <- Hh. eauto.
Qed.

(** C35: what is previewed, and approved, is what applying does.  The runtime
    applies the text of the action, which it parses again; when that text has no
    carriage return left (with one, the second parse can read other hunks) and
    its hunks name no file twice, a successful application makes exactly the
    previewed changes: added and updated files have the previewed contents,
    deleted and moved ones are gone, every hunk has its change in the preview,
    and files that no hunk names stay as they are.  The files are those of the
    preview, and distinct paths name distinct files, as the file system's laws
    say: of hard links and symbolic links it says nothing. *)
Theorem preview_is_applied {O} `{Write O} query argv cwd w act (so se so' se' : O) w' :
  maybe_parse_apply_patch_verified query home text_diff argv cwd w = Some (VBody act) →
  CR ∉ action_patch act →
  NoDup (concat (touched home (action_cwd act) <$> action_hunks act)) →
  apply_patch home (action_patch act) (action_cwd act) w so se = Some (Ok tt, w', so', se') →
  (∀ p, match changes act !! p with
        | Some (CAdd c) => file_at w' p = Some c
        | Some (CDelete c) => file_at w p = Some c ∧ file_at w' p = None
        | Some (CUpdate _ None c) => file_at w' p = Some c
        | Some (CUpdate _ (Some d) c) => file_at w' d = Some c ∧ file_at w' p = None
        | None => p ∉ ((λ h, resolve_path home h (action_cwd act)) <$> action_hunks act)
        end) ∧
  (∀ q, q ∉ concat (touched home (action_cwd act) <$> action_hunks act) → file_at w' q = file_at w q).
Proof.
  intros Hv Hcr Hnd Happ. destruct (verified_hunks _ _ _ _ _ Hv Hcr) as [Ec _].
  apply apply_patch_steps in Happ as Hs. fold (action_hunks act) in Hs.
  split; [|intros q; by apply patch_steps_frame].
  intros p. destruct (changes act !! p) as [c|] eqn:Ep;
    [|by intros Hp; apply (collect_changes_complete _ _ _ _ _ Ec p (or_introl Hp))].
  destruct (collect_changes_spec _ _ _ _ _ Ec p c Ep) as [(h & Hin & <- & Hc)|Hx]; [|by rewrite lookup_empty in Hx].
  pose proof (steps_effects _ _ _ _ Hnd Hs h Hin) as He. unfold effect in He.
  destruct h as [q contents|q|q mp chunks]; cbn [change_of] in Hc.
  - by subst c.
  - destruct Hc as (old & Ho & ->). done.
  - destruct Hc as (old & new & diff & Ho & Hn & ->). destruct He as (old' & new' & Ho' & Hn' & He).
    assert (new' = new) as -> by congruence. by destruct mp.
Qed.
End Preview.

(** ** Concrete invocations *)
Definition demo_lines (ls : list rstring) : rstring := join [NL] ls.
Definition demo_patch : rstring :=
  demo_lines [ $"*** Begin Patch"; $"*** Add File: new/b.txt"; $"+b"; $"*** Update File: a.txt";
               $"*** Move to: c.txt"; $"@@"; $"-two"; $"+2"; $"*** Delete File: gone"; $"*** End Patch" ].
Definition demo_argv : list rstring := [ $"apply_patch"; demo_patch ].
Definition no_query (src : rstring)
  : result (list (list (rstring * option rstring))) ExtractHeredocError := Ok [].
Definition demo_diff (a b : rstring) (context : nat) : rstring := [].

Definition demo_action (argv : list rstring) : ApplyPatchAction :=
  match maybe_parse_apply_patch_verified no_query None demo_diff argv $"/w" demo_fs with
  | Some (VBody a) => a
  | _ => {| changes := ∅; action_patch := []; action_cwd := [] |}
  end.

Definition demo_args : ApplyPatchArgs := {| patch := demo_patch; hunks := demo_hunks; workdir := None |}.

Lemma preview_is_applied_witness :
  changes (demo_action demo_argv) !! $"/w/gone" = Some (CDelete $"x") ∧
  ∀ q, q ∉ concat (touched None (action_cwd (demo_action demo_argv)) <$> action_hunks (demo_action demo_argv)) →
       file_at demo_result q = file_at demo_fs q.
Proof.
  split; [vm_compute; reflexivity|].
  eapply (preview_is_applied (O := list Z) None demo_diff no_query demo_argv $"/w" demo_fs (demo_action demo_argv) [] []).
  - vm_compute. reflexivity.
  - vm_decide.
  - vm_decide.
  - vm_compute. reflexivity.
Defined.

(** Two updates of one file: both are applied, one after the other, but the
    preview shows the second alone, computed from the file before the first. *)
Definition twice_patch : rstring :=
  demo_lines [ $"*** Begin Patch"; $"*** Update File: a.txt"; $"@@"; $"-one"; $"+1";
               $"*** Update File: a.txt"; $"@@"; $"-two"; $"+2"; $"*** End Patch" ].

Theorem preview_loses_repeated_file :
  changes (demo_action [ $"apply_patch"; twice_patch ])
    = {[ $"/w/a.txt" := CUpdate [] None ($"one" ++ [NL] ++ $"2" ++ [NL]) ]} ∧
  (match parse_patch twice_patch with
   | Some (Ok a) =>
       match apply_hunks_to_files None (hunks a) $"/w" demo_fs with
       | Some (Ok _, w') => file_at w' $"/w/a.txt"
       | _ => None
       end
   | _ => None
   end) = Some ($"1" ++ [NL] ++ $"2" ++ [NL]).
Proof. split; vm_compute; reflexivity. Qed.
End Invocation.
