(* ===== verification/DelegateResponse.v ===== *)
(** * DelegateResponse: what a worker model's answer becomes

    Models codex-rs/core/src/minimax_delegate/response_parser.rs, with the result
    type of codex-rs/core/src/minimax_delegate.rs and its [collect_stream_text]:
    a worker's free text is unwrapped, read as JSON, its patch normalised and
    checked against the work tree, and becomes a result that the supervising
    model may apply.

    serde_json is a parameter: which texts are JSON objects, and which are a
    [RawWorkerResponse].  Offsets into a text are counted in characters; the
    code's byte offsets are those of ASCII markers, so they cut at the same
    places.  [None] is a panic; the loop that unwraps a patch has fuel for every
    character of it, and [unwrap_total] shows that it does not run out. *)

From S2P Require Import Prelude AbsPath SeekSequence PatchParser Replacements PatchApply ShellScript ResponseItems Normalize History ThinkParser EventBridge Delegation SensitiveOutput PatchInvocation.

Module Response.
Import Parser Apply Invocation.

(** ** Results: minimax_delegate.rs *)
Inductive MiniMaxDelegationStatus := Completed | Clarify | Invalid.
Inductive WorkerPatchFormat := FApplyPatch | FUnifiedDiff.

#[export] Instance status_eq_dec : EqDecision MiniMaxDelegationStatus.
Proof. solve_decision. Defined.
#[export] Instance format_eq_dec : EqDecision WorkerPatchFormat.
Proof. solve_decision. Defined.

Definition format_as_str (f : WorkerPatchFormat) : rstring :=
  match f with FApplyPatch => $"apply_patch" | FUnifiedDiff => $"unified_diff" end.

Inductive MiniMaxContextFileSource := ExplicitFile | ExplicitSnippet | TaskMention | GitModified.

Record MiniMaxContextFile := {
  file_path : rstring;
  file_source : MiniMaxContextFileSource;
  file_truncated : bool;
  file_redacted : bool
}.
Record MiniMaxContextSummary := {
  included_files : list MiniMaxContextFile;
  omitted_count : nat
}.

Record MiniMaxDelegationResult := {
  status : MiniMaxDelegationStatus;
  format : option WorkerPatchFormat;
  summary : option rstring;
  result_patch : option rstring;
  question : option rstring;
  error : option rstring;
  diagnostics : list rstring;
  context_summary : option MiniMaxContextSummary
}.

Definition completed f s p ds cs : MiniMaxDelegationResult :=
  {| status := Completed; format := Some f; summary := Some s; result_patch := Some p;
     question := None; error := None; diagnostics := ds; context_summary := cs |}.
Definition clarify q ds cs : MiniMaxDelegationResult :=
  {| status := Clarify; format := None; summary := None; result_patch := None;
     question := Some q; error := None; diagnostics := ds; context_summary := cs |}.
Definition invalid_with_context_summary message ds cs : MiniMaxDelegationResult :=
  {| status := Invalid; format := None; summary := None; result_patch := None;
     question := None; error := Some message; diagnostics := ds; context_summary := cs |}.

Definition CLARIFY_PREFIX : rstring := $"CLARIFY:".

(** [collect_stream_text]: the text of a stream of events, or its first error. *)
Fixpoint collect_stream_text {Value Fail : Type} (items : list (result (Bridge.ResponseEvent Value) Fail))
    (deltas final_message_text : rstring) : result rstring Fail :=
  match items with
  | [] => Ok (if is_empty (trim deltas) then final_message_text else deltas)
  | Err e :: _ => Err e
  | Ok (Bridge.OutputTextDelta delta) :: items' =>
      collect_stream_text items' (deltas ++ delta) final_message_text
  | Ok (Bridge.OutputItemDone (Items.Message _ _ content _)) :: items' =>
      collect_stream_text items' deltas
        (final_message_text ++
         concat (omap (λ c, match c with Items.MsgOutputText t => Some t | _ => None end) content))
  | Ok _ :: items' => collect_stream_text items' deltas final_message_text
  end.

(** ** Standard library *)

(** [str::rfind(&str)]: where the last occurrence starts. *)
Fixpoint str_rfind (p s : rstring) : option nat :=
  match s with
  | [] => if is_empty p then Some 0 else None
  | _ :: s' =>
      match str_rfind p s' with
      | Some i => Some (S i)
      | None => if starts_with p s then Some 0 else None
      end
  end.

(** [str::matches(p).count()]: occurrences that do not overlap, [skip] characters
    of one left to pass. *)
Fixpoint matches_count (p : rstring) (skip : nat) (s : rstring) : nat :=
  match s with
  | [] => 0
  | _ :: s' =>
      match skip with
      | S skip' => matches_count p skip' s'
      | O => if starts_with p s then S (matches_count p (length p - 1) s') else matches_count p 0 s'
      end
  end.

Definition CRLF : rstring := [CR; NL].
(** [replace("\r\n", "\n")]. *)
Fixpoint replace_crlf (s : rstring) : rstring :=
  match s with
  | a :: ((b :: s') as s1) =>
      if (a =? CR)%Z && (b =? NL)%Z then NL :: replace_crlf s' else a :: replace_crlf s1
  | _ => s
  end.

(** ** Recognising texts *)
Definition FENCE : rstring := [96; 96; 96]%Z.

Definition looks_like_unified_diff (text : rstring) : bool :=
  contains $"diff --git" text || (contains $"--- " text && contains $"+++ " text).

Definition detect_raw_patch_format (text : rstring) : option WorkerPatchFormat :=
  if contains $"*** Begin Patch" text || contains $"*** Update File: " text
     || contains $"*** Add File: " text || contains $"*** Delete File: " text
     || contains $"apply_patch <<" text
  then Some FApplyPatch
  else if looks_like_unified_diff text then Some FUnifiedDiff else None.

(** [strip_markdown_fence]: the text between the first and the last newline of a
    fenced block. *)
Definition strip_markdown_fence (text : rstring) : option rstring :=
  let trimmed := trim text in
  if negb (starts_with FENCE trimmed) then None
  else match split_once NL trimmed with
       | None => None
       | Some (_, after_first) =>
           match rsplit_once NL after_first with
           | None => None
           | Some (middle, last_line) => if trim last_line =?s FENCE then Some middle else None
           end
       end.

(** The characters up to the end of the JSON object at the start of a text. *)
Fixpoint balanced_end (depth : nat) (in_string escaped : bool) (s : rstring) : option nat :=
  match s with
  | [] => None
  | ch :: s' =>
      if in_string then
        if escaped then S <$> balanced_end depth in_string false s'
        else if (ch =? 92)%Z then S <$> balanced_end depth in_string true s'
        else if (ch =? 34)%Z then S <$> balanced_end depth false escaped s'
        else S <$> balanced_end depth in_string escaped s'
      else if (ch =? 34)%Z then S <$> balanced_end depth true escaped s'
      else if (ch =? 123)%Z then S <$> balanced_end (S depth) in_string escaped s'
      else if (ch =? 125)%Z then
        if depth - 1 =? 0 then Some 1 else S <$> balanced_end (depth - 1) in_string escaped s'
      else S <$> balanced_end depth in_string escaped s'
  end.
Definition find_balanced_json_object_end (s : rstring) : option nat := balanced_end 0 false false s.

Definition BEGIN_MARKER : rstring := $"*** Begin Patch".
Definition END_MARKER : rstring := $"*** End Patch".

(** [extract_wrapped_apply_patch]; [None] is the panic of [text[begin..end]]. *)
Definition extract_wrapped_apply_patch (text : rstring) : option (option (rstring * rstring)) :=
  if negb (matches_count BEGIN_MARKER 0 text =? 1) || negb (matches_count END_MARKER 0 text =? 1)
  then Some None
  else match str_find BEGIN_MARKER text, str_rfind END_MARKER text with
       | Some begin_index, Some end_index =>
           let end_offset := end_index + length END_MARKER in
           let prefix := trim (take begin_index text) in
           let suffix := trim (drop end_offset text) in
           if is_empty prefix && is_empty suffix then Some None
           else
             let diagnostic :=
               if contains $"apply_patch <<" text
               then $"normalized worker patch: extracted apply_patch heredoc"
               else $"normalized worker patch: extracted patch body" in
             if end_offset <? begin_index then None
             else Some (Some (take (end_offset - begin_index) (drop begin_index text), diagnostic))
       | _, _ => Some None
       end.

Record NormalizationFailure := { failure : rstring; failure_diagnostics : list rstring }.
Record ResolvedPatchSource := { source_patch : rstring; source_diagnostics : list rstring }.

Definition resolve_patch_source (patch : option rstring) (patch_lines : option (list rstring))
  : result ResolvedPatchSource NormalizationFailure :=
  let joined ls := Ok {| source_patch := join [NL] ls;
    source_diagnostics := [ $"normalized worker patch: joined patch_lines into patch string" ] |} in
  let missing := Err {| failure := $"invalid_completed_response: missing patch"; failure_diagnostics := [] |} in
  match patch, patch_lines with
  | Some p, Some ls =>
      if negb (is_empty (trim p)) then
        Ok {| source_patch := p; source_diagnostics :=
          [ $"normalized worker patch: ignored patch_lines because patch string was also provided" ] |}
      else if negb (is_empty ls) then joined ls
      else missing
  | Some p, None =>
      if negb (is_empty (trim p)) then Ok {| source_patch := p; source_diagnostics := [] |} else missing
  | None, Some ls => if negb (is_empty ls) then joined ls else missing
  | None, None => missing
  end.

(** The trimming and the line endings with which every normalisation starts. *)
Definition start_text (what text : rstring) : rstring * list rstring :=
  let text := trim text in
  if contains CRLF text
  then (replace_crlf text, [ what ++ $": normalized line endings" ])
  else (text, []).

Definition PATCH_NOTE : rstring := $"normalized worker patch".

(** The [loop] of [normalize_apply_patch_text]. *)
Fixpoint unwrap_loop (fuel : nat) (text : rstring) (ds : list rstring) : option (rstring * list rstring) :=
  match fuel with
  | O => None
  | S fuel' =>
      match strip_markdown_fence text with
      | Some stripped =>
          unwrap_loop fuel' (trim stripped) (ds ++ [ PATCH_NOTE ++ $": stripped markdown fence" ])
      | None =>
          match extract_wrapped_apply_patch text with
          | None => None
          | Some (Some (extracted, diagnostic)) =>
              unwrap_loop fuel' (trim extracted) (ds ++ [diagnostic])
          | Some None => Some (text, ds)
          end
      end
  end.

Definition normalize_unified_diff_text (patch : rstring)
  : result ResolvedPatchSource NormalizationFailure :=
  let '(text, ds) := start_text PATCH_NOTE patch in
  let '(text, ds) :=
    match strip_markdown_fence text with
    | Some stripped => (trim stripped, ds ++ [ PATCH_NOTE ++ $": stripped markdown fence" ])
    | None => (text, ds)
    end in
  if looks_like_unified_diff text then Ok {| source_patch := text; source_diagnostics := ds |}
  else Err {| failure := $"invalid_unified_diff_format: expected diff --git, ---/+++, or @@ markers";
              failure_diagnostics := ds |}.

Definition paths_from_hunks (hs : list Hunk) : list rstring :=
  hs ≫= λ h, match h with
             | AddFile p _ | DeleteFile p => [p]
             | UpdateFile p mp _ => p :: match mp with Some m => [m] | None => [] end
             end.

Definition first_update_path (hs : list Hunk) : option rstring :=
  Sensitive.find_map (λ h, match h with UpdateFile p _ _ => Some p | _ => None end) hs.

(** ** Reading an answer *)
Record RawWorkerResponse := {
  raw_status : MiniMaxDelegationStatus;
  raw_format : option WorkerPatchFormat;
  raw_summary : option rstring;
  raw_patch : option rstring;
  raw_patch_lines : option (list rstring);
  raw_question : option rstring;
  raw_error : option rstring;
  raw_diagnostics : list rstring
}.

(** serde_json on the two types that the code reads. *)
Class WorkerJson := {
  is_json_object : rstring → bool;
  worker_response : rstring → option RawWorkerResponse
}.

(** The [while] loop of [extract_single_json_object]; each round consumes a
    character, so their number is fuel enough. *)
Fixpoint json_objects `{WorkerJson} (fuel : nat) (text : rstring) : list rstring :=
  match fuel, text with
  | S fuel', c :: rest =>
      if negb (c =? 123)%Z then json_objects fuel' rest
      else match find_balanced_json_object_end text with
           | None => []
           | Some e =>
               let candidate := take e text in
               (if is_json_object candidate then [candidate] else [])
               ++ json_objects fuel' (drop e text)
           end
  | _, _ => []
  end.

Definition extract_single_json_object `{WorkerJson} (text : rstring) : result (option rstring) rstring :=
  match json_objects (length text) text with
  | [] => Ok None
  | [object] => Ok (Some object)
  | _ => Err $"ambiguous_worker_output: multiple JSON objects found"
  end.

Definition WORKER_NOTE : rstring := $"normalized worker response".

Definition normalize_worker_output `{WorkerJson} (output : rstring)
  : result (rstring * list rstring) NormalizationFailure :=
  let '(text, ds) := start_text WORKER_NOTE output in
  let '(text, ds) :=
    match strip_markdown_fence text with
    | Some stripped => (trim stripped, ds ++ [ WORKER_NOTE ++ $": stripped markdown fence" ])
    | None => (text, ds)
    end in
  match extract_single_json_object text with
  | Err e => Err {| failure := e; failure_diagnostics := ds |}
  | Ok (Some extracted) =>
      if bool_decide (extracted = text) then Ok (text, ds)
      else Ok (extracted, ds ++ [ WORKER_NOTE ++ $": extracted single JSON object" ])
  | Ok None => Ok (text, ds)
  end.

Section Parse.
Context {R : RegexCrate} {J : WorkerJson}.
Variable to_lowercase : rstring → rstring.

Definition sanitize_metadata (text : rstring) : rstring :=
  Sensitive.text (Sensitive.sanitize_output_text to_lowercase text).
Definition sanitize_diagnostics (items : list rstring) : list rstring := sanitize_metadata <$> items.

Definition map_apply_patch_parse_error (e : ParseError) : rstring :=
  match e with
  | InvalidPatchError message =>
      if contains $"first line of the patch must be '*** Begin Patch'" message
      then $"invalid_apply_patch_format: missing *** Begin Patch"
      else if contains $"last line of the patch must be '*** End Patch'" message
      then $"invalid_apply_patch_format: missing *** End Patch"
      else $"invalid_apply_patch_format: " ++ sanitize_metadata message
  | InvalidHunkError message _ =>
      if contains $"'--- " message
      then $"invalid_apply_patch_format: patch looks like unified diff, not apply_patch"
      else if contains $"not a valid hunk header" message
      then $"invalid_apply_patch_format: malformed hunk header"
      else $"invalid_apply_patch_format: " ++ sanitize_metadata message
  end.

Definition normalize_apply_patch_text (patch : rstring)
  : option (result ResolvedPatchSource NormalizationFailure) :=
  let '(text, ds) := start_text PATCH_NOTE patch in
  match unwrap_loop (S (length text)) text ds with
  | None => None
  | Some (text, ds) =>
      let fail e := Some (Err {| failure := e; failure_diagnostics := ds |}) in
      if looks_like_unified_diff text then
        fail $"invalid_apply_patch_format: patch looks like unified diff, not apply_patch"
      else if contains FENCE text then
        fail $"invalid_apply_patch_format: patch contains markdown fence"
      else if contains $"apply_patch <<" text then
        fail $"invalid_apply_patch_format: patch contains apply_patch heredoc wrapper"
      else match parse_patch text with
           | None => None
           | Some (Ok parsed) =>
               if is_empty (hunks parsed) then
                 fail $"invalid_apply_patch_format: patch contained no file operations"
               else Some (Ok {| source_patch := text; source_diagnostics := ds |})
           | Some (Err e) => fail (map_apply_patch_parse_error e)
           end
  end.

Definition normalize_patch_for_format (f : WorkerPatchFormat) (patch : rstring)
  : option (result ResolvedPatchSource NormalizationFailure) :=
  match f with
  | FApplyPatch => normalize_apply_patch_text patch
  | FUnifiedDiff => Some (normalize_unified_diff_text patch)
  end.

(** [sanitize_metadata(field.unwrap_or_default().trim()).trim()]. *)
Definition clean_field (field : option rstring) : rstring :=
  trim (sanitize_metadata (trim (default [] field))).

(** The arm of [parse_delegate_output] for a completed response. *)
Definition parse_completed (r : RawWorkerResponse) (ds : list rstring) (cs : option MiniMaxContextSummary)
  : option MiniMaxDelegationResult :=
  match raw_format r with
  | None => Some (invalid_with_context_summary $"invalid_completed_response: missing format" ds cs)
  | Some f =>
      let s := clean_field (raw_summary r) in
      if is_empty s then
        Some (invalid_with_context_summary $"invalid_completed_response: missing summary" ds cs)
      else match resolve_patch_source (raw_patch r) (raw_patch_lines r) with
           | Err e => Some (invalid_with_context_summary (failure e) (ds ++ failure_diagnostics e) cs)
           | Ok src =>
               let ds := ds ++ source_diagnostics src in
               match normalize_patch_for_format f (source_patch src) with
               | None => None
               | Some (Err e) => Some (invalid_with_context_summary (failure e) (ds ++ failure_diagnostics e) cs)
               | Some (Ok p) => Some (completed f s (source_patch p) (ds ++ source_diagnostics p) cs)
               end
           end
  end.

Definition parse_delegate_output (output : rstring) (context_diagnostics : list rstring)
    (cs : option MiniMaxContextSummary) : option MiniMaxDelegationResult :=
  let ds := sanitize_diagnostics context_diagnostics in
  if is_empty (trim output) then
    Some (invalid_with_context_summary $"worker_response_not_json: empty response" ds cs)
  else match strip_prefix CLARIFY_PREFIX (trim output) with
  | Some q => Some (clarify (trim (sanitize_metadata (trim q))) ds cs)
  | None =>
      match normalize_worker_output output with
      | Err e => Some (invalid_with_context_summary (failure e) (ds ++ failure_diagnostics e) cs)
      | Ok (text, nds) =>
          let ds := ds ++ nds in
          match worker_response text with
          | None =>
              let ds := match detect_raw_patch_format text with
                        | Some f => ds ++ [ $"worker returned raw " ++ format_as_str f
                                            ++ $" patch instead of JSON" ]
                        | None => ds
                        end in
              Some (invalid_with_context_summary
                $"worker_response_not_json: expected JSON object with status completed/clarify/invalid"
                ds cs)
          | Some r =>
              let ds := ds ++ sanitize_diagnostics (raw_diagnostics r) in
              match raw_status r with
              | Completed => parse_completed r ds cs
              | Clarify =>
                  let q := clean_field (raw_question r) in
                  Some (if is_empty q then
                          invalid_with_context_summary $"invalid_clarify_response: missing question" ds cs
                        else clarify q ds cs)
              | Invalid =>
                  let e := clean_field (raw_error r) in
                  let e := if is_empty e then $"invalid_worker_response: missing error" else e in
                  Some (invalid_with_context_summary e ds cs)
              end
          end
      end
  end.

(** ** Checking a patch against the work tree *)
Definition invalid_from_completed_result (r : MiniMaxDelegationResult) (e : rstring)
    (diagnostic : option rstring) : MiniMaxDelegationResult :=
  {| status := Invalid; format := None; summary := None; result_patch := None; question := None;
     error := Some (sanitize_metadata e);
     diagnostics := diagnostics r ++ match diagnostic with Some d => [sanitize_metadata d] | None => [] end;
     context_summary := context_summary r |}.

Definition map_applicability_error (hs : list Hunk) (e : ApplyPatchError) : rstring :=
  let path := match first_update_path hs with Some p => p | None => $"patch target" end in
  match e with
  | PatchComputeReplacements _ => $"patch_not_applicable: context did not match " ++ path
  | IoError _ _ =>
      if contains $"No such file or directory" (display_apply_error e)
      then $"patch_not_applicable: update target " ++ path ++ $" does not exist"
      else $"patch_not_applicable: could not read " ++ path
  | PatchParseError e => map_apply_patch_parse_error e
  | ImplicitInvocation => $"invalid_apply_patch_format: patch could not be parsed as apply_patch"
  end.

Section Validate.
Context {W : Type} `{ExecutorFileSystem W} (home process_cwd : option rstring).
Variable query_matches :
  rstring → result (list (list (rstring * option rstring))) ExtractHeredocError.
Variable text_diff : rstring → rstring → nat → rstring.

Definition validate_delegate_result_against_worktree (r : MiniMaxDelegationResult) (cwd : rstring) (w : W)
  : option MiniMaxDelegationResult :=
  if negb (bool_decide (status r = Completed)) || negb (bool_decide (format r = Some FApplyPatch))
  then Some r
  else match result_patch r with
  | None => Some r
  | Some patch =>
      match parse_patch patch with
      | None => None
      | Some (Err e) => Some (invalid_from_completed_result r (map_apply_patch_parse_error e) None)
      | Some (Ok parsed) =>
          match Sensitive.first_sensitive_path to_lowercase (paths_from_hunks (hunks parsed)) with
          | Some path =>
              Some (invalid_from_completed_result r
                ($"blocked_sensitive_patch: patch modifies sensitive path " ++ path) None)
          | None =>
              match Path.from_absolute_path home process_cwd cwd with
              | Err _ =>
                  Some (invalid_from_completed_result r
                    $"patch_not_applicable: current working directory is not absolute" None)
              | Ok cwd =>
                  match maybe_parse_apply_patch_verified query_matches home text_diff
                          [ $"apply_patch"; patch ] cwd w with
                  | None => None
                  | Some (VBody _) => Some r
                  | Some (VCorrectnessError e) =>
                      let m := map_applicability_error (hunks parsed) e in
                      Some (invalid_from_completed_result r m (Some m))
                  | Some (VShellParseError _) | Some VNotApplyPatch =>
                      Some (invalid_from_completed_result r
                        $"invalid_apply_patch_format: patch could not be parsed as apply_patch" None)
                  end
              end
          end
      end
  end.

(** What [delegate_to_minimax] does with the text of the worker. *)
Definition delegate_result (output : rstring) (context_diagnostics : list rstring)
    (cs : option MiniMaxContextSummary) (cwd : rstring) (w : W) : option MiniMaxDelegationResult :=
  r ← parse_delegate_output output context_diagnostics cs;
  validate_delegate_result_against_worktree r cwd w.
End Validate.
End Parse.

(** ** Unwrapping a patch shrinks it *)
Inductive unwraps : rstring → rstring → Prop :=
| unwraps_fence t s : strip_markdown_fence t = Some s → unwraps t (trim s)
| unwraps_wrapper t e d :
    strip_markdown_fence t = None → extract_wrapped_apply_patch t = Some (Some (e, d)) →
    unwraps t (trim e).

(** A text whose only end marker is before its only begin marker. *)
Definition markers_swapped (t : rstring) : Prop :=
  matches_count BEGIN_MARKER 0 t = 1 ∧ matches_count END_MARKER 0 t = 1 ∧
  ∃ b e, str_find BEGIN_MARKER t = Some b ∧ str_rfind END_MARKER t = Some e ∧
         e + length END_MARKER < b.

Lemma strip_fence_shorter t s : strip_markdown_fence t = Some s → length s < length t.
Proof.
  unfold strip_markdown_fence. destruct (negb _); [done|].
  destruct (split_once NL (trim t)) as [[a b]|] eqn:E1; [|done].
  destruct (rsplit_once NL b) as [[m l]|] eqn:E2; [|done].
  destruct (trim l =?s FENCE); [|done]. intros [= <-].
  apply Shell.rsplit_once_Some in E2. apply split_once_eq in E1.
  pose proof (trim_length t) as Ht. rewrite E1, E2 in Ht. rewrite !length_app in Ht. cbn in Ht.
  rewrite length_app in Ht. cbn in Ht. lia.
Qed.

Lemma wrapped_shorter t e d : extract_wrapped_apply_patch t = Some (Some (e, d)) → length e < length t.
Proof.
  unfold extract_wrapped_apply_patch. destruct (_ || _); [done|].
  destruct (str_find BEGIN_MARKER t) as [b|], (str_rfind END_MARKER t) as [i|]; try done.
  set (o := i + length END_MARKER). destruct (is_empty _ && _) eqn:Ee; [done|].
  destruct (o <? b) eqn:Eo; [done|]. intros [= <- _]. apply Nat.ltb_ge in Eo.
  rewrite length_take, length_drop. apply andb_false_iff in Ee as [Ee|Ee].
  - destruct b as [|b]; [done|]. destruct t; [done|]. cbn [length]. lia.
  - assert (o < length t); [|lia]. destruct (decide (o < length t)); [done|].
    rewrite drop_ge in Ee by lia. done.
Qed.

Lemma unwraps_shorter t t' : unwraps t t' → length t' < length t.
Proof.
  intros [t0 s H|t0 e d _ H].
  - apply strip_fence_shorter in H. pose proof (trim_length s). lia.
  - apply wrapped_shorter in H. pose proof (trim_length e). lia.
Qed.

Lemma str_rfind_Some p s i : p ≠ [] → str_rfind p s = Some i → starts_with p (drop i s) = true.
Proof.
  intros Hp. revert i. induction s as [|c s IH]; intros i; cbn [str_rfind].
  - by destruct p.
  - destruct (str_rfind p s) as [j|]; [intros [= <-]; by apply IH|].
    destruct (starts_with p (c :: s)) eqn:E; [|done]. by intros [= <-].
Qed.

Lemma extract_panics_iff t : extract_wrapped_apply_patch t = None ↔ markers_swapped t.
Proof.
  unfold extract_wrapped_apply_patch, markers_swapped.
  destruct (matches_count BEGIN_MARKER 0 t =? 1) eqn:E1; [apply Nat.eqb_eq in E1|apply Nat.eqb_neq in E1; cbn; split; [done|tauto]].
  destruct (matches_count END_MARKER 0 t =? 1) eqn:E2; [apply Nat.eqb_eq in E2|apply Nat.eqb_neq in E2; cbn; split; [done|tauto]].
  cbn [negb orb].
  destruct (str_find BEGIN_MARKER t) as [b|]; [|split; [done|intros (_ & _ & ? & ? & ? & _); done]].
  destruct (str_rfind END_MARKER t) as [i|] eqn:Ei; [|split; [done|intros (_ & _ & ? & ? & _ & ? & _); done]].
  set (o := i + length END_MARKER). split.
  - destruct (is_empty _ && _); [done|]. destruct (o <? b) eqn:Eo; [|done]. apply Nat.ltb_lt in Eo. eauto 10.
  - intros (_ & _ & b' & i' & [= <-] & [= <-] & Hlt). fold o in Hlt.
    assert (is_empty (trim (take b t)) = false) as ->; [|cbn [andb]; by rewrite (proj2 (Nat.ltb_lt o b))].
    apply not_true_is_false. intros He. apply str_rfind_Some in Ei as [r Hr]%starts_with_true; [|done].
    assert (Hw : is_whitespace 42 = true); [|done]. apply (trim_empty _ _ He).
    assert (Hl : take b t !! i = Some 42%Z).
    { rewrite lookup_take_lt by (subst o; lia). rewrite <-(take_drop i t), Hr, lookup_app_r; rewrite length_take_le;
        try by rewrite Nat.sub_diag.
      all: enough (length (drop i t) > 0) by (rewrite length_drop in *; lia); rewrite Hr; cbn; lia. }
    by eapply list_elem_of_lookup_2.
Qed.

Lemma unwrap_total fuel t ds :
  length t < fuel →
  unwrap_loop fuel t ds = None ↔
  ∃ t', rtc unwraps t t' ∧ strip_markdown_fence t' = None ∧ markers_swapped t'.
Proof.
  revert t ds. induction fuel as [|fuel IH]; intros t ds Hf; [lia|]. cbn [unwrap_loop].
  assert (Hstep : ∀ t1 ds1, unwraps t t1 → (∀ t2, unwraps t t2 → t2 = t1) →
    (strip_markdown_fence t = None → extract_wrapped_apply_patch t ≠ None) →
    unwrap_loop fuel t1 ds1 = None ↔
    ∃ t', rtc unwraps t t' ∧ strip_markdown_fence t' = None ∧ markers_swapped t').
  { intros t1 ds1 Hu Hdet Hok. pose proof (unwraps_shorter _ _ Hu). rewrite IH by lia. split.
    - intros (t' & Hr & Ht). exists t'. split; [by eapply rtc_l|done].
    - intros (t' & Hr & Hs & Hm). exists t'. split; [|done].
      destruct Hr as [t'|t' t2 t'' H2 Hr]; [by apply extract_panics_iff, Hok in Hm|].
      by rewrite <-(Hdet _ H2). }
  destruct (strip_markdown_fence t) as [s|] eqn:Es.
  { apply Hstep; [by constructor|intros t2; inversion 1; congruence|done]. }
  destruct (extract_wrapped_apply_patch t) as [[[e d]|]|] eqn:Ee.
  - apply Hstep; [by econstructor|intros t2; inversion 1; congruence|congruence].
  - split; [done|]. intros (t' & Hr & Hs & Hm%extract_panics_iff).
    destruct Hr as [|t0 t2 t'' H2 Hr]; [congruence|]. inversion H2; congruence.
  - split; [|done]. intros _. exists t. split; [done|]. split; [done|]. by apply extract_panics_iff.
Qed.

(** ** The shape of a result *)
Definition patch_ok (f : WorkerPatchFormat) (p : rstring) : Prop :=
  match f with
  | FApplyPatch =>
      looks_like_unified_diff p = false ∧ contains FENCE p = false ∧
      ∃ a, parse_patch p = Some (Ok a) ∧ hunks a ≠ []
  | FUnifiedDiff => looks_like_unified_diff p = true
  end.

(** Which fields a status has, and what is known of them. *)
Definition result_ok (r : MiniMaxDelegationResult) : Prop :=
  match status r with
  | Completed =>
      question r = None ∧ error r = None ∧
      ∃ f s p, format r = Some f ∧ summary r = Some s ∧ s ≠ [] ∧ result_patch r = Some p ∧ patch_ok f p
  | Clarify =>
      format r = None ∧ summary r = None ∧ result_patch r = None ∧ error r = None ∧ is_Some (question r)
  | Invalid =>
      format r = None ∧ summary r = None ∧ result_patch r = None ∧ question r = None ∧ is_Some (error r)
  end.

Lemma invalid_ok m ds cs : result_ok (invalid_with_context_summary m ds cs).
Proof. repeat split; done. Qed.
Lemma clarify_ok q ds cs : result_ok (clarify q ds cs).
Proof. repeat split; done. Qed.

Section Results.
Context {R : RegexCrate} {J : WorkerJson}.
Variable to_lowercase : rstring → rstring.

Lemma normalize_apply_patch_ok p src :
  normalize_apply_patch_text to_lowercase p = Some (Ok src) → patch_ok FApplyPatch (source_patch src).
Proof.
  unfold normalize_apply_patch_text. destruct (start_text PATCH_NOTE p) as [t0 ds0].
  destruct (unwrap_loop _ t0 ds0) as [[t ds]|]; [|done]. cbv zeta.
  destruct (looks_like_unified_diff t) eqn:E1; [done|]. destruct (contains FENCE t) eqn:E2; [done|].
  destruct (contains $"apply_patch <<" t); [done|].
  destruct (parse_patch t) as [[a|e]|] eqn:E3; [|done..].
  destruct (is_empty (hunks a)) eqn:E4; [done|]. intros [= <-]. cbn [patch_ok source_patch].
  split_and!; [done|done|]. exists a. split; [done|]. by intros H; rewrite H in E4.
Qed.

Lemma normalize_for_format_ok f p src :
  normalize_patch_for_format to_lowercase f p = Some (Ok src) → patch_ok f (source_patch src).
Proof.
  destruct f; [apply normalize_apply_patch_ok|]. cbn [normalize_patch_for_format].
  unfold normalize_unified_diff_text. destruct (start_text PATCH_NOTE p) as [t ds].
  destruct (match strip_markdown_fence t with Some _ => _ | None => _ end) as [t' ds'].
  destruct (looks_like_unified_diff t') eqn:E; [|done]. intros [= <-]. exact E.
Qed.

(** What every answer keeps. *)
Definition keeps (cs : option MiniMaxContextSummary) (ds : list rstring) (r : MiniMaxDelegationResult) : Prop :=
  result_ok r ∧ context_summary r = cs ∧ ds `prefix_of` diagnostics r.

Lemma invalid_keeps m ds ds' cs : ds `prefix_of` ds' → keeps cs ds (invalid_with_context_summary m ds' cs).
Proof. split; [apply invalid_ok|done]. Qed.
Lemma clarify_keeps q ds ds' cs : ds `prefix_of` ds' → keeps cs ds (clarify q ds' cs).
Proof. split; [apply clarify_ok|done]. Qed.

Lemma parse_completed_ok r ds cs res : parse_completed to_lowercase r ds cs = Some res → keeps cs ds res.
Proof.
  unfold parse_completed.
  destruct (raw_format r) as [f|]; [|intros [= <-]; by apply invalid_keeps].
  destruct (is_empty (clean_field _ (raw_summary r))) eqn:Es; [intros [= <-]; by apply invalid_keeps|].
  destruct (resolve_patch_source _ _) as [src|e]; [|intros [= <-]; by apply invalid_keeps, prefix_app_r].
  destruct (normalize_patch_for_format _ f _) as [[p|e]|] eqn:En; [| |done]; intros [= <-].
  - split; [|split; [done|cbn; rewrite <-app_assoc; by apply prefix_app_r]].
    repeat split; try done. eexists f, _, _. repeat split; try done; [by intros H; rewrite H in Es|].
    by eapply normalize_for_format_ok.
  - rewrite <-app_assoc. by apply invalid_keeps, prefix_app_r.
Qed.

Lemma parse_keeps output ctx cs res :
  parse_delegate_output to_lowercase output ctx cs = Some res →
  keeps cs (sanitize_diagnostics to_lowercase ctx) res.
Proof.
  unfold parse_delegate_output. set (ds := sanitize_diagnostics to_lowercase ctx).
  destruct (is_empty (trim output)); [intros [= <-]; by apply invalid_keeps|].
  destruct (strip_prefix CLARIFY_PREFIX (trim output)) as [q|]; [intros [= <-]; by apply clarify_keeps|].
  destruct (normalize_worker_output output) as [[text nds]|e];
    [|intros [= <-]; by apply invalid_keeps, prefix_app_r].
  destruct (worker_response text) as [r|].
  - set (ds' := (ds ++ nds) ++ _).
    assert (Hp : ds `prefix_of` ds') by (subst ds'; rewrite <-app_assoc; by apply prefix_app_r).
    destruct (raw_status r).
    + intros (H1 & H2 & H3)%parse_completed_ok. split; [done|]. split; [done|]. by etransitivity.
    + destruct (is_empty _); intros [= <-]; by (apply invalid_keeps || apply clarify_keeps).
    + intros [= <-]. by apply invalid_keeps.
  - intros [= <-]. apply invalid_keeps.
    destruct (detect_raw_patch_format text); rewrite <-?app_assoc; by apply prefix_app_r.
Qed.

(** C29: whatever a worker answers, the result has the fields of its status and
    no others: a completed one has a summary and a patch of its format, an
    apply_patch patch being one that parses, with a file operation in it, and
    is no diff or fenced text; what was noted before it is kept. *)
Theorem delegate_result_shape output ctx cs res :
  parse_delegate_output to_lowercase output ctx cs = Some res →
  result_ok res ∧ context_summary res = cs ∧
  sanitize_diagnostics to_lowercase ctx `prefix_of` diagnostics res.
Proof. apply parse_keeps. Qed.

(** Parsing and validating never run out of fuel. *)
Lemma normalize_apply_patch_panics p :
  normalize_apply_patch_text to_lowercase p = None ↔
  ∃ t, rtc unwraps (start_text PATCH_NOTE p).1 t ∧ strip_markdown_fence t = None ∧ markers_swapped t.
Proof.
  unfold normalize_apply_patch_text. destruct (start_text PATCH_NOTE p) as [t0 ds0]. cbn [fst].
  rewrite <-(unwrap_total (S (length t0)) t0 ds0) by lia.
  destruct (unwrap_loop _ t0 ds0) as [[t ds]|]; [|done]. split; [|done]. cbv zeta.
  destruct (looks_like_unified_diff t); [done|]. destruct (contains FENCE t); [done|].
  destruct (contains $"apply_patch <<" t); [done|]. destruct (parse_patch_text_Some t Lenient) as (r & Hr & _).
  unfold parse_patch. cbn [PARSE_IN_STRICT_MODE]. rewrite Hr. destruct r as [a|]; [|done].
  by destruct (is_empty (hunks a)).
Qed.

Ltac returns :=
  split; [done|]; intros (_ & _ & ? & ? & ? & ? & ? & ? & ? & ? & ? & ? & ? & _); congruence.

(** Reading a worker's answer always returns, except that it panics, and it
    does so exactly when the answer is a completed apply_patch response whose
    patch unwraps to a text in which the only end marker is before the only
    begin marker. *)
Theorem delegate_parse_panics_iff output ctx cs :
  parse_delegate_output to_lowercase output ctx cs = None ↔
  trim output ≠ [] ∧ strip_prefix CLARIFY_PREFIX (trim output) = None ∧
  ∃ text nds r src t,
    normalize_worker_output output = Ok (text, nds) ∧ worker_response text = Some r ∧
    raw_status r = Completed ∧ raw_format r = Some FApplyPatch ∧
    clean_field to_lowercase (raw_summary r) ≠ [] ∧
    resolve_patch_source (raw_patch r) (raw_patch_lines r) = Ok src ∧
    rtc unwraps (start_text PATCH_NOTE (source_patch src)).1 t ∧
    strip_markdown_fence t = None ∧ markers_swapped t.
Proof.
  unfold parse_delegate_output. rewrite <-is_empty_true.
  destruct (is_empty (trim output)); [split; [done|by intros [? _]]|].
  destruct (strip_prefix CLARIFY_PREFIX (trim output)) as [q|]; [split; [done|by intros (_ & ? & _)]|].
  destruct (normalize_worker_output output) as [[text nds]|e]; [|returns].
  destruct (worker_response text) as [r|] eqn:Er; [|returns].
  destruct (raw_status r) eqn:Es; [|returns..].
  unfold parse_completed. destruct (raw_format r) as [[]|] eqn:Ef; [| |returns].
  2: { destruct (is_empty _); [returns|]. destruct (resolve_patch_source _ _); [|returns].
       cbn [normalize_patch_for_format]. destruct (normalize_unified_diff_text _); returns. }
  pose proof (is_empty_true (clean_field to_lowercase (raw_summary r))) as Hc.
  destruct (is_empty _); [assert (clean_field to_lowercase (raw_summary r) = []) by (by apply Hc); returns|].
  destruct (resolve_patch_source (raw_patch r) (raw_patch_lines r)) as [src|] eqn:Erp; [|returns].
  cbn [normalize_patch_for_format]. pose proof (normalize_apply_patch_panics (source_patch src)) as Hn.
  transitivity (normalize_apply_patch_text to_lowercase (source_patch src) = None);
    [destruct (normalize_apply_patch_text _ _) as [[p|e]|]; done|]. rewrite Hn. split.
  - intros (t & Ht). split; [done|]. split; [done|]. exists text, nds, r, src, t.
    split_and!; try done; [|apply Ht..]. by intros Hx; apply Hc in Hx.
  - intros (_ & _ & text' & nds' & r' & src' & t & H1 & H2 & _ & _ & _ & H3 & Ht). exists t.
    assert (r' = r) as -> by congruence. rewrite Erp in H3. by assert (src' = src) as -> by congruence.
Qed.

(** ** What passes validation *)
Lemma first_sensitive_None ps :
  Sensitive.first_sensitive_path to_lowercase ps = None →
  Forall (λ p, Sensitive.is_sensitive_path to_lowercase p = false) ps.
Proof.
  intros H. apply Forall_forall. intros p Hp. apply not_true_is_false. intros Hs.
  apply Sensitive.display_Some in Hs.
  assert (is_Some (Sensitive.first_sensitive_path to_lowercase ps)) as [? ?]; [|congruence].
  apply Sensitive.find_map_Some. by exists p.
Qed.

Section Worktree.
Context {W : Type} `{ExecutorFileSystem W} (home process_cwd : option rstring).
Variable query_matches :
  rstring → result (list (list (rstring * option rstring))) ExtractHeredocError.
Variable text_diff : rstring → rstring → nat → rstring.

Abbreviation validate :=
  (validate_delegate_result_against_worktree to_lowercase home process_cwd query_matches text_diff).

(** The patch may be applied: it parses, names no sensitive path, and every hunk
    of it fits the files. *)
Definition applicable (cwd : rstring) (w : W) (p : rstring) : Prop :=
  ∃ a act base,
    parse_patch p = Some (Ok a) ∧ hunks a ≠ [] ∧
    Forall (λ q, Sensitive.is_sensitive_path to_lowercase q = false) (paths_from_hunks (hunks a)) ∧
    Path.from_absolute_path home process_cwd cwd = Ok base ∧
    maybe_parse_apply_patch_verified query_matches home text_diff [ $"apply_patch"; p ] base w
      = Some (VBody act).

Lemma validate_cases r cwd w r' :
  result_ok r → validate r cwd w = Some r' →
  result_ok r' ∧
  (status r' = Completed → format r' = Some FApplyPatch →
   r' = r ∧ ∃ p, result_patch r' = Some p ∧ applicable cwd w p).
Proof.
  intros Hok. unfold validate_delegate_result_against_worktree.
  assert (Hinv : ∀ e d, result_ok (invalid_from_completed_result to_lowercase r e d) ∧
    (status (invalid_from_completed_result to_lowercase r e d) = Completed →
     format (invalid_from_completed_result to_lowercase r e d) = Some FApplyPatch →
     invalid_from_completed_result to_lowercase r e d = r ∧
     ∃ p, result_patch (invalid_from_completed_result to_lowercase r e d) = Some p ∧ applicable cwd w p))
    by (intros e d; split; [repeat split; done|done]).
  case_bool_decide as Hst; cbn [negb orb]; [|intros [= <-]; done].
  case_bool_decide as Hfm; cbn [negb]; [|intros [= <-]; done].
  pose proof Hok as Hok'. unfold result_ok in Hok'. rewrite Hst in Hok'.
  destruct Hok' as (_ & _ & f & s & p & Hf & _ & _ & Hp & Hpo). rewrite Hp.
  assert (f = FApplyPatch) as -> by congruence. destruct Hpo as (_ & _ & a & Ha & Hne). rewrite Ha.
  destruct (Sensitive.first_sensitive_path _ _) eqn:Esp; [intros [= <-]; apply Hinv|].
  destruct (Path.from_absolute_path home process_cwd cwd) as [base|] eqn:Eb; [|intros [= <-]; apply Hinv].
  destruct (maybe_parse_apply_patch_verified _ _ _ _ base w) as [[act| | |]|] eqn:Ev;
    try done; intros [= <-]; try apply Hinv.
  split; [done|]. intros _ _. split; [done|]. exists p. split; [done|]. exists a, act, base.
  split_and!; try done. by apply first_sensitive_None.
Qed.

(** A patch that the supervising model is given as completed may be applied:
    it parses to at least one file operation, no operation names a sensitive
    path, and it was matched against the files of the work tree; everything else
    the worker may answer becomes a question or an error with no patch. *)
Theorem delegated_patch_applicable output ctx cs cwd w r :
  delegate_result to_lowercase home process_cwd query_matches text_diff output ctx cs cwd w = Some r →
  result_ok r ∧
  (status r = Completed → format r = Some FApplyPatch →
   ∃ p, result_patch r = Some p ∧ applicable cwd w p) ∧
  (status r ≠ Completed → result_patch r = None).
Proof.
  unfold delegate_result. destruct (parse_delegate_output _ output ctx cs) as [r0|] eqn:E; [|done].
  apply parse_keeps in E as (Hok & _). cbn [mbind option_bind]. intros Hv.
  apply validate_cases in Hv as [Hr Hc]; [|done]. split_and!; [done|intros H1 H2; by apply Hc|].
  unfold result_ok in Hr. destruct (status r); naive_solver.
Qed.
End Worktree.
End Results.

(** ** Concrete answers *)
Definition demo_response (f : WorkerPatchFormat) (p : rstring) : RawWorkerResponse :=
  {| raw_status := Completed; raw_format := Some f; raw_summary := Some $"done"; raw_patch := Some p;
     raw_patch_lines := None; raw_question := None; raw_error := None; raw_diagnostics := [] |}.

(** A reader of answers for three fixed texts. *)
Definition demo_json : WorkerJson := {|
  is_json_object t := starts_with $"{" t;
  worker_response t :=
    if t =?s $"{patch}" then Some (demo_response FApplyPatch (FENCE ++ [NL] ++ demo_patch ++ [NL] ++ FENCE))
    else if t =?s $"{diff}" then Some (demo_response FUnifiedDiff $"diff --git a/.env b/.env")
    else if t =?s $"{swapped}" then Some (demo_response FApplyPatch $"*** End Patch, then *** Begin Patch")
    else None
|}.

Abbreviation demo_parse out :=
  (parse_delegate_output (R := Delegation.literal_regex) (J := demo_json) to_ascii_lowercase out [ $"note" ] None).
Abbreviation demo_delegate out :=
  (delegate_result (R := Delegation.literal_regex) (J := demo_json) to_ascii_lowercase None None no_query demo_diff
     out [ $"note" ] None $"/w" demo_fs).

Definition demo_result_of (r : option MiniMaxDelegationResult) : MiniMaxDelegationResult :=
  match r with Some r => r | None => invalid_with_context_summary [] [] None end.

Lemma delegate_result_shape_witness :
  let r := demo_result_of (demo_parse $"Here it is: {patch}") in
  status r = Completed ∧ result_ok r ∧ context_summary r = None ∧
  sanitize_diagnostics (R := Delegation.literal_regex) to_ascii_lowercase [ $"note" ] `prefix_of` diagnostics r.
Proof.
  cbv zeta. split; [vm_compute; reflexivity|].
  apply (delegate_result_shape (R := Delegation.literal_regex) (J := demo_json) to_ascii_lowercase
           $"Here it is: {patch}" [ $"note" ] None).
  vm_compute. reflexivity.
Defined.

Lemma delegated_patch_applicable_witness :
  let r := demo_result_of (demo_delegate $"{patch}") in
  status r = Completed ∧
  ∃ p, result_patch r = Some p ∧
       applicable to_ascii_lowercase None None no_query demo_diff $"/w" demo_fs p.
Proof.
  cbv zeta. split; [vm_compute; reflexivity|].
  refine (proj1 (proj2 (delegated_patch_applicable (R := Delegation.literal_regex) (J := demo_json)
    to_ascii_lowercase None None no_query demo_diff $"{patch}" [ $"note" ] None $"/w" demo_fs
    (demo_result_of (demo_delegate $"{patch}")) _)) _ _); vm_compute; reflexivity.
Defined.

(** An answer with the markers the wrong way round makes the reader panic. *)
Theorem swapped_markers_panic : demo_parse $"{swapped}" = None.
Proof. vm_compute. reflexivity. Qed.

(** A unified diff is not screened for sensitive paths. *)
Theorem unified_diff_not_screened :
  let r := demo_result_of (demo_delegate $"{diff}") in
  status r = Completed ∧ result_patch r = Some $"diff --git a/.env b/.env" ∧
  Sensitive.sensitive_diff_block_path to_ascii_lowercase $"diff --git a/.env b/.env" = Some $".env".
Proof. cbv zeta. split_and!; vm_compute; reflexivity. Qed.
End Response.
