(* ===== verification/ContextPacker.v ===== *)
(** * ContextPacker: the local files that a worker model is shown

    Models codex-rs/core/src/minimax_delegate/context_packer.rs and
    git_status.rs, with [get_git_repo_root] of codex-rs/git-utils/src/info.rs,
    and the summary and request text that minimax_delegate.rs builds from a
    pack: snippets, named files, files mentioned in the task and files that git
    reports as modified are resolved inside the repository, screened, redacted
    and cut to a budget of bytes.

    The file system and the git process are a class of operations; the regex
    crates are those of Delegation and SensitiveOutput.  Budgets are [usize]
    values in Z, texts are cut on char boundaries, and a panic of a slice is
    [None]. *)

From S2P Require Import Prelude AbsPath Truncation Utf8Stream ShellScript Delegation SensitiveOutput PatchParser Replacements PatchApply PatchInvocation DelegateResponse.

Module Context.
Import Response.
(** ** git_status.rs *)
Definition MAX_GIT_CONTEXT_FILES : nat := 5.

Inductive GitStatusCandidate :=
| Modified (path : rstring)
| Deleted (path : rstring)
| Untracked (path : rstring).

Definition normalize_display_path (p : rstring) : rstring := Delegation.replace_chars [92%Z] $"/" p.

(** [split(|b| b == 0)] and the filter of empty records. *)
Definition status_records (output : list Z) : list (list Z) :=
  List.filter (λ r, negb (is_empty r)) (split_on 0 output).

Definition is_rename (c : Z) : bool := (c =? 82)%Z || (c =? 67)%Z.

Definition candidate_of (x y : Z) (path : rstring) : option GitStatusCandidate :=
  if (x =? 63)%Z && (y =? 63)%Z then Some (Untracked path)
  else if (x =? 33)%Z && (y =? 33)%Z then None
  else if (x =? 68)%Z || (y =? 68)%Z then Some (Deleted path)
  else Some (Modified path).

(** The source path of a rename or copy follows its record; untracked and
    ignored entries [continue] before that is looked at. *)
Definition has_source (x y : Z) : bool :=
  negb ((x =? 63)%Z && (y =? 63)%Z) && negb ((x =? 33)%Z && (y =? 33)%Z)
  && (is_rename x || is_rename y).

Section Status.
(** [format!("{:?}", String::from_utf8_lossy(record))]. *)
Variable debug_lossy : list Z → rstring.

Fixpoint parse_records (records : list (list Z)) (candidates : list GitStatusCandidate)
  : result (list GitStatusCandidate) rstring :=
  match records with
  | [] => Ok candidates
  | record :: rest =>
      match record with
      | x :: y :: sep :: bytes =>
          if negb (sep =? 32)%Z then Err ($"unparseable git status entry: " ++ debug_lossy record)
          else match Utf8.from_utf8 bytes with
               | Err _ => Err $"git status returned a non-utf8 path"
               | Ok path =>
                   let candidates :=
                     match candidate_of x y (normalize_display_path path) with
                     | Some c => candidates ++ [c]
                     | None => candidates
                     end in
                   if has_source x y then
                     match rest with
                     | [] => Err $"git status rename/copy entry was missing the source path"
                     | _ :: rest' => parse_records rest' candidates
                     end
                   else parse_records rest candidates
               end
      | _ => Err ($"unparseable git status entry: " ++ debug_lossy record)
      end
  end.

Definition parse_status_porcelain_v1_z (output : list Z) : result (list GitStatusCandidate) rstring :=
  parse_records (status_records output) [].

(** What the [git] process answers: it could not be started, or its exit status
    with what it wrote. *)
Record GitOutput := {
  git_success : bool;
  git_status_text : rstring;
  git_stdout : list Z;
  git_stdout_lossy : rstring;
  git_stderr_lossy : rstring
}.

Definition collect_git_status_candidates (run : result GitOutput rstring)
  : result (list GitStatusCandidate) rstring :=
  let? output := run in
  if negb (git_success output) then
    let stderr := trim (git_stderr_lossy output) in
    let stdout := trim (git_stdout_lossy output) in
    Err (if negb (is_empty stderr) then stderr
         else if negb (is_empty stdout) then stdout
         else $"git exited with status " ++ git_status_text output)
  else parse_status_porcelain_v1_z (git_stdout output).
End Status.

(** ** Packs *)
Record PackedContextFile := {
  path : rstring;
  content : rstring;
  truncated : bool;
  redacted : bool;
  source : MiniMaxContextFileSource
}.

Record ContextPack := {
  files : list PackedContextFile;
  git_modified_paths : list rstring;
  messages : list rstring;
  pack_truncated : bool
}.
Definition ContextPack_default : ContextPack :=
  {| files := []; git_modified_paths := []; messages := []; pack_truncated := false |}.

Record ExplicitContextSnippet := { snippet_path : rstring; snippet_content : rstring }.

Record ContextPackRequest := {
  explicit_files : list rstring;
  explicit_snippets : list ExplicitContextSnippet;
  task_text : rstring;
  include_modified_files : bool
}.

Definition omitted_message (s : MiniMaxContextFileSource) (p reason : rstring) : rstring :=
  match s with
  | GitModified => $"omitted git modified file " ++ p ++ $": " ++ reason
  | _ => $"omitted " ++ p ++ $": " ++ reason
  end.
Definition is_git_modified (s : MiniMaxContextFileSource) : bool :=
  match s with GitModified => true | _ => false end.

Definition push_diag (m : rstring) (ms : list rstring) : list rstring :=
  if str_in m ms then ms else ms ++ [m].

(** What the loops of [pack_with_request] thread through: the pack, the paths
    seen and the bytes that remain. *)
Record PackState := { pack : ContextPack; seen : list rstring; remaining : Z }.

Definition diag (m : rstring) (s : PackState) : PackState :=
  {| pack := {| files := files (pack s); git_modified_paths := git_modified_paths (pack s);
                messages := push_diag m (messages (pack s)); pack_truncated := pack_truncated (pack s) |};
     seen := seen s; remaining := remaining s |}.
Definition set_truncated (s : PackState) : PackState :=
  {| pack := {| files := files (pack s); git_modified_paths := git_modified_paths (pack s);
                messages := messages (pack s); pack_truncated := true |};
     seen := seen s; remaining := remaining s |}.
Definition push_file (f : PackedContextFile) (s : PackState) : PackState :=
  {| pack := {| files := files (pack s) ++ [f]; git_modified_paths := git_modified_paths (pack s);
                messages := messages (pack s); pack_truncated := pack_truncated (pack s) |};
     seen := seen s; remaining := remaining s |}.
Definition push_git_path (p : rstring) (s : PackState) : PackState :=
  {| pack := {| files := files (pack s); git_modified_paths := git_modified_paths (pack s) ++ [p];
                messages := messages (pack s); pack_truncated := pack_truncated (pack s) |};
     seen := seen s; remaining := remaining s |}.
Definition see (k : rstring) (s : PackState) : PackState :=
  {| pack := pack s; seen := k :: seen s; remaining := remaining s |}.
Definition set_remaining (n : Z) (s : PackState) : PackState :=
  {| pack := pack s; seen := seen s; remaining := n |}.

Definition mark_total_budget_exhausted (s : PackState) : PackState :=
  diag $"context truncated: exceeded total budget" (set_truncated s).

(** ** Paths *)

Definition is_path_traversal (p : rstring) : bool :=
  existsb (λ c, match c with Path.ParentDir => true | _ => false end) (Path.components p).

Inductive PathResolution :=
| Resolved (absolute_path display_path : rstring)
| Denied (display_path : rstring)
| OutsideRepo (display_path : rstring)
| Missing (display_path : rstring).

Definition resolution_display (r : PathResolution) : rstring :=
  match r with Resolved _ d | Denied d | OutsideRepo d | Missing d => d end.

(** The file system and git, as the packer uses them. *)
Class WorkTree := {
  path_exists : rstring → bool;
  path_is_dir : rstring → bool;
  canonicalize : rstring → option rstring;
  fs_read : rstring → option (list Z);
  git_status : rstring → result GitOutput rstring
}.

(** ** git-utils *)
Fixpoint find_ancestor_git_entry `{WorkTree} (fuel : nat) (dir : rstring) : option (rstring * rstring) :=
  let dot_git := Path.push dir $".git" in
  if path_exists dot_git then Some (dir, dot_git)
  else match fuel, Path.parent dir with
       | S fuel', Some up => find_ancestor_git_entry fuel' up
       | _, _ => None
       end.

Definition get_git_repo_root `{WorkTree} (base_dir : rstring) : option rstring :=
  base ← (if path_is_dir base_dir then Some base_dir else Path.parent base_dir);
  fst <$> find_ancestor_git_entry (length (Path.components base)) base.

Record ContextPacker := {
  cwd : rstring;
  repo_root : rstring;
  repo_root_canonical : rstring;
  total_budget_bytes : Z;
  per_file_budget_bytes : Z
}.

Definition new_packer `{WorkTree} (cwd : rstring) (total per_file : Z) : ContextPacker :=
  let root := match get_git_repo_root cwd with Some r => r | None => cwd end in
  {| cwd := cwd; repo_root := root; repo_root_canonical := default root (canonicalize root);
     total_budget_bytes := total; per_file_budget_bytes := per_file |}.

Section Pack.
Context {R : RegexCrate} {T : WorkTree}.
Variable to_lowercase : rstring → rstring.
Variable debug_lossy : list Z → rstring.

Definition is_denied_path (p : rstring) : bool := Sensitive.is_sensitive_path to_lowercase p.

Section Packer.
Variable self : ContextPacker.

Definition display_path (p : rstring) : rstring :=
  normalize_display_path (match Path.path_strip_prefix (repo_root self) p with Some q => q | None => p end).

Definition is_inside_repo_lexically (p : rstring) : bool := Path.path_starts_with (repo_root self) p.

(** The checks on a path that exists inside the repository. *)
Definition inside_canonically (p : rstring) : bool :=
  Path.path_starts_with (repo_root_canonical self) (default p (canonicalize p)).

Definition resolve_absolute_path (requested : rstring) : PathResolution :=
  let d := display_path requested in
  if is_denied_path requested || is_denied_path d then Denied d
  else if negb (is_inside_repo_lexically requested) then OutsideRepo d
  else if negb (path_exists requested) then Missing d
  else if negb (inside_canonically requested) then OutsideRepo d
  else Resolved requested d.

(** The loop over the candidates; [None]: none of them exists in the
    repository. *)
Fixpoint first_candidate (candidates : list rstring) : option PathResolution :=
  match candidates with
  | [] => None
  | c :: cs =>
      if negb (is_inside_repo_lexically c) then first_candidate cs
      else if negb (path_exists c) then first_candidate cs
      else
        let d := display_path c in
        Some (if is_denied_path d then Denied d
              else if negb (inside_canonically c) then OutsideRepo d
              else Resolved c d)
  end.

Definition resolve_path (requested : rstring) : PathResolution :=
  if is_empty requested then Missing requested
  else if is_path_traversal requested then OutsideRepo (requested ++ $" (path traversal)")
  else if Path.is_absolute requested then resolve_absolute_path requested
  else if is_denied_path requested then Denied requested
  else
    let in_cwd := Path.push (cwd self) requested in
    let repo_relative := Path.push (repo_root self) requested in
    let candidates := in_cwd :: if Path.path_eqb repo_relative in_cwd then [] else [repo_relative] in
    match first_candidate candidates with
    | Some r => r
    | None => if existsb is_inside_repo_lexically candidates then Missing requested
              else OutsideRepo requested
    end.

Definition add_context_entry (p text : rstring) (per_file : Z) (src : MiniMaxContextFileSource) (s : PackState)
  : option (bool * PackState) :=
  if (remaining s =? 0)%Z then Some (false, mark_total_budget_exhausted s)
  else
    let sanitized := Sensitive.sanitize_output_text to_lowercase text in
    let red := Sensitive.changed sanitized in
    let s := if red then diag ($"redacted potential secret in " ++ p) s else s in
    per_file_content ← Truncate.take_bytes_at_char_boundary (Sensitive.text sanitized) per_file;
    let cut := (str_len per_file_content <? str_len (Sensitive.text sanitized))%Z in
    let s := if cut then
               set_truncated (diag ($"context file " ++ p ++ $" truncated at " ++ Delegation.show_Z per_file
                                    ++ $" bytes") s)
             else s in
    total_content ← Truncate.take_bytes_at_char_boundary per_file_content (remaining s);
    let over := (str_len total_content <? str_len per_file_content)%Z in
    let s := if over then mark_total_budget_exhausted s else s in
    let consumed := str_len total_content in
    let s := set_remaining (sat_sub (remaining s) consumed) s in
    if (consumed =? 0)%Z then Some (false, s)
    else Some (true, push_file {| path := p; content := total_content; truncated := cut || over;
                                  redacted := red; source := src |} s).

Definition contains_nul (bytes : list Z) : bool := existsb (Z.eqb 0) bytes.

Definition pack_file_candidate (requested : rstring) (src : MiniMaxContextFileSource) (s : PackState)
  : option PackState :=
  let resolution := resolve_path requested in
  let key := normalize_display_path (resolution_display resolution) in
  if str_in key (seen s) then Some s
  else
    let s := see key s in
    if (remaining s =? 0)%Z then
      Some (diag (omitted_message src (resolution_display resolution) $"budget exhausted")
              (mark_total_budget_exhausted s))
    else match resolution with
    | Resolved absolute_path d =>
        match fs_read absolute_path with
        | None => Some (diag (omitted_message src d $"file missing") s)
        | Some bytes =>
            if contains_nul bytes then Some (diag (omitted_message src d $"binary/non-utf8") s)
            else match Utf8.from_utf8 bytes with
            | Err _ => Some (diag (omitted_message src d $"binary/non-utf8") s)
            | Ok text =>
                res ← add_context_entry d text (per_file_budget_bytes self) src s;
                let '(added, s) := res in
                Some (if added && is_git_modified src then push_git_path d s else s)
            end
        end
    | Denied d => Some (diag (omitted_message src d $"denied path") s)
    | OutsideRepo d => Some (diag (omitted_message src d $"outside repo") s)
    | Missing d => Some (diag (omitted_message src d $"file missing") s)
    end.

(** The loop over explicit snippets. *)
Fixpoint pack_snippets (snippets : list ExplicitContextSnippet) (s : PackState) : option PackState :=
  match snippets with
  | [] => Some s
  | snippet :: rest =>
      let p := normalize_display_path (snippet_path snippet) in
      if str_in p (seen s) then pack_snippets rest s
      else
        let s := see p s in
        if is_path_traversal p then
          pack_snippets rest
            (diag ($"omitted " ++ snippet_path snippet ++ $": outside repo (path traversal)") s)
        else if is_denied_path p then
          pack_snippets rest (diag ($"omitted " ++ snippet_path snippet ++ $": denied path") s)
        else if (remaining s =? 0)%Z then Some (mark_total_budget_exhausted s)
        else
          res ← add_context_entry p (snippet_content snippet) (per_file_budget_bytes self) ExplicitSnippet s;
          let '(added, s) := res in
          if negb added && (remaining s =? 0)%Z then Some s else pack_snippets rest s
  end.

(** The loops over explicit files and over the paths of the task. *)
Fixpoint pack_candidates (paths : list rstring) (src : MiniMaxContextFileSource) (s : PackState)
  : option PackState :=
  match paths with
  | [] => Some s
  | p :: rest =>
      if (remaining s =? 0)%Z then Some (mark_total_budget_exhausted s)
      else s ← pack_file_candidate p src s; pack_candidates rest src s
  end.

(** The loop that sorts git's candidates into modified, deleted and untracked. *)
Fixpoint sort_candidates (seen : list rstring) (cs : list GitStatusCandidate) (git_seen : list rstring)
    (m d u : list rstring) : list rstring * list rstring * list rstring :=
  match cs with
  | [] => (m, d, u)
  | c :: cs' =>
      let p := normalize_display_path (match c with Modified p | Deleted p | Untracked p => p end) in
      if str_in p seen || str_in p git_seen then sort_candidates seen cs' git_seen m d u
      else match c with
           | Modified _ => sort_candidates seen cs' (p :: git_seen) (m ++ [p]) d u
           | Deleted _ => sort_candidates seen cs' (p :: git_seen) m (d ++ [p]) u
           | Untracked _ => sort_candidates seen cs' (p :: git_seen) m d (u ++ [p])
           end
  end.

(** The loop over the modified files, [index] of them done. *)
Fixpoint pack_modified (index : nat) (paths : list rstring) (s : PackState) : option PackState :=
  match paths with
  | [] => Some s
  | p :: rest =>
      if MAX_GIT_CONTEXT_FILES <=? index then
        pack_modified (S index) rest
          (diag (omitted_message GitModified p $"max git context files exceeded") s)
      else s ← pack_file_candidate p GitModified s; pack_modified (S index) rest s
  end.

Definition diag_all (reason : rstring) (paths : list rstring) (s : PackState) : PackState :=
  fold_left (λ s p, diag (omitted_message GitModified p reason) s) paths s.

Definition pack_git_modified_files (s : PackState) : option PackState :=
  match collect_git_status_candidates debug_lossy (git_status (repo_root self)) with
  | Err reason => Some (diag ($"git status unavailable: " ++ reason) s)
  | Ok candidates =>
      let '(m, d, u) := sort_candidates (seen s) candidates [] [] [] [] in
      let s := diag_all $"deleted file" (Delegation.sort_strings d) s in
      let s := diag_all $"untracked file" (Delegation.sort_strings u) s in
      pack_modified 0 (Delegation.sort_strings m) s
  end.

(** ** Paths named in a task *)
Definition is_path_punctuation (c : char) : bool :=
  existsb (Z.eqb c) [96; 34; 39; 40; 41; 91; 93; 123; 125; 44; 58; 59; 60; 62]%Z.

Definition looks_like_path (token : rstring) : bool :=
  regex_is_match (regex_lit $"^\.?/?[A-Za-z0-9._-]+(?:/[A-Za-z0-9._-]+)+$") token.

Definition task_token (raw : rstring) : rstring :=
  trim_end_matches 46 (trim_end_matches 33 (trim_end_matches 63 (Sensitive.trim_matches is_path_punctuation raw))).

Fixpoint mentioned (raws : list rstring) (seen : list rstring) : list rstring :=
  match raws with
  | [] => []
  | raw :: raws' =>
      let token := task_token raw in
      if is_empty token || contains $"://" token || negb (looks_like_path token) then mentioned raws' seen
      else
        let p := normalize_display_path token in
        if str_in p seen then mentioned raws' seen else p :: mentioned raws' (p :: seen)
  end.
Definition mentioned_task_paths (task : rstring) : list rstring :=
  mentioned (Sensitive.split_whitespace task) [].

Definition pack_with_request (request : ContextPackRequest) : option ContextPack :=
  let s := {| pack := ContextPack_default; seen := []; remaining := total_budget_bytes self |} in
  s ← pack_snippets (explicit_snippets request) s;
  s ← pack_candidates (explicit_files request) ExplicitFile s;
  s ← pack_candidates (mentioned_task_paths (task_text request)) TaskMention s;
  s ← (if include_modified_files request then pack_git_modified_files s else Some s);
  Some (pack s).

Definition pack_plain (efiles : list rstring) (snippets : list ExplicitContextSnippet) (task : rstring)
  : option ContextPack :=
  pack_with_request {| explicit_files := efiles; explicit_snippets := snippets; task_text := task;
                       include_modified_files := false |}.
End Packer.
End Pack.

(** ** What minimax_delegate.rs makes of a pack *)
Definition build_context_summary (p : ContextPack) : option MiniMaxContextSummary :=
  let included := (λ f, {| file_path := path f; file_source := source f; file_truncated := truncated f;
                           file_redacted := redacted f |}) <$> files p in
  let omitted := length (List.filter (starts_with $"omitted ") (messages p)) in
  if is_empty included && (omitted =? 0) then None
  else Some {| included_files := included; omitted_count := omitted |}.

(** ** The invariant of packing *)
Definition total_len (fs : list PackedContextFile) : Z :=
  fold_right (λ f n, (str_len (content f) + n)%Z) 0%Z fs.

Lemma total_len_app a b : total_len (a ++ b) = (total_len a + total_len b)%Z.
Proof. unfold total_len. induction a as [|f a IH]; cbn; [done|]. rewrite IH. lia. Qed.

Section Invariant.
Context {R : RegexCrate} {T : WorkTree}.
Variable to_lowercase : rstring → rstring.
Variable debug_lossy : list Z → rstring.
Variable self : ContextPacker.

Abbreviation sanitized t := (Sensitive.text (Sensitive.sanitize_output_text to_lowercase t)).
Abbreviation denied := (is_denied_path to_lowercase).

(** Where the text of an entry comes from. *)
Definition origin (snippets : list ExplicitContextSnippet) (f : PackedContextFile) (t : rstring) : Prop :=
  match source f with
  | ExplicitSnippet =>
      ∃ sn, sn ∈ snippets ∧ path f = normalize_display_path (snippet_path sn) ∧
            is_path_traversal (path f) = false ∧ t = snippet_content sn
  | _ =>
      ∃ file bytes, fs_read file = Some bytes ∧ Utf8.from_utf8 bytes = Ok t ∧ 0%Z ∉ bytes ∧
        path_exists file = true ∧ is_inside_repo_lexically self file = true ∧
        inside_canonically self file = true ∧ path f = display_path self file
  end.

Definition entry_ok (snippets : list ExplicitContextSnippet) (f : PackedContextFile) : Prop :=
  denied (path f) = false ∧ content f ≠ [] ∧ (str_len (content f) ≤ per_file_budget_bytes self)%Z ∧
  ∃ t, origin snippets f t ∧ content f `prefix_of` sanitized t ∧
       (truncated f = false ↔ content f = sanitized t).

Record pack_inv (snippets : list ExplicitContextSnippet) (s : PackState) : Prop := {
  inv_remaining : (0 ≤ remaining s)%Z;
  inv_budget : (total_len (files (pack s)) + remaining s = total_budget_bytes self)%Z;
  inv_entries : Forall (entry_ok snippets) (files (pack s));
  inv_distinct : NoDup (path <$> files (pack s));
  inv_seen : ∀ f, f ∈ files (pack s) → path f ∈ seen s;
  inv_git : git_modified_paths (pack s) = path <$> List.filter (λ f, is_git_modified (source f)) (files (pack s));
  inv_flag : existsb truncated (files (pack s)) = true → pack_truncated (pack s) = true
}.

(** States that differ in messages and the flag only, once set it stays. *)
Definition notes (s s' : PackState) : Prop :=
  files (pack s') = files (pack s) ∧ git_modified_paths (pack s') = git_modified_paths (pack s) ∧
  seen s' = seen s ∧ remaining s' = remaining s ∧
  (pack_truncated (pack s) = true → pack_truncated (pack s') = true).

Lemma notes_refl s : notes s s.
Proof. done. Qed.
Lemma notes_trans s1 s2 s3 : notes s1 s2 → notes s2 s3 → notes s1 s3.
Proof. unfold notes. intros (? & ? & ? & ? & ?) (? & ? & ? & ? & ?). split_and!; auto; congruence. Qed.
Lemma notes_diag m s : notes s (diag m s).
Proof. done. Qed.
Lemma notes_mark s : notes s (mark_total_budget_exhausted s).
Proof. done. Qed.
Lemma notes_truncated s : notes s (set_truncated s).
Proof. done. Qed.

Lemma inv_notes sn s s' : notes s s' → pack_inv sn s → pack_inv sn s'.
Proof.
  intros (Hf & Hg & Hs & Hr & Ht) []. split; rewrite ?Hf, ?Hg, ?Hs, ?Hr; try done. intros H%inv_flag0. auto.
Qed.
Lemma inv_see sn k s : pack_inv sn s → pack_inv sn (see k s).
Proof. intros []. split; try done. intros f Hf. apply list_elem_of_further. auto. Qed.

Lemma filter_snoc {A} (f : A → bool) l x : List.filter f (l ++ [x]) = List.filter f l ++ if f x then [x] else [].
Proof. rewrite List.filter_app. cbn. by destruct (f x). Qed.

(** Adding an entry. *)
Lemma inv_push sn f s :
  pack_inv sn s → entry_ok sn f → path f ∉ path <$> files (pack s) → path f ∈ seen s →
  (str_len (content f) ≤ remaining s)%Z → (truncated f = true → pack_truncated (pack s) = true) →
  let s' := push_file f (set_remaining (remaining s - str_len (content f)) s) in
  pack_inv sn (if is_git_modified (source f) then push_git_path (path f) s' else s').
Proof.
  intros [] Hf Hp Hs Hr Ht. cbn.
  assert (Hfs : ∀ s', files (pack s') = files (pack s) ++ [f] → seen s' = seen s →
    remaining s' = (remaining s - str_len (content f))%Z → pack_truncated (pack s') = pack_truncated (pack s) →
    git_modified_paths (pack s') = git_modified_paths (pack s) ++ (if is_git_modified (source f) then [path f] else []) →
    pack_inv sn s').
  { intros s' Ef Es Er Et Eg. split; rewrite ?Ef, ?Es, ?Er, ?Et, ?Eg.
    - lia.
    - rewrite total_len_app. cbn. lia.
    - by apply Forall_app_2, Forall_singleton.
    - rewrite fmap_app. apply NoDup_app. split_and!; [done| |apply NoDup_singleton].
      intros x Hx ->%list_elem_of_singleton. done.
    - intros x [Hx|Hx]%elem_of_app; [auto|]. by apply list_elem_of_singleton in Hx as ->.
    - rewrite filter_snoc, fmap_app, inv_git0. by destruct (is_git_modified (source f)).
    - rewrite existsb_app. cbn. rewrite orb_false_r. intros [H|H]%orb_true_iff; auto. }
  destruct (is_git_modified (source f)) eqn:E; apply Hfs; try done; cbn; by rewrite ?app_nil_r.
Qed.

Lemma str_len_prefix a b : a `prefix_of` b → (str_len a < str_len b)%Z ∨ a = b.
Proof.
  intros [[|c r] ->]; [right; by rewrite app_nil_r|left]. rewrite Truncate.str_len_app, Truncate.str_len_cons.
  pose proof (Truncate.char_len_pos c). pose proof (Truncate.str_len_nonneg r). lia.
Qed.

(** Cutting a text to two budgets in turn. *)
Lemma cut_twice t per rest :
  (0 ≤ per)%Z → (0 ≤ rest)%Z →
  ∃ a b, Truncate.take_bytes_at_char_boundary t per = Some a ∧
         Truncate.take_bytes_at_char_boundary a rest = Some b ∧
         a `prefix_of` t ∧ b `prefix_of` a ∧ (str_len b ≤ per)%Z ∧ (str_len b ≤ rest)%Z.
Proof.
  intros Hp Hr. rewrite Truncate.take_bytes_fit by done. eexists _, _. split; [done|].
  rewrite Truncate.take_bytes_fit by done. split; [done|].
  destruct (Truncate.fit_spec per t) as (r1 & H1 & Hl1 & _); [done|].
  destruct (Truncate.fit_spec rest (Truncate.fit per t)) as (r2 & H2 & Hl2 & _); [done|].
  split_and!; [by exists r1|by exists r2| |done].
  rewrite H2, Truncate.str_len_app in Hl1. pose proof (Truncate.str_len_nonneg r2). lia.
Qed.

(** The entry that is added, if any. *)
Lemma add_context_entry_inv sn p t src s :
  (0 ≤ per_file_budget_bytes self)%Z → pack_inv sn s → denied p = false →
  p ∉ path <$> files (pack s) → p ∈ seen s →
  (∀ c tr rd, origin sn {| path := p; content := c; truncated := tr; redacted := rd; source := src |} t) →
  ∃ added s', add_context_entry to_lowercase p t (per_file_budget_bytes self) src s = Some (added, s') ∧
    pack_inv sn (if added && is_git_modified src then push_git_path p s' else s') ∧
    git_modified_paths (pack s') = git_modified_paths (pack s).
Proof.
  intros Hper Hi Hd Hp Hseen Ho. unfold add_context_entry.
  destruct (remaining s =? 0)%Z; [eexists _, _; split; [done|]; split; [by eapply inv_notes, Hi|done]|].
  set (r := Sensitive.sanitize_output_text to_lowercase t). set (s1 := if Sensitive.changed r then _ else s).
  destruct (cut_twice (Sensitive.text r) (per_file_budget_bytes self) (remaining s)) as
    (a & b & Ha & Hb & Hat & Hba & Hbp & Hbr); [done|by destruct Hi|].
  rewrite Ha. cbn [mbind option_bind]. set (cut := (str_len a <? str_len (Sensitive.text r))%Z).
  set (s2 := if cut then _ else s1).
  assert (H2 : notes s s2 ∧ (cut = true → pack_truncated (pack s2) = true))
    by (subst s2 s1; by destruct cut, (Sensitive.changed r)).
  destruct H2 as [H2 Ht2]. assert (remaining s2 = remaining s) as -> by apply H2.
  rewrite Hb. cbn [mbind option_bind]. set (over := (str_len b <? str_len a)%Z).
  set (s3 := if over then mark_total_budget_exhausted s2 else s2).
  assert (H3 : notes s s3 ∧ (cut || over = true → pack_truncated (pack s3) = true))
    by (subst s3; clearbody s2 over cut; destruct over;
        (split; [by eapply notes_trans|]; rewrite ?orb_false_r; done)).
  clearbody s3. destruct H3 as [H3 Ht3]. pose proof (inv_notes _ _ _ H3 Hi) as Hi3.
  assert (Hr3 : remaining s3 = remaining s) by apply H3.
  assert (sat_sub (remaining s3) (str_len b) = (remaining s3 - str_len b)%Z) as ->
    by (unfold sat_sub; rewrite Z.max_l; lia).
  destruct (str_len b =? 0)%Z eqn:Eb.
  - apply Z.eqb_eq in Eb. rewrite Eb, Z.sub_0_r. eexists _, _. split; [done|]. split; [|apply H3].
    destruct Hi3. by split.
  - apply Z.eqb_neq in Eb. eexists _, _. split; [done|]. split; [|apply H3]. cbn [andb].
    set (f := {| path := p; content := b; truncated := _; redacted := _; source := _ |}).
    assert (Hff : files (pack s3) = files (pack s)) by apply H3.
    apply (inv_push sn f s3); try done; [|by rewrite Hff|cbn; by rewrite (proj1 (proj2 (proj2 H3)))|cbn; lia].
    split_and!; [done|by intros Hx; cbn in Hx; rewrite Hx in Eb|done|]. exists t. split_and!; [apply Ho|by etransitivity|].
    subst cut over. change (truncated f) with ((str_len a <? str_len (Sensitive.text r)) || (str_len b <? str_len a))%Z.
    change (content f) with b. rewrite orb_false_iff, !Z.ltb_ge. split.
    + intros [E1 E2]. destruct (str_len_prefix _ _ Hba) as [?|H']; [lia|].
      destruct (str_len_prefix _ _ Hat) as [?|H'']; [lia|]. by rewrite H', H''.
    + intros Heq. assert (Hlen : str_len b = str_len (Sensitive.text r)) by by rewrite Heq.
      destruct (str_len_prefix _ _ Hba) as [?| ->], (str_len_prefix _ _ Hat) as [?| ->]; lia.
Qed.

Lemma normalize_idem p : normalize_display_path (normalize_display_path p) = normalize_display_path p.
Proof.
  unfold normalize_display_path, Delegation.replace_chars. induction p as [|c p IH]; [done|].
  cbn [fmap list_fmap concat]. destruct (existsb (Z.eqb c) [92%Z]) eqn:E.
  - rewrite fmap_app, concat_app. change ($"/") with [47%Z] at 1 2 3. f_equal. exact IH.
  - cbn [app fmap list_fmap concat]. rewrite E. cbn [app]. f_equal. exact IH.
Qed.

(** What a resolved path is. *)
Definition resolved_ok (file d : rstring) : Prop :=
  path_exists file = true ∧ is_inside_repo_lexically self file = true ∧ inside_canonically self file = true ∧
  d = display_path self file ∧ denied d = false.

Lemma first_candidate_ok cs file d :
  first_candidate to_lowercase self cs = Some (Resolved file d) → resolved_ok file d.
Proof.
  induction cs as [|c cs IH]; cbn [first_candidate]; [done|].
  destruct (is_inside_repo_lexically self c) eqn:E1; cbn [negb]; [|done].
  destruct (path_exists c) eqn:E2; cbn [negb]; [|done]. clear IH.
  destruct (denied (display_path self c)) eqn:E3; [done|].
  destruct (inside_canonically self c) eqn:E4; cbn [negb]; [|done]. intros [= <- <-]. by split_and!.
Qed.

Lemma resolve_path_ok p file d : resolve_path to_lowercase self p = Resolved file d → resolved_ok file d.
Proof.
  unfold resolve_path. destruct (is_empty p); [done|]. destruct (is_path_traversal p); [done|].
  destruct (Path.is_absolute p).
  - unfold resolve_absolute_path. destruct (denied p || denied (display_path self p)) eqn:E1; [done|].
    destruct (is_inside_repo_lexically self p) eqn:E2; cbn [negb]; [|done].
    destruct (path_exists p) eqn:E3; cbn [negb]; [|done].
    destruct (inside_canonically self p) eqn:E4; cbn [negb]; [|done].
    intros [= <- <-]. apply orb_false_iff in E1 as [_ E1]. by split_and!.
  - destruct (denied p); [done|]. cbv zeta.
    set (cs := Path.push (cwd self) p :: _).
    destruct (first_candidate to_lowercase self cs) as [r|] eqn:E; [intros ->; by eapply first_candidate_ok|].
    by destruct (existsb _ cs).
Qed.

(** What an operation on a state guarantees, with [n] the git files it may add. *)
Definition packs (sn : list ExplicitContextSnippet) (n : nat) (s : PackState) (o : option PackState) : Prop :=
  ∃ s', o = Some s' ∧ pack_inv sn s' ∧
        length (git_modified_paths (pack s')) ≤ length (git_modified_paths (pack s)) + n.

Lemma packs_notes sn n s s1 s' : pack_inv sn s1 → pack s1 = pack s → notes s1 s' → packs sn n s (Some s').
Proof.
  intros Hi He Hn. exists s'. split; [done|]. split; [by eapply inv_notes|].
  destruct Hn as (_ & -> & _). rewrite He. lia.
Qed.

Lemma packs_bind sn n m s o k :
  packs sn n s o → (∀ s', pack_inv sn s' → packs sn m s' (k s')) → packs sn (n + m) s (o ≫= k).
Proof.
  intros (s' & -> & Hi & Hl) Hk. destruct (Hk s' Hi) as (s'' & Hs & Hi' & Hl'). cbn.
  exists s''. split; [done|]. split; [done|]. lia.
Qed.

Lemma packs_refl sn n s : pack_inv sn s → packs sn n s (Some s).
Proof. intros Hi. by apply (packs_notes _ _ _ s). Qed.

Lemma pack_file_candidate_packs sn p src s :
  (0 ≤ per_file_budget_bytes self)%Z → src ≠ ExplicitSnippet → pack_inv sn s →
  packs sn (if is_git_modified src then 1 else 0) s (pack_file_candidate to_lowercase self p src s).
Proof.
  intros Hper Hsrc Hi. unfold pack_file_candidate.
  set (key := normalize_display_path (resolution_display (resolve_path to_lowercase self p))).
  destruct (str_in key (seen s)) eqn:Ek; [by apply packs_refl|].
  apply str_in_not_elem in Ek. pose proof (inv_see sn key s Hi) as Hi1.
  assert (Hnote : ∀ s', notes (see key s) s' → packs sn (if is_git_modified src then 1 else 0) s (Some s'))
    by (intros s'; by apply packs_notes). cbv zeta.
  destruct (remaining (see key s) =? 0)%Z; [by apply Hnote|].
  destruct (resolve_path to_lowercase self p) as [file d|d|d|d] eqn:Er; [|by apply Hnote..].
  apply resolve_path_ok in Er as (He & Hl & Hc & Hd & Hden).
  destruct (fs_read file) as [bytes|] eqn:Eb; [|by apply Hnote].
  destruct (contains_nul bytes) eqn:Ez; [by apply Hnote|].
  destruct (Utf8.from_utf8 bytes) as [t|] eqn:Eu; [|by apply Hnote].
  assert (Hkey : key = d) by (subst key; cbn; rewrite Hd; apply normalize_idem).
  destruct (add_context_entry_inv sn d t src (see key s)) as (added & s' & -> & Hi' & Hg); try done.
  { intros (f & Hf & Hin)%list_elem_of_fmap. apply Ek. rewrite Hkey, Hf. by destruct Hi; auto. }
  { rewrite Hkey. apply list_elem_of_here. }
  { intros c tr rd. assert (0%Z ∉ bytes).
    { intros H0%list_elem_of_In. unfold contains_nul in Ez. apply not_true_iff_false in Ez. apply Ez.
      apply existsb_exists. by exists 0%Z. }
    unfold origin. cbn [source path]. destruct src; try done; exists file, bytes; by split_and!. }
  cbn [mbind option_bind]. eexists. split; [done|]. split; [done|].
  destruct added, (is_git_modified src); cbn [andb]; cbn; rewrite ?length_app, Hg; cbn; lia.
Qed.

Lemma pack_candidates_packs sn ps src s :
  (0 ≤ per_file_budget_bytes self)%Z → src ≠ ExplicitSnippet → is_git_modified src = false → pack_inv sn s →
  packs sn 0 s (pack_candidates to_lowercase self ps src s).
Proof.
  intros Hper Hsrc Hg. revert s. induction ps as [|p ps IH]; intros s Hi; cbn [pack_candidates]; [by apply packs_refl|].
  destruct (remaining s =? 0)%Z; [by apply (packs_notes _ _ _ s)|].
  apply (packs_bind _ 0 0); [|done]. pose proof (pack_file_candidate_packs sn p src s Hper Hsrc Hi) as H.
  by rewrite Hg in H.
Qed.

Lemma pack_snippets_packs all snippets s :
  (0 ≤ per_file_budget_bytes self)%Z → (∀ x, x ∈ snippets → x ∈ all) → pack_inv all s →
  packs all 0 s (pack_snippets to_lowercase self snippets s).
Proof.
  intros Hper. revert s. induction snippets as [|x l IH]; intros s Hall Hi; cbn [pack_snippets]; [by apply packs_refl|].
  assert (Hl : ∀ y, y ∈ l → y ∈ all) by (intros; apply Hall; by apply list_elem_of_further).
  set (p := normalize_display_path (snippet_path x)).
  destruct (str_in p (seen s)) eqn:Ek; [by apply IH|]. apply str_in_not_elem in Ek.
  pose proof (inv_see all p s Hi) as Hi1.
  assert (Hskip : ∀ s', notes (see p s) s' → packs all 0 s (pack_snippets to_lowercase self l s')).
  { intros s' Hn. destruct (IH s' Hl (inv_notes _ _ _ Hn Hi1)) as (s'' & -> & Hi'' & Hlen).
    exists s''. split_and!; [done|done|]. by rewrite (proj1 (proj2 Hn)) in Hlen. }
  cbv zeta. destruct (is_path_traversal p) eqn:Et; [by apply Hskip|].
  destruct (denied p) eqn:Ed; [by apply Hskip|].
  destruct (remaining (see p s) =? 0)%Z; [by apply (packs_notes _ _ _ (see p s))|].
  destruct (add_context_entry_inv all p (snippet_content x) ExplicitSnippet (see p s))
    as (added & s' & -> & Hi' & Hg); try done.
  { intros (f & Hf & Hin)%list_elem_of_fmap. apply Ek. rewrite Hf. by destruct Hi; auto. }
  { apply list_elem_of_here. }
  { intros c tr rd. exists x. split_and!; try done. apply Hall, list_elem_of_here. }
  rewrite andb_false_r in Hi'. cbn [mbind option_bind].
  assert (Hgs : length (git_modified_paths (pack s')) ≤ length (git_modified_paths (pack s)) + 0)
    by (rewrite Hg; cbn; lia).
  destruct (negb added && _); [by exists s'|].
  destruct (IH s' Hl Hi') as (s'' & -> & Hi'' & Hlen). exists s''. split_and!; [done|done|lia].
Qed.

Lemma pack_modified_packs sn index ps s :
  (0 ≤ per_file_budget_bytes self)%Z → pack_inv sn s →
  packs sn (MAX_GIT_CONTEXT_FILES - index) s (pack_modified to_lowercase self index ps s).
Proof.
  intros Hper. revert index s. induction ps as [|p ps IH]; intros index s Hi; cbn [pack_modified]; [by apply packs_refl|].
  destruct (MAX_GIT_CONTEXT_FILES <=? index) eqn:E.
  - apply Nat.leb_le in E. set (s' := diag _ s). replace (MAX_GIT_CONTEXT_FILES - index) with (MAX_GIT_CONTEXT_FILES - S index) by lia.
    exact (IH (S index) s' (inv_notes sn s s' (notes_diag _ s) Hi)).
  - apply Nat.leb_gt in E. replace (MAX_GIT_CONTEXT_FILES - index) with (1 + (MAX_GIT_CONTEXT_FILES - S index)) by lia.
    apply packs_bind; [by apply (pack_file_candidate_packs sn p GitModified s)|]. intros s'. apply IH.
Qed.

Lemma diag_all_notes reason ps s : notes s (diag_all reason ps s).
Proof.
  unfold diag_all. revert s. induction ps as [|p ps IH]; intros s; cbn [fold_left]; [apply notes_refl|].
  eapply notes_trans; [apply notes_diag|apply IH].
Qed.

Lemma pack_git_packs sn s :
  (0 ≤ per_file_budget_bytes self)%Z → pack_inv sn s →
  packs sn MAX_GIT_CONTEXT_FILES s (pack_git_modified_files to_lowercase debug_lossy self s).
Proof.
  intros Hper Hi. unfold pack_git_modified_files.
  destruct (collect_git_status_candidates _ _) as [cs|]; [|by apply (packs_notes _ _ _ s)].
  destruct (sort_candidates _ cs _ _ _ _) as [[m d] u]. cbv zeta.
  set (s1 := diag_all _ _ s). set (s2 := diag_all _ _ s1).
  assert (Hn : notes s s2) by (eapply notes_trans; apply diag_all_notes).
  destruct (pack_modified_packs sn 0 (Delegation.sort_strings m) s2 Hper (inv_notes _ _ _ Hn Hi)) as (s' & -> & Hi' & Hl).
  exists s'. split_and!; [done|done|]. by rewrite (proj1 (proj2 Hn)) in Hl.
Qed.

Lemma pack_request_packs req :
  (0 ≤ per_file_budget_bytes self)%Z → (0 ≤ total_budget_bytes self)%Z →
  ∃ s, pack_with_request to_lowercase debug_lossy self req = Some (pack s) ∧
       pack_inv (explicit_snippets req) s ∧
       length (git_modified_paths (pack s)) ≤ (if include_modified_files req then MAX_GIT_CONTEXT_FILES else 0).
Proof.
  intros Hper Htot. unfold pack_with_request. set (s0 := Build_PackState _ _ _).
  assert (H0 : pack_inv (explicit_snippets req) s0) by (split; cbn; try done; try lia; [constructor|set_solver]).
  assert (H : packs (explicit_snippets req) (0 + (0 + (0 + if include_modified_files req then MAX_GIT_CONTEXT_FILES else 0))) s0
    (s ← pack_snippets to_lowercase self (explicit_snippets req) s0;
     s ← pack_candidates to_lowercase self (explicit_files req) ExplicitFile s;
     s ← pack_candidates to_lowercase self (mentioned_task_paths (task_text req)) TaskMention s;
     (if include_modified_files req then pack_git_modified_files to_lowercase debug_lossy self s else Some s))).
  { apply packs_bind; [by apply pack_snippets_packs|]. intros s1 H1.
    apply packs_bind; [by apply pack_candidates_packs|]. intros s2 H2.
    apply packs_bind; [by apply pack_candidates_packs|]. intros s3 H3.
    destruct (include_modified_files req); [by apply pack_git_packs|by apply packs_refl]. }
  destruct H as (s & Hs & Hi & Hl). exists s. split; [|by split].
  destruct (pack_snippets _ _ _ s0) as [s1|]; [|done]. cbn [mbind option_bind] in Hs |- *.
  destruct (pack_candidates _ _ _ ExplicitFile s1) as [s2|]; [|done]. cbn [mbind option_bind] in Hs |- *.
  destruct (pack_candidates _ _ _ TaskMention s2) as [s3|]; [|done]. cbn [mbind option_bind] in Hs |- *.
  by rewrite Hs.
Qed.

(** C30: packing context always succeeds and keeps to its budgets: the contents
    add up to no more than the total, each is nonempty and within the budget of
    a file; each is the beginning of the redaction of its text, and its entry is
    marked as truncated exactly when it is not all of it, in which case the pack is
    marked too; and at most five files come from git, only when asked for. *)
Theorem context_within_budget req :
  (0 ≤ per_file_budget_bytes self)%Z → (0 ≤ total_budget_bytes self)%Z →
  ∃ p, pack_with_request to_lowercase debug_lossy self req = Some p ∧
    (total_len (files p) ≤ total_budget_bytes self)%Z ∧
    Forall (λ f, content f ≠ [] ∧ (str_len (content f) ≤ per_file_budget_bytes self)%Z ∧
                 (∃ t, origin (explicit_snippets req) f t ∧ content f `prefix_of` sanitized t ∧
                       (truncated f = true ↔ content f ≠ sanitized t)) ∧
                 (truncated f = true → pack_truncated p = true)) (files p) ∧
    git_modified_paths p = path <$> List.filter (λ f, is_git_modified (source f)) (files p) ∧
    length (git_modified_paths p) ≤ (if include_modified_files req then MAX_GIT_CONTEXT_FILES else 0).
Proof.
  intros Hper Htot. destruct (pack_request_packs req Hper Htot) as (s & Hs & Hi & Hl).
  exists (pack s). split; [done|]. pose proof (inv_flag _ _ Hi) as Hflag. destruct Hi. split; [lia|].
  split; [|done]. apply Forall_forall. intros f Hf. rewrite Forall_forall in inv_entries0.
  destruct (inv_entries0 f Hf) as (_ & Hc & Hl' & t & Ho & Hpre & Ht0). split_and!; [done|done| |].
  { exists t. split_and!; [done|done|]. rewrite <-Ht0. by destruct (truncated f). }
  intros Ht. apply Hflag, existsb_exists. exists f. by rewrite <-list_elem_of_In.
Qed.

(** A worker is shown redacted text of allowed places only: every entry of a
    pack has a path that is not sensitive, no two have the same path, and its
    content is the beginning (all of it, unless marked truncated) of the
    redaction of a given snippet, or of a file that exists, is text, and lies in
    the repository both as written and with links resolved. *)
Theorem context_shows_allowed_files req p :
  (0 ≤ per_file_budget_bytes self)%Z → (0 ≤ total_budget_bytes self)%Z →
  pack_with_request to_lowercase debug_lossy self req = Some p →
  NoDup (path <$> files p) ∧
  Forall (λ f, is_denied_path to_lowercase (path f) = false ∧
               ∃ t, origin (explicit_snippets req) f t ∧ content f `prefix_of` sanitized t ∧
                    (truncated f = false → content f = sanitized t)) (files p).
Proof.
  intros Hper Htot Hp. destruct (pack_request_packs req Hper Htot) as (s & Hs & Hi & _).
  assert (p = pack s) as -> by congruence. destruct Hi. split; [done|].
  eapply Forall_impl; [exact inv_entries0|]. intros f (H1 & _ & _ & t & Ho & Hpre & Ht0). split; [done|].
  exists t. split_and!; [done|done|]. apply Ht0.
Qed.
End Invariant.

(** ** Reading git's status *)

(** An entry as git writes it with [--porcelain=v1 -z]. *)
Record StatusEntry := { st_x : Z; st_y : Z; st_path : list Z; st_source : list Z }.

Definition entry_records (e : StatusEntry) : list (list Z) :=
  (st_x e :: st_y e :: 32%Z :: st_path e) :: if has_source (st_x e) (st_y e) then [st_source e] else [].
Definition print_status (es : list StatusEntry) : list Z :=
  concat ((λ r, r ++ [0%Z]) <$> (es ≫= entry_records)).

Definition wf_entry (e : StatusEntry) : Prop :=
  (st_x e ≠ 0 ∧ st_y e ≠ 0)%Z ∧ 0%Z ∉ st_path e ∧ is_ok (Utf8.from_utf8 (st_path e)) = true ∧
  st_source e ≠ [] ∧ 0%Z ∉ st_source e.

Definition entry_candidate (e : StatusEntry) : option GitStatusCandidate :=
  match Utf8.from_utf8 (st_path e) with
  | Ok p => candidate_of (st_x e) (st_y e) (normalize_display_path p)
  | Err _ => None
  end.

Lemma status_records_print rs :
  Forall (λ r, r ≠ [] ∧ 0%Z ∉ r) rs → status_records (concat ((λ r, r ++ [0%Z]) <$> rs)) = rs.
Proof.
  unfold status_records. induction 1 as [|r rs [Hne Hr] _ IH]; [done|].
  cbn [fmap list_fmap concat]. rewrite <-app_assoc. cbn [app]. rewrite split_on_app_sep by done.
  cbn [List.filter]. apply is_empty_false in Hne as ->. cbn [negb]. by rewrite IH.
Qed.

Lemma records_wf es : Forall wf_entry es → Forall (λ r, r ≠ [] ∧ 0%Z ∉ r) (es ≫= entry_records).
Proof.
  induction 1 as [|e es ([Hx Hy] & Hp & _ & Hs & Hs0) _ IH]; [done|]. cbn [mbind list_bind].
  apply Forall_app_2; [|done]. unfold entry_records. constructor.
  - split; [done|]. rewrite !not_elem_of_cons. split_and!; congruence || done.
  - destruct (has_source _ _); [|done]. by apply Forall_singleton.
Qed.

(** What git reports is read back exactly: an untracked entry is untracked,
    an ignored one is dropped, one deleted in the index or the work tree is
    deleted, any other is modified, and the source of a rename or copy is not
    taken for an entry. *)
Theorem status_roundtrip debug es :
  Forall wf_entry es → parse_status_porcelain_v1_z debug (print_status es) = Ok (omap entry_candidate es).
Proof.
  intros Hes. unfold parse_status_porcelain_v1_z, print_status.
  rewrite status_records_print by (by apply records_wf).
  assert (Hgen : ∀ acc, parse_records debug (es ≫= entry_records) acc = Ok (acc ++ omap entry_candidate es));
    [|apply Hgen].
  induction Hes as [|e es (_ & _ & Hu & _) _ IH]; intros acc; [cbn; by rewrite app_nil_r|].
  cbn [mbind list_bind entry_records omap list_omap]. unfold entry_records, entry_candidate. cbn [app parse_records].
  rewrite Z.eqb_refl. cbn [negb].
  destruct (Utf8.from_utf8 (st_path e)) as [p|]; [|done].
  destruct (candidate_of _ _ _); destruct (has_source _ _); cbn [app]; rewrite IH, <-?app_assoc; done.
Qed.

(** ** A work tree *)
Definition demo_tree : WorkTree := {|
  path_exists p := str_in p [ $"/r/.git"; $"/r/a.txt"; $"/r/link"; $"/r/.env" ];
  path_is_dir p := p =?s $"/r";
  canonicalize p := Some (if p =?s $"/r/link" then $"/r/.env" else p);
  fs_read p := if p =?s $"/r/a.txt" then Some [104; 105]%Z
               else if str_in p [ $"/r/link"; $"/r/.env" ] then Some [107; 61; 118]%Z else None;
  git_status _ := Ok {| git_success := true; git_status_text := [];
                        git_stdout := [32; 77; 32; 97; 46; 116; 120; 116; 0]%Z;
                        git_stdout_lossy := []; git_stderr_lossy := [] |}
|}.
Definition demo_request (fs : list rstring) : ContextPackRequest :=
  {| explicit_files := fs;
     explicit_snippets := [ {| snippet_path := $"s.rs"; snippet_content := $"fn main" |} ];
     task_text := []; include_modified_files := true |}.
Definition demo_packer : ContextPacker := new_packer (H := demo_tree) $"/r" 8 4.

Abbreviation demo_pack fs :=
  (pack_with_request (R := Delegation.literal_regex) (T := demo_tree) to_ascii_lowercase (λ _, [])
     demo_packer (demo_request fs)).

Example demo_packed :
  (files <$> demo_pack [ $".env" ]) =
  Some [ {| path := $"s.rs"; content := $"fn m"; truncated := true; redacted := false; source := ExplicitSnippet |};
         {| path := $"a.txt"; content := $"hi"; truncated := false; redacted := false; source := GitModified |} ].
Proof. vm_compute. reflexivity. Qed.

Lemma context_within_budget_witness :
  ∃ p, demo_pack [] = Some p ∧ (total_len (files p) ≤ 8)%Z.
Proof.
  destruct (context_within_budget (R := Delegation.literal_regex) (T := demo_tree) to_ascii_lowercase (λ _, [])
              demo_packer (demo_request [])) as (p & Hp & Hb & _).
  - vm_compute. discriminate.
  - vm_compute. discriminate.
  - exists p. split; [exact Hp|exact Hb].
Defined.

Definition demo_packed_context (fs : list rstring) : ContextPack := default ContextPack_default (demo_pack fs).

Lemma context_shows_allowed_files_witness :
  length (files (demo_packed_context [])) = 2 ∧ NoDup (path <$> files (demo_packed_context [])).
Proof.
  split; [vm_compute; reflexivity|].
  eapply (context_shows_allowed_files (R := Delegation.literal_regex) (T := demo_tree) to_ascii_lowercase (λ _, [])
            demo_packer (demo_request [])).
  - vm_compute. discriminate.
  - vm_compute. discriminate.
  - vm_compute. reflexivity.
Defined.

Lemma status_roundtrip_witness :
  parse_status_porcelain_v1_z (λ _, [])
    (print_status [ {| st_x := 82; st_y := 32; st_path := [98%Z]; st_source := [97%Z] |} ]) = Ok [Modified $"b"].
Proof.
  rewrite status_roundtrip; [vm_compute; reflexivity|]. repeat constructor; try done; vm_decide.
Defined.

(** A link inside the repository with an innocent name is shown although the
    file it leads to is one that may not be: the deny list is checked on the name
    of the link only. *)
Theorem link_to_denied_file_packed :
  is_denied_path to_ascii_lowercase (default [] (canonicalize (WorkTree := demo_tree) $"/r/link")) = true ∧
  ∃ f, f ∈ files (demo_packed_context [ $"link" ]) ∧ path f = $"link" ∧ content f = $"k=v".
Proof.
  split; [vm_compute; reflexivity|].
  exists {| path := $"link"; content := $"k=v"; truncated := false; redacted := false; source := ExplicitFile |}.
  split; [|done]. vm_compute. apply list_elem_of_further, list_elem_of_here.
Qed.
End Context.
