(* ===== verification/FsPolicy.v ===== *)
(** * FsPolicy: which files a sandboxed command may read and write

    Models codex-rs/protocol/src/permissions.rs and, of protocol.rs, the legacy
    [SandboxPolicy] and [WritableRoot], with [canonicalize_preserving_symlinks]
    of codex-rs/utils/absolute-path.

    The file system, the environment and the process directory are a class of
    answers ([Host]); the globset crate is a parameter.  Paths are the strings of
    AbsPath; equality and prefixes of paths are by components, as in the
    standard library, on Unix. *)

From S2P Require Import Prelude AbsPath Delegation.

Module FsPolicy.
#[local] Existing Instance Path.Component_eq_dec.

(** ** Data *)
Inductive NetworkSandboxPolicy := NetRestricted | NetEnabled.
Definition net_is_enabled (n : NetworkSandboxPolicy) : bool :=
  match n with NetEnabled => true | NetRestricted => false end.

Inductive FileSystemAccessMode := Read | Write | NoAccess.
#[export] Instance mode_eq_dec : EqDecision FileSystemAccessMode.
Proof. solve_decision. Defined.

(** The derived order: [Read < Write < None]. *)
Definition mode_rank (m : FileSystemAccessMode) : nat :=
  match m with Read => 0 | Write => 1 | NoAccess => 2 end.
Definition can_read (m : FileSystemAccessMode) : bool :=
  match m with NoAccess => false | _ => true end.
Definition can_write (m : FileSystemAccessMode) : bool :=
  match m with Write => true | _ => false end.

Inductive FileSystemSpecialPath :=
| Root
| Minimal
| CurrentWorkingDirectory
| ProjectRoots (subpath : option rstring)
| Tmpdir
| SlashTmp
| Unknown (path : rstring) (subpath : option rstring).

Inductive FileSystemPath :=
| PPath (path : rstring)
| PGlob (pattern : rstring)
| PSpecial (value : FileSystemSpecialPath).

Record FileSystemSandboxEntry := { entry_path : FileSystemPath; access : FileSystemAccessMode }.

Inductive FileSystemSandboxKind := Restricted | Unrestricted | ExternalSandbox.

Record FileSystemSandboxPolicy := {
  kind : FileSystemSandboxKind;
  glob_scan_max_depth : option Z;
  entries : list FileSystemSandboxEntry
}.

Record ResolvedFileSystemEntry := { resolved_path : rstring; resolved_access : FileSystemAccessMode }.

Record WritableRoot := { root : rstring; read_only_subpaths : list rstring }.

(** [NetworkAccess] of an external sandbox has the two values of
    [NetworkSandboxPolicy]. *)
Inductive SandboxPolicy :=
| DangerFullAccess
| ReadOnly (network_access : bool)
| LegacyExternal (network_access : NetworkSandboxPolicy)
| WorkspaceWrite (writable_roots : list rstring) (network_access exclude_tmpdir_env_var exclude_slash_tmp : bool).

Definition default_policy : FileSystemSandboxPolicy :=
  {| kind := Restricted; glob_scan_max_depth := None;
     entries := [ {| entry_path := PSpecial Root; access := Read |} ] |}.
Definition unrestricted : FileSystemSandboxPolicy :=
  {| kind := Unrestricted; glob_scan_max_depth := None; entries := [] |}.
Definition external_sandbox : FileSystemSandboxPolicy :=
  {| kind := ExternalSandbox; glob_scan_max_depth := None; entries := [] |}.
Definition restricted (es : list FileSystemSandboxEntry) : FileSystemSandboxPolicy :=
  {| kind := Restricted; glob_scan_max_depth := None; entries := es |}.

Definition is_restricted (p : FileSystemSandboxPolicy) : bool :=
  match kind p with Restricted => true | _ => false end.
Definition is_unrestricted (p : FileSystemSandboxPolicy) : bool :=
  match kind p with Unrestricted => true | _ => false end.
Definition denies (e : FileSystemSandboxEntry) : bool := bool_decide (access e = NoAccess).

(** [WritableRoot::is_path_writable]. *)
Definition is_path_writable (r : WritableRoot) (p : rstring) : bool :=
  Path.path_starts_with (root r) p && negb (existsb (λ s, Path.path_starts_with s p) (read_only_subpaths r)).

(** ** Questions about the entries *)
Definition has_root_access (predicate : FileSystemAccessMode → bool) (p : FileSystemSandboxPolicy) : bool :=
  is_restricted p &&
  existsb (λ e, match entry_path e with PSpecial Root => predicate (access e) | _ => false end) (entries p).

Definition has_denied_read_restrictions (p : FileSystemSandboxPolicy) : bool :=
  is_restricted p && existsb denies (entries p).

(** [Option<PathBuf>] compared. *)
Definition subpath_eqb (a b : option rstring) : bool :=
  match a, b with
  | None, None => true
  | Some x, Some y => Path.path_eqb x y
  | _, _ => false
  end.

(** The derived equality of entries; paths are compared by components. *)
Definition special_eqb (l r : FileSystemSpecialPath) : bool :=
  match l, r with
  | Root, Root | Minimal, Minimal | CurrentWorkingDirectory, CurrentWorkingDirectory
  | Tmpdir, Tmpdir | SlashTmp, SlashTmp => true
  | ProjectRoots a, ProjectRoots b => subpath_eqb a b
  | Unknown a sa, Unknown b sb => (a =?s b) && subpath_eqb sa sb
  | _, _ => false
  end.
Definition fspath_eqb (l r : FileSystemPath) : bool :=
  match l, r with
  | PPath a, PPath b => Path.path_eqb a b
  | PGlob a, PGlob b => a =?s b
  | PSpecial a, PSpecial b => special_eqb a b
  | _, _ => false
  end.
Definition entry_eqb (l r : FileSystemSandboxEntry) : bool :=
  fspath_eqb (entry_path l) (entry_path r) && bool_decide (access l = access r).

(** [if !entries.contains(e) { entries.push(e) }] for the denials of another
    policy. *)
Definition add_denials (existing : list FileSystemSandboxEntry) (es : list FileSystemSandboxEntry) :=
  fold_left (λ es d, if existsb (λ e, entry_eqb e d) es then es else es ++ [d])
    (List.filter denies existing) es.

Definition preserve_deny_read_restrictions_from (self existing : FileSystemSandboxPolicy)
  : FileSystemSandboxPolicy :=
  let self := if is_unrestricted self && existsb denies (entries existing)
              then restricted [ {| entry_path := PSpecial Root; access := Write |} ] else self in
  if negb (is_restricted self) then self
  else {| kind := kind self;
          glob_scan_max_depth :=
            match glob_scan_max_depth self with Some d => Some d | None => glob_scan_max_depth existing end;
          entries := add_denials (entries existing) (entries self) |}.

(** [Path::parent(..).is_none()]: no parent. *)
Definition has_no_parent (p : rstring) : bool := match Path.parent p with None => true | Some _ => false end.

Definition special_path_matches_absolute_path (v : FileSystemSpecialPath) (p : rstring) : bool :=
  match v with
  | Root => has_no_parent p
  | SlashTmp => Path.path_eqb p $"/tmp"
  | _ => false
  end.

Definition special_paths_share_target (l r : FileSystemSpecialPath) : bool :=
  match l, r with
  | Root, Root | Minimal, Minimal | CurrentWorkingDirectory, CurrentWorkingDirectory
  | Tmpdir, Tmpdir | SlashTmp, SlashTmp => true
  | CurrentWorkingDirectory, ProjectRoots None | ProjectRoots None, CurrentWorkingDirectory => true
  | ProjectRoots a, ProjectRoots b => subpath_eqb a b
  | Unknown a sa, Unknown b sb => (a =?s b) && subpath_eqb sa sb
  | _, _ => false
  end.

Definition file_system_paths_share_target (l r : FileSystemPath) : bool :=
  match l, r with
  | PPath a, PPath b => Path.path_eqb a b
  | PSpecial a, PSpecial b => special_paths_share_target a b
  | PPath p, PSpecial v | PSpecial v, PPath p => special_path_matches_absolute_path v p
  | PGlob a, PGlob b => a =?s b
  | PGlob _, _ | _, PGlob _ => false
  end.

Definition has_same_target_write_override (p : FileSystemSandboxPolicy) (e : FileSystemSandboxEntry) : bool :=
  existsb (λ c, can_write (access c) && (mode_rank (access e) <? mode_rank (access c))
                && file_system_paths_share_target (entry_path c) (entry_path e)) (entries p).

Definition narrows_write (p : FileSystemSandboxPolicy) (e : FileSystemSandboxEntry) : bool :=
  if can_write (access e) then false
  else match entry_path e with
       | PPath _ => negb (has_same_target_write_override p e)
       | PGlob _ => true
       | PSpecial Root => denies e
       | PSpecial Minimal | PSpecial (Unknown _ _) => false
       | PSpecial _ => negb (has_same_target_write_override p e)
       end.
Definition has_write_narrowing_entries (p : FileSystemSandboxPolicy) : bool :=
  is_restricted p && existsb (narrows_write p) (entries p).

Definition has_full_disk_read_access (p : FileSystemSandboxPolicy) : bool :=
  match kind p with
  | Unrestricted | ExternalSandbox => true
  | Restricted => has_root_access can_read p && negb (has_denied_read_restrictions p)
  end.
Definition has_full_disk_write_access (p : FileSystemSandboxPolicy) : bool :=
  match kind p with
  | Unrestricted | ExternalSandbox => true
  | Restricted => has_root_access can_write p && negb (has_write_narrowing_entries p)
  end.
Definition include_platform_defaults (p : FileSystemSandboxPolicy) : bool :=
  negb (has_full_disk_read_access p) && is_restricted p &&
  existsb (λ e, match entry_path e with PSpecial Minimal => can_read (access e) | _ => false end) (entries p).

(** ** Resolution *)

(** What the host answers. *)
Class Host := {
  home_dir : option rstring;
  process_dir : option rstring;
  env_tmpdir : option rstring;
  host_is_file : rstring → bool;
  host_is_dir : rstring → bool;
  host_exists : rstring → bool;
  symlink_metadata : rstring → option bool;   (** [Some true]: a symbolic link *)
  canonicalize : rstring → option rstring;
  read_to_string : rstring → option rstring
}.

Definition ok {A E} (r : result A E) : option A := match r with Ok a => Some a | Err _ => None end.

Section Resolve.
Context {H : Host}.

Definition from_absolute_path (p : rstring) : option rstring :=
  ok (Path.from_absolute_path home_dir process_dir p).
Definition resolve_against (p base : rstring) : rstring := Path.resolve_path_against_base home_dir p base.

(** [None] is a panic; [root_of_absolute] shows that an absolute directory has
    its root. *)
Definition absolute_root_path_for_cwd (cwd : rstring) : option rstring :=
  last (Path.ancestors cwd) ≫= from_absolute_path.

Definition resolve_file_system_special_path (v : FileSystemSpecialPath) (cwd : option rstring)
  : option rstring :=
  match v with
  | Root | Minimal | Unknown _ _ => None
  | CurrentWorkingDirectory => cwd
  | ProjectRoots subpath =>
      cwd ← cwd; Some (match subpath with Some s => resolve_against s cwd | None => cwd end)
  | Tmpdir => t ← env_tmpdir; if is_empty t then None else from_absolute_path t
  | SlashTmp =>
      slash_tmp ← from_absolute_path $"/tmp"; if host_is_dir slash_tmp then Some slash_tmp else None
  end.

Definition resolve_file_system_path (p : FileSystemPath) (cwd : option rstring) : option rstring :=
  match p with
  | PPath p => Some p
  | PGlob _ => None
  | PSpecial v => resolve_file_system_special_path v cwd
  end.

Definition resolve_entry_path (p : FileSystemPath) (cwd : option rstring) : option rstring :=
  match p with
  | PSpecial Root => cwd ≫= absolute_root_path_for_cwd
  | _ => resolve_file_system_path p cwd
  end.

Definition resolve_candidate_path (p cwd : rstring) : option rstring :=
  if Path.is_absolute p then from_absolute_path p else Some (resolve_against p cwd).

Definition resolve_entry (cwd : option rstring) (e : FileSystemSandboxEntry) : option ResolvedFileSystemEntry :=
  (λ p, {| resolved_path := p; resolved_access := access e |}) <$> resolve_entry_path (entry_path e) cwd.
Definition resolved_entries_with_cwd (p : FileSystemSandboxPolicy) (cwd : rstring) : list ResolvedFileSystemEntry :=
  omap (resolve_entry (from_absolute_path cwd)) (entries p).

Definition resolved_entry_precedence (e : ResolvedFileSystemEntry) : nat * nat :=
  (length (Path.components (resolved_path e)), mode_rank (resolved_access e)).
Definition precedence_le (a b : nat * nat) : bool := (a.1 <? b.1) || ((a.1 =? b.1) && (a.2 <=? b.2)).

(** [Iterator::max_by_key]: the last of the greatest. *)
Definition max_by_key {A} (key : A → nat * nat) (l : list A) : option A :=
  fold_left (λ best x, match best with
                       | None => Some x
                       | Some b => if precedence_le (key b) (key x) then Some x else Some b
                       end) l None.

Definition resolve_access_with_cwd (p : FileSystemSandboxPolicy) (path cwd : rstring) : FileSystemAccessMode :=
  match kind p with
  | Unrestricted | ExternalSandbox => Write
  | Restricted =>
      match resolve_candidate_path path cwd with
      | None => NoAccess
      | Some path =>
          match max_by_key resolved_entry_precedence
                  (List.filter (λ e, Path.path_starts_with (resolved_path e) path)
                     (resolved_entries_with_cwd p cwd)) with
          | Some e => resolved_access e
          | None => NoAccess
          end
      end
  end.
Definition can_read_path_with_cwd p path cwd : bool := can_read (resolve_access_with_cwd p path cwd).
Definition can_write_path_with_cwd p path cwd : bool := can_write (resolve_access_with_cwd p path cwd).

Definition add_entry (p : FileSystemSandboxPolicy) (e : FileSystemSandboxEntry) : FileSystemSandboxPolicy :=
  {| kind := kind p; glob_scan_max_depth := glob_scan_max_depth p; entries := entries p ++ [e] |}.

Definition with_additional_readable_roots (p : FileSystemSandboxPolicy) (cwd : rstring) (roots : list rstring) :=
  if has_full_disk_read_access p then p
  else fold_left (λ p r, if can_read_path_with_cwd p r cwd then p
                         else add_entry p {| entry_path := PPath r; access := Read |}) roots p.
Definition with_additional_writable_roots (p : FileSystemSandboxPolicy) (cwd : rstring) (roots : list rstring) :=
  fold_left (λ p r, if can_write_path_with_cwd p r cwd then p
                    else add_entry p {| entry_path := PPath r; access := Write |}) roots p.

(** ** Roots *)

(** utils/absolute-path/src/lib.rs. *)
Definition should_preserve_logical_path (logical : rstring) : bool :=
  existsb (λ a, match symlink_metadata a with
                | Some is_symlink =>
                    is_symlink && match Path.parent a ≫= Path.parent with Some _ => true | None => false end
                | None => false
                end) (Path.ancestors logical).
Definition canonicalize_preserving_symlinks (p : rstring) : option rstring :=
  logical ← from_absolute_path p;
  Some (match canonicalize p with
        | Some canonical =>
            if should_preserve_logical_path logical && negb (Path.path_eqb canonical logical)
            then logical else canonical
        | None => logical
        end).

(** One round of the loop over the ancestors. *)
Definition effective_from (raw ancestor : rstring) : option rstring :=
  match symlink_metadata ancestor with
  | None => None
  | Some _ =>
      normalized ← canonicalize_preserving_symlinks ancestor;
      suffix ← Path.path_strip_prefix ancestor raw;
      from_absolute_path (Path.push normalized suffix)
  end.
Definition normalize_effective_absolute_path (p : rstring) : rstring :=
  match head (omap (effective_from p) (Path.ancestors p)) with Some q => q | None => p end.

Fixpoint dedup_go (seen : list rstring) (paths : list rstring) : list rstring :=
  match paths with
  | [] => []
  | p :: ps => if existsb (Path.path_eqb p) seen then dedup_go seen ps else p :: dedup_go (p :: seen) ps
  end.
Definition dedup_absolute_paths (paths : list rstring) (normalize_effective_paths : bool) : list rstring :=
  dedup_go [] (if normalize_effective_paths then normalize_effective_absolute_path <$> paths else paths).

Definition is_git_pointer_file (p : rstring) : bool :=
  host_is_file p && match Path.file_name p with Some n => n =?s $".git" | None => false end.

Definition resolve_gitdir_from_file (dot_git : rstring) : option rstring :=
  contents ← read_to_string dot_git;
  parts ← split_once 58 (trim contents);
  let gitdir_raw := trim parts.2 in
  if is_empty gitdir_raw then None
  else base ← Path.parent dot_git;
       let gitdir_path := resolve_against gitdir_raw base in
       if host_exists gitdir_path then Some gitdir_path else None.

(** The [subpaths] before duplicates are dropped. *)
Definition read_only_subpath_candidates (writable_root : rstring) (protect_missing_dot_codex : bool)
  : list rstring :=
  let git := resolve_against $".git" writable_root in
  let agents := resolve_against $".agents" writable_root in
  let codex := resolve_against $".codex" writable_root in
  (if host_is_dir git || host_is_file git then
     (if host_is_file git && is_git_pointer_file git
      then match resolve_gitdir_from_file git with Some d => [d] | None => [] end else [])
     ++ [git]
   else [])
  ++ (if host_is_dir agents then [agents] else [])
  ++ (if protect_missing_dot_codex || host_is_dir codex then [codex] else []).
Definition default_read_only_subpaths_for_writable_root (writable_root : rstring)
    (protect_missing_dot_codex : bool) : list rstring :=
  dedup_absolute_paths (read_only_subpath_candidates writable_root protect_missing_dot_codex) false.

Definition get_readable_roots_with_cwd (p : FileSystemSandboxPolicy) (cwd : rstring) : list rstring :=
  if has_full_disk_read_access p then []
  else dedup_absolute_paths
         (resolved_path <$>
          List.filter (λ e, can_read_path_with_cwd p (resolved_path e) cwd)
            (List.filter (λ e, can_read (resolved_access e)) (resolved_entries_with_cwd p cwd))) true.

Definition has_explicit_resolved_path_entry (es : list ResolvedFileSystemEntry) (p : rstring) : bool :=
  existsb (λ e, Path.path_eqb (resolved_path e) p) es.

(** The path under which an entry is carved out of a writable root, if it is. *)
Definition raw_carveout (writable_root : rstring) (raw_roots : list rstring) (entry : rstring) : option rstring :=
  if negb (has_no_parent writable_root) then
    if Path.path_eqb entry writable_root then None
    else if Path.path_starts_with writable_root entry then Some entry
    else head (omap (λ raw, match Path.path_strip_prefix raw entry with
                            | Some suffix => if is_empty suffix then None
                                             else Some (resolve_against suffix writable_root)
                            | None => None
                            end) raw_roots)
  else None.
Definition carveout (writable_root : rstring) (raw_roots : list rstring) (entry : rstring) : option rstring :=
  match raw_carveout writable_root raw_roots entry with
  | Some r => Some r
  | None =>
      let effective := normalize_effective_absolute_path entry in
      if Path.path_eqb effective writable_root || negb (Path.path_starts_with writable_root effective)
      then None else Some effective
  end.

Definition writable_root_with_carveouts (p : FileSystemSandboxPolicy) (cwd : rstring)
    (writable_entries : list rstring) (writable_root : rstring) : WritableRoot :=
  let resolved := resolved_entries_with_cwd p cwd in
  let raw_roots := List.filter (λ q, Path.path_eqb (normalize_effective_absolute_path q) writable_root)
                     writable_entries in
  let protect_missing_dot_codex :=
    match from_absolute_path cwd with
    | Some c => Path.path_eqb (normalize_effective_absolute_path c) writable_root
    | None => false
    end in
  let defaults :=
    List.filter (λ q, negb (has_explicit_resolved_path_entry resolved q))
      (default_read_only_subpaths_for_writable_root writable_root protect_missing_dot_codex) in
  let carved :=
    omap (λ e, carveout writable_root raw_roots (resolved_path e))
      (List.filter (λ e, negb (can_write_path_with_cwd p (resolved_path e) cwd))
         (List.filter (λ e, negb (can_write (resolved_access e))) resolved)) in
  {| root := writable_root; read_only_subpaths := dedup_absolute_paths (defaults ++ carved) false |}.

Definition get_writable_roots_with_cwd (p : FileSystemSandboxPolicy) (cwd : rstring) : list WritableRoot :=
  if has_full_disk_write_access p then []
  else
    let writable_entries :=
      resolved_path <$>
      List.filter (λ e, can_write_path_with_cwd p (resolved_path e) cwd)
        (List.filter (λ e, can_write (resolved_access e)) (resolved_entries_with_cwd p cwd)) in
    writable_root_with_carveouts p cwd writable_entries <$> dedup_absolute_paths writable_entries true.

Definition get_unreadable_roots_with_cwd (p : FileSystemSandboxPolicy) (cwd : rstring) : list rstring :=
  if negb (is_restricted p) then []
  else
    let root := from_absolute_path cwd ≫= absolute_root_path_for_cwd in
    dedup_absolute_paths
      (resolved_path <$>
       List.filter (λ e, negb match root with Some r => Path.path_eqb r (resolved_path e) | None => false end)
         (List.filter (λ e, negb (can_read_path_with_cwd p (resolved_path e) cwd))
            (List.filter (λ e, bool_decide (resolved_access e = NoAccess)) (resolved_entries_with_cwd p cwd))))
      true.

(** [Vec::dedup] on sorted patterns. *)
Fixpoint dedup_adjacent (l : list rstring) : list rstring :=
  match l with
  | a :: ((b :: _) as l') => if a =?s b then dedup_adjacent l' else a :: dedup_adjacent l'
  | _ => l
  end.
Definition get_unreadable_globs_with_cwd (p : FileSystemSandboxPolicy) (cwd : rstring) : list rstring :=
  if negb (is_restricted p) then []
  else dedup_adjacent (Delegation.sort_strings
         (omap (λ e, match entry_path e with PGlob g => Some (resolve_against g cwd) | _ => None end)
            (List.filter denies (entries p)))).

(** ** Legacy policies *)
Definition has_full_network_access (p : SandboxPolicy) : bool :=
  match p with
  | DangerFullAccess => true
  | LegacyExternal n => net_is_enabled n
  | ReadOnly n => n
  | WorkspaceWrite _ n _ _ => n
  end.
Definition network_of_legacy (p : SandboxPolicy) : NetworkSandboxPolicy :=
  if has_full_network_access p then NetEnabled else NetRestricted.

Definition entry (v : FileSystemPath) (m : FileSystemAccessMode) : FileSystemSandboxEntry :=
  {| entry_path := v; access := m |}.

(** [From<&SandboxPolicy>]. *)
Definition policy_of_legacy (p : SandboxPolicy) : FileSystemSandboxPolicy :=
  match p with
  | DangerFullAccess => unrestricted
  | LegacyExternal _ => external_sandbox
  | ReadOnly _ => restricted [entry (PSpecial Root) Read]
  | WorkspaceWrite roots _ exclude_tmpdir exclude_slash_tmp =>
      restricted (entry (PSpecial Root) Read :: entry (PSpecial CurrentWorkingDirectory) Write
        :: (if exclude_slash_tmp then [] else [entry (PSpecial SlashTmp) Write])
        ++ (if exclude_tmpdir then [] else [entry (PSpecial Tmpdir) Write])
        ++ ((λ r, entry (PPath r) Write) <$> roots))
  end.

Definition slash_tmp_root : list rstring :=
  match from_absolute_path $"/tmp" with Some t => if host_is_dir t then [t] else [] | None => [] end.
Definition tmpdir_root : list rstring :=
  match env_tmpdir with
  | Some t => if is_empty t then [] else match from_absolute_path t with Some q => [q] | None => [] end
  | None => []
  end.

(** [SandboxPolicy::get_writable_roots_with_cwd]. *)
Definition legacy_writable_roots (p : SandboxPolicy) (cwd : rstring) : list WritableRoot :=
  match p with
  | WorkspaceWrite roots _ exclude_tmpdir exclude_slash_tmp =>
      let cwd_root := from_absolute_path cwd in
      let roots := roots ++ match cwd_root with Some c => [c] | None => [] end
                   ++ (if exclude_slash_tmp then [] else slash_tmp_root)
                   ++ (if exclude_tmpdir then [] else tmpdir_root) in
      (λ r, {| root := r;
               read_only_subpaths := default_read_only_subpaths_for_writable_root r
                 match cwd_root with Some c => Path.path_eqb c r | None => false end |}) <$> roots
  | _ => []
  end.

Definition legacy_non_cwd_writable_roots (roots : list rstring) (exclude_tmpdir exclude_slash_tmp : bool)
  : list WritableRoot :=
  let roots := roots ++ (if exclude_slash_tmp then [] else slash_tmp_root)
               ++ (if exclude_tmpdir then [] else tmpdir_root) in
  (λ r, {| root := r; read_only_subpaths := default_read_only_subpaths_for_writable_root r false |})
  <$> dedup_absolute_paths roots true.

Definition prune_read_entries_under_writable_roots (es : list FileSystemSandboxEntry) (roots : list WritableRoot) :=
  List.filter (λ e, if bool_decide (access e ≠ Read) then true
                    else match entry_path e with
                         | PPath p => negb (existsb (λ r, is_path_writable r p) roots)
                         | _ => true
                         end) es.

Definition append_default_read_only_entry_if_no_explicit_rule (es : list FileSystemSandboxEntry)
    (p : FileSystemPath) : list FileSystemSandboxEntry :=
  if existsb (λ e, file_system_paths_share_target (entry_path e) p) es then es else es ++ [entry p Read].
Definition append_project_root_subpath es (subpath : rstring) :=
  append_default_read_only_entry_if_no_explicit_rule es (PSpecial (ProjectRoots (Some subpath))).
Definition append_path es (p : rstring) := append_default_read_only_entry_if_no_explicit_rule es (PPath p).

Definition set_entries (p : FileSystemSandboxPolicy) es : FileSystemSandboxPolicy :=
  {| kind := kind p; glob_scan_max_depth := glob_scan_max_depth p; entries := es |}.

Definition append_protected (roots : list rstring) (es : list FileSystemSandboxEntry) :=
  fold_left (λ es r, fold_left append_path (default_read_only_subpaths_for_writable_root r false) es) roots es.

Definition from_legacy_sandbox_policy (sp : SandboxPolicy) : FileSystemSandboxPolicy :=
  let p := policy_of_legacy sp in
  match sp with
  | WorkspaceWrite roots _ exclude_tmpdir exclude_slash_tmp =>
      let es := prune_read_entries_under_writable_roots (entries p)
                  (legacy_non_cwd_writable_roots roots exclude_tmpdir exclude_slash_tmp) in
      let es := fold_left append_project_root_subpath [ $".git"; $".agents"; $".codex" ] es in
      set_entries p (append_protected roots es)
  | _ => p
  end.

Definition from_legacy_sandbox_policy_for_cwd (sp : SandboxPolicy) (cwd : rstring) : FileSystemSandboxPolicy :=
  let p := policy_of_legacy sp in
  match sp with
  | WorkspaceWrite roots _ _ _ =>
      let es := prune_read_entries_under_writable_roots (entries p) (legacy_writable_roots sp cwd) in
      let es := match from_absolute_path cwd with
                | Some c => fold_left append_path (default_read_only_subpaths_for_writable_root c true) es
                | None => es
                end in
      set_entries p (append_protected roots es)
  | _ => p
  end.

Definition from_legacy_sandbox_policy_preserving_deny_entries (sp : SandboxPolicy) (cwd : rstring)
    (existing : FileSystemSandboxPolicy) : FileSystemSandboxPolicy :=
  let rebuilt := from_legacy_sandbox_policy_for_cwd sp cwd in
  if negb (is_restricted rebuilt) then rebuilt
  else {| kind := kind rebuilt; glob_scan_max_depth := glob_scan_max_depth existing;
          entries := add_denials (entries existing) (entries rebuilt) |}.

(** What the loop of [to_legacy_sandbox_policy] collects. *)
Record LegacyScan := {
  workspace_root_writable : bool;
  scan_roots : list rstring;
  tmpdir_writable : bool;
  slash_tmp_writable : bool;
  unbridgeable_root_write : bool
}.
Definition scan_entry (cwd : option rstring) (s : LegacyScan) (e : FileSystemSandboxEntry) : LegacyScan :=
  let '{| workspace_root_writable := w; scan_roots := rs; tmpdir_writable := t; slash_tmp_writable := st;
          unbridgeable_root_write := u |} := s in
  let push p := {| workspace_root_writable := w; scan_roots := rs ++ [p]; tmpdir_writable := t;
                   slash_tmp_writable := st; unbridgeable_root_write := u |} in
  let workspace := {| workspace_root_writable := true; scan_roots := rs; tmpdir_writable := t;
                      slash_tmp_writable := st; unbridgeable_root_write := u |} in
  let writes := can_write (access e) in
  match entry_path e with
  | PGlob _ => s
  | PPath p =>
      if writes then
        if match cwd with Some c => Path.path_eqb c p | None => false end then workspace else push p
      else s
  | PSpecial Root =>
      if writes then {| workspace_root_writable := w; scan_roots := rs; tmpdir_writable := t;
                        slash_tmp_writable := st; unbridgeable_root_write := true |} else s
  | PSpecial Minimal | PSpecial (Unknown _ _) => s
  | PSpecial CurrentWorkingDirectory => if writes then workspace else s
  | PSpecial (ProjectRoots subpath as v) =>
      if match subpath with None => writes | Some _ => false end then workspace
      else match resolve_file_system_special_path v cwd with
           | Some p => if writes then push p else s
           | None => s
           end
  | PSpecial Tmpdir =>
      if writes then {| workspace_root_writable := w; scan_roots := rs; tmpdir_writable := true;
                        slash_tmp_writable := st; unbridgeable_root_write := u |} else s
  | PSpecial SlashTmp =>
      if writes then {| workspace_root_writable := w; scan_roots := rs; tmpdir_writable := t;
                        slash_tmp_writable := true; unbridgeable_root_write := u |} else s
  end.

Definition UNSUPPORTED_WRITES : rstring :=
  $"permissions profile requests filesystem writes outside the workspace root, which is not supported until the runtime enforces FileSystemSandboxPolicy directly".

Definition to_legacy_sandbox_policy (p : FileSystemSandboxPolicy) (net : NetworkSandboxPolicy) (cwd : rstring)
  : result SandboxPolicy rstring :=
  match kind p with
  | ExternalSandbox => Ok (LegacyExternal net)
  | Unrestricted => Ok (if net_is_enabled net then DangerFullAccess else LegacyExternal NetRestricted)
  | Restricted =>
      let scan := fold_left (scan_entry (from_absolute_path cwd)) (entries p)
                    {| workspace_root_writable := false; scan_roots := []; tmpdir_writable := false;
                       slash_tmp_writable := false; unbridgeable_root_write := false |} in
      if has_full_disk_write_access p then
        Ok (if net_is_enabled net then DangerFullAccess else LegacyExternal NetRestricted)
      else if workspace_root_writable scan then
        Ok (WorkspaceWrite (dedup_absolute_paths (scan_roots scan) false) (net_is_enabled net)
              (negb (tmpdir_writable scan)) (negb (slash_tmp_writable scan)))
      else if unbridgeable_root_write scan || negb (is_empty (scan_roots scan))
              || tmpdir_writable scan || slash_tmp_writable scan
      then Err UNSUPPORTED_WRITES
      else Ok (ReadOnly (net_is_enabled net))
  end.

(** ** Semantic comparison *)

(** [Ord] of paths: components in order, with the order of the enum. *)
Definition component_key (c : Path.Component) : list Z :=
  match c with
  | Path.RootDir => [0%Z] | Path.CurDir => [1%Z] | Path.ParentDir => [2%Z]
  | Path.Normal n => 3%Z :: n
  end.
Fixpoint lex_leb {A} (ltb eqb : A → A → bool) (a b : list A) : bool :=
  match a, b with
  | [], _ => true
  | _, [] => false
  | x :: a', y :: b' => ltb x y || (eqb x y && lex_leb ltb eqb a' b')
  end.
Definition key_ltb (a b : list Z) : bool := lex_leb Z.ltb Z.eqb a b && negb (bool_decide (a = b)).
Definition path_leb (a b : rstring) : bool :=
  lex_leb key_ltb (λ x y, bool_decide (x = y)) (component_key <$> Path.components a)
    (component_key <$> Path.components b).

(** A stable sort, like [sort_by]. *)
Fixpoint insert_by {A} (leb : A → A → bool) (x : A) (l : list A) : list A :=
  match l with
  | [] => [x]
  | y :: l' => if leb x y then x :: l else y :: insert_by leb x l'
  end.
Definition sort_by {A} (leb : A → A → bool) (l : list A) : list A := fold_right (insert_by leb) [] l.

Definition sorted_absolute_paths (ps : list rstring) : list rstring := sort_by path_leb ps.
Definition sorted_writable_roots (rs : list WritableRoot) : list WritableRoot :=
  sort_by (λ a b, path_leb (root a) (root b))
    ((λ r, {| root := root r; read_only_subpaths := sorted_absolute_paths (read_only_subpaths r) |}) <$> rs).

Record FileSystemSemanticSignature := {
  sig_full_read : bool;
  sig_full_write : bool;
  sig_platform_defaults : bool;
  sig_readable_roots : list rstring;
  sig_writable_roots : list WritableRoot;
  sig_unreadable_roots : list rstring;
  sig_unreadable_globs : list rstring
}.
Definition semantic_signature (p : FileSystemSandboxPolicy) (cwd : rstring) : FileSystemSemanticSignature :=
  {| sig_full_read := has_full_disk_read_access p;
     sig_full_write := has_full_disk_write_access p;
     sig_platform_defaults := include_platform_defaults p;
     sig_readable_roots := sorted_absolute_paths (get_readable_roots_with_cwd p cwd);
     sig_writable_roots := sorted_writable_roots (get_writable_roots_with_cwd p cwd);
     sig_unreadable_roots := sorted_absolute_paths (get_unreadable_roots_with_cwd p cwd);
     sig_unreadable_globs := get_unreadable_globs_with_cwd p cwd |}.

Fixpoint list_eqb {A} (eqb : A → A → bool) (a b : list A) : bool :=
  match a, b with
  | [], [] => true
  | x :: a', y :: b' => eqb x y && list_eqb eqb a' b'
  | _, _ => false
  end.
Definition paths_eqb : list rstring → list rstring → bool := list_eqb Path.path_eqb.
Definition writable_root_eqb (a b : WritableRoot) : bool :=
  Path.path_eqb (root a) (root b) && paths_eqb (read_only_subpaths a) (read_only_subpaths b).
Definition signature_eqb (a b : FileSystemSemanticSignature) : bool :=
  Bool.eqb (sig_full_read a) (sig_full_read b) && Bool.eqb (sig_full_write a) (sig_full_write b)
  && Bool.eqb (sig_platform_defaults a) (sig_platform_defaults b)
  && paths_eqb (sig_readable_roots a) (sig_readable_roots b)
  && list_eqb writable_root_eqb (sig_writable_roots a) (sig_writable_roots b)
  && paths_eqb (sig_unreadable_roots a) (sig_unreadable_roots b)
  && list_eqb str_eqb (sig_unreadable_globs a) (sig_unreadable_globs b).

Definition is_semantically_equivalent_to (p q : FileSystemSandboxPolicy) (cwd : rstring) : bool :=
  signature_eqb (semantic_signature p cwd) (semantic_signature q cwd).

Definition needs_direct_runtime_enforcement (p : FileSystemSandboxPolicy) (net : NetworkSandboxPolicy)
    (cwd : rstring) : bool :=
  if negb (is_restricted p) then false
  else match to_legacy_sandbox_policy p net cwd with
       | Err _ => true
       | Ok legacy =>
           negb (signature_eqb (semantic_signature p cwd)
                   (semantic_signature (from_legacy_sandbox_policy_for_cwd legacy cwd) cwd))
       end.

(** ** Denied reads *)
Definition push_unique (c : rstring) (cs : list rstring) : list rstring :=
  if existsb (λ e, Path.path_eqb e c) cs then cs else cs ++ [c].
Definition normalized_and_canonical_candidates (p : rstring) : list rstring :=
  let cs := push_unique (match from_absolute_path p with Some q => q | None => p end) [] in
  match canonicalize p ≫= from_absolute_path with
  | Some c => push_unique c cs
  | None => cs
  end.

Record ReadDenyMatcher := {
  denied_candidates : list (list rstring);
  deny_read_matchers : list (rstring → bool);
  invalid_pattern : bool
}.

Section Globs.
(** [build_glob_matcher]: the globset crate with the options that the code sets. *)
Variable build_glob_matcher : rstring → option (rstring → bool).

Definition new_matcher (p : FileSystemSandboxPolicy) (cwd : rstring) : option ReadDenyMatcher :=
  if negb (has_denied_read_restrictions p) then None
  else
    let globs := get_unreadable_globs_with_cwd p cwd in
    Some {| denied_candidates := normalized_and_canonical_candidates <$> get_unreadable_roots_with_cwd p cwd;
            deny_read_matchers := omap build_glob_matcher globs;
            invalid_pattern := existsb (λ g, match build_glob_matcher g with None => true | Some _ => false end) globs |}.

Definition is_read_denied (m : ReadDenyMatcher) (p : rstring) : bool :=
  if invalid_pattern m then true
  else
    let cs := normalized_and_canonical_candidates p in
    existsb (λ denied, existsb (λ c, existsb (λ d, Path.path_eqb c d || Path.path_starts_with d c) denied) cs)
      (denied_candidates m)
    || existsb (λ matches, existsb matches cs) (deny_read_matchers m).
End Globs.
End Resolve.
End FsPolicy.
