(* ===== verification/FsPolicyFacts.v ===== *)
(** * FsPolicyFacts: what the file-system policies guarantee

    Theorems about FsPolicy: which entry decides about a path, that a policy
    which claims full write access gives it, what adding writable roots changes,
    that a workspace protects its metadata, that denials survive, and that
    legacy policies survive the conversion. *)

From S2P Require Import Prelude AbsPath Delegation FsPolicy.

Module FsFacts.
Import FsPolicy.
#[local] Existing Instance Path.Component_eq_dec.

(** ** The access of a path *)
Lemma precedence_le_refl k : precedence_le k k = true.
Proof. unfold precedence_le. rewrite Nat.eqb_refl, Nat.leb_refl. by rewrite orb_true_r. Qed.
Lemma precedence_le_spec a b : precedence_le a b = true ↔ a.1 < b.1 ∨ (a.1 = b.1 ∧ a.2 ≤ b.2).
Proof. unfold precedence_le. rewrite orb_true_iff, andb_true_iff, Nat.ltb_lt, Nat.eqb_eq, Nat.leb_le. done. Qed.
Lemma precedence_le_trans a b c : precedence_le a b = true → precedence_le b c = true → precedence_le a c = true.
Proof. rewrite !precedence_le_spec. lia. Qed.
Lemma precedence_le_total a b : precedence_le a b = false → precedence_le b a = true.
Proof. rewrite <-not_true_iff_false, !precedence_le_spec. lia. Qed.

Lemma max_by_key_from {A} (key : A → nat * nat) l best :
  ∃ m, fold_left (λ best x, match best with
                            | None => Some x
                            | Some b => if precedence_le (key b) (key x) then Some x else Some b
                            end) l (Some best) = Some m ∧
       m ∈ best :: l ∧ ∀ x, x ∈ best :: l → precedence_le (key x) (key m) = true.
Proof.
  revert best. induction l as [|y l IH]; intros best; cbn [fold_left].
  { exists best. split; [done|]. split; [apply list_elem_of_here|]. intros x ->%list_elem_of_singleton. apply precedence_le_refl. }
  set (b := if precedence_le (key best) (key y) then y else best).
  assert (Hb : (b = best ∨ b = y) ∧ precedence_le (key best) (key b) = true ∧ precedence_le (key y) (key b) = true).
  { subst b. destruct (precedence_le (key best) (key y)) eqn:E; split_and!; auto using precedence_le_refl, precedence_le_total. }
  destruct Hb as (Hb & H1 & H2). replace (if precedence_le (key best) (key y) then Some y else Some best)
    with (Some b) by (subst b; by destruct (precedence_le _ _)).
  destruct (IH b) as (m & Hm & Hin & Hmax). exists m. split; [done|]. split.
  - apply elem_of_cons in Hin as [->|Hin]; [destruct Hb as [->| ->]; set_solver|set_solver].
  - intros x [->|[->|Hx]%elem_of_cons]%elem_of_cons.
    + eapply precedence_le_trans; [exact H1|]. apply Hmax, list_elem_of_here.
    + eapply precedence_le_trans; [exact H2|]. apply Hmax, list_elem_of_here.
    + apply Hmax. by apply list_elem_of_further.
Qed.

Lemma max_by_key_spec {A} (key : A → nat * nat) l :
  match max_by_key key l with
  | Some m => m ∈ l ∧ ∀ x, x ∈ l → precedence_le (key x) (key m) = true
  | None => l = []
  end.
Proof.
  destruct l as [|x l]; [done|]. unfold max_by_key. cbn [fold_left].
  by destruct (max_by_key_from key l x) as (m & -> & Hm).
Qed.

Section Access.
Context {H : Host}.

(** The entries that say something about a path. *)
Definition applicable_entries (p : FileSystemSandboxPolicy) (cwd path : rstring) : list ResolvedFileSystemEntry :=
  List.filter (λ e, Path.path_starts_with (resolved_path e) path) (resolved_entries_with_cwd p cwd).

(** [e] decides over [e']: it is deeper, or as deep and of higher precedence. *)
Definition overrides (e e' : ResolvedFileSystemEntry) : Prop :=
  length (Path.components (resolved_path e')) < length (Path.components (resolved_path e)) ∨
  (length (Path.components (resolved_path e')) = length (Path.components (resolved_path e)) ∧
   mode_rank (resolved_access e') ≤ mode_rank (resolved_access e)).

(** What the mode of a path is. *)
Definition governed (es : list ResolvedFileSystemEntry) (m : FileSystemAccessMode) : Prop :=
  (es = [] ∧ m = NoAccess) ∨
  ∃ e, e ∈ es ∧ resolved_access e = m ∧ ∀ e', e' ∈ es → overrides e e'.

Lemma access_governed p path cwd q :
  kind p = Restricted → resolve_candidate_path path cwd = Some q →
  governed (applicable_entries p cwd q) (resolve_access_with_cwd p path cwd).
Proof.
  intros Hk Hq. unfold resolve_access_with_cwd. rewrite Hk, Hq. fold (applicable_entries p cwd q).
  pose proof (max_by_key_spec resolved_entry_precedence (applicable_entries p cwd q)) as Hm.
  destruct (max_by_key _ _) as [e|]; [|by left]. right. exists e. destruct Hm as [Hin Hmax].
  split_and!; [done|done|]. intros e' He'. by apply Hmax, precedence_le_spec in He'.
Qed.

Lemma mode_rank_inj a b : mode_rank a = mode_rank b → a = b.
Proof. by destruct a, b. Qed.

Lemma governed_unique es es' m m' : (∀ e, e ∈ es ↔ e ∈ es') → governed es m → governed es' m' → m = m'.
Proof.
  intros Hsame [[-> ->]|(e & He & <- & Ho)] [[-> ->]|(e' & He' & <- & Ho')]; [done| | |].
  - apply Hsame in He'. by apply not_elem_of_nil in He'.
  - apply Hsame in He. by apply not_elem_of_nil in He.
  - apply Hsame in He' as He1. apply Hsame in He as He2. specialize (Ho _ He1). specialize (Ho' _ He2).
    apply mode_rank_inj. unfold overrides in *. lia.
Qed.

Lemma applicable_entry p cwd path e :
  e ∈ applicable_entries p cwd path ↔
  Path.path_starts_with (resolved_path e) path = true ∧
  ∃ x, x ∈ entries p ∧ resolve_entry (from_absolute_path cwd) x = Some e.
Proof.
  unfold applicable_entries, resolved_entries_with_cwd.
  rewrite list_elem_of_In, filter_In, <-list_elem_of_In, list_elem_of_omap. naive_solver.
Qed.

(** C11: the deepest entry decides: the mode of a path is that of an entry whose
    path is an ancestor of it (or it), such that every other such entry is
    shallower, or as deep and of lower precedence (none over write over read);
    it is none when there is no such entry.  So the order of the entries, and
    repeating one, does not matter. *)
Theorem access_most_specific p path cwd q :
  kind p = Restricted → resolve_candidate_path path cwd = Some q →
  governed (applicable_entries p cwd q) (resolve_access_with_cwd p path cwd) ∧
  (∀ p', kind p' = Restricted → (∀ e, e ∈ entries p' ↔ e ∈ entries p) →
         resolve_access_with_cwd p' path cwd = resolve_access_with_cwd p path cwd).
Proof.
  intros Hk Hq. pose proof (access_governed p path cwd q Hk Hq) as Hg. split; [done|]. intros p' Hk' Hsame.
  eapply governed_unique; [|by apply (access_governed p' path cwd q)|exact Hg].
  intros e. rewrite !applicable_entry. setoid_rewrite Hsame. done.
Qed.
End Access.

(** ** Resolved paths *)
Section Paths.
Context {H : Host}.

Lemma strip_tilde_absolute p : Path.is_absolute p = true → strip_prefix $"~" p = None.
Proof.
  unfold Path.is_absolute. intros [r ->]%starts_with_true. reflexivity.
Qed.

Lemma expand_plain p : strip_prefix $"~" p = None → Path.maybe_expand_home_directory home_dir p = p.
Proof. intros Hp. unfold Path.maybe_expand_home_directory. rewrite Hp. by destruct home_dir. Qed.

Lemma from_absolute_normal p :
  Path.is_absolute p = true →
  ∃ names, from_absolute_path p = Some (Path.abs_path names) ∧ Forall Path.valid_name names.
Proof.
  intros Hp. unfold from_absolute_path, Path.from_absolute_path.
  rewrite expand_plain, Hp by (by apply strip_tilde_absolute). cbn [ok].
  destruct (Path.normalize_path_absolute p Hp) as [-> Hv]. by eexists.
Qed.

Lemma parent_abs_path names n :
  Forall Path.valid_name (names ++ [n]) → Path.parent (Path.abs_path (names ++ [n])) = Some (Path.abs_path names).
Proof.
  intros Hv. unfold Path.parent. rewrite Path.components_abs_path by done. rewrite fmap_app.
  change (Path.Normal <$> [n]) with [Path.Normal n]. rewrite app_comm_cons, last_snoc.
  rewrite length_app. change (length [Path.Normal n]) with 1. rewrite Nat.add_sub, take_app_length.
  f_equal. apply Path.render_abs_path. by apply Forall_app in Hv as [? _].
Qed.

Lemma last_ancestors names fuel :
  Forall Path.valid_name names → length names ≤ fuel →
  last (Path.ancestors_go fuel (Path.abs_path names)) = Some (Path.abs_path []).
Proof.
  revert fuel. induction names as [|n names IH] using rev_ind; intros fuel Hv Hl.
  - by destruct fuel.
  - rewrite length_app in Hl. cbn in Hl. destruct fuel as [|fuel]; [lia|]. cbn [Path.ancestors_go].
    rewrite parent_abs_path by done. apply Forall_app in Hv as [Hv _].
    specialize (IH fuel Hv ltac:(lia)). rewrite last_cons, IH. done.
Qed.

(** An absolute directory has the root that the code expects. *)
Lemma root_of_absolute names :
  Forall Path.valid_name names → absolute_root_path_for_cwd (Path.abs_path names) = Some (Path.abs_path []).
Proof.
  intros Hv. unfold absolute_root_path_for_cwd, Path.ancestors.
  rewrite last_ancestors; [|done|rewrite Path.components_abs_path by done; cbn; rewrite length_fmap; lia].
  cbn [mbind option_bind]. unfold from_absolute_path, Path.from_absolute_path.
  rewrite expand_plain by reflexivity. reflexivity.
Qed.

Lemma components_root_prefix q : Path.is_absolute q = true → Path.path_starts_with (Path.abs_path []) q = true.
Proof.
  intros (cs & Hc & _)%Path.components_absolute. apply bool_decide_eq_true. rewrite Hc.
  change (Path.components (Path.abs_path [])) with [Path.RootDir]. by exists cs.
Qed.

Lemma no_parent_root q : Path.is_absolute q = true → has_no_parent q = true → Path.components q = [Path.RootDir].
Proof.
  intros (cs & Hc & Hn)%Path.components_absolute. unfold has_no_parent, Path.parent. rewrite Hc.
  destruct cs as [|c cs _] using rev_ind; [done|]. rewrite app_comm_cons, last_snoc.
  apply Forall_app in Hn as [_ [Hx _]%Forall_cons]. by destruct c.
Qed.

(** Paths with the same components resolve alike. *)
Lemma absolute_components a b : Path.components a = Path.components b → Path.is_absolute a = true → Path.is_absolute b = true.
Proof.
  intros Hc (cs & Ha & _)%Path.components_absolute. rewrite Ha in Hc. destruct (Path.is_absolute b) eqn:E; [done|].
  unfold Path.components in Hc. rewrite E in Hc. destruct (split_on_cons Path.SLASH b) as (f & ps & Hs). rewrite Hs in Hc.
  destruct (f =?s $"."); [discriminate Hc|]. cbn [app] in Hc. symmetry in Hc.
  assert (Hr : Path.RootDir ∈ omap Path.piece_component (f :: ps)) by (rewrite Hc; apply list_elem_of_here).
  apply list_elem_of_omap in Hr as (x & _ & Hx). by apply Path.piece_component_not_root in Hx as [].
Qed.

Lemma pieces_of_components p :
  Path.is_absolute p = false →
  omap Path.piece_component (split_on Path.SLASH p)
    = List.filter (λ c, negb (bool_decide (c = Path.CurDir))) (Path.components p).
Proof.
  intros Hp. unfold Path.components. rewrite Hp. destruct (split_on_cons Path.SLASH p) as (f & ps & ->).
  rewrite List.filter_app.
  assert (List.filter (λ c, negb (bool_decide (c = Path.CurDir))) (if f =?s $"." then [Path.CurDir] else []) = []) as ->
    by (by destruct (f =?s $".")). cbn [app].
  assert (Hall : ∀ l : list rstring, List.filter (λ c, negb (bool_decide (c = Path.CurDir))) (omap Path.piece_component l)
                 = omap Path.piece_component l); [|by rewrite Hall].
  induction l as [|x l IH]; [done|]. cbn [omap list_omap].
  destruct (Path.piece_component x) as [c|] eqn:E; [|exact IH]. apply Path.piece_component_not_root in E as [_ E].
  cbn [List.filter]. rewrite bool_decide_eq_false_2 by done. cbn [negb]. by f_equal.
Qed.

Lemma resolve_against_components a b base :
  Path.is_absolute base = true → strip_prefix $"~" a = None → strip_prefix $"~" b = None →
  Path.components a = Path.components b → resolve_against a base = resolve_against b base.
Proof.
  intros Hb Ha1 Hb1 Hc. unfold resolve_against, Path.resolve_path_against_base, Path.absolutize_from, Path.path_with_base.
  rewrite !expand_plain by done. destruct (Path.is_absolute a) eqn:Ea.
  - rewrite (absolute_components a b) by done. unfold Path.normalize_path. by rewrite Hc.
  - assert (Eb : Path.is_absolute b = false).
    { apply not_true_iff_false. intros Hx. apply (absolute_components b a) in Hx; congruence. }
    rewrite Eb. unfold Path.normalize_path.
    assert (Path.components (Path.push base a) = Path.components (Path.push base b)) as ->; [|done].
    unfold Path.components. rewrite !Path.push_absolute by done. f_equal.
    rewrite !Path.omap_piece_push by done.
    rewrite (pieces_of_components a), (pieces_of_components b), Hc by done. done.
Qed.

(** Entries as they are built: paths are absolute, and a subpath of the project
    roots is not written with a home directory. *)
Definition entry_wf (e : FileSystemSandboxEntry) : Prop :=
  match entry_path e with
  | PPath q => Path.is_absolute q = true
  | PSpecial (ProjectRoots (Some s)) => strip_prefix $"~" s = None
  | _ => True
  end.

(** Two entries with the same target resolve to the same place; the directory
    /tmp is there. *)
Lemma share_target_resolves c e names pe :
  host_is_dir $"/tmp" = true → Forall Path.valid_name names → entry_wf c → entry_wf e →
  file_system_paths_share_target (entry_path c) (entry_path e) = true →
  resolve_entry_path (entry_path e) (Some (Path.abs_path names)) = Some pe →
  ∃ pc, resolve_entry_path (entry_path c) (Some (Path.abs_path names)) = Some pc ∧
        Path.components pc = Path.components pe.
Proof.
  intros Htmp Hv. unfold entry_wf. set (cwd := Path.abs_path names).
  assert (Hslash : resolve_file_system_special_path SlashTmp (Some cwd) = Some $"/tmp").
  { cbn [resolve_file_system_special_path]. unfold from_absolute_path, Path.from_absolute_path.
    rewrite expand_plain by reflexivity. change (ok _) with (Some $"/tmp"). cbn [mbind option_bind]. by rewrite Htmp. }
  destruct (entry_path c) as [qc|g|vc], (entry_path e) as [qe|g'|ve]; intros Hc He Hs; try done.
  - cbn. intros [= <-]. apply bool_decide_eq_true in Hs. by exists qc.
  - destruct ve; try done; cbn [file_system_paths_share_target special_path_matches_absolute_path] in Hs.
    + cbn [resolve_entry_path mbind option_bind]. subst cwd. rewrite root_of_absolute by done. intros [= <-].
      exists qc. split; [done|]. by apply no_parent_root.
    + unfold resolve_entry_path, resolve_file_system_path. rewrite Hslash. intros [= <-].
      apply bool_decide_eq_true in Hs. by exists qc.
  - destruct vc; try done; cbn [file_system_paths_share_target special_path_matches_absolute_path] in Hs;
      cbn [resolve_entry_path resolve_file_system_path]; intros [= <-].
    + cbn [mbind option_bind]. subst cwd. rewrite root_of_absolute by done. eexists. split; [done|].
      symmetry. by apply no_parent_root.
    + rewrite Hslash. apply bool_decide_eq_true in Hs. by exists $"/tmp".
  - destruct vc as [| | |[sc|]| | |], ve as [| | |[se|]| | |]; try done; cbn; try (intros ->; by eexists).
    intros [= <-]. apply bool_decide_eq_true in Hs. eexists. split; [done|].
    f_equal. apply resolve_against_components; done.
Qed.

Lemma root_write_entry p :
  has_root_access can_write p = true →
  ∃ x, x ∈ entries p ∧ entry_path x = PSpecial Root ∧ access x = Write.
Proof.
  unfold has_root_access. intros [_ (x & Hx & Hw)%existsb_exists]%andb_true_iff. exists x.
  split; [by apply list_elem_of_In|]. destruct (entry_path x) as [| |[]]; try done. by destruct (access x).
Qed.

(** An entry with write access for the same target outranks one that reads. *)
Lemma override_outranks p cwd names x e :
  host_is_dir $"/tmp" = true → from_absolute_path cwd = Some (Path.abs_path names) → Forall Path.valid_name names →
  Forall entry_wf (entries p) → x ∈ entries p → resolve_entry (from_absolute_path cwd) x = Some e →
  has_same_target_write_override p x = true →
  ∃ e', (∃ c, c ∈ entries p ∧ resolve_entry (from_absolute_path cwd) c = Some e') ∧
        Path.components (resolved_path e') = Path.components (resolved_path e) ∧
        mode_rank (resolved_access e) < mode_rank (resolved_access e').
Proof.
  intros Htmp Hcwd Hv Hwf Hx Hr Ho. rewrite Forall_forall in Hwf.
  apply existsb_exists in Ho as (c & Hc%list_elem_of_In & [[Hw Hlt%Nat.ltb_lt]%andb_true_iff Hs]%andb_true_iff).
  unfold resolve_entry in Hr. rewrite Hcwd in Hr |- *. apply fmap_Some in Hr as (pe & Hpe & ->).
  destruct (share_target_resolves c x names pe) as (pc & Hpc & Hcomp); auto.
  exists {| resolved_path := pc; resolved_access := access c |}. split; [|done].
  exists c. split; [done|]. unfold resolve_entry. by rewrite Hpc.
Qed.

(** When a policy says that all of the disk may be written, every path may:
    no entry, however deep, takes the right to write away from a path. *)
Theorem full_disk_write_sound p path cwd :
  host_is_dir $"/tmp" = true → Forall entry_wf (entries p) →
  Path.is_absolute cwd = true → Path.is_absolute path = true →
  has_full_disk_write_access p = true → can_write_path_with_cwd p path cwd = true.
Proof.
  intros Htmp Hwf Hcwd Hpath. unfold has_full_disk_write_access, can_write_path_with_cwd.
  destruct (kind p) eqn:Hk; [|unfold resolve_access_with_cwd; by rewrite Hk..].
  intros [(x0 & Hx0 & Hr0 & Ha0)%root_write_entry Hn%negb_true_iff]%andb_true_iff.
  destruct (from_absolute_normal cwd Hcwd) as (names & Hc & Hv).
  destruct (from_absolute_normal path Hpath) as (qn & Hq & Hqv).
  assert (Hcand : resolve_candidate_path path cwd = Some (Path.abs_path qn)) by (unfold resolve_candidate_path; by rewrite Hpath).
  set (e0 := {| resolved_path := Path.abs_path []; resolved_access := Write |}).
  assert (He0 : e0 ∈ applicable_entries p cwd (Path.abs_path qn)).
  { apply applicable_entry. split; [by apply components_root_prefix|]. exists x0. split; [done|].
    unfold resolve_entry. rewrite Hr0, Hc, Ha0. cbn [resolve_entry_path mbind option_bind].
    by rewrite root_of_absolute. }
  destruct (access_governed p path cwd _ Hk Hcand) as [[Hnil _]|(e & He & <- & Hmax)].
  { rewrite Hnil in He0. by apply not_elem_of_nil in He0. }
  apply applicable_entry in He as (Hpre & x & Hx & Hres).
  assert (Hacc : resolved_access e = access x) by (by apply fmap_Some in Hres as (? & _ & ->)).
  destruct (can_write (access x)) eqn:Ew; [by rewrite Hacc|]. exfalso.
  assert (Hnx : narrows_write p x = false).
  { apply not_true_iff_false. intros Ht. unfold has_write_narrowing_entries, is_restricted in Hn. rewrite Hk in Hn.
    cbn [andb] in Hn. apply not_true_iff_false in Hn. apply Hn, existsb_exists. exists x. by rewrite <-list_elem_of_In. }
  assert (Hover : has_same_target_write_override p x = true → False).
  { intros Ho. destruct (override_outranks p cwd names x e) as (e' & Hin & Hcomp & Hlt); auto.
    assert (He' : overrides e e'). { apply Hmax, applicable_entry. split; [|done].
      unfold Path.path_starts_with in *. by rewrite Hcomp. }
    unfold overrides in He'. rewrite Hcomp in He'. lia. }
  unfold narrows_write in Hnx. rewrite Ew in Hnx.
  destruct (entry_path x) as [q|g|[]] eqn:Ep; try (by apply negb_false_iff in Hnx; auto); try done.
  - specialize (Hmax e0 He0). unfold overrides in Hmax. cbn in Hmax.
    unfold resolve_entry in Hres. rewrite Ep, Hc in Hres. cbn [resolve_entry_path mbind option_bind] in Hres.
    rewrite root_of_absolute in Hres by done. injection Hres as <-. cbn in Hmax.
    unfold denies in Hnx. apply bool_decide_eq_false in Hnx. destruct (access x); cbn in *; try done; lia.
  - unfold resolve_entry in Hres. by rewrite Ep in Hres.
  - unfold resolve_entry in Hres. by rewrite Ep in Hres.
Qed.
End Paths.

(** ** Adding roots *)
Section AddRoots.
Context {H : Host}.

Definition write_root (r : rstring) : FileSystemSandboxEntry := {| entry_path := PPath r; access := Write |}.

Lemma add_write_access p r path cwd q :
  kind p = Restricted → resolve_candidate_path path cwd = Some q →
  resolve_access_with_cwd (add_entry p (write_root r)) path cwd = resolve_access_with_cwd p path cwd ∨
  (resolve_access_with_cwd (add_entry p (write_root r)) path cwd = Write ∧ Path.path_starts_with r q = true).
Proof.
  intros Hk Hq. pose proof (access_governed p path cwd q Hk Hq) as Hg.
  pose proof (access_governed (add_entry p (write_root r)) path cwd q Hk Hq) as Hg'.
  set (m := resolve_access_with_cwd p path cwd) in *. set (m' := resolve_access_with_cwd (add_entry _ _) path cwd) in *.
  set (x := {| resolved_path := r; resolved_access := Write |}).
  assert (Hin : ∀ e, e ∈ applicable_entries (add_entry p (write_root r)) cwd q ↔
    e ∈ applicable_entries p cwd q ∨ (e = x ∧ Path.path_starts_with r q = true)).
  { intros e. rewrite !applicable_entry. cbn [add_entry entries]. setoid_rewrite elem_of_app.
    setoid_rewrite list_elem_of_singleton. split.
    - intros (Hp & y & [Hy|Hy] & He); [left; eauto|right]. rewrite Hy in He. injection He as <-. done.
    - intros [(Hp & y & Hy & He)|[He Hp]]; [split; eauto|]. rewrite He. split; [exact Hp|].
      exists (write_root r). auto. }
  destruct Hg' as [[Hnil ->]|(e & He & <- & Hmax)].
  - left. destruct Hg as [[_ ->]|(e & He & _)]; [done|]. assert (e ∈ @nil ResolvedFileSystemEntry) as Hx; [|set_solver].
    rewrite <-Hnil. apply Hin. by left.
  - apply Hin in He as [He|[-> Hp]]; [left|right; done].
    eapply governed_unique; [|right|exact Hg]; [done|]. exists e. split_and!; [done|done|].
    intros e' He'. apply Hmax, Hin. by left.
Qed.

(** What may change: the mode stays, or becomes write below one of the roots. *)
Lemma additional_roots_access roots p path cwd q :
  kind p = Restricted → resolve_candidate_path path cwd = Some q →
  let p' := with_additional_writable_roots p cwd roots in
  kind p' = Restricted ∧
  (resolve_access_with_cwd p' path cwd = resolve_access_with_cwd p path cwd ∨
   (resolve_access_with_cwd p' path cwd = Write ∧ ∃ r, r ∈ roots ∧ Path.path_starts_with r q = true)).
Proof.
  intros Hk Hq. cbn. revert p Hk. induction roots as [|r roots IH]; intros p Hk; cbn [with_additional_writable_roots fold_left].
  { auto. }
  set (p1 := if can_write_path_with_cwd p r cwd then p else _).
  assert (H1 : kind p1 = Restricted ∧
    (resolve_access_with_cwd p1 path cwd = resolve_access_with_cwd p path cwd ∨
     (resolve_access_with_cwd p1 path cwd = Write ∧ Path.path_starts_with r q = true))).
  { subst p1. destruct (can_write_path_with_cwd p r cwd); [auto|]. split; [done|]. by apply add_write_access. }
  destruct H1 as [Hk1 H1]. destruct (IH p1 Hk1) as [Hk' IH']. split; [exact Hk'|].
  destruct IH' as [Heq|(Hw & r' & Hr' & Hp)]; [|right; split; [done|]; exists r'; set_solver].
  destruct H1 as [H1|[H1 Hp]]; [left; exact (eq_trans Heq H1)|right]. split; [exact (eq_trans Heq H1)|].
  exists r. set_solver.
Qed.

Lemma additional_roots_entries roots p cwd x :
  x ∈ entries (with_additional_writable_roots p cwd roots) → x ∈ entries p ∨ access x = Write.
Proof.
  unfold with_additional_writable_roots. revert p. induction roots as [|r roots IH]; intros p; cbn [fold_left]; [auto|].
  intros [Hx|Hx]%IH; [|auto]. destruct (can_write_path_with_cwd p r cwd); [auto|].
  cbn in Hx. apply elem_of_app in Hx as [?|Hx]; [auto|]. apply list_elem_of_singleton in Hx as ->. auto.
Qed.

Lemma additional_root_kept roots p cwd x :
  x ∈ entries p → x ∈ entries (with_additional_writable_roots p cwd roots).
Proof.
  unfold with_additional_writable_roots. revert p. induction roots as [|r roots IH]; intros p Hx; cbn [fold_left]; [auto|].
  apply IH. destruct (can_write_path_with_cwd p r cwd); [done|]. cbn. apply elem_of_app. by left.
Qed.

(** A path with a write entry of its own is writable unless it is denied. *)
Lemma own_entry_writes p cwd r :
  kind p = Restricted → resolve_candidate_path r cwd = Some r → write_root r ∈ entries p →
  can_write_path_with_cwd p r cwd = true ∨
  ∃ x e, x ∈ entries p ∧ access x = NoAccess ∧ resolve_entry (from_absolute_path cwd) x = Some e ∧
         Path.components (resolved_path e) = Path.components r.
Proof.
  intros Hk Hq Hin. set (w := {| resolved_path := r; resolved_access := Write |}).
  assert (Hw : w ∈ applicable_entries p cwd r).
  { apply applicable_entry. split; [by apply bool_decide_eq_true_2|]. by exists (write_root r). }
  unfold can_write_path_with_cwd. destruct (access_governed p r cwd r Hk Hq) as [[Hnil _]|(e & He & <- & Hmax)].
  { rewrite Hnil in Hw. by apply not_elem_of_nil in Hw. }
  apply applicable_entry in He as (Hp & x & Hx & Hres). apply bool_decide_eq_true in Hp as Hpre.
  specialize (Hmax w Hw). unfold overrides in Hmax. cbn in Hmax.
  pose proof (prefix_length _ _ Hpre) as Hlen.
  assert (Hcomp : Path.components (resolved_path e) = Path.components r).
  { apply prefix_length_eq; [done|lia]. }
  destruct (resolved_access e) eqn:Ea; [cbn in Hmax; rewrite Hcomp in Hmax; lia|by left|right].
  exists x, e. split_and!; try done. by apply fmap_Some in Hres as (? & _ & ->).
Qed.

(** Giving a policy more writable roots does that and nothing else: every
    root becomes writable unless an entry denies that very path, no path loses a
    right, and only paths below one of the roots gain one. *)
Theorem additional_roots_grant_only p cwd roots :
  kind p = Restricted → (∀ r, r ∈ roots → resolve_candidate_path r cwd = Some r) →
  let p' := with_additional_writable_roots p cwd roots in
  (∀ r, r ∈ roots → can_write_path_with_cwd p' r cwd = true ∨
     ∃ x e, x ∈ entries p ∧ access x = NoAccess ∧ resolve_entry (from_absolute_path cwd) x = Some e ∧
            Path.components (resolved_path e) = Path.components r) ∧
  (∀ path q, resolve_candidate_path path cwd = Some q →
     resolve_access_with_cwd p' path cwd = resolve_access_with_cwd p path cwd ∨
     (resolve_access_with_cwd p' path cwd = Write ∧ ∃ r, r ∈ roots ∧ Path.path_starts_with r q = true)).
Proof.
  intros Hk Hr p'. split; [|intros path q Hq; by apply additional_roots_access]. intros r Hin.
  apply list_elem_of_split in Hin as (l1 & l2 & Hsplit).
  set (p1 := with_additional_writable_roots p cwd l1).
  assert (Hp' : p' = with_additional_writable_roots p1 cwd (r :: l2)).
  { subst p' p1. rewrite Hsplit. unfold with_additional_writable_roots. by rewrite fold_left_app. }
  assert (Hrr : resolve_candidate_path r cwd = Some r) by (apply Hr; rewrite Hsplit; set_solver).
  destruct (additional_roots_access l1 p r cwd r Hk Hrr) as [Hk1 _]. fold p1 in Hk1.
  destruct (can_write_path_with_cwd p1 r cwd) eqn:E.
  - left. unfold can_write_path_with_cwd in *. destruct (additional_roots_access (r :: l2) p1 r cwd r Hk1 Hrr) as [_ Hx].
    rewrite Hp'. destruct Hx as [->|[-> _]]; done.
  - assert (Hmem : write_root r ∈ entries p').
    { rewrite Hp'. unfold with_additional_writable_roots. cbn [fold_left]. rewrite E.
      apply (additional_root_kept l2). cbn. apply elem_of_app. right. by apply list_elem_of_singleton. }
    assert (Hk' : kind p' = Restricted) by (by apply (additional_roots_access roots p r cwd r)).
    destruct (own_entry_writes p' cwd r Hk' Hrr Hmem) as [?|(x & e & Hx & Ha & He & Hc)]; [by left|right].
    exists x, e. split_and!; try done. apply additional_roots_entries in Hx as [?|?]; [done|congruence].
Qed.
End AddRoots.

(** ** Legacy policies *)
Section Legacy.
Context {H : Host}.

Lemma dedup_go_distinct seen l :
  NoDup (Path.components <$> l) → (∀ p q, p ∈ l → q ∈ seen → Path.components p ≠ Path.components q) →
  dedup_go seen l = l.
Proof.
  revert seen. induction l as [|p l IH]; intros seen Hnd Hs; [done|]. cbn [dedup_go fmap list_fmap] in *.
  apply NoDup_cons in Hnd as [Hp Hnd].
  assert (existsb (Path.path_eqb p) seen = false) as ->.
  { apply not_true_iff_false. intros (q & Hq%list_elem_of_In & Hpq%bool_decide_eq_true)%existsb_exists.
    by apply (Hs p q); [apply list_elem_of_here|..]. }
  f_equal. apply IH; [done|]. intros x y Hx [->|Hy]%elem_of_cons.
  - intros Heq. apply Hp. rewrite <-Heq. by apply list_elem_of_fmap_2.
  - apply Hs; [by apply list_elem_of_further|done].
Qed.

Lemma dedup_go_covers seen l p :
  p ∈ l → ∃ q, (q ∈ dedup_go seen l ∨ q ∈ seen) ∧ Path.components q = Path.components p.
Proof.
  revert seen. induction l as [|x l IH]; intros seen Hp; [by apply not_elem_of_nil in Hp|]. cbn [dedup_go].
  destruct (existsb (Path.path_eqb x) seen) eqn:E; apply elem_of_cons in Hp as [->|Hp].
  - apply existsb_exists in E as (q & Hq%list_elem_of_In & Hpq%bool_decide_eq_true). exists q. auto.
  - destruct (IH seen Hp) as (q & Hq & ?). eauto.
  - exists x. split; [left; apply list_elem_of_here|done].
  - destruct (IH (x :: seen) Hp) as (q & [Hq|[->|Hq]%elem_of_cons] & ?); exists q || exists x;
      (split; [|done]); [left; by apply list_elem_of_further|left; apply list_elem_of_here|by right].
Qed.

Lemma dedup_go_sub seen l p : p ∈ dedup_go seen l → p ∈ l.
Proof.
  revert seen. induction l as [|x l IH]; intros seen; cbn [dedup_go]; [done|].
  destruct (existsb _ seen); [intros Hp; apply list_elem_of_further; eauto|].
  intros [->|Hp]%elem_of_cons; [apply list_elem_of_here|apply list_elem_of_further; eauto].
Qed.

Lemma scan_roots_fold cwd roots s :
  (∀ r, r ∈ roots → ∀ c, cwd = Some c → Path.components c ≠ Path.components r) →
  fold_left (scan_entry cwd) ((λ r, entry (PPath r) Write) <$> roots) s =
  {| workspace_root_writable := workspace_root_writable s; scan_roots := scan_roots s ++ roots;
     tmpdir_writable := tmpdir_writable s; slash_tmp_writable := slash_tmp_writable s;
     unbridgeable_root_write := unbridgeable_root_write s |}.
Proof.
  revert s. induction roots as [|r roots IH]; intros s Hr; cbn [fmap list_fmap fold_left].
  { rewrite app_nil_r. by destruct s. }
  rewrite IH by (intros; by apply Hr; [apply list_elem_of_further|]).
  assert (match cwd with Some c => Path.path_eqb c r | None => false end = false) as Hc.
  { destruct cwd as [c|]; [|done]. apply bool_decide_eq_false. by apply (Hr r); [apply list_elem_of_here|]. }
  destruct s. cbn [scan_entry entry entry_path access can_write]. rewrite Hc. cbn. by rewrite <-app_assoc.
Qed.

(** A legacy policy survives the way through the entries and back, with its
    network setting; for a workspace this holds when its roots are distinct and
    none of them is the working directory itself. *)
Theorem legacy_roundtrip sp cwd :
  match sp with
  | WorkspaceWrite roots _ _ _ =>
      NoDup (Path.components <$> roots) ∧
      ∀ r c, r ∈ roots → from_absolute_path cwd = Some c → Path.components c ≠ Path.components r
  | _ => True
  end →
  to_legacy_sandbox_policy (policy_of_legacy sp) (network_of_legacy sp) cwd = Ok sp.
Proof.
  destruct sp as [|n|n|roots n xt xs]; intros Hwf; [done|by destruct n|by destruct n|].
  destruct Hwf as [Hnd Hc]. unfold to_legacy_sandbox_policy. cbn [policy_of_legacy restricted kind entries].
  set (es := entry (PSpecial Root) Read :: _).
  assert (has_full_disk_write_access (restricted es) = false) as ->.
  { unfold has_full_disk_write_access, has_root_access. cbn [restricted kind is_restricted entries andb].
    assert (existsb (λ e, match entry_path e with PSpecial Root => can_write (access e) | _ => false end) es = false) as ->;
      [|done]. subst es. cbn [existsb entry entry_path access can_write orb]. rewrite !existsb_app.
    assert (existsb (λ e, match entry_path e with PSpecial Root => can_write (access e) | _ => false end)
              ((λ r, entry (PPath r) Write) <$> roots) = false) as -> by (clear; by induction roots).
    by destruct xs, xt. }
  subst es. cbn [fold_left]. rewrite !fold_left_app, scan_roots_fold by (intros r Hr c Hcw; by apply (Hc r c)).
  assert (Hd : dedup_absolute_paths roots false = roots).
  { apply dedup_go_distinct; [done|]. intros p q _ Hq. by apply not_elem_of_nil in Hq. }
  destruct xs, xt; cbn -[dedup_absolute_paths]; rewrite Hd; by destruct n.
Qed.

(** *** Protected subpaths *)
Lemma resolve_name names n :
  Forall Path.valid_name names → Path.is_absolute (resolve_against n (Path.abs_path names)) = true.
Proof.
  intros Hv. destruct (Path.resolve_path_normalised home_dir n (Path.abs_path names)) as (ns & Hn & _); [done|].
  unfold resolve_against. by rewrite Hn.
Qed.

Lemma parent_absolute p q : Path.is_absolute p = true → Path.parent p = Some q → Path.is_absolute q = true.
Proof.
  intros (cs & Hc & Hn)%Path.components_absolute. unfold Path.parent. rewrite Hc.
  destruct cs as [|c cs _] using rev_ind; [done|]. rewrite app_comm_cons, last_snoc.
  assert (Hr : Path.is_absolute (Path.render (Path.RootDir :: cs)) = true).
  { unfold Path.render. cbn [fold_left]. change (Path.push [] (Path.as_os_str Path.RootDir)) with [Path.SLASH].
    assert (Ha : Path.is_absolute [Path.SLASH] = true) by done. revert Ha. generalize [Path.SLASH].
    apply Forall_app in Hn as [Hn _]. clear -Hn. induction Hn as [|c cs _ _ IH]; intros b Hb; cbn [fold_left]; [done|].
    apply IH. by apply Path.push_absolute. }
  rewrite length_app. change (length [c]) with 1. rewrite Nat.add_sub, take_app_length.
  destruct c; intros [= <-]; done.
Qed.

Lemma gitdir_absolute p d : Path.is_absolute p = true → resolve_gitdir_from_file p = Some d → Path.is_absolute d = true.
Proof.
  intros Hp. unfold resolve_gitdir_from_file. destruct (read_to_string p) as [t|]; [|done]. cbn [mbind option_bind].
  destruct (split_once 58 (trim t)) as [[a b]|]; [|done]. cbn [mbind option_bind snd].
  destruct (is_empty (trim b)); [done|]. destruct (Path.parent p) as [base|] eqn:E; [|done]. cbn [mbind option_bind].
  destruct (host_exists _); [|done]. intros [= <-]. apply parent_absolute in E; [|done].
  unfold resolve_against.
  destruct (Path.resolve_path_normalised home_dir (trim b) base) as (ns & Hn & _); [done|]. by rewrite Hn.
Qed.

Lemma protected_absolute names b d :
  Forall Path.valid_name names → d ∈ default_read_only_subpaths_for_writable_root (Path.abs_path names) b →
  Path.is_absolute d = true.
Proof.
  intros Hv Hd%dedup_go_sub. pose proof (λ n, resolve_name names n Hv) as Hn.
  unfold read_only_subpath_candidates in Hd. rewrite !elem_of_app in Hd. destruct Hd as [Hd|[Hd|Hd]].
  - destruct (host_is_dir _ || host_is_file _); [|by apply not_elem_of_nil in Hd].
    apply elem_of_app in Hd as [Hd|Hd]; [|by apply list_elem_of_singleton in Hd as ->].
    destruct (host_is_file _ && _); [|by apply not_elem_of_nil in Hd].
    destruct (resolve_gitdir_from_file _) eqn:E; [|by apply not_elem_of_nil in Hd].
    apply list_elem_of_singleton in Hd as ->. by eapply gitdir_absolute.
  - destruct (host_is_dir _); [|by apply not_elem_of_nil in Hd]. by apply list_elem_of_singleton in Hd as ->.
  - destruct (b || host_is_dir _); [|by apply not_elem_of_nil in Hd]. by apply list_elem_of_singleton in Hd as ->.
Qed.

(** What appending default rules keeps, and what it makes sure of. *)
Definition covered (es : list FileSystemSandboxEntry) (d : rstring) : Prop :=
  ∃ e, e ∈ es ∧ file_system_paths_share_target (entry_path e) (PPath d) = true.

Lemma append_path_spec es d e :
  e ∈ append_path es d → e ∈ es ∨ e = entry (PPath d) Read.
Proof.
  unfold append_path, append_default_read_only_entry_if_no_explicit_rule. destruct (existsb _ es); [auto|].
  rewrite elem_of_app, list_elem_of_singleton. auto.
Qed.

Lemma append_path_keeps es d e : e ∈ es → e ∈ append_path es d.
Proof.
  unfold append_path, append_default_read_only_entry_if_no_explicit_rule. destruct (existsb _ es); [done|].
  rewrite elem_of_app. auto.
Qed.

Lemma append_path_covers es d : covered (append_path es d) d.
Proof.
  unfold append_path, append_default_read_only_entry_if_no_explicit_rule, covered. destruct (existsb _ es) eqn:E.
  - apply existsb_exists in E as (e & He%list_elem_of_In & Hs). eauto.
  - exists (entry (PPath d) Read). split; [apply elem_of_app; right; by apply list_elem_of_singleton|].
    cbn. by apply bool_decide_eq_true.
Qed.

Lemma append_paths_keeps ds es e : e ∈ es → e ∈ fold_left append_path ds es.
Proof. revert es. induction ds as [|d ds IH]; intros es He; cbn [fold_left]; [done|]. by apply IH, append_path_keeps. Qed.

Lemma append_paths_covers ds es d : d ∈ ds → covered (fold_left append_path ds es) d.
Proof.
  revert es. induction ds as [|x ds IH]; intros es Hd; [by apply not_elem_of_nil in Hd|]. cbn [fold_left].
  apply elem_of_cons in Hd as [->|Hd]; [|by apply IH].
  destruct (append_path_covers es x) as (e & He & Hs). exists e. split; [by apply append_paths_keeps|done].
Qed.

Definition read_path (e : FileSystemSandboxEntry) : Prop :=
  access e = Read ∧ ∃ d, entry_path e = PPath d ∧ Path.is_absolute d = true.

Lemma append_paths_sub ds es e :
  Forall (λ d, Path.is_absolute d = true) ds → e ∈ fold_left append_path ds es → e ∈ es ∨ read_path e.
Proof.
  intros Hds. revert es. induction Hds as [|d ds Hd _ IH]; intros es; cbn [fold_left]; [auto|].
  intros [He|He]%IH; [|auto]. apply append_path_spec in He as [?| ->]; [auto|]. right. split; [done|]. by exists d.
Qed.

Lemma append_protected_spec roots es e :
  Forall (λ r, ∃ ns, r = Path.abs_path ns ∧ Forall Path.valid_name ns) roots →
  (e ∈ es → e ∈ append_protected roots es) ∧ (e ∈ append_protected roots es → e ∈ es ∨ read_path e).
Proof.
  intros Hr. unfold append_protected. revert es. induction Hr as [|r roots (ns & -> & Hns) _ IH]; intros es; cbn [fold_left]; [auto|].
  split.
  - intros He. apply IH. by apply append_paths_keeps.
  - intros [He|He]%IH; [|auto]. apply append_paths_sub in He; [done|].
    apply Forall_forall. intros d Hd. by eapply protected_absolute.
Qed.

Lemma codex_protected names :
  ∃ s, s ∈ default_read_only_subpaths_for_writable_root (Path.abs_path names) true ∧
       Path.components s = Path.components (resolve_against $".codex" (Path.abs_path names)).
Proof.
  set (codex := resolve_against $".codex" (Path.abs_path names)).
  destruct (dedup_go_covers [] (read_only_subpath_candidates (Path.abs_path names) true) codex) as (q & Hq & Hc).
  { unfold read_only_subpath_candidates. rewrite !elem_of_app. right. right. by apply list_elem_of_singleton. }
  exists q. split; [|done]. destruct Hq as [Hq|Hq]; [exact Hq|by apply not_elem_of_nil in Hq].
Qed.

Lemma legacy_entries_wf roots n xt xs :
  Forall (λ r, Path.is_absolute r = true) roots →
  Forall entry_wf (entries (policy_of_legacy (WorkspaceWrite roots n xt xs))).
Proof.
  intros Hr. cbn [policy_of_legacy restricted entries]. repeat constructor.
  rewrite !Forall_app. split_and!; [by destruct xs; repeat constructor|by destruct xt; repeat constructor|].
  by apply Forall_fmap.
Qed.

(** The entries of a workspace policy: those of the legacy policy, and rules to
    read. *)
Lemma workspace_entries roots n xt xs cwd names e :
  from_absolute_path cwd = Some (Path.abs_path names) → Forall Path.valid_name names →
  Forall (λ r, ∃ ns, r = Path.abs_path ns ∧ Forall Path.valid_name ns) roots →
  e ∈ entries (from_legacy_sandbox_policy_for_cwd (WorkspaceWrite roots n xt xs) cwd) →
  e ∈ entries (policy_of_legacy (WorkspaceWrite roots n xt xs)) ∨ read_path e.
Proof.
  intros Hc Hv Hr. unfold from_legacy_sandbox_policy_for_cwd. rewrite Hc. cbn [set_entries entries].
  intros [He|He]%append_protected_spec; [|by right|done].
  apply append_paths_sub in He as [He|He]; [|by right|apply Forall_forall; intros; by eapply protected_absolute].
  left. unfold prune_read_entries_under_writable_roots in He.
  by apply list_elem_of_In, filter_In in He as [He%list_elem_of_In _].
Qed.

(** C34: a workspace policy keeps the agent from its own metadata: in the policy
    built for a working directory, nothing at or below a protected path of that
    directory may be written, be it .codex (there or not yet), .git, the directory
    a .git file points to, or .agents.  The protected path must not have a place
    inside it that the workspace policy itself makes writable: neither a writable
    root of the user, nor the temporary directories, nor (for a .git file that
    points above it) the working directory.  Also assumed: /tmp is a directory,
    the working directory is absolute and the writable roots are normal absolute
    paths. *)
Theorem workspace_protects_metadata roots n xt xs cwd names s path q :
  let sp := WorkspaceWrite roots n xt xs in
  host_is_dir $"/tmp" = true →
  from_absolute_path cwd = Some (Path.abs_path names) → Forall Path.valid_name names →
  Forall (λ r, ∃ ns, r = Path.abs_path ns ∧ Forall Path.valid_name ns) roots →
  s ∈ default_read_only_subpaths_for_writable_root (Path.abs_path names) true →
  resolve_candidate_path path cwd = Some q → Path.path_starts_with s q = true →
  (∀ e, e ∈ resolved_entries_with_cwd (policy_of_legacy sp) cwd → resolved_access e = Write →
        Path.path_starts_with s (resolved_path e) = false) →
  can_write_path_with_cwd (from_legacy_sandbox_policy_for_cwd sp cwd) path cwd = false.
Proof.
  intros sp Htmp Hc Hv Hr Hs Hq Hsq Hno. set (p := from_legacy_sandbox_policy_for_cwd sp cwd).
  assert (Hwf : Forall entry_wf (entries p)).
  { apply Forall_forall. intros e [He|(_ & d & Hd & Ha)]%(workspace_entries _ _ _ _ _ names); try done.
    - revert e He. apply Forall_forall, legacy_entries_wf. eapply Forall_impl; [exact Hr|]. by intros ? (? & -> & _).
    - unfold entry_wf. by rewrite Hd. }
  assert (Hcov : covered (entries p) s).
  { subst p. unfold from_legacy_sandbox_policy_for_cwd. cbn [sp]. rewrite Hc. cbn [set_entries entries].
    destruct (append_paths_covers _ (prune_read_entries_under_writable_roots
      (entries (policy_of_legacy sp)) (legacy_writable_roots sp cwd)) s Hs) as (e & He & Hsh).
    exists e. split; [|done]. by apply append_protected_spec. }
  destruct Hcov as (x & Hx & Hsh).
  destruct (share_target_resolves x (entry (PPath s) Read) names s) as (px & Hpx & Hcomp); try done.
  { by eapply Forall_forall in Hwf. }
  { by eapply protected_absolute. }
  set (ex := {| resolved_path := px; resolved_access := access x |}).
  assert (Hex : ex ∈ applicable_entries p cwd q).
  { apply applicable_entry. cbn. split; [unfold Path.path_starts_with in *; by rewrite Hcomp|]. exists x.
    split; [done|]. unfold resolve_entry. by rewrite Hc, Hpx. }
  unfold can_write_path_with_cwd. destruct (access_governed p path cwd q) as [[_ ->]|(e & He & <- & Hmax)]; try done.
  apply applicable_entry in He as (Hp & y & Hy & Hres). specialize (Hmax ex Hex).
  assert (Hbelow : Path.path_starts_with s (resolved_path e) = true).
  { apply bool_decide_eq_true in Hsq, Hp. apply bool_decide_eq_true. unfold overrides in Hmax. cbn in Hmax. rewrite Hcomp in Hmax.
    destruct (prefix_weak_total _ _ _ Hsq Hp) as [?|Hpre]; [done|]. apply prefix_length_eq in Hpre; [by rewrite Hpre|lia]. }
  destruct (resolved_access e) eqn:Ea; try done. rewrite Hno in Hbelow; try done.
  unfold resolved_entries_with_cwd. apply list_elem_of_omap. exists y. split; [|done].
  apply (workspace_entries _ _ _ _ _ names) in Hy as [?|[Hread _]]; try done.
  apply fmap_Some in Hres as (? & _ & ->). cbn in Ea. congruence.
Qed.
End Legacy.

(** ** Denials survive *)
Section Denials.
Context {H : Host}.

Lemma entry_eqb_target x d :
  entry_eqb x d = true → access x = access d ∧ file_system_paths_share_target (entry_path x) (entry_path d) = true.
Proof.
  unfold entry_eqb. intros [Hp Ha%bool_decide_eq_true]%andb_true_iff. split; [done|].
  destruct (entry_path x) as [| |vx], (entry_path d) as [| |vd]; try done.
  cbn in *. by destruct vx as [| | |[]| | |], vd as [| | |[]| | |].
Qed.

Lemma add_denials_spec existing es :
  (∀ x, x ∈ es → x ∈ add_denials existing es) ∧
  (∀ x, x ∈ add_denials existing es → x ∈ es ∨ (x ∈ existing ∧ access x = NoAccess)) ∧
  (∀ d, d ∈ existing → access d = NoAccess →
        ∃ x, x ∈ add_denials existing es ∧ (x = d ∨ entry_eqb x d = true)).
Proof.
  unfold add_denials. revert es. induction existing as [|d existing IH]; intros es; cbn [List.filter].
  { cbn. split_and!; auto. intros d Hd. by apply not_elem_of_nil in Hd. }
  destruct (denies d) eqn:Ed; [apply bool_decide_eq_true in Ed|apply bool_decide_eq_false in Ed]; cbn [fold_left].
  - set (es' := if existsb (λ e, entry_eqb e d) es then es else es ++ [d]).
    assert (Hes : (∀ x, x ∈ es → x ∈ es') ∧ (∀ x, x ∈ es' → x ∈ es ∨ x = d) ∧
                  ∃ x, x ∈ es' ∧ (x = d ∨ entry_eqb x d = true)).
    { subst es'. destruct (existsb _ es) eqn:E.
      - apply existsb_exists in E as (x & Hx%list_elem_of_In & He). split_and!; eauto.
      - split_and!; [set_solver|intros x [?|?%list_elem_of_singleton]%elem_of_app; auto|exists d; set_solver]. }
    destruct Hes as (Hk & Hs & (y & Hy & Hyd)). destruct (IH es') as (IH1 & IH2 & IH3). split_and!.
    + auto.
    + intros x [Hx|[? ?]]%IH2; [apply Hs in Hx as [?| ->]; [auto|right; set_solver]|right; set_solver].
    + intros d' [->|Hd]%elem_of_cons Ha; [exists y; auto|auto].
  - destruct (IH es) as (IH1 & IH2 & IH3). split_and!; [done|intros x [?|[? ?]]%IH2; [auto|right; set_solver]|].
    intros d' [->|Hd]%elem_of_cons Ha; [done|auto].
Qed.

(** The policy that the denials are added to. *)
Definition preserve_base (self existing : FileSystemSandboxPolicy) : FileSystemSandboxPolicy :=
  if is_unrestricted self && existsb denies (entries existing)
  then restricted [ {| entry_path := PSpecial Root; access := Write |} ] else self.

Lemma preserve_entries self existing x :
  kind self ≠ ExternalSandbox → x ∈ entries existing → access x = NoAccess →
  let p := preserve_deny_read_restrictions_from self existing in
  let base := preserve_base self existing in
  kind base = Restricted ∧ kind p = Restricted ∧
  entries p = add_denials (entries existing) (entries base) ∧
  (kind self = Restricted ∧ base = self ∨
   entries base = [ {| entry_path := PSpecial Root; access := Write |} ]).
Proof.
  intros Hext Hx Hax. cbn. unfold preserve_deny_read_restrictions_from. fold (preserve_base self existing).
  assert (Hk : kind (preserve_base self existing) = Restricted ∧
    (kind self = Restricted ∧ preserve_base self existing = self ∨
     entries (preserve_base self existing) = [ {| entry_path := PSpecial Root; access := Write |} ])).
  { unfold preserve_base, is_unrestricted.
    assert (existsb denies (entries existing) = true) as ->.
    { apply existsb_exists. exists x. split; [by apply list_elem_of_In|]. by apply bool_decide_eq_true. }
    destruct (kind self) eqn:Ek; [auto|cbn; auto|done]. }
  destruct Hk as [Hk Hb]. unfold is_restricted. rewrite Hk. done.
Qed.

(** A denial of the old policy is among the entries, in some spelling. *)
Lemma denial_present p cwd names q existing base x e :
  host_is_dir $"/tmp" = true → from_absolute_path cwd = Some (Path.abs_path names) → Forall Path.valid_name names →
  Forall entry_wf (entries base) → Forall entry_wf (entries existing) →
  entries p = add_denials (entries existing) (entries base) →
  x ∈ entries existing → access x = NoAccess → resolve_entry (from_absolute_path cwd) x = Some e →
  Path.path_starts_with (resolved_path e) q = true →
  ∃ ey, ey ∈ applicable_entries p cwd q ∧ resolved_access ey = NoAccess ∧
        Path.components (resolved_path ey) = Path.components (resolved_path e).
Proof.
  intros Htmp Hc Hv Hwb Hwe Hep Hx Hax Hrx Hpre.
  destruct (add_denials_spec (entries existing) (entries base)) as (_ & Hsub & Hcov).
  rewrite <-Hep in Hsub, Hcov. destruct (Hcov x Hx Hax) as (y & Hy & [->|[Hya Hys]%entry_eqb_target]).
  - exists e. split; [apply applicable_entry; eauto|]. split; [|done]. by apply fmap_Some in Hrx as (? & _ & ->).
  - unfold resolve_entry in Hrx. rewrite Hc in Hrx. apply fmap_Some in Hrx as (pe & Hpe & ->).
    destruct (share_target_resolves y x names pe) as (pc & Hpc & Hcomp); try done.
    { apply Hsub in Hy as [Hy|[Hy _]]; [by eapply Forall_forall in Hwb|by eapply Forall_forall in Hwe]. }
    { by eapply Forall_forall in Hwe. }
    exists {| resolved_path := pc; resolved_access := access y |}. split; [|split; [cbn; congruence|done]].
    apply applicable_entry. cbn. unfold Path.path_starts_with in *. rewrite Hcomp. split; [done|]. exists y.
    split; [done|]. unfold resolve_entry. by rewrite Hc, Hpc.
Qed.

(** Explicit denials survive when the rest of a policy is replaced: a path
    that an entry of the old policy denies stays denied in the new one, unless
    the new policy has an entry of its own deeper than the denial; replacing it
    by "everything is allowed" drops none of them. *)
Theorem denials_survive self existing path cwd q x e :
  let p := preserve_deny_read_restrictions_from self existing in
  host_is_dir $"/tmp" = true → Path.is_absolute cwd = true →
  Forall entry_wf (entries self) → Forall entry_wf (entries existing) →
  kind self ≠ ExternalSandbox → resolve_candidate_path path cwd = Some q →
  x ∈ entries existing → access x = NoAccess → resolve_entry (from_absolute_path cwd) x = Some e →
  Path.path_starts_with (resolved_path e) q = true → Path.is_absolute (resolved_path e) = true →
  (∀ e', kind self = Restricted → e' ∈ applicable_entries self cwd q →
         length (Path.components (resolved_path e')) ≤ length (Path.components (resolved_path e))) →
  resolve_access_with_cwd p path cwd = NoAccess.
Proof.
  intros p Htmp Hcwd Hws Hwe Hext Hq Hx Hax Hrx Hpre Habs Hdeep.
  destruct (from_absolute_normal cwd Hcwd) as (names & Hc & Hv).
  destruct (preserve_entries self existing x Hext Hx Hax) as (Hk & Hkp & Hep & Hb). fold p in Hkp, Hep.
  set (base := preserve_base self existing) in *.
  assert (Hwb : Forall entry_wf (entries base)) by (destruct Hb as [[_ ->]| ->]; [done|by repeat constructor]).
  destruct (denial_present p cwd names q existing base x e) as (ey & Hey & Hna & Hcomp); try done.
  destruct (access_governed p path cwd q Hkp Hq) as [[_ ->]|(g & Hg & <- & Hmax)]; [done|].
  specialize (Hmax ey Hey). unfold overrides in Hmax. rewrite Hna, Hcomp in Hmax. cbn in Hmax.
  apply applicable_entry in Hg as (Hgp & z & Hz & Hzr). rewrite Hep in Hz.
  apply add_denials_spec in Hz as [Hz|[_ Hz]]; [|by apply fmap_Some in Hzr as (? & _ & ->)].
  assert (Hs : length (Path.components (resolved_path g)) ≤ length (Path.components (resolved_path e))).
  { destruct Hb as [[Hks Hbs]|Hbs].
    - apply Hdeep; [done|]. apply applicable_entry. rewrite Hbs in Hz. eauto.
    - rewrite Hbs in Hz. apply list_elem_of_singleton in Hz as ->. unfold resolve_entry in Hzr. rewrite Hc in Hzr.
      cbn [entry_path resolve_entry_path mbind option_bind] in Hzr. rewrite root_of_absolute in Hzr by done.
      injection Hzr as <-. apply Path.components_absolute in Habs as (cs & -> & _). cbn. lia. }
  apply mode_rank_inj. destruct (resolved_access g); cbn in *; lia.
Qed.
End Denials.

(** ** A host and policies *)
Definition demo_host : Host := {|
  home_dir := None; process_dir := Some $"/"; env_tmpdir := None;
  host_is_file _ := false;
  host_is_dir p := str_in p [ $"/tmp"; $"/w"; $"/w/.git" ];
  host_exists p := str_in p [ $"/tmp"; $"/w"; $"/w/.git" ];
  symlink_metadata p := if str_in p [ $"/"; $"/tmp"; $"/w"; $"/w/.git" ] then Some false else None;
  canonicalize p := Some p;
  read_to_string _ := None
|}.
#[local] Existing Instance demo_host.

Definition demo_policy : FileSystemSandboxPolicy :=
  restricted [ entry (PSpecial Root) Read; entry (PPath $"/w") Write; entry (PPath $"/w/secret") NoAccess;
               entry (PPath $"/w/secret") Write ].

Example demo_access :
  resolve_access_with_cwd demo_policy $"/w/a" $"/w" = Write ∧
  resolve_access_with_cwd demo_policy $"secret/x" $"/w" = NoAccess ∧
  resolve_access_with_cwd demo_policy $"/etc/passwd" $"/w" = Read.
Proof. split_and!; vm_compute; reflexivity. Qed.

Lemma access_most_specific_witness :
  governed (applicable_entries demo_policy $"/w" $"/w/secret/x")
    (resolve_access_with_cwd demo_policy $"/w/secret/x" $"/w").
Proof. apply (access_most_specific demo_policy $"/w/secret/x" $"/w" $"/w/secret/x"); vm_compute; reflexivity. Defined.

Definition full_policy : FileSystemSandboxPolicy :=
  restricted [ entry (PSpecial Root) Write; entry (PPath $"/w") Read; entry (PPath $"/w") Write ].

Lemma full_disk_write_sound_witness : can_write_path_with_cwd full_policy $"/w/x" $"/w" = true.
Proof.
  apply full_disk_write_sound; [vm_compute; reflexivity| |vm_compute; reflexivity..].
  repeat constructor; vm_compute; reflexivity.
Defined.

Lemma additional_roots_grant_only_witness :
  can_write_path_with_cwd (with_additional_writable_roots demo_policy $"/w" [ $"/o" ]) $"/o" $"/w" = true ∨
  ∃ x e, x ∈ entries demo_policy ∧ access x = NoAccess ∧
         resolve_entry (from_absolute_path $"/w") x = Some e ∧
         Path.components (resolved_path e) = Path.components $"/o".
Proof.
  apply (additional_roots_grant_only demo_policy $"/w" [ $"/o" ]); [reflexivity| |apply list_elem_of_here].
  intros r ->%list_elem_of_singleton. vm_compute. reflexivity.
Defined.

Definition demo_legacy : SandboxPolicy := WorkspaceWrite [ $"/o" ] true true false.

Lemma legacy_roundtrip_witness :
  to_legacy_sandbox_policy (policy_of_legacy demo_legacy) (network_of_legacy demo_legacy) $"/w" = Ok demo_legacy.
Proof.
  apply legacy_roundtrip. split; [vm_decide|]. intros r c ->%list_elem_of_singleton Hc.
  vm_compute in Hc. injection Hc as <-. vm_compute. discriminate.
Defined.

Lemma workspace_protects_metadata_witness :
  can_write_path_with_cwd (from_legacy_sandbox_policy_for_cwd demo_legacy $"/w") $"/w/.git/hooks" $"/w" = false.
Proof.
  apply (workspace_protects_metadata [ $"/o" ] true true false $"/w" [ $"w" ] $"/w/.git" $"/w/.git/hooks" $"/w/.git/hooks").
  - reflexivity.
  - vm_compute. reflexivity.
  - unfold Path.valid_name. vm_decide.
  - constructor; [|constructor]. exists [ $"o" ]. unfold Path.valid_name. split; [reflexivity|vm_decide].
  - vm_compute. apply list_elem_of_here.
  - vm_compute. reflexivity.
  - vm_compute. reflexivity.
  - intros e He Hw. vm_compute in He.
    repeat (apply elem_of_cons in He as [->|He]; [first [discriminate Hw|vm_compute; reflexivity]|]).
    by apply not_elem_of_nil in He.
Defined.

Lemma denials_survive_witness :
  resolve_access_with_cwd (preserve_deny_read_restrictions_from unrestricted demo_policy) $"/w/secret/x" $"/w" = NoAccess.
Proof.
  apply (denials_survive unrestricted demo_policy $"/w/secret/x" $"/w" $"/w/secret/x" (entry (PPath $"/w/secret") NoAccess)
           {| resolved_path := $"/w/secret"; resolved_access := NoAccess |}).
  - reflexivity.
  - reflexivity.
  - constructor.
  - repeat constructor; reflexivity.
  - discriminate.
  - vm_compute. reflexivity.
  - cbn. do 2 apply list_elem_of_further. apply list_elem_of_here.
  - reflexivity.
  - vm_compute. reflexivity.
  - vm_compute. reflexivity.
  - reflexivity.
  - intros e' Hk. discriminate Hk.
Defined.

(** A pattern that denies access is no entry of a path: it counts as narrowing
    the right to write, and then does not narrow it. *)
Theorem glob_denial_still_writable :
  let p := restricted [ entry (PSpecial Root) Write; entry (PGlob $"/w/*.env") NoAccess ] in
  has_full_disk_write_access p = false ∧ can_write_path_with_cwd p $"/w/a.env" $"/w" = true.
Proof. cbv zeta. split; vm_compute; reflexivity. Qed.
End FsFacts.
