(* ===== verification/PatchSafety.v ===== *)
(** * PatchSafety: whether a patch needs approval

    Models codex-rs/core/src/safety.rs with [get_platform_sandbox] of
    codex-rs/sandboxing/src/manager.rs and the approval types of the protocol:
    a previewed patch (PatchInvocation) is approved automatically, put to the
    user or rejected, by the approval policy and by whether the file-system policy
    (FsPolicy) lets every path of it be written.  The runtime that applies the
    patch (codex-rs/core/src/tools/runtimes/apply_patch.rs) parses the text of
    the action again; what it then asks of the file system is read off a file
    system that keeps a log.

    The compile-time target is a parameter. *)

From S2P Require Import Prelude AbsPath SeekSequence PatchParser Replacements PatchApply ShellScript PatchInvocation Delegation FsPolicy FsPolicyFacts.

Module PatchSafety.
Import Parser Apply Invocation FsPolicy FsFacts.

(** ** Data *)
Inductive TargetOs := Macos | Linux | Windows | OtherOs.
Inductive SandboxType := NoSandbox | MacosSeatbelt | LinuxSeccomp | WindowsRestrictedToken.
Inductive WindowsSandboxLevel := LevelDisabled | RestrictedToken | Elevated.

Record GranularApprovalConfig := {
  sandbox_approval : bool;
  rules : bool;
  skill_approval : bool;
  request_permissions : bool;
  mcp_elicitations : bool
}.
Inductive AskForApproval := UnlessTrusted | OnFailure | OnRequest | Granular (c : GranularApprovalConfig) | Never.

Inductive ManagedFileSystemPermissions :=
| MRestricted (es : list FileSystemSandboxEntry) (glob_scan_max_depth : option Z)
| MUnrestricted.
Inductive PermissionProfile :=
| Managed (file_system : ManagedFileSystemPermissions) (network : NetworkSandboxPolicy)
| ProfileDisabled
| External (network : NetworkSandboxPolicy).

Inductive SafetyCheck :=
| AutoApprove (sandbox_type : SandboxType) (user_explicitly_approved : bool)
| AskUser
| Reject (reason : rstring).

Definition get_platform_sandbox (os : TargetOs) (windows_sandbox_enabled : bool) : option SandboxType :=
  match os with
  | Macos => Some MacosSeatbelt
  | Linux => Some LinuxSeccomp
  | Windows => if windows_sandbox_enabled then Some WindowsRestrictedToken else None
  | OtherOs => None
  end.

Definition PATCH_REJECTED_OUTSIDE_PROJECT_REASON : rstring :=
  $"writing outside of the project; rejected by user approval settings".
Definition PATCH_REJECTED_READ_ONLY_REASON : rstring :=
  $"writing is blocked by read-only sandbox; rejected by user approval settings".

(** ** Operations *)
Section Assess.
Context {H : Host}.

(** [normalize] inside [is_write_patch_constrained_to_writable_paths]. *)
Definition normalize (p : rstring) : rstring := fold_left Path.normalize_step (Path.components p) [].

(** util.rs. *)
Definition resolve_path_from (base p : rstring) : rstring :=
  if Path.is_absolute p then p else Path.push base p.

Definition is_writable (fs : FileSystemSandboxPolicy) (cwd p : rstring) : bool :=
  can_write_path_with_cwd fs (normalize (resolve_path_from cwd p)) cwd.

Definition change_writable (fs : FileSystemSandboxPolicy) (cwd : rstring) (kc : rstring * ApplyPatchFileChange) : bool :=
  let '(p, c) := kc in
  match c with
  | CAdd _ | CDelete _ => is_writable fs cwd p
  | CUpdate _ move_path _ =>
      is_writable fs cwd p
      && match move_path with Some dest => is_writable fs cwd dest | None => true end
  end.

Definition is_write_patch_constrained_to_writable_paths (action : ApplyPatchAction)
    (fs : FileSystemSandboxPolicy) (cwd : rstring) : bool :=
  forallb (change_writable fs cwd) (map_to_list (changes action)).

Definition patch_rejection_reason (profile : PermissionProfile) (fs : FileSystemSandboxPolicy) (cwd : rstring)
  : rstring :=
  match profile with
  | Managed _ _ =>
      if negb (has_full_disk_write_access fs) && is_empty (get_writable_roots_with_cwd fs cwd)
      then PATCH_REJECTED_READ_ONLY_REASON else PATCH_REJECTED_OUTSIDE_PROJECT_REASON
  | ProfileDisabled | External _ => PATCH_REJECTED_OUTSIDE_PROJECT_REASON
  end.

Definition rejects_sandbox_approval (policy : AskForApproval) : bool :=
  match policy with
  | Never => true
  | Granular c => negb (sandbox_approval c)
  | _ => false
  end.

Definition assess_patch_safety (os : TargetOs) (action : ApplyPatchAction) (policy : AskForApproval)
    (profile : PermissionProfile) (fs : FileSystemSandboxPolicy) (cwd : rstring) (level : WindowsSandboxLevel)
  : SafetyCheck :=
  if bool_decide (changes action = ∅) then Reject $"empty patch"
  else match policy with
  | UnlessTrusted => AskUser
  | _ =>
      let reject := Reject (patch_rejection_reason profile fs cwd) in
      if is_write_patch_constrained_to_writable_paths action fs cwd
         || match policy with OnFailure => true | _ => false end
      then match profile with
           | ProfileDisabled | External _ => AutoApprove NoSandbox false
           | Managed _ _ =>
               match get_platform_sandbox os (match level with LevelDisabled => false | _ => true end) with
               | Some sandbox_type => AutoApprove sandbox_type false
               | None => if rejects_sandbox_approval policy then reject else AskUser
               end
           end
      else if rejects_sandbox_approval policy then reject else AskUser
  end.
End Assess.

(** ** Properties *)
Section Facts.
Context {H : Host}.

Lemma normalize_abs_path names : Forall Path.valid_name names → normalize (Path.abs_path names) = Path.abs_path names.
Proof.
  intros Hv. pose proof (Path.resolve_path_idempotent None names $"/" Hv) as Hr.
  unfold Path.resolve_path_against_base, Path.absolutize_from, Path.path_with_base in Hr.
  assert (He : Path.maybe_expand_home_directory None (Path.abs_path names) = Path.abs_path names) by done.
  rewrite He in Hr. change (Path.is_absolute (Path.abs_path names)) with true in Hr. cbn iota in Hr.
  unfold Path.normalize_path in Hr. fold (normalize (Path.abs_path names)) in Hr.
  destruct (is_empty (normalize (Path.abs_path names))); [discriminate Hr|done].
Qed.

Lemma auto_approval_cases os action policy profile fs cwd level :
  ((∃ t b, assess_patch_safety os action policy profile fs cwd level = AutoApprove t b) ↔
   changes action ≠ ∅ ∧ policy ≠ UnlessTrusted ∧
   (is_write_patch_constrained_to_writable_paths action fs cwd = true ∨ policy = OnFailure) ∧
   (match profile with
    | Managed _ _ => is_Some (get_platform_sandbox os (match level with LevelDisabled => false | _ => true end))
    | _ => True
    end)) ∧
  (policy = Never → assess_patch_safety os action policy profile fs cwd level ≠ AskUser).
Proof.
  unfold assess_patch_safety. case_bool_decide as Ec; [split; [split; [by intros (? & ? & ?)|by intros [? _]]|done]|].
  set (sandbox := get_platform_sandbox os _).
  destruct (is_write_patch_constrained_to_writable_paths action fs cwd) eqn:Ew;
  destruct policy as [| | |[[] ? ? ? ?]|], profile; cbn [orb rejects_sandbox_approval sandbox_approval negb];
    destruct sandbox as [t|]; (split; [split; [intros (? & ? & Hx)|intros (? & ? & [?|?] & ?)]|]);
    try done; try (split_and!; eauto; done); try (eexists _, _; done); try (by destruct (is_Some_None ltac:(eassumption))).
Qed.

(** When a patch runs without asking: exactly when it changes something,
    the user does not want to see every patch, its paths may all be written (or
    the policy is to ask on failure), and a sandbox is there to hold it to that,
    or the profile wants none; under the policy never to ask, nobody is asked. *)
Theorem patch_auto_approval_spec os action policy profile fs cwd level :
  ((∃ t b, assess_patch_safety os action policy profile fs cwd level = AutoApprove t b) ↔
   changes action ≠ ∅ ∧ policy ≠ UnlessTrusted ∧
   (is_write_patch_constrained_to_writable_paths action fs cwd = true ∨ policy = OnFailure) ∧
   (match profile with
    | Managed _ _ => is_Some (get_platform_sandbox os (match level with LevelDisabled => false | _ => true end))
    | _ => True
    end)) ∧
  (policy = Never → assess_patch_safety os action policy profile fs cwd level ≠ AskUser).
Proof. apply auto_approval_cases. Qed.

(** The paths of an applied patch, as the preview has them. *)
Lemma concat_fmap_inj {A B} (f : A → list B) l x y z :
  NoDup (concat (f <$> l)) → x ∈ l → y ∈ l → z ∈ f x → z ∈ f y → x = y.
Proof.
  induction l as [|a l IH]; [intros _ Hx; by apply not_elem_of_nil in Hx|]. cbn [fmap list_fmap concat].
  intros (_ & Hd & Hn)%NoDup_app Hx Hy Hzx Hzy.
  assert (Hin : ∀ w, w ∈ l → z ∈ f w → z ∈ concat (f <$> l)).
  { intros w Hw Hz. apply list_elem_of_In, in_concat. exists (f w).
    split; [by apply list_elem_of_In, list_elem_of_fmap_2|by apply list_elem_of_In]. }
  apply elem_of_cons in Hx as [->|Hx], Hy as [->|Hy]; [done| | |by apply IH].
  - exfalso. eapply Hd; [exact Hzx|]. by eapply Hin.
  - exfalso. eapply Hd; [exact Hzy|]. by eapply Hin.
Qed.

Definition hunk_dest (home : option rstring) (cwd : rstring) (h : Hunk) : option rstring :=
  match h with
  | UpdateFile _ (Some d) _ => Some (Path.resolve_path_against_base home d cwd)
  | _ => None
  end.
Definition change_dest (c : ApplyPatchFileChange) : option rstring :=
  match c with CUpdate _ d _ => d | _ => None end.

Lemma preview_dests {W} `{ExecutorFileSystem W} home diff cwd hs acc w ch :
  collect_changes home diff cwd hs acc w = Some (Ok ch) →
  ∀ p c, ch !! p = Some c →
  (∃ h, h ∈ hs ∧ resolve_path home h cwd = p ∧ change_dest c = hunk_dest home cwd h) ∨ acc !! p = Some c.
Proof.
  revert acc. induction hs as [|h hs IH]; intros acc; cbn [collect_changes].
  { intros [= <-] p c Hp. by right. }
  assert (Hstep : ∀ c0, change_dest c0 = hunk_dest home cwd h →
    collect_changes home diff cwd hs (<[resolve_path home h cwd := c0]> acc) w = Some (Ok ch) →
    ∀ p c, ch !! p = Some c → (∃ h', h' ∈ h :: hs ∧ resolve_path home h' cwd = p
      ∧ change_dest c = hunk_dest home cwd h') ∨ acc !! p = Some c).
  { intros c0 Hc0 Hc p c Hp. destruct (IH _ Hc p c Hp) as [(h' & ? & ? & ?)|Hi].
    - left. exists h'. split; [by apply list_elem_of_further|done].
    - rewrite lookup_insert in Hi. destruct (decide _) as [<-|]; [|by right].
      injection Hi as <-. left. exists h. split; [apply list_elem_of_here|done]. }
  destruct h as [q contents|q|q mp chunks]; [by apply Hstep| |].
  - destruct (read_file_text _ w); [by apply Hstep|done].
  - destruct (unified_diff_from_chunks _ _ chunks w) as [[u|]|]; try done.
    apply Hstep. by destruct mp.
Qed.

Lemma preview_has_touched {W} `{ExecutorFileSystem W} home diff cwd hs w ch q :
  NoDup (concat (touched home cwd <$> hs)) →
  collect_changes home diff cwd hs ∅ w = Some (Ok ch) →
  q ∈ concat (touched home cwd <$> hs) →
  ∃ p c, ch !! p = Some c ∧ (q = p ∨ ∃ d n, c = CUpdate d (Some q) n).
Proof.
  intros Hnd Hc Hq. apply list_elem_of_In, in_concat in Hq as (l & Hl & Hql%list_elem_of_In).
  apply list_elem_of_In, list_elem_of_fmap in Hl as (h & -> & Hh). set (p := resolve_path home h cwd).
  destruct (ch !! p) as [c|] eqn:Ep.
  2: { exfalso. eapply (collect_changes_complete _ _ _ _ _ _ _ Hc p); [|exact Ep]. left.
       apply list_elem_of_fmap. by exists h. }
  exists p, c. split; [done|]. apply elem_of_cons in Hql as [->|Hql]; [by left|right].
  destruct (preview_dests _ _ _ _ _ _ _ Hc p c Ep) as [(h' & Hh' & Hr & Hch)|Hx]; [|by rewrite lookup_empty in Hx].
  assert (h' = h) as ->.
  { apply (concat_fmap_inj (touched home cwd) hs h' h p); try done; [rewrite <-Hr|]; apply list_elem_of_here. }
  destruct h as [| |f [d|] chunks]; try (by apply not_elem_of_nil in Hql).
  apply list_elem_of_singleton in Hql as ->. destruct c; try done. cbn in Hch. subst. by eexists _, _.
Qed.

Lemma touched_abs home cwd h q :
  Path.is_absolute cwd = true → q ∈ touched home cwd h →
  ∃ names, q = Path.abs_path names ∧ Forall Path.valid_name names.
Proof.
  intros Hc Hq. assert (Hr : ∀ p, ∃ names, Path.resolve_path_against_base home p cwd = Path.abs_path names
    ∧ Forall Path.valid_name names).
  { intros p. destruct (Path.resolve_path_normalised home p cwd Hc) as (names & ? & ? & _). eauto. }
  apply elem_of_cons in Hq as [->|Hq]; [unfold resolve_path; apply Hr|].
  destruct h as [| |f [d|] chunks]; try (by apply not_elem_of_nil in Hq).
  apply list_elem_of_singleton in Hq as ->. apply Hr.
Qed.

Lemma writable_abs fs cwd names :
  Forall Path.valid_name names →
  is_writable fs cwd (Path.abs_path names) = can_write_path_with_cwd fs (Path.abs_path names) cwd.
Proof.
  intros Hv. unfold is_writable, resolve_path_from.
  change (Path.is_absolute (Path.abs_path names)) with true. cbn iota. by rewrite normalize_abs_path.
Qed.

Lemma constrained_lookup action fs cwd p c :
  is_write_patch_constrained_to_writable_paths action fs cwd = true → changes action !! p = Some c →
  is_writable fs cwd p = true ∧ ∀ d q n, c = CUpdate d (Some q) n → is_writable fs cwd q = true.
Proof.
  unfold is_write_patch_constrained_to_writable_paths. rewrite forallb_forall. intros Hall Hl.
  specialize (Hall (p, c)). rewrite <-list_elem_of_In, elem_of_map_to_list in Hall. specialize (Hall Hl).
  cbn in Hall. destruct c as [|?|? [m|] ?]; [split; [done|intros ? ? ? [=]]..| |].
  - apply andb_true_iff in Hall as [H1 H2]. split; [done|]. by intros ? ? ? [= _ <- _].
  - rewrite andb_true_r in Hall. split; [done|]. intros ? ? ? [=].
Qed.

End Facts.

(** ** What a run asks of the file system

    A file system that keeps the list of the changes it is asked for, whatever
    becomes of them. *)
Inductive FsOp := OpWrite (p : rstring) | OpRemove (p : rstring) | OpCreateDirectory (p : rstring).

#[export] Instance Logged_fs {W} `{ExecutorFileSystem W} : ExecutorFileSystem (W * list FsOp) := {
  read_file_text p w := read_file_text p (fst w);
  write_file p c w := let '(r, w') := write_file p c (fst w) in (r, (w', snd w ++ [OpWrite p]));
  create_directory p b w := let '(r, w') := create_directory p b (fst w) in (r, (w', snd w ++ [OpCreateDirectory p]));
  get_metadata p w := get_metadata p (fst w);
  remove p o w := let '(r, w') := remove p o (fst w) in (r, (w', snd w ++ [OpRemove p]));
}.

(** The change is to a file of [ps], or makes the parent directory of one. *)
Definition op_within (ps : list rstring) (op : FsOp) : Prop :=
  match op with
  | OpWrite p | OpRemove p => p ∈ ps
  | OpCreateDirectory d => ∃ p, p ∈ ps ∧ Path.parent p = Some d
  end.

Lemma op_within_mono ps ps' ops : ps ⊆ ps' → Forall (op_within ps) ops → Forall (op_within ps') ops.
Proof.
  intros Hs Hf. eapply Forall_impl; [exact Hf|]. intros [p|p|d]; cbn; [by apply Hs..|]. intros (p & Hp & ?). exists p. auto.
Qed.

Section Log.
Context {W : Type} `{ExecutorFileSystem W} (home : option rstring).

Lemma logged_write_retry p c (w : W) l :
  ∃ ops, Forall (op_within [p]) ops ∧ write_file_with_missing_parent_retry p c (w, l)
    = let '(r, w') := write_file_with_missing_parent_retry p c w in (r, (w', l ++ ops)).
Proof.
  unfold write_file_with_missing_parent_retry. cbn [write_file create_directory Logged_fs fst snd].
  assert (op_within [p] (OpWrite p)) as Hw by apply list_elem_of_here.
  destruct (write_file p c w) as [[[]|e] w1]; [exists [OpWrite p]; split; [by repeat constructor|done]|].
  case_bool_decide; [|exists [OpWrite p]; split; [by repeat constructor|done]].
  destruct (Path.parent p) as [d|] eqn:Ed; cbn [fst snd].
  - assert (op_within [p] (OpCreateDirectory d)) by (exists p; split; [apply list_elem_of_here|done]).
    destruct (create_directory d true w1) as [[[]|e'] w2]; cbn [fst snd].
    + destruct (write_file p c w2) as [r w3]. exists [OpWrite p; OpCreateDirectory d; OpWrite p].
      split; [by repeat constructor|by rewrite <- !app_assoc].
    + exists [OpWrite p; OpCreateDirectory d]. split; [by repeat constructor|by rewrite <- !app_assoc].
  - destruct (write_file p c w1) as [r w3]. exists [OpWrite p; OpWrite p].
    split; [by repeat constructor|by rewrite <- !app_assoc].
Qed.

Lemma logged_remove p (w : W) l :
  ∃ ops, Forall (op_within [p]) ops ∧ remove_regular_file p (w, l)
    = let '(r, w') := remove_regular_file p w in (r, (w', l ++ ops)).
Proof.
  unfold remove_regular_file. cbn [get_metadata remove Logged_fs fst snd].
  assert (∃ ops, Forall (op_within [p]) ops ∧ l = l ++ ops) as (ops & Hn & El)
    by (exists []; split; [constructor|by rewrite app_nil_r]).
  destruct (get_metadata p w) as [md|]; [|exists ops; by rewrite <- El].
  destruct (is_directory md); [exists ops; by rewrite <- El|].
  exists [OpRemove p]. split; [by repeat constructor|]. by destruct (remove p _ w).
Qed.

Lemma logged_derive p chunks (w : W) l :
  derive_new_contents_from_chunks p chunks (w, l) = derive_new_contents_from_chunks p chunks w.
Proof. done. Qed.

Lemma logged_hunk cwd h acc (w : W) l :
  ∃ ops, Forall (op_within (touched home cwd h)) ops ∧ apply_hunk home cwd h acc (w, l)
    = (λ '(r, w'), (r, (w', l ++ ops))) <$> apply_hunk home cwd h acc w.
Proof.
  destruct h as [p c|p|p [d|] chunks]; cbn [apply_hunk]; rewrite ?logged_derive.
  - edestruct logged_write_retry as (ops & Hops & ->). exists ops.
    split; [done|]. by destruct (write_file_with_missing_parent_retry _ _ w) as [[]].
  - edestruct logged_remove as (ops & Hops & ->). exists ops.
    split; [done|]. by destruct (remove_regular_file _ w) as [[]].
  - destruct (derive_new_contents_from_chunks _ _ w) as [[a|e]|];
      [|exists []; split; [constructor|cbn; by rewrite ?app_nil_r]..].
    edestruct logged_write_retry as (ops & Hops & ->).
    destruct (write_file_with_missing_parent_retry _ _ w) as [[[]|e] w1].
    + edestruct logged_remove as (ops' & Hops' & ->). exists (ops ++ ops'). split.
      * apply Forall_app; split; (eapply op_within_mono; [|eassumption]); set_solver.
      * destruct (remove_regular_file _ w1) as [[]]; cbn; by rewrite app_assoc.
    + exists ops. split; [|done]. eapply op_within_mono; [|exact Hops]. set_solver.
  - destruct (derive_new_contents_from_chunks _ _ w) as [[a|e]|];
      [|exists []; split; [constructor|cbn; by rewrite ?app_nil_r]..].
    cbn [write_file Logged_fs fst snd]. exists [OpWrite (resolve_path home (UpdateFile p None chunks) cwd)].
    split; [apply Forall_singleton, list_elem_of_here|].
    by destruct (write_file _ _ w) as [[]].
Qed.

Lemma logged_hunks cwd hs acc (w : W) l :
  ∃ ops, Forall (op_within (concat (touched home cwd <$> hs))) ops ∧
    apply_hunks_loop home cwd hs acc (w, l)
      = (λ '(r, w'), (r, (w', l ++ ops))) <$> apply_hunks_loop home cwd hs acc w.
Proof.
  revert acc w l. induction hs as [|h hs IH]; intros acc w l; cbn [apply_hunks_loop fmap list_fmap concat].
  { exists []. split; [constructor|]. cbn. by rewrite app_nil_r. }
  destruct (logged_hunk cwd h acc w l) as (ops & Hops & ->).
  assert (Forall (op_within (touched home cwd h ++ concat (touched home cwd <$> hs))) ops) as Hops'
    by (eapply op_within_mono; [|exact Hops]; set_solver).
  destruct (apply_hunk home cwd h acc w) as [[[acc1|e] w1]|]; cbn [fmap option_fmap option_map]; [|by exists ops..].
  destruct (IH acc1 w1 (l ++ ops)) as (ops2 & H2 & ->). exists (ops ++ ops2). split.
  - apply Forall_app; split; [done|]. eapply op_within_mono; [|exact H2]. set_solver.
  - destruct (apply_hunks_loop home cwd hs acc1 w1) as [[]|]; cbn; [by rewrite app_assoc|done].
Qed.

(** A logged run of [apply_patch] is the run itself, and asks for changes to the
    files of its hunks alone. *)
Lemma logged_apply_patch {O} `{Apply.Write O} text cwd (w : W) (so se : O) :
  ∃ ops, Forall (op_within (concat (touched home cwd <$>
      match parse_patch text with Some (Ok a) => hunks a | _ => [] end))) ops ∧
    apply_patch home text cwd (w, []) so se
      = (λ '(r, w', so', se'), (r, (w', ops), so', se')) <$> apply_patch home text cwd w so se.
Proof.
  unfold apply_patch, apply_hunks, apply_hunks_to_files.
  destruct (parse_patch text) as [[a|e]|]; [| |exists []; split; [constructor|done]].
  - destruct (is_empty (hunks a)); [exists []; split; [constructor|by destruct (writeln _ se) as [[]]]|].
    destruct (logged_hunks cwd (hunks a) no_paths w []) as (ops & Hops & ->). exists ops. split; [done|].
    destruct (apply_hunks_loop home cwd (hunks a) no_paths w) as [[[aff|err] w1]|]; cbn [fmap option_fmap option_map];
      [by destruct (print_summary aff so)|by destruct (writeln _ se) as [[]]|done].
  - exists []. split; [constructor|]. by destruct (writeln _ se) as [[]].
Qed.
End Log.

Section Escape.
Context {H : Host}.

Lemma previewed_paths_writable {W} `{ExecutorFileSystem W} query home diff argv cwd (w : W) act fs turn_cwd q :
  Path.is_absolute cwd = true →
  maybe_parse_apply_patch_verified query home diff argv cwd w = Some (VBody act) →
  CR ∉ action_patch act →
  NoDup (concat (touched home (action_cwd act) <$> action_hunks act)) →
  is_write_patch_constrained_to_writable_paths act fs turn_cwd = true →
  q ∈ concat (touched home (action_cwd act) <$> action_hunks act) →
  can_write_path_with_cwd fs q turn_cwd = true.
Proof.
  intros Habs Hv Hcr Hnd Hcon Hin. destruct (verified_hunks _ _ _ _ _ _ _ Hv Hcr) as [Ec _].
  assert (Hecwd : Path.is_absolute (action_cwd act) = true).
  { unfold maybe_parse_apply_patch_verified in Hv. repeat case_match; simplify_eq. cbn [action_cwd].
    unfold effective_cwd. destruct (workdir _) as [d|]; [|done].
    destruct (Path.resolve_path_normalised home d cwd Habs) as (? & -> & _). done. }
  destruct (preview_has_touched _ _ _ _ _ _ q Hnd Ec Hin) as (p & c & Hp & Hcase).
  destruct (constrained_lookup _ _ _ p c Hcon Hp) as [Hwp Hwd].
  assert (Hwq : is_writable fs turn_cwd q = true) by (destruct Hcase as [->|(d & n & Hd)]; [done|by eapply Hwd]).
  apply list_elem_of_In, in_concat in Hin as (l & Hl & Hql%list_elem_of_In).
  apply list_elem_of_In, list_elem_of_fmap in Hl as (h & -> & _).
  destruct (touched_abs _ _ _ _ Hecwd Hql) as (names & -> & Hvn). by rewrite <-writable_abs.
Qed.

(** A change that the policy allows: to a file that may be written, or making
    the parent directory of one. *)
Definition op_allowed (fs : FileSystemSandboxPolicy) (cwd : rstring) (op : FsOp) : Prop :=
  match op with
  | OpWrite p | OpRemove p => can_write_path_with_cwd fs p cwd = true
  | OpCreateDirectory d => ∃ p, can_write_path_with_cwd fs p cwd = true ∧ Path.parent p = Some d
  end.

(** C6: a patch that runs without asking stays inside the paths that may be
    written.  Let an invocation be approved automatically for its paths (not
    because the policy asks only on failure), name no file twice, and have no
    carriage return left in the text that the runtime parses again.  Then, in
    any later state of any file system and whether it succeeds or fails, every
    write and removal that applying the text asks for is at a path the
    file-system policy lets be written, and every directory it makes is the
    parent of such a path; and under a managed profile the approval names the
    platform's sandbox.  The claim is on paths: a path that is a hard link to a
    file outside is what that sandbox is for. *)
Theorem auto_approved_patch_stays_inside {W O} `{ExecutorFileSystem W} `{Apply.Write O} os home diff query argv cwd
    (w : W) act policy profile fs turn_cwd level t b :
  Path.is_absolute cwd = true →
  maybe_parse_apply_patch_verified query home diff argv cwd w = Some (VBody act) →
  assess_patch_safety os act policy profile fs turn_cwd level = AutoApprove t b → policy ≠ OnFailure →
  NoDup (concat (touched home (action_cwd act) <$> action_hunks act)) →
  CR ∉ action_patch act →
  (∀ (w1 : W) (so se : O), ∃ ops, Forall (op_allowed fs turn_cwd) ops ∧
     apply_patch home (action_patch act) (action_cwd act) (w1, []) so se
       = (λ '(r, w', so', se'), (r, (w', ops), so', se'))
           <$> apply_patch home (action_patch act) (action_cwd act) w1 so se) ∧
  (match profile with
   | Managed _ _ => get_platform_sandbox os (match level with LevelDisabled => false | _ => true end) = Some t
   | _ => t = NoSandbox
   end).
Proof.
  intros Habs Hv Ha Hof Hnd Hcr. split.
  - assert (Hcon : is_write_patch_constrained_to_writable_paths act fs turn_cwd = true).
    { destruct (proj1 (proj1 (auto_approval_cases os _ policy profile fs turn_cwd level))
        (ex_intro _ _ (ex_intro _ _ Ha))) as (_ & _ & [?|?] & _); done. }
    pose proof (λ q, previewed_paths_writable _ _ _ _ _ _ _ _ _ q Habs Hv Hcr Hnd Hcon) as Hq.
    intros w1 so se. edestruct logged_apply_patch as (ops & Hops & E). exists ops. split; [|exact E].
    eapply Forall_impl; [exact Hops|]. intros [p|p|d]; cbn; [apply Hq..|].
    intros (p & Hp & ?). exists p. split; [by apply Hq|done].
  - unfold assess_patch_safety in Ha. repeat case_match; congruence.
Qed.
End Escape.

(** ** Concrete patches *)
#[local] Existing Instance FsFacts.demo_host.

Definition workspace_policy : FileSystemSandboxPolicy :=
  restricted [ entry (PSpecial Root) Read; entry (PPath $"/w") Write ].
Definition demo_profile : PermissionProfile := Managed (MRestricted (entries workspace_policy) None) NetRestricted.

Lemma auto_approved_patch_stays_inside_witness :
  ∃ ops, Forall (op_allowed workspace_policy $"/w") ops ∧
    apply_patch None demo_patch $"/w" (demo_fs, []) [] []
      = (λ '(r, w', so', se'), (r, (w', ops), so', se')) <$> apply_patch None demo_patch $"/w" demo_fs [] ([] : list Z).
Proof.
  refine (proj1 (auto_approved_patch_stays_inside (O := list Z) Linux None demo_diff no_query demo_argv $"/w" demo_fs
    (demo_action demo_argv) OnRequest demo_profile workspace_policy $"/w" LevelDisabled
    LinuxSeccomp false _ _ _ _ _ _) demo_fs [] []).
  - reflexivity.
  - vm_compute. reflexivity.
  - vm_compute. reflexivity.
  - discriminate.
  - vm_decide.
  - vm_decide.
Defined.

(** The log of that run: the move writes before it removes. *)
Example demo_log :
  match apply_patch None demo_patch $"/w" (demo_fs, []) [] ([] : list Z) with
  | Some (_, (_, ops), _, _) => ops
  | None => []
  end = [OpWrite $"/w/new/b.txt"; OpCreateDirectory $"/w/new"; OpWrite $"/w/new/b.txt"; OpWrite $"/w/c.txt";
         OpRemove $"/w/a.txt"; OpRemove $"/w/gone"].
Proof. vm_compute. reflexivity. Qed.

(** A carriage return escapes the check too: two of them after the destination
    of a move leave one in the path that is checked and none in the path that is
    written. *)
Definition cr_escaping_patch : rstring :=
  demo_lines [ $"*** Begin Patch"; $"*** Update File: a.txt"; $"*** Move to: secret" ++ [CR; CR]; $"@@"; $"-one"; $"+1";
               $"*** End Patch" ].
Definition guarded_policy : FileSystemSandboxPolicy :=
  restricted [ entry (PSpecial Root) Read; entry (PPath $"/w") Write; entry (PPath $"/w/secret") Read ].
Definition cr_action : ApplyPatchAction := demo_action [ $"apply_patch"; cr_escaping_patch ].

Theorem carriage_return_escapes_check :
  assess_patch_safety Linux cr_action OnRequest demo_profile guarded_policy $"/w" LevelDisabled
    = AutoApprove LinuxSeccomp false ∧
  (match apply_patch None (action_patch cr_action) (action_cwd cr_action) (demo_fs, []) [] ([] : list Z) with
   | Some (Ok _, (_, ops), _, _) => ops
   | _ => []
   end) = [OpWrite $"/w/secret"; OpRemove $"/w/a.txt"] ∧
  can_write_path_with_cwd guarded_policy $"/w/secret" $"/w" = false.
Proof. split_and!; vm_compute; reflexivity. Qed.

(** A patch that names a file twice escapes the check: the preview keeps the last
    change of a file, so the destination of an earlier move is never looked at,
    and the patch runs without asking although it writes outside the workspace. *)
Definition escaping_patch : rstring :=
  demo_lines [ $"*** Begin Patch"; $"*** Update File: a.txt"; $"*** Move to: /etc/x"; $"@@"; $"-one"; $"+1";
               $"*** Add File: a.txt"; $"+one"; $"*** End Patch" ].

Theorem repeated_file_escapes_check :
  assess_patch_safety Linux (demo_action [ $"apply_patch"; escaping_patch ]) OnRequest demo_profile workspace_policy
    $"/w" LevelDisabled = AutoApprove LinuxSeccomp false ∧
  (match parse_patch escaping_patch with
   | Some (Ok a) =>
       match apply_hunks_to_files None (hunks a) $"/w" demo_fs with
       | Some (Ok _, w') => file_at w' $"/etc/x"
       | _ => None
       end
   | _ => None
   end) = Some ($"1" ++ [NL] ++ $"two" ++ [NL]) ∧
  can_write_path_with_cwd workspace_policy $"/etc/x" $"/w" = false.
Proof. split_and!; vm_compute; reflexivity. Qed.
End PatchSafety.
