(* ===== verification/IpAddress.v ===== *)
(** * IpAddress: reading and classifying network addresses

    Models the standard library's parser of [IpAddr] and its classes of
    addresses, as codex-rs/network-proxy uses them, and [is_non_public_ip] of
    codex-rs/network-proxy/src/policy.rs.  An IPv4 address is a 32-bit number, an
    IPv6 address its eight 16-bit segments; masks are taken at 32 bits. *)

From S2P Require Import Prelude.

Module Ip.

Inductive IpAddr := V4 (ip : Z) | V6 (segments : list Z).

Definition U32_MAX : Z := (2 ^ 32 - 1)%Z.
Definition ipv4 (a b c d : Z) : Z := (a * 2 ^ 24 + b * 2 ^ 16 + c * 2 ^ 8 + d)%Z.

(** ** std::net::parser *)
Definition to_digit (radix : Z) (c : char) : option Z :=
  let d := if is_ascii_digit c then Some (c - 48)%Z
           else if is_ascii_lowercase c then Some (c - 87)%Z
           else if is_ascii_uppercase c then Some (c - 55)%Z else None in
  match d with Some n => if (n <? radix)%Z then Some n else None | None => None end.

(** [read_number] with a maximal number of digits; [limit] is the greatest value
    of the type. *)
Fixpoint read_digits (radix : Z) (max count : nat) (acc : Z) (s : rstring) : option (Z * nat * rstring) :=
  match s with
  | [] => Some (acc, count, [])
  | c :: s' =>
      match to_digit radix c with
      | None => Some (acc, count, s)
      | Some d => if max <? S count then None else read_digits radix max (S count) (acc * radix + d)%Z s'
      end
  end.
Definition read_number (radix limit : Z) (max : nat) (allow_zero_prefix : bool) (s : rstring)
  : option (Z * rstring) :=
  match read_digits radix max 0 0%Z s with
  | None => None
  | Some (n, count, rest) =>
      if count =? 0 then None
      else if negb allow_zero_prefix && starts_with $"0" s && (1 <? count) then None
      else if (limit <? n)%Z then None else Some (n, rest)
  end.

(** [read_separator]: the separator is there from the second item on. *)
Definition read_separator {A} (sep : char) (index : nat) (inner : rstring → option (A * rstring)) (s : rstring)
  : option (A * rstring) :=
  if index =? 0 then inner s
  else match s with
       | c :: s' => if (c =? sep)%Z then inner s' else None
       | [] => None
       end.

Definition read_octet (s : rstring) : option (Z * rstring) := read_number 10 255 3 false s.
Definition read_ipv4_addr (s : rstring) : option (Z * rstring) :=
  r ← read_separator 46 0 read_octet s; let '(a, s) := (r : Z * rstring) in
  r ← read_separator 46 1 read_octet s; let '(b, s) := (r : Z * rstring) in
  r ← read_separator 46 2 read_octet s; let '(c, s) := (r : Z * rstring) in
  r ← read_separator 46 3 read_octet s; let '(d, s) := (r : Z * rstring) in
  Some (ipv4 a b c d, s).

(** [read_groups]: [left] slots are free, [i] are filled. *)
Fixpoint read_groups (left i : nat) (s : rstring) : list Z * bool * rstring :=
  match left with
  | O => ([], false, s)
  | S left' =>
      match (if 1 <=? left' then read_separator 58 i read_ipv4_addr s else None) with
      | Some (v4, rest) => ([ (v4 / 2 ^ 16)%Z; (v4 mod 2 ^ 16)%Z ], true, rest)
      | None =>
          match read_separator 58 i (read_number 16 65535 4 true) s with
          | None => ([], false, s)
          | Some (g, rest) => let '(gs, b, rest) := read_groups left' (S i) rest in (g :: gs, b, rest)
          end
      end
  end.

Definition read_ipv6_addr (s : rstring) : option (list Z * rstring) :=
  let '(head, head_ipv4, rest) := read_groups 8 0 s in
  if length head =? 8 then Some (head, rest)
  else if head_ipv4 then None
  else match strip_prefix $"::" rest with
       | None => None
       | Some rest =>
           let '(tail, _, rest) := read_groups (8 - (length head + 1)) 0 rest in
           Some (head ++ replicate (8 - length head - length tail) 0%Z ++ tail, rest)
       end.

(** [str::parse::<IpAddr>()]: all of the text is an address. *)
Definition parse_ip (s : rstring) : option IpAddr :=
  match read_ipv4_addr s with
  | Some (v4, rest) => if is_empty rest then Some (V4 v4) else None
  | None =>
      match read_ipv6_addr s with
      | Some (v6, rest) => if is_empty rest then Some (V6 v6) else None
      | None => None
      end
  end.

Example parse_ip_ex :
  parse_ip $"127.0.0.1" = Some (V4 2130706433) ∧ parse_ip $"127.0.0.01" = None ∧
  parse_ip $"::1" = Some (V6 [0; 0; 0; 0; 0; 0; 0; 1]%Z) ∧
  parse_ip $"fe80::1:2" = Some (V6 [65152; 0; 0; 0; 0; 0; 1; 2]%Z) ∧
  parse_ip $"::ffff:10.0.0.1" = Some (V6 [0; 0; 0; 0; 0; 65535; 2560; 1]%Z) ∧
  parse_ip $"example.com" = None.
Proof. vm_compute. split_and!; reflexivity. Qed.

(** ** Classes of addresses: std *)
Definition octet (n : Z) (ip : Z) : Z := (ip / 2 ^ (8 * (3 - n)) mod 256)%Z.

Definition v4_is_loopback (ip : Z) : bool := (octet 0 ip =? 127)%Z.
Definition v4_is_private (ip : Z) : bool :=
  (octet 0 ip =? 10)%Z
  || ((octet 0 ip =? 172)%Z && (16 <=? octet 1 ip)%Z && (octet 1 ip <=? 31)%Z)
  || ((octet 0 ip =? 192)%Z && (octet 1 ip =? 168)%Z).
Definition v4_is_link_local (ip : Z) : bool := (octet 0 ip =? 169)%Z && (octet 1 ip =? 254)%Z.
Definition v4_is_unspecified (ip : Z) : bool := (ip =? 0)%Z.
Definition v4_is_multicast (ip : Z) : bool := (224 <=? octet 0 ip)%Z && (octet 0 ip <=? 239)%Z.
Definition v4_is_broadcast (ip : Z) : bool := (ip =? U32_MAX)%Z.

Definition seg (n : nat) (v6 : list Z) : Z := default 0%Z (v6 !! n).
Definition v6_is_loopback (v6 : list Z) : bool := bool_decide (v6 = [0; 0; 0; 0; 0; 0; 0; 1]%Z).
Definition v6_is_unspecified (v6 : list Z) : bool := bool_decide (v6 = [0; 0; 0; 0; 0; 0; 0; 0]%Z).
Definition v6_is_multicast (v6 : list Z) : bool := (Z.land (seg 0 v6) 65280 =? 65280)%Z.
Definition v6_is_unique_local (v6 : list Z) : bool := (Z.land (seg 0 v6) 65024 =? 64512)%Z.
Definition v6_is_unicast_link_local (v6 : list Z) : bool := (Z.land (seg 0 v6) 65472 =? 65152)%Z.

(** [Ipv6Addr::to_ipv4]. *)
Definition to_ipv4 (v6 : list Z) : option Z :=
  match v6 with
  | [s0; s1; s2; s3; s4; s5; ab; cd] =>
      if bool_decide ([s0; s1; s2; s3; s4] = [0; 0; 0; 0; 0]%Z) && ((s5 =? 0)%Z || (s5 =? 65535)%Z)
      then Some (ab * 2 ^ 16 + cd)%Z else None
  | _ => None
  end.

(** ** policy.rs *)
Definition ipv4_in_cidr (ip base : Z) (prefix : Z) : bool :=
  let mask := if (prefix =? 0)%Z then 0%Z else Z.land (Z.shiftl U32_MAX (32 - prefix)) U32_MAX in
  (Z.land ip mask =? Z.land base mask)%Z.

Definition is_non_public_ipv4 (ip : Z) : bool :=
  v4_is_loopback ip || v4_is_private ip || v4_is_link_local ip || v4_is_unspecified ip
  || v4_is_multicast ip || v4_is_broadcast ip
  || ipv4_in_cidr ip (ipv4 0 0 0 0) 8
  || ipv4_in_cidr ip (ipv4 100 64 0 0) 10
  || ipv4_in_cidr ip (ipv4 192 0 0 0) 24
  || ipv4_in_cidr ip (ipv4 192 0 2 0) 24
  || ipv4_in_cidr ip (ipv4 198 18 0 0) 15
  || ipv4_in_cidr ip (ipv4 198 51 100 0) 24
  || ipv4_in_cidr ip (ipv4 203 0 113 0) 24
  || ipv4_in_cidr ip (ipv4 240 0 0 0) 4.

Definition is_non_public_ipv6 (v6 : list Z) : bool :=
  match to_ipv4 v6 with
  | Some v4 => is_non_public_ipv4 v4 || v6_is_loopback v6
  | None => v6_is_loopback v6 || v6_is_unspecified v6 || v6_is_multicast v6 || v6_is_unique_local v6
            || v6_is_unicast_link_local v6
  end.

Definition is_non_public_ip (ip : IpAddr) : bool :=
  match ip with V4 v4 => is_non_public_ipv4 v4 | V6 v6 => is_non_public_ipv6 v6 end.

Definition ip_is_loopback (ip : IpAddr) : bool :=
  match ip with V4 v4 => v4_is_loopback v4 | V6 v6 => v6_is_loopback v6 end.

(** ** Ranges *)

(** The reserved ranges, from the first to the last address. *)
Definition reserved_ranges : list (Z * Z) :=
  [ (ipv4 0 0 0 0, ipv4 0 255 255 255); (ipv4 10 0 0 0, ipv4 10 255 255 255);
    (ipv4 100 64 0 0, ipv4 100 127 255 255); (ipv4 127 0 0 0, ipv4 127 255 255 255);
    (ipv4 169 254 0 0, ipv4 169 254 255 255); (ipv4 172 16 0 0, ipv4 172 31 255 255);
    (ipv4 192 0 0 0, ipv4 192 0 0 255); (ipv4 192 0 2 0, ipv4 192 0 2 255);
    (ipv4 192 168 0 0, ipv4 192 168 255 255); (ipv4 198 18 0 0, ipv4 198 19 255 255);
    (ipv4 198 51 100 0, ipv4 198 51 100 255); (ipv4 203 0 113 0, ipv4 203 0 113 255);
    (ipv4 224 0 0 0, ipv4 255 255 255 255) ].

Definition in_ranges (ip : Z) (rs : list (Z * Z)) : Prop := Exists (λ r, r.1 ≤ ip ≤ r.2)%Z rs.

Lemma mask_high x k : (0 ≤ k)%Z → (0 ≤ x ≤ U32_MAX)%Z →
  Z.land x (Z.land (Z.shiftl U32_MAX k) U32_MAX) = Z.shiftl (Z.shiftr x k) k.
Proof.
  intros Hk Hx. apply Z.bits_inj'. intros n Hn. change U32_MAX with (Z.ones 32) in *.
  assert (Hhigh : (32 ≤ n)%Z → Z.testbit x n = false).
  { intros H32. rewrite <-(Z.mod_small x (2 ^ 32)) by (rewrite Z.ones_equiv in Hx; lia).
    apply Z.mod_pow2_bits_high. lia. }
  rewrite !Z.land_spec, !Z.shiftl_spec by done.
  destruct (Z.ltb_spec n k) as [Hlt|Hge].
  { rewrite (Z.testbit_neg_r (Z.ones 32)), (Z.testbit_neg_r (Z.shiftr x k)) by lia. by rewrite andb_false_r. }
  rewrite Z.shiftr_spec by lia. replace (n - k + k)%Z with n by lia.
  destruct (Z.ltb_spec n 32) as [H32|H32].
  - rewrite !Z.ones_spec_low by lia. by rewrite !andb_true_r.
  - rewrite Hhigh by done. done.
Qed.

Lemma in_cidr_div ip base prefix :
  (0 < prefix ≤ 32)%Z → (0 ≤ ip ≤ U32_MAX)%Z → (0 ≤ base ≤ U32_MAX)%Z →
  ipv4_in_cidr ip base prefix = true ↔ (ip / 2 ^ (32 - prefix) = base / 2 ^ (32 - prefix))%Z.
Proof.
  intros Hp Hip Hb. unfold ipv4_in_cidr. rewrite (proj2 (Z.eqb_neq prefix 0)) by lia.
  rewrite Z.eqb_eq, !mask_high by lia. rewrite !Z.shiftl_mul_pow2, !Z.shiftr_div_pow2 by lia.
  pose proof (Z.pow_pos_nonneg 2 (32 - prefix)). nia.
Qed.

Lemma div_range ip k c d : (0 < k)%Z → (c ≤ ip / k ≤ d ↔ c * k ≤ ip ≤ d * k + (k - 1))%Z.
Proof. intros Hk. pose proof (Z.div_mod ip k ltac:(lia)). pose proof (Z.mod_pos_bound ip k Hk). nia. Qed.

(** The first octet, and the first two, of an address. *)
Lemma octet0_range ip c d : (0 ≤ ip ≤ U32_MAX)%Z →
  (c ≤ octet 0 ip ≤ d ↔ c * 2 ^ 24 ≤ ip ≤ d * 2 ^ 24 + (2 ^ 24 - 1))%Z.
Proof.
  intros Hip. unfold octet. change (2 ^ (8 * (3 - 0)))%Z with (2 ^ 24)%Z.
  rewrite Z.mod_small; [apply div_range; lia|]. split; [apply Z.div_pos; lia|].
  apply Z.div_lt_upper_bound; [lia|]. unfold U32_MAX in Hip. lia.
Qed.

Lemma octet01_range ip a c d : (0 ≤ ip ≤ U32_MAX)%Z → (0 ≤ c ∧ d ≤ 255)%Z →
  (octet 0 ip = a ∧ c ≤ octet 1 ip ≤ d ↔
   (a * 256 + c) * 2 ^ 16 ≤ ip ≤ (a * 256 + d) * 2 ^ 16 + (2 ^ 16 - 1))%Z.
Proof.
  intros Hip Hcd. rewrite <-div_range by lia. unfold octet. change (2 ^ (8 * (3 - 0)))%Z with (2 ^ 16 * 256)%Z.
  change (2 ^ (8 * (3 - 1)))%Z with (2 ^ 16)%Z. rewrite <-Z.div_div by lia. set (q := (ip / 2 ^ 16)%Z).
  assert (0 ≤ q < 65536)%Z.
  { subst q. split; [apply Z.div_pos; lia|]. apply Z.div_lt_upper_bound; [lia|]. unfold U32_MAX in Hip. lia. }
  pose proof (Z.div_mod q 256 ltac:(lia)). pose proof (Z.mod_pos_bound q 256 ltac:(lia)).
  rewrite (Z.mod_small (q / 256) 256) by (split; [apply Z.div_pos; lia|apply Z.div_lt_upper_bound; lia]). lia.
Qed.

Lemma in_cidr_range ip base prefix : (0 < prefix ≤ 32)%Z → (0 ≤ ip ≤ U32_MAX)%Z → (0 ≤ base ≤ U32_MAX)%Z →
  ipv4_in_cidr ip base prefix = true ↔
  (base / 2 ^ (32 - prefix) * 2 ^ (32 - prefix) ≤ ip ≤
   base / 2 ^ (32 - prefix) * 2 ^ (32 - prefix) + (2 ^ (32 - prefix) - 1))%Z.
Proof.
  intros Hp Hip Hb. rewrite in_cidr_div by done. rewrite <-div_range by (apply Z.pow_pos_nonneg; lia). lia.
Qed.

Ltac pick_disjunct :=
  lazymatch goal with
  | |- _ ∨ _ => first [left; pick_disjunct | right; pick_disjunct]
  | |- _ => lia
  end.

(** The addresses that count as not public are exactly those of the reserved
    ranges: this network, private, carrier-grade NAT, loopback, link-local,
    protocol assignments, the three test networks, benchmarking, and everything
    from the first multicast address on; the bit masks and the octet tests of
    the code miss none and take in no other. *)
Theorem non_public_ipv4_ranges ip :
  (0 ≤ ip ≤ U32_MAX)%Z → is_non_public_ipv4 ip = true ↔ in_ranges ip reserved_ranges.
Proof.
  intros Hip. unfold is_non_public_ipv4, v4_is_loopback, v4_is_private, v4_is_link_local, v4_is_unspecified,
    v4_is_multicast, v4_is_broadcast.
  rewrite !orb_true_iff, !andb_true_iff, !Z.eqb_eq, !Z.leb_le.
  rewrite !in_cidr_range by (done || (split; vm_compute; discriminate) || lia).
  assert (Hone : ∀ a, (octet 0 ip = a ↔ a * 2 ^ 24 ≤ ip ≤ a * 2 ^ 24 + (2 ^ 24 - 1))%Z).
  { intros a. rewrite <-octet0_range by done. lia. }
  pose proof (octet01_range ip 172 16 31 Hip ltac:(lia)) as H172.
  pose proof (octet01_range ip 192 168 168 Hip ltac:(lia)) as H192.
  pose proof (octet01_range ip 169 254 254 Hip ltac:(lia)) as H169.
  pose proof (octet0_range ip 224 239 Hip) as H224.
  pose proof (Hone 127%Z) as H127. pose proof (Hone 10%Z) as H10.
  unfold in_ranges, reserved_ranges. rewrite !Exists_cons, Exists_nil. cbn [fst snd].
  repeat match goal with |- context [ (ipv4 ?a ?b ?c ?d) ] =>
    let n := eval vm_compute in (ipv4 a b c d) in change (ipv4 a b c d) with n end.
  repeat match goal with |- context [ (?a / 2 ^ (32 - ?p) * 2 ^ (32 - ?p))%Z ] =>
    let n := eval vm_compute in (a / 2 ^ (32 - p) * 2 ^ (32 - p))%Z in
    change (a / 2 ^ (32 - p) * 2 ^ (32 - p))%Z with n end.
  unfold U32_MAX in *. split.
  - intros Hc. repeat destruct Hc as [Hc|Hc]; pick_disjunct.
  - intros Hc. repeat destruct Hc as [Hc|Hc]; try done; try pick_disjunct.
    destruct (decide (ip < 240 * 2 ^ 24)%Z); pick_disjunct.
Qed.

Lemma non_public_ipv4_ranges_witness : is_non_public_ipv4 (ipv4 100 100 1 2) = true.
Proof.
  apply non_public_ipv4_ranges; [vm_compute; split; discriminate|].
  do 2 apply Exists_cons_tl. apply Exists_cons_hd. vm_compute. split; discriminate.
Defined.
End Ip.
