(* ===== verification/NetworkPolicy.v ===== *)
(** * NetworkPolicy: which hosts a sandboxed command may reach

    Models codex-rs/network-proxy/src/policy.rs (hosts and domain patterns) and
    the settings of config.rs.  The globset and url crates are parameters. *)

From S2P Require Import Prelude AbsPath IpAddress Delegation.

Module Network.

(** ** policy.rs: hosts *)
Definition normalize_dns_host (host : rstring) : rstring :=
  trim_end_matches 46 (to_ascii_lowercase host).

(** [host.split(c).next()]. *)
Definition before (c : char) (s : rstring) : rstring :=
  match split_once c s with Some (a, _) => a | None => s end.

Definition normalize_host (host : rstring) : rstring :=
  let host := trim host in
  match (match host with
         | c :: rest => if (c =? 91)%Z then fst <$> split_once 93 rest else None
         | [] => None
         end) with
  | Some inner => normalize_dns_host inner
  | None => if count_char 58 host =? 1 then normalize_dns_host (before 58 host) else normalize_dns_host host
  end.

(** [Host::parse]. *)
Definition parse_host (input : rstring) : option rstring :=
  let n := normalize_host input in if is_empty n then None else Some n.

Definition without_scope (host : rstring) : rstring := before 37 host.

Definition is_loopback_host (host : rstring) : bool :=
  let host := without_scope host in
  if host =?s $"localhost" then true
  else match Ip.parse_ip host with Some ip => Ip.ip_is_loopback ip | None => false end.

(** ** policy.rs: patterns *)
Definition normalize_pattern (pattern : rstring) : rstring :=
  let pattern := trim pattern in
  if pattern =?s $"*" then $"*"
  else match strip_prefix $"**." pattern with
       | Some domain => $"**." ++ normalize_host domain
       | None => match strip_prefix $"*." pattern with
                 | Some domain => $"*." ++ normalize_host domain
                 | None => normalize_host pattern
                 end
       end.

Inductive DomainPattern :=
| ApexAndSubdomains (domain : rstring)
| SubdomainsOnly (domain : rstring)
| Exact (domain : rstring).

Definition parse_domain (domain : rstring) (build : rstring → DomainPattern) : DomainPattern :=
  let domain := trim domain in if is_empty domain then Exact [] else build domain.

(** [DomainPattern::parse]. *)
Definition parse_pattern (input : rstring) : DomainPattern :=
  let input := trim input in
  if is_empty input then Exact []
  else match strip_prefix $"**." input with
       | Some domain => parse_domain domain ApexAndSubdomains
       | None => match strip_prefix $"*." input with
                 | Some domain => parse_domain domain SubdomainsOnly
                 | None => Exact input
                 end
       end.

Definition expand_domain_pattern (pattern : rstring) : list rstring :=
  match parse_pattern pattern with
  | Exact domain => [domain]
  | SubdomainsOnly domain => [ $"?*." ++ domain ]
  | ApexAndSubdomains domain => [ domain; $"?*." ++ domain ]
  end.

Definition is_global_wildcard_domain_pattern (pattern : rstring) : bool :=
  existsb (str_eqb $"*") (expand_domain_pattern (normalize_pattern pattern)).

Definition normalize_domain (domain : rstring) : rstring := to_ascii_lowercase (trim_end_matches 46 domain).
Definition domain_eq (l r : rstring) : bool := normalize_domain l =?s normalize_domain r.
Definition is_subdomain_or_equal (child parent : rstring) : bool :=
  let child := normalize_domain child in
  let parent := normalize_domain parent in
  (child =?s parent) || ends_with ($"." ++ parent) child.
Definition is_strict_subdomain (child parent : rstring) : bool :=
  let child := normalize_domain child in
  let parent := normalize_domain parent in
  negb (child =?s parent) && ends_with ($"." ++ parent) child.

(** [DomainPattern::allows]. *)
Definition allows (self candidate : DomainPattern) : bool :=
  match self, candidate with
  | Exact domain, Exact c => domain_eq c domain
  | Exact _, _ => false
  | SubdomainsOnly domain, Exact c => is_strict_subdomain c domain
  | SubdomainsOnly domain, SubdomainsOnly c => is_subdomain_or_equal c domain
  | SubdomainsOnly domain, ApexAndSubdomains c => is_strict_subdomain c domain
  | ApexAndSubdomains domain, (Exact c | SubdomainsOnly c | ApexAndSubdomains c) => is_subdomain_or_equal c domain
  end.

(** The crates that patterns and hosts go through. *)
Class NetCrates := {
  (** [GlobBuilder::new(p).case_insensitive(true).build()] succeeds *)
  glob_ok : rstring → bool;
  (** and what it then matches *)
  glob_match : rstring → rstring → bool;
  (** [url::Host::parse(h)], printed *)
  url_host : rstring → option rstring
}.

(** What the crate documents of a pattern without metacharacters: it is equality
    without regard to case. *)
Definition is_glob_meta (c : char) : bool := existsb (Z.eqb c) [42; 63; 91; 93; 123; 125; 92; 33; 44]%Z.
Definition plain (p : rstring) : Prop := forallb (λ c, negb (is_glob_meta c)) p = true.
Class GlobLaws (C : NetCrates) :=
  plain_match p h : plain p → glob_match p h = true ↔ to_ascii_lowercase h = to_ascii_lowercase p.

Section Policy.
Context {C : NetCrates}.

Definition parse_domain_for_constraints (domain : rstring) : rstring :=
  let domain := trim_end_matches 46 (trim domain) in
  if is_empty domain then []
  else
    let host := match domain with
                | c :: rest => if (c =? 91)%Z && ends_with [93%Z] domain
                               then take (length rest - 1) rest else domain
                | [] => domain
                end in
    if contains_char 42 host || contains_char 63 host || contains_char 37 host then domain
    else default [] (url_host host).

Definition parse_for_constraints (input : rstring) : DomainPattern :=
  let input := trim input in
  if is_empty input then Exact []
  else match strip_prefix $"**." input with
       | Some domain => ApexAndSubdomains (parse_domain_for_constraints domain)
       | None => match strip_prefix $"*." input with
                 | Some domain => SubdomainsOnly (parse_domain_for_constraints domain)
                 | None => Exact (parse_domain_for_constraints input)
                 end
       end.

(** A [GlobSet] is the list of its patterns. *)
Definition GlobSet := list rstring.
Definition set_is_match (s : GlobSet) (h : rstring) : bool := existsb (λ p, glob_match p h) s.

Definition WILDCARD_ERROR : rstring :=
  $"unsupported global wildcard domain pattern " ++ [34%Z] ++ $"*" ++ [34%Z]
  ++ $"; use exact hosts or scoped wildcards like *.example.com or **.example.com".

(** The inner loop: candidates not seen before are added. *)
Fixpoint add_candidates (cs : list rstring) (set seen : list rstring) : result (list rstring * list rstring) rstring :=
  match cs with
  | [] => Ok (set, seen)
  | c :: cs' =>
      if str_in c seen then add_candidates cs' set seen
      else if glob_ok c then add_candidates cs' (set ++ [c]) (c :: seen)
      else Err ($"invalid glob pattern: " ++ c)
  end.
Fixpoint compile_patterns (reject_wildcard : bool) (ps : list rstring) (set seen : list rstring)
  : result GlobSet rstring :=
  match ps with
  | [] => Ok set
  | p :: ps' =>
      if reject_wildcard && is_global_wildcard_domain_pattern p then Err WILDCARD_ERROR
      else let? r := add_candidates (expand_domain_pattern (normalize_pattern p)) set seen in
           compile_patterns reject_wildcard ps' r.1 r.2
  end.
Definition compile_allowlist_globset (ps : list rstring) : result GlobSet rstring := compile_patterns false ps [] [].
Definition compile_denylist_globset (ps : list rstring) : result GlobSet rstring := compile_patterns true ps [] [].
End Policy.

(** ** config.rs *)
Inductive NetworkDomainPermission := PNone | PAllow | PDeny.
#[export] Instance permission_eq_dec : EqDecision NetworkDomainPermission.
Proof. solve_decision. Defined.
Definition permission_rank (p : NetworkDomainPermission) : nat :=
  match p with PNone => 0 | PAllow => 1 | PDeny => 2 end.

Record NetworkDomainPermissionEntry := { pattern : rstring; permission : NetworkDomainPermission }.
Abbreviation entry p k := {| pattern := p; permission := k |}.

(** The strongest permission of a pattern, and the patterns in the order of
    their first entries. *)
Fixpoint raise (p : rstring) (k : NetworkDomainPermission) (l : list NetworkDomainPermissionEntry)
  : list NetworkDomainPermissionEntry :=
  match l with
  | [] => [entry p k]
  | e :: l' => if pattern e =?s p
               then (if permission_rank (permission e) <? permission_rank k then entry p k else e) :: l'
               else e :: raise p k l'
  end.
Definition effective_entries (l : list NetworkDomainPermissionEntry) : list NetworkDomainPermissionEntry :=
  fold_left (λ acc e, raise (pattern e) (permission e) acc) l [].

#[export] Instance entry_eq_dec : EqDecision NetworkDomainPermissionEntry.
Proof. solve_decision. Defined.
Inductive NetworkUnixSocketPermission := SAllow | SNone.
#[export] Instance socket_permission_eq_dec : EqDecision NetworkUnixSocketPermission.
Proof. solve_decision. Defined.
Inductive NetworkMode := Limited | Full.
#[export] Instance mode_eq_dec : EqDecision NetworkMode.
Proof. solve_decision. Defined.
Definition network_mode_rank (m : NetworkMode) : nat := match m with Limited => 0 | Full => 1 end.

Record NetworkProxySettings := {
  enabled : bool;
  proxy_url : rstring;
  enable_socks5 : bool;
  socks_url : rstring;
  enable_socks5_udp : bool;
  allow_upstream_proxy : bool;
  dangerously_allow_non_loopback_proxy : bool;
  dangerously_allow_all_unix_sockets : bool;
  mode : NetworkMode;
  domains : option (list NetworkDomainPermissionEntry);
  unix_sockets : option (list (rstring * NetworkUnixSocketPermission));
  allow_local_binding : bool;
  mitm : bool
}.
#[export] Instance settings_eq_dec : EqDecision NetworkProxySettings.
Proof. solve_decision. Defined.

Definition allows_method (m : NetworkMode) (method : rstring) : bool :=
  match m with Full => true | Limited => str_in method [ $"GET"; $"HEAD"; $"OPTIONS" ] end.

Definition domain_entries (s : NetworkProxySettings) (k : NetworkDomainPermission) : option (list rstring) :=
  match domains s with
  | None => None
  | Some ds =>
      let ps := pattern <$> List.filter (λ e, bool_decide (permission e = k)) (effective_entries ds) in
      if is_empty ps then None else Some ps
  end.
Definition allowed_domains (s : NetworkProxySettings) : option (list rstring) := domain_entries s PAllow.
Definition denied_domains (s : NetworkProxySettings) : option (list rstring) := domain_entries s PDeny.
Definition allow_unix_sockets (s : NetworkProxySettings) : list rstring :=
  match unix_sockets s with
  | None => []
  | Some m => fst <$> List.filter (λ e, match e.2 with SAllow => true | SNone => false end) m
  end.

Definition with_domains (s : NetworkProxySettings) ds : NetworkProxySettings :=
  {| enabled := enabled s; proxy_url := proxy_url s; enable_socks5 := enable_socks5 s; socks_url := socks_url s;
     enable_socks5_udp := enable_socks5_udp s; allow_upstream_proxy := allow_upstream_proxy s;
     dangerously_allow_non_loopback_proxy := dangerously_allow_non_loopback_proxy s;
     dangerously_allow_all_unix_sockets := dangerously_allow_all_unix_sockets s; mode := mode s; domains := ds;
     unix_sockets := unix_sockets s; allow_local_binding := allow_local_binding s; mitm := mitm s |}.
Definition with_mode (s : NetworkProxySettings) m : NetworkProxySettings :=
  {| enabled := enabled s; proxy_url := proxy_url s; enable_socks5 := enable_socks5 s; socks_url := socks_url s;
     enable_socks5_udp := enable_socks5_udp s; allow_upstream_proxy := allow_upstream_proxy s;
     dangerously_allow_non_loopback_proxy := dangerously_allow_non_loopback_proxy s;
     dangerously_allow_all_unix_sockets := dangerously_allow_all_unix_sockets s; mode := m; domains := domains s;
     unix_sockets := unix_sockets s; allow_local_binding := allow_local_binding s; mitm := mitm s |}.

Definition some_unless_empty {A} (l : list A) : option (list A) := if is_empty l then None else Some l.

Definition upsert_domain_permission (s : NetworkProxySettings) (host : rstring) (k : NetworkDomainPermission)
    (norm : rstring → rstring) : NetworkProxySettings :=
  with_domains s (some_unless_empty
    (List.filter (λ e, negb (norm (pattern e) =?s norm host)) (default [] (domains s)) ++ [entry host k])).

Definition push_new (k : NetworkDomainPermission) (l : list NetworkDomainPermissionEntry) (p : rstring) :=
  if existsb (λ e, (pattern e =?s p) && bool_decide (permission e = k)) l then l else l ++ [entry p k].
Definition set_domain_entries (s : NetworkProxySettings) (ps : list rstring) (k : NetworkDomainPermission) :=
  with_domains s (some_unless_empty
    (fold_left (push_new k) ps
       (List.filter (λ e, negb (bool_decide (permission e = k))) (default [] (domains s))))).

(** *** Where the proxy listens *)
Record SocketAddr := { addr_ip : Ip.IpAddr; addr_port : Z }.
Definition LOCALHOST : Ip.IpAddr := Ip.V4 (Ip.ipv4 127 0 0 1).

Definition clamp_non_loopback (a : SocketAddr) (allow_non_loopback : bool) : SocketAddr :=
  if Ip.ip_is_loopback (addr_ip a) then a
  else if allow_non_loopback then a
  else {| addr_ip := LOCALHOST; addr_port := addr_port a |}.

Definition clamp_bind_addrs (http socks : SocketAddr) (cfg : NetworkProxySettings) : SocketAddr * SocketAddr :=
  let http := clamp_non_loopback http (dangerously_allow_non_loopback_proxy cfg) in
  let socks := clamp_non_loopback socks (dangerously_allow_non_loopback_proxy cfg) in
  if is_empty (allow_unix_sockets cfg) && negb (dangerously_allow_all_unix_sockets cfg) then (http, socks)
  else ({| addr_ip := LOCALHOST; addr_port := addr_port http |}, {| addr_ip := LOCALHOST; addr_port := addr_port socks |}).

(** ** What patterns cover *)
Definition pattern_domain (p : DomainPattern) : rstring :=
  match p with ApexAndSubdomains d | SubdomainsOnly d | Exact d => normalize_domain d end.

(** A strict subdomain: at least one character before the dot, as the glob
    [?*.domain] has it. *)
Definition below (d h : rstring) : Prop := ∃ x, x ≠ [] ∧ h = x ++ $"." ++ d.
Definition covers (p : DomainPattern) (h : rstring) : Prop :=
  match p with
  | Exact _ => h = pattern_domain p
  | SubdomainsOnly _ => below (pattern_domain p) h
  | ApexAndSubdomains _ => h = pattern_domain p ∨ below (pattern_domain p) h
  end.

Lemma below_trans a b c : below a b → below b c → below a c.
Proof.
  intros (x & Hx & ->) (y & Hy & ->). exists (y ++ $"." ++ x). split; [by destruct y|]. by rewrite <-!app_assoc.
Qed.

Lemma below_neq d h : below d h → h ≠ d.
Proof. intros (x & Hx & ->) Heq. apply (f_equal length) in Heq. rewrite !length_app in Heq. destruct x; cbn in *; [done|lia]. Qed.

Lemma ends_with_below d h : starts_with $"." h = false → ends_with ($"." ++ d) h = true ↔ below d h.
Proof.
  intros Hd. rewrite ends_with_true. split.
  - intros [x ->]. exists x. split; [|done]. intros ->. discriminate Hd.
  - intros (x & _ & ->). by exists x.
Qed.

(** A label in front of a domain: what lies below it lies below the domain. *)
Lemma label_below c d a : below d (a :: $"." ++ c) → c = d ∨ ends_with ($"." ++ d) c = true.
Proof.
  intros (x & Hx & Heq). destruct x as [|y x]; [done|]. injection Heq as _ Heq.
  destruct x as [|z x]; injection Heq; [by left|]. intros Hc _. right. apply ends_with_true. by exists x.
Qed.

Lemma strict_iff c d :
  is_strict_subdomain c d = true ↔
  normalize_domain c ≠ normalize_domain d ∧ ends_with ($"." ++ normalize_domain d) (normalize_domain c) = true.
Proof. unfold is_strict_subdomain. rewrite andb_true_iff, negb_true_iff. unfold str_eqb. by rewrite bool_decide_eq_false. Qed.
Lemma or_equal_iff c d :
  is_subdomain_or_equal c d = true ↔
  normalize_domain c = normalize_domain d ∨ ends_with ($"." ++ normalize_domain d) (normalize_domain c) = true.
Proof. unfold is_subdomain_or_equal. rewrite orb_true_iff. unfold str_eqb. by rewrite bool_decide_eq_true. Qed.

(** Two labels tell an apex from what is below it. *)
Lemma labels_below c d :
  (∀ h, below c h → h = d ∨ below d h) → c = d ∨ ends_with ($"." ++ d) c = true.
Proof.
  intros Hall.
  assert (Hb : ∀ a, below c (a :: $"." ++ c)) by (intros a; by exists [a]).
  destruct (Hall _ (Hb 97%Z)) as [Ha|Ha]; [|by apply label_below in Ha].
  destruct (Hall _ (Hb 98%Z)) as [Hx|Hx]; [congruence|by apply label_below in Hx].
Qed.

(** The comparison of a user's pattern with a managed one is exact: a managed
    pattern allows a pattern if and only if it covers every host that the pattern
    covers (for patterns whose domain does not begin with a dot). *)
Theorem pattern_containment m c :
  starts_with $"." (pattern_domain c) = false →
  allows m c = true ↔ ∀ h, covers c h → covers m h.
Proof.
  intros Hdot. destruct m as [d|d|d], c as [e|e|e]; cbn [allows covers pattern_domain] in *;
    rewrite ?strict_iff, ?or_equal_iff, ?(ends_with_below (normalize_domain d) _ Hdot).
  - split; [|intros Hall; destruct (Hall (normalize_domain e)); auto].
    intros [->|Hb] h [->|Hh]; auto; right; eauto using below_trans.
  - split; [|intros Hall; apply labels_below in Hall; by rewrite <-(ends_with_below (normalize_domain d) _ Hdot)].
    intros [->|Hb] h Hh; auto; right; eauto using below_trans.
  - split; [by intros Hb h ->|auto].
  - split; [|intros Hall; split; [eapply below_neq|]; apply Hall; auto].
    intros [_ Hb] h [->|Hh]; eauto using below_trans.
  - split; [|intros Hall; rewrite <-(ends_with_below (normalize_domain d) _ Hdot); apply (labels_below _ _); auto].
    intros [->|Hb] h Hh; eauto using below_trans.
  - split; [by intros [_ Hb] h ->|]. intros Hall. split; [eapply below_neq|]; by apply Hall.
  - split; [done|]. intros Hall. exfalso. destruct (Hall (97%Z :: $"." ++ normalize_domain e)); [|].
    { right. by exists [97%Z]. }
    specialize (Hall (98%Z :: $"." ++ normalize_domain e) ltac:(right; by exists [98%Z])). congruence.
  - split; [done|]. intros Hall. exfalso.
    pose proof (Hall (97%Z :: $"." ++ normalize_domain e) ltac:(by exists [97%Z])) as H1.
    pose proof (Hall (98%Z :: $"." ++ normalize_domain e) ltac:(by exists [98%Z])) as H2. congruence.
  - unfold domain_eq, str_eqb. rewrite bool_decide_eq_true. split; [by intros <- h ->|]. intros Hall. by apply Hall.
Qed.

Lemma pattern_containment_witness :
  ∀ h, covers (SubdomainsOnly $"A.example.com.") h → covers (ApexAndSubdomains $"example.com") h.
Proof. apply pattern_containment; vm_compute; reflexivity. Defined.

(** The proxy listens on loopback unless the user asked for more: both
    addresses are loopback whenever listening elsewhere was not allowed, and even
    then whenever unix sockets are reachable through the proxy; ports stay. *)
Theorem proxy_binds_loopback http socks cfg :
  let '(h, s) := clamp_bind_addrs http socks cfg in
  (addr_port h = addr_port http ∧ addr_port s = addr_port socks) ∧
  (dangerously_allow_non_loopback_proxy cfg = false ∨ allow_unix_sockets cfg ≠ [] ∨
   dangerously_allow_all_unix_sockets cfg = true →
   Ip.ip_is_loopback (addr_ip h) = true ∧ Ip.ip_is_loopback (addr_ip s) = true) ∧
  (dangerously_allow_non_loopback_proxy cfg = true → allow_unix_sockets cfg = [] →
   dangerously_allow_all_unix_sockets cfg = false → h = http ∧ s = socks).
Proof.
  assert (Hc : ∀ a b, addr_port (clamp_non_loopback a b) = addr_port a ∧
    (b = false → Ip.ip_is_loopback (addr_ip (clamp_non_loopback a b)) = true) ∧ (b = true → clamp_non_loopback a b = a)).
  { intros a b. unfold clamp_non_loopback. destruct (Ip.ip_is_loopback (addr_ip a)) eqn:E; [done|]. by destruct b. }
  unfold clamp_bind_addrs. set (b := dangerously_allow_non_loopback_proxy cfg).
  destruct (Hc http b) as (Hh1 & Hh2 & Hh3), (Hc socks b) as (Hs1 & Hs2 & Hs3). cbv zeta.
  destruct (is_empty (allow_unix_sockets cfg)) eqn:Eu; cbn [andb].
  - apply is_empty_true in Eu. destruct (dangerously_allow_all_unix_sockets cfg); cbn [negb].
    + cbn [addr_port addr_ip]. rewrite Hh1, Hs1. split_and!; done.
    + split; [done|]. split; [intros [Hb|[Hx|Hx]]; [by split; auto|done|done]|auto].
  - apply is_empty_false in Eu. cbn [addr_port addr_ip]. rewrite Hh1, Hs1. split_and!; done.
Qed.
End Network.
