(* ===== verification/NetworkState.v ===== *)
(** * NetworkState: managed constraints and the running proxy

    Models codex-rs/network-proxy/src/state.rs ([build_config_state],
    [validate_policy_against_constraints]) and, of runtime.rs,
    [NetworkProxyState]: deciding about hosts, what a change of the lists or of
    the mode computes, reloading, and the log of blocked requests.  NetworkTasks
    runs the operations against each other. *)

From S2P Require Import Prelude AbsPath IpAddress Delegation NetworkPolicy.

Module NetState.
Import Network.

(** ** state.rs *)
Record NetworkProxyConstraints := {
  c_enabled : option bool;
  c_mode : option NetworkMode;
  c_allow_upstream_proxy : option bool;
  c_dangerously_allow_non_loopback_proxy : option bool;
  c_dangerously_allow_all_unix_sockets : option bool;
  c_allowed_domains : option (list rstring);
  allowlist_expansion_enabled : option bool;
  c_denied_domains : option (list rstring);
  denylist_expansion_enabled : option bool;
  c_allow_unix_sockets : option (list rstring);
  c_allow_local_binding : option bool
}.
#[export] Instance constraints_eq_dec : EqDecision NetworkProxyConstraints.
Proof. solve_decision. Defined.

Record NetworkProxyConstraintError := { field_name : rstring; candidate : rstring; allowed : rstring }.
Definition invalid_value (f c a : rstring) : result () NetworkProxyConstraintError :=
  Err {| field_name := f; candidate := c; allowed := a |}.
Definition DISABLED : rstring := $"false (disabled by managed config)".

(** [format!("{:?}", v)] for a list of strings, for its error messages. *)
Class DebugFormat := { debug_strings : list rstring → rstring; debug_mode : NetworkMode → rstring }.

(** Sets of lower-cased entries, compared and subtracted. *)
Definition lower_set (l : list rstring) : list rstring := to_ascii_lowercase <$> l.
Definition subset (a b : list rstring) : bool := forallb (λ x, str_in x b) a.
Definition same_set (a b : list rstring) : bool := subset a b && subset b a.

Definition validate_non_global_wildcard_domain_patterns (f : rstring) (ps : list rstring)
  : result () NetworkProxyConstraintError :=
  match List.find is_global_wildcard_domain_pattern ps with
  | Some p => invalid_value f (trim p) $"exact hosts or scoped wildcards like *.example.com or **.example.com"
  | None => Ok ()
  end.

(** A switch that a managed configuration may forbid. *)
Definition validate_switch (f : rstring) (value permitted : bool) : result () NetworkProxyConstraintError :=
  if value && negb permitted then invalid_value f $"true" DISABLED else Ok ().

Section Validate.
Context {C : NetCrates} {D : DebugFormat}.

Definition validate_allowed (managed config_allowed overrides : list rstring) (expansion : option bool)
  : result () NetworkProxyConstraintError :=
  let f := $"network.allowed_domains" in
  let required := lower_set managed in
  let cand := lower_set config_allowed in
  match expansion with
  | Some true =>
      let missing := List.filter (λ e, negb (str_in e cand) && negb (str_in e overrides)) required in
      if is_empty missing then Ok ()
      else invalid_value f $"missing managed allowed_domains entries" (debug_strings missing)
  | Some false =>
      let expected := List.filter (λ e, negb (str_in e overrides)) required in
      if same_set cand expected then Ok ()
      else invalid_value f (debug_strings config_allowed) $"must match managed allowed_domains"
  | None =>
      let patterns := parse_for_constraints <$> managed in
      let invalid := List.filter (λ e, negb (existsb (λ m, allows m (parse_for_constraints e)) patterns))
                       config_allowed in
      if is_empty invalid then Ok ()
      else invalid_value f (debug_strings invalid) $"subset of managed allowed_domains"
  end.

Definition validate_denied (managed config_denied : list rstring) (expansion : option bool)
  : result () NetworkProxyConstraintError :=
  let f := $"network.denied_domains" in
  let required := lower_set managed in
  let cand := lower_set config_denied in
  match expansion with
  | Some false =>
      if same_set cand required then Ok ()
      else invalid_value f (debug_strings config_denied) $"must match managed denied_domains"
  | Some true | None =>
      let missing := List.filter (λ e, negb (str_in e cand)) required in
      if is_empty missing then Ok ()
      else invalid_value f $"missing managed denied_domains entries" (debug_strings missing)
  end.

Definition validate_mode (m : NetworkMode) (limit : option NetworkMode) : result () NetworkProxyConstraintError :=
  match limit with
  | Some max =>
      if network_mode_rank max <? network_mode_rank m
      then invalid_value $"network.mode" (debug_mode m) (debug_mode max ++ $" or more restrictive")
      else Ok ()
  | None => Ok ()
  end.

Definition validate_policy_against_constraints (config : NetworkProxySettings) (c : NetworkProxyConstraints)
  : result () NetworkProxyConstraintError :=
  let config_allowed := default [] (allowed_domains config) in
  let config_denied := default [] (denied_domains config) in
  let overrides := lower_set config_denied in
  let? _ := validate_non_global_wildcard_domain_patterns $"network.denied_domains" config_denied in
  let? _ := match c_enabled c with
            | Some max => validate_switch $"network.enabled" (enabled config) max
            | None => Ok ()
            end in
  let? _ := validate_mode (mode config) (c_mode c) in
  let? _ := validate_switch $"network.allow_upstream_proxy" (allow_upstream_proxy config)
              (default true (c_allow_upstream_proxy c)) in
  let? _ := validate_switch $"network.dangerously_allow_non_loopback_proxy"
              (dangerously_allow_non_loopback_proxy config) (default true (c_dangerously_allow_non_loopback_proxy c)) in
  let? _ := validate_switch $"network.dangerously_allow_all_unix_sockets"
              (dangerously_allow_all_unix_sockets config)
              (default (match c_allow_unix_sockets c with None => true | Some _ => false end)
                 (c_dangerously_allow_all_unix_sockets c)) in
  let? _ := validate_switch $"network.allow_local_binding" (allow_local_binding config)
              (default true (c_allow_local_binding c)) in
  let? _ := match c_allowed_domains c with
            | Some managed =>
                let? _ := validate_non_global_wildcard_domain_patterns $"network.allowed_domains" managed in
                validate_allowed managed config_allowed overrides (allowlist_expansion_enabled c)
            | None => Ok ()
            end in
  let? _ := match c_denied_domains c with
            | Some managed =>
                let? _ := validate_non_global_wildcard_domain_patterns $"network.denied_domains" managed in
                validate_denied managed config_denied (denylist_expansion_enabled c)
            | None => Ok ()
            end in
  match c_allow_unix_sockets c with
  | Some managed =>
      let invalid := List.filter (λ e, negb (str_in (to_ascii_lowercase e) (lower_set managed)))
                       (allow_unix_sockets config) in
      if is_empty invalid then Ok ()
      else invalid_value $"network.allow_unix_sockets" (debug_strings invalid) $"subset of managed allow_unix_sockets"
  | None => Ok ()
  end.
End Validate.

(** ** runtime.rs *)
Inductive HostBlockReason := Denied | NotAllowed | NotAllowedLocal.
Inductive HostBlockDecision := Allowed | Blocked (r : HostBlockReason).

Definition MAX_BLOCKED_EVENTS : nat := 200.
Definition U64_MAX : Z := (2 ^ 64 - 1)%Z.

(** What the proxy asks of its surroundings. *)
Class NetHost := {
  (** the type of a recorded request *)
  BlockedRequest : Type;
  (** the state of interception *)
  Mitm : Type;
  mitm_new : bool → result Mitm rstring;
  (** [lookup_host] under its timeout: [None] when it fails or takes too long *)
  lookup_host : rstring → Z → option (list Ip.IpAddr);
  (** [fs::canonicalize] *)
  fs_canonicalize : rstring → option rstring;
  host_home : option rstring;
  host_dir : option rstring;
  is_macos : bool
}.

Section Runtime.
Context {C : NetCrates} {D : DebugFormat} {H : NetHost}.

Record ConfigState := {
  config : NetworkProxySettings;
  allow_set : GlobSet;
  deny_set : GlobSet;
  mitm_state : option Mitm;
  constraints : NetworkProxyConstraints;
  blocked : list BlockedRequest;
  blocked_total : Z
}.

(** *** Unix sockets *)
Definition parse_socket_path (p : rstring) : option rstring :=
  if Path.is_absolute p then
    match Path.from_absolute_path host_home host_dir p with Ok q => Some q | Err _ => None end
  else None.
Definition validate_unix_socket_allowlist_paths (cfg : NetworkProxySettings) : bool :=
  forallb (λ p, match parse_socket_path p with Some _ => true | None => false end) (allow_unix_sockets cfg).

Definition is_unix_socket_allowed (s : ConfigState) (p : rstring) : bool :=
  if negb is_macos then false
  else if negb (Path.is_absolute p) then false
  else if dangerously_allow_all_unix_sockets (config s) then true
  else match Path.from_absolute_path host_home host_dir p with
       | Err _ => false
       | Ok requested =>
           existsb (λ a, match parse_socket_path a with
                         | None => false
                         | Some allowed =>
                             Path.path_eqb allowed requested
                             || match fs_canonicalize requested, fs_canonicalize allowed with
                                | Some rc, Some ac => Path.path_eqb ac rc
                                | _, _ => false
                                end
                         end) (allow_unix_sockets (config s))
       end.

(** *** State *)
Definition build_config_state (cfg : NetworkProxySettings) (c : NetworkProxyConstraints)
  : result ConfigState rstring :=
  if negb (validate_unix_socket_allowlist_paths cfg) then Err $"invalid network.allow_unix_sockets"
  else
    let allowed := default [] (allowed_domains cfg) in
    let denied := default [] (denied_domains cfg) in
    let? _ := map_err candidate (validate_non_global_wildcard_domain_patterns $"network.denied_domains" denied) in
    let? ds := compile_denylist_globset denied in
    let? als := compile_allowlist_globset allowed in
    let? m := (if mitm cfg then let? m := mitm_new (allow_upstream_proxy cfg) in Ok (Some m) else Ok None) in
    Ok {| config := cfg; allow_set := als; deny_set := ds; mitm_state := m; constraints := c;
          blocked := []; blocked_total := 0 |}.

Definition with_log (s : ConfigState) (b : list BlockedRequest) (t : Z) : ConfigState :=
  {| config := config s; allow_set := allow_set s; deny_set := deny_set s; mitm_state := mitm_state s;
     constraints := constraints s; blocked := b; blocked_total := t |}.

(** [reload_if_needed]: what the reloader offers, with the log kept. *)
Definition reload_if_needed (offer : result (option ConfigState) rstring) (s : ConfigState)
  : result ConfigState rstring :=
  let? o := offer in
  Ok match o with None => s | Some n => with_log n (blocked s) (blocked_total s) end.

(** [force_reload]. *)
Definition force_reload (offer : result ConfigState rstring) (s : ConfigState) : result () rstring * ConfigState :=
  match offer with
  | Ok n => (Ok (), with_log n (blocked s) (blocked_total n))
  | Err e => (Err e, s)
  end.
Definition replace_config_state (n s : ConfigState) : ConfigState := with_log n (blocked s) (blocked_total s).

(** *** The decision *)
Definition host_resolves_to_non_public_ip (host : rstring) (port : Z) : bool :=
  match Ip.parse_ip host with
  | Some ip => Ip.is_non_public_ip ip
  | None => match lookup_host host port with
            | None => true
            | Some addrs => existsb Ip.is_non_public_ip addrs
            end
  end.

Definition is_explicit_local_allowlisted (allowed_domains : list rstring) (host : rstring) : bool :=
  existsb (λ p, let p := trim p in
                if (p =?s $"*") || starts_with $"*." p || starts_with $"**." p then false
                else if contains_char 42 p || contains_char 63 p then false
                else normalize_host p =?s host) allowed_domains.

Definition local_literal (host : rstring) : bool :=
  if is_loopback_host host then true
  else match Ip.parse_ip (without_scope host) with Some ip => Ip.is_non_public_ip ip | None => false end.

Definition host_blocked (s : ConfigState) (host : rstring) (port : Z) : HostBlockDecision :=
  match parse_host host with
  | None => Blocked NotAllowed
  | Some host =>
      let allowed := allowed_domains (config s) in
      if set_is_match (deny_set s) host then Blocked Denied
      else
        let is_allowlisted := set_is_match (allow_set s) host in
        let local_block :=
          if negb (allow_local_binding (config s)) then
            if local_literal host then negb (is_explicit_local_allowlisted (default [] allowed) host)
            else host_resolves_to_non_public_ip host port
          else false in
        if local_block then Blocked NotAllowedLocal
        else if match allowed with None => true | Some _ => false end || negb is_allowlisted
        then Blocked NotAllowed else Allowed
  end.

Definition method_allowed (s : ConfigState) (m : rstring) : bool := allows_method (mode (config s)) m.

(** *** The log *)
Definition record_blocked (e : BlockedRequest) (s : ConfigState) : ConfigState :=
  let b := blocked s ++ [e] in
  with_log s (drop (length b - MAX_BLOCKED_EVENTS) b) (Z.min (blocked_total s + 1) U64_MAX).
Definition drain_blocked (s : ConfigState) : list BlockedRequest * ConfigState :=
  (blocked s, with_log s [] (blocked_total s)).

(** *** Changing the policy *)
Inductive DomainListKind := ListAllow | ListDeny.
Definition kind_permission (k : DomainListKind) : NetworkDomainPermission :=
  match k with ListAllow => PAllow | ListDeny => PDeny end.
Definition kind_entries (k : DomainListKind) (s : NetworkProxySettings) : list rstring :=
  default [] (match k with ListAllow => allowed_domains s | ListDeny => denied_domains s end).
Definition kind_opposite (k : DomainListKind) (s : NetworkProxySettings) : list rstring :=
  default [] (match k with ListAllow => denied_domains s | ListDeny => allowed_domains s end).
Definition constraint_field (k : DomainListKind) : rstring :=
  match k with ListAllow => $"network.allowed_domains" | ListDeny => $"network.denied_domains" end.

(** What a round prepares from the state it reads: nothing to do, a new state, or
    an error. *)
Definition prepare_update (host : rstring) (k : DomainListKind) (s : ConfigState)
  : result (option ConfigState) rstring :=
  let has l := existsb (λ e, normalize_host e =?s host) l in
  if has (kind_entries k (config s)) && negb (has (kind_opposite k (config s))) then Ok None
  else
    let cand := upsert_domain_permission (config s) host (kind_permission k) normalize_host in
    let? _ := map_err (λ _, constraint_field k ++ $" constrained by managed config")
                (validate_policy_against_constraints cand (constraints s)) in
    let? n := build_config_state cand (constraints s) in
    Ok (Some (with_log n (blocked s) (blocked_total s))).

Definition with_config_mode (s : ConfigState) (m : NetworkMode) : ConfigState :=
  {| config := with_mode (config s) m; allow_set := allow_set s; deny_set := deny_set s; mitm_state := mitm_state s;
     constraints := constraints s; blocked := blocked s; blocked_total := blocked_total s |}.
End Runtime.

(** ** Properties *)
Section Facts.
Context {C : NetCrates} {D : DebugFormat} {H : NetHost}.

(** Every address that a host may stand for is public. *)
Definition resolves_publicly (host : rstring) (port : Z) : Prop :=
  match Ip.parse_ip host with
  | Some ip => Ip.is_non_public_ip ip = false
  | None => ∃ addrs, lookup_host host port = Some addrs ∧ Forall (λ a, Ip.is_non_public_ip a = false) addrs
  end.

Lemma resolves_publicly_iff host port :
  host_resolves_to_non_public_ip host port = false ↔ resolves_publicly host port.
Proof.
  unfold host_resolves_to_non_public_ip, resolves_publicly. destruct (Ip.parse_ip host); [done|].
  destruct (lookup_host host port) as [addrs|]; [|split; [done|by intros (? & ? & _)]].
  rewrite <-not_true_iff_false, existsb_exists. split.
  - intros Hn. exists addrs. split; [done|]. apply Forall_forall. intros a Ha. apply not_true_is_false. intros Ht. apply Hn.
    exists a. by rewrite <-list_elem_of_In.
  - intros (? & [= <-] & Hf) (a & Ha%list_elem_of_In & Ht). rewrite Forall_forall in Hf.
    specialize (Hf a Ha). congruence.
Qed.

(** What a compiled list of patterns matches: what one of its patterns, spread
    into globs, matches. *)
Definition covers (p h : rstring) : Prop :=
  ∃ g, g ∈ expand_domain_pattern (normalize_pattern p) ∧ glob_match g h = true.

Lemma add_candidates_elems cs set seen set' seen' :
  add_candidates cs set seen = Ok (set', seen') → (∀ g, g ∈ seen ↔ g ∈ set) →
  (∀ g, g ∈ set' ↔ g ∈ set ∨ g ∈ cs) ∧ (∀ g, g ∈ seen' ↔ g ∈ set').
Proof.
  revert set seen. induction cs as [|c cs IH]; intros set seen; cbn [add_candidates].
  { intros [= <- <-] Hs. split; [set_solver|done]. }
  destruct (str_in c seen) eqn:Ec.
  - intros E Hs. destruct (IH _ _ E Hs) as [H1 H2]. split; [|done]. intros g. rewrite H1, elem_of_cons.
    apply str_in_elem in Ec. apply Hs in Ec. split; [tauto|]. intros [?|[->|?]]; tauto.
  - destruct (glob_ok c); [|done]. intros E Hs. destruct (IH _ _ E) as [H1 H2].
    + intros g. rewrite elem_of_cons, elem_of_app, list_elem_of_singleton, Hs. tauto.
    + split; [|done]. intros g. rewrite H1, elem_of_app, list_elem_of_singleton, elem_of_cons. tauto.
Qed.

Lemma compile_patterns_elems rw ps set seen set' :
  compile_patterns rw ps set seen = Ok set' → (∀ g, g ∈ seen ↔ g ∈ set) →
  ∀ g, g ∈ set' ↔ g ∈ set ∨ ∃ p, p ∈ ps ∧ g ∈ expand_domain_pattern (normalize_pattern p).
Proof.
  revert set seen. induction ps as [|p ps IH]; intros set seen; cbn [compile_patterns].
  { intros [= <-] _ g. split; [by left|]. intros [?|(? & ?%elem_of_nil & _)]; done. }
  destruct (_ && _); [done|].
  destruct (add_candidates _ set seen) as [[set1 seen1]|] eqn:E; [|done]. cbn [result_bind fst snd]. intros Hc Hs g.
  destruct (add_candidates_elems _ _ _ _ _ E Hs) as [H1 H2]. rewrite (IH _ _ Hc H2 g), H1.
  setoid_rewrite elem_of_cons. split; [|naive_solver].
  intros [[?|?]|(q & ? & ?)]; [by left|right; exists p; auto|right; exists q; auto].
Qed.

Lemma compiled_match rw ps set h :
  compile_patterns rw ps [] [] = Ok set → set_is_match set h = true ↔ ∃ p, p ∈ ps ∧ covers p h.
Proof.
  intros Hc. unfold set_is_match. rewrite existsb_exists.
  pose proof (compile_patterns_elems _ _ _ _ _ Hc ltac:(done)) as Hg. setoid_rewrite <-list_elem_of_In.
  setoid_rewrite Hg. unfold covers. split.
  - intros (g & [Hn%elem_of_nil|(p & Hp & Hgp)] & Hm); [done|]. exists p. eauto.
  - intros (p & Hp & g & Hgp & Hm). exists g. eauto.
Qed.

(** A local address, and the entries that name one literally. *)
Definition is_local (h : rstring) : Prop :=
  is_loopback_host h = true ∨ ∃ ip, Ip.parse_ip (without_scope h) = Some ip ∧ Ip.is_non_public_ip ip = true.
Definition names_literally (ds : list rstring) (h : rstring) : Prop :=
  ∃ p, p ∈ ds ∧ 42%Z ∉ trim p ∧ 63%Z ∉ trim p ∧ normalize_host (trim p) = h.

Lemma is_local_iff h : local_literal h = true ↔ is_local h.
Proof.
  unfold local_literal, is_local. destruct (is_loopback_host h); [naive_solver|].
  destruct (Ip.parse_ip (without_scope h)) as [ip|]; naive_solver.
Qed.

Lemma contains_char_elem c s : contains_char c s = true ↔ c ∈ s.
Proof.
  unfold contains_char. rewrite existsb_exists. split.
  - by intros (x & Hx%list_elem_of_In & ->%Z.eqb_eq).
  - intros Hc. exists c. split; [by apply list_elem_of_In|apply Z.eqb_refl].
Qed.

Lemma names_literally_iff ds h : is_explicit_local_allowlisted ds h = true ↔ names_literally ds h.
Proof.
  unfold is_explicit_local_allowlisted, names_literally. rewrite existsb_exists. setoid_rewrite <-list_elem_of_In.
  apply exist_proper. intros p. apply and_iff_compat_l. cbv zeta. generalize (trim p). clear p. intros p.
  assert (Hstar : ∀ q, starts_with ($"*" ++ q) p = true → 42%Z ∈ p).
  { intros q Hq. unfold starts_with in Hq. destruct p as [|c p]; [done|].
    change (strip_prefix ($"*" ++ q) (c :: p)) with (if (42 =? c)%Z then strip_prefix q p else None) in Hq.
    destruct (Z.eqb_spec 42 c) as [<-|]; [|done]. left. }
  rewrite <-!contains_char_elem. destruct (contains_char 42 p) eqn:E1.
  { cbn [orb]. destruct (_ || _); naive_solver. }
  assert (Hn : ∀ q, starts_with ($"*" ++ q) p = false).
  { intros q. apply not_true_is_false. intros Hq%Hstar%contains_char_elem. congruence. }
  rewrite (Hn $"." : starts_with $"*." p = false), (Hn $"*." : starts_with $"**." p = false). cbn [orb].
  destruct (p =?s $"*") eqn:E2; [apply str_eqb_eq in E2 as ->; discriminate E1|]. cbn [orb].
  destruct (contains_char 63 p); [naive_solver|]. rewrite str_eqb_eq. naive_solver.
Qed.

(** The two outcomes of the check on local addresses. *)
Lemma local_verdict ds open h port :
  let block := if negb open then
                 if local_literal h then negb (is_explicit_local_allowlisted ds h)
                 else host_resolves_to_non_public_ip h port
               else false in
  let ok := open = true ∨ is_local h ∧ names_literally ds h ∨ ¬ is_local h ∧ resolves_publicly h port in
  ok ∧ block = false ∨ ¬ ok ∧ block = true.
Proof.
  cbv zeta. rewrite <-is_local_iff, <-names_literally_iff, <-resolves_publicly_iff. destruct open; cbn [negb]; [tauto|].
  destruct (local_literal h), (is_explicit_local_allowlisted ds h), (host_resolves_to_non_public_ip h port);
    cbn [negb]; intuition congruence.
Qed.

(** C16: when a host may be reached.  In a state built from a configuration,
    whatever its log, a request is allowed exactly when it names a host, no pattern
    of the denied domains covers the host, some pattern of the allowed ones does,
    and, unless local addresses were opened, a local address (a loopback name, or
    an address that is not public) is named by an allowed entry that has no
    wildcard and is that very host, and a host that is not one has only public
    addresses; a lookup that fails blocks it. *)
Theorem host_allowed_iff cfg c s0 b n host port :
  build_config_state cfg c = Ok s0 →
  host_blocked (with_log s0 b n) host port = Allowed ↔
  ∃ h ds, parse_host host = Some h ∧ allowed_domains cfg = Some ds ∧
    (¬ ∃ p, p ∈ default [] (denied_domains cfg) ∧ covers p h) ∧ (∃ p, p ∈ ds ∧ covers p h) ∧
    (allow_local_binding cfg = true ∨ is_local h ∧ names_literally ds h ∨ ¬ is_local h ∧ resolves_publicly h port).
Proof.
  unfold build_config_state. destruct (negb _); [done|]. intros Hb. inv_result.
  unfold host_blocked. cbn [with_log config deny_set allow_set].
  destruct (parse_host host) as [h|]; [|split; [done|by intros (? & ? & ? & _)]].
  match goal with Hc : compile_denylist_globset _ = Ok ?d |- _ => pose proof (compiled_match _ _ _ h Hc) as Hd; destruct (set_is_match d h) end.
  { split; [done|]. intros (? & ? & [= <-] & _ & Hn & _). by destruct Hn; apply Hd. }
  match goal with Hc : compile_allowlist_globset _ = Ok _ |- _ => pose proof (compiled_match _ _ _ h Hc) as Ha end.
  cbv zeta. destruct (allowed_domains cfg) as [ds|] eqn:Ea;
    [|repeat case_match; (split; [done|by intros (? & ? & _ & ? & _)])].
  cbn [default id] in *. destruct (local_verdict ds (allow_local_binding cfg) h port) as [[Hl ->]|[Hl ->]].
  - cbn [orb]. destruct (set_is_match _ h); cbn [negb].
    + split; [|done]. intros _. exists h, ds. split_and!; try done; [|by apply Ha]. intros Hx. by apply Hd in Hx.
    + split; [done|]. intros (h' & ds' & [= <-] & [= <-] & _ & Hx & _). by apply Ha in Hx.
  - split; [done|]. intros (h' & ds' & [= <-] & [= <-] & _ & _ & Hx). done.
Qed.

(** ** The log *)
Lemma record_blocked_log e (s : ConfigState) l :
  blocked s = drop (length l - MAX_BLOCKED_EVENTS) l →
  blocked (record_blocked e s) = drop (length (l ++ [e]) - MAX_BLOCKED_EVENTS) (l ++ [e]).
Proof.
  intros Hs. unfold record_blocked. cbn [blocked with_log]. rewrite Hs, !length_app, length_drop. cbn [length].
  destruct (decide (length l < MAX_BLOCKED_EVENTS)) as [Hlt|Hge].
  - replace (length l - MAX_BLOCKED_EVENTS) with 0 by lia. rewrite drop_0.
    f_equal. lia.
  - replace (length l - (length l - MAX_BLOCKED_EVENTS) + 1 - MAX_BLOCKED_EVENTS) with 1 by lia.
    replace (length l + 1 - MAX_BLOCKED_EVENTS) with (S (length l - MAX_BLOCKED_EVENTS)) by lia.
    rewrite (drop_app_le l) by (unfold MAX_BLOCKED_EVENTS in *; lia).
    rewrite drop_app_le by (rewrite length_drop; unfold MAX_BLOCKED_EVENTS in *; lia).
    rewrite drop_drop. f_equal. f_equal. lia.
Qed.

(** The log of blocked requests is the last two hundred of them in the order
    they came, however many there were, and the total counts them all up to the
    greatest 64-bit number. *)
Theorem blocked_log_is_recent (s : ConfigState) es :
  blocked s = [] → (0 ≤ blocked_total s ≤ U64_MAX)%Z →
  let s' := fold_left (λ s e, record_blocked e s) es s in
  blocked s' = drop (length es - MAX_BLOCKED_EVENTS) es ∧ length (blocked s') ≤ MAX_BLOCKED_EVENTS ∧
  blocked_total s' = Z.min (blocked_total s + Z.of_nat (length es)) U64_MAX.
Proof.
  intros Hb Ht. cbn.
  assert (Hgen : blocked (fold_left (λ s e, record_blocked e s) es s) = drop (length es - MAX_BLOCKED_EVENTS) es ∧
    blocked_total (fold_left (λ s e, record_blocked e s) es s) = Z.min (blocked_total s + Z.of_nat (length es)) U64_MAX).
  { induction es as [|e es IH] using rev_ind; [cbn; rewrite Hb, Z.add_0_r, Z.min_l by lia; done|].
    rewrite fold_left_app. cbn [fold_left]. destruct IH as [IH1 IH2]. split; [by apply record_blocked_log|].
    cbn [record_blocked with_log blocked_total]. rewrite IH2, length_app. cbn [length]. lia. }
  destruct Hgen as [-> ->]. split; [done|]. split; [|done]. rewrite length_drop. lia.
Qed.
End Facts.

(** ** A configuration *)
Definition sample_crates : NetCrates :=
  {| glob_ok := λ _, true; glob_match := λ p h, to_ascii_lowercase h =?s to_ascii_lowercase p; url_host := Some |}.
Definition sample_net_host : NetHost :=
  {| BlockedRequest := nat; Mitm := (); mitm_new := λ _, Ok (); lookup_host := λ _ _, Some [];
     fs_canonicalize := Some; host_home := None; host_dir := Some $"/w"; is_macos := false |}.
#[local] Existing Instance sample_crates.
#[local] Existing Instance sample_net_host.
Definition sample_settings : NetworkProxySettings :=
  {| enabled := true; proxy_url := []; enable_socks5 := true; socks_url := []; enable_socks5_udp := true;
     allow_upstream_proxy := true; dangerously_allow_non_loopback_proxy := false;
     dangerously_allow_all_unix_sockets := false; mode := Limited;
     domains := Some [entry $"example.com" PAllow; entry $"Bad.example.com" PDeny; entry $"127.0.0.1" PAllow];
     unix_sockets := None; allow_local_binding := false; mitm := false |}.
Definition sample_constraints : NetworkProxyConstraints :=
  {| c_enabled := None; c_mode := None; c_allow_upstream_proxy := None;
     c_dangerously_allow_non_loopback_proxy := None; c_dangerously_allow_all_unix_sockets := None;
     c_allowed_domains := None; allowlist_expansion_enabled := None; c_denied_domains := None;
     denylist_expansion_enabled := None; c_allow_unix_sockets := None; c_allow_local_binding := None |}.

Definition sample_state : ConfigState :=
  {| config := sample_settings; allow_set := [ $"example.com"; $"127.0.0.1" ]; deny_set := [ $"bad.example.com" ];
     mitm_state := None; constraints := sample_constraints; blocked := []; blocked_total := 0 |}.

(** A loopback address that the list names is let through, by its own entry. *)
Lemma host_allowed_iff_witness :
  ∃ h ds, parse_host $"127.0.0.1" = Some h ∧ allowed_domains sample_settings = Some ds ∧
    (¬ ∃ p, p ∈ default [] (denied_domains sample_settings) ∧ covers p h) ∧ (∃ p, p ∈ ds ∧ covers p h) ∧
    (allow_local_binding sample_settings = true ∨ is_local h ∧ names_literally ds h ∨
     ¬ is_local h ∧ resolves_publicly h 80).
Proof.
  apply (host_allowed_iff (C := sample_crates) (H := sample_net_host)
    sample_settings sample_constraints sample_state [] 0 $"127.0.0.1" 80); vm_compute; reflexivity.
Defined.
End NetState.
