(* ===== verification/NetworkTasks.v ===== *)
(** * NetworkTasks: operations of the network proxy running against each other

    The operations of [NetworkProxyState] (codex-rs/network-proxy/src/runtime.rs)
    share one state behind a lock and release it between reading and writing.
    Each is a small machine whose steps are what it does under one hold of the
    lock; a step of the system lets any operation do its next step. *)

From S2P Require Import Prelude AbsPath IpAddress Delegation NetworkPolicy NetworkState.

Module NetTasks.
Import Network NetState.
#[local] Existing Instances settings_eq_dec constraints_eq_dec.

Section Tasks.
Context {C : NetCrates} {D : DebugFormat} {H : NetHost}.

(** ** Operations *)
Inductive Op :=
| SetNetworkMode (m : NetworkMode)
| UpdateDomainList (host : rstring) (k : DomainListKind)
| RecordBlocked (e : BlockedRequest)
| DrainBlocked
| ReplaceConfigState (n : ConfigState).

(** Where an operation stands: about to ask the reloader; holding what the
    reloader offered and the log it read; past the reload; holding a change it
    prepared from [read]; holding the constraints it checked a mode against; or
    finished. *)
Inductive Task :=
| Reload (op : Op)
| Installing (n : ConfigState) (b : list BlockedRequest) (t : Z) (op : Op)
| Ready (op : Op)
| Prepared (host : rstring) (k : DomainListKind) (read n : ConfigState)
| Checked (m : NetworkMode) (c : NetworkProxyConstraints)
| Finished (r : result () rstring).

Definition same_policy (a b : ConfigState) : bool :=
  bool_decide (constraints a = constraints b) && bool_decide (config a = config b).

(** How an operation begins: [update_domain_list] reads the host first. *)
Definition begin_op (op : Op) : Task :=
  match op with
  | UpdateDomainList host k =>
      match parse_host host with
      | Some host => Reload (UpdateDomainList host k)
      | None => Finished (Err $"invalid network host")
      end
  | _ => Reload op
  end.

Definition run_ready (op : Op) (s : ConfigState) : Task * ConfigState :=
  match op with
  | SetNetworkMode m =>
      match validate_policy_against_constraints (with_mode (config s) m) (constraints s) with
      | Err _ => (Finished (Err $"network.mode constrained by managed config"), s)
      | Ok _ => (Checked m (constraints s), s)
      end
  | UpdateDomainList host k =>
      match prepare_update host k s with
      | Err e => (Finished (Err e), s)
      | Ok None => (Finished (Ok ()), s)
      | Ok (Some n) => (Prepared host k s n, s)
      end
  | RecordBlocked e => (Finished (Ok ()), record_blocked e s)
  | DrainBlocked => (Finished (Ok ()), (drain_blocked s).2)
  | ReplaceConfigState n => (Finished (Ok ()), replace_config_state n s)
  end.

(** One step of an operation, with what the reloader answers if it asks. *)
Definition step_task (offer : result (option ConfigState) rstring) (t : Task) (s : ConfigState)
  : Task * ConfigState :=
  match t with
  | Reload op =>
      match offer with
      | Err e => (Finished (Err e), s)
      | Ok None => (Ready op, s)
      | Ok (Some n) => (Installing n (blocked s) (blocked_total s) op, s)
      end
  | Installing n b t op => (Ready op, with_log n b t)
  | Ready op => run_ready op s
  | Prepared host k read n =>
      if same_policy s read then (Finished (Ok ()), n) else (Reload (UpdateDomainList host k), s)
  | Checked m c =>
      if bool_decide (constraints s = c) then (Finished (Ok ()), with_config_mode s m)
      else (Reload (SetNetworkMode m), s)
  | Finished r => (Finished r, s)
  end.

(** ** The system *)
Record System := { shared : ConfigState; tasks : list Task }.

(** The states that come from outside, from the reloader or from a caller. *)
Variable offered : ConfigState → Prop.

Inductive sys_step : System → System → Prop :=
| step_begin s ts op :
    (∀ n, op = ReplaceConfigState n → offered n) →
    sys_step {| shared := s; tasks := ts |} {| shared := s; tasks := ts ++ [begin_op op] |}
| step_run s ts i t offer :
    ts !! i = Some t → (∀ n, offer = Ok (Some n) → offered n) →
    sys_step {| shared := s; tasks := ts |}
             {| shared := (step_task offer t s).2; tasks := <[i := (step_task offer t s).1]> ts |}
| step_force s ts offer :
    (∀ n, offer = Ok n → offered n) →
    sys_step {| shared := s; tasks := ts |} {| shared := (force_reload offer s).2; tasks := ts |}.
End Tasks.

(** ** The policy stays within what is managed *)
Section Invariant.
Context {C : NetCrates} {D : DebugFormat} {H : NetHost}.

(** A state whose settings respect its constraints and whose pattern sets are
    those of its settings. *)
Definition state_ok (s : ConfigState) : Prop :=
  validate_policy_against_constraints (config s) (constraints s) = Ok () ∧
  compile_denylist_globset (default [] (denied_domains (config s))) = Ok (deny_set s) ∧
  compile_allowlist_globset (default [] (allowed_domains (config s))) = Ok (allow_set s).

(** An operation that could have been begun with outside states only. *)
Definition op_ok (op : Op) : Prop := ∀ n, op = ReplaceConfigState n → state_ok n.
Definition task_ok (t : Task) : Prop :=
  match t with
  | Reload op | Ready op => op_ok op
  | Installing n _ _ op => state_ok n ∧ op_ok op
  | Prepared _ _ _ n => state_ok n
  | Checked m c => ∃ cfg, validate_policy_against_constraints (with_mode cfg m) c = Ok ()
  | Finished _ => True
  end.
Definition system_ok (y : System) : Prop := state_ok (shared y) ∧ Forall task_ok (tasks y).

Lemma state_ok_log s b t : state_ok s → state_ok (with_log s b t).
Proof. done. Qed.

(** The check of the mode looks at nothing else of the settings. *)
Lemma validate_only_mode cfg cfg' m c :
  validate_policy_against_constraints cfg c = Ok () →
  validate_policy_against_constraints (with_mode cfg' m) c = Ok () →
  validate_policy_against_constraints (with_mode cfg m) c = Ok ().
Proof.
  unfold validate_policy_against_constraints. intros H1 H2.
  change (denied_domains (with_mode cfg m)) with (denied_domains cfg).
  change (allowed_domains (with_mode cfg m)) with (allowed_domains cfg).
  change (allow_unix_sockets (with_mode cfg m)) with (allow_unix_sockets cfg).
  cbn [with_mode enabled allow_upstream_proxy dangerously_allow_non_loopback_proxy
       dangerously_allow_all_unix_sockets allow_local_binding mode] in *.
  assert (Hm : validate_mode m (c_mode c) = Ok ()).
  { clear H1. cbv zeta in H2. inv_result. by repeat case_match; destruct_and?; repeat match goal with u : () |- _ => destruct u end. }
  clear H2. cbv zeta in *. inv_result. repeat match goal with u : () |- _ => destruct u end.
  by rewrite Hm; cbn [result_bind].
Qed.

Lemma build_config_ok cfg c n :
  build_config_state cfg c = Ok n →
  config n = cfg ∧ constraints n = c ∧
  compile_denylist_globset (default [] (denied_domains cfg)) = Ok (deny_set n) ∧
  compile_allowlist_globset (default [] (allowed_domains cfg)) = Ok (allow_set n).
Proof. unfold build_config_state. case_match; [done|]. cbv zeta. intros Hb. by inv_result. Qed.

Lemma prepare_update_ok host k s n : prepare_update host k s = Ok (Some n) → state_ok n.
Proof.
  unfold prepare_update. cbv zeta. case_match; [done|]. intros Hp. inv_result. apply state_ok_log.
  match goal with E : build_config_state _ _ = Ok _ |- _ => apply build_config_ok in E as (Hc & Hk & Hd & Ha) end.
  unfold state_ok. rewrite Hc, Hk. split_and!; [|done|done].
  match goal with E : map_err _ ?v = Ok _ |- _ => destruct v as [[]|]; done end.
Qed.

Lemma with_mode_ok s m c cfg :
  state_ok s → constraints s = c → validate_policy_against_constraints (with_mode cfg m) c = Ok () →
  state_ok (with_config_mode s m).
Proof. intros (Hv & Hd & Ha) <- Hm. split_and!; [|done|done]. by apply (validate_only_mode _ cfg). Qed.

Lemma run_ready_ok op s :
  state_ok s → op_ok op → task_ok (run_ready op s).1 ∧ state_ok (run_ready op s).2.
Proof.
  intros Hs Ho. destruct op as [m|host k|e| |n]; cbn [run_ready].
  - destruct (validate_policy_against_constraints _ _) as [[]|] eqn:Ev; [|done]. split; [|done]. by exists (config s).
  - destruct (prepare_update host k s) as [[n|]|] eqn:Ep; [|done..]. split; [|done]. by apply prepare_update_ok in Ep.
  - done.
  - done.
  - split; [done|]. by apply state_ok_log, Ho.
Qed.

Lemma step_task_ok offer t s :
  state_ok s → task_ok t → (∀ n, offer = Ok (Some n) → state_ok n) →
  task_ok (step_task offer t s).1 ∧ state_ok (step_task offer t s).2.
Proof.
  intros Hs Ht Hof. destruct t as [op|n b z op|op|host k rd n|m c|r]; cbn [step_task task_ok] in *.
  - destruct offer as [[n|]|]; [|done..]. split; [split; auto|done].
  - by destruct Ht.
  - by apply run_ready_ok.
  - by destruct (same_policy s rd).
  - destruct Ht as [cfg Hv]. case_bool_decide as Ec; [|done]. split; [done|]. by eapply with_mode_ok.
  - done.
Qed.

Lemma sys_step_ok offered y y' :
  (∀ n, offered n → state_ok n) → system_ok y → sys_step offered y y' → system_ok y'.
Proof.
  intros Hof [Hs Ht] Hstep. destruct Hstep as [s ts op Hop|s ts i t offer Hi Hn|s ts offer Hn]; cbn [shared tasks] in *.
  - split; [done|]. apply Forall_app. split; [done|]. apply Forall_singleton.
    assert (Ho : op_ok op) by (intros n ->; auto).
    destruct op; cbn [begin_op]; try case_match; done.
  - destruct (step_task_ok offer t s Hs) as [H1 H2]; [by eapply Forall_lookup_1|auto|].
    split; [done|]. by apply Forall_insert.
  - split; [|done]. destruct offer as [n|]; [|done]. by apply state_ok_log, Hof, Hn.
Qed.

(** C15: however the operations of the proxy interleave, the settings it runs with
    respect the managed constraints it runs under and its pattern sets are the
    ones compiled from those settings, provided that the states it is given from
    outside do: a mode or a list changed under a configuration that is replaced
    meanwhile is checked again or is right for the new one. *)
Theorem managed_constraints_hold offered s0 y :
  (∀ n, offered n → state_ok n) → state_ok s0 →
  rtc (sys_step offered) {| shared := s0; tasks := [] |} y → state_ok (shared y).
Proof.
  intros Hof Hs0 Hr.
  assert (Hy : system_ok {| shared := s0; tasks := [] |}) by by split.
  revert Hy. induction Hr as [y|y y' y'' Hstep _ IH]; intros Hy; [by destruct Hy|].
  apply IH. by eapply sys_step_ok.
Qed.
End Invariant.

(** ** A denied host is blocked *)
Section Denials.
Context {C : NetCrates} {D : DebugFormat} {H : NetHost} {L : GlobLaws C}.

Lemma add_candidates_elem cs set seen r :
  add_candidates cs set seen = Ok r → (∀ c, c ∈ seen → c ∈ set) →
  (∀ c, c ∈ r.2 → c ∈ r.1) ∧ (∀ c, c ∈ set ∨ c ∈ cs → c ∈ r.1).
Proof.
  revert set seen. induction cs as [|c cs IH]; intros set seen; cbn [add_candidates].
  - intros [= <-] Hs. split; [done|]. intros c [Hc|Hc]; [done|by apply elem_of_nil in Hc].
  - destruct (str_in c seen) eqn:Ec.
    + intros Ha Hs. apply str_in_elem in Ec. destruct (IH _ _ Ha Hs) as [H1 H2]. split; [done|].
      intros c' [Hc|[->|Hc]%elem_of_cons]; auto.
    + destruct (glob_ok c); [|done]. intros Ha Hs. destruct (IH _ _ Ha) as [H1 H2].
      { intros c' [->|Hc]%elem_of_cons; apply elem_of_app; [right; by apply list_elem_of_singleton|left; auto]. }
      split; [done|]. intros c' Hc. apply H2. rewrite elem_of_app, list_elem_of_singleton.
      rewrite elem_of_cons in Hc. tauto.
Qed.

Lemma compile_patterns_elem rej ps set seen r :
  compile_patterns rej ps set seen = Ok r → (∀ c, c ∈ seen → c ∈ set) →
  ∀ c, c ∈ set ∨ (∃ p, p ∈ ps ∧ c ∈ expand_domain_pattern (normalize_pattern p)) → c ∈ r.
Proof.
  revert set seen. induction ps as [|p ps IH]; intros set seen; cbn [compile_patterns].
  - intros [= <-] _ c [Hc|(p & Hp & _)]; [done|by apply elem_of_nil in Hp].
  - case_match; [done|]. intros Hc Hs. inv_result.
    match goal with E : add_candidates _ _ _ = Ok ?r |- _ => destruct r as [set' seen']; apply add_candidates_elem in E as [H1 H2]; [|done] end.
    intros c Hx. apply (IH _ _ Hc H1). destruct Hx as [Hx|(p' & [->|Hp']%elem_of_cons & Hx)]; [left; auto|left; auto|right; eauto].
Qed.

(** A name as [Host::parse] gives it, without brackets, spaces or wildcards. *)
Definition canonical (h : rstring) : Prop := plain h ∧ trim h = h ∧ normalize_host h = h ∧ h ≠ [].

Lemma plain_no_star p r : plain (p ++ r) → 42%Z ∉ p.
Proof.
  unfold plain. rewrite forallb_app, andb_true_iff. intros [Hp _] Hin.
  rewrite forallb_forall in Hp. apply list_elem_of_In in Hin. by apply Hp in Hin.
Qed.
Lemma plain_strip p h : plain h → 42%Z ∈ p → strip_prefix p h = None.
Proof.
  intros Hp Hin. destruct (strip_prefix p h) eqn:E; [|done]. apply strip_prefix_Some in E as ->.
  by apply plain_no_star in Hp.
Qed.

Lemma canonical_expand h : canonical h → expand_domain_pattern h = [h].
Proof.
  intros (Hp & Ht & _ & Hne). unfold expand_domain_pattern, parse_pattern. rewrite Ht.
  apply is_empty_false in Hne. by rewrite Hne, !plain_strip by (done || vm_decide).
Qed.

Lemma drop_while_char_elem c d l : c ∈ l → c ≠ d → c ∈ drop_while_char d l.
Proof.
  induction l as [|a l IH]; cbn [drop_while_char]; [done|]. intros Hin Hne. destruct (a =? d)%Z eqn:E; [|done].
  apply Z.eqb_eq in E. apply elem_of_cons in Hin as [->|Hin]; [done|auto].
Qed.
Lemma normalize_dns_host_star s : 42%Z ∈ s → 42%Z ∈ normalize_dns_host s.
Proof.
  intros Hs. unfold normalize_dns_host, trim_end_matches. rewrite list_elem_of_In, <-in_rev, <-list_elem_of_In.
  apply drop_while_char_elem; [|done]. rewrite list_elem_of_In, <-in_rev, <-list_elem_of_In.
  apply list_elem_of_fmap. by exists 42%Z.
Qed.
Lemma normalize_host_star s r : trim s = 42%Z :: r → 42%Z ∈ normalize_host s.
Proof.
  intros Hs. unfold normalize_host. rewrite Hs. cbn [Z.eqb Pos.eqb]. cbv zeta.
  case_match; apply normalize_dns_host_star; [|by left]. unfold before. cbn [split_once Z.eqb Pos.eqb].
  destruct (split_once 58 r) as [[x y]|]; by left.
Qed.

Lemma canonical_not_star e h r : canonical h → normalize_host e = h → trim e ≠ 42%Z :: r.
Proof.
  intros (Hp & _) <- Ht. apply normalize_host_star in Ht. unfold plain in Hp. rewrite forallb_forall in Hp.
  apply list_elem_of_In in Ht. by apply Hp in Ht.
Qed.

Lemma canonical_pattern e h : canonical h → normalize_host e = h → normalize_pattern e = h.
Proof.
  intros Hc He. pose proof (λ r, canonical_not_star e h r Hc He) as Hns. unfold normalize_pattern. cbv zeta.
  destruct (str_eqb (trim e) $"*") eqn:E1; [apply str_eqb_eq in E1; by apply Hns in E1|].
  destruct (strip_prefix $"**." (trim e)) as [d|] eqn:E2; [apply strip_prefix_Some in E2; by apply Hns in E2|].
  destruct (strip_prefix $"*." (trim e)) as [d|] eqn:E3; [apply strip_prefix_Some in E3; by apply Hns in E3|].
  rewrite <-He. unfold normalize_host. by rewrite trim_idemp.
Qed.

(** An entry that names a host puts it into the compiled set. *)
Lemma listed_host_matches rej ps set e h :
  compile_patterns rej ps [] [] = Ok set → e ∈ ps → canonical h → normalize_host e = h →
  set_is_match set h = true.
Proof.
  intros Hc He Hh Hn. apply existsb_exists. exists h. split; [|by apply plain_match; [apply Hh|]].
  apply list_elem_of_In. eapply compile_patterns_elem; [done|by intros ? ?%elem_of_nil|]. right. exists e.
  split; [done|]. rewrite (canonical_pattern e h), canonical_expand by done. by apply list_elem_of_singleton.
Qed.

Lemma raise_deny_elem p l : entry p PDeny ∈ raise p PDeny l.
Proof.
  induction l as [|[q k] l IH]; cbn [raise pattern permission]; [by left|]. case_match eqn:E; [|by right].
  apply str_eqb_eq in E as ->. by destruct k; cbn; left.
Qed.

Lemma upsert_denied cfg host norm :
  host ∈ default [] (denied_domains (upsert_domain_permission cfg host PDeny norm)).
Proof.
  unfold denied_domains, domain_entries, upsert_domain_permission, with_domains, some_unless_empty. cbn [domains].
  set (l := List.filter _ _). destruct (is_empty (l ++ [entry host PDeny])) eqn:E.
  { apply is_empty_true in E. by destruct l. }
  unfold effective_entries. rewrite fold_left_app. cbn [fold_left pattern permission].
  set (es := raise _ _ _).
  assert (Hin : host ∈ pattern <$> List.filter (λ e, bool_decide (permission e = PDeny)) es).
  { apply list_elem_of_fmap. exists (entry host PDeny). split; [done|]. apply list_elem_of_In, filter_In.
    split; [apply list_elem_of_In, raise_deny_elem|done]. }
  clear E. destruct (is_empty (pattern <$> _)) eqn:E'; [|exact Hin]. apply is_empty_true in E'. rewrite E' in Hin. by apply elem_of_nil in Hin.
Qed.

(** What [add_denied_domain] leaves behind, if nothing else touches the state,
    blocks the host it was called with, whether the host was already listed or
    not: for a name without brackets, spaces or wildcards. *)
Theorem added_denial_blocks s input h port r :
  state_ok s → parse_host input = Some h → canonical h →
  prepare_update h ListDeny s = Ok r →
  host_blocked (default s r) input port = Blocked Denied.
Proof.
  intros Hs Hi Hh Hp. unfold host_blocked. rewrite Hi.
  enough (Hm : set_is_match (deny_set (default s r)) h = true) by by rewrite Hm.
  assert (Hr : state_ok (default s r)) by (destruct r as [n|]; [by apply prepare_update_ok in Hp|done]).
  assert (He : ∃ e, e ∈ default [] (denied_domains (config (default s r))) ∧ normalize_host e = h).
  { revert Hp. unfold prepare_update. cbv zeta. destruct (_ && _) eqn:Eh.
    - intros [= <-]. apply andb_true_iff in Eh as [Eh _]. apply existsb_exists in Eh as (e & He & Hn).
      exists e. split; [by apply list_elem_of_In|by apply str_eqb_eq].
    - intros Hp. inv_result. exists h. split; [|apply Hh]. cbn [default with_log config id].
      match goal with E : build_config_state _ _ = Ok _ |- _ => apply build_config_ok in E as (Hc & _) end.
      rewrite Hc. apply upsert_denied. }
  destruct He as (e & He & Hn), Hr as (_ & Hd & _). by eapply listed_host_matches.
Qed.
End Denials.

(** ** Runs *)
Definition demo_crates : NetCrates :=
  {| glob_ok := λ _, true; glob_match := λ p h, to_ascii_lowercase h =?s to_ascii_lowercase p; url_host := Some |}.
#[local] Existing Instance demo_crates.
Definition demo_debug : DebugFormat := {| debug_strings := λ l, List.concat l; debug_mode := λ _, $"mode" |}.
#[local] Existing Instance demo_debug.
Definition demo_net_host : NetHost :=
  {| BlockedRequest := nat; Mitm := (); mitm_new := λ _, Ok (); lookup_host := λ _ _, Some [];
     fs_canonicalize := Some; host_home := None; host_dir := Some $"/w"; is_macos := false |}.
#[local] Existing Instance demo_net_host.
Lemma demo_laws : GlobLaws demo_crates.
Proof. intros p h _. apply str_eqb_eq. Qed.

Definition demo_settings : NetworkProxySettings :=
  {| enabled := true; proxy_url := $"http://127.0.0.1:3128"; enable_socks5 := true;
     socks_url := $"http://127.0.0.1:8081"; enable_socks5_udp := true; allow_upstream_proxy := true;
     dangerously_allow_non_loopback_proxy := false; dangerously_allow_all_unix_sockets := false; mode := Limited;
     domains := Some [entry $"example.com" PAllow; entry $"Bad.example.com" PDeny]; unix_sockets := None;
     allow_local_binding := false; mitm := false |}.
Definition demo_constraints : NetworkProxyConstraints :=
  {| c_enabled := Some true; c_mode := Some Limited; c_allow_upstream_proxy := None;
     c_dangerously_allow_non_loopback_proxy := Some false; c_dangerously_allow_all_unix_sockets := None;
     c_allowed_domains := Some [ $"**.example.com" ]; allowlist_expansion_enabled := None;
     c_denied_domains := Some [ $"bad.example.com" ]; denylist_expansion_enabled := Some true;
     c_allow_unix_sockets := None; c_allow_local_binding := None |}.
Definition demo_state : ConfigState :=
  {| config := demo_settings; allow_set := [ $"example.com" ]; deny_set := [ $"bad.example.com" ]; mitm_state := None;
     constraints := demo_constraints; blocked := []; blocked_total := 0 |}.

Definition demo_request : BlockedRequest := 7.

Lemma demo_state_ok : state_ok demo_state.
Proof. split_and!; vm_compute; reflexivity. Qed.

(** A host is denied and the mode is changed against the constraints. *)
Definition demo_run : System :=
  {| shared := demo_state; tasks := [Finished (Err $"network.mode constrained by managed config")] |}.
Lemma managed_constraints_hold_witness :
  rtc (sys_step (λ _, False)) {| shared := demo_state; tasks := [] |} demo_run ∧ state_ok (shared demo_run).
Proof.
  assert (Hr : rtc (sys_step (λ _, False)) {| shared := demo_state; tasks := [] |} demo_run).
  { eapply rtc_l; [by apply (step_begin _ _ _ (SetNetworkMode Full))|].
    eapply rtc_l; [by eapply (step_run _ _ _ 0 (Reload (SetNetworkMode Full)) (Ok None))|].
    eapply rtc_l; [by eapply (step_run _ _ _ 0 (Ready (SetNetworkMode Full)) (Ok None))|].
    match goal with |- rtc _ ?a ?b => replace a with b by (vm_compute; reflexivity) end. constructor. }
  split; [exact Hr|]. apply (managed_constraints_hold (λ _, False) demo_state demo_run); [done|exact demo_state_ok|exact Hr].
Defined.

Definition demo_denied : ConfigState :=
  match prepare_update $"evil.com" ListDeny demo_state with Ok (Some n) => n | _ => demo_state end.
Lemma added_denial_blocks_witness :
  demo_denied ≠ demo_state ∧ host_blocked demo_denied $"EVIL.com:443" 443 = Blocked Denied.
Proof.
  split; [intros Heq; apply (f_equal (λ s, length (deny_set s))) in Heq; vm_compute in Heq; discriminate Heq|].
  apply (@added_denial_blocks _ _ _ demo_laws demo_state $"EVIL.com:443" $"evil.com" 443 (Some demo_denied)).
  - exact demo_state_ok.
  - vm_compute; reflexivity.
  - split_and!; [vm_compute; reflexivity..|done].
  - vm_compute; reflexivity.
Defined.

Lemma blocked_log_is_recent_witness :
  blocked (fold_left (λ s e, record_blocked e s) [4; 5; 6] demo_state) = [4; 5; 6].
Proof.
  destruct (blocked_log_is_recent demo_state [4; 5; 6]) as [Hb _]; [reflexivity|vm_compute; split; discriminate|].
  exact Hb.
Defined.

(** ** Two ways the log forgets *)

(** A request that is blocked while a change of the lists is prepared is recorded,
    and the change then puts back the log it read before. *)
Theorem concurrent_update_forgets_requests :
  ∃ y y', rtc (sys_step (λ _, False)) {| shared := demo_state; tasks := [] |} y ∧
    blocked (shared y) = [demo_request] ∧ blocked_total (shared y) = 1%Z ∧
    sys_step (λ _, False) y y' ∧ blocked (shared y') = [] ∧ blocked_total (shared y') = 0%Z.
Proof.
  eexists. eexists. split.
  - eapply rtc_l; [by apply (step_begin _ _ _ (UpdateDomainList $"evil.com" ListDeny))|].
    eapply rtc_l; [by apply (step_begin _ _ _ (RecordBlocked demo_request))|].
    eapply rtc_l; [by eapply (step_run _ _ _ 0 (Reload (UpdateDomainList $"evil.com" ListDeny)) (Ok None))|].
    eapply rtc_l; [by eapply (step_run _ _ _ 0 (Ready (UpdateDomainList $"evil.com" ListDeny)) (Ok None))|].
    eapply rtc_l; [by eapply (step_run _ _ _ 1 (Reload (RecordBlocked demo_request)) (Ok None))|].
    eapply rtc_l; [by eapply (step_run _ _ _ 1 (Ready (RecordBlocked demo_request)) (Ok None))|].
    apply rtc_refl.
  - split; [vm_compute; reflexivity|]. split; [vm_compute; reflexivity|].
    split; [by eapply (step_run _ _ _ 0 (Prepared $"evil.com" ListDeny demo_state demo_denied) (Ok None))|].
    split; vm_compute; reflexivity.
Qed.

(** [force_reload] keeps the requests but not their count, which
    [reload_if_needed] and [replace_config_state] keep. *)
Theorem force_reload_resets_total :
  let s := record_blocked demo_request demo_state in
  blocked (force_reload (Ok demo_state) s).2 = [demo_request] ∧ blocked_total (force_reload (Ok demo_state) s).2 = 0%Z ∧
  blocked_total (replace_config_state demo_state s) = 1%Z.
Proof. split_and!; reflexivity. Qed.
End NetTasks.
