(* ===== verification/ExecApproval.v ===== *)
(** * ExecApproval: whether a command runs, is put to the user or is refused

    Models codex-rs/core/src/exec_policy.rs: a command is cut into the simple
    commands it consists of (ShellScript), each is checked against the rules
    (ExecPolicy) or, if none matches, against the built-in heuristics
    (CommandSafety) and the approval settings; and the manager of the rules, which
    loads them from the layers of the configuration and amends them.

    Targets other than Windows.  The shell grammar, the PowerShell parser, shlex,
    the Starlark evaluator and the file system are parameters. *)

From S2P Require Import Prelude AbsPath ExecPolicy PolicyLanguage ShellScript CommandSafety FsPolicy FsPolicyFacts PatchSafety.

Module Approval.
Import ExecPolicy.

(** ** Data *)
Inductive SandboxPermissions := UseDefault | RequireEscalated | WithAdditionalPermissions.
Definition requires_escalated_permissions (p : SandboxPermissions) : bool :=
  match p with RequireEscalated => true | _ => false end.
Definition requests_sandbox_override (p : SandboxPermissions) : bool :=
  match p with UseDefault => false | _ => true end.

(** [ExecPolicyAmendment]: the prefix it would allow. *)
Definition ExecPolicyAmendment := list rstring.

Inductive ExecApprovalRequirement :=
| Skip (bypass_sandbox : bool) (proposed_execpolicy_amendment : option ExecPolicyAmendment)
| NeedsApproval (reason : option rstring) (proposed_execpolicy_amendment : option ExecPolicyAmendment)
| Refused (reason : rstring).

Record ExecApprovalRequest := {
  command : list rstring;
  approval_policy : PatchSafety.AskForApproval;
  permission_profile : PatchSafety.PermissionProfile;
  file_system_sandbox_policy : FsPolicy.FileSystemSandboxPolicy;
  sandbox_cwd : rstring;
  sandbox_permissions : SandboxPermissions;
  requested_prefix : option (list rstring)
}.

Definition PROMPT_CONFLICT_REASON : rstring :=
  $"approval required by policy, but AskForApproval is set to Never".
Definition REJECT_SANDBOX_APPROVAL_REASON : rstring :=
  $"approval required by policy, but AskForApproval::Granular.sandbox_approval is false".
Definition REJECT_RULES_APPROVAL_REASON : rstring :=
  $"approval required by policy rule, but AskForApproval::Granular.rules is false".
Definition RULES_DIR_NAME : rstring := $"rules".
Definition RULE_EXTENSION : rstring := $"rules".
Definition DEFAULT_POLICY_FILE : rstring := $"default.rules".
Definition BANNED_PREFIX_SUGGESTIONS : list (list rstring) :=
  [[ $"python3"]; [ $"python3"; $"-"]; [ $"python3"; $"-c"]; [ $"python"]; [ $"python"; $"-"]; [ $"python"; $"-c"];
   [ $"py"]; [ $"py"; $"-3"]; [ $"pythonw"]; [ $"pyw"]; [ $"pypy"]; [ $"pypy3"]; [ $"git"]; [ $"bash"];
   [ $"bash"; $"-lc"]; [ $"sh"]; [ $"sh"; $"-c"]; [ $"sh"; $"-lc"]; [ $"zsh"]; [ $"zsh"; $"-lc"]; [ $"/bin/zsh"];
   [ $"/bin/zsh"; $"-lc"]; [ $"/bin/bash"]; [ $"/bin/bash"; $"-lc"]; [ $"pwsh"]; [ $"pwsh"; $"-Command"];
   [ $"pwsh"; $"-c"]; [ $"powershell"]; [ $"powershell"; $"-Command"]; [ $"powershell"; $"-c"];
   [ $"powershell.exe"]; [ $"powershell.exe"; $"-Command"]; [ $"powershell.exe"; $"-c"]; [ $"env"]; [ $"sudo"];
   [ $"node"]; [ $"node"; $"-e"]; [ $"perl"]; [ $"perl"; $"-e"]; [ $"ruby"]; [ $"ruby"; $"-e"]; [ $"php"];
   [ $"php"; $"-r"]; [ $"lua"]; [ $"lua"; $"-e"]; [ $"osascript"]].

Definition is_policy_match (m : RuleMatch) : bool :=
  match m with PrefixRuleMatch _ _ _ _ => true | HeuristicsRuleMatch _ _ => false end.
Definition policy_match_with (d : Decision) (m : RuleMatch) : bool :=
  is_policy_match m && bool_decide (match_decision m = d).

Definition prompt_is_rejected_by_policy (policy : PatchSafety.AskForApproval) (prompt_is_rule : bool)
  : option rstring :=
  match policy with
  | PatchSafety.Never => Some PROMPT_CONFLICT_REASON
  | PatchSafety.OnFailure | PatchSafety.OnRequest | PatchSafety.UnlessTrusted => None
  | PatchSafety.Granular c =>
      if prompt_is_rule then
        if negb (PatchSafety.rules c) then Some REJECT_RULES_APPROVAL_REASON else None
      else if negb (PatchSafety.sandbox_approval c) then Some REJECT_SANDBOX_APPROVAL_REASON
      else None
  end.

Definition try_derive_execpolicy_amendment_for_prompt_rules (ms : list RuleMatch) : option ExecPolicyAmendment :=
  if existsb (policy_match_with Prompt) ms then None
  else head (omap (λ m, match m with HeuristicsRuleMatch cmd Prompt => Some cmd | _ => None end) ms).
Definition try_derive_execpolicy_amendment_for_allow_rules (ms : list RuleMatch) : option ExecPolicyAmendment :=
  if existsb is_policy_match ms then None
  else head (omap (λ m, match m with HeuristicsRuleMatch cmd Allow => Some cmd | _ => None end) ms).

(** [cfg!(windows)]. *)
Definition cfg_windows : bool := false.

Section Manager.
Context {H : FsPolicy.Host}.
Context (try_parse_shell : rstring → option Shell.tree).
Context (parse_with_powershell_ast : rstring → rstring → Safety.PowershellParseOutcome).
Context (linux : bool).
Context (shlex_try_join : list rstring → option rstring).

(** ** Commands no rule matches *)
Definition profile_is_managed_read_only (profile : PatchSafety.PermissionProfile)
    (fs : FsPolicy.FileSystemSandboxPolicy) (cwd : rstring) : bool :=
  match profile with PatchSafety.Managed _ _ => true | _ => false end
  && match FsPolicy.kind fs with FsPolicy.Restricted => true | _ => false end
  && negb (FsPolicy.has_full_disk_write_access fs)
  && is_empty (FsPolicy.get_writable_roots_with_cwd fs cwd).

Definition unmatched_in_sandbox (fs : FsPolicy.FileSystemSandboxPolicy) (perms : SandboxPermissions) : Decision :=
  match FsPolicy.kind fs with
  | FsPolicy.Unrestricted | FsPolicy.ExternalSandbox => Allow
  | FsPolicy.Restricted => if requests_sandbox_override perms then Prompt else Allow
  end.

Definition render_decision_for_unmatched_command (policy : PatchSafety.AskForApproval)
    (profile : PatchSafety.PermissionProfile) (fs : FsPolicy.FileSystemSandboxPolicy) (cwd : rstring)
    (cmd : list rstring) (perms : SandboxPermissions) (used_complex_parsing : bool) : Decision :=
  if Safety.is_known_safe_command parse_with_powershell_ast try_parse_shell linux cmd && negb used_complex_parsing
  then Allow
  else
    let environment_lacks_sandbox_protections := cfg_windows && profile_is_managed_read_only profile fs cwd in
    if Safety.command_might_be_dangerous try_parse_shell cmd || environment_lacks_sandbox_protections then
      match policy with
      | PatchSafety.Never =>
          match profile with
          | PatchSafety.ProfileDisabled | PatchSafety.External _ => Allow
          | PatchSafety.Managed _ _ => Forbidden
          end
      | _ => Prompt
      end
    else
      match policy with
      | PatchSafety.Never | PatchSafety.OnFailure => Allow
      | PatchSafety.UnlessTrusted => Prompt
      | PatchSafety.OnRequest | PatchSafety.Granular _ => unmatched_in_sandbox fs perms
      end.

Definition commands_for_exec_policy (command : list rstring) : list (list rstring) * bool :=
  let rest :=
    match Shell.parse_shell_lc_single_command_prefix try_parse_shell command with
    | Some single_command => ([single_command], true)
    | None => ([command], false)
    end in
  match Shell.parse_shell_lc_plain_commands try_parse_shell command with
  | Some commands => if is_empty commands then rest else (commands, false)
  | None => rest
  end.

Definition match_options : MatchOptions := {| resolve_host_executables := true |}.
Abbreviation check_one := (check_with_options FsPolicy.home_dir FsPolicy.process_dir).
Abbreviation check_all := (check_multiple_with_options FsPolicy.home_dir FsPolicy.process_dir).
Abbreviation matches_of := (matches_for_command_with_options FsPolicy.home_dir FsPolicy.process_dir).

(** ** Reasons *)
Definition render_shlex_command (args : list rstring) : rstring :=
  default (join $" " args) (shlex_try_join args).
Definition tick (s : rstring) : rstring := $"`" ++ s ++ $"`".

Definition derive_prompt_reason (args : list rstring) (e : Evaluation) : option rstring :=
  let cmd := render_shlex_command args in
  match FsPolicy.max_by_key (λ x, (x.1, 0))
          (omap (λ m, match m with
                      | PrefixRuleMatch prefix Prompt _ j => Some (length prefix, j)
                      | _ => None
                      end) (matched_rules e)) with
  | Some (_, Some j) => Some (tick cmd ++ $" requires approval: " ++ j)
  | Some (_, None) => Some (tick cmd ++ $" requires approval by policy")
  | None => None
  end.

Definition derive_forbidden_reason (args : list rstring) (e : Evaluation) : rstring :=
  let cmd := render_shlex_command args in
  match FsPolicy.max_by_key (λ x : list rstring * option rstring, (length x.1, 0))
          (omap (λ m, match m with
                      | PrefixRuleMatch prefix Forbidden _ j => Some (prefix, j)
                      | _ => None
                      end) (matched_rules e)) with
  | Some (_, Some j) => tick cmd ++ $" rejected: " ++ j
  | Some (prefix, None) =>
      tick cmd ++ $" rejected: policy forbids commands starting with " ++ tick (render_shlex_command prefix)
  | None => tick cmd ++ $" rejected: blocked by policy"
  end.

(** ** Suggested amendments *)
Definition allows_command (p : Policy) (fallback : list rstring → Decision) (cmd : list rstring) : bool :=
  match check_one p cmd fallback match_options with
  | Some e => bool_decide (eval_decision e = Allow)
  | None => false
  end.

Definition prefix_rule_would_approve_all_commands (p : Policy) (prefix : list rstring)
    (commands : list (list rstring)) (fallback : list rstring → Decision) : bool :=
  match add_prefix_rule p prefix Allow with
  | Err _ => false
  | Ok p' => forallb (allows_command p' fallback) commands
  end.

Definition derive_requested_execpolicy_amendment_from_prefix_rule (prefix_rule : option (list rstring))
    (ms : list RuleMatch) (p : Policy) (commands : list (list rstring)) (fallback : list rstring → Decision)
  : option ExecPolicyAmendment :=
  match prefix_rule with
  | None => None
  | Some prefix =>
      if is_empty prefix then None
      else if existsb (λ banned, bool_decide (banned = prefix)) BANNED_PREFIX_SUGGESTIONS then None
      else if existsb is_policy_match ms then None
      else if prefix_rule_would_approve_all_commands p prefix commands fallback then Some prefix else None
  end.

(** ** The requirement *)
Definition fallback_for (req : ExecApprovalRequest) (used_complex_parsing : bool) (cmd : list rstring) : Decision :=
  render_decision_for_unmatched_command (approval_policy req) (permission_profile req)
    (file_system_sandbox_policy req) (sandbox_cwd req) cmd (sandbox_permissions req) used_complex_parsing.

(** [None] is the panic of an evaluation without matches. *)
Definition create_exec_approval_requirement_for_command (p : Policy) (req : ExecApprovalRequest)
  : option ExecApprovalRequirement :=
  let '(commands, used_complex_parsing) := commands_for_exec_policy (command req) in
  let auto_amendment_allowed := negb used_complex_parsing in
  let fallback := fallback_for req used_complex_parsing in
  evaluation ← check_all p commands fallback match_options;
  let ms := matched_rules evaluation in
  let requested_amendment :=
    derive_requested_execpolicy_amendment_from_prefix_rule (requested_prefix req) ms p commands fallback in
  Some match eval_decision evaluation with
       | Forbidden => Refused (derive_forbidden_reason (command req) evaluation)
       | Prompt =>
           let prompt_is_rule := existsb (policy_match_with Prompt) ms in
           match prompt_is_rejected_by_policy (approval_policy req) prompt_is_rule with
           | Some reason => Refused reason
           | None =>
               NeedsApproval (derive_prompt_reason (command req) evaluation)
                 match requested_amendment with
                 | Some a => Some a
                 | None => if auto_amendment_allowed
                           then try_derive_execpolicy_amendment_for_prompt_rules ms else None
                 end
           end
       | Allow =>
           Skip (forallb (λ cmd, existsb (policy_match_with Allow) (matches_of p cmd None match_options)) commands)
             (if auto_amendment_allowed then try_derive_execpolicy_amendment_for_allow_rules ms else None)
       end.

(** ** The manager *)
Inductive ExecPolicyUpdateError :=
| AppendRule (path : rstring) (source : PolicyLanguage.AmendError)
| AppendIo (path : rstring) (source : rstring)
| AddRule (source : Error).

(** The rules in memory and the text of the default rules file. *)
Record ExecPolicyManager := { current : Policy; rules_file : rstring }.

Definition default_policy_path (codex_home : rstring) : rstring :=
  Path.push (Path.push codex_home RULES_DIR_NAME) DEFAULT_POLICY_FILE.

Context (json_string : rstring → rstring) (debug_strings : list rstring → rstring).

(** Appends to the rules file; [io] is an error of the file system, met before
    anything is written. *)
Definition append_to_file (path : rstring) (io : option rstring)
    (appended : result rstring PolicyLanguage.AmendError) : result rstring ExecPolicyUpdateError :=
  match appended, io with
  | Err e, _ => Err (AppendRule path e)
  | Ok _, Some e => Err (AppendIo path e)
  | Ok contents, None => Ok contents
  end.

Definition already_allowed (p : Policy) (a : ExecPolicyAmendment) : bool :=
  match check_all p [a] (λ _, Forbidden) match_options with
  | Some e => bool_decide (eval_decision e = Allow) && existsb (policy_match_with Allow) (matched_rules e)
  | None => false
  end.

Definition append_amendment_and_update (codex_home : rstring) (io : option rstring) (a : ExecPolicyAmendment)
    (m : ExecPolicyManager) : result () ExecPolicyUpdateError * ExecPolicyManager :=
  match append_to_file (default_policy_path codex_home) io
          (PolicyLanguage.blocking_append_allow_prefix_rule json_string (rules_file m) a) with
  | Err e => (Err e, m)
  | Ok contents =>
      let m := {| current := current m; rules_file := contents |} in
      if already_allowed (current m) a then (Ok (), m)
      else match add_prefix_rule (current m) a Allow with
           | Err e => (Err (AddRule e), m)
           | Ok p => (Ok (), {| current := p; rules_file := contents |})
           end
  end.

Definition append_network_rule_and_update (codex_home : rstring) (io : option rstring) (host : rstring)
    (proto : NetworkRuleProtocol) (d : Decision) (j : option rstring) (m : ExecPolicyManager)
  : result () ExecPolicyUpdateError * ExecPolicyManager :=
  match append_to_file (default_policy_path codex_home) io
          (PolicyLanguage.blocking_append_network_rule json_string debug_strings (rules_file m) host proto d j) with
  | Err e => (Err e, m)
  | Ok contents =>
      match add_network_rule (current m) host proto d j with
      | Err e => (Err (AddRule e), {| current := current m; rules_file := contents |})
      | Ok p => (Ok (), {| current := p; rules_file := contents |})
      end
  end.

(** ** Loading *)
Inductive IoErr := NotFound | OtherIo (m : rstring).
Inductive ExecPolicyError :=
| ReadDir (dir : rstring) (source : IoErr)
| ReadFile (path : rstring) (source : IoErr)
| ParsePolicy (path : rstring) (source : Error).

(** The file system, as the loader sees it: a directory is its entries, each read
    or failing, with its type. *)
Class RulesFs := {
  fs_read_dir : rstring → result (list (result (rstring * result bool IoErr) IoErr)) IoErr;
  fs_read_to_string : rstring → result rstring IoErr
}.
Context {F : RulesFs}.

(** A layer of the configuration that is not disabled. *)
Record ConfigLayer := { user_or_project : bool; config_folder : option rstring }.
Record ConfigLayerStack := {
  layers_lowest_first : list ConfigLayer;
  ignore_user_and_project_exec_policy_rules : bool;
  requirements_exec_policy : option Policy
}.

(** [Path::extension]. *)
Definition extension (p : rstring) : option rstring :=
  name ← Path.file_name p;
  match rsplit_once 46 name with
  | Some (stem, ext) => if is_empty stem then None else Some ext
  | None => None
  end.
Definition has_rules_extension (p : rstring) : bool :=
  match extension p with Some e => e =?s RULE_EXTENSION | None => false end.

Fixpoint read_entries (dir : rstring) (es : list (result (rstring * result bool IoErr) IoErr))
  : result (list rstring) ExecPolicyError :=
  match es with
  | [] => Ok []
  | e :: es' =>
      let? entry := map_err (ReadDir dir) e in
      let? is_file := map_err (ReadDir dir) entry.2 in
      let? ps := read_entries dir es' in
      Ok (if has_rules_extension entry.1 && is_file then entry.1 :: ps else ps)
  end.

Definition collect_policy_files (dir : rstring) : result (list rstring) ExecPolicyError :=
  match fs_read_dir dir with
  | Err NotFound => Ok []
  | Err e => Err (ReadDir dir e)
  | Ok es => let? ps := read_entries dir es in Ok (FsPolicy.sort_by FsPolicy.path_leb ps)
  end.

Definition layer_is_read (stack : ConfigLayerStack) (l : ConfigLayer) : bool :=
  negb (ignore_user_and_project_exec_policy_rules stack && user_or_project l).
Definition layer_policy_paths (l : ConfigLayer) : result (list rstring) ExecPolicyError :=
  match config_folder l with
  | Some folder => collect_policy_files (Path.push folder RULES_DIR_NAME)
  | None => Ok []
  end.

(** Starlark: the calls that a file makes, or the error of evaluating it. *)
Context (starlark : rstring → rstring → result (list PolicyLanguage.Call) Error).
Context (shlex_split : rstring → option (list rstring)).
Context (debug_rule : PrefixRule → rstring) (debug_match : RuleMatch → rstring).
Abbreviation parse_calls := (PolicyLanguage.parse FsPolicy.home_dir FsPolicy.process_dir shlex_split shlex_try_join
                               debug_rule debug_match).

Fixpoint parse_files (b : PolicyLanguage.PolicyBuilder) (paths : list rstring)
  : result PolicyLanguage.PolicyBuilder ExecPolicyError :=
  match paths with
  | [] => Ok b
  | path :: paths' =>
      let? contents := map_err (ReadFile path) (fs_read_to_string path) in
      let? calls := map_err (ParsePolicy path) (starlark path contents) in
      match parse_calls b calls with
      | (Err e, _) => Err (ParsePolicy path e)
      | (Ok _, b) => parse_files b paths'
      end
  end.

Definition load_exec_policy (stack : ConfigLayerStack) : result Policy ExecPolicyError :=
  let? paths := collect_results layer_policy_paths
                  (List.filter (layer_is_read stack) (layers_lowest_first stack)) in
  let? b := parse_files PolicyLanguage.new_builder (concat paths) in
  let p := PolicyLanguage.build b in
  Ok match requirements_exec_policy stack with
     | None => p
     | Some r => merge_overlay p r
     end.

Definition load_exec_policy_with_warning (stack : ConfigLayerStack)
  : result (Policy * option ExecPolicyError) ExecPolicyError :=
  match load_exec_policy stack with
  | Ok p => Ok (p, None)
  | Err (ParsePolicy path e) => Ok (empty_policy, Some (ParsePolicy path e))
  | Err e => Err e
  end.
End Manager.

(** ** Properties *)
Section Facts.
Context {H : FsPolicy.Host}.
Context (try_parse_shell : rstring → option Shell.tree).
Context (parse_with_powershell_ast : rstring → rstring → Safety.PowershellParseOutcome).
Context (linux : bool) (shlex_try_join : list rstring → option rstring).

Abbreviation create := (create_exec_approval_requirement_for_command try_parse_shell parse_with_powershell_ast linux
                          shlex_try_join).
Abbreviation fallback := (fallback_for try_parse_shell parse_with_powershell_ast linux).
Abbreviation matches_of := (matches_for_command_with_options FsPolicy.home_dir FsPolicy.process_dir).

(** The simple commands of a request, the rules that match one, and what counts
    as its matches: those rules or else the built-in decision. *)
Definition segments (req : ExecApprovalRequest) : list (list rstring) :=
  (commands_for_exec_policy try_parse_shell (command req)).1.
Definition complex (req : ExecApprovalRequest) : bool :=
  (commands_for_exec_policy try_parse_shell (command req)).2.
Definition rules_for (p : Policy) (seg : list rstring) : list RuleMatch := matches_of p seg None match_options.
Definition segment_matches (p : Policy) (req : ExecApprovalRequest) (seg : list rstring) : list RuleMatch :=
  matches_of p seg (Some (fallback req (complex req))) match_options.

Lemma segments_nonempty req : segments req ≠ [].
Proof.
  unfold segments, commands_for_exec_policy. destruct (Shell.parse_shell_lc_plain_commands _ _) as [cs|];
    [destruct (is_empty cs) eqn:E; [|by apply is_empty_false in E]|];
    by destruct (Shell.parse_shell_lc_single_command_prefix _ _).
Qed.

Lemma segment_matches_eq p req seg :
  segment_matches p req seg =
  match rules_for p seg with [] => [HeuristicsRuleMatch seg (fallback req (complex req) seg)] | ms => ms end.
Proof.
  unfold segment_matches, rules_for, matches_for_command_with_options.
  by destruct (nonempty_or _ _).
Qed.

Lemma rule_matches_policy r cmd m : rule_matches r cmd = Some m → is_policy_match m = true.
Proof. unfold rule_matches. by destruct (matches_prefix _ _); intros; simplify_eq. Qed.

Lemma rules_are_policy p seg m : m ∈ rules_for p seg → is_policy_match m = true.
Proof.
  unfold rules_for, matches_for_command_with_options. cbn [match_options resolve_host_executables].
  intros Hm. assert (Hm' : (∃ ms, match_exact_rules p seg = Some ms ∧ m ∈ ms) ∨
    m ∈ match_host_executable_rules FsPolicy.home_dir FsPolicy.process_dir p seg).
  { destruct (match_exact_rules p seg) as [[|x ms]|]; cbn [nonempty_or] in Hm; [|left; eauto|];
      by right; destruct (match_host_executable_rules _ _ p seg). }
  destruct Hm' as [(ms & Hms & Hin)|Hin].
  - rewrite match_exact_default in Hms. destruct seg as [|f args]; simplify_eq.
    apply list_elem_of_omap in Hin as (r & _ & Hr). by eapply rule_matches_policy.
  - apply match_host_elem in Hin as (f & args & prog & base & -> & _ & _ & _ & r & _ & m' & Hr & ->).
    apply rule_matches_policy in Hr. by destruct m'.
Qed.

(** The evaluation behind a requirement. *)
Lemma evaluation_spec p req :
  ∃ e, check_multiple_with_options FsPolicy.home_dir FsPolicy.process_dir p (segments req)
         (fallback req (complex req)) match_options = Some e ∧
    matched_rules e = concat (segment_matches p req <$> segments req) ∧
    strictest (matched_rules e) (eval_decision e).
Proof.
  unfold check_multiple_with_options.
  destruct (from_matches_strictest (concat (segment_matches p req <$> segments req))) as (e & He & Hm & Hs).
  { apply concat_nonempty; [|apply segments_nonempty]. intros cmd. apply matches_nonempty. }
  exists e. rewrite Hm. done.
Qed.

Lemma elem_of_segments p req m :
  m ∈ concat (segment_matches p req <$> segments req) ↔ ∃ seg, seg ∈ segments req ∧ m ∈ segment_matches p req seg.
Proof.
  rewrite list_elem_of_In, in_concat. setoid_rewrite <-list_elem_of_In. split.
  - intros (ms & Hms & Hin). apply list_elem_of_fmap in Hms as (seg & -> & Hseg). eauto.
  - intros (seg & Hseg & Hin). eexists. split; [|done]. apply list_elem_of_fmap. eauto.
Qed.

Definition some_segment (p : Policy) (req : ExecApprovalRequest) (d : Decision) : Prop :=
  ∃ seg m, seg ∈ segments req ∧ m ∈ segment_matches p req seg ∧ match_decision m = d.

Lemma decision_spec p req e :
  matched_rules e = concat (segment_matches p req <$> segments req) →
  strictest (matched_rules e) (eval_decision e) →
  match eval_decision e with
  | Allow => ¬ some_segment p req Forbidden ∧ ¬ some_segment p req Prompt
  | Prompt => ¬ some_segment p req Forbidden ∧ some_segment p req Prompt
  | Forbidden => some_segment p req Forbidden
  end.
Proof.
  intros Hm [(m & Hin & Hd) Hall]. rewrite Hm in *.
  assert (Hn : ∀ d, some_segment p req d → decision_rank d ≤ decision_rank (eval_decision e)).
  { intros d (seg & m' & Hseg & Hm' & <-). apply Hall, elem_of_segments. eauto. }
  apply elem_of_segments in Hin as (seg & Hseg & Hin).
  assert (Hs : some_segment p req (eval_decision e)) by (exists seg, m; auto).
  destruct (eval_decision e); [split; intros Hx%Hn; cbn in Hx; lia|split; [intros Hx%Hn; cbn in Hx; lia|done]|done].
Qed.

Lemma elem_segment_rules p req seg m :
  m ∈ rules_for p seg → m ∈ segment_matches p req seg.
Proof. intros Hm. rewrite segment_matches_eq. destruct (rules_for p seg); [by apply elem_of_nil in Hm|done]. Qed.

Lemma allowed_by_rule p req seg :
  ¬ some_segment p req Forbidden → ¬ some_segment p req Prompt → seg ∈ segments req →
  existsb (policy_match_with Allow) (rules_for p seg) = true ↔ rules_for p seg ≠ [].
Proof.
  intros Hf Hp Hseg. rewrite existsb_exists. split.
  - intros (m & Hm & _) Hnil. rewrite Hnil in Hm. done.
  - intros Hne. destruct (rules_for p seg) as [|m ms] eqn:E; [done|]. exists m. split; [by left|].
    assert (Hm : m ∈ rules_for p seg) by (rewrite E; by left).
    unfold policy_match_with. rewrite (rules_are_policy p seg m Hm). apply bool_decide_eq_true.
    apply (elem_segment_rules p req) in Hm.
    destruct (match_decision m) eqn:Ed; [done|destruct Hp|destruct Hf]; exists seg, m; auto.
Qed.

Definition prompted_by_rule (p : Policy) (req : ExecApprovalRequest) : Prop :=
  ∃ seg m, seg ∈ segments req ∧ m ∈ rules_for p seg ∧ match_decision m = Prompt.
Lemma prompt_is_rule_spec p req :
  existsb (policy_match_with Prompt) (concat (segment_matches p req <$> segments req)) = true ↔ prompted_by_rule p req.
Proof.
  rewrite existsb_exists. split.
  - intros (m & Hin%list_elem_of_In & Hpm). apply elem_of_segments in Hin as (seg & Hseg & Hin).
    exists seg, m. unfold policy_match_with in Hpm. apply andb_true_iff in Hpm as [Hpm Hpd].
    apply bool_decide_eq_true in Hpd. split_and!; [done| |done]. rewrite segment_matches_eq in Hin.
    destruct (rules_for p seg); [|done]. apply list_elem_of_singleton in Hin as ->. done.
  - intros (seg & m & Hseg & Hin & Hpd). exists m. split.
    { apply list_elem_of_In, elem_of_segments. exists seg. split; [done|]. by apply elem_segment_rules. }
    unfold policy_match_with. rewrite (rules_are_policy p seg m Hin). by apply bool_decide_eq_true.
Qed.

(** Whether the approval settings let a prompt through. *)
Definition prompt_rejected (p : Policy) (req : ExecApprovalRequest) (rejected : bool) : Prop :=
  ∃ by_rule : bool, (by_rule = true ↔ prompted_by_rule p req) ∧
    rejected = bool_decide (is_Some (prompt_is_rejected_by_policy (approval_policy req) by_rule)).

(** C10: what becomes of a command, on every branch, and that there is always an
    answer.  It is refused exactly when a rule or the built-in heuristics forbid
    one of its simple commands, or one needs a prompt that the approval settings
    rule out; it is put to the user exactly when one needs a prompt that they
    allow; and it runs without asking exactly when every simple command is
    allowed, outside the sandbox exactly when a rule matches each of them. *)
Theorem requirement_spec p req :
  ∃ r, create p req = Some r ∧
  match r with
  | Refused _ =>
      some_segment p req Forbidden ∨
      (¬ some_segment p req Forbidden ∧ some_segment p req Prompt ∧ prompt_rejected p req true)
  | NeedsApproval _ _ =>
      ¬ some_segment p req Forbidden ∧ some_segment p req Prompt ∧ prompt_rejected p req false
  | Skip bypass _ =>
      ¬ some_segment p req Forbidden ∧ ¬ some_segment p req Prompt ∧
      (bypass = true ↔ ∀ seg, seg ∈ segments req → rules_for p seg ≠ [])
  end.
Proof.
  destruct (evaluation_spec p req) as (e & He & Hm & Hs). pose proof (decision_spec p req e Hm Hs) as Hd.
  unfold create_exec_approval_requirement_for_command.
  assert (Ec : commands_for_exec_policy try_parse_shell (command req) = (segments req, complex req))
    by apply surjective_pairing.
  rewrite Ec, He. cbn [mbind option_bind]. eexists. split; [done|].
  destruct (eval_decision e) eqn:Ed.
  - destruct Hd as [Hf Hp]. split; [exact Hf|]. split; [exact Hp|]. rewrite forallb_forall.
    split; intros Hx seg Hseg.
    + apply (allowed_by_rule p req seg Hf Hp Hseg). apply Hx. by apply list_elem_of_In.
    + apply list_elem_of_In in Hseg. by apply (allowed_by_rule p req seg Hf Hp Hseg), Hx.
  - destruct Hd as [Hf Hp]. rewrite Hm. set (by_rule := existsb _ _).
    assert (Hb : by_rule = true ↔ prompted_by_rule p req) by apply prompt_is_rule_spec.
    destruct (prompt_is_rejected_by_policy _ by_rule) as [reason|] eqn:Er; [right|].
    all: split; [exact Hf|]; split; [exact Hp|]; exists by_rule; split; [exact Hb|]; by rewrite Er.
  - by left.
Qed.


(** ** Amendments *)
Lemma create_skip p req :
  (∃ b a, create p req = Some (Skip b a)) ↔ ¬ some_segment p req Forbidden ∧ ¬ some_segment p req Prompt.
Proof.
  destruct (evaluation_spec p req) as (e & He & Hm & Hs). pose proof (decision_spec p req e Hm Hs) as Hd.
  unfold create_exec_approval_requirement_for_command.
  rewrite (surjective_pairing (commands_for_exec_policy try_parse_shell (command req))).
  change (commands_for_exec_policy try_parse_shell (command req)).1 with (segments req).
  change (commands_for_exec_policy try_parse_shell (command req)).2 with (complex req).
  rewrite He. cbn [mbind option_bind]. destruct (eval_decision e).
  - split; [done|eauto].
  - split; [|by intros [_ Hn]; destruct Hn; apply Hd].
    intros (b & a & Hc). by destruct (prompt_is_rejected_by_policy _ _).
  - split; [by intros (b & a & Hc)|]. by intros [Hn _]; destruct Hn.
Qed.

Lemma create_skip_bypass p req a :
  create p req = Some (Skip true a) → ∀ seg, seg ∈ segments req → rules_for p seg ≠ [].
Proof.
  intros Hc seg Hseg. destruct (proj1 (create_skip p req)) as [Hf Hp]; [eauto|].
  apply (allowed_by_rule p req seg Hf Hp Hseg). revert Hc.
  unfold create_exec_approval_requirement_for_command.
  rewrite (surjective_pairing (commands_for_exec_policy try_parse_shell (command req))).
  destruct (check_multiple_with_options _ _ _ _ _ _) as [e|]; [|done]. cbn [mbind option_bind].
  destruct (eval_decision e); [|by destruct (prompt_is_rejected_by_policy _ _)|done].
  intros [= Hb _]. rewrite forallb_forall in Hb. by apply Hb, list_elem_of_In.
Qed.

(** A rule allows the command and none says otherwise. *)
Definition allowed_by_rules (p : Policy) (seg : list rstring) : Prop :=
  rules_for p seg ≠ [] ∧ ∀ m, m ∈ rules_for p seg → match_decision m = Allow.
Lemma skip_allowed_by_rules p req b a seg :
  create p req = Some (Skip b a) → seg ∈ segments req → rules_for p seg ≠ [] → allowed_by_rules p seg.
Proof.
  intros Hc Hseg Hr. destruct (proj1 (create_skip p req)) as [Hf Hp]; [eauto|]. split; [done|].
  intros m Hm. destruct (match_decision m) eqn:Ed; [done|exfalso; apply Hp|exfalso; apply Hf];
    exists seg, m; split_and!; try done; by apply elem_segment_rules.
Qed.

(** What the built-in decision allows when the sandbox is asked to step aside. *)
Lemma skip_with_override p req b a seg :
  create p req = Some (Skip b a) → seg ∈ segments req → rules_for p seg = [] →
  approval_policy req = PatchSafety.OnRequest → requests_sandbox_override (sandbox_permissions req) = true →
  Safety.is_known_safe_command parse_with_powershell_ast try_parse_shell linux seg = true ∨
  FsPolicy.kind (file_system_sandbox_policy req) ≠ FsPolicy.Restricted ∧
  Safety.command_might_be_dangerous try_parse_shell seg = false.
Proof.
  intros Hc Hseg Hr Hpol Hperm. destruct (proj1 (create_skip p req)) as [Hf Hp]; [eauto|].
  destruct (Safety.is_known_safe_command _ _ _ _) eqn:Es; [by left|]. right.
  assert (Hnp : fallback req (complex req) seg ≠ Prompt).
  { intros Hx. apply Hp. exists seg, (HeuristicsRuleMatch seg (fallback req (complex req) seg)). split; [done|].
    rewrite segment_matches_eq, Hr. split; [by apply list_elem_of_singleton|done]. }
  unfold fallback_for, render_decision_for_unmatched_command in Hnp. rewrite Es, Hpol in Hnp. cbn [andb] in Hnp.
  destruct (Safety.command_might_be_dangerous _ _); [done|]. cbn [orb] in Hnp. destruct (_ && _); [done|].
  unfold unmatched_in_sandbox in Hnp. rewrite Hperm in Hnp. by destruct (FsPolicy.kind _).
Qed.

Lemma some_segment_no p req d :
  (∀ seg m, seg ∈ segments req → m ∈ segment_matches p req seg → match_decision m ≠ d) → ¬ some_segment p req d.
Proof. intros Hn (seg & m & Hseg & Hm & Hd). by eapply Hn. Qed.

Lemma allows_command_matches p req seg :
  allows_command p (fallback req (complex req)) seg = true →
  ∀ m, m ∈ segment_matches p req seg → match_decision m = Allow.
Proof.
  unfold allows_command, check_with_options. intros Ha m Hm.
  destruct (from_matches_strictest _ (matches_nonempty FsPolicy.home_dir FsPolicy.process_dir p seg
    (fallback req (complex req)) match_options)) as (e & He & Hms & _ & Hall).
  rewrite He in Ha. apply bool_decide_eq_true in Ha. specialize (Hall m Hm). rewrite Ha in Hall.
  by destruct (match_decision m); cbn in Hall; [|lia..].
Qed.

Lemma create_skip_allows p req :
  Forall (λ seg, allows_command p (fallback req (complex req)) seg = true) (segments req) →
  ∃ b a, create p req = Some (Skip b a).
Proof.
  intros Hall. rewrite Forall_forall in Hall. apply create_skip.
  split; apply some_segment_no; intros seg m Hseg Hm; by rewrite (allows_command_matches p req seg (Hall seg Hseg) m Hm).
Qed.

(** A rule added for a command that no rule matched is the only one to match it. *)
Lemma added_rule_allows p seg p' f :
  add_prefix_rule p seg Allow = Ok p' → rules_for p seg = [] → allows_command p' f seg = true.
Proof.
  intros Ha Hnone. destruct seg as [|tok rest]; [done|].
  destruct (add_prefix_rule_exact _ _ _ _ _ [] Ha) as (ms & Hms & Hin). rewrite app_nil_r in Hms.
  assert (Hall : ∀ m, m ∈ ms → match_decision m = Allow).
  { injection Ha as <-. rewrite match_exact_default in Hms. cbn [rules_by_program] in Hms.
    rewrite multimap_insert_lookup, omap_app in Hms.
    assert (Hold : omap (λ r, rule_matches r (tok :: rest)) (default [] (rules_by_program p !! tok)) = []).
    { revert Hnone. unfold rules_for, matches_for_command_with_options. rewrite match_exact_default.
      by destruct (omap _ (default [] (rules_by_program p !! tok))). }
    rewrite Hold in Hms. injection Hms as <-. intros m Hm. cbn in Hm. unfold rule_matches in Hm.
    destruct (matches_prefix _ _); [|by apply elem_of_nil in Hm]. by apply list_elem_of_singleton in Hm as ->. }
  assert (Hne : ms ≠ []) by (intros ->; by apply elem_of_nil in Hin).
  unfold allows_command, check_with_options. rewrite (matches_exact _ _ _ _ _ _ _ Hms Hne).
  destruct (from_matches_strictest ms Hne) as (e & -> & _ & (m & Hm & Hd) & _).
  apply bool_decide_eq_true. rewrite <-Hd. by apply Hall.
Qed.

Lemma requested_approves pr ms p cs f a :
  derive_requested_execpolicy_amendment_from_prefix_rule pr ms p cs f = Some a →
  prefix_rule_would_approve_all_commands p a cs f = true.
Proof.
  unfold derive_requested_execpolicy_amendment_from_prefix_rule. destruct pr as [prefix|]; [|done].
  destruct (is_empty prefix); [done|]. destruct (existsb _ BANNED_PREFIX_SUGGESTIONS); [done|].
  destruct (existsb _ ms); [done|].
  destruct (prefix_rule_would_approve_all_commands _ _ _ _) eqn:Ew; [|done]. by intros [= <-].
Qed.

(** The amendment proposed with a prompt for one simple command. *)
Lemma proposed_single p req seg r a :
  segments req = [seg] → create p req = Some (NeedsApproval r (Some a)) →
  prefix_rule_would_approve_all_commands p a [seg] (fallback req (complex req)) = true ∨
  (a = seg ∧ rules_for p seg = []).
Proof.
  intros Hseg. destruct (evaluation_spec p req) as (e & He & Hm & _).
  unfold create_exec_approval_requirement_for_command.
  rewrite (surjective_pairing (commands_for_exec_policy try_parse_shell (command req))).
  change (commands_for_exec_policy try_parse_shell (command req)).1 with (segments req).
  change (commands_for_exec_policy try_parse_shell (command req)).2 with (complex req).
  rewrite He. cbn [mbind option_bind]. rewrite Hm, Hseg. cbn [fmap list_fmap concat]. rewrite app_nil_r.
  destruct (eval_decision e); [done| |done]. destruct (prompt_is_rejected_by_policy _ _); [done|].
  set (auto := if negb (complex req) then _ else None).
  assert (Hauto : auto = Some a → a = seg ∧ rules_for p seg = []).
  { subst auto. destruct (complex req); [done|]. cbn [negb].
    unfold try_derive_execpolicy_amendment_for_prompt_rules. case_match; [done|].
    rewrite segment_matches_eq. destruct (rules_for p seg) as [|m ms] eqn:Er.
    - cbn. by destruct (fallback_for _ _ _ _ _ _); cbn; intros [= <-].
    - intros Hh. apply head_Some_elem_of, list_elem_of_omap in Hh as (m' & Hm' & Hx).
      rewrite <-Er in Hm'. apply rules_are_policy in Hm'. by destruct m'. }
  destruct (derive_requested_execpolicy_amendment_from_prefix_rule _ _ _ _ _) as [a'|] eqn:Er.
  - intros [= _ <-]. left. by eapply requested_approves.
  - intros [= _ Ha]. right. by apply Hauto.
Qed.

(** An amendment that is proposed with a prompt ends the prompting: once the
    manager has taken it, the same request runs without asking.  This holds for a
    command that is one simple command, and for any command if the amendment is
    the prefix that was asked for. *)
Theorem amendment_ends_prompting json home m req r a m' :
  create (current m) req = Some (NeedsApproval r (Some a)) →
  length (segments req) = 1 ∨
  prefix_rule_would_approve_all_commands (current m) a (segments req) (fallback req (complex req)) = true →
  already_allowed (current m) a = false →
  append_amendment_and_update json home None a m = (Ok (), m') →
  ∃ b x, create (current m') req = Some (Skip b x).
Proof.
  intros Hc Hone Hna Happ. apply create_skip_allows.
  assert (Hp : add_prefix_rule (current m) a Allow = Ok (current m')).
  { revert Happ. unfold append_amendment_and_update. destruct (append_to_file _ _ _); [|done]. cbn [current].
    rewrite Hna. by destruct (add_prefix_rule (current m) a Allow); intros [= <-]. }
  assert (Hw : prefix_rule_would_approve_all_commands (current m) a (segments req) (fallback req (complex req)) = true
    ∨ ∃ seg, segments req = [seg] ∧ a = seg ∧ rules_for (current m) seg = []).
  { destruct Hone as [Hone|]; [|by left]. destruct (segments req) as [|seg [|]] eqn:Es; try done.
    destruct (proposed_single _ _ _ _ _ Es Hc) as [|[-> Hr]]; [by left|right; eauto]. }
  destruct Hw as [Hw|(seg & -> & <- & Hr)].
  - unfold prefix_rule_would_approve_all_commands in Hw. rewrite Hp in Hw. apply Forall_forall.
    intros seg Hseg%list_elem_of_In. by eapply forallb_forall in Hw.
  - apply Forall_singleton. by eapply added_rule_allows.
Qed.

(** ** What runs unattended *)

(** A simple command that no rule matches runs without asking only if the
    built-in list knows it to be safe, or if it is not flagged as dangerous and
    the approval settings rely on the sandbox; a dangerous one only if prompts are
    off and so is the sandbox; and with approval for everything untrusted only if
    the list knows it. *)
Theorem unattended_commands p req b a seg :
  create p req = Some (Skip b a) → seg ∈ segments req → rules_for p seg = [] →
  Safety.is_known_safe_command parse_with_powershell_ast try_parse_shell linux seg = true ∧ complex req = false ∨
  approval_policy req ≠ PatchSafety.UnlessTrusted ∧
  (Safety.command_might_be_dangerous try_parse_shell seg = false ∨
   approval_policy req = PatchSafety.Never ∧ ∀ fs net, permission_profile req ≠ PatchSafety.Managed fs net).
Proof.
  intros Hc Hseg Hr. destruct (proj1 (create_skip p req)) as [Hf Hp]; [eauto|].
  assert (Ha : fallback req (complex req) seg = Allow).
  { destruct (fallback req (complex req) seg) eqn:Ef; [done|destruct Hp|destruct Hf];
      exists seg, (HeuristicsRuleMatch seg (fallback req (complex req) seg));
      (split; [done|]); rewrite segment_matches_eq, Hr; split; [by apply list_elem_of_singleton|done|
        by apply list_elem_of_singleton|done]. }
  revert Ha. unfold fallback_for, render_decision_for_unmatched_command.
  destruct (Safety.is_known_safe_command _ _ _ _) eqn:Es, (complex req) eqn:Ex; cbn [andb negb]; [|by left| |];
    (destruct (Safety.command_might_be_dangerous _ _); cbn [orb];
     [destruct (approval_policy req) eqn:Ep; [done..|]; destruct (permission_profile req); [done|..];
      intros _; right; (split; [done|]); by right
     |destruct (approval_policy req) eqn:Ep; [done|..]; intros _; right; (split; [done|]); by left]).
Qed.

(** ** Managed requirements *)
Lemma match_exact_overlay_right base overlay cmd ms :
  match_exact_rules overlay cmd = Some ms →
  ∃ before, match_exact_rules (merge_overlay base overlay) cmd = Some (before ++ ms).
Proof.
  rewrite !match_exact_default. destruct cmd as [|f args]; [done|]. intros [= <-].
  cbn [merge_overlay rules_by_program]. rewrite union_with_lookup, omap_app. eauto.
Qed.

(** Rules that are required by the managed configuration hold whatever the
    rules files say, if those files load: a command that starts with a required
    rule's prefix is decided at least as strictly as the rule says. *)
Theorem requirements_enforced {F : RulesFs} starlark split drule dmatch stack p r cmd ms m f opts e :
  load_exec_policy shlex_try_join starlark split drule dmatch stack = Ok p →
  requirements_exec_policy stack = Some r →
  match_exact_rules r cmd = Some ms → m ∈ ms →
  check_with_options FsPolicy.home_dir FsPolicy.process_dir p cmd f opts = Some e →
  decision_rank (match_decision m) ≤ decision_rank (eval_decision e).
Proof.
  intros Hl Hr Hms Hm He.
  assert (Hp : ∃ base, p = merge_overlay base r).
  { unfold load_exec_policy in Hl. inv_result. rewrite Hr. eauto. }
  destruct Hp as [base ->]. destruct (match_exact_overlay_right base r cmd ms Hms) as [before Ho].
  assert (Hne : before ++ ms ≠ []) by (intros Hx; apply app_nil in Hx as [_ ->]; by apply elem_of_nil in Hm).
  unfold check_with_options in He. rewrite (matches_exact _ _ _ _ _ _ _ Ho Hne) in He.
  destruct (from_matches_strictest _ Hne) as (e' & He' & _ & _ & Hall). rewrite He' in He. injection He as <-.
  apply Hall. apply elem_of_app. by right.
Qed.
End Facts.

(** ** Runs *)
#[local] Existing Instance FsFacts.demo_host.
Definition no_powershell (_ _ : rstring) : Safety.PowershellParseOutcome := Safety.Failed.
Abbreviation demo_create := (create_exec_approval_requirement_for_command (λ _, None) no_powershell true (λ _, None)).

Definition demo_req (cmd : list rstring) (prefix : option (list rstring)) : ExecApprovalRequest :=
  {| command := cmd; approval_policy := PatchSafety.UnlessTrusted;
     permission_profile := PatchSafety.Managed PatchSafety.MUnrestricted FsPolicy.NetRestricted;
     file_system_sandbox_policy := FsFacts.demo_policy; sandbox_cwd := $"/w"; sandbox_permissions := UseDefault;
     requested_prefix := prefix |}.
Definition demo_manager : ExecPolicyManager := {| current := demo_policy; rules_file := [] |}.
Definition demo_json (s : rstring) : rstring := s.
Definition demo_amended : ExecPolicyManager :=
  (append_amendment_and_update demo_json $"/h" None [ $"cargo"; $"build" ] demo_manager).2.

Lemma amendment_ends_prompting_witness :
  ∃ b x, demo_create (current demo_amended) (demo_req [ $"cargo"; $"build" ] None) = Some (Skip b x).
Proof.
  apply (amendment_ends_prompting (λ _, None) no_powershell true (λ _, None) demo_json $"/h" demo_manager
           (demo_req [ $"cargo"; $"build" ] None) None [ $"cargo"; $"build" ] demo_amended).
  - vm_compute. reflexivity.
  - left. vm_compute. reflexivity.
  - vm_compute. reflexivity.
  - vm_compute. reflexivity.
Defined.

Lemma unattended_commands_witness :
  Safety.is_known_safe_command no_powershell (λ _, None) true [ $"ls" ] = true.
Proof.
  destruct (unattended_commands (λ _, None) no_powershell true (λ _, None) demo_policy (demo_req [ $"ls" ] None)
              false (Some [ $"ls" ]) [ $"ls" ]) as [[Hs _]|[Hn _]].
  - vm_compute. reflexivity.
  - vm_compute. constructor.
  - vm_compute. reflexivity.
  - exact Hs.
  - vm_compute in Hn. destruct Hn. reflexivity.
Defined.

(** A rules file of the user and a requirement that forbids curl. *)
Definition demo_rules_fs (text : rstring) : RulesFs := {|
  fs_read_dir d := if d =?s $"/h/rules" then Ok [Ok ($"/h/rules/default.rules", Ok true)] else Err NotFound;
  fs_read_to_string _ := Ok text
|}.
Definition demo_starlark (_ text : rstring) : result (list PolicyLanguage.Call) Error :=
  if is_empty text then Ok [] else Err (StarlarkError $"parse error").
Definition forbid_curl : Policy :=
  {| rules_by_program :=
       {[ $"curl" := [ {| pattern := {| first := $"curl"; rest := [] |};
                          decision := Forbidden; justification := None |} ] ]};
     network_rules := []; host_executables_by_name := ∅ |}.
Definition demo_stack : ConfigLayerStack :=
  {| layers_lowest_first := [{| user_or_project := true; config_folder := Some $"/h" |}];
     ignore_user_and_project_exec_policy_rules := false; requirements_exec_policy := Some forbid_curl |}.
Abbreviation demo_load text :=
  (load_exec_policy (F := demo_rules_fs text) (λ _, None) demo_starlark (λ _, None) (λ _, []) (λ _, []) demo_stack).

Lemma requirements_enforced_witness :
  ∃ e, check_with_options None (Some $"/") (merge_overlay empty_policy forbid_curl) [ $"curl"; $"x" ] (λ _, Allow)
         default_options = Some e ∧ decision_rank Forbidden ≤ decision_rank (eval_decision e).
Proof.
  eexists. split; [vm_compute; reflexivity|].
  apply (requirements_enforced (F := demo_rules_fs []) (λ _, None) demo_starlark (λ _, None) (λ _, []) (λ _, [])
           demo_stack (merge_overlay empty_policy forbid_curl) forbid_curl [ $"curl"; $"x" ]
           [PrefixRuleMatch [ $"curl" ] Forbidden None None] (PrefixRuleMatch [ $"curl" ] Forbidden None None)
           (λ _, Allow) default_options).
  - vm_compute. reflexivity.
  - reflexivity.
  - vm_compute. reflexivity.
  - by left.
  - vm_compute. reflexivity.
Defined.

(** One rules file that does not parse makes the manager start from no rules at
    all, the required ones included: a command that a requirement forbids then
    runs without asking. *)
Theorem broken_rules_file_drops_requirements :
  let req := {| command := [ $"curl"; $"x" ]; approval_policy := PatchSafety.OnRequest;
                permission_profile := PatchSafety.Managed PatchSafety.MUnrestricted FsPolicy.NetRestricted;
                file_system_sandbox_policy := FsFacts.demo_policy; sandbox_cwd := $"/w";
                sandbox_permissions := UseDefault; requested_prefix := None |} in
  (∃ p r, demo_load [] = Ok p ∧ demo_create p req = Some (Refused r)) ∧
  (∃ w, load_exec_policy_with_warning (F := demo_rules_fs $"oops") (λ _, None) demo_starlark (λ _, None)
          (λ _, []) (λ _, []) demo_stack = Ok (empty_policy, Some w)) ∧
  (∃ b a, demo_create empty_policy req = Some (Skip b a)).
Proof.
  split_and!; [eexists; eexists; split; vm_compute; reflexivity|eexists; vm_compute; reflexivity|].
  eexists. eexists. vm_compute. reflexivity.
Qed.
End Approval.
