(* ===== verification/ToolRun.v ===== *)
(** * ToolRun: approval, sandbox and retry of a tool call

    Models codex-rs/core/src/tools/orchestrator.rs with the shared parts of
    codex-rs/core/src/tools/sandboxing.rs, [SandboxManager::select_initial] and
    [should_require_platform_sandbox]: a call is approved or rejected, run in the
    sandbox that the policy selects, and, if the sandbox denied it, run again
    without one after another approval.  The shell tool (runtimes/shell.rs) is
    put together with ExecApproval.

    What a tool does, the reviewers (the user, the guardian and hooks) and the
    network approvals of an attempt act on a world [W] and are parameters.  The
    steps that matter are recorded: answers of hooks and reviewers, and attempts. *)

From S2P Require Import Prelude AbsPath ExecPolicy PolicyLanguage ShellScript CommandSafety FsPolicy FsPolicyFacts PatchSafety ExecApproval.

Module ToolRun.
Import PatchSafety Approval.

(** ** Data *)
Inductive NetworkPolicyRuleAction := RuleAllow | RuleDeny.
Record NetworkPolicyAmendment := { amend_host : rstring; amend_action : NetworkPolicyRuleAction }.

Inductive ReviewDecision :=
| Approved
| ApprovedExecpolicyAmendment (a : ExecPolicyAmendment)
| ApprovedForSession
| NetworkAmended (a : NetworkPolicyAmendment)
| ReviewDenied
| TimedOut
| Abort.

Inductive SandboxOverride := NoOverride | BypassSandboxFirstAttempt.
Inductive SandboxablePreference := PreferAuto | PreferRequire | PreferForbid.
Inductive PermissionRequestDecision := HookAllow | HookDeny (message : rstring).
Inductive NetworkApprovalMode := Immediate | Deferred.

#[export] Instance review_decision_eq_dec : EqDecision ReviewDecision.
Proof.
  assert (EqDecision NetworkPolicyRuleAction) by solve_decision.
  assert (EqDecision NetworkPolicyAmendment) by solve_decision. solve_decision.
Defined.

(** Of a decision of the network policy, what decides whether it may be asked
    about. *)
Inductive NetworkPolicyDecision := NetDeny | NetAsk.
Inductive NetworkDecisionSource := BaselinePolicy | ModeGuard | ProxyState | Decider.
Inductive NetworkApprovalProtocol := ApHttp | ApHttps | ApSocks5Tcp | ApSocks5Udp.
Record NetworkPolicyDecisionPayload := {
  pd_decision : NetworkPolicyDecision;
  pd_source : NetworkDecisionSource;
  pd_protocol : option NetworkApprovalProtocol;
  pd_host : option rstring;
  pd_reason : option rstring;
  pd_port : option Z
}.
Record NetworkApprovalContext := { ctx_host : rstring; ctx_protocol : NetworkApprovalProtocol }.

Definition is_ask_from_decider (p : NetworkPolicyDecisionPayload) : bool :=
  match pd_decision p, pd_source p with NetAsk, Decider => true | _, _ => false end.
Definition network_approval_context_from_payload (p : NetworkPolicyDecisionPayload) : option NetworkApprovalContext :=
  if negb (is_ask_from_decider p) then None
  else protocol ← pd_protocol p;
       host ← pd_host p;
       let host := trim host in
       if is_empty host then None else Some {| ctx_host := host; ctx_protocol := protocol |}.

(** Errors of a tool; an output is what the denied command printed. *)
Inductive ToolError :=
| Rejected (reason : rstring)
| SandboxDenied (output : rstring) (network_policy_decision : option NetworkPolicyDecisionPayload)
| OtherError (m : rstring).

Record SandboxAttempt := {
  sandbox : SandboxType;
  permissions : PermissionProfile;
  enforce_managed_network : bool;
  attempt_cwd : rstring;
  codex_linux_sandbox_exe : option rstring;
  use_legacy_landlock : bool;
  windows_sandbox_level : WindowsSandboxLevel;
  windows_sandbox_private_desktop : bool
}.

Record ApprovalCtx := {
  call_id : rstring;
  guardian_review_id : option rstring;
  retry_reason : option rstring;
  network_approval_context : option NetworkApprovalContext
}.

(** Of the turn and the session, what the orchestrator reads. *)
Record Turn := {
  turn_call_id : rstring;
  strict_auto_review : bool;
  routes_approval_to_guardian : bool;
  turn_fs : FsPolicy.FileSystemSandboxPolicy;
  turn_network_policy : FsPolicy.NetworkSandboxPolicy;
  turn_profile : PermissionProfile;
  turn_cwd : rstring;
  managed_network_active : bool;
  turn_linux_sandbox_exe : option rstring;
  turn_legacy_landlock : bool;
  turn_windows_level : WindowsSandboxLevel;
  turn_private_desktop : bool
}.

(** ** sandboxing.rs *)
Definition default_exec_approval_requirement (policy : AskForApproval) (fs : FsPolicy.FileSystemSandboxPolicy)
  : ExecApprovalRequirement :=
  let needs_approval :=
    match policy with
    | Never | OnFailure => false
    | OnRequest | Granular _ => match FsPolicy.kind fs with FsPolicy.Restricted => true | _ => false end
    | UnlessTrusted => true
    end in
  if needs_approval && match policy with Granular c => negb (sandbox_approval c) | _ => false end
  then Refused $"approval policy disallowed sandbox approval prompt"
  else if needs_approval then NeedsApproval None None
  else Skip false None.

Definition sandbox_override_for_first_attempt (perms : SandboxPermissions) (r : ExecApprovalRequirement)
  : SandboxOverride :=
  if requires_escalated_permissions perms || match r with Skip b _ => b | _ => false end
  then BypassSandboxFirstAttempt else NoOverride.

(** The defaults of [Approvable]. *)
Definition should_bypass_approval (policy : AskForApproval) (already_approved : bool) : bool :=
  if already_approved then true else match policy with Never => true | _ => false end.
Definition wants_no_sandbox_approval (policy : AskForApproval) : bool :=
  match policy with
  | OnFailure | UnlessTrusted => true
  | Never | OnRequest => false
  | Granular c => sandbox_approval c
  end.
(** The override of the apply_patch tool. *)
Definition patch_wants_no_sandbox_approval (policy : AskForApproval) : bool :=
  match policy with
  | Never => false
  | Granular c => sandbox_approval c
  | OnFailure | OnRequest | UnlessTrusted => true
  end.

(** ** Choosing a sandbox *)
Definition should_require_platform_sandbox (fs : FsPolicy.FileSystemSandboxPolicy)
    (net : FsPolicy.NetworkSandboxPolicy) (has_managed_network_requirements : bool) : bool :=
  if has_managed_network_requirements then true
  else if negb (FsPolicy.net_is_enabled net)
  then match FsPolicy.kind fs with FsPolicy.ExternalSandbox => false | _ => true end
  else match FsPolicy.kind fs with
       | FsPolicy.Restricted => negb (FsPolicy.has_full_disk_write_access fs)
       | FsPolicy.Unrestricted | FsPolicy.ExternalSandbox => false
       end.

Definition select_initial (os : TargetOs) (fs : FsPolicy.FileSystemSandboxPolicy) (net : FsPolicy.NetworkSandboxPolicy)
    (pref : SandboxablePreference) (level : WindowsSandboxLevel) (has_managed_network_requirements : bool)
  : SandboxType :=
  let platform := default NoSandbox
    (get_platform_sandbox os (match level with LevelDisabled => false | _ => true end)) in
  match pref with
  | PreferForbid => NoSandbox
  | PreferRequire => platform
  | PreferAuto => if should_require_platform_sandbox fs net has_managed_network_requirements then platform else NoSandbox
  end.

(** ** Cached approvals *)
Section Cache.
Context {K W : Type}.
(** [serde_json::to_string] of a key. *)
Context (to_string : K → option rstring).
Abbreviation ApprovalStore := (gmap (list Z) ReviewDecision).

Definition store_get (s : ApprovalStore) (k : K) : option ReviewDecision := j ← to_string k; s !! j.
Definition store_put (k : K) (d : ReviewDecision) (s : ApprovalStore) : ApprovalStore :=
  match to_string k with Some j => <[j := d]> s | None => s end.
Definition approved_for_session (s : ApprovalStore) (k : K) : bool :=
  match store_get s k with Some ApprovedForSession => true | _ => false end.

(** [fetch] asks the user. *)
Definition with_cached_approval (keys : list K) (fetch : W → ReviewDecision * W) (s : ApprovalStore) (w : W)
  : ReviewDecision * ApprovalStore * W :=
  match keys with
  | [] => let '(d, w) := fetch w in (d, s, w)
  | _ =>
      if forallb (approved_for_session s) keys then (ApprovedForSession, s, w)
      else
        let '(d, w) := fetch w in
        (d, match d with
            | ApprovedForSession => fold_left (λ s k, store_put k ApprovedForSession s) keys s
            | _ => s
            end, w)
  end.

Lemma store_put_lookup k d s j :
  store_put k d s !! j = if decide (to_string k = Some j) then Some d else s !! j.
Proof.
  unfold store_put. destruct (to_string k) as [j'|]; [|by case_decide].
  destruct (decide (Some j' = Some j)) as [[= ->]|Hne]; [by rewrite lookup_insert_eq|].
  by rewrite lookup_insert_ne by congruence.
Qed.
Lemma put_all_lookup keys s k j :
  k ∈ keys → to_string k = Some j →
  fold_left (λ s k, store_put k ApprovedForSession s) keys s !! j = Some ApprovedForSession.
Proof.
  intros Hk Hj. induction keys as [|k' keys IH] using rev_ind; [by apply elem_of_nil in Hk|].
  rewrite fold_left_app. cbn [fold_left]. rewrite store_put_lookup. case_decide as Hd; [done|].
  apply elem_of_app in Hk as [Hk| ->%list_elem_of_singleton]; [by apply IH|done].
Qed.

(** An approval for the session is remembered for each of its keys, and
    nothing else is: afterwards a request for any of those keys is approved
    without asking, and after any other answer the store is what it was. *)
Theorem session_approval_remembered keys fetch s w d s' w' keys' fetch' :
  with_cached_approval keys fetch s w = (d, s', w') → keys ≠ [] →
  keys' ≠ [] → (∀ k, k ∈ keys' → k ∈ keys ∧ is_Some (to_string k)) →
  if decide (d = ApprovedForSession)
  then ∀ w2, with_cached_approval keys' fetch' s' w2 = (ApprovedForSession, s', w2)
  else s' = s.
Proof.
  intros Hc Hk Hk' Hsub. unfold with_cached_approval in Hc. destruct keys as [|k0 ks] eqn:Ek; [done|]. rewrite <-Ek in *.
  assert (Hall : d = ApprovedForSession → ∀ k, k ∈ keys → is_Some (to_string k) → approved_for_session s' k = true).
  { intros -> k Hin [j Hj]. unfold approved_for_session, store_get. rewrite Hj. cbn [mbind option_bind].
    destruct (forallb (approved_for_session s) keys) eqn:Ea.
    - injection Hc as <- _. rewrite forallb_forall in Ea. apply list_elem_of_In in Hin. specialize (Ea k Hin).
      unfold approved_for_session, store_get in Ea. by rewrite Hj in Ea.
    - destruct (fetch w) as [d' w1]. destruct d'; simplify_eq. by rewrite (put_all_lookup _ _ k j). }
  destruct (decide (d = ApprovedForSession)) as [->|Hd].
  - intros w2. unfold with_cached_approval. destruct keys' as [|k1 ks'] eqn:Ek'; [done|]. rewrite <-Ek' in *.
    assert (Hf : forallb (approved_for_session s') keys' = true).
    { apply forallb_forall. intros k Hin%list_elem_of_In. destruct (Hsub k Hin). by apply Hall. }
    by rewrite Hf.
  - destruct (forallb _ keys); [by simplify_eq|]. destruct (fetch w) as [d' w1]. by destruct d'; simplify_eq.
Qed.
End Cache.

(** ** The orchestrator *)
Section Orchestrator.
Context {Req Out W : Type}.

(** [ToolRuntime], with [Approvable] and [Sandboxable]. *)
Record ToolRuntime := {
  exec_approval_requirement : Req → option ExecApprovalRequirement;
  sandbox_mode_for_first_attempt : Req → SandboxOverride;
  bypasses_approval : AskForApproval → bool → bool;
  wants_approval_without_sandbox : AskForApproval → bool;
  has_permission_request_payload : Req → bool;
  start_approval : Req → ApprovalCtx → W → ReviewDecision * W;
  sandbox_preference : SandboxablePreference;
  escalate_on_failure : bool;
  (** whether the attempt has a managed network, and how its approval ends *)
  network_approval_spec : Req → option (bool * NetworkApprovalMode);
  run_tool : Req → SandboxAttempt → W → result Out ToolError * W
}.

(** ** Network approval of one attempt (network_approval.rs) *)
Inductive NetworkApprovalOutcome := DeniedByUser | DeniedByPolicy (message : rstring).
Record ActiveNetworkApproval := { registration_id : option rstring; approval_mode : NetworkApprovalMode }.
Definition into_deferred (a : ActiveNetworkApproval) : option rstring :=
  match approval_mode a, registration_id a with Deferred, Some id => Some id | _, _ => None end.

Class Session := {
  new_guardian_review_id : W → rstring * W;
  guardian_rejection_message : rstring → W → rstring * W;
  guardian_timeout_message : rstring;
  run_permission_request_hooks : rstring → W → option PermissionRequestDecision * W;
  (** the calls under network approval: a fresh one, what was decided, its end *)
  register_call : W → rstring * W;
  take_call_outcome : rstring → W → option NetworkApprovalOutcome * W;
  unregister_call : rstring → W → W
}.
Context {S : Session}.

Definition begin_network_approval (managed : bool) (spec : option (bool * NetworkApprovalMode)) (w : W)
  : option ActiveNetworkApproval * W :=
  match spec with
  | None => (None, w)
  | Some (has_network, mode) =>
      if negb managed || negb has_network then (None, w)
      else let '(id, w) := register_call w in
           (Some {| registration_id := Some id; approval_mode := mode |}, w)
  end.
Definition finish_immediate_network_approval (a : ActiveNetworkApproval) (w : W) : result () ToolError * W :=
  match registration_id a with
  | None => (Ok (), w)
  | Some id =>
      let '(outcome, w) := take_call_outcome id w in
      let w := unregister_call id w in
      (match outcome with
       | Some DeniedByUser => Err (Rejected $"rejected by user")
       | Some (DeniedByPolicy message) => Err (Rejected message)
       | None => Ok ()
       end, w)
  end.
Definition finish_deferred_network_approval (deferred : option rstring) (w : W) : W :=
  match deferred with Some id => unregister_call id w | None => w end.

(** What happened. *)
Inductive Event :=
| Hooked (d : PermissionRequestDecision)
| Reviewed (d : ReviewDecision)
| Attempted (a : SandboxAttempt).

(** Steps that may fail, change the world and are recorded. *)
Definition M (A : Type) := W → result A ToolError * W * list Event.
Definition ret {A} (x : A) : M A := λ w, (Ok x, w, []).
Definition fail {A} (e : ToolError) : M A := λ w, (Err e, w, []).
Definition act {A} (f : W → A * W) : M A := λ w, let '(x, w) := f w in (Ok x, w, []).
Definition emit (e : Event) : M () := λ w, (Ok (), w, [e]).
Definition bind {A B} (m : M A) (k : A → M B) : M B := λ w,
  match m w with
  | (Err e, w, tr) => (Err e, w, tr)
  | (Ok x, w, tr) => let '(r, w, tr') := k x w in (r, w, tr ++ tr')
  end.
Notation "'let!' x := e 'in' k" := (bind e (λ x, k)) (at level 100, x name, e at level 200, k at level 200, right associativity).

Definition run_attempt (tool : ToolRuntime) (req : Req) (a : SandboxAttempt) (managed : bool)
  : M (result Out ToolError * option rstring) :=
  let! active := act (begin_network_approval managed (network_approval_spec tool req)) in
  let! _ := emit (Attempted a) in
  let! run_result := act (run_tool tool req a) in
  match active with
  | None => ret (run_result, None)
  | Some n =>
      match approval_mode n with
      | Immediate =>
          let! finalize_result := act (finish_immediate_network_approval n) in
          match finalize_result with
          | Err e => ret (Err e, None)
          | Ok _ => ret (run_result, None)
          end
      | Deferred =>
          let deferred := into_deferred n in
          match run_result with
          | Err e =>
              let! _ := act (λ w, ((), finish_deferred_network_approval deferred w)) in ret (Err e, None)
          | Ok out => ret (Ok out, deferred)
          end
      end
  end.

Definition review (tool : ToolRuntime) (req : Req) (c : ApprovalCtx) : M ReviewDecision :=
  let! decision := act (start_approval tool req c) in
  let! _ := emit (Reviewed decision) in
  ret decision.

Definition request_approval (tool : ToolRuntime) (req : Req) (run_id : rstring) (c : ApprovalCtx)
    (evaluate_hooks : bool) : M ReviewDecision :=
  if evaluate_hooks && has_permission_request_payload tool req then
    let! answer := act (run_permission_request_hooks run_id) in
    match answer with
    | Some HookAllow => let! _ := emit (Hooked HookAllow) in ret Approved
    | Some (HookDeny message) => let! _ := emit (Hooked (HookDeny message)) in fail (Rejected message)
    | None => review tool req c
    end
  else review tool req c.

Definition reject_if_not_approved (review_id : option rstring) (d : ReviewDecision) : M () :=
  match d with
  | ReviewDenied | Abort =>
      match review_id with
      | Some id => let! reason := act (guardian_rejection_message id) in fail (Rejected reason)
      | None => fail (Rejected $"rejected by user")
      end
  | TimedOut => fail (Rejected guardian_timeout_message)
  | Approved | ApprovedExecpolicyAmendment _ | ApprovedForSession => ret ()
  | NetworkAmended a =>
      match amend_action a with
      | RuleAllow => ret ()
      | RuleDeny => fail (Rejected $"rejected by user")
      end
  end.

Definition review_id_if (b : bool) : M (option rstring) :=
  if b then let! id := act new_guardian_review_id in ret (Some id) else ret None.

(** Asks, and fails unless the answer is yes. *)
Definition ask (tool : ToolRuntime) (req : Req) (t : Turn) (run_id : rstring) (by_guardian : bool)
    (reason : option rstring) (net : option NetworkApprovalContext) (evaluate_hooks : bool) : M () :=
  let! id := review_id_if by_guardian in
  let c := {| call_id := turn_call_id t; guardian_review_id := id; retry_reason := reason;
              network_approval_context := net |} in
  let! decision := request_approval tool req run_id c evaluate_hooks in
  reject_if_not_approved id decision.

Definition build_denial_reason_from_output (output : rstring) : rstring := $"command failed; retry without sandbox?".

Definition attempt_in (t : Turn) (s : SandboxType) (exe : option rstring) : SandboxAttempt :=
  {| sandbox := s; permissions := turn_profile t; enforce_managed_network := managed_network_active t;
     attempt_cwd := turn_cwd t; codex_linux_sandbox_exe := exe; use_legacy_landlock := turn_legacy_landlock t;
     windows_sandbox_level := turn_windows_level t; windows_sandbox_private_desktop := turn_private_desktop t |}.

(** The first part of [run]; the result says whether an approval was given. *)
Definition approve (tool : ToolRuntime) (req : Req) (t : Turn) (policy : AskForApproval) : M bool :=
  let use_guardian := routes_approval_to_guardian t || strict_auto_review t in
  match default (default_exec_approval_requirement policy (turn_fs t)) (exec_approval_requirement tool req) with
  | Skip _ _ =>
      if strict_auto_review t
      then let! _ := ask tool req t (turn_call_id t) true None None false in ret true
      else ret false
  | Refused reason => fail (Rejected reason)
  | NeedsApproval reason _ =>
      let! _ := ask tool req t (turn_call_id t) use_guardian reason None (negb (strict_auto_review t)) in ret true
  end.

(** What follows when the sandbox denied the first attempt. *)
Definition retry (tool : ToolRuntime) (req : Req) (t : Turn) (policy : AskForApproval) (already_approved : bool)
    (output : rstring) (npd : option NetworkPolicyDecisionPayload) : M (Out * option rstring) :=
  let use_guardian := routes_approval_to_guardian t || strict_auto_review t in
  let denied := SandboxDenied output npd in
  let net := if managed_network_active t then npd ≫= network_approval_context_from_payload else None in
  if match npd, net with Some _, None => true | _, _ => false end then fail denied
  else if negb (escalate_on_failure tool) then fail denied
  else
    let allow_on_request_network_prompt :=
      match policy with OnRequest => true | _ => false end
      && bool_decide (is_Some net)
      && match default_exec_approval_requirement policy (turn_fs t) with NeedsApproval _ _ => true | _ => false end in
    if negb (wants_approval_without_sandbox tool policy) && negb allow_on_request_network_prompt then fail denied
    else
      let reason := match net with
                    | Some c => $"Network access to " ++ [34%Z] ++ ctx_host c ++ [34%Z] ++ $" is blocked by policy."
                    | None => build_denial_reason_from_output output
                    end in
      let bypass_retry_approval :=
        negb (strict_auto_review t) && bypasses_approval tool policy already_approved
        && negb (bool_decide (is_Some net)) in
      let! _ := (if bypass_retry_approval then ret ()
                 else ask tool req t (turn_call_id t ++ $":retry") use_guardian (Some reason) net
                        (negb (strict_auto_review t))) in
      let! r := run_attempt tool req (attempt_in t NoSandbox None) (managed_network_active t) in
      match r with
      | (Ok out, deferred) => ret (out, deferred)
      | (Err e, _) => fail e
      end.

Definition run (os : TargetOs) (tool : ToolRuntime) (req : Req) (t : Turn) (policy : AskForApproval)
  : M (Out * option rstring) :=
  let! already_approved := approve tool req t policy in
  let initial_sandbox :=
    match sandbox_mode_for_first_attempt tool req with
    | BypassSandboxFirstAttempt => NoSandbox
    | NoOverride => select_initial os (turn_fs t) (turn_network_policy t) (sandbox_preference tool)
                      (turn_windows_level t) (managed_network_active t)
    end in
  let! r := run_attempt tool req (attempt_in t initial_sandbox (turn_linux_sandbox_exe t)) (managed_network_active t) in
  match r with
  | (Ok out, deferred) => ret (out, deferred)
  | (Err (SandboxDenied output npd), _) => retry tool req t policy already_approved output npd
  | (Err e, _) => fail e
  end.

(** ** Lemmas *)
Definition is_attempt (e : Event) : bool := match e with Attempted _ => true | _ => false end.
Definition no_attempt (tr : list Event) : Prop := Forall (λ e, is_attempt e = false) tr.
Definition approving (e : Event) : bool :=
  match e with
  | Hooked HookAllow => true
  | Reviewed (Approved | ApprovedExecpolicyAmendment _ | ApprovedForSession) => true
  | Reviewed (NetworkAmended a) => match amend_action a with RuleAllow => true | RuleDeny => false end
  | _ => false
  end.
Definition consent (tr : list Event) : Prop := Exists (λ e, approving e = true) tr.

(** What a step gives and records, in every world. *)
Definition gives {A} (m : M A) (P : result A ToolError → list Event → Prop) : Prop :=
  ∀ w, P (m w).1.1 (m w).2.

Lemma gives_mono {A} (m : M A) (P Q : result A ToolError → list Event → Prop) :
  gives m P → (∀ r tr, P r tr → Q r tr) → gives m Q.
Proof. intros Hm HPQ w. by apply HPQ. Qed.
Lemma gives_bind {A B} (m : M A) (k : A → M B) (Q : result A ToolError → list Event → Prop)
    (P : result B ToolError → list Event → Prop) :
  gives m Q → (∀ e tr, Q (Err e) tr → P (Err e) tr) →
  (∀ x tr, Q (Ok x) tr → gives (k x) (λ r tr', P r (tr ++ tr'))) → gives (bind m k) P.
Proof.
  intros Hm He Hk w. unfold bind. specialize (Hm w). destruct (m w) as [[[x|e] w'] tr] eqn:E; cbn in *; [|auto].
  specialize (Hk x tr Hm w'). destruct (k x w') as [[r w''] tr']. done.
Qed.
Lemma gives_ret {A} (x : A) (P : result A ToolError → list Event → Prop) : P (Ok x) [] → gives (ret x) P.
Proof. by intros HP w. Qed.
Lemma gives_fail {A} e (P : result A ToolError → list Event → Prop) : P (Err e) [] → gives (fail e) P.
Proof. by intros HP w. Qed.
Lemma gives_act {A} (f : W → A * W) : gives (act f) (λ r tr, (∃ x, r = Ok x) ∧ tr = []).
Proof. intros w. unfold act. destruct (f w). cbn. eauto. Qed.
Lemma gives_emit e : gives (emit e) (λ r tr, r = Ok () ∧ tr = [e]).
Proof. by intros w. Qed.

(** A silent step, and a recorded one. *)
Lemma gives_act_bind {A B} (f : W → A * W) (k : A → M B) P :
  (∀ x, gives (k x) P) → gives (bind (act f) k) P.
Proof.
  intros Hk. eapply gives_bind; [apply gives_act|by intros e tr [[x Hx] _]|]. intros x tr [_ ->]. apply Hk.
Qed.
Lemma gives_emit_bind {B} e (k : () → M B) P :
  gives (k ()) (λ r tr, P r (e :: tr)) → gives (bind (emit e) k) P.
Proof.
  intros Hk. eapply gives_bind; [apply gives_emit|by intros e' tr [Hx _]|]. intros [] tr [_ ->]. exact Hk.
Qed.

Lemma run_attempt_gives tool req a managed :
  gives (run_attempt tool req a managed) (λ r tr, (∃ x, r = Ok x) ∧ tr = [Attempted a]).
Proof.
  unfold run_attempt. apply gives_act_bind. intros active. apply gives_emit_bind, gives_act_bind. intros res.
  destruct active as [n|]; [|apply gives_ret; eauto].
  destruct (approval_mode n).
  - apply gives_act_bind. intros [|]; apply gives_ret; eauto.
  - destruct res; [apply gives_ret; eauto|]. apply gives_act_bind. intros []. apply gives_ret; eauto.
Qed.

Lemma review_gives tool req c :
  gives (review tool req c) (λ r tr, ∃ d, r = Ok d ∧ tr = [Reviewed d]).
Proof. unfold review. apply gives_act_bind. intros d. apply gives_emit_bind, gives_ret. eauto. Qed.

Lemma request_approval_gives tool req id c hooks :
  gives (request_approval tool req id c hooks)
    (λ r tr, no_attempt tr ∧ ∀ d, r = Ok d → tr = [Reviewed d] ∨ (d = Approved ∧ tr = [Hooked HookAllow])).
Proof.
  assert (Hr : gives (review tool req c)
    (λ r tr, no_attempt tr ∧ ∀ d, r = Ok d → tr = [Reviewed d] ∨ (d = Approved ∧ tr = [Hooked HookAllow]))).
  { eapply gives_mono; [apply review_gives|]. intros r tr (d & -> & ->). split; [by repeat constructor|].
    intros d' [= <-]. by left. }
  unfold request_approval. destruct (_ && _); [|done]. apply gives_act_bind. intros [[|message]|]; [| |done].
  - apply gives_emit_bind, gives_ret. split; [by repeat constructor|]. intros d [= <-]. by right.
  - apply gives_emit_bind, gives_fail. split; [by repeat constructor|]. by intros.
Qed.

Lemma reject_gives id d :
  gives (reject_if_not_approved id d) (λ r tr, tr = [] ∧ (r = Ok () → approving (Reviewed d) = true)).
Proof.
  unfold reject_if_not_approved. destruct d; try by (apply gives_ret || apply gives_fail).
  - cbn [approving]. destruct (amend_action a); [by apply gives_ret|by apply gives_fail].
  - destruct id; [apply gives_act_bind; intros reason|]; by apply gives_fail.
  - destruct id; [apply gives_act_bind; intros reason|]; by apply gives_fail.
Qed.

Lemma review_id_gives b : gives (review_id_if b) (λ r tr, (∃ x, r = Ok x) ∧ tr = []).
Proof. destruct b; cbn; [apply gives_act_bind; intros id|]; apply gives_ret; eauto. Qed.

Lemma ask_gives tool req t id guardian reason net hooks :
  gives (ask tool req t id guardian reason net hooks) (λ r tr, no_attempt tr ∧ (r = Ok () → consent tr)).
Proof.
  unfold ask. eapply gives_bind; [apply review_id_gives|by intros e tr [[x Hx] _]|]. intros rid tr [_ ->].
  eapply gives_bind; [apply request_approval_gives|by intros e tr [Hn _]|].
  intros d tr [Hn Hd]. eapply gives_mono; [apply reject_gives|]. intros r tr' [-> Hr]. cbn [app].
  rewrite app_nil_r. split; [done|]. intros Hok. destruct (Hd d eq_refl) as [->|[-> ->]]; apply Exists_cons_hd; auto.
Qed.

Abbreviation requirement tool req t policy :=
  (default (default_exec_approval_requirement policy (turn_fs t)) (exec_approval_requirement tool req)).

Lemma approve_gives tool req t policy :
  gives (approve tool req t policy) (λ r tr, no_attempt tr ∧ ∀ b, r = Ok b →
    (∀ reason, requirement tool req t policy ≠ Refused reason) ∧
    if b then consent tr
    else tr = [] ∧ strict_auto_review t = false ∧ ∃ x y, requirement tool req t policy = Skip x y).
Proof.
  unfold approve. destruct (requirement tool req t policy) as [bypass am|reason am|reason] eqn:Er.
  - destruct (strict_auto_review t) eqn:Es.
    + eapply gives_bind; [apply ask_gives|by intros e tr [Hn _]|]. intros [] tr [Hn Hc]. apply gives_ret.
      rewrite app_nil_r. split; [done|]. intros b [= <-]. auto.
    + apply gives_ret. split; [by constructor|]. intros b [= <-]. eauto 10.
  - eapply gives_bind; [apply ask_gives|by intros e tr [Hn _]|]. intros [] tr [Hn Hc]. apply gives_ret.
    rewrite app_nil_r. split; [done|]. intros b [= <-]. auto.
  - apply gives_fail. split; [by constructor|done].
Qed.

(** Why a second attempt may be made without asking again. *)
Definition may_retry_unasked (tool : ToolRuntime) (t : Turn) (policy : AskForApproval) (already : bool) : Prop :=
  strict_auto_review t = false ∧ bypasses_approval tool policy already = true.
Definition may_leave_sandbox (tool : ToolRuntime) (policy : AskForApproval) : Prop :=
  escalate_on_failure tool = true ∧ (wants_approval_without_sandbox tool policy = true ∨ policy = OnRequest).

Definition one_more (tool : ToolRuntime) (t : Turn) (policy : AskForApproval) (already : bool) (tr : list Event) : Prop :=
  no_attempt tr ∨
  ∃ mid, tr = mid ++ [Attempted (attempt_in t NoSandbox None)] ∧ no_attempt mid ∧ may_leave_sandbox tool policy ∧
    (consent mid ∨ may_retry_unasked tool t policy already).

Lemma retry_gives tool req t policy already output npd :
  gives (retry tool req t policy already output npd) (λ _ tr, one_more tool t policy already tr).
Proof.
  unfold retry. cbv zeta.
  match goal with |- gives (if ?c then _ else _) _ => destruct c end; [apply gives_fail; by left; constructor|].
  destruct (escalate_on_failure tool) eqn:Ee; cbn [negb]; [|apply gives_fail; by left; constructor].
  destruct (negb (wants_approval_without_sandbox tool policy) && _) eqn:Ew; [apply gives_fail; by left; constructor|].
  assert (Hl : may_leave_sandbox tool policy).
  { split; [done|]. destruct (wants_approval_without_sandbox tool policy); [by left|right].
    cbn [negb andb] in Ew. by destruct policy. }
  match goal with |- gives (bind ?m _) _ => set (asking := m) end.
  assert (Ha : gives asking (λ r tr, no_attempt tr ∧ (r = Ok () → consent tr ∨ may_retry_unasked tool t policy already))).
  { subst asking. destruct (negb (strict_auto_review t) && _ && _) eqn:Eb.
    - apply gives_ret. split; [by constructor|]. intros _. right. apply andb_true_iff in Eb as [Eb _].
      apply andb_true_iff in Eb as [Es Eb]. split; [by apply negb_true_iff|done].
    - eapply gives_mono; [apply ask_gives|]. intros r tr [Hn Hc]. auto. }
  eapply gives_bind; [exact Ha|intros e tr [Hn _]; by left|]. intros [] mid [Hn Hc].
  eapply gives_bind; [apply run_attempt_gives|by intros e tr [[x Hx] _]|]. intros [[out|e] deferred] tr [_ ->].
  1: apply gives_ret. 2: apply gives_fail. all: rewrite app_nil_r; right; exists mid; auto.
Qed.

Abbreviation initial_sandbox os tool req t :=
  (match sandbox_mode_for_first_attempt tool req with
   | BypassSandboxFirstAttempt => NoSandbox
   | NoOverride => select_initial os (turn_fs t) (turn_network_policy t) (sandbox_preference tool)
                     (turn_windows_level t) (managed_network_active t)
   end).

(** The shape of a run. *)
Definition run_shape (os : TargetOs) (tool : ToolRuntime) (req : Req) (t : Turn) (policy : AskForApproval)
    (r : result (Out * option rstring) ToolError) (tr : list Event) : Prop :=
  (no_attempt tr ∧ ∃ e, r = Err e) ∨
  ∃ before rest (already : bool),
    tr = before ++ Attempted (attempt_in t (initial_sandbox os tool req t) (turn_linux_sandbox_exe t)) :: rest ∧
    no_attempt before ∧ (∀ reason, requirement tool req t policy ≠ Refused reason) ∧
    (if already then consent before
     else before = [] ∧ strict_auto_review t = false ∧ ∃ x y, requirement tool req t policy = Skip x y) ∧
    one_more tool t policy already rest.

Lemma run_gives os tool req t policy :
  gives (run os tool req t policy) (run_shape os tool req t policy).
Proof.
  unfold run. eapply gives_bind; [apply approve_gives|intros e tr [Hn _]; left; eauto|].
  intros already before [Hn Hb]. destruct (Hb already eq_refl) as [Hr Hc]. cbv zeta.
  eapply gives_bind; [apply run_attempt_gives|by intros e tr [[x Hx] _]|].
  intros [res deferred] tr [_ ->].
  assert (Hdone : ∀ r : result (Out * option rstring) ToolError,
    run_shape os tool req t policy r (before ++ [Attempted (attempt_in t (initial_sandbox os tool req t)
                                                     (turn_linux_sandbox_exe t))] ++ [])).
  { intros r. right. exists before, [], already. split_and!; [done..|]. by left; constructor. }
  destruct res as [out|[reason|output npd|m]]; [apply gives_ret, Hdone|apply gives_fail, Hdone| |apply gives_fail, Hdone].
  eapply gives_mono; [apply retry_gives|]. intros r rest Hone. right. exists before, rest, already. done.
Qed.

(** Where an attempt can be in a run. *)
Lemma split_no_attempt (before rest pre post : list Event) x a :
  no_attempt before → before ++ x :: rest = pre ++ Attempted a :: post →
  (pre = before ∧ x = Attempted a ∧ post = rest) ∨ ∃ mid, pre = before ++ x :: mid ∧ rest = mid ++ Attempted a :: post.
Proof.
  revert pre. induction before as [|e before IH]; intros [|p pre] Hn Heq; cbn in *.
  - injection Heq as -> ->. by left.
  - injection Heq as <- ->. right. by exists pre.
  - injection Heq as -> _. by apply Forall_cons in Hn as [? _].
  - injection Heq as <- Heq. apply Forall_cons in Hn as [_ Hn].
    destruct (IH pre Hn Heq) as [(-> & -> & ->)|(mid & -> & ->)]; [by left|right; by exists mid].
Qed.
Lemma no_attempt_absurd tr pre post a : no_attempt tr → tr ≠ pre ++ Attempted a :: post.
Proof. intros Hn ->. apply Forall_app in Hn as [_ Hn]. by apply Forall_cons in Hn as [? _]. Qed.
Lemma consent_app tr tr' : consent tr ∨ consent tr' → consent (tr ++ tr').
Proof. intros Hc. by apply Exists_app. Qed.
Lemma consent_cons e tr : consent tr → consent (e :: tr).
Proof. apply Exists_cons_tl. Qed.

(** An attempt is the first one, or the second and last, without sandbox. *)
Lemma attempt_cases os tool req t policy w pre a post :
  (run os tool req t policy w).2 = pre ++ Attempted a :: post →
  (∀ reason, requirement tool req t policy ≠ Refused reason) ∧
  (no_attempt pre ∧ sandbox a = initial_sandbox os tool req t ∧
     (consent pre ∨ strict_auto_review t = false ∧ ∃ x y, requirement tool req t policy = Skip x y) ∨
   no_attempt post ∧ sandbox a = NoSandbox ∧ may_leave_sandbox tool policy ∧
     (consent pre ∨ may_retry_unasked tool t policy false ∧ ∃ x y, requirement tool req t policy = Skip x y)).
Proof.
  intros Htr. destruct (run_gives os tool req t policy w) as [[Hn _]|(before & rest & already & Heq & Hn & Hr & Hc & Hone)].
  { by apply (no_attempt_absurd _ pre post a) in Hn. }
  split; [done|]. rewrite Htr in Heq. symmetry in Heq.
  destruct (split_no_attempt _ _ _ _ _ _ Hn Heq) as [(-> & Hx & ->)|(mid & -> & ->)].
  - left. injection Hx as <-. split; [done|]. split; [done|]. destruct already; [by left|right]. tauto.
  - right. destruct Hone as [Hno|(mid' & Hm & Hn' & Hl & Hask)].
    { by apply (no_attempt_absurd _ mid post a) in Hno. }
    symmetry in Hm. destruct (split_no_attempt _ _ _ _ _ _ Hn' Hm) as [(-> & Hx & ->)|(mid2 & -> & Hnil)];
      [|by destruct mid2]. injection Hx as <-. split; [constructor|]. split; [done|]. split; [done|].
    destruct Hask as [Hm'|Hu]; [left; apply consent_app; right; by apply consent_cons|].
    destruct already; [left; apply consent_app; by left|right]. split; [done|]. by destruct Hc as (_ & _ & Hc).
Qed.

(** A tool runs only with consent, and at most twice.  No attempt is made
    when the requirement forbids it; before the first there was a yes from a hook
    or a reviewer, unless the requirement is to skip asking and no strict review
    is on; and before a second one, which is always outside the sandbox, there
    was a yes as well, unless the tool's own rule lets it go on unasked and no
    strict review is on. *)
Theorem attempts_need_consent os tool req t policy w pre a post :
  (run os tool req t policy w).2 = pre ++ Attempted a :: post →
  (∀ reason, requirement tool req t policy ≠ Refused reason) ∧
  (no_attempt pre ∨ no_attempt post ∧ sandbox a = NoSandbox) ∧
  (consent pre ∨
   strict_auto_review t = false ∧ (∃ x y, requirement tool req t policy = Skip x y) ∧
   (no_attempt pre ∨ bypasses_approval tool policy false = true)).
Proof.
  intros Htr. destruct (attempt_cases _ _ _ _ _ _ _ _ _ Htr) as [Hr Hcases]. split; [done|].
  destruct Hcases as [(Hn & _ & Hc)|(Hn & Hs & _ & Hc)].
  - split; [by left|]. destruct Hc as [Hc|[Hs Hc]]; [by left|right]. auto.
  - split; [by right|]. destruct Hc as [Hc|[[Hs' Hb] Hc]]; [by left|right]. auto.
Qed.
End Orchestrator.

(** ** The shell tool *)
Section Shell.
Context {Out W : Type} {S : Session (W := W)}.
Context {H : FsPolicy.Host}.
Context (try_parse_shell : rstring → option Shell.tree).
Context (parse_with_powershell_ast : rstring → rstring → Safety.PowershellParseOutcome).
Context (linux : bool) (shlex_try_join : list rstring → option rstring).

Record ShellRequest := {
  shell_command : list rstring;
  shell_permissions : SandboxPermissions;
  shell_requirement : ExecApprovalRequirement;
  shell_network : bool
}.

(** [managed_network_for_sandbox_permissions]; a network proxy is there or not. *)
Definition managed_network_for_sandbox_permissions (network : bool) (perms : SandboxPermissions) : bool :=
  if requires_escalated_permissions perms then false else network.

(** runtimes/shell.rs; asking and running are what they are. *)
Definition shell_runtime (start : ShellRequest → ApprovalCtx → W → ReviewDecision * W)
    (exec : ShellRequest → SandboxAttempt → W → result Out ToolError * W) : ToolRuntime :=
  {| exec_approval_requirement := λ req, Some (shell_requirement req);
     sandbox_mode_for_first_attempt := λ req,
       sandbox_override_for_first_attempt (shell_permissions req) (shell_requirement req);
     bypasses_approval := should_bypass_approval;
     wants_approval_without_sandbox := wants_no_sandbox_approval;
     has_permission_request_payload := λ _, true;
     start_approval := start;
     sandbox_preference := PreferAuto;
     escalate_on_failure := true;
     network_approval_spec := λ req,
       if managed_network_for_sandbox_permissions (shell_network req) (shell_permissions req)
       then Some (true, Immediate) else None;
     run_tool := exec |}.

(** handlers/shell.rs: permissions that were not granted earlier in the turn are
    asked for under the on-request policy only, and the policy is not told of
    those that were. *)
Definition override_guard (permissions_preapproved : bool) (perms : SandboxPermissions) (policy : AskForApproval) : bool :=
  negb (requests_sandbox_override perms && negb permissions_preapproved
        && match policy with OnRequest => false | _ => true end).
Definition policy_permissions (permissions_preapproved : bool) (perms : SandboxPermissions) : SandboxPermissions :=
  if permissions_preapproved then UseDefault else perms.

(** C7: a shell command leaves the sandbox only with consent, with a grant or on
    a rule: if it runs without a sandbox although the platform has one for this
    turn, then someone said yes before, or its extra permissions were granted
    earlier in the turn, or each of its simple commands is matched by rules that
    all allow it, or is on the built-in list of safe commands, or is let through
    by the one remaining case: the policy asks on request, the command asked to
    leave the sandbox, the file-system policy is not a restricted one and the
    command is not on the list of dangerous ones.  (In that case a sandbox that
    restricts only the network is left without anyone being asked.) *)
Theorem shell_leaves_sandbox_trusted p areq perms preapproved network start exec os t w R pre a post :
  let req := {| shell_command := command areq; shell_permissions := perms; shell_requirement := R;
                shell_network := network |} in
  sandbox_permissions areq = policy_permissions preapproved perms →
  create_exec_approval_requirement_for_command try_parse_shell parse_with_powershell_ast linux shlex_try_join p areq = Some R →
  override_guard preapproved perms (approval_policy areq) = true →
  select_initial os (turn_fs t) (turn_network_policy t) PreferAuto (turn_windows_level t) (managed_network_active t)
    ≠ NoSandbox →
  (run os (shell_runtime start exec) req t (approval_policy areq) w).2 = pre ++ Attempted a :: post →
  sandbox a = NoSandbox →
  consent pre ∨ preapproved = true ∨
  ∀ seg, seg ∈ segments try_parse_shell areq →
    allowed_by_rules p seg ∨
    Safety.is_known_safe_command parse_with_powershell_ast try_parse_shell linux seg = true ∨
    approval_policy areq = OnRequest ∧ requires_escalated_permissions perms = true ∧
    FsPolicy.kind (file_system_sandbox_policy areq) ≠ FsPolicy.Restricted ∧
    Safety.command_might_be_dangerous try_parse_shell seg = false.
Proof.
  intros req Hperm HR Hguard Hsel Htr Hs. destruct (attempt_cases _ _ _ _ _ _ _ _ _ Htr) as [_ Hcases].
  destruct Hcases as [(_ & Hi & Hc)|(_ & _ & [_ Hl] & Hc)]; (destruct Hc as [Hc|Hc]; [by left|]).
  - right. destruct preapproved; [by left|right]. destruct Hc as (_ & x & y & Hskip). cbn in Hskip, Hperm. subst R.
    rewrite Hs in Hi. cbn [shell_runtime sandbox_mode_for_first_attempt sandbox_preference] in Hi.
    unfold sandbox_override_for_first_attempt in Hi. cbn [req shell_permissions shell_requirement] in Hi.
    destruct (requires_escalated_permissions perms) eqn:Ee; cbn [orb] in Hi.
    + intros seg Hseg. destruct (rules_for p seg) eqn:Er; [right|left; eapply skip_allowed_by_rules; eauto; by rewrite Er].
      assert (Ho : requests_sandbox_override perms = true) by by destruct perms.
      assert (Hon : approval_policy areq = OnRequest).
      { unfold override_guard in Hguard. rewrite Ho in Hguard. by destruct (approval_policy areq). }
      rewrite <-Hperm in Ho. edestruct skip_with_override as [Hsafe|[Hk Hd]]; eauto.
    + destruct x; [|done]. intros seg Hseg. left. eapply skip_allowed_by_rules; eauto. by eapply create_skip_bypass.
  - exfalso. destruct Hc as [[_ Hb] _]. cbn in Hb, Hl. by destruct (approval_policy areq), Hl.
Qed.
End Shell.

(** ** Runs *)
#[local] Existing Instance FsFacts.demo_host.
(** The world counts the questions asked; the reviewer approves. *)
Definition demo_session : Session (W := nat) :=
  {| new_guardian_review_id := λ w, ($"r", w); guardian_rejection_message := λ _ w, ($"no", w);
     guardian_timeout_message := $"timeout"; run_permission_request_hooks := λ _ w, (None, w);
     register_call := λ w, ($"n", w); take_call_outcome := λ _ w, (None, w); unregister_call := λ _ w, w |}.
#[local] Existing Instance demo_session.
Definition demo_turn : Turn :=
  {| turn_call_id := $"c"; strict_auto_review := false; routes_approval_to_guardian := false;
     turn_fs := FsFacts.demo_policy; turn_network_policy := FsPolicy.NetRestricted;
     turn_profile := Managed MUnrestricted FsPolicy.NetRestricted; turn_cwd := $"/w"; managed_network_active := false;
     turn_linux_sandbox_exe := None; turn_legacy_landlock := false; turn_windows_level := LevelDisabled;
     turn_private_desktop := false |}.
(** A command that the sandbox denies. *)
Definition demo_shell : ToolRuntime (Req := ShellRequest) (Out := rstring) (W := nat) :=
  shell_runtime (λ _ _ w, (Approved, S w))
    (λ _ a w, (match sandbox a with NoSandbox => Ok $"done" | _ => Err (SandboxDenied [] None) end, w)).
Definition demo_request : ShellRequest :=
  {| shell_command := [ $"make" ]; shell_permissions := UseDefault; shell_requirement := Skip false None;
     shell_network := false |}.
Abbreviation demo_tool_run := (run Linux demo_shell demo_request demo_turn OnFailure 0).
Definition demo_first : SandboxAttempt := attempt_in demo_turn LinuxSeccomp None.
Definition demo_second : SandboxAttempt := attempt_in demo_turn NoSandbox None.

Example demo_tool_run_trace :
  demo_tool_run = (Ok ($"done", None), 1, [Attempted demo_first; Reviewed Approved; Attempted demo_second]).
Proof. vm_compute. reflexivity. Qed.

Lemma attempts_need_consent_witness :
  consent [Attempted demo_first; Reviewed Approved] ∨
  strict_auto_review demo_turn = false ∧
  (∃ x y, Skip false None = Skip x y) ∧
  (no_attempt [Attempted demo_first; Reviewed Approved] ∨ bypasses_approval demo_shell OnFailure false = true).
Proof.
  destruct (attempts_need_consent Linux demo_shell demo_request demo_turn OnFailure 0
    [Attempted demo_first; Reviewed Approved] demo_second []) as (_ & _ & Hc); [vm_compute; reflexivity|exact Hc].
Defined.

Definition demo_areq : ExecApprovalRequest :=
  {| command := [ $"make" ]; approval_policy := OnFailure;
     permission_profile := Managed MUnrestricted FsPolicy.NetRestricted;
     file_system_sandbox_policy := FsFacts.demo_policy; sandbox_cwd := $"/w"; sandbox_permissions := UseDefault;
     requested_prefix := None |}.
Lemma shell_leaves_sandbox_trusted_witness :
  consent [Attempted demo_first; Reviewed Approved] ∨ false = true ∨
  ∀ seg, seg ∈ segments (λ _, None) demo_areq →
    allowed_by_rules ExecPolicy.demo_policy seg ∨
    Safety.is_known_safe_command no_powershell (λ _, None) true seg = true ∨
    OnFailure = OnRequest ∧ false = true ∧ FsPolicy.kind FsFacts.demo_policy ≠ FsPolicy.Restricted ∧
    Safety.command_might_be_dangerous (λ _, None) seg = false.
Proof.
  apply (shell_leaves_sandbox_trusted (λ _, None) no_powershell true (λ _, None) ExecPolicy.demo_policy demo_areq UseDefault false false
    (λ _ _ w, (Approved, S w))
    (λ _ a w, (match sandbox a with NoSandbox => Ok $"done" | _ => Err (SandboxDenied [] None) end, w))
    Linux demo_turn 0 (Skip false (Some [ $"make" ])) [Attempted demo_first; Reviewed Approved] demo_second []).
  - vm_compute. reflexivity.
  - reflexivity.
  - reflexivity.
  - vm_compute. discriminate.
  - vm_compute. reflexivity.
  - reflexivity.
Defined.

(** The remaining case happens: nothing restricts the files, the network is
    restricted, so the platform has a sandbox; a command that asks to leave it
    runs outside, and no one is asked. *)
Definition open_policy : FsPolicy.FileSystemSandboxPolicy :=
  {| FsPolicy.kind := FsPolicy.Unrestricted; FsPolicy.glob_scan_max_depth := None; FsPolicy.entries := [] |}.
Definition open_areq : ExecApprovalRequest :=
  {| command := [ $"make" ]; approval_policy := OnRequest;
     permission_profile := Managed MUnrestricted FsPolicy.NetRestricted;
     file_system_sandbox_policy := open_policy; sandbox_cwd := $"/w"; sandbox_permissions := RequireEscalated;
     requested_prefix := None |}.
Definition open_turn : Turn :=
  {| turn_call_id := $"c"; strict_auto_review := false; routes_approval_to_guardian := false;
     turn_fs := open_policy; turn_network_policy := FsPolicy.NetRestricted;
     turn_profile := Managed MUnrestricted FsPolicy.NetRestricted; turn_cwd := $"/w"; managed_network_active := false;
     turn_linux_sandbox_exe := None; turn_legacy_landlock := false; turn_windows_level := LevelDisabled;
     turn_private_desktop := false |}.

Theorem network_sandbox_left_unasked :
  select_initial Linux (turn_fs open_turn) (turn_network_policy open_turn) PreferAuto LevelDisabled false = LinuxSeccomp ∧
  ∃ a, create_exec_approval_requirement_for_command (λ _, None) no_powershell true (λ _, None)
         ExecPolicy.demo_policy open_areq = Some (Skip false a) ∧
  (run Linux demo_shell {| shell_command := [ $"make" ]; shell_permissions := RequireEscalated;
     shell_requirement := Skip false a; shell_network := false |} open_turn OnRequest 0).2
  = [Attempted (attempt_in open_turn NoSandbox None)].
Proof. split; [vm_compute; reflexivity|]. eexists. split; vm_compute; reflexivity. Qed.

Lemma session_approval_remembered_witness :
  with_cached_approval (λ k : rstring, Some k) [ $"b" ] (λ w : nat, (ReviewDenied, w))
    (store_put (λ k, Some k) $"b" ApprovedForSession (store_put (λ k, Some k) $"a" ApprovedForSession ∅)) 5
  = (ApprovedForSession,
     store_put (λ k, Some k) $"b" ApprovedForSession (store_put (λ k, Some k) $"a" ApprovedForSession ∅), 5).
Proof.
  apply (session_approval_remembered (λ k : rstring, Some k) [ $"a"; $"b" ] (λ w : nat, (ApprovedForSession, w)) ∅ 0
           ApprovedForSession _ 0 [ $"b" ] (λ w : nat, (ReviewDenied, w))); [reflexivity|discriminate|discriminate|].
  intros k Hk. apply list_elem_of_singleton in Hk as ->. split; [right; left|eauto].
Defined.
End ToolRun.
