(* ===== verification/StrictDelegation.v ===== *)
(** * StrictDelegation: turns in which only delegated patches may be applied

    Models codex-rs/core/src/strict_delegation.rs, the session's check of a patch
    (core/src/session/mod.rs) and its use by the apply_patch and shell handlers:
    candidates are collected from the answers of the delegate (DelegateResponse),
    a patch is accepted if it is one of them, and shell commands that would modify
    files are blocked.

    SHA-1, the JSON reader, shlex, one regular expression and the shell grammar
    are parameters.  Targets other than Windows. *)

From S2P Require Import Prelude AbsPath SeekSequence PatchParser Replacements PatchApply ShellScript PatchInvocation Delegation SensitiveOutput DelegateResponse.

Module Strict.
Import Response.
#[local] Existing Instances status_eq_dec format_eq_dec.

Definition STRICT_DELEGATION_MARKER : rstring :=
  $"<strict_delegation mode=" ++ [34%Z] ++ $"required" ++ [34%Z] ++ $" />".
Definition STRICT_DELEGATION_APPLY_PATCH_BLOCK_MESSAGE : rstring :=
  $"strict_delegation_violation: apply_patch is only allowed for validated delegate candidates returned by delegate_to_minimax.".
Definition STRICT_DELEGATION_SHELL_BLOCK_MESSAGE : rstring :=
  $"blocked: strict delegation mode forbids manual file modifications via shell. Apply a completed patch candidate returned by delegate_to_minimax instead.".
Definition DELEGATE_TO_MINIMAX_TOOL_NAME : rstring := $"delegate_to_minimax".

(** ** Data *)
Inductive StrictDelegationAttemptStatus := ACompleted | AClarify | AInfraError | AInvalid.
Record StrictDelegationCandidate := { hash : rstring; normalized_patch : rstring }.
Record StrictDelegationState := {
  delegate_called : bool;
  last_status : option StrictDelegationAttemptStatus;
  candidates : list StrictDelegationCandidate
}.
Definition default_state : StrictDelegationState :=
  {| delegate_called := false; last_status := None; candidates := [] |}.

Inductive StrictDelegationViolationReason := NoCompletedCandidate | PatchMismatch.
Inductive StrictDelegationManualAction := ManualApplyPatch | ShellWrite.
Inductive StrictDelegationSkipReason :=
| SupervisorSelectedManualPatch
| SupervisorSelfRestrictedBeforeToolCall
| StartupPluginSyncFailed
| AuthRefreshFailed
| ToolUnavailable
| SkillsRoutingIntercepted
| CandidateMissing
| CandidateInvalid.

Record StrictDelegationTrace := {
  trace_delegate_called : bool;
  delegate_skip_reason : StrictDelegationSkipReason
}.
Record StrictDelegationViolation := {
  reason : StrictDelegationViolationReason;
  has_completed_candidate : bool;
  candidate_count : nat;
  delegate_trace : StrictDelegationTrace
}.
Inductive StrictCommandDecision := Allow | Block (block_reason command_kind : rstring).

Inductive DynamicToolCallOutputContentItem := InputText (t : rstring) | InputImage (image_url : rstring).
Record DynamicToolResponse := { content_items : list DynamicToolCallOutputContentItem; success : bool }.

(** ** Traces *)
Definition default_for_action (a : StrictDelegationManualAction) : StrictDelegationTrace :=
  {| trace_delegate_called := false;
     delegate_skip_reason := match a with
                             | ManualApplyPatch => SupervisorSelectedManualPatch
                             | ShellWrite => CandidateMissing
                             end |}.
Definition trace_for_completed_turn (s : StrictDelegationState) (tool_calls : Z) : option StrictDelegationTrace :=
  if delegate_called s || (0 <? tool_calls)%Z then None
  else Some {| trace_delegate_called := false; delegate_skip_reason := SupervisorSelfRestrictedBeforeToolCall |}.
Definition trace_for_manual_action (s : StrictDelegationState) (a : StrictDelegationManualAction) : StrictDelegationTrace :=
  {| trace_delegate_called := delegate_called s;
     delegate_skip_reason :=
       if negb (delegate_called s) then
         match a with ManualApplyPatch => SupervisorSelectedManualPatch | ShellWrite => CandidateMissing end
       else match last_status s with
            | Some AInvalid | Some AInfraError => CandidateInvalid
            | Some AClarify => CandidateMissing
            | Some ACompleted => if is_empty (candidates s) then CandidateMissing else SupervisorSelectedManualPatch
            | None => CandidateMissing
            end |}.

(** ** Candidates *)
Definition is_line_end (c : char) : bool := (c =? NL)%Z || (c =? CR)%Z.
Definition normalize_patch_candidate (patch : rstring) : rstring :=
  rev (Sensitive.drop_chars is_line_end (rev (replace_crlf patch))).

Definition first_text_output (r : DynamicToolResponse) : option rstring :=
  Sensitive.find_map (λ i, match i with InputText t => Some t | InputImage _ => None end) (content_items r).

Section Candidates.
Context (sha1_digest : rstring → rstring).
(** [serde_json::from_str::<DelegateToMinimaxResponse>]. *)
Context (read_result : rstring → option MiniMaxDelegationResult).

Definition with_status (s : StrictDelegationState) (st : StrictDelegationAttemptStatus)
    (cs : list StrictDelegationCandidate) : StrictDelegationState :=
  {| delegate_called := true; last_status := Some st; candidates := cs |}.
Definition attempt_status (s : MiniMaxDelegationStatus) : StrictDelegationAttemptStatus :=
  match s with Completed => ACompleted | Clarify => AClarify | Invalid => AInvalid end.

Definition add_candidate (patch : rstring) (cs : list StrictDelegationCandidate) : list StrictDelegationCandidate :=
  let normalized := normalize_patch_candidate patch in
  let h := sha1_digest normalized in
  if existsb (λ c, hash c =?s h) cs then cs else cs ++ [{| hash := h; normalized_patch := normalized |}].

Definition record_delegate_response (tool_name : rstring) (r : DynamicToolResponse) (s : StrictDelegationState)
  : StrictDelegationState :=
  if negb (tool_name =?s DELEGATE_TO_MINIMAX_TOOL_NAME) then s
  else if negb (success r) then with_status s AInfraError (candidates s)
  else match first_text_output r with
       | None => with_status s AInvalid (candidates s)
       | Some text =>
           match read_result text with
           | None => with_status s AInvalid (candidates s)
           | Some result =>
               let st := attempt_status (status result) in
               if negb (bool_decide (status result = Completed)) || negb (bool_decide (format result = Some FApplyPatch))
               then with_status s st (candidates s)
               else match result_patch result with
                    | None => with_status s st (candidates s)
                    | Some patch => with_status s st (add_candidate patch (candidates s))
                    end
           end
       end.

Definition validate_apply_patch (s : StrictDelegationState) (patch : rstring)
  : result () StrictDelegationViolation :=
  let trace := trace_for_manual_action s ManualApplyPatch in
  if is_empty (candidates s) then
    Err {| reason := NoCompletedCandidate; has_completed_candidate := false; candidate_count := 0;
           delegate_trace := trace |}
  else if existsb (λ c, normalized_patch c =?s normalize_patch_candidate patch) (candidates s) then Ok ()
  else Err {| reason := PatchMismatch; has_completed_candidate := true; candidate_count := length (candidates s);
              delegate_trace := trace |}.

(** session/mod.rs: [None] for no active turn. *)
Definition strict_delegation_enabled (developer_instructions : option rstring) : bool :=
  match developer_instructions with Some i => contains STRICT_DELEGATION_MARKER i | None => false end.
Definition strict_delegation_violation_for_patch (instructions : option rstring) (s : option StrictDelegationState)
    (patch : rstring) : option StrictDelegationViolation :=
  if negb (strict_delegation_enabled instructions) then None
  else match s with
       | None => Some {| reason := NoCompletedCandidate; has_completed_candidate := false; candidate_count := 0;
                         delegate_trace := default_for_action ManualApplyPatch |}
       | Some s => match validate_apply_patch s patch with Ok _ => None | Err v => Some v end
       end.

(** handlers/apply_patch.rs: the check itself, and the one on intercepted shell
    commands. *)
Definition enforce_strict_delegation_patch (instructions : option rstring) (s : option StrictDelegationState)
    (patch : rstring) : result () rstring :=
  match strict_delegation_violation_for_patch instructions s patch with
  | Some _ => Err STRICT_DELEGATION_APPLY_PATCH_BLOCK_MESSAGE
  | None => Ok ()
  end.
Definition enforce_on_intercept (instructions : option rstring) (s : option StrictDelegationState)
    (command : list rstring) : result () rstring :=
  match command with
  | tool :: patch :: _ =>
      if tool =?s $"apply_patch" then enforce_strict_delegation_patch instructions s patch else Ok ()
  | _ => Ok ()
  end.
End Candidates.

(** ** Shell commands *)
Definition is_quote (c : char) : bool := (c =? 34)%Z || (c =? 39)%Z.
Definition WRITE_PREFIXES : list rstring := [ $"&>"; $"1>>"; $"2>>"; $">>"; $">|"; $"1>"; $"2>"; $">" ].
Definition contains_write_redirection (token : rstring) : bool :=
  let trimmed := Sensitive.trim_matches is_quote token in
  existsb (λ prefix,
    (trimmed =?s prefix)
    || match strip_prefix prefix trimmed with
       | Some rest => negb (is_empty rest) && negb (starts_with $"&" rest)
       | None => false
       end) WRITE_PREFIXES.

Definition executable_basename (raw : rstring) : option rstring := to_ascii_lowercase <$> Path.file_name raw.
Definition dd_writes_output_file (command : list rstring) : bool :=
  existsb (λ a, (a =?s $"of") || starts_with $"of=" a) (drop 1 command).
Definition sed_edits_in_place (command : list rstring) : bool :=
  existsb (λ a, (a =?s $"-i") || starts_with $"-i" a || (a =?s $"--in-place") || starts_with $"--in-place=" a)
    (drop 1 command).
Definition script_edits_in_place (command : list rstring) : bool :=
  existsb (λ a, starts_with $"-" a && negb (starts_with $"--" a) && contains_char 105 (drop 1 a)) (drop 1 command).
Definition is_python_command (c : rstring) : bool := (c =?s $"python") || starts_with $"python" c.
Definition is_node_command (c : rstring) : bool := (c =?s $"node") || (c =?s $"nodejs").
Definition node_writes_file (script : rstring) : bool :=
  let lower := to_ascii_lowercase script in contains $"writefilesync(" lower || contains $"appendfilesync(" lower.

Definition git_global_option_with_value (arg : rstring) : bool :=
  str_in arg [ $"-C"; $"-c"; $"--config-env"; $"--exec-path"; $"--git-dir"; $"--namespace"; $"--super-prefix";
               $"--work-tree" ].
Definition git_global_option_with_inline_value (arg : rstring) : bool :=
  existsb (λ p, starts_with p arg)
    [ $"--config-env="; $"--exec-path="; $"--git-dir="; $"--namespace="; $"--super-prefix="; $"--work-tree=" ]
  || ((starts_with $"-C" arg || starts_with $"-c" arg) && (2 <? byte_len arg)).

(** The loop over the arguments; the result has the arguments after the
    subcommand. *)
Fixpoint git_subcommand_from (skip_next : bool) (args : list rstring) : option (rstring * list rstring) :=
  match args with
  | [] => None
  | arg :: rest =>
      if skip_next then git_subcommand_from false rest
      else if git_global_option_with_inline_value arg then git_subcommand_from false rest
      else if git_global_option_with_value arg then git_subcommand_from true rest
      else if (arg =?s $"--") || starts_with $"-" arg then git_subcommand_from false rest
      else Some (arg, rest)
  end.
Definition first_git_subcommand (command : list rstring) : option (rstring * list rstring) :=
  match command with
  | [] => None
  | cmd0 :: args =>
      name ← executable_basename cmd0;
      if name =?s $"git" then git_subcommand_from false args else None
  end.
Definition next_git_positional (args : list rstring) : option rstring :=
  List.find (λ a, negb (a =?s $"--") && negb (starts_with $"-" a)) args.
Definition git_mutates_worktree (command : list rstring) : bool :=
  match first_git_subcommand command with
  | None => false
  | Some (sub, rest) =>
      if str_in sub [ $"checkout"; $"restore"; $"reset"; $"clean"; $"apply"; $"am"; $"merge"; $"rebase"; $"cherry-pick" ]
      then true
      else if sub =?s $"stash"
      then match next_git_positional rest with Some a => str_in a [ $"apply"; $"pop" ] | None => false end
      else false
  end.

Section Shells.
Context (shlex_split : rstring → option (list rstring)).
Context (try_parse_shell : rstring → option Shell.tree).
(** [python_open_write_regex().is_match]. *)
Context (python_open_write : rstring → bool).

Definition python_writes_file (script : rstring) : bool :=
  let lower := to_ascii_lowercase script in
  python_open_write lower || contains $".write_text(" lower || contains $".write_bytes(" lower.

Definition detect_mutating_shell_command (command : list rstring) : option rstring :=
  match command with
  | [] => None
  | first :: args =>
      if existsb contains_write_redirection command then Some $"write_redirection"
      else
        cmd0 ← executable_basename first;
        if cmd0 =?s $"apply_patch" then Some $"apply_patch_via_shell"
        else if str_in cmd0 [ $"touch"; $"truncate"; $"install" ] then Some $"file_write_utility"
        else if str_in cmd0 [ $"rm"; $"mv"; $"cp"; $"mkdir"; $"rmdir"; $"ln"; $"chmod"; $"chown" ]
        then Some $"file_operation"
        else if cmd0 =?s $"tee" then Some $"file_write_utility"
        else if (cmd0 =?s $"dd") && dd_writes_output_file command then Some $"file_write_utility"
        else if (cmd0 =?s $"sed") && sed_edits_in_place command then Some $"in_place_edit"
        else if str_in cmd0 [ $"perl"; $"ruby" ] && script_edits_in_place command then Some $"in_place_edit"
        else if is_python_command cmd0 && existsb python_writes_file args then Some $"script_write"
        else if is_node_command cmd0 && existsb node_writes_file args then Some $"script_write"
        else if (cmd0 =?s $"git") && git_mutates_worktree command then Some $"git_worktree_mutation"
        else None
  end.

Definition tokenize_shell_script : rstring → option (list rstring) := Sensitive.tokenize_shell_script shlex_split.
Definition MAX_SHELL_WRAPPER_DEPTH : nat := 4.

(** The first answer that blocks. *)
Fixpoint first_block (l : list StrictCommandDecision) : StrictCommandDecision :=
  match l with
  | [] => Allow
  | Allow :: l' => first_block l'
  | d :: _ => d
  end.

(** [left] is the depth limit less the depth. *)
Fixpoint check_below (left : nat) (command : list rstring) : StrictCommandDecision :=
  match detect_mutating_shell_command command with
  | Some kind => Block STRICT_DELEGATION_SHELL_BLOCK_MESSAGE kind
  | None =>
      match left with
      | O => Allow
      | S left' =>
          first_block
            (match Shell.parse_shell_lc_plain_commands try_parse_shell command with
             | Some inner => check_below left' <$> inner
             | None => []
             end
             ++ match Shell.parse_shell_lc_single_command_prefix try_parse_shell command with
                | Some inner => [check_below left' inner]
                | None => []
                end
             ++ match Sensitive.extract_shell_command command with
                | Some (_, script) =>
                    match tokenize_shell_script script with
                    | Some tokens => [check_below left' tokens]
                    | None => []
                    end
                | None => []
                end)
      end
  end.
Definition check_shell_command_allowed_in_strict_delegation (command : list rstring) : StrictCommandDecision :=
  check_below MAX_SHELL_WRAPPER_DEPTH command.
Definition check_shell_text_allowed_in_strict_delegation (command : rstring) : StrictCommandDecision :=
  match tokenize_shell_script command with
  | Some tokens => check_shell_command_allowed_in_strict_delegation tokens
  | None => Allow
  end.
End Shells.

(** ** Which patches are accepted *)
Section Accepted.
Context (sha1_digest : rstring → rstring).
Context (read_result : rstring → option MiniMaxDelegationResult).

(** An answer of the delegate that carries a completed patch. *)
Definition delegates (x : rstring * DynamicToolResponse) (q : rstring) : Prop :=
  x.1 = DELEGATE_TO_MINIMAX_TOOL_NAME ∧ success x.2 = true ∧
  ∃ text result, first_text_output x.2 = Some text ∧ read_result text = Some result ∧
    status result = Completed ∧ format result = Some FApplyPatch ∧ result_patch result = Some q.
Definition record_all (rs : list (rstring * DynamicToolResponse)) : StrictDelegationState :=
  fold_left (λ s x, record_delegate_response sha1_digest read_result x.1 x.2 s) rs default_state.
Definition no_collision (rs : list (rstring * DynamicToolResponse)) : Prop :=
  ∀ x y q q', x ∈ rs → y ∈ rs → delegates x q → delegates y q' →
    sha1_digest (normalize_patch_candidate q) = sha1_digest (normalize_patch_candidate q') →
    normalize_patch_candidate q = normalize_patch_candidate q'.

Lemma record_candidates x s :
  (∃ q, delegates x q ∧ candidates (record_delegate_response sha1_digest read_result x.1 x.2 s) =
                        add_candidate sha1_digest q (candidates s)) ∨
  ((∀ q, ¬ delegates x q) ∧ candidates (record_delegate_response sha1_digest read_result x.1 x.2 s) = candidates s).
Proof.
  unfold record_delegate_response, delegates. destruct (str_eqb x.1 DELEGATE_TO_MINIMAX_TOOL_NAME) eqn:En; cbn [negb].
  2: { right. split; [|done]. intros q [Hn _]. rewrite Hn in En. done. }
  apply str_eqb_eq in En. destruct (success x.2); cbn [negb]; [|right; split; [naive_solver|done]].
  destruct (first_text_output x.2) as [text|]; [|right; split; [naive_solver|done]].
  destruct (read_result text) as [result|] eqn:Er; [|right; split; [naive_solver|done]].
  destruct (bool_decide_reflect (status result = Completed)); cbn [negb orb]; [|right; split; [naive_solver|done]].
  destruct (bool_decide_reflect (format result = Some FApplyPatch)); cbn [negb]; [|right; split; [naive_solver|done]].
  destruct (result_patch result) as [q|] eqn:Eq; [left; exists q; naive_solver|right; split; [naive_solver|done]].
Qed.

Lemma add_candidate_elem q cs c :
  c ∈ add_candidate sha1_digest q cs →
  c ∈ cs ∨ c = {| hash := sha1_digest (normalize_patch_candidate q); normalized_patch := normalize_patch_candidate q |}.
Proof.
  unfold add_candidate. destruct (existsb _ _); [by left|].
  rewrite elem_of_app, list_elem_of_singleton. tauto.
Qed.
Lemma add_candidate_mono q cs c : c ∈ cs → c ∈ add_candidate sha1_digest q cs.
Proof. unfold add_candidate. destruct (existsb _ _); [done|]. intros Hc. apply elem_of_app. by left. Qed.
Lemma add_candidate_has q cs :
  ∃ c, c ∈ add_candidate sha1_digest q cs ∧ hash c = sha1_digest (normalize_patch_candidate q).
Proof.
  unfold add_candidate. destruct (existsb _ _) eqn:E.
  - apply existsb_exists in E as (c & Hc%list_elem_of_In & Heq). apply str_eqb_eq in Heq. eauto.
  - eexists. split; [apply elem_of_app; right; by apply list_elem_of_singleton|done].
Qed.

(** The candidates are the delegated patches, up to equal digests. *)
Lemma candidates_spec rs :
  (∀ c, c ∈ candidates (record_all rs) → ∃ x q, x ∈ rs ∧ delegates x q ∧
     c = {| hash := sha1_digest (normalize_patch_candidate q); normalized_patch := normalize_patch_candidate q |}) ∧
  (∀ x q, x ∈ rs → delegates x q →
     ∃ c, c ∈ candidates (record_all rs) ∧ hash c = sha1_digest (normalize_patch_candidate q)).
Proof.
  unfold record_all. induction rs as [|y rs [IH1 IH2]] using rev_ind.
  { split; [intros c Hc|intros x q Hx]; by apply elem_of_nil in Hc || by apply elem_of_nil in Hx. }
  rewrite fold_left_app. cbn [fold_left]. set (s := fold_left _ rs default_state) in *.
  destruct (record_candidates y s) as [(q & Hq & Hc)|[Hno Hc]]; rewrite Hc; split.
  - intros c [Hin| ->]%add_candidate_elem.
    + destruct (IH1 c Hin) as (x & q' & Hx & Hd & ->). exists x, q'. split; [apply elem_of_app; by left|done].
    + exists y, q. split; [apply elem_of_app; right; by apply list_elem_of_singleton|done].
  - intros x q' [Hx| ->%list_elem_of_singleton]%elem_of_app Hd.
    + destruct (IH2 x q' Hx Hd) as (c & Hin & Hh). exists c. split; [by apply add_candidate_mono|done].
    + assert (q' = q) as -> by (destruct Hq as (_ & _ & ? & ? & ? & ? & _ & _ & ?), Hd as (_ & _ & ? & ? & ? & ? & _ & _ & ?); congruence).
      apply add_candidate_has.
  - intros c Hin. destruct (IH1 c Hin) as (x & q' & Hx & Hd & ->). exists x, q'.
    split; [apply elem_of_app; by left|done].
  - intros x q' [Hx| ->%list_elem_of_singleton]%elem_of_app Hd; [by apply (IH2 x q' Hx Hd)|by apply Hno in Hd].
Qed.

(** Which patches a strict turn accepts: only those that the delegate
    returned as a completed patch in this turn, up to line endings; and all of
    those, unless two different ones have the same digest. *)
Theorem strict_patch_accepted rs patch :
  let delegated := ∃ x q, x ∈ rs ∧ delegates x q ∧ normalize_patch_candidate q = normalize_patch_candidate patch in
  (validate_apply_patch (record_all rs) patch = Ok () → delegated) ∧
  (no_collision rs → delegated → validate_apply_patch (record_all rs) patch = Ok ()).
Proof.
  destruct (candidates_spec rs) as [H1 H2]. cbv zeta. unfold validate_apply_patch. split.
  - destruct (is_empty _); [done|]. destruct (existsb _ _) eqn:E; [|done]. intros _.
    apply existsb_exists in E as (c & Hc%list_elem_of_In & Heq). apply str_eqb_eq in Heq.
    destruct (H1 c Hc) as (x & q & Hx & Hd & ->). eauto.
  - intros Hnc (x & q & Hx & Hd & Hq). destruct (H2 x q Hx Hd) as (c & Hc & Hh).
    destruct (H1 c Hc) as (y & q' & Hy & Hd' & Hcq). subst c. cbn [hash] in Hh.
    destruct (is_empty (candidates (record_all rs))) eqn:Ee.
    { apply is_empty_true in Ee. rewrite Ee in Hc. by apply elem_of_nil in Hc. }
    assert (Hex : existsb (λ c, normalized_patch c =?s normalize_patch_candidate patch) (candidates (record_all rs)) = true).
    { apply existsb_exists. eexists. split; [by apply list_elem_of_In|]. cbn [normalized_patch]. apply str_eqb_eq.
      rewrite <-Hq. by apply (Hnc y x q' q). }
    by rewrite Hex.
Qed.
End Accepted.

(** ** Which commands are blocked *)
Section Blocked.
Context (shlex_split : rstring → option (list rstring)).
Context (try_parse_shell : rstring → option Shell.tree).
Context (python_open_write : rstring → bool).

(** A command inside another, as the check looks for it. *)
Inductive runs_inside : list rstring → list rstring → Prop :=
| inside_plain cmd inner c :
    Shell.parse_shell_lc_plain_commands try_parse_shell cmd = Some inner → c ∈ inner → runs_inside cmd c
| inside_prefix cmd c :
    Shell.parse_shell_lc_single_command_prefix try_parse_shell cmd = Some c → runs_inside cmd c
| inside_script cmd shell script tokens :
    Sensitive.extract_shell_command cmd = Some (shell, script) →
    tokenize_shell_script shlex_split script = Some tokens → runs_inside cmd tokens.

Inductive modifies : nat → list rstring → Prop :=
| modifies_here n cmd : is_Some (detect_mutating_shell_command python_open_write cmd) → modifies n cmd
| modifies_inside n cmd c : runs_inside cmd c → modifies n c → modifies (S n) cmd.

Lemma first_block_blocks l : first_block l ≠ Allow ↔ ∃ d, d ∈ l ∧ d ≠ Allow.
Proof.
  induction l as [|d l IH]; cbn [first_block].
  { split; [done|]. by intros (d & ?%elem_of_nil & _). }
  setoid_rewrite elem_of_cons. destruct d; [rewrite IH|]; naive_solver.
Qed.

(** What the check looks at below a command. *)
Lemma inner_checks_spec {A} (f : list rstring → A) cmd d :
  d ∈ match Shell.parse_shell_lc_plain_commands try_parse_shell cmd with Some inner => f <$> inner | None => [] end
      ++ match Shell.parse_shell_lc_single_command_prefix try_parse_shell cmd with
         | Some inner => [f inner] | None => [] end
      ++ match Sensitive.extract_shell_command cmd with
         | Some (_, script) =>
             match tokenize_shell_script shlex_split script with Some tokens => [f tokens] | None => [] end
         | None => [] end
  ↔ ∃ c, runs_inside cmd c ∧ d = f c.
Proof.
  rewrite !elem_of_app. split.
  - intros [Hd|[Hd|Hd]].
    + destruct (Shell.parse_shell_lc_plain_commands _ _) eqn:E; [|by apply elem_of_nil in Hd].
      apply list_elem_of_fmap in Hd as (c & -> & Hc). eauto using inside_plain.
    + destruct (Shell.parse_shell_lc_single_command_prefix _ _) eqn:E; [|by apply elem_of_nil in Hd].
      apply list_elem_of_singleton in Hd as ->. eauto using inside_prefix.
    + destruct (Sensitive.extract_shell_command cmd) as [[sh script]|] eqn:E; [|by apply elem_of_nil in Hd].
      destruct (tokenize_shell_script shlex_split script) eqn:Et; [|by apply elem_of_nil in Hd].
      apply list_elem_of_singleton in Hd as ->. eauto using inside_script.
  - intros (c & Hi & ->). destruct Hi as [? inner c Hp Hin|? c Hp|? sh script tokens Hx Ht].
    + left. rewrite Hp. by apply list_elem_of_fmap_2.
    + right. left. rewrite Hp. by apply list_elem_of_singleton.
    + right. right. rewrite Hx, Ht. by apply list_elem_of_singleton.
Qed.

Lemma check_below_modifies n cmd :
  check_below shlex_split try_parse_shell python_open_write n cmd ≠ Allow ↔ modifies n cmd.
Proof.
  revert cmd. induction n as [|n IH]; intros cmd; cbn [check_below];
    destruct (detect_mutating_shell_command python_open_write cmd) as [k|] eqn:Ed.
  1, 3: split; [intros _; by apply modifies_here; rewrite Ed|done].
  - split; [done|]. intros Hm. inversion Hm as [? ? Hs|]; subst. rewrite Ed in Hs. by destruct Hs.
  - rewrite first_block_blocks. setoid_rewrite inner_checks_spec. split.
    + intros (d & (c & Hi & ->) & Hd). apply (modifies_inside n cmd c); [done|by apply IH].
    + intros Hm. inversion Hm as [? ? Hs|? ? c Hi Hc]; subst; [rewrite Ed in Hs; by destruct Hs|].
      eexists. split; [by exists c|by apply IH].
Qed.

(** The check of shell commands in a strict turn blocks a command exactly when
    it, or a command inside up to four shell wrappers, is one that the detector
    of modifications names. *)
Theorem strict_shell_blocks_iff cmd :
  check_shell_command_allowed_in_strict_delegation shlex_split try_parse_shell python_open_write cmd ≠ Allow ↔
  modifies MAX_SHELL_WRAPPER_DEPTH cmd.
Proof. apply check_below_modifies. Qed.
End Blocked.

(** ** The other spelling of the command *)
Definition demo_candidate : rstring := Invocation.demo_patch.
Definition strict_turn : option rstring := Some STRICT_DELEGATION_MARKER.

(** What stands between an argument vector and the patch it would apply in a
    strict turn with no delegated candidate. *)
Definition stopped (shlex_split : rstring → option (list rstring)) (try_parse_shell : rstring → option Shell.tree)
    (python_open_write : rstring → bool) (argv : list rstring) : bool :=
  match check_shell_command_allowed_in_strict_delegation shlex_split try_parse_shell python_open_write argv,
        enforce_on_intercept strict_turn (Some default_state) argv with
  | Allow, Ok _ => false
  | _, _ => true
  end.

(** The tool's second name gets round the strict mode.  With no delegated
    candidate at all, [apply_patch <patch>] given to the shell tool is stopped,
    but [applypatch <patch>] passes both the check of shell commands and the
    check of intercepted patches, and is then read as that same patch. *)
Theorem applypatch_alias_not_strict shlex_split try_parse_shell python_open_write query :
  stopped shlex_split try_parse_shell python_open_write [ $"apply_patch"; demo_candidate ] = true ∧
  stopped shlex_split try_parse_shell python_open_write [ $"applypatch"; demo_candidate ] = false ∧
  Invocation.maybe_parse_apply_patch query [ $"applypatch"; demo_candidate ] =
    Invocation.maybe_parse_apply_patch query [ $"apply_patch"; demo_candidate ] ∧
  (∃ a, Invocation.maybe_parse_apply_patch query [ $"applypatch"; demo_candidate ] = Some (Invocation.Body a) ∧
        Parser.patch a = demo_candidate ∧ length (Parser.hunks a) = 3).
Proof. repeat split; try (vm_compute; reflexivity). eexists. vm_compute. eauto. Qed.
End Strict.
