(* ===== verification/NetworkApproval.v ===== *)
(** * NetworkApproval: asking about network access, once per host

    Models codex-rs/core/src/tools/network_approval.rs (the approval service and
    its handling of a request of the proxy), core/src/network_policy_decision.rs
    and the decision of network-proxy/src/network_policy.rs.

    Requests are handled by tasks that run against each other.  The service keeps
    its tables behind separate locks, so a task is a machine whose steps are what
    it does under one hold of a lock, and a step of the system lets any task do its
    next step.  The task that first asks for a host owns the question; the others
    wait on a shared cell until the owner has written its decision there and woken
    them.  Waiting is the code's loop on a tokio [Notify]: a [Notified] future is
    made, the cell is read, and if it holds nothing the task sleeps until
    [notify_waiters] has been called since the future was made.  What is modelled
    of [Notify] is its documented behaviour, the count of those calls.

    What comes from outside is an argument of a step: the active turn, what the
    hooks say, what the reviewer says.  Saving an amendment to the rules file
    changes nothing of the service and is not a step here. *)

From S2P Require Import Prelude AbsPath IpAddress Delegation ExecPolicy NetworkPolicy NetworkState FsPolicy PatchSafety ExecApproval ToolRun.

Module NetApproval.
Import PatchSafety ToolRun.

(** ** Requests and decisions *)
Inductive NetworkProtocol := Http | HttpsConnect | Socks5Tcp | Socks5Udp.
Record NetworkPolicyRequest := {
  protocol : NetworkProtocol;
  host : rstring;
  port : Z;
  client_addr : option rstring;
  method : option rstring;
  request_command : option rstring;
  exec_policy_hint : option rstring
}.

Inductive NetworkDecision :=
| DecisionAllow
| DecisionDeny (reason : rstring) (source : NetworkDecisionSource) (decision : NetworkPolicyDecision).

Definition REASON_POLICY_DENIED : rstring := $"policy_denied".
Definition REASON_NOT_ALLOWED : rstring := $"not_allowed".
Definition deny_with_source (reason : rstring) (source : NetworkDecisionSource) : NetworkDecision :=
  DecisionDeny (if is_empty reason then REASON_POLICY_DENIED else reason) source NetDeny.
Definition ask_with_source (reason : rstring) (source : NetworkDecisionSource) : NetworkDecision :=
  DecisionDeny (if is_empty reason then REASON_POLICY_DENIED else reason) source NetAsk.
Definition deny (reason : rstring) : NetworkDecision := deny_with_source reason Decider.
Definition ask_decision (reason : rstring) : NetworkDecision := ask_with_source reason Decider.

Record HostApprovalKey := { key_host : rstring; key_protocol : rstring; key_port : Z }.
#[export] Instance HostApprovalKey_eq_dec : EqDecision HostApprovalKey.
Proof. solve_decision. Defined.
#[export] Instance HostApprovalKey_countable : Countable HostApprovalKey.
Proof.
  by refine (inj_countable' (λ k, (key_host k, key_protocol k, key_port k))
    (λ x, {| key_host := x.1.1; key_protocol := x.1.2; key_port := x.2 |}) _); intros [].
Defined.

Definition approval_protocol (p : NetworkProtocol) : NetworkApprovalProtocol :=
  match p with Http => ApHttp | HttpsConnect => ApHttps | Socks5Tcp => ApSocks5Tcp | Socks5Udp => ApSocks5Udp end.
Definition protocol_key_label (p : NetworkApprovalProtocol) : rstring :=
  match p with ApHttp => $"http" | ApHttps => $"https" | ApSocks5Tcp => $"socks5-tcp" | ApSocks5Udp => $"socks5-udp" end.
Definition from_request (r : NetworkPolicyRequest) (p : NetworkApprovalProtocol) : HostApprovalKey :=
  {| key_host := to_ascii_lowercase (host r); key_protocol := protocol_key_label p; key_port := port r |}.
Definition key_of (r : NetworkPolicyRequest) : HostApprovalKey := from_request r (approval_protocol (protocol r)).

Inductive PendingApprovalDecision := AllowOnce | AllowForSession | PendingDeny.
Definition to_network_decision (d : PendingApprovalDecision) : NetworkDecision :=
  match d with AllowOnce | AllowForSession => DecisionAllow | PendingDeny => deny REASON_NOT_ALLOWED end.

Definition allows_network_approval_flow (p : AskForApproval) : bool := match p with Never => false | _ => true end.
Definition permission_profile_allows_network_approval_flow (p : PermissionProfile) : bool :=
  match p with Managed _ _ => true | _ => false end.

(** ** What the proxy says of a blocked request *)
Record BlockedRequest := {
  b_host : rstring;
  b_reason : rstring;
  b_client : option rstring;
  b_method : option rstring;
  b_mode : option Network.NetworkMode;
  b_protocol : rstring;
  b_decision : option rstring;
  b_source : option rstring;
  b_port : option Z;
  b_timestamp : Z
}.
Definition parse_network_policy_decision (v : rstring) : option NetworkPolicyDecision :=
  if v =?s $"deny" then Some NetDeny else if v =?s $"ask" then Some NetAsk else None.
Definition denial_detail (reason : rstring) : rstring :=
  if reason =?s $"denied" then $"domain is explicitly denied by policy and cannot be approved from this prompt"
  else if reason =?s $"not_allowed" then $"domain is not on the allowlist for the current sandbox mode"
  else if reason =?s $"not_allowed_local" then $"local/private network addresses are blocked by the sandbox policy"
  else if reason =?s $"method_not_allowed" then $"request method is blocked by the current network mode"
  else if reason =?s $"proxy_disabled" then $"network proxy is disabled"
  else $"request is blocked by network policy".
Definition denied_network_policy_message (b : BlockedRequest) : option rstring :=
  match b_decision b ≫= parse_network_policy_decision with
  | Some NetDeny =>
      let h := trim (b_host b) in
      Some (if is_empty h then $"Network access was blocked by policy."
            else $"Network access to " ++ [34%Z] ++ h ++ [34%Z] ++ $" was blocked: " ++ denial_detail (b_reason b) ++ $".")
  | _ => None
  end.

(** ** The service *)
(** A registered call; the trigger it also carries is only shown to the reviewer. *)
Record ActiveNetworkApprovalCall := { turn_id : rstring; call_command : rstring }.
(** The calls in the order they were registered; the cells that tasks wait on are
    named by the order they were made in. *)
Record PendingHostApproval := {
  pa_decision : option PendingApprovalDecision;
  (** How often [notify_waiters] was called. *)
  notify_calls : nat
}.
Definition new_pending_approval : PendingHostApproval := {| pa_decision := None; notify_calls := 0 |}.

Record NetworkApprovalService := {
  active_calls : list (rstring * ActiveNetworkApprovalCall);
  call_outcomes : gmap (list Z) NetworkApprovalOutcome;
  pending_host_approvals : gmap HostApprovalKey nat;
  cells : list PendingHostApproval;
  session_approved_hosts : gset HostApprovalKey;
  session_denied_hosts : gset HostApprovalKey
}.
Definition default_service : NetworkApprovalService :=
  {| active_calls := []; call_outcomes := ∅; pending_host_approvals := ∅; cells := [];
     session_approved_hosts := ∅; session_denied_hosts := ∅ |}.

Definition with_calls (s : NetworkApprovalService) (a : list (rstring * ActiveNetworkApprovalCall))
    (o : gmap (list Z) NetworkApprovalOutcome) : NetworkApprovalService :=
  {| active_calls := a; call_outcomes := o; pending_host_approvals := pending_host_approvals s; cells := cells s;
     session_approved_hosts := session_approved_hosts s; session_denied_hosts := session_denied_hosts s |}.
Definition with_pending (s : NetworkApprovalService) (p : gmap HostApprovalKey nat)
    (c : list PendingHostApproval) : NetworkApprovalService :=
  {| active_calls := active_calls s; call_outcomes := call_outcomes s; pending_host_approvals := p; cells := c;
     session_approved_hosts := session_approved_hosts s; session_denied_hosts := session_denied_hosts s |}.
Definition with_hosts (s : NetworkApprovalService) (approved denied : gset HostApprovalKey) : NetworkApprovalService :=
  {| active_calls := active_calls s; call_outcomes := call_outcomes s;
     pending_host_approvals := pending_host_approvals s; cells := cells s;
     session_approved_hosts := approved; session_denied_hosts := denied |}.

(** [IndexMap::insert] keeps the place of a key that is there. *)
Fixpoint index_insert (id : rstring) (c : ActiveNetworkApprovalCall) (l : list (rstring * ActiveNetworkApprovalCall)) :=
  match l with
  | [] => [(id, c)]
  | (id', c') :: l' => if id =?s id' then (id', c) :: l' else (id', c') :: index_insert id c l'
  end.
Definition register_active_call (id : rstring) (c : ActiveNetworkApprovalCall) (s : NetworkApprovalService) :=
  with_calls s (index_insert id c (active_calls s)) (call_outcomes s).
(** The two locks that [unregister_call] takes. *)
Definition remove_active_call (id : rstring) (s : NetworkApprovalService) :=
  with_calls s (List.filter (λ x, negb (x.1 =?s id)) (active_calls s)) (call_outcomes s).
Definition remove_call_outcome (id : rstring) (s : NetworkApprovalService) :=
  with_calls s (active_calls s) (delete id (call_outcomes s)).
Definition unregister_active_call (id : rstring) (s : NetworkApprovalService) :=
  remove_call_outcome id (remove_active_call id s).
Definition resolve_single_active_call (s : NetworkApprovalService) : option (rstring * ActiveNetworkApprovalCall) :=
  match active_calls s with [c] => Some c | _ => None end.
Definition get_or_create_pending_approval (k : HostApprovalKey) (s : NetworkApprovalService)
  : (nat * bool) * NetworkApprovalService :=
  match pending_host_approvals s !! k with
  | Some c => ((c, false), s)
  | None => let c := length (cells s) in
            ((c, true), with_pending s (<[k := c]> (pending_host_approvals s)) (cells s ++ [new_pending_approval]))
  end.
Definition record_call_outcome (id : rstring) (o : NetworkApprovalOutcome) (s : NetworkApprovalService) :=
  match call_outcomes s !! id with
  | Some DeniedByUser => s
  | _ => with_calls s (active_calls s) (<[id := o]> (call_outcomes s))
  end.
Definition take_outcome (id : rstring) (s : NetworkApprovalService)
  : option NetworkApprovalOutcome * NetworkApprovalService :=
  (call_outcomes s !! id, remove_call_outcome id s).
Definition sync_session_approved_hosts_to (s other : NetworkApprovalService) : NetworkApprovalService :=
  with_hosts other (session_approved_hosts s) (session_denied_hosts other).
(** The two parts of [PendingHostApproval::set_decision]: what it does under the
    lock of the decision, and the call that wakes the tasks that wait. *)
Definition write_decision (c : nat) (d : PendingApprovalDecision) (s : NetworkApprovalService) :=
  with_pending s (pending_host_approvals s)
    (alter (λ p, {| pa_decision := Some d; notify_calls := notify_calls p |}) c (cells s)).
Definition notify_waiters (c : nat) (s : NetworkApprovalService) :=
  with_pending s (pending_host_approvals s)
    (alter (λ p, {| pa_decision := pa_decision p; notify_calls := S (notify_calls p) |}) c (cells s)).
(** What a task reads of a cell. *)
Definition decision_of (s : NetworkApprovalService) (c : nat) : option PendingApprovalDecision :=
  cells s !! c ≫= pa_decision.
Definition calls_of (s : NetworkApprovalService) (c : nat) : nat :=
  match cells s !! c with Some p => notify_calls p | None => 0 end.
Definition remove_pending (k : HostApprovalKey) (s : NetworkApprovalService) :=
  with_pending s (delete k (pending_host_approvals s)) (cells s).

(** ** A task *)
(** What the owner of a question still has to do, one hold of a lock each. *)
Inductive Action :=
| RecordForSingleCall (o : NetworkApprovalOutcome)
| RecordCallOutcome (id : rstring) (o : NetworkApprovalOutcome)
| RemoveDenied
| InsertApproved
| RemoveApproved
| InsertDenied
| WriteDecision (d : PendingApprovalDecision)
| NotifyWaiters
| RemovePending.

Record TurnContext := { sub_id : rstring; turn_permission_profile : PermissionProfile;
                        turn_approval_policy : AskForApproval; turn_to_guardian : bool }.
Abbreviation OwnerCall := (option (rstring * ActiveNetworkApprovalCall)).

(** Where a task stands in [handle_inline_policy_request]. *)
Inductive Task :=
| CheckDenied (r : NetworkPolicyRequest)
| CheckApproved (r : NetworkPolicyRequest)
| GetPending (r : NetworkPolicyRequest)
(** The loop of [wait_for_decision]: before [notify.notified()], with the future
    made when the calls were [seen], and asleep on it. *)
| Waiting (r : NetworkPolicyRequest) (cell : nat)
| WaitCheck (r : NetworkPolicyRequest) (cell seen : nat)
| WaitNotified (r : NetworkPolicyRequest) (cell seen : nat)
| FindTurn (r : NetworkPolicyRequest) (cell : nat)
| FindCall (r : NetworkPolicyRequest) (cell : nat) (turn : TurnContext)
| AskHooks (r : NetworkPolicyRequest) (cell : nat) (turn : TurnContext) (owner_call : OwnerCall)
| AskReviewer (r : NetworkPolicyRequest) (cell : nat) (turn : TurnContext) (owner_call : OwnerCall)
| Acting (r : NetworkPolicyRequest) (cell : nat) (acts : list Action) (result : NetworkDecision)
| Done (r : NetworkPolicyRequest) (result : NetworkDecision).

(** What the world would answer at a step. *)
Record Answers := {
  active_turn_context : option TurnContext;
  hooks_say : option PermissionRequestDecision;
  reviewer_says : ReviewDecision;
  rejection_message : rstring;
  timeout_message : rstring
}.

(** What was said about a key. *)
Inductive Said :=
| HooksSaid (k : HostApprovalKey) (d : PermissionRequestDecision)
| ReviewerSaid (k : HostApprovalKey) (d : ReviewDecision)
| SyncedFrom (hosts : gset HostApprovalKey).

Definition format_network_target (protocol host : rstring) (port : Z) : rstring :=
  protocol ++ $"://" ++ host ++ $":" ++ show_nat (Z.to_nat port).
Definition policy_denial_message (r : NetworkPolicyRequest) : rstring :=
  $"Network access to " ++ [34%Z] ++ format_network_target (key_protocol (key_of r)) (host r) (port r) ++ [34%Z] ++
  $" was blocked by policy.".

Definition record_if_owned (owner_call : OwnerCall) (o : NetworkApprovalOutcome) : list Action :=
  match owner_call with Some (id, _) => [RecordCallOutcome id o] | None => [] end.
Definition set_decision (d : PendingApprovalDecision) : list Action := [WriteDecision d; NotifyWaiters].
Definition settle (d : PendingApprovalDecision) : list Action := set_decision d ++ [RemovePending].

(** After the reviewer's answer: the decision, the outcome to record for the call,
    and whether a denial is kept for the session. *)
Definition resolve_review (by_guardian : bool) (w : Answers)
  : PendingApprovalDecision * option NetworkApprovalOutcome * bool :=
  match reviewer_says w with
  | Approved | ApprovedExecpolicyAmendment _ => (AllowOnce, None, false)
  | ApprovedForSession => (AllowForSession, None, false)
  | NetworkAmended a =>
      match amend_action a with
      | RuleAllow => (AllowForSession, None, false)
      | RuleDeny => (PendingDeny, Some DeniedByUser, true)
      end
  | ReviewDenied | Abort =>
      (PendingDeny, Some (if by_guardian then DeniedByPolicy (rejection_message w) else DeniedByUser), false)
  | TimedOut => (PendingDeny, Some (DeniedByPolicy (timeout_message w)), false)
  end.

Definition after_review (r : NetworkPolicyRequest) (cell : nat) (turn : TurnContext) (owner_call : OwnerCall)
    (w : Answers) : Task :=
  let '(resolved, outcome, cache_session_deny) := resolve_review (turn_to_guardian turn) w in
  Acting r cell
    (match outcome with Some o => record_if_owned owner_call o | None => [] end
     ++ match resolved with AllowForSession => [RemoveDenied; InsertApproved] | _ => [] end
     ++ (if cache_session_deny then [RemoveApproved; InsertDenied] else [])
     ++ settle resolved)
    (to_network_decision resolved).

Definition do_action (k : HostApprovalKey) (cell : nat) (a : Action) (s : NetworkApprovalService)
  : list Action * NetworkApprovalService :=
  let approved := session_approved_hosts s in
  let denied := session_denied_hosts s in
  match a with
  | RecordForSingleCall o => (record_if_owned (resolve_single_active_call s) o, s)
  | RecordCallOutcome id o => ([], record_call_outcome id o s)
  | RemoveDenied => ([], with_hosts s approved (denied ∖ {[k]}))
  | InsertApproved => ([], with_hosts s ({[k]} ∪ approved) denied)
  | RemoveApproved => ([], with_hosts s (approved ∖ {[k]}) denied)
  | InsertDenied => ([], with_hosts s approved ({[k]} ∪ denied))
  | WriteDecision d => ([], write_decision cell d s)
  | NotifyWaiters => ([], notify_waiters cell s)
  | RemovePending => ([], remove_pending k s)
  end.

(** The next step of a task, with what is said at it; [None] if it has to wait or
    has ended. *)
Definition step_task (w : Answers) (t : Task) (s : NetworkApprovalService)
  : option (Task * NetworkApprovalService * list Said) :=
  match t with
  | CheckDenied r =>
      Some (if decide (key_of r ∈ session_denied_hosts s) then Done r (deny REASON_NOT_ALLOWED)
            else CheckApproved r, s, [])
  | CheckApproved r =>
      Some (if decide (key_of r ∈ session_approved_hosts s) then Done r DecisionAllow else GetPending r, s, [])
  | GetPending r =>
      let '((cell, is_owner), s) := get_or_create_pending_approval (key_of r) s in
      Some (if is_owner then FindTurn r cell else Waiting r cell, s, [])
  | Waiting r cell => Some (WaitCheck r cell (calls_of s cell), s, [])
  | WaitCheck r cell seen =>
      Some (match decision_of s cell with
            | Some d => Done r (to_network_decision d)
            | None => WaitNotified r cell seen
            end, s, [])
  | WaitNotified r cell seen => if calls_of s cell =? seen then None else Some (Waiting r cell, s, [])
  | FindTurn r cell =>
      let refuse := Acting r cell (settle PendingDeny ++ [RecordForSingleCall (DeniedByPolicy (policy_denial_message r))])
                      (deny REASON_NOT_ALLOWED) in
      Some (match active_turn_context w with
            | None => refuse
            | Some turn =>
                if negb (permission_profile_allows_network_approval_flow (turn_permission_profile turn)) then refuse
                else if negb (allows_network_approval_flow (turn_approval_policy turn)) then refuse
                else FindCall r cell turn
            end, s, [])
  | FindCall r cell turn => Some (AskHooks r cell turn (resolve_single_active_call s), s, [])
  | AskHooks r cell turn owner_call =>
      match hooks_say w with
      | None => Some (AskReviewer r cell turn owner_call, s, [])
      | Some HookAllow =>
          Some (Acting r cell (settle AllowOnce) DecisionAllow, s, [HooksSaid (key_of r) HookAllow])
      | Some (HookDeny m) =>
          Some (Acting r cell (record_if_owned owner_call (DeniedByPolicy m) ++ settle PendingDeny)
                  (deny REASON_NOT_ALLOWED), s, [HooksSaid (key_of r) (HookDeny m)])
      end
  | AskReviewer r cell turn owner_call =>
      Some (after_review r cell turn owner_call w, s, [ReviewerSaid (key_of r) (reviewer_says w)])
  | Acting r cell [] result => Some (Done r result, s, [])
  | Acting r cell (a :: acts) result =>
      let '(more, s) := do_action (key_of r) cell a s in Some (Acting r cell (more ++ acts) result, s, [])
  | Done _ _ => None
  end.

(** ** The system *)
Record System := { service : NetworkApprovalService; tasks : list Task; said : list Said }.

(** What calls and the proxy do to the service from outside its tasks, one hold of
    a lock each. *)
Inductive CallOp :=
| Register (id : rstring) (c : ActiveNetworkApprovalCall)
| RemoveCall (id : rstring)
| RemoveOutcome (id : rstring)
| NoteOutcome (id : rstring) (o : NetworkApprovalOutcome).
Definition call_op (op : CallOp) (s : NetworkApprovalService) : NetworkApprovalService :=
  match op with
  | Register id c => register_active_call id c s
  | RemoveCall id => remove_active_call id s
  | RemoveOutcome id => remove_call_outcome id s
  | NoteOutcome id o => record_call_outcome id o s
  end.

(** A task doing its next step. *)
Inductive task_step : System → System → Prop :=
| step_run s ts tr i t w t' s' ev :
    ts !! i = Some t → step_task w t s = Some (t', s', ev) →
    task_step {| service := s; tasks := ts; said := tr |}
              {| service := s'; tasks := <[i := t']> ts; said := tr ++ ev |}.
Inductive sys_step : System → System → Prop :=
| step_request s ts tr r :
    sys_step {| service := s; tasks := ts; said := tr |}
             {| service := s; tasks := ts ++ [CheckDenied r]; said := tr |}
| step_task_runs y y' : task_step y y' → sys_step y y'
| step_call s ts tr op :
    sys_step {| service := s; tasks := ts; said := tr |} {| service := call_op op s; tasks := ts; said := tr |}
| step_sync s ts tr other :
    sys_step {| service := s; tasks := ts; said := tr |}
             {| service := sync_session_approved_hosts_to other s; tasks := ts;
                said := tr ++ [SyncedFrom (session_approved_hosts other)] |}.
Definition initial : System := {| service := default_service; tasks := []; said := [] |}.
Definition reachable (y : System) : Prop := rtc sys_step initial y.

(** ** The owner of a question *)
Definition removes (a : Action) : bool := match a with RemovePending => true | _ => false end.
Definition holds (t : Task) : option (HostApprovalKey * nat) :=
  match t with
  | FindTurn r c | FindCall r c _ | AskHooks r c _ _ | AskReviewer r c _ _ => Some (key_of r, c)
  | Acting r c acts _ => if existsb removes acts then Some (key_of r, c) else None
  | _ => None
  end.
Definition undecided (s : NetworkApprovalService) (c : nat) : Prop := cells s !! c = Some new_pending_approval.
Definition decided (s : NetworkApprovalService) (c : nat) : Prop := is_Some (decision_of s c).
Definition notified (s : NetworkApprovalService) (c : nat) : Prop := decided s c ∧ calls_of s c ≠ 0.

(** How far the owner is with its list. *)
Inductive Phase := Before | Deciding | Between | After.
Definition plain (a : Action) : Prop := match a with WriteDecision _ | NotifyWaiters | RemovePending => False | _ => True end.
Inductive in_phase : Phase → list Action → Prop :=
| after_nil : in_phase After []
| after_cons a acts : plain a → in_phase After acts → in_phase After (a :: acts)
| between_cons acts : in_phase After acts → in_phase Between (RemovePending :: acts)
| deciding_cons acts : in_phase Between acts → in_phase Deciding (NotifyWaiters :: acts)
| before_set d acts : in_phase Deciding acts → in_phase Before (WriteDecision d :: acts)
| before_cons a acts : plain a → in_phase Before acts → in_phase Before (a :: acts).

Definition approving_review (d : ReviewDecision) : bool :=
  match d with
  | Approved | ApprovedExecpolicyAmendment _ | ApprovedForSession => true
  | NetworkAmended a => match amend_action a with RuleAllow => true | RuleDeny => false end
  | ReviewDenied | TimedOut | Abort => false
  end.
(** Someone said yes to this host, protocol and port. *)
Definition says_yes (k : HostApprovalKey) (e : Said) : Prop :=
  match e with
  | HooksSaid k' HookAllow => k' = k
  | HooksSaid _ (HookDeny _) => False
  | ReviewerSaid k' d => k' = k ∧ approving_review d = true
  | SyncedFrom hosts => k ∈ hosts
  end.
Definition consented (k : HostApprovalKey) (tr : list Said) : Prop := Exists (says_yes k) tr.

Definition allows (d : PendingApprovalDecision) : Prop := d ≠ PendingDeny.
Definition grants (a : Action) : Prop :=
  match a with WriteDecision d => allows d | InsertApproved => True | _ => False end.
Definition phase_ok (s : NetworkApprovalService) (k : HostApprovalKey) (c : nat) (ph : Phase) : Prop :=
  match ph with
  | Before => pending_host_approvals s !! k = Some c ∧ undecided s c
  | Deciding => pending_host_approvals s !! k = Some c ∧ decided s c
  | Between => pending_host_approvals s !! k = Some c ∧ notified s c
  | After => True
  end.
(** A task that waits for a cell: the owner has not left it behind. *)
Definition waits_ok (tr : list Said) (s : NetworkApprovalService) (k : HostApprovalKey) (c : nat) : Prop :=
  (notified s c ∨ pending_host_approvals s !! k = Some c) ∧
  (∀ d, decision_of s c = Some d → allows d → consented k tr).
Definition task_ok (tr : list Said) (s : NetworkApprovalService) (t : Task) : Prop :=
  match t with
  | CheckDenied _ | CheckApproved _ | GetPending _ => True
  | Waiting r c => waits_ok tr s (key_of r) c
  | WaitCheck r c seen => waits_ok tr s (key_of r) c ∧ (decision_of s c = None → seen = 0)
  | WaitNotified r c seen => waits_ok tr s (key_of r) c ∧ seen = 0
  | FindTurn r c | FindCall r c _ | AskHooks r c _ _ | AskReviewer r c _ _ => phase_ok s (key_of r) c Before
  | Acting r c acts result =>
      (∃ ph, in_phase ph acts ∧ phase_ok s (key_of r) c ph) ∧
      (∀ a, a ∈ acts → grants a → consented (key_of r) tr) ∧ (result = DecisionAllow → consented (key_of r) tr)
  | Done r result => result = DecisionAllow → consented (key_of r) tr
  end.

Record system_ok (y : System) : Prop := {
  ok_tasks : ∀ i t, tasks y !! i = Some t → task_ok (said y) (service y) t;
  ok_owners : ∀ i j ti tj k c c', tasks y !! i = Some ti → tasks y !! j = Some tj →
    holds ti = Some (k, c) → holds tj = Some (k, c') → i = j;
  ok_pending : ∀ k c, pending_host_approvals (service y) !! k = Some c →
    c < length (cells (service y)) ∧ ∃ i t, tasks y !! i = Some t ∧ holds t = Some (k, c);
  ok_cells : ∀ k k' c, pending_host_approvals (service y) !! k = Some c →
    pending_host_approvals (service y) !! k' = Some c → k = k';
  ok_answered : ∀ k c d, pending_host_approvals (service y) !! k = Some c →
    decision_of (service y) c = Some d → allows d → consented k (said y);
  ok_quiet : ∀ c, decision_of (service y) c = None → calls_of (service y) c = 0;
  ok_approved : ∀ k, k ∈ session_approved_hosts (service y) → consented k (said y)
}.

Lemma consented_app k tr ev : consented k tr → consented k (tr ++ ev).
Proof. intros Hc. apply Exists_app. by left. Qed.
Lemma consented_last k tr e : says_yes k e → consented k (tr ++ [e]).
Proof. intros He. apply Exists_app. right. by apply Exists_cons_hd. Qed.

Lemma in_phase_removes ph acts : in_phase ph acts → existsb removes acts = match ph with After => false | _ => true end.
Proof. induction 1 as [|a ? Hp _ IH|? _ IH|? _ IH|? ? _ IH|a ? Hp _ IH]; cbn; try done; by destruct a. Qed.
Lemma in_phase_plain_app pre acts ph :
  Forall plain pre → ph ≠ Between → ph ≠ Deciding → in_phase ph acts → in_phase ph (pre ++ acts).
Proof. induction 1; [done|]. intros Hne Hnd Hp. cbn [app]. destruct ph; [|done|done|]; constructor; auto. Qed.
Lemma settle_phase d post : in_phase After post → in_phase Before (settle d ++ post).
Proof. intros Hp. by repeat constructor. Qed.

(** A task that holds a key is registered under it. *)
Lemma holds_pending tr s t k c : task_ok tr s t → holds t = Some (k, c) → pending_host_approvals s !! k = Some c.
Proof.
  destruct t as [r|r|r|r c0|r c0 g|r c0 g|r c0|r c0 tn|r c0 tn oc|r c0 tn oc|r c0 acts res|r res]; cbn [holds]; try done.
  1-4: by intros [Hp _] [= <- <-].
  intros [(ph & Hph & Ho) _]. rewrite (in_phase_removes ph acts Hph). destruct ph; [|..|done];
    intros [= <- <-]; by destruct Ho.
Qed.

(** *** What the changes of a cell are *)
Lemma undecided_decision s c : undecided s c → decision_of s c = None ∧ calls_of s c = 0.
Proof. unfold undecided, decision_of, calls_of. by intros ->. Qed.
Lemma decided_length s c : decided s c → c < length (cells s).
Proof.
  unfold decided, decision_of. destruct (cells s !! c) eqn:E; [|by intros [? ?]]. intros _. by eapply lookup_lt_Some.
Qed.
Lemma decision_of_write c d s c' :
  c < length (cells s) → decision_of (write_decision c d s) c' = if decide (c' = c) then Some d else decision_of s c'.
Proof.
  intros Hc. unfold decision_of. cbn [write_decision with_pending cells]. rewrite list_lookup_alter.
  destruct (decide (c = c')) as [<-|]; [|by rewrite decide_False by congruence].
  rewrite decide_True by done. destruct (lookup_lt_is_Some_2 _ _ Hc) as [p ->]. done.
Qed.
Lemma calls_of_write c d s c' : calls_of (write_decision c d s) c' = calls_of s c'.
Proof.
  unfold calls_of. cbn [write_decision with_pending cells]. rewrite list_lookup_alter.
  destruct (decide (c = c')) as [<-|]; [|done]. by destruct (cells s !! c).
Qed.
Lemma decision_of_notify c s c' : decision_of (notify_waiters c s) c' = decision_of s c'.
Proof.
  unfold decision_of. cbn [notify_waiters with_pending cells]. rewrite list_lookup_alter.
  destruct (decide (c = c')) as [<-|]; [|done]. by destruct (cells s !! c).
Qed.
Lemma calls_of_notify c s c' :
  c < length (cells s) → calls_of (notify_waiters c s) c' = if decide (c' = c) then S (calls_of s c) else calls_of s c'.
Proof.
  intros Hc. unfold calls_of. cbn [notify_waiters with_pending cells]. rewrite list_lookup_alter.
  destruct (decide (c = c')) as [<-|]; [|by rewrite decide_False by congruence].
  rewrite decide_True by done. destruct (lookup_lt_is_Some_2 _ _ Hc) as [p ->]. done.
Qed.
Lemma notified_notify c s : decided s c → notified (notify_waiters c s) c.
Proof.
  intros Hd. pose proof (decided_length _ _ Hd). unfold notified, decided.
  rewrite decision_of_notify, calls_of_notify, decide_True by done. done.
Qed.
Lemma undecided_notify c s c' : decided s c → undecided s c' → undecided (notify_waiters c s) c'.
Proof.
  intros Hd Hu. unfold undecided. cbn [notify_waiters with_pending cells].
  rewrite list_lookup_alter_ne; [done|]. intros <-. apply undecided_decision in Hu as [Hn _].
  unfold decided in Hd. rewrite Hn in Hd. by destruct Hd.
Qed.

Definition created (s : NetworkApprovalService) (k : HostApprovalKey) : NetworkApprovalService :=
  with_pending s (<[k := length (cells s)]> (pending_host_approvals s)) (cells s ++ [new_pending_approval]).
Lemma cells_created s k c : cells (created s k) !! c
  = if decide (c = length (cells s)) then Some new_pending_approval else cells s !! c.
Proof.
  cbn [cells with_pending created]. case_decide as Hc.
  - subst c. by apply list_lookup_middle.
  - destruct (decide (c < length (cells s))); [by apply lookup_app_l|].
    rewrite !lookup_ge_None_2; rewrite ?length_app; cbn; try done; lia.
Qed.
Lemma decision_of_created s k c : decision_of (created s k) c = decision_of s c.
Proof.
  unfold decision_of. rewrite cells_created. case_decide as Hc; [|done]. subst c. by rewrite lookup_ge_None_2 by lia.
Qed.
Lemma calls_of_created s k c : calls_of (created s k) c = calls_of s c.
Proof.
  unfold calls_of. rewrite cells_created. case_decide as Hc; [|done]. subst c. by rewrite lookup_ge_None_2 by lia.
Qed.

(** *** What other tasks notice of a step *)
Lemma task_ok_mono tr ev s s' t :
  (∀ k c, pending_host_approvals s !! k = Some c → pending_host_approvals s' !! k = Some c) →
  (∀ c, decision_of s' c = decision_of s c) → (∀ c, calls_of s c ≠ 0 → calls_of s' c ≠ 0) →
  (∀ c, undecided s c → undecided s' c) → task_ok tr s t → task_ok (tr ++ ev) s' t.
Proof.
  intros Hp Hd Hk Hu.
  assert (Hn : ∀ c, notified s c → notified s' c) by (intros c [H1 H2]; split; [unfold decided; by rewrite Hd|by apply Hk]).
  assert (Hw : ∀ k c, waits_ok tr s k c → waits_ok (tr ++ ev) s' k c).
  { intros k c [H1 H2]. split; [naive_solver|]. intros d. rewrite Hd. intros. apply consented_app. by eapply H2. }
  assert (Hph : ∀ k c ph, phase_ok s k c ph → phase_ok s' k c ph).
  { intros k c []; unfold phase_ok, decided; rewrite ?Hd; naive_solver. }
  destruct t; cbn [task_ok]; rewrite ?Hd; try done; try (by apply Hph); try (by apply Hw).
  - intros [H1 H2]. split; [by apply Hw|done].
  - intros [H1 H2]. split; [by apply Hw|done].
  - intros ((ph & Hin & Ho) & H2 & H3). split_and!; eauto using consented_app.
  - eauto using consented_app.
Qed.
Lemma task_ok_same tr ev s s' t :
  pending_host_approvals s' = pending_host_approvals s → cells s' = cells s →
  task_ok tr s t → task_ok (tr ++ ev) s' t.
Proof.
  intros Hp Hc. apply task_ok_mono; [by rewrite Hp|..]; unfold decision_of, calls_of, undecided; by rewrite Hc.
Qed.
Lemma task_ok_created tr ev s t k :
  pending_host_approvals s !! k = None → task_ok tr s t → task_ok (tr ++ ev) (created s k) t.
Proof.
  intros Hk. apply task_ok_mono.
  - intros k' c Hc. cbn [created pending_host_approvals with_pending]. rewrite lookup_insert_ne by congruence. done.
  - apply decision_of_created.
  - intros c. by rewrite calls_of_created.
  - intros c Hc. unfold undecided. rewrite cells_created. by case_decide.
Qed.
Lemma task_ok_notify tr ev s t c : decided s c → task_ok tr s t → task_ok (tr ++ ev) (notify_waiters c s) t.
Proof.
  intros Hd. pose proof (decided_length _ _ Hd). apply task_ok_mono; [done|apply decision_of_notify|..].
  - intros c'. rewrite calls_of_notify by done. by case_decide.
  - intros c'. by apply undecided_notify.
Qed.

Lemma task_ok_decision tr s t k c d :
  pending_host_approvals s !! k = Some c → undecided s c → (allows d → consented k tr) →
  (∀ k', pending_host_approvals s !! k' = Some c → k' = k) → (∀ c', holds t ≠ Some (k, c')) →
  task_ok tr s t → task_ok tr (write_decision c d s) t.
Proof.
  intros Hk Hu Hd Hinj Hh.
  assert (Hlen : c < length (cells s)) by by apply lookup_lt_Some in Hu.
  pose proof (λ c', decision_of_write c d s c' Hlen) as Hl. pose proof (undecided_decision _ _ Hu) as [Hnone _].
  assert (Hdec : ∀ c', decided s c' → decided (write_decision c d s) c').
  { intros c'. unfold decided. rewrite Hl. case_decide; by eauto. }
  assert (Hn : ∀ c', notified s c' → notified (write_decision c d s) c').
  { intros c' [? ?]. split; [by apply Hdec|by rewrite calls_of_write]. }
  assert (Hw : ∀ k' c', waits_ok tr s k' c' → waits_ok tr (write_decision c d s) k' c').
  { intros k' c' [H1 H2]. split; [naive_solver|]. intros d'. rewrite Hl. case_decide; [|by apply H2].
    subst c'. intros [= <-] Ha. destruct H1 as [[[d1 Hd1] _]|Hp]; [congruence|]. rewrite (Hinj _ Hp). by apply Hd. }
  assert (Hph : ∀ r' c' ph, (ph ≠ After → (∀ c0, (key_of r', c') ≠ (k, c0))) →
    phase_ok s (key_of r') c' ph → phase_ok (write_decision c d s) (key_of r') c' ph).
  { intros r' c' ph Hne. destruct ph; [|naive_solver..]. intros [Hp Hx]. split; [done|]. unfold undecided.
    cbn [write_decision with_pending cells]. rewrite list_lookup_alter_ne; [done|]. intros <-.
    apply (Hne ltac:(done) c). by rewrite (Hinj _ Hp). }
  destruct t; cbn [task_ok]; try done; try (by apply Hw);
    try by (apply Hph; intros _ c0 Hc0; apply (Hh c0); cbn [holds]; congruence).
  - intros [H1 H2]. split; [by apply Hw|]. rewrite Hl. by case_decide.
  - intros [H1 H2]. split; [by apply Hw|done].
  - intros ((ph & Hin & Ho) & H2 & H3). split_and!; [|done..]. exists ph. split; [done|]. apply Hph; [|done].
    intros Hne c0 Hc0. apply (Hh c0). cbn [holds]. rewrite (in_phase_removes _ _ Hin). by destruct ph; rewrite ?Hc0.
Qed.

Lemma task_ok_removed tr s t k c :
  pending_host_approvals s !! k = Some c → notified s c → (∀ c', holds t ≠ Some (k, c')) →
  task_ok tr s t → task_ok tr (remove_pending k s) t.
Proof.
  intros Hk Hd Hh.
  assert (Hp : ∀ k' c', pending_host_approvals s !! k' = Some c' → k' ≠ k →
    pending_host_approvals (remove_pending k s) !! k' = Some c').
  { intros k' c' Hp Hne. cbn. by rewrite lookup_delete_ne. }
  assert (Hw : ∀ k' c', waits_ok tr s k' c' → waits_ok tr (remove_pending k s) k' c').
  { intros k' c' [H1 H2]. split; [|done]. destruct H1 as [H1|H1]; [by left|].
    destruct (decide (k' = k)) as [->|Hne]; [left; by simplify_eq|right; by apply Hp]. }
  assert (Hph : ∀ r' c' ph, (ph ≠ After → (∀ c0, (key_of r', c') ≠ (k, c0))) →
    phase_ok s (key_of r') c' ph → phase_ok (remove_pending k s) (key_of r') c' ph).
  { intros r' c' ph Hne. destruct ph; [..|done]; intros [H1 H2]; (split; [apply Hp; [done|]|done]);
      intros <-; by apply (Hne ltac:(done) c'). }
  destruct t; cbn [task_ok]; try done; try (by apply Hw);
    try by (apply Hph; intros _ c0 Hc0; apply (Hh c0); cbn [holds]; congruence).
  - intros [H1 H2]. split; [by apply Hw|done].
  - intros [H1 H2]. split; [by apply Hw|done].
  - intros ((ph & Hin & Ho) & H2 & H3). split_and!; [|done..]. exists ph. split; [done|]. apply Hph; [|done].
    intros Hne c0 Hc0. apply (Hh c0). cbn [holds]. rewrite (in_phase_removes _ _ Hin). by destruct ph; rewrite ?Hc0.
Qed.

(** *** What a task does at a step *)
Inductive step_kind (s : NetworkApprovalService) : Task → NetworkApprovalService → Task → Prop :=
| kind_same t t' s' :
    pending_host_approvals s' = pending_host_approvals s → cells s' = cells s → holds t' = holds t →
    (∀ k, k ∈ session_approved_hosts s' → k ∈ session_approved_hosts s ∨
       ∃ r c acts res, t = Acting r c (InsertApproved :: acts) res ∧ k = key_of r) →
    step_kind s t s' t'
| kind_create r :
    pending_host_approvals s !! key_of r = None →
    step_kind s (GetPending r) (created s (key_of r)) (FindTurn r (length (cells s)))
| kind_decide r c d acts res :
    step_kind s (Acting r c (WriteDecision d :: acts) res) (write_decision c d s) (Acting r c acts res)
| kind_notify r c acts res :
    step_kind s (Acting r c (NotifyWaiters :: acts) res) (notify_waiters c s) (Acting r c acts res)
| kind_remove r c acts res :
    step_kind s (Acting r c (RemovePending :: acts) res) (remove_pending (key_of r) s) (Acting r c acts res).

Lemma removes_record oc o : existsb removes (record_if_owned oc o) = false.
Proof. by destruct oc as [[]|]. Qed.
Lemma removes_settle d post : existsb removes (settle d ++ post) = true.
Proof. done. Qed.
Lemma removes_after_review r c turn oc w :
  ∃ acts, after_review r c turn oc w = Acting r c acts (to_network_decision (resolve_review (turn_to_guardian turn) w).1.1)
          ∧ existsb removes acts = true.
Proof.
  unfold after_review. destruct (resolve_review _ _) as [[d o] b]. eexists. split; [done|].
  rewrite !existsb_app. replace (existsb removes (settle d)) with true by done. by rewrite !orb_true_r.
Qed.
Lemma call_outcome_core id o s :
  pending_host_approvals (record_call_outcome id o s) = pending_host_approvals s ∧
  cells (record_call_outcome id o s) = cells s ∧
  session_approved_hosts (record_call_outcome id o s) = session_approved_hosts s.
Proof. unfold record_call_outcome. by destruct (call_outcomes s !! id) as [[]|]. Qed.

Lemma step_acting_kind r c a acts res s more s' :
  do_action (key_of r) c a s = (more, s') →
  step_kind s (Acting r c (a :: acts) res) s' (Acting r c (more ++ acts) res).
Proof.
  destruct a as [o|id o| | | | |d| |]; cbn [do_action]; intros [= <- <-]; try by constructor.
  all: apply kind_same; cbn [holds existsb removes orb app];
    try (rewrite existsb_app, removes_record); try done; try apply call_outcome_core.
  - by left.
  - intros k. rewrite (proj2 (proj2 (call_outcome_core id o s))). by left.
  - by left.
  - intros k. cbn. rewrite elem_of_union, elem_of_singleton. intros [->|?]; [right; eauto 10|by left].
  - intros k. cbn. rewrite elem_of_difference. intros [? _]. by left.
  - by left.
Qed.

Lemma step_task_kind w t s t' s' ev : step_task w t s = Some (t', s', ev) → step_kind s t s' t'.
Proof.
  destruct t as [r|r|r|r c|r c g|r c g|r c|r c tn|r c tn oc|r c tn oc|r c [|a acts] res|r res]; cbn [step_task]; intros Hs.
  - injection Hs as <- <- _. apply kind_same; [done..|by case_decide|by left].
  - injection Hs as <- <- _. apply kind_same; [done..|by case_decide|by left].
  - unfold get_or_create_pending_approval in Hs. destruct (pending_host_approvals s !! key_of r) eqn:E;
      injection Hs as <- <- _; [by apply kind_same; [..|by left]|by apply kind_create].
  - injection Hs as <- <- _. by apply kind_same; [..|by left].
  - injection Hs as <- <- _. apply kind_same; [done..|by destruct (decision_of s c)|by left].
  - destruct (_ =? g); [done|]. injection Hs as <- <- _. by apply kind_same; [..|by left].
  - injection Hs as <- <- _. apply kind_same; [done..| |by left].
    destruct (active_turn_context w) as [tn|]; [|done]. by destruct (negb _); [|destruct (negb _)].
  - injection Hs as <- <- _. by apply kind_same; [..|by left].
  - destruct (hooks_say w) as [[|m]|]; injection Hs as <- <- _; (apply kind_same; [done..| |by left]); [done| |done].
    cbn [holds]. by rewrite existsb_app, removes_record.
  - injection Hs as <- <- _. apply kind_same; [done..| |by left].
    destruct (removes_after_review r c tn oc w) as (acts & -> & Hr). cbn [holds]. by rewrite Hr.
  - injection Hs as <- <- _. by apply kind_same; [..|by left].
  - destruct (do_action _ _ _ _) as [more s1] eqn:E. injection Hs as <- <- _. by apply step_acting_kind.
  - done.
Qed.

(** *** The task that did the step *)
Lemma allow_decision d : to_network_decision d = DecisionAllow → allows d.
Proof. by destruct d. Qed.
Lemma resolve_allows b w : allows (resolve_review b w).1.1 → approving_review (reviewer_says w) = true.
Proof.
  unfold resolve_review, allows. destruct (reviewer_says w) as [| | |a| | |]; cbn [fst approving_review]; try done.
  by destruct (amend_action a).
Qed.
Lemma resolve_denies b w : (resolve_review b w).2 = true → (resolve_review b w).1.1 = PendingDeny.
Proof. unfold resolve_review. destruct (reviewer_says w) as [| | |a| | |]; try done. by destruct (amend_action a). Qed.

Lemma record_plain oc o : Forall plain (record_if_owned oc o).
Proof. destruct oc as [[]|]; repeat constructor. Qed.
Lemma record_no_grant oc o a : a ∈ record_if_owned oc o → ¬ grants a.
Proof. destruct oc as [[id ?]|]; cbn [record_if_owned]; [intros ->%list_elem_of_singleton|intros ?%elem_of_nil]; tauto. Qed.

Lemma settle_grants d a : a ∈ settle d → grants a → allows d.
Proof.
  unfold settle, set_decision. cbn [app]. rewrite !elem_of_cons, elem_of_nil. by intros [->|[->|[->|[]]]].
Qed.

Lemma after_review_ok tr s r c turn oc w :
  phase_ok s (key_of r) c Before →
  task_ok (tr ++ [ReviewerSaid (key_of r) (reviewer_says w)]) s (after_review r c turn oc w).
Proof.
  intros Hp. unfold after_review. pose proof (resolve_allows (turn_to_guardian turn) w) as Ha.
  pose proof (resolve_denies (turn_to_guardian turn) w) as Hd.
  destruct (resolve_review _ _) as [[d o] b]. cbn [fst snd] in *.
  assert (Hc : allows d → consented (key_of r) (tr ++ [ReviewerSaid (key_of r) (reviewer_says w)])).
  { intros Hal. apply consented_last. split; [done|by apply Ha]. }
  cbn [task_ok]. split_and!; [|intros a|by intros ?%allow_decision; apply Hc].
  - exists Before. split; [|done]. rewrite !app_assoc. apply in_phase_plain_app; [|done|done|by repeat constructor].
    rewrite !Forall_app. split_and!; [destruct o; [apply record_plain|constructor]|destruct d|destruct b]; repeat constructor.
  - rewrite !elem_of_app. intros [Hx|[Hx|[Hx|Hx]]] Hg.
    + destruct o; [by apply record_no_grant in Hx|by apply elem_of_nil in Hx].
    + apply Hc. by destruct d; [apply elem_of_nil in Hx| |apply elem_of_nil in Hx].
    + exfalso. destruct b; [|by apply elem_of_nil in Hx].
      by apply elem_of_cons in Hx as [->|Hx]; [|apply list_elem_of_singleton in Hx as ->].
    + apply Hc. by apply settle_grants in Hx.
Qed.

Lemma deny_not_allow reason : deny reason ≠ DecisionAllow.
Proof. done. Qed.

Lemma act_task_ok tr s r c a acts res more s' :
  task_ok tr s (Acting r c (a :: acts) res) → do_action (key_of r) c a s = (more, s') →
  task_ok tr s' (Acting r c (more ++ acts) res).
Proof.
  intros ((ph & Hin & Hph) & Hg & Hr) Hd. cbn [task_ok].
  assert (Hg' : ∀ a', a' ∈ more ++ acts → grants a' → consented (key_of r) tr).
  { intros a' [Hm|Ha]%elem_of_app Hga; [|by apply (Hg a'); [by right|]].
    destruct a; cbn [do_action] in Hd; injection Hd as <- _; try by apply elem_of_nil in Hm.
    by apply record_no_grant in Hm. }
  split_and!; [|done|done]. clear Hg Hg' Hr.
  inversion Hin as [|? ? Hp Hx|? Hx|? Hx|d ? Hx|? ? Hp Hx]; subst.
  - exists After. split; [|done]. apply in_phase_plain_app; [|done..].
    destruct a; try done; cbn [do_action] in Hd; injection Hd as <- _; try apply record_plain; constructor.
  - injection Hd as <- <-. by exists After.
  - injection Hd as <- <-. exists Between. split; [done|]. destruct Hph as [Hk Hu]. split; [done|].
    by apply notified_notify.
  - injection Hd as <- <-. exists Deciding. split; [done|]. destruct Hph as [Hk Hu]. split; [done|].
    unfold decided. rewrite decision_of_write, decide_True by (done || by apply lookup_lt_Some in Hu). eauto.
  - exists Before. split.
    + apply in_phase_plain_app; [|done..].
      destruct a; try done; cbn [do_action] in Hd; injection Hd as <- _; try apply record_plain; constructor.
    + destruct a; try done; cbn [do_action] in Hd; injection Hd as _ <-; try done.
      unfold phase_ok, undecided. by rewrite (proj1 (call_outcome_core _ _ _)), (proj1 (proj2 (call_outcome_core _ _ _))).
Qed.

Lemma own_step_ok y w i t t' s' ev :
  system_ok y → tasks y !! i = Some t → step_task w t (service y) = Some (t', s', ev) →
  task_ok (said y ++ ev) s' t'.
Proof.
  intros Hy Hi Hs. pose proof (ok_tasks y Hy i t Hi) as Hok.
  destruct t as [r|r|r|r c|r c g|r c g|r c|r c tn|r c tn oc|r c tn oc|r c [|a acts] res|r res]; cbn [step_task] in Hs.
  - injection Hs as <- <- <-. by case_decide.
  - injection Hs as <- <- <-. case_decide as Ha; [|done]. intros _. apply consented_app. by apply (ok_approved y Hy).
  - unfold get_or_create_pending_approval in Hs. destruct (pending_host_approvals (service y) !! key_of r) as [c|] eqn:E;
      injection Hs as <- <- <-.
    + split; [by right|]. intros d Hd Ha. apply consented_app. by eapply (ok_answered y Hy).
    + cbn [task_ok phase_ok]. unfold undecided. fold (created (service y) (key_of r)).
      rewrite cells_created, decide_True by done. cbn. by rewrite lookup_insert_eq.
  - injection Hs as <- <- <-. rewrite app_nil_r. split; [done|]. apply (ok_quiet y Hy).
  - injection Hs as <- <- <-. rewrite app_nil_r. destruct Hok as [Hw Hg].
    destruct (decision_of (service y) c) as [d|] eqn:E; [|split; [done|by apply Hg]].
    intros Ha%allow_decision. by apply (proj2 Hw d).
  - destruct (_ =? g); [done|]. injection Hs as <- <- <-. rewrite app_nil_r. by destruct Hok.
  - injection Hs as <- <- <-.
    assert (Href : task_ok (said y ++ []) (service y) (Acting r c (settle PendingDeny ++
      [RecordForSingleCall (DeniedByPolicy (policy_denial_message r))]) (deny REASON_NOT_ALLOWED))).
    { split_and!; [exists Before; split; [|done]; by repeat constructor| |done].
      intros a [Ha|Ha]%elem_of_app Hg; [by apply (settle_grants PendingDeny a) in Hg|].
      by apply list_elem_of_singleton in Ha as ->. }
    destruct (active_turn_context w) as [tn|]; [|done]. by destruct (negb _); [|destruct (negb _)].
  - injection Hs as <- <- <-. done.
  - destruct (hooks_say w) as [[|m]|]; injection Hs as <- <- <-; [| |done].
    + split_and!; [exists Before; split; [|done]; apply (settle_phase AllowOnce []), after_nil| |];
        intros; by apply consented_last.
    + split_and!; [|intros a [Hx|Hx]%elem_of_app Hg|done].
      * exists Before. split; [|done]. apply in_phase_plain_app; [apply record_plain|done|done|].
        apply (settle_phase PendingDeny []), after_nil.
      * by apply record_no_grant in Hx.
      * by apply (settle_grants PendingDeny a) in Hg.
  - injection Hs as <- <- <-. by apply after_review_ok.
  - injection Hs as <- <- <-. intros Ha. apply consented_app. by apply (proj2 (proj2 Hok)).
  - destruct (do_action _ _ _ _) as [more s1] eqn:E. injection Hs as <- <- <-. rewrite app_nil_r.
    by eapply act_task_ok.
  - done.
Qed.

(** *** The system *)
Lemma update_ok s ts tr i t t' s' ev :
  system_ok {| service := s; tasks := ts; said := tr |} → ts !! i = Some t → task_ok (tr ++ ev) s' t' →
  (∀ j u, j ≠ i → ts !! j = Some u → task_ok (tr ++ ev) s' u) →
  (∀ k c, holds t' = Some (k, c) → holds t = Some (k, c) ∨ pending_host_approvals s !! k = None) →
  (∀ k c, pending_host_approvals s' !! k = Some c → c < length (cells s') ∧
     (holds t' = Some (k, c) ∨ (pending_host_approvals s !! k = Some c ∧ ∀ c', holds t ≠ Some (k, c')))) →
  (∀ k k' c, pending_host_approvals s' !! k = Some c → pending_host_approvals s' !! k' = Some c → k = k') →
  (∀ k c d, pending_host_approvals s' !! k = Some c → decision_of s' c = Some d → allows d → consented k (tr ++ ev)) →
  (∀ c, decision_of s' c = None → calls_of s' c = 0) →
  (∀ k, k ∈ session_approved_hosts s' → consented k (tr ++ ev)) →
  system_ok {| service := s'; tasks := <[i := t']> ts; said := tr ++ ev |}.
Proof.
  intros Hy Hi Ht' Hother Hown Hpend Hinj Hans Hq Happ. split; cbn [service tasks said]; [..|done|done|done|done].
  - intros j u. rewrite list_lookup_insert_Some. intros [(<- & <- & _)|[Hne Hu]]; [done|by eapply Hother].
  - assert (Hmix : ∀ j u k c c', j ≠ i → ts !! j = Some u → holds t' = Some (k, c) → holds u = Some (k, c') → False).
    { intros j u k c c' Hne Hu Hh Hhu. destruct (Hown k c Hh) as [Ht|Hnone].
      - by apply Hne; symmetry; apply (ok_owners _ Hy i j t u k c c').
      - pose proof (holds_pending _ _ _ _ _ (ok_tasks _ Hy j u Hu) Hhu) as Hx. cbn in Hx. congruence. }
    intros j1 j2 u1 u2 k c c'. rewrite !list_lookup_insert_Some.
    intros [(<- & <- & _)|[Hne1 Hu1]] [(<- & <- & _)|[Hne2 Hu2]] H1 H2; [done|exfalso; by eapply (Hmix j2)|
      exfalso; by eapply (Hmix j1)|by eapply (ok_owners _ Hy)].
  - intros k c Hp. destruct (Hpend k c Hp) as [Hlen Hcase]. split; [done|]. destruct Hcase as [Hh|[Hp0 Hno]].
    + exists i, t'. split; [|done]. apply list_lookup_insert_eq. by apply lookup_lt_Some in Hi.
    + destruct (ok_pending _ Hy k c Hp0) as (_ & j & u & Hu & Hh). exists j, u. split; [|done].
      rewrite list_lookup_insert_ne; [done|]. intros <-. cbn in Hu. simplify_eq. by apply (Hno c).
Qed.

Section Preserved.
Context (s : NetworkApprovalService) (ts : list Task) (tr ev : list Said) (i : nat).
Context (Hy : system_ok {| service := s; tasks := ts; said := tr |}).

Lemma other_not_holding t j u k c :
  ts !! i = Some t → j ≠ i → ts !! j = Some u → holds t = Some (k, c) → ∀ c', holds u ≠ Some (k, c').
Proof. intros Hi Hne Hu Hh c' Hx. by apply Hne; symmetry; apply (ok_owners _ Hy i j t u k c c'). Qed.
Lemma task_of j u : ts !! j = Some u → task_ok tr s u.
Proof. apply (ok_tasks _ Hy). Qed.

Lemma pending_kept t k c :
  ts !! i = Some t → pending_host_approvals s !! k = Some c →
  c < length (cells s) ∧
  (holds t = Some (k, c) ∨ (pending_host_approvals s !! k = Some c ∧ ∀ c', holds t ≠ Some (k, c'))).
Proof.
  intros Hi Hk. destruct (ok_pending _ Hy k c Hk) as (Hlen & j & u & Hu & Hhu). split; [done|].
  destruct (decide (j = i)) as [->|Hne]; [left; cbn in Hu; by simplify_eq|].
  right. split; [done|]. intros c' Hx. by apply (other_not_holding t j u k c' Hi Hne Hu Hx c).
Qed.

Lemma same_ok t t' s' :
  ts !! i = Some t → task_ok (tr ++ ev) s' t' →
  pending_host_approvals s' = pending_host_approvals s → cells s' = cells s → holds t' = holds t →
  (∀ k, k ∈ session_approved_hosts s' → k ∈ session_approved_hosts s ∨
     ∃ r c acts res, t = Acting r c (InsertApproved :: acts) res ∧ k = key_of r) →
  system_ok {| service := s'; tasks := <[i := t']> ts; said := tr ++ ev |}.
Proof.
  intros Hi Ht' Hp Hc Hh Ha.
  assert (Hdc : ∀ c, decision_of s' c = decision_of s c ∧ calls_of s' c = calls_of s c)
    by (intros c; unfold decision_of, calls_of; by rewrite Hc).
  apply (update_ok s ts tr i t); [done|done|done|..]; rewrite ?Hp, ?Hc, ?Hh.
  - intros j u _ Hu. by apply (task_ok_same tr ev s s'), (task_of j).
  - by left.
  - intros k c Hk. by apply pending_kept.
  - apply (ok_cells _ Hy).
  - intros k c d H1. rewrite (proj1 (Hdc c)). intros. apply consented_app. by apply (ok_answered _ Hy k c d).
  - intros c. destruct (Hdc c) as [-> ->]. apply (ok_quiet _ Hy).
  - intros k Hk. apply consented_app. destruct (Ha k Hk) as [Hk'|(r & c & acts & res & -> & ->)].
    + by apply (ok_approved _ Hy).
    + apply (proj1 (proj2 (task_of i _ Hi)) InsertApproved); [by left|done].
Qed.

Lemma create_ok r :
  ts !! i = Some (GetPending r) → pending_host_approvals s !! key_of r = None →
  let s' := created s (key_of r) in
  task_ok (tr ++ ev) s' (FindTurn r (length (cells s))) →
  system_ok {| service := s'; tasks := <[i := FindTurn r (length (cells s))]> ts; said := tr ++ ev |}.
Proof.
  intros Hi Hnone s' Ht'. pose proof (ok_pending _ Hy) as Hpen. cbn [service] in Hpen.
  assert (Hlook : ∀ k c, pending_host_approvals s' !! k = Some c →
    k = key_of r ∧ c = length (cells s) ∨ k ≠ key_of r ∧ pending_host_approvals s !! k = Some c).
  { intros k c. cbn [s' created with_pending pending_host_approvals]. rewrite lookup_insert_Some. naive_solver. }
  apply (update_ok s ts tr i (GetPending r)); [done|done|done|..].
  - intros j u _ Hu. by apply task_ok_created, (task_of j).
  - intros k c [= <- <-]. by right.
  - intros k c [[-> ->]|[Hne Hk]]%Hlook; cbn [s' created cells with_pending]; rewrite length_app; cbn [length].
    + split; [lia|by left].
    + destruct (Hpen k c Hk). split; [lia|right; split; [done|intros c' [=]]].
  - intros k k' c [[-> ->]|[Hne Hk]]%Hlook [[-> Hc']|[Hne' Hk']]%Hlook; [done|..|by apply (ok_cells _ Hy k k' c)].
    + destruct (Hpen _ _ Hk'). lia.
    + destruct (Hpen _ _ Hk). lia.
  - intros k c d Hk. unfold s'. rewrite decision_of_created. intros H1 H2. apply consented_app.
    apply Hlook in Hk as [[-> ->]|[Hne Hk]]; [|by apply (ok_answered _ Hy k c d)].
    unfold decision_of in H1. by rewrite lookup_ge_None_2 in H1 by lia.
  - intros c. unfold s'. rewrite decision_of_created, calls_of_created. apply (ok_quiet _ Hy).
  - intros k Hk. apply consented_app. by apply (ok_approved _ Hy).
Qed.

Lemma decide_ok r c d acts res :
  ts !! i = Some (Acting r c (WriteDecision d :: acts) res) →
  task_ok (tr ++ ev) (write_decision c d s) (Acting r c acts res) →
  system_ok {| service := write_decision c d s; tasks := <[i := Acting r c acts res]> ts; said := tr ++ ev |}.
Proof.
  intros Hi Ht'. destruct (task_of i _ Hi) as ((ph & Hin & Hph) & Hg & _).
  inversion Hin as [|? ? Hp _|?|?|? ? Hin'|? ? Hp _]; [done| |done]. subst ph. destruct Hph as [Hk Hu].
  assert (Hd : allows d → consented (key_of r) tr) by (intros Ha; apply (Hg (WriteDecision d)); [by left|done]).
  pose proof (λ c', decision_of_write c d s c' ltac:(by apply lookup_lt_Some in Hu)) as Hl.
  apply (update_ok s ts tr i (Acting r c (WriteDecision d :: acts) res)); [done|done|done|..].
  - intros j u Hne Hu'. apply (task_ok_same tr ev (write_decision c d s) (write_decision c d s)); [done..|].
    apply (task_ok_decision tr s u (key_of r)); [done|done|done| | |by apply (task_of j)].
    + intros k' Hk'. by apply (ok_cells _ Hy k' (key_of r) c).
    + apply (other_not_holding _ j u _ c Hi); [done..|]. cbn [holds existsb removes orb].
      by rewrite (in_phase_removes _ _ Hin').
  - by left.
  - intros k c' Hk'. cbn [write_decision with_pending pending_host_approvals cells] in *. rewrite length_alter.
    by apply (pending_kept (Acting r c (WriteDecision d :: acts) res)).
  - apply (ok_cells _ Hy).
  - intros k c' d' Hk'. rewrite Hl. case_decide as Hc; intros [= Hx] Ha; apply consented_app.
    + subst. rewrite (ok_cells _ Hy k (key_of r) c); auto.
    + by apply (ok_answered _ Hy k c' d').
  - intros c'. rewrite Hl, calls_of_write. case_decide; [done|apply (ok_quiet _ Hy)].
  - intros k Hk'. apply consented_app. by apply (ok_approved _ Hy).
Qed.

Lemma notify_ok r c acts res :
  ts !! i = Some (Acting r c (NotifyWaiters :: acts) res) →
  task_ok (tr ++ ev) (notify_waiters c s) (Acting r c acts res) →
  system_ok {| service := notify_waiters c s; tasks := <[i := Acting r c acts res]> ts; said := tr ++ ev |}.
Proof.
  intros Hi Ht'. destruct (task_of i _ Hi) as ((ph & Hin & Hph) & _).
  inversion Hin as [|? ? Hp _|?|? Hin'|? ? ?|? ? Hp _]; [done| |done]. subst ph. destruct Hph as [Hk Hdec].
  pose proof (decided_length _ _ Hdec) as Hlen.
  apply (update_ok s ts tr i (Acting r c (NotifyWaiters :: acts) res)); [done|done|done|..].
  - intros j u Hne Hu'. by apply task_ok_notify, (task_of j).
  - by left.
  - intros k c' Hk'. cbn [notify_waiters with_pending pending_host_approvals cells] in *. rewrite length_alter.
    by apply (pending_kept (Acting r c (NotifyWaiters :: acts) res)).
  - apply (ok_cells _ Hy).
  - intros k c' d' Hk'. rewrite decision_of_notify. intros. apply consented_app. by apply (ok_answered _ Hy k c' d').
  - intros c'. rewrite decision_of_notify, calls_of_notify by done. case_decide; [|apply (ok_quiet _ Hy)].
    subst c'. intros Hn. unfold decided in Hdec. rewrite Hn in Hdec. by destruct Hdec.
  - intros k Hk'. apply consented_app. by apply (ok_approved _ Hy).
Qed.

Lemma remove_ok r c acts res :
  ts !! i = Some (Acting r c (RemovePending :: acts) res) →
  task_ok (tr ++ ev) (remove_pending (key_of r) s) (Acting r c acts res) →
  system_ok {| service := remove_pending (key_of r) s; tasks := <[i := Acting r c acts res]> ts; said := tr ++ ev |}.
Proof.
  intros Hi Ht'. destruct (task_of i _ Hi) as ((ph & Hin & Hph) & _).
  inversion Hin as [|? ? Hp _|? Hin'|?|? ? ?|? ? Hp _]; [done| |done]. subst ph. destruct Hph as [Hk Hdec].
  assert (Hh : holds (Acting r c (RemovePending :: acts) res) = Some (key_of r, c)) by done.
  assert (Hn : holds (Acting r c acts res) = None) by (cbn [holds]; by rewrite (in_phase_removes _ _ Hin')).
  assert (Hlook : ∀ k c', pending_host_approvals (remove_pending (key_of r) s) !! k = Some c' →
    k ≠ key_of r ∧ pending_host_approvals s !! k = Some c').
  { intros k c'. cbn. rewrite lookup_delete_Some. naive_solver. }
  apply (update_ok s ts tr i (Acting r c (RemovePending :: acts) res)); [done|done|done|..].
  - intros j u Hne Hu'. apply (task_ok_same tr ev (remove_pending (key_of r) s) (remove_pending (key_of r) s)); [done..|].
    apply (task_ok_removed tr s u (key_of r) c); [done|done| |by apply (task_of j)].
    by apply (other_not_holding _ j u _ c Hi).
  - rewrite Hn. done.
  - intros k c' [Hne Hk']%Hlook. destruct (ok_pending _ Hy k c' Hk') as (Hlen & _). split; [done|].
    right. split; [done|]. rewrite Hh. intros c0 [= ? ?]. done.
  - intros k k' c' [_ H1]%Hlook [_ H2]%Hlook. by apply (ok_cells _ Hy k k' c').
  - intros k c' d' [_ Hk']%Hlook Hx Ha. apply consented_app. by apply (ok_answered _ Hy k c' d').
  - apply (ok_quiet _ Hy).
  - intros k Hk'. apply consented_app. by apply (ok_approved _ Hy).
Qed.
End Preserved.

Lemma task_step_ok y y' : system_ok y → task_step y y' → system_ok y'.
Proof.
  intros Hy Hstep. destruct Hstep as [s ts tr i t w t' s' ev Hi Hs].
  pose proof (own_step_ok _ w i t t' s' ev Hy Hi Hs) as Ht'. cbn [said] in Ht'.
  destruct (step_task_kind _ _ _ _ _ _ Hs).
  - by apply (same_ok s ts tr ev i Hy t).
  - by apply create_ok.
  - by eapply decide_ok.
  - by apply notify_ok.
  - by apply remove_ok.
Qed.

Lemma call_op_core op s :
  pending_host_approvals (call_op op s) = pending_host_approvals s ∧ cells (call_op op s) = cells s ∧
  session_approved_hosts (call_op op s) = session_approved_hosts s.
Proof. destruct op; [done..|apply call_outcome_core]. Qed.

(** A change of the service that touches no question, with nothing lost of what
    was said. *)
Lemma service_change_ok s s' ts tr ev :
  system_ok {| service := s; tasks := ts; said := tr |} →
  pending_host_approvals s' = pending_host_approvals s → cells s' = cells s →
  (∀ k, k ∈ session_approved_hosts s' → consented k (tr ++ ev)) →
  system_ok {| service := s'; tasks := ts; said := tr ++ ev |}.
Proof.
  intros Hy Hp Hc Ha.
  assert (Hdc : ∀ c, decision_of s' c = decision_of s c ∧ calls_of s' c = calls_of s c)
    by (intros c; unfold decision_of, calls_of; by rewrite Hc).
  split; cbn [service tasks said]; rewrite ?Hp, ?Hc; [|apply (ok_owners _ Hy)|..|done].
  - intros i t Hi. apply (task_ok_same tr ev s s'); [done|done|]. by apply (ok_tasks _ Hy i).
  - apply (ok_pending _ Hy).
  - apply (ok_cells _ Hy).
  - intros k c d H1. rewrite (proj1 (Hdc c)). intros. apply consented_app. by apply (ok_answered _ Hy k c d).
  - intros c. destruct (Hdc c) as [-> ->]. apply (ok_quiet _ Hy).
Qed.

Lemma approval_step_ok y y' : system_ok y → sys_step y y' → system_ok y'.
Proof.
  intros Hy Hs. destruct Hs as [s ts tr r|y y' Hstep|s ts tr op|s ts tr other]; [|by apply (task_step_ok y)|..].
  - split; cbn [service tasks said]; [| | |apply (ok_cells _ Hy)|apply (ok_answered _ Hy)|apply (ok_quiet _ Hy)|apply (ok_approved _ Hy)].
    + intros i t [Hi|[_ Hi]]%lookup_app_Some; [by apply (ok_tasks _ Hy i)|].
      by apply list_lookup_singleton_Some in Hi as [_ <-].
    + intros i j ti tj k c c' [Hi|[_ Hi]]%lookup_app_Some [Hj|[_ Hj]]%lookup_app_Some H1 H2;
        [by apply (ok_owners _ Hy i j ti tj k c c')|..];
        by (apply list_lookup_singleton_Some in Hj as [_ <-] || apply list_lookup_singleton_Some in Hi as [_ <-]).
    + intros k c Hk. destruct (ok_pending _ Hy k c Hk) as (Hl & i & t & Hi & Hh). split; [done|].
      exists i, t. split; [|done]. by apply lookup_app_l_Some.
  - destruct (call_op_core op s) as (Hp & Hc & Ha). rewrite <-(app_nil_r tr).
    apply (service_change_ok s); [done..|]. rewrite Ha, app_nil_r. apply (ok_approved _ Hy).
  - apply (service_change_ok s); [done..|]. intros k Hk. by apply consented_last.
Qed.
Lemma reachable_ok y : reachable y → system_ok y.
Proof.
  revert y. apply rtc_ind_r; [|intros; by eapply approval_step_ok].
  split; cbn; [by intros ? ? ?|by intros ? ? ? ? ? ? ? ?|by intros ? ? ?|by intros ? ? ? ?|by intros ? ? ? ?|done|].
  intros k Hk. by apply elem_of_empty in Hk.
Qed.

(** ** Claims *)
(** C5: no request reaches the network unless someone said yes to its host: in
    every interleaving of requests, calls and synchronisations, a request that is
    answered with [Allow] has a hook, a reviewer or the session it was synced from
    that approved the same host, protocol and port. *)
Theorem allowed_request_has_consent y r :
  reachable y → Done r DecisionAllow ∈ tasks y → consented (key_of r) (said y).
Proof.
  intros Hr [i Hi]%list_elem_of_lookup. by apply (ok_tasks _ (reachable_ok y Hr) i _ Hi).
Qed.

(** One question per host: in every interleaving at most one task at a time
    holds the question about a host, protocol and port, from the moment it was
    entered in the table until it is taken out. *)
Theorem one_question_per_host y i j ti tj k c c' :
  reachable y → tasks y !! i = Some ti → tasks y !! j = Some tj →
  holds ti = Some (k, c) → holds tj = Some (k, c') → i = j.
Proof. intros Hr. apply (ok_owners _ (reachable_ok y Hr)). Qed.

(** *** Every request is answered *)
Definition action_weight (a : Action) : nat := match a with RecordForSingleCall _ => 2 | _ => 1 end.
(** A task that waits has further to go as long as its cell holds no decision:
    it goes to sleep once, and is woken once. *)
Definition weight (s : NetworkApprovalService) (t : Task) : nat :=
  match t with
  | CheckDenied _ => 17 | CheckApproved _ => 16 | GetPending _ => 15
  | Waiting _ c => match decision_of s c with Some _ => 2 | None => 5 end
  | WaitCheck _ c _ => match decision_of s c with Some _ => 1 | None => 4 end
  | WaitNotified _ _ _ => 3
  | FindTurn _ _ => 14 | FindCall _ _ _ => 13 | AskHooks _ _ _ _ => 12 | AskReviewer _ _ _ _ => 11
  | Acting _ _ acts _ => 1 + sum_list (action_weight <$> acts)
  | Done _ _ => 0
  end.
Definition total (y : System) : nat := sum_list (weight (service y) <$> tasks y).

Lemma weight_record oc o : sum_list (action_weight <$> record_if_owned oc o) ≤ 1.
Proof. destruct oc as [[]|]; cbn; lia. Qed.
(** A step makes no cell undecided again. *)
Lemma step_decided w t s t' s' ev c :
  step_task w t s = Some (t', s', ev) → decided s c → decided s' c.
Proof.
  intros Hs%step_task_kind Hd. unfold decided in *. destruct Hs as [? ? ? _ Hc _ _|r _|r c0 d acts res|r c0 acts res|];
    [unfold decision_of in *; by rewrite Hc|by rewrite decision_of_created| |by rewrite decision_of_notify|done].
  destruct (decide (c0 < length (cells s))) as [Hl|Hl].
  - rewrite decision_of_write by done. case_decide; eauto.
  - unfold decision_of in *. cbn [write_decision with_pending cells]. rewrite list_lookup_alter.
    destruct (decide (c0 = c)) as [->|]; [|done]. rewrite lookup_ge_None_2 in Hd by lia. by destruct Hd.
Qed.
Lemma weight_mono s s' t : (∀ c, decided s c → decided s' c) → weight s' t ≤ weight s t.
Proof.
  intros Hd. destruct t as [r|r|r|r c|r c g|r c g|r c|r c tn|r c tn oc|r c tn oc|r c acts res|r res]; cbn [weight]; try lia;
    specialize (Hd c); unfold decided in Hd; destruct (decision_of s c), (decision_of s' c); try lia;
    exfalso; by destruct (Hd ltac:(eauto)).
Qed.

Lemma step_weight w t s t' s' ev :
  step_task w t s = Some (t', s', ev) →
  (∀ r c g, t = WaitNotified r c g → g = 0 ∧ (decision_of s c = None → calls_of s c = 0)) →
  weight s' t' < weight s t.
Proof.
  destruct t as [r|r|r|r c|r c g|r c g|r c|r c tn|r c tn oc|r c tn oc|r c [|a acts] res|r res]; cbn [step_task]; intros Hs Hwait.
  - injection Hs as <- _ _. case_decide; cbn; lia.
  - injection Hs as <- _ _. case_decide; cbn; lia.
  - destruct (get_or_create_pending_approval _ _) as [[c []] s1]; injection Hs as <- _ _; cbn; [lia|].
    destruct (decision_of _ c); lia.
  - injection Hs as <- <- _. cbn. destruct (decision_of s c); lia.
  - injection Hs as <- <- _. cbn. destruct (decision_of s c); cbn; lia.
  - destruct (Hwait r c g eq_refl) as [-> Hq]. destruct (Nat.eqb_spec (calls_of s c) 0); [done|].
    injection Hs as <- <- _. cbn. destruct (decision_of s c); [lia|tauto].
  - injection Hs as <- _ _. destruct (active_turn_context w) as [tn|]; [|cbn; lia].
    destruct (negb _); [|destruct (negb _)]; cbn; lia.
  - injection Hs as <- _ _. cbn; lia.
  - destruct (hooks_say w) as [[|m]|]; injection Hs as <- _ _; cbn [weight]; [cbn; lia| |lia].
    rewrite fmap_app, sum_list_with_app. pose proof (weight_record oc (DeniedByPolicy m)). cbn. lia.
  - injection Hs as <- _ _. unfold after_review. destruct (resolve_review _ _) as [[d o] b]. cbn [weight].
    rewrite !fmap_app, !sum_list_with_app. assert (Ho : sum_list (action_weight <$> match o with
      Some o => record_if_owned oc o | None => [] end) ≤ 1) by (destruct o; [apply weight_record|cbn; lia]).
    destruct d, b; cbn in *; lia.
  - injection Hs as <- _ _. cbn; lia.
  - destruct (do_action _ _ _ _) as [more s1] eqn:E. injection Hs as <- _ _. cbn [weight].
    rewrite fmap_app, sum_list_with_app. cbn [fmap list_fmap sum_list sum_list_with].
    destruct a; cbn [do_action] in E; injection E as <- _; cbn; try lia.
    pose proof (weight_record (resolve_single_active_call s) o). cbn in *. lia.
  - done.
Qed.

Lemma sum_list_mono {A} (f g : A → nat) (l : list A) :
  (∀ x, f x ≤ g x) → sum_list (f <$> l) ≤ sum_list (g <$> l).
Proof. intros Hle. induction l as [|x l IH]; cbn; [lia|]. specialize (Hle x). cbn in IH. lia. Qed.

Lemma total_step y y' : system_ok y → task_step y y' → total y' < total y.
Proof.
  intros Hy Hstep. destruct Hstep as [s ts tr i t w t' s' ev Hi Hs]. unfold total. cbn [tasks service].
  assert (Hw : weight s' t' < weight s t).
  { eapply step_weight; [exact Hs|]. intros r c g ->. destruct (ok_tasks _ Hy i _ Hi) as [_ ->].
    split; [done|]. apply (ok_quiet _ Hy). }
  assert (Hm : ∀ u, weight s' u ≤ weight s u) by (intros u; apply weight_mono; intros c; by eapply step_decided).
  rewrite <-(take_drop_middle ts i t Hi) at 2. rewrite insert_take_drop by (by apply lookup_lt_Some in Hi).
  rewrite !fmap_app, !fmap_cons, !sum_list_with_app. cbn [sum_list_with id].
  pose proof (sum_list_mono _ _ (take i ts) Hm). pose proof (sum_list_mono _ _ (drop (S i) ts) Hm). lia.
Qed.
Lemma total_steps n y y' : system_ok y → nsteps task_step n y y' → n + total y' ≤ total y.
Proof.
  intros Hy Hn. revert Hy. induction Hn as [|n x y z Hs _ IH]; intros Hy; [lia|].
  pose proof (total_step x y Hy Hs). specialize (IH (task_step_ok x y Hy Hs)). lia.
Qed.

Definition is_done (t : Task) : bool := match t with Done _ _ => true | _ => false end.
Definition all_answered (y : System) : Prop := Forall (λ t, is_done t = true) (tasks y).

Lemma holder_steps w t s k c : holds t = Some (k, c) → is_Some (step_task w t s).
Proof.
  destruct t as [r|r|r|r c0|r c0 g|r c0 g|r c0|r c0 tn|r c0 tn oc|r c0 tn oc|r c0 [|a acts] res|r res]; cbn [holds]; try done; intros _;
    cbn [step_task]; try by eauto.
  - destruct (hooks_say w) as [[]|]; eauto.
  - destruct (do_action _ _ _ _); eauto.
Qed.
Lemma waiting_or_steps w t s : is_done t = false →
  is_Some (step_task w t s) ∨ ∃ r c, t = WaitNotified r c (calls_of s c).
Proof.
  destruct (holds t) as [[k c]|] eqn:Eh; [left; by eapply holder_steps|].
  destruct t as [r|r|r|r c|r c g|r c g|r c|r c tn|r c tn oc|r c tn oc|r c acts res|r res]; try done; intros _; cbn [step_task].
  - eauto.
  - eauto.
  - left. destruct (get_or_create_pending_approval _ _) as [[] ?]; eauto.
  - eauto.
  - eauto.
  - destruct (Nat.eqb_spec (calls_of s c) g) as [<-|]; eauto.
  - left. destruct acts as [|a acts]; [eauto|]. cbn [step_task]. destruct (do_action _ _ _ _); eauto.
Qed.

Lemma progress (w : Answers) y : system_ok y → all_answered y ∨ ∃ y', task_step y y'.
Proof.
  intros Hy. destruct (List.find (λ t, negb (is_done t)) (tasks y)) as [t|] eqn:Ef.
  2: { left. apply Forall_forall. intros t Ht%list_elem_of_In. by apply negb_false_iff, (List.find_none _ _ Ef t Ht). }
  right. apply List.find_some in Ef as [[i Hi]%list_elem_of_In%list_elem_of_lookup Ht%negb_true_iff].
  destruct y as [s ts tr]; cbn [tasks] in *.
  assert (Hgo : ∀ j u, ts !! j = Some u → is_Some (step_task w u s) → ∃ y', task_step {| service := s; tasks := ts; said := tr |} y').
  { intros j u Hu [[[t' s'] ev] Hs]. eexists. by eapply step_run. }
  destruct (waiting_or_steps w t s Ht) as [Hs|(r & c & ->)]; [by apply (Hgo i t)|].
  destruct (ok_tasks _ Hy i _ Hi) as [[[[_ Hd]|Hp] _] Hg]; [done|].
  destruct (ok_pending _ Hy _ _ Hp) as (_ & j & u & Hu & Hh). apply (Hgo j u Hu). by eapply holder_steps.
Qed.
Lemma reachable_steps y y' : reachable y → rtc task_step y y' → reachable y'.
Proof.
  intros Hr. revert y'. apply rtc_ind_r; [done|]. intros x z _ Hs Hx. eapply rtc_r; [exact Hx|]. by apply step_task_runs.
Qed.

(** C4: every request is answered: from any reachable state the tasks can take at
    most [total] steps, and as long as one of them has no answer some task can take
    a step.  So no task waits for ever, whatever the order of their steps, as long
    as the hooks and the reviewer answer and no task is dropped half way.  A task
    that waits does so in the code's loop: it is asleep until [notify_waiters] is
    called after its future was made, and only being woken lets it look again; so
    the claim includes that no wake-up is lost between reading the cell and falling
    asleep, and that the owner's wake-up reaches every task that sleeps. *)
Theorem every_request_answered y :
  reachable y →
  (∀ n y', nsteps task_step n y y' → n ≤ total y) ∧
  (∀ y', rtc task_step y y' → all_answered y' ∨ ∃ y'', task_step y' y'').
Proof.
  intros Hr. split.
  - intros n y' Hn. apply total_steps in Hn; [lia|by apply reachable_ok].
  - intros y' Hs. apply (progress {| active_turn_context := None; hooks_say := None; reviewer_says := ReviewDenied;
      rejection_message := []; timeout_message := [] |}). by apply reachable_ok, (reachable_steps y).
Qed.

(** ** The calls that are waiting for an outcome *)
Definition record_blocked_request (b : BlockedRequest) (s : NetworkApprovalService) : NetworkApprovalService :=
  match denied_network_policy_message b, resolve_single_active_call s with
  | Some m, Some (id, _) => record_call_outcome id (DeniedByPolicy m) s
  | _, _ => s
  end.

Section Calls.
Context {W : Type} (base : Session (W := W)).
(** [Uuid::new_v4], and what is registered with the call. *)
Context (new_uuid : W → rstring * W) (registered : ActiveNetworkApprovalCall).

(** The service behind the interface that the tool runs use. *)
Definition service_session : Session (W := NetworkApprovalService * W) :=
  {| new_guardian_review_id := λ x, let '(id, w) := new_guardian_review_id x.2 in (id, (x.1, w));
     guardian_rejection_message := λ id x, let '(m, w) := guardian_rejection_message id x.2 in (m, (x.1, w));
     guardian_timeout_message := guardian_timeout_message;
     run_permission_request_hooks := λ id x, let '(d, w) := run_permission_request_hooks id x.2 in (d, (x.1, w));
     register_call := λ x, let '(id, w) := new_uuid x.2 in (id, (register_active_call id registered x.1, w));
     take_call_outcome := λ id x, let '(o, s) := take_outcome id x.1 in (o, (s, x.2));
     unregister_call := λ id x, (unregister_active_call id x.1, x.2) |}.
#[local] Existing Instance service_session.

Definition keeps_outcome (id : rstring) (op : CallOp) : Prop :=
  match op with RemoveOutcome id' => id' ≠ id | _ => True end.
Lemma call_op_user_denial id op s :
  keeps_outcome id op → call_outcomes s !! id = Some DeniedByUser → call_outcomes (call_op op s) !! id = Some DeniedByUser.
Proof.
  destruct op as [id' c|id'|id'|id' o]; cbn [keeps_outcome call_op]; intros Hk Hd; cbn; [done|done|by rewrite lookup_delete_ne|].
  unfold record_call_outcome. destruct (decide (id' = id)) as [->|Hne]; [by rewrite Hd|].
  destruct (call_outcomes s !! id') as [[]|]; cbn; by rewrite ?lookup_insert_ne.
Qed.

(** A denial by the user decides the call: once it is recorded, no later
    outcome replaces it, and the call that ends then fails with it and leaves
    nothing behind. *)
Theorem user_denial_fails_call id mode (ops : list CallOp) s w :
  Forall (keeps_outcome id) ops →
  let s' := fold_left (λ s op, call_op op s) ops (record_call_outcome id DeniedByUser s) in
  let r := finish_immediate_network_approval {| registration_id := Some id; approval_mode := mode |} (s', w) in
  r.1 = Err (Rejected $"rejected by user") ∧ call_outcomes r.2.1 !! id = None ∧ (∀ c, (id, c) ∉ active_calls r.2.1) ∧
  r.2.2 = w.
Proof.
  intros Hops s' r.
  assert (Hs : call_outcomes s' !! id = Some DeniedByUser).
  { subst s' r. assert (H0 : call_outcomes (record_call_outcome id DeniedByUser s) !! id = Some DeniedByUser).
    { unfold record_call_outcome. destruct (call_outcomes s !! id) as [[]|] eqn:E; [done|..]; cbn; by rewrite lookup_insert_eq. }
    revert H0. generalize (record_call_outcome id DeniedByUser s). induction Hops as [|op ops Hk _ IH]; [done|].
    intros s0 H0. apply IH. by apply call_op_user_denial. }
  subst r. cbn. rewrite Hs. cbn. split_and!; [done|by rewrite !lookup_delete_eq| |done].
  intros c [_ Hc]%list_elem_of_In%List.filter_In. cbn in Hc. by rewrite (proj2 (str_eqb_eq id id)) in Hc.
Qed.
End Calls.

(** ** The decision of the proxy *)
Section Evaluate.
Context {C : Network.NetCrates} {D : NetState.DebugFormat} {H : NetState.NetHost} {W : Type}.

Definition as_str (r : NetState.HostBlockReason) : rstring :=
  match r with
  | NetState.Denied => $"denied"
  | NetState.NotAllowed => $"not_allowed"
  | NetState.NotAllowedLocal => $"not_allowed_local"
  end.
Definition map_decider_decision (d : NetworkDecision) : NetworkDecision :=
  match d with
  | DecisionAllow => DecisionAllow
  | DecisionDeny reason _ decision => DecisionDeny reason Decider decision
  end.
(** [evaluate_host_policy], less the audit event. *)
Definition evaluate_host_policy (s : NetState.ConfigState)
    (decider : option (NetworkPolicyRequest → W → NetworkDecision * W)) (r : NetworkPolicyRequest) (w : W)
  : NetworkDecision * W :=
  match NetState.host_blocked s (host r) (port r) with
  | NetState.Allowed => (DecisionAllow, w)
  | NetState.Blocked NetState.NotAllowed =>
      match decider with
      | Some decide => let '(d, w) := decide r w in (map_decider_decision d, w)
      | None => (deny_with_source (as_str NetState.NotAllowed) BaselinePolicy, w)
      end
  | NetState.Blocked reason => (deny_with_source (as_str reason) BaselinePolicy, w)
  end.

(** What the proxy lets through: a host the policy allows, or one that is only
    missing from the allow list and that the decider approves.  A host on the deny
    list is refused without the decider being asked. *)
Theorem proxy_allows_iff (s : NetState.ConfigState) decider r (w : W) :
  ((evaluate_host_policy s decider r w).1 = DecisionAllow ↔
   NetState.host_blocked s (host r) (port r) = NetState.Allowed ∨
   NetState.host_blocked s (host r) (port r) = NetState.Blocked NetState.NotAllowed ∧
   ∃ decide, decider = Some decide ∧ (decide r w).1 = DecisionAllow) ∧
  (∀ h, Network.parse_host (host r) = Some h → Network.set_is_match (NetState.deny_set s) h = true →
     evaluate_host_policy s decider r w = (DecisionDeny $"denied" BaselinePolicy NetDeny, w)).
Proof.
  split.
  - unfold evaluate_host_policy. destruct (NetState.host_blocked s (host r) (port r)) as [|[]]; cbn [fst].
    + naive_solver.
    + split; [done|]. naive_solver.
    + destruct decider as [f|]; [|naive_solver]. destruct (f r w) as [d w'] eqn:E.
      split; [intros Hd; right; split; [done|]; exists f; rewrite E; by destruct d|].
      intros [|(_ & f' & [= <-] & Hf)]; [done|]. rewrite E in Hf. cbn in *. by subst d.
    + split; [done|]. naive_solver.
  - intros h Hh Hd. unfold evaluate_host_policy, NetState.host_blocked. by rewrite Hh, Hd.
Qed.
End Evaluate.

(** ** A run *)
(** Lets the tasks named take their steps, in that order. *)
Fixpoint run_schedule (l : list (nat * Answers)) (y : System) : option System :=
  match l with
  | [] => Some y
  | (i, w) :: l' =>
      t ← tasks y !! i;
      x ← step_task w t (service y);
      run_schedule l' {| service := x.1.2; tasks := <[i := x.1.1]> (tasks y); said := said y ++ x.2 |}
  end.
Lemma run_schedule_steps l y y' : run_schedule l y = Some y' → rtc task_step y y'.
Proof.
  revert y. induction l as [|[i w] l IH]; intros [s ts tr]; cbn [run_schedule tasks service said].
  - by intros [= <-].
  - destruct (ts !! i) as [t|] eqn:Ei; [|done]. cbn [mbind option_bind].
    destruct (step_task w t s) as [[[t' s'] ev]|] eqn:Es; [|done]. cbn [mbind option_bind fst snd].
    intros Hr. eapply rtc_l; [|by apply IH]. by eapply step_run.
Qed.

(** Two requests for one host, in different spelling; the reviewer allows the
    host for the session.  The second request falls asleep, is woken and gets its
    answer from the first. *)
Definition demo_net_request (h : rstring) : NetworkPolicyRequest :=
  {| protocol := HttpsConnect; host := h; port := 443; client_addr := None; method := None; request_command := None;
     exec_policy_hint := None |}.
Definition demo_answers : Answers :=
  {| active_turn_context := Some {| sub_id := $"t"; turn_permission_profile := Managed MUnrestricted FsPolicy.NetRestricted;
                                    turn_approval_policy := OnRequest; turn_to_guardian := false |};
     hooks_say := None; reviewer_says := ApprovedForSession; rejection_message := []; timeout_message := [] |}.
Definition demo_begun : System :=
  {| service := default_service; said := [];
     tasks := [CheckDenied (demo_net_request $"Example.com"); CheckDenied (demo_net_request $"example.com")] |}.
Definition demo_order : list (nat * Answers) :=
  (λ i, (i, demo_answers)) <$> [0; 1; 0; 1; 0; 1; 1; 1; 0; 0; 0; 0; 0; 0; 0; 0; 1; 1; 1; 0; 0].
Definition demo_end : System := default demo_begun (run_schedule demo_order demo_begun).

Lemma demo_begun_reachable : reachable demo_begun.
Proof. eapply rtc_l; [apply step_request|]. eapply rtc_l; [apply step_request|]. constructor. Qed.
Lemma demo_end_reachable : reachable demo_end.
Proof.
  apply (reachable_steps demo_begun); [apply demo_begun_reachable|]. apply (run_schedule_steps demo_order).
  vm_compute. reflexivity.
Qed.
Example demo_end_tasks :
  tasks demo_end = [Done (demo_net_request $"Example.com") DecisionAllow; Done (demo_net_request $"example.com") DecisionAllow] ∧
  length (said demo_end) = 1.
Proof. vm_compute. by split. Qed.

Lemma allowed_request_has_consent_witness : consented (key_of (demo_net_request $"example.com")) (said demo_end).
Proof. apply allowed_request_has_consent; [apply demo_end_reachable|]. vm_compute. right. left. Defined.

(** The state in which the first request asks and the second sleeps. *)
Definition demo_mid : System := default demo_begun (run_schedule (take 8 demo_order) demo_begun).
Example demo_mid_tasks :
  tasks demo_mid = [FindTurn (demo_net_request $"Example.com") 0; WaitNotified (demo_net_request $"example.com") 0 0].
Proof. vm_compute. reflexivity. Qed.
Lemma demo_mid_reachable : reachable demo_mid.
Proof.
  apply (reachable_steps demo_begun); [apply demo_begun_reachable|]. apply (run_schedule_steps (take 8 demo_order)).
  vm_compute. reflexivity.
Qed.
Lemma one_question_per_host_witness :
  ∃ t, tasks demo_mid !! 0 = Some t ∧ holds t = Some (key_of (demo_net_request $"example.com"), 0) ∧ 0 = 0.
Proof.
  eexists. split; [vm_compute; reflexivity|]. split; [vm_compute; reflexivity|].
  eapply (one_question_per_host demo_mid 0 0); [apply demo_mid_reachable|vm_compute; reflexivity|vm_compute; reflexivity|..];
    vm_compute; reflexivity.
Defined.
Lemma every_request_answered_witness :
  (∀ n y', nsteps task_step n demo_mid y' → n ≤ total demo_mid) ∧
  (∀ y', rtc task_step demo_mid y' → all_answered y' ∨ ∃ y'', task_step y' y'').
Proof. apply every_request_answered, demo_mid_reachable. Defined.

Definition demo_base : Session (W := nat) := demo_session.
Lemma user_denial_fails_call_witness :
  (finish_immediate_network_approval (S := service_session demo_base (λ w, ($"n", S w)) {| turn_id := []; call_command := [] |})
     {| registration_id := Some $"n"; approval_mode := Immediate |}
     (call_op (NoteOutcome $"n" (DeniedByPolicy $"m")) (record_call_outcome $"n" DeniedByUser default_service), 0)).1
  = Err (Rejected $"rejected by user").
Proof.
  apply (user_denial_fails_call demo_base (λ w, ($"n", S w)) {| turn_id := []; call_command := [] |} $"n" Immediate
    [NoteOutcome $"n" (DeniedByPolicy $"m")] default_service 0). repeat constructor.
Defined.
End NetApproval.
