(* ===== verification/PermissionMerge.v ===== *)
(** * PermissionMerge: extra permissions for a command

    Models codex-rs/sandboxing/src/policy_transforms.rs and, of
    codex-rs/protocol/src/models.rs, the additional permissions of a command and
    the profile that a session runs under: normalising a request, merging two
    grants, keeping of a grant only what was requested, and the policy that
    results from a profile and the extra permissions.

    The file system and environment are the class [Host] of FsPolicy and the
    globset crate is a parameter, as there.  Unix. *)

From S2P Require Import Prelude AbsPath Delegation FsPolicy FsPolicyFacts PatchSafety.

Module Merge.
Import FsPolicy FsFacts PatchSafety.

(** ** Data *)
Record FileSystemPermissions := { fs_entries : list FileSystemSandboxEntry; fs_glob_depth : option Z }.
Record NetworkPermissions := { net_enabled : option bool }.
Record AdditionalPermissionProfile := {
  add_network : option NetworkPermissions;
  add_file_system : option FileSystemPermissions
}.
Definition fs_default : FileSystemPermissions := {| fs_entries := []; fs_glob_depth := None |}.
Definition fs_is_empty (p : FileSystemPermissions) : bool := is_empty (fs_entries p).
Definition net_is_empty (n : NetworkPermissions) : bool := match net_enabled n with None => true | Some _ => false end.
Definition profile_is_empty (p : AdditionalPermissionProfile) : bool :=
  match add_network p, add_file_system p with None, None => true | _, _ => false end.
Definition filter_opt {A} (f : A → bool) (o : option A) : option A :=
  match o with Some x => if f x then Some x else None | None => None end.
Definition nonzero (d : Z) : option Z := if (d =? 0)%Z then None else Some d.

(** [if !entries.contains(&e) { entries.push(e) }]. *)
Definition push_entry (es : list FileSystemSandboxEntry) (e : FileSystemSandboxEntry) : list FileSystemSandboxEntry :=
  if existsb (λ x, entry_eqb x e) es then es else es ++ [e].

(** ** Read and write roots *)
Definition from_read_write_roots (read write : option (list rstring)) : FileSystemPermissions :=
  {| fs_entries := ((λ p, entry (PPath p) Read) <$> default [] read) ++ ((λ p, entry (PPath p) Write) <$> default [] write);
     fs_glob_depth := None |}.
Fixpoint split_roots (es : list FileSystemSandboxEntry) : option (list rstring * list rstring) :=
  match es with
  | [] => Some ([], [])
  | e :: es' =>
      match entry_path e with
      | PPath p =>
          '(r, w) ← split_roots es';
          match access e with
          | Read => Some (p :: r, w)
          | Write => Some (r, p :: w)
          | NoAccess => None
          end
      | _ => None
      end
  end.
Definition some_if_any (l : list rstring) : option (list rstring) := if is_empty l then None else Some l.
Definition as_legacy_permissions (p : FileSystemPermissions) : option (option (list rstring) * option (list rstring)) :=
  match fs_glob_depth p with
  | Some _ => None
  | None => '(r, w) ← split_roots (fs_entries p); Some (some_if_any r, some_if_any w)
  end.

(** What is written to the wire, and read from it. *)
Inductive WirePermissions :=
| WireLegacy (read write : option (list rstring))
| WireCanonical (es : list FileSystemSandboxEntry) (depth : option Z).
Definition serialize (p : FileSystemPermissions) : WirePermissions :=
  match as_legacy_permissions p with
  | Some (r, w) => WireLegacy r w
  | None => WireCanonical (fs_entries p) (fs_glob_depth p)
  end.
Definition deserialize (w : WirePermissions) : FileSystemPermissions :=
  match w with
  | WireLegacy r w => from_read_write_roots r w
  | WireCanonical es d => {| fs_entries := es; fs_glob_depth := d |}
  end.

(** ** Depth of glob scans *)
Inductive GlobScanDepth := Bounded (d : Z) | Unbounded.
Definition is_glob (p : FileSystemPath) : bool := match p with PGlob _ => true | _ => false end.
Definition effective_glob_scan_depth (es : list FileSystemSandboxEntry) (depth : option Z) : option GlobScanDepth :=
  if existsb (λ e, denies e && is_glob (entry_path e)) es
  then Some (match depth with Some d => Bounded d | None => Unbounded end) else None.
Definition merge_glob_scan_max_depth (left_entries : list FileSystemSandboxEntry) (left_depth : option Z)
    (right_entries : list FileSystemSandboxEntry) (right_depth : option Z) : option Z :=
  match effective_glob_scan_depth left_entries left_depth, effective_glob_scan_depth right_entries right_depth with
  | Some Unbounded, _ | _, Some Unbounded => None
  | Some (Bounded l), Some (Bounded r) => Some (Z.max l r)
  | Some (Bounded d), None | None, Some (Bounded d) => Some d
  | None, None => None
  end.

(** ** Merging *)
Definition merge_permission_entries (base permissions : list FileSystemSandboxEntry) : list FileSystemSandboxEntry :=
  fold_left push_entry (base ++ permissions) [].
Definition net_on (n : option NetworkPermissions) : bool :=
  match n with Some n => match net_enabled n with Some true => true | _ => false end | None => false end.
Definition NETWORK_ON : NetworkPermissions := {| net_enabled := Some true |}.
Definition merge_permission_profiles (base permissions : option AdditionalPermissionProfile)
  : option AdditionalPermissionProfile :=
  match permissions with
  | None => base
  | Some permissions =>
      match base with
      | Some base =>
          let network := if net_on (add_network base) || net_on (add_network permissions) then Some NETWORK_ON else None in
          let file_system :=
            match add_file_system base, add_file_system permissions with
            | Some b, Some p =>
                filter_opt (λ f, negb (fs_is_empty f))
                  (Some {| fs_entries := merge_permission_entries (fs_entries b) (fs_entries p);
                           fs_glob_depth := merge_glob_scan_max_depth (fs_entries b) (fs_glob_depth b)
                                              (fs_entries p) (fs_glob_depth p) ≫= nonzero |})
            | Some b, None => Some b
            | None, Some p => Some p
            | None, None => None
            end in
          filter_opt (λ p, negb (profile_is_empty p)) (Some {| add_network := network; add_file_system := file_system |})
      | None => filter_opt (λ p, negb (profile_is_empty p)) (Some permissions)
      end
  end.

(** ** The policy in force *)
Definition merge_file_system_policy_with_additional_permissions (p : FileSystemSandboxPolicy)
    (a : FileSystemPermissions) : FileSystemSandboxPolicy :=
  match kind p with
  | Restricted =>
      {| kind := Restricted;
         glob_scan_max_depth := merge_glob_scan_max_depth (entries p) (glob_scan_max_depth p) (fs_entries a) (fs_glob_depth a);
         entries := fold_left push_entry (fs_entries a) (entries p) |}
  | Unrestricted | ExternalSandbox => p
  end.
Definition effective_file_system_sandbox_policy (p : FileSystemSandboxPolicy)
    (a : option AdditionalPermissionProfile) : FileSystemSandboxPolicy :=
  match a ≫= add_file_system with
  | None => p
  | Some f => if fs_is_empty f then p else merge_file_system_policy_with_additional_permissions p f
  end.
Definition merge_network_access (base_network_access : bool) (a : AdditionalPermissionProfile) : bool :=
  base_network_access || default false (add_network a ≫= net_enabled).
Definition effective_network_sandbox_policy (n : NetworkSandboxPolicy) (a : option AdditionalPermissionProfile)
  : NetworkSandboxPolicy :=
  match a with
  | Some a => if merge_network_access (net_is_enabled n) a then NetEnabled else NetRestricted
  | None => n
  end.

(** *** Profiles (models.rs) *)
Inductive SandboxEnforcement := EnfManaged | EnfDisabled | EnfExternal.
Definition enforcement (p : PermissionProfile) : SandboxEnforcement :=
  match p with Managed _ _ => EnfManaged | ProfileDisabled => EnfDisabled | External _ => EnfExternal end.
(** [None]: the branch the code calls unreachable. *)
Definition from_sandbox_policy (p : FileSystemSandboxPolicy) : option ManagedFileSystemPermissions :=
  match kind p with
  | Restricted => Some (MRestricted (entries p) (glob_scan_max_depth p ≫= nonzero))
  | Unrestricted => Some MUnrestricted
  | ExternalSandbox => None
  end.
Definition to_sandbox_policy (m : ManagedFileSystemPermissions) : FileSystemSandboxPolicy :=
  match m with
  | MRestricted es d => {| kind := Restricted; glob_scan_max_depth := d; entries := es |}
  | MUnrestricted => unrestricted
  end.
Definition profile_file_system_policy (p : PermissionProfile) : FileSystemSandboxPolicy :=
  match p with
  | Managed m _ => to_sandbox_policy m
  | ProfileDisabled => unrestricted
  | External _ => external_sandbox
  end.
Definition profile_network_policy (p : PermissionProfile) : NetworkSandboxPolicy :=
  match p with Managed _ n | External n => n | ProfileDisabled => NetEnabled end.
Definition from_runtime_permissions_with_enforcement (e : SandboxEnforcement) (p : FileSystemSandboxPolicy)
    (n : NetworkSandboxPolicy) : option PermissionProfile :=
  match kind p, e with
  | ExternalSandbox, _ => Some (External n)
  | Unrestricted, EnfDisabled => Some ProfileDisabled
  | _, _ => (λ m, Managed m n) <$> from_sandbox_policy p
  end.
Definition effective_permission_profile (p : PermissionProfile) (a : option AdditionalPermissionProfile)
  : option PermissionProfile :=
  from_runtime_permissions_with_enforcement (enforcement p)
    (effective_file_system_sandbox_policy (profile_file_system_policy p) a)
    (effective_network_sandbox_policy (profile_network_policy p) a).

(** ** Against a host *)
Section Resolve.
Context {H : Host}.

Definition normalize_path_entry (p : FileSystemPath) : FileSystemPath :=
  match p with
  | PPath path => PPath (default path (canonicalize_preserving_symlinks path ≫= from_absolute_path))
  | _ => p
  end.
Fixpoint normalize_entries (es acc : list FileSystemSandboxEntry) : result (list FileSystemSandboxEntry) rstring :=
  match es with
  | [] => Ok acc
  | e :: es' =>
      if is_glob (entry_path e) && negb (denies e)
      then Err $"glob file system permissions only support deny-read entries"
      else normalize_entries es' (push_entry acc (entry (normalize_path_entry (entry_path e)) (access e)))
  end.
Definition normalize_additional_permissions (a : AdditionalPermissionProfile)
  : result AdditionalPermissionProfile rstring :=
  let network := filter_opt (λ n, negb (net_is_empty n)) (add_network a) in
  match add_file_system a with
  | None => Ok {| add_network := network; add_file_system := None |}
  | Some f =>
      let? es := normalize_entries (fs_entries f) [] in
      Ok {| add_network := network;
            add_file_system := filter_opt (λ f, negb (fs_is_empty f))
                                 (Some {| fs_entries := es; fs_glob_depth := fs_glob_depth f |}) |}
  end.

Definition resolve_permission_path (p : FileSystemPath) (cwd : rstring) : option rstring :=
  match p with
  | PPath path => Some path
  | PGlob _ => None
  | PSpecial v =>
      match v with
      | Root => last (Path.ancestors cwd) ≫= from_absolute_path
      | CurrentWorkingDirectory => from_absolute_path cwd
      | ProjectRoots subpath =>
          cwd ← from_absolute_path cwd;
          Some (match subpath with Some s => resolve_against s cwd | None => cwd end)
      | Tmpdir => t ← env_tmpdir; if is_empty t then None else from_absolute_path t
      | SlashTmp => filter_opt host_is_dir (from_absolute_path $"/tmp")
      | Minimal | Unknown _ _ => None
      end
  end.

Definition materialize_cwd_dependent_entry (e : FileSystemSandboxEntry) (cwd : rstring) : FileSystemSandboxEntry :=
  match entry_path e with
  | PSpecial CurrentWorkingDirectory | PSpecial (ProjectRoots _) =>
      match resolve_permission_path (entry_path e) cwd with
      | Some p => entry (PPath p) (access e)
      | None => e
      end
  | PGlob pattern => entry (PGlob (resolve_against pattern cwd)) (access e)
  | _ => e
  end.

Definition access_covers (requested granted : FileSystemAccessMode) : bool :=
  match granted with
  | Read => can_read requested
  | Write => can_write requested
  | NoAccess => false
  end.
Definition paths_overlap (left right : rstring) : bool :=
  Path.path_starts_with right left || Path.path_starts_with left right.

(** The chars [*], [?], [\[] and [\]]. *)
Definition is_glob_char (c : char) : bool := str_in [c] [ $"*"; $"?"; $"["; $"]" ].
Fixpoint before_glob (s : rstring) : option rstring :=
  match s with
  | [] => None
  | c :: s' => if is_glob_char c then Some [] else (λ p, c :: p) <$> before_glob s'
  end.
Definition glob_static_prefix_path (pattern cwd : rstring) : option rstring :=
  let resolved := resolve_against pattern cwd in
  match before_glob resolved with
  | Some [] => None
  | Some prefix =>
      if ends_with $"/" prefix || ends_with $"\" prefix then from_absolute_path prefix
      else Path.parent prefix ≫= from_absolute_path
  | None => from_absolute_path resolved
  end.

Definition deny_entry_constrains_accepted_grant (deny_entry : FileSystemSandboxEntry)
    (accepted : list FileSystemSandboxEntry) (cwd : rstring) : bool :=
  existsb (λ e,
    can_read (access e) &&
    match resolve_permission_path (entry_path e) cwd with
    | None => false
    | Some grant_path =>
        match (match entry_path deny_entry with
               | PGlob pattern => glob_static_prefix_path pattern cwd
               | p => resolve_permission_path p cwd
               end) with
        | Some deny_path => paths_overlap deny_path grant_path
        | None => false
        end
    end) accepted.

(** The entries pushed to the output, and those retained. *)
Fixpoint retain_constraining_deny_entries (source accepted : list FileSystemSandboxEntry) (cwd : rstring)
    (output : list FileSystemSandboxEntry) : list FileSystemSandboxEntry * list FileSystemSandboxEntry :=
  match source with
  | [] => (output, [])
  | e :: source' =>
      if denies e && deny_entry_constrains_accepted_grant e accepted cwd then
        let e' := materialize_cwd_dependent_entry e cwd in
        let '(output, retained) := retain_constraining_deny_entries source' accepted cwd (push_entry output e') in
        (output, e' :: retained)
      else retain_constraining_deny_entries source' accepted cwd output
  end.

Section Globs.
Variable build_glob_matcher : rstring → option (rstring → bool).

Definition granted_file_system_entry_within_request (requested : FileSystemPermissions)
    (requested_policy : FileSystemSandboxPolicy) (matcher : option ReadDenyMatcher) (granted : FileSystemSandboxEntry)
    (cwd : rstring) : bool :=
  can_read (access granted) &&
  match resolve_permission_path (entry_path granted) cwd with
  | Some path =>
      if match matcher with Some m => is_read_denied m path | None => false end then false
      else access_covers (resolve_access_with_cwd requested_policy path cwd) (access granted)
  | None =>
      existsb (λ e, access_covers (access e) (access granted) && fspath_eqb (entry_path e) (entry_path granted))
        (fs_entries requested)
  end.
Definition accepted_entries (requested granted : FileSystemPermissions) (cwd : rstring) : list FileSystemSandboxEntry :=
  let policy := restricted (fs_entries requested) in
  let matcher := new_matcher build_glob_matcher policy cwd in
  fold_left (λ acc e, push_entry acc (materialize_cwd_dependent_entry e cwd))
    (List.filter (λ e, granted_file_system_entry_within_request requested policy matcher e cwd) (fs_entries granted)) [].
Definition intersect_file_system (requested granted : FileSystemPermissions) (cwd : rstring) : FileSystemPermissions :=
  let accepted := accepted_entries requested granted cwd in
  let '(es, requested_retained) := retain_constraining_deny_entries (fs_entries requested) accepted cwd accepted in
  let '(es, granted_retained) := retain_constraining_deny_entries (fs_entries granted) accepted cwd es in
  {| fs_entries := es;
     fs_glob_depth := merge_glob_scan_max_depth requested_retained (fs_glob_depth requested)
                        granted_retained (fs_glob_depth granted) ≫= nonzero |}.
Definition intersect_permission_profiles (requested granted : AdditionalPermissionProfile) (cwd : rstring)
  : AdditionalPermissionProfile :=
  {| add_network := if net_on (add_network requested) && net_on (add_network granted) then Some NETWORK_ON else None;
     add_file_system :=
       filter_opt (λ f, negb (fs_is_empty f))
         ((λ r, intersect_file_system r (default fs_default (add_file_system granted)) cwd) <$> add_file_system requested) |}.
End Globs.
End Resolve.

(** ** What entries say, up to the spelling of paths *)
Abbreviation Mark := (list Path.Component * FileSystemAccessMode)%type.

Section Marks.
Context {H : Host} (cwd : rstring).
(** The directory is an [AbsolutePathBuf]: absolute and normalised. *)
Definition normal_path (p : rstring) : Prop := Path.is_absolute p = true ∧ from_absolute_path p = Some p.
Context (Hcwd : normal_path cwd).

Definition mark (e : FileSystemSandboxEntry) : option Mark :=
  (λ r, (Path.components (resolved_path r), resolved_access r)) <$> resolve_entry (from_absolute_path cwd) e.
Definition marks (es : list FileSystemSandboxEntry) (k : Mark) : Prop := ∃ e, e ∈ es ∧ mark e = Some k.

(** The mode that marks give to a path: that of the deepest. *)
Definition rules (M : Mark → Prop) (q : list Path.Component) (m : FileSystemAccessMode) : Prop :=
  (m = NoAccess ∧ ∀ k, M k → ¬ k.1 `prefix_of` q) ∨
  ∃ cs, M (cs, m) ∧ cs `prefix_of` q ∧
    ∀ k, M k → k.1 `prefix_of` q → length k.1 < length cs ∨ (length k.1 = length cs ∧ mode_rank k.2 ≤ mode_rank m).

Lemma access_rules p path q :
  kind p = Restricted → resolve_candidate_path path cwd = Some q →
  rules (marks (entries p)) (Path.components q) (resolve_access_with_cwd p path cwd).
Proof.
  intros Hk Hq. destruct (access_governed p path cwd q Hk Hq) as [[Hnil ->]|(r & Hr & <- & Hmax)].
  - left. split; [done|]. intros k (e & He & Hm) Hpre. unfold mark in Hm. apply fmap_Some in Hm as (r & Hr & ->).
    assert (Hin : r ∈ applicable_entries p cwd q) by (apply applicable_entry; split; [by apply bool_decide_eq_true|eauto]).
    rewrite Hnil in Hin. by apply elem_of_nil in Hin.
  - right. apply applicable_entry in Hr as (Hpre & e & He & Hres). apply bool_decide_eq_true in Hpre.
    exists (Path.components (resolved_path r)). split_and!; [exists e; split; [done|]; unfold mark; by rewrite Hres|done|].
    intros k (e' & He' & Hm) Hpre'. unfold mark in Hm. apply fmap_Some in Hm as (r' & Hr' & ->).
    apply (Hmax r'). apply applicable_entry. split; [by apply bool_decide_eq_true|eauto].
Qed.

Lemma rules_ext M M' q m m' : (∀ k, M k ↔ M' k) → rules M q m → rules M' q m' → m = m'.
Proof.
  intros Hext [[-> Hno]|(cs & Hm & Hpre & Hmax)] [[-> Hno']|(cs' & Hm' & Hpre' & Hmax')]; [done|..].
  - exfalso. by apply (Hno (cs', m')); [apply Hext|].
  - exfalso. by apply (Hno' (cs, m)); [apply Hext|].
  - apply Hext in Hm as Hm1. apply Hext in Hm' as Hm1'.
    specialize (Hmax _ Hm1' Hpre'). specialize (Hmax' _ Hm1 Hpre). cbn in *. apply mode_rank_inj. lia.
Qed.

(** A subpath of the project roots is not written with a home directory. *)
Definition no_tilde (e : FileSystemSandboxEntry) : Prop :=
  match entry_path e with PSpecial (ProjectRoots (Some s)) => strip_prefix $"~" s = None | _ => True end.

Lemma entry_eqb_mark x y : no_tilde x → no_tilde y → entry_eqb x y = true → mark x = mark y.
Proof.
  destruct Hcwd as [Habs Hfrom]. unfold entry_eqb, no_tilde, mark, resolve_entry.
  intros Hx Hy [Hp Ha%bool_decide_eq_true]%andb_true_iff. rewrite Ha, Hfrom. clear Ha.
  destruct (entry_path x) as [a|a|v], (entry_path y) as [b|b|v']; try done; cbn [fspath_eqb] in Hp.
  - apply bool_decide_eq_true in Hp. cbn. by rewrite Hp.
  - destruct v as [| | |[s|]| | |], v' as [| | |[s'|]| | |]; try done; cbn [special_eqb subpath_eqb] in Hp.
    + apply bool_decide_eq_true in Hp. cbn. by rewrite (resolve_against_components s s' cwd).
Qed.

Lemma push_entry_marks es e k :
  Forall no_tilde es → no_tilde e → marks (push_entry es e) k ↔ marks es k ∨ mark e = Some k.
Proof.
  intros Hes He. unfold push_entry. destruct (existsb _ es) eqn:E.
  - apply existsb_exists in E as (x & Hx%list_elem_of_In & Heq). split; [by left|]. intros [Hk|Hk]; [done|].
    exists x. split; [done|]. rewrite (entry_eqb_mark x e); [done| |done|done]. by eapply Forall_forall in Hes.
  - unfold marks. setoid_rewrite elem_of_app. setoid_rewrite list_elem_of_singleton. naive_solver.
Qed.
Lemma push_entry_wf es e : Forall no_tilde es → no_tilde e → Forall no_tilde (push_entry es e).
Proof. intros Hes He. unfold push_entry. destruct (existsb _ es); [done|]. apply Forall_app. auto. Qed.
Lemma push_all_marks l es k :
  Forall no_tilde es → Forall no_tilde l → marks (fold_left push_entry l es) k ↔ marks es k ∨ marks l k.
Proof.
  revert es. induction l as [|e l IH]; intros es Hes Hl; cbn [fold_left].
  { unfold marks at 3. setoid_rewrite elem_of_nil. naive_solver. }
  apply Forall_cons in Hl as [He Hl]. rewrite IH, push_entry_marks by auto using push_entry_wf.
  unfold marks at 4. setoid_rewrite elem_of_cons. unfold marks. naive_solver.
Qed.

(** *** The code's own resolution agrees *)
Lemma permission_path_resolves p : resolve_permission_path p cwd = resolve_entry_path p (from_absolute_path cwd).
Proof.
  destruct Hcwd as [_ Hfrom]. destruct p as [p|g|v]; [done|done|]. destruct v; cbn; by rewrite ?Hfrom.
Qed.
Lemma mark_resolves e k :
  mark e = Some k ↔ ∃ g, resolve_permission_path (entry_path e) cwd = Some g ∧ k = (Path.components g, access e).
Proof.
  unfold mark, resolve_entry. rewrite permission_path_resolves.
  destruct (resolve_entry_path _ _) as [g|]; cbn; naive_solver.
Qed.
Lemma materialize_mark e : mark (materialize_cwd_dependent_entry e cwd) = mark e.
Proof.
  unfold materialize_cwd_dependent_entry. destruct (entry_path e) as [p|g|v] eqn:E; [done| |].
  - unfold mark, resolve_entry. by rewrite E.
  - destruct v as [| | |s| | |] eqn:Ev; try done; rewrite permission_path_resolves; cbn [resolve_entry_path];
      destruct Hcwd as [_ Hfrom]; rewrite Hfrom; unfold mark, resolve_entry; rewrite E; cbn; by rewrite Hfrom.
Qed.
Lemma materialize_no_tilde e : no_tilde (materialize_cwd_dependent_entry e cwd).
Proof.
  unfold materialize_cwd_dependent_entry, no_tilde. destruct (entry_path e) as [p|g|v] eqn:E; [by rewrite E|done|].
  destruct v as [| | |s| | |]; try (by rewrite E); rewrite permission_path_resolves; destruct Hcwd as [_ Hfrom];
    cbn; by rewrite Hfrom.
Qed.

(** *** The intersection *)
Section Intersect.
Variable build_glob_matcher : rstring → option (rstring → bool).
Context (requested granted : FileSystemPermissions).
Let policy := restricted (fs_entries requested).
Let matcher := new_matcher build_glob_matcher policy cwd.
Let within e := granted_file_system_entry_within_request requested policy matcher e cwd.
Let accepted := accepted_entries build_glob_matcher requested granted cwd.

Lemma accepted_wf_marks k :
  Forall no_tilde accepted ∧ (marks accepted k ↔ ∃ e, e ∈ fs_entries granted ∧ within e = true ∧ mark e = Some k).
Proof.
  unfold accepted, accepted_entries. fold policy matcher.
  set (l := List.filter _ _).
  assert (Hl : ∀ e, e ∈ l ↔ e ∈ fs_entries granted ∧ within e = true).
  { intros e. unfold l. rewrite list_elem_of_In, List.filter_In, <-list_elem_of_In. done. }
  set (f := λ acc e, push_entry acc (materialize_cwd_dependent_entry e cwd)).
  assert (Hf : ∀ l' acc, fold_left f l' acc = fold_left push_entry ((λ e, materialize_cwd_dependent_entry e cwd) <$> l') acc).
  { induction l' as [|e l' IH]; intros acc; [done|]. cbn. apply IH. }
  rewrite Hf. assert (Hm : Forall no_tilde ((λ e, materialize_cwd_dependent_entry e cwd) <$> l)).
  { apply Forall_fmap, Forall_true. intros e. apply materialize_no_tilde. }
  split.
  - clear Hl. revert Hm. generalize ((λ e, materialize_cwd_dependent_entry e cwd) <$> l).
    intros l'. assert (Hnil : Forall no_tilde []) by constructor. revert Hnil. generalize (@nil FileSystemSandboxEntry).
    induction l' as [|e l' IH]; intros acc Hacc Hl'; [done|]. apply Forall_cons in Hl' as [He Hl'].
    cbn [fold_left]. by apply IH; [apply push_entry_wf|].
  - rewrite push_all_marks by (done || constructor). unfold marks. split.
    + intros [(e & He & _)|(e & He & Hk)]; [by apply elem_of_nil in He|].
      apply list_elem_of_fmap in He as (e' & -> & [Hg Hw]%Hl). rewrite materialize_mark in Hk. eauto.
    + intros (e & Hg & Hw & Hk). right. exists (materialize_cwd_dependent_entry e cwd).
      rewrite materialize_mark. split; [|done]. apply list_elem_of_fmap. exists e. by rewrite Hl.
Qed.

Lemma retained_marks source output k :
  Forall no_tilde output →
  let '(out, _) := retain_constraining_deny_entries source accepted cwd output in
  Forall no_tilde out ∧
  (marks out k ↔ marks output k ∨
     ∃ e, e ∈ source ∧ denies e = true ∧ deny_entry_constrains_accepted_grant e accepted cwd = true ∧ mark e = Some k).
Proof.
  revert output. induction source as [|e source IH]; intros output Ho; cbn [retain_constraining_deny_entries].
  { split; [done|]. setoid_rewrite elem_of_nil. naive_solver. }
  destruct (denies e && deny_entry_constrains_accepted_grant e accepted cwd) eqn:E.
  - apply andb_true_iff in E as [E1 E2]. pose proof (materialize_no_tilde e) as Hm.
    specialize (IH (push_entry output (materialize_cwd_dependent_entry e cwd)) (push_entry_wf _ _ Ho Hm)).
    destruct (retain_constraining_deny_entries _ _ _ _) as [out ret]. destruct IH as [Hw Hk]. split; [done|].
    rewrite Hk, push_entry_marks, materialize_mark by done. setoid_rewrite elem_of_cons. naive_solver.
  - apply andb_false_iff in E. specialize (IH output Ho).
    destruct (retain_constraining_deny_entries _ _ _ _) as [out ret]. destruct IH as [Hw Hk]. split; [done|].
    rewrite Hk. setoid_rewrite elem_of_cons. split; [naive_solver|]. intros [?|(x & [->|Hx] & H1 & H2 & H3)]; [by left| |right; eauto].
    destruct E; congruence.
Qed.

Definition retained (source : list FileSystemSandboxEntry) (k : Mark) : Prop :=
  ∃ e, e ∈ source ∧ denies e = true ∧ deny_entry_constrains_accepted_grant e accepted cwd = true ∧ mark e = Some k.
Lemma intersect_marks k :
  marks (fs_entries (intersect_file_system build_glob_matcher requested granted cwd)) k ↔
  (∃ e, e ∈ fs_entries granted ∧ within e = true ∧ mark e = Some k) ∨
  retained (fs_entries requested) k ∨ retained (fs_entries granted) k.
Proof.
  unfold intersect_file_system. fold accepted. destruct (accepted_wf_marks k) as [Hw Ha].
  pose proof (retained_marks (fs_entries requested) accepted k Hw) as H1.
  destruct (retain_constraining_deny_entries (fs_entries requested) _ _ _) as [out1 ret1]. destruct H1 as [Hw1 H1].
  pose proof (retained_marks (fs_entries granted) out1 k Hw1) as H2.
  destruct (retain_constraining_deny_entries (fs_entries granted) _ _ _) as [out2 ret2]. destruct H2 as [Hw2 H2].
  cbn [fs_entries]. rewrite H2, H1, Ha. unfold retained. tauto.
Qed.

Lemma within_readable e k : within e = true → mark e = Some k → can_read k.2 = true.
Proof.
  unfold within, granted_file_system_entry_within_request. intros [Hr _]%andb_true_iff Hm.
  by apply mark_resolves in Hm as (g & _ & ->).
Qed.
(** A denial next to an accepted grant is kept. *)
Lemma denial_retained source e d cs csd m q :
  e ∈ fs_entries granted → within e = true → mark e = Some (cs, m) → cs `prefix_of` q →
  d ∈ source → mark d = Some (csd, NoAccess) → csd `prefix_of` q → retained source (csd, NoAccess).
Proof.
  intros He Hw Hm Hpre Hd Hmd Hpred. exists d. split_and!; [done| | |done].
  { apply mark_resolves in Hmd as (g & _ & [= _ Ha]). by apply bool_decide_eq_true. }
  destruct (proj2 (proj2 (accepted_wf_marks (cs, m)))) as (e' & He' & Hm'); [eauto|].
  pose proof (within_readable e _ Hw Hm) as Hread. cbn in Hread.
  apply mark_resolves in Hm' as (g & Hg & [= -> ->]). apply mark_resolves in Hmd as (gd & Hgd & [= -> _]).
  unfold deny_entry_constrains_accepted_grant. apply existsb_exists. exists e'.
  split; [by apply list_elem_of_In|]. rewrite Hread, Hg. cbn [andb].
  assert (match entry_path d with PGlob pattern => glob_static_prefix_path pattern cwd
          | p => resolve_permission_path p cwd end = Some gd) as -> by by destruct (entry_path d).
  unfold paths_overlap, Path.path_starts_with. apply orb_true_iff. rewrite !bool_decide_eq_true.
  destruct (prefix_weak_total _ _ _ Hpre Hpred); auto.
Qed.

(** What was requested at the place of an accepted grant. *)
Lemma requested_there e cs m :
  within e = true → mark e = Some (cs, m) →
  (∀ g, resolve_permission_path (entry_path e) cwd = Some g → normal_path g) →
  ∃ mr, rules (marks (fs_entries requested)) cs mr ∧ access_covers mr m = true.
Proof.
  intros Hw Hm Hn. apply mark_resolves in Hm as (g & Hg & [= -> ->]). destruct (Hn g Hg) as [Ha Hf].
  unfold within, granted_file_system_entry_within_request in Hw. rewrite Hg in Hw.
  apply andb_true_iff in Hw as [_ Hw]. destruct (match matcher with Some m => _ | None => _ end); [done|].
  eexists. split; [|exact Hw]. apply (access_rules policy g g); [done|]. unfold resolve_candidate_path. by rewrite Ha.
Qed.
Lemma retained_denies source k : retained source k → k.2 = NoAccess.
Proof.
  intros (e & _ & Hd & _ & Hm). apply mark_resolves in Hm as (g & _ & ->). by apply bool_decide_eq_true in Hd.
Qed.
(** The entry that lets a path be read came from the grant, and no denial of
    either side is as deep. *)
Lemma intersect_readable q m :
  rules (marks (fs_entries (intersect_file_system build_glob_matcher requested granted cwd))) q m → can_read m = true →
  ∃ e cs, e ∈ fs_entries granted ∧ within e = true ∧ mark e = Some (cs, m) ∧ cs `prefix_of` q ∧
    ∀ source csd, source = fs_entries requested ∨ source = fs_entries granted →
      marks source (csd, NoAccess) → csd `prefix_of` q → length csd < length cs.
Proof.
  intros [[-> _]|(cs & Hm & Hpre & Hmax)] Hr; [done|]. apply intersect_marks in Hm as [(e & He & Hw & Hm)|Hm].
  2:{ destruct Hm as [Hm%retained_denies|Hm%retained_denies]; cbn in Hm; by subst. }
  exists e, cs. split_and!; [done..|]. intros source csd Hsource (d & Hd & Hmd) Hpred.
  pose proof (denial_retained source e d cs csd m q He Hw Hm Hpre Hd Hmd Hpred) as Hret.
  destruct (Hmax (csd, NoAccess)) as [Hl|[_ Hl]]; [|done|done|].
  - apply intersect_marks. destruct Hsource as [-> | ->]; auto.
  - exfalso. destruct m; cbn in Hl; [lia|lia|done].
Qed.
Lemma denied_mark M q : rules M q NoAccess →
  (∀ k, M k → ¬ k.1 `prefix_of` q) ∨
  ∃ cs, M (cs, NoAccess) ∧ cs `prefix_of` q ∧ ∀ k, M k → k.1 `prefix_of` q → length k.1 ≤ length cs.
Proof.
  intros [[_ Hno]|(cs & Hm & Hpre & Hmax)]; [by left|]. right. exists cs. split_and!; [done..|].
  intros k Hk Hk'. destruct (Hmax k Hk Hk'); lia.
Qed.

Lemma intersect_within_request q m mr :
  (∀ e g, e ∈ fs_entries granted → resolve_permission_path (entry_path e) cwd = Some g → normal_path g) →
  rules (marks (fs_entries (intersect_file_system build_glob_matcher requested granted cwd))) q m → can_read m = true →
  rules (marks (fs_entries requested)) q mr → can_read mr = true.
Proof.
  intros Hn HI Hr HR. destruct (intersect_readable q m HI Hr) as (e & cs & He & Hw & Hm & Hpre & Hdeny).
  destruct (requested_there e cs m Hw Hm (λ g, Hn e g He)) as (mt & Ht & Hcov).
  destruct mr; [done|done|exfalso].
  destruct Ht as [[-> _]|(ct & Hct & Hpt & Hmaxt)]; [by destruct m|].
  assert (Hpq : ct `prefix_of` q) by by transitivity cs.
  destruct (denied_mark _ _ HR) as [Hno|(cm & Hcm & Hpm & Hmaxm)]; [by apply (Hno (ct, mt))|].
  pose proof (Hdeny _ cm (or_introl eq_refl) Hcm Hpm) as Hlt. pose proof (Hmaxm (ct, mt) Hct Hpq) as Hle. cbn in Hle.
  assert (Hcs : cm `prefix_of` cs).
  { destruct (prefix_weak_total _ _ _ Hpm Hpre) as [?|Hc]; [done|]. apply prefix_length in Hc. lia. }
  destruct (Hmaxt (cm, NoAccess) Hcm Hcs) as [Hl|[_ Hl]]; cbn in Hl; [lia|]. destruct mt; [cbn in Hl; lia..|by destruct m].
Qed.
Lemma intersect_within_grant q m mg :
  rules (marks (fs_entries (intersect_file_system build_glob_matcher requested granted cwd))) q m → can_read m = true →
  rules (marks (fs_entries granted)) q mg → can_read mg = true.
Proof.
  intros HI Hr HG. destruct (intersect_readable q m HI Hr) as (e & cs & He & Hw & Hm & Hpre & Hdeny).
  destruct mg; [done|done|exfalso]. assert (Hk : marks (fs_entries granted) (cs, m)) by by exists e.
  destruct (denied_mark _ _ HG) as [Hno|(cm & Hcm & Hpm & Hmaxm)]; [by apply (Hno (cs, m))|].
  pose proof (Hdeny _ cm (or_intror eq_refl) Hcm Hpm). pose proof (Hmaxm (cs, m) Hk Hpre) as Hle. cbn in Hle. lia.
Qed.
End Intersect.
End Marks.

(** ** Theorems *)
Section Theorems.
Context {H : Host}.

Definition extra_policy (p : AdditionalPermissionProfile) : FileSystemSandboxPolicy :=
  restricted (fs_entries (default fs_default (add_file_system p))).

Lemma extra_policy_filter (f : FileSystemPermissions) n :
  extra_policy {| add_network := n; add_file_system := filter_opt (λ f, negb (fs_is_empty f)) (Some f) |} =
  restricted (fs_entries f).
Proof.
  unfold extra_policy, filter_opt, fs_is_empty. cbn. destruct (fs_entries f) eqn:E; cbn; [done|by rewrite E].
Qed.

(** C37: What is left of a grant lets nothing be read beyond the request and the
    grant: a path that the entries of the result let be read, the entries of the
    request and of the grant both let be read, and the network is on exactly when
    both turned it on.  Three limits.  It is about reading: of a request only its
    denials are kept, so the result can let a path be written that the request
    wanted only to read ([intersect_write_exceeds_request]).  It is about the entries
    that name places, read as [resolve_access_with_cwd] reads them; glob patterns
    that deny reading are not looked at.  And the working directory and the places
    the grant names are absolute and normal, as the types of the code have them. *)
Theorem intersection_reads_within_both build_glob_matcher requested granted cwd path q :
  normal_path cwd → resolve_candidate_path path cwd = Some q →
  (∀ e g, e ∈ entries (extra_policy granted) → resolve_permission_path (entry_path e) cwd = Some g → normal_path g) →
  let result := intersect_permission_profiles build_glob_matcher requested granted cwd in
  (can_read (resolve_access_with_cwd (extra_policy result) path cwd) = true →
   can_read (resolve_access_with_cwd (extra_policy requested) path cwd) = true ∧
   can_read (resolve_access_with_cwd (extra_policy granted) path cwd) = true) ∧
  net_on (add_network result) = net_on (add_network requested) && net_on (add_network granted).
Proof.
  intros Hcwd Hq Hn result. split.
  2:{ unfold result, intersect_permission_profiles. cbn [add_network]. by destruct (net_on _ && net_on _). }
  assert (Hrules : ∀ p, rules (marks cwd (entries (extra_policy p))) (Path.components q)
                          (resolve_access_with_cwd (extra_policy p) path cwd)) by (intros p; by apply access_rules).
  pose proof (Hrules requested) as HR. pose proof (Hrules granted) as HG. pose proof (Hrules result) as HI.
  clear Hrules. revert HI. generalize (resolve_access_with_cwd (extra_policy result) path cwd).
  intros m HI Hr. revert HI. unfold result, intersect_permission_profiles.
  destruct (add_file_system requested) as [fr|] eqn:Er; cbn [fmap option_fmap option_map].
  2:{ intros [[-> _]|(cs & (e & He & _) & _)]; [done|]. by apply elem_of_nil in He. }
  rewrite extra_policy_filter. intros HI. cbn [entries restricted] in HI.
  assert (HRf : entries (extra_policy requested) = fs_entries fr) by (unfold extra_policy; by rewrite Er).
  rewrite HRf in HR. split.
  - by eapply (intersect_within_request cwd Hcwd build_glob_matcher fr); [exact Hn|exact HI|..].
  - by eapply (intersect_within_grant cwd Hcwd build_glob_matcher fr); [exact HI|..].
Qed.

(** *** Extra permissions on top of a policy *)
Lemma effective_marks p a cwd k :
  normal_path cwd → kind p = Restricted → Forall no_tilde (entries p) →
  Forall no_tilde (entries (extra_policy a)) →
  kind (effective_file_system_sandbox_policy p (Some a)) = Restricted ∧
  (marks cwd (entries (effective_file_system_sandbox_policy p (Some a))) k ↔
   marks cwd (entries p) k ∨ marks cwd (entries (extra_policy a)) k).
Proof.
  intros Hcwd Hk Hp Ha. unfold effective_file_system_sandbox_policy, extra_policy in *. cbn [mbind option_bind].
  assert (Hnil : ¬ marks cwd [] k) by (intros (e & He & _); by apply elem_of_nil in He).
  destruct (add_file_system a) as [f|]; cbn -[marks fs_is_empty] in *; [|tauto].
  unfold fs_is_empty. destruct (fs_entries f) as [|e es] eqn:E; cbn [is_empty]; [tauto|].
  unfold merge_file_system_policy_with_additional_permissions. rewrite Hk, <-E. rewrite <-E in Ha.
  cbn [kind entries]. split; [done|]. by apply push_all_marks.
Qed.

(** Extra permissions reach only the paths they name: the mode of a path under
    the policy with them is the one it had, or that of one of the extra entries
    that hold the path, and then no entry of the policy lies deeper. *)
Theorem extra_permissions_reach p a cwd path q :
  normal_path cwd → kind p = Restricted → Forall no_tilde (entries p) → Forall no_tilde (entries (extra_policy a)) →
  resolve_candidate_path path cwd = Some q →
  let before := resolve_access_with_cwd p path cwd in
  let after := resolve_access_with_cwd (effective_file_system_sandbox_policy p (Some a)) path cwd in
  after = before ∨
  ∃ cs, marks cwd (entries (extra_policy a)) (cs, after) ∧ cs `prefix_of` Path.components q ∧
    ∀ k, marks cwd (entries p) k → k.1 `prefix_of` Path.components q → length k.1 ≤ length cs.
Proof.
  intros Hcwd Hk Hp Ha Hq before after. pose proof (λ k, effective_marks p a cwd k Hcwd Hk Hp Ha) as HM.
  pose proof (access_rules cwd p path q Hk Hq) as HB. fold before in HB.
  pose proof (access_rules cwd _ path q (proj1 (HM ([], Read))) Hq) as HA. fold after in HA.
  destruct HA as [[-> Hno]|(cs & Hm & Hpre & Hmax)].
  - left. destruct HB as [[-> _]|(cs & Hm & Hpre & _)]; [done|].
    exfalso. apply (Hno (cs, before)); [|done]. apply HM. by left.
  - apply HM in Hm as [Hm|Hm].
    + left. destruct HB as [[_ Hno]|(cs' & Hm' & Hpre' & Hmax')]; [exfalso; by apply (Hno (cs, after))|].
      pose proof (Hmax' _ Hm Hpre) as H1. pose proof (Hmax _ (proj2 (proj2 (HM _)) (or_introl Hm')) Hpre') as H2.
      cbn in H1, H2. apply mode_rank_inj. lia.
    + right. exists cs. split_and!; [done..|]. intros k Hkk Hpk.
      destruct (Hmax k (proj2 (proj2 (HM _)) (or_introl Hkk)) Hpk); lia.
Qed.

(** The profile with extra permissions always exists (the branch the code calls
    unreachable is), and stands for the policies computed for it: the same
    entries, kind and network. *)
Theorem effective_profile_policies p a :
  ∃ p', effective_permission_profile p a = Some p' ∧
    kind (profile_file_system_policy p') = kind (effective_file_system_sandbox_policy (profile_file_system_policy p) a) ∧
    (kind (profile_file_system_policy p') = Restricted →
     entries (profile_file_system_policy p') = entries (effective_file_system_sandbox_policy (profile_file_system_policy p) a)) ∧
    profile_network_policy p' = effective_network_sandbox_policy (profile_network_policy p) a.
Proof.
  set (fs := effective_file_system_sandbox_policy (profile_file_system_policy p) a).
  assert (Hk : kind fs = kind (profile_file_system_policy p)).
  { unfold fs, effective_file_system_sandbox_policy, merge_file_system_policy_with_additional_permissions.
    destruct (a ≫= add_file_system) as [f|]; [|done]. destruct (fs_is_empty f); [done|].
    by destruct (kind (profile_file_system_policy p)) eqn:E. }
  unfold effective_permission_profile. fold fs.
  unfold from_runtime_permissions_with_enforcement, from_sandbox_policy.
  destruct p as [[es d|] n| |n]; cbn [profile_file_system_policy to_sandbox_policy kind enforcement unrestricted external_sandbox] in *;
    rewrite Hk; cbn [fmap option_fmap option_map]; eexists; (split; [done|]); (split; [done|]); (split; [done|]); try done.
  cbn [profile_network_policy]. unfold effective_network_sandbox_policy, merge_network_access.
  by destruct a.
Qed.

(** *** On the wire *)
Lemma split_roots_perm es r w :
  split_roots es = Some (r, w) →
  es ≡ₚ ((λ p, entry (PPath p) Read) <$> r) ++ ((λ p, entry (PPath p) Write) <$> w).
Proof.
  revert r w. induction es as [|[pth acc] es IH]; intros r w; cbn [split_roots]; [by intros [= <- <-]|].
  destruct pth as [pp|g|v]; cbn [entry_path access]; try done.
  destruct (split_roots es) as [[r' w']|]; cbn; [|done]. specialize (IH r' w' eq_refl).
  destruct acc; intros [= <- <-]; cbn [fmap list_fmap app].
  - by rewrite IH.
  - rewrite IH. by rewrite Permutation_middle.
Qed.
Lemma default_some_if_any l : default [] (some_if_any l) = l.
Proof. by destruct l. Qed.

(** Permissions survive the wire: what is read back has the same entries, up to
    their order, and the same depth, so it gives every path the same mode. *)
Theorem permissions_roundtrip p :
  let p' := deserialize (serialize p) in
  fs_entries p' ≡ₚ fs_entries p ∧ fs_glob_depth p' = fs_glob_depth p ∧
  ∀ cwd path q, resolve_candidate_path path cwd = Some q →
    resolve_access_with_cwd (restricted (fs_entries p')) path cwd =
    resolve_access_with_cwd (restricted (fs_entries p)) path cwd.
Proof.
  intros p'. assert (Hp : fs_entries p' ≡ₚ fs_entries p ∧ fs_glob_depth p' = fs_glob_depth p).
  { unfold p', serialize, as_legacy_permissions. destruct p as [es [d|]]; cbn [fs_glob_depth fs_entries]; [done|].
    destruct (split_roots es) as [[r w]|] eqn:E; cbn; [|done].
    rewrite !default_some_if_any. split; [|done]. symmetry. by apply split_roots_perm. }
  destruct Hp as [Hp Hd]. split_and!; [done..|]. intros cwd path q Hq.
  eapply (rules_ext (marks cwd (fs_entries p')) (marks cwd (fs_entries p))).
  - intros k. unfold marks. by setoid_rewrite Hp.
  - by apply (access_rules cwd (restricted (fs_entries p')) path q).
  - by apply (access_rules cwd (restricted (fs_entries p)) path q).
Qed.
End Theorems.
(** ** Witnesses *)
#[local] Existing Instance FsFacts.demo_host.
Definition demo_globs (g : rstring) : option (rstring → bool) := None.
Definition demo_request : AdditionalPermissionProfile :=
  {| add_network := Some NETWORK_ON;
     add_file_system := Some {| fs_entries := [entry (PPath $"/a") Write; entry (PPath $"/a/k") NoAccess]; fs_glob_depth := None |} |}.
Definition demo_grant : AdditionalPermissionProfile :=
  {| add_network := None;
     add_file_system := Some {| fs_entries := [entry (PPath $"/a/b") Read; entry (PPath $"/o") Read]; fs_glob_depth := None |} |}.

Lemma demo_normal : normal_path $"/w".
Proof. split; vm_compute; reflexivity. Qed.
Lemma intersection_reads_within_both_witness :
  can_read (resolve_access_with_cwd (extra_policy (intersect_permission_profiles demo_globs demo_request demo_grant $"/w"))
              $"/a/b/c" $"/w") = true ∧
  can_read (resolve_access_with_cwd (extra_policy (intersect_permission_profiles demo_globs demo_request demo_grant $"/w"))
              $"/o/c" $"/w") = false ∧
  can_read (resolve_access_with_cwd (extra_policy demo_request) $"/a/b/c" $"/w") = true.
Proof.
  split; [vm_compute; reflexivity|]. split; [vm_compute; reflexivity|].
  refine (proj1 (proj1 (intersection_reads_within_both demo_globs demo_request demo_grant $"/w" $"/a/b/c" $"/a/b/c" demo_normal
    ltac:(vm_compute; reflexivity) _) _)); [|vm_compute; reflexivity].
  intros e g He. unfold extra_policy, demo_grant in He. cbn in He.
  apply elem_of_cons in He as [-> |[-> |He%elem_of_nil]%elem_of_cons]; [..|done];
    intros [= <-]; split; vm_compute; reflexivity.
Defined.

Lemma extra_permissions_reach_witness :
  let after := resolve_access_with_cwd (effective_file_system_sandbox_policy demo_policy (Some demo_grant)) $"/w/secret/x" $"/w" in
  after = resolve_access_with_cwd demo_policy $"/w/secret/x" $"/w" ∨
  ∃ cs, marks $"/w" (entries (extra_policy demo_grant)) (cs, after) ∧ cs `prefix_of` Path.components $"/w/secret/x" ∧
    ∀ k, marks $"/w" (entries demo_policy) k → k.1 `prefix_of` Path.components $"/w/secret/x" → length k.1 ≤ length cs.
Proof.
  apply (extra_permissions_reach demo_policy demo_grant $"/w" $"/w/secret/x" $"/w/secret/x" demo_normal);
    [reflexivity|repeat constructor|repeat constructor|vm_compute; reflexivity].
Defined.

(** An intersection can let a command write more than it asked for: a request
    to write [/a] but only read [/a/b], granted [/a], becomes write access to
    all of [/a], since of a request only its denials are kept. *)
Lemma intersect_write_exceeds_request :
  let requested := {| add_network := None;
    add_file_system := Some {| fs_entries := [entry (PPath $"/a") Write; entry (PPath $"/a/b") Read]; fs_glob_depth := None |} |} in
  let granted := {| add_network := None;
    add_file_system := Some {| fs_entries := [entry (PPath $"/a") Write]; fs_glob_depth := None |} |} in
  resolve_access_with_cwd (extra_policy requested) $"/a/b/c" $"/w" = Read ∧
  resolve_access_with_cwd (extra_policy (intersect_permission_profiles demo_globs requested granted $"/w")) $"/a/b/c" $"/w" = Write.
Proof. split; vm_compute; reflexivity. Qed.
End Merge.
