(* ===== verification/BytePos.v ===== *)
(** * BytePos: strings addressed by byte positions

    The part of [str] and [String] of the Rust standard library that takes byte
    offsets: char boundaries, slices, insertion and replacement.  A slice or an
    edit whose ends are not char boundaries panics, which is [None]. *)

From S2P Require Import Prelude.

Module Bytes.

(** The text before and from byte [n], if a char begins (or the text ends) there. *)
Fixpoint split_bytes (n : nat) (s : rstring) {struct s} : option (rstring * rstring) :=
  match n with
  | 0 => Some ([], s)
  | _ =>
      match s with
      | [] => None
      | c :: s' =>
          if utf8_len c <=? n
          then '(a, b) ← split_bytes (n - utf8_len c) s'; Some (c :: a, b)
          else None
      end
  end.
Definition is_char_boundary (s : rstring) (n : nat) : bool :=
  match split_bytes n s with Some _ => true | None => false end.

(** [&s[..n]], [&s[n..]] and [&s[a..b]]. *)
Definition slice_to (s : rstring) (n : nat) : option rstring := fst <$> split_bytes n s.
Definition slice_from (s : rstring) (n : nat) : option rstring := snd <$> split_bytes n s.
Definition slice (s : rstring) (a b : nat) : option rstring :=
  if a <=? b then slice_to s b ≫= λ p, slice_from p a else None.
(** [String::insert_str] and [String::replace_range]. *)
Definition insert_str (s : rstring) (n : nat) (t : rstring) : option rstring :=
  '(a, b) ← split_bytes n s; Some (a ++ t ++ b).
Definition replace_range (s : rstring) (a b : nat) (t : rstring) : option rstring :=
  if a <=? b then '(p, z) ← split_bytes b s; x ← slice_to p a; Some (x ++ t ++ z) else None.

(** [str::find] and [str::rfind] with a test of chars: byte positions. *)
Fixpoint find_char (f : char → bool) (s : rstring) : option nat :=
  match s with
  | [] => None
  | c :: s' => if f c then Some 0 else (λ i, utf8_len c + i) <$> find_char f s'
  end.
(** The last one, with the char itself. *)
Fixpoint rfind_char (f : char → bool) (s : rstring) : option (nat * char) :=
  match s with
  | [] => None
  | c :: s' =>
      match rfind_char f s' with
      | Some (i, d) => Some (utf8_len c + i, d)
      | None => if f c then Some (0, c) else None
      end
  end.

(** ** Lemmas *)
Lemma utf8_len_pos c : 1 ≤ utf8_len c.
Proof. unfold utf8_len. repeat case_match; lia. Qed.
Lemma byte_len_cons c s : byte_len (c :: s) = utf8_len c + byte_len s.
Proof. done. Qed.
Lemma byte_len_nil s : byte_len s = 0 → s = [].
Proof. destruct s as [|c s]; [done|]. rewrite byte_len_cons. pose proof (utf8_len_pos c). lia. Qed.

Lemma split_bytes_0 s : split_bytes 0 s = Some ([], s).
Proof. by destruct s. Qed.
Lemma split_bytes_cons n c s : 0 < n →
  split_bytes n (c :: s) =
    if utf8_len c <=? n then '(a, b) ← split_bytes (n - utf8_len c) s; Some (c :: a, b) else None.
Proof. by destruct n; [lia|]. Qed.
Lemma split_bytes_len a b : split_bytes (byte_len a) (a ++ b) = Some (a, b).
Proof.
  induction a as [|c a IH]; [apply split_bytes_0|]. rewrite byte_len_cons, <-app_comm_cons.
  pose proof (utf8_len_pos c). rewrite split_bytes_cons by lia.
  rewrite (proj2 (Nat.leb_le _ _)) by lia. by replace (_ + _ - _) with (byte_len a) by lia; rewrite IH.
Qed.
Lemma split_bytes_Some n s a b : split_bytes n s = Some (a, b) ↔ s = a ++ b ∧ byte_len a = n.
Proof.
  split; [|intros [-> <-]; apply split_bytes_len].
  revert n a b. induction s as [|c s IH]; intros n a b; destruct n as [|n].
  1,3: by intros [= <- <-]. { done. }
  rewrite split_bytes_cons by lia. destruct (Nat.leb_spec (utf8_len c) (S n)); [|done].
  destruct (split_bytes _ s) as [[a' b']|] eqn:E; [|done]. intros [= <- <-].
  apply IH in E as [-> E]. split; [done|]. rewrite byte_len_cons. lia.
Qed.

Lemma boundary_split s n : is_char_boundary s n = true ↔ ∃ a b, s = a ++ b ∧ byte_len a = n.
Proof.
  unfold is_char_boundary. split.
  - destruct (split_bytes n s) as [[a b]|] eqn:E; [|done]. intros _. apply split_bytes_Some in E. eauto.
  - intros (a & b & -> & <-). by rewrite split_bytes_len.
Qed.
Lemma boundary_0 s : is_char_boundary s 0 = true.
Proof. unfold is_char_boundary. by rewrite split_bytes_0. Qed.
Lemma boundary_len s : is_char_boundary s (byte_len s) = true.
Proof. apply boundary_split. exists s, []. by rewrite app_nil_r. Qed.
Lemma boundary_le s n : is_char_boundary s n = true → n ≤ byte_len s.
Proof. intros (a & b & -> & <-)%boundary_split. rewrite byte_len_app. lia. Qed.
Lemma boundary_app_len a b : is_char_boundary (a ++ b) (byte_len a) = true.
Proof. apply boundary_split. eauto. Qed.

(** Two prefixes of one text. *)
Lemma split_order a b c d : a ++ b = c ++ d → byte_len a ≤ byte_len c → ∃ m, c = a ++ m ∧ b = m ++ d.
Proof.
  revert c. induction a as [|x a IH]; intros c Heq Hle; [by exists c|].
  destruct c as [|y c].
  { exfalso. rewrite byte_len_cons in Hle. pose proof (utf8_len_pos x). cbn in Hle. lia. }
  injection Heq as <- Heq. rewrite !byte_len_cons in Hle. destruct (IH c Heq) as (m & -> & ->); [lia|]. by exists m.
Qed.
Lemma two_boundaries s m n :
  is_char_boundary s m = true → is_char_boundary s n = true → m ≤ n →
  ∃ x y z, s = x ++ y ++ z ∧ byte_len x = m ∧ byte_len (x ++ y) = n.
Proof.
  intros (a & b & -> & <-)%boundary_split (c & d & Heq & <-)%boundary_split Hle.
  destruct (split_order a b c d Heq Hle) as (y & -> & ->). by exists a, y, d.
Qed.

(** The edits, on a text cut in three. *)
Lemma slice_mid x y z : slice (x ++ y ++ z) (byte_len x) (byte_len (x ++ y)) = Some y.
Proof.
  unfold slice, slice_to, slice_from. rewrite (proj2 (Nat.leb_le _ _)) by (rewrite byte_len_app; lia).
  rewrite app_assoc, split_bytes_len. cbn. by rewrite split_bytes_len.
Qed.
Lemma replace_mid x y z t : replace_range (x ++ y ++ z) (byte_len x) (byte_len (x ++ y)) t = Some (x ++ t ++ z).
Proof.
  unfold replace_range, slice_to. rewrite (proj2 (Nat.leb_le _ _)) by (rewrite byte_len_app; lia).
  rewrite app_assoc, split_bytes_len. cbn. by rewrite split_bytes_len.
Qed.
Lemma insert_mid x z t : insert_str (x ++ z) (byte_len x) t = Some (x ++ t ++ z).
Proof. unfold insert_str. by rewrite split_bytes_len. Qed.

(** Positions before an edit stay, positions after it move. *)
Lemma boundary_left x y z n :
  n ≤ byte_len x → is_char_boundary (x ++ y) n = is_char_boundary (x ++ z) n.
Proof.
  intros Hn. apply eq_bool_prop_intro. rewrite !Is_true_true, !boundary_split.
  split; intros (a & b & Heq & <-); symmetry in Heq; destruct (split_order a b _ _ Heq Hn) as (m & -> & ->).
  - exists a, (m ++ z). by rewrite (assoc_L (++)).
  - exists a, (m ++ y). by rewrite (assoc_L (++)).
Qed.
Lemma boundary_right x z n : is_char_boundary (x ++ z) (byte_len x + n) = is_char_boundary z n.
Proof.
  apply eq_bool_prop_intro. rewrite !Is_true_true, !boundary_split. split; intros (a & b & Heq & Hn).
  - destruct (split_order x z a b Heq) as (m & -> & ->); [lia|]. exists m, b. rewrite byte_len_app in Hn. split; [done|lia].
  - exists (x ++ a), b. rewrite byte_len_app, Heq, <-(assoc_L (++)). split; [done|lia].
Qed.
Lemma slice_Some s a b m :
  slice s a b = Some m ↔ ∃ x z, s = x ++ m ++ z ∧ byte_len x = a ∧ byte_len (x ++ m) = b.
Proof.
  split; [|intros (x & z & -> & <- & <-); apply slice_mid].
  unfold slice, slice_to, slice_from. destruct (Nat.leb_spec a b); [|done].
  destruct (split_bytes b s) as [[p z]|] eqn:E; [|done]. cbn. destruct (split_bytes a p) as [[x m']|] eqn:E'; [|done].
  cbn. intros [= <-]. apply split_bytes_Some in E as [-> <-], E' as [-> <-]. exists x, z. by rewrite <-(assoc_L (++)).
Qed.
Lemma slice_left x y z a b m : b ≤ byte_len x → slice (x ++ y) a b = Some m → slice (x ++ z) a b = Some m.
Proof.
  intros Hb (u & v & Heq & <- & <-)%slice_Some. rewrite app_assoc in Heq. symmetry in Heq.
  destruct (split_order _ _ _ _ Heq Hb) as (w & -> & ->). rewrite <-!(assoc_L (++)). apply slice_mid.
Qed.
Lemma slice_right x z a b m : slice z a b = Some m ↔ slice (x ++ z) (byte_len x + a) (byte_len x + b) = Some m.
Proof.
  rewrite !slice_Some. split; intros (u & v & Heq & Ha & Hb).
  - exists (x ++ u), v. rewrite Heq, <-!(assoc_L (++)), !byte_len_app in *. split_and!; [done|lia..].
  - destruct (split_order x z u _ Heq) as (w & -> & ->); [lia|]. exists w, v.
    rewrite !byte_len_app in *. split_and!; [done|lia..].
Qed.
Lemma slice_total s a b :
  is_char_boundary s a = true → is_char_boundary s b = true → a ≤ b → ∃ m, slice s a b = Some m.
Proof.
  intros Ha Hb Hle. destruct (two_boundaries s a b Ha Hb Hle) as (x & y & z & -> & <- & <-).
  exists y. apply slice_mid.
Qed.
Lemma slice_boundaries s a b m :
  slice s a b = Some m → is_char_boundary s a = true ∧ is_char_boundary s b = true ∧ a ≤ b ∧ b = a + byte_len m.
Proof.
  intros (x & z & -> & <- & <-)%slice_Some. rewrite byte_len_app. split_and!; [apply boundary_app_len| |lia|done].
  rewrite app_assoc, <-byte_len_app. apply boundary_app_len.
Qed.

Lemma find_char_Some f s i :
  find_char f s = Some i → ∃ a c b, s = a ++ c :: b ∧ byte_len a = i ∧ f c = true ∧ forallb (λ c, negb (f c)) a = true.
Proof.
  revert i. induction s as [|c s IH]; intros i; cbn [find_char]; [done|]. destruct (f c) eqn:Ef.
  - intros [= <-]. by exists [], c, s.
  - destruct (find_char f s) as [j|]; [|done]. intros [= <-]. destruct (IH j eq_refl) as (a & d & b & -> & <- & Hd & Ha).
    exists (c :: a), d, b. cbn. by rewrite Ef.
Qed.
Lemma find_char_None f s : find_char f s = None → forallb (λ c, negb (f c)) s = true.
Proof.
  induction s as [|c s IH]; cbn; [done|]. destruct (f c); [done|]. destruct (find_char f s); [done|auto].
Qed.
Lemma rfind_char_None f s : rfind_char f s = None → forallb (λ c, negb (f c)) s = true.
Proof.
  induction s as [|c s IH]; [done|]. cbn. destruct (rfind_char f s) as [[??]|]; [done|].
  destruct (f c); [done|]. cbn. auto.
Qed.
Lemma rfind_char_Some f s i c :
  rfind_char f s = Some (i, c) → ∃ a b, s = a ++ c :: b ∧ byte_len a = i ∧ f c = true ∧ forallb (λ c, negb (f c)) b = true.
Proof.
  revert i. induction s as [|d s IH]; intros i; cbn [rfind_char]; [done|].
  destruct (rfind_char f s) as [[j e]|] eqn:E.
  - intros [= <- ->]. destruct (IH j eq_refl) as (a & b & -> & <- & Hd & Hb). by exists (d :: a), b.
  - destruct (f d) eqn:Ef; [|done]. intros [= <- ->]. exists [], s. split_and!; [done..|].
    by apply rfind_char_None.
Qed.
End Bytes.
