(* ===== verification/TextArea.v ===== *)
(** * TextArea: the editor of the composer

    Models codex-rs/tui/src/bottom_pane/textarea.rs: the text, its atomic
    elements (placeholders), the cursor, the wrapping cache and the kill buffer,
    with every operation of the type and the keys it is driven by; and, of
    codex-rs/tui/src/wrapping.rs, the ranges of wrapped lines.

    Positions are bytes, as in the source; a slice that would panic is [None].
    Segmentation into graphemes and words, display widths and the textwrap crate
    are the class [Unicode], with what their documentation says as [UnicodeLaws]. *)

From S2P Require Import Prelude BytePos.

Module TextArea.
Import Bytes.

(** ** Libraries *)
(** A line of [textwrap::wrap]: a slice of the text, by its place, or a new string. *)
Inductive WrappedLine := Borrowed (start len : nat) | Owned (s : rstring).
Class Unicode := {
  prev_boundary : rstring → nat → result (option nat) unit;
  next_boundary : rstring → nat → result (option nat) unit;
  graphemes : rstring → list rstring;
  width : rstring → nat;
  split_word_bounds : rstring → list rstring;
  wrap : rstring → nat → list WrappedLine
}.
Class UnicodeLaws (U : Unicode) := {
  prev_boundary_spec s n : is_char_boundary s n = true → 0 < n →
    ∃ b, prev_boundary s n = Ok (Some b) ∧ b < n ∧ is_char_boundary s b = true;
  next_boundary_spec s n : is_char_boundary s n = true → n < byte_len s →
    ∃ b, next_boundary s n = Ok (Some b) ∧ n < b ∧ is_char_boundary s b = true;
  graphemes_concat s : concat (graphemes s) = s;
  split_word_bounds_concat s : concat (split_word_bounds s) = s;
  wrap_slices s w start len : Borrowed start len ∈ wrap s w →
    is_char_boundary s start = true ∧ is_char_boundary s (start + len) = true
}.

(** ** State *)
Record TextElement := { elem_id : Z; range_start : nat; range_end : nat; elem_name : option rstring }.
Record WrapCache := { cache_width : nat; cache_lines : list (nat * nat) }.
Record TextArea := {
  text : rstring;
  cursor_pos : nat;
  wrap_cache : option WrapCache;
  preferred_col : option nat;
  elements : list TextElement;
  next_element_id : Z;
  kill_buffer : rstring
}.
Definition new : TextArea :=
  {| text := []; cursor_pos := 0; wrap_cache := None; preferred_col := None; elements := [];
     next_element_id := 1; kill_buffer := [] |}.

(** Assignments to fields. *)
Definition with_cursor (t : TextArea) (p : nat) : TextArea :=
  {| text := text t; cursor_pos := p; wrap_cache := wrap_cache t; preferred_col := preferred_col t;
     elements := elements t; next_element_id := next_element_id t; kill_buffer := kill_buffer t |}.
Definition with_col (t : TextArea) (c : option nat) : TextArea :=
  {| text := text t; cursor_pos := cursor_pos t; wrap_cache := wrap_cache t; preferred_col := c;
     elements := elements t; next_element_id := next_element_id t; kill_buffer := kill_buffer t |}.
Definition with_elements (t : TextArea) (es : list TextElement) (next : Z) : TextArea :=
  {| text := text t; cursor_pos := cursor_pos t; wrap_cache := wrap_cache t; preferred_col := preferred_col t;
     elements := es; next_element_id := next; kill_buffer := kill_buffer t |}.
Definition with_kill_buffer (t : TextArea) (k : rstring) : TextArea :=
  {| text := text t; cursor_pos := cursor_pos t; wrap_cache := wrap_cache t; preferred_col := preferred_col t;
     elements := elements t; next_element_id := next_element_id t; kill_buffer := k |}.
(** A new text: [wrap_cache.replace(None)] and no preferred column. *)
Definition with_text (t : TextArea) (s : rstring) : TextArea :=
  {| text := s; cursor_pos := cursor_pos t; wrap_cache := None; preferred_col := None;
     elements := elements t; next_element_id := next_element_id t; kill_buffer := kill_buffer t |}.

(** ** Boundaries *)
(** The two loops from a position that is inside a char. *)
Fixpoint boundary_before (s : rstring) (n : nat) : nat :=
  if is_char_boundary s n then n else match n with 0 => 0 | S m => boundary_before s m end.
Fixpoint boundary_after (s : rstring) (fuel n : nat) : nat :=
  if is_char_boundary s n then n else match fuel with 0 => n | S fuel => boundary_after s fuel (S n) end.
Definition clamp_pos_to_char_boundary (s : rstring) (pos : nat) : nat :=
  let pos := pos `min` byte_len s in
  if is_char_boundary s pos then pos
  else
    let prev := boundary_before s pos in
    let next := boundary_after s (byte_len s - pos) pos in
    if pos - prev <=? next - pos then prev else next.

Definition contains_pos (pos : nat) (e : TextElement) : bool := (range_start e <? pos) && (pos <? range_end e).
Definition find_element_containing (es : list TextElement) (pos : nat) : option TextElement :=
  List.find (contains_pos pos) es.
(** [clamp_pos_to_nearest_boundary]; [clamp_pos_for_insertion] has the same body. *)
Definition clamp_pos_to_nearest_boundary (t : TextArea) (pos : nat) : nat :=
  let pos := clamp_pos_to_char_boundary (text t) pos in
  match find_element_containing (elements t) pos with
  | Some e =>
      if pos - range_start e <=? range_end e - pos
      then clamp_pos_to_char_boundary (text t) (range_start e)
      else clamp_pos_to_char_boundary (text t) (range_end e)
  | None => pos
  end.
Definition clamp_pos_for_insertion := clamp_pos_to_nearest_boundary.
Definition adjust_pos_out_of_elements (t : TextArea) (pos : nat) (prefer_start : bool) : nat :=
  match find_element_containing (elements t) pos with
  | Some e => if prefer_start then range_start e else range_end e
  | None => pos
  end.

(** One pass of the loop, and the loop. *)
Definition expand_pass (es : list TextElement) (r : nat * nat) : nat * nat :=
  fold_left (λ r e,
    if (range_start e <? r.2) && (r.1 <? range_end e)
    then (r.1 `min` range_start e, r.2 `max` range_end e) else r) es r.
Fixpoint expand_loop (es : list TextElement) (fuel : nat) (r : nat * nat) : nat * nat :=
  match fuel with
  | 0 => r
  | S fuel =>
      let r' := expand_pass es r in
      if bool_decide (r' = r) then r else expand_loop es fuel r'
  end.
Definition expand_range_to_element_boundaries (t : TextArea) (r : nat * nat) : nat * nat :=
  expand_loop (elements t) (S (length (elements t))) r.

(** ** Elements *)
Definition with_range (e : TextElement) (a b : nat) : TextElement :=
  {| elem_id := elem_id e; range_start := a; range_end := b; elem_name := elem_name e |}.
Definition shift_element (at_ fin removed inserted : nat) (e : TextElement) : TextElement :=
  if range_end e <=? at_ then e
  else if fin <=? range_start e
  then with_range e (range_start e + inserted - removed) (range_end e + inserted - removed)
  else with_range e (at_ `min` range_start e) (at_ + inserted `max` (range_end e - fin)).
Definition shift_elements (es : list TextElement) (at_ removed inserted : nat) : list TextElement :=
  let fin := at_ + removed in
  shift_element at_ fin removed inserted <$>
    List.filter (λ e, negb ((at_ <=? range_start e) && (range_end e <=? fin))) es.

(** [sort_by_key(|e| e.range.start)], which is stable. *)
Fixpoint insert_element_sorted (e : TextElement) (es : list TextElement) : list TextElement :=
  match es with
  | [] => [e]
  | f :: es' => if range_start f <=? range_start e then f :: insert_element_sorted e es' else e :: es
  end.
Definition sort_elements (es : list TextElement) : list TextElement :=
  fold_left (λ acc e, insert_element_sorted e acc) es [].

Definition U64_MAX : Z := (2 ^ 64 - 1)%Z.
Definition succ_id (i : Z) : Z := Z.min (i + 1) U64_MAX.
Definition add_element_with_id (t : TextArea) (a b : nat) (name : option rstring) : Z * TextArea :=
  let id := next_element_id t in
  let e := {| elem_id := id; range_start := a; range_end := b; elem_name := name |} in
  (id, with_elements t (sort_elements (elements t ++ [e])) (succ_id id)).
Definition add_element (t : TextArea) (a b : nat) : Z * TextArea := add_element_with_id t a b None.
Definition add_element_range (t : TextArea) (a b : nat) : option Z * TextArea :=
  let start := clamp_pos_to_char_boundary (text t) (a `min` byte_len (text t)) in
  let fin := clamp_pos_to_char_boundary (text t) (b `min` byte_len (text t)) in
  if fin <=? start then (None, t)
  else if existsb (λ e, (range_start e =? start) && (range_end e =? fin)) (elements t) then (None, t)
  else if existsb (λ e, (start <? range_end e) && (range_start e <? fin)) (elements t) then (None, t)
  else let '(id, t) := add_element t start fin in (Some id, t).
Definition remove_element_range (t : TextArea) (a b : nat) : bool * TextArea :=
  let start := clamp_pos_to_char_boundary (text t) (a `min` byte_len (text t)) in
  let fin := clamp_pos_to_char_boundary (text t) (b `min` byte_len (text t)) in
  if fin <=? start then (false, t)
  else
    let es := List.filter (λ e, negb (range_start e =? start) || negb (range_end e =? fin)) (elements t) in
    (negb (length (elements t) =? length es), with_elements t es (next_element_id t)).

Definition payload (t : TextArea) (e : TextElement) : option rstring := slice (text t) (range_start e) (range_end e).
Definition element_payloads (t : TextArea) : list rstring := omap (payload t) (elements t).
Definition text_elements (t : TextArea) : list (nat * nat * option rstring) :=
  (λ e, (range_start e, range_end e, payload t e)) <$> elements t.
Record TextElementSnapshot := { snap_id : Z; snap_range : nat * nat; snap_text : rstring }.
Definition text_element_snapshots (t : TextArea) : list TextElementSnapshot :=
  omap (λ e, (λ s, {| snap_id := elem_id e; snap_range := (range_start e, range_end e); snap_text := s |}) <$> payload t e)
    (elements t).
Definition element_id_for_exact_range (t : TextArea) (a b : nat) : option Z :=
  elem_id <$> List.find (λ e, (range_start e =? a) && (range_end e =? b)) (elements t).
Definition has_name (id : rstring) (e : TextElement) : bool :=
  match elem_name e with Some n => n =?s id | None => false end.
Definition named_element_range (t : TextArea) (id : rstring) : option (nat * nat) :=
  (λ e, (range_start e, range_end e)) <$> List.find (has_name id) (elements t).

(** ** Replacing the text *)
Fixpoint set_elements (s : rstring) (ranges : list (nat * nat)) (next : Z) : list TextElement * Z :=
  match ranges with
  | [] => ([], next)
  | (a, b) :: ranges' =>
      let start := clamp_pos_to_char_boundary s (a `min` byte_len s) in
      let fin := clamp_pos_to_char_boundary s (b `min` byte_len s) in
      if fin <=? start then set_elements s ranges' next
      else
        let '(es, next') := set_elements s ranges' (succ_id next) in
        ({| elem_id := next; range_start := start; range_end := fin; elem_name := None |} :: es, next')
  end.
Definition set_text_inner (t : TextArea) (s : rstring) (ranges : option (list (nat * nat))) : TextArea :=
  let '(es, next) :=
    match ranges with
    | Some ranges => let '(es, next) := set_elements s ranges (next_element_id t) in (sort_elements es, next)
    | None => ([], next_element_id t)
    end in
  let t := with_elements (with_text t s) es next in
  with_cursor t (clamp_pos_to_nearest_boundary t (cursor_pos t `min` byte_len s)).
Definition set_text_clearing_elements (t : TextArea) (s : rstring) : TextArea := set_text_inner t s None.
Definition set_text_with_elements (t : TextArea) (s : rstring) (ranges : list (nat * nat)) : TextArea :=
  set_text_inner t s (Some ranges).

(** ** Editing *)
Definition set_cursor (t : TextArea) (pos : nat) : TextArea :=
  with_col (with_cursor t (clamp_pos_to_nearest_boundary t (pos `min` byte_len (text t)))) None.
Definition insert_str_at (t : TextArea) (pos : nat) (s : rstring) : option TextArea :=
  let pos := clamp_pos_for_insertion t pos in
  s' ← Bytes.insert_str (text t) pos s;
  let cursor := if pos <=? cursor_pos t then cursor_pos t + byte_len s else cursor_pos t in
  Some (with_elements (with_cursor (with_text t s') cursor) (shift_elements (elements t) pos 0 (byte_len s)) (next_element_id t)).
Definition insert_str (t : TextArea) (s : rstring) : option TextArea := insert_str_at t (cursor_pos t) s.

(** Where the cursor goes when [start..fin] becomes [inserted] bytes. *)
Definition cursor_after_edit (cursor start fin inserted : nat) : nat :=
  if cursor <? start then cursor
  else if cursor <=? fin then start + inserted
  else cursor + inserted - (fin - start).
Definition replace_range_raw (t : TextArea) (a b : nat) (s : rstring) : option TextArea :=
  if a <=? b then
    let start := a `min` byte_len (text t) in
    let fin := b `min` byte_len (text t) in
    let removed_len := fin - start in
    let inserted_len := byte_len s in
    if (removed_len =? 0) && (inserted_len =? 0) then Some t
    else
      s' ← Bytes.replace_range (text t) a b s;
      let t' := with_elements (with_text t s') (shift_elements (elements t) start (fin - start) inserted_len)
                  (next_element_id t) in
      let pos := cursor_after_edit (cursor_pos t) start fin inserted_len `min` byte_len s' in
      Some (with_cursor t' (clamp_pos_to_nearest_boundary t' pos))
  else None.
Definition replace_range (t : TextArea) (a b : nat) (s : rstring) : option TextArea :=
  let '(a, b) := expand_range_to_element_boundaries t (a, b) in replace_range_raw t a b s.
Definition kill_range (t : TextArea) (a b : nat) : option TextArea :=
  let '(a, b) := expand_range_to_element_boundaries t (a, b) in
  if b <=? a then Some t
  else
    removed ← slice (text t) a b;
    if is_empty removed then Some t else replace_range_raw (with_kill_buffer t removed) a b [].

Definition insert_element (t : TextArea) (s : rstring) : option (Z * TextArea) :=
  let start := clamp_pos_for_insertion t (cursor_pos t) in
  t ← insert_str_at t start s;
  let fin := start + byte_len s in
  let '(id, t) := add_element t start fin in
  Some (id, set_cursor t fin).
Definition insert_named_element (t : TextArea) (s id : rstring) : option TextArea :=
  let start := clamp_pos_for_insertion t (cursor_pos t) in
  t ← insert_str_at t start s;
  let fin := start + byte_len s in
  let '(_, t) := add_element_with_id t start fin (Some id) in
  Some (set_cursor t fin).
Definition replace_element_by_id (t : TextArea) (id s : rstring) : option (bool * TextArea) :=
  match List.find (has_name id) (elements t) with
  | Some e =>
      t ← replace_range_raw t (range_start e) (range_end e) s;
      Some (true, with_elements t (List.filter (λ e, negb (has_name id e)) (elements t)) (next_element_id t))
  | None => Some (false, t)
  end.
Definition update_named_element_by_id (t : TextArea) (id s : rstring) : option (bool * TextArea) :=
  match List.find (has_name id) (elements t) with
  | Some e =>
      t ← replace_range_raw t (range_start e) (range_end e) s;
      Some (true, (add_element_with_id t (range_start e) (range_start e + byte_len s) (Some id)).2)
  | None => Some (false, t)
  end.

(** Renaming an element: the ranges of the others. *)
Definition move_other_element (start fin inserted : nat) (e : TextElement) : TextElement :=
  if range_end e <=? start then e
  else if fin <=? range_start e
  then with_range e (range_start e + inserted - (fin - start)) (range_end e + inserted - (fin - start))
  else with_range e (start `min` range_start e)
         ((start + inserted) `max` (range_end e + inserted - (fin - start))).
Fixpoint split_at_first {A} (f : A → bool) (l : list A) : option (list A * A * list A) :=
  match l with
  | [] => None
  | x :: l' => if f x then Some ([], x, l') else '(a, y, b) ← split_at_first f l'; Some (x :: a, y, b)
  end.
Definition replace_element_payload (t : TextArea) (old new_ : rstring) : option (bool * TextArea) :=
  match split_at_first (λ e, bool_decide (payload t e = Some old)) (elements t) with
  | None => Some (false, t)
  | Some (before, e, after) =>
      let start := range_start e in
      let fin := range_end e in
      if (fin <? start) || (byte_len (text t) <? fin) then Some (false, t)
      else
        s' ← Bytes.replace_range (text t) start fin new_;
        let move := if fin - start =? byte_len new_ then id else move_other_element start fin (byte_len new_) in
        let es := (move <$> before) ++ with_range e start (start + byte_len new_) :: (move <$> after) in
        let t' := with_elements (with_text t s') es (next_element_id t) in
        let pos := cursor_after_edit (cursor_pos t) start fin (byte_len new_) in
        let t' := with_cursor t' (clamp_pos_to_nearest_boundary t' pos) in
        Some (true, with_elements t' (sort_elements es) (next_element_id t))
  end.
(** ** Words *)
Definition WORD_SEPARATORS : rstring := $"`~!@#$%^&*()-=+[{]}\|;:'" ++ [34%Z] ++ $",.<>/?".
Definition is_word_separator (c : char) : bool := contains_char c WORD_SEPARATORS.
(** The pieces of a segment: [cur] is the one being read, from byte [start]. *)
Fixpoint segment_pieces (start : nat) (cur : rstring) (in_separator : bool) (s : rstring) : list (nat * rstring) :=
  match s with
  | [] => [(start, cur)]
  | c :: s' =>
      if Bool.eqb (is_word_separator c) in_separator then segment_pieces start (cur ++ [c]) in_separator s'
      else (start, cur) :: segment_pieces (start + byte_len cur) [c] (is_word_separator c) s'
  end.
Fixpoint pieces_from (start : nat) (segments : list rstring) : list (nat * rstring) :=
  match segments with
  | [] => []
  | s :: segments' =>
      match s with
      | [] => []
      | c :: s' => segment_pieces start [c] (is_word_separator c) s'
      end ++ pieces_from (start + byte_len s) segments'
  end.
Definition all_separators (s : rstring) : bool := forallb is_word_separator s.
(** The last of the pieces that are separators, from the first on. *)
Fixpoint while_separators (last : nat * rstring) (pieces : list (nat * rstring)) : nat * rstring :=
  match pieces with
  | [] => last
  | p :: pieces' => if all_separators p.2 then while_separators p pieces' else last
  end.

(** ** Wrapped lines *)
Fixpoint count_spaces (s : rstring) : nat :=
  match s with c :: s' => if (c =? 32)%Z then S (count_spaces s') else 0 | [] => 0 end.
(** The walk of an owned line along the source. *)
Fixpoint match_source (wrapped rest : rstring) (fin : nat) (saw_source_char : bool) : nat :=
  match wrapped with
  | [] => fin
  | ch :: wrapped' =>
      let other :=
        if (ch =? 45)%Z && is_empty wrapped' then match_source wrapped' rest fin saw_source_char
        else if negb saw_source_char then match_source wrapped' rest fin saw_source_char
        else fin in
      match rest with
      | src :: rest' => if (ch =? src)%Z then match_source wrapped' rest' (fin + utf8_len src) true else other
      | [] => other
      end
  end.
Definition map_owned_wrapped_line_to_range (s : rstring) (cursor : nat) (wrapped synthetic_prefix : rstring)
  : option (nat * nat) :=
  let wrapped := if is_empty synthetic_prefix then wrapped else default wrapped (strip_prefix synthetic_prefix wrapped) in
  start ← (if (cursor <? byte_len s) && negb (starts_with $" " wrapped)
           then rest ← slice_from s cursor; Some (cursor + count_spaces rest) else Some cursor);
  rest ← (if start <? byte_len s then slice_from s start else Some []);
  Some (start, match_source wrapped rest start false).

Fixpoint wrap_ranges_from (s : rstring) (prefix subsequent : rstring) (cursor : nat) (lines : list WrappedLine)
  : option (list (nat * nat)) :=
  match lines with
  | [] => Some []
  | line :: lines' =>
      '(start, fin) ← match line with
                      | Borrowed start len => Some (start, start + len)
                      | Owned w => map_owned_wrapped_line_to_range s cursor w prefix
                      end;
      rest ← slice_from s fin;
      let trailing_spaces := count_spaces rest in
      rs ← wrap_ranges_from s subsequent subsequent (fin + trailing_spaces) lines';
      Some ((start, fin + trailing_spaces + 1) :: rs)
  end.
Fixpoint wrap_ranges_trim_from (s : rstring) (prefix subsequent : rstring) (cursor : nat) (lines : list WrappedLine)
  : option (list (nat * nat)) :=
  match lines with
  | [] => Some []
  | line :: lines' =>
      '(start, fin) ← match line with
                      | Borrowed start len => Some (start, start + len)
                      | Owned w => map_owned_wrapped_line_to_range s cursor w prefix
                      end;
      rs ← wrap_ranges_trim_from s subsequent subsequent fin lines';
      Some ((start, fin) :: rs)
  end.

Section Editor.
Context {U : Unicode}.

Definition wrap_ranges (s : rstring) (w : nat) : option (list (nat * nat)) := wrap_ranges_from s [] [] 0 (wrap s w).
Definition wrapped_lines (t : TextArea) (w : nat) : option (list (nat * nat) * TextArea) :=
  let recalc :=
    lines ← wrap_ranges (text t) w;
    Some (lines, {| text := text t; cursor_pos := cursor_pos t; wrap_cache := Some {| cache_width := w; cache_lines := lines |};
                    preferred_col := preferred_col t; elements := elements t; next_element_id := next_element_id t;
                    kill_buffer := kill_buffer t |}) in
  match wrap_cache t with
  | Some c => if cache_width c =? w then Some (cache_lines c, t) else recalc
  | None => recalc
  end.
(** [partition_point] on starts that are in order. *)
Fixpoint starts_up_to (lines : list (nat * nat)) (pos : nat) : nat :=
  match lines with
  | r :: lines' => if r.1 <=? pos then S (starts_up_to lines' pos) else 0
  | [] => 0
  end.
Definition wrapped_line_index_by_start (lines : list (nat * nat)) (pos : nat) : option nat :=
  match starts_up_to lines pos with 0 => None | S i => Some i end.

Definition split_word_pieces (run : rstring) : list (nat * rstring) := pieces_from 0 (split_word_bounds run).
Definition beginning_of_previous_word (t : TextArea) : option nat :=
  prefix ← slice_to (text t) (cursor_pos t);
  match rfind_char (λ c, negb (is_whitespace c)) prefix with
  | None => Some 0
  | Some (first_non_ws_idx, ch) =>
      head ← slice_to prefix first_non_ws_idx;
      let run_start := match rfind_char is_whitespace head with Some (i, c) => i + utf8_len c | None => 0 end in
      let run_end := first_non_ws_idx + utf8_len ch in
      run ← slice prefix run_start run_end;
      match rev (split_word_pieces run) with
      | [] => Some run_start
      | p :: pieces =>
          let p := if all_separators p.2 then while_separators p pieces else p in
          Some (adjust_pos_out_of_elements t (run_start + p.1) true)
      end
  end.
Definition end_of_next_word (t : TextArea) : option nat :=
  suffix ← slice_from (text t) (cursor_pos t);
  match find_char (λ c, negb (is_whitespace c)) suffix with
  | None => Some (byte_len (text t))
  | Some first_non_ws =>
      run ← slice_from suffix first_non_ws;
      run ← slice_to run (default (byte_len run) (find_char is_whitespace run));
      match split_word_pieces run with
      | [] => Some (cursor_pos t + first_non_ws)
      | p :: pieces =>
          let p := if all_separators p.2 then while_separators p pieces else p in
          Some (adjust_pos_out_of_elements t (cursor_pos t + first_non_ws + p.1 + byte_len p.2) false)
      end
  end.

(** ** Lines *)
Definition is_nl (c : char) : bool := (c =? NL)%Z.
Definition line_start_in (s : rstring) : nat := match rfind_char is_nl s with Some (i, _) => i + 1 | None => 0 end.
Definition beginning_of_line (t : TextArea) (pos : nat) : option nat := line_start_in <$> slice_to (text t) pos.
Definition end_of_line (t : TextArea) (pos : nat) : option nat :=
  rest ← slice_from (text t) pos;
  Some (match find_char is_nl rest with Some i => i + pos | None => byte_len (text t) end).
Definition current_display_col (t : TextArea) : option nat :=
  bol ← beginning_of_line t (cursor_pos t);
  width <$> slice (text t) bol (cursor_pos t).

Fixpoint col_position (gs : list rstring) (i width_so_far target_col : nat) : option nat :=
  match gs with
  | [] => None
  | g :: gs' =>
      let width_so_far := width_so_far + width g in
      if target_col <? width_so_far then Some i else col_position gs' (i + byte_len g) width_so_far target_col
  end.
Definition move_to_display_col_on_line (t : TextArea) (line_start line_end target_col : nat) : option TextArea :=
  line ← slice (text t) line_start line_end;
  let pos := match col_position (graphemes line) 0 0 target_col with Some i => line_start + i | None => line_end end in
  Some (with_cursor t (clamp_pos_to_nearest_boundary t pos)).

(** ** Moving the cursor *)
Definition prev_atomic_boundary (t : TextArea) (pos : nat) : nat :=
  if pos =? 0 then 0
  else
    match List.find (λ e, (range_start e <? pos) && (pos <=? range_end e)) (elements t) with
    | Some e => range_start e
    | None =>
        match prev_boundary (text t) pos with
        | Ok (Some b) => match find_element_containing (elements t) b with Some e => range_start e | None => b end
        | Ok None => 0
        | Err _ => pos - 1
        end
    end.
Definition next_atomic_boundary (t : TextArea) (pos : nat) : nat :=
  if byte_len (text t) <=? pos then byte_len (text t)
  else
    match List.find (λ e, (range_start e <=? pos) && (pos <? range_end e)) (elements t) with
    | Some e => range_end e
    | None =>
        match next_boundary (text t) pos with
        | Ok (Some b) => match find_element_containing (elements t) b with Some e => range_end e | None => b end
        | Ok None => byte_len (text t)
        | Err _ => pos + 1
        end
    end.
Definition move_cursor_left (t : TextArea) : TextArea :=
  with_col (with_cursor t (prev_atomic_boundary t (cursor_pos t))) None.
Definition move_cursor_right (t : TextArea) : TextArea :=
  with_col (with_cursor t (next_atomic_boundary t (cursor_pos t))) None.

(** With a wrapping cache, the line [next i] of the cache from line [i]. *)
Definition visual_line (t : TextArea) (next : nat → list (nat * nat) → option (nat * nat))
  : option (option (nat * option (nat * nat))) :=
  match wrap_cache t with
  | None => Some None
  | Some c =>
      match wrapped_line_index_by_start (cache_lines c) (cursor_pos t) with
      | None => Some None
      | Some idx =>
          cur ← cache_lines c !! idx;
          target_col ← match preferred_col t with
                       | Some col => Some col
                       | None => width <$> slice (text t) cur.1 (cursor_pos t)
                       end;
          Some (Some (target_col, (λ r, (r.1, r.2 - 1)) <$> next idx (cache_lines c)))
      end
  end.
Definition or_col (t : TextArea) (c : nat) : TextArea :=
  match preferred_col t with None => with_col t (Some c) | Some _ => t end.
Definition move_cursor_up (t : TextArea) : option TextArea :=
  v ← visual_line t (λ idx lines, match idx with 0 => None | S i => lines !! i end);
  match v with
  | Some (target_col, Some (line_start, line_end)) =>
      move_to_display_col_on_line (or_col t target_col) line_start line_end target_col
  | Some (_, None) => Some (with_col (with_cursor t 0) None)
  | None =>
      before ← slice_to (text t) (cursor_pos t);
      match rfind_char is_nl before with
      | Some (prev_nl, _) =>
          target_col ← match preferred_col t with Some c => Some c | None => current_display_col t end;
          prev_line ← slice_to (text t) prev_nl;
          move_to_display_col_on_line (or_col t target_col) (line_start_in prev_line) prev_nl target_col
      | None => Some (with_col (with_cursor t 0) None)
      end
  end.
Definition move_cursor_down (t : TextArea) : option TextArea :=
  v ← visual_line t (λ idx lines, lines !! (idx + 1));
  match v with
  | Some (target_col, Some (line_start, line_end)) =>
      move_to_display_col_on_line (or_col t target_col) line_start line_end target_col
  | Some (_, None) => Some (with_col (with_cursor t (byte_len (text t))) None)
  | None =>
      target_col ← match preferred_col t with Some c => Some c | None => current_display_col t end;
      let t := or_col t target_col in
      rest ← slice_from (text t) (cursor_pos t);
      match find_char is_nl rest with
      | Some i =>
          let next_line_start := i + cursor_pos t + 1 in
          rest ← slice_from (text t) next_line_start;
          let next_line_end := match find_char is_nl rest with Some i => i + next_line_start | None => byte_len (text t) end in
          move_to_display_col_on_line t next_line_start next_line_end target_col
      | None => Some (with_col (with_cursor t (byte_len (text t))) None)
      end
  end.
Definition move_cursor_to_beginning_of_line (t : TextArea) (move_up_at_bol : bool) : option TextArea :=
  bol ← beginning_of_line t (cursor_pos t);
  pos ← (if move_up_at_bol && (cursor_pos t =? bol) then beginning_of_line t (cursor_pos t - 1) else Some bol);
  Some (set_cursor t pos).
Definition move_cursor_to_end_of_line (t : TextArea) (move_down_at_eol : bool) : option TextArea :=
  eol ← end_of_line t (cursor_pos t);
  pos ← (if move_down_at_eol && (cursor_pos t =? eol)
         then end_of_line t ((cursor_pos t + 1) `min` byte_len (text t)) else Some eol);
  Some (set_cursor t pos).

(** ** Deleting, killing, yanking *)
Fixpoint back_targets (t : TextArea) (n target : nat) : nat :=
  match n with
  | 0 => target
  | S n => let target := prev_atomic_boundary t target in if target =? 0 then target else back_targets t n target
  end.
Fixpoint forward_targets (t : TextArea) (n target : nat) : nat :=
  match n with
  | 0 => target
  | S n =>
      let target := next_atomic_boundary t target in
      if byte_len (text t) <=? target then target else forward_targets t n target
  end.
Definition delete_backward (t : TextArea) (n : nat) : option TextArea :=
  if (n =? 0) || (cursor_pos t =? 0) then Some t
  else replace_range t (back_targets t n (cursor_pos t)) (cursor_pos t) [].
Definition delete_forward (t : TextArea) (n : nat) : option TextArea :=
  if (n =? 0) || (byte_len (text t) <=? cursor_pos t) then Some t
  else replace_range t (cursor_pos t) (forward_targets t n (cursor_pos t)) [].
Definition delete_backward_word (t : TextArea) : option TextArea :=
  start ← beginning_of_previous_word t; kill_range t start (cursor_pos t).
Definition delete_forward_word (t : TextArea) : option TextArea :=
  fin ← end_of_next_word t;
  if cursor_pos t <? fin then kill_range t (cursor_pos t) fin else Some t.
Definition kill_to_end_of_line (t : TextArea) : option TextArea :=
  eol ← end_of_line t (cursor_pos t);
  if cursor_pos t =? eol
  then if eol <? byte_len (text t) then kill_range t (cursor_pos t) (eol + 1) else Some t
  else kill_range t (cursor_pos t) eol.
Definition kill_to_beginning_of_line (t : TextArea) : option TextArea :=
  bol ← beginning_of_line t (cursor_pos t);
  if cursor_pos t =? bol
  then if 0 <? bol then kill_range t (bol - 1) bol else Some t
  else kill_range t bol (cursor_pos t).
Definition yank (t : TextArea) : option TextArea :=
  if is_empty (kill_buffer t) then Some t else insert_str t (kill_buffer t).
(** ** Keys *)
Inductive KeyEventKind := Press | Repeat | Release.
Inductive KeyCode := KChar (c : char) | Enter | Backspace | Delete | Left | Right | Up | Down | Home | End | OtherKey.
(** [KeyModifiers]: a set of bits. *)
Definition KM_NONE : Z := 0.
Definition KM_SHIFT : Z := 1.
Definition KM_CONTROL : Z := 2.
Definition KM_ALT : Z := 4.
Record KeyEvent := { code : KeyCode; modifiers : Z; key_kind : KeyEventKind }.
Definition has_modifier (mods m : Z) : bool := (Z.land mods m =? m)%Z.
Definition is_altgr (windows : bool) (mods : Z) : bool := windows && has_modifier mods KM_ALT && has_modifier mods KM_CONTROL.

Definition input_char (windows : bool) (t : TextArea) (c : char) (mods : Z) : option TextArea :=
  let is_ k := (c =? k)%Z in
  if (mods =? KM_NONE)%Z && is_ 2%Z then Some (move_cursor_left t)
  else if (mods =? KM_NONE)%Z && is_ 6%Z then Some (move_cursor_right t)
  else if (mods =? KM_NONE)%Z && is_ 16%Z then move_cursor_up t
  else if (mods =? KM_NONE)%Z && is_ 14%Z then move_cursor_down t
  else if (mods =? KM_NONE)%Z || (mods =? KM_SHIFT)%Z then insert_str t [c]
  else if (mods =? KM_CONTROL)%Z && (is_ 106%Z || is_ 109%Z) then insert_str t [NL]
  else if is_ 104%Z && (mods =? Z.lor KM_CONTROL KM_ALT)%Z then delete_backward_word t
  else if is_altgr windows mods then insert_str t [c]
  else if (mods =? KM_CONTROL)%Z && is_ 104%Z then delete_backward t 1
  else if (mods =? KM_ALT)%Z && is_ 100%Z then delete_forward_word t
  else if (mods =? KM_CONTROL)%Z && is_ 100%Z then delete_forward t 1
  else if (mods =? KM_CONTROL)%Z && is_ 119%Z then delete_backward_word t
  else if (mods =? KM_ALT)%Z && is_ 98%Z then p ← beginning_of_previous_word t; Some (set_cursor t p)
  else if (mods =? KM_ALT)%Z && is_ 102%Z then p ← end_of_next_word t; Some (set_cursor t p)
  else if (mods =? KM_CONTROL)%Z && is_ 117%Z then kill_to_beginning_of_line t
  else if (mods =? KM_CONTROL)%Z && is_ 107%Z then kill_to_end_of_line t
  else if (mods =? KM_CONTROL)%Z && is_ 121%Z then yank t
  else if (mods =? KM_CONTROL)%Z && is_ 98%Z then Some (move_cursor_left t)
  else if (mods =? KM_CONTROL)%Z && is_ 102%Z then Some (move_cursor_right t)
  else if (mods =? KM_CONTROL)%Z && is_ 112%Z then move_cursor_up t
  else if (mods =? KM_CONTROL)%Z && is_ 110%Z then move_cursor_down t
  else if (mods =? KM_CONTROL)%Z && is_ 97%Z then move_cursor_to_beginning_of_line t true
  else if (mods =? KM_CONTROL)%Z && is_ 101%Z then move_cursor_to_end_of_line t true
  else Some t.
Definition input (windows : bool) (t : TextArea) (event : KeyEvent) : option TextArea :=
  match key_kind event with
  | Release => Some t
  | Press | Repeat =>
      let mods := modifiers event in
      match code event with
      | KChar c => input_char windows t c mods
      | Enter => insert_str t [NL]
      | Backspace => if (mods =? KM_ALT)%Z then delete_backward_word t else delete_backward t 1
      | Delete => if (mods =? KM_ALT)%Z then delete_forward_word t else delete_forward t 1
      | Left =>
          if (mods =? KM_NONE)%Z then Some (move_cursor_left t)
          else if (mods =? KM_ALT)%Z || (mods =? KM_CONTROL)%Z
          then p ← beginning_of_previous_word t; Some (set_cursor t p) else Some t
      | Right =>
          if (mods =? KM_NONE)%Z then Some (move_cursor_right t)
          else if (mods =? KM_ALT)%Z || (mods =? KM_CONTROL)%Z
          then p ← end_of_next_word t; Some (set_cursor t p) else Some t
      | Up => move_cursor_up t
      | Down => move_cursor_down t
      | Home => move_cursor_to_beginning_of_line t false
      | End => move_cursor_to_end_of_line t false
      | OtherKey => Some t
      end
  end.

(** ** On the screen *)
Definition as_u16 (n : nat) : nat := Z.to_nat (Z.of_nat n mod 65536).
Definition desired_height (t : TextArea) (w : nat) : option (nat * TextArea) :=
  '(lines, t) ← wrapped_lines t w; Some (as_u16 (length lines), t).
Definition effective_scroll (t : TextArea) (area_height : nat) (lines : list (nat * nat)) (current_scroll : nat) : nat :=
  let total_lines := as_u16 (length lines) in
  if total_lines <=? area_height then 0
  else
    let cursor_line_idx := as_u16 (default 0 (wrapped_line_index_by_start lines (cursor_pos t))) in
    let scroll := current_scroll `min` (total_lines - area_height) in
    if cursor_line_idx <? scroll then cursor_line_idx
    else if scroll + area_height <=? cursor_line_idx then cursor_line_idx + 1 - area_height
    else scroll.
(** The column and row of the cursor, relative to the area. *)
Definition cursor_pos_with_state (t : TextArea) (w h scroll : nat) : option (option (nat * nat) * TextArea) :=
  '(lines, t') ← wrapped_lines t w;
  match wrapped_line_index_by_start lines (cursor_pos t) with
  | None => Some (None, t')
  | Some i =>
      ls ← lines !! i;
      before ← slice (text t) ls.1 (cursor_pos t);
      Some (Some (as_u16 (width before), i - effective_scroll t h lines scroll), t')
  end.

(** A drawn row: the line, and what is drawn over it from a column. *)
Record Row := { row_text : rstring; row_overlays : list (nat * rstring) }.
Definition overlay (s : rstring) (line_start line_end : nat) (r : nat * nat) : option (option (nat * rstring)) :=
  let a := r.1 `max` line_start in
  let b := r.2 `min` line_end in
  if b <=? a then Some None
  else
    styled ← slice s a b;
    before ← slice s line_start a;
    Some (Some (as_u16 (width before), styled)).
Fixpoint overlays (s : rstring) (line_start line_end : nat) (rs : list (nat * nat)) : option (list (nat * rstring)) :=
  match rs with
  | [] => Some []
  | r :: rs' =>
      o ← overlay s line_start line_end r;
      os ← overlays s line_start line_end rs';
      Some (match o with Some x => x :: os | None => os end)
  end.
Fixpoint render_lines (t : TextArea) (lines : list (nat * nat)) (highlights : list (nat * nat)) : option (list Row) :=
  match lines with
  | [] => Some []
  | (a, b) :: lines' =>
      line ← slice (text t) a (b - 1);
      os ← overlays (text t) a (b - 1) (((λ e, (range_start e, range_end e)) <$> elements t) ++ highlights);
      rows ← render_lines t lines' highlights;
      Some ({| row_text := line; row_overlays := os |} :: rows)
  end.
Fixpoint render_lines_masked (t : TextArea) (lines : list (nat * nat)) (mask_char : char) : option (list Row) :=
  match lines with
  | [] => Some []
  | (a, b) :: lines' =>
      line ← slice (text t) a (b - 1);
      rows ← render_lines_masked t lines' mask_char;
      Some ({| row_text := (λ _, mask_char) <$> line; row_overlays := [] |} :: rows)
  end.
(** The window of lines that is drawn, and the scroll that is kept. *)
Definition visible_window (t : TextArea) (w h scroll : nat) : option (list (nat * nat) * nat * TextArea) :=
  '(lines, t') ← wrapped_lines t w;
  let scroll := effective_scroll t h lines scroll in
  let fin := (scroll + h) `min` as_u16 (length lines) in
  Some (take (fin - scroll) (drop scroll lines), scroll, t').
Definition render_ref_styled_with_highlights (t : TextArea) (w h scroll : nat) (highlights : list (nat * nat))
  : option (list Row * nat * TextArea) :=
  '(window, scroll, t') ← visible_window t w h scroll;
  rows ← render_lines t window highlights;
  Some (rows, scroll, t').
Definition render_ref_masked (t : TextArea) (w h scroll : nat) (mask_char : char) : option (list Row * nat * TextArea) :=
  '(window, scroll, t') ← visible_window t w h scroll;
  rows ← render_lines_masked t window mask_char;
  Some (rows, scroll, t').
End Editor.
End TextArea.
