(* ===== verification/TextAreaFacts.v ===== *)
(** * TextAreaFacts: what the editor of the composer keeps

    The invariant of [TextArea], that every operation keeps it and none panics,
    and what edits do to the text, the elements and the cursor. *)

From S2P Require Import Prelude BytePos TextArea.

Module TextFacts.
Import Bytes TextArea.

(** ** The invariant *)
Definition elem_in (s : rstring) (e : TextElement) : Prop :=
  is_char_boundary s (range_start e) = true ∧ is_char_boundary s (range_end e) = true ∧ range_start e ≤ range_end e.
Definition apart (e f : TextElement) : Prop := range_end e ≤ range_start f ∨ range_end f ≤ range_start e.
Definition before (e f : TextElement) : Prop := range_start e ≤ range_start f ∧ apart e f.
Definition elements_ok (s : rstring) (es : list TextElement) : Prop := Forall (elem_in s) es ∧ StronglySorted before es.
Definition outside (es : list TextElement) (pos : nat) : Prop :=
  Forall (λ e, ¬ (range_start e < pos ∧ pos < range_end e)) es.
Definition at_rest (t : TextArea) (pos : nat) : Prop :=
  is_char_boundary (text t) pos = true ∧ outside (elements t) pos.

Lemma contains_pos_spec pos e : contains_pos pos e = true ↔ range_start e < pos ∧ pos < range_end e.
Proof. unfold contains_pos. rewrite andb_true_iff, !Nat.ltb_lt. done. Qed.
Lemma apart_sym e f : apart e f → apart f e.
Proof. unfold apart. tauto. Qed.
Definition elements_apart (s : rstring) (es : list TextElement) : Prop := Forall (elem_in s) es ∧ StronglySorted apart es.
Lemma elements_ok_apart s es : elements_ok s es → elements_apart s es.
Proof.
  intros [Hin Hs]. split; [done|]. induction Hs as [|e es Hs IH He]; constructor.
  - apply IH. by apply Forall_cons in Hin as [_ ?].
  - eapply Forall_impl; [exact He|]. by intros f [_ ?].
Qed.
Lemma sorted_apart es e f : StronglySorted apart es → e ∈ es → f ∈ es → e = f ∨ apart e f.
Proof.
  induction 1 as [|x es Hs IH Hx]; [by intros ?%elem_of_nil|]. rewrite Forall_forall in Hx.
  intros [-> |He]%elem_of_cons [-> |Hf]%elem_of_cons; [by left| | |by apply IH].
  - right. by apply Hx.
  - right. apply apart_sym. by apply Hx.
Qed.

(** ** Boundaries *)
Lemma boundary_before_ok s n : is_char_boundary s (boundary_before s n) = true.
Proof.
  induction n as [|n IH]; cbn [boundary_before]; [by destruct (is_char_boundary s 0) eqn:E; rewrite boundary_0|].
  by destruct (is_char_boundary s (S n)) eqn:E.
Qed.
Lemma boundary_after_ok s fuel n : n + fuel = byte_len s → is_char_boundary s (boundary_after s fuel n) = true.
Proof.
  revert n. induction fuel as [|fuel IH]; intros n Hn; cbn [boundary_after].
  - replace n with (byte_len s) by lia. by destruct (is_char_boundary s (byte_len s)) eqn:E; rewrite boundary_len.
  - destruct (is_char_boundary s n) eqn:E; [done|]. apply IH. lia.
Qed.
Lemma clamp_char_ok s pos : is_char_boundary s (clamp_pos_to_char_boundary s pos) = true.
Proof.
  unfold clamp_pos_to_char_boundary. destruct (is_char_boundary s (pos `min` byte_len s)) eqn:E; [done|].
  case_match; [apply boundary_before_ok|]. apply boundary_after_ok. lia.
Qed.
Lemma clamp_char_id s pos : is_char_boundary s pos = true → clamp_pos_to_char_boundary s pos = pos.
Proof.
  intros H. pose proof (boundary_le _ _ H). unfold clamp_pos_to_char_boundary.
  replace (pos `min` byte_len s) with pos by lia. by rewrite H.
Qed.
Lemma find_containing_None es pos : find_element_containing es pos = None ↔ outside es pos.
Proof.
  unfold find_element_containing, outside. rewrite Forall_forall. split.
  - intros H e He. rewrite <-contains_pos_spec. intros Hc. by rewrite (List.find_none _ _ H e (proj1 (list_elem_of_In _ _) He)) in Hc.
  - intros H. destruct (List.find _ es) as [e|] eqn:E; [|done]. apply List.find_some in E as [He%list_elem_of_In Hc].
    exfalso. by apply (H e He), contains_pos_spec.
Qed.
(** The edges of an element are no place inside another. *)
Lemma edges_outside s es e :
  elements_apart s es → e ∈ es → range_start e < range_end e → outside es (range_start e) ∧ outside es (range_end e).
Proof.
  intros [_ Hs] He Hlt. split; apply Forall_forall; intros f Hf;
    destruct (sorted_apart es e f Hs He Hf) as [<-|[?|?]]; lia.
Qed.
Lemma clamp_nearest_apart t pos : elements_apart (text t) (elements t) → at_rest t (clamp_pos_to_nearest_boundary t pos).
Proof.
  intros Hok. unfold clamp_pos_to_nearest_boundary, at_rest.
  set (p := clamp_pos_to_char_boundary (text t) pos). destruct (find_element_containing (elements t) p) as [e|] eqn:E.
  - apply List.find_some in E as [He%list_elem_of_In Hc%contains_pos_spec].
    destruct (edges_outside _ _ e Hok He) as [H1 H2]; [lia|].
    destruct Hok as [Hin _]. rewrite Forall_forall in Hin. destruct (Hin e He) as (Ha & Hb & _).
    case_match; by rewrite clamp_char_id.
  - split; [apply clamp_char_ok|by apply find_containing_None].
Qed.
Lemma clamp_nearest_ok t pos : elements_ok (text t) (elements t) → at_rest t (clamp_pos_to_nearest_boundary t pos).
Proof. intros. by apply clamp_nearest_apart, elements_ok_apart. Qed.
Lemma clamp_nearest_id t pos : at_rest t pos → clamp_pos_to_nearest_boundary t pos = pos.
Proof.
  intros [Hb Ho]. unfold clamp_pos_to_nearest_boundary. rewrite clamp_char_id by done.
  by rewrite (proj2 (find_containing_None _ _)).
Qed.

(** ** Expanding a range *)
(** A range does not cut an element: it holds it or misses it. *)
Definition closed (r : nat * nat) (e : TextElement) : Prop :=
  range_start e < r.2 → r.1 < range_end e → r.1 ≤ range_start e ∧ range_end e ≤ r.2.
Definition within_range (r r' : nat * nat) : Prop := r'.1 ≤ r.1 ∧ r.2 ≤ r'.2.
Definition holds_elem (r : nat * nat) (e : TextElement) : bool := (r.1 <=? range_start e) && (range_end e <=? r.2).
Definition expand_step (r : nat * nat) (e : TextElement) : nat * nat :=
  if (range_start e <? r.2) && (r.1 <? range_end e) then (r.1 `min` range_start e, r.2 `max` range_end e) else r.

Lemma expand_step_spec r e :
  within_range r (expand_step r e) ∧
  (expand_step r e = r → closed r e) ∧
  (expand_step r e ≠ r → holds_elem r e = false ∧ holds_elem (expand_step r e) e = true).
Proof.
  unfold expand_step, within_range, closed, holds_elem. destruct r as [a b]. cbn [fst snd].
  destruct (Nat.ltb_spec (range_start e) b), (Nat.ltb_spec a (range_end e)); cbn [andb fst snd];
    rewrite ?andb_true_iff, ?andb_false_iff, ?Nat.leb_le, ?Nat.leb_gt; split_and!; try lia; try done.
  - intros [=]. lia.
  - intros Hne. assert (¬ (a ≤ range_start e ∧ range_end e ≤ b)); [|lia].
    intros [??]. apply Hne. f_equal; lia.
Qed.
Lemma within_trans a b c : within_range a b → within_range b c → within_range a c.
Proof. unfold within_range. lia. Qed.
Lemma holds_mono r r' e : within_range r r' → holds_elem r e = true → holds_elem r' e = true.
Proof. unfold within_range, holds_elem. rewrite !andb_true_iff, !Nat.leb_le. lia. Qed.
Lemma within_antisym r r' : within_range r r' → within_range r' r → r = r'.
Proof. unfold within_range. destruct r, r'. cbn. intros. f_equal; lia. Qed.

Lemma expand_pass_spec es r :
  within_range r (expand_pass es r) ∧
  (expand_pass es r = r → Forall (closed r) es) ∧
  (expand_pass es r ≠ r → ∃ e, e ∈ es ∧ holds_elem r e = false ∧ holds_elem (expand_pass es r) e = true).
Proof.
  unfold expand_pass. fold expand_step. change (fold_left _ es r) with (fold_left expand_step es r).
  revert r. induction es as [|e es IH]; intros r; cbn [fold_left].
  { split_and!; [by split|by constructor|done]. }
  destruct (expand_step_spec r e) as (Hw & Hc & Hg). destruct (IH (expand_step r e)) as (Hw' & Hc' & Hg').
  split_and!; [by eapply within_trans| |].
  - intros Heq. assert (Hs : expand_step r e = r).
    { apply within_antisym; [|done]. eapply within_trans; [exact Hw'|]. rewrite Heq. by split. }
    rewrite Hs in *. constructor; auto.
  - intros Hne. destruct (decide (expand_step r e = r)) as [Hs|Hs].
    + rewrite Hs in *. destruct (Hg' Hne) as (x & Hx & ?). exists x. split; [by right|done].
    + destruct (Hg Hs) as [H1 H2]. exists e. split_and!; [by left|done|by eapply holds_mono].
Qed.
Lemma filter_length_lt {A} (f g : A → bool) l x :
  (∀ y, g y = true → f y = true) → x ∈ l → f x = true → g x = false →
  length (List.filter g l) < length (List.filter f l).
Proof.
  intros Himp Hx Hf Hg.
  assert (Hle : ∀ l', length (List.filter g l') ≤ length (List.filter f l')).
  { induction l' as [|y l' IH]; [done|]. cbn. destruct (g y) eqn:E; [rewrite (Himp y E)|destruct (f y)]; cbn; lia. }
  induction Hx as [x l|x y l Hx IH]; cbn.
  - rewrite Hf, Hg. cbn. specialize (Hle l). lia.
  - specialize (IH Hf Hg). destruct (g y) eqn:E; [rewrite (Himp y E); cbn; lia|]. destruct (f y); cbn; lia.
Qed.
Lemma expand_loop_spec es fuel r :
  length (List.filter (λ e, negb (holds_elem r e)) es) < fuel →
  within_range r (expand_loop es fuel r) ∧ Forall (closed (expand_loop es fuel r)) es.
Proof.
  revert r. induction fuel as [|fuel IH]; intros r Hf; [lia|]. cbn [expand_loop].
  destruct (expand_pass_spec es r) as (Hw & Hc & Hg). case_bool_decide as Heq; [split; [by split|auto]|].
  destruct (Hg Heq) as (e & He & H1 & H2).
  destruct (IH (expand_pass es r)) as [Hw' Hc'].
  - eapply Nat.lt_le_trans; [apply (filter_length_lt (λ e, negb (holds_elem r e)) _ es e)|lia].
    + intros y. rewrite !negb_true_iff. intros Hy. destruct (holds_elem r y) eqn:E; [|done].
      by rewrite (holds_mono _ _ _ Hw E) in Hy.
    + done.
    + by rewrite H1.
    + by rewrite H2.
  - split; [by eapply within_trans|done].
Qed.
(** What a property of ranges that edges of elements keep gives for the result. *)
Lemma expand_loop_ind (P : nat * nat → Prop) es fuel r :
  (∀ r e, e ∈ es → P r → P (expand_step r e)) → P r → P (expand_loop es fuel r).
Proof.
  intros Hstep. assert (Hpass : ∀ l r, (∀ e, e ∈ l → e ∈ es) → P r → P (fold_left expand_step l r)).
  { induction l as [|e l IH]; intros r' Hl Hr; [done|]. cbn. apply IH; [intros; apply Hl; by right|].
    apply Hstep; [apply Hl; by left|done]. }
  revert r. induction fuel as [|fuel IH]; intros r Hr; [done|]. cbn [expand_loop].
  case_bool_decide; [done|]. apply IH. by apply (Hpass es).
Qed.
(** The result is the smallest range around the given one that cuts no element. *)
Lemma expand_ok t r :
  elements_ok (text t) (elements t) →
  is_char_boundary (text t) r.1 = true → is_char_boundary (text t) r.2 = true → r.1 ≤ r.2 →
  let r' := expand_range_to_element_boundaries t r in
  within_range r r' ∧ Forall (closed r') (elements t) ∧
  is_char_boundary (text t) r'.1 = true ∧ is_char_boundary (text t) r'.2 = true ∧ r'.1 ≤ r'.2 ∧
  ∀ q, within_range r q → Forall (closed q) (elements t) → within_range r' q.
Proof.
  intros [Hin _] Ha Hb Hle r'. unfold r', expand_range_to_element_boundaries.
  destruct (expand_loop_spec (elements t) (S (length (elements t))) r) as [Hw Hc].
  { pose proof (List.filter_length_le (λ e, negb (holds_elem r e)) (elements t)). lia. }
  split_and!; [done|done|..]; rewrite Forall_forall in Hin.
  - apply (expand_loop_ind (λ r, is_char_boundary (text t) r.1 = true)); [|done]. intros q e He Hq.
    unfold expand_step. case_match; cbn; [|done]. destruct (Nat.min_spec q.1 (range_start e)) as [[_ ->]|[_ ->]]; [done|].
    by apply Hin.
  - apply (expand_loop_ind (λ r, is_char_boundary (text t) r.2 = true)); [|done]. intros q e He Hq.
    unfold expand_step. case_match; cbn; [|done]. destruct (Nat.max_spec q.2 (range_end e)) as [[_ ->]|[_ ->]]; [|done].
    by apply Hin.
  - unfold within_range in Hw. lia.
  - intros q Hrq Hq. apply (expand_loop_ind (λ r, within_range r q)); [|done]. intros p e He Hp.
    rewrite Forall_forall in Hq. specialize (Hq e He). unfold expand_step, within_range, closed in *.
    destruct (Nat.ltb_spec (range_start e) p.2), (Nat.ltb_spec p.1 (range_end e)); cbn; lia.
Qed.

(** ** Moving elements *)
Definition clear_of (a b : nat) (e : TextElement) : Prop := b ≤ range_start e ∨ range_end e ≤ a.
Definition gone (a b : nat) (e : TextElement) : bool := (a <=? range_start e) && (range_end e <=? b).
(** The element in the new text: the same id, name and characters. *)
Definition moved (s s' : rstring) (e e' : TextElement) : Prop :=
  elem_id e' = elem_id e ∧ elem_name e' = elem_name e ∧
  ∀ p, slice s (range_start e) (range_end e) = Some p → slice s' (range_start e') (range_end e') = Some p.

Lemma shift_element_cases a b i e :
  a ≤ b → range_start e ≤ range_end e → closed (a, b) e → gone a b e = false →
  let e' := shift_element a b (b - a) i e in
  (range_end e ≤ a ∧ e' = e) ∨
  (b ≤ range_start e ∧ e' = with_range e (range_start e + i - (b - a)) (range_end e + i - (b - a))).
Proof.
  unfold closed, gone, shift_element. cbn [fst snd]. rewrite andb_false_iff, !Nat.leb_gt. intros Hab Hle Hc Hg.
  destruct (Nat.leb_spec (range_end e) a); [by left|]. destruct (Nat.leb_spec b (range_start e)); [by right|]. lia.
Qed.
Section Edit.
Context (x y z t : rstring) (es : list TextElement).
Let a := byte_len x.
Let b := byte_len (x ++ y).
Context (Hok : elements_ok (x ++ y ++ z) es) (Hclosed : Forall (closed (a, b)) es).
Let kept := List.filter (λ e, negb (gone a b e)) es.

Lemma kept_spec e : e ∈ kept → e ∈ es ∧ elem_in (x ++ y ++ z) e ∧ closed (a, b) e ∧ gone a b e = false.
Proof.
  unfold kept. rewrite list_elem_of_In, List.filter_In, <-list_elem_of_In, negb_true_iff. intros [He Hg].
  destruct Hok as [Hin _]. rewrite Forall_forall in Hin. rewrite Forall_forall in Hclosed. auto.
Qed.
Lemma ab : b = a + byte_len y.
Proof. unfold a, b. by rewrite byte_len_app. Qed.
Lemma shift_elements_kept : shift_elements es a (b - a) (byte_len t) = shift_element a b (b - a) (byte_len t) <$> kept.
Proof. unfold shift_elements. pose proof ab. by replace (a + (b - a)) with b by lia. Qed.

(** An element before the edit, or one after it that moves along. *)
Definition moves (e e' : TextElement) : Prop :=
  (range_end e ≤ a ∧ e' = e) ∨
  (b ≤ range_start e ∧ e' = with_range e (range_start e + byte_len t - (b - a)) (range_end e + byte_len t - (b - a))).
Lemma moves_in e e' :
  elem_in (x ++ y ++ z) e → moves e e' → elem_in (x ++ t ++ z) e' ∧ moved (x ++ y ++ z) (x ++ t ++ z) e e'.
Proof.
  intros (H1 & H2 & Hle). pose proof ab as Hab. intros [[Hb ->]|[Hb ->]].
  - split.
    + split_and!; [| |done].
      * rewrite <-H1. symmetry. apply boundary_left. fold a. lia.
      * rewrite <-H2. symmetry. apply boundary_left. fold a. lia.
    + split_and!; [done..|]. intros p Hp. by eapply slice_left; [|exact Hp].
  - assert (Hmove : ∀ n, b ≤ n → n + byte_len t - (b - a) = byte_len (x ++ t) + (n - b) ∧ n = byte_len (x ++ y) + (n - b)).
    { intros n Hn. rewrite !byte_len_app. fold a. lia. }
    destruct (Hmove (range_start e)) as [E1 E1']; [lia|]. destruct (Hmove (range_end e)) as [E2 E2']; [lia|].
    remember (range_start e - b) as n1. remember (range_end e - b) as n2.
    rewrite E1, E2. unfold elem_in, moved. cbn [with_range range_start range_end elem_id elem_name].
    rewrite E1', app_assoc, boundary_right in H1. rewrite E2', app_assoc, boundary_right in H2.
    rewrite (app_assoc x t z), !boundary_right. split_and!; [done|done|lia|done|done|].
    intros p. rewrite E1', E2', app_assoc, <-!slice_right. done.
Qed.
Lemma kept_moves e : e ∈ kept → moves e (shift_element a b (b - a) (byte_len t) e).
Proof.
  intros He. destruct (kept_spec e He) as (_ & (H1 & H2 & Hle) & Hc & Hg). pose proof ab as Hab.
  unfold moves. apply shift_element_cases; [lia|done..].
Qed.
Lemma shift_in e : e ∈ kept →
  let e' := shift_element a b (b - a) (byte_len t) e in elem_in (x ++ t ++ z) e' ∧ moved (x ++ y ++ z) (x ++ t ++ z) e e'.
Proof. intros He. apply moves_in; [by apply kept_spec|by apply kept_moves]. Qed.
Lemma shift_sorted : StronglySorted before (shift_element a b (b - a) (byte_len t) <$> kept).
Proof.
  pose proof kept_spec as Hk. pose proof ab as Hab. destruct Hok as [_ Hs].
  assert (Hs' : StronglySorted before kept).
  { unfold kept. clear Hk. clear kept Hok Hclosed. induction Hs as [|e es' Hs IH He]; cbn; [constructor|].
    case_match; [|done]. constructor; [done|]. apply Forall_forall. intros f Hf.
    rewrite Forall_forall in He. apply He. apply list_elem_of_In, List.filter_In in Hf as [Hf _]. by apply list_elem_of_In. }
  clear Hs. induction Hs' as [|e l Hs IH He]; [constructor|]. cbn. constructor.
  { apply IH. intros f Hf. apply Hk. by right. }
  apply Forall_fmap, Forall_forall. intros f Hf. rewrite Forall_forall in He. specialize (He f Hf).
  destruct (Hk e) as (_ & (_ & _ & Hle) & Hc & Hg); [by left|].
  destruct (Hk f) as (_ & (_ & _ & Hle') & Hc' & Hg'); [by right|].
  unfold before, apart, gone in *. cbn [compose]. rewrite andb_false_iff, !Nat.leb_gt in Hg, Hg'.
  destruct (shift_element_cases a b (byte_len t) e) as [[Hb ->]|[Hb ->]]; [lia|done|done|by apply andb_false_iff; rewrite !Nat.leb_gt|..];
    (destruct (shift_element_cases a b (byte_len t) f) as [[Hb' ->]|[Hb' ->]]; [lia|done|done|by apply andb_false_iff; rewrite !Nat.leb_gt|..]);
    cbn [with_range range_start range_end]; lia.
Qed.
(** What an edit that cuts no element does to the elements. *)
Lemma shift_elements_ok :
  let es' := shift_elements es a (b - a) (byte_len t) in
  elements_ok (x ++ t ++ z) es' ∧
  Forall2 (moved (x ++ y ++ z) (x ++ t ++ z)) kept es'.
Proof.
  intros es'. unfold es'. rewrite shift_elements_kept. split; [split|].
  - apply Forall_fmap, Forall_forall. intros e He. by apply shift_in.
  - apply shift_sorted.
  - apply Forall2_fmap_r, Forall_Forall2_diag, Forall_forall. intros e He. by apply shift_in.
Qed.
Lemma shift_clear : Forall (clear_of a (a + byte_len t)) (shift_elements es a (b - a) (byte_len t)).
Proof.
  rewrite shift_elements_kept. apply Forall_fmap, Forall_forall. intros e He. cbn [compose]. unfold clear_of.
  pose proof ab. destruct (kept_spec e He) as (_ & (_ & _ & Hle) & _).
  destruct (kept_moves e He) as [[? ->]|[? ->]]; cbn [with_range range_start range_end]; lia.
Qed.
(** Positions that were at rest before the edit are at rest after it. *)
Lemma outside_after (p p' : nat) :
  (∀ e, e ∈ kept → range_end e ≤ a → ¬ (range_start e < p' ∧ p' < range_end e)) →
  (∀ e, e ∈ kept → b ≤ range_start e → a + byte_len t < p' →
     ¬ (range_start e < p' + (b - a) - byte_len t ∧ p' + (b - a) - byte_len t < range_end e)) →
  outside (shift_elements es a (b - a) (byte_len t)) p'.
Proof.
  intros H1 H2. rewrite shift_elements_kept. apply Forall_fmap, Forall_forall. intros e He. cbn [compose].
  destruct (kept_spec e He) as (_ & (_ & _ & Hle) & Hc & Hg). pose proof ab as Hab.
  destruct (shift_element_cases a b (byte_len t) e) as [[Hb ->]|[Hb ->]]; [lia|done..|by apply H1|].
  cbn [with_range range_start range_end]. specialize (H2 e He Hb). lia.
Qed.
Lemma outside_kept p e : outside es p → e ∈ kept → ¬ (range_start e < p ∧ p < range_end e).
Proof. intros Ho He. destruct (kept_spec e He) as [He' _]. unfold outside in Ho. rewrite Forall_forall in Ho. auto. Qed.
Lemma rest_after_edit p :
  is_char_boundary (x ++ y ++ z) p = true →
  let p' := cursor_after_edit p a b (byte_len t) in
  is_char_boundary (x ++ t ++ z) p' = true ∧
  (outside es p → outside (shift_elements es a (b - a) (byte_len t)) p').
Proof.
  intros Hp. pose proof ab as Hab. unfold cursor_after_edit.
  destruct (Nat.ltb_spec p a); [|destruct (Nat.leb_spec p b)].
  - split; [by rewrite <-Hp; symmetry; apply boundary_left; fold a; lia|].
    intros Ho. apply (outside_after p); [|lia]. intros e He _. by apply outside_kept.
  - split; [rewrite app_assoc; unfold a; rewrite <-byte_len_app; apply boundary_app_len|].
    intros _. apply (outside_after p); [|lia]. intros e He. lia.
  - assert (Hp' : p + byte_len t - (b - a) = byte_len (x ++ t) + (p - b)) by (rewrite byte_len_app; fold a; lia).
    split.
    + rewrite Hp', app_assoc, boundary_right. rewrite <-Hp, (app_assoc x y z).
      replace p with (byte_len (x ++ y) + (p - b)) at 2 by (fold b; lia). by rewrite boundary_right.
    + intros Ho. apply (outside_after p); [lia|]. intros e He _ _. replace (_ + (b - a) - _) with p by lia. by apply outside_kept.
Qed.
End Edit.
(** ** Sorting elements *)
Lemma insert_sorted_ok e es :
  StronglySorted before es → Forall (apart e) es →
  StronglySorted before (insert_element_sorted e es) ∧ insert_element_sorted e es ≡ₚ e :: es.
Proof.
  induction 1 as [|f es Hs IH Hf]; intros Ha; cbn [insert_element_sorted]; [by repeat constructor|].
  apply Forall_cons in Ha as [Haf Ha]. destruct (Nat.leb_spec (range_start f) (range_start e)).
  - destruct (IH Ha) as [Hs' Hp]. split; [|by rewrite Hp; constructor].
    constructor; [done|]. rewrite Hp. constructor; [|done]. split; [lia|by apply apart_sym].
  - split; [|done]. constructor; [by constructor|]. constructor; [split; [lia|done]|].
    rewrite Forall_forall in Hf, Ha |- *. intros g Hg. destruct (Hf g Hg) as [? _]. split; [lia|auto].
Qed.
Lemma sort_elements_ok es : StronglySorted apart es → StronglySorted before (sort_elements es) ∧ sort_elements es ≡ₚ es.
Proof.
  intros Hs. unfold sort_elements.
  assert (H : ∀ acc, StronglySorted before acc → Forall (λ e, Forall (apart e) acc) es →
    StronglySorted before (fold_left (λ acc e, insert_element_sorted e acc) es acc) ∧
    fold_left (λ acc e, insert_element_sorted e acc) es acc ≡ₚ acc ++ es).
  { induction Hs as [|e es Hs IH He]; intros acc Hacc Hall; cbn; [by rewrite app_nil_r|].
    apply Forall_cons in Hall as [Hea Hall]. destruct (insert_sorted_ok e acc Hacc Hea) as [H1 H2].
    destruct (IH (insert_element_sorted e acc) H1) as [H3 H4].
    - rewrite Forall_forall in Hall, He |- *. intros f Hf. rewrite H2. constructor; [apply apart_sym; auto|auto].
    - split; [done|]. by rewrite H4, H2, <-Permutation_middle. }
  destruct (H []) as [H1 H2]; [constructor|by apply Forall_true; constructor|done].
Qed.
Lemma sort_elements_in s es : elements_apart s es → elements_ok s (sort_elements es).
Proof.
  intros [Hin Hs]. destruct (sort_elements_ok es Hs) as [H1 H2]. split; [by rewrite H2|done].
Qed.
Lemma outside_perm es es' p : es ≡ₚ es' → outside es p → outside es' p.
Proof. unfold outside. by intros ->. Qed.
Lemma apart_app_one es e : StronglySorted apart es → Forall (apart e) es → StronglySorted apart (es ++ [e]).
Proof.
  induction 1 as [|f es Hs IH Hf]; intros He; cbn; [by repeat constructor|]. apply Forall_cons in He as [Hef He].
  constructor; [auto|]. apply Forall_app. split; [done|]. by constructor; [apply apart_sym|].
Qed.
Lemma add_element_elements_ok s es e : elements_ok s es → elem_in s e → Forall (apart e) es →
  elements_ok s (sort_elements (es ++ [e])) ∧ sort_elements (es ++ [e]) ≡ₚ es ++ [e].
Proof.
  intros Hok He Ha. apply elements_ok_apart in Hok as [Hin Hs].
  pose proof (apart_app_one es e Hs Ha) as Hs'. split; [|by apply sort_elements_ok].
  apply sort_elements_in. split; [|done]. apply Forall_app. auto.
Qed.

(** ** The invariant of the editor *)
Section Area.
Context {U : Unicode}.

(** The lines of the cache are those of the text. *)
Definition cache_ok (t : TextArea) : Prop :=
  match wrap_cache t with
  | Some c => wrap_ranges (text t) (cache_width c) = Some (cache_lines c)
  | None => True
  end.
(** The elements are in bounds and apart, the cursor is on a char boundary, and
    the cache is that of the text. *)
Definition area_valid (t : TextArea) : Prop :=
  elements_ok (text t) (elements t) ∧ is_char_boundary (text t) (cursor_pos t) = true ∧ cache_ok t.
(** The cursor is inside no element. *)
Definition rests (t : TextArea) : Prop := outside (elements t) (cursor_pos t).
Definition area_ok (t : TextArea) : Prop := area_valid t ∧ rests t.

(** What an operation owes: a valid editor, and the cursor outside the elements
    where it was so. *)
Definition becomes (t t' : TextArea) : Prop := area_valid t' ∧ (rests t → rests t').
Lemma becomes_ok t t' : area_ok t' → becomes t t'.
Proof. by intros []. Qed.
Lemma becomes_refl t : area_valid t → becomes t t.
Proof. by split. Qed.
Lemma becomes_trans t1 t2 t3 : becomes t1 t2 → becomes t2 t3 → becomes t1 t3.
Proof. intros [_ H1] [H2 H3]. split; auto. Qed.
Lemma ok_becomes t t' : area_ok t → becomes t t' → area_ok t'.
Proof. intros [_ Hr] [Hv H]. split; auto. Qed.
Lemma ok_at_rest t : area_ok t → at_rest t (cursor_pos t).
Proof. intros [(_ & Hc & _) Hr]. by split. Qed.

(** [t'] is [t] with [s] for the bytes from [a] to [b]: the elements that were
    there are gone and the others keep their characters. *)
Definition edited (t t' : TextArea) (a b : nat) (s : rstring) : Prop :=
  ∃ x y z, text t = x ++ y ++ z ∧ byte_len x = a ∧ byte_len (x ++ y) = b ∧ text t' = x ++ s ++ z ∧
    (Forall2 (moved (text t) (text t')) (List.filter (λ e, negb (gone a b e)) (elements t)) (elements t') ∨
     a = b ∧ s = [] ∧ elements t' = elements t).

Lemma with_cursor_ok t p : area_valid t → at_rest t p → area_ok (with_cursor t p).
Proof. intros (He & _ & Hc) [Hb Hp]. by split. Qed.
Lemma with_col_ok t c : area_ok (with_col t c) ↔ area_ok t.
Proof. done. Qed.
Lemma set_cursor_ok t p : area_valid t → area_ok (set_cursor t p).
Proof.
  intros Hok. unfold set_cursor. rewrite with_col_ok. apply with_cursor_ok; [done|]. by apply clamp_nearest_ok, Hok.
Qed.

Lemma outside_closed es p : outside es p → Forall (closed (p, p)) es.
Proof. unfold outside, closed. intros H. eapply Forall_impl; [exact H|]. cbn. lia. Qed.

Lemma insert_str_at_ok t pos s :
  area_valid t →
  let p := clamp_pos_for_insertion t pos in
  ∃ t', insert_str_at t pos s = Some t' ∧ becomes t t' ∧ edited t t' p p s ∧
    cursor_pos t' = (if p <=? cursor_pos t then cursor_pos t + byte_len s else cursor_pos t) ∧
    kill_buffer t' = kill_buffer t ∧ Forall (clear_of p (p + byte_len s)) (elements t').
Proof.
  intros (Hels & Hcb & Hcache) p. unfold insert_str_at. fold p.
  assert (Hp : at_rest t p) by by apply clamp_nearest_ok. destruct Hp as [Hpb Hpo].
  pose proof Hpb as Hpb'. apply boundary_split in Hpb' as (x & z & Htext & Hx). rewrite Htext, <-Hx, insert_mid.
  cbn [mbind option_bind]. eexists. split; [done|].
  assert (Hclosed : Forall (closed (byte_len x, byte_len (x ++ []))) (elements t)).
  { rewrite app_nil_r, Hx. by apply outside_closed. }
  rewrite Htext in Hels, Hcb. change (x ++ z) with (x ++ [] ++ z) in Hels, Hcb.
  destruct (shift_elements_ok x [] z s (elements t) Hels Hclosed) as [Hok' Hmoved].
  pose proof (shift_clear x [] z s (elements t) Hels Hclosed) as Hclear.
  pose proof (rest_after_edit x [] z s (elements t) Hels Hclosed (cursor_pos t) Hcb) as Hrest.
  rewrite app_nil_r, Nat.sub_diag in *. cbv zeta in Hrest. unfold cursor_after_edit in Hrest.
  rewrite Nat.sub_diag in Hrest.
  set (c := if byte_len x <=? cursor_pos t then _ else _).
  assert (Hcur : is_char_boundary (x ++ s ++ z) c = true ∧
    (rests t → outside (shift_elements (elements t) (byte_len x) 0 (byte_len s)) c)).
  { unfold c, rests.
    destruct (Nat.leb_spec (byte_len x) (cursor_pos t)), (Nat.ltb_spec (cursor_pos t) (byte_len x)); try lia; [|done].
    destruct (Nat.leb_spec (cursor_pos t) (byte_len x)).
    + by replace (cursor_pos t) with (byte_len x) in * by lia.
    + by replace (cursor_pos t + byte_len s - 0) with (cursor_pos t + byte_len s) in Hrest by lia. }
  destruct Hcur as [Hcb' Hco']. split; [split; [by split_and!|exact Hco']|split; [|done]].
  - exists x, [], z. rewrite app_nil_r. split_and!; [done..|]. left. by rewrite Htext.
Qed.

Lemma replace_range_raw_ok t a b s :
  area_valid t → is_char_boundary (text t) a = true → is_char_boundary (text t) b = true → a ≤ b →
  Forall (closed (a, b)) (elements t) →
  ∃ t', replace_range_raw t a b s = Some t' ∧ becomes t t' ∧ edited t t' a b s ∧
    (rests t → a < b ∨ s ≠ [] → cursor_pos t' = cursor_after_edit (cursor_pos t) a b (byte_len s)) ∧
    (a = b → s = [] → t' = t) ∧
    kill_buffer t' = kill_buffer t ∧ Forall (clear_of a (a + byte_len s)) (elements t').
Proof.
  intros Hok Ha Hb Hab Hclosed. pose proof (boundary_le _ _ Ha) as La. pose proof (boundary_le _ _ Hb) as Lb.
  unfold replace_range_raw. rewrite (proj2 (Nat.leb_le a b)) by done.
  replace (a `min` byte_len (text t)) with a by lia. replace (b `min` byte_len (text t)) with b by lia.
  destruct (two_boundaries _ a b Ha Hb Hab) as (x & y & z & Htext & Hx & Hy).
  destruct ((b - a =? 0) && (byte_len s =? 0)) eqn:E.
  { apply andb_true_iff in E as [E1%Nat.eqb_eq E2%Nat.eqb_eq]. apply byte_len_nil in E2 as ->.
    exists t. split_and!; [done|by apply becomes_refl| |intros _ [?|?]; [lia|done]|done|done|].
    2:{ eapply Forall_impl; [exact Hclosed|]. unfold closed, clear_of. cbn. intros. lia. }
    exists x, y, z. split_and!; [done..| |].
    - rewrite Htext. replace y with (@nil Z); [done|]. symmetry. apply byte_len_nil. rewrite byte_len_app in Hy. lia.
    - right. split; [lia|done]. }
  destruct Hok as (Hels & Hcb & _). rewrite Htext in Hels, Hcb |- *. subst a b. rewrite replace_mid.
  cbn [mbind option_bind]. eexists. split; [done|].
  destruct (shift_elements_ok x y z s (elements t) Hels Hclosed) as [Hok' Hmoved].
  destruct (rest_after_edit x y z s (elements t) Hels Hclosed (cursor_pos t) Hcb) as [Hrb Hro].
  set (t' := with_elements _ _ _). set (c := cursor_after_edit _ _ _ _) in *.
  assert (Hc : c `min` byte_len (x ++ s ++ z) = c) by (apply boundary_le in Hrb; lia).
  rewrite Hc. destruct (clamp_nearest_ok t' c Hok') as [Hcb' Hco'].
  split_and!; [by apply becomes_ok; split; [by split_and!|]| | | |done|by apply (shift_clear x y z)].
  - exists x, y, z. split_and!; [done..|]. left. by rewrite Htext.
  - intros Hr _. cbn [cursor_pos with_cursor]. apply clamp_nearest_id. split; [done|by apply Hro].
  - intros Heq ->. apply andb_false_iff in E as [E%Nat.eqb_neq|E%Nat.eqb_neq]; [lia|done].
Qed.
(** ** Elements added, removed, renamed *)
Lemma add_element_ok t a b name :
  area_valid t → is_char_boundary (text t) a = true → is_char_boundary (text t) b = true → a ≤ b →
  Forall (clear_of a b) (elements t) →
  let t' := (add_element_with_id t a b name).2 in
  area_valid t' ∧ (¬ (a < cursor_pos t ∧ cursor_pos t < b) → rests t → rests t').
Proof.
  intros (Hels & Hcb & Hc) H1 H2 Hle Ha. unfold add_element_with_id. cbn [snd]. set (e := {| elem_id := _ |}).
  destruct (add_element_elements_ok (text t) (elements t) e Hels) as [Hok Hp]; [by split_and!|by apply Ha|].
  split; [by split_and!|]. intros Hcur Hco. unfold rests. cbn [elements with_elements cursor_pos].
  eapply outside_perm; [symmetry; exact Hp|]. apply Forall_app. split; [done|]. by constructor.
Qed.
Lemma filter_elements_ok t f next :
  area_valid t → becomes t (with_elements t (List.filter f (elements t)) next).
Proof.
  intros ([Hin Hs] & Hcb & Hc).
  assert (Hsub : ∀ P, Forall P (elements t) → Forall P (List.filter f (elements t))).
  { intros P HP. rewrite Forall_forall in HP |- *. intros e He. apply HP.
    apply list_elem_of_In, List.filter_In in He as [He _]. by apply list_elem_of_In. }
  split; [|by apply Hsub]. split; [split|done]; [by apply Hsub|].
  cbn [elements with_elements]. clear Hsub Hin. induction Hs as [|e es Hs IH He]; cbn; [constructor|].
  case_match; [|done]. constructor; [done|]. apply Forall_forall. intros g Hg. rewrite Forall_forall in He.
  apply He. apply list_elem_of_In, List.filter_In in Hg as [Hg _]. by apply list_elem_of_In.
Qed.
Lemma remove_element_range_ok t a b : area_valid t → becomes t (remove_element_range t a b).2.
Proof.
  intros Hok. unfold remove_element_range. case_match; [by apply becomes_refl|]. by apply filter_elements_ok.
Qed.

(** A range that is made an element while the cursor is inside leaves the cursor
    there. *)
Definition marked_range (t : TextArea) (a b : nat) : nat * nat :=
  (clamp_pos_to_char_boundary (text t) (a `min` byte_len (text t)),
   clamp_pos_to_char_boundary (text t) (b `min` byte_len (text t))).
Lemma add_element_range_ok t a b :
  area_valid t →
  let t' := (add_element_range t a b).2 in
  area_valid t' ∧
  (¬ ((marked_range t a b).1 < cursor_pos t ∧ cursor_pos t < (marked_range t a b).2) → rests t → rests t').
Proof.
  intros Hok. unfold marked_range. cbn [fst snd]. unfold add_element_range.
  set (start := clamp_pos_to_char_boundary _ (a `min` _)) in *. set (fin := clamp_pos_to_char_boundary _ (b `min` _)) in *.
  destruct (Nat.leb_spec fin start); [done|]. destruct (existsb _ _) eqn:E1; [done|].
  destruct (existsb (λ e, (start <? _) && _) _) eqn:E2; [done|].
  apply (add_element_ok t start fin None); [done|apply clamp_char_ok|apply clamp_char_ok|lia|].
  - apply Forall_forall. intros e He. unfold clear_of.
    apply not_true_iff_false in E2. rewrite existsb_exists in E2.
    destruct (Nat.ltb_spec start (range_end e)), (Nat.ltb_spec (range_start e) fin); try lia.
    exfalso. apply E2. exists e. split; [by apply list_elem_of_In|]. rewrite andb_true_iff, !Nat.ltb_lt. lia.
Qed.
(** ** Replacing and killing *)
Lemma replace_range_ok t a b s :
  area_valid t → is_char_boundary (text t) a = true → is_char_boundary (text t) b = true → a ≤ b →
  let r := expand_range_to_element_boundaries t (a, b) in
  ∃ t', replace_range t a b s = Some t' ∧ becomes t t' ∧ edited t t' r.1 r.2 s ∧
    (rests t → r.1 < r.2 ∨ s ≠ [] → cursor_pos t' = cursor_after_edit (cursor_pos t) r.1 r.2 (byte_len s)) ∧
    kill_buffer t' = kill_buffer t.
Proof.
  intros Hok Ha Hb Hab. destruct (expand_ok t (a, b) (proj1 Hok) Ha Hb Hab) as (Hw & Hc & H1 & H2 & H3 & _).
  unfold replace_range. destruct (expand_range_to_element_boundaries t (a, b)) as [a' b']. cbn [fst snd] in *.
  destruct (replace_range_raw_ok t a' b' s Hok H1 H2 H3 Hc) as (t' & Ht & Hok' & He & Hcur & _ & Hk & _). eauto 10.
Qed.
Lemma kill_range_ok t a b :
  area_valid t → is_char_boundary (text t) a = true → is_char_boundary (text t) b = true → a ≤ b →
  let r := expand_range_to_element_boundaries t (a, b) in
  ∃ t', kill_range t a b = Some t' ∧ becomes t t' ∧
    (r.1 = r.2 ∧ t' = t ∨
     r.1 < r.2 ∧ slice (text t) r.1 r.2 = Some (kill_buffer t') ∧ edited t t' r.1 r.2 [] ∧
     (rests t → cursor_pos t' = cursor_after_edit (cursor_pos t) r.1 r.2 0)).
Proof.
  intros Hok Ha Hb Hab. destruct (expand_ok t (a, b) (proj1 Hok) Ha Hb Hab) as (Hw & Hc & H1 & H2 & H3 & _).
  unfold kill_range. destruct (expand_range_to_element_boundaries t (a, b)) as [a' b']. cbn [fst snd] in *.
  destruct (Nat.leb_spec b' a').
  { exists t. split_and!; [done|by apply becomes_refl|]. left. split; [lia|done]. }
  destruct (slice_total _ _ _ H1 H2 H3) as [removed Hr]. rewrite Hr. cbn [mbind option_bind].
  destruct (slice_boundaries _ _ _ _ Hr) as (_ & _ & _ & Hlen).
  destruct removed as [|c removed]; [cbn in Hlen; lia|]. cbn [is_empty].
  destruct (replace_range_raw_ok (with_kill_buffer t (c :: removed)) a' b' [] Hok H1 H2 H3 Hc)
    as (t' & Ht & Hok' & He & Hcur & _ & Hk & _).
  exists t'. split_and!; [done..|]. right. split_and!; [done|by rewrite Hk|done|]. intros Hrs. apply Hcur; [done|by left].
Qed.

(** ** Elements that are inserted or replaced *)
Lemma own_range_closed t e :
  elements_ok (text t) (elements t) → e ∈ elements t → Forall (closed (range_start e, range_end e)) (elements t).
Proof.
  intros [_ Hs]%elements_ok_apart He. apply Forall_forall. intros f Hf.
  unfold closed. cbn [fst snd]. destruct (sorted_apart _ e f Hs He Hf) as [<-|[?|?]]; lia.
Qed.
Lemma replace_element_raw_ok t e s :
  area_valid t → e ∈ elements t →
  ∃ t', replace_range_raw t (range_start e) (range_end e) s = Some t' ∧ becomes t t' ∧
    edited t t' (range_start e) (range_end e) s ∧
    Forall (clear_of (range_start e) (range_start e + byte_len s)) (elements t') ∧
    (rests t → ¬ (range_start e < cursor_pos t' ∧ cursor_pos t' < range_start e + byte_len s)) ∧
    is_char_boundary (text t') (range_start e) = true ∧
    is_char_boundary (text t') (range_start e + byte_len s) = true.
Proof.
  intros Hok He. pose proof (proj1 Hok) as [Hin _]. rewrite Forall_forall in Hin. destruct (Hin e He) as (H1 & H2 & H3).
  destruct (replace_range_raw_ok t _ _ s Hok H1 H2 H3 (own_range_closed t e (proj1 Hok) He))
    as (t' & Ht & Hok' & Hed & Hcur & Hid & _ & Hcl).
  exists t'. split_and!; [done..| | |].
  - intros Hr. destruct (decide (range_start e < range_end e ∨ s ≠ [])) as [Hd|Hd].
    + rewrite (Hcur Hr Hd). unfold cursor_after_edit. repeat case_match; breflect; lia.
    + assert (s = []) as -> by (destruct s; [done|]; exfalso; apply Hd; by right). cbn. lia.
  - destruct Hed as (x & y & z & _ & <- & _ & -> & _). apply boundary_app_len.
  - destruct Hed as (x & y & z & _ & <- & _ & -> & _). rewrite <-byte_len_app, app_assoc. apply boundary_app_len.
Qed.
Lemma find_elem f t e : List.find f (elements t) = Some e → e ∈ elements t.
Proof. intros [He _]%List.find_some. by apply list_elem_of_In. Qed.
Lemma replace_element_by_id_ok t id s :
  area_valid t → ∃ r t', replace_element_by_id t id s = Some (r, t') ∧ becomes t t'.
Proof.
  intros Hok. unfold replace_element_by_id. destruct (List.find _ _) as [e|] eqn:E; [|eauto using becomes_refl].
  destruct (replace_element_raw_ok t e s Hok (find_elem _ _ _ E)) as (t' & -> & Hok' & _). cbn.
  do 2 eexists. split; [done|]. eapply becomes_trans; [exact Hok'|]. apply filter_elements_ok, Hok'.
Qed.
Lemma update_named_element_ok t id s :
  area_valid t → ∃ r t', update_named_element_by_id t id s = Some (r, t') ∧ becomes t t'.
Proof.
  intros Hok. unfold update_named_element_by_id. destruct (List.find _ _) as [e|] eqn:E; [|eauto using becomes_refl].
  destruct (replace_element_raw_ok t e s Hok (find_elem _ _ _ E)) as (t' & -> & Hok' & _ & Hcl & Hcur & H1 & H2).
  cbn [mbind option_bind]. do 2 eexists. split; [done|].
  destruct (add_element_ok t' (range_start e) (range_start e + byte_len s) (Some id) (proj1 Hok') H1 H2
    ltac:(lia) Hcl) as [Hv Hr]. split; [done|]. intros Ho. apply Hr; [auto|by apply Hok'].
Qed.

Lemma insert_at_cursor_ok t s :
  area_ok t →
  ∃ t', insert_str t s = Some t' ∧ area_ok t' ∧ edited t t' (cursor_pos t) (cursor_pos t) s ∧
    cursor_pos t' = cursor_pos t + byte_len s ∧ kill_buffer t' = kill_buffer t ∧
    Forall (clear_of (cursor_pos t) (cursor_pos t + byte_len s)) (elements t').
Proof.
  intros Hok. destruct (insert_str_at_ok t (cursor_pos t) s (proj1 Hok)) as (t' & Ht & Hb & H).
  unfold clamp_pos_for_insertion in H. rewrite clamp_nearest_id, Nat.leb_refl in H by by apply ok_at_rest.
  exists t'. split; [done|]. split; [by eapply ok_becomes|done].
Qed.
Lemma insert_marked_ok t s name :
  area_valid t →
  let start := clamp_pos_for_insertion t (cursor_pos t) in
  ∃ t', insert_str_at t start s = Some t' ∧
    area_ok (set_cursor (add_element_with_id t' start (start + byte_len s) name).2 (start + byte_len s)).
Proof.
  intros Hok start. assert (Hs : clamp_pos_for_insertion t start = start).
  { apply clamp_nearest_id. apply clamp_nearest_ok, Hok. }
  destruct (insert_str_at_ok t start s Hok) as (t' & Ht & Hok' & (x & y & z & _ & Hx & _ & Htext & _) & _ & _ & Hcl).
  rewrite Hs in *. exists t'. split; [done|]. apply set_cursor_ok.
  apply add_element_ok; [apply Hok'| | |lia|done]; rewrite Htext, <-Hx.
  - apply boundary_app_len.
  - rewrite <-byte_len_app, app_assoc. apply boundary_app_len.
Qed.
Lemma insert_element_ok t s : area_valid t → ∃ id t', insert_element t s = Some (id, t') ∧ area_ok t'.
Proof.
  intros Hok. destruct (insert_marked_ok t s None Hok) as (t' & Ht & Hok'). unfold insert_element. rewrite Ht. cbn. eauto.
Qed.
Lemma insert_named_element_ok t s id : area_valid t → ∃ t', insert_named_element t s id = Some t' ∧ area_ok t'.
Proof.
  intros Hok. destruct (insert_marked_ok t s (Some id) Hok) as (t' & Ht & Hok'). unfold insert_named_element.
  rewrite Ht. cbn. eauto.
Qed.
(** *** Renaming *)
Lemma split_at_first_Some {A} (f : A → bool) l a x b :
  split_at_first f l = Some (a, x, b) → l = a ++ x :: b ∧ f x = true.
Proof.
  revert a. induction l as [|y l IH]; intros a; cbn [split_at_first]; [done|]. destruct (f y) eqn:E.
  - by intros [= <- -> ->].
  - destruct (split_at_first f l) as [[[a' x'] b']|]; [|done]. intros [= <- -> ->].
    by destruct (IH a' eq_refl) as [-> ?].
Qed.
(** The other elements move like the text around the edit. *)
Lemma move_other_moves x y t e f :
  byte_len x = range_start e → byte_len (x ++ y) = range_end e → apart e f → range_start f ≤ range_end f →
  let move := if range_end e - range_start e =? byte_len t then id
              else move_other_element (range_start e) (range_end e) (byte_len t) in
  moves x y t f (move f).
Proof.
  intros Hx Hy Ha Hf move. unfold move, moves. rewrite Hx, Hy. unfold apart in Ha.
  destruct (Nat.eqb_spec (range_end e - range_start e) (byte_len t)).
  - unfold id. destruct Ha as [?|?]; [right|by left]. split; [done|].
    destruct f as [i a b n]; cbn [range_start range_end with_range elem_id elem_name] in *. unfold with_range. cbn. f_equal; lia.
  - unfold move_other_element. destruct (Nat.leb_spec (range_end f) (range_start e)); [by left|].
    destruct (Nat.leb_spec (range_end e) (range_start f)); [by right|]. lia.
Qed.
Lemma moves_apart x y t f f' g g' :
  range_start f ≤ range_end f → range_start g ≤ range_end g →
  moves x y t f f' → moves x y t g g' → apart f g → apart f' g'.
Proof.
  unfold moves, apart. rewrite byte_len_app. intros Hf Hg [[? ->]|[? ->]] [[? ->]|[? ->]] ?;
    cbn [with_range range_start range_end]; lia.
Qed.
Lemma moves_sorted x y t l l' :
  Forall (λ f, range_start f ≤ range_end f) l → Forall2 (moves x y t) l l' → StronglySorted apart l → StronglySorted apart l'.
Proof.
  intros Hle H2 Hs. revert Hle. induction H2 as [|f f' l l' Hf Hl IH]; intros Hle; [constructor|].
  apply Forall_cons in Hle as [Hfle Hle]. apply StronglySorted_inv in Hs as [Hs Hall]. constructor; [by apply IH|].
  clear IH Hs. revert Hle Hall. induction Hl as [|g g' l l' Hg Hl IH]; intros Hle Hall; [constructor|].
  apply Forall_cons in Hle as [Hgle Hle], Hall as [Hfg Hall]. constructor; [by apply (moves_apart x y t f f' g g')|auto].
Qed.
Lemma sorted_middle {A} (R : A → A → Prop) l1 x l2 :
  (∀ a b, R a b → R b a) →
  StronglySorted R (l1 ++ x :: l2) ↔ StronglySorted R (l1 ++ l2) ∧ Forall (R x) (l1 ++ l2).
Proof.
  intros Hsym. induction l1 as [|y l1 IH]; cbn.
  - split; [by intros [??]%StronglySorted_inv|by intros []; constructor].
  - split.
    + intros [Hs Hall]%StronglySorted_inv. apply IH in Hs as [Hs Hx].
      rewrite !Forall_app, Forall_cons in Hall. destruct Hall as (H1 & H2 & H3).
      split; constructor; try done; [by apply Forall_app|auto].
    + intros [[Hs Hall]%StronglySorted_inv [Hy Hx]%Forall_cons]. constructor; [by apply IH|].
      rewrite !Forall_app, Forall_cons in *. naive_solver.
Qed.

Lemma rename_elements x old z new_ e l r :
  Forall (elem_in (x ++ old ++ z)) (l ++ r) → StronglySorted apart (l ++ r) → Forall (apart e) (l ++ r) →
  byte_len x = range_start e → byte_len (x ++ old) = range_end e →
  let move := if range_end e - range_start e =? byte_len new_ then id
              else move_other_element (range_start e) (range_end e) (byte_len new_) in
  let e' := with_range e (range_start e) (range_start e + byte_len new_) in
  elements_apart (x ++ new_ ++ z) ((move <$> l) ++ e' :: (move <$> r)) ∧
  Forall2 (moved (x ++ old ++ z) (x ++ new_ ++ z)) (l ++ r) (move <$> (l ++ r)).
Proof.
  intros Hlr Hs Hae Hx Hy move e'. rewrite Forall_forall in Hae.
  assert (Hle : ∀ f, f ∈ l ++ r → range_start f ≤ range_end f) by (rewrite Forall_forall in Hlr; intros f Hf; by apply Hlr).
  assert (Hmv : ∀ f, f ∈ l ++ r → moves x old new_ f (move f)).
  { intros f Hf. by apply (move_other_moves x old new_ e f); [..|apply Hae|apply Hle]. }
  assert (Hmoved : ∀ f, f ∈ l ++ r → elem_in (x ++ new_ ++ z) (move f) ∧ moved (x ++ old ++ z) (x ++ new_ ++ z) f (move f)).
  { rewrite Forall_forall in Hlr. intros f Hf. by apply moves_in; [apply Hlr|apply Hmv]. }
  split; [split|].
  - assert (Hall : Forall (elem_in (x ++ new_ ++ z)) (move <$> (l ++ r))).
    { apply Forall_fmap, Forall_forall. intros f Hf. by apply Hmoved. }
    rewrite fmap_app in Hall. apply Forall_app in Hall as [H1 H2]. apply Forall_app. split; [done|]. constructor; [|done].
    unfold e', elem_in. cbn [with_range range_start range_end]. rewrite <-Hx.
    split_and!; [apply boundary_app_len|rewrite <-byte_len_app, app_assoc; apply boundary_app_len|lia].
  - apply (sorted_middle apart _ _ _ apart_sym). rewrite <-fmap_app. split.
    + eapply (moves_sorted x old new_ (l ++ r)); [by apply Forall_forall| |exact Hs].
      by apply Forall2_fmap_r, Forall_Forall2_diag, Forall_forall.
    + apply Forall_fmap, Forall_forall. intros f Hf. cbn [compose]. specialize (Hle f Hf).
      destruct (Hmv f Hf) as [[? Hm]|[? Hm]]; rewrite Hm; unfold apart, e'; cbn [with_range range_start range_end];
        rewrite ?byte_len_app in *; lia.
  - apply Forall2_fmap_r, Forall_Forall2_diag, Forall_forall. intros f Hf. by apply Hmoved.
Qed.

Lemma replace_element_payload_ok t old new_ :
  area_valid t →
  ∃ r t', replace_element_payload t old new_ = Some (r, t') ∧ becomes t t' ∧
    (r = false → t' = t) ∧
    (r = true → ∃ l e r l' e' r', elements t = l ++ e :: r ∧ payload t e = Some old ∧
       elements t' ≡ₚ l' ++ e' :: r' ∧ elem_id e' = elem_id e ∧ payload t' e' = Some new_ ∧
       Forall2 (moved (text t) (text t')) (l ++ r) (l' ++ r')).
Proof.
  intros Hok. unfold replace_element_payload. destruct (split_at_first _ _) as [[[l e] r]|] eqn:E.
  2:{ exists false, t. split_and!; [done|by apply becomes_refl|done..]. }
  apply split_at_first_Some in E as [Hels Hold%bool_decide_eq_true].
  apply slice_Some in Hold as Hold'. destruct Hold' as (x & z & Htext & Hx & Hy).
  destruct Hok as (Hok & _ & _). apply elements_ok_apart in Hok as [Hin Hs].
  rewrite Hels in Hin, Hs. apply (sorted_middle apart _ _ _ apart_sym) in Hs as [Hs Hae].
  rewrite Forall_app, Forall_cons in Hin. destruct Hin as (Hl & (_ & Heb & Hle) & Hr). apply boundary_le in Heb.
  rewrite (proj2 (Nat.ltb_ge _ _)), (proj2 (Nat.ltb_ge _ _)) by lia. cbn [orb].
  rewrite Htext, <-Hx, <-Hy, replace_mid. cbn [mbind option_bind]. rewrite Hx, Hy.
  destruct (rename_elements x old z new_ e l r) as [Hapart Hmoved]; [rewrite <-Htext; by apply Forall_app|done..|].
  set (move := if _ =? _ then _ else _) in *. set (e' := with_range e _ _) in *.
  set (es := (move <$> l) ++ e' :: (move <$> r)) in *.
  do 2 eexists. split; [done|]. destruct (sort_elements_ok es (proj2 Hapart)) as [_ Hperm]. split.
  - set (t1 := with_elements _ es _). destruct (clamp_nearest_apart t1
      (cursor_after_edit (cursor_pos t) (range_start e) (range_end e) (byte_len new_)) Hapart) as [H1 H2].
    apply becomes_ok. split; [split_and!; [by apply sort_elements_in|exact H1|done]|].
    eapply outside_perm; [symmetry; exact Hperm|exact H2].
  - split; [done|]. intros _. exists l, e, r, (move <$> l), e', (move <$> r). split_and!; [done..| |].
    + unfold payload, e'. cbn [text elements range_start range_end with_elements with_cursor with_text with_range].
      rewrite <-Hx, <-byte_len_app. apply slice_mid.
    + by rewrite <-fmap_app.
Qed.

(** ** A new text *)
(** Ranges of a text that do not overlap. *)
Definition ranges_ok (s : rstring) (ranges : list (nat * nat)) : Prop :=
  Forall (λ r, is_char_boundary s r.1 = true ∧ is_char_boundary s r.2 = true) ranges ∧
  StronglySorted (λ r r', r.2 ≤ r'.1 ∨ r'.2 ≤ r.1) ranges.
Lemma set_elements_spec s ranges next :
  ranges_ok s ranges →
  (λ e, (range_start e, range_end e)) <$> (set_elements s ranges next).1 =
  List.filter (λ r, r.1 <? r.2) ranges.
Proof.
  intros [Hin Hs]. revert next. induction ranges as [|[a b] ranges IH]; intros next; [done|].
  apply Forall_cons in Hin as [[Ha Hb] Hin]. apply StronglySorted_inv in Hs as [Hs _]. cbn [fst snd] in *.
  cbn [set_elements List.filter fst snd]. pose proof (boundary_le _ _ Ha). pose proof (boundary_le _ _ Hb).
  replace (a `min` byte_len s) with a by lia. replace (b `min` byte_len s) with b by lia. rewrite !clamp_char_id by done.
  destruct (Nat.leb_spec b a), (Nat.ltb_spec a b); try lia; [by apply IH|].
  specialize (IH Hin Hs (succ_id next)). destruct (set_elements s ranges _) as [es n]. cbn in *. by rewrite IH.
Qed.
Lemma set_text_inner_ok t s ranges :
  match ranges with Some rs => ranges_ok s rs | None => True end → area_ok (set_text_inner t s ranges).
Proof.
  intros Hr. unfold set_text_inner. destruct (match ranges with Some _ => _ | None => _ end) as [es next] eqn:E.
  assert (Hels : elements_ok s es).
  { destruct ranges as [rs|]; [|by injection E as <- <-; split; constructor].
    pose proof (set_elements_spec s rs (next_element_id t) Hr) as Hes.
    destruct (set_elements s rs (next_element_id t)) as [es0 n0]. injection E as <- <-. cbn [fst] in Hes.
    apply sort_elements_in. destruct Hr as [Hin Hs]. clear -Hin Hs Hes. split.
    - apply Forall_forall. intros e He.
      assert (Hf : (range_start e, range_end e) ∈ List.filter (λ r, r.1 <? r.2) rs).
      { rewrite <-Hes. by apply (list_elem_of_fmap_2 (λ e, (range_start e, range_end e))). }
      apply list_elem_of_In, List.filter_In in Hf as [Hf%list_elem_of_In Hlt%Nat.ltb_lt].
      rewrite Forall_forall in Hin. destruct (Hin _ Hf) as [??]. split_and!; [done..|cbn in Hlt; lia].
    - assert (Hs' : StronglySorted (λ r r', r.2 ≤ r'.1 ∨ r'.2 ≤ r.1) ((λ e, (range_start e, range_end e)) <$> es0)).
      { rewrite Hes. clear -Hs. induction Hs as [|r rs Hs IH Hall]; cbn; [constructor|]. case_match; [|done].
        constructor; [done|]. rewrite Forall_forall in Hall |- *. intros q Hq. apply Hall.
        apply list_elem_of_In, List.filter_In in Hq as [Hq _]. by apply list_elem_of_In. }
      clear -Hs'. induction es0 as [|e es IH]; [constructor|]. cbn in Hs'. apply StronglySorted_inv in Hs' as [Hs' Hall].
      constructor; [auto|]. by apply Forall_fmap in Hall. }
  destruct (clamp_nearest_ok (with_elements (with_text t s) es next) (cursor_pos t `min` byte_len s) Hels) as [H1 H2].
  split; [by split_and!|done].
Qed.
(** ** Places in the text *)
Lemma slice_to_ok s n : is_char_boundary s n = true → ∃ a b, s = a ++ b ∧ byte_len a = n ∧ slice_to s n = Some a ∧ slice_from s n = Some b.
Proof.
  intros (a & b & -> & <-)%boundary_split. exists a, b. unfold slice_to, slice_from. by rewrite split_bytes_len.
Qed.
Lemma boundary_in a m b n : is_char_boundary m n = true → is_char_boundary (a ++ m ++ b) (byte_len a + n) = true.
Proof. intros (u & v & -> & <-)%boundary_split. rewrite boundary_right, <-(assoc_L (++)). apply boundary_app_len. Qed.

Lemma end_of_line_ok t pos :
  is_char_boundary (text t) pos = true →
  ∃ e, end_of_line t pos = Some e ∧ pos ≤ e ∧ is_char_boundary (text t) e = true ∧
    (e < byte_len (text t) → is_char_boundary (text t) (e + 1) = true).
Proof.
  intros Hpos. destruct (slice_to_ok _ _ Hpos) as (a & b & Htext & Ha & _ & Hf). unfold end_of_line. rewrite Hf. cbn.
  destruct (find_char is_nl b) as [i|] eqn:E.
  - apply find_char_Some in E as (u & c & v & -> & <- & Hc%Z.eqb_eq & _). subst c. eexists. split; [done|].
    rewrite Htext, <-Ha, (Nat.add_comm (byte_len u)). split_and!; [lia| |intros _].
    + rewrite <-byte_len_app, app_assoc. apply boundary_app_len.
    + replace (byte_len a + byte_len u + 1) with (byte_len ((a ++ u) ++ [NL])) by (rewrite !byte_len_app; done).
      replace (a ++ u ++ NL :: v) with (((a ++ u) ++ [NL]) ++ v) by (by rewrite <-!(assoc_L (++))). apply boundary_app_len.
  - eexists. split; [done|]. split_and!; [by apply boundary_le|apply boundary_len|lia].
Qed.
Lemma line_start_ok s :
  line_start_in s ≤ byte_len s ∧ is_char_boundary s (line_start_in s) = true ∧
  (0 < line_start_in s → is_char_boundary s (line_start_in s - 1) = true).
Proof.
  unfold line_start_in. destruct (rfind_char is_nl s) as [[i c]|] eqn:E; [|split_and!; [lia|apply boundary_0|lia]].
  apply rfind_char_Some in E as (u & v & -> & <- & Hc%Z.eqb_eq & _). subst c.
  rewrite byte_len_app, byte_len_cons. change (utf8_len NL) with 1. split_and!; [lia| |intros _].
  - replace (byte_len u + 1) with (byte_len (u ++ [NL])) by (by rewrite byte_len_app).
    replace (u ++ NL :: v) with ((u ++ [NL]) ++ v) by (by rewrite <-(assoc_L (++))). apply boundary_app_len.
  - replace (byte_len u + 1 - 1) with (byte_len u) by lia. apply boundary_app_len.
Qed.
Lemma boundary_prefix a b n : is_char_boundary a n = true → is_char_boundary (a ++ b) n = true.
Proof. intros (u & v & -> & <-)%boundary_split. rewrite <-(assoc_L (++)). apply boundary_app_len. Qed.
Lemma beginning_of_line_ok t pos :
  is_char_boundary (text t) pos = true →
  ∃ e, beginning_of_line t pos = Some e ∧ e ≤ pos ∧ is_char_boundary (text t) e = true ∧
    (0 < e → is_char_boundary (text t) (e - 1) = true).
Proof.
  intros Hpos. destruct (slice_to_ok _ _ Hpos) as (a & b & Htext & Ha & Hs & _). unfold beginning_of_line. rewrite Hs.
  destruct (line_start_ok a) as (H1 & H2 & H3). eexists. split; [done|]. rewrite Htext.
  split_and!; [lia|by apply boundary_prefix|intros; apply boundary_prefix; auto].
Qed.

(** ** Wrapped lines *)
Definition line_ok (s : rstring) (r : nat * nat) : Prop :=
  is_char_boundary s r.1 = true ∧ is_char_boundary s (r.2 - 1) = true ∧ r.1 ≤ r.2 - 1.
Lemma spaces_boundary s n rest :
  slice_from s n = Some rest → is_char_boundary s (n + count_spaces rest) = true.
Proof.
  unfold slice_from. destruct (split_bytes n s) as [[a b]|] eqn:E; [|done]. intros [= ->].
  apply split_bytes_Some in E as [-> <-]. rewrite boundary_right. clear a. induction rest as [|c rest IH]; [done|].
  cbn [count_spaces]. destruct (Z.eqb_spec c 32) as [-> |]; [|apply boundary_0].
  change (S (count_spaces rest)) with (byte_len [32%Z] + count_spaces rest).
  change (32%Z :: rest) with ([32%Z] ++ rest). by rewrite boundary_right.
Qed.
Lemma match_source_ok wrapped : ∀ a rest fin saw, byte_len a = fin →
  fin ≤ match_source wrapped rest fin saw ∧ is_char_boundary (a ++ rest) (match_source wrapped rest fin saw) = true.
Proof.
  induction wrapped as [|ch w IH]; intros a rest fin saw Ha; cbn [match_source].
  { split; [lia|]. rewrite <-Ha. apply boundary_app_len. }
  assert (Hother : ∀ o, o = match_source w rest fin saw ∨ o = fin → fin ≤ o ∧ is_char_boundary (a ++ rest) o = true).
  { intros o [-> | ->]; [by apply IH|]. split; [lia|]. rewrite <-Ha. apply boundary_app_len. }
  destruct rest as [|src rest]; [apply Hother; repeat case_match; auto|].
  destruct (Z.eqb_spec ch src); [|apply Hother; repeat case_match; auto].
  destruct (IH (a ++ [src]) rest (fin + utf8_len src) true) as [H1 H2]; [rewrite byte_len_app; cbn; lia|].
  split; [lia|]. by rewrite <-(assoc_L (++)) in H2.
Qed.
Lemma map_owned_ok s cursor w p :
  is_char_boundary s cursor = true →
  ∃ a b, map_owned_wrapped_line_to_range s cursor w p = Some (a, b) ∧
    is_char_boundary s a = true ∧ is_char_boundary s b = true ∧ a ≤ b.
Proof.
  intros Hc. unfold map_owned_wrapped_line_to_range. set (w' := if is_empty p then _ else _).
  assert (∃ start, (if (cursor <? byte_len s) && negb (starts_with $" " w')
     then rest ← slice_from s cursor; Some (cursor + count_spaces rest) else Some cursor) = Some start ∧
     is_char_boundary s start = true) as (start & -> & Hs).
  { case_match; [|eauto]. destruct (slice_to_ok _ _ Hc) as (a & b & _ & _ & _ & Hf). rewrite Hf. cbn.
    eexists. split; [done|]. by apply spaces_boundary. }
  cbn [mbind option_bind]. destruct (slice_to_ok _ _ Hs) as (a & b & Htext & Ha & _ & Hf). rewrite Hf.
  assert ((if start <? byte_len s then Some b else Some []) = Some b) as ->.
  { destruct (Nat.ltb_spec start (byte_len s)); [done|]. rewrite Htext, byte_len_app in *.
    by rewrite (byte_len_nil b) by lia. }
  cbn [mbind option_bind]. destruct (match_source_ok w' a b start false Ha) as [H1 H2]. rewrite <-Htext in H2. eauto 10.
Qed.
Lemma wrap_ranges_from_ok s lines : ∀ p q cursor,
  is_char_boundary s cursor = true →
  (∀ a n, Borrowed a n ∈ lines → is_char_boundary s a = true ∧ is_char_boundary s (a + n) = true) →
  ∃ rs, wrap_ranges_from s p q cursor lines = Some rs ∧ Forall (line_ok s) rs.
Proof.
  induction lines as [|line lines IH]; intros p q cursor Hc Hb; cbn [wrap_ranges_from]; [by exists []|].
  assert (∃ a b, match line with Borrowed start len => Some (start, start + len)
            | Owned w => map_owned_wrapped_line_to_range s cursor w p end = Some (a, b) ∧
     is_char_boundary s a = true ∧ is_char_boundary s b = true ∧ a ≤ b) as (a & b & -> & Ha & Hbb & Hle).
  { destruct line as [a n|w]; [|by apply map_owned_ok]. destruct (Hb a n) as [??]; [by left|].
    exists a, (a + n). split_and!; [done..|lia]. }
  cbn [mbind option_bind]. destruct (slice_to_ok _ _ Hbb) as (_ & rest & _ & _ & _ & Hf). rewrite Hf. cbn [mbind option_bind].
  pose proof (spaces_boundary _ _ _ Hf) as Hsp.
  destruct (IH q q (b + count_spaces rest) Hsp) as (rs & -> & Hrs); [intros; apply Hb; by right|].
  eexists. split; [done|]. constructor; [|done]. unfold line_ok. cbn [fst snd].
  replace (b + count_spaces rest + 1 - 1) with (b + count_spaces rest) by lia. split_and!; [done..|lia].
Qed.
Lemma wrap_ranges_ok {L : UnicodeLaws U} s w : ∃ rs, wrap_ranges s w = Some rs ∧ Forall (line_ok s) rs.
Proof. apply wrap_ranges_from_ok; [apply boundary_0|]. intros a n. apply wrap_slices. Qed.
Lemma cache_lines_ok {L : UnicodeLaws U} t c : cache_ok t → wrap_cache t = Some c → Forall (line_ok (text t)) (cache_lines c).
Proof.
  intros Hok Hc. unfold cache_ok in Hok. rewrite Hc in Hok.
  destruct (wrap_ranges_ok (text t) (cache_width c)) as (rs & Hrs & Hall). congruence.
Qed.
Lemma wrapped_lines_ok {L : UnicodeLaws U} t w :
  area_valid t → ∃ lines t', wrapped_lines t w = Some (lines, t') ∧ becomes t t' ∧ wrap_ranges (text t) w = Some lines ∧
    Forall (line_ok (text t)) lines ∧ text t' = text t ∧ elements t' = elements t ∧ cursor_pos t' = cursor_pos t ∧
    kill_buffer t' = kill_buffer t.
Proof.
  intros (Hels & Hrest & Hc). unfold wrapped_lines. destruct (wrap_ranges_ok (text t) w) as (rs & Hrs & Hall).
  set (t1 := {| text := text t; cursor_pos := cursor_pos t; wrap_cache := Some {| cache_width := w; cache_lines := rs |};
      preferred_col := preferred_col t; elements := elements t; next_element_id := next_element_id t;
      kill_buffer := kill_buffer t |}).
  destruct (wrap_cache t) as [c|] eqn:E; [destruct (Nat.eqb_spec (cache_width c) w) as [<-|]|].
  2,3: exists rs, t1; split_and!; [by rewrite Hrs|done..].
  exists (cache_lines c), t. pose proof (cache_lines_ok t c Hc E). unfold cache_ok in Hc. rewrite E in Hc.
  split_and!; try done. apply becomes_refl. split_and!; [done..|]. unfold cache_ok. by rewrite E.
Qed.
Lemma line_index_ok lines pos i :
  wrapped_line_index_by_start lines pos = Some i → ∃ r, lines !! i = Some r ∧ r.1 ≤ pos.
Proof.
  unfold wrapped_line_index_by_start. destruct (starts_up_to lines pos) as [|n] eqn:E; [done|]. intros [= <-]. revert n E.
  induction lines as [|r lines IH]; intros n E; [done|]. cbn in E. destruct (Nat.leb_spec r.1 pos); [|done].
  injection E as E. destruct n as [|n]; [by exists r|]. by apply IH.
Qed.
End Area.
End TextFacts.
