(* ===== verification/TextAreaTheorems.v ===== *)
(** * TextAreaTheorems: the editor of the composer is sound

    Every key and every call of [TextArea] runs without a panic and keeps the
    invariant of [TextAreaFacts]; the elements are atomic; killed text can be
    yanked back; the cursor is on the screen. *)

From S2P Require Import Prelude BytePos TextArea TextAreaFacts.

Create HintDb editor.

Module TextTheorems.
Import Bytes TextArea TextFacts.

Section Editor.
Context {U : Unicode} {L : UnicodeLaws U}.

(** ** Words *)
Definition piece_of (s : rstring) (p : nat * rstring) : Prop := ∃ u v, s = u ++ p.2 ++ v ∧ byte_len u = p.1.
Lemma piece_boundaries s p : piece_of s p → is_char_boundary s p.1 = true ∧ is_char_boundary s (p.1 + byte_len p.2) = true.
Proof.
  intros (u & v & -> & <-). split; [apply boundary_app_len|]. rewrite <-byte_len_app, app_assoc. apply boundary_app_len.
Qed.
Lemma segment_pieces_of s p : ∀ a cur sep b,
  p ∈ segment_pieces (byte_len a) cur sep s → piece_of (a ++ cur ++ s ++ b) p.
Proof.
  induction s as [|c s IH]; intros a cur sep b; cbn [segment_pieces].
  { intros [-> |Hn%elem_of_nil]%elem_of_cons; [|done]. by exists a, b. }
  destruct (Bool.eqb _ _).
  - intros Hp. apply (IH _ _ _ b) in Hp. by rewrite <-(assoc_L (++) cur) in Hp.
  - intros [-> |Hp]%elem_of_cons; [by exists a, (c :: s ++ b)|]. rewrite <-byte_len_app in Hp.
    apply (IH _ _ _ b) in Hp. by rewrite <-(assoc_L (++) a) in Hp.
Qed.
Lemma pieces_from_of segs p : ∀ a, p ∈ pieces_from (byte_len a) segs → piece_of (a ++ concat segs) p.
Proof.
  induction segs as [|s segs IH]; intros a; cbn [pieces_from concat]; [by intros ?%elem_of_nil|].
  intros [Hp|Hp]%elem_of_app.
  - destruct s as [|c s]; [by apply elem_of_nil in Hp|]. by apply (segment_pieces_of _ _ _ _ _ (concat segs)) in Hp.
  - rewrite <-byte_len_app in Hp. apply IH in Hp. by rewrite <-(assoc_L (++)) in Hp.
Qed.
Lemma word_pieces_of run p : p ∈ split_word_pieces run → piece_of run p.
Proof. intros Hp. apply (pieces_from_of _ _ []) in Hp. by rewrite split_word_bounds_concat in Hp. Qed.
Lemma while_separators_in p ps : while_separators p ps ∈ p :: ps.
Proof.
  revert p. induction ps as [|q ps IH]; intros p; cbn; [by left|]. case_match; [right; apply IH|by left].
Qed.
(** The piece that ends the motion is one of the pieces. *)
Lemma chosen_piece p ps : (if all_separators p.2 then while_separators p ps else p) ∈ p :: ps.
Proof. case_match; [apply while_separators_in|by left]. Qed.

Lemma adjust_ok t pos b :
  area_valid t → is_char_boundary (text t) pos = true →
  is_char_boundary (text t) (adjust_pos_out_of_elements t pos b) = true ∧
  (if b then adjust_pos_out_of_elements t pos b ≤ pos else pos ≤ adjust_pos_out_of_elements t pos b).
Proof.
  intros ([Hin _] & _) Hp. unfold adjust_pos_out_of_elements.
  destruct (find_element_containing _ _) as [e|] eqn:E; [|by destruct b].
  apply List.find_some in E as [He%list_elem_of_In Hc%contains_pos_spec]. rewrite Forall_forall in Hin.
  destruct (Hin e He) as (? & ? & ?). destruct b; (split; [done|lia]).
Qed.

Lemma beginning_of_previous_word_ok t :
  area_valid t → ∃ p, beginning_of_previous_word t = Some p ∧ is_char_boundary (text t) p = true ∧ p ≤ cursor_pos t.
Proof.
  intros Hok. destruct (slice_to_ok _ _ (proj1 (proj2 Hok))) as (pre & suf & Htext & Hlen & Hs & _).
  unfold beginning_of_previous_word. rewrite Hs. cbn [mbind option_bind].
  destruct (rfind_char _ pre) as [[i ch]|] eqn:E; [|exists 0; split_and!; [done|apply boundary_0|lia]].
  apply rfind_char_Some in E as (u & v & -> & <- & _ & _). unfold slice_to at 1. rewrite split_bytes_len.
  cbn [fmap option_fmap option_map fst mbind option_bind].
  assert (∃ w r, u = w ++ r ∧
    match rfind_char is_whitespace u with Some (i, c) => i + utf8_len c | None => 0 end = byte_len w) as (w & r & -> & ->).
  { destruct (rfind_char is_whitespace u) as [[j c]|] eqn:E; [|by exists [], u].
    apply rfind_char_Some in E as (a & b & -> & <- & _ & _). exists (a ++ [c]), b. rewrite <-(assoc_L (++)).
    split; [done|]. rewrite byte_len_app. cbn. lia. }
  assert (slice ((w ++ r) ++ ch :: v) (byte_len w) (byte_len (w ++ r) + utf8_len ch) = Some (r ++ [ch])) as ->.
  { apply slice_Some. exists w, v. rewrite <-!(assoc_L (++)), !byte_len_app. split_and!; [done..|]. cbn. lia. }
  cbn [mbind option_bind]. assert (Hpos : ∀ p, is_char_boundary (r ++ [ch]) p = true →
    is_char_boundary (text t) (byte_len w + p) = true ∧ byte_len w + p ≤ cursor_pos t).
  { intros p Hp. pose proof (boundary_le _ _ Hp) as Hle. split.
    - rewrite Htext. replace (((w ++ r) ++ ch :: v) ++ suf) with (w ++ (r ++ [ch]) ++ v ++ suf)
        by (by rewrite <-!(assoc_L (++))). by apply boundary_in.
    - rewrite <-Hlen. rewrite !byte_len_app, byte_len_cons in *. cbn in Hle. lia. }
  destruct (rev (split_word_pieces (r ++ [ch]))) as [|p ps] eqn:Ep.
  { destruct (Hpos 0 (boundary_0 _)) as [H1 H2]. rewrite Nat.add_0_r in *. eauto. }
  assert (Hin : piece_of (r ++ [ch]) (if all_separators p.2 then while_separators p ps else p)).
  { apply word_pieces_of. rewrite list_elem_of_In, in_rev, Ep, <-list_elem_of_In. apply chosen_piece. }
  destruct (Hpos _ (proj1 (piece_boundaries _ _ Hin))) as [H1 H2].
  destruct (adjust_ok t _ true Hok H1) as [H3 H4]. eexists. split_and!; [done..|lia].
Qed.

Lemma end_of_next_word_ok t :
  area_valid t → ∃ p, end_of_next_word t = Some p ∧ is_char_boundary (text t) p = true ∧ cursor_pos t ≤ p.
Proof.
  intros Hok. pose proof (proj1 (proj2 Hok)) as Hcur.
  destruct (slice_to_ok _ _ Hcur) as (pre & suf & Htext & Hlen & _ & Hs).
  unfold end_of_next_word. rewrite Hs. cbn [mbind option_bind].
  destruct (find_char _ suf) as [i|] eqn:E; [|eexists; split_and!; [done|apply boundary_len|by apply boundary_le]].
  apply find_char_Some in E as (u & ch & v & -> & <- & _ & _). unfold slice_from at 1. rewrite split_bytes_len.
  cbn [fmap option_fmap option_map snd mbind option_bind].
  assert (∃ run v', ch :: v = run ++ v' ∧
    slice_to (ch :: v) (default (byte_len (ch :: v)) (find_char is_whitespace (ch :: v))) = Some run) as (run & v' & Hv & ->).
  { destruct (find_char is_whitespace (ch :: v)) as [j|] eqn:E.
    - apply find_char_Some in E as (a & c & b & -> & <- & _ & _). exists a, (c :: b). split; [done|].
      cbn [default]. unfold slice_to. cbn. by rewrite split_bytes_len.
    - exists (ch :: v), []. rewrite app_nil_r. split; [done|]. cbn [default from_option id]. unfold slice_to.
      rewrite <-(app_nil_r (ch :: v)) at 2. by rewrite split_bytes_len. }
  cbn [mbind option_bind]. rewrite Hv in Htext.
  assert (Hpos : ∀ p, is_char_boundary run p = true → is_char_boundary (text t) (cursor_pos t + byte_len u + p) = true).
  { intros p Hp. rewrite Htext, <-Hlen, <-byte_len_app, app_assoc. by apply boundary_in. }
  destruct (split_word_pieces run) as [|p ps] eqn:Ep.
  { eexists. split; [done|]. specialize (Hpos 0 (boundary_0 _)). rewrite Nat.add_0_r in Hpos. split; [done|lia]. }
  assert (Hin : piece_of run (if all_separators p.2 then while_separators p ps else p)).
  { apply word_pieces_of. rewrite Ep. apply chosen_piece. }
  apply piece_boundaries in Hin as [_ Hb]. specialize (Hpos _ Hb).
  rewrite Nat.add_assoc in Hpos. destruct (adjust_ok t _ false Hok Hpos) as [H3 H4].
  eexists. split_and!; [done..|lia].
Qed.
(** ** Moving *)
Lemma element_edges_rest t e :
  area_valid t → e ∈ elements t → range_start e < range_end e → at_rest t (range_start e) ∧ at_rest t (range_end e).
Proof.
  intros (Hels & _) He Hlt. destruct (edges_outside _ _ e (elements_ok_apart _ _ Hels) He Hlt).
  destruct Hels as [Hin _]. rewrite Forall_forall in Hin. destruct (Hin e He) as (? & ? & _). by split; split.
Qed.
Lemma rest_0 t : at_rest t 0.
Proof. split; [apply boundary_0|]. apply Forall_forall. lia. Qed.
Lemma rest_len t : area_valid t → at_rest t (byte_len (text t)).
Proof.
  intros ([Hin _] & _). split; [apply boundary_len|]. rewrite Forall_forall in Hin. apply Forall_forall. intros e He.
  destruct (Hin e He) as (_ & Hb & _). apply boundary_le in Hb. lia.
Qed.
Lemma rest_unless_inside t b :
  area_valid t → is_char_boundary (text t) b = true →
  match find_element_containing (elements t) b with
  | Some e => range_start e < b < range_end e ∧ at_rest t (range_start e) ∧ at_rest t (range_end e)
  | None => at_rest t b
  end.
Proof.
  intros Hok Hb. destruct (find_element_containing _ _) as [e|] eqn:E; [|split; [done|by apply find_containing_None]].
  apply List.find_some in E as [He%list_elem_of_In Hc%contains_pos_spec]. split; [done|]. apply element_edges_rest; [done..|lia].
Qed.
Lemma prev_atomic_ok t pos :
  area_valid t → is_char_boundary (text t) pos = true →
  at_rest t (prev_atomic_boundary t pos) ∧ (0 < pos → prev_atomic_boundary t pos < pos) ∧ prev_atomic_boundary t pos ≤ pos.
Proof.
  intros Hok Hpos. unfold prev_atomic_boundary. destruct (Nat.eqb_spec pos 0) as [-> |]; [split; [apply rest_0|lia]|].
  destruct (List.find _ _) as [e|] eqn:E.
  - apply List.find_some in E as [He%list_elem_of_In Hc]. rewrite andb_true_iff, Nat.ltb_lt, Nat.leb_le in Hc.
    split; [|lia]. apply element_edges_rest; [done..|lia].
  - destruct (prev_boundary_spec _ _ Hpos) as (b & -> & Hlt & Hb); [lia|]. pose proof (rest_unless_inside t b Hok Hb) as Hr.
    destruct (find_element_containing _ _); [|split; [done|lia]]. destruct Hr as (? & ? & ?). split; [done|lia].
Qed.
Lemma next_atomic_ok t pos :
  area_valid t → is_char_boundary (text t) pos = true →
  at_rest t (next_atomic_boundary t pos) ∧ (pos < byte_len (text t) → pos < next_atomic_boundary t pos) ∧
  pos ≤ next_atomic_boundary t pos.
Proof.
  intros Hok Hpos. pose proof (boundary_le _ _ Hpos). unfold next_atomic_boundary.
  destruct (Nat.leb_spec (byte_len (text t)) pos); [split; [by apply rest_len|lia]|].
  destruct (List.find _ _) as [e|] eqn:E.
  - apply List.find_some in E as [He%list_elem_of_In Hc]. rewrite andb_true_iff, Nat.ltb_lt, Nat.leb_le in Hc.
    split; [|lia]. apply element_edges_rest; [done..|lia].
  - destruct (next_boundary_spec _ _ Hpos) as (b & -> & Hlt & Hb); [lia|]. pose proof (rest_unless_inside t b Hok Hb) as Hr.
    destruct (find_element_containing _ _); [|split; [done|lia]]. destruct Hr as (? & ? & ?). split; [done|lia].
Qed.

(** A motion moves the cursor and nothing else. *)
Definition motion (t t' : TextArea) : Prop :=
  becomes t t' ∧ text t' = text t ∧ elements t' = elements t ∧ next_element_id t' = next_element_id t ∧
  kill_buffer t' = kill_buffer t.
Lemma motion_to t p c : area_valid t → at_rest t p → motion t (with_col (with_cursor t p) c).
Proof. intros Hok Hp. split; [|done]. by apply becomes_ok, with_col_ok, with_cursor_ok. Qed.
Lemma motion_set_cursor t p : area_valid t → motion t (set_cursor t p).
Proof. intros Hok. split; [by apply becomes_ok, set_cursor_ok|done]. Qed.
Lemma move_to_col_ok t c a b col :
  area_valid t → is_char_boundary (text t) a = true → is_char_boundary (text t) b = true → a ≤ b →
  ∃ t', move_to_display_col_on_line (or_col t c) a b col = Some t' ∧ motion t t'.
Proof.
  intros Hok Ha Hb Hab. unfold move_to_display_col_on_line.
  assert (Ht : text (or_col t c) = text t) by (unfold or_col; by destruct (preferred_col t)). rewrite Ht.
  destruct (slice_total _ _ _ Ha Hb Hab) as [m ->]. cbn [mbind option_bind]. eexists. split; [done|].
  assert (Hok' : area_valid (or_col t c)) by (unfold or_col; by destruct (preferred_col t)).
  split; [by apply becomes_ok, with_cursor_ok; [|apply clamp_nearest_ok, Hok']|].
  unfold or_col. by destruct (preferred_col t).
Qed.
Lemma visual_line_ok t next :
  area_valid t → (∀ i ls r, next i ls = Some r → r ∈ ls) →
  ∃ v, visual_line t next = Some v ∧
    match v with
    | Some (_, Some (a, b)) => is_char_boundary (text t) a = true ∧ is_char_boundary (text t) b = true ∧ a ≤ b
    | _ => True
    end.
Proof.
  intros (Hels & Hcb & Hc) Hnext. unfold visual_line. destruct (wrap_cache t) as [c|] eqn:E; [|by exists None].
  pose proof (cache_lines_ok t c Hc E) as Hl. rewrite Forall_forall in Hl.
  destruct (wrapped_line_index_by_start _ _) as [i|] eqn:Ei; [|by exists None]. destruct (line_index_ok _ _ _ Ei) as (r & Hr & Hle).
  rewrite Hr. cbn [mbind option_bind]. destruct (Hl r (list_elem_of_lookup_2 _ _ _ Hr)) as (Hr1 & _ & _).
  destruct (slice_total _ _ _ Hr1 Hcb Hle) as [m Hm]. rewrite Hm.
  assert (∃ col, match preferred_col t with Some col => Some col | None => width <$> Some m end = Some col) as [col ->]
    by (destruct (preferred_col t); cbn; eauto).
  cbn [mbind option_bind]. eexists. split; [done|]. destruct (next i (cache_lines c)) as [q|] eqn:En; [|done]. cbn.
  apply Hl. by eapply Hnext.
Qed.
Lemma display_col_ok t : area_valid t → ∃ c, match preferred_col t with Some c => Some c | None => current_display_col t end = Some c.
Proof.
  intros (_ & Hcb & _). destruct (preferred_col t); [eauto|]. unfold current_display_col.
  destruct (beginning_of_line_ok t _ Hcb) as (bol & -> & Hle & Hb & _). cbn [mbind option_bind].
  destruct (slice_total _ _ _ Hb Hcb Hle) as [m ->]. cbn. eauto.
Qed.
Lemma move_cursor_up_ok t : area_valid t → ∃ t', move_cursor_up t = Some t' ∧ motion t t'.
Proof.
  intros Hok. pose proof (proj1 (proj2 Hok)) as Hcb. unfold move_cursor_up.
  destruct (visual_line_ok t (λ idx lines, match idx with 0 => None | S i => lines !! i end) Hok) as (v & -> & Hv).
  { intros [|i] ls r; [done|]. apply list_elem_of_lookup_2. }
  cbn [mbind option_bind]. destruct v as [[col [[a b]|]]|].
  - destruct Hv as (? & ? & ?). by apply move_to_col_ok.
  - eexists. split; [done|]. apply motion_to; [done|apply rest_0].
  - destruct (slice_to_ok _ _ Hcb) as (pre & suf & Htext & Hlen & -> & _). cbn [mbind option_bind].
    destruct (rfind_char is_nl pre) as [[nl c]|] eqn:E; [|eexists; split; [done|apply motion_to; [done|apply rest_0]]].
    destruct (display_col_ok t Hok) as [col ->]. cbn [mbind option_bind].
    apply rfind_char_Some in E as (u & v & -> & <- & _ & _).
    assert (slice_to (text t) (byte_len u) = Some u) as ->.
    { unfold slice_to. rewrite Htext, <-(assoc_L (++)), split_bytes_len. done. }
    cbn [mbind option_bind]. destruct (line_start_ok u) as (H1 & H2 & _). rewrite <-(assoc_L (++)) in Htext.
    apply move_to_col_ok; [done| | |done]; rewrite Htext; [by apply boundary_prefix|apply boundary_app_len].
Qed.
Lemma move_cursor_down_ok t : area_valid t → ∃ t', move_cursor_down t = Some t' ∧ motion t t'.
Proof.
  intros Hok. pose proof (proj1 (proj2 Hok)) as Hcb. unfold move_cursor_down.
  destruct (visual_line_ok t (λ idx lines, lines !! (idx + 1)) Hok) as (v & -> & Hv).
  { intros i ls r. apply list_elem_of_lookup_2. }
  cbn [mbind option_bind]. destruct v as [[col [[a b]|]]|].
  - destruct Hv as (? & ? & ?). by apply move_to_col_ok.
  - eexists. split; [done|]. apply motion_to; [done|by apply rest_len].
  - destruct (display_col_ok t Hok) as [col Hcol]. rewrite Hcol. cbn [mbind option_bind].
    assert (Hf : text (or_col t col) = text t ∧ cursor_pos (or_col t col) = cursor_pos t)
      by (unfold or_col; by destruct (preferred_col t)). destruct Hf as [-> ->].
    destruct (end_of_line_ok t _ Hcb) as (e & He & Hle & Hbe & Hbn). unfold end_of_line in He.
    destruct (slice_to_ok _ _ Hcb) as (pre & suf & Htext & Hlen & _ & Hs). rewrite Hs in He |- *. cbn [mbind option_bind] in He |- *.
    destruct (find_char is_nl suf) as [i|] eqn:E.
    + injection He as <-. assert (Hn : is_char_boundary (text t) (i + cursor_pos t + 1) = true).
      { apply Hbn. apply find_char_Some in E as (u & c & v & -> & <- & _ & _). rewrite Htext, !byte_len_app, byte_len_cons.
        pose proof (utf8_len_pos c). lia. }
      destruct (end_of_line_ok t _ Hn) as (e' & He' & Hle' & Hbe' & _). unfold end_of_line in He'.
      destruct (slice_from (text t) (i + cursor_pos t + 1)) as [rest|]; [|done]. cbn [mbind option_bind] in He' |- *.
      injection He' as <-. by apply move_to_col_ok.
    + eexists. split; [done|]. unfold or_col. destruct (preferred_col t); by apply (motion_to t (byte_len (text t)) None); [|apply rest_len].
Qed.
Lemma move_to_bol_ok t up : area_valid t → ∃ t', move_cursor_to_beginning_of_line t up = Some t' ∧ motion t t'.
Proof.
  intros Hok. pose proof (proj1 (proj2 Hok)) as Hcb. unfold move_cursor_to_beginning_of_line.
  destruct (beginning_of_line_ok t _ Hcb) as (b & -> & Hle & Hb & Hb'). cbn [mbind option_bind].
  destruct (up && (cursor_pos t =? b)) eqn:E; [|cbn; eexists; split; [done|by apply motion_set_cursor]].
  apply andb_true_iff in E as [_ ->%Nat.eqb_eq].
  assert (Hb1 : is_char_boundary (text t) (b - 1) = true) by (destruct b; [apply boundary_0|apply Hb'; lia]).
  destruct (beginning_of_line_ok t _ Hb1) as (b2 & -> & _). cbn. eexists. split; [done|by apply motion_set_cursor].
Qed.
Lemma move_to_eol_ok t down : area_valid t → ∃ t', move_cursor_to_end_of_line t down = Some t' ∧ motion t t'.
Proof.
  intros Hok. pose proof (proj1 (proj2 Hok)) as Hcb. unfold move_cursor_to_end_of_line.
  destruct (end_of_line_ok t _ Hcb) as (b & -> & Hle & Hb & Hb'). cbn [mbind option_bind].
  destruct (down && (cursor_pos t =? b)) eqn:E; [|cbn; eexists; split; [done|by apply motion_set_cursor]].
  apply andb_true_iff in E as [_ ->%Nat.eqb_eq].
  assert (Hb1 : is_char_boundary (text t) ((b + 1) `min` byte_len (text t)) = true).
  { destruct (Nat.lt_ge_cases b (byte_len (text t))).
    - replace (_ `min` _) with (b + 1) by lia. by apply Hb'.
    - replace (_ `min` _) with (byte_len (text t)) by lia. apply boundary_len. }
  destruct (end_of_line_ok t _ Hb1) as (b2 & -> & _). cbn. eexists. split; [done|by apply motion_set_cursor].
Qed.
(** ** Elements are atomic *)
(** The elements of [t'] are elements of [t], in their order: the same ids, names
    and characters. *)
Definition same_element (t t' : TextArea) (e e' : TextElement) : Prop :=
  elem_id e' = elem_id e ∧ elem_name e' = elem_name e ∧ payload t' e' = payload t e.
Definition keeps_elements (t t' : TextArea) : Prop :=
  ∃ kept, kept `sublist_of` elements t ∧ Forall2 (same_element t t') kept (elements t').

Lemma keeps_same t t' : text t' = text t → elements t' = elements t → keeps_elements t t'.
Proof.
  intros Ht He. exists (elements t). split; [done|]. rewrite He. apply Forall_Forall2_diag, Forall_true.
  intros e. unfold same_element, payload. by rewrite Ht.
Qed.
Lemma edited_keeps t t' a b s : area_valid t → edited t t' a b s → keeps_elements t t'.
Proof.
  intros ([Hin _] & _) (x & y & z & Htext & Hx & Hy & Htext' & [Hm|(Heq & -> & He)]).
  - exists (List.filter (λ e, negb (gone a b e)) (elements t)). split.
    { clear. induction (elements t) as [|e es IH]; [done|]. cbn. case_match; by constructor. }
    assert (Hin' : Forall (elem_in (text t)) (List.filter (λ e, negb (gone a b e)) (elements t))).
    { rewrite Forall_forall in Hin |- *. intros e [He _]%list_elem_of_In%List.filter_In. by apply Hin, list_elem_of_In. }
    revert Hin'. clear -Hm. induction Hm as [|e e' es es' (H1 & H2 & H3) Hm IH]; intros Hin'; [constructor|].
    apply Forall_cons in Hin' as [(Ha & Hb & Hle) Hin']. constructor; [|auto]. split_and!; [done..|].
    unfold payload. destruct (slice_total _ _ _ Ha Hb Hle) as [p Hp]. rewrite Hp. by apply H3.
  - apply keeps_same; [|done]. rewrite Htext, Htext'. replace y with (@nil Z); [done|].
    symmetry. apply byte_len_nil. rewrite byte_len_app in Hy. lia.
Qed.
(** What the keys do: no panic, the invariant, and no element is changed. *)
Definition sound (t : TextArea) (o : option TextArea) : Prop := ∃ t', o = Some t' ∧ becomes t t' ∧ keeps_elements t t'.
Lemma sound_motion t t' : motion t t' → sound t (Some t').
Proof. intros (Hok & Ht & He & _). exists t'. split_and!; [done..|]. by apply keeps_same. Qed.
Lemma sound_motion_ex t o : (∃ t', o = Some t' ∧ motion t t') → sound t o.
Proof. intros (t' & -> & Hm). by apply sound_motion. Qed.
Lemma sound_id t : area_valid t → sound t (Some t).
Proof. intros Hok. by apply sound_motion; split; [apply becomes_refl|]. Qed.
Lemma insert_str_sound t s : area_valid t → sound t (insert_str t s).
Proof.
  intros Hok. destruct (insert_str_at_ok t (cursor_pos t) s Hok) as (t' & Ht & Hok' & He & _).
  exists t'. split_and!; [done..|]. by eapply edited_keeps.
Qed.
Lemma replace_range_sound t a b s :
  area_valid t → is_char_boundary (text t) a = true → is_char_boundary (text t) b = true → a ≤ b →
  sound t (replace_range t a b s).
Proof.
  intros Hok Ha Hb Hab. destruct (replace_range_ok t a b s Hok Ha Hb Hab) as (t' & Ht & Hok' & He & _).
  exists t'. split_and!; [done..|]. by eapply edited_keeps.
Qed.
Lemma kill_range_sound t a b :
  area_valid t → is_char_boundary (text t) a = true → is_char_boundary (text t) b = true → a ≤ b →
  sound t (kill_range t a b).
Proof.
  intros Hok Ha Hb Hab. destruct (kill_range_ok t a b Hok Ha Hb Hab) as (t' & Ht & Hok' & [[_ ->]|(_ & _ & He & _)]).
  - rewrite Ht. by apply sound_id.
  - exists t'. split_and!; [done..|]. by eapply edited_keeps.
Qed.

Lemma back_targets_ok t n pos :
  area_valid t → is_char_boundary (text t) pos = true → n ≠ 0 → 0 < pos →
  is_char_boundary (text t) (back_targets t n pos) = true ∧ back_targets t n pos < pos.
Proof.
  intros Hok Hpos Hn. revert pos Hpos. induction n as [|n IH]; [done|]. intros pos Hpos Hlt. cbn [back_targets].
  destruct (prev_atomic_ok t pos Hok Hpos) as ([Hb _] & Hl & _).
  destruct (Nat.eqb_spec (prev_atomic_boundary t pos) 0); [split; [done|lia]|].
  destruct n as [|n]; [split; [done|cbn; lia]|]. destruct (IH ltac:(done) _ Hb) as [? ?]; [lia|]. split; [done|lia].
Qed.
Lemma forward_targets_ok t n pos :
  area_valid t → is_char_boundary (text t) pos = true → n ≠ 0 → pos < byte_len (text t) →
  is_char_boundary (text t) (forward_targets t n pos) = true ∧ pos < forward_targets t n pos.
Proof.
  intros Hok Hpos Hn. revert pos Hpos. induction n as [|n IH]; [done|]. intros pos Hpos Hlt. cbn [forward_targets].
  destruct (next_atomic_ok t pos Hok Hpos) as ([Hb _] & Hl & _).
  destruct (Nat.leb_spec (byte_len (text t)) (next_atomic_boundary t pos)); [split; [done|lia]|].
  destruct n as [|n]; [split; [done|cbn; lia]|]. destruct (IH ltac:(done) _ Hb) as [? ?]; [lia|]. split; [done|lia].
Qed.
Lemma delete_backward_sound t n : area_valid t → sound t (delete_backward t n).
Proof.
  intros Hok. pose proof (proj1 (proj2 Hok)) as Hcb. unfold delete_backward.
  destruct ((n =? 0) || (cursor_pos t =? 0)) eqn:E; [by apply sound_id|].
  apply orb_false_iff in E as [E1%Nat.eqb_neq E2%Nat.eqb_neq].
  destruct (back_targets_ok t n _ Hok Hcb E1) as [Hb Hlt]; [lia|]. by apply replace_range_sound; [..|lia].
Qed.
Lemma delete_forward_sound t n : area_valid t → sound t (delete_forward t n).
Proof.
  intros Hok. pose proof (proj1 (proj2 Hok)) as Hcb. unfold delete_forward.
  destruct ((n =? 0) || (byte_len (text t) <=? cursor_pos t)) eqn:E; [by apply sound_id|].
  apply orb_false_iff in E as [E1%Nat.eqb_neq E2%Nat.leb_gt].
  destruct (forward_targets_ok t n _ Hok Hcb E1 E2) as [Hb Hlt]. by apply replace_range_sound; [..|lia].
Qed.

(** *** The commands that kill *)
Inductive KillCommand := DeleteBackwardWord | DeleteForwardWord | KillToEndOfLine | KillToBeginningOfLine.
Definition run_kill (k : KillCommand) (t : TextArea) : option TextArea :=
  match k with
  | DeleteBackwardWord => delete_backward_word t
  | DeleteForwardWord => delete_forward_word t
  | KillToEndOfLine => kill_to_end_of_line t
  | KillToBeginningOfLine => kill_to_beginning_of_line t
  end.
(** Each kills a range at the cursor, or nothing. *)
Lemma kill_command_range k t :
  area_valid t →
  run_kill k t = Some t ∨
  ∃ a b, run_kill k t = kill_range t a b ∧ a ≤ cursor_pos t ≤ b ∧
    is_char_boundary (text t) a = true ∧ is_char_boundary (text t) b = true.
Proof.
  intros Hok. pose proof (proj1 (proj2 Hok)) as Hcb. destruct k; cbn [run_kill].
  - destruct (beginning_of_previous_word_ok t Hok) as (p & Hp & Hb & Hle). unfold delete_backward_word. rewrite Hp.
    right. exists p, (cursor_pos t). split_and!; (done || lia).
  - destruct (end_of_next_word_ok t Hok) as (p & Hp & Hb & Hle). unfold delete_forward_word. rewrite Hp. cbn [mbind option_bind].
    case_match; [right|by left]. exists (cursor_pos t), p. split_and!; (done || lia).
  - destruct (end_of_line_ok t _ Hcb) as (e & He & Hle & Hb & Hb'). unfold kill_to_end_of_line. rewrite He. cbn [mbind option_bind].
    destruct (Nat.eqb_spec (cursor_pos t) e) as [<-|].
    + destruct (Nat.ltb_spec (cursor_pos t) (byte_len (text t))); [|by left]. right. exists (cursor_pos t), (cursor_pos t + 1).
      split_and!; [done|lia|lia|done|auto].
    + right. exists (cursor_pos t), e. split_and!; (done || lia).
  - destruct (beginning_of_line_ok t _ Hcb) as (e & He & Hle & Hb & Hb'). unfold kill_to_beginning_of_line. rewrite He.
    cbn [mbind option_bind]. destruct (Nat.eqb_spec (cursor_pos t) e) as [<-|].
    + destruct (Nat.ltb_spec 0 (cursor_pos t)); [|by left]. right. exists (cursor_pos t - 1), (cursor_pos t).
      split_and!; [done|lia|lia|auto|done].
    + right. exists e, (cursor_pos t). split_and!; (done || lia).
Qed.
Lemma run_kill_sound k t : area_valid t → sound t (run_kill k t).
Proof.
  intros Hok. destruct (kill_command_range k t Hok) as [-> |(a & b & -> & ? & ? & ?)]; [by apply sound_id|].
  apply kill_range_sound; [done..|lia].
Qed.
(** *** Keys *)
Lemma yank_sound t : area_valid t → sound t (yank t).
Proof. intros Hok. unfold yank. case_match; [by apply sound_id|by apply insert_str_sound]. Qed.
Lemma left_sound t : area_valid t → sound t (Some (move_cursor_left t)).
Proof. intros Hok. apply sound_motion, motion_to; [done|]. by apply prev_atomic_ok; [|apply Hok]. Qed.
Lemma right_sound t : area_valid t → sound t (Some (move_cursor_right t)).
Proof. intros Hok. apply sound_motion, motion_to; [done|]. by apply next_atomic_ok; [|apply Hok]. Qed.
Lemma up_sound t : area_valid t → sound t (move_cursor_up t).
Proof. intros. by apply sound_motion_ex, move_cursor_up_ok. Qed.
Lemma down_sound t : area_valid t → sound t (move_cursor_down t).
Proof. intros. by apply sound_motion_ex, move_cursor_down_ok. Qed.
Lemma bol_sound t b : area_valid t → sound t (move_cursor_to_beginning_of_line t b).
Proof. intros. by apply sound_motion_ex, move_to_bol_ok. Qed.
Lemma eol_sound t b : area_valid t → sound t (move_cursor_to_end_of_line t b).
Proof. intros. by apply sound_motion_ex, move_to_eol_ok. Qed.
Lemma word_left_sound t : area_valid t → sound t (p ← beginning_of_previous_word t; Some (set_cursor t p)).
Proof.
  intros Hok. destruct (beginning_of_previous_word_ok t Hok) as (p & -> & _). by apply sound_motion, motion_set_cursor.
Qed.
Lemma word_right_sound t : area_valid t → sound t (p ← end_of_next_word t; Some (set_cursor t p)).
Proof. intros Hok. destruct (end_of_next_word_ok t Hok) as (p & -> & _). by apply sound_motion, motion_set_cursor. Qed.
Lemma backward_word_sound t : area_valid t → sound t (delete_backward_word t).
Proof. apply (run_kill_sound DeleteBackwardWord). Qed.
Lemma forward_word_sound t : area_valid t → sound t (delete_forward_word t).
Proof. apply (run_kill_sound DeleteForwardWord). Qed.
Lemma kill_eol_sound t : area_valid t → sound t (kill_to_end_of_line t).
Proof. apply (run_kill_sound KillToEndOfLine). Qed.
Lemma kill_bol_sound t : area_valid t → sound t (kill_to_beginning_of_line t).
Proof. apply (run_kill_sound KillToBeginningOfLine). Qed.
#[local] Hint Resolve sound_id insert_str_sound delete_backward_sound delete_forward_sound yank_sound left_sound
  right_sound up_sound down_sound bol_sound eol_sound word_left_sound word_right_sound backward_word_sound
  forward_word_sound kill_eol_sound kill_bol_sound : editor.

Lemma input_sound windows t event : area_valid t → sound t (input windows t event).
Proof.
  intros Hok. unfold input, input_char.
  destruct (key_kind event), (code event); auto with editor; repeat case_match; auto with editor.
Qed.
(** C20: Whatever key is pressed, in an editor whose elements are in bounds and
    apart, whose cursor is on a char boundary and whose cache is that of the text,
    there is no panic, the editor is such an editor again, and an element that is
    still there has its id and exactly its characters: keys edit around elements or
    delete them whole.  This holds also when the cursor is inside an element, where
    marking a mention or a slash command around the cursor leaves it
    ([marking_leaves_cursor_inside]); and no key moves a cursor that is outside
    every element into one. *)
Theorem keys_keep_elements_atomic windows t event :
  area_valid t →
  ∃ t', input windows t event = Some t' ∧ area_valid t' ∧ keeps_elements t t' ∧ (rests t → rests t').
Proof.
  intros Hok. destruct (input_sound windows t event Hok) as (t' & Ht & [Hv Hr] & Hk). by exists t'.
Qed.

(** ** All calls *)
Inductive Op :=
| OpInput (windows : bool) (event : KeyEvent)
| OpInsertStr (s : rstring) | OpInsertStrAt (pos : nat) (s : rstring)
| OpReplaceRange (a b : nat) (s : rstring)
| OpSetText (s : rstring) | OpSetTextWithElements (s : rstring) (ranges : list (nat * nat))
| OpSetCursor (pos : nat)
| OpDeleteBackward (n : nat) | OpDeleteForward (n : nat) | OpKill (k : KillCommand) | OpYank
| OpInsertElement (s : rstring) | OpInsertNamedElement (s id : rstring)
| OpReplaceElementById (id s : rstring) | OpUpdateNamedElement (id s : rstring)
| OpReplacePayload (old new_ : rstring)
| OpAddElementRange (a b : nat) | OpRemoveElementRange (a b : nat)
| OpWrap (w : nat) | OpCursorPos (w h scroll : nat)
| OpRender (w h scroll : nat) (highlights : list (nat * nat))
| OpRenderMasked (w h scroll : nat) (mask_char : char).
Definition run_op (t : TextArea) (op : Op) : option TextArea :=
  match op with
  | OpInput windows event => input windows t event
  | OpInsertStr s => insert_str t s
  | OpInsertStrAt pos s => insert_str_at t pos s
  | OpReplaceRange a b s => replace_range t a b s
  | OpSetText s => Some (set_text_clearing_elements t s)
  | OpSetTextWithElements s ranges => Some (set_text_with_elements t s ranges)
  | OpSetCursor pos => Some (set_cursor t pos)
  | OpDeleteBackward n => delete_backward t n
  | OpDeleteForward n => delete_forward t n
  | OpKill k => run_kill k t
  | OpYank => yank t
  | OpInsertElement s => snd <$> insert_element t s
  | OpInsertNamedElement s id => insert_named_element t s id
  | OpReplaceElementById id s => snd <$> replace_element_by_id t id s
  | OpUpdateNamedElement id s => snd <$> update_named_element_by_id t id s
  | OpReplacePayload old new_ => snd <$> replace_element_payload t old new_
  | OpAddElementRange a b => Some (add_element_range t a b).2
  | OpRemoveElementRange a b => Some (remove_element_range t a b).2
  | OpWrap w => snd <$> wrapped_lines t w
  | OpCursorPos w h scroll => snd <$> cursor_pos_with_state t w h scroll
  | OpRender w h scroll hs => snd <$> render_ref_styled_with_highlights t w h scroll hs
  | OpRenderMasked w h scroll c => snd <$> render_ref_masked t w h scroll c
  end.
(** What the editor asks of its callers: ranges to replace or to highlight are at
    char boundaries, and so are the elements of a new text, which do not overlap. *)
Definition op_ok (t : TextArea) (op : Op) : Prop :=
  match op with
  | OpReplaceRange a b _ => is_char_boundary (text t) a = true ∧ is_char_boundary (text t) b = true ∧ a ≤ b
  | OpSetTextWithElements s ranges => ranges_ok s ranges
  | OpRender _ _ _ hs => Forall (λ r, is_char_boundary (text t) r.1 = true ∧ is_char_boundary (text t) r.2 = true) hs
  | _ => True
  end.

(** A range is made an element around the cursor. *)
Definition marks_cursor (t : TextArea) (op : Op) : Prop :=
  match op with
  | OpAddElementRange a b => (marked_range t a b).1 < cursor_pos t ∧ cursor_pos t < (marked_range t a b).2
  | _ => False
  end.

Definition runs_ok (t : TextArea) (o : option TextArea) : Prop := ∃ t', o = Some t' ∧ becomes t t'.
Lemma sound_runs t o : sound t o → runs_ok t o.
Proof. intros (t' & Ho & Hok & _). by exists t'. Qed.
Lemma pair_runs {A} t (o : option (A * TextArea)) :
  (∃ r t', o = Some (r, t') ∧ becomes t t') → runs_ok t (snd <$> o).
Proof. intros (r & t' & -> & Hok). by exists t'. Qed.

Lemma overlays_ok s a b rs :
  is_char_boundary s a = true → is_char_boundary s b = true →
  Forall (λ r, is_char_boundary s r.1 = true ∧ is_char_boundary s r.2 = true) rs → is_Some (overlays s a b rs).
Proof.
  intros Ha Hb. induction 1 as [|[p q] rs [Hp Hq] Hrs [os IH]]; cbn [overlays]; [done|]. cbn [fst snd] in *.
  assert (is_Some (overlay s a b (p, q))) as [o ->].
  { unfold overlay. cbn [fst snd]. destruct (Nat.leb_spec (q `min` b) (p `max` a)); [done|].
    assert (H1 : is_char_boundary s (p `max` a) = true) by (destruct (Nat.max_spec p a) as [[_ ->]|[_ ->]]; done).
    assert (H2 : is_char_boundary s (q `min` b) = true) by (destruct (Nat.min_spec q b) as [[_ ->]|[_ ->]]; done).
    destruct (slice_total _ _ _ H1 H2) as [m ->]; [lia|]. destruct (slice_total _ _ _ Ha H1) as [m' ->]; [lia|]. done. }
  cbn [mbind option_bind]. rewrite IH. done.
Qed.
Lemma render_lines_ok t lines hs :
  area_valid t → Forall (line_ok (text t)) lines →
  Forall (λ r, is_char_boundary (text t) r.1 = true ∧ is_char_boundary (text t) r.2 = true) hs →
  is_Some (render_lines t lines hs) ∧ ∀ c, is_Some (render_lines_masked t lines c).
Proof.
  intros ([Hin _] & _) Hl Hhs.
  assert (Hrs : Forall (λ r, is_char_boundary (text t) r.1 = true ∧ is_char_boundary (text t) r.2 = true)
                  (((λ e, (range_start e, range_end e)) <$> elements t) ++ hs)).
  { apply Forall_app. split; [|done]. apply Forall_fmap. eapply Forall_impl; [exact Hin|]. by intros e (? & ? & _). }
  induction Hl as [|[a b] lines (Ha & Hb & Hle) Hl [[rows IH] IHm]]; [done|]. cbn [fst snd] in *.
  cbn [render_lines render_lines_masked]. destruct (slice_total _ _ _ Ha Hb Hle) as [m ->]. cbn [mbind option_bind].
  destruct (overlays_ok _ _ _ _ Ha Hb Hrs) as [os ->]. cbn [mbind option_bind]. rewrite IH. split; [done|].
  intros c. destruct (IHm c) as [rows' ->]. done.
Qed.
Lemma render_ok t w h scroll hs :
  area_valid t → Forall (λ r, is_char_boundary (text t) r.1 = true ∧ is_char_boundary (text t) r.2 = true) hs →
  runs_ok t (snd <$> render_ref_styled_with_highlights t w h scroll hs) ∧
  ∀ c, runs_ok t (snd <$> render_ref_masked t w h scroll c).
Proof.
  intros Hok Hhs. unfold render_ref_styled_with_highlights, render_ref_masked, visible_window.
  destruct (wrapped_lines_ok t w Hok) as (lines & t' & -> & Hok' & _ & Hl & _). cbn [mbind option_bind].
  set (win := take _ _). assert (Hwin : Forall (line_ok (text t)) win) by (by apply Forall_take, Forall_drop).
  destruct (render_lines_ok t win hs Hok Hwin Hhs) as [[rows ->] Hm]. cbn. split; [by exists t'|].
  intros c. destruct (Hm c) as [rows' ->]. by exists t'.
Qed.
Lemma cursor_pos_runs t w h scroll : area_valid t → runs_ok t (snd <$> cursor_pos_with_state t w h scroll).
Proof.
  intros Hok. unfold cursor_pos_with_state.
  destruct (wrapped_lines_ok t w Hok) as (lines & t' & -> & Hok' & _ & Hl & _). cbn [mbind option_bind].
  destruct (wrapped_line_index_by_start _ _) as [i|] eqn:E; [|by exists t'].
  destruct (line_index_ok _ _ _ E) as (r & Hr & Hle). rewrite Hr. cbn [mbind option_bind].
  rewrite Forall_forall in Hl. destruct (Hl r (list_elem_of_lookup_2 _ _ _ Hr)) as (Hr1 & _ & _).
  destruct (slice_total _ _ _ Hr1 (proj1 (proj2 Hok)) Hle) as [m ->]. by exists t'.
Qed.

Lemma op_runs t op :
  area_valid t → op_ok t op →
  ∃ t', run_op t op = Some t' ∧ area_valid t' ∧ (¬ marks_cursor t op → rests t → rests t').
Proof.
  intros Hok Hop. enough (runs_ok t (run_op t op) ∨ ∃ a b, op = OpAddElementRange a b) as [(t' & Ht & Hv & Hr)|(a & b & ->)].
  { exists t'. auto. }
  { eexists. split; [done|]. by apply add_element_range_ok. }
  destruct op as [win ev|s|pos s|a b s|s|s rs|pos|n|n|k| |s|s id|id s|id s|o n|a b|a b|w|w h sc|w h sc hs|w h sc c];
    cbn [run_op op_ok] in *; try (right; by do 2 eexists); left.
  - by apply sound_runs, input_sound.
  - by apply sound_runs, insert_str_sound.
  - destruct (insert_str_at_ok t pos s Hok) as (t' & -> & Hok' & _). by exists t'.
  - destruct Hop as (? & ? & ?). by apply sound_runs, replace_range_sound.
  - eexists. split; [done|]. by apply becomes_ok, (set_text_inner_ok t s None).
  - eexists. split; [done|]. by apply becomes_ok, (set_text_inner_ok t s (Some rs)).
  - eexists. split; [done|]. by apply becomes_ok, set_cursor_ok.
  - by apply sound_runs, delete_backward_sound.
  - by apply sound_runs, delete_forward_sound.
  - by apply sound_runs, run_kill_sound.
  - by apply sound_runs, yank_sound.
  - apply pair_runs. destruct (insert_element_ok t s Hok) as (i & t' & ? & ?). eauto using becomes_ok.
  - destruct (insert_named_element_ok t s id Hok) as (t' & -> & ?). eexists. eauto using becomes_ok.
  - by apply pair_runs, replace_element_by_id_ok.
  - by apply pair_runs, update_named_element_ok.
  - apply pair_runs. destruct (replace_element_payload_ok t o n Hok) as (r & t' & ? & ? & _). eauto.
  - eexists. split; [done|]. by apply remove_element_range_ok.
  - apply pair_runs. destruct (wrapped_lines_ok t w Hok) as (ls & t' & ? & ? & _). eauto.
  - by apply cursor_pos_runs.
  - by apply render_ok.
  - by apply (render_ok t w h sc []); [|constructor].
Qed.

(** A session of the editor; [quiet_step] are the calls that mark no range around
    the cursor. *)
Inductive editor_step : TextArea → TextArea → Prop :=
| EditorStep t op t' : op_ok t op → run_op t op = Some t' → editor_step t t'.
Inductive quiet_step : TextArea → TextArea → Prop :=
| QuietStep t op t' : op_ok t op → ¬ marks_cursor t op → run_op t op = Some t' → quiet_step t t'.
Lemma new_ok : area_ok new.
Proof. split; [|constructor]. split_and!; [split; constructor|done|done]. Qed.

Lemma session_valid t : rtc editor_step new t → area_valid t.
Proof.
  refine (rtc_ind_r area_valid new (proj1 new_ok) _ t). intros t1 t2 _ [t0 op t' Hop Hrun] IH.
  destruct (op_runs t0 op IH Hop) as (t3 & H3 & H4 & _). congruence.
Qed.
Lemma quiet_session_rests t : rtc quiet_step new t → area_ok t.
Proof.
  refine (rtc_ind_r area_ok new new_ok _ t). intros t1 t2 _ [t0 op t' Hop Hq Hrun] [Hv Hr].
  destruct (op_runs t0 op Hv Hop) as (t3 & H3 & H4 & H5). assert (t3 = t') as -> by congruence. split; auto.
Qed.

(** C19: An editor that starts empty is sound after any calls, keys included: its
    elements are in bounds and apart, the cursor is on a char boundary, the wrapping
    cache is that of the text, and the next call does not panic and leaves all this
    true.  The cursor is moreover outside every element in a session in which no
    range was made an element around the cursor ([quiet_step]); the composer does
    mark mentions and slash commands around the cursor, and then the cursor is inside
    ([marking_leaves_cursor_inside]), but no other call puts it there.  Callers owe
    ([op_ok]) that the ranges to replace or highlight are at char boundaries, and
    so are the elements given with a new text, which do not overlap. *)
Theorem editor_always_sound t op :
  rtc editor_step new t → op_ok t op →
  area_valid t ∧ (rtc quiet_step new t → rests t) ∧
  ∃ t', run_op t op = Some t' ∧ area_valid t' ∧ (¬ marks_cursor t op → rests t → rests t').
Proof.
  intros Hr Hop. pose proof (session_valid t Hr) as Hok.
  split_and!; [done|intros Hq; by apply quiet_session_rests|by apply op_runs].
Qed.
(** ** Killing and yanking *)
Lemma split_unique (x z x' z' : rstring) : x ++ z = x' ++ z' → byte_len x = byte_len x' → x = x' ∧ z = z'.
Proof.
  intros Heq Hl. destruct (split_order x z x' z' Heq) as (m & -> & ->); [lia|]. rewrite byte_len_app in Hl.
  rewrite (byte_len_nil m) by lia. by rewrite app_nil_r.
Qed.
(** What a command killed, yanking brings back, with the cursor after it, unless
    the command did nothing. *)
Theorem yank_undoes_kill k t t1 :
  area_ok t → run_kill k t = Some t1 → text t1 ≠ text t →
  ∃ t2, yank t1 = Some t2 ∧ text t2 = text t ∧ area_ok t2 ∧
    slice (text t) (cursor_pos t1) (cursor_pos t2) = Some (kill_buffer t1) ∧
    cursor_pos t1 ≤ cursor_pos t ≤ cursor_pos t2.
Proof.
  intros [Hok Hre] Hrun Hne. destruct (kill_command_range k t Hok) as [E|(a & b & E & Hab & Ha & Hb)].
  { rewrite E in Hrun. by injection Hrun as <-. }
  rewrite E in Hrun. destruct (expand_ok t (a, b) (proj1 Hok) Ha Hb) as (Hw & _); [cbn; lia|].
  destruct (kill_range_ok t a b Hok Ha Hb) as (t' & Hk & Hbe & Hcase); [lia|]. rewrite Hk in Hrun. injection Hrun as ->.
  pose proof (ok_becomes t t1 (conj Hok Hre) Hbe) as Hok1.
  destruct Hcase as [[_ ->]|(Hlt & Hs & (x & y & z & Ht & Hx & Hy & Ht1 & _) & Hc)]; [done|].
  unfold within_range in Hw. cbn [fst snd] in Hw.
  assert (Hcur : cursor_pos t1 = byte_len x).
  { rewrite (Hc Hre). unfold cursor_after_edit. repeat case_match; breflect; lia. }
  assert (y = kill_buffer t1) as ->.
  { rewrite Ht, <-Hx, <-Hy, slice_mid in Hs. by injection Hs. }
  unfold yank. destruct (kill_buffer t1) as [|c kb] eqn:Ek.
  { rewrite app_nil_r in Hy. lia. }
  cbn [is_empty]. destruct (insert_at_cursor_ok t1 (c :: kb) Hok1) as (t2 & H2 & Hok2 & (x2 & y2 & z2 & Ht1' & Hx2 & Hy2 & Ht2 & _) & Hc2 & _).
  exists t2. assert (y2 = []) as ->. { apply byte_len_nil. rewrite byte_len_app in Hy2. lia. }
  destruct (split_unique x2 z2 x z) as [-> ->]; [cbn in Ht1, Ht1'; congruence|lia|].
  split_and!; [done|congruence|done| |lia|].
  - rewrite Hc2, Hcur, Ht, <-byte_len_app. apply slice_mid.
  - rewrite Hc2, Hcur. rewrite byte_len_app in Hy. lia.
Qed.

(** Backspace takes something away and moves the cursor back: holding it empties
    the text before the cursor. *)
Lemma backspace_progress t :
  area_ok t → 0 < cursor_pos t →
  ∃ t', delete_backward t 1 = Some t' ∧ byte_len (text t') < byte_len (text t) ∧ cursor_pos t' < cursor_pos t.
Proof.
  intros [Hok Hre] Hpos. pose proof (proj1 (proj2 Hok)) as Hcb.
  destruct (back_targets_ok t 1 _ Hok Hcb) as [Hb Hlt]; [done..|].
  unfold delete_backward. rewrite (proj2 (Nat.eqb_neq (cursor_pos t) 0)) by lia. cbn [Nat.eqb orb].
  destruct (expand_ok t (back_targets t 1 (cursor_pos t), cursor_pos t) (proj1 Hok) Hb Hcb) as (Hw & _); [cbn [fst snd]; lia|].
  destruct (replace_range_ok t _ _ [] Hok Hb Hcb) as (t' & Ht & _ & (x & y & z & Htext & Hx & Hy & Htext' & _) & Hc & _); [lia|].
  unfold within_range in Hw. cbn [fst snd] in Hw. exists t'. split; [done|]. split.
  - rewrite Htext, Htext', !byte_len_app in *. change (byte_len []) with 0. lia.
  - rewrite Hc by (done || (left; lia)). unfold cursor_after_edit. change (byte_len []) with 0. repeat case_match; breflect; lia.
Qed.

(** ** On the screen *)
(** The line of the cursor is among the lines that are drawn. *)
Theorem cursor_line_drawn t h lines scroll i :
  0 < h → (Z.of_nat (length lines) < 65536)%Z → wrapped_line_index_by_start lines (cursor_pos t) = Some i →
  let s := effective_scroll t h lines scroll in
  s ≤ i ∧ i < (s + h) `min` as_u16 (length lines).
Proof.
  intros Hh Hlen Hi. destruct (line_index_ok _ _ _ Hi) as (r & Hr & _). apply lookup_lt_Some in Hr.
  assert (Hu : ∀ n, n ≤ length lines → as_u16 n = n) by (intros n Hn; unfold as_u16; rewrite Z.mod_small by lia; lia).
  unfold effective_scroll. rewrite Hi. cbn [default from_option id]. rewrite !Hu by lia.
  destruct (Nat.leb_spec (length lines) h); [lia|].
  destruct (Nat.ltb_spec i (scroll `min` (length lines - h))); [lia|].
  destruct (Nat.leb_spec (scroll `min` (length lines - h) + h) i); lia.
Qed.
End Editor.
(** ** An instance: every char is a grapheme of one column, a text is one word
    and one line. *)
Definition plain_unicode : Unicode := {|
  prev_boundary s n := Ok (if n =? 0 then None else Some (boundary_before s (n - 1)));
  next_boundary s n := Ok (if byte_len s <=? n then None else Some (boundary_after s (byte_len s - S n) (S n)));
  graphemes s := (λ c, [c]) <$> s;
  width s := length s;
  split_word_bounds s := [s];
  wrap s w := [Borrowed 0 (byte_len s)]
|}.
Lemma boundary_before_le s n : boundary_before s n ≤ n.
Proof. induction n as [|n IH]; cbn [boundary_before]; case_match; lia. Qed.
Lemma boundary_after_ge s fuel n : n ≤ boundary_after s fuel n.
Proof.
  revert n. induction fuel as [|fuel IH]; intros n; cbn [boundary_after]; case_match; try lia. specialize (IH (S n)). lia.
Qed.
#[local] Instance plain_unicode_laws : UnicodeLaws plain_unicode.
Proof.
  split.
  - intros s n _ Hn. cbn. destruct (Nat.eqb_spec n 0); [lia|]. eexists. split; [done|]. split; [|apply boundary_before_ok].
    pose proof (boundary_before_le s (n - 1)). lia.
  - intros s n _ Hn. cbn. destruct (Nat.leb_spec (byte_len s) n); [lia|]. eexists. split; [done|].
    split; [|apply boundary_after_ok; lia]. pose proof (boundary_after_ge s (byte_len s - S n) (S n)). lia.
  - intros s. cbn. induction s as [|c s IH]; [done|]. cbn. by rewrite IH.
  - intros s. cbn. apply app_nil_r.
  - intros s w a n [[= -> ->]|Hn%elem_of_nil]%elem_of_cons; [|done]. split; [apply boundary_0|apply boundary_len].
Qed.
#[local] Existing Instance plain_unicode.

(** "ab [img] cd" with the placeholder as an element and the cursor at the end. *)
Definition demo_session : list Op :=
  [ OpInsertStr $"ab "; OpInsertElement $"[img]"; OpInsertStr $" cd"; OpWrap 10 ].
Definition demo_area : TextArea :=
  default new (fold_left (λ o op, o ≫= λ t, run_op t op) demo_session (Some new)).
Definition demo_key (c : char) (mods : Z) : KeyEvent := {| code := KChar c; modifiers := mods; key_kind := Press |}.
Lemma demo_reached : rtc quiet_step new demo_area.
Proof.
  eapply rtc_l; [eapply (QuietStep _ (OpInsertStr $"ab ")); [exact I|by intros []|vm_compute; reflexivity]|].
  eapply rtc_l; [eapply (QuietStep _ (OpInsertElement $"[img]")); [exact I|by intros []|vm_compute; reflexivity]|].
  eapply rtc_l; [eapply (QuietStep _ (OpInsertStr $" cd")); [exact I|by intros []|vm_compute; reflexivity]|].
  eapply rtc_l; [eapply (QuietStep _ (OpWrap 10)); [exact I|by intros []|vm_compute; reflexivity]|].
  vm_compute. apply rtc_refl.
Qed.
Lemma quiet_session t t' : rtc quiet_step t t' → rtc editor_step t t'.
Proof.
  induction 1 as [t|t1 t2 t3 [t0 op t' Hop _ Hrun] _ IH]; [done|]. eapply rtc_l; [by econstructor|done].
Qed.
Lemma demo_ok : area_ok demo_area.
Proof. apply quiet_session_rests, demo_reached. Qed.

(** Backspace behind the placeholder takes all of it. *)
Definition demo_cut : option TextArea :=
  t ← delete_backward demo_area 3; delete_backward t 1.
Example placeholder_deleted_whole :
  (λ t, (text t, elements t)) <$> demo_cut = Some ($"ab ", []).
Proof. vm_compute. reflexivity. Qed.

(** A mention marked around the cursor, then a key. *)
Definition demo_marked : TextArea := (add_element_range (set_cursor demo_area 1) 0 2).2.
Lemma demo_marked_valid : area_valid demo_marked.
Proof. apply add_element_range_ok, set_cursor_ok, demo_ok. Qed.

Lemma keys_keep_elements_atomic_witness :
  List.find (contains_pos (cursor_pos demo_marked)) (elements demo_marked) ≠ None ∧
  ∃ t', input false demo_marked (demo_key 119 KM_CONTROL) = Some t' ∧ area_valid t' ∧
    keeps_elements demo_marked t' ∧ (rests demo_marked → rests t').
Proof.
  split; [vm_compute; discriminate|].
  apply (keys_keep_elements_atomic false demo_marked (demo_key 119 KM_CONTROL) demo_marked_valid).
Defined.
Lemma editor_always_sound_witness :
  area_valid demo_area ∧ (rtc quiet_step new demo_area → rests demo_area) ∧
  ∃ t', run_op demo_area (OpReplaceRange 3 5 $"x") = Some t' ∧ area_valid t' ∧
    (¬ marks_cursor demo_area (OpReplaceRange 3 5 $"x") → rests demo_area → rests t').
Proof.
  apply (editor_always_sound demo_area (OpReplaceRange 3 5 $"x") (quiet_session _ _ demo_reached)).
  split; [vm_compute; reflexivity|]. split; [vm_compute; reflexivity|]. vm_compute. lia.
Defined.
Definition demo_killed : TextArea := default new (run_kill DeleteBackwardWord demo_area).
Lemma yank_undoes_kill_witness :
  ∃ t2, yank demo_killed = Some t2 ∧ text t2 = text demo_area ∧ area_ok t2 ∧
    slice (text demo_area) (cursor_pos demo_killed) (cursor_pos t2) = Some (kill_buffer demo_killed) ∧
    cursor_pos demo_killed ≤ cursor_pos demo_area ≤ cursor_pos t2.
Proof.
  apply (yank_undoes_kill DeleteBackwardWord demo_area demo_killed demo_ok); [vm_compute; reflexivity|].
  vm_compute. discriminate.
Defined.
Lemma cursor_line_drawn_witness :
  effective_scroll demo_area 1 [(0, 4); (4, 9); (9, 12)] 0 ≤ 2 ∧
  2 < (effective_scroll demo_area 1 [(0, 4); (4, 9); (9, 12)] 0 + 1) `min` as_u16 3.
Proof. apply (cursor_line_drawn demo_area 1 [(0, 4); (4, 9); (9, 12)] 0 2); [lia|cbn; lia|vm_compute; reflexivity]. Defined.

(** A range made an element around the cursor leaves the cursor inside it. *)
Lemma marking_leaves_cursor_inside :
  ∃ t, rtc editor_step new t ∧ at_rest t (cursor_pos t) ∧
    let t' := (add_element_range t 0 5).2 in
    List.find (contains_pos (cursor_pos t')) (elements t') ≠ None.
Proof.
  eexists. split.
  - eapply rtc_l; [eapply (EditorStep _ (OpInsertStr $"/plan x")); [exact I|vm_compute; reflexivity]|].
    eapply rtc_l; [eapply (EditorStep _ (OpSetCursor 2)); [exact I|vm_compute; reflexivity]|]. apply rtc_refl.
  - split; [split; [vm_compute; reflexivity|constructor]|]. vm_compute. discriminate.
Qed.
End TextTheorems.
