(* ===== verification/StreamDisplay.v ===== *)
(** * StreamDisplay: showing a streamed answer line by line

    Models, of codex-rs/tui/src, the collector of source lines
    (markdown_stream.rs), the queue of rendered lines (streaming/mod.rs), the
    controllers that render what is complete and hand it out (controller.rs), the
    policy that decides how fast (chunking.rs) and the tick that ties them
    together (commit_tick.rs).

    Rendering markdown (tui/src/markdown.rs, which leaves the work to a parser
    crate) is not modelled: the operations take any function from the width and
    the source to lines, of which the text is kept, and nothing is assumed of it
    but what a theorem says of the source of one stream.  Times are milliseconds. *)

From S2P Require Import Prelude BytePos.

Module Display.
Import Bytes.

(** ** The collector *)
Record MarkdownStreamCollector := { buffer : rstring; committed_source_len : nat; collector_width : option nat }.
Definition new_collector (w : option nat) : MarkdownStreamCollector :=
  {| buffer := []; committed_source_len := 0; collector_width := w |}.
Definition clear_collector (c : MarkdownStreamCollector) : MarkdownStreamCollector := new_collector (collector_width c).
Definition collector_push (c : MarkdownStreamCollector) (delta : rstring) : MarkdownStreamCollector :=
  {| buffer := buffer c ++ delta; committed_source_len := committed_source_len c; collector_width := collector_width c |}.
Definition collector_set_width (c : MarkdownStreamCollector) (w : option nat) : MarkdownStreamCollector :=
  {| buffer := buffer c; committed_source_len := committed_source_len c; collector_width := w |}.
(** The outer [option] is a panic. *)
Definition commit_complete_source (c : MarkdownStreamCollector) : option (option rstring * MarkdownStreamCollector) :=
  match rfind_char (λ x, (x =? NL)%Z) (buffer c) with
  | None => Some (None, c)
  | Some (idx, _) =>
      let commit_end := idx + 1 in
      if commit_end <=? committed_source_len c then Some (None, c)
      else
        out ← slice (buffer c) (committed_source_len c) commit_end;
        Some (Some out, {| buffer := buffer c; committed_source_len := commit_end; collector_width := collector_width c |})
  end.
Definition finalize_and_drain_source (c : MarkdownStreamCollector) : option (rstring * MarkdownStreamCollector) :=
  if byte_len (buffer c) <=? committed_source_len c then Some ([], clear_collector c)
  else
    out ← slice_from (buffer c) (committed_source_len c);
    Some (if ends_with [NL] out then out else out ++ [NL], clear_collector c).

(** ** The queue *)
Record QueuedLine := { line : rstring; enqueued_at : Z }.
Record StreamState := { collector : MarkdownStreamCollector; queue : list QueuedLine; has_seen_delta : bool }.
Definition new_state (w : option nat) : StreamState := {| collector := new_collector w; queue := []; has_seen_delta := false |}.
Definition with_queue (s : StreamState) (q : list QueuedLine) : StreamState :=
  {| collector := collector s; queue := q; has_seen_delta := has_seen_delta s |}.
Definition with_collector (s : StreamState) (c : MarkdownStreamCollector) : StreamState :=
  {| collector := c; queue := queue s; has_seen_delta := has_seen_delta s |}.
Definition state_clear (s : StreamState) : StreamState :=
  {| collector := clear_collector (collector s); queue := []; has_seen_delta := false |}.
Definition step (s : StreamState) : list rstring * StreamState :=
  match queue s with
  | q :: qs => ([line q], with_queue s qs)
  | [] => ([], s)
  end.
Definition drain_n (s : StreamState) (max_lines : nat) : list rstring * StreamState :=
  let fin := max_lines `min` length (queue s) in
  (line <$> take fin (queue s), with_queue s (drop fin (queue s))).
Definition enqueue (s : StreamState) (now : Z) (lines : list rstring) : StreamState :=
  with_queue s (queue s ++ ((λ l, {| line := l; enqueued_at := now |}) <$> lines)).
Definition saturating_duration_since (now t : Z) : Z := Z.max 0 (now - t).
Definition oldest_queued_age (s : StreamState) (now : Z) : option Z :=
  (λ q, saturating_duration_since now (enqueued_at q)) <$> head (queue s).

(** ** The core of a stream *)
Record StreamCore := {
  state : StreamState;
  core_width : option nat;
  raw_source : rstring;
  rendered_lines : list rstring;
  enqueued_len : nat;
  emitted_len : nat
}.
Definition new_core (w : option nat) : StreamCore :=
  {| state := new_state w; core_width := w; raw_source := []; rendered_lines := []; enqueued_len := 0; emitted_len := 0 |}.
Definition with_state (c : StreamCore) (s : StreamState) : StreamCore :=
  {| state := s; core_width := core_width c; raw_source := raw_source c; rendered_lines := rendered_lines c;
     enqueued_len := enqueued_len c; emitted_len := emitted_len c |}.
Definition with_lens (c : StreamCore) (enqueued emitted : nat) : StreamCore :=
  {| state := state c; core_width := core_width c; raw_source := raw_source c; rendered_lines := rendered_lines c;
     enqueued_len := enqueued; emitted_len := emitted |}.
(** [&lines[a..b]] *)
Definition lines_slice (l : list rstring) (a b : nat) : option (list rstring) :=
  if (a <=? b) && (b <=? length l) then Some (take (b - a) (drop a l)) else None.

Section Stream.
(** [append_markdown] with the working directory of the session. *)
Variable render : option nat → rstring → list rstring.

Definition recompute_render (c : StreamCore) : StreamCore :=
  {| state := state c; core_width := core_width c; raw_source := raw_source c;
     rendered_lines := render (core_width c) (raw_source c); enqueued_len := enqueued_len c; emitted_len := emitted_len c |}.
Definition clear_core_queue (c : StreamCore) : StreamCore :=
  with_lens (with_state c (with_queue (state c) [])) (emitted_len c) (emitted_len c).
Definition rebuild_queue_from_render (c : StreamCore) (now : Z) : option StreamCore :=
  let target_len := length (rendered_lines c) `max` emitted_len c in
  let s := with_queue (state c) [] in
  s ← (if emitted_len c <? target_len
       then ls ← lines_slice (rendered_lines c) (emitted_len c) target_len; Some (enqueue s now ls) else Some s);
  Some (with_lens (with_state c s) target_len (emitted_len c)).
Definition sync_queue_to_render (c : StreamCore) (now : Z) : option (bool * StreamCore) :=
  let target_len := length (rendered_lines c) `max` emitted_len c in
  if target_len <? enqueued_len c then
    c ← rebuild_queue_from_render c now; Some (0 <? length (queue (state c)), c)
  else if target_len =? enqueued_len c then Some (false, c)
  else
    ls ← lines_slice (rendered_lines c) (enqueued_len c) target_len;
    Some (true, with_lens (with_state c (enqueue (state c) now ls)) target_len (emitted_len c)).
Definition push_delta (c : StreamCore) (now : Z) (delta : rstring) : option (bool * StreamCore) :=
  let s := state c in
  let s := {| collector := collector_push (collector s) delta; queue := queue s;
              has_seen_delta := has_seen_delta s || negb (is_empty delta) |} in
  if contains_char NL delta then
    '(committed, col) ← commit_complete_source (collector s);
    let c := with_state c (with_collector s col) in
    match committed with
    | Some committed_source =>
        let c := {| state := state c; core_width := core_width c; raw_source := raw_source c ++ committed_source;
                    rendered_lines := rendered_lines c; enqueued_len := enqueued_len c; emitted_len := emitted_len c |} in
        sync_queue_to_render (recompute_render c) now
    | None => Some (false, c)
    end
  else Some (false, with_state c s).
Definition finalize_remaining (c : StreamCore) : option (list rstring * StreamCore) :=
  '(remainder, col) ← finalize_and_drain_source (collector (state c));
  let c := {| state := with_collector (state c) col; core_width := core_width c; raw_source := raw_source c ++ remainder;
              rendered_lines := rendered_lines c; enqueued_len := enqueued_len c; emitted_len := emitted_len c |} in
  let rendered := render (core_width c) (raw_source c) in
  Some (if length rendered <=? emitted_len c then [] else drop (emitted_len c) rendered, c).
Definition tick (c : StreamCore) : list rstring * StreamCore :=
  let '(ls, s) := step (state c) in (ls, with_lens (with_state c s) (enqueued_len c) (emitted_len c + length ls)).
Definition tick_batch (c : StreamCore) (max_lines : nat) : list rstring * StreamCore :=
  if max_lines =? 0 then ([], c)
  else
    let '(ls, s) := drain_n (state c) max_lines in
    (ls, with_lens (with_state c s) (enqueued_len c) (emitted_len c + length ls)).
Definition set_width (c : StreamCore) (now : Z) (w : option nat) : option StreamCore :=
  if bool_decide (core_width c = w) then Some c
  else
    let had_pending_queue := 0 <? length (queue (state c)) in
    let c := {| state := with_collector (state c) (collector_set_width (collector (state c)) w); core_width := w;
                raw_source := raw_source c; rendered_lines := rendered_lines c; enqueued_len := enqueued_len c;
                emitted_len := emitted_len c |} in
    if is_empty (raw_source c) then Some c
    else
      let c := recompute_render c in
      let rendered := length (rendered_lines c) in
      let emitted := emitted_len c `min` rendered in
      let emitted := if had_pending_queue && (emitted =? rendered) && (0 <? emitted) then emitted - 1 else emitted in
      let c := with_lens (with_state c (with_queue (state c) [])) (enqueued_len c) emitted in
      if (0 <? emitted) && negb had_pending_queue then Some (with_lens c rendered emitted)
      else rebuild_queue_from_render c now.
Definition reset_core (c : StreamCore) : StreamCore :=
  {| state := state_clear (state c); core_width := core_width c; raw_source := []; rendered_lines := [];
     enqueued_len := 0; emitted_len := 0 |}.

(** ** The controllers *)
Record HistoryCell := { cell_lines : list rstring; first_of_stream : bool }.
Record StreamController := { core : StreamCore; header_emitted : bool }.
Definition new_controller (w : option nat) : StreamController := {| core := new_core w; header_emitted := false |}.
Definition emit (c : StreamController) (ls : list rstring) : option HistoryCell * StreamController :=
  if is_empty ls then (None, c)
  else (Some {| cell_lines := ls; first_of_stream := negb (header_emitted c) |}, {| core := core c; header_emitted := true |}).
Definition controller_push (c : StreamController) (now : Z) (delta : rstring) : option (bool * StreamController) :=
  '(b, k) ← push_delta (core c) now delta; Some (b, {| core := k; header_emitted := header_emitted c |}).
Definition finalize (c : StreamController) : option (option HistoryCell * option rstring * StreamController) :=
  '(remaining, k) ← finalize_remaining (core c);
  if is_empty (raw_source k) then Some (None, None, {| core := reset_core k; header_emitted := header_emitted c |})
  else
    let '(out, c') := emit {| core := k; header_emitted := header_emitted c |} remaining in
    Some (out, Some (raw_source k), {| core := reset_core (core c'); header_emitted := header_emitted c' |}).
Definition on_commit_tick (c : StreamController) : option HistoryCell * bool * StreamController :=
  let '(ls, k) := tick (core c) in
  let '(out, c') := emit {| core := k; header_emitted := header_emitted c |} ls in
  (out, is_empty (queue (state k)), c').
Definition on_commit_tick_batch (c : StreamController) (max_lines : nat) : option HistoryCell * bool * StreamController :=
  let '(ls, k) := tick_batch (core c) max_lines in
  let '(out, c') := emit {| core := k; header_emitted := header_emitted c |} ls in
  (out, is_empty (queue (state k)), c').

Record PlanStreamController := { plan_core : StreamCore; plan_header_emitted : bool; top_padding_emitted : bool }.
Definition prefix_lines (ls : list rstring) (prefix : rstring) : list rstring := (λ l, prefix ++ l) <$> ls.
Definition plan_emit (c : PlanStreamController) (ls : list rstring) (include_bottom_padding : bool)
  : option HistoryCell * PlanStreamController :=
  if is_empty ls && negb include_bottom_padding then (None, c)
  else
    let head := if plan_header_emitted c then [] else [ [8226%Z] ++ $" Proposed Plan"; $" " ] in
    let plan_lines := (if top_padding_emitted c then [] else [ $" " ]) ++ ls ++ (if include_bottom_padding then [ $" " ] else []) in
    (Some {| cell_lines := head ++ prefix_lines plan_lines $"  "; first_of_stream := negb (plan_header_emitted c) |},
     {| plan_core := plan_core c; plan_header_emitted := true; top_padding_emitted := true |}).
Definition plan_finalize (c : PlanStreamController) : option (option HistoryCell * option rstring * PlanStreamController) :=
  '(remaining, k) ← finalize_remaining (plan_core c);
  let c := {| plan_core := k; plan_header_emitted := plan_header_emitted c; top_padding_emitted := top_padding_emitted c |} in
  let reset c := {| plan_core := reset_core (plan_core c); plan_header_emitted := plan_header_emitted c;
                    top_padding_emitted := top_padding_emitted c |} in
  if is_empty (raw_source k) then Some (None, None, reset c)
  else let '(out, c') := plan_emit c remaining true in Some (out, Some (raw_source k), reset c').
Definition plan_on_tick (c : PlanStreamController) (ticked : list rstring * StreamCore)
  : option HistoryCell * bool * PlanStreamController :=
  let '(ls, k) := ticked in
  let '(out, c') := plan_emit {| plan_core := k; plan_header_emitted := plan_header_emitted c;
                                 top_padding_emitted := top_padding_emitted c |} ls false in
  (out, is_empty (queue (state k)), c').
End Stream.

(** ** How fast *)
Definition ENTER_QUEUE_DEPTH_LINES : nat := 8.
Definition ENTER_OLDEST_AGE : Z := 120.
Definition EXIT_QUEUE_DEPTH_LINES : nat := 2.
Definition EXIT_OLDEST_AGE : Z := 40.
Definition EXIT_HOLD : Z := 250.
Definition REENTER_CATCH_UP_HOLD : Z := 250.
Definition SEVERE_QUEUE_DEPTH_LINES : nat := 64.
Definition SEVERE_OLDEST_AGE : Z := 300.
Inductive ChunkingMode := Smooth | CatchUp.
Record QueueSnapshot := { queued_lines : nat; oldest_age : option Z }.
Inductive DrainPlan := Single | Batch (n : nat).
Record ChunkingDecision := { decided_mode : ChunkingMode; entered_catch_up : bool; drain_plan : DrainPlan }.
Record AdaptiveChunkingPolicy := {
  mode : ChunkingMode;
  below_exit_threshold_since : option Z;
  last_catch_up_exit_at : option Z
}.
Definition new_policy : AdaptiveChunkingPolicy :=
  {| mode := Smooth; below_exit_threshold_since := None; last_catch_up_exit_at := None |}.

Definition is_some_and (o : option Z) (f : Z → bool) : bool := match o with Some x => f x | None => false end.
Definition should_enter_catch_up (s : QueueSnapshot) : bool :=
  (ENTER_QUEUE_DEPTH_LINES <=? queued_lines s) || is_some_and (oldest_age s) (λ a, ENTER_OLDEST_AGE <=? a)%Z.
Definition should_exit_catch_up (s : QueueSnapshot) : bool :=
  (queued_lines s <=? EXIT_QUEUE_DEPTH_LINES) && is_some_and (oldest_age s) (λ a, a <=? EXIT_OLDEST_AGE)%Z.
Definition is_severe_backlog (s : QueueSnapshot) : bool :=
  (SEVERE_QUEUE_DEPTH_LINES <=? queued_lines s) || is_some_and (oldest_age s) (λ a, SEVERE_OLDEST_AGE <=? a)%Z.
Definition reentry_hold_active (p : AdaptiveChunkingPolicy) (now : Z) : bool :=
  is_some_and (last_catch_up_exit_at p) (λ exit, saturating_duration_since now exit <? REENTER_CATCH_UP_HOLD)%Z.
Definition maybe_enter_catch_up (p : AdaptiveChunkingPolicy) (s : QueueSnapshot) (now : Z) : bool * AdaptiveChunkingPolicy :=
  if negb (should_enter_catch_up s) then (false, p)
  else if reentry_hold_active p now && negb (is_severe_backlog s) then (false, p)
  else (true, {| mode := CatchUp; below_exit_threshold_since := None; last_catch_up_exit_at := None |}).
Definition maybe_exit_catch_up (p : AdaptiveChunkingPolicy) (s : QueueSnapshot) (now : Z) : AdaptiveChunkingPolicy :=
  if negb (should_exit_catch_up s)
  then {| mode := mode p; below_exit_threshold_since := None; last_catch_up_exit_at := last_catch_up_exit_at p |}
  else
    match below_exit_threshold_since p with
    | Some since =>
        if (EXIT_HOLD <=? saturating_duration_since now since)%Z
        then {| mode := Smooth; below_exit_threshold_since := None; last_catch_up_exit_at := Some now |}
        else p
    | None => {| mode := mode p; below_exit_threshold_since := Some now; last_catch_up_exit_at := last_catch_up_exit_at p |}
    end.
Definition note_catch_up_exit (p : AdaptiveChunkingPolicy) (now : Z) : option Z :=
  match mode p with CatchUp => Some now | Smooth => last_catch_up_exit_at p end.
Definition decide_chunk (p : AdaptiveChunkingPolicy) (s : QueueSnapshot) (now : Z) : ChunkingDecision * AdaptiveChunkingPolicy :=
  if queued_lines s =? 0 then
    ({| decided_mode := Smooth; entered_catch_up := false; drain_plan := Single |},
     {| mode := Smooth; below_exit_threshold_since := None; last_catch_up_exit_at := note_catch_up_exit p now |})
  else
    let '(entered, p) :=
      match mode p with
      | Smooth => maybe_enter_catch_up p s now
      | CatchUp => (false, maybe_exit_catch_up p s now)
      end in
    ({| decided_mode := mode p; entered_catch_up := entered;
        drain_plan := match mode p with Smooth => Single | CatchUp => Batch (queued_lines s `max` 1) end |}, p).

(** ** A tick *)
Inductive CommitTickScope := AnyMode | CatchUpOnly.
Record CommitTickOutput := { cells : list HistoryCell; has_controller : bool; all_idle : bool }.
Definition no_commit : CommitTickOutput := {| cells := []; has_controller := false; all_idle := true |}.
Definition max_duration (l r : option Z) : option Z :=
  match l, r with
  | Some l, Some r => Some (Z.max l r)
  | Some l, None => Some l
  | None, Some r => Some r
  | None, None => None
  end.
Definition add_snapshot (acc : QueueSnapshot) (c : option StreamCore) (now : Z) : QueueSnapshot :=
  match c with
  | Some c => {| queued_lines := queued_lines acc + length (queue (state c));
                 oldest_age := max_duration (oldest_age acc) (oldest_queued_age (state c) now) |}
  | None => acc
  end.
Definition stream_queue_snapshot (s p : option StreamCore) (now : Z) : QueueSnapshot :=
  add_snapshot (add_snapshot {| queued_lines := 0; oldest_age := None |} s now) p now.
Definition drain_core (c : StreamCore) (plan : DrainPlan) : list rstring * StreamCore :=
  match plan with Single => tick c | Batch n => tick_batch c n end.
Definition drain_stream_controller (c : StreamController) (plan : DrainPlan) : option HistoryCell * bool * StreamController :=
  match plan with Single => on_commit_tick c | Batch n => on_commit_tick_batch c n end.
Definition drain_plan_stream_controller (c : PlanStreamController) (plan : DrainPlan)
  : option HistoryCell * bool * PlanStreamController := plan_on_tick c (drain_core (plan_core c) plan).
Definition push_output (o : CommitTickOutput) (cell : option HistoryCell) (idle : bool) : CommitTickOutput :=
  {| cells := cells o ++ option_list cell; has_controller := true; all_idle := all_idle o && idle |}.
Definition apply_commit_tick_plan (plan : DrainPlan) (s : option StreamController) (p : option PlanStreamController)
  : CommitTickOutput * option StreamController * option PlanStreamController :=
  let '(o, s) :=
    match s with
    | Some c => let '(cell, idle, c) := drain_stream_controller c plan in (push_output no_commit cell idle, Some c)
    | None => (no_commit, None)
    end in
  let '(o, p) :=
    match p with
    | Some c => let '(cell, idle, c) := drain_plan_stream_controller c plan in (push_output o cell idle, Some c)
    | None => (o, None)
    end in
  (o, s, p).
Definition run_commit_tick (policy : AdaptiveChunkingPolicy) (s : option StreamController) (p : option PlanStreamController)
    (scope : CommitTickScope) (now : Z)
  : CommitTickOutput * AdaptiveChunkingPolicy * option StreamController * option PlanStreamController :=
  let snapshot := stream_queue_snapshot (core <$> s) (plan_core <$> p) now in
  let '(decision, policy) := decide_chunk policy snapshot now in
  match scope, decided_mode decision with
  | CatchUpOnly, Smooth => (no_commit, policy, s, p)
  | _, _ =>
      let '(o, s, p) := apply_commit_tick_plan (drain_plan decision) s p in
      (o, policy, s, p)
  end.
(** ** A stream from its beginning to its end *)
Inductive StreamOp :=
| Push (now : Z) (delta : rstring) | Tick | TickBatch (n : nat) | ClearQueue | SetWidth (now : Z) (w : option nat).
Definition delta_of (op : StreamOp) : rstring := match op with Push _ d => d | _ => [] end.
Definition deltas (ops : list StreamOp) : rstring := concat (delta_of <$> ops).
Definition resizes (op : StreamOp) : bool := match op with SetWidth _ _ => true | _ => false end.
(** The source with its last line ended. *)
Definition ended (s : rstring) : rstring := if is_empty s || ends_with [NL] s then s else s ++ [NL].

Section Runs.
Context (render : option nat → rstring → list rstring).

Definition with_core (c : StreamController) (k : StreamCore) : StreamController :=
  {| core := k; header_emitted := header_emitted c |}.
Definition stream_op (c : StreamController) (op : StreamOp) : option (option HistoryCell * StreamController) :=
  match op with
  | Push now d => '(_, c) ← controller_push render c now d; Some (None, c)
  | Tick => let '(cell, _, c) := on_commit_tick c in Some (cell, c)
  | TickBatch n => let '(cell, _, c) := on_commit_tick_batch c n in Some (cell, c)
  | ClearQueue => Some (None, with_core c (clear_core_queue (core c)))
  | SetWidth now w => k ← set_width render (core c) now w; Some (None, with_core c k)
  end.
Fixpoint run_stream (c : StreamController) (ops : list StreamOp) : option (list HistoryCell * StreamController) :=
  match ops with
  | [] => Some ([], c)
  | op :: ops' =>
      '(cell, c) ← stream_op c op;
      '(cells, c) ← run_stream c ops';
      Some (option_list cell ++ cells, c)
  end.

(** *** The source *)
(** [d]: what was pushed; the committed part and the unfinished line. *)
Definition source_ok (d : rstring) (k : StreamCore) : Prop :=
  ∃ p, d = raw_source k ++ p ∧ buffer (collector (state k)) = d ∧
    committed_source_len (collector (state k)) = byte_len (raw_source k) ∧ NL ∉ p ∧
    (raw_source k = [] ∨ ends_with [NL] (raw_source k) = true).
Definition lens_ok (k : StreamCore) : Prop := emitted_len k + length (queue (state k)) ≤ enqueued_len k.
Definition core_ok (d : rstring) (k : StreamCore) : Prop := source_ok d k ∧ lens_ok k.

Lemma nl_split s : NL ∈ s → ∃ a b, s = a ++ NL :: b ∧ NL ∉ b ∧ rfind_char (λ x, (x =? NL)%Z) s = Some (byte_len a, NL).
Proof.
  intros Hin. destruct (rfind_char (λ x, (x =? NL)%Z) s) as [[i c]|] eqn:E.
  - apply rfind_char_Some in E as (a & b & -> & <- & Hc%Z.eqb_eq & Hb). subst c. exists a, b. split_and!; [done| |done].
    intros Hn%list_elem_of_In. rewrite forallb_forall in Hb. specialize (Hb _ Hn). done.
  - apply rfind_char_None in E. rewrite forallb_forall in E. apply list_elem_of_In in Hin. by specialize (E _ Hin).
Qed.
Lemma contains_char_in c s : contains_char c s = true ↔ c ∈ s.
Proof.
  unfold contains_char. rewrite existsb_exists. setoid_rewrite <-list_elem_of_In. setoid_rewrite Z.eqb_eq. naive_solver.
Qed.
Lemma ends_with_snoc a c : ends_with [c] (a ++ [c]) = true.
Proof. apply ends_with_true. eauto. Qed.

Lemma last_nl_unique (a b a' b' : rstring) : NL ∉ b → NL ∉ b' → a ++ NL :: b = a' ++ NL :: b' → a = a' ∧ b = b'.
Proof.
  intros Hb Hb'. revert a'. induction a as [|c a IH]; intros [|c' a'] Heq; [by injection Heq as ->| | |].
  - injection Heq as _ ->. exfalso. apply Hb. apply elem_of_app. right. by left.
  - injection Heq as _ <-. exfalso. apply Hb'. apply elem_of_app. right. by left.
  - injection Heq as -> Heq. by destruct (IH a' Heq) as [-> ->].
Qed.
(** A delta with a newline commits everything up to the last one. *)
Lemma commit_spec k d delta :
  source_ok d k → NL ∈ delta →
  ∃ out p col, commit_complete_source (collector_push (collector (state k)) delta) = Some (Some out, col) ∧
    d ++ delta = raw_source k ++ out ++ p ∧ NL ∉ p ∧ ends_with [NL] (raw_source k ++ out) = true ∧
    buffer col = d ++ delta ∧ committed_source_len col = byte_len (raw_source k ++ out).
Proof.
  intros (p & Hd & Hbuf & Hlen & Hp & _) Hnl. unfold commit_complete_source. cbn [collector_push buffer committed_source_len].
  destruct (nl_split delta Hnl) as (a & b & -> & Hb & _).
  destruct (nl_split (buffer (collector (state k)) ++ a ++ NL :: b)) as (a' & b' & Heq & Hb' & ->).
  { apply elem_of_app. right. apply elem_of_app. right. by left. }
  assert (a' = raw_source k ++ p ++ a ∧ b' = b) as [-> ->].
  { rewrite Hbuf, Hd in Heq. rewrite <-!(assoc_L (++)) in Heq. revert Heq Hb Hb'. clear. intros Heq Hb Hb'.
    destruct (last_nl_unique (raw_source k ++ p ++ a) b a' b') as [<- <-]; [done..|by rewrite <-!(assoc_L (++))|done]. }
  rewrite Hlen. destruct (Nat.leb_spec (byte_len (raw_source k ++ p ++ a) + 1) (byte_len (raw_source k))).
  { rewrite byte_len_app in *. lia. }
  assert (slice (buffer (collector (state k)) ++ a ++ NL :: b) (byte_len (raw_source k)) (byte_len (raw_source k ++ p ++ a) + 1)
          = Some (p ++ a ++ [NL])) as ->.
  { rewrite Hbuf, Hd. apply slice_Some. exists (raw_source k), b. rewrite <-!(assoc_L (++)), !byte_len_app.
    split_and!; [done..|]. change (byte_len [NL]) with 1. lia. }
  cbn [mbind option_bind]. do 3 eexists. split; [done|]. cbn [buffer committed_source_len]. rewrite Hbuf, Hd.
  split_and!; [by rewrite <-!(assoc_L (++))|done| |done|].
  - rewrite !(assoc_L (++)). apply ends_with_snoc.
  - rewrite !byte_len_app. change (byte_len [NL]) with 1. lia.
Qed.
(** *** No operation panics *)
Definition same_source (k k' : StreamCore) : Prop :=
  raw_source k' = raw_source k ∧ buffer (collector (state k')) = buffer (collector (state k)) ∧
  committed_source_len (collector (state k')) = committed_source_len (collector (state k)).
Lemma same_source_ok d k k' : same_source k k' → source_ok d k → source_ok d k'.
Proof. intros (Hr & Hb & Hc) (p & H). exists p. by rewrite Hr, Hb, Hc. Qed.
Lemma lines_slice_full l a : a ≤ length l → lines_slice l a (length l) = Some (drop a l).
Proof.
  intros H. unfold lines_slice. rewrite (proj2 (Nat.leb_le _ _)), Nat.leb_refl by done. cbn.
  rewrite take_ge; [done|]. rewrite length_drop. lia.
Qed.
Lemma enqueue_queue st now ls : line <$> queue (enqueue st now ls) = (line <$> queue st) ++ ls.
Proof. unfold enqueue. cbn. rewrite fmap_app, <-list_fmap_compose. f_equal. apply list_fmap_id. Qed.
Lemma enqueue_length st now ls : length (queue (enqueue st now ls)) = length (queue st) + length ls.
Proof. unfold enqueue. cbn. by rewrite length_app, length_fmap. Qed.
Lemma rebuild_ok k now :
  ∃ k', rebuild_queue_from_render k now = Some k' ∧ same_source k k' ∧ lens_ok k'.
Proof.
  unfold rebuild_queue_from_render. destruct (Nat.ltb_spec (emitted_len k) (length (rendered_lines k) `max` emitted_len k)).
  - replace (_ `max` _) with (length (rendered_lines k)) by lia. rewrite lines_slice_full by lia. cbn [mbind option_bind].
    eexists. split; [done|]. split; [done|]. unfold lens_ok. cbn [emitted_len enqueued_len state with_lens with_state].
    rewrite enqueue_length, length_drop. cbn. lia.
  - cbn [mbind option_bind]. eexists. split; [done|]. split; [done|]. unfold lens_ok. cbn. lia.
Qed.
Lemma sync_ok k now :
  lens_ok k → ∃ b k', sync_queue_to_render k now = Some (b, k') ∧ same_source k k' ∧ lens_ok k'.
Proof.
  unfold lens_ok at 1. intros Hle. unfold sync_queue_to_render.
  destruct (Nat.ltb_spec (length (rendered_lines k) `max` emitted_len k) (enqueued_len k)).
  { destruct (rebuild_ok k now) as (k' & -> & H'). cbn. by exists (0 <? length (queue (state k'))), k'. }
  destruct (Nat.eqb_spec (length (rendered_lines k) `max` emitted_len k) (enqueued_len k)); [by exists false, k|].
  replace (_ `max` _) with (length (rendered_lines k)) by lia. rewrite lines_slice_full by lia. cbn [mbind option_bind].
  do 2 eexists. split; [done|]. split; [done|]. unfold lens_ok. cbn [emitted_len enqueued_len state with_lens with_state].
  rewrite enqueue_length, length_drop. lia.
Qed.
Lemma push_delta_ok d k now delta :
  core_ok d k → ∃ b k', push_delta render k now delta = Some (b, k') ∧ core_ok (d ++ delta) k'.
Proof.
  intros [Hs Hle]. unfold push_delta. destruct (contains_char NL delta) eqn:E.
  - apply contains_char_in in E. destruct (commit_spec k d delta Hs E) as (out & p & col & Hc & Hd & Hp & He & Hb & Hl).
    cbn [collector]. rewrite Hc. cbn [mbind option_bind].
    match goal with |- context [sync_queue_to_render ?k1 now] => destruct (sync_ok k1 now) as (b & k' & -> & Hsame & Hle'); [done|] end.
    do 2 eexists. split; [done|]. split; [|done]. eapply same_source_ok; [exact Hsame|].
    exists p. cbn. rewrite <-(assoc_L (++)). split_and!; [done..|by right].
  - do 2 eexists. split; [done|]. split; [|done]. destruct Hs as (p & Hd & Hb & Hl & Hp & Hr). exists (p ++ delta).
    cbn. rewrite Hb, Hd, <-(assoc_L (++)). split_and!; [done..| |done].
    apply not_true_iff_false in E. rewrite contains_char_in in E. rewrite elem_of_app. tauto.
Qed.
Lemma set_width_ok d k now w : core_ok d k → ∃ k', set_width render k now w = Some k' ∧ core_ok d k'.
Proof.
  intros [Hs Hle]. unfold set_width. case_bool_decide; [by exists k|]. cbn [raw_source].
  destruct (is_empty (raw_source k)) eqn:Er.
  { eexists. split; [done|]. split; [|done]. by eapply same_source_ok; [|exact Hs]. }
  set (emitted := if _ && (_ =? _) && _ then _ else _).
  destruct ((0 <? emitted) && negb (0 <? length (queue (state k)))).
  - eexists. split; [done|]. split; [by eapply same_source_ok; [|exact Hs]|].
    unfold lens_ok. cbn. unfold emitted. cbn. case_match; lia.
  - match goal with |- context [rebuild_queue_from_render ?k1 now] =>
      destruct (rebuild_ok k1 now) as (k' & -> & Hsame & Hle') end. exists k'. split; [done|]. split; [|done].
    eapply same_source_ok; [exact Hsame|]. by eapply same_source_ok; [|exact Hs].
Qed.
Lemma step_lines s : let '(ls, s') := step s in collector s' = collector s ∧ line <$> queue s = ls ++ (line <$> queue s').
Proof. unfold step. destruct (queue s) as [|q qs] eqn:E; cbn; [by rewrite E|done]. Qed.
Lemma drain_lines s n : let '(ls, s') := drain_n s n in collector s' = collector s ∧ line <$> queue s = ls ++ (line <$> queue s').
Proof. unfold drain_n. cbn. split; [done|]. by rewrite <-fmap_app, take_drop. Qed.
(** What a tick does, one line or a batch. *)
Definition drained (k k' : StreamCore) (ls : list rstring) : Prop :=
  same_source k k' ∧ core_width k' = core_width k ∧ rendered_lines k' = rendered_lines k ∧ enqueued_len k' = enqueued_len k ∧
  emitted_len k' = emitted_len k + length ls ∧ line <$> queue (state k) = ls ++ (line <$> queue (state k')).
Lemma tick_drained k : drained k (tick k).2 (tick k).1.
Proof.
  unfold tick, drained, same_source. pose proof (step_lines (state k)) as H. destruct (step (state k)) as [ls s].
  destruct H as [Hc Hq]. cbn. by rewrite Hc.
Qed.
Lemma tick_batch_drained k n : drained k (tick_batch k n).2 (tick_batch k n).1.
Proof.
  unfold tick_batch. destruct (n =? 0); [unfold drained; cbn; split_and!; try done; lia|].
  unfold drained, same_source. pose proof (drain_lines (state k) n) as H. destruct (drain_n (state k) n) as [ls s].
  destruct H as [Hc Hq]. cbn. by rewrite Hc.
Qed.
Lemma drained_ok d k k' ls : drained k k' ls → core_ok d k → core_ok d k'.
Proof.
  intros (Hs & _ & _ & He & Hm & Hq) [Hok Hl]. split; [by eapply same_source_ok|].
  apply (f_equal length) in Hq. rewrite length_app, !length_fmap in Hq. unfold lens_ok in *. lia.
Qed.
Lemma new_core_ok w : core_ok [] (new_core w).
Proof. split; [|unfold lens_ok; cbn; lia]. exists []. split_and!; [done..|apply not_elem_of_nil|by left]. Qed.

(** What an operation hands out, and the header. *)
Definition cell_text (cell : option HistoryCell) : list rstring := default [] (cell_lines <$> cell).
Lemma emit_spec c ls :
  cell_text (emit c ls).1 = ls ∧ core (emit c ls).2 = core c ∧
  match (emit c ls).1 with
  | Some cell => first_of_stream cell = negb (header_emitted c) ∧ header_emitted (emit c ls).2 = true
  | None => header_emitted (emit c ls).2 = header_emitted c
  end.
Proof. unfold emit. by destruct ls. Qed.
Definition headed (emitted : bool) (cell : option HistoryCell) (emitted' : bool) : Prop :=
  match cell with
  | Some cell => first_of_stream cell = negb emitted ∧ emitted' = true
  | None => emitted' = emitted
  end.
Lemma stream_op_ok d c op :
  core_ok d (core c) →
  ∃ cell c', stream_op c op = Some (cell, c') ∧ core_ok (d ++ delta_of op) (core c') ∧
    headed (header_emitted c) cell (header_emitted c').
Proof.
  intros Hok. destruct op as [now delta| |n| |now w]; cbn [stream_op delta_of]; rewrite ?app_nil_r.
  - unfold controller_push. destruct (push_delta_ok d (core c) now delta Hok) as (b & k' & -> & Hok').
    do 2 eexists. split; [done|]. by split.
  - unfold on_commit_tick. pose proof (tick_drained (core c)) as Hd. destruct (tick (core c)) as [ls k].
    destruct (emit_spec {| core := k; header_emitted := header_emitted c |} ls) as (_ & Hc & Hh).
    destruct (emit _ ls) as [cell c']. do 2 eexists. split; [done|]. cbn in Hc, Hh, Hd. rewrite Hc.
    split; [by eapply drained_ok|done].
  - unfold on_commit_tick_batch. pose proof (tick_batch_drained (core c) n) as Hd. destruct (tick_batch (core c) n) as [ls k].
    destruct (emit_spec {| core := k; header_emitted := header_emitted c |} ls) as (_ & Hc & Hh).
    destruct (emit _ ls) as [cell c']. do 2 eexists. split; [done|]. cbn in Hc, Hh, Hd. rewrite Hc.
    split; [by eapply drained_ok|done].
  - do 2 eexists. split; [done|]. split; [|done]. destruct Hok as [Hs _]. split; [by eapply same_source_ok; [|exact Hs]|].
    unfold lens_ok. cbn. lia.
  - destruct (set_width_ok d (core c) now w Hok) as (k' & -> & Hok').
    do 2 eexists. split; [done|]. by split.
Qed.

(** At the end. *)
Lemma finalize_source d k :
  core_ok d k → ∃ r k', finalize_remaining render k = Some (r, k') ∧ raw_source k' = ended d ∧
    let rendered := render (core_width k) (ended d) in
    r = if length rendered <=? emitted_len k then [] else drop (emitted_len k) rendered.
Proof.
  intros [(p & Hd & Hb & Hl & Hp & Hr) _]. unfold finalize_remaining, finalize_and_drain_source. rewrite Hb, Hl, Hd.
  assert (Hend : ∀ rem, rem = (if is_empty p then [] else if ends_with [NL] p then p else p ++ [NL]) →
                 raw_source k ++ rem = ended (raw_source k ++ p)).
  { intros rem ->. unfold ended. destruct p as [|c p] using rev_ind; cbn [is_empty].
    - rewrite !app_nil_r. destruct Hr as [-> | ->]; [done|]. by rewrite orb_true_r.
    - assert (is_empty (p ++ [c]) = false) as -> by by destruct p.
      assert (is_empty (raw_source k ++ p ++ [c]) = false) as -> by by destruct (raw_source k), p. cbn [orb].
      assert (c ≠ NL) as Hc by (intros ->; apply Hp; apply elem_of_app; right; by left).
      assert (Hno : ∀ u : rstring, ends_with [NL] (u ++ [c]) = false).
      { intros u. apply not_true_iff_false. rewrite ends_with_true. intros (r & Heq). apply (f_equal last) in Heq.
        rewrite !last_snoc in Heq. congruence. }
      rewrite (Hno p). assert (ends_with [NL] (raw_source k ++ p ++ [c]) = false) as -> by (rewrite (assoc_L (++)); apply Hno).
      by rewrite !(assoc_L (++)). }
  destruct (Nat.leb_spec (byte_len (raw_source k ++ p)) (byte_len (raw_source k))).
  - assert (p = []) as -> by (apply byte_len_nil; rewrite byte_len_app in *; lia). cbn [mbind option_bind].
    do 2 eexists. split; [done|]. cbn [raw_source core_width emitted_len]. by rewrite <-(Hend [] eq_refl).
  - assert (is_empty p = false) as Hne by (destruct p; [rewrite app_nil_r in *; lia|done]).
    unfold slice_from. rewrite split_bytes_len. cbn [fmap option_fmap option_map snd mbind option_bind].
    do 2 eexists. split; [done|]. cbn [raw_source core_width emitted_len]. rewrite Hne in Hend. by rewrite (Hend _ eq_refl).
Qed.
(** *** What is shown *)
(** The rendering of this source only grows as its complete lines come in.
    Markdown need not: a line of [=] turns the paragraph above it into a heading. *)
Definition grows (w : option nat) (source : rstring) : Prop :=
  ∀ a b, ends_with [NL] a = true → a ++ b `prefix_of` source → render w a `prefix_of` render w (a ++ b).
Definition shown_ok (w : option nat) (shown : list rstring) (k : StreamCore) : Prop :=
  core_width k = w ∧
  rendered_lines k = (if is_empty (raw_source k) then [] else render w (raw_source k)) ∧
  enqueued_len k ≤ length (rendered_lines k) ∧ emitted_len k = length shown ∧
  shown ++ (line <$> queue (state k)) = take (enqueued_len k) (rendered_lines k).

Lemma new_core_shown w : shown_ok w [] (new_core w).
Proof. by split_and!. Qed.
Lemma drained_shown w shown k k' ls : drained k k' ls → shown_ok w shown k → shown_ok w (shown ++ ls) k'.
Proof.
  intros ((Hr & _) & Hw & Hrl & He & Hm & Hq) (H1 & H2 & H3 & H4 & H5). unfold shown_ok.
  rewrite Hw, Hr, Hrl, He, Hm, length_app. split_and!; [done..|lia|]. by rewrite <-(assoc_L (++)), <-Hq.
Qed.
Lemma clear_shown w shown k : shown_ok w shown k → lens_ok k → shown_ok w shown (clear_core_queue k).
Proof.
  intros (H1 & H2 & H3 & H4 & H5) Hl. unfold shown_ok, lens_ok in *. cbn. split_and!; [done|done|lia|done|].
  rewrite app_nil_r. rewrite H4. apply (f_equal (take (length shown))) in H5. rewrite take_app_length, take_take in H5.
  rewrite H5 at 1. f_equal. lia.
Qed.
Lemma sync_shown w shown k k1 now b :
  shown_ok w shown k → same_source k1 k1 → core_width k1 = w →
  rendered_lines k1 = (if is_empty (raw_source k1) then [] else render w (raw_source k1)) →
  rendered_lines k `prefix_of` rendered_lines k1 → enqueued_len k1 = enqueued_len k → emitted_len k1 = emitted_len k →
  queue (state k1) = queue (state k) →
  ∀ k', sync_queue_to_render k1 now = Some (b, k') → shown_ok w shown k'.
Proof.
  intros (_ & _ & H3 & H4 & H5) _ Hw Hr [ext Hext] He Hm Hq k'. unfold sync_queue_to_render.
  assert (Hlen : length (rendered_lines k) ≤ length (rendered_lines k1)) by (rewrite Hext, length_app; lia).
  assert (Hle : emitted_len k ≤ enqueued_len k).
  { apply (f_equal length) in H5. rewrite length_app, length_take in H5. lia. }
  rewrite He, Hm. destruct (Nat.ltb_spec (length (rendered_lines k1) `max` emitted_len k) (enqueued_len k)); [lia|].
  assert (H5' : shown ++ (line <$> queue (state k1)) = take (enqueued_len k) (rendered_lines k1)).
  { rewrite Hq, H5, Hext, take_app_le by lia. done. }
  destruct (Nat.eqb_spec (length (rendered_lines k1) `max` emitted_len k) (enqueued_len k)).
  - intros [= <- <-]. unfold shown_ok. rewrite Hm, He. split_and!; [done..|lia|done|done].
  - replace (_ `max` _) with (length (rendered_lines k1)) by lia. rewrite lines_slice_full by lia. cbn [mbind option_bind].
    intros [= <- <-]. unfold shown_ok. cbn [core_width rendered_lines raw_source enqueued_len emitted_len state with_lens with_state].
    split_and!; [done..| |done|]; [lia|]. rewrite enqueue_queue, (assoc_L (++)), H5', take_drop.
    by rewrite take_ge by lia.
Qed.
Lemma push_shown w source shown d k now delta b k' :
  grows w source → d ++ delta `prefix_of` source → core_ok d k → shown_ok w shown k → push_delta render k now delta = Some (b, k') → shown_ok w shown k'.
Proof.
  intros Happ Hsrc [Hs _] Hshown. unfold push_delta. destruct (contains_char NL delta) eqn:E; [|by intros [= <- <-]].
  apply contains_char_in in E. pose proof Hs as (_ & _ & _ & _ & _ & Hraw).
  destruct (commit_spec k d delta Hs E) as (out & p & col & Hc & Hd & _ & He & _ & _). cbn [collector]. rewrite Hc. cbn [mbind option_bind].
  pose proof Hshown as (Hw & Hr & _). apply (sync_shown w shown k); try done.
  - cbn. rewrite Hw. destruct (raw_source k ++ out) eqn:E2; [by apply ends_with_true in He as ([|??] & He)|done].
  - cbn. rewrite Hr, Hw. destruct Hraw as [-> |Hraw]; [cbn; apply prefix_nil|].
    assert (is_empty (raw_source k) = false) as -> by (destruct (raw_source k); [by apply ends_with_true in Hraw as ([|??] & ?)|done]).
    apply Happ; [done|]. transitivity (d ++ delta); [|done]. rewrite Hd, (assoc_L (++)). by apply prefix_app_r.
Qed.
Lemma stream_op_shown w source shown d c op cell c' :
  grows w source → d ++ delta_of op `prefix_of` source → resizes op = false → core_ok d (core c) → shown_ok w shown (core c) → stream_op c op = Some (cell, c') →
  shown_ok w (shown ++ cell_text cell) (core c').
Proof.
  intros Happ Hsrc Hop Hok Hshown. destruct op as [now delta| |n| |now w']; cbn [stream_op]; [| | | |done].
  - unfold controller_push. destruct (push_delta render (core c) now delta) as [[b k']|] eqn:E; [|done].
    intros [= <- <-]. cbn. rewrite app_nil_r. by eapply push_shown.
  - unfold on_commit_tick. pose proof (tick_drained (core c)) as Hd. destruct (tick (core c)) as [ls k].
    destruct (emit_spec {| core := k; header_emitted := header_emitted c |} ls) as (Ht & Hc & _).
    destruct (emit _ ls) as [cell' c1]. intros [= <- <-]. cbn [fst snd core] in *. rewrite Ht, Hc. by eapply drained_shown.
  - unfold on_commit_tick_batch. pose proof (tick_batch_drained (core c) n) as Hd. destruct (tick_batch (core c) n) as [ls k].
    destruct (emit_spec {| core := k; header_emitted := header_emitted c |} ls) as (Ht & Hc & _).
    destruct (emit _ ls) as [cell' c1]. intros [= <- <-]. cbn [fst snd core] in *. rewrite Ht, Hc. by eapply drained_shown.
  - intros [= <- <-]. cbn [cell_text fmap option_fmap option_map default from_option]. rewrite app_nil_r.
    apply clear_shown; [done|apply Hok].
Qed.

Lemma run_stream_ok ops : ∀ d c, core_ok d (core c) →
  ∃ cells c', run_stream c ops = Some (cells, c') ∧ core_ok (d ++ deltas ops) (core c') ∧
    first_of_stream <$> cells = (if header_emitted c then (λ _, false) <$> cells
                                 else match cells with [] => [] | _ :: r => true :: ((λ _, false) <$> r) end) ∧
    header_emitted c' = header_emitted c || negb (is_empty cells).
Proof.
  induction ops as [|op ops IH]; intros d c Hok; cbn [run_stream].
  { do 2 eexists. split; [done|]. unfold deltas. cbn. rewrite app_nil_r. split; [done|]. by destruct (header_emitted c). }
  destruct (stream_op_ok d c op Hok) as (cell & c1 & -> & Hok1 & Hh). cbn [mbind option_bind].
  destruct (IH _ c1 Hok1) as (cells & c2 & -> & Hok2 & Hf & Hh2). cbn [mbind option_bind]. do 2 eexists. split; [done|].
  split; [by rewrite <-(assoc_L (++)) in Hok2|]. destruct cell as [cell|]; cbn [headed option_list app] in *.
  - destruct Hh as [Hcell Hh]. rewrite Hh in *. cbn. rewrite Hf, Hcell. destruct (header_emitted c); by rewrite ?orb_true_r.
  - rewrite Hh in *. done.
Qed.
Lemma run_stream_shown w source ops : ∀ shown d c cells c',
  grows w source → d ++ deltas ops `prefix_of` source → existsb resizes ops = false → core_ok d (core c) → shown_ok w shown (core c) →
  run_stream c ops = Some (cells, c') → shown_ok w (shown ++ concat (cell_lines <$> cells)) (core c').
Proof.
  induction ops as [|op ops IH]; intros shown d c cells c' Happ Hsrc Hops Hok Hs; cbn [run_stream].
  { intros [= <- <-]. by rewrite app_nil_r. }
  cbn in Hops. apply orb_false_iff in Hops as [Hop Hops].
  destruct (stream_op_ok d c op Hok) as (cell & c1 & E & Hok1 & _). rewrite E. cbn [mbind option_bind].
  destruct (run_stream c1 ops) as [[cells1 c2]|] eqn:E2; [|done]. intros [= <- <-].
  assert (Hd : d ++ deltas (op :: ops) = (d ++ delta_of op) ++ deltas ops) by (unfold deltas; cbn; by rewrite (assoc_L (++))).
  rewrite Hd in Hsrc. assert (Hop1 : d ++ delta_of op `prefix_of` source) by (etransitivity; [by apply prefix_app_r|exact Hsrc]).
  pose proof (IH _ _ c1 cells1 c2 Happ Hsrc Hops Hok1
    (stream_op_shown w source shown d c op cell c1 Happ Hop1 Hop Hok Hs E) E2) as H.
  rewrite <-(assoc_L (++)) in H. by destruct cell.
Qed.

Lemma shown_prefix w d shown k :
  grows w (ended d) → core_ok d k → shown_ok w shown k → shown `prefix_of` render w (ended d).
Proof.
  intros Happ [(p & Hd & _ & _ & _ & Hraw) _] (_ & Hr & _ & _ & Hq).
  assert (Hpre : shown `prefix_of` rendered_lines k).
  { transitivity (take (enqueued_len k) (rendered_lines k)); [rewrite <-Hq; by apply prefix_app_r|apply prefix_take]. }
  transitivity (rendered_lines k); [done|]. rewrite Hr. destruct (raw_source k) as [|x raw] eqn:E; [apply prefix_nil|].
  cbn [is_empty]. destruct Hraw as [?|Hraw]; [done|].
  assert (∃ q, ended d = (x :: raw) ++ q) as [q Hq'].
  { rewrite Hd. unfold ended. destruct (_ || _); [by exists p|]. exists (p ++ [NL]). by rewrite (assoc_L (++)). }
  rewrite Hq' in *. by apply Happ.
Qed.
Lemma ended_prefix d : d `prefix_of` ended d.
Proof. unfold ended. destruct (_ || _); [done|by apply prefix_app_r]. Qed.

(** However a stream is cut, ticked, cleared and resized, nothing panics, and its
    end gives the app the source exactly as it came, with its last line ended;
    there is no source exactly when there was no text. *)
Theorem stream_source_kept w ops :
  ∃ cells c cell source c', run_stream (new_controller w) ops = Some (cells, c) ∧
    finalize render c = Some (cell, source, c') ∧
    source = (if is_empty (deltas ops) then None else Some (ended (deltas ops))).
Proof.
  destruct (run_stream_ok ops [] (new_controller w) (new_core_ok w)) as (cells & c & Hrun & Hok & _).
  cbn [app] in Hok. destruct (finalize_source _ _ Hok) as (r & k' & Hf & Hsrc & _).
  exists cells, c. unfold finalize. rewrite Hf. cbn [mbind option_bind]. rewrite Hsrc.
  assert (Hemp : is_empty (ended (deltas ops)) = is_empty (deltas ops)).
  { unfold ended. destruct (deltas ops) as [|x l]; [done|]. cbn [is_empty orb]. by destruct (ends_with _ _). }
  rewrite Hemp. destruct (is_empty (deltas ops)).
  - do 3 eexists. split; [done|]. by split.
  - destruct (emit _ r) as [out c1]. do 3 eexists. split; [done|]. by split.
Qed.

(** The lines that were shown, in the cells of the ticks and the last one, are the
    rendering of the whole source, each once and in order, whatever the chunks and
    the ticks were, as long as the width does not change and the rendering of this
    source only grows with it; and only the first cell has the header. *)
Theorem stream_refines_rendering w ops :
  grows w (ended (deltas ops)) → existsb resizes ops = false → deltas ops ≠ [] →
  ∃ cells c cell source c', run_stream (new_controller w) ops = Some (cells, c) ∧
    finalize render c = Some (cell, source, c') ∧
    let all := cells ++ option_list cell in
    concat (cell_lines <$> all) = render w (ended (deltas ops)) ∧
    first_of_stream <$> all = match all with [] => [] | _ :: r => true :: ((λ _, false) <$> r) end.
Proof.
  intros Happ Hops Hne. destruct (run_stream_ok ops [] (new_controller w) (new_core_ok w)) as (cells & c & Hrun & Hok & Hf & Hh).
  pose proof (run_stream_shown w (ended (deltas ops)) ops [] [] (new_controller w) cells c Happ (ended_prefix _) Hops
    (new_core_ok w) (new_core_shown w) Hrun)
    as (Hw & Hr & Hle & Hm & Hq). cbn [app] in Hok, Hm, Hq.
  destruct (finalize_source _ _ Hok) as (r & k' & Hfin & Hsrc & Hrem). exists cells, c. unfold finalize. rewrite Hfin.
  cbn [mbind option_bind]. rewrite Hsrc.
  assert (is_empty (ended (deltas ops)) = false) as ->.
  { unfold ended. destruct (deltas ops) as [|x l]; [done|]. cbn [is_empty orb]. by destruct (ends_with _ _). }
  set (c0 := {| core := k'; header_emitted := header_emitted c |}).
  destruct (emit_spec c0 r) as (Ht & _ & Hcell). destruct (emit c0 r) as [cell c1]. cbn [fst snd] in Ht, Hcell.
  exists cell. do 2 eexists. split; [done|]. split; [done|]. cbv zeta. split.
  - assert (concat (cell_lines <$> option_list cell) = r) as Hlast by (rewrite <-Ht; destruct cell; cbn; by rewrite ?app_nil_r).
    rewrite fmap_app, concat_app, Hlast, Hrem. set (shown := concat (cell_lines <$> cells)) in *. cbv zeta. rewrite Hw.
    destruct (shown_prefix w (deltas ops) shown (core c) Happ Hok (conj Hw (conj Hr (conj Hle (conj Hm Hq))))) as [ext Hext].
    rewrite Hext, Hm. destruct (Nat.leb_spec (length (shown ++ ext)) (length shown)).
    + rewrite length_app in *. destruct ext; [done|cbn in *; lia].
    + by rewrite drop_app_length.
  - rewrite fmap_app, Hf. unfold c0 in Hcell.
    cbn [new_controller header_emitted] in *. rewrite Hh in Hcell. destruct cells as [|x cells]; cbn [app orb negb is_empty] in *.
    + destruct cell as [cell|]; [|done]. cbn. by destruct Hcell as [-> _].
    + rewrite fmap_app. destruct cell as [cell|]; [|done]. cbn. by destruct Hcell as [-> _].
Qed.
End Runs.
(** ** How fast: theorems *)
(** Gears do not flap: once catch-up is left, no decision within the hold enters
    it again, unless the backlog is severe. *)
Theorem catch_up_not_reentered p s now d p' later :
  mode p = CatchUp → decide_chunk p s now = (d, p') → mode p' = Smooth →
  Forall (λ x : QueueSnapshot * Z, (x.2 < now + REENTER_CATCH_UP_HOLD)%Z ∧ is_severe_backlog x.1 = false) later →
  mode (fold_left (λ p x, (decide_chunk p x.1 x.2).2) later p') = Smooth.
Proof.
  intros Hm Hd Hs Hl. assert (Hexit : last_catch_up_exit_at p' = Some now).
  { unfold decide_chunk, note_catch_up_exit in Hd. rewrite Hm in Hd. destruct (queued_lines s =? 0); [by injection Hd as <- <-|].
    injection Hd as <- <-. unfold maybe_exit_catch_up in *. destruct (should_exit_catch_up s); cbn [negb] in *; [|by rewrite Hm in Hs].
    destruct (below_exit_threshold_since p) as [since|]; [|by rewrite Hm in Hs]. case_match; [done|by rewrite Hm in Hs]. }
  clear Hd Hm. revert p' Hs Hexit. induction Hl as [|[s' t] later [Ht Hsev] Hl IH]; intros p' Hs Hexit; [done|].
  cbn [fold_left fst snd] in *. apply IH; unfold decide_chunk, note_catch_up_exit; rewrite Hs;
    destruct (queued_lines s' =? 0); try done; cbn [snd fst];
    unfold maybe_enter_catch_up, reentry_hold_active; rewrite Hexit; cbn [is_some_and];
    rewrite Hsev; (assert ((saturating_duration_since t now <? REENTER_CATCH_UP_HOLD)%Z = true) as ->
      by (apply Z.ltb_lt; unfold saturating_duration_since, REENTER_CATCH_UP_HOLD in *; lia));
    cbn; by destruct (should_enter_catch_up s').
Qed.

(** Catch-up drains everything that is queued, smooth one line. *)
Lemma decide_plan p s now : queued_lines s ≠ 0 →
  drain_plan (decide_chunk p s now).1 = match mode (decide_chunk p s now).2 with
                                         | Smooth => Single
                                         | CatchUp => Batch (queued_lines s)
                                         end.
Proof.
  intros Hq. unfold decide_chunk. rewrite (proj2 (Nat.eqb_neq _ _)) by done.
  destruct (match mode p with Smooth => _ | CatchUp => _ end) as [e p']. cbn. destruct (mode p'); [done|]. f_equal. lia.
Qed.
Lemma drain_controller_spec c plan :
  let '(cell, idle, c') := drain_stream_controller c plan in
  cell_text cell = (drain_core (core c) plan).1 ∧ core c' = (drain_core (core c) plan).2 ∧ idle = is_empty (queue (state (core c'))).
Proof.
  unfold drain_stream_controller, on_commit_tick, on_commit_tick_batch, drain_core.
  destruct plan as [|n]; [destruct (tick (core c)) as [ls k]|destruct (tick_batch (core c) n) as [ls k]];
    (destruct (emit_spec {| core := k; header_emitted := header_emitted c |} ls) as (Ht & Hc & _); destruct (emit _ ls) as [cell c'];
     cbn [fst snd core] in *; by rewrite Hc).
Qed.
Lemma drain_core_spec k plan :
  drained k (drain_core k plan).2 (drain_core k plan).1 ∧
  (plan ≠ Batch 0 → queue (state k) ≠ [] → (drain_core k plan).1 ≠ []) ∧
  (∀ n, plan = Batch n → length (queue (state k)) ≤ n → n ≠ 0 → queue (state (drain_core k plan).2) = []).
Proof.
  destruct plan as [|n]; cbn [drain_core].
  - split; [apply tick_drained|]. split; [|done]. intros _ Hq. unfold tick, step. by destruct (queue (state k)).
  - split; [apply tick_batch_drained|]. unfold tick_batch, drain_n. split.
    + intros Hn Hq. destruct (Nat.eqb_spec n 0); [by subst|]. cbn. destruct (queue (state k)), n; done.
    + intros m [= <-] Hle Hn. rewrite (proj2 (Nat.eqb_neq _ _)) by done. cbn. apply drop_ge. lia.
Qed.

(** A tick that is not suppressed shows the next queued lines: at least one if
    there is one, all of them in catch-up. *)
Theorem commit_tick_progress policy c p now :
  queue (state (core c)) ≠ [] →
  ∃ o policy' c' p' ls, run_commit_tick policy (Some c) p AnyMode now = (o, policy', Some c', p') ∧
    drained (core c) (core c') ls ∧ ls ≠ [] ∧ (mode policy' = CatchUp → queue (state (core c')) = []) ∧
    ∃ cell rest, cells o = cell :: rest ∧ cell_lines cell = ls.
Proof.
  intros Hq. unfold run_commit_tick. cbn [fmap option_fmap option_map].
  set (snap := stream_queue_snapshot _ _ now).
  assert (Hn : length (queue (state (core c))) ≤ queued_lines snap).
  { unfold snap, stream_queue_snapshot, add_snapshot. destruct p; cbn; lia. }
  assert (Hne : queued_lines snap ≠ 0) by (destruct (queue (state (core c))); [done|cbn in Hn; lia]).
  pose proof (decide_plan policy snap now Hne) as Hplan. destruct (decide_chunk policy snap now) as [d policy']. cbn [fst snd] in Hplan.
  unfold apply_commit_tick_plan. pose proof (drain_controller_spec c (drain_plan d)) as Hc.
  destruct (drain_stream_controller c (drain_plan d)) as [[cell idle] c']. destruct Hc as (Hcell & Hcore & _).
  destruct (drain_core_spec (core c) (drain_plan d)) as (Hd & Hne' & Hall).
  assert (Hls : (drain_core (core c) (drain_plan d)).1 ≠ []).
  { apply Hne'; [|done]. rewrite Hplan. destruct (mode policy'); [done|]. by intros [= E]. }
  destruct (match p with Some _ => _ | None => _ end) as [o p'] eqn:Ep.
  exists o, policy', c', p', (drain_core (core c) (drain_plan d)).1. rewrite Hcore. split_and!; [done..| |].
  - intros Hm. rewrite Hm in Hplan. by apply (Hall _ Hplan).
  - destruct cell as [cell|]; [|by cbn in Hcell]. destruct p as [pc|].
    + destruct (drain_plan_stream_controller pc (drain_plan d)) as [[pcell pidle] pc']. injection Ep as <- <-.
      exists cell, (option_list pcell). done.
    + injection Ep as <- <-. by exists cell, [].
Qed.

(** Ticks of a stream, and what they show. *)
Fixpoint run_ticks (policy : AdaptiveChunkingPolicy) (c : StreamController) (times : list Z)
  : list HistoryCell * StreamController :=
  match times with
  | [] => ([], c)
  | now :: times' =>
      match run_commit_tick policy (Some c) None AnyMode now with
      | (o, policy', Some c', _) => let '(cs, c'') := run_ticks policy' c' times' in (cells o ++ cs, c'')
      | (o, _, None, _) => (cells o, c)
      end
  end.
(** As many ticks as there are queued lines show them all, in order. *)
Theorem ticks_show_queue policy c times :
  length (queue (state (core c))) ≤ length times →
  concat (cell_lines <$> (run_ticks policy c times).1) = line <$> queue (state (core c)) ∧
  queue (state (core (run_ticks policy c times).2)) = [].
Proof.
  revert policy c. induction times as [|now times IH]; intros policy c Hlen; cbn [run_ticks].
  { destruct (queue (state (core c))) eqn:E; [|cbn in Hlen; lia]. cbn. by rewrite E. }
  destruct (run_commit_tick policy (Some c) None AnyMode now) as [[[o policy'] s'] p'] eqn:E.
  assert (∃ c' ls, s' = Some c' ∧ drained (core c) (core c') ls ∧ concat (cell_lines <$> cells o) = ls ∧
    (queue (state (core c)) = [] ∨ ls ≠ [])) as (c' & ls & -> & Hd & Hcells & Hls).
  { unfold run_commit_tick in E. cbn [fmap option_fmap option_map] in E.
    destruct (decide_chunk policy _ now) as [d policy1] eqn:Ed. unfold apply_commit_tick_plan in E.
    pose proof (drain_controller_spec c (drain_plan d)) as Hc.
    destruct (drain_stream_controller c (drain_plan d)) as [[cell idle] c']. destruct Hc as (Hcell & Hcore & _).
    injection E as <- <- <- <-. destruct (drain_core_spec (core c) (drain_plan d)) as (Hd & Hne & _).
    exists c', (drain_core (core c) (drain_plan d)).1. rewrite Hcore. split_and!; [done..| |].
    - rewrite <-Hcell. destruct cell; cbn; by rewrite ?app_nil_r.
    - destruct (decide (queue (state (core c)) = [])) as [|Hq]; [by left|]. right. apply Hne; [|done].
      assert (Hsnap : queued_lines (stream_queue_snapshot (Some (core c)) None now) ≠ 0).
      { cbn. by destruct (queue (state (core c))). }
      pose proof (decide_plan policy _ now Hsnap) as Hplan. rewrite Ed in Hplan. cbn [fst snd] in Hplan. rewrite Hplan.
      destruct (mode policy1); [done|]. by intros [= E]. }
  destruct Hd as (_ & _ & _ & _ & _ & Hq). destruct (IH policy' c') as [H1 H2].
  { apply (f_equal length) in Hq as Hq'. rewrite length_app, !length_fmap in Hq'. destruct Hls as [Hls|Hls].
    - rewrite Hls in *. cbn in *. lia.
    - destruct ls; [done|]. cbn in *. lia. }
  destruct (run_ticks policy' c' times) as [cs c'']. cbn [fst snd] in *. split; [|done].
  rewrite fmap_app, concat_app, Hcells, H1. done.
Qed.
(** ** A renderer that cuts lines at the width *)
Fixpoint cut_line (fuel w : nat) (l : rstring) : list rstring :=
  match fuel with
  | 0 => [l]
  | S fuel => if length l <=? w then [l] else take w l :: cut_line fuel w (drop w l)
  end.
Definition cut_render (w : option nat) (s : rstring) : list rstring :=
  match w with
  | Some w => concat ((λ l, cut_line (length l) w l) <$> str_lines s)
  | None => str_lines s
  end.
Lemma cut_render_grows w source : grows cut_render w source.
Proof.
  intros a b Ha _. apply ends_with_true in Ha as [r ->]. rewrite <-(assoc_L (++)). cbn [app]. unfold cut_render.
  assert (Hpre : ∃ l, str_lines (r ++ NL :: b) = str_lines (r ++ [NL]) ++ l).
  { exists (str_lines b). rewrite <-str_lines_app by (right; apply last_snoc). by rewrite <-(assoc_L (++)). }
  destruct Hpre as [l ->]. destruct w as [w|]; [|by apply prefix_app_r]. rewrite fmap_app, concat_app. by apply prefix_app_r.
Qed.

Definition demo_ops : list StreamOp :=
  [ Push 0 ($"one" ++ [NL] ++ $"tw"); Tick; Push 5 ($"o" ++ [NL] ++ $"three"); TickBatch 4; Tick ].
Lemma stream_refines_rendering_witness :
  ∃ cells c cell source c', run_stream cut_render (new_controller (Some 9)) demo_ops = Some (cells, c) ∧
    finalize cut_render c = Some (cell, source, c') ∧
    let all := cells ++ option_list cell in
    concat (cell_lines <$> all) = cut_render (Some 9) (ended (deltas demo_ops)) ∧
    first_of_stream <$> all = match all with [] => [] | _ :: r => true :: ((λ _, false) <$> r) end.
Proof. apply (stream_refines_rendering cut_render (Some 9) demo_ops (cut_render_grows _ _)); [reflexivity|discriminate]. Defined.

Definition demo_snapshot (n : nat) (age : Z) : QueueSnapshot := {| queued_lines := n; oldest_age := Some age |}.
Definition demo_catching : AdaptiveChunkingPolicy :=
  {| mode := CatchUp; below_exit_threshold_since := Some 0%Z; last_catch_up_exit_at := None |}.
Lemma catch_up_not_reentered_witness :
  mode (fold_left (λ p x, (decide_chunk p x.1 x.2).2) [(demo_snapshot 20 150, 400%Z); (demo_snapshot 30 200, 499%Z)]
          (decide_chunk demo_catching (demo_snapshot 1 10) 250).2) = Smooth.
Proof.
  eapply (catch_up_not_reentered demo_catching (demo_snapshot 1 10) 250); [reflexivity|vm_compute; reflexivity|reflexivity|].
  repeat constructor.
Defined.
Definition demo_stream : StreamController :=
  match run_stream cut_render (new_controller None) [Push 0 ($"a" ++ [NL] ++ $"b" ++ [NL])] with
  | Some (_, c) => c
  | None => new_controller None
  end.
Lemma commit_tick_progress_witness :
  ∃ o policy' c' p' ls, run_commit_tick new_policy (Some demo_stream) None AnyMode 7 = (o, policy', Some c', p') ∧
    drained (core demo_stream) (core c') ls ∧ ls ≠ [] ∧ (mode policy' = CatchUp → queue (state (core c')) = []) ∧
    ∃ cell rest, cells o = cell :: rest ∧ cell_lines cell = ls.
Proof. apply (commit_tick_progress new_policy demo_stream None 7). vm_compute. discriminate. Defined.
Lemma ticks_show_queue_witness :
  concat (cell_lines <$> (run_ticks new_policy demo_stream [10; 20; 30]%Z).1) = line <$> queue (state (core demo_stream)) ∧
  queue (state (core (run_ticks new_policy demo_stream [10; 20; 30]%Z).2)) = [].
Proof. apply (ticks_show_queue new_policy demo_stream [10; 20; 30]%Z). vm_compute. lia. Defined.

(** After a resize to a width at which the shown lines take more rows, a line that
    a tick has shown is shown again by the end of the stream. *)
Lemma resize_shows_line_twice :
  ∃ cells c cell source c',
    run_stream cut_render (new_controller (Some 8))
      [Push 0 ($"abcdefgh" ++ [NL]); Tick; SetWidth 1 (Some 4); Push 2 ($"x" ++ [NL]); Tick] = Some (cells, c) ∧
    finalize cut_render c = Some (cell, source, c') ∧
    cell_lines <$> (cells ++ option_list cell) = [[ $"abcdefgh" ]; [ $"x" ]; [ $"x" ]].
Proof. do 5 eexists. split; [vm_compute; reflexivity|]. split; vm_compute; reflexivity. Qed.
End Display.
