(* ===== verification/LegacyPolicy.v ===== *)
(** * The legacy execution policy (execpolicy-legacy)

    The original policy engine: a policy is a set of program specifications,
    written as calls of [define_program] and its companions, and a call of
    [execv] is checked by reading its options, assigning its positional
    arguments to the argument patterns and looking for forbidden programs and
    substrings.  Module [Legacy] holds the whole crate: the argument types and
    matchers (arg_type.rs, arg_matcher.rs, opt.rs, sed_command.rs), the matched
    call (valid_exec.rs), the resolution of positional arguments
    (arg_resolver.rs), the check of one program (program.rs) and of a policy
    (policy.rs), the builder behind the policy language (policy_parser.rs), the
    check of the files of a matched call (execv_checker.rs), the command-line
    verdict (main.rs) and the default policy (default.policy).  The theorems
    are in LegacyPolicyFacts.

    The [regex_lite] and [path_absolutize] crates, the Starlark interpreter and
    the file system are parameters. *)

From stdpp Require Import sorting.
From S2P Require Import Prelude AbsPath.

Module Legacy.

(** ** arg_type.rs, arg_matcher.rs, opt.rs *)

Inductive ArgType :=
| TLiteral (literal_value : rstring)
| TOpaqueNonFile
| TReadableFile
| TWriteableFile
| TPositiveInteger
| TSedCommand
| TUnknown.

#[export] Instance ArgType_eq_dec : EqDecision ArgType.
Proof. solve_decision. Defined.

Inductive ArgMatcher :=
| Literal (value : rstring)
| OpaqueNonFile
| ReadableFile
| WriteableFile
| ReadableFiles
| ReadableFilesOrCwd
| PositiveInteger
| SedCommand
| UnverifiedVarargs.

#[export] Instance ArgMatcher_eq_dec : EqDecision ArgMatcher.
Proof. solve_decision. Defined.

Inductive ArgMatcherCardinality := One | AtLeastOne | ZeroOrMore.

Definition cardinality (m : ArgMatcher) : ArgMatcherCardinality :=
  match m with
  | Literal _ | OpaqueNonFile | ReadableFile | WriteableFile | PositiveInteger | SedCommand => One
  | ReadableFiles => AtLeastOne
  | ReadableFilesOrCwd | UnverifiedVarargs => ZeroOrMore
  end.

Definition is_exact (c : ArgMatcherCardinality) : option nat :=
  match c with One => Some 1 | AtLeastOne | ZeroOrMore => None end.

Definition arg_type (m : ArgMatcher) : ArgType :=
  match m with
  | Literal value => TLiteral value
  | OpaqueNonFile => TOpaqueNonFile
  | ReadableFile | ReadableFiles | ReadableFilesOrCwd => TReadableFile
  | WriteableFile => TWriteableFile
  | PositiveInteger => TPositiveInteger
  | SedCommand => TSedCommand
  | UnverifiedVarargs => TUnknown
  end.

Inductive OptMeta := Flag | Value (ty : ArgType).

#[export] Instance OptMeta_eq_dec : EqDecision OptMeta.
Proof. solve_decision. Defined.

Record Opt := { opt_name : rstring; meta : OptMeta; required : bool }.

#[export] Instance Opt_eq_dec : EqDecision Opt.
Proof. solve_decision. Defined.

(** ** error.rs *)

Record PositionalArg := { index : nat; pvalue : rstring }.

#[export] Instance PositionalArg_eq_dec : EqDecision PositionalArg.
Proof. solve_decision. Defined.

(** The kind of an I/O error is carried as the text [DisplayFromStr] gives. *)
Inductive Error :=
| NoSpecForProgram (program : rstring)
| OptionMissingValue (program option : rstring)
| OptionFollowedByOptionInsteadOfValue (program option value : rstring)
| UnknownOption (program option : rstring)
| UnexpectedArguments (program : rstring) (args : list PositionalArg)
| DoubleDashNotSupportedYet (program : rstring)
| MultipleVarargPatterns (program : rstring) (first second : ArgMatcher)
| RangeStartExceedsEnd (start stop : nat)
| RangeEndOutOfBounds (stop len : nat)
| PrefixOverlapsSuffix
| NotEnoughArgs (program : rstring) (args : list PositionalArg) (arg_patterns : list ArgMatcher)
| InternalInvariantViolation (message : rstring)
| VarargMatcherDidNotMatchAnything (program : rstring) (matcher : ArgMatcher)
| EmptyFileName
| LiteralValueDidNotMatch (expected actual : rstring)
| InvalidPositiveInteger (value : rstring)
| MissingRequiredOptions (program : rstring) (options : list rstring)
| SedCommandNotProvablySafe (command : rstring)
| ReadablePathNotInReadableFolders (file : rstring) (folders : list rstring)
| WriteablePathNotInWriteableFolders (file : rstring) (folders : list rstring)
| CannotCheckRelativePath (file : rstring)
| CannotCanonicalizePath (file error : rstring).

#[export] Instance Error_eq_dec : EqDecision Error.
Proof. solve_decision. Defined.

(** ** sed_command.rs *)

Definition U64_MAX : Z := (2 ^ 64 - 1)%Z.

(** [str::parse::<u64>]: an optional plus sign, then at least one ASCII digit,
    and a value that fits. *)
Definition digit_step (acc : option Z) (c : char) : option Z :=
  match acc with
  | None => None
  | Some v =>
      if is_ascii_digit c then
        let v' := (v * 10 + (c - 48))%Z in
        if (v' <=? U64_MAX)%Z then Some v' else None
      else None
  end.

Definition parse_u64 (s : rstring) : option Z :=
  let digits := match strip_prefix $"+" s with Some r => r | None => s end in
  if is_empty digits then None else fold_left digit_step digits (Some 0%Z).

Definition parse_sed_command (sed_command : rstring) : result unit Error :=
  let rejected := Err (SedCommandNotProvablySafe sed_command) in
  match strip_suffix $"p" sed_command with
  | Some stripped =>
      match split_once 44%Z stripped with
      | Some (first, rest) =>
          if bool_decide (is_Some (parse_u64 first)) && bool_decide (is_Some (parse_u64 rest))
          then Ok () else rejected
      | None => rejected
      end
  | None => rejected
  end.

Definition validate (ty : ArgType) (value : rstring) : result unit Error :=
  match ty with
  | TLiteral literal_value =>
      if negb (value =?s literal_value) then Err (LiteralValueDidNotMatch literal_value value)
      else Ok ()
  | TReadableFile => if is_empty value then Err EmptyFileName else Ok ()
  | TWriteableFile => if is_empty value then Err EmptyFileName else Ok ()
  | TOpaqueNonFile | TUnknown => Ok ()
  | TPositiveInteger =>
      match parse_u64 value with
      | Some v => if (v =? 0)%Z then Err (InvalidPositiveInteger value) else Ok ()
      | None => Err (InvalidPositiveInteger value)
      end
  | TSedCommand => parse_sed_command value
  end.

Definition might_write_file (ty : ArgType) : bool :=
  match ty with
  | TWriteableFile | TUnknown => true
  | TLiteral _ | TOpaqueNonFile | TPositiveInteger | TReadableFile | TSedCommand => false
  end.

(** ** valid_exec.rs, exec_call.rs *)

Record MatchedArg := { ma_index : nat; ma_type : ArgType; ma_value : rstring }.
Record MatchedOpt := { mo_name : rstring; mo_value : rstring; mo_type : ArgType }.
Record MatchedFlag := { mf_name : rstring }.

#[export] Instance MatchedArg_eq_dec : EqDecision MatchedArg.
Proof. solve_decision. Defined.
#[export] Instance MatchedOpt_eq_dec : EqDecision MatchedOpt.
Proof. solve_decision. Defined.
#[export] Instance MatchedFlag_eq_dec : EqDecision MatchedFlag.
Proof. solve_decision. Defined.

Definition MatchedArg_new (index : nat) (ty : ArgType) (value : rstring) : result MatchedArg Error :=
  let? _ := validate ty value in
  Ok {| ma_index := index; ma_type := ty; ma_value := value |}.

Definition MatchedOpt_new (name value : rstring) (ty : ArgType) : result MatchedOpt Error :=
  let? _ := validate ty value in
  Ok {| mo_name := name; mo_value := value; mo_type := ty |}.

Record ValidExec := {
  ve_program : rstring;
  flags : list MatchedFlag;
  opts : list MatchedOpt;
  ve_args : list MatchedArg;
  ve_system_path : list rstring }.

#[export] Instance ValidExec_eq_dec : EqDecision ValidExec.
Proof. solve_decision. Defined.

Definition might_write_files (e : ValidExec) : bool :=
  existsb (λ opt, might_write_file (mo_type opt)) (opts e)
  || existsb (λ arg, might_write_file (ma_type arg)) (ve_args e).

Record ExecCall := { ec_program : rstring; ec_args : list rstring }.

#[export] Instance ExecCall_eq_dec : EqDecision ExecCall.
Proof. solve_decision. Defined.

(** ** arg_resolver.rs

    A computation of this module may panic (a slice out of range), fail with an
    [Error] or return: [None], [Some (Err _)] and [Some (Ok _)]. *)

Definition outcome (A : Type) : Type := option (result A Error).

Definition outcome_bind {A B} (m : outcome A) (f : A → outcome B) : outcome B :=
  match m with
  | None => None
  | Some (Err e) => Some (Err e)
  | Some (Ok a) => f a
  end.

Notation "'let!' x := e 'in' k" := (outcome_bind e (fun x => k))
  (at level 10, x pattern, e at level 100, k at level 200) : rust_scope.

(** The slice [l[start..stop]]. *)
Definition slice {A} (l : list A) (start stop : nat) : option (list A) :=
  if (start <=? stop) && (stop <=? length l) then Some (take (stop - start) (drop start l))
  else None.

Definition get_range_checked {A} (l : list A) (start stop : nat) : outcome (list A) :=
  if stop <? start then Some (Err (RangeStartExceedsEnd start stop))
  else if length l <? stop then Some (Err (RangeEndOutOfBounds stop (length l)))
  else Ok <$> slice l start stop.

Record ParitionedArgs := {
  num_prefix_args : nat;
  num_suffix_args : nat;
  prefix_patterns : list ArgMatcher;
  suffix_patterns : list ArgMatcher;
  vararg_pattern : option ArgMatcher }.

Definition ParitionedArgs_default : ParitionedArgs :=
  {| num_prefix_args := 0; num_suffix_args := 0; prefix_patterns := [];
     suffix_patterns := []; vararg_pattern := None |}.

(** The loop of [partition_args], with its local [in_prefix]. *)
Fixpoint partition_loop (program : rstring) (arg_patterns : list ArgMatcher)
    (in_prefix : bool) (pa : ParitionedArgs) : result ParitionedArgs Error :=
  match arg_patterns with
  | [] => Ok pa
  | pattern :: rest =>
      match is_exact (cardinality pattern) with
      | Some n =>
          partition_loop program rest in_prefix
            (if in_prefix then
               {| num_prefix_args := num_prefix_args pa + n; num_suffix_args := num_suffix_args pa;
                  prefix_patterns := prefix_patterns pa ++ [pattern];
                  suffix_patterns := suffix_patterns pa; vararg_pattern := vararg_pattern pa |}
             else
               {| num_prefix_args := num_prefix_args pa; num_suffix_args := num_suffix_args pa + n;
                  prefix_patterns := prefix_patterns pa;
                  suffix_patterns := suffix_patterns pa ++ [pattern];
                  vararg_pattern := vararg_pattern pa |})
      | None =>
          match vararg_pattern pa with
          | None =>
              partition_loop program rest false
                {| num_prefix_args := num_prefix_args pa; num_suffix_args := num_suffix_args pa;
                   prefix_patterns := prefix_patterns pa; suffix_patterns := suffix_patterns pa;
                   vararg_pattern := Some pattern |}
          | Some existing_pattern => Err (MultipleVarargPatterns program existing_pattern pattern)
          end
      end
  end.

Definition partition_args (program : rstring) (arg_patterns : list ArgMatcher)
  : result ParitionedArgs Error :=
  partition_loop program arg_patterns true ParitionedArgs_default.

(** One inner loop: every argument of a segment is matched with one type. *)
Definition match_segment (ty : ArgType) (seg : list PositionalArg) : result (list MatchedArg) Error :=
  collect_results (λ a, MatchedArg_new (index a) ty (pvalue a)) seg.

(** The loops over [prefix_patterns] and [suffix_patterns]: [i] is the next
    index of [part]; the result is the matched arguments and the last index. *)
Fixpoint match_patterns (patterns : list ArgMatcher) (part : list PositionalArg) (i : nat)
    (matched_args : list MatchedArg) : outcome (list MatchedArg * nat) :=
  match patterns with
  | [] => Some (Ok (matched_args, i))
  | pattern :: rest =>
      match is_exact (cardinality pattern) with
      | None => Some (Err (InternalInvariantViolation $"expected exact cardinality"))
      | Some n =>
          match slice part i (i + n) with
          | None => None
          | Some seg =>
              let! ms := Some (match_segment (arg_type pattern) seg) in
              match_patterns rest part (i + n) (matched_args ++ ms)
          end
      end
  end.

(** The step for the vararg pattern, on the arguments between the two others. *)
Definition match_vararg (program : rstring) (pattern : ArgMatcher) (vararg : list PositionalArg)
  : result (list MatchedArg) Error :=
  match cardinality pattern with
  | One => Err (InternalInvariantViolation $"vararg pattern should not have cardinality of one")
  | AtLeastOne =>
      if is_empty vararg then Err (VarargMatcherDidNotMatchAnything program pattern)
      else match_segment (arg_type pattern) vararg
  | ZeroOrMore => match_segment (arg_type pattern) vararg
  end.

Definition resolve_observed_args_with_patterns (program : rstring) (args : list PositionalArg)
    (arg_patterns : list ArgMatcher) : outcome (list MatchedArg) :=
  let! pa := Some (partition_args program arg_patterns) in
  let! prefix := get_range_checked args 0 (num_prefix_args pa) in
  let! (matched_args, prefix_arg_index) := match_patterns (prefix_patterns pa) prefix 0 [] in
  if length args <? num_suffix_args pa then Some (Err (NotEnoughArgs program args arg_patterns))
  else
    let initial_suffix_args_index := length args - num_suffix_args pa in
    if initial_suffix_args_index <? prefix_arg_index then Some (Err PrefixOverlapsSuffix)
    else
      let! matched_args :=
        match vararg_pattern pa with
        | Some pattern =>
            let! vararg := get_range_checked args prefix_arg_index initial_suffix_args_index in
            let! ms := Some (match_vararg program pattern vararg) in
            Some (Ok (matched_args ++ ms))
        | None => Some (Ok matched_args)
        end in
      let! suffix := get_range_checked args initial_suffix_args_index (length args) in
      let! (matched_args, _) := match_patterns (suffix_patterns pa) suffix 0 matched_args in
      if length matched_args <? length args then
        let! extra_args := get_range_checked args (length matched_args) (length args) in
        Some (Err (UnexpectedArguments program extra_args))
      else Some (Ok matched_args).

(** ** program.rs *)

Record ProgramSpec := {
  program : rstring;
  system_path : list rstring;
  option_bundling : bool;
  combined_format : bool;
  allowed_options : gmap rstring Opt;
  arg_patterns : list ArgMatcher;
  forbidden : option rstring;
  required_options : gset rstring;
  should_match : list (list rstring);
  should_not_match : list (list rstring) }.

(** The names of the options that are required, as [filter_map] collects them. *)
Definition required_of (allowed_options : gmap rstring Opt) : gset rstring :=
  dom (filter (λ kv, required kv.2 = true) allowed_options).

Definition ProgramSpec_new (program : rstring) (system_path : list rstring)
    (option_bundling combined_format : bool) (allowed_options : gmap rstring Opt)
    (arg_patterns : list ArgMatcher) (forbidden : option rstring)
    (should_match should_not_match : list (list rstring)) : ProgramSpec :=
  {| program := program; system_path := system_path; option_bundling := option_bundling;
     combined_format := combined_format; allowed_options := allowed_options;
     arg_patterns := arg_patterns; forbidden := forbidden;
     required_options := required_of allowed_options;
     should_match := should_match; should_not_match := should_not_match |}.

Inductive Forbidden :=
| FProgram (program : rstring) (exec_call : ExecCall)
| FArg (arg : rstring) (exec_call : ExecCall)
| FExec (exec : ValidExec).

#[export] Instance Forbidden_eq_dec : EqDecision Forbidden.
Proof. solve_decision. Defined.

Inductive MatchedExec :=
| Match (exec : ValidExec)
| MForbidden (cause : Forbidden) (reason : rstring).

#[export] Instance MatchedExec_eq_dec : EqDecision MatchedExec.
Proof. solve_decision. Defined.

(** The local variables of the loop of [check]. *)
Record Scan := {
  expecting_option_value : option (rstring * ArgType);
  args : list PositionalArg;
  matched_flags : list MatchedFlag;
  matched_opts : list MatchedOpt }.

Definition scan_init : Scan :=
  {| expecting_option_value := None; args := []; matched_flags := []; matched_opts := [] |}.

(** One iteration of the loop. *)
Definition scan_arg (self : ProgramSpec) (s : Scan) (i : nat) (arg : rstring) : result Scan Error :=
  match expecting_option_value s with
  | Some (name, ty) =>
      if starts_with $"-" arg then
        Err (OptionFollowedByOptionInsteadOfValue (program self) name arg)
      else
        let? m := MatchedOpt_new name arg ty in
        Ok {| expecting_option_value := None; args := args s; matched_flags := matched_flags s;
              matched_opts := matched_opts s ++ [m] |}
  | None =>
      if arg =?s $"--" then Err (DoubleDashNotSupportedYet (program self))
      else if starts_with $"-" arg then
        match allowed_options self !! arg with
        | Some opt =>
            match meta opt with
            | Flag =>
                Ok {| expecting_option_value := None; args := args s;
                      matched_flags := matched_flags s ++ [{| mf_name := arg |}];
                      matched_opts := matched_opts s |}
            | Value ty =>
                Ok {| expecting_option_value := Some (arg, ty); args := args s;
                      matched_flags := matched_flags s; matched_opts := matched_opts s |}
            end
        | None => Err (UnknownOption (program self) arg)
        end
      else
        Ok {| expecting_option_value := None;
              args := args s ++ [{| index := i; pvalue := arg |}];
              matched_flags := matched_flags s; matched_opts := matched_opts s |}
  end.

Fixpoint scan_loop (self : ProgramSpec) (s : Scan) (i : nat) (l : list rstring) : result Scan Error :=
  match l with
  | [] => Ok s
  | arg :: l' => let? s' := scan_arg self s i arg in scan_loop self s' (S i) l'
  end.

(** [Vec<String>::sort]: strings compare by their UTF-8 bytes, which is the
    order of their code points. *)
Fixpoint str_leb (a b : rstring) : bool :=
  match a, b with
  | [], _ => true
  | _ :: _, [] => false
  | x :: a', y :: b' => (x <? y)%Z || (x =? y)%Z && str_leb a' b'
  end.

Definition sort_strings (l : list rstring) : list rstring := merge_sort (λ a b, Is_true (str_leb a b)) l.

Definition ProgramSpec_check (self : ProgramSpec) (exec_call : ExecCall) : outcome MatchedExec :=
  let! s := Some (scan_loop self scan_init 0 (ec_args exec_call)) in
  match expecting_option_value s with
  | Some (name, _) => Some (Err (OptionMissingValue (program self) name))
  | None =>
      let! matched_args :=
        resolve_observed_args_with_patterns (program self) (args s) (arg_patterns self) in
      let matched_opt_names : gset rstring := list_to_set (mo_name <$> matched_opts s) in
      if negb (bool_decide (required_options self ⊆ matched_opt_names)) then
        Some (Err (MissingRequiredOptions (program self)
                     (sort_strings (elements (required_options self ∖ matched_opt_names)))))
      else
        let exec := {| ve_program := program self; flags := matched_flags s;
                       opts := matched_opts s; ve_args := matched_args;
                       ve_system_path := system_path self |} in
        match forbidden self with
        | Some reason => Some (Ok (MForbidden (FExec exec) reason))
        | None => Some (Ok (Match exec))
        end
  end.

Record PositiveExampleFailedCheck := { pe_program : rstring; pe_args : list rstring; pe_error : Error }.
Record NegativeExamplePassedCheck := { ne_program : rstring; ne_args : list rstring }.

(** The two lists of examples a specification carries; [None] is a panic of
    the check. *)
Fixpoint verify_should_match (self : ProgramSpec) (good : list (list rstring))
  : option (list PositiveExampleFailedCheck) :=
  match good with
  | [] => Some []
  | g :: rest =>
      r ← ProgramSpec_check self {| ec_program := program self; ec_args := g |};
      violations ← verify_should_match self rest;
      Some (match r with
            | Ok _ => violations
            | Err error =>
                {| pe_program := program self; pe_args := g; pe_error := error |} :: violations
            end)
  end.

Definition verify_should_match_list (self : ProgramSpec) : option (list PositiveExampleFailedCheck) :=
  verify_should_match self (should_match self).

Fixpoint verify_should_not_match (self : ProgramSpec) (bad : list (list rstring))
  : option (list NegativeExamplePassedCheck) :=
  match bad with
  | [] => Some []
  | b :: rest =>
      r ← ProgramSpec_check self {| ec_program := program self; ec_args := b |};
      violations ← verify_should_not_match self rest;
      Some (if is_ok r then {| ne_program := program self; ne_args := b |} :: violations
            else violations)
  end.

Definition verify_should_not_match_list (self : ProgramSpec) : option (list NegativeExamplePassedCheck) :=
  verify_should_not_match self (should_not_match self).

(** ** policy.rs

    The regular expressions of the [regex_lite] crate: [regex_new] is
    [Regex::new], with the text of its error. *)

Class RegexLite := {
  Regex : Type;
  regex_new : rstring → result Regex rstring;
  escape : rstring → rstring;
  is_match : Regex → rstring → bool }.

(** What the crate documents: escaped literals, joined by bars in a group, match
    exactly the texts that contain one of them. *)
Class RegexLiteLaws (R : RegexLite) := {
  literal_alternatives l re text :
    l ≠ [] → regex_new ($"(" ++ join $"|" (escape <$> l) ++ $")") = Ok re →
    is_match re text = existsb (λ s, contains s text) l }.

Section policy.
Context {R : RegexLite}.

Record ForbiddenProgramRegex := { regex : Regex; reason : rstring }.

(** A [MultiMap] is a map of vectors: [insert] appends to the key's vector. *)
Abbreviation MultiMap := (gmap rstring (list ProgramSpec)).

Definition multimap_insert (k : rstring) (v : ProgramSpec) (m : MultiMap) : MultiMap :=
  <[k := default [] (m !! k) ++ [v]]> m.

Record Policy := {
  programs : MultiMap;
  forbidden_program_regexes : list ForbiddenProgramRegex;
  forbidden_substrings_pattern : option Regex }.

Definition Policy_new (programs : MultiMap) (forbidden_program_regexes : list ForbiddenProgramRegex)
    (forbidden_substrings : list rstring) : result Policy rstring :=
  let? pattern :=
    if is_empty forbidden_substrings then Ok None
    else
      let escaped_substrings := join $"|" (escape <$> forbidden_substrings) in
      let? re := regex_new ($"(" ++ escaped_substrings ++ $")") in
      Ok (Some re) in
  Ok {| programs := programs; forbidden_program_regexes := forbidden_program_regexes;
        forbidden_substrings_pattern := pattern |}.

Fixpoint check_program_regexes (l : list ForbiddenProgramRegex) (exec_call : ExecCall)
  : option MatchedExec :=
  match l with
  | [] => None
  | f :: l' =>
      if is_match (regex f) (ec_program exec_call) then
        Some (MForbidden (FProgram (ec_program exec_call) exec_call) (reason f))
      else check_program_regexes l' exec_call
  end.

Fixpoint check_substrings (pattern : option Regex) (l : list rstring) (exec_call : ExecCall)
  : option MatchedExec :=
  match l with
  | [] => None
  | arg :: l' =>
      match pattern with
      | Some re =>
          if is_match re arg then
            Some (MForbidden (FArg arg exec_call)
                    ($"arg `" ++ arg ++ $"` contains forbidden substring"))
          else check_substrings pattern l' exec_call
      | None => check_substrings pattern l' exec_call
      end
  end.

(** The last loop of [check]: the first specification that accepts, or the
    error of the last one. *)
Fixpoint check_specs (specs : list ProgramSpec) (exec_call : ExecCall)
    (last_err : result MatchedExec Error) : outcome MatchedExec :=
  match specs with
  | [] => Some last_err
  | spec :: specs' =>
      match ProgramSpec_check spec exec_call with
      | None => None
      | Some (Ok matched_exec) => Some (Ok matched_exec)
      | Some (Err err) => check_specs specs' exec_call (Err err)
      end
  end.

Definition Policy_check (self : Policy) (exec_call : ExecCall) : outcome MatchedExec :=
  match check_program_regexes (forbidden_program_regexes self) exec_call with
  | Some m => Some (Ok m)
  | None =>
      match check_substrings (forbidden_substrings_pattern self) (ec_args exec_call) exec_call with
      | Some m => Some (Ok m)
      | None =>
          check_specs (default [] (programs self !! ec_program exec_call)) exec_call
            (Err (NoSpecForProgram (ec_program exec_call)))
      end
  end.

(** [MultiMap::flat_iter] goes through the keys in an order of its own. *)
Definition flat_iter (m : MultiMap) : list ProgramSpec := concat (map_to_list m).*2.

Definition check_each_good_list_individually (self : Policy)
  : option (list PositiveExampleFailedCheck) :=
  mjoin <$> mapM verify_should_match_list (flat_iter (programs self)).

Definition check_each_bad_list_individually (self : Policy)
  : option (list NegativeExamplePassedCheck) :=
  mjoin <$> mapM verify_should_not_match_list (flat_iter (programs self)).

(** ** policy_parser.rs *)

Record PolicyBuilder := {
  b_programs : MultiMap;
  b_regexes : list ForbiddenProgramRegex;
  b_substrings : list rstring }.

Definition PolicyBuilder_new : PolicyBuilder :=
  {| b_programs := ∅; b_regexes := []; b_substrings := [] |}.

Definition build (b : PolicyBuilder) : result Policy rstring :=
  Policy_new (b_programs b) (b_regexes b) (b_substrings b).

Definition add_program_spec (spec : ProgramSpec) (b : PolicyBuilder) : PolicyBuilder :=
  {| b_programs := multimap_insert (program spec) spec (b_programs b);
     b_regexes := b_regexes b; b_substrings := b_substrings b |}.

Definition add_forbidden_substrings (substrings : list rstring) (b : PolicyBuilder) : PolicyBuilder :=
  {| b_programs := b_programs b; b_regexes := b_regexes b;
     b_substrings := b_substrings b ++ substrings |}.

Definition add_forbidden_program_regex (re : Regex) (why : rstring) (b : PolicyBuilder)
  : PolicyBuilder :=
  {| b_programs := b_programs b; b_regexes := b_regexes b ++ [{| regex := re; reason := why |}];
     b_substrings := b_substrings b |}.

End policy.

(** The builtins of the policy language.  [opt] and [flag] build options,
    [program_args] are the keyword arguments of [define_program]. *)
Definition opt (name : rstring) (ty : ArgMatcher) (req : option bool) : Opt :=
  {| opt_name := name; meta := Value (arg_type ty); required := default false req |}.

Definition flag (name : rstring) : Opt := {| opt_name := name; meta := Flag; required := false |}.

Record program_args := {
  d_program : rstring;
  d_system_path : option (list rstring);
  d_option_bundling : option bool;
  d_combined_format : option bool;
  d_options : option (list Opt);
  d_args : option (list ArgMatcher);
  d_forbidden : option rstring;
  d_should_match : option (list (list rstring));
  d_should_not_match : option (list (list rstring)) }.

(** The loop that fills [allowed_options]. *)
Fixpoint insert_options (options : list Opt) (allowed : gmap rstring Opt)
  : result (gmap rstring Opt) rstring :=
  match options with
  | [] => Ok allowed
  | o :: rest =>
      match allowed !! opt_name o with
      | Some _ => Err ($"duplicate flag: " ++ opt_name o)
      | None => insert_options rest (<[opt_name o := o]> allowed)
      end
  end.

Definition spec_of_args (a : program_args) : result ProgramSpec rstring :=
  let? allowed_options := insert_options (default [] (d_options a)) ∅ in
  Ok (ProgramSpec_new (d_program a) (default [] (d_system_path a))
        (default false (d_option_bundling a)) (default false (d_combined_format a))
        allowed_options (default [] (d_args a)) (d_forbidden a)
        (default [] (d_should_match a)) (default [] (d_should_not_match a))).

(** A policy file is evaluated to the calls of its builtins, in order. *)
Inductive builtin :=
| define_program (a : program_args)
| forbid_substrings (strings : list rstring)
| forbid_program_regex (re why : rstring).

Section parser.
Context {R : RegexLite}.

Definition run_builtin (b : PolicyBuilder) (c : builtin) : result PolicyBuilder rstring :=
  match c with
  | define_program a => let? spec := spec_of_args a in Ok (add_program_spec spec b)
  | forbid_substrings strings => Ok (add_forbidden_substrings strings b)
  | forbid_program_regex re why =>
      let? compiled_regex := regex_new re in Ok (add_forbidden_program_regex compiled_regex why b)
  end.

Fixpoint run_builtins (b : PolicyBuilder) (l : list builtin) : result PolicyBuilder rstring :=
  match l with
  | [] => Ok b
  | c :: l' => let? b' := run_builtin b c in run_builtins b' l'
  end.

(** [PolicyParser::parse], from the calls Starlark evaluates the file to. *)
Definition parse (calls : list builtin) : result Policy rstring :=
  let? b := run_builtins PolicyBuilder_new calls in
  build b.

(** ** main.rs *)

Definition MATCHED_BUT_WRITES_FILES_EXIT_CODE : Z := 12.
Definition MIGHT_BE_SAFE_EXIT_CODE : Z := 13.
Definition FORBIDDEN_EXIT_CODE : Z := 14.

Inductive Output :=
| OSafe (exec : ValidExec)
| OMatch (exec : ValidExec)
| OForbidden (reason : rstring) (cause : Forbidden)
| OUnverified (error : Error).

Definition check_command (policy : Policy) (prog : rstring) (argv : list rstring) (check : bool)
  : option (Output * Z) :=
  let exec_call := {| ec_program := prog; ec_args := argv |} in
  match Policy_check policy exec_call with
  | None => None
  | Some (Ok (Match exec)) =>
      Some (if might_write_files exec then
              (OMatch exec, if check then MATCHED_BUT_WRITES_FILES_EXIT_CODE else 0%Z)
            else (OSafe exec, 0%Z))
  | Some (Ok (MForbidden cause why)) =>
      Some (OForbidden why cause, if check then FORBIDDEN_EXIT_CODE else 0%Z)
  | Some (Err err) => Some (OUnverified err, if check then MIGHT_BE_SAFE_EXIT_CODE else 0%Z)
  end.

End parser.

(** ** execv_checker.rs

    [absolutize] and [absolutize_from] are those of the [path_absolutize]
    crate, with the kind of their I/O error; [metadata] is [fs::metadata]: is
    it a regular file, and its permission bits. *)

Class Host := {
  absolutize : rstring → result rstring rstring;
  absolutize_from : rstring → rstring → result rstring rstring;
  metadata : rstring → option (bool * Z) }.

Section checker.
Context {H : Host}.

Definition ensure_absolute_path (path : rstring) (cwd : option rstring) : result rstring Error :=
  let canonical r := map_err (CannotCanonicalizePath path) r in
  if negb (Path.is_absolute path) then
    match cwd with
    | Some cwd => canonical (absolutize_from path cwd)
    | None => Err (CannotCheckRelativePath path)
    end
  else canonical (absolutize path).

Definition is_executable_file (path : rstring) : bool :=
  match metadata path with
  | Some (is_file, mode) => is_file && negb (Z.land mode 73 =? 0)%Z
  | None => false
  end.

(** [check_file_in_folders!]. *)
Definition check_file_in_folders (file : rstring) (folders : list rstring)
    (error : rstring → list rstring → Error) : result unit Error :=
  if negb (existsb (λ folder, Path.path_starts_with folder file) folders) then Err (error file folders)
  else Ok ().

Fixpoint check_files (l : list (ArgType * rstring)) (cwd : option rstring)
    (readable_folders writeable_folders : list rstring) : result unit Error :=
  match l with
  | [] => Ok ()
  | (ty, value) :: l' =>
      let? _ :=
        match ty with
        | TReadableFile =>
            let? readable_file := ensure_absolute_path value cwd in
            check_file_in_folders readable_file readable_folders ReadablePathNotInReadableFolders
        | TWriteableFile =>
            let? writeable_file := ensure_absolute_path value cwd in
            check_file_in_folders writeable_file writeable_folders WriteablePathNotInWriteableFolders
        | TOpaqueNonFile | TUnknown | TPositiveInteger | TSedCommand | TLiteral _ => Ok ()
        end in
      check_files l' cwd readable_folders writeable_folders
  end.

(** The loop that replaces the program by the first system path that is an
    executable file. *)
Fixpoint choose_program (prog : rstring) (paths : list rstring) : rstring :=
  match paths with
  | [] => prog
  | p :: paths' => if is_executable_file p then p else choose_program prog paths'
  end.

Definition ExecvChecker_check (valid_exec : ValidExec) (cwd : option rstring)
    (readable_folders writeable_folders : list rstring) : result rstring Error :=
  let? _ := check_files
              (((λ a, (ma_type a, ma_value a)) <$> ve_args valid_exec)
               ++ ((λ o, (mo_type o, mo_value o)) <$> opts valid_exec))
              cwd readable_folders writeable_folders in
  Ok (choose_program (ve_program valid_exec) (ve_system_path valid_exec)).

End checker.

(** ** default.policy: the calls it is evaluated to. *)

Definition arg_opt (name : rstring) (ty : ArgMatcher) : Opt := opt name ty None.

Definition ls_rule : program_args :=
  {| d_program := $"ls"; d_system_path := Some [$"/bin/ls"; $"/usr/bin/ls"];
     d_option_bundling := None; d_combined_format := None;
     d_options := Some [flag $"-1"; flag $"-a"; flag $"-l"];
     d_args := Some [ReadableFilesOrCwd]; d_forbidden := None;
     d_should_match := None; d_should_not_match := None |}.

Definition cat_rule : program_args :=
  {| d_program := $"cat"; d_system_path := Some [$"/bin/cat"; $"/usr/bin/cat"];
     d_option_bundling := None; d_combined_format := None;
     d_options := Some [flag $"-b"; flag $"-n"; flag $"-t"];
     d_args := Some [ReadableFiles]; d_forbidden := None;
     d_should_match := Some [[$"file.txt"]; [$"-n"; $"file.txt"]; [$"-b"; $"file.txt"]];
     d_should_not_match := Some [[]; [$"-l"; $"file.txt"]] |}.

Definition cp_rule : program_args :=
  {| d_program := $"cp"; d_system_path := Some [$"/bin/cp"; $"/usr/bin/cp"];
     d_option_bundling := None; d_combined_format := None;
     d_options := Some [flag $"-r"; flag $"-R"; flag $"--recursive"];
     d_args := Some [ReadableFiles; WriteableFile]; d_forbidden := None;
     d_should_match := Some [[$"foo"; $"bar"]]; d_should_not_match := Some [[$"foo"]] |}.

Definition head_rule : program_args :=
  {| d_program := $"head"; d_system_path := Some [$"/bin/head"; $"/usr/bin/head"];
     d_option_bundling := None; d_combined_format := None;
     d_options := Some [arg_opt $"-c" PositiveInteger; arg_opt $"-n" PositiveInteger];
     d_args := Some [ReadableFiles]; d_forbidden := None;
     d_should_match := None; d_should_not_match := None |}.

Definition printenv_all_rule : program_args :=
  {| d_program := $"printenv"; d_system_path := Some [$"/usr/bin/printenv"];
     d_option_bundling := None; d_combined_format := None; d_options := None;
     d_args := Some []; d_forbidden := None;
     d_should_match := Some [[]]; d_should_not_match := Some [[$"PATH"]] |}.

Definition printenv_one_rule : program_args :=
  {| d_program := $"printenv"; d_system_path := Some [$"/usr/bin/printenv"];
     d_option_bundling := None; d_combined_format := None; d_options := None;
     d_args := Some [OpaqueNonFile]; d_forbidden := None;
     d_should_match := Some [[$"PATH"]]; d_should_not_match := Some [[]; [$"PATH"; $"HOME"]] |}.

Definition pwd_rule : program_args :=
  {| d_program := $"pwd"; d_system_path := None;
     d_option_bundling := None; d_combined_format := None;
     d_options := Some [flag $"-L"; flag $"-P"]; d_args := Some []; d_forbidden := None;
     d_should_match := None; d_should_not_match := None |}.

Definition rg_rule : program_args :=
  {| d_program := $"rg"; d_system_path := Some [];
     d_option_bundling := None; d_combined_format := None;
     d_options := Some [arg_opt $"-A" PositiveInteger; arg_opt $"-B" PositiveInteger;
                        arg_opt $"-C" PositiveInteger; arg_opt $"-d" PositiveInteger;
                        arg_opt $"--max-depth" PositiveInteger; arg_opt $"-g" OpaqueNonFile;
                        arg_opt $"--glob" OpaqueNonFile; arg_opt $"-m" PositiveInteger;
                        arg_opt $"--max-count" PositiveInteger;
                        flag $"-n"; flag $"-i"; flag $"-l"; flag $"--files";
                        flag $"--files-with-matches"; flag $"--files-without-match"];
     d_args := Some [OpaqueNonFile; ReadableFilesOrCwd]; d_forbidden := None;
     d_should_match := Some [[$"-n"; $"init"]; [$"-n"; $"init"; $"."];
                             [$"-i"; $"-n"; $"init"; $"src"];
                             [$"--files"; $"--max-depth"; $"2"; $"."]];
     d_should_not_match := Some [[$"-m"; $"-n"; $"init"]; [$"--glob"; $"src"]] |}.

Definition common_sed_flags : list Opt := [flag $"-n"; flag $"-u"].

Definition sed_rule : program_args :=
  {| d_program := $"sed"; d_system_path := Some [$"/usr/bin/sed"];
     d_option_bundling := None; d_combined_format := None;
     d_options := Some common_sed_flags;
     d_args := Some [SedCommand; ReadableFiles]; d_forbidden := None;
     d_should_match := None; d_should_not_match := None |}.

Definition sed_e_rule : program_args :=
  {| d_program := $"sed"; d_system_path := Some [$"/usr/bin/sed"];
     d_option_bundling := None; d_combined_format := None;
     d_options := Some (common_sed_flags ++ [opt $"-e" SedCommand (Some true)]);
     d_args := Some [ReadableFiles]; d_forbidden := None;
     d_should_match := None; d_should_not_match := None |}.

Definition which_rule : program_args :=
  {| d_program := $"which"; d_system_path := Some [$"/bin/which"; $"/usr/bin/which"];
     d_option_bundling := None; d_combined_format := None;
     d_options := Some [flag $"-a"; flag $"-s"];
     d_args := Some [ReadableFiles]; d_forbidden := None;
     d_should_match := Some [[$"python3"]; [$"-a"; $"python3"]; [$"-a"; $"python3"; $"cargo"]];
     d_should_not_match := Some [[]] |}.

Definition default_rules : list program_args :=
  [ls_rule; cat_rule; cp_rule; head_rule; printenv_all_rule; printenv_one_rule; pwd_rule;
   rg_rule; sed_rule; sed_e_rule; which_rule].

Definition get_default_policy {R : RegexLite} : result Policy rstring :=
  parse (define_program <$> default_rules).

End Legacy.
