(* ===== verification/LegacyPolicyFacts.v ===== *)
(** * Theorems on the legacy execution policy

    The resolution of positional arguments is the assignment of consecutive
    segments to the patterns; a program check accepts exactly the argument
    lists the specification describes; a policy match excludes everything the
    policy forbids; the verdict [safe] of the command line means that no word
    of the command can name a file to write; the check of the files accepts
    exactly the calls whose files lie in the given folders; the default policy
    loads, its examples hold and only its [cp] rule ever writes. *)

From S2P Require Import Prelude AbsPath LegacyPolicy.
Import Legacy.

Module LegacyFacts.

(** ** The specification of a resolution *)

Definition fits (c : ArgMatcherCardinality) (n : nat) : Prop :=
  match c with One => n = 1 | AtLeastOne => 1 ≤ n | ZeroOrMore => True end.

Definition vararg (p : ArgMatcher) : Prop := cardinality p ≠ One.

#[export] Instance ArgMatcherCardinality_eq_dec : EqDecision ArgMatcherCardinality.
Proof. solve_decision. Defined.
#[export] Instance vararg_dec p : Decision (vararg p).
Proof. unfold vararg. apply _. Defined.

Definition at_most_one_vararg (pats : list ArgMatcher) : Prop := length (filter vararg pats) ≤ 1.

(** The argument [a], taken as a value of type [ty], is the matched [m]. *)
Definition taken_as (ty : ArgType) (a : PositionalArg) (m : MatchedArg) : Prop :=
  validate ty (pvalue a) = Ok () ∧
  m = {| ma_index := index a; ma_type := ty; ma_value := pvalue a |}.

(** The arguments are cut, in order, into one segment per pattern, of a length
    its cardinality allows, all of whose values have the pattern's type. *)
Inductive Assigned : list ArgMatcher → list PositionalArg → list MatchedArg → Prop :=
| Assigned_nil : Assigned [] [] []
| Assigned_cons p ps seg rest ms ms' :
    fits (cardinality p) (length seg) → Forall2 (taken_as (arg_type p)) seg ms →
    Assigned ps rest ms' → Assigned (p :: ps) (seg ++ rest) (ms ++ ms').

Lemma MatchedArg_new_Ok i ty v m :
  MatchedArg_new i ty v = Ok m ↔
  validate ty v = Ok () ∧ m = {| ma_index := i; ma_type := ty; ma_value := v |}.
Proof.
  unfold MatchedArg_new. destruct (validate ty v) as [[]|e]; cbn; [|split; [done|by intros []]].
  split; [by intros [= <-]|by intros [_ ->]].
Qed.

Lemma collect_results_iff {A T E} (f : A → result T E) l vs :
  collect_results f l = Ok vs ↔ Forall2 (λ x v, f x = Ok v) l vs.
Proof.
  split; [apply collect_results_Ok|]. induction 1 as [|x v l vs Hx _ IH]; [done|].
  cbn. by rewrite Hx, IH.
Qed.

Lemma match_segment_Ok ty seg ms : match_segment ty seg = Ok ms ↔ Forall2 (taken_as ty) seg ms.
Proof.
  unfold match_segment. rewrite collect_results_iff.
  split; intros H; (eapply Forall2_impl; [exact H|]); intros a m; apply MatchedArg_new_Ok.
Qed.

Lemma Assigned_app p1 p2 args ms :
  Assigned (p1 ++ p2) args ms ↔
  ∃ a1 a2 m1 m2, args = a1 ++ a2 ∧ ms = m1 ++ m2 ∧ Assigned p1 a1 m1 ∧ Assigned p2 a2 m2.
Proof.
  split.
  - revert args ms. induction p1 as [|p p1 IH]; intros args ms H.
    + exists [], args, [], ms. repeat split; [constructor|done].
    + inversion H as [|? ? seg rest m m' Hf Hm Hr]; subst.
      destruct (IH _ _ Hr) as (a1 & a2 & m1 & m2 & -> & -> & H1 & H2).
      exists (seg ++ a1), a2, (m ++ m1), m2. rewrite !app_assoc. repeat split; [by constructor|done].
  - intros (a1 & a2 & m1 & m2 & -> & -> & H1 & H2).
    induction H1; [done|]. cbn. rewrite <-!app_assoc. by constructor.
Qed.

Lemma Assigned_one p args ms :
  Assigned [p] args ms ↔
  fits (cardinality p) (length args) ∧ match_segment (arg_type p) args = Ok ms.
Proof.
  rewrite match_segment_Ok. split.
  - intros H. inversion H as [|? ? seg rest m m' Hf Hm Hr]; subst. inversion Hr; subst.
    by rewrite !app_nil_r.
  - intros [Hf Hm]. rewrite <-(app_nil_r args), <-(app_nil_r ms). by repeat constructor.
Qed.

(** ** Patterns of exactly one argument *)

Definition exact (pats : list ArgMatcher) : Prop := Forall (λ p, cardinality p = One) pats.

Definition pair_match (pa : ArgMatcher * PositionalArg) : result MatchedArg Error :=
  MatchedArg_new (index pa.2) (arg_type pa.1) (pvalue pa.2).

Definition match_pairs (pats : list ArgMatcher) (args : list PositionalArg)
  : result (list MatchedArg) Error := collect_results pair_match (zip pats args).

Lemma collect_results_length {A T E} (f : A → result T E) l vs :
  collect_results f l = Ok vs → length vs = length l.
Proof. intros H%collect_results_Ok. symmetry. by eapply Forall2_length. Qed.

Lemma match_pairs_length pats args ms :
  match_pairs pats args = Ok ms → length ms = length pats `min` length args.
Proof. intros H%collect_results_length. by rewrite H, length_zip. Qed.

Lemma match_pairs_take pats args : match_pairs pats (take (length pats) args) = match_pairs pats args.
Proof. unfold match_pairs. f_equal. apply zip_with_take_r. Qed.

Lemma Assigned_exact pats args ms :
  exact pats →
  Assigned pats args ms ↔ length args = length pats ∧ match_pairs pats args = Ok ms.
Proof.
  intros He. revert args ms. induction He as [|p pats Hp He IH]; intros args ms.
  - split; [intros H; by inversion H|]. intros [->%nil_length_inv [= <-]]. constructor.
  - split.
    + intros H. inversion H as [|? ? seg rest m m' Hf Hm Hr]; subst. rewrite Hp in Hf. cbn in Hf.
      destruct seg as [|a [|]]; try discriminate. apply IH in Hr as [Hl Hr].
      inversion Hm as [|? y ? ys Ha Hn]; subst. inversion Hn; subst. apply MatchedArg_new_Ok in Ha.
      cbn. split; [lia|]. unfold match_pairs in Hr |- *. cbn. unfold pair_match at 1. cbn. by rewrite Ha, Hr.
    + intros [Hl H]. destruct args as [|a args]; [done|]. cbn in Hl. unfold match_pairs in H. cbn in H.
      inv_result. apply (Assigned_cons p pats [a] args [_] _).
      * by rewrite Hp.
      * constructor; [|constructor]. apply MatchedArg_new_Ok. by destruct a.
      * apply IH. split; [lia|done].
Qed.

Lemma list_slice_Some {A} (l : list A) i j :
  i ≤ j → j ≤ length l → slice l i j = Some (take (j - i) (drop i l)).
Proof. intros H1 H2. unfold slice. by rewrite (proj2 (Nat.leb_le _ _) H1), (proj2 (Nat.leb_le _ _) H2). Qed.

Lemma get_range_checked_Ok {A} (l : list A) i j :
  i ≤ j → j ≤ length l → get_range_checked l i j = Some (Ok (take (j - i) (drop i l))).
Proof.
  intros H1 H2. unfold get_range_checked. rewrite (list_slice_Some l i j H1 H2).
  by rewrite (proj2 (Nat.ltb_ge _ _) H1), (proj2 (Nat.ltb_ge _ _) H2).
Qed.

Lemma match_patterns_exact pats part i acc :
  exact pats → i + length pats ≤ length part →
  match_patterns pats part i acc =
  Some (let? ms := match_pairs pats (drop i part) in Ok (acc ++ ms, i + length pats)).
Proof.
  intros He. revert i acc. induction He as [|p pats Hp He IH]; intros i acc Hi.
  { cbn. by rewrite app_nil_r, Nat.add_0_r. }
  cbn [length] in Hi. cbn [match_patterns]. rewrite Hp. cbn [is_exact].
  rewrite list_slice_Some by lia. replace (i + 1 - i) with 1 by lia.
  destruct (lookup_lt_is_Some_2 part i ltac:(lia)) as [a Ha].
  unfold match_pairs. rewrite (drop_S part a i Ha). cbn [take zip zip_with collect_results].
  cbn [match_segment collect_results outcome_bind]. unfold match_segment. cbn [collect_results].
  unfold pair_match at 1. cbn [fst snd].
  destruct (MatchedArg_new (index a) (arg_type p) (pvalue a)) as [m|e]; cbn [result_bind outcome_bind]; [|done].
  rewrite take_0. cbn [collect_results result_bind]. rewrite IH by lia. replace (S i) with (i + 1) by lia. unfold match_pairs.
  destruct (collect_results pair_match (zip pats (drop (i + 1) part))); cbn [result_bind]; [|done].
  by rewrite <-app_assoc, <-Nat.add_assoc.
Qed.

(** ** The partition of the patterns *)

Lemma split_exact pats :
  exact pats ∨ ∃ pre v rest, pats = pre ++ v :: rest ∧ exact pre ∧ vararg v.
Proof.
  induction pats as [|p pats [IH|(pre & v & rest & -> & Hp & Hv)]]; [left; constructor| |].
  - destruct (decide (cardinality p = One)) as [E|E]; [left; by constructor|].
    right. exists [], p, pats. split_and!; [done|constructor|done].
  - destruct (decide (cardinality p = One)) as [E|E]; right.
    + exists (p :: pre), v, rest. split_and!; [done|by constructor|done].
    + exists [], p, (pre ++ v :: rest). split_and!; [done|constructor|done].
Qed.

Lemma vararg_inexact v : vararg v → is_exact (cardinality v) = None.
Proof. unfold vararg. by destruct (cardinality v). Qed.

Lemma partition_prefix prog pre rest pa :
  exact pre →
  partition_loop prog (pre ++ rest) true pa =
  partition_loop prog rest true
    {| num_prefix_args := num_prefix_args pa + length pre; num_suffix_args := num_suffix_args pa;
       prefix_patterns := prefix_patterns pa ++ pre; suffix_patterns := suffix_patterns pa;
       vararg_pattern := vararg_pattern pa |}.
Proof.
  intros He. revert pa. induction He as [|p pre Hp He IH]; intros pa.
  - destruct pa. cbn. by rewrite app_nil_r, Nat.add_0_r.
  - cbn [app partition_loop]. rewrite Hp. cbn [is_exact]. rewrite IH. cbn. f_equal.
    rewrite <-app_assoc. f_equal. lia.
Qed.

Lemma partition_suffix prog suf rest pa :
  exact suf →
  partition_loop prog (suf ++ rest) false pa =
  partition_loop prog rest false
    {| num_prefix_args := num_prefix_args pa; num_suffix_args := num_suffix_args pa + length suf;
       prefix_patterns := prefix_patterns pa; suffix_patterns := suffix_patterns pa ++ suf;
       vararg_pattern := vararg_pattern pa |}.
Proof.
  intros He. revert pa. induction He as [|p suf Hp He IH]; intros pa.
  - destruct pa. cbn. by rewrite app_nil_r, Nat.add_0_r.
  - cbn [app partition_loop]. rewrite Hp. cbn [is_exact]. rewrite IH. cbn. f_equal.
    rewrite <-app_assoc. f_equal. lia.
Qed.

Lemma partition_exact prog pats :
  exact pats →
  partition_args prog pats =
  Ok {| num_prefix_args := length pats; num_suffix_args := 0; prefix_patterns := pats;
        suffix_patterns := []; vararg_pattern := None |}.
Proof.
  intros He. unfold partition_args. rewrite <-(app_nil_r pats) at 1. by rewrite partition_prefix.
Qed.

Lemma partition_vararg prog pre v suf :
  exact pre → vararg v → exact suf →
  partition_args prog (pre ++ v :: suf) =
  Ok {| num_prefix_args := length pre; num_suffix_args := length suf; prefix_patterns := pre;
        suffix_patterns := suf; vararg_pattern := Some v |}.
Proof.
  intros Hp Hv Hs. unfold partition_args. rewrite partition_prefix by done.
  cbn [partition_loop]. rewrite vararg_inexact by done. cbn.
  rewrite <-(app_nil_r suf) at 1. by rewrite partition_suffix.
Qed.

Lemma partition_two_varargs prog pre v mid w rest :
  exact pre → vararg v → exact mid → vararg w →
  partition_args prog (pre ++ v :: mid ++ w :: rest) = Err (MultipleVarargPatterns prog v w).
Proof.
  intros Hp Hv Hm Hw. unfold partition_args. rewrite partition_prefix by done.
  cbn [partition_loop]. rewrite (vararg_inexact v) by done. cbn [vararg_pattern ParitionedArgs_default].
  rewrite partition_suffix by done. cbn [partition_loop]. by rewrite (vararg_inexact w).
Qed.

Lemma filter_exact pats : exact pats → filter vararg pats = [].
Proof.
  induction 1 as [|p pats Hp _ IH]; [done|].
  rewrite filter_cons_False; [done|]. unfold vararg. rewrite Hp. by intros [].
Qed.

(** ** The resolution, in its three cases *)

Lemma resolve_exact prog args pats :
  exact pats →
  resolve_observed_args_with_patterns prog args pats =
  if length args <? length pats then Some (Err (RangeEndOutOfBounds (length pats) (length args)))
  else Some (let? ms := match_pairs pats args in
             if length pats <? length args
             then Err (UnexpectedArguments prog (drop (length pats) args)) else Ok ms).
Proof.
  intros He. unfold resolve_observed_args_with_patterns. rewrite partition_exact by done.
  cbn [outcome_bind num_prefix_args num_suffix_args prefix_patterns suffix_patterns vararg_pattern].
  destruct (length args <? length pats) eqn:Hl.
  { unfold get_range_checked. by rewrite Hl. }
  breflect. rewrite get_range_checked_Ok by lia. cbn [outcome_bind]. rewrite drop_0, Nat.sub_0_r.
  rewrite match_patterns_exact by (rewrite ?length_take; try done; lia). rewrite drop_0.
  rewrite match_pairs_take. destruct (match_pairs pats args) as [ms|e] eqn:E; cbn [result_bind outcome_bind]; [|done].
  apply match_pairs_length in E. cbn [app].
  rewrite (proj2 (Nat.ltb_ge _ _)) by lia. rewrite Nat.sub_0_r, (proj2 (Nat.ltb_ge _ _)) by lia.
  rewrite get_range_checked_Ok by lia. cbn [outcome_bind match_patterns].
  replace (length ms) with (length pats) by lia.
  destruct (length pats <? length args) eqn:Hx; [|done]. breflect.
  rewrite get_range_checked_Ok by lia. cbn [outcome_bind]. do 3 f_equal.
  apply take_ge. rewrite length_drop. lia.
Qed.

Lemma match_vararg_length prog v seg ms :
  match_vararg prog v seg = Ok ms → length ms = length seg.
Proof.
  unfold match_vararg. destruct (cardinality v); [done| |apply collect_results_length].
  destruct (is_empty seg); [done|apply collect_results_length].
Qed.

Lemma resolve_vararg prog args pre v suf :
  exact pre → vararg v → exact suf →
  resolve_observed_args_with_patterns prog args (pre ++ v :: suf) =
  if length args <? length pre then Some (Err (RangeEndOutOfBounds (length pre) (length args)))
  else Some (
    let? m1 := match_pairs pre args in
    if length args <? length suf then Err (NotEnoughArgs prog args (pre ++ v :: suf))
    else if length args - length suf <? length pre then Err PrefixOverlapsSuffix
    else
      let? m2 := match_vararg prog v
                   (take (length args - length suf - length pre) (drop (length pre) args)) in
      let? m3 := match_pairs suf (drop (length args - length suf) args) in
      Ok ((m1 ++ m2) ++ m3)).
Proof.
  intros Hp Hv Hs. unfold resolve_observed_args_with_patterns. rewrite partition_vararg by done.
  cbn [outcome_bind num_prefix_args num_suffix_args prefix_patterns suffix_patterns vararg_pattern].
  destruct (length args <? length pre) eqn:Hl.
  { unfold get_range_checked. by rewrite Hl. }
  breflect. rewrite get_range_checked_Ok by lia. cbn [outcome_bind]. rewrite drop_0, Nat.sub_0_r.
  rewrite match_patterns_exact by (rewrite ?length_take; try done; lia).
  rewrite drop_0, match_pairs_take.
  destruct (match_pairs pre args) as [m1|e] eqn:E1; cbn [result_bind outcome_bind]; [|done].
  apply match_pairs_length in E1. cbn [app Nat.add].
  destruct (length args <? length suf) eqn:Hls; [done|].
  destruct (length args - length suf <? length pre) eqn:Hlp; [done|]. breflect.
  rewrite get_range_checked_Ok by lia. cbn [outcome_bind].
  destruct (match_vararg prog v _) as [m2|e] eqn:E2; cbn [result_bind outcome_bind]; [|done].
  apply match_vararg_length in E2. rewrite length_take, length_drop in E2.
  rewrite get_range_checked_Ok by lia. cbn [outcome_bind].
  rewrite match_patterns_exact by (rewrite ?length_take, ?length_drop; try done; lia). rewrite drop_0.
  rewrite (take_ge (drop _ args)) by (rewrite length_drop; lia).
  destruct (match_pairs suf _) as [m3|e] eqn:E3; cbn [result_bind outcome_bind]; [|done].
  apply match_pairs_length in E3. rewrite length_drop in E3.
  by rewrite (proj2 (Nat.ltb_ge _ _)) by (rewrite !length_app; lia).
Qed.

Lemma match_vararg_Ok prog v seg ms :
  vararg v →
  match_vararg prog v seg = Ok ms ↔
  fits (cardinality v) (length seg) ∧ match_segment (arg_type v) seg = Ok ms.
Proof.
  unfold vararg, match_vararg, fits. intros Hv. destruct (cardinality v); [done| |tauto].
  destruct seg; cbn [is_empty length]; split;
    [done|intros [? _]; lia|intros H; split; [lia|done]|by intros [_ H]].
Qed.

Lemma resolve_vararg_Ok prog args pre v suf ms :
  exact pre → vararg v → exact suf →
  resolve_observed_args_with_patterns prog args (pre ++ v :: suf) = Some (Ok ms) ↔
  Assigned (pre ++ [v] ++ suf) args ms.
Proof.
  intros Hp Hv Hs. rewrite resolve_vararg by done. rewrite Assigned_app. split.
  - destruct (length args <? length pre) eqn:Hl; [done|]. intros [= H].
    destruct (match_pairs pre args) as [m1|] eqn:E1; cbn [result_bind] in H; [|done].
    destruct (length args <? length suf) eqn:Hls; [done|].
    destruct (length args - length suf <? length pre) eqn:Hlp; [done|].
    destruct (match_vararg prog v _) as [m2|] eqn:E2; cbn [result_bind] in H; [|done].
    destruct (match_pairs suf _) as [m3|] eqn:E3; cbn [result_bind] in H; [|done]. inv_result. breflect.
    exists (take (length pre) args), (drop (length pre) args), m1, (m2 ++ m3).
    rewrite take_drop, app_assoc. split_and!; [done|done| |].
    + rewrite Assigned_exact, length_take, match_pairs_take by done. split; [lia|done].
    + apply Assigned_app. eexists _, _, m2, m3.
      split; [symmetry; apply (take_drop (length args - length suf - length pre))|].
      rewrite Assigned_one, Assigned_exact, drop_drop, length_drop by done.
      apply match_vararg_Ok in E2 as [? ?]; [|done]. split_and!; [done|done..|lia|].
      by replace (length pre + (length args - length suf - length pre)) with (length args - length suf) by lia.
  - intros (a1 & a2 & m1 & m2 & -> & -> & H1 & H2). apply Assigned_app in H2 as (a3 & a4 & m3 & m4 & -> & -> & H3 & H4).
    rewrite Assigned_exact in H1, H4 by done. rewrite Assigned_one, <-(match_vararg_Ok prog) in H3 by done.
    destruct H1 as [L1 H1], H4 as [L4 H4]. rewrite !length_app, (proj2 (Nat.ltb_ge _ _)) by lia.
    rewrite <-match_pairs_take, <-L1, take_app_length, H1. cbn [result_bind].
    rewrite !(proj2 (Nat.ltb_ge _ _)) by lia. rewrite drop_app_length.
    replace (length a1 + (length a3 + length a4) - length suf - length a1) with (length a3) by lia.
    rewrite take_app_length, H3. cbn [result_bind].
    replace (length a1 + (length a3 + length a4) - length suf) with (length (a1 ++ a3)) by (rewrite length_app; lia).
    rewrite app_assoc, drop_app_length, H4. cbn [result_bind]. by rewrite app_assoc.
Qed.

Lemma resolve_exact_Ok prog args pats ms :
  exact pats →
  resolve_observed_args_with_patterns prog args pats = Some (Ok ms) ↔ Assigned pats args ms.
Proof.
  intros He. rewrite resolve_exact, Assigned_exact by done. split.
  - destruct (length args <? length pats) eqn:Hl; [done|]. intros [= H]. inv_result.
    destruct (length pats <? length args) eqn:Hl'; [done|]. inv_result. breflect. split; [lia|done].
  - intros [Hl H]. rewrite (proj2 (Nat.ltb_ge _ _)), H by lia. cbn [result_bind].
    by rewrite (proj2 (Nat.ltb_ge _ _)) by lia.
Qed.

(** Whatever the patterns are, the resolution falls in one of three cases. *)
Lemma patterns_cases pats :
  exact pats ∨
  (∃ pre v suf, pats = pre ++ v :: suf ∧ exact pre ∧ vararg v ∧ exact suf) ∨
  (∃ pre v mid w rest, pats = pre ++ v :: mid ++ w :: rest ∧
     exact pre ∧ vararg v ∧ exact mid ∧ vararg w).
Proof.
  destruct (split_exact pats) as [He|(pre & v & suf & -> & Hp & Hv)]; [by left|right].
  destruct (split_exact suf) as [He|(mid & w & rest & -> & Hm & Hw)]; [left|right].
  - by exists pre, v, suf.
  - by exists pre, v, mid, w, rest.
Qed.

Lemma resolve_iff_assigned prog args pats ms :
  resolve_observed_args_with_patterns prog args pats = Some (Ok ms) ↔
  at_most_one_vararg pats ∧ Assigned pats args ms.
Proof.
  unfold at_most_one_vararg.
  destruct (patterns_cases pats) as [He|[(pre & v & suf & -> & Hp & Hv & Hs)|
    (pre & v & mid & w & rest & -> & Hp & Hv & Hm & Hw)]].
  - rewrite resolve_exact_Ok, filter_exact by done. cbn. split; [intros; split; [lia|done]|tauto].
  - rewrite resolve_vararg_Ok by done. rewrite filter_app, filter_cons_True, !filter_exact by done.
    cbn. split; [intros; split; [lia|done]|tauto].
  - unfold resolve_observed_args_with_patterns. rewrite partition_two_varargs by done. cbn [outcome_bind].
    split; [done|]. intros [Hl _]. rewrite filter_app, filter_cons_True, filter_app, filter_cons_True in Hl by done.
    rewrite !length_app in Hl. cbn in Hl. rewrite length_app in Hl. cbn in Hl. lia.
Qed.

(** ** Errors of the resolution *)

(** The errors that report a mistake of the matching itself. *)
Definition internal_error (e : Error) : bool :=
  match e with
  | InternalInvariantViolation _ | RangeStartExceedsEnd _ _ => true
  | _ => false
  end.

Definition regular {A} (m : outcome A) : Prop :=
  ∃ r, m = Some r ∧ ∀ e, r = Err e → internal_error e = false.

Lemma validate_error ty v e : validate ty v = Err e → internal_error e = false.
Proof.
  unfold validate, parse_sed_command. intros H.
  destruct ty; repeat case_scrut_in H; by simplify_eq.
Qed.

Lemma collect_results_error {A T E} (f : A → result T E) (P : E → Prop) l e :
  (∀ x e, f x = Err e → P e) → collect_results f l = Err e → P e.
Proof.
  intros Hf. induction l as [|x l IH]; cbn; [done|].
  destruct (f x) as [v|e'] eqn:E'; cbn; [|intros [= <-]; eauto].
  destruct (collect_results f l); cbn; [done|intros [= <-]; auto].
Qed.

Lemma MatchedArg_new_error i ty v e : MatchedArg_new i ty v = Err e → internal_error e = false.
Proof.
  unfold MatchedArg_new. destruct (validate ty v) eqn:E; cbn; [done|intros [= <-]].
  by eapply validate_error.
Qed.

Lemma match_pairs_error pats args e : match_pairs pats args = Err e → internal_error e = false.
Proof. apply (collect_results_error _ (λ e, internal_error e = false)). intros x e'. apply MatchedArg_new_error. Qed.

Lemma match_vararg_error prog v seg e :
  vararg v → match_vararg prog v seg = Err e → internal_error e = false.
Proof.
  unfold vararg, match_vararg. intros Hv.
  assert (Hs : match_segment (arg_type v) seg = Err e → internal_error e = false)
    by (apply (collect_results_error _ (λ e, internal_error e = false)); intros a e'; apply MatchedArg_new_error).
  destruct (cardinality v); [done| |done]. destruct (is_empty seg); [by intros [= <-]|done].
Qed.

Lemma resolve_regular prog args pats : regular (resolve_observed_args_with_patterns prog args pats).
Proof.
  destruct (patterns_cases pats) as [He|[(pre & v & suf & -> & Hp & Hv & Hs)|
    (pre & v & mid & w & rest & -> & Hp & Hv & Hm & Hw)]].
  - rewrite resolve_exact by done. destruct (_ <? _); eexists; (split; [done|]); intros e; [by intros [= <-]|].
    destruct (match_pairs pats args) as [ms|e'] eqn:E; cbn [result_bind];
      [destruct (_ <? _); by intros [= <-]|].
    intros [= <-]. by eapply match_pairs_error.
  - rewrite resolve_vararg by done. destruct (_ <? _); eexists; (split; [done|]); intros e; [by intros [= <-]|].
    destruct (match_pairs pre args) as [m1|e'] eqn:E1; cbn [result_bind];
      [|intros [= <-]; by eapply match_pairs_error].
    destruct (_ <? _); [by intros [= <-]|]. destruct (_ <? _); [by intros [= <-]|].
    destruct (match_vararg prog v _) as [m2|e'] eqn:E2; cbn [result_bind];
      [|intros [= <-]; by eapply match_vararg_error].
    destruct (match_pairs suf _) as [m3|e'] eqn:E3; cbn [result_bind]; [done|].
    intros [= <-]. by eapply match_pairs_error.
  - unfold resolve_observed_args_with_patterns. rewrite partition_two_varargs by done.
    eexists. split; [done|]. by intros e [= <-].
Qed.

(** ** The specification of a program check *)

Section reads.
Context (self : ProgramSpec).

(** The words of a call, from the position [i] on, read as the flags, options
    with their values and positional arguments the specification declares. *)
Inductive Reads : nat → list rstring →
    list MatchedFlag → list MatchedOpt → list PositionalArg → Prop :=
| Reads_nil i : Reads i [] [] [] []
| Reads_flag i a l o fs os ps :
    starts_with $"-" a = true → a ≠ $"--" → allowed_options self !! a = Some o → meta o = Flag →
    Reads (S i) l fs os ps → Reads i (a :: l) ({| mf_name := a |} :: fs) os ps
| Reads_opt i a v l o ty fs os ps :
    starts_with $"-" a = true → a ≠ $"--" → allowed_options self !! a = Some o → meta o = Value ty →
    starts_with $"-" v = false → validate ty v = Ok () →
    Reads (S (S i)) l fs os ps →
    Reads i (a :: v :: l) fs ({| mo_name := a; mo_value := v; mo_type := ty |} :: os) ps
| Reads_arg i a l fs os ps :
    starts_with $"-" a = false → Reads (S i) l fs os ps →
    Reads i (a :: l) fs os ({| index := i; pvalue := a |} :: ps).

Definition scan_app (s : Scan) fs os ps : Scan :=
  {| expecting_option_value := None; args := args s ++ ps;
     matched_flags := matched_flags s ++ fs; matched_opts := matched_opts s ++ os |}.

Lemma MatchedOpt_new_Ok n v ty m :
  MatchedOpt_new n v ty = Ok m ↔
  validate ty v = Ok () ∧ m = {| mo_name := n; mo_value := v; mo_type := ty |}.
Proof.
  unfold MatchedOpt_new. destruct (validate ty v) as [[]|e]; cbn; [|split; [done|by intros []]].
  split; [by intros [= <-]|by intros [_ ->]].
Qed.

Lemma dash_eqb a : a ≠ $"--" → (a =?s $"--") = false.
Proof. apply str_eqb_neq. Qed.

Lemma reads_scan i l fs os ps s :
  Reads i l fs os ps → expecting_option_value s = None →
  scan_loop self s i l = Ok (scan_app s fs os ps).
Proof.
  intros Hr. revert s. induction Hr as [i|i a l o fs os ps Ha Hd Ho Hm _ IH
    |i a v l o ty fs os ps Ha Hd Ho Hm Hv Hty _ IH|i a l fs os ps Ha _ IH]; intros s He.
  - destruct s; cbn in *; subst. unfold scan_app. cbn. by rewrite !app_nil_r.
  - cbn [scan_loop]. unfold scan_arg. rewrite He, dash_eqb, Ha, Ho, Hm by done. cbn [result_bind].
    rewrite IH by done. unfold scan_app. cbn. by rewrite <-app_assoc.
  - cbn [scan_loop]. unfold scan_arg at 1. rewrite He, dash_eqb, Ha, Ho, Hm by done. cbn [result_bind].
    unfold scan_arg. cbn [expecting_option_value]. rewrite Hv.
    rewrite (proj2 (MatchedOpt_new_Ok a v ty _)) by (split; [done|reflexivity]). cbn [result_bind].
    rewrite IH by done. unfold scan_app. cbn. by rewrite <-app_assoc.
  - cbn [scan_loop]. unfold scan_arg. rewrite He, dash_eqb, Ha by (intros ->; discriminate Ha).
    cbn [result_bind]. rewrite IH by done. unfold scan_app. cbn. by rewrite <-app_assoc.
Qed.

(** One step of the loop that expects no value. *)
Lemma scan_arg_Ok s i a s' :
  expecting_option_value s = None → scan_arg self s i a = Ok s' →
  (starts_with $"-" a = false ∧ s' = scan_app s [] [] [{| index := i; pvalue := a |}]) ∨
  (starts_with $"-" a = true ∧ a ≠ $"--" ∧ ∃ o, allowed_options self !! a = Some o ∧
   ((meta o = Flag ∧ s' = scan_app s [{| mf_name := a |}] [] []) ∨
    ∃ ty, meta o = Value ty ∧
      s' = {| expecting_option_value := Some (a, ty); args := args s;
              matched_flags := matched_flags s; matched_opts := matched_opts s |})).
Proof.
  intros He. unfold scan_arg, scan_app. rewrite He, !app_nil_r.
  destruct (a =?s $"--") eqn:Hd; [done|]. breflect.
  destruct (starts_with $"-" a) eqn:Ha; [|intros [= <-]; by left]. right.
  destruct (allowed_options self !! a) as [o|]; [|done]. split_and!; [done|done|]. exists o.
  split; [done|]. destruct (meta o) as [|ty] eqn:Hm; [left|right; exists ty]; by simplify_eq.
Qed.

(** The step that reads the value of an option. *)
Lemma scan_value_Ok s i n ty v s' :
  expecting_option_value s = Some (n, ty) → scan_arg self s i v = Ok s' →
  starts_with $"-" v = false ∧ validate ty v = Ok () ∧
  s' = scan_app s [] [{| mo_name := n; mo_value := v; mo_type := ty |}] [].
Proof.
  intros He. unfold scan_arg, scan_app. rewrite He, !app_nil_r.
  destruct (starts_with $"-" v); [done|]. intros H. inv_result.
  by apply MatchedOpt_new_Ok in E as [-> ->].
Qed.

Lemma scan_app_app s fs os ps fs' os' ps' :
  scan_app (scan_app s fs os ps) fs' os' ps' = scan_app s (fs ++ fs') (os ++ os') (ps ++ ps').
Proof. unfold scan_app. cbn. by rewrite !app_assoc. Qed.

Lemma scan_reads n i l s s' :
  length l ≤ n → expecting_option_value s = None → expecting_option_value s' = None →
  scan_loop self s i l = Ok s' → ∃ fs os ps, Reads i l fs os ps ∧ s' = scan_app s fs os ps.
Proof.
  revert i l s. induction n as [|n IH]; intros i [|a l] s Hl He He' H; cbn in Hl; try lia.
  1-2: injection H as <-; exists [], [], []; split; [constructor|];
    destruct s; unfold scan_app; cbn in *; subst; by rewrite !app_nil_r.
  cbn [scan_loop] in H. destruct (scan_arg self s i a) as [s1|] eqn:E1; cbn [result_bind] in H; [|done].
  apply scan_arg_Ok in E1 as [[Ha ->]|(Ha & Hd & o & Ho & [[Hm ->]|(ty & Hm & ->)])]; [| | |done].
  - apply IH in H as (fs & os & ps & Hr & ->); [|lia|done..].
    eexists _, _, _. split; [by apply Reads_arg|]. by rewrite scan_app_app.
  - apply IH in H as (fs & os & ps & Hr & ->); [|lia|done..].
    eexists _, _, _. split; [by eapply Reads_flag|]. by rewrite scan_app_app.
  - destruct l as [|v l]; [injection H as <-; discriminate He'|]. cbn [scan_loop] in H.
    destruct (scan_arg self _ (S i) v) as [s2|] eqn:E2; cbn [result_bind] in H; [|done].
    eapply scan_value_Ok in E2 as (Hv & Hty & Hs2); [|reflexivity]. subst s2. cbn in Hl.
    apply IH in H as (fs & os & ps & Hr & ->); [|lia|done..].
    eexists _, _, _. split; [by eapply Reads_opt|]. by rewrite scan_app_app.
Qed.

(** What the specification returns for a call it accepts. *)
Definition verdict (exec : ValidExec) : MatchedExec :=
  match forbidden self with Some why => MForbidden (FExec exec) why | None => Match exec end.

Record accepts (argv : list rstring) (exec : ValidExec) : Prop := {
  acc_program : ve_program exec = program self;
  acc_path : ve_system_path exec = system_path self;
  acc_varargs : at_most_one_vararg (arg_patterns self);
  acc_reads : ∃ ps, Reads 0 argv (flags exec) (opts exec) ps ∧
    Assigned (arg_patterns self) ps (ve_args exec);
  acc_required : ∀ n, n ∈ required_options self → n ∈ mo_name <$> opts exec }.

Lemma required_subset os :
  required_options self ⊆ (list_to_set (mo_name <$> os) : gset rstring) ↔
  ∀ n, n ∈ required_options self → n ∈ mo_name <$> os.
Proof. split; intros H n Hn; apply H in Hn; [by apply elem_of_list_to_set in Hn|by apply elem_of_list_to_set]. Qed.

Lemma ProgramSpec_check_accepts call m :
  ProgramSpec_check self call = Some (Ok m) ↔
  ∃ exec, accepts (ec_args call) exec ∧ m = verdict exec.
Proof.
  unfold ProgramSpec_check. split.
  - destruct (scan_loop self scan_init 0 (ec_args call)) as [s|] eqn:Es; cbn [outcome_bind]; [|done].
    destruct (expecting_option_value s) as [[]|] eqn:He; [done|].
    destruct (resolve_observed_args_with_patterns _ _ _) as [[ms|]|] eqn:Er; cbn [outcome_bind]; [|done..].
    destruct (bool_decide _) eqn:Hb; cbn [negb]; [|done]. apply bool_decide_eq_true in Hb.
    apply (scan_reads _ 0 _ _ _ (le_n _)) in Es as (fs & os & ps & Hr & ->); [|done..].
    apply resolve_iff_assigned in Er as [Hv Ha]. intros H. eexists.
    split; [|by unfold verdict; destruct (forbidden self); injection H as <-].
    constructor; cbn; [done..|by exists ps|]. by apply required_subset.
  - intros (exec & [Hp Hs Hv (ps & Hr & Ha) Hq] & ->).
    rewrite (reads_scan _ _ _ _ _ scan_init Hr eq_refl). unfold scan_app. cbn [outcome_bind scan_init
      expecting_option_value args matched_flags matched_opts app].
    rewrite (proj2 (resolve_iff_assigned _ _ _ _) (conj Hv Ha)). cbn [outcome_bind].
    rewrite bool_decide_true by (by apply required_subset). cbn [negb].
    destruct exec; cbn in *; subst. unfold verdict. by destruct (forbidden self).
Qed.

Lemma ProgramSpec_check_total call : ∃ r, ProgramSpec_check self call = Some r.
Proof.
  unfold ProgramSpec_check. destruct (scan_loop _ _ _ _) as [s|]; cbn [outcome_bind]; [|eauto].
  destruct (expecting_option_value s) as [[]|]; [eauto|].
  destruct (resolve_regular (program self) (args s) (arg_patterns self)) as (r & -> & _).
  destruct r; cbn [outcome_bind]; [|eauto].
  destruct (negb _); [eauto|]. destruct (forbidden self); eauto.
Qed.

End reads.

(** ** What an accepted call may write *)

Definition option_writes (o : Opt) : bool :=
  match meta o with Flag => false | Value ty => might_write_file ty end.

(** Every word of a list that is read has a role. *)
Definition option_value (self : ProgramSpec) (m : MatchedOpt) : Prop :=
  validate (mo_type m) (mo_value m) = Ok () ∧
  ∃ o, allowed_options self !! mo_name m = Some o ∧ meta o = Value (mo_type m).

Lemma Reads_options self i l fs os ps :
  Reads self i l fs os ps → Forall (option_value self) os.
Proof.
  induction 1 as [|i a l o fs os ps Ha Hd Ho Hm _ IH
    |i a v l o ty fs os ps Ha Hd Ho Hm Hv Hty _ IH|i a l fs os ps Ha _ IH]; try done.
  constructor; [|done]. split; cbn; eauto.
Qed.

Lemma Reads_words self i l fs os ps w :
  Reads self i l fs os ps → w ∈ l →
  (∃ o, allowed_options self !! w = Some o ∧ meta o = Flag) ∨
  (∃ m, m ∈ os ∧ (w = mo_name m ∨ w = mo_value m)) ∨
  (∃ a, a ∈ ps ∧ w = pvalue a).
Proof.
  induction 1 as [|i a l o fs os ps Ha Hd Ho Hm _ IH
    |i a v l o ty fs os ps Ha Hd Ho Hm Hv Hty _ IH|i a l fs os ps Ha _ IH]; intros Hw.
  - by apply elem_of_nil in Hw.
  - apply elem_of_cons in Hw as [->|Hw]; [left; eauto|auto].
  - rewrite !elem_of_cons in Hw. destruct Hw as [->|[->|Hw]].
    1-2: right; left; eexists; (split; [apply elem_of_cons; by left|]); cbn; auto.
    destruct (IH Hw) as [H|[(m & Hm' & H)|H]]; auto.
    right; left. exists m. split; [by apply elem_of_cons; right|done].
  - apply elem_of_cons in Hw as [->|Hw].
    { right; right. eexists. split; [apply elem_of_cons; by left|done]. }
    destruct (IH Hw) as [H|[H|(b & Hb & H)]]; auto.
    right; right. exists b. split; [by apply elem_of_cons; right|done].
Qed.

(** Every positional argument is taken as a value of one of the patterns. *)
Lemma Assigned_args pats args ms a :
  Assigned pats args ms → a ∈ args →
  ∃ p m, p ∈ pats ∧ m ∈ ms ∧ taken_as (arg_type p) a m.
Proof.
  induction 1 as [|p ps seg rest ms ms' Hf Hm _ IH]; intros Ha; [by apply elem_of_nil in Ha|].
  apply elem_of_app in Ha as [Ha|Ha].
  - apply list_elem_of_lookup_1 in Ha as [k Hk].
    destruct (Forall2_lookup_l _ _ _ _ _ Hm Hk) as (m & Hmk & Ht).
    exists p, m. split_and!; [apply elem_of_cons; by left| |done].
    apply elem_of_app. left. by eapply list_elem_of_lookup_2.
  - destruct (IH Ha) as (q & m & Hq & Hm' & Ht). exists q, m.
    split_and!; [by apply elem_of_cons; right|by apply elem_of_app; right|done].
Qed.

Lemma Assigned_matched pats args ms m :
  Assigned pats args ms → m ∈ ms → ∃ p, p ∈ pats ∧ ma_type m = arg_type p.
Proof.
  induction 1 as [|p ps seg rest ms ms' Hf Hm _ IH]; intros Hin; [by apply elem_of_nil in Hin|].
  apply elem_of_app in Hin as [Hin|Hin].
  - apply list_elem_of_lookup_1 in Hin as [k Hk].
    destruct (Forall2_lookup_r _ _ _ _ _ Hm Hk) as (a & _ & _ & ->).
    exists p. split; [apply elem_of_cons; by left|done].
  - destruct (IH Hin) as (q & Hq & Ht). exists q. split; [by apply elem_of_cons; right|done].
Qed.

Lemma existsb_false_elem {A} (f : A → bool) l : existsb f l = false ↔ ∀ x, x ∈ l → f x = false.
Proof.
  rewrite <-not_true_iff_false, existsb_exists. split.
  - intros H x Hx. destruct (f x) eqn:E; [|done]. destruct H. exists x. by rewrite <-list_elem_of_In.
  - intros H (x & Hx & Hf). apply list_elem_of_In in Hx. by rewrite (H x Hx) in Hf.
Qed.

(** The roles a word of an accepted call may have when the call is known to
    write nothing: none of them names a file to write. *)
Definition harmless_word (self : ProgramSpec) (w : rstring) : Prop :=
  (∃ o, allowed_options self !! w = Some o ∧ option_writes o = false) ∨
  (∃ n o ty, allowed_options self !! n = Some o ∧ meta o = Value ty ∧
     might_write_file ty = false ∧ validate ty w = Ok ()) ∨
  (∃ p, p ∈ arg_patterns self ∧ might_write_file (arg_type p) = false ∧
     validate (arg_type p) w = Ok ()).

Lemma accepts_harmless self argv exec :
  accepts self argv exec → might_write_files exec = false → Forall (harmless_word self) argv.
Proof.
  intros [_ _ _ (ps & Hr & Ha) _] Hw. unfold might_write_files in Hw.
  apply orb_false_iff in Hw as [Hwo Hwa].
  pose proof (proj1 (existsb_false_elem _ _) Hwo) as Ho. pose proof (proj1 (existsb_false_elem _ _) Hwa) as Hargs. apply Forall_forall. intros w Hin.
  destruct (Reads_words _ _ _ _ _ _ _ Hr Hin) as [(o & Hl & Hm)|[(m & Hm & Hv)|(a & Hin' & ->)]].
  - left. exists o. unfold option_writes. by rewrite Hm.
  - assert (Hval := proj1 (Forall_forall _ _) (Reads_options _ _ _ _ _ _ Hr) m Hm).
    destruct Hval as (Hty & o & Hl & Hmeta). destruct Hv as [->| ->].
    + left. exists o. unfold option_writes. rewrite Hmeta. split; [done|by apply Ho].
    + right; left. exists (mo_name m), o, (mo_type m). split_and!; try done. by apply Ho.
  - destruct (Assigned_args _ _ _ _ Ha Hin') as (p & m & Hp & Hm & Hty & ->).
    right; right. exists p. split_and!; [done| |done].
    apply (Hargs _ Hm).
Qed.

(** A specification none of whose patterns and options can write. *)
Lemma accepts_no_writes self argv exec :
  accepts self argv exec →
  (∀ p, p ∈ arg_patterns self → might_write_file (arg_type p) = false) →
  (∀ n o, allowed_options self !! n = Some o → option_writes o = false) →
  might_write_files exec = false.
Proof.
  intros [_ _ _ (ps & Hr & Ha) _] Hp Ho. unfold might_write_files. apply orb_false_iff.
  split; apply (proj2 (existsb_false_elem _ _)).
  - intros m Hm. assert (Hv := proj1 (Forall_forall _ _) (Reads_options _ _ _ _ _ _ Hr) m Hm).
    destruct Hv as (_ & o & Hl & Hmeta). apply Ho in Hl. unfold option_writes in Hl. by rewrite Hmeta in Hl.
  - intros m Hm. destruct (Assigned_matched _ _ _ _ Ha Hm) as (p & Hin & ->). by apply Hp.
Qed.

End LegacyFacts.
