(* ===== verification/LegacyPolicyTheorems.v ===== *)
(** * The legacy execution policy: theorems on the policy and its verdicts

    On top of LegacyPolicyFacts: the check of a whole policy, the verdict of
    the command line, the check of the files of a matched call and the default
    policy, with an instance of the regular-expression interface that shows
    its law can hold. *)

From S2P Require Import Prelude AbsPath LegacyPolicy LegacyPolicyFacts.
Import Legacy LegacyFacts.

Module LegacyTheorems.

(** ** The parts of a policy check *)

Section policy.
Context {R : RegexLite} {L : RegexLiteLaws R}.

Lemma check_program_regexes_None l call :
  check_program_regexes l call = None ↔ ∀ f, f ∈ l → is_match (regex f) (ec_program call) = false.
Proof.
  induction l as [|f l IH]; cbn; [split; [intros _ f Hf; by apply elem_of_nil in Hf|done]|].
  destruct (is_match (regex f) (ec_program call)) eqn:E.
  - split; [done|]. intros H. specialize (H f ltac:(apply elem_of_cons; by left)). congruence.
  - rewrite IH. split; intros H g; [|intros Hg; apply H; apply elem_of_cons; by right].
    intros [->|Hg]%elem_of_cons; auto.
Qed.

Lemma check_program_regexes_forbids l call m :
  check_program_regexes l call = Some m → ∃ cause why, m = MForbidden cause why.
Proof. induction l; cbn; [done|]. destruct (is_match _ _); [|done]. intros [= <-]. eauto. Qed.

Lemma check_substrings_forbids pat l call m :
  check_substrings pat l call = Some m → ∃ cause why, m = MForbidden cause why.
Proof.
  induction l as [|a l IH]; cbn; [done|]. destruct pat as [re|]; [|done].
  destruct (is_match _ _); [|done]. intros [= <-]. eauto.
Qed.

Lemma check_substrings_None subs pat l call :
  (if is_empty subs then Ok None
   else let? re := regex_new ($"(" ++ join $"|" (escape <$> subs) ++ $")") in Ok (Some re)) = Ok pat →
  check_substrings pat l call = None ↔ ∀ a s, a ∈ l → s ∈ subs → contains s a = false.
Proof.
  intros Hp. destruct subs as [|s0 subs]; cbn [is_empty] in Hp.
  { injection Hp as <-. split; [intros _ a s _ Hs; by apply elem_of_nil in Hs|].
    intros _. by induction l. }
  inv_result. assert (Hm := λ text, literal_alternatives _ _ text (not_eq_sym (@nil_cons _ s0 subs)) E).
  induction l as [|a l IH]; cbn [check_substrings].
  { split; [intros _ a s Ha; by apply elem_of_nil in Ha|done]. }
  rewrite Hm. destruct (existsb (λ s, contains s a) (s0 :: subs)) eqn:Ea.
  - split; [done|]. intros H. apply existsb_exists in Ea as (s & Hs%list_elem_of_In & Hc).
    specialize (H a s ltac:(apply elem_of_cons; by left) Hs). congruence.
  - rewrite IH. pose proof (proj1 (existsb_false_elem _ _) Ea) as Hf.
    split; intros H b s; [|intros Hb; apply H; apply elem_of_cons; by right].
    intros [->|Hb]%elem_of_cons Hs; [by apply Hf|by apply (H b s)].
Qed.

Lemma check_specs_Ok specs call e m :
  check_specs specs call (Err e) = Some (Ok m) ↔
  ∃ pre spec post exec, specs = pre ++ spec :: post ∧
    (∀ s exec', s ∈ pre → ¬ accepts s (ec_args call) exec') ∧
    accepts spec (ec_args call) exec ∧ m = verdict spec exec.
Proof.
  revert e. induction specs as [|s specs IH]; intros e; cbn [check_specs].
  { split; [done|]. intros ([|] & ? & ? & ? & ? & _); discriminate. }
  destruct (ProgramSpec_check_total s call) as [[m'|e'] Hc]; rewrite Hc.
  - apply ProgramSpec_check_accepts in Hc as (exec & Ha & ->). split.
    + intros [= <-]. exists [], s, specs, exec. split_and!; try done. intros ? ? Hin. by apply elem_of_nil in Hin.
    + intros ([|x pre] & spec & post & exec' & [= -> ->] & Hpre & Ha' & ->).
      * do 2 f_equal. assert (H1 := proj2 (ProgramSpec_check_accepts spec call _) (ex_intro _ _ (conj Ha eq_refl))).
        assert (H2 := proj2 (ProgramSpec_check_accepts spec call _) (ex_intro _ _ (conj Ha' eq_refl))). congruence.
      * by destruct (Hpre x exec ltac:(apply elem_of_cons; by left)).
  - rewrite IH. assert (Hn : ∀ exec, ¬ accepts s (ec_args call) exec).
    { intros exec Ha. assert (H1 := proj2 (ProgramSpec_check_accepts s call _) (ex_intro _ _ (conj Ha eq_refl))). congruence. }
    split.
    + intros (pre & spec & post & exec & -> & Hpre & Ha & ->). exists (s :: pre), spec, post, exec.
      split_and!; try done. intros x exec' [->|Hx]%elem_of_cons; [apply Hn|by apply Hpre].
    + intros ([|x pre] & spec & post & exec & [= -> ->] & Hpre & Ha & ->); [by destruct (Hn exec)|].
      exists pre, spec, post, exec. split_and!; try done. intros y exec' Hy. apply Hpre, elem_of_cons. by right.
Qed.

Lemma check_specs_total specs call e : ∃ r, check_specs specs call e = Some r.
Proof.
  revert e. induction specs as [|s specs IH]; intros e; cbn [check_specs]; [eauto|].
  destruct (ProgramSpec_check_total s call) as [[m|e'] ->]; eauto.
Qed.

(** Nothing the builder was told to forbid occurs in the call. *)
Definition not_forbidden (b : PolicyBuilder) (call : ExecCall) : Prop :=
  (∀ f, f ∈ b_regexes b → is_match (regex f) (ec_program call) = false) ∧
  (∀ a s, a ∈ ec_args call → s ∈ b_substrings b → contains s a = false).

(** [exec] is what the first specification of the program that accepts the
    call makes of it, and that specification allows it. *)
Definition first_accepting (b : PolicyBuilder) (call : ExecCall) (spec : ProgramSpec)
    (exec : ValidExec) : Prop :=
  ∃ pre post, default [] (b_programs b !! ec_program call) = pre ++ spec :: post ∧
    (∀ s exec', s ∈ pre → ¬ accepts s (ec_args call) exec') ∧
    accepts spec (ec_args call) exec.

Lemma Policy_check_Match b pol call exec :
  build b = Ok pol →
  Policy_check pol call = Some (Ok (Match exec)) ↔
  not_forbidden b call ∧ ∃ spec, first_accepting b call spec exec ∧ forbidden spec = None.
Proof.
  intros Hb. unfold build, Policy_new in Hb.
  destruct (if is_empty (b_substrings b) then _ else _) as [pat|] eqn:Hp in Hb; [|done]. injection Hb as <-.
  unfold Policy_check, not_forbidden, first_accepting. cbn [programs forbidden_program_regexes forbidden_substrings_pattern].
  rewrite <-(check_program_regexes_None _ call), <-(check_substrings_None _ _ _ call Hp).
  destruct (check_program_regexes (b_regexes b) call) as [m|] eqn:E1.
  { apply check_program_regexes_forbids in E1 as (? & ? & ->). split; [done|by intros [[] _]]. }
  destruct (check_substrings pat (ec_args call) call) as [m|] eqn:E2.
  { apply check_substrings_forbids in E2 as (? & ? & ->). split; [done|by intros [[] _]]. }
  rewrite check_specs_Ok. unfold verdict. split.
  - intros (pre & spec & post & exec' & Hs & Hpre & Ha & Hm). split; [done|]. exists spec.
    destruct (forbidden spec); [done|]. injection Hm as ->. split; [|done]. by exists pre, post.
  - intros [_ (spec & (pre & post & Hs & Hpre & Ha) & Hf)]. exists pre, spec, post, exec.
    rewrite Hf. done.
Qed.

Lemma Policy_check_total pol call : ∃ r, Policy_check pol call = Some r.
Proof.
  unfold Policy_check. destruct (check_program_regexes _ _); [eauto|].
  destruct (check_substrings _ _ _); [eauto|]. apply check_specs_total.
Qed.

End policy.

(** ** The files of a matched call *)

Section files.
Context {H : Host}.

(** The value [v], taken as a file, resolves to a path below one of [folders]. *)
Definition file_inside (cwd : option rstring) (folders : list rstring) (v : rstring) : Prop :=
  ∃ file folder, ensure_absolute_path v cwd = Ok file ∧ folder ∈ folders ∧
    Path.path_starts_with folder file = true.

Definition typed_values (e : ValidExec) : list (ArgType * rstring) :=
  ((λ a, (ma_type a, ma_value a)) <$> ve_args e) ++ ((λ o, (mo_type o, mo_value o)) <$> opts e).

Definition value_inside cwd readable writeable (tv : ArgType * rstring) : Prop :=
  match tv.1 with
  | TReadableFile => file_inside cwd readable tv.2
  | TWriteableFile => file_inside cwd writeable tv.2
  | _ => True
  end.

Lemma check_file_Ok cwd folders v err :
  (let? file := ensure_absolute_path v cwd in check_file_in_folders file folders err) = Ok () ↔
  file_inside cwd folders v.
Proof.
  unfold check_file_in_folders, file_inside.
  destruct (ensure_absolute_path v cwd) as [file|e]; cbn [result_bind];
    [|split; [done|by intros (? & ? & ? & _)]].
  destruct (existsb _ folders) eqn:E; cbn [negb]; split; try done.
  - intros _. apply existsb_exists in E as (d & Hd%list_elem_of_In & Hs). by exists file, d.
  - intros (f & d & [= <-] & Hd & Hs). pose proof (proj1 (existsb_false_elem _ _) E d Hd). cbn in *. congruence.
Qed.

Lemma check_files_Ok l cwd readable writeable :
  check_files l cwd readable writeable = Ok () ↔ Forall (value_inside cwd readable writeable) l.
Proof.
  induction l as [|[ty v] l IH]; cbn [check_files]; [by rewrite Forall_nil|].
  rewrite Forall_cons, <-IH. unfold value_inside at 1. cbn [fst snd].
  destruct ty; cbn [result_bind]; try tauto; rewrite <-(check_file_Ok cwd _ v);
    match goal with |- result_bind ?e _ = _ ↔ _ => destruct e as [[]|] eqn:E end; cbn [result_bind];
    rewrite ?E; by split; [|intros []].
Qed.

(** The first system path that is executable, or the name of the program. *)
Definition chosen_program (e : ValidExec) (prog : rstring) : Prop :=
  (prog = ve_program e ∧ ∀ p, p ∈ ve_system_path e → is_executable_file p = false) ∨
  ∃ pre post, ve_system_path e = pre ++ prog :: post ∧ is_executable_file prog = true ∧
    ∀ p, p ∈ pre → is_executable_file p = false.

Lemma choose_program_spec prog paths :
  (choose_program prog paths = prog ∧ ∀ p, p ∈ paths → is_executable_file p = false) ∨
  ∃ pre q post, choose_program prog paths = q ∧ paths = pre ++ q :: post ∧
    is_executable_file q = true ∧ ∀ p, p ∈ pre → is_executable_file p = false.
Proof.
  induction paths as [|p paths IH]; cbn [choose_program].
  { left. split; [done|]. intros p Hp. by apply elem_of_nil in Hp. }
  destruct (is_executable_file p) eqn:E.
  { right. exists [], p, paths. split_and!; try done. intros q Hq. by apply elem_of_nil in Hq. }
  destruct IH as [[-> Hn]|(pre & q & post & -> & -> & Hq & Hn)]; [left|right].
  - split; [done|]. intros q [->|Hq]%elem_of_cons; auto.
  - exists (p :: pre), q, post. split_and!; try done. intros r [->|Hr]%elem_of_cons; auto.
Qed.

(** [ExecvChecker::check] accepts a matched call exactly when
    every value taken as a readable file resolves (against the working
    directory where it is relative) to a path below a readable folder and every
    value taken as a writeable file to one below a writeable folder, by whole
    components; and the program it returns is the first system path that is an
    executable file, or else the program's own name. *)
Theorem legacy_files_inside e cwd readable writeable :
  (is_ok (ExecvChecker_check e cwd readable writeable) = true ↔
   Forall (value_inside cwd readable writeable) (typed_values e)) ∧
  ∀ prog, ExecvChecker_check e cwd readable writeable = Ok prog → chosen_program e prog.
Proof.
  unfold ExecvChecker_check. rewrite <-check_files_Ok. unfold typed_values.
  destruct (check_files _ _ _ _) as [[]|err]; cbn [result_bind is_ok]; (split; [by split|]); [|done].
  intros prog [= <-]. unfold chosen_program.
  destruct (choose_program_spec (ve_program e) (ve_system_path e)) as [?|(pre & q & post & -> & ?)]; eauto 6.
Qed.

End files.

(** A host with two executables, and paths resolved by the component model of
    absolute paths. *)
#[local] Instance demo_host : Host := {|
  absolutize p := Ok (Path.normalize_path p);
  absolutize_from p cwd := Ok (Path.absolutize_from p cwd);
  metadata p := if p =?s $"/usr/bin/cp" then Some (true, 493%Z) else None |}.

Definition demo_cp : ValidExec :=
  {| ve_program := $"cp"; flags := []; opts := [];
     ve_args := [{| ma_index := 0; ma_type := TReadableFile; ma_value := $"a" |};
                 {| ma_index := 1; ma_type := TWriteableFile; ma_value := $"/w/out/../b" |}];
     ve_system_path := [$"/bin/cp"; $"/usr/bin/cp"] |}.

Lemma legacy_files_inside_witness :
  Forall (value_inside (Some $"/r") [$"/r"] [$"/w"]) (typed_values demo_cp) ∧
  chosen_program demo_cp $"/usr/bin/cp".
Proof.
  split.
  - apply (legacy_files_inside demo_cp (Some $"/r") [$"/r"] [$"/w"]). reflexivity.
  - apply (legacy_files_inside demo_cp (Some $"/r") [$"/r"] [$"/w"]). reflexivity.
Defined.

(** ** The verdict of the command line *)

(** An instance of the interface of regular expressions: escaping puts a
    backslash before every character, and only groups of escaped alternatives
    compile. *)
Fixpoint escape_all (s : rstring) : rstring :=
  match s with [] => [] | c :: s' => 92%Z :: c :: escape_all s' end.

Fixpoint alternatives (s : rstring) : option (list rstring) :=
  match s with
  | [] => Some [[]]
  | (124 :: s')%Z => cons [] <$> alternatives s'
  | (92 :: c :: s')%Z =>
      match alternatives s' with Some (h :: t) => Some ((c :: h) :: t) | _ => None end
  | _ => None
  end.

Definition compile_group (s : rstring) : result (list rstring) rstring :=
  match (strip_prefix $"(" s ≫= strip_suffix $")") ≫= alternatives with
  | Some l => Ok l
  | None => Err $"unsupported expression"
  end.

#[local] Instance group_regex : RegexLite := {|
  Regex := list rstring;
  regex_new := compile_group;
  escape := escape_all;
  is_match l text := existsb (λ s, contains s text) l |}.

Lemma alternatives_escape a s h t :
  alternatives s = Some (h :: t) → alternatives (escape_all a ++ s) = Some ((a ++ h) :: t).
Proof. intros Hs. induction a as [|c a IH]; [done|]. cbn [escape_all app alternatives]. by rewrite IH. Qed.

Lemma alternatives_join l : l ≠ [] → alternatives (join $"|" (escape_all <$> l)) = Some l.
Proof.
  induction l as [|a [|b l] IH]; intros Hl; [done| |].
  - cbn [fmap list_fmap join]. rewrite <-(app_nil_r (escape_all a)).
    rewrite (alternatives_escape a [] [] []) by done. by rewrite app_nil_r.
  - change (escape_all <$> a :: b :: l) with (escape_all a :: (escape_all <$> b :: l)).
    rewrite join_cons by done. rewrite (alternatives_escape a _ [] (b :: l)); [by rewrite app_nil_r|].
    assert (Hj := IH ltac:(done)). revert Hj. generalize (join $"|" (escape_all <$> b :: l)).
    intros r Hr. cbn. by rewrite Hr.
Qed.

#[local] Instance group_regex_laws : RegexLiteLaws group_regex.
Proof.
  constructor. intros l re text Hl. cbn [regex_new is_match escape group_regex]. unfold compile_group.
  rewrite strip_prefix_app. cbn [mbind option_bind].
  rewrite strip_suffix_app. cbn [mbind option_bind]. rewrite alternatives_join by done. by intros [= <-].
Qed.

(** The resolution of the positional arguments never panics
    on a slice and never reports an error of its own bookkeeping, and it
    succeeds exactly when the patterns have at most one vararg and the
    arguments can be cut, in order, into one segment per pattern, each of a
    length its cardinality allows and of values of its type; its result lists
    every argument once, with its index and that type. *)
Theorem legacy_resolution_assigns prog argv pats :
  regular (resolve_observed_args_with_patterns prog argv pats) ∧
  ∀ ms, resolve_observed_args_with_patterns prog argv pats = Some (Ok ms) ↔
    at_most_one_vararg pats ∧ Assigned pats argv ms.
Proof. split; [apply resolve_regular|]. intros ms. apply resolve_iff_assigned. Qed.

(** The check of one program accepts a call exactly when its
    words read as declared flags, declared options with a value of their type,
    and positional arguments that the patterns take, and no required option is
    missing; what it returns is the call so read, forbidden when the
    specification says so.  It never panics. *)
Theorem legacy_check_accepts self call :
  (∃ r, ProgramSpec_check self call = Some r) ∧
  ∀ m, ProgramSpec_check self call = Some (Ok m) ↔
    ∃ exec, accepts self (ec_args call) exec ∧ m = verdict self exec.
Proof. split; [apply ProgramSpec_check_total|]. intros m. apply ProgramSpec_check_accepts. Qed.

Section verdicts.
Context {R : RegexLite} {L : RegexLiteLaws R}.

(** A policy matches a call exactly when the program matches
    no forbidden expression, no argument contains a forbidden substring, and
    the first specification of the program that accepts the call allows it. *)
Theorem legacy_policy_match_iff b pol call exec :
  build b = Ok pol →
  Policy_check pol call = Some (Ok (Match exec)) ↔
  not_forbidden b call ∧ ∃ spec, first_accepting b call spec exec ∧ forbidden spec = None.
Proof. apply Policy_check_Match. Qed.

(** C36: When [check --require-safe] exits with 0, the verdict is
    [safe]; the program matches no forbidden expression and no argument contains a
    forbidden substring; the first specification of the program that accepts the
    call has no [forbidden] message; and every word of the call is, for that
    specification, a declared flag or option, a valid value of an option that
    writes no file, or a valid value of a pattern that writes no file. *)
Theorem legacy_safe_writes_nothing b pol prog argv out :
  build b = Ok pol → check_command pol prog argv true = Some (out, 0%Z) →
  let call := {| ec_program := prog; ec_args := argv |} in
  ∃ exec spec, out = OSafe exec ∧ might_write_files exec = false ∧ not_forbidden b call ∧
    first_accepting b call spec exec ∧ forbidden spec = None ∧ Forall (harmless_word spec) argv.
Proof.
  intros Hb H call.
  unfold check_command, MATCHED_BUT_WRITES_FILES_EXIT_CODE, MIGHT_BE_SAFE_EXIT_CODE, FORBIDDEN_EXIT_CODE in H.
  destruct (Policy_check pol _) as [[[exec|cause why]|err]|] eqn:Hc; [|congruence..].
  destruct (might_write_files exec) eqn:Hw; [congruence|]. injection H as <-.
  apply (Policy_check_Match b) in Hc as [Hn (spec & Hs & Hf)]; [|done].
  exists exec, spec. split_and!; try done. destruct Hs as (pre & post & _ & _ & Ha).
  by eapply accepts_harmless in Ha.
Qed.

End verdicts.

(** ** The default policy *)

Lemma insert_options_elem l m m' n o :
  insert_options l m = Ok m' → m' !! n = Some o → o ∈ l ∨ m !! n = Some o.
Proof.
  revert m. induction l as [|x l IH]; intros m H Ho; cbn in H; [inv_result; auto|].
  destruct (m !! opt_name x) eqn:E; [done|].
  destruct (IH _ H Ho) as [Hin|Hl]; [left; apply elem_of_cons; by right|].
  apply lookup_insert_Some in Hl as [[_ <-]|[_ Hl]]; [left; apply elem_of_cons; by left|by right].
Qed.

(** No argument and no option of a rule names a file to write. *)
Definition rule_writes_nothing (a : program_args) : bool :=
  forallb (λ p, negb (might_write_file (arg_type p))) (default [] (d_args a))
  && forallb (λ o, negb (option_writes o)) (default [] (d_options a)).

Lemma forallb_elem {A} (f : A → bool) l x : forallb f l = true → x ∈ l → f x = true.
Proof. intros H Hx. rewrite forallb_forall in H. by apply H, list_elem_of_In. Qed.

Lemma rule_accepts_no_writes a spec argv exec :
  spec_of_args a = Ok spec → rule_writes_nothing a = true → accepts spec argv exec →
  might_write_files exec = false.
Proof.
  unfold spec_of_args, rule_writes_nothing. intros H Hr Ha. inv_result. breflect.
  eapply accepts_no_writes; [exact Ha| |]; cbn.
  - intros p Hp. apply negb_true_iff. by apply (forallb_elem _ _ _ H Hp).
  - intros n o Ho. destruct (insert_options_elem _ _ _ _ _ E Ho) as [Hin|Hl]; [|by rewrite lookup_empty in Hl].
    apply negb_true_iff. by apply (forallb_elem _ _ _ H0 Hin).
Qed.

Section defaults.
Context {R : RegexLite}.

(** The specifications a policy of [define_program] calls holds for a program
    are those of its rules for that program. *)
Lemma run_rules_programs rules b b' k spec :
  run_builtins b (define_program <$> rules) = Ok b' →
  spec ∈ default [] (b_programs b' !! k) →
  spec ∈ default [] (b_programs b !! k) ∨
  ∃ a, a ∈ rules ∧ spec_of_args a = Ok spec ∧ d_program a = k.
Proof.
  revert b. induction rules as [|a rules IH]; intros b H Hs; cbn in H; [inv_result; auto|].
  destruct (spec_of_args a) as [s|] eqn:Ea; cbn [result_bind] in H; [|done].
  destruct (IH _ H Hs) as [Hin|(a' & Hin & Hsp)];
    [|right; exists a'; split; [by apply elem_of_cons; right|done]].
  cbn in Hin. unfold multimap_insert in Hin.
  destruct (decide (program s = k)) as [<-|Hk]; [|rewrite lookup_insert_ne in Hin by done; by left].
  rewrite lookup_insert_eq in Hin. cbn in Hin. apply elem_of_app in Hin as [Hin|Hin]; [by left|].
  apply list_elem_of_singleton in Hin as ->. right. exists a. split; [apply elem_of_cons; by left|].
  split; [done|]. unfold spec_of_args in Ea. by inv_result.
Qed.

Lemma default_rules_forbid_nothing b :
  run_builtins PolicyBuilder_new (define_program <$> default_rules) = Ok b →
  b_regexes b = [] ∧ b_substrings b = [].
Proof. intros H. vm_compute in H. injection H as <-. by split. Qed.

Lemma default_examples pol :
  get_default_policy = Ok pol →
  check_each_good_list_individually pol = Some [] ∧ check_each_bad_list_individually pol = Some [].
Proof. intros H. vm_compute in H. injection H as <-. by split; vm_compute. Qed.

Lemma default_loads : ∃ b pol,
  run_builtins PolicyBuilder_new (define_program <$> default_rules) = Ok b ∧
  build b = Ok pol ∧ get_default_policy = Ok pol.
Proof.
  assert (Hok : is_ok get_default_policy = true) by (vm_compute; reflexivity).
  unfold get_default_policy, parse in *.
  destruct (run_builtins _ _) as [b|] eqn:Hb; cbn [result_bind] in *; [|done].
  destruct (build b) as [pol|] eqn:Hp; [|done]. by exists b, pol.
Qed.

Lemma default_rules_only_cp :
  forallb (λ a, rule_writes_nothing a || (d_program a =?s $"cp")) default_rules = true.
Proof. reflexivity. Qed.

Lemma default_rules_allow : forallb (λ a, bool_decide (d_forbidden a = None)) default_rules = true.
Proof. reflexivity. Qed.

Lemma default_spec_rule b k spec :
  run_builtins PolicyBuilder_new (define_program <$> default_rules) = Ok b →
  spec ∈ default [] (b_programs b !! k) →
  ∃ a, a ∈ default_rules ∧ spec_of_args a = Ok spec ∧ d_program a = k.
Proof.
  intros Hb Hs. destruct (run_rules_programs _ _ _ _ _ Hb Hs) as [Hin|?]; [|done].
  cbn in Hin. rewrite lookup_empty in Hin. by apply elem_of_nil in Hin.
Qed.

(** The default policy loads, every example its rules carry is
    checked as it should be, nothing is forbidden by it, and a call it matches
    may write files only if the program is [cp]. *)
Theorem legacy_default_policy :
  ∃ pol, get_default_policy = Ok pol ∧
    check_each_good_list_individually pol = Some [] ∧
    check_each_bad_list_individually pol = Some [] ∧
    ∀ call m, Policy_check pol call = Some (Ok m) →
      ∃ exec, m = Match exec ∧ (might_write_files exec = true → ec_program call = $"cp").
Proof.
  destruct default_loads as (b & pol & Hb & Hp & Hd). exists pol.
  destruct (default_examples pol Hd) as [Hgood Hbad]. split_and!; [done..|]. intros call m Hc.
  destruct (default_rules_forbid_nothing b Hb) as [Hre Hsub].
  unfold build, Policy_new in Hp. rewrite Hsub in Hp. cbn [is_empty result_bind] in Hp. injection Hp as <-.
  unfold Policy_check in Hc. cbn [programs forbidden_program_regexes forbidden_substrings_pattern] in Hc.
  rewrite Hre in Hc. cbn [check_program_regexes] in Hc.
  assert (Hn : ∀ l, check_substrings None l call = None) by (by induction l). rewrite Hn in Hc.
  apply check_specs_Ok in Hc as (pre & spec & post & exec & Hs & _ & Ha & ->).
  destruct (default_spec_rule b (ec_program call) spec Hb) as (a & Hin & Hsp & Hprog).
  { rewrite Hs. apply elem_of_app. right. apply elem_of_cons. by left. }
  pose proof (forallb_elem _ _ _ default_rules_allow Hin) as Hf%bool_decide_eq_true.
  exists exec. unfold verdict. split.
  { unfold spec_of_args in Hsp. inv_result. cbn. by rewrite Hf. }
  intros Hw. pose proof (forallb_elem _ _ _ default_rules_only_cp Hin) as [Hr|Hr]%orb_true_iff.
  - by rewrite (rule_accepts_no_writes _ _ _ _ Hsp Hr Ha) in Hw.
  - apply str_eqb_eq in Hr. by rewrite <-Hprog.
Qed.

End defaults.

(** ** Safe sed commands *)

Lemma digit_step_digits s o v :
  fold_left digit_step s o = Some v → forallb is_ascii_digit s = true ∧ is_Some o.
Proof.
  revert o. induction s as [|c s IH]; intros o H; cbn in H; [split; [done|by rewrite H]|].
  apply IH in H as [Hs Ho]. destruct o as [w|]; cbn in Ho; [|by destruct Ho].
  cbn. destruct (is_ascii_digit c); [by split|by destruct Ho].
Qed.

(** A number: an optional plus sign and digits. *)
Definition number (s : rstring) : Prop :=
  ∃ digits, (s = digits ∨ s = $"+" ++ digits) ∧ digits ≠ [] ∧
    forallb is_ascii_digit digits = true.

Lemma parse_u64_number s : is_Some (parse_u64 s) → number s.
Proof.
  unfold parse_u64. intros [v H].
  destruct (strip_prefix $"+" s) as [r|] eqn:E; destruct (is_empty _) eqn:Ee; try done;
    apply is_empty_false in Ee; apply digit_step_digits in H as [Hd _].
  - apply strip_prefix_Some in E as ->. exists r. auto.
  - exists s. auto.
Qed.

(** A sed command the policy calls safe is the print of a range of
    lines and nothing else: two numbers, a comma between them and a final [p];
    in particular it has no character that starts another sed command. *)
Theorem legacy_sed_command_is_range s :
  parse_sed_command s = Ok () →
  ∃ first rest, s = first ++ $"," ++ rest ++ $"p" ∧ number first ∧ number rest.
Proof.
  unfold parse_sed_command. destruct (strip_suffix $"p" s) as [r|] eqn:Es; [|done].
  destruct (split_once 44%Z r) as [[a b]|] eqn:Eo; [|done].
  destruct (bool_decide (is_Some (parse_u64 a))) eqn:Ea; [|done].
  destruct (bool_decide (is_Some (parse_u64 b))) eqn:Eb; [|done]. intros _.
  apply bool_decide_eq_true in Ea, Eb. apply strip_suffix_Some in Es as ->.
  apply split_once_eq in Eo as ->. exists a, b.
  split; [by rewrite <-app_assoc|]. split; by apply parse_u64_number.
Qed.

Lemma legacy_sed_command_is_range_witness :
  ∃ first rest, $"122,+202p" = first ++ $"," ++ rest ++ $"p" ∧ number first ∧ number rest.
Proof. apply (legacy_sed_command_is_range $"122,+202p"). vm_compute. reflexivity. Defined.

(** ** Witnesses: the default rules and two prohibitions *)

Definition demo_calls : list builtin :=
  (define_program <$> default_rules) ++
  [forbid_substrings [$"secret"; $"|"]; forbid_program_regex $"(\r\m)" $"no rm"].

Definition demo_builder : PolicyBuilder :=
  match run_builtins PolicyBuilder_new demo_calls with Ok b => b | Err _ => PolicyBuilder_new end.

Definition demo_policy : Policy :=
  match build demo_builder with
  | Ok p => p
  | Err _ => {| programs := ∅; forbidden_program_regexes := []; forbidden_substrings_pattern := None |}
  end.

Definition demo_ls : ValidExec :=
  {| ve_program := $"ls"; flags := [{| mf_name := $"-l" |}]; opts := [];
     ve_args := [{| ma_index := 1; ma_type := TReadableFile; ma_value := $"src" |}];
     ve_system_path := [$"/bin/ls"; $"/usr/bin/ls"] |}.

Lemma legacy_policy_match_iff_witness :
  not_forbidden demo_builder {| ec_program := $"ls"; ec_args := [$"-l"; $"src"] |} ∧
  ∃ spec, first_accepting demo_builder {| ec_program := $"ls"; ec_args := [$"-l"; $"src"] |} spec demo_ls
    ∧ forbidden spec = None.
Proof.
  apply (legacy_policy_match_iff demo_builder demo_policy); vm_compute; reflexivity.
Defined.

Lemma legacy_safe_writes_nothing_witness :
  ∃ exec spec, OSafe demo_ls = OSafe exec ∧ might_write_files exec = false ∧
    not_forbidden demo_builder {| ec_program := $"ls"; ec_args := [$"-l"; $"src"] |} ∧
    first_accepting demo_builder {| ec_program := $"ls"; ec_args := [$"-l"; $"src"] |} spec exec ∧
    forbidden spec = None ∧ Forall (harmless_word spec) [$"-l"; $"src"].
Proof.
  apply (legacy_safe_writes_nothing demo_builder demo_policy $"ls" [$"-l"; $"src"] (OSafe demo_ls));
    vm_compute; reflexivity.
Defined.

(** A forbidden substring stops a call the rules accept; a missing option is
    reported in order. *)
Example demo_forbidden :
  check_command demo_policy $"cat" [$"my-secret.txt"] true =
  Some (OForbidden $"arg `my-secret.txt` contains forbidden substring"
          (FArg $"my-secret.txt" {| ec_program := $"cat"; ec_args := [$"my-secret.txt"] |}), 14%Z).
Proof. vm_compute. reflexivity. Qed.

Example demo_sed_missing :
  check_command demo_policy $"sed" [$"122,202p"] true =
  Some (OUnverified (MissingRequiredOptions $"sed" [$"-e"]), 13%Z).
Proof. vm_compute. reflexivity. Qed.

Example demo_cp_writes :
  snd <$> check_command demo_policy $"cp" [$"a"; $"b"; $"c"] true = Some 12%Z.
Proof. vm_compute. reflexivity. Qed.

(** Loading a policy does not run the examples of its rules: a rule whose
    [should_match] list it rejects loads all the same. *)
Example examples_not_run_on_load :
  let rule := {| d_program := $"pwd"; d_system_path := None; d_option_bundling := None;
                 d_combined_format := None; d_options := None; d_args := None; d_forbidden := None;
                 d_should_match := Some [[$"x"]]; d_should_not_match := Some [[]] |} in
  match parse [define_program rule] with
  | Ok pol => length <$> check_each_good_list_individually pol = Some 1 ∧
              length <$> check_each_bad_list_individually pol = Some 1
  | Err _ => False
  end.
Proof. vm_compute. by split. Qed.

End LegacyTheorems.
