(* ===== verification/PasteBurst.v ===== *)
(** * Paste bursts (tui/src/bottom_pane/paste_burst.rs)

    The detector that turns a fast stream of key events into one paste, on
    terminals that do not announce pastes: module [Burst] has its state, every
    operation of the type and the invariant that relates the held first char,
    the buffer and the clock.

    An [Instant] is a number of nanoseconds; [duration_since] saturates at
    zero.  [windows] selects the constants of that platform. *)

From S2P Require Import Prelude BytePos.

Module Burst.

Definition from_millis (n : Z) : Z := (n * 1000000)%Z.

Definition PASTE_BURST_MIN_CHARS : Z := 3.
Definition PASTE_ENTER_SUPPRESS_WINDOW : Z := from_millis 120.
Definition PASTE_BURST_CHAR_INTERVAL (windows : bool) : Z :=
  if windows then from_millis 30 else from_millis 8.
Definition PASTE_BURST_ACTIVE_IDLE_TIMEOUT (windows : bool) : Z :=
  if windows then from_millis 60 else from_millis 8.

Definition duration_since (now earlier : Z) : Z := Z.max 0 (now - earlier).

Definition U16_MAX : Z := 65535.

Record PasteBurst := {
  last_plain_char_time : option Z;
  consecutive_plain_char_burst : Z;
  burst_window_until : option Z;
  buffer : rstring;
  active : bool;
  pending_first_char : option (char * Z) }.

Definition default_burst : PasteBurst :=
  {| last_plain_char_time := None; consecutive_plain_char_burst := 0; burst_window_until := None;
     buffer := []; active := false; pending_first_char := None |}.

Inductive CharDecision :=
| BeginBuffer (retro_chars : Z)
| BufferAppend
| RetainFirstChar
| BeginBufferFromPending.

Record RetroGrab := { start_byte : nat; grabbed : rstring }.

Inductive FlushResult := Paste (s : rstring) | Typed (c : char) | NoFlush.

Section burst.
Context (windows : bool).

Definition recommended_flush_delay : Z := (PASTE_BURST_CHAR_INTERVAL windows + from_millis 1)%Z.

Definition is_active_internal (b : PasteBurst) : bool := active b || negb (is_empty (buffer b)).

Definition is_active (b : PasteBurst) : bool :=
  is_active_internal b || bool_decide (is_Some (pending_first_char b)).

(** [now + PASTE_ENTER_SUPPRESS_WINDOW] kept as the end of the window. *)
Definition extend_window (b : PasteBurst) (now : Z) : PasteBurst :=
  {| last_plain_char_time := last_plain_char_time b;
     consecutive_plain_char_burst := consecutive_plain_char_burst b;
     burst_window_until := Some (now + PASTE_ENTER_SUPPRESS_WINDOW)%Z;
     buffer := buffer b; active := active b; pending_first_char := pending_first_char b |}.

Definition note_plain_char (b : PasteBurst) (now : Z) : PasteBurst :=
  let count :=
    match last_plain_char_time b with
    | Some prev =>
        if (duration_since now prev <=? PASTE_BURST_CHAR_INTERVAL windows)%Z
        then Z.min (consecutive_plain_char_burst b + 1) U16_MAX else 1%Z
    | None => 1%Z
    end in
  {| last_plain_char_time := Some now; consecutive_plain_char_burst := count;
     burst_window_until := burst_window_until b; buffer := buffer b; active := active b;
     pending_first_char := pending_first_char b |}.

(** The part the two entry points share: an active burst, or a run that is long
    enough to begin one. *)
Definition begin_buffer (b : PasteBurst) : option CharDecision :=
  if (PASTE_BURST_MIN_CHARS <=? consecutive_plain_char_burst b)%Z
  then Some (BeginBuffer (Z.max 0 (consecutive_plain_char_burst b - 1))) else None.

Definition on_plain_char (b : PasteBurst) (ch : char) (now : Z) : CharDecision * PasteBurst :=
  let b := note_plain_char b now in
  if active b then (BufferAppend, extend_window b now)
  else
    let begin_or_retain :=
      match begin_buffer b with
      | Some d => (d, b)
      | None =>
          (RetainFirstChar,
           {| last_plain_char_time := last_plain_char_time b;
              consecutive_plain_char_burst := consecutive_plain_char_burst b;
              burst_window_until := burst_window_until b; buffer := buffer b; active := active b;
              pending_first_char := Some (ch, now) |})
      end in
    match pending_first_char b with
    | Some (held, held_at) =>
        if (duration_since now held_at <=? PASTE_BURST_CHAR_INTERVAL windows)%Z then
          (BeginBufferFromPending,
           extend_window
             {| last_plain_char_time := last_plain_char_time b;
                consecutive_plain_char_burst := consecutive_plain_char_burst b;
                burst_window_until := burst_window_until b; buffer := buffer b ++ [held];
                active := true; pending_first_char := None |} now)
        else begin_or_retain
    | None => begin_or_retain
    end.

Definition on_plain_char_no_hold (b : PasteBurst) (now : Z) : option CharDecision * PasteBurst :=
  let b := note_plain_char b now in
  if active b then (Some BufferAppend, extend_window b now) else (begin_buffer b, b).

Definition flush_if_due (b : PasteBurst) (now : Z) : FlushResult * PasteBurst :=
  let timeout := if is_active_internal b then PASTE_BURST_ACTIVE_IDLE_TIMEOUT windows
                 else PASTE_BURST_CHAR_INTERVAL windows in
  let timed_out := match last_plain_char_time b with
                   | Some t => (timeout <? duration_since now t)%Z
                   | None => false
                   end in
  if timed_out && is_active_internal b then
    (Paste (buffer b),
     {| last_plain_char_time := last_plain_char_time b;
        consecutive_plain_char_burst := consecutive_plain_char_burst b;
        burst_window_until := burst_window_until b; buffer := []; active := false;
        pending_first_char := pending_first_char b |})
  else if timed_out then
    match pending_first_char b with
    | Some (ch, _) =>
        (Typed ch,
         {| last_plain_char_time := last_plain_char_time b;
            consecutive_plain_char_burst := consecutive_plain_char_burst b;
            burst_window_until := burst_window_until b; buffer := buffer b; active := active b;
            pending_first_char := None |})
    | None => (NoFlush, b)
    end
  else (NoFlush, b).

Definition append_char_to_buffer (b : PasteBurst) (ch : char) (now : Z) : PasteBurst :=
  extend_window
    {| last_plain_char_time := last_plain_char_time b;
       consecutive_plain_char_burst := consecutive_plain_char_burst b;
       burst_window_until := burst_window_until b; buffer := buffer b ++ [ch]; active := active b;
       pending_first_char := pending_first_char b |} now.

Definition append_newline_if_active (b : PasteBurst) (now : Z) : bool * PasteBurst :=
  if is_active b then (true, append_char_to_buffer b NL now) else (false, b).

Definition newline_should_insert_instead_of_submit (b : PasteBurst) (now : Z) : bool :=
  is_active b || match burst_window_until b with Some until => (now <=? until)%Z | None => false end.

Definition begin_with_retro_grabbed (b : PasteBurst) (text : rstring) (now : Z) : PasteBurst :=
  extend_window
    {| last_plain_char_time := last_plain_char_time b;
       consecutive_plain_char_burst := consecutive_plain_char_burst b;
       burst_window_until := burst_window_until b; buffer := buffer b ++ text; active := true;
       pending_first_char := pending_first_char b |} now.

Definition try_append_char_if_active (b : PasteBurst) (ch : char) (now : Z) : bool * PasteBurst :=
  if active b || negb (is_empty (buffer b)) then (true, append_char_to_buffer b ch now)
  else (false, b).

(** [char_indices]: every char with the byte at which it starts. *)
Fixpoint char_indices (i : nat) (s : rstring) : list (nat * char) :=
  match s with [] => [] | c :: s' => (i, c) :: char_indices (i + utf8_len c) s' end.

Definition retro_start_index (before : rstring) (retro_chars : nat) : nat :=
  if retro_chars =? 0 then byte_len before
  else match reverse (char_indices 0 before) !! (retro_chars - 1) with
       | Some (idx, _) => idx
       | None => 0
       end.

(** [None] is the panic of a slice inside a char. *)
Definition decide_begin_buffer (b : PasteBurst) (now : Z) (before : rstring) (retro_chars : nat)
  : option (option RetroGrab * PasteBurst) :=
  let start := retro_start_index before retro_chars in
  text ← Bytes.slice_from before start;
  Some (if existsb is_whitespace text || (16 <=? length text)
        then (Some {| start_byte := start; grabbed := text |}, begin_with_retro_grabbed b text now)
        else (None, b)).

Definition flush_before_modified_input (b : PasteBurst) : option rstring * PasteBurst :=
  if negb (is_active b) then (None, b)
  else
    (Some (buffer b ++ match pending_first_char b with Some (ch, _) => [ch] | None => [] end),
     {| last_plain_char_time := last_plain_char_time b;
        consecutive_plain_char_burst := consecutive_plain_char_burst b;
        burst_window_until := burst_window_until b; buffer := []; active := false;
        pending_first_char := None |}).

Definition clear_window_after_non_char (b : PasteBurst) : PasteBurst :=
  {| last_plain_char_time := None; consecutive_plain_char_burst := 0; burst_window_until := None;
     buffer := buffer b; active := false; pending_first_char := None |}.

Definition clear_after_explicit_paste (b : PasteBurst) : PasteBurst := default_burst.

(** ** What the detector holds back *)

(** The text that was typed and is not in the editor yet. *)
Definition held (b : PasteBurst) : rstring :=
  buffer b ++ match pending_first_char b with Some (ch, _) => [ch] | None => [] end.

(** A held first char is alone and as old as the last plain char, and there is
    buffered text only while a burst is active. *)
Record burst_ok (b : PasteBurst) : Prop := {
  buffer_active : active b = false → buffer b = [];
  pending_alone : ∀ ch t, pending_first_char b = Some (ch, t) →
    active b = false ∧ last_plain_char_time b = Some t;
  active_clock : active b = true → is_Some (last_plain_char_time b) }.

Lemma default_ok : burst_ok default_burst.
Proof. by constructor. Qed.

Lemma note_ok b now : burst_ok b → pending_first_char b = None → burst_ok (note_plain_char b now).
Proof. intros [H1 H2 H3] Hp. constructor; cbn; [done|by rewrite Hp|eauto]. Qed.

Lemma append_ok b ch now : burst_ok b → active b = true → burst_ok (append_char_to_buffer b ch now).
Proof.
  intros [H1 H2 H3] Ha. constructor; cbn; [by rewrite Ha| |done].
  intros c t Hp. destruct (H2 c t Hp). congruence.
Qed.

Lemma held_append b ch now :
  burst_ok b → active b = true → held (append_char_to_buffer b ch now) = held b ++ [ch].
Proof.
  intros [_ H2 _] Ha. unfold held. cbn. destruct (pending_first_char b) as [[c t]|] eqn:E.
  - destruct (H2 c t eq_refl). congruence.
  - by rewrite !app_nil_r.
Qed.

(** A held char that the last flush left is young enough to join the burst. *)
Lemma pending_is_young b now r b' ch t :
  burst_ok b → flush_if_due b now = (r, b') → pending_first_char b' = Some (ch, t) →
  (duration_since now t <= PASTE_BURST_CHAR_INTERVAL windows)%Z ∧ r = NoFlush ∧ b' = b.
Proof.
  intros [H1 H2 H3] Hf Hp. unfold flush_if_due in Hf. destruct (pending_first_char b) as [[c s]|] eqn:E.
  - destruct (H2 c s eq_refl) as [Ha Hl]. rewrite Hl in Hf. unfold is_active_internal in Hf.
    rewrite Ha, (H1 Ha) in Hf. cbn [orb negb is_empty andb] in Hf.
    destruct (Z.ltb_spec (PASTE_BURST_CHAR_INTERVAL windows) (duration_since now s)); cbn [andb] in Hf;
      injection Hf as <- <-; cbn in Hp; [done|]. rewrite E in Hp. injection Hp as <- <-. auto.
  - exfalso. repeat case_match; simplify_eq; cbn in Hp; congruence.
Qed.

Lemma inactive_spec b :
  is_active b = false → active b = false ∧ buffer b = [] ∧ pending_first_char b = None ∧ held b = [].
Proof.
  unfold is_active, is_active_internal, held. intros [[Ha Hb%negb_false_iff%is_empty_true]%orb_false_iff Hp]%orb_false_iff.
  rewrite Ha, Hb. by destruct (pending_first_char b).
Qed.

(** What a due flush gives is what was held. *)
Lemma flush_if_due_held b now r b' :
  burst_ok b → flush_if_due b now = (r, b') →
  burst_ok b' ∧ held b = match r with Paste s => s | Typed c => [c] | NoFlush => held b' end ∧
  match r with NoFlush => b' = b | _ => held b' = [] ∧ active b' = false ∧ pending_first_char b' = None end.
Proof.
  intros Hok Hf. destruct Hok as [H1 H2 H3]. unfold flush_if_due, is_active_internal in Hf.
  destruct (pending_first_char b) as [[c t]|] eqn:E.
  - destruct (H2 c t eq_refl) as [Ha Hl]. rewrite Hl, Ha, (H1 Ha) in Hf.
    cbn [orb negb is_empty andb] in Hf. unfold held. rewrite E, (H1 Ha).
    destruct (_ <? _)%Z; cbn [andb] in Hf; injection Hf as <- <-.
    + cbn. by split_and!.
    + rewrite E, (H1 Ha). split_and!; try done. constructor; [done|by rewrite E|done].
  - unfold held. rewrite E, app_nil_r.
    assert (Hsame : NoFlush = r → b' = b → burst_ok b' ∧
      buffer b = match r with Paste s => s | Typed c => [c]
                 | NoFlush => buffer b' ++ match pending_first_char b' with Some (ch, _) => [ch] | None => [] end end ∧
      match r with NoFlush => b' = b | _ => buffer b' ++ match pending_first_char b' with Some (ch, _) => [ch] | None => [] end = []
        ∧ active b' = false ∧ pending_first_char b' = None end).
    { intros <- ->. rewrite E, app_nil_r. split_and!; try done. constructor; [done|by rewrite E|done]. }
    destruct (match last_plain_char_time b with Some t => _ | None => false end); cbn [andb] in Hf;
      [|injection Hf as <- <-; by apply Hsame].
    destruct (active b || negb (is_empty (buffer b))); injection Hf as <- <-; [|by apply Hsame].
    cbn. by split_and!.
Qed.

Lemma flush_if_due_clock b now r b' :
  flush_if_due b now = (r, b') → last_plain_char_time b' = last_plain_char_time b.
Proof.
  unfold flush_if_due. destruct (_ && is_active_internal b); [by intros [= <- <-]|].
  destruct (match last_plain_char_time b with Some t => _ | None => false end); [|by intros [= <- <-]].
  destruct (pending_first_char b) as [[]|]; by intros [= <- <-].
Qed.

(** Flushing before another input gives everything that was held. *)
Lemma flush_before_held b :
  burst_ok b →
  default [] (flush_before_modified_input b).1 = held b ∧
  is_active (flush_before_modified_input b).2 = false ∧
  held (flush_before_modified_input b).2 = [] ∧ burst_ok (flush_before_modified_input b).2.
Proof.
  intros Hok. pose proof Hok as [H1 H2 H3]. unfold flush_before_modified_input, is_active, is_active_internal, held.
  destruct (active b) eqn:Ha; cbn [orb negb].
  { cbn. by split_and!. }
  rewrite (H1 eq_refl). cbn [is_empty negb orb].
  destruct (pending_first_char b) as [[c t]|] eqn:E; cbn.
  - by split_and!.
  - rewrite E, (H1 eq_refl), Ha. by split_and!.
Qed.

(** ** Retroactive capture *)

Lemma char_indices_lookup i s k c :
  s !! k = Some c → char_indices i s !! k = Some (i + byte_len (take k s), c).
Proof.
  revert i k. induction s as [|x s IH]; intros i [|k]; cbn; [done|done|intros [= ->]; f_equal; f_equal; lia|].
  intros H. rewrite (IH _ _ H). do 2 f_equal. unfold byte_len. cbn. lia.
Qed.

Lemma length_char_indices i s : length (char_indices i s) = length s.
Proof. revert i. induction s as [|c s IH]; intros i; cbn; [done|by rewrite IH]. Qed.

Lemma retro_start_spec before n :
  retro_start_index before n = byte_len (take (length before - n) before).
Proof.
  unfold retro_start_index. destruct (Nat.eqb_spec n 0) as [->|Hn].
  { by rewrite Nat.sub_0_r, firstn_all. }
  destruct (decide (n <= length before)) as [Hle|Hlt].
  - rewrite reverse_lookup by (rewrite length_char_indices; lia).
    rewrite length_char_indices. replace (length before - S (n - 1)) with (length before - n) by lia.
    destruct (lookup_lt_is_Some_2 before (length before - n) ltac:(lia)) as [c Hc].
    by rewrite (char_indices_lookup _ _ _ _ Hc).
  - rewrite lookup_ge_None_2 by (rewrite length_reverse, length_char_indices; lia).
    by replace (length before - n) with 0 by lia.
Qed.

(** The slice is never inside a char: the grabbed text is the last chars. *)
Lemma decide_begin_buffer_total b now before n :
  decide_begin_buffer b now before n =
  let text := drop (length before - n) before in
  Some (if existsb is_whitespace text || (16 <=? length text)
        then (Some {| start_byte := byte_len (take (length before - n) before); grabbed := text |},
              begin_with_retro_grabbed b text now)
        else (None, b)).
Proof.
  unfold decide_begin_buffer. rewrite retro_start_spec.
  assert (Hs : Bytes.split_bytes (byte_len (take (length before - n) before)) before =
               Some (take (length before - n) before, drop (length before - n) before)).
  { apply Bytes.split_bytes_Some. by rewrite take_drop. }
  unfold Bytes.slice_from. by rewrite Hs.
Qed.

End burst.

End Burst.
