(* ===== verification/Composer.v ===== *)
(** * The composer's keys (tui/src/bottom_pane/chat_composer.rs)

    The part of the chat composer through which typed text reaches the editor:
    pasting, the paste-burst detector (PasteBurst) and the keys that change the
    text area (TextArea), with the placeholders of large pastes and images, the
    shell mode a leading exclamation mark switches on and the elements of slash
    commands.

    A typed char reaches that part through [handle_char_key], the path of a
    char through [handle_key_event]: a question mark pressed while the composer
    is empty and no burst is held toggles the shortcut overlay of the footer
    and is no input at all; any other char resets the footer and is input.

    ComposerTheorems shows that typing is otherwise transparent: whatever the
    timing of the keys and of the screen updates, the characters typed are, in
    order, the text of the editor followed by what the detector still holds,
    and once the detector has timed out they are the text of the editor.

    Popups, the history and its search, the selection of remote images and
    submission are not modelled: [handle_char_key] is the path taken while none
    of them is open.  What the file system says of a pasted path and which
    slash commands exist are the class [Host].  [None] is a panic. *)

From S2P Require Import Prelude BytePos TextArea TextAreaFacts TextAreaTheorems PasteBurst.

Module Composer.
Import TextArea TextFacts TextTheorems Burst.

Record ChatComposerConfig := {
  popups_enabled : bool;
  slash_commands_enabled : bool;
  image_paste_enabled : bool }.

Definition plain_text : ChatComposerConfig :=
  {| popups_enabled := false; slash_commands_enabled := false; image_paste_enabled := false |}.

(** What the footer shows. *)
Inductive FooterMode :=
  | HistorySearch | QuitShortcutReminder | ShortcutOverlay | EscHint | ComposerEmpty | ComposerHasDraft.
#[global] Instance FooterMode_eq_dec : EqDecision FooterMode.
Proof. solve_decision. Defined.

Record AttachedImage := { placeholder : rstring; path : rstring }.

Record Composer := {
  textarea : TextArea;
  is_bash_mode : bool;
  pending_pastes : list (rstring * rstring);
  large_paste_counters : gmap nat nat;
  attached_images : list AttachedImage;
  remote_image_urls : list rstring;
  paste_burst : PasteBurst;
  disable_paste_burst : bool;
  config : ChatComposerConfig }.

(** Assignments to fields. *)
Definition with_textarea (c : Composer) (t : TextArea) : Composer :=
  {| textarea := t; is_bash_mode := is_bash_mode c; pending_pastes := pending_pastes c;
     large_paste_counters := large_paste_counters c; attached_images := attached_images c;
     remote_image_urls := remote_image_urls c; paste_burst := paste_burst c;
     disable_paste_burst := disable_paste_burst c; config := config c |}.
Definition with_bash_mode (c : Composer) (b : bool) : Composer :=
  {| textarea := textarea c; is_bash_mode := b; pending_pastes := pending_pastes c;
     large_paste_counters := large_paste_counters c; attached_images := attached_images c;
     remote_image_urls := remote_image_urls c; paste_burst := paste_burst c;
     disable_paste_burst := disable_paste_burst c; config := config c |}.
Definition with_pastes (c : Composer) (l : list (rstring * rstring)) : Composer :=
  {| textarea := textarea c; is_bash_mode := is_bash_mode c; pending_pastes := l;
     large_paste_counters := large_paste_counters c; attached_images := attached_images c;
     remote_image_urls := remote_image_urls c; paste_burst := paste_burst c;
     disable_paste_burst := disable_paste_burst c; config := config c |}.
Definition with_counters (c : Composer) (m : gmap nat nat) : Composer :=
  {| textarea := textarea c; is_bash_mode := is_bash_mode c; pending_pastes := pending_pastes c;
     large_paste_counters := m; attached_images := attached_images c;
     remote_image_urls := remote_image_urls c; paste_burst := paste_burst c;
     disable_paste_burst := disable_paste_burst c; config := config c |}.
Definition with_images (c : Composer) (l : list AttachedImage) : Composer :=
  {| textarea := textarea c; is_bash_mode := is_bash_mode c; pending_pastes := pending_pastes c;
     large_paste_counters := large_paste_counters c; attached_images := l;
     remote_image_urls := remote_image_urls c; paste_burst := paste_burst c;
     disable_paste_burst := disable_paste_burst c; config := config c |}.
Definition with_burst (c : Composer) (b : PasteBurst) : Composer :=
  {| textarea := textarea c; is_bash_mode := is_bash_mode c; pending_pastes := pending_pastes c;
     large_paste_counters := large_paste_counters c; attached_images := attached_images c;
     remote_image_urls := remote_image_urls c; paste_burst := b;
     disable_paste_burst := disable_paste_burst c; config := config c |}.
Definition with_disabled (c : Composer) (d : bool) : Composer :=
  {| textarea := textarea c; is_bash_mode := is_bash_mode c; pending_pastes := pending_pastes c;
     large_paste_counters := large_paste_counters c; attached_images := attached_images c;
     remote_image_urls := remote_image_urls c; paste_burst := paste_burst c;
     disable_paste_burst := d; config := config c |}.

(** [image_at] is [normalize_pasted_path] followed by [image_dimensions]: the
    path, if the text names an image that can be read; [known_slash] is
    [find_builtin_command] with the composer's flags. *)
Class Host := {
  image_at : rstring → option rstring;
  known_slash : rstring → bool }.

Section composer.
Context {U : Unicode} {H : Host} (windows : bool).

Definition has_ctrl_or_alt (mods : Z) : bool :=
  (has_modifier mods KM_CONTROL || has_modifier mods KM_ALT) && negb (is_altgr windows mods).

Definition current_text (c : Composer) : rstring :=
  if is_bash_mode c then $"!" ++ text (textarea c) else text (textarea c).

Definition sync_bash_mode_from_text (c : Composer) : option Composer :=
  if negb (is_bash_mode c) && starts_with $"!" (text (textarea c)) then
    t ← replace_range (textarea c) 0 1 [];
    Some (with_bash_mode (with_textarea c t) true)
  else Some c.

(** ** Slash commands as elements *)

Fixpoint name_of (s : rstring) : rstring :=
  match s with [] => [] | c :: s' => if is_whitespace c then [] else c :: name_of s' end.

Definition parse_slash_name (line : rstring) : option (rstring * rstring * nat) :=
  stripped ← strip_prefix $"/" line;
  let name := name_of stripped in
  if is_empty name then None
  else
    let rest_untrimmed := drop (length name) stripped in
    let rest := trim_start rest_untrimmed in
    Some (name, rest, byte_len name + (byte_len rest_untrimmed - byte_len rest) + 1).

Definition slash_command_element_range (c : Composer) (first_line : rstring) : option (nat * nat) :=
  if is_bash_mode c then None
  else
    '(name, _, _) ← parse_slash_name first_line;
    if contains $"/" name then None
    else
      let element_end := 1 + byte_len name in
      let has_space_after :=
        match Bytes.slice_from first_line element_end with
        | Some (ch :: _) => is_whitespace ch
        | _ => false
        end in
      if negb has_space_after then None
      else if known_slash name then Some (0, element_end) else None.

(** The elements that look like a slash command and are not the desired one. *)
Definition stale_ranges (t : TextArea) (desired : option (nat * nat)) : list (nat * nat) :=
  omap (λ '(a, b, p),
          match p with
          | Some s => if starts_with $"/" s && negb (bool_decide (desired = Some (a, b)))
                      then Some (a, b) else None
          | None => None
          end) (text_elements t).

Definition has_desired (t : TextArea) (desired : option (nat * nat)) : bool :=
  existsb (λ '(a, b, p),
             match p with
             | Some s => starts_with $"/" s && bool_decide (desired = Some (a, b))
             | None => false
             end) (text_elements t).

Definition sync_slash_command_elements (c : Composer) : Composer :=
  if negb (slash_commands_enabled (config c)) then c
  else
    let t := textarea c in
    let first_line := default [] (head (split_on NL (text t))) in
    let desired := slash_command_element_range c first_line in
    let t' := fold_left (λ t r, (remove_element_range t r.1 r.2).2) (stale_ranges t desired) t in
    with_textarea c
      match desired with
      | Some (a, b) => if has_desired t desired then t' else (add_element_range t' a b).2
      | None => t'
      end.

(** [sync_popups], its effect on the text area. *)
Definition sync_popups (c : Composer) : Composer := sync_slash_command_elements c.

Definition insert_str (c : Composer) (s : rstring) : option Composer :=
  t ← TextArea.insert_str (textarea c) s;
  c ← sync_bash_mode_from_text (with_textarea c t);
  Some (sync_popups c).

(** ** Pasting *)

Definition LARGE_PASTE_CHAR_THRESHOLD : nat := 1000.

Definition next_large_paste_placeholder (c : Composer) (char_count : nat) : rstring * Composer :=
  let base := $"[Pasted Content " ++ show_nat char_count ++ $" chars]" in
  let next_suffix := default 0 (large_paste_counters c !! char_count) + 1 in
  (if next_suffix =? 1 then base else base ++ $" #" ++ show_nat next_suffix,
   with_counters c (<[char_count := next_suffix]> (large_paste_counters c))).

Definition local_image_label_text (n : nat) : rstring := $"[Image #" ++ show_nat n ++ $"]".

Definition attach_image (c : Composer) (p : rstring) : option Composer :=
  let image_number := length (remote_image_urls c) + length (attached_images c) + 1 in
  let label := local_image_label_text image_number in
  '(_, t) ← insert_element (textarea c) label;
  Some (with_images (with_textarea c t) (attached_images c ++ [{| placeholder := label; path := p |}])).

Definition handle_paste_image_path (c : Composer) (pasted : rstring) : option (bool * Composer) :=
  match image_at pasted with
  | None => Some (false, c)
  | Some p => c ← attach_image c p; Some (true, c)
  end.

(** [.replace("\r\n", "\n").replace('\r', "\n")]. *)
Fixpoint replace_crlf (s : rstring) : rstring :=
  match s with
  | [] => []
  | x :: s' =>
      match s' with
      | y :: s'' => if (x =? CR)%Z && (y =? NL)%Z then NL :: replace_crlf s'' else x :: replace_crlf s'
      | [] => [x]
      end
  end.
Definition normalize_newlines (s : rstring) : rstring :=
  (λ c, if (c =? CR)%Z then NL else c) <$> replace_crlf s.

Definition handle_paste (c : Composer) (pasted : rstring) : option Composer :=
  let pasted := normalize_newlines pasted in
  let char_count := length pasted in
  c ← (if LARGE_PASTE_CHAR_THRESHOLD <? char_count then
         let '(label, c) := next_large_paste_placeholder c char_count in
         '(_, t) ← insert_element (textarea c) label;
         Some (with_pastes (with_textarea c t) (pending_pastes c ++ [(label, pasted)]))
       else
         '(attached, c) ← (if (1 <? char_count) && image_paste_enabled (config c)
                           then handle_paste_image_path c pasted else Some (false, c));
         if (attached : bool) then
           t ← TextArea.insert_str (textarea c) $" "; Some (with_textarea c t)
         else insert_str c pasted);
  Some (sync_popups (with_burst c (clear_after_explicit_paste (paste_burst c)))).

(** ** The paste-burst detector *)

Definition handle_paste_burst_flush (c : Composer) (now : Z) : option (bool * Composer) :=
  let '(r, b) := flush_if_due windows (paste_burst c) now in
  let c := with_burst c b in
  match r with
  | Paste pasted => c ← handle_paste c pasted; Some (true, c)
  | Typed ch => c ← insert_str c [ch]; Some (true, c)
  | NoFlush => Some (false, c)
  end.

(** Flush what is held, through the paste path. *)
Definition flush_held (c : Composer) : option Composer :=
  let '(o, b) := flush_before_modified_input (paste_burst c) in
  let c := with_burst c b in
  match o with Some pasted => handle_paste c pasted | None => Some c end.

Definition set_disable_paste_burst (c : Composer) (disabled : bool) : option Composer :=
  let was_disabled := disable_paste_burst c in
  let c := with_disabled c disabled in
  if disabled && negb was_disabled then
    c ← flush_held c; Some (with_burst c (clear_after_explicit_paste (paste_burst c)))
  else Some c.

Definition clamp_to_char_boundary (s : rstring) (pos : nat) : nat :=
  let p := pos `min` byte_len s in
  if (p <? byte_len s) && negb (Bytes.is_char_boundary s p) then
    default 0 (last (List.filter (λ i, i <=? p) (char_indices 0 s).*1))
  else p.

(** The capture of text that was inserted already: [Some true] when the char
    was buffered, [Some false] when it is to be inserted normally. *)
Definition begin_retro (c : Composer) (ch : char) (now : Z) (retro_chars : Z)
  : option (bool * Composer) :=
  let txt := text (textarea c) in
  let safe_cur := clamp_to_char_boundary txt (cursor_pos (textarea c)) in
  before ← Bytes.slice_to txt safe_cur;
  '(o, b) ← decide_begin_buffer (paste_burst c) now before (Z.to_nat retro_chars);
  let c := with_burst c b in
  match o with
  | Some grab =>
      t ← (if is_empty (grabbed grab) then Some (textarea c)
           else replace_range (textarea c) (start_byte grab) safe_cur []);
      let c := with_textarea c t in
      Some (true, with_burst c (append_char_to_buffer (paste_burst c) ch now))
  | None => Some (false, c)
  end.

(** [self.pending_pastes.retain(|(placeholder, _)| text_after.contains(placeholder))]. *)
Definition retain_pastes (c : Composer) : Composer :=
  with_pastes c (List.filter (λ p, contains p.1 (text (textarea c))) (pending_pastes c)).

Definition input_and_retain (c : Composer) (input : KeyEvent) : option Composer :=
  t ← TextArea.input windows (textarea c) input;
  Some (retain_pastes (with_textarea c t)).

Definition handle_non_ascii_char (c : Composer) (input : KeyEvent) (now : Z) : option Composer :=
  if disable_paste_burst c then input_and_retain c input
  else
    let finish c := c ← flush_held c; input_and_retain c input in
    match code input with
    | KChar ch =>
        let '(appended, b) := try_append_char_if_active (paste_burst c) ch now in
        let c := with_burst c b in
        if (appended : bool) then Some c
        else
          c ← flush_held c;
          let '(decision, b) := on_plain_char_no_hold windows (paste_burst c) now in
          let c := with_burst c b in
          match decision with
          | Some BufferAppend => Some (with_burst c (append_char_to_buffer (paste_burst c) ch now))
          | Some (BeginBuffer retro_chars) =>
              '(buffered, c) ← begin_retro c ch now retro_chars;
              if (buffered : bool) then Some c else finish c
          | Some _ => None
          | None => finish c
          end
    | _ => finish c
    end.

(** ** Elements that disappear *)

Fixpoint relabel_from (idx : nat) (todo : list AttachedImage) (c : Composer) : option Composer :=
  match todo with
  | [] => Some c
  | img :: todo' =>
      let expected := local_image_label_text (length (remote_image_urls c) + idx + 1) in
      if placeholder img =?s expected then relabel_from (S idx) todo' c
      else
        let c := with_images c (<[idx := {| placeholder := expected; path := path img |}]> (attached_images c)) in
        '(_, t) ← replace_element_payload (textarea c) (placeholder img) expected;
        relabel_from (S idx) todo' (with_textarea c t)
  end.

Definition relabel_attached_images_and_update_placeholders (c : Composer) : option Composer :=
  relabel_from 0 (attached_images c) c.

(** The removal of the first attached image with that placeholder. *)
Fixpoint remove_image (removed : rstring) (l : list AttachedImage) : bool * list AttachedImage :=
  match l with
  | [] => (false, [])
  | img :: l' =>
      if placeholder img =?s removed then (true, l')
      else let '(b, r) := remove_image removed l' in (b, img :: r)
  end.

Definition drop_removed (acc : bool * Composer) (removed : rstring) : bool * Composer :=
  let '(removed_any_image, c) := acc in
  let c := with_pastes c (List.filter (λ p, negb (p.1 =?s removed)) (pending_pastes c)) in
  let '(found, images) := remove_image removed (attached_images c) in
  (removed_any_image || found, with_images c images).

Definition reconcile_deleted_elements (c : Composer) (elements_before : list rstring) : option Composer :=
  let elements_after := element_payloads (textarea c) in
  let '(removed_any_image, c) :=
    fold_left drop_removed (List.filter (λ p, negb (str_in p elements_after)) elements_before) (false, c) in
  if (removed_any_image : bool) then relabel_attached_images_and_update_placeholders c else Some c.

(** ** Keys *)

(** The end of [handle_input_basic_with_time], once the detector has let the
    key through. *)
Definition apply_key (c : Composer) (input : KeyEvent) : option Composer :=
  let elements_before :=
    if is_empty (pending_pastes c) && is_empty (attached_images c) && is_empty (remote_image_urls c)
    then None else Some (element_payloads (textarea c)) in
  if is_bash_mode c && match code input with Backspace => true | _ => false end && (cursor_pos (textarea c) =? 0)
  then Some (with_bash_mode c false)
  else
    t ← TextArea.input windows (textarea c) input;
    c ← sync_bash_mode_from_text (with_textarea c t);
    c ← (match elements_before with
         | Some l => reconcile_deleted_elements c l
         | None => Some c
         end);
    Some (match code input with
          | KChar _ =>
              if has_ctrl_or_alt (modifiers input)
              then with_burst c (clear_window_after_non_char (paste_burst c)) else c
          | Enter => c
          | _ => with_burst c (clear_window_after_non_char (paste_burst c))
          end).

(** An Enter inside a burst is a newline of the burst. *)
Definition newline_in_burst (c : Composer) (now : Z) : option Composer :=
  if negb (disable_paste_burst c) && is_active (paste_burst c) then
    let '(appended, b) := append_newline_if_active (paste_burst c) now in
    if (appended : bool) then Some (with_burst c b) else None
  else None.

(** A key that is not a plain char: flush what is held, unless it is Enter, and
    apply it. *)
Definition flush_and_apply (c : Composer) (input : KeyEvent) : option Composer :=
  c ← (match code input with KChar _ | Enter => Some c | _ => flush_held c end);
  apply_key c input.

Definition handle_input_basic_with_time (c : Composer) (input : KeyEvent) (now : Z) : option Composer :=
  '(_, c) ← handle_paste_burst_flush c now;
  match code input, newline_in_burst c now with
  | Enter, Some c => Some c
  | KChar ch, _ =>
      let modified c := c ← flush_held c; flush_and_apply c input in
      if negb (has_ctrl_or_alt (modifiers input)) && negb (disable_paste_burst c) then
        if negb (ch <? 128)%Z then handle_non_ascii_char c input now
        else
          let '(decision, b) := on_plain_char windows (paste_burst c) ch now in
          let c := with_burst c b in
          match decision with
          | BufferAppend | BeginBufferFromPending =>
              Some (with_burst c (append_char_to_buffer (paste_burst c) ch now))
          | BeginBuffer retro_chars =>
              '(buffered, c) ← begin_retro c ch now retro_chars;
              if (buffered : bool) then Some c else modified c
          | RetainFirstChar => Some c
          end
      else modified c
  | _, _ => flush_and_apply c input
  end.

(** What [handle_submission_with_time] does with an Enter during or just after
    a burst, outside a slash command: a newline of the burst, or of the editor;
    [None] (inside) when the Enter submits. *)
Definition enter_during_burst (c : Composer) (in_slash_context : bool) (now : Z)
  : option (option Composer) :=
  match (if in_slash_context then None else newline_in_burst c now) with
  | Some c => Some (Some c)
  | None =>
      if negb in_slash_context && negb (disable_paste_burst c)
         && newline_should_insert_instead_of_submit (paste_burst c) now
      then
        t ← TextArea.insert_str (textarea c) [NL];
        let c := with_textarea c t in
        Some (Some (with_burst c (extend_window (paste_burst c) now)))
      else Some None
  end.

(** The fields as [new_with_config] first sets them. *)
Definition empty_composer (cfg : ChatComposerConfig) : Composer :=
  {| textarea := TextArea.new; is_bash_mode := false; pending_pastes := [];
     large_paste_counters := ∅; attached_images := []; remote_image_urls := [];
     paste_burst := default_burst; disable_paste_burst := false; config := cfg |}.

Definition new_with_config (disabled : bool) (cfg : ChatComposerConfig) : option Composer :=
  set_disable_paste_burst (empty_composer cfg) disabled.

(** ** The footer and the path of a char key (footer.rs, [handle_key_event]) *)

Definition toggle_shortcut_mode (current : FooterMode) (ctrl_c_hint is_empty : bool) : FooterMode :=
  let base_mode := if is_empty then ComposerEmpty else ComposerHasDraft in
  match current with
  | QuitShortcutReminder => if ctrl_c_hint then current else base_mode
  | ShortcutOverlay => base_mode
  | _ => ShortcutOverlay
  end.

Definition reset_mode_after_activity (current : FooterMode) : FooterMode :=
  match current with
  | EscHint | ShortcutOverlay | QuitShortcutReminder | HistorySearch | ComposerHasDraft => ComposerEmpty
  | other => other
  end.

(** The composer with the fields that choose its footer. *)
Record ChatComposer := {
  editor : Composer;
  footer_mode : FooterMode;
  quit_shortcut_expires_at : option Z }.

Definition with_editor (u : ChatComposer) (c : Composer) : ChatComposer :=
  {| editor := c; footer_mode := footer_mode u; quit_shortcut_expires_at := quit_shortcut_expires_at u |}.
Definition with_footer (u : ChatComposer) (m : FooterMode) : ChatComposer :=
  {| editor := editor u; footer_mode := m; quit_shortcut_expires_at := quit_shortcut_expires_at u |}.

Definition composer_is_empty (c : Composer) : bool :=
  is_empty (text (textarea c)) && negb (is_bash_mode c)
  && is_empty (attached_images c) && is_empty (remote_image_urls c).

Definition is_in_paste_burst (c : Composer) : bool := is_active (paste_burst c).

Definition quit_shortcut_hint_visible (u : ChatComposer) (now : Z) : bool :=
  match quit_shortcut_expires_at u with Some expires_at => (now <? expires_at)%Z | None => false end.

Definition handle_shortcut_overlay_key (u : ChatComposer) (key_event : KeyEvent) (now : Z) : bool * ChatComposer :=
  let c := editor u in
  if match key_kind key_event with Press => false | _ => true end then (false, u)
  else
    let toggles :=
      match code key_event with KChar ch => (ch =? 63)%Z | _ => false end
      && negb (has_ctrl_or_alt (modifiers key_event)) && composer_is_empty c && negb (is_in_paste_burst c) in
    if negb toggles then (false, u)
    else
      let next := toggle_shortcut_mode (footer_mode u) (quit_shortcut_hint_visible u now) (composer_is_empty c) in
      (negb (bool_decide (next = footer_mode u)), with_footer u next).

(** [handle_key_event], [handle_key_event_without_popup] and
    [handle_input_basic] for a key with a char and neither Ctrl nor Alt, while
    input is enabled and no popup, history search or image selection is open.
    ([handle_input_basic_with_time] resets the footer again, to the same mode.) *)
Definition handle_char_key (u : ChatComposer) (key_event : KeyEvent) (now : Z) : option ChatComposer :=
  match key_kind key_event with
  | Release => Some u
  | _ =>
      let '(swallowed, u) := handle_shortcut_overlay_key u key_event now in
      u ← (if (swallowed : bool) then Some u
           else
             let u := with_footer u (reset_mode_after_activity (footer_mode u)) in
             c ← handle_input_basic_with_time (editor u) key_event now;
             Some (with_editor u c));
      Some (with_editor u (sync_popups (editor u)))
  end.

(** [flush_paste_burst_if_due], the update of the screen. *)
Definition flush_paste_burst_if_due (u : ChatComposer) (now : Z) : option (bool * ChatComposer) :=
  '(r, c) ← handle_paste_burst_flush (editor u) now;
  Some (r, with_editor u c).

Definition new_chat_composer (disabled : bool) (cfg : ChatComposerConfig) : option ChatComposer :=
  c ← new_with_config disabled cfg;
  Some {| editor := c; footer_mode := ComposerEmpty; quit_shortcut_expires_at := None |}.

End composer.
End Composer.
