(* ===== verification/ComposerTheorems.v ===== *)
(** * Typing in the composer is transparent

    Proofs on Composer: in a plain-text composer the keys, the paste-burst
    detector and the screen updates never lose, repeat or reorder a typed
    character, but for the question marks typed first, which toggle the
    shortcut overlay; and the one key for which the detector breaks this, an
    Enter right after a first held char. *)

From S2P Require Import Prelude BytePos TextArea TextAreaFacts TextAreaTheorems PasteBurst Composer.

Module ComposerFacts.
Import Bytes TextArea TextFacts TextTheorems Burst Composer.

Section facts.
Context {U : Unicode} {L : UnicodeLaws U} {H : Host} (windows : bool).

(** ** An editor without elements, the cursor at the end *)

Record bare (t : TextArea) (s : rstring) : Prop := {
  bare_ok : area_ok t;
  bare_elements : elements t = [];
  bare_text : text t = s;
  bare_cursor : cursor_pos t = byte_len s }.

Lemma edited_bare t t' a b s : elements t = [] → edited t t' a b s → elements t' = [].
Proof.
  intros He (x & y & z & _ & _ & _ & _ & [Hm|(_ & _ & Hm)]); [|by rewrite Hm].
  rewrite He in Hm. by inversion Hm.
Qed.

Lemma bare_insert t s x :
  bare t s → ∃ t', TextArea.insert_str t x = Some t' ∧ bare t' (s ++ x).
Proof.
  intros [Hok He Ht Hc]. destruct (insert_at_cursor_ok t x Hok) as (t' & Hi & Hok' & Hed & Hc' & _).
  exists t'. split; [done|]. pose proof (edited_bare _ _ _ _ _ He Hed) as He'.
  destruct Hed as (a & y & z & Hta & Ha & Hb & Ht' & _). rewrite Hc in *.
  assert (Hyz : y ++ z = []).
  { apply byte_len_nil. rewrite Ht in Hta. apply (f_equal byte_len) in Hta. rewrite byte_len_app in Hta. lia. }
  apply app_nil in Hyz as [-> ->]. rewrite Ht, !app_nil_r in *. subst a.
  split; [done|done|done|]. by rewrite Hc', byte_len_app.
Qed.

Lemma expand_bare t r : elements t = [] → expand_range_to_element_boundaries t r = r.
Proof. intros He. unfold expand_range_to_element_boundaries. rewrite He. cbn. by case_bool_decide. Qed.

(** Removing a part that ends at the end or starts at the start. *)
Lemma bare_remove t x y z :
  bare t (x ++ y ++ z) → y ≠ [] → x = [] ∨ z = [] →
  ∃ t', replace_range t (byte_len x) (byte_len (x ++ y)) [] = Some t' ∧ bare t' (x ++ z).
Proof.
  intros [Hok He Ht Hc] Hy Hxz.
  assert (Hlt : byte_len x < byte_len (x ++ y)).
  { rewrite byte_len_app. destruct (decide (byte_len y = 0)) as [E%byte_len_nil|]; [done|lia]. }
  assert (Ha : is_char_boundary (text t) (byte_len x) = true) by (rewrite Ht; apply boundary_app_len).
  assert (Hb : is_char_boundary (text t) (byte_len (x ++ y)) = true)
    by (rewrite Ht, app_assoc; apply boundary_app_len).
  destruct (replace_range_ok t _ _ [] (proj1 Hok) Ha Hb ltac:(lia)) as (t' & Hr & Hbe & Hed & Hcur & _).
  pose proof (ok_becomes t t' Hok Hbe) as Hok'.
  exists t'. split; [done|]. pose proof (edited_bare _ _ _ _ _ He Hed) as He'.
  rewrite expand_bare in Hed, Hcur by done. cbn [fst snd] in *.
  destruct Hed as (a & w & z' & Hta & Ha' & Hb' & Ht' & _). rewrite Ht in Hta.
  destruct (split_unique x (y ++ z) a (w ++ z') Hta (eq_sym Ha')) as [<- Hta'].
  destruct (split_unique (x ++ y) z (x ++ w) z') as [_ <-]; [by rewrite <-!app_assoc|done|].
  split; [done|done|done|]. rewrite Hcur by (apply Hok || (left; done)). unfold cursor_after_edit. rewrite Hc, !byte_len_app in *.
  destruct (Nat.ltb_spec (byte_len x + (byte_len y + byte_len z)) (byte_len x)); [lia|].
  destruct (Nat.leb_spec (byte_len x + (byte_len y + byte_len z)) (byte_len x + byte_len y)); cbn; lia.
Qed.

(** ** The plain-text composer *)

Record plain (c : Composer) : Prop := {
  plain_area : bare (textarea c) (text (textarea c));
  plain_config : config c = plain_text;
  plain_pastes : pending_pastes c = [];
  plain_images : attached_images c = [];
  plain_urls : remote_image_urls c = [] }.

(** [c'] is a plain composer that shows [s] and has the detector [b]. *)
Definition shows (c : Composer) (c' : Composer) (s : rstring) (b : PasteBurst) : Prop :=
  plain c' ∧ current_text c' = s ∧ paste_burst c' = b ∧ disable_paste_burst c' = disable_paste_burst c.

Lemma plain_textarea c t s : plain c → bare t s → plain (with_textarea c t).
Proof. intros [_ ? ? ? ?] Hb. split; cbn; [|done..]. by rewrite (bare_text _ _ Hb). Qed.

Lemma plain_burst c b : plain c → plain (with_burst c b).
Proof. intros []. by split. Qed.

Lemma sync_popups_plain c : plain c → sync_popups c = c.
Proof. intros [_ Hc _ _ _]. unfold sync_popups, sync_slash_command_elements. by rewrite Hc. Qed.

Lemma sync_bash_shows c :
  plain c → ∃ c', sync_bash_mode_from_text c = Some c' ∧ shows c c' (current_text c) (paste_burst c).
Proof.
  intros Hp. unfold sync_bash_mode_from_text, current_text, shows.
  destruct (is_bash_mode c) eqn:Hb; cbn [negb andb].
  { exists c. split; [done|]. unfold current_text. by rewrite Hb. }
  destruct (starts_with $"!" (text (textarea c))) eqn:Hs.
  2:{ exists c. split; [done|]. unfold current_text. by rewrite Hb. }
  apply starts_with_true in Hs as [r Hr]. pose proof (plain_area c Hp) as Ha. rewrite Hr in Ha.
  destruct (bare_remove _ [] $"!" r Ha ltac:(done) ltac:(by left)) as (t' & Ht & Ht').
  change (byte_len []) with 0 in Ht. change (byte_len ([] ++ $"!")) with 1 in Ht. rewrite Ht.
  cbn [mbind option_bind]. eexists. split; [done|].
  pose proof (plain_textarea c t' _ Hp Ht') as [? ? ? ? ?]. split; [by split|].
  unfold current_text. cbn. rewrite (bare_text _ _ Ht'). by rewrite Hr.
Qed.

Lemma current_text_textarea c t x :
  text t = text (textarea c) ++ x → current_text (with_textarea c t) = current_text c ++ x.
Proof. intros Ht. unfold current_text. cbn. rewrite Ht. by destruct (is_bash_mode c). Qed.

Lemma insert_str_shows c s :
  plain c → ∃ c', Composer.insert_str c s = Some c' ∧ shows c c' (current_text c ++ s) (paste_burst c).
Proof.
  intros Hp. unfold Composer.insert_str.
  destruct (bare_insert _ _ s (plain_area c Hp)) as (t & -> & Ht). cbn [mbind option_bind].
  pose proof (plain_textarea c t _ Hp Ht) as Hp1.
  destruct (sync_bash_shows _ Hp1) as (c' & -> & Hp' & Hs & Hb & Hd). cbn [mbind option_bind].
  rewrite sync_popups_plain by done. exists c'. split; [done|]. split_and!; try done.
  rewrite Hs. apply current_text_textarea, (bare_text _ _ Ht).
Qed.

Lemma replace_crlf_id s : CR ∉ s → replace_crlf s = s.
Proof.
  induction s as [|x s IH]; [done|]. intros [Hx Hs]%not_elem_of_cons. specialize (IH Hs).
  destruct s as [|y s]; [done|]. cbn [replace_crlf] in IH |- *.
  destruct (Z.eqb_spec x CR); [congruence|]. cbn [andb]. by rewrite IH.
Qed.

Lemma normalize_newlines_id s : CR ∉ s → normalize_newlines s = s.
Proof.
  intros Hs. unfold normalize_newlines. rewrite replace_crlf_id by done.
  rewrite <-(list_fmap_id s) at 2. apply list_fmap_ext. intros i x Hx. cbn.
  destruct (Z.eqb_spec x CR) as [->|]; [|done]. destruct Hs. by eapply list_elem_of_lookup_2.
Qed.

Lemma handle_paste_shows c s :
  plain c → CR ∉ s → length s ≤ LARGE_PASTE_CHAR_THRESHOLD →
  ∃ c', handle_paste c s = Some c' ∧ shows c c' (current_text c ++ s) default_burst.
Proof.
  intros Hp Hcr Hl. unfold handle_paste. rewrite normalize_newlines_id by done.
  rewrite (proj2 (Nat.ltb_ge _ _)) by done. rewrite (plain_config c Hp). cbn [image_paste_enabled plain_text].
  rewrite andb_false_r. cbn [mbind option_bind].
  destruct (insert_str_shows c s Hp) as (c' & -> & Hp' & Hs & Hb & Hd). cbn [mbind option_bind].
  rewrite sync_popups_plain by (by apply plain_burst). eexists. split; [done|].
  split_and!; try done. by apply plain_burst.
Qed.

(** ** The detector in the composer *)

Definition draft (c : Composer) : rstring := current_text c ++ held (paste_burst c).

(** What holds while text is typed: the text is short enough for no placeholder
    and has no carriage return, and a detector that is disabled, or holds
    nothing beside an empty text, is idle. *)
Record typing (c : Composer) : Prop := {
  typing_plain : plain c;
  typing_burst : burst_ok (paste_burst c);
  typing_cr : CR ∉ draft c;
  typing_short : length (draft c) ≤ LARGE_PASTE_CHAR_THRESHOLD;
  typing_disabled : disable_paste_burst c = true → is_active (paste_burst c) = false;
  typing_empty : draft c = [] → is_active (paste_burst c) = false }.

(** The clock of the detector shows an earlier char, or this one, or none. *)
Definition clock_step (now : Z) (c c' : Composer) : Prop :=
  last_plain_char_time (paste_burst c') = last_plain_char_time (paste_burst c) ∨
  last_plain_char_time (paste_burst c') = Some now ∨ last_plain_char_time (paste_burst c') = None.

Lemma held_in_draft c s : typing c → held (paste_burst c) = s → CR ∉ s ∧ length s ≤ LARGE_PASTE_CHAR_THRESHOLD.
Proof.
  intros [_ _ Hcr Hl _ _] <-. unfold draft in *. split.
  - intros Hin. apply Hcr, elem_of_app. by right.
  - rewrite length_app in Hl. lia.
Qed.

Lemma shows_typing c c' b :
  typing c → shows c c' (draft c) b → held b = [] → burst_ok b → is_active b = false → typing c' ∧ draft c' = draft c.
Proof.
  intros [Hp Hb Hcr Hl Hd He] (Hp' & Hs & Hb' & Hd') Hh Hok Ha.
  assert (Hdr : draft c' = draft c) by (unfold draft at 1; by rewrite Hs, Hb', Hh, app_nil_r).
  split; [|done]. split; rewrite ?Hdr, ?Hb'; done.
Qed.

Lemma flush_typing c now :
  typing c →
  ∃ r c', handle_paste_burst_flush windows c now = Some (r, c') ∧ typing c' ∧ draft c' = draft c ∧
    disable_paste_burst c' = disable_paste_burst c ∧ clock_step now c c' ∧
    (∀ ch t, pending_first_char (paste_burst c') = Some (ch, t) →
       (duration_since now t <= PASTE_BURST_CHAR_INTERVAL windows)%Z) ∧
    (r = true → held (paste_burst c') = []) ∧
    (r = false → c' = c ∧ (flush_if_due windows (paste_burst c) now).1 = NoFlush).
Proof.
  intros Ht. unfold handle_paste_burst_flush.
  destruct (flush_if_due windows (paste_burst c) now) as [r b] eqn:Ef.
  destruct (flush_if_due_held windows _ _ _ _ (typing_burst c Ht) Ef) as (Hok & Hheld & Hr).
  pose proof (plain_burst c b (typing_plain c Ht)) as Hpb.
  assert (Hcur : ∀ s, held (paste_burst c) = s → current_text (with_burst c b) ++ s = draft c)
    by (intros s <-; done).
  destruct r as [s|ch|]; cbn [fst].
  - destruct (held_in_draft c s Ht Hheld) as [Hcr Hl].
    destruct (handle_paste_shows _ s Hpb Hcr Hl) as (c' & -> & Hsh). rewrite Hcur in Hsh by done.
    cbn [mbind option_bind]. exists true, c'. split; [done|]. pose proof Hsh as (_ & _ & Hbu & Hdis).
    destruct (shows_typing c c' _ Ht Hsh) as [Ht' Hdr]; [done|apply default_ok|done|].
    split_and!; try done; rewrite ?Hbu; try done. right; right. by rewrite Hbu.
  - destruct Hr as (Hh & Ha & Hpe).
    destruct (insert_str_shows _ [ch] Hpb) as (c' & -> & Hsh). rewrite Hcur in Hsh by done.
    cbn [mbind option_bind]. exists true, c'. split; [done|]. pose proof Hsh as (_ & _ & Hbu & Hdis).
    cbn in Hbu, Hdis.
    destruct (shows_typing c c' _ Ht Hsh) as [Ht' Hdr]; [done|done| |].
    { cbn. unfold is_active, is_active_internal. rewrite Ha, Hpe. unfold held in Hh. rewrite Hpe, app_nil_r in Hh. by rewrite Hh. }
    split_and!; try done; rewrite ?Hbu; try done; [left|by rewrite Hpe].
    rewrite Hbu. by apply flush_if_due_clock in Ef.
  - subst b. exists false, c. split; [by destruct c|]. split_and!; try done; [by left|].
    intros ch t Hp. by destruct (pending_is_young windows _ _ _ _ _ _ (typing_burst c Ht) Ef Hp).
Qed.

Lemma flush_held_typing c :
  typing c →
  ∃ c', flush_held c = Some c' ∧ typing c' ∧ draft c' = draft c ∧
    disable_paste_burst c' = disable_paste_burst c ∧ (∀ now, clock_step now c c') ∧
    is_active (paste_burst c') = false ∧
    (is_active (paste_burst c) = false → c' = c).
Proof.
  intros Ht. unfold flush_held.
  destruct (flush_before_held (paste_burst c) (typing_burst c Ht)) as (Ho & Ha & Hh & Hok).
  destruct (flush_before_modified_input (paste_burst c)) as [o b] eqn:Ef. cbn [fst snd] in *.
  destruct o as [s|].
  - cbn in Ho. destruct (held_in_draft c s Ht ltac:(done)) as [Hcr Hl].
    destruct (handle_paste_shows _ s (plain_burst c b (typing_plain c Ht)) Hcr Hl) as (c' & -> & Hsh).
    assert (Hcur : current_text (with_burst c b) ++ s = draft c) by (by rewrite Ho).
    rewrite Hcur in Hsh. exists c'. split; [done|]. pose proof Hsh as (_ & _ & Hbu & Hdis).
    destruct (shows_typing c c' _ Ht Hsh) as [Ht' Hdr]; [done|apply default_ok|done|].
    split_and!; try done; [intros now; right; right; by rewrite Hbu|by rewrite Hbu|].
    intros Hna. unfold flush_before_modified_input in Ef. by rewrite Hna in Ef.
  - unfold flush_before_modified_input in Ef. destruct (is_active (paste_burst c)) eqn:Hact; [done|].
    injection Ef as <-. exists c. split; [by destruct c|]. split_and!; try done. by left.
Qed.

(** ** One key *)

(** A char typed with no modifier but Shift, and not a control char. *)
Definition typed_key (ch : char) (shift : bool) : KeyEvent :=
  {| code := KChar ch; modifiers := if shift then KM_SHIFT else KM_NONE; key_kind := Press |}.

Lemma typed_plain ch shift : has_ctrl_or_alt windows (modifiers (typed_key ch shift)) = false.
Proof. by destruct shift. Qed.

Lemma typed_input t ch shift :
  (32 ≤ ch)%Z → TextArea.input windows t (typed_key ch shift) = TextArea.insert_str t [ch].
Proof.
  intros Hc. unfold TextArea.input, input_char. cbn [typed_key key_kind code modifiers].
  rewrite !(proj2 (Z.eqb_neq ch _)) by lia. rewrite !andb_false_r. by destruct shift.
Qed.

(** [c'] is [c] after [ch] was typed. *)
Definition takes (now : Z) (c c' : Composer) (ch : char) : Prop :=
  plain c' ∧ burst_ok (paste_burst c') ∧ draft c' = draft c ++ [ch] ∧
  disable_paste_burst c' = disable_paste_burst c ∧ clock_step now c c' ∧
  (disable_paste_burst c = true → is_active (paste_burst c') = false).

Lemma apply_key_takes now c ch shift :
  (32 ≤ ch)%Z → plain c → burst_ok (paste_burst c) → is_active (paste_burst c) = false →
  ∃ c', apply_key windows c (typed_key ch shift) = Some c' ∧ takes now c c' ch.
Proof.
  intros Hc Hp Hb Hi. unfold apply_key. rewrite (plain_pastes c Hp), (plain_images c Hp), (plain_urls c Hp).
  cbn [is_empty andb code typed_key]. rewrite andb_false_r. cbn [andb].
  fold (typed_key ch shift). rewrite typed_input by done.
  destruct (bare_insert _ _ [ch] (plain_area c Hp)) as (t & -> & Ht). cbn [mbind option_bind].
  destruct (sync_bash_shows _ (plain_textarea c t _ Hp Ht)) as (c' & -> & Hp' & Hs & Hbu & Hd).
  cbn [mbind option_bind]. rewrite typed_plain. exists c'. split; [done|]. cbn in Hbu, Hd.
  rewrite (current_text_textarea c t [ch]) in Hs by apply (bare_text _ _ Ht).
  destruct (inactive_spec _ Hi) as (_ & _ & _ & Hh).
  split_and!; try done; [by rewrite Hbu| | |by rewrite Hbu].
  - unfold draft. by rewrite Hs, Hbu, Hh, !app_nil_r.
  - left. by rewrite Hbu.
Qed.

(** Inserting normally on the non-ASCII path. *)
Lemma input_retain_takes now c ch shift :
  (32 ≤ ch)%Z → plain c → burst_ok (paste_burst c) → is_active (paste_burst c) = false →
  ∃ c', input_and_retain windows c (typed_key ch shift) = Some c' ∧ takes now c c' ch.
Proof.
  intros Hc Hp Hb Hi. unfold input_and_retain. rewrite typed_input by done.
  destruct (bare_insert _ _ [ch] (plain_area c Hp)) as (t & -> & Ht). cbn [mbind option_bind].
  eexists. split; [done|]. unfold retain_pastes. cbn [pending_pastes with_textarea].
  rewrite (plain_pastes c Hp). cbn [List.filter].
  pose proof (plain_textarea c t _ Hp Ht) as [? ? ? ? ?].
  destruct (inactive_spec _ Hi) as (_ & _ & _ & Hh).
  split_and!; try done; [|by left]. unfold draft. cbn. rewrite Hh, !app_nil_r.
  change (current_text (with_pastes (with_textarea c t) [])) with (current_text (with_textarea c t)).
  by apply current_text_textarea, (bare_text _ _ Ht).
Qed.

(** A burst that starts by taking back text that was inserted: the char joins
    it, or nothing has changed. *)
Lemma begin_retro_takes now c ch n :
  plain c → burst_ok (paste_burst c) → is_active (paste_burst c) = false →
  is_Some (last_plain_char_time (paste_burst c)) → disable_paste_burst c = false →
  ∃ r c', begin_retro c ch now n = Some (r, c') ∧
    (r = true ∧ takes now c c' ch ∨ r = false ∧ c' = c).
Proof.
  intros Hp Hb Hi Hl Hdis. unfold begin_retro. pose proof (plain_area c Hp) as [Hok He _ Hcur].
  rewrite Hcur. unfold clamp_to_char_boundary. rewrite Nat.min_id, Nat.ltb_irrefl. cbn [andb].
  set (s := text (textarea c)) in *.
  assert (Hs : slice_to s (byte_len s) = Some s).
  { unfold slice_to. rewrite <-(app_nil_r s) at 2. by rewrite split_bytes_len. }
  rewrite Hs. cbn [mbind option_bind]. rewrite decide_begin_buffer_total. cbn zeta.
  set (x := take _ s). set (y := drop _ s). assert (Hxy : x ++ y = s) by apply take_drop.
  destruct (existsb is_whitespace y || (16 <=? length y)) eqn:Ed; cbn [mbind option_bind].
  2:{ exists false, c. split; [by destruct c|by right]. }
  assert (Hy : y ≠ []) by (intros E; rewrite E in Ed; done).
  cbn [grabbed start_byte]. rewrite (proj2 (is_empty_false y) Hy). cbn [textarea with_burst].
  assert (Hbare : bare (textarea c) (x ++ y ++ [])) by (rewrite app_nil_r, Hxy; apply (plain_area c Hp)).
  destruct (bare_remove _ x y [] Hbare Hy ltac:(by right)) as (t & Ht & Hbt).
  rewrite Hxy in Ht. rewrite Ht. cbn [mbind option_bind]. rewrite app_nil_r in Hbt.
  exists true. eexists. split; [done|]. left. split; [done|].
  pose proof (plain_textarea c t _ Hp Hbt) as [? ? ? ? ?].
  destruct (inactive_spec _ Hi) as (Hact & Hbuf & Hpn & _).
  split_and!; [by split| | |done|by left|by rewrite Hdis].
  - split; cbn; [done|by rewrite Hpn|done].
  - unfold draft, held, current_text. cbn. rewrite Hpn, Hbuf, (bare_text _ _ Hbt), !app_nil_r. fold s.
    rewrite <-Hxy. destruct (is_bash_mode c); cbn; by rewrite ?app_assoc.
Qed.

Lemma takes_after now c c1 c' ch :
  draft c1 = draft c → disable_paste_burst c1 = disable_paste_burst c → clock_step now c c1 →
  takes now c1 c' ch → takes now c c' ch.
Proof.
  intros Hd Hdis Hc (Hp & Hb & Hdr & Hdis' & Hc' & Ha). split_and!; try done; [congruence|congruence| |by rewrite <-Hdis].
  unfold clock_step in *. destruct Hc' as [->|[->| ->]]; auto.
Qed.

(** The key goes to the editor once nothing is held. *)
Lemma modified_takes now c ch shift :
  typing c → (32 ≤ ch)%Z →
  ∃ c', (c ← flush_held c; flush_and_apply windows c (typed_key ch shift)) = Some c' ∧ takes now c c' ch.
Proof.
  intros Ht Hc. destruct (flush_held_typing c Ht) as (c1 & -> & Ht1 & Hd1 & Hdis & Hcl & Hi & _).
  cbn [mbind option_bind]. unfold flush_and_apply. cbn [code typed_key mbind option_bind].
  fold (typed_key ch shift).
  destruct (apply_key_takes now c1 ch shift Hc (typing_plain _ Ht1) (typing_burst _ Ht1) Hi) as (c' & -> & Hk).
  exists c'. split; [done|]. by eapply takes_after.
Qed.

Lemma append_takes now c b ch :
  plain c → burst_ok b → active b = true → held b = held (paste_burst c) →
  last_plain_char_time b = Some now ∨ last_plain_char_time b = last_plain_char_time (paste_burst c) →
  disable_paste_burst c = false →
  takes now c (with_burst c (append_char_to_buffer b ch now)) ch.
Proof.
  intros Hp Hb Ha Hh Hl Hdis. split_and!; [by apply plain_burst|by apply append_ok| |done| |by rewrite Hdis].
  - unfold draft. cbn [paste_burst with_burst]. rewrite held_append, Hh by done.
    change (current_text (with_burst c ?b)) with (current_text c). by rewrite (assoc_L (++)).
  - unfold clock_step. cbn. destruct Hl as [->| ->]; auto.
Qed.

(** The composer's state between two keys, with its text as it was. *)
Lemma typing_same c c' :
  typing c → plain c' → burst_ok (paste_burst c') → draft c' = draft c →
  is_active (paste_burst c') = false → typing c'.
Proof. intros [_ _ ? ? _ _] Hp Hb Hd Ha. split; try done; by rewrite Hd. Qed.

Lemma noted_typing c now :
  typing c → is_active (paste_burst c) = false → disable_paste_burst c = false →
  typing (with_burst c (note_plain_char windows (paste_burst c) now)).
Proof.
  intros Ht Hi Hdis. destruct (inactive_spec _ Hi) as (_ & _ & Hp & _).
  apply (typing_same c); try done; [by apply plain_burst, Ht|]. by apply note_ok; [apply Ht|].
Qed.

(** A run of plain chars that is long enough: take text back, or insert. *)
Lemma begin_buffer_takes now c ch n (k : Composer → option Composer) :
  typing c → is_active (paste_burst c) = false → disable_paste_burst c = false →
  (∀ c, typing c → is_active (paste_burst c) = false → ∃ c', k c = Some c' ∧ takes now c c' ch) →
  ∃ c', ('(buffered, c') ←
           begin_retro (with_burst c (note_plain_char windows (paste_burst c) now)) ch now n;
         if (buffered : bool) then Some c' else k c') = Some c' ∧ takes now c c' ch.
Proof.
  intros Ht Hi Hdis Hk. set (c1 := with_burst c _).
  assert (Ht1 : typing c1) by by apply noted_typing.
  assert (Hi1 : is_active (paste_burst c1) = false) by done.
  assert (Hcl : clock_step now c c1) by (right; by left).
  destruct (begin_retro_takes now c1 ch n (typing_plain _ Ht1) (typing_burst _ Ht1) Hi1 ltac:(done) Hdis)
    as (r & c2 & -> & [[-> Hr]|[-> ->]]); cbn [mbind option_bind].
  - exists c2. split; [done|]. by apply (takes_after now c c1).
  - destruct (Hk c1 Ht1 Hi1) as (c3 & -> & H3). exists c3. split; [done|]. by apply (takes_after now c c1).
Qed.

Lemma inactive_of b : active b = false → pending_first_char b = None → burst_ok b → is_active b = false.
Proof. intros Ha Hp [Hb _ _]. unfold is_active, is_active_internal. by rewrite Ha, Hp, (Hb Ha). Qed.

Lemma ascii_takes now c ch shift :
  typing c → (32 ≤ ch)%Z → disable_paste_burst c = false →
  (∀ h t, pending_first_char (paste_burst c) = Some (h, t) →
     (duration_since now t <= PASTE_BURST_CHAR_INTERVAL windows)%Z) →
  ∃ c', (let '(decision, b) := on_plain_char windows (paste_burst c) ch now in
         let c := with_burst c b in
         match decision with
         | BufferAppend | BeginBufferFromPending =>
             Some (with_burst c (append_char_to_buffer (paste_burst c) ch now))
         | BeginBuffer retro_chars =>
             '(buffered, c) ← begin_retro c ch now retro_chars;
             if (buffered : bool) then Some c
             else (c ← flush_held c; flush_and_apply windows c (typed_key ch shift))
         | RetainFirstChar => Some c
         end) = Some c' ∧ takes now c c' ch.
Proof.
  intros Ht Hc Hdis Hyoung. pose proof (typing_burst c Ht) as Hb. unfold on_plain_char.
  change (active (note_plain_char windows (paste_burst c) now)) with (active (paste_burst c)).
  change (pending_first_char (note_plain_char windows (paste_burst c) now)) with (pending_first_char (paste_burst c)).
  destruct (active (paste_burst c)) eqn:Ha.
  - eexists. split; [done|]. apply (append_takes now c (extend_window (note_plain_char windows (paste_burst c) now) now));
      [apply Ht| |done|done|by left|done].
    destruct Hb as [H1 H2 H3]. split; cbn; [done| |done]. intros h t Hp. destruct (H2 h t Hp). congruence.
  - destruct (pending_first_char (paste_burst c)) as [[h t]|] eqn:Hp.
    + rewrite (proj2 (Z.leb_le _ _)) by by apply (Hyoung h t). eexists. split; [done|].
      eapply (append_takes now c (extend_window _ now)); [apply Ht|by split|done| |by left|done].
      unfold held. cbn. rewrite Hp, (buffer_active _ Hb Ha). done.
    + pose proof (inactive_of _ Ha Hp Hb) as Hi. destruct (begin_buffer _) as [d|] eqn:Hd.
      * unfold begin_buffer in Hd. destruct (_ <=? _)%Z; [|done]. injection Hd as <-.
        apply (begin_buffer_takes now c ch _ (λ c, c ← flush_held c; flush_and_apply windows c (typed_key ch shift)));
          [done..|]. intros c2 Ht2 _. by apply modified_takes.
      * eexists. split; [done|]. split_and!; [by apply plain_burst, Ht| | |done|right; by left|by rewrite Hdis].
        -- split; cbn; [intros _; by apply (buffer_active _ Hb)|by intros h t [= <- <-]|done].
        -- destruct (inactive_spec _ Hi) as (_ & Hbuf & _ & Hh). unfold draft. rewrite Hh, app_nil_r.
           unfold held. cbn. by rewrite Hbuf.
Qed.

Lemma non_ascii_takes now c ch shift :
  typing c → (32 ≤ ch)%Z → disable_paste_burst c = false →
  ∃ c', handle_non_ascii_char windows c (typed_key ch shift) now = Some c' ∧ takes now c c' ch.
Proof.
  intros Ht Hc Hdis. pose proof (typing_burst c Ht) as Hb. unfold handle_non_ascii_char. rewrite Hdis.
  cbn [code typed_key]. fold (typed_key ch shift). unfold try_append_char_if_active.
  assert (Hfin : ∀ c, typing c → is_active (paste_burst c) = false →
    ∃ c', (c ← flush_held c; input_and_retain windows c (typed_key ch shift)) = Some c' ∧ takes now c c' ch).
  { intros c2 Ht2 Hi2. destruct (flush_held_typing c2 Ht2) as (c3 & -> & _ & _ & _ & _ & _ & Heq).
    rewrite (Heq Hi2). cbn [mbind option_bind]. by apply input_retain_takes; [|apply Ht2..|]. }
  destruct (active (paste_burst c)) eqn:Ha; cbn [orb].
  { eexists. split; [done|]. by apply (append_takes now c (paste_burst c)); [apply Ht|..|right|]. }
  rewrite (buffer_active _ Hb Ha). cbn [is_empty negb].
  destruct (flush_held_typing (with_burst c (paste_burst c)) ltac:(by destruct c))
    as (c1 & -> & Ht1 & Hd1 & Hdis1 & Hcl1 & Hi1 & _). cbn [mbind option_bind].
  assert (Hdr : draft c1 = draft c) by (by rewrite Hd1; destruct c).
  assert (Hcl : clock_step now c c1) by (by destruct (Hcl1 now); [left|right]).
  assert (Hdis' : disable_paste_burst c1 = false) by (by rewrite Hdis1).
  enough (∃ c', (let '(decision, b) := on_plain_char_no_hold windows (paste_burst c1) now in
          let c := with_burst c1 b in
          match decision with
          | Some BufferAppend => Some (with_burst c (append_char_to_buffer (paste_burst c) ch now))
          | Some (BeginBuffer retro_chars) =>
              '(buffered, c) ← begin_retro c ch now retro_chars;
              if (buffered : bool) then Some c
              else (c ← flush_held c; input_and_retain windows c (typed_key ch shift))
          | Some _ => None
          | None => c ← flush_held c; input_and_retain windows c (typed_key ch shift)
          end) = Some c' ∧ takes now c1 c' ch) as (c' & Hc' & Hk).
  { exists c'. split; [done|]. by eapply takes_after; [done|by rewrite Hdis1|done|]. }
  destruct (inactive_spec _ Hi1) as (Ha1 & Hb1 & Hp1 & Hh1). unfold on_plain_char_no_hold.
  change (active (note_plain_char windows (paste_burst c1) now)) with (active (paste_burst c1)). rewrite Ha1.
  destruct (begin_buffer _) as [d|] eqn:Hd.
  - unfold begin_buffer in Hd. destruct (_ <=? _)%Z; [|done]. injection Hd as <-.
    by apply (begin_buffer_takes now c1 ch _ (λ c, c ← flush_held c; input_and_retain windows c (typed_key ch shift))).
  - destruct (Hfin _ (noted_typing c1 now Ht1 Hi1 Hdis') Hi1) as (c' & -> & Hk). exists c'. split; [done|].
    eapply takes_after; [| | |exact Hk]; [done|done|right; by left].
Qed.

Lemma key_takes now c ch shift :
  typing c → (32 ≤ ch)%Z →
  ∃ c', handle_input_basic_with_time windows c (typed_key ch shift) now = Some c' ∧ takes now c c' ch.
Proof.
  intros Ht Hc. unfold handle_input_basic_with_time.
  destruct (flush_typing c now Ht) as (r & c1 & -> & Ht1 & Hd1 & Hdis1 & Hcl1 & Hy & _).
  cbn [mbind option_bind code typed_key]. fold (typed_key ch shift).
  enough (∃ c', (if negb (has_ctrl_or_alt windows (modifiers (typed_key ch shift))) && negb (disable_paste_burst c1)
    then if negb (ch <? 128)%Z then handle_non_ascii_char windows c1 (typed_key ch shift) now
         else (let '(decision, b) := on_plain_char windows (paste_burst c1) ch now in
         let c := with_burst c1 b in
         match decision with
         | BufferAppend | BeginBufferFromPending =>
             Some (with_burst c (append_char_to_buffer (paste_burst c) ch now))
         | BeginBuffer retro_chars =>
             '(buffered, c) ← begin_retro c ch now retro_chars;
             if (buffered : bool) then Some c
             else (c ← flush_held c; flush_and_apply windows c (typed_key ch shift))
         | RetainFirstChar => Some c
         end)
    else (c ← flush_held c1; flush_and_apply windows c (typed_key ch shift))) = Some c' ∧ takes now c1 c' ch)
    as (c' & Hc' & Hk).
  { exists c'. split; [done|]. by eapply takes_after. }
  rewrite typed_plain. destruct (disable_paste_burst c1) eqn:Hdis; cbn [negb andb].
  - by apply modified_takes.
  - destruct (negb (ch <? 128)%Z); [by apply non_ascii_takes|by apply ascii_takes].
Qed.

(** ** Typing *)

(** A key with a char, or an update of the screen, at a time. *)
Inductive Event := Key (ch : char) (shift : bool) (now : Z) | Tick (now : Z).

Definition event_time (e : Event) : Z := match e with Key _ _ now | Tick now => now end.
Definition event_char (e : Event) : option char := match e with Key ch _ _ => Some ch | Tick _ => None end.
Definition printable (e : Event) : Prop := match e with Key ch _ _ => (32 ≤ ch)%Z | Tick _ => True end.

Definition step (u : ChatComposer) (e : Event) : option ChatComposer :=
  match e with
  | Key ch shift now => handle_char_key windows u (typed_key ch shift) now
  | Tick now => snd <$> flush_paste_burst_if_due windows u now
  end.

Fixpoint run (u : ChatComposer) (es : list Event) : option ChatComposer :=
  match es with [] => Some u | e :: es' => u' ← step u e; run u' es' end.

Definition typed_text (es : list Event) : rstring := omap event_char es.

(** What typing means, with no detector and no clock: a question mark in an
    empty draft is no input, any other char goes to the end. *)
Definition type_char (s : rstring) (ch : char) : rstring :=
  if is_empty s && (ch =? 63)%Z then s else s ++ [ch].

(** The chars from the first that is not a question mark. *)
Fixpoint after_help (s : rstring) : rstring :=
  match s with [] => [] | ch :: s' => if (ch =? 63)%Z then after_help s' else s end.

Lemma type_chars_app s x : s ≠ [] → fold_left type_char x s = s ++ x.
Proof.
  revert s. induction x as [|ch x IH]; intros s Hs; cbn; [by rewrite app_nil_r|].
  unfold type_char at 2. rewrite (proj2 (is_empty_false s) Hs). cbn.
  rewrite IH by (by destruct s). by rewrite <-app_assoc.
Qed.

Lemma type_chars_empty x : fold_left type_char x [] = after_help x.
Proof.
  induction x as [|ch x IH]; [done|]. cbn. unfold type_char at 2. cbn.
  destruct (ch =? 63)%Z; [done|]. by rewrite type_chars_app.
Qed.

Lemma type_char_length s ch : length (type_char s ch) ≤ S (length s).
Proof. unfold type_char. destruct (_ && _); [lia|]. rewrite length_app. cbn. lia. Qed.

(** The footer never shows the quit reminder, which only Ctrl+C and Ctrl+D do. *)
Record typing_in (u : ChatComposer) : Prop := {
  in_typing : typing (editor u);
  in_footer : footer_mode u ≠ QuitShortcutReminder }.

Lemma toggle_changes m hint e :
  m ≠ QuitShortcutReminder →
  toggle_shortcut_mode m hint e ≠ m ∧ toggle_shortcut_mode m hint e ≠ QuitShortcutReminder.
Proof. by destruct m, e. Qed.

Lemma reset_mode_normal m : reset_mode_after_activity m = ComposerEmpty.
Proof. by destruct m. Qed.

(** The composer's own test of emptiness, with that of the detector, is that of
    the draft. *)
Lemma empty_iff_draft c :
  typing c → composer_is_empty c && negb (is_in_paste_burst c) = is_empty (draft c).
Proof.
  intros Ht. pose proof (typing_plain c Ht) as Hp. unfold composer_is_empty, is_in_paste_burst.
  rewrite (plain_images c Hp), (plain_urls c Hp). cbn [is_empty]. rewrite !andb_true_r.
  destruct (is_empty (draft c)) eqn:He.
  - apply is_empty_true in He. rewrite (typing_empty c Ht He). unfold draft, current_text in He.
    destruct (is_bash_mode c); [done|]. apply app_nil in He as [-> _]. done.
  - apply is_empty_false in He. apply not_true_is_false. intros [[Hx Hb]%andb_true_iff Ha]%andb_true_iff.
    apply negb_true_iff in Hb, Ha. apply is_empty_true in Hx. destruct (inactive_spec _ Ha) as (_ & _ & _ & Hh).
    apply He. unfold draft, current_text. by rewrite Hb, Hx, Hh.
Qed.

Lemma takes_typing now c c' ch :
  typing c → takes now c c' ch → (32 ≤ ch)%Z → length (draft c) < LARGE_PASTE_CHAR_THRESHOLD → typing c'.
Proof.
  intros [_ _ Hcr Hl Hd _] (Hp & Hb & Hdr & Hdis & _ & Ha) Hc Hlt. split; try done.
  - rewrite Hdr, elem_of_app, list_elem_of_singleton. unfold CR. intros [?|?]; [done|lia].
  - rewrite Hdr, length_app. cbn. lia.
  - rewrite Hdis. done.
  - rewrite Hdr. by intros [_ ?]%app_nil.
Qed.

(** A question mark in an empty draft toggles the overlay and is swallowed. *)
Lemma help_swallowed u shift now :
  typing_in u → draft (editor u) = [] →
  ∃ m, handle_shortcut_overlay_key windows u (typed_key 63%Z shift) now = (true, with_footer u m) ∧
    m ≠ QuitShortcutReminder.
Proof.
  intros [Ht Hm] Hd. unfold handle_shortcut_overlay_key. cbn [typed_key key_kind code modifiers]. fold (typed_key 63%Z shift).
  change (if shift then KM_SHIFT else KM_NONE) with (modifiers (typed_key 63%Z shift)). rewrite typed_plain.
  rewrite Z.eqb_refl. cbn [negb andb]. rewrite empty_iff_draft, Hd by done. cbn [is_empty negb].
  destruct (toggle_changes (footer_mode u) (quit_shortcut_hint_visible u now) (composer_is_empty (editor u)) Hm)
    as [Hne Hn]. rewrite bool_decide_eq_false_2 by done. by eexists.
Qed.

Lemma other_not_swallowed u ch shift now :
  typing_in u → is_empty (draft (editor u)) && (ch =? 63)%Z = false →
  handle_shortcut_overlay_key windows u (typed_key ch shift) now = (false, u).
Proof.
  intros [Ht Hm] Hd. unfold handle_shortcut_overlay_key. cbn [typed_key key_kind code modifiers].
  change (if shift then KM_SHIFT else KM_NONE) with (modifiers (typed_key ch shift)). rewrite typed_plain.
  cbn [negb]. rewrite andb_true_r, <-andb_assoc, empty_iff_draft, andb_comm, Hd by done. done.
Qed.

Lemma char_key_typing u ch shift now :
  typing_in u → (32 ≤ ch)%Z → length (draft (editor u)) < LARGE_PASTE_CHAR_THRESHOLD →
  ∃ u', handle_char_key windows u (typed_key ch shift) now = Some u' ∧ typing_in u' ∧
    draft (editor u') = type_char (draft (editor u)) ch ∧ clock_step now (editor u) (editor u').
Proof.
  intros Hu Hc Hl. pose proof Hu as [Ht Hm]. unfold handle_char_key, type_char.
  cbn [key_kind typed_key]. fold (typed_key ch shift).
  destruct (is_empty (draft (editor u)) && (ch =? 63)%Z) eqn:Hq.
  - apply andb_true_iff in Hq as [Hd%is_empty_true ->%Z.eqb_eq].
    destruct (help_swallowed u shift now Hu Hd) as (m & -> & Hm'). cbn [mbind option_bind].
    rewrite sync_popups_plain by apply Ht. eexists. split; [done|]. split_and!; [by split|done|by left].
  - rewrite other_not_swallowed by done. cbn [editor with_footer].
    destruct (key_takes now (editor u) ch shift Ht Hc) as (c' & -> & Hk). cbn [mbind option_bind editor with_editor].
    pose proof (takes_typing _ _ _ _ Ht Hk Hc Hl) as Ht'. rewrite sync_popups_plain by apply Ht'.
    eexists. split; [done|]. destruct Hk as (_ & _ & Hdr & _ & Hcl & _).
    split_and!; [|done|done]. split; [done|]. cbn. by rewrite reset_mode_normal.
Qed.

Lemma step_typing u e :
  typing_in u → printable e → length (draft (editor u)) < LARGE_PASTE_CHAR_THRESHOLD ∨ event_char e = None →
  ∃ u', step u e = Some u' ∧ typing_in u' ∧
    draft (editor u') = fold_left type_char (option_list (event_char e)) (draft (editor u)) ∧
    clock_step (event_time e) (editor u) (editor u').
Proof.
  intros Hu Hpr Hlt. destruct e as [ch shift now|now]; cbn in *.
  - destruct Hlt; [|done]. by apply char_key_typing.
  - unfold flush_paste_burst_if_due. pose proof Hu as [Ht Hm].
    destruct (flush_typing (editor u) now Ht) as (r & c' & -> & Ht' & Hd & _ & Hcl & _). cbn [mbind option_bind].
    eexists. split; [done|]. by split_and!.
Qed.

Lemma run_typing es u :
  typing_in u → Forall printable es →
  length (draft (editor u)) + length (typed_text es) ≤ LARGE_PASTE_CHAR_THRESHOLD →
  ∃ u', run u es = Some u' ∧ typing_in u' ∧
    draft (editor u') = fold_left type_char (typed_text es) (draft (editor u)) ∧
    ∀ t, last_plain_char_time (paste_burst (editor u')) = Some t →
      last_plain_char_time (paste_burst (editor u)) = Some t ∨ t ∈ event_time <$> es.
Proof.
  revert u. induction es as [|e es IH]; intros u Ht Hpr Hl.
  { exists u. split_and!; auto. }
  apply Forall_cons in Hpr as [He Hpr]. unfold typed_text in Hl. cbn in Hl.
  destruct (step_typing u e Ht He) as (u1 & Hs & Ht1 & Hd1 & Hcl).
  { destruct (event_char e) as [ch|]; [left; cbn in Hl; lia|by right]. }
  destruct (IH u1 Ht1 Hpr) as (u' & Hr & Ht' & Hd' & Ht2).
  { rewrite Hd1. unfold typed_text. destruct (event_char e) as [ch|]; cbn in *; [|lia].
    pose proof (type_char_length (draft (editor u)) ch). lia. }
  exists u'. cbn. rewrite Hs. cbn. split_and!; [done|done| |].
  - rewrite Hd', Hd1. unfold typed_text. cbn. by destruct (event_char e).
  - intros t Hlast. rewrite elem_of_cons. destruct (Ht2 t Hlast) as [H1|H1]; [|by right; right].
    destruct Hcl as [Hc|[Hc|Hc]]; rewrite Hc in H1; [by left| |done]. right; left. congruence.
Qed.

(** Long after the last char, an update of the screen leaves nothing held. *)
Lemma late_flush_settles c now :
  typing c →
  (∀ t, last_plain_char_time (paste_burst c) = Some t → t + from_millis 60 < now)%Z →
  ∃ r c', handle_paste_burst_flush windows c now = Some (r, c') ∧ current_text c' = draft c.
Proof.
  intros Ht Hlate. destruct (flush_typing c now Ht) as (r & c' & -> & Ht' & Hd & _ & _ & _ & Hr & Hn).
  exists r, c'. split; [done|]. rewrite <-Hd. unfold draft.
  destruct r; [by rewrite Hr, app_nil_r|]. destruct (Hn eq_refl) as [-> Hf].
  enough (Hh : held (paste_burst c) = []) by by rewrite Hh, app_nil_r.
  destruct (typing_burst c Ht) as [H1 H2 H3]. unfold flush_if_due in Hf.
  assert (Hto : ∀ b : bool, ((if b then PASTE_BURST_ACTIVE_IDLE_TIMEOUT windows
     else PASTE_BURST_CHAR_INTERVAL windows) <= from_millis 60)%Z).
  { intros []; unfold PASTE_BURST_ACTIVE_IDLE_TIMEOUT, PASTE_BURST_CHAR_INTERVAL, from_millis; destruct windows; lia. }
  destruct (is_active (paste_burst c)) eqn:Ha; [|by destruct (inactive_spec _ Ha) as (_ & _ & _ & ?)].
  exfalso. assert (Hl : is_Some (last_plain_char_time (paste_burst c))).
  { unfold is_active, is_active_internal in Ha. destruct (active (paste_burst c)) eqn:Hact; [by apply H3|].
    rewrite (H1 eq_refl) in Ha. destruct (pending_first_char (paste_burst c)) as [[h t]|]; [|done].
    destruct (H2 h t eq_refl) as [_ ->]. done. }
  destruct Hl as [t Hl]. specialize (Hlate t Hl). specialize (Hto (is_active_internal (paste_burst c))).
  rewrite Hl in Hf. rewrite (proj2 (Z.ltb_lt _ _)) in Hf by (unfold duration_since; lia). cbn [andb] in Hf.
  unfold is_active in Ha. destruct (is_active_internal (paste_burst c)); [done|].
  by destruct (pending_first_char (paste_burst c)) as [[]|].
Qed.

Lemma late_tick_settles u now :
  typing_in u →
  (∀ t, last_plain_char_time (paste_burst (editor u)) = Some t → t + from_millis 60 < now)%Z →
  ∃ u', step u (Tick now) = Some u' ∧ current_text (editor u') = draft (editor u).
Proof.
  intros [Ht _] Hlate. destruct (late_flush_settles _ now Ht Hlate) as (r & c & Hf & Hc). cbn.
  unfold flush_paste_burst_if_due. rewrite Hf. cbn. by eexists.
Qed.

Lemma new_typing disabled :
  ∃ u, new_chat_composer disabled plain_text = Some u ∧ typing_in u ∧ draft (editor u) = [] ∧
    last_plain_char_time (paste_burst (editor u)) = None.
Proof.
  destruct disabled; (eexists; split; [reflexivity|]; split_and!; [|done..]);
    (split; [|done]); (split; [|apply default_ok|apply not_elem_of_nil|apply Nat.le_0_l|done|done]);
    (split; [|done..]); (split; [apply new_ok|done..]).
Qed.

(** C32: In a new plain-text composer, with the paste-burst detector or without
    it, and whatever the times of the keys and of the screen updates, nothing
    panics and the chars typed are, in order, exactly the composer's text
    followed by what the paste-burst detector still holds, but for the question
    marks typed before any other char: each of them toggles the shortcut overlay
    of the footer and is no input, and a question mark typed later is input,
    also while the detector holds all of the draft.  An update of the screen
    more than 60 ms after the last event leaves the chars all in the composer's
    text.  (Printable chars pressed with no modifier but Shift while no popup or
    history search is open, and no more of them than the size from which a paste
    becomes a placeholder.) *)
Theorem typing_is_transparent disabled es :
  Forall printable es → length (typed_text es) ≤ LARGE_PASTE_CHAR_THRESHOLD →
  ∃ u, new_chat_composer disabled plain_text ≫= (λ u0, run u0 es) = Some u ∧
    current_text (editor u) ++ held (paste_burst (editor u)) = after_help (typed_text es) ∧
    ∀ now, (∀ e, e ∈ es → event_time e + from_millis 60 < now)%Z →
      ∃ u', step u (Tick now) = Some u' ∧ current_text (editor u') = after_help (typed_text es).
Proof.
  intros Hpr Hl. destruct (new_typing disabled) as (u0 & -> & Ht0 & Hd0 & Hn0).
  destruct (run_typing es u0 Ht0 Hpr) as (u & Hr & Ht & Hd & Hclock); [by rewrite Hd0|].
  rewrite Hd0, type_chars_empty in Hd.
  exists u. split_and!; [done|done|]. intros now Hlate.
  destruct (late_tick_settles u now Ht) as (u' & Hs & Hc').
  { intros t Hlast. destruct (Hclock t Hlast) as [Hn|Hin]; [congruence|].
    apply list_elem_of_fmap in Hin as (e & -> & Hin). by apply Hlate. }
  exists u'. split; [done|]. by rewrite Hc', Hd.
Qed.

End facts.

(** ** Examples *)

(** No slash command, no image. *)
#[local] Existing Instance plain_unicode.
#[local] Existing Instance plain_unicode_laws.
#[local] Instance demo_host : Host := {| image_at _ := None; known_slash _ := false |}.

(** A question mark that opens the overlay, a fast burst with another one, a
    pause, and a char of an input method. *)
Definition demo_typing : list Event :=
  [Key 63%Z true 0; Key 33%Z true (from_millis 1); Key 104%Z false (from_millis 3); Tick (from_millis 5);
   Key 63%Z true (from_millis 6); Key 32%Z false (from_millis 7);
   Key 233%Z false (from_millis 40); Key 233%Z false (from_millis 41); Tick (from_millis 42);
   Key 97%Z false (from_millis 80)].

Lemma typing_is_transparent_witness :
  after_help (typed_text demo_typing) = $"!h? " ++ [233%Z; 233%Z; 97%Z] ∧
  ∃ u, new_chat_composer false plain_text ≫= (λ u0, run false u0 demo_typing) = Some u ∧
    current_text (editor u) ++ held (paste_burst (editor u)) = after_help (typed_text demo_typing) ∧
    ∀ now, (∀ e, e ∈ demo_typing → event_time e + from_millis 60 < now)%Z →
      ∃ u', step false u (Tick now) = Some u' ∧ current_text (editor u') = after_help (typed_text demo_typing).
Proof.
  split; [reflexivity|]. apply (typing_is_transparent false false demo_typing).
  - unfold demo_typing. repeat (apply Forall_cons_2; [cbn; first [lia|exact I]|]). constructor.
  - vm_compute. lia.
Defined.

(** The overlay and the text after a question mark, a second one, and one that
    follows a char. *)
Definition footer_and_text (es : list Event) : option (FooterMode * rstring) :=
  u ← new_chat_composer false plain_text; u ← run false u es;
  Some (footer_mode u, current_text (editor u)).

Example question_mark_toggles_overlay :
  footer_and_text [Key 63%Z true 0] = Some (ShortcutOverlay, []) ∧
  footer_and_text [Key 63%Z true 0; Key 63%Z true (from_millis 100)] = Some (ComposerEmpty, []) ∧
  footer_and_text [Key 63%Z true 0; Key 104%Z false (from_millis 100); Key 63%Z true (from_millis 200);
                   Tick (from_millis 300)] = Some (ComposerEmpty, $"h?").
Proof. vm_compute. by split_and!. Qed.

(** The text of a plain composer after some steps and a late screen update. *)
Definition text_after (f : Composer → option Composer) : option rstring :=
  c ← new_with_config false plain_text; c ← f c;
  '(_, c) ← handle_paste_burst_flush false c (from_millis 1000);
  Some (current_text c).

Definition key_at (ch : char) (ms : Z) (c : Composer) : option Composer :=
  handle_input_basic_with_time false c (typed_key ch false) (from_millis ms).
Definition enter_at (ms : Z) (c : Composer) : option Composer :=
  o ← enter_during_burst c false (from_millis ms); o.

(** The detector keeps a newline that ends a burst of two chars. *)
Example enter_joins_burst :
  text_after (λ c, c ← key_at 104%Z 0 c; c ← key_at 105%Z 1 c; c ← enter_at 2 c; key_at 120%Z 3 c)
  = Some ($"hi" ++ [NL] ++ $"x").
Proof. vm_compute. reflexivity. Qed.

(** But an Enter that follows a single held char within the interval is put in
    the buffer while the char is not: the char is lost at the next flush, and
    ends up after the newline when another char follows. *)
Example enter_drops_held_char :
  text_after (λ c, c ← key_at 97%Z 0 c; enter_at 1 c) = Some [NL].
Proof. vm_compute. reflexivity. Qed.

Example enter_overtakes_held_char :
  text_after (λ c, c ← key_at 97%Z 0 c; c ← enter_at 1 c; key_at 98%Z 2 c) = Some ([NL] ++ $"ab").
Proof. vm_compute. reflexivity. Qed.

End ComposerFacts.
