(* ===== verification/FuzzyMatch.v ===== *)
(** * Fuzzy matching (utils/fuzzy-match)

    The case-insensitive subsequence matcher behind the pickers and popups:
    module [Fuzzy] has [fuzzy_match], which walks once through the lowered
    haystack and maps the hits back to chars of the original.  Theorems: it
    succeeds exactly when the lowered needle is a subsequence of the lowered
    haystack, the indices are strictly increasing positions of the haystack
    whose chars hold the needle's chars in order, and the score is the one of
    the greedy window, with its bounds.

    The case mapping of the Unicode tables is the class [LowerCase]: of a char
    ([char::to_lowercase]) and of a string ([str::to_lowercase], which is not
    char by char). *)

From stdpp Require Import sorting.
From S2P Require Import Prelude.

Module Fuzzy.

Class LowerCase := {
  char_to_lowercase : char → list char;
  str_to_lowercase : rstring → rstring }.

Section fuzzy.
Context {LC : LowerCase}.

(** The lowered chars of the haystack, each with the index of the char it comes
    from: [lowered_chars] and [lowered_to_orig_char_idx]. *)
Fixpoint lowered_from (i : nat) (haystack : rstring) : list (char * nat) :=
  match haystack with
  | [] => []
  | ch :: rest => ((λ lc, (lc, i)) <$> char_to_lowercase ch) ++ lowered_from (S i) rest
  end.

Definition lowered (haystack : rstring) : list (char * nat) := lowered_from 0 haystack.

(** The inner loop, on the lowered chars from [cur] on: the position of the
    first [nc], with what follows it. *)
Fixpoint find_from (rest : list (char * nat)) (cur : nat) (nc : char)
  : option (nat * nat * list (char * nat)) :=
  match rest with
  | [] => None
  | (c, orig) :: rest' => if (c =? nc)%Z then Some (cur, orig, rest') else find_from rest' (S cur) nc
  end.

(** The outer loop: the hits, as positions of the lowered haystack with the
    indices of the original chars. *)
Fixpoint find_all (rest : list (char * nat)) (cur : nat) (needle : list char) : option (list (nat * nat)) :=
  match needle with
  | [] => Some []
  | nc :: needle' =>
      '(pos, orig, rest') ← find_from rest cur nc;
      hits ← find_all rest' (S pos) needle';
      Some ((pos, orig) :: hits)
  end.

(** [iter().position(|&oi| oi == target)]. *)
Fixpoint position (target : nat) (l : list nat) : option nat :=
  match l with [] => None | x :: l' => if x =? target then Some 0 else S <$> position target l' end.

(** [Vec::dedup]. *)
Fixpoint dedup (l : list nat) : list nat :=
  match l with
  | [] => []
  | x :: l' => match dedup l' with
               | y :: r => if x =? y then y :: r else x :: y :: r
               | [] => [x]
               end
  end.

Definition fuzzy_match (haystack needle : rstring) : option (list nat * Z) :=
  if is_empty needle then Some ([], I32_MAX)
  else
    let lowered_needle := str_to_lowercase needle in
    hits ← find_all (lowered haystack) 0 lowered_needle;
    let result_orig_indices := hits.*2 in
    let first_lower_pos :=
      match result_orig_indices with
      | [] => 0
      | target_orig :: _ => default 0 (position target_orig (lowered haystack).*2)
      end in
    let last_lower_pos := default first_lower_pos (last hits.*1) in
    let window :=
      wrap_i32 (wrap_i32 (wrap_i32 (wrap_i32 (Z.of_nat last_lower_pos) - wrap_i32 (Z.of_nat first_lower_pos)) + 1)
                - wrap_i32 (Z.of_nat (length lowered_needle))) in
    let score := Z.max window 0 in
    let score := if first_lower_pos =? 0 then (score - 100)%Z else score in
    Some (dedup (merge_sort (≤) result_orig_indices), score).

(** ** The walk through the haystack *)

Lemma find_folded_Some rest cur nc pos orig rest' :
  find_from rest cur nc = Some (pos, orig, rest') →
  ∃ skipped, rest = skipped ++ (nc, orig) :: rest' ∧ pos = cur + length skipped ∧ nc ∉ skipped.*1.
Proof.
  revert cur. induction rest as [|[c o] rest IH]; intros cur; cbn; [done|].
  destruct (Z.eqb_spec c nc) as [->|Hne].
  - intros [= <- <- <-]. exists []. split_and!; [done|cbn; lia|apply not_elem_of_nil].
  - intros (sk & -> & -> & Hn)%IH. exists ((c, o) :: sk). split_and!; [done|cbn; lia|].
    cbn. by rewrite not_elem_of_cons.
Qed.

Lemma find_folded_None rest cur nc : find_from rest cur nc = None ↔ nc ∉ rest.*1.
Proof.
  revert cur. induction rest as [|[c o] rest IH]; intros cur; cbn; [split; [intros _; apply not_elem_of_nil|done]|].
  rewrite not_elem_of_cons. destruct (Z.eqb_spec c nc) as [->|Hne]; [split; [done|tauto]|].
  rewrite IH. split; [intros; split; [congruence|done]|tauto].
Qed.

(** Skipping to the first occurrence loses no subsequence. *)
Lemma sublist_first (x : char) (skipped rest : list char) k :
  x ∉ skipped → x :: k `sublist_of` skipped ++ x :: rest → k `sublist_of` rest.
Proof.
  intros Hx. induction skipped as [|y sk IH]; cbn; intros Hs.
  - inversion Hs; subst; [done|]. transitivity (x :: k); [by constructor|done].
  - apply not_elem_of_cons in Hx as [Hy Hx]. inversion Hs; subst; [done|]. auto.
Qed.

Lemma find_all_None rest cur needle : find_all rest cur needle = None ↔ ¬ needle `sublist_of` rest.*1.
Proof.
  revert rest cur. induction needle as [|nc needle IH]; intros rest cur; cbn [find_all].
  { split; [done|]. intros Hn. destruct Hn. apply sublist_nil_l. }
  destruct (find_from rest cur nc) as [[[pos orig] rest']|] eqn:E; cbn [mbind option_bind].
  - apply find_folded_Some in E as (sk & -> & -> & Hn).
    assert (Hiff : nc :: needle `sublist_of` (sk ++ (nc, orig) :: rest').*1 ↔ needle `sublist_of` rest'.*1).
    { rewrite fmap_app. cbn. split; [by apply sublist_first|]. intros Hs. apply sublist_cons_l. eauto. }
    rewrite Hiff, <-(IH rest' (S (cur + length sk))).
    destruct (find_all rest' _ needle); cbn [mbind option_bind]; by split.
  - apply find_folded_None in E. split; [|done]. intros _ Hs.
    apply sublist_cons_l in Hs as (k1 & k2 & Hr & _). apply E. rewrite Hr. apply elem_of_app. right.
    apply elem_of_cons. by left.
Qed.

(** The hits are increasing positions of the needle's chars. *)
Definition hit_at (l : list (char * nat)) (base : nat) (nc : char) (hit : nat * nat) : Prop :=
  base ≤ hit.1 ∧ l !! (hit.1 - base) = Some (nc, hit.2).

Lemma find_all_Some rest cur needle hits :
  find_all rest cur needle = Some hits →
  Forall2 (hit_at rest cur) needle hits ∧ StronglySorted (λ a b, a.1 < b.1) hits.
Proof.
  revert rest cur hits. induction needle as [|nc needle IH]; intros rest cur hits; cbn [find_all].
  { intros [= <-]. split; constructor. }
  destruct (find_from rest cur nc) as [[[pos orig] rest']|] eqn:E; cbn [mbind option_bind]; [|done].
  apply find_folded_Some in E as (sk & -> & -> & Hn).
  destruct (find_all rest' _ needle) as [hs|] eqn:Ea; cbn [mbind option_bind]; [|done].
  intros [= <-]. apply IH in Ea as [Hf Hs]. split.
  - constructor.
    { split; cbn; [lia|]. replace (cur + length sk - cur) with (length sk) by lia.
      by rewrite lookup_app_r, Nat.sub_diag by lia. }
    eapply Forall2_impl; [exact Hf|]. intros c [p o] [Hle Hl]. cbn in *. split; cbn; [lia|].
    rewrite lookup_app_r by lia. replace (p - cur - length sk) with (S (p - S (cur + length sk))) by lia. done.
  - constructor; [done|]. apply Forall_forall. intros [p o] Hin. cbn.
    apply list_elem_of_lookup_1 in Hin as [k Hk].
    destruct (Forall2_lookup_r _ _ _ _ _ Hf Hk) as (c & _ & Hle & _). cbn in Hle. lia.
Qed.

(** ** Back to the haystack *)

(** Where the lowered chars come from: the index never goes back. *)
Lemma lowered_from_lookup i h p c o :
  lowered_from i h !! p = Some (c, o) →
  ∃ ch, i ≤ o ∧ h !! (o - i) = Some ch ∧ c ∈ char_to_lowercase ch.
Proof.
  revert i p. induction h as [|ch h IH]; intros i p; cbn; [done|].
  intros Hl. apply lookup_app_Some in Hl as [Hl|[_ Hl]].
  - apply list_lookup_fmap_Some in Hl as (lc & [= -> ->] & Hl). exists ch.
    rewrite Nat.sub_diag. split_and!; [lia|done|]. by eapply list_elem_of_lookup_2.
  - destruct (IH _ _ Hl) as (ch' & Hle & Hh & Hc). exists ch'. split_and!; [lia| |done].
    replace (o - i) with (S (o - S i)) by lia. done.
Qed.

Lemma lowered_from_sorted i h p q c o c' o' :
  lowered_from i h !! p = Some (c, o) → lowered_from i h !! q = Some (c', o') → p ≤ q → o ≤ o'.
Proof.
  revert i p q. induction h as [|ch h IH]; intros i p q; cbn; [done|]. intros Hp Hq Hpq.
  apply lookup_app_Some in Hp as [Hp|[Hlp Hp]].
  - apply list_lookup_fmap_Some in Hp as (lc & [= -> ->] & _).
    apply lookup_app_Some in Hq as [Hq|[_ Hq]].
    + by apply list_lookup_fmap_Some in Hq as (lc' & [= -> ->] & _).
    + apply lowered_from_lookup in Hq as (? & ? & _). lia.
  - apply lookup_app_Some in Hq as [Hq|[Hlq Hq]]; [apply lookup_lt_Some in Hq; lia|].
    by apply (IH _ _ _ Hp Hq); lia.
Qed.

Lemma hits_sorted h needle hits :
  Forall2 (hit_at (lowered h) 0) needle hits → StronglySorted (λ a b, a.1 < b.1) hits →
  StronglySorted (≤) hits.*2.
Proof.
  intros Hf Hs. revert needle Hf. induction Hs as [|[p o] hits Hs IH Hlt]; intros needle Hf; [constructor|].
  inversion Hf as [|nc ? needle' ? [_ Hp] Hf']; subst. cbn in *. constructor; [by eapply IH|].
  apply Forall_fmap, Forall_forall. intros [q o'] Hin. cbn.
  pose proof (proj1 (Forall_forall _ _) Hlt _ Hin) as Hpq. cbn in Hpq.
  apply list_elem_of_lookup_1 in Hin as [k Hk].
  destruct (Forall2_lookup_r _ _ _ _ _ Hf' Hk) as (c' & _ & _ & Hq). cbn in Hq.
  rewrite Nat.sub_0_r in Hp, Hq. eapply lowered_from_sorted; [exact Hp|exact Hq|lia].
Qed.

Lemma dedup_elem l x : x ∈ dedup l ↔ x ∈ l.
Proof.
  induction l as [|y l IH]; cbn; [done|]. rewrite elem_of_cons, <-IH.
  destruct (dedup l) as [|z r]; [rewrite list_elem_of_singleton; split; [by left|]|].
  { intros [->|Hx]; [done|by apply elem_of_nil in Hx]. }
  destruct (Nat.eqb_spec y z) as [->|]; rewrite ?elem_of_cons; tauto.
Qed.

Lemma dedup_sorted l : StronglySorted (≤) l → StronglySorted (<) (dedup l).
Proof.
  induction 1 as [|x l Hs IH Hx]; cbn; [constructor|].
  destruct (dedup l) as [|y r] eqn:E; [by repeat constructor|].
  destruct (Nat.eqb_spec x y) as [|Hne]; [done|]. constructor; [done|].
  assert (Hy : x < y).
  { assert (x ≤ y); [|lia]. rewrite Forall_forall in Hx. apply Hx. apply dedup_elem. rewrite E. apply elem_of_cons. by left. }
  constructor; [done|]. apply StronglySorted_inv in IH as [_ Hr]. eapply Forall_impl; [exact Hr|]. cbn. lia.
Qed.

Lemma merge_sort_id l : StronglySorted (≤) l → merge_sort (≤) l = l.
Proof.
  intros Hs. apply (StronglySorted_unique (≤)); [|done|apply merge_sort_Permutation].
  apply (StronglySorted_merge_sort (≤)).
Qed.

Lemma fuzzy_match_hits h n r :
  n ≠ [] → fuzzy_match h n = Some r →
  ∃ hits, find_all (lowered h) 0 (str_to_lowercase n) = Some hits ∧ r.1 = dedup hits.*2.
Proof.
  intros Hn. unfold fuzzy_match. rewrite (proj2 (is_empty_false n) Hn).
  destruct (find_all _ _ _) as [hits|] eqn:E; [|done]. intros [= <-]. exists hits. split; [done|]. cbn [fst].
  apply find_all_Some in E as [Hf Hs]. by rewrite (merge_sort_id _ (hits_sorted _ _ _ Hf Hs)).
Qed.

(** [fuzzy_match] finds a non-empty needle exactly when its
    lowered chars are a subsequence of the lowered haystack; and the indices it
    returns are strictly increasing positions of the haystack, namely those of
    chars whose lowering holds the needle's chars, one after the other. *)
Theorem fuzzy_match_is_subsequence h n :
  n ≠ [] →
  (fuzzy_match h n = None ↔ ¬ str_to_lowercase n `sublist_of` (lowered h).*1) ∧
  ∀ idx score, fuzzy_match h n = Some (idx, score) →
    StronglySorted (<) idx ∧
    ∃ origs, StronglySorted (≤) origs ∧ (∀ i, i ∈ idx ↔ i ∈ origs) ∧
      Forall2 (λ nc o, ∃ ch, h !! o = Some ch ∧ nc ∈ char_to_lowercase ch) (str_to_lowercase n) origs.
Proof.
  intros Hn. split.
  - rewrite <-(find_all_None _ 0). unfold fuzzy_match. rewrite (proj2 (is_empty_false n) Hn).
    destruct (find_all _ _ _); by split.
  - intros idx score Hm. destruct (fuzzy_match_hits _ _ _ Hn Hm) as (hits & Ha & Hidx). cbn in Hidx. subst idx.
    apply find_all_Some in Ha as [Hf Hs]. pose proof (hits_sorted _ _ _ Hf Hs) as Hso.
    split; [by apply dedup_sorted|]. exists hits.*2. split_and!; [done|apply dedup_elem|].
    apply Forall2_fmap_r. eapply Forall2_impl; [exact Hf|]. intros nc [p o] [_ Hl]. cbn in *.
    apply lowered_from_lookup in Hl as (ch & _ & Hh & Hc). rewrite Nat.sub_0_r in Hh. eauto.
Qed.

(** ** The score *)

Lemma position_le t l p : position t l = Some p → p < length l.
Proof.
  revert p. induction l as [|x l IH]; intros p; cbn; [done|]. destruct (x =? t); [intros [= <-]; lia|].
  destruct (position t l); [|done]. intros [= <-]. specialize (IH _ eq_refl). lia.
Qed.

(** Lengths for which the arithmetic of [i32] is exact. *)
Definition small (n : nat) : Prop := (Z.of_nat n < 2 ^ 30)%Z.

Lemma last_hit_bound l needle hits p :
  Forall2 (hit_at l 0) needle hits → last hits.*1 = Some p → p < length l.
Proof.
  intros Hf Hl. rewrite last_lookup in Hl. apply list_lookup_fmap_Some in Hl as ([q o] & -> & Hk).
  destruct (Forall2_lookup_r _ _ _ _ _ Hf Hk) as (c & _ & _ & Hq). cbn in *.
  rewrite Nat.sub_0_r in Hq. by eapply lookup_lt_Some.
Qed.

Lemma window_exact (a b k n : nat) :
  small n → small k → a ≤ n → b ≤ n →
  wrap_i32 (wrap_i32 (wrap_i32 (wrap_i32 (Z.of_nat a) - wrap_i32 (Z.of_nat b)) + 1) - wrap_i32 (Z.of_nat k))
  = (Z.of_nat a - Z.of_nat b + 1 - Z.of_nat k)%Z.
Proof.
  unfold small. intros Hn Hk Ha Hb.
  rewrite (wrap_i32_id (Z.of_nat a)), (wrap_i32_id (Z.of_nat b)), (wrap_i32_id (Z.of_nat k)) by lia.
  rewrite (wrap_i32_id (Z.of_nat a - Z.of_nat b)) by lia.
  rewrite (wrap_i32_id (Z.of_nat a - Z.of_nat b + 1)) by lia. apply wrap_i32_id. lia.
Qed.

(** On a prefix the walk hits the first chars. *)
Lemma find_all_prefix l cur needle :
  needle `prefix_of` l.*1 →
  find_all l cur needle = Some (zip (seq cur (length needle)) (take (length needle) l.*2)).
Proof.
  revert l cur. induction needle as [|c needle IH]; intros l cur [k Hk]; [done|].
  destruct l as [|[c' o] l]; [done|]. cbn in Hk. injection Hk as -> Hk. cbn. rewrite Z.eqb_refl.
  cbn [mbind option_bind]. by rewrite (IH l (S cur)) by (by exists k).
Qed.

Lemma last_zip_seq cur k (l : list nat) : k ≤ length l → 0 < k →
  last (zip (seq cur k) (take k l)).*1 = Some (cur + k - 1).
Proof.
  intros Hk Hpos. rewrite fst_zip by (rewrite length_seq, length_take; lia).
  rewrite last_lookup, length_seq. rewrite lookup_seq_lt by lia. f_equal. lia.
Qed.

(** Below a billion chars, a score is never under -100 nor above
    the length of the lowered haystack, and it is -100, the best one, when the
    lowered haystack starts with the lowered needle. *)
Theorem fuzzy_score_bounds h n idx score :
  n ≠ [] → str_to_lowercase n ≠ [] →
  small (length (lowered h)) → small (length (str_to_lowercase n)) →
  fuzzy_match h n = Some (idx, score) →
  (-100 <= score <= Z.of_nat (length (lowered h)))%Z ∧
  (str_to_lowercase n `prefix_of` (lowered h).*1 → score = (-100)%Z).
Proof.
  intros Hn Hl Hsh Hsn. unfold fuzzy_match. rewrite (proj2 (is_empty_false n) Hn).
  destruct (find_all (lowered h) 0 (str_to_lowercase n)) as [hits|] eqn:Ea; cbn [mbind option_bind]; [|done].
  set (first := match hits.*2 with [] => 0 | t :: _ => _ end). intros [= _ Hscore].
  pose proof (find_all_Some _ _ _ _ Ea) as [Hf _].
  assert (Hfirst : first ≤ length (lowered h)).
  { unfold first. destruct (hits.*2); [lia|]. destruct (position _ _) eqn:Ep; cbn; [|lia].
    apply position_le in Ep. rewrite length_fmap in Ep. lia. }
  assert (Hlast : default first (last hits.*1) ≤ length (lowered h)).
  { destruct (last hits.*1) eqn:El; cbn; [|done]. pose proof (last_hit_bound _ _ _ _ Hf El). lia. }
  assert (Hpos : 0 < length (str_to_lowercase n)) by (destruct (str_to_lowercase n); cbn; [done|lia]).
  rewrite (window_exact _ _ _ (length (lowered h))) in Hscore by done. split.
  - destruct (first =? 0); lia.
  - intros Hp. rewrite (find_all_prefix _ 0 _ Hp) in Ea. injection Ea as <-.
    assert (Hk : length (str_to_lowercase n) ≤ length (lowered h).*2).
    { destruct Hp as [k Hk]. apply (f_equal length) in Hk. rewrite length_app, length_fmap in Hk. rewrite length_fmap. lia. }
    assert (Hf0 : first = 0).
    { unfold first. rewrite snd_zip by (rewrite length_seq, length_take; lia).
      destruct (lowered h).*2 as [|o l]; [cbn in Hk; lia|]. destruct (str_to_lowercase n); [done|]. cbn.
      by rewrite Nat.eqb_refl. }
    rewrite last_zip_seq in Hscore by done. rewrite Hf0, Nat.eqb_refl in Hscore.
    change (default 0 (Some ?x)) with x in Hscore. lia.
Qed.

End fuzzy.
(** Lower case of ASCII letters, and of the dotted capital I, which becomes two
    chars. *)
#[local] Instance demo_lower : LowerCase := {|
  char_to_lowercase c := if (c =? 304)%Z then [105; 775]%Z else [ascii_lower c];
  str_to_lowercase s := s ≫= λ c, if (c =? 304)%Z then [105; 775]%Z else [ascii_lower c] |}.

Example fuzzy_istanbul : fuzzy_match (304%Z :: $"stanbul") $"is" = Some ([0; 1], (-99)%Z).
Proof. vm_compute. reflexivity. Qed.

Lemma fuzzy_match_is_subsequence_witness :
  (fuzzy_match $"my_File" $"fl" = None ↔ ¬ str_to_lowercase $"fl" `sublist_of` (lowered $"my_File").*1) ∧
  StronglySorted (<) [3; 5].
Proof.
  destruct (fuzzy_match_is_subsequence $"my_File" $"fl" ltac:(done)) as [Hn Hs].
  split; [exact Hn|]. by apply (Hs [3; 5] 1%Z).
Defined.

Lemma fuzzy_score_bounds_witness :
  (-100 <= -100 <= Z.of_nat (length (lowered $"file_name")))%Z ∧
  (str_to_lowercase $"fi" `prefix_of` (lowered $"file_name").*1 → (-100 = -100)%Z).
Proof.
  apply (fuzzy_score_bounds $"file_name" $"fi" [0; 1] (-100)%Z); [done|done|vm_compute; done|vm_compute; done|].
  vm_compute. reflexivity.
Defined.

End Fuzzy.
