(* ===== verification/Readiness.v ===== *)
(** * The readiness flag (utils/readiness)

    A flag that tasks subscribe to, mark ready and wait for.  Module [Ready]
    has the flag's shared state with the operations on it as the code's atomic
    actions (a load, the section under the token lock, a send on the watch
    channel), and the tasks as programs over these actions that may interleave
    in any way, as a step relation.  Theorems: tokens are fresh and never zero
    also when the counter wraps; whatever the interleaving, readiness is final,
    nobody subscribes to a ready flag, at most one task marks it, and a wait
    only ends when the flag is ready; and the interleaving in which a wait never
    ends although the flag is ready, because the channel drops a value that is
    sent while nobody has subscribed to it.

    The watch channel of tokio is modelled from its documentation: [send] fails
    and keeps the old value when there is no receiver. *)

From S2P Require Import Prelude.

Module Ready.

(** ** Tokens *)

(** The shared state; [version] counts the values the channel has taken and
    [receivers] its receivers. *)
Record ReadinessFlag := {
  ready : bool;
  next_id : Z;
  tokens : gset Z;
  watch_value : bool;
  version : nat;
  receivers : nat }.

Definition new : ReadinessFlag :=
  {| ready := false; next_id := 1; tokens := ∅; watch_value := false; version := 0; receivers := 0 |}.

(** The loop of [subscribe], under the lock: [fetch_add] until the id is not
    zero and not taken. *)
Fixpoint fresh_token (fuel : nat) (id : Z) (taken : gset Z) : option (Z * Z) :=
  match fuel with
  | 0 => None
  | S fuel =>
      let id' := wrap_i32 (id + 1) in
      if negb (id =? 0)%Z && bool_decide (id ∉ taken) then Some (id, id') else fresh_token fuel id' taken
  end.

(** Enough turns: one for every taken id, one for zero and one more. *)
Definition fresh_fuel (taken : gset Z) : nat := size taken + 2.

(** The section of [subscribe]: [None] when the flag is ready by then. *)
Definition subscribe_locked (s : ReadinessFlag) : option (option Z * ReadinessFlag) :=
  if ready s then Some (None, s)
  else
    '(token, id') ← fresh_token (fresh_fuel (tokens s)) (next_id s) (tokens s);
    Some (Some token,
          {| ready := ready s; next_id := id'; tokens := {[token]} ∪ tokens s;
             watch_value := watch_value s; version := version s; receivers := receivers s |}).

(** The section of [mark_ready]. *)
Definition mark_locked (token : Z) (s : ReadinessFlag) : bool * ReadinessFlag :=
  if bool_decide (token ∈ tokens s) then
    (true, {| ready := true; next_id := next_id s; tokens := ∅; watch_value := watch_value s;
              version := version s; receivers := receivers s |})
  else (false, s).

(** The section of [is_ready], when the lock is free and no token is left: the
    old value of the flag. *)
Definition swap_ready (s : ReadinessFlag) : bool * ReadinessFlag :=
  (ready s, {| ready := true; next_id := next_id s; tokens := tokens s; watch_value := watch_value s;
               version := version s; receivers := receivers s |}).

(** [watch::Sender::send]. *)
Definition send_true (s : ReadinessFlag) : ReadinessFlag :=
  if receivers s =? 0 then s
  else {| ready := ready s; next_id := next_id s; tokens := tokens s; watch_value := true;
          version := S (version s); receivers := receivers s |}.

(** [watch::Sender::subscribe], and a receiver that is dropped. *)
Definition add_receiver (s : ReadinessFlag) : ReadinessFlag :=
  {| ready := ready s; next_id := next_id s; tokens := tokens s; watch_value := watch_value s;
     version := version s; receivers := S (receivers s) |}.
Definition drop_receiver (s : ReadinessFlag) : ReadinessFlag :=
  {| ready := ready s; next_id := next_id s; tokens := tokens s; watch_value := watch_value s;
     version := version s; receivers := receivers s - 1 |}.

(** ** The tasks *)

Inductive Outcome :=
| Subscribed (r : option Z)
| Marked (r : bool)
| Waited
| IsReady (r : bool)
| LockFailed.

(** Where a task is; [waiting] tells [wait_ready] from [is_ready], which it
    begins with. *)
Inductive Task :=
| SubStart | SubLock
| MarkStart (token : Z) | MarkLock (token : Z) | MarkSend
| CheckStart (waiting : bool) | CheckLock (waiting : bool) | CheckSend (waiting : bool)
| CheckAgain (waiting : bool)
| WaitSubscribe | WaitBorrow (seen : nat) | WaitChanged (seen : nat)
| Done (o : Outcome).

(** The end of [is_ready] with [true]. *)
Definition checked (waiting : bool) : Task := Done (if waiting then Waited else IsReady true).

(** One action of a task.  Where the lock is needed, [try_lock] of [is_ready]
    may find it taken, and the wait of the others may run out. *)
Inductive act : ReadinessFlag → Task → ReadinessFlag → Task → Prop :=
| act_sub_ready s : ready s = true → act s SubStart s (Done (Subscribed None))
| act_sub_start s : ready s = false → act s SubStart s SubLock
| act_sub_lock s r s' : subscribe_locked s = Some (r, s') → act s SubLock s' (Done (Subscribed r))
| act_sub_timeout s : act s SubLock s (Done LockFailed)
| act_mark_ready s t : ready s = true → act s (MarkStart t) s (Done (Marked false))
| act_mark_zero s : act s (MarkStart 0) s (Done (Marked false))
| act_mark_start s t : ready s = false → t ≠ 0%Z → act s (MarkStart t) s (MarkLock t)
| act_mark_lock s t s' : mark_locked t s = (true, s') → act s (MarkLock t) s' MarkSend
| act_mark_invalid s t s' : mark_locked t s = (false, s') → act s (MarkLock t) s' (Done (Marked false))
| act_mark_timeout s t : act s (MarkLock t) s (Done LockFailed)
| act_mark_send s : act s MarkSend (send_true s) (Done (Marked true))
| act_check_ready s w : ready s = true → act s (CheckStart w) s (checked w)
| act_check_start s w : ready s = false → act s (CheckStart w) s (CheckLock w)
| act_check_swap s w s' : tokens s = ∅ → swap_ready s = (false, s') → act s (CheckLock w) s' (CheckSend w)
| act_check_swapped s w s' : tokens s = ∅ → swap_ready s = (true, s') → act s (CheckLock w) s' (checked w)
| act_check_busy s w : act s (CheckLock w) s (CheckAgain w)
| act_check_send s w : act s (CheckSend w) (send_true s) (checked w)
| act_again_ready s w : ready s = true → act s (CheckAgain w) s (checked w)
| act_again_false s : ready s = false → act s (CheckAgain false) s (Done (IsReady false))
| act_again_wait s : ready s = false → act s (CheckAgain true) s WaitSubscribe
| act_wait_subscribe s : act s WaitSubscribe (add_receiver s) (WaitBorrow (version s))
| act_wait_true s n : watch_value s = true → act s (WaitBorrow n) (drop_receiver s) (Done Waited)
| act_wait_false s n : watch_value s = false → act s (WaitBorrow n) s (WaitChanged n)
| act_wait_changed s n : version s ≠ n → act s (WaitChanged n) s (WaitBorrow (version s)).

(** Any number of tasks on one flag: one of them acts. *)
Record System := { flag : ReadinessFlag; tasks : list Task }.

Inductive step : System → System → Prop :=
| Step s ts i t s' t' :
    ts !! i = Some t → act s t s' t' →
    step {| flag := s; tasks := ts |} {| flag := s'; tasks := <[i := t']> ts |}.

(** A task that has not begun. *)
Definition starting (t : Task) : Prop :=
  match t with SubStart | MarkStart _ | CheckStart _ => True | _ => False end.

Definition initial (c : System) : Prop := flag c = new ∧ Forall starting (tasks c).

Definition reachable (c : System) : Prop := ∃ c0, initial c0 ∧ rtc step c0 c.

(** ** Fresh tokens *)

Lemma fresh_token_None n id taken k :
  fresh_token n (wrap_i32 id) taken = None → k < n → wrap_i32 (id + Z.of_nat k) ∈ ({[0%Z]} ∪ taken : gset Z).
Proof.
  revert id k. induction n as [|n IH]; intros id k; cbn [fresh_token]; [lia|].
  destruct (negb _ && _) eqn:E; [done|]. intros Hn Hk. destruct k as [|k].
  - rewrite Z.add_0_r. apply andb_false_iff in E as [E%negb_false_iff%Z.eqb_eq|E%bool_decide_eq_false];
      [rewrite E; set_solver|]. apply dec_stable in E. set_solver.
  - rewrite wrap_i32_wrap in Hn. replace (id + Z.of_nat (S k))%Z with (id + 1 + Z.of_nat k)%Z by lia.
    apply IH; [done|lia].
Qed.

Lemma fresh_token_exists id taken :
  (- 2 ^ 31 <= id < 2 ^ 31)%Z → (Z.of_nat (size taken) + 2 <= 2 ^ 32)%Z →
  is_Some (fresh_token (fresh_fuel taken) id taken).
Proof.
  intros Hid Hsize. destruct (fresh_token (fresh_fuel taken) id taken) eqn:E; [done|]. exfalso.
  rewrite <-(wrap_i32_id id Hid) in E.
  set (ids := (λ k, wrap_i32 (id + Z.of_nat k)) <$> seq 0 (fresh_fuel taken)).
  assert (Hnd : NoDup ids).
  { apply NoDup_fmap_2_strong; [|apply NoDup_seq]. intros a b Ha%elem_of_seq Hb%elem_of_seq Heq.
    unfold fresh_fuel in Ha, Hb. clear -Hsize Ha Hb Heq. apply wrap_i32_inj in Heq; lia. }
  assert (Hsub : (list_to_set ids : gset Z) ⊆ {[0%Z]} ∪ taken).
  { intros x Hx. apply elem_of_list_to_set, list_elem_of_fmap in Hx as (k & -> & Hk%elem_of_seq).
    apply (fresh_token_None _ _ _ k E). lia. }
  apply subseteq_size in Hsub. rewrite size_list_to_set in Hsub by done.
  pose proof (size_union_alt ({[0%Z]} : gset Z) taken) as Hu. rewrite size_singleton in Hu.
  assert (size (taken ∖ {[0%Z]}) ≤ size taken) by (apply subseteq_size; set_solver).
  unfold ids in Hsub. rewrite length_fmap, length_seq in Hsub. unfold fresh_fuel in Hsub. lia.
Qed.

Lemma fresh_token_Some n id taken t id' :
  fresh_token n id taken = Some (t, id') →
  t ≠ 0%Z ∧ t ∉ taken ∧ (- 2 ^ 31 <= id' < 2 ^ 31)%Z.
Proof.
  revert id. induction n as [|n IH]; intros id; cbn [fresh_token]; [done|].
  destruct (negb _ && _) eqn:E; [|apply IH]. intros [= <- <-].
  apply andb_true_iff in E as [E1%negb_true_iff%Z.eqb_neq E2%bool_decide_eq_true].
  split_and!; [done|done|apply wrap_i32_range..].
Qed.

(** ** Every interleaving *)

(** The flag by itself: tokens are non-zero, none is left once it is ready, and
    the channel holds [true] only then. *)
Record flag_ok (s : ReadinessFlag) : Prop := {
  ready_no_tokens : ready s = true → tokens s = ∅;
  value_ready : watch_value s = true → ready s = true;
  token_nonzero : 0%Z ∉ tokens s;
  id_range : (- 2 ^ 31 <= next_id s < 2 ^ 31)%Z }.

(** What the position of a task says of the flag. *)
Definition task_ok (s : ReadinessFlag) (t : Task) : Prop :=
  match t with
  | MarkSend | CheckSend _ | Done (Marked true) | Done Waited | Done (IsReady true) => ready s = true
  | WaitBorrow n => n ≤ version s
  | WaitChanged n => n ≤ version s ∧ (watch_value s = true → n < version s)
  | _ => True
  end.

(** How the flag may change: readiness is final, and a new value of the channel
    has a new version. *)
Definition evolves (s s' : ReadinessFlag) : Prop :=
  (ready s = true → ready s' = true) ∧ version s ≤ version s' ∧
  (watch_value s' = true → watch_value s = true ∨ version s < version s').

Lemma evolves_task s s' t : evolves s s' → task_ok s t → task_ok s' t.
Proof.
  intros (Hr & Hv & Hw). destruct t as [| | | | | | | | | |n|n|o]; cbn; try done.
  - lia.
  - intros [Hn Hc]. split; [lia|]. intros Hw'. destruct (Hw Hw') as [Hw1|]; [specialize (Hc Hw1)|]; lia.
  - destruct o as [|[]| |[]|]; try done; auto.
Qed.

Lemma evolves_refl s : evolves s s.
Proof. by split_and!; auto. Qed.

Lemma send_ok s : flag_ok s → ready s = true → flag_ok (send_true s) ∧ evolves s (send_true s) ∧ ready (send_true s) = true.
Proof.
  intros Hf Hr. pose proof Hf as [H1 H2 H3 H4]. unfold send_true. destruct (receivers s =? 0).
  { split_and!; [done|apply evolves_refl|done]. }
  split_and!; [by split| |done]. unfold evolves. cbn. split_and!; [done|lia|intros _; right; lia].
Qed.

(** An action that changes neither the version nor the value of the channel. *)
Lemma evolves_quiet s s' :
  (ready s = true → ready s' = true) → version s' = version s → watch_value s' = watch_value s → evolves s s'.
Proof. intros Hr Hv Hw. unfold evolves. rewrite Hv, Hw. split_and!; auto. Qed.

(** One action keeps the flag sound and takes the task to a position that is. *)
Lemma act_ok s t s' t' :
  act s t s' t' → flag_ok s → task_ok s t → flag_ok s' ∧ evolves s s' ∧ task_ok s' t'.
Proof.
  intros Ha Hf Ht. pose proof Hf as [H1 H2 H3 H4].
  destruct Ha as [s Hr|s Hr|s r s' Hs|s|s t Hr|s|s t Hr Hz|s t s' Hm|s t s' Hm|s t|s|s w Hr|s w Hr|s w s' Ht0 Hs
    |s w s' Ht0 Hs|s w|s w|s w Hr|s Hr|s Hr|s|s n Hw|s n Hw|s n Hv];
    try (split; [done|split; [apply evolves_refl|by try destruct w]]).
  - unfold subscribe_locked in Hs. destruct (ready s) eqn:Hr.
    { injection Hs as <- <-. split; [done|]. split; [apply evolves_refl|done]. }
    destruct (fresh_token _ _ _) as [[tok id']|] eqn:Ef; [|done]. cbn in Hs. injection Hs as <- <-.
    apply fresh_token_Some in Ef as (Hz & Hn & Hid).
    split; [|split; [apply evolves_quiet; [by rewrite Hr|done|done]|done]].
    split; cbn; [done|exact H2| |done]. set_solver.
  - unfold mark_locked in Hm. case_bool_decide; [|done]. injection Hm as <-.
    split; [by split|]. split; [by apply evolves_quiet|done].
  - unfold mark_locked in Hm. case_bool_decide; [done|]. injection Hm as <-.
    split; [done|]. split; [apply evolves_refl|done].
  - by apply send_ok.
  - unfold swap_ready in Hs. injection Hs as _ <-. split; [by split|]. split; [by apply evolves_quiet|done].
  - unfold swap_ready in Hs. injection Hs as _ <-. split; [by split|].
    split; [by apply evolves_quiet|by destruct w].
  - destruct (send_ok s Hf Ht) as (? & ? & Hr). split; [done|]. split; [done|by destruct w].
  - split; [by split|]. split; [by apply evolves_quiet|apply Nat.le_refl].
  - split; [by split|]. split; [by apply evolves_quiet|by apply H2].
  - split; [done|]. split; [apply evolves_refl|]. cbn in Ht |- *. by rewrite Hw.
  - split; [done|]. split; [apply evolves_refl|apply Nat.le_refl].
Qed.

(** The tasks that made the flag ready by a token. *)
Definition winner (t : Task) : bool :=
  match t with MarkSend | Done (Marked true) => true | _ => false end.
Definition winners (ts : list Task) : nat := length (List.filter winner ts).

(** The token a task got. *)
Definition token_of (t : Task) : option Z :=
  match t with Done (Subscribed r) => r | _ => None end.

Record system_ok (c : System) : Prop := {
  sys_flag : flag_ok (flag c);
  sys_tasks : Forall (task_ok (flag c)) (tasks c);
  sys_winners : winners (tasks c) ≤ (if ready (flag c) then 1 else 0);
  sys_tokens : NoDup (omap token_of (tasks c));
  sys_taken : ready (flag c) = false → ∀ z, z ∈ omap token_of (tasks c) → z ∈ tokens (flag c) }.

Lemma filter_insert_length {A} (f : A → bool) l i x y :
  l !! i = Some x →
  length (List.filter f (<[i := y]> l)) + (if f x then 1 else 0)
  = length (List.filter f l) + (if f y then 1 else 0).
Proof.
  revert i. induction l as [|z l IH]; intros [|i]; [done..| |].
  - intros [= ->]. change (<[0 := y]> (x :: l)) with (y :: l). cbn [List.filter].
    destruct (f x), (f y); cbn [length]; lia.
  - intros Hl. specialize (IH i Hl). change (<[S i := y]> (z :: l)) with (z :: <[i := y]> l).
    cbn [List.filter]. destruct (f z); cbn [length]; lia.
Qed.

(** What one action does to the winners and the tokens. *)
Lemma act_winner s t s' t' :
  act s t s' t' → flag_ok s →
  (winner t' = winner t ∧ (ready s = true → ready s' = true)) ∨
  (winner t = false ∧ winner t' = true ∧ ready s = false ∧ ready s' = true).
Proof.
  intros Ha [H1 _ _ _]. destruct Ha as [s Hr|s Hr|s r s' Hs|s|s t Hr|s|s t Hr Hz|s t s' Hm|s t s' Hm|s t|s|s w Hr|s w Hr|s w s' Ht0 Hs
    |s w s' Ht0 Hs|s w|s w|s w Hr|s Hr|s Hr|s|s n Hw|s n Hw|s n Hv]; 
    try (left; split; [by try destruct w|by auto]).
  - left. split; [done|]. unfold subscribe_locked in Hs. intros Hr. rewrite Hr in Hs. by injection Hs as <- <-.
  - right. unfold mark_locked in Hm. case_bool_decide as Hin; [|done]. injection Hm as <-. split_and!; try done.
    destruct (ready s); [|done]. rewrite H1 in Hin by done. set_solver.
  - left. split; [done|]. unfold mark_locked in Hm. case_bool_decide; [done|]. by injection Hm as <-.
  - left. split; [done|]. unfold send_true. by case_match.
  - left. split; [done|]. unfold swap_ready in Hs. by injection Hs as _ <-.
  - left. unfold swap_ready in Hs. injection Hs as _ <-. split; [by destruct w|done].
  - left. split; [by destruct w|]. unfold send_true. by case_match.
Qed.

Lemma act_tokens s t s' t' :
  act s t s' t' →
  token_of t = None ∧
  (ready s' = false → ready s = false ∧ tokens s ⊆ tokens s') ∧
  ∀ z, token_of t' = Some z → ready s = false ∧ z ∉ tokens s ∧ z ∈ tokens s'.
Proof.
  intros Ha. split; [by destruct Ha|].
  destruct Ha as [s Hr|s Hr|s r s' Hs|s|s t Hr|s|s t Hr Hz|s t s' Hm|s t s' Hm|s t|s|s w Hr|s w Hr|s w s' Ht0 Hs
    |s w s' Ht0 Hs|s w|s w|s w Hr|s Hr|s Hr|s|s n Hw|s n Hw|s n Hv]; try (split; [done|by try destruct w]).
  - unfold subscribe_locked in Hs. destruct (ready s) eqn:Hr; [injection Hs as <- <-; by rewrite Hr|].
    destruct (fresh_token _ _ _) as [[tok id']|] eqn:Ef; [|done]. injection Hs as <- <-. cbn.
    apply fresh_token_Some in Ef as (_ & Hn & _). split; [intros _; split; [done|set_solver]|].
    intros z [= <-]. split_and!; [done|done|set_solver].
  - unfold mark_locked in Hm. case_bool_decide; [|done]. by injection Hm as <-.
  - unfold mark_locked in Hm. case_bool_decide; [done|]. by injection Hm as <-.
  - unfold send_true. by case_match.
  - unfold swap_ready in Hs. by injection Hs as _ <-.
  - unfold swap_ready in Hs. injection Hs as _ <-. by destruct w.
  - unfold send_true. by case_match; destruct w.
Qed.

Lemma step_ok c c' : step c c' → system_ok c → system_ok c'.
Proof.
  intros [s ts i t s' t' Hi Ha] [Hf Ht Hw Hn Hk]. cbn in *.
  pose proof (Forall_lookup_1 _ _ _ _ Ht Hi) as Hti.
  destruct (act_ok _ _ _ _ Ha Hf Hti) as (Hf' & He & Hti').
  destruct (act_tokens _ _ _ _ Ha) as (Htok & Hmono & Hnew).
  pose proof (omap_update token_of ts i t t' Hi) as Hperm. rewrite Htok in Hperm. cbn [option_list app] in Hperm.
  split; cbn; [done| | | |].
  - apply Forall_insert; [|done]. eapply Forall_impl; [exact Ht|]. intros x. by apply evolves_task.
  - unfold winners in *. pose proof (filter_insert_length winner ts i t t' Hi) as Hl.
    destruct (act_winner _ _ _ _ Ha Hf) as [[Heq Hr]|(E1 & E2 & E3 & E4)].
    + rewrite Heq in Hl. destruct (ready s); [rewrite Hr by done; lia|]. destruct (ready s'); lia.
    + rewrite E1, E2 in Hl. rewrite E3 in Hw. rewrite E4. lia.
  - rewrite Hperm. destruct (token_of t') as [z|] eqn:Ez; [|done].
    destruct (Hnew z eq_refl) as (Hr & Hz & _). cbn. apply NoDup_cons. split; [|done].
    intros Hin. by apply Hz, Hk.
  - intros Hr z Hz. destruct (Hmono Hr) as [Hr0 Hsub]. rewrite Hperm in Hz. apply elem_of_app in Hz as [Hz|Hz].
    + destruct (token_of t') as [z'|]; [|by apply elem_of_nil in Hz]. apply list_elem_of_singleton in Hz as ->. by apply Hnew.
    + by apply Hsub, Hk.
Qed.

Lemma initial_system_ok c : initial c → system_ok c.
Proof.
  destruct c as [s ts]. intros [Hflag Hs]. cbn in Hflag, Hs. subst s.
  assert (Htok : omap token_of ts = []) by (induction Hs as [|t ts Ht _ IH]; cbn; [done|]; by destruct t).
  split; cbn; [by split| | | |].
  - eapply Forall_impl; [exact Hs|]. by intros [].
  - unfold winners. induction Hs as [|t ts' Ht _ IH]; cbn; [lia|]. destruct t; try done; apply IH; by cbn in Htok.
  - rewrite Htok. constructor.
  - rewrite Htok. intros _ z Hz. by apply elem_of_nil in Hz.
Qed.

Lemma reachable_system_ok c : reachable c → system_ok c.
Proof.
  intros (c0 & H0 & Hr). apply initial_system_ok in H0.
  induction Hr as [|c0 c1 c2 Hs _ IH]; [done|]. apply IH. by eapply step_ok.
Qed.

(** ** Theorems *)

(** C33: However any number of tasks interleave on one flag: what ended
    a wait, a check or a marking with success really found the flag ready;
    once it is ready no token is left; at most one task marks it ready with a
    token; all tokens handed out are different and not zero, also after the
    counter has wrapped around; and a waiting task can only be asleep while the
    channel does not hold [true]. *)
Theorem readiness_safe c :
  reachable c →
  (∀ t, t ∈ tasks c → t ∈ [Done Waited; Done (IsReady true); Done (Marked true)] → ready (flag c) = true) ∧
  (ready (flag c) = true → tokens (flag c) = ∅) ∧
  winners (tasks c) ≤ 1 ∧
  NoDup (omap token_of (tasks c)) ∧ 0%Z ∉ tokens (flag c) ∧
  (∀ n, WaitChanged n ∈ tasks c → watch_value (flag c) = true → n ≠ version (flag c)).
Proof.
  intros [[H1 H2 H3 H4] Ht Hw Hn _]%reachable_system_ok. rewrite Forall_forall in Ht. split_and!; try done.
  - intros t Hin Hd. specialize (Ht t Hin). rewrite !elem_of_cons, elem_of_nil in Hd.
    by destruct Hd as [->|[->|[->|[]]]].
  - destruct (ready (flag c)); lia.
  - intros n Hin Hv. destruct (Ht _ Hin) as [_ Hlt]. specialize (Hlt Hv). lia.
Qed.

(** A subscriber, a task that waits and the mark of the subscriber's token. *)
Definition demo_tasks : list Task := [SubStart; CheckStart true; MarkStart 1%Z].

(** The waiting task has checked the flag and not subscribed yet when the flag is
    marked: the value is sent to nobody, and the task subscribes to a channel
    that will never change. *)
Definition missed : System :=
  {| flag := {| ready := true; next_id := 2; tokens := ∅; watch_value := false; version := 0; receivers := 1 |};
     tasks := [Done (Subscribed (Some 1%Z)); WaitChanged 0; Done (Marked true)] |}.

(** Task [i] takes the step [c] of a concrete run. *)
Ltac take_step i c :=
  eapply rtc_l; [eapply (Step _ _ i); [reflexivity|eapply c; try reflexivity; try done]|cbn].

Lemma missed_reachable : rtc step {| flag := new; tasks := demo_tasks |} missed.
Proof.
  unfold demo_tasks. take_step 0 act_sub_start. take_step 0 act_sub_lock.
  take_step 1 act_check_start. take_step 1 act_check_busy. take_step 1 act_again_wait.
  take_step 2 act_mark_start. take_step 2 act_mark_lock. take_step 2 act_mark_send.
  take_step 1 act_wait_subscribe. take_step 1 act_wait_false. apply rtc_refl.
Qed.

Lemma missed_is_reachable : reachable missed.
Proof.
  exists {| flag := new; tasks := demo_tasks |}. split; [|apply missed_reachable].
  split; [done|]. by repeat constructor.
Qed.

(** A wait can miss the flag: there is a run after which the flag
    is ready and the subscriber and the marker have finished, while the waiting
    task sleeps and no action of any task is possible any more. *)
Theorem wait_can_sleep_forever :
  reachable missed ∧ ready (flag missed) = true ∧ WaitChanged 0 ∈ tasks missed ∧ nf step missed.
Proof.
  split_and!; [apply missed_is_reachable|done|cbn; set_solver|].
  - intros [c' Hs]. inversion Hs as [s ts i t s' t' Hi Ha]; subst.
    destruct i as [|[|[|i]]]; cbn in Hi; simplify_eq; by inversion Ha.
Qed.

Lemma readiness_safe_witness :
  winners (tasks missed) ≤ 1 ∧ NoDup (omap token_of (tasks missed)).
Proof.
  destruct (readiness_safe missed missed_is_reachable) as (_ & _ & Hw & Hn & _).
  split; [exact Hw|exact Hn].
Defined.

(** Subscribing always finds a token: as long as fewer than
    2^32 - 2 tokens are held, the loop ends within one turn per held token and
    two more, whatever the counter shows, with a token that is new and not
    zero. *)
Theorem subscribe_finds_token s :
  flag_ok s → ready s = false → (Z.of_nat (size (tokens s)) + 2 <= 2 ^ 32)%Z →
  ∃ token s', subscribe_locked s = Some (Some token, s') ∧ token ≠ 0%Z ∧ token ∉ tokens s ∧
    tokens s' = {[token]} ∪ tokens s ∧ flag_ok s'.
Proof.
  intros Hf Hr Hsize. destruct (fresh_token_exists (next_id s) (tokens s) (id_range s Hf) Hsize) as [[tok id'] Ef].
  assert (Hs : ∃ s', subscribe_locked s = Some (Some tok, s') ∧ tokens s' = {[tok]} ∪ tokens s)
    by (unfold subscribe_locked; rewrite Hr, Ef; cbn; eauto).
  destruct Hs as (s' & Hs & Ht). pose proof (fresh_token_Some _ _ _ _ _ Ef) as (Hz & Hn & _).
  exists tok, s'. split_and!; try done.
  by destruct (act_ok s SubLock s' _ (act_sub_lock s (Some tok) s' Hs) Hf I) as [? _].
Qed.

(** A counter about to wrap, with the first ids after the wrap taken. *)
Definition demo_wrapping : ReadinessFlag :=
  {| ready := false; next_id := -1; tokens := {[ -1; 1; 2 ]}%Z; watch_value := false; version := 0; receivers := 0 |}.

Lemma subscribe_finds_token_witness :
  ∃ token s', subscribe_locked demo_wrapping = Some (Some token, s') ∧ token ≠ 0%Z ∧
    token ∉ tokens demo_wrapping ∧ tokens s' = {[token]} ∪ tokens demo_wrapping ∧ flag_ok s'.
Proof.
  apply (subscribe_finds_token demo_wrapping).
  - split; cbn; [done|done|set_solver|lia].
  - reflexivity.
  - vm_compute. discriminate.
Defined.

Example wrapped_token : fst <$> subscribe_locked demo_wrapping = Some (Some 3%Z).
Proof. vm_compute. reflexivity. Qed.

End Ready.
