(* ===== verification/ConfigLayers.v ===== *)
(** * Configuration layers (config/src)

    The configuration is a stack of TOML tables, from managed preferences up to
    the flags of the session; a layer above overrides the layers below it.
    Module [Config] has the aliases of keys (key_aliases.rs), the merge of two
    values (merge.rs), the overrides of the command line (overrides.rs), the
    origins of values (fingerprint.rs), the stack of layers (state.rs) with the
    order of their sources (app-server-protocol/src/protocol/v2.rs) and the
    project root markers (project_root_markers.rs); module [Constraint] has the
    values that may only be set within constraints (constraint.rs).

    TOML tables are maps, since nothing here depends on the order in which they
    are walked.  The version of a layer (a SHA-256 of its JSON form) is a
    parameter, and so are the types of the requirements, which the stack only
    carries along. *)

From S2P Require Import Prelude AbsPath.

Module Config.
Import Path.

(** ** Values *)

Inductive TomlValue :=
| TString (s : rstring)
| TInteger (n : Z)
| TFloat (bits : Z)
| TBoolean (b : bool)
| TDatetime (s : rstring)
| TArray (items : list TomlValue)
| TTable (table : gmap rstring TomlValue).

Abbreviation Table := (gmap rstring TomlValue).

(** ** Aliases of keys *)

Record ConfigKeyAlias := {
  table_path : list rstring;
  legacy_key : rstring;
  canonical_key : rstring }.

Definition CONFIG_KEY_ALIASES : list ConfigKeyAlias :=
  [{| table_path := [ $"memories"]; legacy_key := $"no_memories_if_mcp_or_web_search";
      canonical_key := $"disable_on_external_context" |};
   {| table_path := [ $"agents"]; legacy_key := $"max_concurrent_threads_per_session";
      canonical_key := $"max_threads" |}].

(** One round of the loop. *)
Definition normalize_alias (path : list rstring) (table : Table) (alias : ConfigKeyAlias) : Table :=
  if bool_decide (path = table_path alias) then
    match table !! legacy_key alias with
    | Some value =>
        let table := delete (legacy_key alias) table in
        match table !! canonical_key alias with
        | Some _ => table
        | None => <[canonical_key alias := value]> table
        end
    | None => table
    end
  else table.

Definition normalize_key_aliases (path : list rstring) (table : Table) : Table :=
  fold_left (normalize_alias path) CONFIG_KEY_ALIASES table.

Fixpoint normalized_with_key_aliases (value : TomlValue) (path : list rstring) : TomlValue :=
  match value with
  | TTable table =>
      TTable (normalize_key_aliases path
                (map_fold (λ key child normalized,
                             <[key := normalized_with_key_aliases child (path ++ [key])]> normalized)
                          ∅ table))
  | TArray items => TArray ((λ item, normalized_with_key_aliases item path) <$> items)
  | _ => value
  end.

(** ** Merging *)

Fixpoint height (value : TomlValue) : nat :=
  match value with
  | TTable table => S (map_fold (λ _ child n, height child `max` n) 0 table)
  | _ => 1
  end.

(** One key of the overlay, put in the base with the merge [rec] of values. *)
Definition merge_entry (rec : TomlValue → TomlValue → list rstring → option TomlValue)
    (path : list rstring) (key : rstring) (value : TomlValue) (acc : option Table) : option Table :=
  base_table ← acc;
  match base_table !! key with
  | Some existing =>
      merged ← rec existing value (path ++ [key]); Some (<[key := merged]> base_table)
  | None => Some (<[key := normalized_with_key_aliases value (path ++ [key])]> base_table)
  end.

Fixpoint merge_toml_values_at_path (fuel : nat) (base overlay : TomlValue) (path : list rstring)
  : option TomlValue :=
  match fuel with
  | 0 => None
  | S fuel =>
      match overlay, base with
      | TTable overlay_table, TTable base_table =>
          TTable <$> map_fold (merge_entry (merge_toml_values_at_path fuel) path)
                       (Some (normalize_key_aliases path base_table))
                       (normalize_key_aliases path overlay_table)
      | _, _ => Some (normalized_with_key_aliases overlay path)
      end
  end.

(** The recursion goes down the overlay. *)
Definition merge_toml_values (base overlay : TomlValue) : option TomlValue :=
  merge_toml_values_at_path (height overlay) base overlay [].

(** ** Overrides of the command line *)

Definition default_empty_table : TomlValue := TTable ∅.

(** The table at a place, which becomes one if it is none. *)
Definition table_of (current : TomlValue) : Table :=
  match current with TTable table => table | _ => ∅ end.

Fixpoint override_segments (current : TomlValue) (segments : list rstring) (value : TomlValue) : TomlValue :=
  match segments with
  | [] => current
  | [segment] => TTable (<[segment := value]> (table_of current))
  | segment :: rest =>
      let table := table_of current in
      TTable (<[segment := override_segments (default (TTable ∅) (table !! segment)) rest value]> table)
  end.

Definition apply_toml_override (root : TomlValue) (path : rstring) (value : TomlValue) : TomlValue :=
  override_segments root (split_on 46%Z path) value.

Definition build_cli_overrides_layer (cli_overrides : list (rstring * TomlValue)) : TomlValue :=
  fold_left (λ root '(path, value), apply_toml_override root path value) cli_overrides default_empty_table.

(** ** Layers *)

Inductive ConfigLayerSource :=
| Mdm (domain key : rstring)
| System (file : rstring)
| User (file : rstring)
| Project (dot_codex_folder : rstring)
| SessionFlags
| LegacyManagedConfigTomlFromFile (file : rstring)
| LegacyManagedConfigTomlFromMdm.

Definition precedence (s : ConfigLayerSource) : Z :=
  match s with
  | Mdm _ _ => 0
  | System _ => 10
  | User _ => 20
  | Project _ => 25
  | SessionFlags => 30
  | LegacyManagedConfigTomlFromFile _ => 40
  | LegacyManagedConfigTomlFromMdm => 50
  end.

Record ConfigLayerMetadata := { meta_name : ConfigLayerSource; meta_version : rstring }.

Record ConfigLayerEntry := {
  name : ConfigLayerSource;
  config : TomlValue;
  raw_toml : option rstring;
  version : rstring;
  disabled_reason : option rstring }.

Definition is_disabled (l : ConfigLayerEntry) : bool := bool_decide (is_Some (disabled_reason l)).

Definition metadata (l : ConfigLayerEntry) : ConfigLayerMetadata :=
  {| meta_name := name l; meta_version := version l |}.

Definition config_folder (l : ConfigLayerEntry) : option rstring :=
  match name l with
  | System file | User file => parent file
  | Project dot_codex_folder => Some dot_codex_folder
  | Mdm _ _ | SessionFlags | LegacyManagedConfigTomlFromFile _ | LegacyManagedConfigTomlFromMdm => None
  end.

(** ** Origins *)

Fixpoint record_origins (value : TomlValue) (meta : ConfigLayerMetadata) (path : list rstring)
    (origins : gmap rstring ConfigLayerMetadata) : gmap rstring ConfigLayerMetadata :=
  match value with
  | TTable table => map_fold (λ key val origins, record_origins val meta (path ++ [key]) origins) origins table
  | TArray items =>
      (fix go (idx : nat) (items : list TomlValue) origins :=
         match items with
         | [] => origins
         | item :: items => go (S idx) items (record_origins item meta (path ++ [show_nat idx]) origins)
         end) 0 items origins
  | _ => if is_empty path then origins else <[join $"." path := meta]> origins
  end.

(** ** The stack *)

Inductive ConfigLayerStackOrdering := LowestPrecedenceFirst | HighestPrecedenceFirst.

Record ConfigLayerStack (R T : Type) := {
  layers : list ConfigLayerEntry;
  user_layer_index : option nat;
  requirements : R;
  requirements_toml : T;
  ignore_user_and_project_exec_policy_rules : bool }.
Arguments layers {R T} _.
Arguments user_layer_index {R T} _.
Arguments requirements {R T} _.
Arguments requirements_toml {R T} _.
Arguments ignore_user_and_project_exec_policy_rules {R T} _.

(** [is_sorted] on the names, whose order is that of their precedences. *)
Fixpoint is_sorted (l : list ConfigLayerEntry) : bool :=
  match l with
  | a :: (b :: _) as l' => (precedence (name a) <=? precedence (name b))%Z && is_sorted l'
  | _ => true
  end.

(** Equality of paths. *)
Definition path_eqb (p q : rstring) : bool := bool_decide (components p = components q).

(** The messages of the errors, which are all of the kind InvalidData. *)
Definition NOT_SORTED : rstring := $"config layers are not in correct precedence order".
Definition MULTIPLE_USER_LAYERS : rstring := $"multiple user config layers found".
Definition NO_PARENT : rstring := $"project layer has no parent directory".
Definition NOT_ROOT_TO_CWD : rstring := $"project layers are not ordered from root to cwd".

(** The check of a project layer against the one before it. *)
Definition check_project (previous : option rstring) (current : rstring) : result unit rstring :=
  match previous with
  | None => Ok ()
  | Some previous =>
      match parent previous with
      | None => Err NO_PARENT
      | Some up =>
          if path_eqb previous current || negb (existsb (λ a, path_eqb a up) (ancestors current))
          then Err NOT_ROOT_TO_CWD else Ok ()
      end
  end.

Fixpoint verify_loop (index : nat) (l : list ConfigLayerEntry) (user : option nat) (previous : option rstring)
  : result (option nat) rstring :=
  match l with
  | [] => Ok user
  | layer :: l' =>
      match name layer with
      | User _ =>
          match user with
          | Some _ => Err MULTIPLE_USER_LAYERS
          | None => verify_loop (S index) l' (Some index) previous
          end
      | Project current =>
          match check_project previous current with
          | Ok _ => verify_loop (S index) l' user (Some current)
          | Err e => Err e
          end
      | _ => verify_loop (S index) l' user previous
      end
  end.

Definition verify_layer_ordering (l : list ConfigLayerEntry) : result (option nat) rstring :=
  if negb (is_sorted l) then Err NOT_SORTED else verify_loop 0 l None None.

(** [iter().position(..)]. *)
Fixpoint position (f : ConfigLayerEntry → bool) (l : list ConfigLayerEntry) : option nat :=
  match l with [] => None | x :: l' => if f x then Some 0 else S <$> position f l' end.

Section stack.
Context {R T : Type} (version_for_toml : TomlValue → rstring).

Definition entry_new (name : ConfigLayerSource) (config : TomlValue) : ConfigLayerEntry :=
  {| name := name; config := config; raw_toml := None; version := version_for_toml config;
     disabled_reason := None |}.

Definition new_with_raw_toml (name : ConfigLayerSource) (config : TomlValue) (raw : rstring) : ConfigLayerEntry :=
  {| name := name; config := config; raw_toml := Some raw; version := version_for_toml config;
     disabled_reason := None |}.

Definition new_disabled (name : ConfigLayerSource) (config : TomlValue) (reason : rstring) : ConfigLayerEntry :=
  {| name := name; config := config; raw_toml := None; version := version_for_toml config;
     disabled_reason := Some reason |}.

Definition new (l : list ConfigLayerEntry) (requirements : R) (requirements_toml : T)
  : result (ConfigLayerStack R T) rstring :=
  match verify_layer_ordering l with
  | Ok user => Ok {| layers := l; user_layer_index := user; requirements := requirements;
                     requirements_toml := requirements_toml;
                     ignore_user_and_project_exec_policy_rules := false |}
  | Err e => Err e
  end.

Definition with_user_and_project_exec_policy_rules_ignored (s : ConfigLayerStack R T) (b : bool)
  : ConfigLayerStack R T :=
  {| layers := layers s; user_layer_index := user_layer_index s; requirements := requirements s;
     requirements_toml := requirements_toml s; ignore_user_and_project_exec_policy_rules := b |}.

Definition get_user_layer (s : ConfigLayerStack R T) : option ConfigLayerEntry :=
  index ← user_layer_index s; layers s !! index.

Definition with_layers (s : ConfigLayerStack R T) (l : list ConfigLayerEntry) (user : option nat)
  : ConfigLayerStack R T :=
  {| layers := l; user_layer_index := user; requirements := requirements s;
     requirements_toml := requirements_toml s;
     ignore_user_and_project_exec_policy_rules := ignore_user_and_project_exec_policy_rules s |}.

(** [None] is the panic of an index out of range. *)
Definition with_user_config (s : ConfigLayerStack R T) (config_toml : rstring) (user_config : TomlValue)
  : option (ConfigLayerStack R T) :=
  let user_layer := entry_new (User config_toml) user_config in
  match user_layer_index s with
  | Some index =>
      if index <? length (layers s)
      then Some (with_layers s (<[index := user_layer]> (layers s)) (user_layer_index s))
      else None
  | None =>
      Some match position (λ l, precedence (name user_layer) <? precedence (name l))%Z (layers s) with
           | Some index =>
               with_layers s (take index (layers s) ++ user_layer :: drop index (layers s)) (Some index)
           | None =>
               let l := layers s ++ [user_layer] in with_layers s l (Some (length l - 1))
           end
  end.

Definition get_layers (s : ConfigLayerStack R T) (ordering : ConfigLayerStackOrdering) (include_disabled : bool)
  : list ConfigLayerEntry :=
  let l := List.filter (λ l, include_disabled || negb (is_disabled l)) (layers s) in
  match ordering with HighestPrecedenceFirst => rev l | LowestPrecedenceFirst => l end.

Definition layers_high_to_low (s : ConfigLayerStack R T) : list ConfigLayerEntry :=
  get_layers s HighestPrecedenceFirst false.

Definition effective_config (s : ConfigLayerStack R T) : option TomlValue :=
  fold_left (λ merged layer, m ← merged; merge_toml_values m (config layer))
    (get_layers s LowestPrecedenceFirst false) (Some (TTable ∅)).

Definition origins (s : ConfigLayerStack R T) : gmap rstring ConfigLayerMetadata :=
  fold_left (λ o layer, record_origins (normalized_with_key_aliases (config layer) []) (metadata layer) [] o)
    (get_layers s LowestPrecedenceFirst false) ∅.

End stack.

(** ** Project root markers *)

Definition MARKERS_ERROR : rstring := $"project_root_markers must be an array of strings".

Fixpoint marker_strings (entries : list TomlValue) : result (list rstring) rstring :=
  match entries with
  | [] => Ok []
  | TString s :: entries =>
      match marker_strings entries with Ok l => Ok (s :: l) | Err e => Err e end
  | _ :: _ => Err MARKERS_ERROR
  end.

Definition project_root_markers_from_config (config : TomlValue) : result (option (list rstring)) rstring :=
  match config with
  | TTable table =>
      match table !! ($"project_root_markers") with
      | None => Ok None
      | Some (TArray entries) =>
          match marker_strings entries with Ok l => Ok (Some l) | Err e => Err e end
      | Some _ => Err MARKERS_ERROR
      end
  | _ => Ok None
  end.

Definition default_project_root_markers : list rstring := [ $".git"].

End Config.

(** ** Constrained values (constraint.rs) *)

Module Constraint.
Section constrained.
(** [E] is the type of the errors. *)
Context {T E : Type}.

Record Constrained := {
  value : T;
  validator : T → result unit E;
  normalizer : option (T → T) }.

Definition new (initial_value : T) (validator : T → result unit E) : result Constrained E :=
  match validator initial_value with
  | Ok _ => Ok {| value := initial_value; validator := validator; normalizer := None |}
  | Err e => Err e
  end.

Definition normalized (initial_value : T) (normalizer : T → T) : result Constrained E :=
  Ok {| value := normalizer initial_value; validator := λ _, Ok (); normalizer := Some normalizer |}.

Definition allow_any (initial_value : T) : Constrained :=
  {| value := initial_value; validator := λ _, Ok (); normalizer := None |}.

(** [invalid] is the InvalidValue error for a candidate. *)
Definition allow_only `{EqDecision T} (invalid : T → E) (only_value : T) : Constrained :=
  {| value := only_value;
     validator := λ candidate, if decide (candidate = only_value) then Ok () else Err (invalid candidate);
     normalizer := None |}.

Definition can_set (c : Constrained) (candidate : T) : result unit E := validator c candidate.

Definition add_validator (c : Constrained) (extra : T → result unit E) : result unit E * Constrained :=
  let combined candidate := match validator c candidate with Ok _ => extra candidate | Err e => Err e end in
  match combined (value c) with
  | Ok _ => (Ok (), {| value := value c; validator := combined; normalizer := normalizer c |})
  | Err e => (Err e, c)
  end.

Definition set (c : Constrained) (v : T) : result unit E * Constrained :=
  let v := match normalizer c with Some f => f v | None => v end in
  match validator c v with
  | Ok _ => (Ok (), {| value := v; validator := validator c; normalizer := normalizer c |})
  | Err e => (Err e, c)
  end.

End constrained.
Arguments Constrained T E : clear implicits.
End Constraint.
