(* ===== verification/ConfigTheorems.v ===== *)
(** * What the configuration layers promise

    [view] is what a value says of a path of keys: nothing, a value, a table, or
    that a value in the way rules the path out.  The theorems: the effective
    configuration says of every path what the highest layer that says anything
    of it does; the recorded origin of a value is the layer it comes from; a
    stack stays well ordered when the user's layer is put in; an override of the
    command line sets its path and touches no other; and a constrained value
    satisfies its constraints after any sequence of operations. *)

From stdpp Require Import sorting.
From S2P Require Import Prelude AbsPath ConfigLayers.

Module ConfigTheorems.
Import Path Config.

(** ** Induction on values *)

Fixpoint tsize (v : TomlValue) : nat :=
  match v with
  | TTable m => S (map_fold (λ _ c n, tsize c + n) 0 m)
  | TArray l => S (sum_list (tsize <$> l))
  | _ => 1
  end.

Lemma map_fold_bound (f : TomlValue → nat) (op : nat → nat → nat) (m : Table) k c :
  (∀ a b, a ≤ op a b) → (∀ a b, b ≤ op a b) →
  m !! k = Some c → f c ≤ map_fold (λ _ c n, op (f c) n) 0 m.
Proof.
  intros H1 H2. apply (map_fold_weak_ind (λ n m, m !! k = Some c → f c ≤ n)); [done|].
  intros i x m' n Hi IH. rewrite lookup_insert. case_decide; [by intros [= ->]|].
  intros Hk. specialize (IH Hk). etrans; [exact IH|apply H2].
Qed.

Lemma height_entry (m : Table) k c : m !! k = Some c → height c < height (TTable m).
Proof. intros Hk. apply (map_fold_bound height Nat.max) in Hk; cbn [height]; lia. Qed.

Lemma tsize_entry (m : Table) k c : m !! k = Some c → tsize c < tsize (TTable m).
Proof. intros Hk. apply (map_fold_bound tsize Nat.add) in Hk; cbn [tsize]; lia. Qed.

Lemma tsize_item l x : x ∈ l → tsize x < tsize (TArray l).
Proof. cbn [tsize]. induction 1; cbn; lia. Qed.

Lemma TomlValue_deep_ind (P : TomlValue → Prop) :
  (∀ v, (∀ l, v ≠ TArray l) → (∀ m, v ≠ TTable m) → P v) →
  (∀ l, (∀ x, x ∈ l → P x) → P (TArray l)) →
  (∀ m, (∀ k c, m !! k = Some c → P c) → P (TTable m)) → ∀ v, P v.
Proof.
  intros Hs Ha Ht v. induction v as [v IH] using (induction_ltof1 _ tsize). unfold ltof in IH.
  destruct v; try (apply Hs; done).
  - apply Ha. intros x Hx. by apply IH, tsize_item.
  - apply Ht. intros k c Hk. by eapply IH, tsize_entry.
Qed.

(** ** Walking a table *)

Lemma lookup_rebuilt (g : rstring → TomlValue → TomlValue) (m : Table) k :
  (map_fold (λ k c acc, <[k := g k c]> acc) ∅ m : Table) !! k = g k <$> m !! k.
Proof.
  apply (map_fold_weak_ind (λ r m, r !! k = g k <$> m !! k)); [done|].
  intros i x m' r Hi IH. rewrite !lookup_insert. by case_decide; subst.
Qed.

(** What the loop of the merge leaves at a key. *)
Lemma lookup_merged (rec : TomlValue → TomlValue → list rstring → option TomlValue) (path : list rstring) (base overlay r : Table) (k : rstring) :
  map_fold (merge_entry rec path) (Some base) overlay = Some r →
  match overlay !! k, base !! k with
  | None, o => r !! k = o
  | Some v, None => r !! k = Some (normalized_with_key_aliases v (path ++ [k]))
  | Some v, Some e => ∃ w, rec e v (path ++ [k]) = Some w ∧ r !! k = Some w
  end.
Proof.
  revert r. apply (map_fold_weak_ind (λ o m, ∀ r, o = Some r →
    match m !! k, base !! k with
    | None, o => r !! k = o
    | Some v, None => r !! k = Some (normalized_with_key_aliases v (path ++ [k]))
    | Some v, Some e => ∃ w, rec e v (path ++ [k]) = Some w ∧ r !! k = Some w
    end)).
  { intros r [= <-]. by rewrite lookup_empty. }
  intros i x m o Hi IH r Hr. unfold merge_entry in Hr. destruct o as [b|]; [|done]. cbn in Hr.
  specialize (IH b eq_refl). destruct (decide (i = k)) as [->|Hne].
  - rewrite Hi in IH. rewrite lookup_insert_eq. rewrite IH in Hr. destruct (base !! k) as [e|].
    + destruct (rec e x _) as [w|]; [|done]. injection Hr as <-. exists w. by rewrite lookup_insert_eq.
    + injection Hr as <-. by rewrite lookup_insert_eq.
  - rewrite lookup_insert_ne by done. destruct (b !! i) as [e|].
    + destruct (rec e x _) as [w|]; [|done]. injection Hr as <-. by rewrite lookup_insert_ne.
    + injection Hr as <-. by rewrite lookup_insert_ne.
Qed.

(** The loop goes through when the merges of the values do. *)
Lemma merged_total (rec : TomlValue → TomlValue → list rstring → option TomlValue) (path : list rstring) (base overlay : Table) :
  (∀ k e v, overlay !! k = Some v → ∃ w, rec e v (path ++ [k]) = Some w) →
  ∃ r, map_fold (merge_entry rec path) (Some base) overlay = Some r.
Proof.
  apply (map_fold_weak_ind (λ o m, (∀ k e v, m !! k = Some v → ∃ w, rec e v (path ++ [k]) = Some w) →
                                   ∃ r, o = Some r)); [eauto|].
  intros i x m o Hi IH Hrec. destruct IH as [b ->].
  { intros k e v Hk. apply Hrec. rewrite lookup_insert_ne; [done|]. congruence. }
  cbn. destruct (b !! i) as [e|]; [|eauto].
  destruct (Hrec i e x) as [w ->]; [by rewrite lookup_insert_eq|]. cbn. eauto.
Qed.

(** ** Aliases *)

(** No table at a place of aliases has a legacy key. *)
Definition no_legacy (path : list rstring) (m : Table) : Prop :=
  ∀ alias, alias ∈ CONFIG_KEY_ALIASES → path = table_path alias → m !! legacy_key alias = None.

(** The same everywhere in a value. *)
Inductive Normal : list rstring → TomlValue → Prop :=
| Normal_table path m :
    no_legacy path m → (∀ k c, m !! k = Some c → Normal (path ++ [k]) c) → Normal path (TTable m)
| Normal_other path v : (∀ m, v ≠ TTable m) → Normal path v.

Lemma normalize_keeps path m : no_legacy path m → normalize_key_aliases path m = m.
Proof.
  intros H. unfold normalize_key_aliases.
  assert (Hs : ∀ l, (∀ a, a ∈ l → a ∈ CONFIG_KEY_ALIASES) → fold_left (normalize_alias path) l m = m).
  { induction l as [|a l IH]; intros Hin; [done|]. cbn [fold_left]. unfold normalize_alias at 2.
    case_bool_decide as Hp; [rewrite (H a) by (done || (apply Hin; left))|];
      (apply IH; intros b Hb; apply Hin; by right). }
  by apply Hs.
Qed.

(** One alias: the legacy key is gone, the canonical key has its own value or
    else the legacy one. *)
Lemma lookup_alias path m a k :
  path = table_path a → legacy_key a ≠ canonical_key a →
  normalize_alias path m a !! k =
    if decide (k = legacy_key a) then None
    else if decide (k = canonical_key a) then
      match m !! k with Some v => Some v | None => m !! legacy_key a end
    else m !! k.
Proof.
  intros -> Hne. unfold normalize_alias. rewrite bool_decide_eq_true_2 by done.
  destruct (m !! legacy_key a) as [v|] eqn:Hl.
  - rewrite lookup_delete_ne by done. destruct (m !! canonical_key a) as [w|] eqn:Hc.
    + destruct (decide (k = legacy_key a)) as [->|]; [by rewrite lookup_delete_eq|].
      rewrite lookup_delete_ne by done. destruct (decide (k = canonical_key a)) as [->|]; [by rewrite Hc|done].
    + destruct (decide (k = legacy_key a)) as [->|].
      * by rewrite lookup_insert_ne, lookup_delete_eq.
      * destruct (decide (k = canonical_key a)) as [->|].
        -- by rewrite lookup_insert_eq, Hc.
        -- by rewrite lookup_insert_ne, lookup_delete_ne.
  - destruct (decide (k = legacy_key a)) as [->|]; [done|].
    destruct (decide (k = canonical_key a)) as [->|]; [|done]. by destruct (m !! canonical_key a).
Qed.

(** At most one alias applies at a path. *)
Lemma normalize_cases path m :
  (normalize_key_aliases path m = m ∧ ∀ a, a ∈ CONFIG_KEY_ALIASES → path ≠ table_path a) ∨
  ∃ a, path = table_path a ∧ a ∈ CONFIG_KEY_ALIASES ∧ normalize_key_aliases path m = normalize_alias path m a ∧
    ∀ b, b ∈ CONFIG_KEY_ALIASES → path = table_path b → b = a.
Proof.
  unfold normalize_key_aliases, CONFIG_KEY_ALIASES. cbn [fold_left].
  destruct (decide (path = [ $"memories"])) as [->|H1];
    [|destruct (decide (path = [ $"agents"])) as [->|H2]].
  - right. eexists. split_and!; [|left|reflexivity|]; [done|].
    intros b [->|[->|[]%elem_of_nil]%elem_of_cons]%elem_of_cons; [done|]. cbn. discriminate.
  - right. eexists. split_and!; [|right; left|reflexivity|]; [done|].
    intros b [->|[->|[]%elem_of_nil]%elem_of_cons]%elem_of_cons; [|done]. cbn. discriminate.
  - left. unfold normalize_alias. cbn [table_path]. rewrite !bool_decide_eq_false_2 by done. split; [done|].
    by intros a [->|[->|[]%elem_of_nil]%elem_of_cons]%elem_of_cons.
Qed.

Lemma legacy_ne_canonical a : a ∈ CONFIG_KEY_ALIASES → legacy_key a ≠ canonical_key a.
Proof. by intros [->|[->|[]%elem_of_nil]%elem_of_cons]%elem_of_cons. Qed.

Lemma alias_path_short a : a ∈ CONFIG_KEY_ALIASES → length (table_path a) = 1.
Proof. by intros [->|[->|[]%elem_of_nil]%elem_of_cons]%elem_of_cons. Qed.

Lemma normalize_no_legacy path m : no_legacy path (normalize_key_aliases path m).
Proof.
  intros b Hb Hp. destruct (normalize_cases path m) as [[_ Hn]|(a & Hpa & Ha & -> & Hu)]; [by destruct (Hn b)|].
  rewrite (Hu b Hb Hp). rewrite lookup_alias by (done || by apply legacy_ne_canonical). by rewrite decide_True.
Qed.

(** Every entry of a normalised table was an entry, under the same key or under
    a legacy one. *)
Lemma normalize_entry path m k c :
  normalize_key_aliases path m !! k = Some c → ∃ k', m !! k' = Some c ∧ (k' = k ∨ length path = 1).
Proof.
  destruct (normalize_cases path m) as [[-> _]|(a & Hpa & Ha & -> & _)]; [eauto|].
  rewrite lookup_alias by (done || by apply legacy_ne_canonical).
  assert (length path = 1) by (subst path; by apply alias_path_short).
  repeat case_decide; [done| |eauto]. subst k. destruct (m !! canonical_key a) eqn:E; [|eauto].
  intros [= <-]. eauto.
Qed.

(** ** Normal values *)

(** Below the first level there are no aliases. *)
Lemma normalize_deep path m : 2 ≤ length path → normalize_key_aliases path m = m.
Proof.
  intros Hp. destruct (normalize_cases path m) as [[-> _]|(a & -> & Ha & _)]; [done|].
  apply alias_path_short in Ha. lia.
Qed.

Lemma norm_deep v path : 2 ≤ length path → normalized_with_key_aliases v path = v.
Proof.
  revert path. induction v as [v Hl Hm|l IH|m IH] using TomlValue_deep_ind; intros path Hp.
  - by destruct v; [..|destruct (Hl items)|destruct (Hm table)].
  - cbn. f_equal. rewrite <-(list_fmap_id l) at 2. apply list_fmap_ext. intros i x Hx.
    apply IH; [by eapply list_elem_of_lookup_2|done].
  - cbn [normalized_with_key_aliases]. f_equal. rewrite normalize_deep by done. apply map_eq. intros k. rewrite lookup_rebuilt.
    destruct (m !! k) as [c|] eqn:Hk; [|done]. cbn. f_equal. apply (IH k c Hk). rewrite length_app. cbn. lia.
Qed.

(** Normalising a table normalises its values under the keys they end up with. *)
Lemma norm_table m path k :
  normalize_key_aliases path
    (map_fold (λ key child t, <[key := normalized_with_key_aliases child (path ++ [key])]> t) ∅ m) !! k
  = (λ c, normalized_with_key_aliases c (path ++ [k])) <$> normalize_key_aliases path m !! k.
Proof.
  set (m' := map_fold _ ∅ m).
  destruct (normalize_cases path m') as [[-> Hn]|(a & Hp & Ha & -> & Hu)];
    (destruct (normalize_cases path m) as [[-> Hn']|(a' & Hp' & Ha' & -> & _)];
     [|try by destruct (Hn a')]); [|by destruct (Hn' a)|].
  - apply lookup_rebuilt.
  - rewrite (Hu a') by done. clear a' Hp' Ha'. pose proof (legacy_ne_canonical a Ha) as Hne.
    apply alias_path_short in Ha. rewrite <-Hp in Ha.
    assert (Hd : ∀ c k', normalized_with_key_aliases c (path ++ [k']) = c).
    { intros c k'. apply norm_deep. rewrite length_app. cbn. lia. }
    assert (Hm : m' = m).
    { apply map_eq. intros k'. unfold m'. rewrite lookup_rebuilt.
      destruct (m !! k'); [|done]. cbn. by rewrite Hd. }
    rewrite Hm. destruct (normalize_alias path m a !! k); [|done]. cbn. by rewrite Hd.
Qed.

Lemma norm_normal v path : Normal path (normalized_with_key_aliases v path).
Proof.
  revert path. induction v as [v Hl Hm|l IH|m IH] using TomlValue_deep_ind; intros path.
  - apply Normal_other. destruct v; cbn; congruence.
  - by apply Normal_other.
  - cbn [normalized_with_key_aliases]. apply Normal_table; [apply normalize_no_legacy|]. intros k c. rewrite norm_table.
    destruct (normalize_key_aliases path m !! k) as [d|] eqn:Hk; [|done]. intros [= <-].
    apply normalize_entry in Hk as (k' & Hk & _). by apply (IH k').
Qed.

(** ** Views *)

(** What a value says of a path. *)
Inductive View := Absent | Blocked | Value (v : TomlValue) | IsTable.

Fixpoint view (v : TomlValue) (p : list rstring) : View :=
  match p with
  | [] => match v with TTable _ => IsTable | _ => Value v end
  | k :: p' =>
      match v with
      | TTable m => match m !! k with Some c => view c p' | None => Absent end
      | _ => Blocked
      end
  end.

(** What a value put over another says: what the upper one says, and what the
    lower one says where the upper one says nothing; a table in the upper one
    may take the place of a value that is in the way in the lower one. *)
Definition over (high low merged : View) : Prop :=
  match high with
  | Absent => merged = low ∨ low = Blocked ∧ merged = Absent
  | _ => merged = high
  end.

Lemma merge_spec fuel base overlay path r :
  Normal path base → merge_toml_values_at_path fuel base overlay path = Some r →
  Normal path r ∧ ∀ p, over (view (normalized_with_key_aliases overlay path) p) (view base p) (view r p).
Proof.
  revert base overlay path r. induction fuel as [|fuel IH]; intros base overlay path r Hb Hr; [done|].
  destruct overlay as [ | | | | | |om].
  1-6: (cbn in Hr; injection Hr as <-; split; [by apply Normal_other|by intros [|k p]]).
  destruct base as [ | | | | | |bm].
  1-6: (cbn [merge_toml_values_at_path] in Hr; injection Hr as <-; split; [exact (norm_normal (TTable om) path)|];
        intros [|k p]; [done|]; cbn [view normalized_with_key_aliases]; unfold over;
        destruct (_ !! k) as [c|]; [destruct (view c p)|]; auto).
  inversion Hb as [? ? Hleg Hch|? ? Hno]; subst; [|by destruct (Hno bm)].
  cbn [merge_toml_values_at_path] in Hr. rewrite (normalize_keeps _ bm Hleg) in Hr.
  destruct (map_fold _ _ _) as [rm|] eqn:Hf; [|done]. injection Hr as <-.
  pose proof (λ k, lookup_merged _ _ _ _ _ k Hf) as Hk. clear Hf.
  pose proof (normalize_no_legacy path om) as Hol. split.
  - apply Normal_table.
    + intros a Ha Hp. specialize (Hk (legacy_key a)). rewrite (Hol a Ha Hp), (Hleg a Ha Hp) in Hk. done.
    + intros k c Hc. specialize (Hk k).
      destruct (normalize_key_aliases path om !! k) as [v|]; [destruct (bm !! k) as [e|] eqn:He|].
      * destruct Hk as (w & Hw & Hrw). rewrite Hc in Hrw. injection Hrw as <-. by eapply IH in Hw as [? _]; [|eauto].
      * rewrite Hc in Hk. injection Hk as ->. apply norm_normal.
      * rewrite Hc in Hk. eauto.
  - intros [|k p]; [done|]. specialize (Hk k). cbn [normalized_with_key_aliases view]. rewrite norm_table.
    destruct (normalize_key_aliases path om !! k) as [v|]; cbn [fmap option_fmap option_map].
    + destruct (bm !! k) as [e|] eqn:He.
      * destruct Hk as (w & Hw & ->). eapply IH in Hw as [_ Hov]; [apply Hov|eauto].
      * rewrite Hk. unfold over. destruct (view _ p); auto.
    + rewrite Hk. by left.
Qed.

Lemma merge_total fuel base overlay path :
  height overlay ≤ fuel → ∃ r, merge_toml_values_at_path fuel base overlay path = Some r.
Proof.
  revert base overlay path. induction fuel as [|fuel IH]; intros base overlay path Hh.
  { destruct overlay; cbn in Hh; lia. }
  destruct overlay as [ | | | | | |om]; [cbn; eauto..|]. destruct base as [ | | | | | |bm]; [cbn; eauto..|].
  cbn [merge_toml_values_at_path].
  destruct (merged_total (merge_toml_values_at_path fuel) path (normalize_key_aliases path bm)
              (normalize_key_aliases path om)) as [r ->]; [|eexists; reflexivity].
  intros k e v Hk. apply normalize_entry in Hk as (k' & Hk & _). apply IH.
  apply height_entry in Hk. lia.
Qed.

(** ** The effective configuration *)

(** The first view that says something. *)
Fixpoint topmost (views : list View) : View :=
  match views with
  | [] => Absent
  | Absent :: views => topmost views
  | v :: _ => v
  end.

(** A path that is ruled out has no value, like one that nothing is said of. *)
Definition plain (v : View) : View := match v with Blocked => Absent | _ => v end.

(** What a layer says of a path, in canonical keys. *)
Definition says (p : list rstring) (l : ConfigLayerEntry) : View :=
  view (normalized_with_key_aliases (config l) []) p.

(** The merge of layers, the lowest first, onto the empty table. *)
Definition merge_layers (ls : list ConfigLayerEntry) : option TomlValue :=
  fold_left (λ merged layer, m ← merged; merge_toml_values m (config layer)) ls (Some (TTable ∅)).

Lemma over_topmost h low merged views :
  over h low merged → plain low = plain (topmost views) → plain merged = plain (topmost (h :: views)).
Proof.
  intros Ho Hl. destruct h; cbn [over topmost] in *; [|by subst..].
  destruct Ho as [->|[-> ->]]; [done|]. by rewrite <-Hl.
Qed.

Lemma merge_layers_spec ls :
  ∃ v, merge_layers ls = Some v ∧ Normal [] v ∧
    ∀ p, plain (view v p) = plain (topmost ((says p <$> rev ls) ++ [view default_empty_table p])).
Proof.
  induction ls as [|l ls IH] using rev_ind.
  - exists (TTable ∅). split; [done|]. split.
    + apply Normal_table; [by intros a _ _|done].
    + intros p. cbn. by destruct (view _ p).
  - destruct IH as (v & Hv & Hn & Hp). unfold merge_layers in *. rewrite fold_left_app, Hv. cbn [fold_left mbind option_bind].
    destruct (merge_total (height (config l)) v (config l) []) as [r Hr]; [done|].
    exists r. split; [exact Hr|]. eapply merge_spec in Hr as [Hnr Hov]; [|done]. split; [done|].
    intros p. rewrite rev_app_distr. cbn [rev app fmap list_fmap]. apply (over_topmost _ (view v p)); [apply Hov|apply Hp].
Qed.

(** C24: The effective configuration always exists; of every path of keys it says
    what the highest enabled layer that says anything of it does (the empty
    table lying below all layers), with legacy keys read as the canonical ones:
    a value there, a table there, or nothing, also when that layer has a value
    in place of a table the path would go through. *)
Theorem effective_config_resolves {R T} (s : ConfigLayerStack R T) :
  ∃ v, effective_config s = Some v ∧
    ∀ p, plain (view v p) =
      plain (topmost ((says p <$> layers_high_to_low s) ++ [view default_empty_table p])).
Proof.
  destruct (merge_layers_spec (get_layers s LowestPrecedenceFirst false)) as (v & Hv & _ & Hp).
  exists v. split; [exact Hv|exact Hp].
Qed.

(** ** Origins *)

(** The paths whose origin a value has recorded. *)
Inductive Recorded : TomlValue → list rstring → Prop :=
| Recorded_scalar v : (∀ l, v ≠ TArray l) → (∀ m, v ≠ TTable m) → Recorded v []
| Recorded_item l i c q : l !! i = Some c → Recorded c q → Recorded (TArray l) (show_nat i :: q)
| Recorded_entry (m : Table) k c q : m !! k = Some c → Recorded c q → Recorded (TTable m) (k :: q).

Definition recorded_key (v : TomlValue) (path : list rstring) (key : rstring) : Prop :=
  ∃ q, Recorded v q ∧ path ++ q ≠ [] ∧ key = join $"." (path ++ q).

(** [after] is [before] with [meta] at the keys of [P]. *)
Definition records (meta : ConfigLayerMetadata) (P : rstring → Prop)
    (before after : gmap rstring ConfigLayerMetadata) : Prop :=
  ∀ key, P key ∧ after !! key = Some meta ∨ ¬ P key ∧ after !! key = before !! key.

Lemma records_none meta P o : (∀ key, ¬ P key) → records meta P o o.
Proof. intros HP key. right. auto. Qed.

Lemma records_then meta (P Q S : rstring → Prop) o1 o2 o3 :
  (∀ key, S key ↔ P key ∨ Q key) → records meta P o1 o2 → records meta Q o2 o3 → records meta S o1 o3.
Proof.
  intros HS H1 H2 key. rewrite HS. destruct (H2 key) as [[HQ ->]|[HQ ->]]; [tauto|].
  destruct (H1 key) as [[HP ->]|[HP ->]]; tauto.
Qed.

Lemma recorded_key_table (m : Table) path key :
  recorded_key (TTable m) path key ↔ ∃ k c, m !! k = Some c ∧ recorded_key c (path ++ [k]) key.
Proof.
  split.
  - intros (q & Hq & Hne & ->). inversion Hq as [? _ Hno| |? k c q' Hk Hq']; subst; [by destruct (Hno m)|].
    exists k, c. split; [done|]. exists q'. rewrite <-app_assoc. split_and!; [done|by destruct path|done].
  - intros (k & c & Hk & q & Hq & Hne & ->). exists (k :: q). rewrite <-app_assoc.
    split_and!; [by econstructor|by destruct path|done].
Qed.

Lemma recorded_key_array l path key :
  recorded_key (TArray l) path key ↔ ∃ i c, l !! i = Some c ∧ recorded_key c (path ++ [show_nat i]) key.
Proof.
  split.
  - intros (q & Hq & Hne & ->). inversion Hq as [? Hno _|? i c q' Hk Hq'|]; subst; [by destruct (Hno l)|].
    exists i, c. split; [done|]. exists q'. rewrite <-app_assoc. split_and!; [done|by destruct path|done].
  - intros (i & c & Hk & q & Hq & Hne & ->). exists (show_nat i :: q). rewrite <-app_assoc.
    split_and!; [by econstructor|by destruct path|done].
Qed.

Lemma recorded_key_scalar v path key :
  (∀ l, v ≠ TArray l) → (∀ m, v ≠ TTable m) → recorded_key v path key ↔ path ≠ [] ∧ key = join $"." path.
Proof.
  intros Hl Hm. split.
  - intros (q & Hq & Hne & ->). inversion Hq; subst; [|by edestruct Hl|by edestruct Hm].
    by rewrite app_nil_r in *.
  - intros [Hne ->]. exists []. rewrite app_nil_r. split_and!; [by constructor|done..].
Qed.

Lemma record_items_spec (l : list TomlValue) meta path i o :
  (∀ x, x ∈ l → ∀ path o, records meta (recorded_key x path) o (record_origins x meta path o)) →
  records meta (λ key, ∃ j c, l !! j = Some c ∧ recorded_key c (path ++ [show_nat (i + j)]) key) o
    ((fix go (idx : nat) (items : list TomlValue) origins :=
        match items with
        | [] => origins
        | item :: items => go (S idx) items (record_origins item meta (path ++ [show_nat idx]) origins)
        end) i l o).
Proof.
  revert i o. induction l as [|x l IH]; intros i o Hx.
  { apply records_none. by intros key (j & c & Hj & _). }
  eapply records_then; [|apply (Hx x); left|apply IH; intros y Hy; apply Hx; by right].
  intros key. split.
  - intros (j & c & Hj & Hc). destruct j as [|j]; [injection Hj as ->; left; by rewrite Nat.add_0_r in Hc|].
    right. exists j, c. by rewrite <-plus_n_Sm in Hc.
  - intros [Hk|(j & c & Hj & Hc)]; [exists 0, x; by rewrite Nat.add_0_r|]. exists (S j), c. by rewrite <-plus_n_Sm.
Qed.

Lemma record_entries_spec (m : Table) meta path o :
  (∀ k c, m !! k = Some c → ∀ path o, records meta (recorded_key c path) o (record_origins c meta path o)) →
  records meta (λ key, ∃ k c, m !! k = Some c ∧ recorded_key c (path ++ [k]) key) o
    (map_fold (λ key val origins, record_origins val meta (path ++ [key]) origins) o m).
Proof.
  apply (map_fold_weak_ind (λ r m,
    (∀ k c, m !! k = Some c → ∀ path o, records meta (recorded_key c path) o (record_origins c meta path o)) →
    records meta (λ key, ∃ k c, m !! k = Some c ∧ recorded_key c (path ++ [k]) key) o r)).
  { intros _. apply records_none. by intros key (k & c & Hk & _). }
  clear m. intros k c m r Hk IHm IH.
  eapply records_then; [|apply IHm|apply (IH k c); by rewrite lookup_insert_eq].
  - intros key. split.
    + intros (k' & c' & Hk' & Hc). rewrite lookup_insert in Hk'.
      case_decide; [injection Hk' as <-; subst; by right|]. left. eauto.
    + intros [(k' & c' & Hk' & Hc)|Hc]; [|exists k, c; by rewrite lookup_insert_eq].
      exists k', c'. rewrite lookup_insert_ne by congruence. done.
  - intros k' c' Hk'. apply (IH k'). rewrite lookup_insert_ne; [done|]. congruence.
Qed.

Lemma records_iff meta (P Q : rstring → Prop) o o' :
  (∀ key, P key ↔ Q key) → records meta P o o' → records meta Q o o'.
Proof. intros H Hr key. destruct (Hr key) as [[? ?]|[? ?]]; rewrite H in *; auto. Qed.

Lemma record_origins_spec v meta path o :
  records meta (recorded_key v path) o (record_origins v meta path o).
Proof.
  revert path o. induction v as [v Hl Hm|l IH|m IH] using TomlValue_deep_ind; intros path o.
  - assert (Hr : record_origins v meta path o = if is_empty path then o else <[join $"." path := meta]> o).
    { by destruct v; [..|destruct (Hl items)|destruct (Hm table)]. }
    rewrite Hr. intros key. rewrite recorded_key_scalar by done. destruct path as [|k path]; cbn [is_empty].
    + right. naive_solver.
    + rewrite lookup_insert. case_decide; naive_solver.
  - eapply records_iff; [intros key; symmetry; apply recorded_key_array|]. by apply (record_items_spec l meta path 0).
  - eapply records_iff; [intros key; symmetry; apply recorded_key_table|]. by apply record_entries_spec.
Qed.

Lemma recorded_view v q : Recorded v q → view v q ≠ Absent.
Proof. induction 1 as [v Hl Hm| |m k c q Hk _ IH]; [by destruct v|done|]. cbn. by rewrite Hk. Qed.

(** A value that is neither a table nor an array. *)
Definition scalar (v : TomlValue) : Prop := (∀ l, v ≠ TArray l) ∧ ∀ m, v ≠ TTable m.

Lemma view_recorded v p x : view v p = Value x → scalar x → Recorded v p.
Proof.
  intros Hv [Hl Hm]. revert v Hv. induction p as [|k p IH]; intros v Hv.
  - destruct v; cbn in Hv; try injection Hv as <-; [by constructor..|by edestruct Hl|done].
  - destruct v as [ | | | | | |m]; cbn in Hv; [done..|]. destruct (m !! k) as [c|] eqn:Hk; [|done].
    econstructor; eauto.
Qed.

(** The origins of layers, the lowest first. *)
Definition origins_of (ls : list ConfigLayerEntry) : gmap rstring ConfigLayerMetadata :=
  fold_left (λ o layer, record_origins (normalized_with_key_aliases (config layer) []) (metadata layer) [] o) ls ∅.

(** No key on the way to a value of the layer contains a dot. *)
Definition dot_free (l : ConfigLayerEntry) : Prop :=
  ∀ q, Recorded (normalized_with_key_aliases (config l) []) q → Forall (λ k, 46%Z ∉ k) q.

Lemma show_nat_no_dot n : 46%Z ∉ show_nat n.
Proof.
  unfold show_nat. generalize n at 1. intros fuel.
  assert (H : ∀ acc, 46%Z ∉ acc → 46%Z ∉ show_nat_go fuel n acc); [|apply H, not_elem_of_nil].
  revert n. induction fuel as [|fuel IH]; intros n acc Hacc; cbn [show_nat_go];
    assert (Hd : 46%Z ∉ (48 + Z.of_nat (n mod 10))%Z :: acc) by (apply not_elem_of_cons; split; [lia|done]); [done|].
  destruct (n / 10 =? 0); [done|]. by apply IH.
Qed.

(** A check of that. *)
Fixpoint dotless (v : TomlValue) : bool :=
  match v with
  | TTable m => map_fold (λ k c b, bool_decide (46%Z ∉ k) && dotless c && b) true m
  | TArray l => forallb dotless l
  | _ => true
  end.

Lemma dotless_entry (m : Table) k c :
  dotless (TTable m) = true → m !! k = Some c → 46%Z ∉ k ∧ dotless c = true.
Proof.
  cbn [dotless]. apply (map_fold_weak_ind (λ b m, b = true → m !! k = Some c → 46%Z ∉ k ∧ dotless c = true)); [done|].
  intros i x m' r Hi IH [[Hk%bool_decide_eq_true Hx]%andb_true_iff Hr]%andb_true_iff.
  rewrite lookup_insert. case_decide; [intros [= <-]; by subst|]. by apply IH.
Qed.

Lemma dotless_recorded v q : Recorded v q → dotless v = true → Forall (λ k, 46%Z ∉ k) q.
Proof.
  induction 1 as [|l i c q Hi _ IH|m k c q Hk _ IH]; intros Hd; [constructor| |].
  - constructor; [apply show_nat_no_dot|]. apply IH. cbn in Hd. rewrite forallb_forall in Hd.
    apply Hd, list_elem_of_In. by eapply list_elem_of_lookup_2.
  - destruct (dotless_entry _ _ _ Hd Hk). constructor; auto.
Qed.

(** The layer a value comes from: it has the value, and the layers above it say
    nothing of the path. *)
Definition provides (ls : list ConfigLayerEntry) (p : list rstring) (x : TomlValue) (l : ConfigLayerEntry) : Prop :=
  ∃ below above, ls = below ++ l :: above ∧ says p l = Value x ∧ Forall (λ a, says p a = Absent) above.

Lemma origins_of_spec ls p x :
  Forall dot_free ls → p ≠ [] → scalar x → topmost (says p <$> rev ls) = Value x →
  ∃ l, provides ls p x l ∧ origins_of ls !! join $"." p = Some (metadata l).
Proof.
  intros Hdf Hp Hx. induction ls as [|l ls IH] using rev_ind; [done|].
  apply Forall_app in Hdf as [Hdf Hdl]. rewrite Forall_singleton in Hdl.
  rewrite rev_app_distr. cbn [rev app fmap list_fmap topmost]. unfold origins_of in *. rewrite fold_left_app. cbn [fold_left].
  set (o := fold_left _ ls ∅) in *.
  pose proof (record_origins_spec (normalized_with_key_aliases (config l) []) (metadata l) [] o (join $"." p)) as Hrec.
  destruct (says p l) eqn:Hs; [|done| |done].
  - intros Ht. destruct (IH Hdf Ht) as (l' & (bel & abv & Hls & Hv & Ha) & Hlk). exists l'. split.
    { exists bel, (abv ++ [l]). rewrite Hls, <-app_assoc. split_and!; [done..|]. apply Forall_app_2; [done|by constructor]. }
    destruct Hrec as [[(q & Hq & Hne & Heq) _]|[_ ->]]; [|done]. exfalso. cbn [app] in *.
    apply (recorded_view _ _ Hq). enough (q = p) as -> by done.
    assert (Hpd : Forall (λ k, 46%Z ∉ k) p).
    { rewrite Forall_forall in Hdf. apply (Hdf l'); [rewrite Hls; set_solver|]. by eapply view_recorded. }
    rewrite <-(split_join 46%Z q), <-(split_join 46%Z p); [by f_equal|done..|by apply Hdl].
  - intros [= ->]. exists l. split; [by exists ls, []|].
    destruct Hrec as [[_ ->]|[Hno _]]; [done|]. destruct Hno. exists p. split_and!; [|done..]. by eapply view_recorded.
Qed.

Lemma topmost_base views (p : list rstring) x :
  topmost (views ++ [view default_empty_table p]) = Value x → topmost views = Value x.
Proof. induction views as [|[| | | ] views IH]; cbn [app topmost]; [by destruct p|done..]. Qed.

(** The origin recorded for a scalar of the effective configuration is the layer
    it comes from: an enabled layer that has this value at this path, below
    layers that say nothing of the path.  (Origins are keyed by the path joined
    with dots, so no key on the way to a value may contain one.) *)
Theorem origin_is_provider {R T} (s : ConfigLayerStack R T) v p x :
  Forall dot_free (get_layers s LowestPrecedenceFirst false) →
  effective_config s = Some v → p ≠ [] → view v p = Value x → scalar x →
  ∃ l, provides (get_layers s LowestPrecedenceFirst false) p x l ∧
    origins s !! join $"." p = Some (metadata l).
Proof.
  intros Hdf Hv Hp Hx Hsc.
  destruct (merge_layers_spec (get_layers s LowestPrecedenceFirst false)) as (v' & Hv' & _ & Hpl).
  assert (v' = v) as -> by (unfold merge_layers, effective_config in *; congruence).
  specialize (Hpl p). rewrite Hx in Hpl. cbn [plain] in Hpl.
  apply (origins_of_spec _ p x Hdf Hp Hsc), (topmost_base _ p).
  by destruct (topmost _).
Qed.

(** ** The user's layer *)

Definition stack_ok {R T} (s : ConfigLayerStack R T) : Prop :=
  verify_layer_ordering (layers s) = Ok (user_layer_index s).

Definition is_user (l : ConfigLayerEntry) : bool := match name l with User _ => true | _ => false end.

Definition below (a b : ConfigLayerEntry) : Prop := (precedence (name a) <= precedence (name b))%Z.
#[local] Instance below_trans : Transitive below.
Proof. intros a b c. unfold below. lia. Qed.

Lemma is_sorted_spec l : is_sorted l = true ↔ StronglySorted below l.
Proof.
  split.
  - intros H. apply Sorted_StronglySorted; [exact below_trans|]. revert H.
    induction l as [|a [|b l] IH]; cbn [is_sorted]; intros H; [constructor|by repeat constructor|].
    apply andb_true_iff in H as [Hab H]. constructor; [by apply IH|]. constructor. by apply Z.leb_le.
  - induction l as [|a [|b l] IH]; [done..|]. intros [Ha Hs]%StronglySorted_cons. cbn [is_sorted].
    apply andb_true_iff. split; [|by apply IH]. apply Z.leb_le. by apply Forall_inv in Ha.
Qed.

Lemma verify_ok l r : verify_layer_ordering l = Ok r ↔ StronglySorted below l ∧ verify_loop 0 l None None = Ok r.
Proof.
  unfold verify_layer_ordering. rewrite <-is_sorted_spec.
  destruct (is_sorted l); cbn; [tauto|]. split; [done|intros []; done].
Qed.

(** The loop only looks at the kind of a layer. *)
Lemma verify_replace index l user previous j old entry :
  l !! j = Some old → is_user old = true → is_user entry = true →
  verify_loop index (<[j := entry]> l) user previous = verify_loop index l user previous.
Proof.
  intros Hj Ho He. revert index j user previous Hj. induction l as [|a l IH]; intros index j user previous Hj; [done|].
  destruct j as [|j]; cbn [insert list_insert verify_loop].
  - injection Hj as ->. unfold is_user in *. by destruct (name old), (name entry).
  - destruct (name a); try (by apply IH); [destruct user; [done|by apply IH]|].
    destruct (check_project previous dot_codex_folder); [by apply IH|done].
Qed.

(** The index it returns is that of a user layer, and the only one. *)
Lemma verify_loop_user index l user previous r :
  verify_loop index l user previous = Ok r →
  (r = user ∧ Forall (λ a, is_user a = false) l) ∨
  ∃ l1 a l2, l = l1 ++ a :: l2 ∧ user = None ∧ r = Some (index + length l1) ∧ is_user a = true ∧
    Forall (λ a, is_user a = false) l1 ∧ Forall (λ a, is_user a = false) l2.
Proof.
  revert index user previous. induction l as [|a l IH]; intros index user previous Hr.
  { injection Hr as ->. left. by split. }
  cbn [verify_loop] in Hr.
  assert (Hstep : is_user a = false → ∀ pr, verify_loop (S index) l user pr = Ok r →
    (r = user ∧ Forall (λ a, is_user a = false) (a :: l)) ∨
    ∃ l1 b l2, a :: l = l1 ++ b :: l2 ∧ user = None ∧ r = Some (index + length l1) ∧ is_user b = true ∧
      Forall (λ a, is_user a = false) l1 ∧ Forall (λ a, is_user a = false) l2).
  { intros Ha pr [[-> Hl]|(l1 & b & l2 & -> & -> & -> & Hb & H1 & H2)]%IH; [left; by split; [|constructor]|].
    right. exists (a :: l1), b, l2. split_and!; [done..| | |by constructor|]; [|done|done]. f_equal. cbn. lia. }
  unfold is_user in Hstep. destruct (name a) eqn:Hn; try (by eapply Hstep).
  - destruct user; [done|]. apply IH in Hr as [[-> Hl]|(l1 & b & l2 & _ & Hno & _)]; [|done].
    right. exists [], a, l. unfold is_user at 1. rewrite Hn, Nat.add_0_r. by split_and!.
  - destruct (check_project previous dot_codex_folder); [by eapply Hstep|done].
Qed.

(** A user layer can be put anywhere among layers that have none. *)
Lemma verify_insert index l1 l2 previous entry :
  is_user entry = true → verify_loop index (l1 ++ l2) None previous = Ok None →
  verify_loop index (l1 ++ entry :: l2) None previous = Ok (Some (index + length l1)).
Proof.
  intros He.
  assert (Hlater : ∀ l index index' i previous, verify_loop index l None previous = Ok None →
                    verify_loop index' l (Some i) previous = Ok (Some i)).
  { induction l as [|a l IH]; intros ix ix' i pr Hv; [done|]. cbn [verify_loop] in *.
    destruct (name a); try (by eapply IH); [|destruct (check_project pr dot_codex_folder); [by eapply IH|done]].
    apply verify_loop_user in Hv as [[Hno _]|(? & ? & ? & _ & Hno & _)]; done. }
  revert index previous. induction l1 as [|a l1 IH]; intros index previous Hv; cbn [app length] in *.
  - cbn [verify_loop]. unfold is_user in He. rewrite Nat.add_0_r. destruct (name entry); try done. by eapply Hlater.
  - cbn [verify_loop] in *. replace (index + S (length l1)) with (S index + length l1) by lia.
    destruct (name a); try (by apply IH); [|destruct (check_project previous dot_codex_folder); [by apply IH|done]].
    apply verify_loop_user in Hv as [[Hno _]|(? & ? & ? & _ & Hno & _)]; done.
Qed.

Lemma position_Some f l i :
  position f l = Some i →
  ∃ a l2, l = take i l ++ a :: l2 ∧ drop i l = a :: l2 ∧ f a = true ∧ Forall (λ x, f x = false) (take i l).
Proof.
  revert i. induction l as [|x l IH]; intros i; cbn [position]; [done|].
  destruct (f x) eqn:Hx; [intros [= <-]; exists x, l; by split_and!|].
  destruct (position f l) as [j|] eqn:Hp; [|done]. intros [= <-].
  destruct (IH j eq_refl) as (a & l2 & Hl & Hd & Ha & Hf). exists a, l2. cbn. split_and!; [by f_equal|done|done|].
  by constructor.
Qed.

Lemma position_None f l : position f l = None → Forall (λ x, f x = false) l.
Proof.
  induction l as [|x l IH]; cbn [position]; [done|]. destruct (f x) eqn:Hx; [done|].
  destruct (position f l); [done|]. constructor; auto.
Qed.

(** Sorted layers stay sorted when a layer is put before the first that is
    above it. *)
Lemma sorted_insert l1 l2 e :
  StronglySorted below (l1 ++ l2) → Forall (λ a, below a e) l1 →
  match l2 with [] => True | b :: _ => below e b end → StronglySorted below (l1 ++ e :: l2).
Proof.
  rewrite !StronglySorted_app, StronglySorted_cons. intros (H12 & H1 & H2) Hb1 Hb2.
  rewrite Forall_forall in Hb1. assert (He : Forall (below e) l2).
  { destruct l2 as [|b l2]; [done|]. apply StronglySorted_cons in H2 as [H2 _]. constructor; [done|].
    eapply Forall_impl; [exact H2|]. intros c Hc. by etrans. }
  split_and!; [|done..]. intros x y Hx [->|Hy]%elem_of_cons; [by apply Hb1|by apply H12].
Qed.

Lemma sorted_replace l1 l2 a e :
  precedence (name a) = precedence (name e) →
  StronglySorted below (l1 ++ a :: l2) → StronglySorted below (l1 ++ e :: l2).
Proof.
  rewrite !StronglySorted_app, !StronglySorted_cons. unfold below. intros Hp (H12 & H1 & Ha & H2). rewrite <-Hp.
  split_and!; [|done..]. intros x y Hx [->|Hy]%elem_of_cons; [rewrite <-Hp; apply (H12 x a Hx); left|].
  apply H12; [done|by right].
Qed.

Section user.
Context {R T : Type} (version_for_toml : TomlValue → rstring).
Implicit Types s : ConfigLayerStack R T.

(** The layers that are not the user's. *)
Definition other_layers s : list ConfigLayerEntry := List.filter (λ l, negb (is_user l)) (layers s).

Lemma filter_others l : Forall (λ a, is_user a = false) l → List.filter (λ l, negb (is_user l)) l = l.
Proof. induction 1 as [|a l Ha _ IH]; [done|]. cbn. by rewrite Ha, IH. Qed.

Lemma insert_user_ok s l1 l2 e :
  layers s = l1 ++ l2 → stack_ok s → user_layer_index s = None → is_user e = true →
  Forall (λ a, below a e) l1 → match l2 with [] => True | b :: _ => below e b end →
  let s' := with_layers s (l1 ++ e :: l2) (Some (length l1)) in
  stack_ok s' ∧ get_user_layer s' = Some e ∧ other_layers s' = other_layers s.
Proof.
  intros Hl [Hs Hv]%verify_ok Hu He Hb1 Hb2. rewrite Hl in Hs, Hv. rewrite Hu in Hv. cbn zeta. split_and!.
  - apply verify_ok. cbn [layers with_layers user_layer_index]. split; [by apply sorted_insert|].
    by apply (verify_insert 0).
  - cbn. by rewrite lookup_app_r, Nat.sub_diag by lia.
  - unfold other_layers. cbn [layers with_layers]. rewrite Hl, !List.filter_app. cbn. by rewrite He.
Qed.

(** Putting in the user's configuration does not panic and keeps the stack one
    that [new] accepts, with the index of the user's layer; the user's layer is
    the new one, and the other layers are the same, in the same order. *)
Theorem with_user_config_ok s config_toml user_config :
  stack_ok s →
  ∃ s', with_user_config version_for_toml s config_toml user_config = Some s' ∧ stack_ok s' ∧
    get_user_layer s' = Some (entry_new version_for_toml (User config_toml) user_config) ∧
    other_layers s' = other_layers s.
Proof.
  intros Hok. set (e := entry_new version_for_toml (User config_toml) user_config).
  unfold with_user_config. fold e. destruct (user_layer_index s) as [i|] eqn:Hu.
  - pose proof Hok as [Hs Hv]%verify_ok. rewrite Hu in Hv.
    destruct (verify_loop_user _ _ _ _ _ Hv) as [[? _]|(l1 & a & l2 & Hl & _ & [= ->] & Ha & H1 & H2)]; [done|].
    rewrite Hl, length_app, (proj2 (Nat.ltb_lt _ _)) by (cbn; lia). eexists. split; [reflexivity|].
    rewrite insert_app_r_alt, Nat.sub_diag by lia. cbn [insert list_insert]. split_and!.
    + apply verify_ok. cbn [layers with_layers user_layer_index]. rewrite Hl in Hs, Hv. split.
      * eapply sorted_replace; [|exact Hs]. unfold is_user in Ha. by destruct (name a).
      * rewrite <-Hv, <-(verify_replace 0 (l1 ++ a :: l2) None None (length l1) a e);
          [|by rewrite lookup_app_r, Nat.sub_diag by lia|done..].
        by rewrite insert_app_r_alt, Nat.sub_diag by lia.
    + cbn. by rewrite lookup_app_r, Nat.sub_diag by lia.
    + unfold other_layers. cbn [layers with_layers]. rewrite Hl, !List.filter_app. cbn. by rewrite Ha.
  - eexists. split; [reflexivity|]. destruct (position _ (layers s)) as [i|] eqn:Hp.
    + apply position_Some in Hp as (a & l2 & Hl & -> & Ha & Hf).
      assert (i = length (take i (layers s))) as Hi.
      { rewrite length_take. apply (f_equal length) in Hl. rewrite length_app, length_take in Hl. cbn in Hl. lia. }
      pose proof (insert_user_ok s (take i (layers s)) (a :: l2) e Hl Hok Hu eq_refl) as H.
      rewrite <-Hi in H. apply H; [|unfold below; lia].
      eapply Forall_impl; [exact Hf|]. cbn. unfold below. intros x Hx%Z.ltb_ge. done.
    + apply position_None in Hp. rewrite length_app, Nat.add_sub.
      apply (insert_user_ok s (layers s) [] e); try done; [by rewrite app_nil_r|].
      eapply Forall_impl; [exact Hp|]. cbn. unfold below. intros x Hx%Z.ltb_ge. done.
Qed.

End user.

(** ** Overrides *)

(** The value at a path. *)
Fixpoint at_path (v : TomlValue) (p : list rstring) : option TomlValue :=
  match p with
  | [] => Some v
  | k :: p' => match v with TTable m => m !! k ≫= λ c, at_path c p' | _ => None end
  end.

Lemma override_cons current k rest value :
  override_segments current (k :: rest) value =
  TTable (<[k := match rest with [] => value
                 | _ => override_segments (default (TTable ∅) (table_of current !! k)) rest value end]>
            (table_of current)).
Proof. by destruct rest. Qed.

Lemma at_path_table_of current k p : at_path current (k :: p) = table_of current !! k ≫= λ c, at_path c p.
Proof. by destruct current. Qed.

Lemma override_sets current segments value :
  segments ≠ [] → at_path (override_segments current segments value) segments = Some value.
Proof.
  revert current. induction segments as [|k [|k' rest] IH]; intros current Hne; [done|..];
    rewrite override_cons; cbn [at_path]; rewrite lookup_insert_eq; [done|]. cbn [mbind option_bind]. by apply IH.
Qed.

(** Two paths part ways. *)
Fixpoint apart (p q : list rstring) : Prop :=
  match p, q with k :: p', k' :: q' => k ≠ k' ∨ k = k' ∧ apart p' q' | _, _ => False end.

Lemma override_keeps current segments value q :
  apart segments q → at_path (override_segments current segments value) q = at_path current q.
Proof.
  revert current q. induction segments as [|k rest IH]; intros current q Ha; [done|].
  destruct q as [|k' q]; [done|]. rewrite override_cons, (at_path_table_of current). cbn [at_path].
  destruct (decide (k = k')) as [->|Hne]; [|by rewrite lookup_insert_ne].
  destruct Ha as [?|[_ Ha]]; [done|]. rewrite lookup_insert_eq. cbn [mbind option_bind].
  destruct rest as [|k2 rest]; [done|]. rewrite (IH _ _ Ha).
  destruct (table_of current !! k'); [done|]. cbn. by destruct q.
Qed.

(** The layer of the command line has, at the path of an override, its value,
    if the paths of the later overrides part ways with it; in particular the
    last override of a path counts. *)
Theorem cli_override_counts earlier path value later :
  Forall (λ o, apart (split_on 46%Z o.1) (split_on 46%Z path)) later →
  at_path (build_cli_overrides_layer (earlier ++ (path, value) :: later)) (split_on 46%Z path) = Some value.
Proof.
  intros Hl. unfold build_cli_overrides_layer. rewrite fold_left_app. cbn [fold_left].
  set (r := apply_toml_override _ path value).
  assert (Hr : at_path r (split_on 46%Z path) = Some value) by apply override_sets, split_on_nonempty.
  clearbody r. revert r Hr. induction Hl as [|[p' v'] l Ha _ IH]; intros r Hr; [done|]. cbn [fold_left].
  apply IH. unfold apply_toml_override. by rewrite override_keeps.
Qed.

(** ** Constrained values *)

Section constrained.
Import Constraint.
Context {V E : Type}.
Implicit Types c : Constrained V E.

Inductive Op := SetTo (v : V) | AddValidator (f : V → result unit E).

Definition run_op c (op : Op) : Constrained V E :=
  match op with SetTo v => (Constraint.set c v).2 | AddValidator f => (add_validator c f).2 end.

Definition accepts (f : V → result unit E) (v : V) : Prop := f v = Ok ().

Lemma run_op_ok c op :
  accepts (validator c) (value c) →
  accepts (validator (run_op c op)) (value (run_op c op)) ∧
  ∀ v, accepts (validator (run_op c op)) v → accepts (validator c) v.
Proof.
  unfold accepts. intros Hv. destruct op as [v|f]; cbn [run_op].
  - unfold Constraint.set. remember (match normalizer c with Some f => f v | None => v end) as w.
    destruct (validator c w) as [[]|] eqn:Hn; cbn; auto.
  - unfold add_validator. rewrite Hv. destruct (f (value c)) as [[]|] eqn:Hf; cbn; [|auto].
    rewrite Hv. split; [done|].
    intros v. by destruct (validator c v) as [[]|].
Qed.

Lemma add_validator_added c f :
  (add_validator c f).1 = Ok () → ∀ v, accepts (validator (add_validator c f).2) v → accepts f v.
Proof.
  unfold add_validator, accepts. destruct (validator c (value c)) as [u|] eqn:Hv; [|done].
  destruct (f (value c)) as [[]|]; [|done]. intros _ v. cbn. by destruct (validator c v).
Qed.

(** A constrained value satisfies its constraint from the start and after any
    sequence of settings and added constraints, whichever of them are refused;
    and a constraint that was added is never lost again. *)
Theorem constraint_always_holds c f ops :
  accepts (validator c) (value c) →
  let c' := fold_left run_op ops (add_validator c f).2 in
  accepts (validator c') (value c') ∧ accepts (validator c) (value c') ∧
  ((add_validator c f).1 = Ok () → accepts f (value c')).
Proof.
  intros Hv. cbn zeta.
  assert (Hrun : ∀ ops c, accepts (validator c) (value c) →
    let c' := fold_left run_op ops c in
    accepts (validator c') (value c') ∧ ∀ v, accepts (validator c') v → accepts (validator c) v).
  { clear. induction ops as [|op ops IH]; intros c Hc; cbn [fold_left]; [by split|].
    destruct (run_op_ok c op Hc) as [Hc1 Hs1]. destruct (IH _ Hc1) as [Hc2 Hs2]. split; [done|]. auto. }
  destruct (run_op_ok c (AddValidator f) Hv) as [Hv1 Hs1]. cbn [run_op] in Hv1, Hs1.
  destruct (Hrun ops _ Hv1) as [Hv2 Hs2].
  split_and!; [exact Hv2|by apply Hs1, Hs2|]. intros Hok. by apply (add_validator_added c f Hok), Hs2.
Qed.

End constrained.

(** ** Examples *)

Definition demo_version (_ : TomlValue) : rstring := $"sha256:00".

Definition demo_system : ConfigLayerEntry :=
  entry_new demo_version (System $"/etc/codex/config.toml")
    (TTable {[ $"model" := TString $"small";
               $"memories" := TTable {[ $"no_memories_if_mcp_or_web_search" := TBoolean true ]} ]}).
Definition demo_project : ConfigLayerEntry :=
  entry_new demo_version (Project $"/repo/.codex")
    (TTable {[ $"memories" := TTable {[ $"max" := TInteger 3 ]} ]}).
Definition demo_flags : ConfigLayerEntry :=
  entry_new demo_version SessionFlags (build_cli_overrides_layer [($"model", TString $"large")]).

Definition demo_stack : ConfigLayerStack unit unit :=
  {| layers := [demo_system; demo_project; demo_flags]; user_layer_index := None; requirements := ();
     requirements_toml := (); ignore_user_and_project_exec_policy_rules := false |}.

Example demo_stack_new :
  new [demo_system; demo_project; demo_flags] () () = Ok demo_stack.
Proof. vm_compute. reflexivity. Qed.

Example demo_effective :
  effective_config demo_stack =
  Some (TTable {[ $"model" := TString $"large";
                  $"memories" := TTable {[ $"max" := TInteger 3;
                                           $"disable_on_external_context" := TBoolean true ]} ]}).
Proof. vm_compute. reflexivity. Qed.

(** A value in the place of a table hides what lower layers have below it. *)
Example value_hides_table :
  merge_toml_values (TTable {[ $"a" := TTable {[ $"b" := TInteger 1 ]} ]}) (TTable {[ $"a" := TInteger 5 ]})
  = Some (TTable {[ $"a" := TInteger 5 ]}).
Proof. vm_compute. reflexivity. Qed.

(** Layers in the wrong order, or two of the user, are refused. *)
Example wrong_order_refused : new [demo_flags; demo_project] () () = Err NOT_SORTED.
Proof. vm_compute. reflexivity. Qed.

Definition demo_user (path : rstring) : ConfigLayerEntry := entry_new demo_version (User path) default_empty_table.

Example two_users_refused : new [demo_user $"/a"; demo_user $"/b"] () () = Err MULTIPLE_USER_LAYERS.
Proof. vm_compute. reflexivity. Qed.

Definition demo_nested (folder : rstring) : ConfigLayerEntry := entry_new demo_version (Project folder) default_empty_table.

Example nested_projects_accepted :
  verify_layer_ordering [demo_nested $"/repo/.codex"; demo_nested $"/repo/crate/.codex"] = Ok None ∧
  verify_layer_ordering [demo_nested $"/repo/crate/.codex"; demo_nested $"/repo/.codex"] = Err NOT_ROOT_TO_CWD.
Proof. split; vm_compute; reflexivity. Qed.

(** A dot in a key gives the origin of one value to another: the nested value
    comes from the system's layer, its key is recorded for the flags. *)
Definition demo_dotted : ConfigLayerStack unit unit :=
  {| layers := [entry_new demo_version (System $"/etc/codex/config.toml")
                  (TTable {[ $"a" := TTable {[ $"b" := TInteger 1 ]} ]});
                entry_new demo_version SessionFlags (TTable {[ $"a.b" := TInteger 2 ]})];
     user_layer_index := None; requirements := (); requirements_toml := ();
     ignore_user_and_project_exec_policy_rules := false |}.

Example dotted_key_takes_origin :
  (effective_config demo_dotted ≫= λ v, at_path v [ $"a"; $"b"]) = Some (TInteger 1) ∧
  meta_name <$> origins demo_dotted !! ($"a.b") = Some SessionFlags.
Proof. split; vm_compute; reflexivity. Qed.

Lemma origin_is_provider_witness :
  ∃ l, provides (get_layers demo_stack LowestPrecedenceFirst false) [ $"model"] (TString $"large") l ∧
    origins demo_stack !! join $"." [ $"model"] = Some (metadata l).
Proof.
  eapply (origin_is_provider demo_stack).
  - repeat constructor; intros q Hq; apply (dotless_recorded _ _ Hq); vm_compute; reflexivity.
  - vm_compute. reflexivity.
  - discriminate.
  - vm_compute. reflexivity.
  - split; discriminate.
Defined.

Lemma with_user_config_ok_witness :
  stack_ok demo_stack ∧
  ∃ s', with_user_config demo_version demo_stack $"/home/u/.codex/config.toml" default_empty_table = Some s' ∧
    stack_ok s' ∧
    get_user_layer s' = Some (entry_new demo_version (User $"/home/u/.codex/config.toml") default_empty_table) ∧
    other_layers s' = other_layers demo_stack.
Proof.
  assert (H : stack_ok demo_stack) by (vm_compute; reflexivity).
  split; [exact H|]. apply (with_user_config_ok demo_version demo_stack). exact H.
Defined.

Lemma cli_override_counts_witness :
  at_path (build_cli_overrides_layer [($"a.b", TInteger 1); ($"a.b", TInteger 2); ($"a.c", TInteger 3)])
    [ $"a"; $"b"] = Some (TInteger 2).
Proof.
  apply (cli_override_counts [($"a.b", TInteger 1)] $"a.b" (TInteger 2) [($"a.c", TInteger 3)]).
  constructor; [|constructor]. right. split; [reflexivity|]. left. discriminate.
Defined.

Definition demo_small (v : nat) : result unit rstring := if v <? 10 then Ok () else Err $"too big".
Definition demo_even (v : nat) : result unit rstring := if Nat.even v then Ok () else Err $"odd".
Definition demo_constrained : Constraint.Constrained nat rstring :=
  {| Constraint.value := 4; Constraint.validator := demo_small; Constraint.normalizer := None |}.

Lemma constraint_always_holds_witness :
  accepts demo_even (Constraint.value
    (fold_left run_op [SetTo 7; SetTo 6; SetTo 12] (Constraint.add_validator demo_constrained demo_even).2)).
Proof.
  apply (constraint_always_holds demo_constrained demo_even [SetTo 7; SetTo 6; SetTo 12]); reflexivity.
Defined.

End ConfigTheorems.
