(* ===== verification/AgentRegistry.v ===== *)
(** * The registry of sub-agents (core/src/agent/registry.rs)

    A session may run a limited number of sub-agents.  Each has a slot, which is
    a count, a nickname and perhaps a path in the tree of agents; a spawn
    reserves them before the agent's thread exists and gives them back when the
    thread cannot be created.  Module [Agents] has the paths
    (protocol/src/agent_path.rs), the registry with its operations, and the
    spawns as tasks that interleave at the registry's lock and at its atomic
    counter (core/src/agent/control.rs: spawn_agent_internal and
    prepare_thread_spawn as far as they touch the registry).

    Theorem, for any number of tasks and any interleaving: the counter is the
    number of agents that live plus the slots on their way in or out, so it is
    never wrong, never wraps and never above the limit; and no two agents or
    spawns hold one path.

    The thread manager, which creates the threads, hands out an id that no agent
    of the registry has.  A thread id is its printed form. *)

From S2P Require Import Prelude.

Module Agents.

(** ** Paths of agents *)

Definition ROOT : rstring := $"/root".
Definition MORPHEUS : rstring := $"/morpheus".
Definition ROOT_SEGMENT : rstring := $"root".
Definition SLASH : char := 47%Z.

Definition is_root (p : rstring) : bool := p =?s ROOT.

Definition name (p : rstring) : rstring :=
  if is_root p then ROOT_SEGMENT
  else match last (split_on SLASH p) with
       | Some segment => if is_empty segment then ROOT_SEGMENT else segment
       | None => ROOT_SEGMENT
       end.

Definition name_char (ch : char) : bool :=
  ((97 <=? ch) && (ch <=? 122) || (48 <=? ch) && (ch <=? 57) || (ch =? 95))%Z.

Definition validate_agent_name (agent_name : rstring) : result unit rstring :=
  if is_empty agent_name then Err $"agent_name must not be empty"
  else if agent_name =?s ROOT_SEGMENT then Err $"agent_name `root` is reserved"
  else if (agent_name =?s $".") || (agent_name =?s $"..") then
    Err ($"agent_name `" ++ agent_name ++ $"` is reserved")
  else if contains_char SLASH agent_name then Err $"agent_name must not contain `/`"
  else if negb (forallb name_char agent_name) then
    Err $"agent_name must use only lowercase letters, digits, and underscores"
  else Ok ().

Fixpoint validate_segments (segments : list rstring) : result unit rstring :=
  match segments with
  | [] => Ok ()
  | segment :: segments =>
      match validate_agent_name segment with Ok _ => validate_segments segments | Err e => Err e end
  end.

Definition validate_absolute_path (path : rstring) : result unit rstring :=
  if path =?s MORPHEUS then Ok ()
  else
    match strip_prefix [SLASH] path with
    | None => Err $"absolute agent paths must start with `/root` or be `/morpheus`"
    | Some stripped =>
        match split_on SLASH stripped with
        | [] => Err $"absolute agent path must not be empty"
        | root :: segments =>
            if negb (root =?s ROOT_SEGMENT) then
              Err $"absolute agent paths must start with `/root` or be `/morpheus`"
            else if ends_with [SLASH] stripped then Err $"absolute agent path must not end with `/`"
            else validate_segments segments
        end
    end.

Definition validate_relative_reference (reference : rstring) : result unit rstring :=
  if ends_with [SLASH] reference then Err $"relative agent path must not end with `/`"
  else validate_segments (split_on SLASH reference).

Definition from_string (path : rstring) : result rstring rstring :=
  match validate_absolute_path path with Ok _ => Ok path | Err e => Err e end.

Definition join_name (p agent_name : rstring) : result rstring rstring :=
  match validate_agent_name agent_name with
  | Ok _ => from_string (p ++ [SLASH] ++ agent_name)
  | Err e => Err e
  end.

Definition resolve (p reference : rstring) : result rstring rstring :=
  if is_empty reference then Err $"agent path must not be empty"
  else if reference =?s ROOT then Ok ROOT
  else if starts_with [SLASH] reference then from_string reference
  else
    match validate_relative_reference reference with
    | Ok _ => from_string (p ++ [SLASH] ++ reference)
    | Err e => Err e
    end.

(** ** Depth *)

Inductive SubAgentSource :=
| Review | Compact
| ThreadSpawn (parent_thread_id : rstring) (depth : Z) (agent_path agent_nickname agent_role : option rstring)
| MemoryConsolidation
| Other (s : rstring).

Inductive SessionSource :=
| Cli | VSCode | Exec | Mcp | Custom (s : rstring) | SubAgent (s : SubAgentSource) | Unknown.

Definition session_depth (s : SessionSource) : Z :=
  match s with
  | SubAgent (ThreadSpawn _ depth _ _ _) => depth
  | _ => 0
  end.

(** [saturating_add]. *)
Definition next_thread_spawn_depth (s : SessionSource) : Z := Z.min (session_depth s + 1) I32_MAX.

Definition exceeds_thread_spawn_depth_limit (depth max_depth : Z) : bool := (max_depth <? depth)%Z.

(** ** The registry *)

Record AgentMetadata := {
  agent_id : option rstring;
  agent_path : option rstring;
  agent_nickname : option rstring;
  agent_role : option rstring;
  last_task_message : option rstring }.

Definition default_metadata : AgentMetadata :=
  {| agent_id := None; agent_path := None; agent_nickname := None; agent_role := None;
     last_task_message := None |}.

(** [agent_metadata.agent_id = Some(thread_id)]. *)
Definition with_id (m : AgentMetadata) (thread_id : rstring) : AgentMetadata :=
  {| agent_id := Some thread_id; agent_path := agent_path m; agent_nickname := agent_nickname m;
     agent_role := agent_role m; last_task_message := last_task_message m |}.

Record AgentRegistry := {
  agent_tree : gmap rstring AgentMetadata;
  used_agent_nicknames : gset rstring;
  nickname_reset_count : nat;
  total_count : Z }.

Definition default_registry : AgentRegistry :=
  {| agent_tree := ∅; used_agent_nicknames := ∅; nickname_reset_count := 0; total_count := 0 |}.

Definition with_tree (s : AgentRegistry) (t : gmap rstring AgentMetadata) : AgentRegistry :=
  {| agent_tree := t; used_agent_nicknames := used_agent_nicknames s;
     nickname_reset_count := nickname_reset_count s; total_count := total_count s |}.
Definition with_nicknames (s : AgentRegistry) (used : gset rstring) (resets : nat) : AgentRegistry :=
  {| agent_tree := agent_tree s; used_agent_nicknames := used; nickname_reset_count := resets;
     total_count := total_count s |}.
Definition with_count (s : AgentRegistry) (n : Z) : AgentRegistry :=
  {| agent_tree := agent_tree s; used_agent_nicknames := used_agent_nicknames s;
     nickname_reset_count := nickname_reset_count s; total_count := n |}.

(** The atomic counter is a [usize] and wraps. *)
Definition wrap_usize (n : Z) : Z := (n mod 2 ^ 64)%Z.
Definition fetch_add_1 (s : AgentRegistry) : AgentRegistry := with_count s (wrap_usize (total_count s + 1)).
Definition fetch_sub_1 (s : AgentRegistry) : AgentRegistry := with_count s (wrap_usize (total_count s - 1)).

Definition format_agent_nickname (n : rstring) (nickname_reset_count : nat) : rstring :=
  match nickname_reset_count with
  | 0 => n
  | reset_count =>
      let value := reset_count + 1 in
      let suffix :=
        if (11 <=? value mod 100) && (value mod 100 <=? 13) then $"th"
        else match value mod 10 with 1 => $"st" | 2 => $"nd" | 3 => $"rd" | _ => $"th" end in
      n ++ $" the " ++ show_nat value ++ suffix
  end.

Definition has_id (thread_id : rstring) (m : AgentMetadata) : bool := bool_decide (agent_id m = Some thread_id).
Definition at_root (m : AgentMetadata) : bool := match agent_path m with Some p => is_root p | None => false end.

(** The first entry, in some order, with the id of a thread. *)
Definition find_thread (thread_id : rstring) (t : gmap rstring AgentMetadata) : option (rstring * AgentMetadata) :=
  snd <$> list_find (λ e, has_id thread_id e.2 = true) (map_to_list t).

(** The section of [release_spawned_thread] under the lock: whether a counted
    agent was removed. *)
Definition remove_thread (thread_id : rstring) (s : AgentRegistry) : bool * AgentRegistry :=
  match find_thread thread_id (agent_tree s) with
  | Some (key, m) => (negb (at_root m), with_tree s (delete key (agent_tree s)))
  | None => (false, s)
  end.

Definition register_root_thread (thread_id : rstring) (s : AgentRegistry) : AgentRegistry :=
  match agent_tree s !! ROOT with
  | Some _ => s
  | None =>
      with_tree s (<[ROOT := {| agent_id := Some thread_id; agent_path := Some ROOT; agent_nickname := None;
                               agent_role := None; last_task_message := None |}]> (agent_tree s))
  end.

Definition agent_id_for_path (p : rstring) (s : AgentRegistry) : option rstring :=
  agent_tree s !! p ≫= agent_id.

Definition agent_metadata_for_thread (thread_id : rstring) (s : AgentRegistry) : option AgentMetadata :=
  snd <$> find_thread thread_id (agent_tree s).

(** An agent that lives, other than the root. *)
Definition live (m : AgentMetadata) : bool := bool_decide (is_Some (agent_id m)) && negb (at_root m).

Definition live_agents (s : AgentRegistry) : list AgentMetadata :=
  List.filter live (snd <$> map_to_list (agent_tree s)).

Definition update_last_task_message (thread_id message : rstring) (s : AgentRegistry) : AgentRegistry :=
  match find_thread thread_id (agent_tree s) with
  | Some (key, m) =>
      with_tree s (<[key := {| agent_id := agent_id m; agent_path := agent_path m;
                              agent_nickname := agent_nickname m; agent_role := agent_role m;
                              last_task_message := Some message |}]> (agent_tree s))
  | None => s
  end.

Definition thread_key (thread_id : rstring) : rstring := $"thread:" ++ thread_id.

Definition register_spawned_thread (m : AgentMetadata) (s : AgentRegistry) : AgentRegistry :=
  match agent_id m with
  | None => s
  | Some thread_id =>
      let key := default (thread_key thread_id) (agent_path m) in
      let s := match agent_nickname m with
               | Some n => with_nicknames s ({[n]} ∪ used_agent_nicknames s) (nickname_reset_count s)
               | None => s
               end in
      with_tree s (<[key := m]> (agent_tree s))
  end.

(** [choose] is the random choice from a list. *)
Definition reserve_agent_nickname (choose : list rstring → option rstring) (names : list rstring)
    (preferred : option rstring) (s : AgentRegistry) : option rstring * AgentRegistry :=
  let take n s :=
    (Some n, with_nicknames s ({[n]} ∪ used_agent_nicknames s) (nickname_reset_count s)) in
  match preferred with
  | Some n => take n s
  | None =>
      if is_empty names then (None, s)
      else
        let available :=
          List.filter (λ n, bool_decide (n ∉ used_agent_nicknames s))
            ((λ n, format_agent_nickname n (nickname_reset_count s)) <$> names) in
        match choose available with
        | Some n => take n s
        | None =>
            let s := with_nicknames s ∅ (S (nickname_reset_count s)) in
            match choose names with
            | Some n => take (format_agent_nickname n (nickname_reset_count s)) s
            | None => (None, s)
            end
        end
  end.

Definition reserve_agent_path (p : rstring) (s : AgentRegistry) : result unit rstring * AgentRegistry :=
  match agent_tree s !! p with
  | Some _ => (Err ($"agent path `" ++ p ++ $"` already exists"), s)
  | None =>
      (Ok (), with_tree s (<[p := {| agent_id := None; agent_path := Some p; agent_nickname := None;
                                    agent_role := None; last_task_message := None |}]> (agent_tree s)))
  end.

Definition release_reserved_agent_path (p : rstring) (s : AgentRegistry) : AgentRegistry :=
  match agent_tree s !! p with
  | Some m => if bool_decide (is_Some (agent_id m)) then s else with_tree s (delete p (agent_tree s))
  | None => s
  end.

(** ** Tasks *)

(** What a spawn asks for; [source] has the fields of a spawned thread with the
    nicknames to choose from, and is [None] for another kind of session. *)
Record Spawn := {
  parent_thread_id : rstring;
  depth : Z;
  path : option rstring;
  role : option rstring;
  names : list rstring;
  preferred : option rstring }.

Record Request := { max_threads : option Z; source : option Spawn }.

(** Where a task is.  A spawn: in [reserve_spawn_slot], with the value read by
    [try_increment_spawned]; with its slot; at each reservation; while its thread
    is created; giving back its path and its slot; ended.  A release of an agent,
    the registration of the root, and a message noted. *)
Inductive Task :=
| SpawnStart (r : Request)
| SpawnCas (r : Request) (max current : Z)
| SpawnSlot (r : Request)
| SpawnPath (sp : Spawn)
| SpawnNick (sp : Spawn)
| SpawnThread (m : AgentMetadata)
| DropPath (p : option rstring)
| DropCount
| Spawned (thread_id : rstring)
| Failed
| ReleaseStart (thread_id : rstring)
| ReleaseCount
| RootStart (thread_id : rstring)
| NoteStart (thread_id message : rstring)
| Ended.

(** One action of a task.  The creation of a thread may fail; if it does not, its
    id is new to the registry. *)
Inductive act : AgentRegistry → Task → AgentRegistry → Task → Prop :=
| act_unlimited s r :
    max_threads r = None → act s (SpawnStart r) (fetch_add_1 s) (SpawnSlot r)
| act_load s r max :
    max_threads r = Some max → act s (SpawnStart r) s (SpawnCas r max (total_count s))
| act_full s r max current : (max <= current)%Z → act s (SpawnCas r max current) s Failed
| act_cas s r max current :
    (current < max)%Z → total_count s = current →
    act s (SpawnCas r max current) (with_count s (wrap_usize (current + 1))) (SpawnSlot r)
| act_cas_fails s r max current :
    (current < max)%Z → act s (SpawnCas r max current) s (SpawnCas r max (total_count s))
| act_other_source s r : source r = None → act s (SpawnSlot r) s (SpawnThread default_metadata)
| act_prepare s r sp :
    source r = Some sp →
    act s (SpawnSlot r) (if (depth sp =? 1)%Z then register_root_thread (parent_thread_id sp) s else s) (SpawnPath sp)
| act_no_path s sp : path sp = None → act s (SpawnPath sp) s (SpawnNick sp)
| act_path s sp p s' :
    path sp = Some p → reserve_agent_path p s = (Ok (), s') → act s (SpawnPath sp) s' (SpawnNick sp)
| act_path_taken s sp p e s' :
    path sp = Some p → reserve_agent_path p s = (Err e, s') → act s (SpawnPath sp) s' DropCount
| act_nick s sp choose n s' :
    reserve_agent_nickname choose (names sp) (preferred sp) s = (Some n, s') →
    act s (SpawnNick sp) s'
      (SpawnThread {| agent_id := None; agent_path := path sp; agent_nickname := Some n;
                      agent_role := role sp; last_task_message := None |})
| act_no_nick s sp choose s' :
    reserve_agent_nickname choose (names sp) (preferred sp) s = (None, s') →
    act s (SpawnNick sp) s' (DropPath (path sp))
| act_commit s m thread_id :
    (∀ k m', agent_tree s !! k = Some m' → agent_id m' ≠ Some thread_id) →
    act s (SpawnThread m) (register_spawned_thread (with_id m thread_id) s) (Spawned thread_id)
| act_no_thread s m : act s (SpawnThread m) s (DropPath (agent_path m))
| act_drop_path s p :
    act s (DropPath p) (match p with Some p => release_reserved_agent_path p s | None => s end) DropCount
| act_drop_count s : act s DropCount (fetch_sub_1 s) Failed
| act_release s thread_id s' :
    remove_thread thread_id s = (true, s') → act s (ReleaseStart thread_id) s' ReleaseCount
| act_release_nothing s thread_id s' :
    remove_thread thread_id s = (false, s') → act s (ReleaseStart thread_id) s' Ended
| act_release_count s : act s ReleaseCount (fetch_sub_1 s) Ended
| act_root s thread_id : act s (RootStart thread_id) (register_root_thread thread_id s) Ended
| act_note s thread_id message :
    act s (NoteStart thread_id message) (update_last_task_message thread_id message s) Ended.

Record System := { registry : AgentRegistry; tasks : list Task }.

Inductive step : System → System → Prop :=
| Step s ts i t s' t' :
    ts !! i = Some t → act s t s' t' →
    step {| registry := s; tasks := ts |} {| registry := s'; tasks := <[i := t']> ts |}.

(** A task that has not begun; the path of a spawn is one that [from_string]
    accepts and not the root's, as the callers make it by [join_name]. *)
Definition starting (t : Task) : Prop :=
  match t with
  | SpawnStart r =>
      match source r with
      | Some sp => match path sp with Some p => from_string p = Ok p ∧ is_root p = false | None => True end
      | None => True
      end
  | ReleaseStart _ | RootStart _ | NoteStart _ _ => True
  | _ => False
  end.

Definition initial (c : System) : Prop :=
  registry c = default_registry ∧ Forall starting (tasks c) ∧ (Z.of_nat (length (tasks c)) < 2 ^ 64)%Z.

Definition reachable (c : System) : Prop := ∃ c0, initial c0 ∧ rtc step c0 c.

End Agents.
