(* ===== verification/AgentTheorems.v ===== *)
(** * What the registry of sub-agents promises

    The invariant of the registry and of the tasks that use it ([system_ok]) and
    the theorems that follow from it; then the paths of agents. *)

From S2P Require Import Prelude AgentRegistry.

Module AgentTheorems.
Import Agents.

(** ** Counting *)

(** The slot a task holds, and whether it is a spawn that has had one. *)
Definition weight (t : Task) : nat :=
  match t with
  | SpawnSlot _ | SpawnPath _ | SpawnNick _ | SpawnThread _ | DropPath _ | DropCount | ReleaseCount => 1
  | _ => 0
  end.
Definition begun (t : Task) : nat :=
  match t with
  | SpawnSlot _ | SpawnPath _ | SpawnNick _ | SpawnThread _ | DropPath _ | DropCount | Spawned _ => 1
  | _ => 0
  end.

Fixpoint total (f : Task → nat) (ts : list Task) : nat :=
  match ts with [] => 0 | t :: ts => f t + total f ts end.

Lemma total_update f ts i t t' : ts !! i = Some t → total f (<[i := t']> ts) + f t = total f ts + f t'.
Proof.
  revert i. induction ts as [|x ts IH]; intros [|i] Hi; [done..| |].
  - injection Hi as ->. cbn. lia.
  - specialize (IH i Hi). change (<[S i := t']> (x :: ts)) with (x :: <[i := t']> ts). cbn [total]. lia.
Qed.

Lemma total_begun ts : total begun ts ≤ length ts.
Proof.
  induction ts as [|t ts IH]; cbn; [done|]. assert (begun t ≤ 1) by (destruct t; cbn; lia). lia.
Qed.

(** The number of agents in a tree. *)
Definition alive (t : gmap rstring AgentMetadata) : nat := size (filter (λ e, live e.2 = true) t).
Definition one (m : AgentMetadata) : nat := if live m then 1 else 0.

Lemma alive_insert t k m : t !! k = None → alive (<[k := m]> t) = one m + alive t.
Proof.
  intros Hk. unfold alive, one. destruct (live m) eqn:Hl.
  - rewrite map_filter_insert_True by done. rewrite map_size_insert_None; [done|].
    apply map_lookup_filter_None. by left.
  - rewrite map_filter_insert_False by (cbn; congruence). by rewrite delete_id.
Qed.

Lemma alive_delete t k m : t !! k = Some m → alive t = one m + alive (delete k t).
Proof.
  intros Hk. rewrite <-(insert_delete_id t k m Hk) at 1. apply alive_insert. apply lookup_delete_eq.
Qed.

Lemma alive_replace t k m m' : t !! k = Some m → alive (<[k := m']> t) + one m = alive t + one m'.
Proof.
  intros Hk. rewrite (alive_delete t k m Hk), <-insert_delete_eq, alive_insert by apply lookup_delete_eq. lia.
Qed.

Lemma filter_length_perm {A} (f : A → bool) l l' :
  l ≡ₚ l' → length (List.filter f l) = length (List.filter f l').
Proof.
  induction 1 as [|x l l' _ IH|x y l|l1 l2 l3 _ IH1 _ IH2]; cbn; [done| | |congruence].
  - destruct (f x); cbn; congruence.
  - by destruct (f x), (f y).
Qed.

Lemma alive_live_agents s : alive (agent_tree s) = length (live_agents s).
Proof.
  unfold live_agents. generalize (agent_tree s). clear s. intros t.
  induction t as [|k m t Hk IH] using map_ind; [done|].
  rewrite alive_insert, IH by done.
  rewrite (filter_length_perm live (snd <$> map_to_list (<[k := m]> t)) (snd <$> (k, m) :: map_to_list t)) by (by rewrite map_to_list_insert).
  cbn. unfold one. by destruct (live m).
Qed.

(** ** The invariant *)

Definition placeholder (p : rstring) : AgentMetadata :=
  {| agent_id := None; agent_path := Some p; agent_nickname := None; agent_role := None;
     last_task_message := None |}.

Definition good_path (p : rstring) : Prop := starts_with $"/" p = true ∧ is_root p = false.

(** An entry is under its path or, without one, under the id of its thread. *)
Definition entry_ok (k : rstring) (m : AgentMetadata) : Prop :=
  match agent_path m with
  | Some p => k = p ∧ starts_with $"/" p = true
  | None => ∃ id, agent_id m = Some id ∧ k = thread_key id
  end.
Definition tree_ok (t : gmap rstring AgentMetadata) : Prop := map_Forall entry_ok t.

(** The path a task has reserved. *)
Definition held_path (t : Task) : option rstring :=
  match t with
  | SpawnNick sp => path sp
  | SpawnThread m => agent_path m
  | DropPath p => p
  | _ => None
  end.

(** What a task knows: its path is in the tree as a placeholder, and the path
    of a spawn is a good one. *)
Definition spawn_ok (sp : Spawn) : Prop := ∀ p, path sp = Some p → good_path p.
Definition task_ok (tree : gmap rstring AgentMetadata) (t : Task) : Prop :=
  (∀ p, held_path t = Some p → tree !! p = Some (placeholder p) ∧ good_path p) ∧
  match t with
  | SpawnStart r | SpawnCas r _ _ | SpawnSlot r => ∀ sp, source r = Some sp → spawn_ok sp
  | SpawnPath sp | SpawnNick sp => spawn_ok sp
  | SpawnThread m => agent_id m = None
  | _ => True
  end.

(** The limits of the spawns. *)
Definition limited (M : Z) (t : Task) : Prop :=
  match t with
  | SpawnStart r => ∃ max, max_threads r = Some max ∧ (max <= M)%Z
  | SpawnCas _ max _ => (max <= M)%Z
  | _ => True
  end.

Record system_ok (c : System) : Prop := {
  ok_tree : tree_ok (agent_tree (registry c));
  ok_tasks : Forall (task_ok (agent_tree (registry c))) (tasks c);
  ok_paths : NoDup (omap held_path (tasks c));
  ok_count : total_count (registry c) = Z.of_nat (total weight (tasks c) + alive (agent_tree (registry c)));
  ok_begun : total weight (tasks c) + alive (agent_tree (registry c)) ≤ total begun (tasks c);
  ok_length : (Z.of_nat (length (tasks c)) < 2 ^ 64)%Z }.

(** ** The operations on the tree *)

Lemma find_thread_Some id t k m : find_thread id t = Some (k, m) → t !! k = Some m ∧ agent_id m = Some id.
Proof.
  unfold find_thread. destruct (list_find _ _) as [[i e]|] eqn:Hf; [|done]. cbn. intros [= ->].
  apply list_find_Some in Hf as (Hi & Hid%bool_decide_eq_true & _). split; [|done].
  apply elem_of_map_to_list. by eapply list_elem_of_lookup_2.
Qed.

(** Placeholders stay, but for the one the task may hold itself. *)
Definition keeps (own : option rstring) (t t' : gmap rstring AgentMetadata) : Prop :=
  ∀ p, t !! p = Some (placeholder p) → good_path p → own ≠ Some p → t' !! p = Some (placeholder p).

Lemma keeps_refl own t : keeps own t t.
Proof. by intros p. Qed.

Lemma keeps_insert own t k m :
  (∀ p, k = p → good_path p → own ≠ Some p → t !! p = Some (placeholder p) → False) → keeps own t (<[k := m]> t).
Proof. intros H p Hp Hg Ho. destruct (decide (k = p)) as [->|Hne]; [by destruct (H p)|by rewrite lookup_insert_ne]. Qed.

Lemma keeps_delete own t k :
  (∀ p, k = p → good_path p → own ≠ Some p → t !! p = Some (placeholder p) → False) → keeps own t (delete k t).
Proof. intros H p Hp Hg Ho. destruct (decide (k = p)) as [->|Hne]; [by destruct (H p)|by rewrite lookup_delete_ne]. Qed.

Lemma thread_key_bad id p : thread_key id = p → good_path p → False.
Proof. by intros <- [? _]. Qed.

Lemma register_root_effect id s own :
  tree_ok (agent_tree s) →
  let s' := register_root_thread id s in
  tree_ok (agent_tree s') ∧ keeps own (agent_tree s) (agent_tree s') ∧
  alive (agent_tree s') = alive (agent_tree s) ∧ total_count s' = total_count s.
Proof.
  intros Ht. unfold register_root_thread. destruct (agent_tree s !! ROOT) eqn:Hr; cbn; [by split_and!; try apply keeps_refl|].
  split_and!; [|apply keeps_insert|by rewrite alive_insert|done].
  - by apply map_Forall_insert_2.
  - by intros p <- [_ ?].
Qed.

Lemma remove_thread_effect id s own b s' :
  tree_ok (agent_tree s) → remove_thread id s = (b, s') →
  tree_ok (agent_tree s') ∧ keeps own (agent_tree s) (agent_tree s') ∧
  alive (agent_tree s) = (if b then 1 else 0) + alive (agent_tree s') ∧ total_count s' = total_count s.
Proof.
  intros Ht. unfold remove_thread. destruct (find_thread id (agent_tree s)) as [[k m]|] eqn:Hf;
    intros [= <- <-]; [|by split_and!; try apply keeps_refl].
  apply find_thread_Some in Hf as [Hk Hid]. cbn. split_and!; [by apply map_Forall_delete|apply keeps_delete| |done].
  - intros p -> _ _ Hp. rewrite Hk in Hp. injection Hp as ->. done.
  - rewrite (alive_delete _ k m Hk). unfold one, live. rewrite Hid. by destruct (at_root m).
Qed.

Lemma update_message_effect id message s own :
  tree_ok (agent_tree s) →
  let s' := update_last_task_message id message s in
  tree_ok (agent_tree s') ∧ keeps own (agent_tree s) (agent_tree s') ∧
  alive (agent_tree s') = alive (agent_tree s) ∧ total_count s' = total_count s.
Proof.
  intros Ht. unfold update_last_task_message. destruct (find_thread id (agent_tree s)) as [[k m]|] eqn:Hf;
    cbn; [|by split_and!; try apply keeps_refl].
  apply find_thread_Some in Hf as [Hk Hid]. set (m' := {| agent_id := agent_id m |}).
  split_and!; [|apply keeps_insert| |done].
  - apply map_Forall_insert_2; [|done]. pose proof (Ht k m Hk) as He. unfold entry_ok in *. cbn. exact He.
  - intros p -> _ _ Hp. rewrite Hk in Hp. injection Hp as ->. done.
  - pose proof (alive_replace _ k m m' Hk) as Ha. assert (one m' = one m) by done. lia.
Qed.

Lemma reserve_path_effect p s s' own :
  tree_ok (agent_tree s) → good_path p → reserve_agent_path p s = (Ok (), s') →
  tree_ok (agent_tree s') ∧ keeps own (agent_tree s) (agent_tree s') ∧
  alive (agent_tree s') = alive (agent_tree s) ∧ total_count s' = total_count s ∧
  agent_tree s !! p = None ∧ agent_tree s' !! p = Some (placeholder p).
Proof.
  intros Ht Hg. unfold reserve_agent_path. destruct (agent_tree s !! p) eqn:Hp; [done|]. intros [= <-].
  cbn [agent_tree with_tree total_count].
  split_and!; [|apply keeps_insert|by rewrite alive_insert|done|done|apply lookup_insert_eq].
  - apply map_Forall_insert_2; [|done]. split; [done|apply Hg].
  - intros q <- _ _ Hq. congruence.
Qed.

Lemma release_path_effect p s :
  tree_ok (agent_tree s) → agent_tree s !! p = Some (placeholder p) →
  let s' := release_reserved_agent_path p s in
  tree_ok (agent_tree s') ∧ keeps (Some p) (agent_tree s) (agent_tree s') ∧
  alive (agent_tree s') = alive (agent_tree s) ∧ total_count s' = total_count s.
Proof.
  intros Ht Hp. unfold release_reserved_agent_path. rewrite Hp. cbn.
  split_and!; [by apply map_Forall_delete|apply keeps_delete|by rewrite (alive_delete _ _ _ Hp)|done].
  by intros q <-.
Qed.

Lemma nickname_effect choose l pref s o s' :
  reserve_agent_nickname choose l pref s = (o, s') →
  agent_tree s' = agent_tree s ∧ total_count s' = total_count s.
Proof.
  unfold reserve_agent_nickname. destruct pref; [by intros [= <- <-]|]. destruct (is_empty l); [by intros [= <- <-]|].
  destruct (choose _); [by intros [= <- <-]|]. destruct (choose _); by intros [= <- <-].
Qed.

(** An agent comes to life at its placeholder, or at the key of its thread. *)
Lemma register_spawned_effect id m s :
  tree_ok (agent_tree s) → agent_id m = Some id →
  (∀ k m', agent_tree s !! k = Some m' → agent_id m' ≠ Some id) →
  (∀ p, agent_path m = Some p → agent_tree s !! p = Some (placeholder p) ∧ good_path p) →
  let s' := register_spawned_thread m s in
  tree_ok (agent_tree s') ∧ keeps (agent_path m) (agent_tree s) (agent_tree s') ∧
  alive (agent_tree s') = S (alive (agent_tree s)) ∧ total_count s' = total_count s.
Proof.
  intros Ht Hid Hnew Hpath. unfold register_spawned_thread. rewrite Hid.
  set (s1 := match agent_nickname m with Some _ => _ | None => s end).
  assert (Hs1 : agent_tree s1 = agent_tree s ∧ total_count s1 = total_count s) by (unfold s1; by destruct (agent_nickname m)).
  destruct Hs1 as [Hs1 Hc1]. cbn. rewrite Hs1.
  assert (Hlive : one m = 1).
  { unfold one, live, at_root. rewrite Hid. destruct (agent_path m) as [p|]; [|done].
    destruct (Hpath p eq_refl) as [_ [_ ->]]. done. }
  destruct (agent_path m) as [p|] eqn:Hp; cbn.
  - destruct (Hpath p eq_refl) as [Hph Hg]. split_and!; [|apply keeps_insert| |done].
    + apply map_Forall_insert_2; [|done]. unfold entry_ok. rewrite Hp. split; [done|apply Hg].
    + by intros q <-.
    + pose proof (alive_replace _ p _ m Hph) as Ha. assert (one (placeholder p) = 0) by done. lia.
  - split_and!; [|apply keeps_insert| |done].
    + apply map_Forall_insert_2; [|done]. unfold entry_ok. rewrite Hp. eauto.
    + intros q Hq Hg _ _. exact (thread_key_bad id q Hq Hg).
    + rewrite alive_insert; [lia|]. destruct (agent_tree s !! thread_key id) as [m'|] eqn:Hk; [|done].
      exfalso. pose proof (Ht _ _ Hk) as He. unfold entry_ok in He. destruct (agent_path m').
      * destruct He as [<- ?]. done.
      * destruct He as (id' & Hid' & Heq). apply (Hnew _ _ Hk). unfold thread_key in Heq.
        apply app_inv_head in Heq. by subst.
Qed.

(** ** One action *)

Record effect (s : AgentRegistry) (t : Task) (s' : AgentRegistry) (t' : Task) : Prop := {
  eff_tree : tree_ok (agent_tree s');
  eff_task : task_ok (agent_tree s') t';
  eff_keeps : keeps (held_path t) (agent_tree s) (agent_tree s');
  eff_held : held_path t' = None ∨ held_path t' = held_path t ∨
             ∃ p, held_path t' = Some p ∧ good_path p ∧ agent_tree s !! p = None;
  eff_count : (total_count s' + Z.of_nat (weight t + alive (agent_tree s)) =
               total_count s + Z.of_nat (weight t' + alive (agent_tree s')))%Z;
  eff_begun : weight t' + alive (agent_tree s') + begun t ≤ weight t + alive (agent_tree s) + begun t' }.

(** The counter is in range, with room for a spawn that has not begun and with
    the slot of a task that holds one. *)
Definition roomy (s : AgentRegistry) (t : Task) : Prop :=
  (0 <= total_count s < 2 ^ 64)%Z ∧
  (begun t = 0 → (total_count s + 1 < 2 ^ 64)%Z) ∧ (weight t = 1 → (1 <= total_count s)%Z).

(** An action on the counter alone. *)
Lemma count_effect s t n t' :
  tree_ok (agent_tree s) → task_ok (agent_tree s) t' → held_path t' = None →
  (n + Z.of_nat (weight t) = total_count s + Z.of_nat (weight t'))%Z → weight t' + begun t ≤ weight t + begun t' →
  effect s t (with_count s n) t'.
Proof. intros Ht Hok Hh Hc Hb. split; cbn; [done..|apply keeps_refl|by left|lia|lia]. Qed.

(** An action on the tree, or on the nicknames. *)
Lemma tree_effect s t s' t' :
  tree_ok (agent_tree s') → keeps (held_path t) (agent_tree s) (agent_tree s') →
  total_count s' = total_count s → task_ok (agent_tree s') t' →
  (held_path t' = None ∨ held_path t' = held_path t ∨
   ∃ p, held_path t' = Some p ∧ good_path p ∧ agent_tree s !! p = None) →
  weight t + alive (agent_tree s) = weight t' + alive (agent_tree s') → begun t ≤ begun t' →
  effect s t s' t'.
Proof. intros. split; [done..|lia|lia]. Qed.

Lemma no_effect s t t' :
  tree_ok (agent_tree s) → task_ok (agent_tree s) t' → held_path t' = None ∨ held_path t' = held_path t →
  weight t = weight t' → begun t ≤ begun t' → effect s t s t'.
Proof. intros. apply tree_effect; try done; [apply keeps_refl|tauto|lia]. Qed.

Lemma task_ok_free tree t : held_path t = None → task_ok tree t ↔ task_ok ∅ t.
Proof. intros Hh. unfold task_ok. rewrite Hh. split; intros [_ H]; (split; [done|exact H]). Qed.

(** The effect of an action that leaves the registry alone, that changes the
    tree as the lemma before says, or that changes the counter. *)
Ltac by_none := apply no_effect; [done|split; done|by left|done|done].
Ltac by_tree := apply tree_effect; [done..|split; done|by left|cbn in *; lia|done].
Ltac by_count :=
  apply count_effect; [done|split; done|done| |cbn; lia];
  unfold wrap_usize; rewrite Z.mod_small by (cbn in *; lia); cbn; lia.

(** The actions of a spawn up to its reservations. *)
Lemma reserve_effect s sp s' t' :
  tree_ok (agent_tree s) → spawn_ok sp → act s (SpawnPath sp) s' t' → effect s (SpawnPath sp) s' t'.
Proof.
  intros Ht Hsp Ha. inversion Ha as [| | | | | | |? ? Hp|? ? p ? Hp Hre|? ? p e ? Hp Hre| | | | | | | | | | |]; subst.
  - apply no_effect; [done| |left; cbn; by rewrite Hp|done|done]. split; [cbn; by rewrite Hp|done].
  - destruct (reserve_path_effect p s s' None Ht (Hsp p Hp) Hre) as (H1 & H2 & H3 & H4 & H5 & H6).
    apply tree_effect; [done..| | |cbn; lia|done].
    + split; [|done]. cbn. rewrite Hp. intros q [= <-]. split; [done|by apply Hsp].
    + right. right. exists p. split_and!; [done|by apply Hsp|done].
  - unfold reserve_agent_path in Hre. destruct (agent_tree s !! p); [|done]. injection Hre as _ <-. by_none.
Qed.

Lemma act_effect s t s' t' :
  act s t s' t' → tree_ok (agent_tree s) → task_ok (agent_tree s) t → roomy s t → effect s t s' t'.
Proof.
  intros Ha Ht Hok (Hr & Hadd & Hsub). pose proof Hok as [Hheld Hmore]. pose proof Ha as Ha'.
  destruct Ha as [s r Hm|s r max Hm|s r max cur Hc|s r max cur Hc He|s r max cur Hc|s r Hs|s r sp Hs|s sp Hp
    |s sp p s' Hp Hre|s sp p e s' Hp Hre|s sp ch n s' Hn|s sp ch s' Hn|s m id Hnew|s m|s p|s|s id s' Hrm|s id s' Hrm
    |s|s id|s id msg]; cbn [held_path] in *; try by_none; try (by apply reserve_effect).
  - by_count.
  - by_count.
  - destruct (register_root_effect (parent_thread_id sp) s None Ht) as (H1 & H2 & H3 & H4).
    destruct (depth sp =? 1)%Z; [|apply no_effect; [done| |by left|done|done]; split; [done|by apply Hmore]].
    apply tree_effect; [done..|split; [done|by apply Hmore]|by left|cbn; lia|done].
  - apply nickname_effect in Hn as [H1 H2].
    apply tree_effect; rewrite ?H1; [done|apply keeps_refl|done|split; done|by right; left|done|done].
  - apply nickname_effect in Hn as [H1 H2].
    apply tree_effect; rewrite ?H1; [done|apply keeps_refl|done|split; done|by right; left|done|done].
  - destruct (register_spawned_effect id (with_id m id) s Ht eq_refl Hnew Hheld) as (H1 & H2 & H3 & H4). by_tree.
  - apply no_effect; [done|split; done|by right|done|done].
  - destruct p as [p|]; [|by_none].
    destruct (release_path_effect p s Ht (proj1 (Hheld p eq_refl))) as (H1 & H2 & H3 & H4). by_tree.
  - by_count.
  - destruct (remove_thread_effect id s None true s' Ht Hrm) as (H1 & H2 & H3 & H4). by_tree.
  - destruct (remove_thread_effect id s None false s' Ht Hrm) as (H1 & H2 & H3 & H4). by_tree.
  - by_count.
  - destruct (register_root_effect id s None Ht) as (H1 & H2 & H3 & H4). by_tree.
  - destruct (update_message_effect id msg s None Ht) as (H1 & H2 & H3 & H4). by_tree.
Qed.

(** ** All runs *)

Lemma ok_roomy c i t : system_ok c → tasks c !! i = Some t → roomy (registry c) t.
Proof.
  intros [_ _ _ Hc Hb Hl] Hi. pose proof (total_begun (tasks c)) as Hle.
  pose proof (total_update weight (tasks c) i t Failed Hi) as Hw. cbn [weight] in Hw.
  split; [lia|]. split; [|intros Ht; rewrite Ht in Hw; lia]. intros Ht.
  pose proof (total_update begun (tasks c) i t (Spawned []) Hi) as Hbu. cbn [begun] in Hbu.
  pose proof (total_begun (<[i := Spawned []]> (tasks c))) as Hle'. rewrite length_insert in Hle'. lia.
Qed.

(** The other tasks keep what they know. *)
Lemma others_ok s t s' t' ts i :
  ts !! i = Some t → NoDup (omap held_path ts) → keeps (held_path t) (agent_tree s) (agent_tree s') →
  Forall (task_ok (agent_tree s)) ts → task_ok (agent_tree s') t' → Forall (task_ok (agent_tree s')) (<[i := t']> ts).
Proof.
  intros Hi Hnd Hk Hts Ht'. apply Forall_lookup. intros j u Hj.
  destruct (decide (i = j)) as [<-|Hne].
  { rewrite list_lookup_insert_eq in Hj by (by eapply lookup_lt_Some). by injection Hj as <-. }
  rewrite list_lookup_insert_ne in Hj by done.
  destruct (Forall_lookup_1 _ _ _ _ Hts Hj) as [Hheld Hmore]. split; [|done].
  intros p Hp. destruct (Hheld p Hp) as [Htr Hg]. split; [|done]. apply Hk; [done..|]. intros Heq.
  apply Hne. revert Hnd Hi Hj Heq Hp. clear. revert i j.
  induction ts as [|x ts IH]; intros [|i] [|j] Hnd Hi Hj Ht Hu; try done; rewrite omap_cons_app in Hnd;
    apply NoDup_app in Hnd as (_ & Hdis & Hnd).
  - exfalso. injection Hi as ->. apply (Hdis p); [rewrite Ht; by left|].
    apply list_elem_of_omap. exists u. split; [by eapply list_elem_of_lookup_2|done].
  - exfalso. injection Hj as ->. apply (Hdis p); [rewrite Hu; by left|].
    apply list_elem_of_omap. exists t. split; [by eapply list_elem_of_lookup_2|done].
  - f_equal. by apply (IH i j).
Qed.

Lemma step_agents_ok c c' : step c c' → system_ok c → system_ok c'.
Proof.
  intros [s ts i t s' t' Hi Ha] Hok. pose proof (ok_roomy _ i t Hok Hi) as Hroom.
  destruct Hok as [Ht Hts Hp Hc Hb Hl]. cbn [registry tasks] in *.
  destruct (act_effect s t s' t' Ha Ht (Forall_lookup_1 _ _ _ _ Hts Hi) Hroom) as [E1 E2 E3 E4 E5 E6].
  pose proof (total_update weight ts i t t' Hi) as Hw. pose proof (total_update begun ts i t t' Hi) as Hbe.
  split; cbn [registry tasks]; [done|by eapply others_ok| |lia|lia|by rewrite length_insert].
  eapply NoDup_omap_update; [done..|]. destruct E4 as [?|[?|(p & Hh & Hg & Hfree)]]; [by left|by right; left|].
  right. right. exists p. split; [done|]. intros Hin. apply list_elem_of_omap in Hin as (u & Hu & Hhu).
  rewrite Forall_forall in Hts. destruct (Hts u Hu) as [Hheld _]. destruct (Hheld p Hhu) as [? _]. congruence.
Qed.

Lemma from_string_slash p : from_string p = Ok p → starts_with $"/" p = true.
Proof.
  unfold from_string, validate_absolute_path. destruct (p =?s MORPHEUS) eqn:Hm; [by apply str_eqb_eq in Hm as ->|].
  destruct (strip_prefix [SLASH] p) eqn:Hs; [|done]. intros _. apply strip_prefix_Some in Hs as ->. done.
Qed.

Lemma starting_weight ts : Forall starting ts → total weight ts = 0.
Proof. induction 1 as [|t ts Ht _ IH]; [done|]. cbn. rewrite IH. by destruct t. Qed.

Lemma initial_agents_ok c : initial c → system_ok c.
Proof.
  intros (Hr & Hs & Hl). split; rewrite ?Hr; [apply map_Forall_empty| | | | |done].
  - eapply Forall_impl; [exact Hs|]. intros t Ht. split; [by destruct t|]. destruct t as [r| | | | | | | | | | | | | |]; try done.
    intros sp Hsp p Hp. cbn in Ht. rewrite Hsp, Hp in Ht. split; [apply from_string_slash, Ht|apply Ht].
  - enough (omap held_path (tasks c) = []) as -> by constructor.
    clear -Hs. induction Hs as [|t ts Ht _ IH]; [done|]. cbn. by destruct t.
  - cbn. by rewrite (starting_weight _ Hs).
  - cbn. rewrite (starting_weight _ Hs). apply Nat.le_0_l.
Qed.

Lemma reachable_agents_ok c : reachable c → system_ok c.
Proof.
  intros (c0 & H0 & Hrun). apply initial_agents_ok in H0. revert H0.
  induction Hrun as [|c1 c2 c3 Hs _ IH]; intros H0; [done|]. apply IH. by eapply step_agents_ok.
Qed.

(** ** Theorems *)

(** However any number of spawns, releases and messages interleave: the counter
    is the number of live agents plus the slots on their way in or out, and has
    not wrapped around; every reserved path is in the tree for its spawn alone,
    and no two spawns hold one; and when no task is under way the counter is the
    number of live agents, so that no slot is lost. *)
Theorem registry_counts c :
  reachable c →
  total_count (registry c) = Z.of_nat (total weight (tasks c) + length (live_agents (registry c))) ∧
  (∀ t p, t ∈ tasks c → held_path t = Some p → agent_tree (registry c) !! p = Some (placeholder p)) ∧
  NoDup (omap held_path (tasks c)) ∧
  ((∀ t, t ∈ tasks c → weight t = 0) → total_count (registry c) = Z.of_nat (length (live_agents (registry c)))).
Proof.
  intros [Ht Hts Hp Hc Hb Hl]%reachable_agents_ok. rewrite <-alive_live_agents. split_and!; [done| |done|].
  - intros t p Hin Hh. rewrite Forall_forall in Hts. by apply (Hts t Hin).
  - intros Hw. rewrite Hc. enough (total weight (tasks c) = 0) as -> by done. clear -Hw.
    induction (tasks c) as [|t ts IH]; [done|]. cbn. rewrite (Hw t) by left. apply IH. intros u Hu. apply Hw. by right.
Qed.

Lemma act_limited M s t s' t' :
  act s t s' t' → roomy s t → limited M t → (total_count s <= M)%Z → limited M t' ∧ (total_count s' <= M)%Z.
Proof.
  intros Ha (Hr & Hadd & Hsub) Hlim Hle.
  destruct Ha as [s r Hm|s r max Hm|s r max cur Hc|s r max cur Hc He|s r max cur Hc|s r Hs|s r sp Hs|s sp Hp
    |s sp p s' Hp Hre|s sp p e s' Hp Hre|s sp ch n s' Hn|s sp ch s' Hn|s m id Hnew|s m|s p|s|s id s' Hrm|s id s' Hrm
    |s|s id|s id msg]; cbn [limited] in *; try done.
  - destruct Hlim as (max & Hmax & _). congruence.
  - destruct Hlim as (max' & Hmax & ?). split; [|done]. congruence.
  - split; [done|]. cbn. unfold wrap_usize. rewrite Z.mod_small by (cbn in *; lia). lia.
  - split; [done|]. destruct (depth sp =? 1)%Z; [|done].
    unfold register_root_thread. by destruct (agent_tree s !! ROOT).
  - unfold reserve_agent_path in Hre. destruct (agent_tree s !! p); [done|]. by injection Hre as <-.
  - unfold reserve_agent_path in Hre. destruct (agent_tree s !! p); [|done]. by injection Hre as _ <-.
  - apply nickname_effect in Hn as [_ ->]. done.
  - apply nickname_effect in Hn as [_ ->]. done.
  - split; [done|]. unfold register_spawned_thread. cbn. by destruct (agent_nickname m).
  - split; [done|]. destruct p as [p|]; [|done]. unfold release_reserved_agent_path.
    destruct (agent_tree s !! p) as [m|]; [|done]. by destruct (bool_decide _).
  - split; [done|]. cbn. unfold wrap_usize. rewrite Z.mod_small by (cbn in *; lia). lia.
  - unfold remove_thread in Hrm. destruct (find_thread id _) as [[k m]|]; [|done]. by injection Hrm as _ <-.
  - unfold remove_thread in Hrm. destruct (find_thread id _) as [[k m]|];
      [by injection Hrm as _ <-|by injection Hrm as <-].
  - split; [done|]. cbn. unfold wrap_usize. rewrite Z.mod_small by (cbn in *; lia). lia.
  - split; [done|]. unfold register_root_thread. by destruct (agent_tree s !! ROOT).
  - split; [done|]. unfold update_last_task_message. by destruct (find_thread id _) as [[k m]|].
Qed.

(** C27: If every spawn has a limit of at most [M], there are never more than [M]
    live agents and slots together, whatever the interleaving of the checks and
    the increments. *)
Theorem agent_limit_holds M c0 c :
  initial c0 → rtc step c0 c → Forall (limited M) (tasks c0) → (0 <= M)%Z →
  (Z.of_nat (total weight (tasks c) + length (live_agents (registry c))) <= M)%Z.
Proof.
  intros H0 Hrun Hlim HM.
  enough (H : system_ok c ∧ Forall (limited M) (tasks c) ∧ (total_count (registry c) <= M)%Z).
  { destruct H as ([_ _ _ Hc _ _] & _ & Hle). rewrite <-alive_live_agents, <-Hc. done. }
  assert (Hle : (total_count (registry c0) <= M)%Z) by (by destruct H0 as (-> & _)).
  apply initial_agents_ok in H0. revert H0 Hlim Hle.
  induction Hrun as [c|c1 c2 c3 Hs _ IH]; intros Hok Hlim Hle; [done|].
  apply IH; [by eapply step_agents_ok|..];
    (destruct Hs as [s ts i t s' t' Hi Ha]; pose proof (ok_roomy _ i t Hok Hi) as Hroom;
     destruct (act_limited M s t s' t' Ha Hroom (Forall_lookup_1 _ _ _ _ Hlim Hi) Hle)); [|done].
  by apply Forall_insert.
Qed.

(** A nickname that is not preferred is one nobody has used since the pool was
    last reset; the pool is reset exactly when all names are used up. *)
Lemma nickname_fresh choose l s n s' :
  (∀ x, x ≠ [] → ∃ y, choose x = Some y ∧ y ∈ x) → choose [] = None →
  reserve_agent_nickname choose l None s = (Some n, s') →
  n ∈ used_agent_nicknames s' ∧
  if bool_decide (nickname_reset_count s' = nickname_reset_count s) then n ∉ used_agent_nicknames s
  else ∀ x, x ∈ l → format_agent_nickname x (nickname_reset_count s) ∈ used_agent_nicknames s.
Proof.
  intros Hch Hnil. unfold reserve_agent_nickname. destruct (is_empty l); [done|].
  set (av := List.filter _ _). destruct (choose av) as [y|] eqn:Hc.
  - intros [= <- <-]. cbn. split; [set_solver|]. rewrite bool_decide_eq_true_2 by done.
    assert (Hav : av ≠ []) by (intros E; rewrite E, Hnil in Hc; done).
    destruct (Hch av Hav) as (y' & Hy & Hin). rewrite Hc in Hy. injection Hy as <-.
    apply list_elem_of_In, List.filter_In in Hin as [_ Hu]. by apply bool_decide_eq_true in Hu.
  - destruct (choose l) as [z|]; [|done]. intros [= <- <-]. cbn. split; [set_solver|].
    rewrite bool_decide_eq_false_2 by lia. intros x Hx.
    assert (Hav : av = []).
    { destruct av as [|a av'] eqn:E; [done|]. destruct (Hch (a :: av')) as (y & Hy & _); [done|congruence]. }
    destruct (decide (format_agent_nickname x (nickname_reset_count s) ∈ used_agent_nicknames s)) as [|Hno]; [done|].
    enough (format_agent_nickname x (nickname_reset_count s) ∈ av) as Hin by (rewrite Hav in Hin; by apply elem_of_nil in Hin).
    apply list_elem_of_In, List.filter_In. split; [|by apply bool_decide_eq_true_2].
    apply list_elem_of_In, list_elem_of_fmap. eauto.
Qed.

(** ** Paths *)

Lemma valid_name_spec n : validate_agent_name n = Ok () → n ≠ [] ∧ SLASH ∉ n.
Proof.
  unfold validate_agent_name. destruct (is_empty n) eqn:He; [done|]. apply is_empty_false in He.
  destruct (n =?s ROOT_SEGMENT); [done|]. destruct (_ || _); [done|].
  destruct (contains_char SLASH n) eqn:Hc; [done|]. intros _. split; [done|]. intros Hin.
  assert (contains_char SLASH n = true); [|congruence].
  unfold contains_char. apply existsb_exists. exists SLASH. split; [by apply list_elem_of_In|apply Z.eqb_refl].
Qed.

Lemma validate_segments_app l1 l2 :
  validate_segments l1 = Ok () → validate_segments (l1 ++ l2) = validate_segments l2.
Proof. induction l1 as [|x l1 IH]; [done|]. cbn [app validate_segments]. destruct (validate_agent_name x); [apply IH|done]. Qed.

(** Joining a name to the path of an agent below the root gives the path of an
    agent below the root again, which is not the root and whose name it is; and
    a name that is not valid is refused. *)
Theorem join_name_spec p n :
  from_string p = Ok p → p ≠ MORPHEUS →
  match validate_agent_name n with
  | Ok _ => join_name p n = Ok (p ++ [SLASH] ++ n) ∧ name (p ++ [SLASH] ++ n) = n ∧ is_root (p ++ [SLASH] ++ n) = false
  | Err e => join_name p n = Err e
  end.
Proof.
  intros Hp Hm. unfold join_name. destruct (validate_agent_name n) as [[]|e] eqn:Hn; [|done].
  destruct (valid_name_spec n Hn) as [Hne Hns].
  unfold from_string, validate_absolute_path in Hp. rewrite (str_eqb_neq _ _ Hm) in Hp.
  destruct (strip_prefix [SLASH] p) as [r|] eqn:Hs; [|done]. apply strip_prefix_Some in Hs as ->.
  destruct (split_on SLASH r) as [|root segs] eqn:Hr; [done|].
  destruct (root =?s ROOT_SEGMENT) eqn:Hroot; [|done]. cbn [negb] in Hp.
  destruct (ends_with [SLASH] r) eqn:He; [done|].
  destruct (validate_segments segs) as [[]|] eqn:Hv; [|done]. clear Hp.
  assert (Hsp : split_on SLASH (r ++ SLASH :: n) = root :: segs ++ [n]).
  { by rewrite split_on_app, Hr, (split_on_no_sep _ n Hns). }
  assert (Hend : ends_with [SLASH] (r ++ SLASH :: n) = false).
  { apply not_true_iff_false. intros (q & Hq)%ends_with_true. destruct n as [|a n'] using rev_ind; [done|].
    rewrite app_comm_cons, app_assoc in Hq. apply app_inj_tail in Hq as [_ ->]. apply Hns. set_solver. }
  assert (Hnr : is_root (SLASH :: r ++ SLASH :: n) = false).
  { apply str_eqb_neq. intros Heq. injection Heq as Heq. apply (f_equal (split_on SLASH)) in Heq.
    rewrite Hsp in Heq. vm_compute in Heq. injection Heq as _ Heq. by destruct segs. }
  split_and!.
  - unfold from_string, validate_absolute_path. rewrite str_eqb_neq.
    + cbn [app]. change (strip_prefix [SLASH] (SLASH :: r ++ SLASH :: n)) with (Some (r ++ SLASH :: n)).
      cbn beta iota. rewrite Hsp, Hroot, Hend. cbn [negb]. by rewrite (validate_segments_app _ _ Hv); cbn [validate_segments]; rewrite Hn.
    + intros Heq. injection Heq as Heq. apply (f_equal (split_on SLASH)) in Heq. rewrite Hsp in Heq.
      vm_compute in Heq. injection Heq as _ Heq. by destruct segs.
  - unfold name. cbn [app]. rewrite Hnr. change (SLASH :: r ++ SLASH :: n) with ((SLASH :: r) ++ SLASH :: n).
    rewrite split_on_app, (split_on_no_sep _ n Hns), last_snoc. by rewrite (proj2 (is_empty_false n) Hne).
  - exact Hnr.
Qed.

Lemma join_name_spec_witness :
  join_name $"/root/research" $"task_3" = Ok ($"/root/research" ++ [SLASH] ++ $"task_3") ∧
  name ($"/root/research" ++ [SLASH] ++ $"task_3") = $"task_3" ∧
  is_root ($"/root/research" ++ [SLASH] ++ $"task_3") = false.
Proof. apply (join_name_spec $"/root/research" $"task_3"); [vm_compute; reflexivity|discriminate]. Defined.

Example root_name_refused :
  join_name ROOT $"root" = Err $"agent_name `root` is reserved" ∧
  join_name MORPHEUS $"x" = Err $"absolute agent paths must start with `/root` or be `/morpheus`" ∧
  resolve $"/root/a" $"b/c" = Ok $"/root/a/b/c" ∧ resolve $"/root/a" ROOT = Ok ROOT.
Proof. split_and!; vm_compute; reflexivity. Qed.

Example second_round_of_names :
  format_agent_nickname $"Ada" 1 = $"Ada the 2nd" ∧ format_agent_nickname $"Ada" 11 = $"Ada the 12th" ∧
  format_agent_nickname $"Ada" 22 = $"Ada the 23rd".
Proof. split_and!; vm_compute; reflexivity. Qed.

(** Two spawns with a limit of one agent that read the counter at the same time:
    one gets the slot, the other is refused. *)
Definition demo_request : Request :=
  {| max_threads := Some 1%Z;
     source := Some {| parent_thread_id := $"t0"; depth := 1; path := Some $"/root/a"; role := None;
                       names := [ $"Ada"]; preferred := None |} |}.

Definition demo_start : System :=
  {| registry := default_registry; tasks := [SpawnStart demo_request; SpawnStart demo_request] |}.

Definition demo_end : System :=
  {| registry :=
       {| agent_tree := {[ $"/root" := {| agent_id := Some $"t0"; agent_path := Some $"/root"; agent_nickname := None;
                                          agent_role := None; last_task_message := None |};
                           $"/root/a" := {| agent_id := Some $"t1"; agent_path := Some $"/root/a";
                                            agent_nickname := Some $"Ada"; agent_role := None;
                                            last_task_message := None |} ]};
          used_agent_nicknames := {[ $"Ada" ]}; nickname_reset_count := 0; total_count := 1 |};
     tasks := [Spawned $"t1"; Failed] |}.

Lemma fresh_check (id : rstring) (t : gmap rstring AgentMetadata) :
  bool_decide (map_Forall (λ _ m, agent_id m ≠ Some id) t) = true →
  ∀ (k : rstring) (m' : AgentMetadata), t !! k = Some m' → agent_id m' ≠ Some id.
Proof. intros H%bool_decide_eq_true. exact H. Qed.

(** Task [i] takes the action [a]. *)
Tactic Notation "agent_step" constr(i) uconstr(a) :=
  eapply rtc_l; [eapply (Step _ _ i); [reflexivity|eapply a; first [reflexivity|idtac]]|cbn [insert list_insert]].

Lemma demo_run : rtc step demo_start demo_end.
Proof.
  unfold demo_start.
  agent_step 0 act_load. agent_step 1 act_load. agent_step 0 act_cas.
  agent_step 1 act_cas_fails. agent_step 1 act_full.
  agent_step 0 act_prepare. agent_step 0 act_path.
  agent_step 0 (act_nick _ _ head). agent_step 0 (act_commit _ _ $"t1").
  { apply fresh_check. vm_compute. reflexivity. }
  match goal with |- rtc step ?c demo_end => replace c with demo_end; [apply rtc_refl|] end.
  vm_compute. reflexivity.
Qed.

Lemma demo_initial : initial demo_start.
Proof.
  split; [reflexivity|]. split; [|vm_compute; reflexivity].
  do 2 (constructor; [split; vm_compute; reflexivity|]). constructor.
Qed.

Lemma registry_counts_witness :
  total_count (registry demo_end) =
    Z.of_nat (total weight (tasks demo_end) + length (live_agents (registry demo_end))).
Proof.
  refine (proj1 (registry_counts demo_end _)). exists demo_start. split; [apply demo_initial|apply demo_run].
Defined.

Lemma agent_limit_holds_witness :
  (Z.of_nat (total weight (tasks demo_end) + length (live_agents (registry demo_end))) <= 1)%Z.
Proof.
  apply (agent_limit_holds 1 demo_start demo_end);
    [apply demo_initial|apply demo_run| |vm_compute; discriminate].
  repeat constructor; exists 1%Z; (split; [reflexivity|vm_compute; discriminate]).
Defined.

End AgentTheorems.
