(* ===== verification/RolloutTruncation.v ===== *)
(** * Truncating rollouts at turns (core/src/thread_rollout_truncation.rs)

    A rollout is the record of a thread: items of the conversation and events,
    among them markers that the last turns were rolled back.  Forking a thread
    keeps the last turns of its rollout; editing an earlier message keeps what
    precedes it.  Module [Rollout] has the walks that find the turns, which have
    to take the rollbacks into account, and the truncations.

    Theorems: the walk for forks finds exactly the fork turns of the history
    that is left when every rollback drops the turns it says; and the rollout
    that is kept for a fork has exactly the turns asked for.  The walk for user
    messages counts rollbacks in other turns than they were made in, which is
    recorded as an example. *)

From S2P Require Import Prelude ResponseItems.

Module Rollout.
Import Items.

(** The fields that matter of InterAgentCommunication. *)
Record InterAgentCommunication := {
  author : rstring;
  recipient : rstring;
  other_recipients : list rstring;
  ia_content : rstring;
  trigger_turn : bool }.

(** [OtherItem] stands for the session's metadata, turn contexts, compactions and
    the other events, which the walks pass over. *)
Inductive RolloutItem (Value : Type) :=
| RResponseItem (item : ResponseItem Value)
| ThreadRolledBack (num_turns : nat)
| OtherItem.
Arguments RResponseItem {Value} item.
Arguments ThreadRolledBack {Value} num_turns.
Arguments OtherItem {Value}.

Inductive InitialHistory (Value : Type) :=
| New
| Cleared
| Resumed (history : list (RolloutItem Value))
| Forked (items : list (RolloutItem Value)).
Arguments New {Value}.
Arguments Cleared {Value}.
Arguments Resumed {Value} history.
Arguments Forked {Value} items.

Section rollout.
Context {Value : Type}.
Implicit Types items : list (RolloutItem Value).

(** The XML parser of hook prompts, and the JSON parser of messages between
    agents. *)
Context (from_xml_str : rstring → option (rstring * rstring)).
Context (from_json : rstring → option InterAgentCommunication).

Definition from_message_content (content : list ContentItem) : option InterAgentCommunication :=
  match content with
  | [MsgInputText text] | [MsgOutputText text] => from_json text
  | _ => None
  end.

Definition turn_boundary (item : ResponseItem Value) : bool :=
  is_user_turn_boundary from_xml_str (λ text, bool_decide (is_Some (from_json text))) item.

(** The loop of [parse_visible_hook_prompt_message]: its fragments. *)
Fixpoint hook_fragments (content : list ContentItem) : option (list (rstring * rstring)) :=
  match content with
  | [] => Some []
  | MsgInputText text :: content =>
      match parse_hook_prompt_fragment from_xml_str text with
      | Some fragment => l ← hook_fragments content; Some (fragment :: l)
      | None => if is_standard_contextual_user_text text then hook_fragments content else None
      end
  | _ :: _ => None
  end.

Definition parse_visible_hook_prompt_message (content : list ContentItem) : option (list (rstring * rstring)) :=
  fragments ← hook_fragments content;
  if is_empty fragments then None else Some fragments.

(** [matches!(parse_turn_item(item), Some(TurnItem::UserMessage(_)))]. *)
Definition is_real_user_message_boundary (item : ResponseItem Value) : bool :=
  match item with
  | Message _ role content _ =>
      (role =?s $"user") && bool_decide (parse_visible_hook_prompt_message content = None)
      && negb (is_contextual_user_message_content from_xml_str content)
  | _ => false
  end.

Definition is_trigger_turn_boundary (item : ResponseItem Value) : bool :=
  match item with
  | Message _ role content _ =>
      (role =?s $"assistant")
      && match from_message_content content with Some c => trigger_turn c | None => false end
  | _ => false
  end.

Definition rollout_item_is_user_turn_boundary (item : RolloutItem Value) : bool :=
  match item with RResponseItem item => turn_boundary item | _ => false end.

(** With [InitialHistory::scan_rollout_items]. *)
Definition initial_history_has_prior_user_turns (h : InitialHistory Value) : bool :=
  match h with
  | New | Cleared => false
  | Resumed history => existsb rollout_item_is_user_turn_boundary history
  | Forked items => existsb rollout_item_is_user_turn_boundary items
  end.

(** One round of the walk for user messages. *)
Definition user_step (idx : nat) (item : RolloutItem Value) (user_positions : list nat) : list nat :=
  match item with
  | RResponseItem item =>
      if is_real_user_message_boundary item then user_positions ++ [idx] else user_positions
  | ThreadRolledBack num_turns => take (length user_positions - num_turns) user_positions
  | OtherItem => user_positions
  end.

Fixpoint user_walk (idx : nat) items (user_positions : list nat) : list nat :=
  match items with
  | [] => user_positions
  | item :: items => user_walk (S idx) items (user_step idx item user_positions)
  end.

Definition user_message_positions_in_rollout items : list nat := user_walk 0 items [].

(** One round of the walk for forks: the turns a rollback counts, and the fork
    turns. *)
Definition fork_step (idx : nat) (item : RolloutItem Value) (st : list nat * list nat) : list nat * list nat :=
  let '(rollback_turn_positions, fork_turn_positions) := st in
  match item with
  | RResponseItem item =>
      (if turn_boundary item then rollback_turn_positions ++ [idx] else rollback_turn_positions,
       if is_real_user_message_boundary item || is_trigger_turn_boundary item
       then fork_turn_positions ++ [idx] else fork_turn_positions)
  | ThreadRolledBack num_turns =>
      if num_turns =? 0 then st
      else
        match (if num_turns <=? length rollback_turn_positions
               then rollback_turn_positions !! (length rollback_turn_positions - num_turns)
               else head rollback_turn_positions) with
        | None => st
        | Some rollback_start_idx =>
            (take (length rollback_turn_positions - num_turns) rollback_turn_positions,
             List.filter (λ position, position <? rollback_start_idx) fork_turn_positions)
        end
  | OtherItem => st
  end.

Fixpoint fork_walk (idx : nat) items (st : list nat * list nat) : list nat * list nat :=
  match items with
  | [] => st
  | item :: items => fork_walk (S idx) items (fork_step idx item st)
  end.

Definition fork_turn_positions_in_rollout items : list nat := (fork_walk 0 items ([], [])).2.

(** [None] stands for [usize::MAX], which is no truncation. *)
Definition truncate_rollout_before_nth_user_message_from_start items (n_from_start : option nat)
  : list (RolloutItem Value) :=
  match n_from_start with
  | None => items
  | Some n_from_start =>
      match user_message_positions_in_rollout items !! n_from_start with
      | None => items
      | Some cut_idx => take cut_idx items
      end
  end.

(** The index is in range, the number being between one and the length. *)
Definition truncate_rollout_to_last_n_fork_turns items (n_from_end : nat) : list (RolloutItem Value) :=
  if n_from_end =? 0 then []
  else
    let fork_turn_positions := fork_turn_positions_in_rollout items in
    if length fork_turn_positions <=? n_from_end then items
    else
      match fork_turn_positions !! (length fork_turn_positions - n_from_end) with
      | Some keep_idx => drop keep_idx items
      | None => items
      end.

(** ** The history that is left *)

Definition fork_boundary (item : ResponseItem Value) : bool :=
  is_real_user_message_boundary item || is_trigger_turn_boundary item.

(** A conversation with the positions of its items in the rollout. *)
Abbreviation Placed := (list (nat * ResponseItem Value)).

Definition turns (f : ResponseItem Value → bool) (h : Placed) : list nat :=
  fst <$> List.filter (λ e, f e.2) h.

(** Where the last [n] of some turns begin, or all of them. *)
Definition start_of (n : nat) (l : list nat) : option nat :=
  if n <=? length l then l !! (length l - n) else head l.

(** A rollback drops the items from the beginning of its turns on. *)
Definition roll_back (n : nat) (h : Placed) : Placed :=
  if n =? 0 then h
  else match start_of n (turns turn_boundary h) with
       | None => h
       | Some start => List.filter (λ e, e.1 <? start) h
       end.

Fixpoint replay (idx : nat) items (h : Placed) : Placed :=
  match items with
  | [] => h
  | RResponseItem item :: items => replay (S idx) items (h ++ [(idx, item)])
  | ThreadRolledBack n :: items => replay (S idx) items (roll_back n h)
  | OtherItem :: items => replay (S idx) items h
  end.

(** ** Sorted positions *)

Lemma filter_comm {A} (f g : A → bool) l : List.filter f (List.filter g l) = List.filter g (List.filter f l).
Proof.
  induction l as [|x l IH]; [done|]. cbn. destruct (f x) eqn:Hf, (g x) eqn:Hg; cbn; rewrite ?Hf, ?Hg, IH; done.
Qed.

Lemma filter_map {A B} (g : A → B) (f : B → bool) l : List.filter f (g <$> l) = g <$> List.filter (λ x, f (g x)) l.
Proof. induction l as [|x l IH]; [done|]. cbn. rewrite IH. by destruct (f (g x)). Qed.

Lemma filter_below_take (l : list nat) k x :
  StronglySorted (<) l → l !! k = Some x → List.filter (λ y, y <? x) l = take k l.
Proof.
  revert k. induction l as [|y l IH]; intros k Hs Hk; [done|]. inversion Hs as [|? ? Hs' Hf]; subst.
  rewrite Forall_forall in Hf. destruct k as [|k]; cbn [List.filter take].
  - injection Hk as ->. rewrite (proj2 (Nat.ltb_ge x x)) by lia.
    clear -Hf. induction l as [|z l IH]; [done|]. cbn [List.filter]. rewrite (proj2 (Nat.ltb_ge z x)).
    + apply IH. intros w Hw. apply Hf. by right.
    + pose proof (Hf z ltac:(left)). lia.
  - assert (y < x) by (apply Hf; by eapply list_elem_of_lookup_2). rewrite (proj2 (Nat.ltb_lt y x)) by lia.
    f_equal. by apply IH.
Qed.

(** The truncation of the walk is the restriction to what precedes the start. *)
Lemma take_is_below (l : list nat) n start :
  StronglySorted (<) l → n ≠ 0 → start_of n l = Some start →
  take (length l - n) l = List.filter (λ y, y <? start) l.
Proof.
  intros Hs Hn Hst. unfold start_of in Hst. destruct (Nat.leb_spec n (length l)).
  - by rewrite (filter_below_take l (length l - n) start).
  - replace (length l - n) with 0 by lia. rewrite (filter_below_take l 0 start); [done|done|].
    by destruct l.
Qed.

Lemma sorted_filter (f : nat → bool) l : StronglySorted (<) l → StronglySorted (<) (List.filter f l).
Proof.
  induction 1 as [|x l Hs IH Hf]; [constructor|]. cbn. destruct (f x); [|done]. constructor; [done|].
  rewrite Forall_forall in *. intros y Hy%list_elem_of_In%List.filter_In. apply Hf, list_elem_of_In, Hy.
Qed.

Lemma sorted_snoc l x : StronglySorted (<) l → Forall (λ y, y < x) l → StronglySorted (<) (l ++ [x]).
Proof.
  induction 1 as [|y l Hs IH Hf]; intros Hx; [repeat constructor|]. apply Forall_cons in Hx as [Hy Hx].
  cbn. constructor; [by apply IH|]. apply Forall_app_2; [done|by constructor].
Qed.

Lemma sorted_take (l : list nat) k : StronglySorted (<) l → StronglySorted (<) (take k l).
Proof.
  intros Hs. revert k. induction Hs as [|x l Hs IH Hf]; intros [|k]; try constructor; [apply IH|by apply Forall_take].
Qed.

(** ** The fork turns *)

Lemma turns_snoc f h idx item :
  turns f (h ++ [(idx, item)]) = if f item then turns f h ++ [idx] else turns f h.
Proof. unfold turns. rewrite List.filter_app, fmap_app. cbn. by destruct (f item); [|rewrite app_nil_r]. Qed.

Lemma turns_below f h start :
  turns f (List.filter (λ e, e.1 <? start) h) = List.filter (λ y, y <? start) (turns f h).
Proof. unfold turns. by rewrite filter_map, filter_comm. Qed.

(** A history in the order of its positions, all of them below [idx]. *)
Definition placed_ok (idx : nat) (h : Placed) : Prop :=
  StronglySorted (<) h.*1 ∧ Forall (λ i, i < idx) h.*1.

Lemma turns_sorted f idx h : placed_ok idx h → StronglySorted (<) (turns f h).
Proof.
  intros [Hs _]. unfold turns. clear -Hs. induction h as [|[i x] h IH]; [constructor|].
  cbn in *. inversion Hs as [|? ? Hs' Hf]; subst. destruct (f x); [|by apply IH]. cbn. constructor; [by apply IH|].
  rewrite Forall_forall in *. intros y ([j z] & -> & Hy%list_elem_of_In%List.filter_In)%list_elem_of_fmap.
  apply Hf, list_elem_of_fmap. exists (j, z). split; [done|]. apply list_elem_of_In, Hy.
Qed.

Lemma placed_filter idx h g : placed_ok idx h → placed_ok (S idx) (List.filter (λ e, g e.1) h).
Proof.
  intros [Hs Hb]. split.
  - rewrite <-filter_map. by apply sorted_filter.
  - rewrite <-filter_map. rewrite Forall_forall in *. intros y Hy%list_elem_of_In%List.filter_In.
    specialize (Hb y (proj2 (list_elem_of_In _ _) (proj1 Hy))). lia.
Qed.

Lemma placed_weaken idx h : placed_ok idx h → placed_ok (S idx) h.
Proof. intros [Hs Hb]. split; [done|]. eapply Forall_impl; [exact Hb|]. cbn. lia. Qed.

Lemma placed_snoc idx h item : placed_ok idx h → placed_ok (S idx) (h ++ [(idx, item)]).
Proof.
  intros [Hs Hb]. unfold placed_ok. rewrite !fmap_app. split; [by apply sorted_snoc|].
  apply Forall_app_2; [eapply Forall_impl; [exact Hb|cbn; lia]|]. constructor; [cbn; lia|constructor].
Qed.

Lemma placed_roll_back idx h n : placed_ok idx h → placed_ok (S idx) (roll_back n h).
Proof.
  intros Hh. unfold roll_back. destruct (n =? 0); [by apply placed_weaken|].
  destruct (start_of _ _) as [start|]; [by apply (placed_filter idx h (λ i, i <? start))|by apply placed_weaken].
Qed.

Lemma replay_ok items idx h : placed_ok idx h → placed_ok (idx + length items) (replay idx items h).
Proof.
  revert idx h. induction items as [|item items IH]; intros idx h Hh; cbn [replay length]; [by rewrite Nat.add_0_r|].
  rewrite <-plus_n_Sm, <-plus_Sn_m.
  destruct item; apply IH; [by apply placed_snoc|by apply placed_roll_back|by apply placed_weaken].
Qed.

(** The state of the walk is what the history says. *)
Lemma fork_walk_replay items idx h :
  placed_ok idx h →
  fork_walk idx items (turns turn_boundary h, turns fork_boundary h) =
  (turns turn_boundary (replay idx items h), turns fork_boundary (replay idx items h)).
Proof.
  revert idx h. induction items as [|item items IH]; intros idx h Hh; [done|].
  cbn [fork_walk replay]. destruct item as [item|n|].
  - rewrite <-IH.
    + f_equal. cbn [fork_step]. by rewrite !turns_snoc.
    + by apply placed_snoc.
  - cbn [fork_step]. unfold roll_back. destruct (Nat.eqb_spec n 0) as [->|Hn]; [apply IH; by apply placed_weaken|].
    fold (start_of n (turns turn_boundary h)).
    destruct (start_of n (turns turn_boundary h)) as [start|] eqn:Hst; [|apply IH; by apply placed_weaken].
    rewrite (take_is_below _ n start (turns_sorted _ _ _ Hh) Hn Hst).
    rewrite <-!turns_below. apply IH. by apply (placed_filter idx h (λ i, i <? start)).
  - apply IH. by apply placed_weaken.
Qed.

(** The walk for forks finds the fork turns, at their positions in the rollout,
    of the history that is left when every rollback drops the items from its
    first turn on: a walk with two lists of positions does what replaying the
    whole history does. *)
Theorem fork_turns_of_history items :
  fork_turn_positions_in_rollout items = turns fork_boundary (replay 0 items []).
Proof.
  unfold fork_turn_positions_in_rollout.
  change ([], []) with (turns turn_boundary [], turns fork_boundary []). rewrite fork_walk_replay; [done|].
  split; constructor.
Qed.

(** ** Keeping the last turns *)

Lemma fork_is_turn item : fork_boundary item = true → turn_boundary item = true.
Proof.
  unfold fork_boundary, turn_boundary, is_user_turn_boundary, is_real_user_message_boundary, is_trigger_turn_boundary.
  destruct item as [id role content phase| | | | | | | | | | | | |]; try done.
  intros [[[Hr _]%andb_true_iff Hc]%andb_true_iff|[Hr Hc]%andb_true_iff]%orb_true_iff; [by rewrite Hr, Hc|].
  rewrite Hr. apply orb_true_iff. right. cbn [andb]. unfold from_message_content in Hc. unfold is_inter_agent_instruction_content.
  destruct content as [|[text|url det|text] [|c2 l2]]; try done; destruct (from_json text); try done; by apply bool_decide_eq_true_2.
Qed.

Lemma fork_walk_app idx l1 l2 st : fork_walk idx (l1 ++ l2) st = fork_walk (idx + length l1) l2 (fork_walk idx l1 st).
Proof.
  revert idx st. induction l1 as [|x l1 IH]; intros idx st; cbn [app fork_walk length]; [by rewrite Nat.add_0_r|].
  rewrite IH. f_equal. lia.
Qed.

(** A position that the walk has dropped does not come back. *)
Lemma fork_walk_gone p idx items st : p < idx → p ∉ st.2 → p ∉ (fork_walk idx items st).2.
Proof.
  revert idx st. induction items as [|item items IH]; intros idx [rb fk] Hp Hno; [done|]. cbn [fork_walk].
  apply IH; [lia|]. cbn in Hno. destruct item as [item|n|]; cbn [fork_step snd]; [|case_match; [done|]|done].
  - case_match; [|done]. rewrite elem_of_app, list_elem_of_singleton. intros [?| ->]; [done|lia].
  - case_match; [|done]. cbn. intros Hin%list_elem_of_In%List.filter_In. apply Hno, list_elem_of_In, Hin.
Qed.

Lemma filter_all {A} (f : A → bool) l : Forall (λ x, f x = true) l → List.filter f l = l.
Proof. induction 1 as [|x l Hx _ IH]; [done|]. cbn. by rewrite Hx, IH. Qed.

Lemma filter_shift keep start l :
  List.filter (λ y, y <? keep + start) ((λ p, keep + p) <$> l) = (λ p, keep + p) <$> List.filter (λ y, y <? start) l.
Proof.
  rewrite filter_map. f_equal. apply List.filter_ext. intros y.
  destruct (Nat.ltb_spec (keep + y) (keep + start)), (Nat.ltb_spec y start); lia.
Qed.

(** The positions of a rollout as those before [keep] and those from it on, where
    a turn begins at [keep]. *)
Definition joined (keep : nat) (before from : list nat) : list nat := before ++ ((λ p, keep + p) <$> from).

Lemma joined_length keep before from : length (joined keep before from) = length before + length from.
Proof. unfold joined. by rewrite length_app, length_fmap. Qed.

Lemma joined_lookup keep before from i :
  joined keep before from !! (length before + i) = (λ p, keep + p) <$> from !! i.
Proof. unfold joined. rewrite lookup_app_r, list_lookup_fmap by lia. do 2 f_equal. lia. Qed.

Lemma joined_low keep before from i x :
  Forall (λ j, j < keep) before → i ≤ length before → joined keep before (0 :: from) !! i = Some x → x ≤ keep.
Proof.
  intros Hb Hi Hx. destruct (decide (i < length before)).
  - unfold joined in Hx. rewrite lookup_app_l in Hx by done. rewrite Forall_lookup in Hb. specialize (Hb _ _ Hx). lia.
  - replace i with (length before + 0) in Hx by lia. rewrite joined_lookup in Hx. injection Hx as <-. lia.
Qed.

(** A rollback of turns after [keep] does the same to the rollout from [keep] on. *)
Lemma rollback_after keep n rb0 fk0 rbs fks :
  Forall (λ i, i < keep) fk0 → StronglySorted (<) (0 :: rbs) → n ≠ 0 → n ≤ length rbs →
  ∃ fks',
    fork_step 0 (ThreadRolledBack n) (0 :: rbs, 0 :: fks) = (0 :: take (length rbs - n) rbs, 0 :: fks') ∧
    fork_step 0 (ThreadRolledBack n) (joined keep rb0 (0 :: rbs), joined keep fk0 (0 :: fks)) =
    (joined keep rb0 (0 :: take (length rbs - n) rbs), joined keep fk0 (0 :: fks')).
Proof.
  intros Hfk Hs Hn Hle. cbn [fork_step]. rewrite (proj2 (Nat.eqb_neq n 0) Hn), joined_length. cbn [length].
  destruct (lookup_lt_is_Some_2 rbs (length rbs - n)) as [start Hst]; [lia|].
  assert (Hpos : 0 < start).
  { inversion Hs as [|? ? _ Hf]; subst. rewrite Forall_forall in Hf. apply Hf. by eapply list_elem_of_lookup_2. }
  exists (List.filter (λ y, y <? start) fks). rewrite !(proj2 (Nat.leb_le _ _)) by lia.
  replace (length rb0 + S (length rbs) - n) with (length rb0 + S (length rbs - n)) by lia.
  replace (S (length rbs) - n) with (S (length rbs - n)) by lia. rewrite joined_lookup.
  change ((0 :: rbs) !! S (length rbs - n)) with (rbs !! (length rbs - n)). rewrite Hst.
  cbn [fmap option_fmap option_map]. apply Nat.ltb_lt in Hpos as Hpos'. split; f_equal.
  - cbn [List.filter]. by rewrite Hpos'.
  - unfold joined. rewrite take_app_ge by lia. f_equal. rewrite <-fmap_take. f_equal.
    by replace (length rb0 + S (length rbs - n) - length rb0) with (S (length rbs - n)) by lia.
  - unfold joined. rewrite List.filter_app, filter_all, filter_shift.
    + cbn [List.filter]. by rewrite Hpos'.
    + eapply Forall_impl; [exact Hfk|]. cbn beta. intros x Hx. apply Nat.ltb_lt. lia.
Qed.

(** One that reaches [keep] drops it. *)
Lemma rollback_reaches keep n rb0 fk0 rbs fks :
  Forall (λ i, i < keep) rb0 → length rbs < n →
  keep ∉ (fork_step 0 (ThreadRolledBack n) (joined keep rb0 (0 :: rbs), joined keep fk0 (0 :: fks))).2.
Proof.
  intros Hrb Hgt Hin. cbn [fork_step] in Hin. rewrite (proj2 (Nat.eqb_neq n 0)), joined_length in Hin by lia. cbn [length] in Hin.
  set (L := joined keep rb0 (0 :: rbs)) in *.
  assert (HL : length L = length rb0 + S (length rbs)) by (unfold L; by rewrite joined_length).
  match type of Hin with context [match ?o with Some _ => _ | None => _ end] => destruct o as [x|] eqn:Ho end.
  - cbn in Hin. apply list_elem_of_In, List.filter_In in Hin as [_ Hlt%Nat.ltb_lt].
    destruct (n <=? _) eqn:Hc; [|rewrite head_lookup in Ho]; apply (joined_low _ _ _ _ x Hrb) in Ho; lia.
  - destruct (n <=? _) eqn:Hc; [apply Nat.leb_le in Hc|rewrite head_lookup in Ho]; apply lookup_ge_None_1 in Ho; lia.
Qed.

(** The walk over a rollout that keeps the turn at [keep] to the end, and the
    walk over the rollout from there on. *)
Lemma fork_walk_shift keep rb0 fk0 items j rbs fks :
  Forall (λ i, i < keep) rb0 → Forall (λ i, i < keep) fk0 →
  StronglySorted (<) (0 :: rbs) → Forall (λ i, i < j) (0 :: rbs) →
  keep ∈ (fork_walk (keep + j) items (joined keep rb0 (0 :: rbs), joined keep fk0 (0 :: fks))).2 →
  ∃ rbs' fks', fork_walk j items (0 :: rbs, 0 :: fks) = (0 :: rbs', 0 :: fks') ∧
    (fork_walk (keep + j) items (joined keep rb0 (0 :: rbs), joined keep fk0 (0 :: fks))).2 = joined keep fk0 (0 :: fks').
Proof.
  intros Hrb Hfk. revert j rbs fks. induction items as [|item items IH]; intros j rbs fks Hs Hj Hin; [by eexists _, _|].
  assert (Hj' : Forall (λ i, i < S j) (0 :: rbs)) by (eapply Forall_impl; [exact Hj|cbn; lia]).
  cbn [fork_walk] in *. rewrite plus_n_Sm in *. destruct item as [item|n|].
  - cbn [fork_step] in *.
    assert (Happ : ∀ b l, (joined keep b l) ++ [keep + j] = joined keep b (l ++ [j])).
    { intros b l. unfold joined. by rewrite fmap_app, (assoc_L (++)). }
    rewrite !Happ in *.
    destruct (turn_boundary item), (is_real_user_message_boundary item || is_trigger_turn_boundary item);
      (apply IH; [| |exact Hin]; try done);
      first [by apply (sorted_snoc (0 :: rbs))|apply (Forall_app_2 _ (0 :: rbs)); [done|constructor; [lia|constructor]]].
  - destruct (decide (n = 0)) as [->|Hn]; [by apply IH|].
    change (fork_step j (ThreadRolledBack n)) with (fork_step 0 (ThreadRolledBack n)) in *.
    change (fork_step (keep + j) (ThreadRolledBack n)) with (fork_step 0 (ThreadRolledBack n)) in *.
    destruct (decide (n ≤ length rbs)) as [Hle|Hgt].
    + destruct (rollback_after keep n rb0 fk0 rbs fks Hfk Hs Hn Hle) as (fks' & E1 & E2). rewrite E1, E2 in *.
      apply IH; [| |exact Hin].
      * apply (sorted_take (0 :: rbs) (S (length rbs - n)) Hs).
      * apply (Forall_take _ (S (length rbs - n)) (0 :: rbs) Hj').
    + exfalso. revert Hin. apply fork_walk_gone; [lia|]. apply rollback_reaches; [done|lia].
  - by apply IH.
Qed.

Lemma replay_elem items idx h e :
  e ∈ replay idx items h → e ∈ h ∨ ∃ j, items !! j = Some (RResponseItem e.2) ∧ e.1 = idx + j.
Proof.
  revert idx h. induction items as [|item items IH]; intros idx h He; [by left|]. cbn [replay] in He.
  assert (Hlater : ∀ h', e ∈ replay (S idx) items h' →
    e ∈ h' ∨ ∃ j, (item :: items) !! j = Some (RResponseItem e.2) ∧ e.1 = idx + j).
  { intros h' [?|(j & Hj & Hi)]%IH; [by left|]. right. exists (S j). split; [done|lia]. }
  destruct item as [item|n|]; apply Hlater in He as [He|He]; try (by right); [| |by left].
  - apply elem_of_app in He as [?|He]; [by left|]. apply list_elem_of_singleton in He as ->.
    right. exists 0. cbn. split; [done|lia].
  - left. unfold roll_back in He. destruct (n =? 0); [done|]. destruct (start_of _ _); [|done].
    apply list_elem_of_In, List.filter_In in He as [He _]. by apply list_elem_of_In.
Qed.

Lemma fork_turns_sorted items : StronglySorted (<) (fork_turn_positions_in_rollout items).
Proof.
  rewrite fork_turns_of_history. eapply turns_sorted, replay_ok. split; constructor.
Qed.

(** What the walk finds up to a place lies before it. *)
Lemma fork_walk_before items :
  let st := fork_walk 0 items ([], []) in
  Forall (λ i, i < length items) st.1 ∧ Forall (λ i, i < length items) st.2.
Proof.
  cbn zeta. change ([], []) with (turns turn_boundary [], turns fork_boundary []).
  rewrite fork_walk_replay by (split; constructor). cbn [fst snd].
  assert (H : ∀ f, Forall (λ i, i < length items) (turns f (replay 0 items []))); [|by split].
  intros f. rewrite Forall_forall. intros i (e & -> & He%list_elem_of_In%List.filter_In)%list_elem_of_fmap.
  destruct He as [He _]. apply list_elem_of_In, replay_elem in He as [[]%elem_of_nil|(j & Hj & ->)].
  by apply lookup_lt_Some in Hj.
Qed.

(** The fork turns of the rollout from one of them on. *)
Lemma fork_turns_from items keep :
  keep ∈ fork_turn_positions_in_rollout items →
  ∃ before after, Forall (λ i, i < keep) before ∧
    fork_turn_positions_in_rollout items = joined keep before (0 :: after) ∧
    fork_turn_positions_in_rollout (drop keep items) = 0 :: after.
Proof.
  intros Hin. pose proof Hin as Hin'. rewrite fork_turns_of_history in Hin'.
  apply list_elem_of_fmap in Hin' as ([i item] & Hi & [He Hf]%list_elem_of_In%List.filter_In). cbn in Hi, Hf. subst i.
  apply list_elem_of_In, replay_elem in He as [[]%elem_of_nil|(j & Hj & Hji)]. cbn in Hj, Hji. subst j.
  pose proof (take_drop_middle _ _ _ Hj) as Hitems.
  assert (Hd : drop keep items = RResponseItem item :: drop (S keep) items) by (by apply drop_S).
  assert (Hlen : length (take keep items) = keep) by (apply lookup_lt_Some in Hj; rewrite length_take; lia).
  destruct (fork_walk_before (take keep items)) as [Hrb Hfk]. rewrite Hlen in Hrb, Hfk.
  set (st := fork_walk 0 (take keep items) ([], [])) in *. destruct st as [rb0 fk0] eqn:Est. cbn [fst snd] in *.
  assert (Hwalk : fork_turn_positions_in_rollout items =
                  (fork_walk (keep + 1) (drop (S keep) items) (joined keep rb0 [0], joined keep fk0 [0])).2).
  { unfold fork_turn_positions_in_rollout. rewrite <-Hitems at 1. rewrite fork_walk_app, Hlen. fold st. rewrite Est.
    cbn [fork_walk fork_step]. rewrite (fork_is_turn _ Hf). unfold fork_boundary in Hf. rewrite Hf. unfold joined. cbn.
    by rewrite Nat.add_0_r, Nat.add_1_r. }
  rewrite Hwalk in Hin. destruct (fork_walk_shift keep rb0 fk0 (drop (S keep) items) 1 [] []) as (rbs & fks & E1 & E2);
    [done|done|by repeat constructor|by repeat constructor|done|].
  exists fk0, fks. split_and!; [done|by rewrite Hwalk|]. unfold fork_turn_positions_in_rollout. rewrite Hd.
  cbn [fork_walk fork_step]. rewrite (fork_is_turn _ Hf). unfold fork_boundary in Hf. rewrite Hf. cbn [app].
  by rewrite E1.
Qed.

(** C38: Keeping the last [n] fork turns of a rollout that has more keeps a rollout
    with exactly [n] fork turns, and they are the last [n]: the rollbacks it
    contains drop in it what they drop in the whole. *)
Theorem fork_keeps_last_turns items n :
  n ≠ 0 → n < length (fork_turn_positions_in_rollout items) →
  let kept := truncate_rollout_to_last_n_fork_turns items n in
  ∃ keep, kept = drop keep items ∧ length (fork_turn_positions_in_rollout kept) = n ∧
    (λ p, keep + p) <$> fork_turn_positions_in_rollout kept =
    drop (length (fork_turn_positions_in_rollout items) - n) (fork_turn_positions_in_rollout items).
Proof.
  intros Hn Hlt. cbn zeta. unfold truncate_rollout_to_last_n_fork_turns.
  rewrite (proj2 (Nat.eqb_neq n 0) Hn), (proj2 (Nat.leb_gt _ _) Hlt).
  set (pos := fork_turn_positions_in_rollout items) in *.
  destruct (lookup_lt_is_Some_2 pos (length pos - n)) as [keep Hk]; [lia|]. rewrite Hk. exists keep. split; [done|].
  destruct (fork_turns_from items keep) as (before & after & Hb & Hpos & Hfrom); [by eapply list_elem_of_lookup_2|].
  fold pos in Hpos. pose proof (fork_turns_sorted (drop keep items)) as Hs. rewrite Hfrom in *.
  assert (Hi : length pos - n = length before).
  { destruct (Nat.lt_trichotomy (length pos - n) (length before)) as [Hl|[He|Hg]]; [exfalso|done|exfalso].
    - rewrite Hpos in Hk. unfold joined in Hk at 2. rewrite lookup_app_l in Hk by (rewrite <-Hpos; done).
      rewrite Forall_lookup in Hb. apply Hb in Hk. lia.
    - destruct (length pos - n - length before) as [|i] eqn:Ei; [lia|].
      replace (length pos - n) with (length before + S i) in Hk by lia. rewrite Hpos, joined_lookup in Hk.
      change ((0 :: after) !! S i) with (after !! i) in Hk. destruct (after !! i) as [x|] eqn:Hx; [|done]. injection Hk as Hk.
      inversion Hs as [|? ? _ Hf]; subst. rewrite Forall_lookup in Hf. apply Hf in Hx. lia. }
  rewrite Hi, Hpos. unfold joined. rewrite drop_app_length. split; [|done].
  apply (f_equal length) in Hpos. rewrite joined_length in Hpos. lia.
Qed.

End rollout.

(** ** Examples *)

Definition demo_xml (_ : rstring) : option (rstring * rstring) := None.
Definition demo_json (text : rstring) : option InterAgentCommunication :=
  if text =?s $"task" then
    Some {| author := $"/root"; recipient := $"/root/a"; other_recipients := []; ia_content := $"do it"; trigger_turn := true |}
  else None.

Definition demo_user (text : rstring) : RolloutItem unit := RResponseItem (Message None $"user" [MsgInputText text] None).
Definition demo_task : RolloutItem unit := RResponseItem (Message None $"assistant" [MsgOutputText $"task"] None).

Definition demo_rollout : list (RolloutItem unit) :=
  [OtherItem; demo_user $"one"; demo_user $"two"; demo_task; ThreadRolledBack 1; demo_user $"three"; ThreadRolledBack 1;
   demo_user $"four"].

Example demo_positions : fork_turn_positions_in_rollout demo_xml demo_json demo_rollout = [1; 2; 7].
Proof. vm_compute. reflexivity. Qed.

Lemma fork_keeps_last_turns_witness :
  let kept := truncate_rollout_to_last_n_fork_turns demo_xml demo_json demo_rollout 2 in
  ∃ keep, kept = drop keep demo_rollout ∧ length (fork_turn_positions_in_rollout demo_xml demo_json kept) = 2 ∧
    (λ p, keep + p) <$> fork_turn_positions_in_rollout demo_xml demo_json kept =
    drop (length (fork_turn_positions_in_rollout demo_xml demo_json demo_rollout) - 2)
      (fork_turn_positions_in_rollout demo_xml demo_json demo_rollout).
Proof. apply (fork_keeps_last_turns demo_xml demo_json demo_rollout 2); [discriminate|vm_compute; lia]. Defined.

(** The walk for user messages takes a rollback of a turn between agents for one
    of a user message: the message is in the history that is left, and the walk
    does not find it, so cutting before it cuts nothing. *)
Example user_walk_miscounts_rollback :
  let rollout := [demo_user $"one"; demo_task; ThreadRolledBack 1] in
  (fst <$> replay demo_xml demo_json 0 rollout []) = [0] ∧
  user_message_positions_in_rollout demo_xml rollout = [] ∧
  truncate_rollout_before_nth_user_message_from_start demo_xml rollout (Some 0) = rollout.
Proof. split_and!; vm_compute; reflexivity. Qed.

End Rollout.
