(* ===== verification/Hooks.v ===== *)
(** * Hooks (codex-rs/hooks)

    Commands of the user that run at fixed points: before a tool, when a tool
    asks for permission, after a tool, at the start of a session, when a prompt
    is submitted and when a turn stops.  Module [Hooks] has the matchers of
    handlers (events/common.rs), the selection and execution of handlers
    (engine/dispatcher.rs, engine/command_runner.rs), the reading of what they
    print (engine/output_parser.rs over the types of schema.rs), the six events
    (events/), the engine (engine/mod.rs) and the callers in core
    (core/src/hook_runtime.rs, core/src/tools/hook_names.rs).

    Parameters: regular expressions, serde_json (class [Serde]), the child
    process with its times (class [Process]) and the clock. *)

From S2P Require Import Prelude Delegation PatchSafety.

Module Hooks.

(** ** Protocol types (protocol/src/protocol.rs, protocol/src/items.rs) *)

Inductive HookEventName := PreToolUse | PermissionRequest | PostToolUse | SessionStart | UserPromptSubmit | Stop.
#[export] Instance HookEventName_eq_dec : EqDecision HookEventName.
Proof. solve_decision. Defined.

Inductive HookHandlerType := HCommand | HPrompt | HAgent.
Inductive HookExecutionMode := Sync | Async.
Inductive HookScope := Thread | Turn.
Inductive HookSource :=
| SrcSystem | SrcUser | SrcProject | SrcMdm | SrcSessionFlags | SrcLegacyManagedConfigFile
| SrcLegacyManagedConfigMdm | SrcUnknown.
Inductive HookRunStatus := Running | Completed | Failed | Blocked | Stopped.
Inductive HookOutputEntryKind := KWarning | KStop | KFeedback | KContext | KError.

Record HookOutputEntry := { kind : HookOutputEntryKind; text : rstring }.

Record HookRunSummary := {
  id : rstring;
  event_name : HookEventName;
  handler_type : HookHandlerType;
  execution_mode : HookExecutionMode;
  scope : HookScope;
  source_path : rstring;
  source : HookSource;
  display_order : Z;
  status : HookRunStatus;
  status_message : option rstring;
  started_at : Z;
  completed_at : option Z;
  duration_ms : option Z;
  entries : list HookOutputEntry }.

Record HookCompletedEvent := { turn_id : option rstring; run : HookRunSummary }.

Record HookPromptFragment := { fragment_text : rstring; hook_run_id : rstring }.

(** ** The engine's handlers (engine/mod.rs) *)

Record CommandShell := { program : rstring; args : list rstring }.

Record ConfiguredHandler := {
  h_event_name : HookEventName;
  is_managed : bool;
  matcher : option rstring;
  command : rstring;
  timeout_sec : Z;
  h_status_message : option rstring;
  h_source_path : rstring;
  h_source : HookSource;
  h_display_order : Z }.

Definition event_name_label (h : ConfiguredHandler) : rstring :=
  match h_event_name h with
  | PreToolUse => $"pre-tool-use"
  | PermissionRequest => $"permission-request"
  | PostToolUse => $"post-tool-use"
  | SessionStart => $"session-start"
  | UserPromptSubmit => $"user-prompt-submit"
  | Stop => $"stop"
  end.

Definition run_id (h : ConfiguredHandler) : rstring :=
  event_name_label h ++ $":" ++ Delegation.show_Z (h_display_order h) ++ $":" ++ h_source_path h.

(** ** Texts (events/common.rs) *)

Definition join_text_chunks (chunks : list rstring) : option rstring :=
  if is_empty chunks then None else Some (join [NL; NL] chunks).

Definition trimmed_non_empty (s : rstring) : option rstring :=
  let trimmed := trim s in if is_empty trimmed then None else Some trimmed.

Definition hook_run_for_tool_use (r : HookRunSummary) (tool_use_id : rstring) : HookRunSummary :=
  {| id := id r ++ $":" ++ tool_use_id; event_name := event_name r; handler_type := handler_type r;
     execution_mode := execution_mode r; scope := scope r; source_path := source_path r; source := source r;
     display_order := display_order r; status := status r; status_message := status_message r;
     started_at := started_at r; completed_at := completed_at r; duration_ms := duration_ms r;
     entries := entries r |}.

Definition hook_completed_for_tool_use (e : HookCompletedEvent) (tool_use_id : rstring) : HookCompletedEvent :=
  {| turn_id := turn_id e; run := hook_run_for_tool_use (run e) tool_use_id |}.

Definition matcher_pattern_for_event (event : HookEventName) (m : option rstring) : option rstring :=
  match event with
  | PreToolUse | PermissionRequest | PostToolUse | SessionStart => m
  | UserPromptSubmit | Stop => None
  end.

Definition is_match_all_matcher (m : rstring) : bool := is_empty m || (m =?s $"*").

Definition is_exact_matcher (m : rstring) : bool :=
  forallb (λ ch, is_ascii_alphanumeric ch || (ch =? 95)%Z || (ch =? 124)%Z) m.

Definition matcher_inputs (tool_name : rstring) (matcher_aliases : list rstring) : list rstring :=
  tool_name :: matcher_aliases.

(** ** What a hook prints (schema.rs) *)

Record HookUniversalOutputWire := {
  w_continue : bool;
  w_stop_reason : option rstring;
  w_suppress_output : bool;
  w_system_message : option rstring }.

Inductive PreToolUsePermissionDecisionWire := PdAllow | PdDeny | PdAsk.
Inductive PreToolUseDecisionWire := Approve | BlockTool.
Inductive BlockDecisionWire := Block.
Inductive PermissionRequestBehaviorWire := BehaviorAllow | BehaviorDeny.

Section wire.
Context {Value : Type}.

Record PreToolUseHookSpecificOutputWire := {
  pre_hook_event_name : HookEventName;
  permission_decision : option PreToolUsePermissionDecisionWire;
  permission_decision_reason : option rstring;
  pre_updated_input : option Value;
  pre_additional_context : option rstring }.

Record PreToolUseCommandOutputWire := {
  pre_universal : HookUniversalOutputWire;
  pre_decision : option PreToolUseDecisionWire;
  pre_reason : option rstring;
  pre_hook_specific_output : option PreToolUseHookSpecificOutputWire }.

Record PermissionRequestDecisionWire := {
  behavior : PermissionRequestBehaviorWire;
  updated_input : option Value;
  updated_permissions : option Value;
  message : option rstring;
  interrupt : bool }.

Record PermissionRequestHookSpecificOutputWire := {
  perm_hook_event_name : HookEventName;
  perm_decision : option PermissionRequestDecisionWire }.

Record PermissionRequestCommandOutputWire := {
  perm_universal : HookUniversalOutputWire;
  perm_hook_specific_output : option PermissionRequestHookSpecificOutputWire }.

Record PostToolUseHookSpecificOutputWire := {
  post_hook_event_name : HookEventName;
  post_additional_context : option rstring;
  updated_mcp_tool_output : option Value }.

Record PostToolUseCommandOutputWire := {
  post_universal : HookUniversalOutputWire;
  post_decision : option BlockDecisionWire;
  post_reason : option rstring;
  post_hook_specific_output : option PostToolUseHookSpecificOutputWire }.
End wire.
Arguments PreToolUseHookSpecificOutputWire : clear implicits.
Arguments PreToolUseCommandOutputWire : clear implicits.
Arguments PermissionRequestDecisionWire : clear implicits.
Arguments PermissionRequestHookSpecificOutputWire : clear implicits.
Arguments PermissionRequestCommandOutputWire : clear implicits.
Arguments PostToolUseHookSpecificOutputWire : clear implicits.
Arguments PostToolUseCommandOutputWire : clear implicits.

(** The contexts of session start and prompt submission have the same shape. *)
Record ContextHookSpecificOutputWire := {
  ctx_hook_event_name : HookEventName;
  ctx_additional_context : option rstring }.

Record SessionStartCommandOutputWire := {
  start_universal : HookUniversalOutputWire;
  start_hook_specific_output : option ContextHookSpecificOutputWire }.

Record UserPromptSubmitCommandOutputWire := {
  prompt_universal : HookUniversalOutputWire;
  prompt_decision : option BlockDecisionWire;
  prompt_reason : option rstring;
  prompt_hook_specific_output : option ContextHookSpecificOutputWire }.

Record StopCommandOutputWire := {
  stop_universal : HookUniversalOutputWire;
  stop_decision : option BlockDecisionWire;
  stop_reason_wire : option rstring }.

(** ** What a hook is given (schema.rs): one constructor per event *)

Record CommonInput := {
  session_id : rstring;
  transcript_path : option rstring;
  cwd : rstring;
  model : rstring;
  permission_mode : rstring }.

Inductive CommandInput {Value : Type} :=
| PreToolUseCommandInput (c : CommonInput) (turn_id tool_name : rstring) (tool_input : Value) (tool_use_id : rstring)
| PermissionRequestCommandInput (c : CommonInput) (turn_id tool_name : rstring) (tool_input : Value)
| PostToolUseCommandInput (c : CommonInput) (turn_id tool_name : rstring) (tool_input tool_response : Value)
    (tool_use_id : rstring)
| SessionStartCommandInput (c : CommonInput) (start_source : rstring)
| UserPromptSubmitCommandInput (c : CommonInput) (turn_id prompt : rstring)
| StopCommandInput (c : CommonInput) (turn_id : rstring) (stop_hook_active : bool)
    (last_assistant_message : option rstring).
Arguments CommandInput : clear implicits.

(** serde_json: reading values and the types above from text, and writing. *)
Class Serde (Value : Type) := {
  from_str : rstring → option Value;
  is_object : Value → bool;
  as_pre_tool_use : Value → option (PreToolUseCommandOutputWire Value);
  as_permission_request : Value → option (PermissionRequestCommandOutputWire Value);
  as_post_tool_use : Value → option (PostToolUseCommandOutputWire Value);
  as_session_start : Value → option SessionStartCommandOutputWire;
  as_user_prompt_submit : Value → option UserPromptSubmitCommandOutputWire;
  as_stop : Value → option StopCommandOutputWire;
  to_string : CommandInput Value → result rstring rstring }.

(** ** Reading the output (engine/output_parser.rs) *)

Record UniversalOutput := {
  continue_processing : bool;
  stop_reason : option rstring;
  suppress_output : bool;
  system_message : option rstring }.

Definition universal_from (w : HookUniversalOutputWire) : UniversalOutput :=
  {| continue_processing := w_continue w; stop_reason := w_stop_reason w;
     suppress_output := w_suppress_output w; system_message := w_system_message w |}.

Record SessionStartOutput := { so_universal : UniversalOutput; so_additional_context : option rstring }.

Record PreToolUseOutput := {
  pre_out_universal : UniversalOutput;
  pre_out_block_reason : option rstring;
  pre_out_invalid_reason : option rstring }.

Inductive PermissionRequestDecision := Allow | Deny (message : rstring).
#[export] Instance PermissionRequestDecision_eq_dec : EqDecision PermissionRequestDecision.
Proof. solve_decision. Defined.

Record PermissionRequestOutput := {
  perm_out_universal : UniversalOutput;
  perm_out_decision : option PermissionRequestDecision;
  perm_out_invalid_reason : option rstring }.

Record PostToolUseOutput := {
  post_out_universal : UniversalOutput;
  post_out_should_block : bool;
  post_out_reason : option rstring;
  post_out_invalid_block_reason : option rstring;
  post_out_additional_context : option rstring;
  post_out_invalid_reason : option rstring }.

Record UserPromptSubmitOutput := {
  prompt_out_universal : UniversalOutput;
  prompt_out_should_block : bool;
  prompt_out_reason : option rstring;
  prompt_out_invalid_block_reason : option rstring;
  prompt_out_additional_context : option rstring }.

Record StopOutput := {
  stop_out_universal : UniversalOutput;
  stop_out_should_block : bool;
  stop_out_reason : option rstring;
  stop_out_invalid_block_reason : option rstring }.

Definition trimmed_reason (reason : rstring) : option rstring :=
  let trimmed := trim reason in if is_empty trimmed then None else Some trimmed.

Definition or_else {A} (a b : option A) : option A := match a with Some _ => a | None => b end.

Definition invalid_block_message (event_name : rstring) : rstring :=
  event_name ++ $" hook returned decision:block without a non-empty reason".

Definition invalid_pre_tool_use_reason_message : rstring :=
  $"PreToolUse hook returned permissionDecision:deny without a non-empty permissionDecisionReason".

Definition unsupported_pre_tool_use_universal (u : UniversalOutput) : option rstring :=
  if negb (continue_processing u) then Some $"PreToolUse hook returned unsupported continue:false"
  else if bool_decide (is_Some (stop_reason u)) then Some $"PreToolUse hook returned unsupported stopReason"
  else if suppress_output u then Some $"PreToolUse hook returned unsupported suppressOutput"
  else None.

Definition unsupported_permission_request_universal (u : UniversalOutput) : option rstring :=
  if negb (continue_processing u) then Some $"PermissionRequest hook returned unsupported continue:false"
  else if bool_decide (is_Some (stop_reason u)) then Some $"PermissionRequest hook returned unsupported stopReason"
  else if suppress_output u then Some $"PermissionRequest hook returned unsupported suppressOutput"
  else None.

Definition unsupported_post_tool_use_universal (u : UniversalOutput) : option rstring :=
  if suppress_output u then Some $"PostToolUse hook returned unsupported suppressOutput" else None.

Definition is_some {A} (o : option A) : bool := match o with Some _ => true | None => false end.

Section parser.
Context {Value : Type} `{!Serde Value}.

Definition parse_json {T} (from_value : Value → option T) (stdout : rstring) : option T :=
  let trimmed := trim stdout in
  if is_empty trimmed then None
  else value ← from_str trimmed; if is_object value then from_value value else None.

Definition unsupported_permission_request_hook_specific_output (d : option (PermissionRequestDecisionWire Value))
  : option rstring :=
  d ← d;
  if is_some (updated_input d) then Some $"PermissionRequest hook returned unsupported updatedInput"
  else if is_some (updated_permissions d) then Some $"PermissionRequest hook returned unsupported updatedPermissions"
  else if interrupt d then Some $"PermissionRequest hook returned unsupported interrupt:true"
  else None.

Definition permission_request_decision (d : PermissionRequestDecisionWire Value) : PermissionRequestDecision :=
  match behavior d with
  | BehaviorAllow => Allow
  | BehaviorDeny => Deny (default $"PermissionRequest hook denied approval" (message d ≫= trimmed_reason))
  end.

Definition unsupported_post_tool_use_hook_specific_output (o : PostToolUseHookSpecificOutputWire Value) : option rstring :=
  if is_some (updated_mcp_tool_output o) then Some $"PostToolUse hook returned unsupported updatedMCPToolOutput"
  else None.

Definition unsupported_pre_tool_use_hook_specific_output (o : PreToolUseHookSpecificOutputWire Value) : option rstring :=
  if is_some (pre_updated_input o) then Some $"PreToolUse hook returned unsupported updatedInput"
  else if is_some (pre_additional_context o ≫= trimmed_reason)
  then Some $"PreToolUse hook returned unsupported additionalContext"
  else
    match permission_decision o with
    | Some PdAllow => Some $"PreToolUse hook returned unsupported permissionDecision:allow"
    | Some PdAsk => Some $"PreToolUse hook returned unsupported permissionDecision:ask"
    | Some PdDeny =>
        if is_some (permission_decision_reason o ≫= trimmed_reason) then None
        else Some invalid_pre_tool_use_reason_message
    | None =>
        if is_some (permission_decision_reason o)
        then Some $"PreToolUse hook returned permissionDecisionReason without permissionDecision"
        else None
    end.

Definition unsupported_pre_tool_use_legacy_decision (d : option PreToolUseDecisionWire) (reason : option rstring)
  : option rstring :=
  match d with
  | Some Approve => Some $"PreToolUse hook returned unsupported decision:approve"
  | Some BlockTool =>
      if is_some (reason ≫= trimmed_reason) then None else Some (invalid_block_message $"PreToolUse")
  | None => if is_some reason then Some $"PreToolUse hook returned reason without decision" else None
  end.

Definition parse_session_start (stdout : rstring) : option SessionStartOutput :=
  wire ← parse_json as_session_start stdout;
  Some {| so_universal := universal_from (start_universal wire);
          so_additional_context := start_hook_specific_output wire ≫= ctx_additional_context |}.

(** Whether the newer form of the answer is used. *)
Definition use_hook_specific_decision (o : option (PreToolUseHookSpecificOutputWire Value)) : bool :=
  match o with
  | Some o =>
      is_some (permission_decision o) || is_some (permission_decision_reason o)
      || is_some (pre_updated_input o) || is_some (pre_additional_context o)
  | None => false
  end.

Definition parse_pre_tool_use (stdout : rstring) : option PreToolUseOutput :=
  wire ← parse_json as_pre_tool_use stdout;
  let universal := universal_from (pre_universal wire) in
  let specific := pre_hook_specific_output wire in
  let invalid_reason :=
    or_else (unsupported_pre_tool_use_universal universal)
      (if use_hook_specific_decision specific then specific ≫= unsupported_pre_tool_use_hook_specific_output
       else unsupported_pre_tool_use_legacy_decision (pre_decision wire) (pre_reason wire)) in
  let block_reason :=
    match invalid_reason with
    | Some _ => None
    | None =>
        if use_hook_specific_decision specific then
          o ← specific;
          match permission_decision o with
          | Some PdDeny => permission_decision_reason o ≫= trimmed_reason
          | _ => None
          end
        else
          match pre_decision wire with
          | Some BlockTool => pre_reason wire ≫= trimmed_reason
          | Some Approve | None => None
          end
    end in
  Some {| pre_out_universal := universal; pre_out_block_reason := block_reason;
          pre_out_invalid_reason := invalid_reason |}.

Definition parse_permission_request (stdout : rstring) : option PermissionRequestOutput :=
  wire ← parse_json as_permission_request stdout;
  let universal := universal_from (perm_universal wire) in
  let specific := perm_hook_specific_output wire in
  let decision := specific ≫= perm_decision in
  let invalid_reason :=
    or_else (unsupported_permission_request_universal universal)
      (o ← specific; unsupported_permission_request_hook_specific_output (perm_decision o)) in
  Some {| perm_out_universal := universal;
          perm_out_decision :=
            match invalid_reason with None => permission_request_decision <$> decision | Some _ => None end;
          perm_out_invalid_reason := invalid_reason |}.

(** A reason that is missing or blank. *)
Definition blank (reason : option rstring) : bool :=
  match reason with Some reason => is_empty (trim reason) | None => true end.

Definition parse_post_tool_use (stdout : rstring) : option PostToolUseOutput :=
  wire ← parse_json as_post_tool_use stdout;
  let universal := universal_from (post_universal wire) in
  let invalid_reason :=
    or_else (unsupported_post_tool_use_universal universal)
      (post_hook_specific_output wire ≫= unsupported_post_tool_use_hook_specific_output) in
  let should_block := is_some (post_decision wire) in
  let invalid_block_reason :=
    if should_block && blank (post_reason wire) then Some (invalid_block_message $"PostToolUse")
    else if negb should_block && continue_processing universal && is_some (post_reason wire)
    then Some $"PostToolUse hook returned reason without decision"
    else None in
  Some {| post_out_universal := universal;
          post_out_should_block := should_block && negb (is_some invalid_reason) && negb (is_some invalid_block_reason);
          post_out_reason := post_reason wire;
          post_out_invalid_block_reason := invalid_block_reason;
          post_out_additional_context := post_hook_specific_output wire ≫= post_additional_context;
          post_out_invalid_reason := invalid_reason |}.

Definition parse_user_prompt_submit (stdout : rstring) : option UserPromptSubmitOutput :=
  wire ← parse_json as_user_prompt_submit stdout;
  let should_block := is_some (prompt_decision wire) in
  let invalid_block_reason :=
    if should_block && blank (prompt_reason wire) then Some (invalid_block_message $"UserPromptSubmit") else None in
  Some {| prompt_out_universal := universal_from (prompt_universal wire);
          prompt_out_should_block := should_block && negb (is_some invalid_block_reason);
          prompt_out_reason := prompt_reason wire;
          prompt_out_invalid_block_reason := invalid_block_reason;
          prompt_out_additional_context := prompt_hook_specific_output wire ≫= ctx_additional_context |}.

Definition parse_stop (stdout : rstring) : option StopOutput :=
  wire ← parse_json as_stop stdout;
  let should_block := is_some (stop_decision wire) in
  let invalid_block_reason :=
    if should_block && blank (stop_reason_wire wire) then Some (invalid_block_message $"Stop") else None in
  Some {| stop_out_universal := universal_from (stop_universal wire);
          stop_out_should_block := should_block && negb (is_some invalid_block_reason);
          stop_out_reason := stop_reason_wire wire;
          stop_out_invalid_block_reason := invalid_block_reason |}.
End parser.

(** ** Running a command (engine/command_runner.rs) *)

Record CommandRunResult := {
  r_started_at : Z;
  r_completed_at : Z;
  r_duration_ms : Z;
  exit_code : option Z;
  stdout : rstring;
  stderr : rstring;
  error : option rstring }.

(** How a child process ends: it does not start, does not take its input, gives
    its output (the bytes decoded), cannot be waited for, or takes too long. *)
Inductive ChildEnd :=
| SpawnError (err : rstring)
| StdinError (err : rstring)
| Output (code : option Z) (out err : rstring)
| WaitError (err : rstring)
| TimedOut.

Record ChildRun := { ended : ChildEnd; at_start : Z; at_end : Z; elapsed_ms : Z }.

Class Process := {
  env_shell : option rstring;
  child : rstring * list rstring → rstring → rstring → Z → ChildRun }.

Section engine.
Context (regex_new : rstring → option (rstring → bool)).
Context {Value : Type} `{!Serde Value, !Process}.

Definition default_shell_command : rstring * list rstring :=
  (default $"/bin/sh" env_shell, [ $"-lc"]).

Definition build_command (shell : CommandShell) (h : ConfiguredHandler) : rstring * list rstring :=
  if is_empty (program shell) then
    let '(prog, prog_args) := default_shell_command in (prog, prog_args ++ [command h])
  else (program shell, args shell ++ [command h]).

(** A result without output. *)
Definition run_error (r : ChildRun) (err : rstring) : CommandRunResult :=
  {| r_started_at := at_start r; r_completed_at := at_end r; r_duration_ms := elapsed_ms r;
     exit_code := None; stdout := []; stderr := []; error := Some err |}.

Definition run_command (shell : CommandShell) (h : ConfiguredHandler) (input_json cwd : rstring) : CommandRunResult :=
  let r := child (build_command shell h) input_json cwd (timeout_sec h) in
  match ended r with
  | SpawnError err => run_error r err
  | StdinError err => run_error r ($"failed to write hook stdin: " ++ err)
  | Output code out err =>
      {| r_started_at := at_start r; r_completed_at := at_end r; r_duration_ms := elapsed_ms r;
         exit_code := code; stdout := out; stderr := err; error := None |}
  | WaitError err => run_error r err
  | TimedOut => run_error r ($"hook timed out after " ++ Delegation.show_Z (timeout_sec h) ++ $"s")
  end.

(** ** Matching and dispatching (events/common.rs, engine/dispatcher.rs) *)

Definition validate_matcher_pattern (m : rstring) : bool :=
  if is_match_all_matcher m || is_exact_matcher m then true else is_some (regex_new m).

Definition matches_matcher (m input : option rstring) : bool :=
  match m with
  | None => true
  | Some m =>
      if is_match_all_matcher m then true
      else if is_exact_matcher m then
        match input with Some input => existsb (λ candidate, candidate =?s input) (split_on 124%Z m) | None => false end
      else
        default false (input ← input; regex ← regex_new m; Some (regex input))
  end.

Definition select_handlers_for_matcher_inputs (handlers : list ConfiguredHandler) (event : HookEventName)
    (inputs : list rstring) : list ConfiguredHandler :=
  List.filter (λ h,
      match event with
      | PreToolUse | PermissionRequest | PostToolUse | SessionStart =>
          if is_empty inputs then matches_matcher (matcher h) None
          else existsb (λ input, matches_matcher (matcher h) (Some input)) inputs
      | UserPromptSubmit | Stop => true
      end)
    (List.filter (λ h, bool_decide (h_event_name h = event)) handlers).

Definition select_handlers (handlers : list ConfiguredHandler) (event : HookEventName) (input : option rstring)
  : list ConfiguredHandler :=
  select_handlers_for_matcher_inputs handlers event (option_list input).

Definition scope_for_event (event : HookEventName) : HookScope :=
  match event with
  | SessionStart => Thread
  | PreToolUse | PermissionRequest | PostToolUse | UserPromptSubmit | Stop => Turn
  end.

(** [now] is the time in seconds. *)
Definition running_summary (now : Z) (h : ConfiguredHandler) : HookRunSummary :=
  {| id := run_id h; event_name := h_event_name h; handler_type := HCommand; execution_mode := Sync;
     scope := scope_for_event (h_event_name h); source_path := h_source_path h; source := h_source h;
     display_order := h_display_order h; status := Running; status_message := h_status_message h;
     started_at := now; completed_at := None; duration_ms := None; entries := [] |}.

Definition completed_summary (h : ConfiguredHandler) (r : CommandRunResult) (st : HookRunStatus)
    (es : list HookOutputEntry) : HookRunSummary :=
  {| id := run_id h; event_name := h_event_name h; handler_type := HCommand; execution_mode := Sync;
     scope := scope_for_event (h_event_name h); source_path := h_source_path h; source := h_source h;
     display_order := h_display_order h; status := st; status_message := h_status_message h;
     started_at := r_started_at r; completed_at := Some (r_completed_at r); duration_ms := Some (r_duration_ms r);
     entries := es |}.

Record ParsedHandler (T : Type) := { completed : HookCompletedEvent; data : T }.
Arguments completed {T} _.
Arguments data {T} _.

(** The results are zipped with the handlers, one each and in order. *)
Definition execute_handlers {T} (shell : CommandShell) (handlers : list ConfiguredHandler) (input_json cwd : rstring)
    (turn : option rstring) (parse : ConfiguredHandler → CommandRunResult → option rstring → ParsedHandler T)
  : list (ParsedHandler T) :=
  (λ h, parse h (run_command shell h input_json cwd) turn) <$> handlers.

Definition serialization_failure_hook_events (now : Z) (handlers : list ConfiguredHandler) (turn : option rstring)
    (error_message : rstring) : list HookCompletedEvent :=
  (λ h,
    let r := running_summary now h in
    {| turn_id := turn;
       run := {| id := id r; event_name := event_name r; handler_type := handler_type r;
                 execution_mode := execution_mode r; scope := scope r; source_path := source_path r;
                 source := source r; display_order := display_order r; status := Failed;
                 status_message := status_message r; started_at := started_at r;
                 completed_at := Some (started_at r); duration_ms := Some 0%Z;
                 entries := [{| kind := KError; text := error_message |}] |} |}) <$> handlers.

Definition serialization_failure_hook_events_for_tool_use (now : Z) (handlers : list ConfiguredHandler)
    (turn : option rstring) (error_message tool_use_id : rstring) : list HookCompletedEvent :=
  (λ event, hook_completed_for_tool_use event tool_use_id)
    <$> serialization_failure_hook_events now handlers turn error_message.

(** The status and the one entry of a run that failed. *)
Definition failed (message : rstring) : HookRunStatus * list HookOutputEntry :=
  (Failed, [{| kind := KError; text := message |}]).

Definition exit_message (code : Z) : rstring := $"hook exited with code " ++ Delegation.show_Z code.
Definition NO_STATUS : rstring := $"hook exited without a status code".

(** The warning that the output may carry. *)
Definition warning (u : UniversalOutput) : list HookOutputEntry :=
  match system_message u with Some m => [{| kind := KWarning; text := m |}] | None => [] end.

Definition looks_like_json (trimmed : rstring) : bool := starts_with $"{" trimmed || starts_with $"[" trimmed.

(** ** Before a tool (events/pre_tool_use.rs) *)

Record PreToolUseRequest := {
  pre_common : CommonInput;
  pre_turn_id : rstring;
  pre_tool_name : rstring;
  pre_matcher_aliases : list rstring;
  pre_tool_use_id : rstring;
  pre_tool_input : Value }.

Record PreToolUseOutcome := {
  pre_hook_events : list HookCompletedEvent;
  pre_should_block : bool;
  pre_block_reason : option rstring }.

Record PreToolUseHandlerData := { pd_should_block : bool; pd_block_reason : option rstring }.

Definition pre_tool_use_result (r : CommandRunResult)
  : HookRunStatus * list HookOutputEntry * PreToolUseHandlerData :=
  let none := {| pd_should_block := false; pd_block_reason := None |} in
  let block reason := {| pd_should_block := true; pd_block_reason := Some reason |} in
  match error r with
  | Some error => (failed error, none)
  | None =>
      match exit_code r with
      | Some 0%Z =>
          let trimmed_stdout := trim (stdout r) in
          if is_empty trimmed_stdout then (Completed, [], none)
          else
            match parse_pre_tool_use (stdout r) with
            | Some parsed =>
                let entries := warning (pre_out_universal parsed) in
                match pre_out_invalid_reason parsed with
                | Some invalid_reason => (Failed, entries ++ [{| kind := KError; text := invalid_reason |}], none)
                | None =>
                    match pre_out_block_reason parsed with
                    | Some reason =>
                        (Blocked, entries ++ [{| kind := KFeedback; text := reason |}], block reason)
                    | None => (Completed, entries, none)
                    end
                end
            | None =>
                if looks_like_json trimmed_stdout
                then (failed $"hook returned invalid pre-tool-use JSON output", none)
                else (Completed, [], none)
            end
      | Some 2%Z =>
          match trimmed_non_empty (stderr r) with
          | Some reason => (Blocked, [{| kind := KFeedback; text := reason |}], block reason)
          | None =>
              (failed $"PreToolUse hook exited with code 2 but did not write a blocking reason to stderr", none)
          end
      | Some exit_code => (failed (exit_message exit_code), none)
      | None => (failed NO_STATUS, none)
      end
  end.

(** The event and the data that [parse_completed] makes of a result. *)
Definition parsed_handler {T} (result : CommandRunResult → HookRunStatus * list HookOutputEntry * T)
    (h : ConfiguredHandler) (r : CommandRunResult) (turn : option rstring) : ParsedHandler T :=
  let '(st, es, d) := result r in
  {| completed := {| turn_id := turn; run := completed_summary h r st es |}; data := d |}.

Definition pre_tool_use_parse_completed : ConfiguredHandler → CommandRunResult → option rstring → ParsedHandler _ :=
  parsed_handler pre_tool_use_result.

Definition pre_tool_use_preview (now : Z) (handlers : list ConfiguredHandler) (q : PreToolUseRequest)
  : list HookRunSummary :=
  (λ h, hook_run_for_tool_use (running_summary now h) (pre_tool_use_id q))
    <$> select_handlers_for_matcher_inputs handlers PreToolUse (matcher_inputs (pre_tool_name q) (pre_matcher_aliases q)).

Definition pre_tool_use_run (now : Z) (handlers : list ConfiguredHandler) (shell : CommandShell)
    (q : PreToolUseRequest) : PreToolUseOutcome :=
  let matched :=
    select_handlers_for_matcher_inputs handlers PreToolUse
      (matcher_inputs (pre_tool_name q) (pre_matcher_aliases q)) in
  if is_empty matched then {| pre_hook_events := []; pre_should_block := false; pre_block_reason := None |}
  else
    match to_string (PreToolUseCommandInput (pre_common q) (pre_turn_id q) (pre_tool_name q) (pre_tool_input q)
                       (pre_tool_use_id q)) with
    | Err error =>
        {| pre_hook_events :=
             serialization_failure_hook_events_for_tool_use now matched (Some (pre_turn_id q))
               ($"failed to serialize pre tool use hook input: " ++ error) (pre_tool_use_id q);
           pre_should_block := false; pre_block_reason := None |}
    | Ok input_json =>
        let results :=
          execute_handlers shell matched input_json (cwd (pre_common q)) (Some (pre_turn_id q))
            pre_tool_use_parse_completed in
        {| pre_hook_events :=
             (λ result, hook_completed_for_tool_use (completed result) (pre_tool_use_id q)) <$> results;
           pre_should_block := existsb (λ result, pd_should_block (data result)) results;
           pre_block_reason := head (omap (λ result, pd_block_reason (data result)) results) |}
    end.

(** ** When a tool asks for permission (events/permission_request.rs) *)

Record PermissionRequestRequest := {
  perm_common : CommonInput;
  perm_turn_id : rstring;
  perm_tool_name : rstring;
  perm_matcher_aliases : list rstring;
  run_id_suffix : rstring;
  perm_tool_input : Value }.

Record PermissionRequestOutcome := {
  perm_hook_events : list HookCompletedEvent;
  outcome_decision : option PermissionRequestDecision }.

Record PermissionRequestHandlerData := { rd_decision : option PermissionRequestDecision }.

Fixpoint resolve_from (resolved_allow : option PermissionRequestDecision) (decisions : list PermissionRequestDecision)
  : option PermissionRequestDecision :=
  match decisions with
  | [] => resolved_allow
  | Allow :: decisions => resolve_from (Some Allow) decisions
  | Deny message :: _ => Some (Deny message)
  end.

Definition resolve_permission_request_decision : list PermissionRequestDecision → option PermissionRequestDecision :=
  resolve_from None.

Definition permission_request_result (r : CommandRunResult)
  : HookRunStatus * list HookOutputEntry * PermissionRequestHandlerData :=
  let none := {| rd_decision := None |} in
  match error r with
  | Some error => (failed error, none)
  | None =>
      match exit_code r with
      | Some 0%Z =>
          let trimmed_stdout := trim (stdout r) in
          if is_empty trimmed_stdout then (Completed, [], none)
          else
            match parse_permission_request (stdout r) with
            | Some parsed =>
                let entries := warning (perm_out_universal parsed) in
                match perm_out_invalid_reason parsed with
                | Some invalid_reason => (Failed, entries ++ [{| kind := KError; text := invalid_reason |}], none)
                | None =>
                    match perm_out_decision parsed with
                    | Some Allow => (Completed, entries, {| rd_decision := Some Allow |})
                    | Some (Deny message) =>
                        (Blocked, entries ++ [{| kind := KFeedback; text := message |}],
                         {| rd_decision := Some (Deny message) |})
                    | None => (Completed, entries, none)
                    end
                end
            | None =>
                if looks_like_json trimmed_stdout
                then (failed $"hook returned invalid permission-request JSON output", none)
                else (Completed, [], none)
            end
      | Some 2%Z =>
          match trimmed_non_empty (stderr r) with
          | Some message =>
              (Blocked, [{| kind := KFeedback; text := message |}], {| rd_decision := Some (Deny message) |})
          | None =>
              (failed $"PermissionRequest hook exited with code 2 but did not write a denial reason to stderr", none)
          end
      | Some exit_code => (failed (exit_message exit_code), none)
      | None => (failed NO_STATUS, none)
      end
  end.

Definition permission_request_parse_completed
  : ConfiguredHandler → CommandRunResult → option rstring → ParsedHandler _ :=
  parsed_handler permission_request_result.

Definition permission_request_preview (now : Z) (handlers : list ConfiguredHandler) (q : PermissionRequestRequest)
  : list HookRunSummary :=
  (λ h, hook_run_for_tool_use (running_summary now h) (run_id_suffix q))
    <$> select_handlers_for_matcher_inputs handlers PermissionRequest
          (matcher_inputs (perm_tool_name q) (perm_matcher_aliases q)).

Definition permission_request_run (now : Z) (handlers : list ConfiguredHandler) (shell : CommandShell)
    (q : PermissionRequestRequest) : PermissionRequestOutcome :=
  let matched :=
    select_handlers_for_matcher_inputs handlers PermissionRequest
      (matcher_inputs (perm_tool_name q) (perm_matcher_aliases q)) in
  if is_empty matched then {| perm_hook_events := []; outcome_decision := None |}
  else
    match to_string (PermissionRequestCommandInput (perm_common q) (perm_turn_id q) (perm_tool_name q)
                       (perm_tool_input q)) with
    | Err error =>
        {| perm_hook_events :=
             serialization_failure_hook_events_for_tool_use now matched (Some (perm_turn_id q))
               ($"failed to serialize permission request hook input: " ++ error) (run_id_suffix q);
           outcome_decision := None |}
    | Ok input_json =>
        let results :=
          execute_handlers shell matched input_json (cwd (perm_common q)) (Some (perm_turn_id q))
            permission_request_parse_completed in
        {| perm_hook_events :=
             (λ result, hook_completed_for_tool_use (completed result) (run_id_suffix q)) <$> results;
           outcome_decision :=
             resolve_permission_request_decision (omap (λ result, rd_decision (data result)) results) |}
    end.

(** ** After a tool (events/post_tool_use.rs) *)

Record PostToolUseRequest := {
  post_common : CommonInput;
  post_turn_id : rstring;
  post_tool_name : rstring;
  post_matcher_aliases : list rstring;
  post_tool_use_id : rstring;
  post_tool_input : Value;
  post_tool_response : Value }.

Record PostToolUseOutcome := {
  post_hook_events : list HookCompletedEvent;
  post_should_stop : bool;
  post_stop_reason : option rstring;
  post_additional_contexts : list rstring;
  feedback_message : option rstring }.

Record PostToolUseHandlerData := {
  po_should_stop : bool;
  po_stop_reason : option rstring;
  po_additional_contexts_for_model : list rstring;
  po_feedback_messages_for_model : list rstring }.

(** The entry and the text for the model of [append_additional_context]. *)
Definition context_entries (context : option rstring) : list HookOutputEntry :=
  match context with Some context => [{| kind := KContext; text := context |}] | None => [] end.

Definition post_tool_use_result (r : CommandRunResult)
  : HookRunStatus * list HookOutputEntry * PostToolUseHandlerData :=
  let with_contexts contexts feedback :=
    {| po_should_stop := false; po_stop_reason := None; po_additional_contexts_for_model := contexts;
       po_feedback_messages_for_model := feedback |} in
  let none := with_contexts [] [] in
  match error r with
  | Some error => (failed error, none)
  | None =>
      match exit_code r with
      | Some 0%Z =>
          let trimmed_stdout := trim (stdout r) in
          if is_empty trimmed_stdout then (Completed, [], none)
          else
            match parse_post_tool_use (stdout r) with
            | Some parsed =>
                let u := post_out_universal parsed in
                let context :=
                  if is_some (post_out_invalid_reason parsed) || is_some (post_out_invalid_block_reason parsed)
                  then None else post_out_additional_context parsed in
                let entries := warning u ++ context_entries context in
                let contexts := option_list context in
                if negb (continue_processing u) then
                  let stop_text := default $"PostToolUse hook stopped execution" (stop_reason u) in
                  (Stopped, entries ++ [{| kind := KStop; text := stop_text |}],
                   {| po_should_stop := true; po_stop_reason := stop_reason u;
                      po_additional_contexts_for_model := contexts;
                      po_feedback_messages_for_model :=
                        [default stop_text (post_out_reason parsed ≫= trimmed_non_empty)] |})
                else
                  match post_out_invalid_reason parsed, post_out_invalid_block_reason parsed with
                  | Some invalid_reason, _ =>
                      (Failed, entries ++ [{| kind := KError; text := invalid_reason |}], with_contexts contexts [])
                  | None, Some invalid_block_reason =>
                      (Failed, entries ++ [{| kind := KError; text := invalid_block_reason |}], with_contexts contexts [])
                  | None, None =>
                      if post_out_should_block parsed then
                        match post_out_reason parsed with
                        | Some reason =>
                            (Blocked, entries ++ [{| kind := KFeedback; text := reason |}],
                             with_contexts contexts [reason])
                        | None => (Blocked, entries, with_contexts contexts [])
                        end
                      else (Completed, entries, with_contexts contexts [])
                  end
            | None =>
                if looks_like_json trimmed_stdout
                then (failed $"hook returned invalid post-tool-use JSON output", none)
                else (Completed, [], none)
            end
      | Some 2%Z =>
          match trimmed_non_empty (stderr r) with
          | Some reason => (Completed, [{| kind := KFeedback; text := reason |}], with_contexts [] [reason])
          | None => (failed $"PostToolUse hook exited with code 2 but did not write feedback to stderr", none)
          end
      | Some exit_code => (failed (exit_message exit_code), none)
      | None => (failed NO_STATUS, none)
      end
  end.

Definition post_tool_use_parse_completed : ConfiguredHandler → CommandRunResult → option rstring → ParsedHandler _ :=
  parsed_handler post_tool_use_result.

Definition post_tool_use_preview (now : Z) (handlers : list ConfiguredHandler) (q : PostToolUseRequest)
  : list HookRunSummary :=
  (λ h, hook_run_for_tool_use (running_summary now h) (post_tool_use_id q))
    <$> select_handlers_for_matcher_inputs handlers PostToolUse
          (matcher_inputs (post_tool_name q) (post_matcher_aliases q)).

Definition post_tool_use_run (now : Z) (handlers : list ConfiguredHandler) (shell : CommandShell)
    (q : PostToolUseRequest) : PostToolUseOutcome :=
  let matched :=
    select_handlers_for_matcher_inputs handlers PostToolUse
      (matcher_inputs (post_tool_name q) (post_matcher_aliases q)) in
  let nothing events :=
    {| post_hook_events := events; post_should_stop := false; post_stop_reason := None;
       post_additional_contexts := []; feedback_message := None |} in
  if is_empty matched then nothing []
  else
    match to_string (PostToolUseCommandInput (post_common q) (post_turn_id q) (post_tool_name q) (post_tool_input q)
                       (post_tool_response q) (post_tool_use_id q)) with
    | Err error =>
        nothing (serialization_failure_hook_events_for_tool_use now matched (Some (post_turn_id q))
                   ($"failed to serialize post tool use hook input: " ++ error) (post_tool_use_id q))
    | Ok input_json =>
        let results :=
          execute_handlers shell matched input_json (cwd (post_common q)) (Some (post_turn_id q))
            post_tool_use_parse_completed in
        {| post_hook_events :=
             (λ result, hook_completed_for_tool_use (completed result) (post_tool_use_id q)) <$> results;
           post_should_stop := existsb (λ result, po_should_stop (data result)) results;
           post_stop_reason := head (omap (λ result, po_stop_reason (data result)) results);
           post_additional_contexts :=
             concat ((λ result, po_additional_contexts_for_model (data result)) <$> results);
           feedback_message :=
             join_text_chunks (concat ((λ result, po_feedback_messages_for_model (data result)) <$> results)) |}
    end.

(** ** Session start and prompt submission (events/session_start.rs,
    events/user_prompt_submit.rs) *)

Inductive SessionStartSource := Startup | Resume | Clear.
Definition source_as_str (s : SessionStartSource) : rstring :=
  match s with Startup => $"startup" | Resume => $"resume" | Clear => $"clear" end.

Record SessionStartRequest := { start_common : CommonInput; start_source : SessionStartSource }.

Record UserPromptSubmitRequest := {
  prompt_common : CommonInput;
  prompt_turn_id : rstring;
  prompt : rstring }.

(** [SessionStartOutcome] and [UserPromptSubmitOutcome], which have the same
    fields, and the data of their handlers. *)
Record ContextOutcome := {
  co_hook_events : list HookCompletedEvent;
  co_should_stop : bool;
  co_stop_reason : option rstring;
  co_additional_contexts : list rstring }.

Record ContextHandlerData := {
  cd_should_stop : bool;
  cd_stop_reason : option rstring;
  cd_additional_contexts_for_model : list rstring }.

Definition context_none : ContextHandlerData :=
  {| cd_should_stop := false; cd_stop_reason := None; cd_additional_contexts_for_model := [] |}.

Definition stop_entries (reason : option rstring) : list HookOutputEntry :=
  match reason with Some reason => [{| kind := KStop; text := reason |}] | None => [] end.

Definition session_start_result (r : CommandRunResult) : HookRunStatus * list HookOutputEntry * ContextHandlerData :=
  match error r with
  | Some error => (failed error, context_none)
  | None =>
      match exit_code r with
      | Some 0%Z =>
          let trimmed_stdout := trim (stdout r) in
          if is_empty trimmed_stdout then (Completed, [], context_none)
          else
            match parse_session_start (stdout r) with
            | Some parsed =>
                let u := so_universal parsed in
                let entries := warning u ++ context_entries (so_additional_context parsed) in
                let contexts := option_list (so_additional_context parsed) in
                if negb (continue_processing u) then
                  (Stopped, entries ++ stop_entries (stop_reason u),
                   {| cd_should_stop := true; cd_stop_reason := stop_reason u;
                      cd_additional_contexts_for_model := contexts |})
                else
                  (Completed, entries,
                   {| cd_should_stop := false; cd_stop_reason := None;
                      cd_additional_contexts_for_model := contexts |})
            | None =>
                if looks_like_json trimmed_stdout
                then (failed $"hook returned invalid session start JSON output", context_none)
                else
                  (Completed, [{| kind := KContext; text := trimmed_stdout |}],
                   {| cd_should_stop := false; cd_stop_reason := None;
                      cd_additional_contexts_for_model := [trimmed_stdout] |})
            end
      | Some exit_code => (failed (exit_message exit_code), context_none)
      | None => (failed NO_STATUS, context_none)
      end
  end.

Definition session_start_parse_completed : ConfiguredHandler → CommandRunResult → option rstring → ParsedHandler _ :=
  parsed_handler session_start_result.

Definition user_prompt_submit_result (r : CommandRunResult)
  : HookRunStatus * list HookOutputEntry * ContextHandlerData :=
  match error r with
  | Some error => (failed error, context_none)
  | None =>
      match exit_code r with
      | Some 0%Z =>
          let trimmed_stdout := trim (stdout r) in
          if is_empty trimmed_stdout then (Completed, [], context_none)
          else
            match parse_user_prompt_submit (stdout r) with
            | Some parsed =>
                let u := prompt_out_universal parsed in
                let context :=
                  if is_some (prompt_out_invalid_block_reason parsed) then None
                  else prompt_out_additional_context parsed in
                let entries := warning u ++ context_entries context in
                let contexts := option_list context in
                let going :=
                  {| cd_should_stop := false; cd_stop_reason := None;
                     cd_additional_contexts_for_model := contexts |} in
                if negb (continue_processing u) then
                  (Stopped, entries ++ stop_entries (stop_reason u),
                   {| cd_should_stop := true; cd_stop_reason := stop_reason u;
                      cd_additional_contexts_for_model := contexts |})
                else
                  match prompt_out_invalid_block_reason parsed with
                  | Some invalid_block_reason =>
                      (Failed, entries ++ [{| kind := KError; text := invalid_block_reason |}], going)
                  | None =>
                      if prompt_out_should_block parsed then
                        (Blocked,
                         entries ++ match prompt_out_reason parsed with
                                    | Some reason => [{| kind := KFeedback; text := reason |}]
                                    | None => []
                                    end,
                         {| cd_should_stop := true; cd_stop_reason := prompt_out_reason parsed;
                            cd_additional_contexts_for_model := contexts |})
                      else (Completed, entries, going)
                  end
            | None =>
                if looks_like_json trimmed_stdout
                then (failed $"hook returned invalid user prompt submit JSON output", context_none)
                else
                  (Completed, [{| kind := KContext; text := trimmed_stdout |}],
                   {| cd_should_stop := false; cd_stop_reason := None;
                      cd_additional_contexts_for_model := [trimmed_stdout] |})
            end
      | Some 2%Z =>
          match trimmed_non_empty (stderr r) with
          | Some reason =>
              (Blocked, [{| kind := KFeedback; text := reason |}],
               {| cd_should_stop := true; cd_stop_reason := Some reason; cd_additional_contexts_for_model := [] |})
          | None =>
              (failed $"UserPromptSubmit hook exited with code 2 but did not write a blocking reason to stderr",
               context_none)
          end
      | Some exit_code => (failed (exit_message exit_code), context_none)
      | None => (failed NO_STATUS, context_none)
      end
  end.

Definition user_prompt_submit_parse_completed
  : ConfiguredHandler → CommandRunResult → option rstring → ParsedHandler _ :=
  parsed_handler user_prompt_submit_result.

Definition session_start_preview (now : Z) (handlers : list ConfiguredHandler) (q : SessionStartRequest)
  : list HookRunSummary :=
  running_summary now <$> select_handlers handlers SessionStart (Some (source_as_str (start_source q))).

Definition user_prompt_submit_preview (now : Z) (handlers : list ConfiguredHandler) (q : UserPromptSubmitRequest)
  : list HookRunSummary :=
  running_summary now <$> select_handlers handlers UserPromptSubmit None.

Definition no_context (events : list HookCompletedEvent) : ContextOutcome :=
  {| co_hook_events := events; co_should_stop := false; co_stop_reason := None; co_additional_contexts := [] |}.

Definition context_outcome (results : list (ParsedHandler ContextHandlerData)) : ContextOutcome :=
  {| co_hook_events := completed <$> results;
     co_should_stop := existsb (λ result, cd_should_stop (data result)) results;
     co_stop_reason := head (omap (λ result, cd_stop_reason (data result)) results);
     co_additional_contexts := concat ((λ result, cd_additional_contexts_for_model (data result)) <$> results) |}.

Definition session_start_run (now : Z) (handlers : list ConfiguredHandler) (shell : CommandShell)
    (q : SessionStartRequest) (turn : option rstring) : ContextOutcome :=
  let matched := select_handlers handlers SessionStart (Some (source_as_str (start_source q))) in
  if is_empty matched then no_context []
  else
    match to_string (SessionStartCommandInput (start_common q) (source_as_str (start_source q))) with
    | Err error =>
        no_context (serialization_failure_hook_events now matched turn
                      ($"failed to serialize session start hook input: " ++ error))
    | Ok input_json =>
        context_outcome
          (execute_handlers shell matched input_json (cwd (start_common q)) turn session_start_parse_completed)
    end.

Definition user_prompt_submit_run (now : Z) (handlers : list ConfiguredHandler) (shell : CommandShell)
    (q : UserPromptSubmitRequest) : ContextOutcome :=
  let matched := select_handlers handlers UserPromptSubmit None in
  if is_empty matched then no_context []
  else
    match to_string (UserPromptSubmitCommandInput (prompt_common q) (prompt_turn_id q) (prompt q)) with
    | Err error =>
        no_context (serialization_failure_hook_events now matched (Some (prompt_turn_id q))
                      ($"failed to serialize user prompt submit hook input: " ++ error))
    | Ok input_json =>
        context_outcome
          (execute_handlers shell matched input_json (cwd (prompt_common q)) (Some (prompt_turn_id q))
             user_prompt_submit_parse_completed)
    end.

(** ** When a turn stops (events/stop.rs) *)

Record StopRequest := {
  stop_common : CommonInput;
  stop_turn_id : rstring;
  stop_hook_active : bool;
  last_assistant_message : option rstring }.

Record StopHandlerData := {
  sd_should_stop : bool;
  sd_stop_reason : option rstring;
  sd_should_block : bool;
  sd_block_reason : option rstring;
  sd_continuation_fragments : list HookPromptFragment }.

(** [StopOutcome]: the events and the aggregated data. *)
Record StopOutcome := { stop_hook_events : list HookCompletedEvent; stop_data : StopHandlerData }.

Definition stop_none : StopHandlerData :=
  {| sd_should_stop := false; sd_stop_reason := None; sd_should_block := false; sd_block_reason := None;
     sd_continuation_fragments := [] |}.

Definition STOP_BLANK : rstring := $"Stop hook returned decision:block without a non-empty reason".

(** What the handler with the given id blocks with. *)
Definition stop_block (hook_id reason : rstring) : StopHandlerData :=
  {| sd_should_stop := false; sd_stop_reason := None; sd_should_block := true; sd_block_reason := Some reason;
     sd_continuation_fragments := [{| fragment_text := reason; hook_run_id := hook_id |}] |}.

Definition stop_result (hook_id : rstring) (r : CommandRunResult)
  : HookRunStatus * list HookOutputEntry * StopHandlerData :=
  match error r with
  | Some error => (failed error, stop_none)
  | None =>
      match exit_code r with
      | Some 0%Z =>
          if is_empty (trim (stdout r)) then (Completed, [], stop_none)
          else
            match parse_stop (stdout r) with
            | Some parsed =>
                let u := stop_out_universal parsed in
                let entries := warning u in
                if negb (continue_processing u) then
                  (Stopped, entries ++ stop_entries (stop_reason u),
                   {| sd_should_stop := true; sd_stop_reason := stop_reason u; sd_should_block := false;
                      sd_block_reason := None; sd_continuation_fragments := [] |})
                else
                  match stop_out_invalid_block_reason parsed with
                  | Some invalid_block_reason =>
                      (Failed, entries ++ [{| kind := KError; text := invalid_block_reason |}], stop_none)
                  | None =>
                      if stop_out_should_block parsed then
                        match stop_out_reason parsed ≫= trimmed_non_empty with
                        | Some reason =>
                            (Blocked, entries ++ [{| kind := KFeedback; text := reason |}], stop_block hook_id reason)
                        | None => (Failed, entries ++ [{| kind := KError; text := STOP_BLANK |}], stop_none)
                        end
                      else (Completed, entries, stop_none)
                  end
            | None => (failed $"hook returned invalid stop hook JSON output", stop_none)
            end
      | Some 2%Z =>
          match trimmed_non_empty (stderr r) with
          | Some reason => (Blocked, [{| kind := KFeedback; text := reason |}], stop_block hook_id reason)
          | None =>
              (failed $"Stop hook exited with code 2 but did not write a continuation prompt to stderr", stop_none)
          end
      | Some exit_code => (failed (exit_message exit_code), stop_none)
      | None => (failed NO_STATUS, stop_none)
      end
  end.

(** The id of the completed run is the run id of the handler. *)
Definition stop_parse_completed (h : ConfiguredHandler) (r : CommandRunResult) (turn : option rstring)
  : ParsedHandler StopHandlerData :=
  parsed_handler (stop_result (run_id h)) h r turn.

Definition aggregate_results (results : list StopHandlerData) : StopHandlerData :=
  let should_stop := existsb sd_should_stop results in
  let should_block := negb should_stop && existsb sd_should_block results in
  {| sd_should_stop := should_stop;
     sd_stop_reason := head (omap sd_stop_reason results);
     sd_should_block := should_block;
     sd_block_reason := if should_block then join_text_chunks (omap sd_block_reason results) else None;
     sd_continuation_fragments :=
       if should_block then concat (sd_continuation_fragments <$> List.filter sd_should_block results) else [] |}.

Definition stop_preview (now : Z) (handlers : list ConfiguredHandler) (q : StopRequest) : list HookRunSummary :=
  running_summary now <$> select_handlers handlers Stop None.

Definition stop_run (now : Z) (handlers : list ConfiguredHandler) (shell : CommandShell) (q : StopRequest) : StopOutcome :=
  let matched := select_handlers handlers Stop None in
  if is_empty matched then {| stop_hook_events := []; stop_data := stop_none |}
  else
    match to_string (StopCommandInput (stop_common q) (stop_turn_id q) (stop_hook_active q)
                       (last_assistant_message q)) with
    | Err error =>
        {| stop_hook_events :=
             serialization_failure_hook_events now matched (Some (stop_turn_id q))
               ($"failed to serialize stop hook input: " ++ error);
           stop_data := stop_none |}
    | Ok input_json =>
        let results :=
          execute_handlers shell matched input_json (cwd (stop_common q)) (Some (stop_turn_id q))
            stop_parse_completed in
        {| stop_hook_events := completed <$> results; stop_data := aggregate_results (data <$> results) |}
    end.

(** ** The callers in core (core/src/hook_runtime.rs) *)

Record HookToolName := { hook_name : rstring; hook_aliases : list rstring }.
Definition hook_tool_new (name : rstring) : HookToolName := {| hook_name := name; hook_aliases := [] |}.
Definition hook_tool_apply_patch : HookToolName :=
  {| hook_name := $"apply_patch"; hook_aliases := [ $"Write"; $"Edit"] |}.
Definition hook_tool_bash : HookToolName := hook_tool_new $"Bash".

(** What the session and the turn contribute to every request. *)
Record HookContext := {
  conversation_id : rstring;
  sub_id : rstring;
  hook_cwd : rstring;
  hook_transcript_path : option rstring;
  model_slug : rstring;
  approval_policy : PatchSafety.AskForApproval;
  engine_handlers : list ConfiguredHandler;
  engine_shell : CommandShell }.

Definition hook_permission_mode (p : PatchSafety.AskForApproval) : rstring :=
  match p with PatchSafety.Never => $"bypassPermissions" | _ => $"default" end.

Definition common_input (c : HookContext) : CommonInput :=
  {| session_id := conversation_id c; transcript_path := hook_transcript_path c; cwd := hook_cwd c;
     model := model_slug c; permission_mode := hook_permission_mode (approval_policy c) |}.

(** The events the session sends. *)
Inductive HookEventMsg :=
| HookStarted (turn : option rstring) (r : HookRunSummary)
| HookCompleted (e : HookCompletedEvent).

Definition emit_hook_started_events (c : HookContext) (preview_runs : list HookRunSummary) : list HookEventMsg :=
  HookStarted (Some (sub_id c)) <$> preview_runs.
Definition emit_hook_completed_events (events : list HookCompletedEvent) : list HookEventMsg :=
  HookCompleted <$> events.

(** [command_of] is the string at the key command of the tool's input, if any;
    the times are those of the preview and of the run. *)
Definition run_pre_tool_use_hooks (command_of : Value → option rstring) (now now' : Z) (c : HookContext)
    (tool_use_id : rstring) (tool : HookToolName) (tool_input : Value) : list HookEventMsg * option rstring :=
  let request :=
    {| pre_common := common_input c; pre_turn_id := sub_id c; pre_tool_name := hook_name tool;
       pre_matcher_aliases := hook_aliases tool; pre_tool_use_id := tool_use_id; pre_tool_input := tool_input |} in
  let outcome := pre_tool_use_run now' (engine_handlers c) (engine_shell c) request in
  (emit_hook_started_events c (pre_tool_use_preview now (engine_handlers c) request)
     ++ emit_hook_completed_events (pre_hook_events outcome),
   if pre_should_block outcome then
     (λ reason,
       match (if (hook_name tool =?s $"Bash") || (hook_name tool =?s $"apply_patch")
              then command_of tool_input else None) with
       | Some command => $"Command blocked by PreToolUse hook: " ++ reason ++ $". Command: " ++ command
       | None => $"Tool call blocked by PreToolUse hook: " ++ reason ++ $". Tool: " ++ hook_name tool
       end) <$> pre_block_reason outcome
   else None).

Definition run_permission_request_hooks (now now' : Z) (c : HookContext) (suffix : rstring) (tool : HookToolName)
    (tool_input : Value) : list HookEventMsg * option PermissionRequestDecision :=
  let request :=
    {| perm_common := common_input c; perm_turn_id := sub_id c; perm_tool_name := hook_name tool;
       perm_matcher_aliases := hook_aliases tool; run_id_suffix := suffix; perm_tool_input := tool_input |} in
  let outcome := permission_request_run now' (engine_handlers c) (engine_shell c) request in
  (emit_hook_started_events c (permission_request_preview now (engine_handlers c) request)
     ++ emit_hook_completed_events (perm_hook_events outcome),
   outcome_decision outcome).

Definition run_user_prompt_submit_hooks (now now' : Z) (c : HookContext) (text : rstring)
  : list HookEventMsg * (bool * list rstring) :=
  let request := {| prompt_common := common_input c; prompt_turn_id := sub_id c; prompt := text |} in
  let outcome := user_prompt_submit_run now' (engine_handlers c) (engine_shell c) request in
  (emit_hook_started_events c (user_prompt_submit_preview now (engine_handlers c) request)
     ++ emit_hook_completed_events (co_hook_events outcome),
   (co_should_stop outcome, co_additional_contexts outcome)).

Definition run_post_tool_use_hooks (now now' : Z) (c : HookContext) (tool_use_id tool_name : rstring)
    (aliases : list rstring) (tool_input tool_response : Value) : list HookEventMsg * PostToolUseOutcome :=
  let request :=
    {| post_common := common_input c; post_turn_id := sub_id c; post_tool_name := tool_name;
       post_matcher_aliases := aliases; post_tool_use_id := tool_use_id; post_tool_input := tool_input;
       post_tool_response := tool_response |} in
  let outcome := post_tool_use_run now' (engine_handlers c) (engine_shell c) request in
  (emit_hook_started_events c (post_tool_use_preview now (engine_handlers c) request)
     ++ emit_hook_completed_events (post_hook_events outcome),
   outcome).
End engine.
Arguments PreToolUseRequest : clear implicits.
Arguments PermissionRequestRequest : clear implicits.
Arguments PostToolUseRequest : clear implicits.
Arguments completed {T} _.
Arguments data {T} _.
End Hooks.
