(* ===== verification/HookTheorems.v ===== *)
(** * What hooks can do: theorems about [Hooks]

    The answer of a hook is described on what its process did ([answer] for a
    permission request, [blocks] before a tool, [holds_up] when a turn stops);
    the theorems say how the answers of the handlers that match are combined. *)

From S2P Require Import Prelude Delegation PatchSafety Hooks.

Module HookTheorems.
Import Hooks.

(** ** Lists *)

Lemma filter_twice {A} (f g : A → bool) l : List.filter f (List.filter g l) = List.filter (λ x, g x && f x) l.
Proof.
  induction l as [|x l IH]; [done|]. cbn [List.filter]. destruct (g x); cbn [andb]; [|done].
  cbn [List.filter]. by destruct (f x); rewrite IH.
Qed.

(** The first value that a partial function finds. *)
Lemma head_omap {A B} (f : A → option B) (l : list A) y :
  head (omap f l) = Some y ↔
  ∃ before x after, l = before ++ x :: after ∧ f x = Some y ∧ ∀ z, z ∈ before → f z = None.
Proof.
  induction l as [|a l IH].
  { split; [done|]. intros ([|? ?] & ? & ? & ? & _); discriminate. }
  rewrite omap_cons_app. destruct (f a) as [b|] eqn:Ha; cbn [option_list app head].
  - split.
    + intros [= ->]. exists [], a, l. split_and!; [done|done|by intros z Hz%elem_of_nil].
    + intros ([|z before] & x & after & Hl & Hx & Hb); cbn in Hl; injection Hl as -> ->; [by rewrite <-Hx, Ha|].
      specialize (Hb z (list_elem_of_here _ _)). congruence.
  - rewrite IH. split.
    + intros (before & x & after & -> & Hx & Hb). exists (a :: before), x, after. split_and!; [done|done|].
      intros z [->|Hz]%elem_of_cons; [done|by apply Hb].
    + intros ([|z before] & x & after & Hl & Hx & Hb); cbn in Hl; injection Hl as -> ->; [congruence|].
      exists before, x, after. split_and!; [done|done|]. intros z' Hz. apply Hb. by right.
Qed.

Lemma omap_of_fmap {A B C} (f : A → B) (g : B → option C) (l : list A) : omap g (f <$> l) = omap (λ x, g (f x)) l.
Proof.
  induction l as [|x l IH]; [done|]. rewrite fmap_cons, !omap_cons_app. by rewrite IH.
Qed.

Lemma omap_ext_all {A B} (f g : A → option B) (l : list A) : (∀ x, f x = g x) → omap f l = omap g l.
Proof. intros Hf. apply list_omap_ext, Forall_Forall2_diag, Forall_forall. intros x _. apply Hf. Qed.

Lemma omap_split {A B} (f : A → option B) (l : list A) before y after :
  omap f l = before ++ y :: after →
  ∃ l1 x l2, l = l1 ++ x :: l2 ∧ f x = Some y ∧ omap f l1 = before.
Proof.
  revert before. induction l as [|a l IH]; intros before; [by destruct before|].
  rewrite omap_cons_app. destruct (f a) as [b|] eqn:Ha; cbn [option_list app].
  - destruct before as [|b' before]; cbn [app]; intros [= -> Heq].
    + exists [], a, l. done.
    + destruct (IH before Heq) as (l1 & x & l2 & -> & Hx & H1). exists (a :: l1), x, l2.
      split_and!; [done|done|]. rewrite omap_cons_app, Ha, H1. done.
  - intros Heq. destruct (IH before Heq) as (l1 & x & l2 & -> & Hx & H1). exists (a :: l1), x, l2.
    split_and!; [done|done|]. by rewrite omap_cons_app, Ha.
Qed.

Lemma existsb_bool {A} (f : A → bool) l : existsb f l = true ↔ ∃ x, x ∈ l ∧ f x = true.
Proof. rewrite existsb_exists. by setoid_rewrite list_elem_of_In. Qed.

Lemma omap_head_exists {A B} (f : A → option B) (l : list A) : is_Some (head (omap f l)) ↔ ∃ x, x ∈ l ∧ is_Some (f x).
Proof.
  split.
  - intros [y (before & x & after & -> & Hx & _)%head_omap]. exists x. split; [set_solver|by exists y].
  - intros (x & Hx & [y Hy]). destruct (head (omap f l)) eqn:E; [done|].
    destruct (omap f l) as [|z zs] eqn:Eo; [|done]. exfalso.
    assert (Hin : y ∈ omap f l) by (apply list_elem_of_omap; eauto). rewrite Eo in Hin. by apply elem_of_nil in Hin.
Qed.

Lemma trimmed_blank s : trimmed_reason s = None ↔ is_empty (trim s) = true.
Proof. unfold trimmed_reason. by destruct (is_empty (trim s)). Qed.

Section hooks.
Context (regex_new : rstring → option (rstring → bool)).
Context {Value : Type} `{!Serde Value, !Process}.

Abbreviation select := (select_handlers_for_matcher_inputs regex_new).

(** ** Selection *)

(** A handler runs for an event when it is configured for it and, for the
    events that have a matcher, its matcher accepts one of the names. *)
Definition selected (event : HookEventName) (inputs : list rstring) (h : ConfiguredHandler) : bool :=
  bool_decide (h_event_name h = event) &&
  match event with
  | PreToolUse | PermissionRequest | PostToolUse | SessionStart =>
      if is_empty inputs then matches_matcher regex_new (matcher h) None
      else existsb (λ input, matches_matcher regex_new (matcher h) (Some input)) inputs
  | UserPromptSubmit | Stop => true
  end.

Lemma select_selected handlers event inputs :
  select handlers event inputs = List.filter (selected event inputs) handlers.
Proof. unfold select_handlers_for_matcher_inputs. by rewrite filter_twice. Qed.

(** ** Answers to permission requests *)

Inductive answer (r : CommandRunResult) : PermissionRequestDecision → Prop :=
| Answer_exit reason :
    error r = None → exit_code r = Some 2%Z → trimmed_non_empty (stderr r) = Some reason → answer r (Deny reason)
| Answer_json wire o d :
    error r = None → exit_code r = Some 0%Z → parse_json as_permission_request (stdout r) = Some wire →
    w_continue (perm_universal wire) = true → w_stop_reason (perm_universal wire) = None →
    w_suppress_output (perm_universal wire) = false →
    perm_hook_specific_output wire = Some o → perm_decision o = Some d →
    updated_input d = None → updated_permissions d = None → interrupt d = false →
    answer r (permission_request_decision d).

Lemma parse_json_nonempty {T} (f : Value → option T) s v : parse_json f s = Some v → is_empty (trim s) = false.
Proof. unfold parse_json. by destruct (is_empty (trim s)). Qed.

Lemma permission_universal_ok u :
  unsupported_permission_request_universal (universal_from u) = None ↔
  w_continue u = true ∧ w_stop_reason u = None ∧ w_suppress_output u = false.
Proof.
  unfold unsupported_permission_request_universal. cbn [continue_processing stop_reason suppress_output universal_from].
  destruct (w_continue u), (w_stop_reason u), (w_suppress_output u); cbn; naive_solver.
Qed.

Lemma permission_specific_ok (d : PermissionRequestDecisionWire Value) :
  unsupported_permission_request_hook_specific_output (Some d) = None ↔
  updated_input d = None ∧ updated_permissions d = None ∧ interrupt d = false.
Proof.
  unfold unsupported_permission_request_hook_specific_output. cbn.
  destruct (updated_input d), (updated_permissions d), (interrupt d); cbn; naive_solver.
Qed.

(** What the parser says of the output, in terms of the wire. *)
Lemma parse_permission_decision out dec :
  (∃ parsed, parse_permission_request out = Some parsed ∧ perm_out_invalid_reason parsed = None ∧
     perm_out_decision parsed = Some dec) ↔
  ∃ wire o d, parse_json as_permission_request out = Some wire ∧
    unsupported_permission_request_universal (universal_from (perm_universal wire)) = None ∧
    perm_hook_specific_output wire = Some o ∧ perm_decision o = Some d ∧
    unsupported_permission_request_hook_specific_output (Some d) = None ∧ dec = permission_request_decision d.
Proof.
  unfold parse_permission_request. split.
  - intros (parsed & Hp & Hi & Hd). destruct (parse_json _ out) as [wire|] eqn:Hw; [|discriminate].
    cbn in Hp. simplify_eq. cbn [perm_out_invalid_reason perm_out_decision] in Hi, Hd. rewrite Hi in Hd.
    destruct (unsupported_permission_request_universal _) eqn:Hu; [discriminate|]. cbn [or_else] in Hi.
    destruct (perm_hook_specific_output wire) as [o|] eqn:Ho; [|discriminate]. cbn in Hi, Hd.
    destruct (perm_decision o) as [d|] eqn:Hdd; [|discriminate]. cbn in Hd. simplify_eq.
    by exists wire, o, d.
  - intros (wire & o & d & -> & Hu & Ho & Hd & Hs & ->). eexists. split; [done|].
    cbn [perm_out_invalid_reason perm_out_decision]. rewrite Hu, Ho. cbn [or_else mbind option_bind].
    by rewrite Hd, Hs.
Qed.

Lemma permission_result_answer r d : rd_decision (permission_request_result r).2 = Some d ↔ answer r d.
Proof.
  unfold permission_request_result. split.
  - destruct (error r) as [e|] eqn:He; [done|]. destruct (exit_code r) as [[|[[]|[]|]|]|] eqn:Hx; try done.
    + destruct (is_empty (trim (stdout r))); [done|].
      destruct (parse_permission_request (stdout r)) as [parsed|] eqn:Hp.
      2:{ by destruct (looks_like_json _). }
      destruct (perm_out_invalid_reason parsed) eqn:Hi; [done|]. intros Hd.
      assert (Hd' : perm_out_decision parsed = Some d).
      { destruct (perm_out_decision parsed) as [[|m]|]; cbn in Hd; simplify_eq; done. }
      destruct (proj1 (parse_permission_decision (stdout r) d)) as (wire & o & w & Hw & Hu & Ho & Hod & Hs & ->);
        [by exists parsed|].
      apply permission_universal_ok in Hu. apply permission_specific_ok in Hs.
      destruct Hu as (? & ? & ?), Hs as (? & ? & ?). by eapply Answer_json.
    + destruct (trimmed_non_empty (stderr r)) as [m|] eqn:Ht; cbn; [|done]. intros [= <-]. by apply Answer_exit.
  - destruct 1 as [reason He Hx Ht|wire o d He Hx Hw Hc Hs Hsup Ho Hd Hi Hp Hint]; rewrite He, Hx.
    + by rewrite Ht.
    + rewrite (parse_json_nonempty _ _ _ Hw).
      destruct (proj2 (parse_permission_decision (stdout r) (permission_request_decision d))) as (parsed & -> & -> & ->).
      * exists wire, o, d. rewrite permission_universal_ok, permission_specific_ok. done.
      * by destruct (permission_request_decision d).
Qed.

(** ** Combining permission decisions *)

Lemma resolve_from_deny a ds m :
  (∀ m, a ≠ Some (Deny m)) →
  resolve_from a ds = Some (Deny m) ↔
  ∃ before after, ds = before ++ Deny m :: after ∧ ∀ m', Deny m' ∉ before.
Proof.
  revert a. induction ds as [|[|m0] ds IH]; intros a Ha; cbn [resolve_from].
  - split; [intros ->; by destruct (Ha m)|]. intros ([|] & ? & ? & _); discriminate.
  - rewrite IH by done. split.
    + intros (before & after & -> & Hb). exists (Allow :: before), after. split; [done|]. intros m' [|?]%elem_of_cons; [done|].
      by eapply Hb.
    + intros ([|x before] & after & Hl & Hb); cbn in Hl; simplify_eq.
      exists before, after. split; [done|]. intros m' ?. apply (Hb m'). by right.
  - split.
    + intros [= ->]. exists [], ds. split; [done|]. intros m' []%elem_of_nil.
    + intros ([|x before] & after & Hl & Hb); cbn in Hl; simplify_eq; [done|]. destruct (Hb m0). by left.
Qed.

Lemma resolve_from_allow a ds :
  (∀ m, a ≠ Some (Deny m)) →
  resolve_from a ds = Some Allow ↔ (a = Some Allow ∨ Allow ∈ ds) ∧ ∀ m, Deny m ∉ ds.
Proof.
  revert a. induction ds as [|[|m0] ds IH]; intros a Ha; cbn [resolve_from].
  - split; [intros ->; split; [by left|intros m []%elem_of_nil]|]. by intros [[?|[]%elem_of_nil] _].
  - rewrite IH by done. setoid_rewrite elem_of_cons. naive_solver.
  - split; [done|]. intros [_ Hn]. destruct (Hn m0). by left.
Qed.

Lemma resolve_from_none ds : resolve_from None ds = None ↔ ds = [].
Proof.
  destruct ds as [|[|m] ds]; [done|..]; (split; [|done]); cbn [resolve_from]; [|done]. intros Hn. exfalso. revert Hn.
  induction ds as [|[|m] ds IH]; done.
Qed.

(** The handlers that are asked. *)
Definition asked (handlers : list ConfiguredHandler) (q : PermissionRequestRequest Value) : list ConfiguredHandler :=
  select handlers PermissionRequest (matcher_inputs (perm_tool_name q) (perm_matcher_aliases q)).

(** What a handler answers to a request. *)
Definition answers (shell : CommandShell) (q : PermissionRequestRequest Value) (h : ConfiguredHandler)
    (d : PermissionRequestDecision) : Prop :=
  ∃ input_json,
    to_string (PermissionRequestCommandInput (perm_common q) (perm_turn_id q) (perm_tool_name q) (perm_tool_input q))
    = Ok input_json ∧
    answer (run_command shell h input_json (cwd (perm_common q))) d.

(** The decisions of the handlers, in their order. *)
Lemma permission_decision_of now handlers shell q :
  ∃ f, outcome_decision (permission_request_run regex_new now handlers shell q) =
         resolve_from None (omap f (asked handlers q)) ∧
       ∀ h d, f h = Some d ↔ answers shell q h d.
Proof.
  unfold permission_request_run. fold (asked handlers q).
  destruct (to_string (PermissionRequestCommandInput _ _ _ _)) as [json|e] eqn:Hj.
  - exists (λ h, rd_decision (permission_request_result (run_command shell h json (cwd (perm_common q)))).2). split.
    + destruct (is_empty (asked handlers q)) eqn:He.
      { apply is_empty_true in He. by rewrite He. }
      unfold execute_handlers, permission_request_parse_completed. cbn [outcome_decision].
      unfold resolve_permission_request_decision. f_equal. rewrite omap_of_fmap.
      apply omap_ext_all. intros h. unfold parsed_handler.
      by destruct (permission_request_result _) as [[? ?] ?].
    + intros h d. rewrite permission_result_answer. unfold answers. rewrite Hj. split; [by exists json|].
      by intros (? & [= <-] & ?).
  - exists (λ _, None). split.
    + destruct (is_empty (asked handlers q)); cbn [outcome_decision];
        (induction (asked handlers q) as [|x l IH]; [done|exact IH]).
    + intros h d. split; [done|]. intros (? & Hs & _). congruence.
Qed.

(** C26: Deciding a permission: among the decisions that count, a denial wins.  The
    first denial of a handler that matches is final and gives the message; a request
    is allowed exactly when a handler allows it and none denies it; and nothing is
    decided, so that the user is asked, exactly when no handler decides.  What counts
    is the code's reading: a hook that fails, that prints no decision or whose answer
    sets a reserved field decides nothing, even where that answer was a denial.  The
    comments of the wire schema say that hooks fail closed on reserved fields; the
    code drops such an answer, and the permission of another hook then decides
    ([reserved_field_drops_denial]). *)
Theorem permission_denial_wins now handlers shell q :
  let decision := outcome_decision (permission_request_run regex_new now handlers shell q) in
  (∀ m, decision = Some (Deny m) ↔
     ∃ before h after, asked handlers q = before ++ h :: after ∧ answers shell q h (Deny m) ∧
       ∀ h' m', h' ∈ before → ~ answers shell q h' (Deny m')) ∧
  (decision = Some Allow ↔
     (∃ h, h ∈ asked handlers q ∧ answers shell q h Allow) ∧
     ∀ h m, h ∈ asked handlers q → ~ answers shell q h (Deny m)) ∧
  (decision = None ↔ ∀ h d, h ∈ asked handlers q → ~ answers shell q h d).
Proof.
  destruct (permission_decision_of now handlers shell q) as (f & -> & Hf). cbn. split_and!.
  - intros m. rewrite resolve_from_deny by done. split.
    + intros (before & after & Heq & Hb).
      destruct (omap_split f _ _ _ _ Heq) as (l1 & h & l2 & Hl & Hh & H1). exists l1, h, l2.
      split_and!; [done|by apply Hf|]. intros h' m' Hin Ha%Hf. apply (Hb m'). rewrite <-H1. apply list_elem_of_omap. eauto.
    + intros (l1 & h & l2 & -> & Hh%Hf & Hb). exists (omap f l1), (omap f l2).
      rewrite omap_app, omap_cons_app, Hh. split; [done|].
      intros m' (h' & Hin & Ha%Hf)%list_elem_of_omap. by apply (Hb h' m').
  - rewrite resolve_from_allow by done. setoid_rewrite list_elem_of_omap. setoid_rewrite Hf.
    split; [intros [[?|?] Hn]; [done|]|]; naive_solver.
  - rewrite resolve_from_none. split.
    + intros Hn h d Hin Ha%Hf. assert (d ∈ omap f (asked handlers q)) as Hd by (apply list_elem_of_omap; eauto).
      rewrite Hn in Hd. by apply elem_of_nil in Hd.
    + intros Hn. destruct (omap f (asked handlers q)) as [|d ds] eqn:E; [done|]. exfalso.
      assert (d ∈ omap f (asked handlers q)) as (h & Hin & Ha%Hf)%list_elem_of_omap by (rewrite E; left).
      by apply (Hn h d).
Qed.

(** ** Blocking a tool *)

Definition clean (u : HookUniversalOutputWire) : Prop :=
  w_continue u = true ∧ w_stop_reason u = None ∧ w_suppress_output u = false.

Inductive blocks (r : CommandRunResult) : rstring → Prop :=
| Blocks_exit reason :
    error r = None → exit_code r = Some 2%Z → trimmed_non_empty (stderr r) = Some reason → blocks r reason
| Blocks_deny wire o reason :
    error r = None → exit_code r = Some 0%Z → parse_json as_pre_tool_use (stdout r) = Some wire →
    clean (pre_universal wire) → pre_hook_specific_output wire = Some o →
    permission_decision o = Some PdDeny → permission_decision_reason o ≫= trimmed_reason = Some reason →
    pre_updated_input o = None → pre_additional_context o ≫= trimmed_reason = None → blocks r reason
| Blocks_legacy wire reason :
    error r = None → exit_code r = Some 0%Z → parse_json as_pre_tool_use (stdout r) = Some wire →
    clean (pre_universal wire) → use_hook_specific_decision (pre_hook_specific_output wire) = false →
    pre_decision wire = Some BlockTool → pre_reason wire ≫= trimmed_reason = Some reason → blocks r reason.

Lemma pre_universal_ok u : unsupported_pre_tool_use_universal (universal_from u) = None ↔ clean u.
Proof.
  unfold unsupported_pre_tool_use_universal, clean. cbn [continue_processing stop_reason suppress_output universal_from].
  destruct (w_continue u), (w_stop_reason u), (w_suppress_output u); cbn; naive_solver.
Qed.

Lemma pre_specific_ok (o : PreToolUseHookSpecificOutputWire Value) :
  permission_decision o = Some PdDeny →
  unsupported_pre_tool_use_hook_specific_output o = None ↔
  pre_updated_input o = None ∧ pre_additional_context o ≫= trimmed_reason = None ∧
  is_Some (permission_decision_reason o ≫= trimmed_reason).
Proof.
  intros Hd. unfold unsupported_pre_tool_use_hook_specific_output. rewrite Hd.
  destruct (pre_updated_input o), (pre_additional_context o ≫= trimmed_reason),
    (permission_decision_reason o ≫= trimmed_reason); cbn; split; try done; (intros (? & ? & [? ?]); done) || eauto.
Qed.

(** What the parser takes for a reason to block, in terms of the wire. *)
Lemma parse_pre_block out reason :
  (∃ parsed, parse_pre_tool_use out = Some parsed ∧ pre_out_invalid_reason parsed = None ∧
     pre_out_block_reason parsed = Some reason) ↔
  ∃ wire, parse_json as_pre_tool_use out = Some wire ∧ clean (pre_universal wire) ∧
    ((∃ o, pre_hook_specific_output wire = Some o ∧ permission_decision o = Some PdDeny ∧
        permission_decision_reason o ≫= trimmed_reason = Some reason ∧ pre_updated_input o = None ∧
        pre_additional_context o ≫= trimmed_reason = None) ∨
     (use_hook_specific_decision (pre_hook_specific_output wire) = false ∧ pre_decision wire = Some BlockTool ∧
        pre_reason wire ≫= trimmed_reason = Some reason)).
Proof.
  unfold parse_pre_tool_use. split.
  - intros (parsed & Hp & Hi & Hb). destruct (parse_json _ out) as [wire|] eqn:Hw; [|discriminate].
    exists wire. cbn in Hp. simplify_eq. cbn [pre_out_invalid_reason pre_out_block_reason] in Hi, Hb. rewrite Hi in Hb.
    destruct (unsupported_pre_tool_use_universal _) eqn:Hu; [discriminate|]. cbn [or_else] in Hi.
    apply pre_universal_ok in Hu. split_and!; [done|done|].
    destruct (use_hook_specific_decision _) eqn:Huse.
    + left. destruct (pre_hook_specific_output wire) as [o|]; [|done]. cbn in Hi, Hb.
      destruct (permission_decision o) as [[]|] eqn:Hd; try discriminate.
      apply pre_specific_ok in Hi as (? & ? & _); [|done]. by exists o.
    + right. by destruct (pre_decision wire) as [[]|]; try discriminate.
  - intros (wire & -> & Hu%pre_universal_ok & Hcase). eexists. split; [done|].
    cbn [pre_out_invalid_reason pre_out_block_reason]. rewrite Hu. cbn [or_else].
    destruct Hcase as [(o & -> & Hd & Hr & Hi & Ha)|(-> & Hd & Hr)].
    + cbn [use_hook_specific_decision]. rewrite Hd. cbn [is_some orb mbind option_bind].
      rewrite (proj2 (pre_specific_ok o Hd)); [|by eauto]. by rewrite Hd.
    + rewrite Hd. cbn [unsupported_pre_tool_use_legacy_decision]. by rewrite Hr.
Qed.

Lemma pre_result_blocks r reason :
  pd_block_reason (pre_tool_use_result r).2 = Some reason ↔ blocks r reason.
Proof.
  unfold pre_tool_use_result. split.
  - destruct (error r) as [e|] eqn:He; [done|]. destruct (exit_code r) as [[|[[]|[]|]|]|] eqn:Hx; try done.
    + destruct (is_empty (trim (stdout r))); [done|].
      destruct (parse_pre_tool_use (stdout r)) as [parsed|] eqn:Hp.
      2:{ by destruct (looks_like_json _). }
      destruct (pre_out_invalid_reason parsed) eqn:Hi; [done|].
      destruct (pre_out_block_reason parsed) as [reason'|] eqn:Hb; cbn; [|done]. intros [= ->].
      destruct (proj1 (parse_pre_block (stdout r) reason)) as (wire & Hw & Hc & [(o & ? & ? & ? & ? & ?)|(? & ? & ?)]);
        [by exists parsed|by eapply Blocks_deny|by eapply Blocks_legacy].
    + destruct (trimmed_non_empty (stderr r)) as [m|] eqn:Ht; cbn; [|done]. intros [= <-]. by apply Blocks_exit.
  - intros Hb. destruct (Hb) as [? He Hx Ht|wire o ? He Hx Hw Hc|wire ? He Hx Hw Hc]; rewrite He, Hx; [by rewrite Ht|..];
      rewrite (parse_json_nonempty _ _ _ Hw);
      (destruct (proj2 (parse_pre_block (stdout r) reason)) as (parsed & -> & -> & ->);
        [exists wire; split_and!; [done|done|]|done]).
    + left. by exists o.
    + by right.
Qed.

Lemma pre_result_flag r : pd_should_block (pre_tool_use_result r).2 = is_some (pd_block_reason (pre_tool_use_result r).2).
Proof. unfold pre_tool_use_result. repeat case_match; done. Qed.

(** The reason with which a handler blocks a tool call. *)
Definition blocks_call (c : HookContext) (tool : HookToolName) (tool_use_id : rstring) (tool_input : Value)
    (h : ConfiguredHandler) (reason : rstring) : Prop :=
  ∃ input_json,
    to_string (PreToolUseCommandInput (common_input c) (sub_id c) (hook_name tool) tool_input tool_use_id)
    = Ok input_json ∧
    blocks (run_command (engine_shell c) h input_json (hook_cwd c)) reason.

Definition consulted (c : HookContext) (tool : HookToolName) : list ConfiguredHandler :=
  select (engine_handlers c) PreToolUse (matcher_inputs (hook_name tool) (hook_aliases tool)).

Definition names_command (tool : HookToolName) : bool :=
  (hook_name tool =?s $"Bash") || (hook_name tool =?s $"apply_patch").

Definition block_message (command_of : Value → option rstring) (tool : HookToolName) (tool_input : Value)
    (reason : rstring) : rstring :=
  match (if names_command tool then command_of tool_input else None) with
  | Some command => $"Command blocked by PreToolUse hook: " ++ reason ++ $". Command: " ++ command
  | None => $"Tool call blocked by PreToolUse hook: " ++ reason ++ $". Tool: " ++ hook_name tool
  end.

(** The reasons of the handlers, in their order, decide what the caller sees. *)
Lemma pre_reason_of command_of now now' c tool_use_id tool tool_input :
  ∃ f, (run_pre_tool_use_hooks regex_new command_of now now' c tool_use_id tool tool_input).2 =
         block_message command_of tool tool_input <$> head (omap f (consulted c tool)) ∧
       ∀ h reason, f h = Some reason ↔ blocks_call c tool tool_use_id tool_input h reason.
Proof.
  unfold run_pre_tool_use_hooks, pre_tool_use_run.
  cbn [snd pre_common pre_turn_id pre_tool_name pre_matcher_aliases pre_tool_use_id pre_tool_input].
  fold (consulted c tool). destruct (to_string (PreToolUseCommandInput _ _ _ _ _)) as [json|e] eqn:Hj.
  - exists (λ h, pd_block_reason (pre_tool_use_result (run_command (engine_shell c) h json (hook_cwd c))).2). split.
    + destruct (is_empty (consulted c tool)) eqn:He.
      { apply is_empty_true in He. by rewrite He. }
      cbn [pre_should_block pre_block_reason]. unfold execute_handlers, pre_tool_use_parse_completed.
      rewrite omap_of_fmap.
      rewrite (omap_ext_all _ (λ h, pd_block_reason (pre_tool_use_result (run_command (engine_shell c) h json (hook_cwd c))).2)).
      2:{ intros h. unfold parsed_handler. cbn [cwd common_input]. by destruct (pre_tool_use_result _) as [[? ?] ?]. }
      unfold block_message, names_command. destruct (existsb _ _) eqn:Hex; [done|].
      destruct (head _) as [reason|] eqn:Hh; [exfalso|done].
      apply head_omap in Hh as (l1 & h & l2 & Hl & Hr & _).
      assert (Ht : existsb (λ result, pd_should_block (data result))
                ((λ h, parsed_handler pre_tool_use_result h (run_command (engine_shell c) h json (cwd (common_input c))) (Some (sub_id c))) <$> consulted c tool) = true); [|congruence].
      apply existsb_bool. eexists. split; [apply list_elem_of_fmap; exists h; split; [done|rewrite Hl; set_solver]|].
      unfold parsed_handler. cbn [cwd common_input].
      pose proof (pre_result_flag (run_command (engine_shell c) h json (hook_cwd c))) as Hf. rewrite Hr in Hf.
      by destruct (pre_tool_use_result _) as [[? ?] ?].
    + intros h reason. rewrite pre_result_blocks. unfold blocks_call. rewrite Hj. split; [by exists json|].
      by intros (? & [= <-] & ?).
  - exists (λ _, None). split.
    + destruct (is_empty (consulted c tool)); cbn [pre_should_block]; (induction (consulted c tool) as [|x l IH]; [done|exact IH]).
    + intros h reason. split; [done|]. intros (? & Hs & _). congruence.
Qed.

(** C28: A tool call is refused exactly when one of the handlers that match blocks it,
    with the reason of the first that does: a handler that blocks always has a
    reason, without which the caller would let the call through. *)
Theorem tool_blocked_iff_hook_blocks command_of now now' c tool_use_id tool tool_input message :
  (run_pre_tool_use_hooks regex_new command_of now now' c tool_use_id tool tool_input).2 = Some message ↔
  ∃ before h after reason, consulted c tool = before ++ h :: after ∧
    blocks_call c tool tool_use_id tool_input h reason ∧
    (∀ h' reason', h' ∈ before → ~ blocks_call c tool tool_use_id tool_input h' reason') ∧
    message = block_message command_of tool tool_input reason.
Proof.
  destruct (pre_reason_of command_of now now' c tool_use_id tool tool_input) as (f & -> & Hf).
  rewrite fmap_Some. setoid_rewrite head_omap. split.
  - intros (reason & (before & h & after & Hl & Hh%Hf & Hb) & ->). exists before, h, after, reason.
    split_and!; [done|done| |done]. intros h' reason' Hin Hbl%Hf. by rewrite Hb in Hbl.
  - intros (before & h & after & reason & Hl & Hh%Hf & Hb & ->). exists reason. split; [|done].
    exists before, h, after. split_and!; [done|done|]. intros h' Hin.
    destruct (f h') as [reason'|] eqn:E; [|done]. apply Hf in E. by destruct (Hb h' reason').
Qed.

(** ** What is reported *)

Definition started_ids (events : list HookEventMsg) : list rstring :=
  omap (λ e, match e with HookStarted _ r => Some (id r) | HookCompleted _ => None end) events.
Definition completed_runs (events : list HookEventMsg) : list HookRunSummary :=
  omap (λ e, match e with HookStarted _ _ => None | HookCompleted e => Some (run e) end) events.

(** A run that is over says how and when. *)
Definition over (r : HookRunSummary) : Prop :=
  status r ≠ Running ∧ is_Some (completed_at r) ∧ is_Some (duration_ms r).

(** Every run that was announced is reported as over, in the same order. *)
Definition paired (events : list HookEventMsg) : Prop :=
  started_ids events = id <$> completed_runs events ∧ Forall over (completed_runs events).

(** The same of the lists the events are made of. *)
Definition concluded (preview : list HookRunSummary) (done_ : list HookCompletedEvent) : Prop :=
  id <$> preview = (λ e, id (run e)) <$> done_ ∧ Forall (λ e, over (run e)) done_.

Lemma emitted_paired c preview done_ :
  concluded preview done_ → paired (emit_hook_started_events c preview ++ emit_hook_completed_events done_).
Proof.
  intros [Hid Hover]. unfold paired, started_ids, completed_runs, emit_hook_started_events, emit_hook_completed_events.
  rewrite !omap_app, !omap_of_fmap.
  assert (Hs : ∀ A B (l : list A), omap (λ _, @None B) l = []) by (intros A B l; induction l; [done|exact IHl]).
  rewrite !Hs, app_nil_r, app_nil_l, <-!list_fmap_alt, <-list_fmap_compose. split; [done|].
  by apply Forall_fmap.
Qed.

Lemma parsed_id {T} res h r turn :
  id (run (completed (@parsed_handler T res h r turn))) = run_id h.
Proof. unfold parsed_handler. by destruct (res r) as [[? ?] ?]. Qed.

Lemma parsed_over {T} res h r turn :
  (res r).1.1 ≠ Running → over (run (completed (@parsed_handler T res h r turn))).
Proof. unfold parsed_handler, over. destruct (res r) as [[? ?] ?]. cbn. eauto. Qed.

Lemma failure_paired now now' (matched : list ConfiguredHandler) turn message :
  concluded (running_summary now <$> matched) (serialization_failure_hook_events now' matched turn message).
Proof.
  unfold concluded, serialization_failure_hook_events. split; [by rewrite <-!list_fmap_compose|].
  apply Forall_fmap, Forall_true. intros h. cbn. split_and!; cbn; [discriminate|eauto..].
Qed.

Lemma executed_paired {T} now (matched : list ConfiguredHandler) shell json dir turn
    (parse : ConfiguredHandler → CommandRunResult → option rstring → ParsedHandler T) :
  (∀ h r, id (run (completed (parse h r turn))) = run_id h) → (∀ h r, over (run (completed (parse h r turn)))) →
  concluded (running_summary now <$> matched) (completed <$> execute_handlers shell matched json dir turn parse).
Proof.
  intros Hid Hover. unfold concluded, execute_handlers. rewrite <-!list_fmap_compose. split.
  - apply list_fmap_ext. intros i h _. cbn. by rewrite Hid.
  - apply Forall_fmap, Forall_true. intros h. apply Hover.
Qed.

(** The tool call that is part of the ids changes neither. *)
Lemma for_tool_use_paired preview done_ suffix :
  concluded preview done_ →
  concluded ((λ r, hook_run_for_tool_use r suffix) <$> preview)
    ((λ e, hook_completed_for_tool_use e suffix) <$> done_).
Proof.
  intros [Hid Hover]. unfold concluded. rewrite <-!list_fmap_compose. split.
  - change (((λ i, i ++ $":" ++ suffix) ∘ id) <$> preview = ((λ i, i ++ $":" ++ suffix) ∘ (λ e, id (run e))) <$> done_).
    by rewrite !list_fmap_compose, Hid.
  - by apply Forall_fmap.
Qed.

Lemma pre_over r : (pre_tool_use_result r).1.1 ≠ Running.
Proof. unfold pre_tool_use_result. repeat case_match; done. Qed.
Lemma permission_over r : (permission_request_result r).1.1 ≠ Running.
Proof. unfold permission_request_result. repeat case_match; done. Qed.
Lemma post_over r : (post_tool_use_result r).1.1 ≠ Running.
Proof. unfold post_tool_use_result. repeat case_match; done. Qed.
Lemma prompt_over r : (user_prompt_submit_result r).1.1 ≠ Running.
Proof. unfold user_prompt_submit_result. repeat case_match; done. Qed.

Lemma no_match_paired now handlers :
  is_empty handlers = true → concluded (running_summary now <$> handlers) [].
Proof. by intros ->%is_empty_true. Qed.

Lemma fmap_twice {A B C} (f : A → B) (g : B → C) (l : list A) : (λ x, g (f x)) <$> l = g <$> (f <$> l).
Proof. by rewrite <-list_fmap_compose. Qed.

(** The events of a tool call: no handler, handlers that ran, or a failure to
    write their input. *)
Ltac solve_paired now is_over :=
  rewrite (fmap_twice (running_summary now) (λ r, hook_run_for_tool_use r _));
  destruct (is_empty _) eqn:He; cbn [pre_hook_events perm_hook_events post_hook_events];
  [ apply emitted_paired; apply is_empty_true in He; by rewrite He
  | destruct (to_string _); cbn [pre_hook_events perm_hook_events post_hook_events];
    [ rewrite (fmap_twice completed (λ e, hook_completed_for_tool_use e _));
      apply emitted_paired, for_tool_use_paired, executed_paired; intros h r;
      [apply parsed_id|apply parsed_over, is_over]
    | unfold serialization_failure_hook_events_for_tool_use;
      apply emitted_paired, for_tool_use_paired, failure_paired ] ].

Lemma pre_events_paired command_of now now' c tool_use_id tool tool_input :
  paired (run_pre_tool_use_hooks regex_new command_of now now' c tool_use_id tool tool_input).1.
Proof.
  unfold run_pre_tool_use_hooks, pre_tool_use_preview, pre_tool_use_run. cbn [fst].
  solve_paired now pre_over.
Qed.

Lemma permission_events_paired now now' c suffix tool tool_input :
  paired (run_permission_request_hooks regex_new now now' c suffix tool tool_input).1.
Proof.
  unfold run_permission_request_hooks, permission_request_preview, permission_request_run. cbn [fst].
  solve_paired now permission_over.
Qed.

Lemma post_events_paired now now' c tool_use_id name aliases input response :
  paired (run_post_tool_use_hooks regex_new now now' c tool_use_id name aliases input response).1.
Proof.
  unfold run_post_tool_use_hooks, post_tool_use_preview, post_tool_use_run. cbn [fst].
  solve_paired now post_over.
Qed.

Lemma prompt_events_paired now now' c text :
  paired (run_user_prompt_submit_hooks regex_new now now' c text).1.
Proof.
  unfold run_user_prompt_submit_hooks, user_prompt_submit_preview, user_prompt_submit_run. cbn [fst].
  destruct (is_empty _) eqn:He; cbn [co_hook_events no_context].
  { by apply emitted_paired, no_match_paired. }
  destruct (to_string _); cbn [co_hook_events no_context context_outcome].
  - apply emitted_paired, executed_paired; intros h r; [apply parsed_id|apply parsed_over, prompt_over].
  - apply emitted_paired, failure_paired.
Qed.

(** Whatever the processes do, and also when the input cannot be written, each
    hook run that is announced to the client is reported as over under the same
    id, in the same order, with an end and a duration. *)
Theorem every_announced_hook_ends command_of now now' c tool_use_id suffix tool name aliases input response text :
  paired (run_pre_tool_use_hooks regex_new command_of now now' c tool_use_id tool input).1 ∧
  paired (run_permission_request_hooks regex_new now now' c suffix tool input).1 ∧
  paired (run_post_tool_use_hooks regex_new now now' c tool_use_id name aliases input response).1 ∧
  paired (run_user_prompt_submit_hooks regex_new now now' c text).1.
Proof.
  split_and!; [apply pre_events_paired|apply permission_events_paired|apply post_events_paired|apply prompt_events_paired].
Qed.

(** ** Holding up the end of a turn *)

(** A handler blocks with a reason or not at all. *)
Definition stop_shape (hook_id : rstring) (d : StopHandlerData) : Prop :=
  (sd_should_block d = false ∧ sd_block_reason d = None ∧ sd_continuation_fragments d = []) ∨
  ∃ reason, reason ≠ [] ∧ d = stop_block hook_id reason.

Lemma trimmed_non_empty_ne s t : trimmed_non_empty s = Some t → t ≠ [].
Proof.
  unfold trimmed_non_empty. destruct (is_empty (trim s)) eqn:E; intros [= <-]. by apply is_empty_false in E.
Qed.

Lemma stop_result_shape hook_id r : stop_shape hook_id (stop_result hook_id r).2.
Proof.
  unfold stop_result, stop_shape. repeat case_match; cbn [snd failed]; try (by left; split_and!); right;
    eexists; (split; [|done]); try by eapply trimmed_non_empty_ne.
  destruct (stop_out_reason _); [|done]. cbn in *. by eapply trimmed_non_empty_ne.
Qed.

(** The reasons and the fragments of handlers of that shape. *)
Lemma stop_shapes (ids : list rstring) ds :
  Forall2 stop_shape ids ds →
  let fragments := concat (sd_continuation_fragments <$> List.filter sd_should_block ds) in
  omap sd_block_reason ds = fragment_text <$> fragments ∧
  Forall (λ f, hook_run_id f ∈ ids ∧ fragment_text f ≠ []) fragments ∧
  (existsb sd_should_block ds = true → fragments ≠ []).
Proof.
  induction 1 as [|hook_id d ids ds Hd _ IH]; [done|]. cbn zeta in *. destruct IH as (Ho & Hf & Hn).
  rewrite omap_cons_app. cbn [List.filter existsb].
  destruct Hd as [(-> & -> & _)|(reason & Hr & ->)]; cbn [option_list app orb].
  - split_and!; [done| |done]. eapply Forall_impl; [exact Hf|]. intros f [? ?]. split; [by right|done].
  - cbn [stop_block sd_should_block sd_block_reason option_list app orb fmap list_fmap concat sd_continuation_fragments].
    split_and!; [by rewrite Ho|constructor; [split; [by left|done]|]|done].
    eapply Forall_impl; [exact Hf|]. intros f [? ?]. split; [by right|done].
Qed.

(** A turn is never both stopped and continued; it is continued with at least
    one prompt, each from a hook that matches and not empty, and the reason shown
    is these prompts in order; otherwise there is neither reason nor prompt. *)
Theorem stop_continues_with_prompts now handlers shell q :
  let d := stop_data (stop_run regex_new now handlers shell q) in
  (sd_should_block d = true →
     sd_should_stop d = false ∧ sd_continuation_fragments d ≠ [] ∧
     sd_block_reason d = Some (join [NL; NL] (fragment_text <$> sd_continuation_fragments d)) ∧
     Forall (λ f, fragment_text f ≠ [] ∧
               hook_run_id f ∈ (run_id <$> select_handlers regex_new handlers Stop None))
       (sd_continuation_fragments d)) ∧
  (sd_should_block d = false → sd_block_reason d = None ∧ sd_continuation_fragments d = []).
Proof.
  unfold stop_run. set (matched := select_handlers regex_new handlers Stop None).
  destruct (is_empty matched); [by split|]. destruct (to_string _) as [json|e]; [|by split]. cbn [stop_data].
  set (ds := data <$> execute_handlers _ _ _ _ _ _).
  assert (Hs : Forall2 stop_shape (run_id <$> matched) ds).
  { unfold ds, execute_handlers. rewrite <-list_fmap_compose. apply Forall2_fmap, Forall_Forall2_diag, Forall_true.
    intros h. cbn. unfold stop_parse_completed, parsed_handler.
    pose proof (stop_result_shape (run_id h) (run_command shell h json (cwd (stop_common q)))) as Hsh.
    by destruct (stop_result _ _) as [[? ?] ?]. }
  destruct (stop_shapes _ _ Hs) as (Ho & Hf & Hn). unfold aggregate_results.
  cbn [sd_should_block sd_should_stop sd_block_reason sd_continuation_fragments].
  destruct (negb (existsb sd_should_stop ds) && existsb sd_should_block ds) eqn:Hb; [|by split]. split; [|done]. intros _.
  apply andb_true_iff in Hb as [Hstop%negb_true_iff Hblock]. specialize (Hn Hblock). split_and!; [done|done| |].
  - rewrite Ho. unfold join_text_chunks. destruct (concat _) as [|f fs]; done.
  - eapply Forall_impl; [exact Hf|]. by intros f [? ?].
Qed.
End hooks.

(** ** Examples *)

(** Two outputs of a hook: a denial that also asks to interrupt the turn, and a
    plain permission. *)
Inductive DemoValue := DemoDenyInterrupt | DemoAllow.

Definition demo_universal : HookUniversalOutputWire :=
  {| w_continue := true; w_stop_reason := None; w_suppress_output := false; w_system_message := None |}.

Definition demo_wire (b : PermissionRequestBehaviorWire) (i : bool) : PermissionRequestCommandOutputWire DemoValue :=
  {| perm_universal := demo_universal;
     perm_hook_specific_output :=
       Some {| perm_hook_event_name := PermissionRequest;
               perm_decision := Some {| behavior := b; updated_input := None; updated_permissions := None;
                                        message := Some $"not here"; interrupt := i |} |} |}.

#[local] Instance demo_serde : Serde DemoValue := {|
  from_str s := if s =?s $"{deny, interrupt}" then Some DemoDenyInterrupt
                else if s =?s $"{allow}" then Some DemoAllow else None;
  is_object _ := true;
  as_pre_tool_use _ := None;
  as_permission_request v :=
    Some (match v with DemoDenyInterrupt => demo_wire BehaviorDeny true | DemoAllow => demo_wire BehaviorAllow false end);
  as_post_tool_use _ := None;
  as_session_start _ := None;
  as_user_prompt_submit _ := None;
  as_stop _ := None;
  to_string _ := Ok $"{}" |}.

(** A process prints the last argument of its command. *)
#[local] Instance demo_process : Process := {|
  env_shell := None;
  child cmd _ _ _ :=
    {| ended := Output (Some 0%Z) (default [] (last cmd.2)) []; at_start := 0%Z; at_end := 1%Z; elapsed_ms := 7%Z |} |}.

Definition demo_handler (order : Z) (printed : rstring) : ConfiguredHandler :=
  {| h_event_name := PermissionRequest; is_managed := false; matcher := Some $"Bash|Edit"; command := printed;
     timeout_sec := 600; h_status_message := None; h_source_path := $"/home/u/.codex/hooks.json";
     h_source := SrcUser; h_display_order := order |}.

Definition demo_context (handlers : list ConfiguredHandler) : HookContext :=
  {| conversation_id := $"c"; sub_id := $"turn"; hook_cwd := $"/work"; hook_transcript_path := None;
     model_slug := $"m"; approval_policy := PatchSafety.OnRequest; engine_handlers := handlers;
     engine_shell := {| program := []; args := [] |} |}.

Definition demo_no_regex : rstring → option (rstring → bool) := λ _, None.

(** The schema says that hooks fail closed when a reserved field is set.  A
    denial with such a field is dropped, and the permission of another hook then
    decides. *)
Example reserved_field_drops_denial :
  (run_permission_request_hooks demo_no_regex 0 0
     (demo_context [demo_handler 0 $"{deny, interrupt}"; demo_handler 1 $"{allow}"])
     $"call" hook_tool_bash DemoAllow).2 = Some Allow.
Proof. vm_compute. reflexivity. Qed.

(** An alias selects a handler: editing through apply_patch is also called Edit. *)
Example alias_selects_once :
  started_ids (run_permission_request_hooks demo_no_regex 0 0 (demo_context [demo_handler 0 $"{allow}"])
     $"call" hook_tool_apply_patch DemoAllow).1
  = [ $"permission-request:0:/home/u/.codex/hooks.json:call"].
Proof. vm_compute. reflexivity. Qed.
End HookTheorems.
