(* ===== verification/HookDiscovery.v ===== *)
(** * Finding the hooks of a configuration (hooks/src/engine/discovery.rs)

    The handlers come from the managed requirements first and then from the
    layers of the configuration ([ConfigLayers]), lowest precedence first, each
    with its hooks.json and its hooks in TOML (config/src/hook_config.rs).  The
    engine is built from them (engine/mod.rs).  Warnings are constructors, one for each
    message.  The file system and the deserialisers are parameters (class
    [HookFiles]); as in the other files, the home directory is one too.

    The theorem: what is found is valid, in order, and has distinct run ids. *)

From S2P Require Import Prelude AbsPath ConfigLayers Delegation PatchSafety Hooks.

Module Discovery.
Import Hooks.

(** ** Configuration (config/src/hook_config.rs) *)

Inductive HookHandlerConfig :=
| CommandHook (command : rstring) (timeout_sec : option Z) (async : bool) (status_message : option rstring)
| PromptHook
| AgentHook.

Record MatcherGroup := { group_matcher : option rstring; group_hooks : list HookHandlerConfig }.

Record HookEventsToml := {
  pre_tool_use : list MatcherGroup;
  permission_request : list MatcherGroup;
  post_tool_use : list MatcherGroup;
  session_start : list MatcherGroup;
  user_prompt_submit : list MatcherGroup;
  stop : list MatcherGroup }.

Definition events_is_empty (e : HookEventsToml) : bool :=
  is_empty (pre_tool_use e) && is_empty (permission_request e) && is_empty (post_tool_use e)
  && is_empty (session_start e) && is_empty (user_prompt_submit e) && is_empty (stop e).

Definition into_matcher_groups (e : HookEventsToml) : list (HookEventName * list MatcherGroup) :=
  [(PreToolUse, pre_tool_use e); (PermissionRequest, permission_request e); (PostToolUse, post_tool_use e);
   (SessionStart, session_start e); (UserPromptSubmit, user_prompt_submit e); (Stop, stop e)].

Definition handler_count (e : HookEventsToml) : nat :=
  sum_list_with (λ g, length (group_hooks g)) (concat ((into_matcher_groups e).*2)).

Record ManagedHooksRequirementsToml := {
  managed_dir : option rstring;
  windows_managed_dir : option rstring;
  managed_events : HookEventsToml }.

(** Outside Windows. *)
Definition managed_dir_for_current_platform (m : ManagedHooksRequirementsToml) : option rstring := managed_dir m.

Inductive RequirementSource :=
| ReqUnknown
| MdmManagedPreferences (domain key : rstring)
| CloudRequirements
| SystemRequirementsToml (file : rstring)
| ReqLegacyManagedConfigTomlFromFile (file : rstring)
| ReqLegacyManagedConfigTomlFromMdm.

Definition display_requirement_source (s : RequirementSource) : rstring :=
  match s with
  | ReqUnknown => $"<unspecified>"
  | MdmManagedPreferences domain key => $"MDM " ++ domain ++ $":" ++ key
  | CloudRequirements => $"cloud requirements"
  | SystemRequirementsToml file | ReqLegacyManagedConfigTomlFromFile file => file
  | ReqLegacyManagedConfigTomlFromMdm => $"MDM managed_config.toml (legacy)"
  end.

(** ** Discovery *)

Inductive DiscoveryWarning :=
| TwoRepresentations (json_path toml_path : rstring)
| NoManagedDir (source : rstring)
| ManagedDirNotAbsolute (source dir : rstring)
| ManagedDirMissing (source dir : rstring)
| ManagedDirNotDirectory (source dir : rstring)
| ManagedDirNotNormal (source dir err : rstring)
| HooksNotRead (path err : rstring)
| HooksNotParsed (path err : rstring)
| HooksPathNotNormal (path err : rstring)
| TomlHooksNotParsed (path err : rstring)
| InvalidMatcher (matcher path : rstring)
| AsyncHook (path : rstring)
| EmptyCommand (path : rstring)
| PromptUnsupported (path : rstring)
| AgentUnsupported (path : rstring).

Record DiscoveryResult := { found : list ConfiguredHandler; warnings : list DiscoveryWarning }.

(** The two vectors and the counter that discovery appends to. *)
Record Found := { f_handlers : list ConfiguredHandler; f_warnings : list DiscoveryWarning; f_order : Z }.

Definition warn (w : DiscoveryWarning) (s : Found) : Found :=
  {| f_handlers := f_handlers s; f_warnings := f_warnings s ++ [w]; f_order := f_order s |}.

Record HookHandlerSource := { src_path : rstring; src_managed : bool; src_source : HookSource }.

Class HookFiles := {
  path_is_file : rstring → bool;
  path_exists : rstring → bool;
  path_is_dir : rstring → bool;
  read_to_string : rstring → result rstring rstring;
  hooks_file_from_str : rstring → result HookEventsToml rstring;
  hook_events_deserialize : Config.TomlValue → result HookEventsToml rstring }.

Section discovery.
Context (regex_new : rstring → option (rstring → bool)) (home current_dir : option rstring) `{!HookFiles}.

Definition append_group_handler (source : HookHandlerSource) (event : HookEventName) (m : option rstring)
    (s : Found) (h : HookHandlerConfig) : Found :=
  match h with
  | CommandHook command timeout async message =>
      if async then warn (AsyncHook (src_path source)) s
      else if is_empty (trim command) then warn (EmptyCommand (src_path source)) s
      else
        {| f_handlers :=
             f_handlers s ++
             [{| h_event_name := event; is_managed := src_managed source; matcher := m; command := command;
                 timeout_sec := Z.max (default 600 timeout)%Z 1; h_status_message := message;
                 h_source_path := src_path source; h_source := src_source source; h_display_order := f_order s |}];
           f_warnings := f_warnings s; f_order := (f_order s + 1)%Z |}
  | PromptHook => warn (PromptUnsupported (src_path source)) s
  | AgentHook => warn (AgentUnsupported (src_path source)) s
  end.

Definition append_group_handlers (source : HookHandlerSource) (event : HookEventName) (m : option rstring)
    (group : list HookHandlerConfig) (s : Found) : Found :=
  match m with
  | Some p =>
      if validate_matcher_pattern regex_new p then fold_left (append_group_handler source event m) group s
      else warn (InvalidMatcher p (src_path source)) s
  | None => fold_left (append_group_handler source event m) group s
  end.

Definition append_matcher_groups (source : HookHandlerSource) (event : HookEventName) (groups : list MatcherGroup)
    (s : Found) : Found :=
  fold_left (λ s g,
      append_group_handlers source event (matcher_pattern_for_event event (group_matcher g)) (group_hooks g) s)
    groups s.

Definition append_hook_events (source : HookHandlerSource) (e : HookEventsToml) (s : Found) : Found :=
  fold_left (λ s eg, append_matcher_groups source eg.1 eg.2 s) (into_matcher_groups e) s.

Definition managed_hooks_source_path (m : ManagedHooksRequirementsToml) (req : option RequirementSource)
    (s : Found) : option rstring * Found :=
  let source := default $"managed requirements" (display_requirement_source <$> req) in
  match managed_dir_for_current_platform m with
  | None => (None, warn (NoManagedDir source) s)
  | Some dir =>
      if negb (Path.is_absolute dir) then (None, warn (ManagedDirNotAbsolute source dir) s)
      else if negb (path_exists dir) then (None, warn (ManagedDirMissing source dir) s)
      else if negb (path_is_dir dir) then (None, warn (ManagedDirNotDirectory source dir) s)
      else
        match Path.from_absolute_path home current_dir dir with
        | Ok p => (Some p, s)
        | Err err => (None, warn (ManagedDirNotNormal source dir err) s)
        end
  end.

Definition hook_source_for_config_layer_source (s : Config.ConfigLayerSource) : HookSource :=
  match s with
  | Config.System _ => SrcSystem
  | Config.User _ => SrcUser
  | Config.Project _ => SrcProject
  | Config.Mdm _ _ => SrcMdm
  | Config.SessionFlags => SrcSessionFlags
  | Config.LegacyManagedConfigTomlFromFile _ => SrcLegacyManagedConfigFile
  | Config.LegacyManagedConfigTomlFromMdm => SrcLegacyManagedConfigMdm
  end.

Definition hook_source_for_requirement_source (s : option RequirementSource) : HookSource :=
  match s with
  | Some (MdmManagedPreferences _ _) => SrcMdm
  | Some (SystemRequirementsToml _) => SrcSystem
  | Some (ReqLegacyManagedConfigTomlFromFile _) => SrcLegacyManagedConfigFile
  | Some ReqLegacyManagedConfigTomlFromMdm => SrcLegacyManagedConfigMdm
  | Some (CloudRequirements | ReqUnknown) | None => SrcUnknown
  end.

Definition load_hooks_json (folder : option rstring) (s : Found) : option (rstring * HookEventsToml) * Found :=
  match folder with
  | None => (None, s)
  | Some folder =>
      let source_path := Path.push folder $"hooks.json" in
      if negb (path_is_file source_path) then (None, s)
      else
        match read_to_string source_path with
        | Err err => (None, warn (HooksNotRead source_path err) s)
        | Ok contents =>
            match hooks_file_from_str contents with
            | Err err => (None, warn (HooksNotParsed source_path err) s)
            | Ok hooks =>
                match Path.from_absolute_path home current_dir source_path with
                | Err err => (None, warn (HooksPathNotNormal source_path err) s)
                | Ok source_path => (if events_is_empty hooks then None else Some (source_path, hooks), s)
                end
            end
        end
  end.

Definition CONFIG_TOML_FILE : rstring := $"config.toml".

Definition synthetic_layer_path (p : rstring) : rstring := Path.resolve_path_against_base home p $"/".

Definition config_toml_source_path (l : Config.ConfigLayerEntry) : rstring :=
  match Config.name l with
  | Config.System file | Config.User file | Config.LegacyManagedConfigTomlFromFile file => file
  | Config.Project dot_codex_folder => Path.resolve_path_against_base home CONFIG_TOML_FILE dot_codex_folder
  | Config.Mdm domain key =>
      synthetic_layer_path ($"<mdm:" ++ domain ++ $":" ++ key ++ $">/" ++ CONFIG_TOML_FILE)
  | Config.LegacyManagedConfigTomlFromMdm => synthetic_layer_path $"<legacy-managed-config.toml-mdm>/managed_config.toml"
  | Config.SessionFlags => synthetic_layer_path $"<session-flags>/config.toml"
  end.

(** [Value::get] of a key. *)
Definition toml_get (v : Config.TomlValue) (key : rstring) : option Config.TomlValue :=
  match v with Config.TTable m => m !! key | _ => None end.

Definition load_toml_hooks_from_layer (l : Config.ConfigLayerEntry) (s : Found)
  : option (rstring * HookEventsToml) * Found :=
  let source_path := config_toml_source_path l in
  match toml_get (Config.config l) $"hooks" with
  | None => (None, s)
  | Some hook_value =>
      match hook_events_deserialize hook_value with
      | Err err => (None, warn (TomlHooksNotParsed source_path err) s)
      | Ok parsed => (if events_is_empty parsed then None else Some (source_path, parsed), s)
      end
  end.

(** One of the two representations of a layer. *)
Definition append_layer_hooks (source : HookSource) (hooks : option (rstring * HookEventsToml)) (s : Found) : Found :=
  match hooks with
  | Some (source_path, hook_events) =>
      append_hook_events {| src_path := source_path; src_managed := false; src_source := source |} hook_events s
  | None => s
  end.

Definition append_layer (s : Found) (l : Config.ConfigLayerEntry) : Found :=
  let hook_source := hook_source_for_config_layer_source (Config.name l) in
  let '(json_hooks, s) := load_hooks_json (Config.config_folder l) s in
  let '(toml_hooks, s) := load_toml_hooks_from_layer l s in
  let s :=
    match json_hooks, toml_hooks with
    | Some (json_path, json_events), Some (toml_path, toml_events) =>
        if negb (events_is_empty json_events) && negb (events_is_empty toml_events)
        then warn (TwoRepresentations json_path toml_path) s else s
    | _, _ => s
    end in
  append_layer_hooks hook_source toml_hooks (append_layer_hooks hook_source json_hooks s).

(** The requirements, of which only the managed hooks matter here. *)
Context {R T : Type} (managed_hooks : R → option (ManagedHooksRequirementsToml * option RequirementSource)).

Definition append_managed_requirement_handlers (stack : Config.ConfigLayerStack R T) (s : Found) : Found :=
  match managed_hooks (Config.requirements stack) with
  | None => s
  | Some (m, req) =>
      match managed_hooks_source_path m req s with
      | (None, s) => s
      | (Some source_path, s) =>
          append_hook_events
            {| src_path := source_path; src_managed := true; src_source := hook_source_for_requirement_source req |}
            (managed_events m) s
      end
  end.

Definition discover_handlers (stack : option (Config.ConfigLayerStack R T)) : DiscoveryResult :=
  match stack with
  | None => {| found := []; warnings := [] |}
  | Some stack =>
      let s := append_managed_requirement_handlers stack {| f_handlers := []; f_warnings := []; f_order := 0 |} in
      let s := fold_left append_layer (Config.get_layers stack Config.LowestPrecedenceFirst false) s in
      {| found := f_handlers s; warnings := f_warnings s |}
  end.

(** ** The engine (engine/mod.rs) *)

Record ClaudeHooksEngine := {
  handlers : list ConfiguredHandler;
  engine_warnings : list DiscoveryWarning;
  shell : CommandShell }.

Definition engine_new (enabled : bool) (stack : option (Config.ConfigLayerStack R T)) (shell : CommandShell)
  : ClaudeHooksEngine :=
  if negb enabled then {| handlers := []; engine_warnings := []; shell := shell |}
  else
    let discovered := discover_handlers stack in
    {| handlers := found discovered; engine_warnings := warnings discovered; shell := shell |}.

(** ** Valid handlers *)

Definition valid_handler (h : ConfiguredHandler) : Prop :=
  is_empty (trim (command h)) = false ∧ (1 <= timeout_sec h)%Z ∧
  matcher_pattern_for_event (h_event_name h) (matcher h) = matcher h ∧
  (∀ m, matcher h = Some m → validate_matcher_pattern regex_new m = true).

(** A step that appends handlers of one source to what is found. *)
Definition appends (managed : bool) (s s' : Found) : Prop :=
  ∃ new, f_handlers s' = f_handlers s ++ new ∧ Forall valid_handler new ∧
    h_display_order <$> new = (λ i, (f_order s + Z.of_nat i)%Z) <$> seq 0 (length new) ∧
    f_order s' = (f_order s + Z.of_nat (length new))%Z ∧
    Forall (λ h, is_managed h = managed) new.

Lemma appends_refl managed s s' :
  f_handlers s' = f_handlers s → f_order s' = f_order s → appends managed s s'.
Proof. intros Hh Ho. exists []. rewrite app_nil_r. split_and!; [done|done|done|cbn; lia|done]. Qed.

Lemma appends_warn managed w s : appends managed s (warn w s).
Proof. by apply appends_refl. Qed.

Lemma appends_trans managed s1 s2 s3 : appends managed s1 s2 → appends managed s2 s3 → appends managed s1 s3.
Proof.
  intros (n1 & H1 & V1 & O1 & C1 & M1) (n2 & H2 & V2 & O2 & C2 & M2). exists (n1 ++ n2).
  rewrite H2, H1, app_assoc, length_app, C2, C1.
  split_and!; [done|by apply Forall_app| |lia|by apply Forall_app].
  rewrite seq_app, !fmap_app, O1, O2, C1. f_equal.
  rewrite (Nat.add_comm 0), <-(fmap_add_seq (length n1) 0), <-list_fmap_compose.
  apply list_fmap_ext. intros i x _. cbn. lia.
Qed.

Lemma appends_fold {A} managed (f : Found → A → Found) l s :
  (∀ s x, x ∈ l → appends managed s (f s x)) → appends managed s (fold_left f l s).
Proof.
  revert s. induction l as [|x l IH]; intros s Hf; cbn [fold_left]; [by apply appends_refl|].
  eapply appends_trans; [apply Hf; by left|]. apply IH. intros s' y Hy. apply Hf. by right.
Qed.

Lemma appends_handler source event m h s :
  matcher_pattern_for_event event m = m → (∀ p, m = Some p → validate_matcher_pattern regex_new p = true) →
  appends (src_managed source) s (append_group_handler source event m s h).
Proof.
  intros Hm Hv. destruct h as [command timeout async message| |]; cbn [append_group_handler]; [|apply appends_warn..].
  destruct async; [apply appends_warn|]. destruct (is_empty (trim command)) eqn:He; [apply appends_warn|].
  eexists [_]. cbn [f_handlers f_order]. split_and!; [done| | |cbn; lia|by repeat constructor].
  - constructor; [|done]. split_and!; cbn; [done|lia|done|done].
  - cbn. f_equal. lia.
Qed.

Lemma appends_events source e s : appends (src_managed source) s (append_hook_events source e s).
Proof.
  apply appends_fold. intros s1 [event groups] _. cbn [fst snd]. apply appends_fold. intros s2 g _.
  unfold append_group_handlers. set (m := matcher_pattern_for_event _ _).
  assert (Hm : matcher_pattern_for_event event m = m) by by destruct event.
  destruct m as [p|] eqn:Ep.
  - destruct (validate_matcher_pattern regex_new p) eqn:Hp; [|apply appends_warn].
    apply appends_fold. intros s3 h _. apply appends_handler; [done|]. by intros ? [= <-].
  - apply appends_fold. intros s3 h _. by apply appends_handler.
Qed.

Lemma appends_layer s l : appends false s (append_layer s l).
Proof.
  assert (Hload : ∀ folder s, appends false s (load_hooks_json folder s).2).
  { intros folder s'. unfold load_hooks_json. repeat case_match; try apply appends_warn; by apply appends_refl. }
  assert (Htoml : ∀ s, appends false s (load_toml_hooks_from_layer l s).2).
  { intros s'. unfold load_toml_hooks_from_layer. repeat case_match; try apply appends_warn; by apply appends_refl. }
  assert (Happ : ∀ source hooks s, appends false s (append_layer_hooks source hooks s)).
  { intros source [[path events]|] s'; [|by apply appends_refl].
    apply (appends_events {| src_path := path; src_managed := false; src_source := source |}). }
  unfold append_layer. specialize (Hload (Config.config_folder l) s).
  destruct (load_hooks_json _ s) as [json s1]. specialize (Htoml s1).
  destruct (load_toml_hooks_from_layer l s1) as [toml s2]. cbn [snd] in *.
  do 2 (eapply appends_trans; [|apply Happ]).
  eapply appends_trans; [exact Hload|]. eapply appends_trans; [exact Htoml|].
  repeat case_match; first [apply appends_warn|by apply appends_refl].
Qed.

Lemma appends_managed stack s : appends true s (append_managed_requirement_handlers stack s).
Proof.
  unfold append_managed_requirement_handlers. destruct (managed_hooks _) as [[m req]|]; [|by apply appends_refl].
  assert (Hp : appends true s (managed_hooks_source_path m req s).2).
  { unfold managed_hooks_source_path. repeat case_match; try apply appends_warn; by apply appends_refl. }
  destruct (managed_hooks_source_path m req s) as [[path|] s']; [|done]. eapply appends_trans; [exact Hp|].
  apply (appends_events {| src_path := path; src_managed := true; src_source := hook_source_for_requirement_source req |}).
Qed.

(** ** Run ids *)

(** The value of a sequence of digits. *)
Definition read_digits (s : rstring) : Z := fold_left (λ v c, v * 10 + (c - 48))%Z s 0%Z.

Lemma show_nat_go_digits fuel n acc :
  n ≤ fuel → ∃ ds, show_nat_go fuel n acc = ds ++ acc ∧ read_digits ds = Z.of_nat n ∧ Forall (λ c, 48 <= c <= 57)%Z ds.
Proof.
  revert n acc. induction fuel as [|fuel IH]; intros n acc Hn; cbn [show_nat_go].
  - replace n with 0 by lia. exists [48%Z]. split_and!; [done|done|constructor; [lia|constructor]].
  - assert (Hd : (48 <= 48 + Z.of_nat (n mod 10) <= 57)%Z) by (pose proof (Nat.mod_upper_bound n 10); lia).
    assert (Hdiv : Z.of_nat n = (Z.of_nat (n / 10) * 10 + Z.of_nat (n mod 10))%Z)
      by (pose proof (Nat.div_mod_eq n 10); lia).
    destruct (n / 10 =? 0) eqn:E.
    + apply Nat.eqb_eq in E. exists [(48 + Z.of_nat (n mod 10))%Z]. rewrite E in Hdiv.
      split_and!; [done|unfold read_digits; cbn [fold_left]; lia|constructor; [lia|constructor]].
    + apply Nat.eqb_neq in E.
      destruct (IH (n / 10) ((48 + Z.of_nat (n mod 10))%Z :: acc)) as (ds & -> & Hr & Hf).
      { pose proof (Nat.div_lt n 10). destruct n; [by cbn in E|lia]. }
      exists (ds ++ [(48 + Z.of_nat (n mod 10))%Z]). split_and!; [by rewrite <-app_assoc| |].
      * unfold read_digits in *. rewrite fold_left_app. cbn [fold_left]. rewrite Hr. lia.
      * apply Forall_app. split; [done|constructor; [lia|constructor]].
Qed.

Lemma show_nat_digits n : read_digits (show_nat n) = Z.of_nat n ∧ 58%Z ∉ show_nat n.
Proof.
  unfold show_nat. destruct (show_nat_go_digits n n []) as (ds & -> & Hr & Hf); [done|]. rewrite app_nil_r.
  split; [done|]. intros Hin. rewrite Forall_forall in Hf. specialize (Hf _ Hin). lia.
Qed.

Lemma split_once_app c a b : c ∉ a → split_once c (a ++ c :: b) = Some (a, b).
Proof.
  induction a as [|x a IH]; intros Hc; cbn; [by rewrite Z.eqb_refl|].
  apply not_elem_of_cons in Hc as [Hx Hc]. rewrite (IH Hc). by destruct (x =? c)%Z eqn:E; [lia|].
Qed.

Lemma label_no_colon h : 58%Z ∉ event_name_label h.
Proof. unfold event_name_label. by destruct (h_event_name h); vm_decide. Qed.

(** A run id tells the number of its handler. *)
Lemma run_id_order h h' :
  (0 <= h_display_order h)%Z → (0 <= h_display_order h')%Z → run_id h = run_id h' →
  h_display_order h = h_display_order h'.
Proof.
  intros H1 H2 Heq. unfold run_id in Heq.
  assert (Hs : split_once 58 (event_name_label h ++ $":" ++ Delegation.show_Z (h_display_order h) ++ $":" ++ h_source_path h)
             = split_once 58 (event_name_label h' ++ $":" ++ Delegation.show_Z (h_display_order h') ++ $":" ++ h_source_path h'))
    by by rewrite Heq.
  change ($":") with [58%Z] in Hs. cbn [app] in Hs. rewrite !split_once_app in Hs by apply label_no_colon.
  injection Hs as _ Hs. unfold Delegation.show_Z in Hs.
  rewrite (proj2 (Z.ltb_ge _ _) H1), (proj2 (Z.ltb_ge _ _) H2) in Hs.
  apply (f_equal (split_once 58)) in Hs. rewrite !split_once_app in Hs by apply show_nat_digits.
  injection Hs as Hs _. apply (f_equal read_digits) in Hs. rewrite !(proj1 (show_nat_digits _)) in Hs. lia.
Qed.

Lemma run_ids_distinct hs n :
  h_display_order <$> hs = Z.of_nat <$> seq n (length hs) → NoDup (run_id <$> hs).
Proof.
  revert n. induction hs as [|h hs IH]; intros n Ho; [constructor|].
  cbn in Ho. injection Ho as Hh Ho. rewrite fmap_cons. constructor; [|by eapply IH].
  intros (h' & Hid & [i Hi]%list_elem_of_lookup)%list_elem_of_fmap.
  assert (Hl : (h_display_order <$> hs) !! i = Some (h_display_order h')) by by rewrite list_lookup_fmap, Hi.
  rewrite Ho, list_lookup_fmap in Hl. destruct (seq (S n) (length hs) !! i) as [k|] eqn:Ek; [|done].
  apply lookup_seq in Ek as [-> _]. cbn in Hl. injection Hl as Hl.
  apply run_id_order in Hid; lia.
Qed.

(** Discovery: every handler of an engine has a command that is not blank, a
    timeout of at least a second and a matcher that its event allows and that
    compiles; the handlers are numbered from zero in their order, so that no two
    runs have the same id; and those of the administrator come before all others. *)
Theorem discovered_handlers_are_valid enabled stack sh :
  let hs := handlers (engine_new enabled stack sh) in
  Forall valid_handler hs ∧
  h_display_order <$> hs = Z.of_nat <$> seq 0 (length hs) ∧
  NoDup (run_id <$> hs) ∧
  ∃ managed others, hs = managed ++ others ∧
    Forall (λ h, is_managed h = true) managed ∧ Forall (λ h, is_managed h = false) others.
Proof.
  assert (Hnil : let hs := [] in Forall valid_handler hs ∧ h_display_order <$> hs = Z.of_nat <$> seq 0 (length hs) ∧
    NoDup (run_id <$> hs) ∧ ∃ managed others, hs = managed ++ others ∧
    Forall (λ h, is_managed h = true) managed ∧ Forall (λ h, is_managed h = false) others).
  { split_and!; [done|done|constructor|by exists [], []]. }
  unfold engine_new, discover_handlers. destruct enabled; cbn [negb handlers]; [|done].
  destruct stack as [stack|]; [|done]. cbn [found].
  set (s0 := {| f_handlers := []; f_warnings := []; f_order := 0 |}).
  set (s1 := append_managed_requirement_handlers stack s0).
  set (layers := Config.get_layers stack Config.LowestPrecedenceFirst false).
  destruct (appends_managed stack s0) as (n1 & H1 & V1 & O1 & C1 & M1). fold s1 in H1, C1.
  destruct (appends_fold false append_layer layers s1) as (n2 & H2 & V2 & O2 & C2 & M2); [intros s l _; apply appends_layer|].
  cbn [f_handlers s0 app] in H1. rewrite H2, H1.
  assert (Ho : h_display_order <$> n1 ++ n2 = Z.of_nat <$> seq 0 (length (n1 ++ n2))).
  { rewrite length_app, seq_app, !fmap_app, O1, O2, C1. f_equal.
    rewrite (Nat.add_comm 0), <-(fmap_add_seq (length n1) 0), <-list_fmap_compose.
    apply list_fmap_ext. intros i x _. cbn. lia. }
  split_and!; [by apply Forall_app|done|by eapply run_ids_distinct|by exists n1, n2].
Qed.
End discovery.
End Discovery.
